(* ===== verification/_CoqProject ===== *)
-Q . S2P
Prelude.v
JsString.v
Paths.v
Delimited.v
TableModel.v
TableFacts.v
Access.v
ShareTree.v
Zip.v
NotFound.v
FileKinds.v
UploadRetry.v
MultiSelect.v
ZipFacts.v
Utf8.v
Bytes.v
JsonTree.v
JsonParse.v
ArchiveReader.v
Search.v
RecentItems.v
CloudRestore.v
BackupRows.v
HealthChecks.v
NeedsYou.v
Base64.v
BackupCrypto.v
CryptoFacts.v
Buffers.v
CloudFormat.v
CloudFacts.v
CloudPrivate.v
CloudPrivateFacts.v
CloudKeys.v
CloudKeysFacts.v
Network.v
PrivateRestore.v
PrivateRestoreFacts.v
CloudPhrase.v
CloudPhraseFacts.v
PackReader.v
PackReaderFacts.v
CollabSocket.v
CollabSocketFacts.v
CollabDocSync.v
CollabFacts.v
CollabRoom.v
CollabConverge.v
CollabTheorems.v
DiagramCollab.v
DiagramFacts.v
FormDocument.v
FileNames.v
FormFacts.v
QuestionTypes.v
FormAnswersFacts.v
OpsTypes.v
OpsCopy.v
OpsErrors.v
Api.v
OpsStore.v
OpsFrame.v
OpsStoreFacts.v
OpsSelectors.v
OpsState.v
OpsUploads.v
CollectFiles.v
OpsJobs.v
OpsRequests.v
FileOps.v
OpsStable.v
OpsCalm.v
OpsPool.v
OpsBatch.v
OpsEmit.v
OpsCaution.v
OpsTheorems.v
X2tWorker.v
