(* ===== verification/Prelude.v ===== *)
(** * LibreServ web clients: a verification development

    LibreServ is a self-hosted file server ("Luna"), with a web client in JavaScript under
    [luna/web/src], a cloud client under [luna/connect/web/src] and shared libraries under
    [shared/ui/lib].  The services behind them are written in Rust and Go.  This development models the
    clients' own logic: the libraries that keep state, decide what is sent and check what comes back.
    The React components around them call these libraries and render what they return.

    ** Foundations

    - [Prelude]: notations, functional record update ([r <| f := v |>]), lemmas on lists.
    - [JsString]: strings as lists of 16-bit code units ([js "…"] turns a literal into
      its code units), doubles through [SpecFloat], [splice] and stable [sort] of arrays.  Counters and sizes are [Z]:
      they stay below 2^53, where the doubles of the code are exact; the divisions that are shown are done on
      doubles.  Integers whose width matters keep it: the 32-bit operators of [Zip], the big-endian fields
      of [Bytes].
    - [Bytes], [Utf8], [Base64], [Buffers]: byte arrays, thrown errors as values ([thrown]), JSON trees
      and the coercions of the language, a heap of arrays that are wiped ([buffers], with
      [throw]/[catch]/[finally]).
    - [Network]: sequential [async] functions.  A client holds its arrays, the replies its requests will get,
      the abort signal and a log of what was sent; a run consumes replies, and one that awaits a
      reply beyond the list is [Waiting].  [hoare] is the program logic of these runs.

    ** Parts of the program

    Files and folders ([luna/web/src/lib]):
    - [Paths]: [paths.js], on the segments of a path.
    - [Delimited]: [delimited.js], the CSV/TSV reader, against the grammar of its texts.
    - [TableModel], [TableFacts]: [components/files/markdownTableModel.js], GFM tables.
    - [Access], [ShareTree]: [access.js] and [shareTree.js], capabilities as bits and the tree of grants.
    - [FileKinds]: [fileKinds.js] and what [officeConvert.js] offers, the viewer a name opens in.  [FileNames]: [createName.js],
      [renameExtension.js], [fileCounts.js].
    - [CollectFiles]: [collectUploadFiles.js], what a drop holds, walked while files are reported or collected first;
      a clock of its own steps says where an abort falls.  [UploadRetry]: [uploadRetry.js], over a request that takes time.
    - [MultiSelect]: [hooks/useMultiSelect.js].  [RecentItems]: [recentItems.js], the stored list and its links, over
      [Utf8], the language's decoding of escapes and queries.
    - [NotFound]: [notFoundHelpers.js], the pages suggested for a mistyped address.
    - [Search]: [fileSearch.js], the parts of a name that are underlined and the words around a hit, and
      [shared/ui/lib/settingsSearch.js], the search over an index of settings.
    - [ArchiveReader]: [archiveReader.js], what the viewer lists and reads of a zip and a tar.

    Requests: [Api]: [luna/web/src/lib/api.js], what every helper sends and makes of the answer, over the browser's outcome,
    cookies and clock; [apiErrorMessage] is in [OpsErrors].

    The dashboard ([luna/web/src/lib]):
    - [BackupRows]: [backupRows.js].  [HealthChecks]: [driveHealth.js], [healthChecks.js], [needsYouChecks.js].
    - [NeedsYou]: [needsYouBackups.js], [needsYou.js], with [drives.js] and [formatBytes.js]: the list of what needs the viewer, from drives, checks and backups.

    File operations ([luna/web/src/lib/fileOps]), where uploads, copies and batches run at once:
    - [OpsTypes], [OpsCopy], [OpsErrors], [OpsSelectors]: data, words, error classification, readers.
    - [OpsStore]: [store.js], the state [createFileOpsStore] closes over ([Core]: heap of operations and
      items, snapshots, timers, clock, log of effects), one definition per function.
    - [OpsState]: the whole state [St]: [Core], the variables of the runners, the promises awaited, the
      session storage.
    - [OpsUploads], [OpsJobs], [OpsRequests]: [uploadRunner.js], [jobRunner.js], [requestRunner.js].  An
      asynchronous function is cut at its [await]s: each leaves a task with its local variables, and the
      continuation runs when the promise settles.
    - [FileOps]: the store's actions and [step], which interleaves actions, time, timers, settled
      promises and callbacks in any order.
    - [OpsFrame], [OpsStoreFacts], [OpsStable], [OpsCalm]: what functions leave alone; an invariant closed
      under the writes of the runners is preserved by all of them, so that each invariant below is proved
      from the few functions it is about.
    - [OpsPool], [OpsBatch], [OpsEmit], [OpsCaution] (with [cancel]), [OpsTheorems]:
      the invariants and the theorems; [OpsEmit] has the stored jobs too.

    Documents edited together ([luna/web/src/components/files]):
    - [CollabSocket], [CollabSocketFacts]: [office/collabSocket.js], over the browser's connections, the timers and
      the clock, with the invariant of sockets, connections and timers that every operation keeps.
    - [CollabDocSync]: [collabDocSync.js].  [step] is what the editor, the browser or a timer does next,
      [reachable] the sessions that can come of it.  Yjs is the class [Yjs].
    - [CollabFacts]: what a session's functions leave alone, and its connection over all steps.
    - [CollabRoom], [CollabConverge], [CollabTheorems]: several sessions and lunad's hub between them, which delivers
      frames in any order or loses them; what a joiner receives under Yjs's laws ([YjsLaws]); the theorems and
      runs on a small document type.
    - [X2tWorker]: of [office/euroOfficeApi.js] the queue of conversions that one worker answers, with its replies, failures
      and time limit.
    - [DiagramCollab], [DiagramFacts]: [diagram/diagramCollab.js], the patches of the diagram editor, which numbers a
      save may name, and the election of the one who uploads.  [JsonTree] is [JSON.stringify] of JSON trees.

    Forms:
    - [FormDocument], [FormFacts]: [lib/formDocument.js], opening and saving a form, its responses and their table.
    - [QuestionTypes], [FormAnswersFacts]: [components/files/forms/questionTypes.js], the registry of types, the questions an
      answer skips, the summaries; the facts of both about answers.
    - [JsonParse]: [JSON.parse], and that it reads what [JsonTree] writes.

    Zip archives ([luna/connect/web/src/lib/zip.js]): [Zip], and [ZipFacts] with a reader and bitwise CRC-32.

    Encrypted backups ([shared/ui/lib/cloud] and [luna/web/src/lib]):
    - [BackupCrypto], [CryptoFacts]: [backupCrypto.js]: sealing, encryption, derivation, signed bytes.
    - [CloudFormat], [CloudFacts]: [cloudFormat.js]: signed snapshots, packs, file lists and files.
    - [PackReader], [PackReaderFacts]: [makePackReaderWith] of [cloudFormat.js], the cache of opened packs,
      as a step relation over calls, promises, leases and disposal.
    - [CloudPrivate], [CloudPrivateFacts]: [cloudPrivate.js]: scope records, sealed keys, the scopes a
      recovery phrase opens and their snapshots.
    - [CloudKeys], [CloudKeysFacts]: [cloudKeys.js], the backup keys a phrase opens; [JSON.stringify] of the
      list of users that is signed is in [Utf8].
    - [PrivateRestore], [PrivateRestoreFacts]: [privateRestore.js], the paged restore of private backups.
    - [CloudPhrase], [CloudPhraseFacts]: [cloudPhrase.js], replacing a phrase and reading typed words.

    - [CloudRestore]: [cloudRestore.js], the stream of events a restore answers with.  With it
      [luna/connect/web/src/lib/cloudTree.js], a backup's files as folders.

    The cryptographic primitives (the noble and scure packages) are the operations of the class [Noble],
    [JSON.parse] and the coercions of non-numbers those of [JsText]; what the code relies on of them is
    [NobleBytes] (encodings and sizes), [NobleSeal] (what is sealed opens) and [NobleSign] (what is signed
    verifies).  [Toy] in [CryptoFacts] is a concrete instance, so the statements have concrete
    runs.  The GFM parser, [Intl.Collator] and local time are section variables.

    ** What the theorems show

    - The running store ([OpsTheorems], in every reachable state): never more than three uploads, no
      queue left beside a free place; at most four jobs with Luna; one request of a batch at a time;
      no marked change without an armed timer that publishes it; nothing overwritten as long as nobody answers; a
      cancelled upload stops; a reload picks the stored jobs up.  [settle], [flush], the counters,
      and the dock are given by equations.
    - Drops and uploads: a walk reports every entry once and goes on after errors; after an abort it reports no file; a chunk
      is sent again a bounded number of times, and only after a failure that passes.
    - The dashboard: no failed check goes unmentioned; nobody sees backups that are not theirs to see; the list does not
      depend on the order of what it is made from.
    - Names and places: the link of a recent item leads back to it; the list of recents keeps ten, each once; a name
      opens as its extension says; the distance of addresses is the least number of edits; a folder's page adds up.
    - Texts: serialized tables parse back, delimited text is read as its grammar says.
    - Grants: the roots a member sees keep exactly the access of all rows.
    - Requests: whatever may change something carries the CSRF token; a session that ended is announced once.
    - Search: what is underlined is where a word occurs; settings come best first.
    - Archives: what [buildZip] writes opens in the viewer, and in a reader that checks more; a tar without minus signs is
      listed in as many turns as it has blocks, by its headers; the table of CRC-32 gives its polynomial definition.
    - Backups: packs, seals and lists read back; a file is its chunks; however far an opening comes, the pack key it
      unwrapped and what it decrypted are cleared; a pack with a lease stays open, and a disposed reader
      clears the arrays it holds; a search with a phrase finds exactly its scopes, and of the backup keys
      exactly those whose list and copy are signed and open.
    - Shared documents: a session has at most one connection and does not stay without one; frames die out
      in a room; a joiner ends with what its peers had; a destroyed session is silent.
    - Diagrams: every patch handed to the editor below the number a save names is confirmed; a request to upload is answered within
      four seconds; the window of applied numbers is bounded.
    - Office documents: conversions take turns, each is given its own document, and each is answered in time.
    - Forms: a saved form opens as it was; the table of answers reads back and holds no formula; what is asked depends on
      the answers above it; bars count picks; the latest record of a response is its last word.
    - Restore: it posts only what the phrase's own keys opened and Luna signed; a scope is done
      only when its whole list was handled; a restore that succeeds leaves none of the arrays it holds filled.
    - Phrases: re-sealing moves every scope the old phrase opens, and the signature of a
      replacement covers its values.
    - Whatever is said of cleared arrays is said of the arrays of secrets and plain text that the code of these
      files holds, the cells of the heap of [Buffers]; slices of ciphertext are values.  The arrays inside the primitives are not among them: [open], [derive] and [seal] are pure
      here, and in [backupCrypto.js] they leave copies of secrets (slices of the sealing secret, the key of ML-KEM, shared
      secrets, derived keys) that nothing clears.
    - Defects, proved on concrete runs: a cancelled replace is submitted again, a replaced copy that has to wait is
      shown as being sent, dismissing copies stalls the queue; a file that arrives late is never put into a shared document, nor is one whose seed was dropped;
      a diagram that reconnects names edits it never received, and drops a peer's patch that reads as its own;
      the summary of a yes-or-no question counts beside its bars; the reader that collects a drop first
      never settles when something in a folder cannot be read; a document too big to copy stops the worker under another
      conversion three minutes later; a tar whose size has a minus sign is listed for ever.

    ** Bounds and fuel

    The climbs of [climb] and [knownNames] run on the length of the path (each turn cuts it), [drive_loop]
    on the number of queued items, [evict_loop] on the size of the cache, the loops over chunks and
    bytes on their lists, [parse_value] on the length of its text (each array and object takes a character),
    [skip_within] on the number of questions (a rule names an earlier one).  The loops of [PrivateRestore] over pages run on an argument: [restore_ends]
    shows that more fuel than there are replies never runs out, because every turn takes a reply.

    ** Not modelled

    - React components, hooks and pages: rendering and event wiring.
    - Rust and Go services: another language; their replies are arguments here.
    - Network and platform: [fetch], XHR, WebCrypto, IndexedDB.  Requests are what the models
      log and replies what they are given.
    - JSON text in the session storage: a list of stored records stands for it.
    - The arrays inside [backupCrypto.js]: what it clears of them changes no result, and what it leaves uncleared is
      outside the statements on clearing, as said above.
    - In [access.js] the two helpers that keep link URLs in the session storage.
    - A store listener that calls the store while it is notified; the copies [readFile] collects before it joins them.
    - In [euroOfficeApi.js] the sessions, bundles and the editor's bridge around the conversions; the worker's script, which
      drives a generated converter.
    - In [collabSocket.js] the closure wrapper [connectCollab] and the reading of [window.location].
    - In [luna/web/src/lib] and [components]: the conversions of [officeConvert.js], the readers of e-books, maps and
      spreadsheets, the whiteboard and [formYDoc.js], the bridges to the office and diagram editors: each is a few lines
      around a third-party parser, editor or Yjs type, and what it does is what those do.
    - In [notFoundHelpers.js] [guessSearchTerm] and the drawing of the moon; in [drives.js] and [cloudRestore.js] the requests.
    - In [fileSearch.js] the window event and the storing of the kind; in [settingsSearch.js] the index, read off markup.
    - Hooks: React state around one request each; Sol's pages likewise. *)

From stdpp Require Export base gmap sets list strings sorting.
From Stdlib Require Export ZArith NArith Lia.

#[global] Open Scope Z_scope.

(** ** Scopes and notations *)

Declare Scope luna_scope.
Delimit Scope luna_scope with luna.

(** Statement sequencing of state transformers: [s ▷ f ▷ g] runs [f], then [g]. *)
Notation "s ▷ f" := (f s) (at level 50, f at level 49, left associativity, only parsing) : luna_scope.
#[global] Open Scope luna_scope.

(** ** Functional record update

    [Settable R] gives the eta expansion of a record through its projections; the setter of a
    projection is found by abstracting that projection, so that [proj' (r <| proj := v |>)]
    computes to [proj' r] without case analysis on [r]. *)

Class Settable (R : Type) := eta_of : R -> R.

Class Setter {R T : Type} (proj : R -> T) := set_field : (T -> T) -> R -> R.
Arguments set_field {R T} proj {_} _ _ /.

Ltac solve_setter R proj :=
  let e := constr:(ltac:(typeclasses eauto) : Settable R) in
  let e := eval hnf in e in
  let p := eval pattern proj in e in
  lazymatch p with
  | ?k _ => exact (fun f => k (fun r => f (proj r)))
  end.

#[global] Hint Extern 1 (@Setter ?R _ ?proj) => solve_setter R proj : typeclass_instances.

Notation "r <| proj := v |>" := (set_field proj (fun _ => v) r)
  (at level 1, left associativity, proj constr at level 1, v constr at level 99,
   format "r  <|  proj  :=  v  |>") : luna_scope.
Notation "r <| proj ::= f |>" := (set_field proj f r)
  (at level 1, left associativity, proj constr at level 1, f constr at level 99,
   format "r  <|  proj  ::=  f  |>") : luna_scope.

(** ** Lists *)

Lemma filter_perm {A} (f : A -> bool) (l m : list A) : Permutation l m -> Permutation (List.filter f l) (List.filter f m).
Proof. induction 1 as [|x l m _ IH|x y l|l m n _ IH1 _ IH2]; cbn; [done | by destruct (f x); rewrite ?IH | by destruct (f x), (f y); try apply perm_swap | by rewrite IH1]. Qed.

Lemma sorted_impl {A} (R Q : A -> A -> Prop) (l : list A) : (forall x y, R x y -> Q x y) -> StronglySorted R l -> StronglySorted Q l.
Proof. intros H. induction 1 as [|x l _ IH Hx]; constructor; [done|]. eapply Forall_impl; [exact Hx | apply H]. Qed.

Lemma concat_perm {A} (l m : list (list A)) : Permutation l m -> Permutation (concat l) (concat m).
Proof.
  induction 1 as [|x l m _ IH|x y l|l m n _ IH1 _ IH2]; cbn; [done | by rewrite IH | by rewrite !app_assoc, (Permutation_app_comm y x) | by rewrite IH1].
Qed.

Lemma existsb_perm {A} (f : A -> bool) (l m : list A) : Permutation l m -> existsb f l = existsb f m.
Proof. induction 1 as [|x l m _ IH|x y l|l m n _ IH1 _ IH2]; cbn; [done | by rewrite IH | by destruct (f x), (f y) | congruence]. Qed.

Lemma omap_ext_in {A B} (f g : A -> option B) (l : list A) : (forall a, f a = g a) -> omap f l = omap g l.
Proof. intros H. induction l as [|a l IH]; [done|]. cbn. by rewrite H, IH. Qed.

Lemma in_concat_map {A B} (f : A -> list B) (l : list A) (x : B) : x ∈ concat (map f l) <-> exists a, a ∈ l /\ x ∈ f a.
Proof.
  rewrite list_elem_of_In, in_concat. split.
  - intros (y & (a & <- & Ha)%in_map_iff & Hx). exists a. by rewrite !list_elem_of_In.
  - intros (a & Ha & Hx). exists (f a). split; [apply in_map|]; by apply list_elem_of_In.
Qed.

Lemma last_cons {A} (x d : A) (l : list A) : l <> [] -> List.last (x :: l) d = List.last l d.
Proof. by destruct l. Qed.

Lemma removelast_cons {A} (x : A) (l : list A) : l <> [] -> removelast (x :: l) = x :: removelast l.
Proof. by destruct l. Qed.

Lemma filter_nodup {A B} (f : A -> B) (p : A -> bool) (l : list A) : NoDup (map f l) -> NoDup (map f (List.filter p l)).
Proof.
  induction l as [|a l IH]; [done|]. cbn. intros [Ha Hl]%NoDup_cons. destruct (p a); [|by apply IH]. cbn. apply NoDup_cons. split; [|by apply IH].
  intros (b & E & Hb)%list_elem_of_fmap. apply Ha. rewrite E. apply list_elem_of_fmap. exists b. split; [done|].
  apply list_elem_of_In, filter_In in Hb as [Hb _]. by apply list_elem_of_In.
Qed.

Lemma take_nodup {A B} (f : A -> B) (n : nat) (l : list A) : NoDup (map f l) -> NoDup (map f (take n l)).
Proof.
  intros H1. rewrite <- (take_drop n l), map_app in H1. by apply NoDup_app in H1 as [H1 _].
Qed.

Lemma filter_idem {A} (P : A -> bool) (l : list A) : List.filter P (List.filter P l) = List.filter P l.
Proof. induction l as [|x l IH]; simpl; [done|]. destruct (P x) eqn:E; simpl; rewrite ?E, IH; done. Qed.

Lemma filter_comm {A} (P Q : A -> bool) (l : list A) :
  List.filter P (List.filter Q l) = List.filter Q (List.filter P l).
Proof.
  induction l as [|x l IH]; simpl; [done|].
  destruct (P x) eqn:EP, (Q x) eqn:EQ; simpl; rewrite ?EP, ?EQ, IH; done.
Qed.

Lemma lookup_map {A B} (f : A -> B) (l : list A) (i : nat) : map f l !! i = f <$> l !! i.
Proof. revert i. induction l as [|x l IH]; intros [|i]; simpl; done. Qed.

Lemma filter_all {A} (P : A -> bool) (l : list A) :
  Forall (fun x => P x = true) l -> List.filter P l = l.
Proof. induction 1 as [|x l Hx _ IH]; simpl; [done|]. by rewrite Hx, IH. Qed.

Lemma filter_sorted {A} (R R' : A -> A -> Prop) (Q : A -> bool) (l : list A) :
  (forall a b, Q a = true -> Q b = true -> R a b -> R' a b) ->
  StronglySorted R l -> StronglySorted R' (List.filter Q l).
Proof.
  intros HR. induction 1 as [|a l Hs IH Hall]; simpl; [constructor|].
  destruct (Q a) eqn:Hq; [|done]. constructor; [done|].
  rewrite Forall_forall in *. intros b [Hb Hqb]%list_elem_of_In%List.filter_In. 
  apply HR; try done. apply Hall. by apply list_elem_of_In.
Qed.

Lemma sorted_map {A B} (f : A -> B) (R : A -> A -> Prop) (R' : B -> B -> Prop) (l : list A) :
  (forall a b, R a b -> R' (f a) (f b)) -> StronglySorted R l -> StronglySorted R' (map f l).
Proof.
  intros HR. induction 1 as [|a l Hs IH Hall]; simpl; constructor; [done|].
  apply Forall_map. eapply Forall_impl; [exact Hall|]. intros b. apply HR.
Qed.

Lemma length_omap_le {A B} (f : A -> option B) (l : list A) : (length (omap f l) <= length l)%nat.
Proof. induction l as [|x l IH]; [done|]. cbn [omap list_omap]. destruct (f x); cbn [length]; lia. Qed.

Lemma elem_delete {A} (k : nat) (l : list A) (x y : A) : l !! k = Some x -> y ∈ l -> y = x \/ y ∈ delete k l.
Proof.
  intros Hk. rewrite <- (take_drop_middle l k x Hk) at 1. rewrite delete_take_drop. rewrite !elem_of_app, elem_of_cons. naive_solver.
Qed.

Lemma Forall_delete {A} (P : A -> Prop) (k : nat) (l : list A) : Forall P l -> Forall P (delete k l).
Proof. intros H. rewrite delete_take_drop. apply Forall_app. split; [by apply Forall_take | by apply Forall_drop]. Qed.

Lemma delete_subset {A} (w : nat) (l : list A) (a : A) : a ∈ delete w l -> a ∈ l.
Proof.
  revert w. induction l as [|b l IH]; intros [|w]; cbn; [done..| by right |].
  intros [->|Hin]%elem_of_cons; [by left | right; by eapply IH].
Qed.

Lemma filter_le_length {A} (P Q : A -> bool) (l : list A) :
  (forall y, y ∈ l -> P y = true -> Q y = true) ->
  (length (List.filter P l) <= length (List.filter Q l))%nat.
Proof.
  induction l as [|y l IH]; intros H; simpl; [lia|].
  assert (length (List.filter P l) <= length (List.filter Q l))%nat
    by (apply IH; intros; apply H; [by right | done]).
  specialize (H y ltac:(by left)). destruct (P y); [rewrite H by done; simpl; lia|].
  destruct (Q y); simpl; lia.
Qed.

Lemma filter_lt_length {A} (P Q : A -> bool) (l : list A) (x : A) :
  (forall y, y ∈ l -> P y = true -> Q y = true) -> x ∈ l -> Q x = true -> P x = false ->
  (length (List.filter P l) < length (List.filter Q l))%nat.
Proof.
  intros H Hx Hq Hp. apply list_elem_of_split in Hx as (l1 & l2 & ->).
  rewrite !List.filter_app, !length_app. simpl. rewrite Hq, Hp. simpl.
  assert (length (List.filter P l1) <= length (List.filter Q l1))%nat
    by (apply filter_le_length; intros; apply H; [set_solver | done]).
  assert (length (List.filter P l2) <= length (List.filter Q l2))%nat
    by (apply filter_le_length; intros; apply H; [set_solver | done]). lia.
Qed.
