(* ===== verification/JsString.v ===== *)
(** * JavaScript strings

    A JavaScript string is a sequence of 16-bit code units; here it is a [list N].  [js "…"] turns
    a source literal (written in UTF-8) into its code units, so the literals of the definitions read
    like the literals of the code.  The file holds the part of [String.prototype] the modelled
    code uses, UTF-8 encoding ([TextEncoder], [encodeURIComponent]) and decimal printing of integers
    (template literals), with the lemmas the components share. *)

From S2P Require Import Prelude.
From Stdlib Require Import DecimalString DecimalZ Floats.SpecFloat.

#[local] Open Scope N_scope.

Abbreviation jstr := (list N).

(** ** Literals *)

(** UTF-8 decoding of a literal into UTF-16 code units (well-formed input only: it is applied to
    the literals of this development). *)
Fixpoint utf16_of_utf8 (bs : list N) : jstr :=
  match bs with
  | [] => []
  | b :: r =>
      if b <? 0x80 then b :: utf16_of_utf8 r
      else if b <? 0xE0 then
        match r with
        | c :: r => ((b - 0xC0) * 64 + (c - 0x80)) :: utf16_of_utf8 r
        | _ => []
        end
      else if b <? 0xF0 then
        match r with
        | c :: d :: r => ((b - 0xE0) * 4096 + (c - 0x80) * 64 + (d - 0x80)) :: utf16_of_utf8 r
        | _ => []
        end
      else
        match r with
        | c :: d :: e :: r =>
            let u := (b - 0xF0) * 262144 + (c - 0x80) * 4096 + (d - 0x80) * 64 + (e - 0x80)
                     - 0x10000 in
            (0xD800 + u / 1024) :: (0xDC00 + u mod 1024) :: utf16_of_utf8 r
        | _ => []
        end
  end.

Fixpoint bytes_of_string (s : string) : list N :=
  match s with
  | EmptyString => []
  | String a s => Ascii.N_of_ascii a :: bytes_of_string s
  end.

Definition js (s : string) : jstr := utf16_of_utf8 (bytes_of_string s).

(** One-character constants. *)
Definition c_slash : N := 47.
Definition c_dot : N := 46.
Definition c_dash : N := 45.
Definition c_colon : N := 58.
Definition c_pipe : N := 124.
Definition c_backslash : N := 92.
Definition c_quote : N := 34.
Definition c_cr : N := 13.
Definition c_lf : N := 10.
Definition c_space : N := 32.

(** ** Searching and slicing *)

(** [s.slice(a)] and [s.slice(a, b)] for non-negative bounds. *)
Definition slice_from (a : nat) (s : jstr) : jstr := drop a s.
Definition slice (a b : nat) (s : jstr) : jstr := take (b - a) (drop a s).

Fixpoint starts_with (p s : jstr) : bool :=
  match p, s with
  | [], _ => true
  | a :: p, b :: s => (a =? b) && starts_with p s
  | _ :: _, [] => false
  end.

Definition ends_with (p s : jstr) : bool := starts_with (rev p) (rev s).

Definition includes_char (c : N) (s : jstr) : bool := existsb (N.eqb c) s.

(** [s.lastIndexOf(c)] for a one-character [c], as an option ([None] is -1). *)
Fixpoint last_index_of (c : N) (s : jstr) : option nat :=
  match s with
  | [] => None
  | x :: r =>
      match last_index_of c r with
      | Some i => Some (S i)
      | None => if c =? x then Some 0%nat else None
      end
  end.

(** [s.split(c)] for a one-character separator: always at least one piece. *)
Fixpoint split_on (c : N) (s : jstr) : list jstr :=
  match s with
  | [] => [[]]
  | x :: r =>
      if c =? x then [] :: split_on c r
      else match split_on c r with
           | [] => [[x]]
           | w :: ws => (x :: w) :: ws
           end
  end.

(** [s.split(/\r\n|\r|\n/)] *)
Fixpoint split_eol (s : jstr) : list jstr :=
  match s with
  | [] => [[]]
  | c :: r =>
      if (c =? c_cr) then
        match r with
        | e :: r' => if (e =? c_lf) then [] :: split_eol r' else [] :: split_eol r
        | [] => [] :: split_eol r
        end
      else if (c =? c_lf) then [] :: split_eol r
      else match split_eol r with
           | [] => [[c]]
           | w :: ws => (c :: w) :: ws
           end
  end.

(** [parts.join(sep)] *)
Fixpoint join (sep : jstr) (l : list jstr) : jstr :=
  match l with
  | [] => []
  | [w] => w
  | w :: l => w ++ sep ++ join sep l
  end.

(** [s.includes(p)] *)
Fixpoint includes (p s : jstr) : bool :=
  starts_with p s || match s with [] => false | _ :: r => includes p r end.

(** ECMAScript white space and line terminators: what [trim] strips and [\s] matches. *)
Definition is_space (c : N) : bool :=
  ((9 <=? c) && (c <=? 13)) || (c =? 32) || (c =? 0xA0) || (c =? 0x1680)
  || ((0x2000 <=? c) && (c <=? 0x200A)) || (c =? 0x2028) || (c =? 0x2029)
  || (c =? 0x202F) || (c =? 0x205F) || (c =? 0x3000) || (c =? 0xFEFF).

Fixpoint trim_start (s : jstr) : jstr :=
  match s with
  | [] => []
  | c :: r => if is_space c then trim_start r else s
  end.

Definition trim_end (s : jstr) : jstr := rev (trim_start (rev s)).
Definition trim (s : jstr) : jstr := trim_end (trim_start s).

(** Length of the leading run of white space, [/^\s*/.exec(s)[0].length]. *)
Fixpoint lead_space (s : jstr) : nat :=
  match s with
  | [] => 0
  | c :: r => if is_space c then S (lead_space r) else 0
  end.

(** [s.split(/\s+/)] *)
Fixpoint split_spaces (s : jstr) : list jstr :=
  match s with
  | [] => [[]]
  | c :: r =>
      if is_space c then
        match r with
        | d :: _ => if is_space d then split_spaces r else [] :: split_spaces r
        | [] => [[]; []]
        end
      else match split_spaces r with
           | w :: ws => (c :: w) :: ws
           | [] => [[c]]
           end
  end.

(** Lower case of the ASCII letters.  [toLowerCase] also maps letters outside ASCII; the texts it is
    used on here are Luna's own messages and capability words, which are ASCII. *)
Definition lower_char (c : N) : N := if (65 <=? c) && (c <=? 90) then c + 32 else c.
Definition to_lower (s : jstr) : jstr := map lower_char s.

Definition is_digit (c : N) : bool := (48 <=? c) && (c <=? 57).

(** ** Truthiness *)

(** A string is falsy exactly when it is empty: [s || d]. *)
Definition truthy (s : jstr) : bool := match s with [] => false | _ => true end.
Definition str_or (s d : jstr) : jstr := if truthy s then s else d.

(** ** Numbers in template literals *)

Definition js_of_Z (z : Z) : jstr := js (NilZero.string_of_int (Z.to_int z)).

(** ** UTF-8 *)

(** The code points of a string; a surrogate without its partner is [None]. *)
Fixpoint code_points (s : jstr) : list (option N) :=
  match s with
  | [] => []
  | c :: r =>
      if (0xD800 <=? c) && (c <=? 0xDBFF) then
        match r with
        | d :: r' =>
            if (0xDC00 <=? d) && (d <=? 0xDFFF)
            then Some (0x10000 + (c - 0xD800) * 1024 + (d - 0xDC00)) :: code_points r'
            else None :: code_points r
        | [] => [None]
        end
      else if (0xDC00 <=? c) && (c <=? 0xDFFF) then None :: code_points r
      else Some c :: code_points r
  end.

Definition utf8_of_code_point (p : N) : list N :=
  if p <? 0x80 then [p]
  else if p <? 0x800 then [0xC0 + p / 64; 0x80 + p mod 64]
  else if p <? 0x10000 then [0xE0 + p / 4096; 0x80 + (p / 64) mod 64; 0x80 + p mod 64]
  else [0xF0 + p / 262144; 0x80 + (p / 4096) mod 64; 0x80 + (p / 64) mod 64; 0x80 + p mod 64].

(** [new TextEncoder().encode(s)]: a lone surrogate becomes U+FFFD. *)
Definition utf8_encode (s : jstr) : list N :=
  flat_map (fun o => utf8_of_code_point (default 0xFFFD o)) (code_points s).

(** Characters [encodeURIComponent] leaves alone: [A-Za-z0-9] and [-_.!~*'()]. *)
Definition uri_unreserved (c : N) : bool :=
  is_digit c || ((65 <=? c) && (c <=? 90)) || ((97 <=? c) && (c <=? 122))
  || existsb (N.eqb c) (js "-_.!~*'()").

Definition hex_digit_upper (d : N) : N := if d <? 10 then 48 + d else 55 + d.
Definition percent_byte (b : N) : jstr := [37; hex_digit_upper (b / 16); hex_digit_upper (b mod 16)].

(** [encodeURIComponent(s)]; [None] is the URIError a lone surrogate raises. *)
Definition encode_uri_component (s : jstr) : option jstr :=
  foldr (fun o acc =>
           p ← o; rest ← acc;
           Some ((if uri_unreserved p then [p] else flat_map percent_byte (utf8_of_code_point p))
                 ++ rest))
        (Some []) (code_points s).

(** ** Lemmas *)

Lemma truthy_spec (s : jstr) : truthy s = true <-> s <> [].
Proof. destruct s; naive_solver. Qed.

Lemma starts_with_spec (p s : jstr) : starts_with p s = true <-> exists r, s = p ++ r.
Proof.
  revert s; induction p as [|a p IH]; intros s; simpl.
  - split; [intros _; by exists s | done].
  - destruct s as [|b s]; [split; [done | intros [r ?]; done] |].
    rewrite andb_true_iff, N.eqb_eq, IH. split.
    + intros [-> [r ->]]. by exists r.
    + intros [r [= -> ->]]. eauto.
Qed.

Lemma ends_with_spec (p s : jstr) : ends_with p s = true <-> exists r, s = r ++ p.
Proof.
  unfold ends_with. rewrite starts_with_spec. split.
  - intros [r Hr]. exists (rev r).
    rewrite <- (rev_involutive s), Hr, rev_app_distr, rev_involutive. done.
  - intros [r ->]. exists (rev r). apply rev_app_distr.
Qed.

Lemma includes_char_spec (c : N) (s : jstr) : includes_char c s = true <-> In c s.
Proof.
  unfold includes_char. rewrite existsb_exists. split.
  - intros (x & Hx & ->%N.eqb_eq). done.
  - intros H. exists c. by rewrite N.eqb_refl.
Qed.

Lemma last_index_of_none (c : N) (s : jstr) : last_index_of c s = None <-> ~ In c s.
Proof.
  induction s as [|x s IH]; simpl; [naive_solver|].
  destruct (last_index_of c s) as [i|] eqn:E.
  - split; [done|]. intros H.
    assert (~ In c s) as Hn by naive_solver. by apply IH in Hn.
  - destruct (N.eqb_spec c x) as [->|Hne]; naive_solver.
Qed.

Lemma last_index_of_some (c : N) (s : jstr) (i : nat) :
  last_index_of c s = Some i ->
  s = take i s ++ c :: drop (S i) s /\ ~ In c (drop (S i) s) /\ (i < length s)%nat.
Proof.
  revert i; induction s as [|x s IH]; intros i; simpl; [done|].
  destruct (last_index_of c s) as [j|] eqn:E.
  - intros [= <-]. destruct (IH j eq_refl) as (H1 & H2 & H3). simpl.
    split_and!; [by f_equal | done | lia].
  - destruct (N.eqb_spec c x) as [->|]; [|done]. intros [= <-]. simpl.
    split_and!; [by rewrite drop_0 | | lia].
    rewrite drop_0. by apply last_index_of_none.
Qed.

Lemma last_index_of_app (c : N) (a b : jstr) :
  ~ In c b -> last_index_of c (a ++ c :: b) = Some (length a).
Proof.
  intros Hb. induction a as [|x a IH]; simpl.
  - apply last_index_of_none in Hb. by rewrite Hb, N.eqb_refl.
  - by rewrite IH.
Qed.

Lemma split_on_ne (c : N) (s : jstr) : split_on c s <> [].
Proof.
  destruct s as [|x s]; simpl; [done|]. destruct (c =? x); [done|]. by destruct (split_on c s).
Qed.

Lemma split_on_notin (c : N) (s : jstr) : ~ In c s -> split_on c s = [s].
Proof.
  induction s as [|x s IH]; simpl; [done|]. intros H.
  destruct (N.eqb_spec c x) as [->|]; [naive_solver|]. rewrite IH; naive_solver.
Qed.

Lemma split_on_app (c : N) (a b : jstr) :
  ~ In c a -> split_on c (a ++ c :: b) = a :: split_on c b.
Proof.
  induction a as [|x a IH]; simpl; intros H.
  - by rewrite N.eqb_refl.
  - destruct (N.eqb_spec c x) as [->|]; [naive_solver|]. rewrite IH by naive_solver. done.
Qed.

Lemma split_on_pieces (c : N) (s w : jstr) : In w (split_on c s) -> ~ In c w.
Proof.
  revert w; induction s as [|x s IH]; intros w; simpl; [naive_solver|].
  destruct (N.eqb_spec c x) as [->|Hne].
  - intros [<-|H]; [by intros [] | by apply IH].
  - pose proof (split_on_ne c s) as Hnil.
    destruct (split_on c s) as [|v vs]; [done|]. intros [<-|H].
    + intros [->|Hin]; [done|]. eapply IH; [by left | done].
    + apply IH. by right.
Qed.

(** Splitting and joining are inverse. *)
Lemma join_split (c : N) (s : jstr) : join [c] (split_on c s) = s.
Proof.
  induction s as [|x s IH]; simpl; [done|].
  pose proof (split_on_ne c s) as Hnil.
  destruct (N.eqb_spec c x) as [->|].
  - destruct (split_on x s) as [|v vs]; [done|].
    change (x :: join [x] (v :: vs) = x :: s). by rewrite IH.
  - destruct (split_on c s) as [|v vs]; [done|].
    destruct vs as [|v' vs]; cbn in *; by f_equal.
Qed.

Lemma split_join (c : N) (l : list jstr) :
  l <> [] -> Forall (fun w => ~ In c w) l -> split_on c (join [c] l) = l.
Proof.
  induction l as [|w l IH]; [done|]. intros _ [Hw Hl]%Forall_cons.
  destruct l as [|v l]; [by apply split_on_notin|].
  change (join [c] (w :: v :: l)) with (w ++ c :: join [c] (v :: l)).
  rewrite split_on_app by done. by rewrite IH.
Qed.

Lemma trim_start_idem (s : jstr) : trim_start (trim_start s) = trim_start s.
Proof. induction s as [|c s IH]; simpl; [done|]. destruct (is_space c) eqn:E; [done|]. simpl. by rewrite E. Qed.

Lemma trim_start_lead (s : jstr) : trim_start s = drop (lead_space s) s.
Proof. induction s as [|c s IH]; simpl; [done|]. by destruct (is_space c). Qed.

Lemma lead_space_le (s : jstr) : (lead_space s <= length s)%nat.
Proof. induction s as [|c s IH]; simpl; [lia|]. destruct (is_space c); lia. Qed.

(** A string whose first and last characters are not spaces is its own trim. *)
Definition trimmed (s : jstr) : Prop := trim_start s = s /\ trim_end s = s.

Lemma trim_trimmed (s : jstr) : trimmed s -> trim s = s.
Proof. intros [H1 H2]. unfold trim. by rewrite H1. Qed.

Lemma trim_end_start_comm (s : jstr) : trim_start (trim_end s) = trim_end (trim_start s).
Proof.
  unfold trim_end. induction s as [|c s IH]; simpl; [done|].
  destruct (is_space c) eqn:E.
  -
    assert (forall l, trim_start (l ++ [c]) = if decide (trim_start l = []) then [] else trim_start l ++ [c]) as Hl.
    { induction l as [|d l IHl]; simpl; [by rewrite E|].
      destruct (is_space d); [exact IHl|]. by case_decide. }
    rewrite <- IH, Hl. case_decide as Hd; [by rewrite Hd|].
    rewrite rev_app_distr. simpl. by rewrite E.
  - simpl. assert (exists l, trim_start (rev s ++ [c]) = l ++ [c]) as [l Hl].
    { generalize (rev s). induction l as [|d l IHl]; simpl; [rewrite E; by exists []|].
      destruct (is_space d); [done|]. by exists (d :: l). }
    rewrite Hl, rev_app_distr. simpl. by rewrite E.
Qed.

Lemma trim_is_trimmed (s : jstr) : trimmed (trim s).
Proof.
  unfold trimmed, trim. split.
  - by rewrite trim_end_start_comm, trim_start_idem.
  - unfold trim_end. by rewrite rev_involutive, trim_start_idem.
Qed.

Lemma trim_idem (s : jstr) : trim (trim s) = trim s.
Proof. apply trim_trimmed, trim_is_trimmed. Qed.

Create HintDb luna discriminated.
#[export] Hint Resolve split_on_ne trim_is_trimmed trim_trimmed : luna.
Create Rewrite HintDb luna_rw.
#[export] Hint Rewrite trim_idem trim_start_idem join_split : luna_rw.

#[global] Arguments js : simpl never.
#[global] Arguments js_of_Z : simpl never.

Example js_utf8 : js "…a·😀" = [0x2026; 97; 0xB7; 0xD83D; 0xDE00].
Proof. reflexivity. Qed.
Example uri_ex : encode_uri_component (js "a b/é") = Some (js "a%20b%2F%C3%A9").
Proof. vm_compute. reflexivity. Qed.

(** ** Numbers

    IEEE 754 binary64 arithmetic through the Standard Library's executable specification
    ([SpecFloat], precision 53, maximal exponent 1024).  Integers below 2^53 are exact, so counters
    and byte counts are [Z] in the other files; the divisions that produce percentages and
    human-readable sizes are done here, on doubles, with the rounding of [Math.round] and
    [toFixed]. *)

#[local] Close Scope N_scope.

Abbreviation num := spec_float.

Definition num_of_Z (z : Z) : num := binary_normalize 53 1024 z 0 false.
Definition num_div (a b : num) : num := SFdiv 53 1024 a b.
Definition num_mul (a b : num) : num := SFmul 53 1024 a b.
Definition num_add (a b : num) : num := SFadd 53 1024 a b.
Definition num_lt (a b : num) : bool := SFltb a b.

(** [Math.min(a, b)]; the operands of the modelled calls are never NaN and never zeros of
    different signs. *)
Definition num_min (a b : num) : num := if SFltb b a then b else a.

(** [Math.floor] of [(-1)^s * m * 2^e * k + h / 2], exactly. *)
Definition floor_scaled (s : bool) (m : positive) (e : Z) (k h : Z) : Z :=
  let v := if s then Z.neg m else Z.pos m in
  if 0 <=? e then (2 * v * Z.shiftl 1 e * k + h) / 2
  else (2 * v * k + h * Z.shiftl 1 (- e)) / (2 * Z.shiftl 1 (- e)).

(** [Math.round(x)] for a finite [x]: the integer nearest to [x], halves going up. *)
Definition math_round (x : num) : Z :=
  match x with
  | S754_finite s m e => floor_scaled s m e 1 1
  | _ => 0
  end.

(** The integer [n] for which [n / 10] is nearest to a non-negative [x], the larger one on a tie:
    the decimal digits of [x.toFixed(1)]. *)
Definition tenths (x : num) : Z :=
  match x with
  | S754_finite s m e => floor_scaled s m e 10 1
  | _ => 0
  end.

(** [x.toFixed(1)] for a non-negative [x] below 10^21. *)
Definition to_fixed1 (x : num) : jstr :=
  js_of_Z (tenths x / 10) ++ js "." ++ js_of_Z (tenths x mod 10).

(** The exact rational value of a finite double, as a pair (numerator, power-of-two exponent). *)
Definition num_is_finite (x : num) : bool :=
  match x with S754_finite _ _ _ | S754_zero _ => true | _ => false end.

Lemma num_min_le (a b : num) : num_min a b = a \/ (num_min a b = b /\ num_lt b a = true).
Proof. unfold num_min, num_lt. destruct (SFltb b a); auto. Qed.

Example round_half : math_round (num_div (num_of_Z 5) (num_of_Z 2)) = 3.
Proof. vm_compute. reflexivity. Qed.
Example tenths_ex : to_fixed1 (num_div (num_of_Z 1250) (num_of_Z 1000)) = js "1.3".
Proof. vm_compute. reflexivity. Qed.
Example third : math_round (num_mul (num_div (num_of_Z 1) (num_of_Z 3)) (num_of_Z 100)) = 33.
Proof. vm_compute. reflexivity. Qed.

(** *** Arrays

    [splice] and [sort] as the modelled code uses them, with the lemmas its clients share.  The
    language fixes [sort] up to the choice of algorithm: the result is a permutation, sorted and
    stable whenever the comparator is consistent, so an insertion sort stands for it. *)

(** [a.splice(at, del, ...ins)] for [0 <= at]; a start beyond the end is clamped. *)
Definition splice {A} (at_ del : nat) (ins a : list A) : list A :=
  take at_ a ++ ins ++ drop (at_ + del) a.

(** The array with [a] padded by [d] up to length [n]. *)
Definition pad_to {A} (n : nat) (d : A) (a : list A) : list A := a ++ replicate (n - length a) d.

Section Sort.
Context {A : Type} (cmp : A -> A -> Z).

Fixpoint sort_insert (x : A) (l : list A) : list A :=
  match l with
  | [] => [x]
  | y :: l' => if cmp x y <=? 0 then x :: l else y :: sort_insert x l'
  end.

Fixpoint js_sort (l : list A) : list A :=
  match l with
  | [] => []
  | x :: l => sort_insert x (js_sort l)
  end.

Lemma sort_insert_perm (x : A) (l : list A) : Permutation (sort_insert x l) (x :: l).
Proof.
  induction l as [|y l IH]; simpl; [done|]. destruct (cmp x y <=? 0); [done|].
  rewrite IH. apply perm_swap.
Qed.

Lemma js_sort_perm (l : list A) : Permutation (js_sort l) l.
Proof. induction l as [|x l IH]; simpl; [done|]. by rewrite sort_insert_perm, IH. Qed.

(** The comparator orders [P]-elements totally. *)
Context (P : A -> Prop).
Hypothesis cmp_total : forall x y, P x -> P y -> cmp x y <= 0 \/ cmp y x <= 0.
Hypothesis cmp_trans : forall x y z, P x -> P y -> P z -> cmp x y <= 0 -> cmp y z <= 0 -> cmp x z <= 0.

Lemma sort_insert_sorted (x : A) (l : list A) :
  P x -> Forall P l -> StronglySorted (fun a b => cmp a b <= 0) l ->
  StronglySorted (fun a b => cmp a b <= 0) (sort_insert x l).
Proof.
  intros Hx Hl Hs. induction Hs as [|y l Hs IH Hall]; simpl; [by repeat constructor|].
  apply Forall_cons in Hl as [Hy Hl]. destruct (Z.leb_spec (cmp x y) 0) as [Hle|Hgt].
  - constructor; [by constructor|]. constructor; [done|].
    rewrite Forall_forall in *. intros z Hz. eapply (cmp_trans x y z); auto.
  - constructor; [by apply IH|].
    rewrite sort_insert_perm. constructor; [|done].
    destruct (cmp_total x y Hx Hy); [lia | done].
Qed.

Lemma js_sort_sorted (l : list A) :
  Forall P l -> StronglySorted (fun a b => cmp a b <= 0) (js_sort l).
Proof.
  induction l as [|x l IH]; simpl; [constructor|]. intros [Hx Hl]%Forall_cons.
  apply sort_insert_sorted; [done | by rewrite js_sort_perm | by apply IH].
Qed.

(** Stability: elements that compare equal keep their order. *)
Lemma sort_insert_stable (Q : A -> bool) (x : A) (l : list A) :
  (forall a b, Q a = true -> Q b = true -> cmp a b <= 0) ->
  List.filter Q (sort_insert x l) = List.filter Q (x :: l).
Proof.
  intros HQ. induction l as [|y l IH]; [done|]. cbn [sort_insert].
  destruct (Z.leb_spec (cmp x y) 0) as [|Hgt]; [done|]. simpl in *. rewrite IH.
  destruct (Q x) eqn:Hqx, (Q y) eqn:Hqy; try done. specialize (HQ x y Hqx Hqy). lia.
Qed.

Lemma js_sort_stable (Q : A -> bool) (l : list A) :
  (forall a b, Q a = true -> Q b = true -> cmp a b <= 0) ->
  List.filter Q (js_sort l) = List.filter Q l.
Proof.
  intros HQ. induction l as [|x l IH]; [done|]. cbn [js_sort].
  rewrite sort_insert_stable by done. simpl. by rewrite IH.
Qed.
End Sort.

(** *** Splicing *)

Lemma splice_length {A} (at_ : nat) (x : A) (a : list A) :
  length (splice at_ 0 [x] a) = S (length a).
Proof. unfold splice. rewrite !length_app, length_take, length_drop. simpl. lia. Qed.

Lemma splice_remove_length {A} (at_ : nat) (a : list A) :
  (at_ < length a)%nat -> length (splice at_ 1 [] a) = (length a - 1)%nat.
Proof. intros H. unfold splice. rewrite !length_app, length_take, length_drop. simpl. lia. Qed.

(** Removing what was inserted gives the array back. *)
Lemma splice_insert_remove {A} (at_ : nat) (x : A) (a : list A) :
  (at_ <= length a)%nat -> splice at_ 1 [] (splice at_ 0 [x] a) = a.
Proof.
  intros H. unfold splice. rewrite Nat.add_0_r.
  assert (Hl : length (take at_ a) = at_) by (rewrite length_take; lia).
  rewrite take_app_le by lia. rewrite (take_ge (take at_ a)) by lia.
  rewrite drop_app_ge by lia. rewrite Hl.
  replace (at_ + 1 - at_)%nat with 1%nat by lia. simpl.
  rewrite drop_0. apply take_drop.
Qed.

Lemma pad_to_length {A} (n : nat) (d : A) (a : list A) :
  (length a <= n)%nat -> length (pad_to n d a) = n.
Proof. intros H. unfold pad_to. rewrite length_app, length_replicate. lia. Qed.

Lemma pad_to_id {A} (n : nat) (d : A) (a : list A) : (n <= length a)%nat -> pad_to n d a = a.
Proof. intros H. unfold pad_to. replace (n - length a)%nat with 0%nat by lia. apply app_nil_r. Qed.
