(* ===== verification/Paths.v ===== *)
(** * Relative drive paths: [luna/web/src/lib/paths.js]

    A path is a string of segments joined by [/], empty at the drive root.  Section [Spec] gives
    the segment-list view the string functions implement. *)

From S2P Require Import Prelude JsString.

(** ** Definitions *)

Definition TRASH_PATH : jstr := js ".luna-trash".
Definition BACKUPS_PATH : jstr := js ".luna-backups".

Definition isBackupsPath (path : jstr) : bool :=
  bool_decide (path = BACKUPS_PATH) || starts_with (BACKUPS_PATH ++ js "/") path.

Definition isTrashPath (path : jstr) : bool :=
  bool_decide (path = TRASH_PATH) || starts_with (TRASH_PATH ++ js "/") path.

Definition pathBasename (path : jstr) : jstr :=
  if truthy path then
    match last_index_of c_slash path with
    | None => path
    | Some idx => slice_from (S idx) path
    end
  else [].

(** The leading digits of a string and what follows them. *)
Fixpoint span_digits (s : jstr) : jstr * jstr :=
  match s with
  | c :: r => if is_digit c then let '(d, t) := span_digits r in (c :: d, t) else ([], s)
  | [] => ([], [])
  end.

(** [/^\d+-/]: the rest of the string after one or more digits and a dash. *)
Definition digits_dash (s : jstr) : option jstr :=
  match span_digits s with
  | (_ :: _, c :: r) => if (c =? c_dash)%N then Some r else None
  | _ => None
  end.

(** [/^(.+)$/]: a non-empty line ([.] stops at the line terminators). *)
Definition is_line_terminator (c : N) : bool :=
  ((c =? 10) || (c =? 13) || (c =? 0x2028) || (c =? 0x2029))%N.
Definition nonempty_line (s : jstr) : bool := truthy s && negb (existsb is_line_terminator s).

(** [base.match(/^\d+-(\d+-)?(.+)$/)]: the optional group is tried first. *)
Definition trashDisplayName (path : jstr) : jstr :=
  let base := pathBasename path in
  match digits_dash base with
  | None => base
  | Some r1 =>
      match digits_dash r1 with
      | Some r2 => if nonempty_line r2 then r2 else if nonempty_line r1 then r1 else base
      | None => if nonempty_line r1 then r1 else base
      end
  end.

Definition joinPath (base name : jstr) : jstr :=
  if truthy base then base ++ js "/" ++ name else name.

Definition parentPath (path : jstr) : option jstr :=
  if truthy path then
    match last_index_of c_slash path with
    | None => Some []
    | Some idx => Some (slice 0 idx path)
    end
  else None.

(** [parentPath(path) ?? ""] *)
Definition parentOr (path : jstr) : jstr := default [] (parentPath path).

(** The href builders; [None] is the URIError of [encodeURIComponent] on a lone surrogate. *)
Definition folderHref (driveId folderPath : jstr) : option jstr :=
  if truthy folderPath then
    e ← encode_uri_component folderPath;
    Some (js "/files/" ++ driveId ++ js "?path=" ++ e)
  else Some (js "/files/" ++ driveId).

Definition sep_for (base : jstr) : jstr := if includes_char 63 base then js "&" else js "?".

Definition fileHref (driveId filePath : jstr) : option jstr :=
  let folder := parentOr filePath in
  let name := pathBasename filePath in
  base ← folderHref driveId folder;
  if truthy name then
    e ← encode_uri_component name;
    Some (base ++ sep_for base ++ js "file=" ++ e)
  else Some base.

Record search_item := {
  si_drive_id : jstr;
  si_path : jstr;
  si_isDir : bool;            (* item.kind === "dir" *)
  si_parent : option jstr;
}.

Definition searchResultHref (item : search_item) : option jstr :=
  if si_isDir item then folderHref (si_drive_id item) (si_path item)
  else
    let folder := match si_parent item with Some p => p | None => parentOr (si_path item) end in
    base ← folderHref (si_drive_id item) folder;
    if truthy (si_path item) then
      e ← encode_uri_component (si_path item);
      Some (base ++ sep_for base ++ js "select=" ++ e)
    else Some base.

(** [n / 1000], [n / 1000 / 1000], … on doubles. *)
Definition per_thousand (x : num) : num := num_div x (num_of_Z 1000).

Definition fmtSize (n : Z) : jstr :=
  if n <? 1000 then js_of_Z n ++ js " B"
  else if n <? 1000 * 1000 then to_fixed1 (per_thousand (num_of_Z n)) ++ js " KB"
  else if n <? 1000 * 1000 * 1000 then
    to_fixed1 (per_thousand (per_thousand (num_of_Z n))) ++ js " MB"
  else to_fixed1 (per_thousand (per_thousand (per_thousand (num_of_Z n)))) ++ js " GB".

Definition contentHref (driveId filePath : jstr) : option jstr :=
  e ← encode_uri_component filePath;
  Some (js "/api/v1/drives/" ++ driveId ++ js "/files/content?path=" ++ e).

Definition downloadHref (driveId filePath : jstr) : option jstr :=
  e ← encode_uri_component filePath;
  Some (js "/api/v1/drives/" ++ driveId ++ js "/files/content?path=" ++ e ++ js "&download=1").

(** ** The segment view *)

(** A segment is a non-empty string without a slash; a path is its segments joined. *)
Definition is_segment (w : jstr) : Prop := w <> [] /\ ~ In c_slash w.
Definition path_of (segs : list jstr) : jstr := join [c_slash] segs.

Lemma path_of_truthy (segs : list jstr) :
  Forall is_segment segs -> truthy (path_of segs) = match segs with [] => false | _ => true end.
Proof.
  intros H. destruct segs as [|w segs]; [done|]. apply Forall_cons in H as [[Hw _] _].
  unfold path_of. apply truthy_spec. destruct segs; simpl; [done|].
  intros [? _]%app_nil. done.
Qed.

Lemma path_of_snoc (segs : list jstr) (w : jstr) :
  segs <> [] -> path_of (segs ++ [w]) = path_of segs ++ c_slash :: w.
Proof.
  unfold path_of. induction segs as [|v segs IH]; [done|]. intros _.
  destruct segs as [|u segs]; [done|].
  change (v ++ c_slash :: join [c_slash] ((u :: segs) ++ [w])
          = (v ++ c_slash :: join [c_slash] (u :: segs)) ++ c_slash :: w).
  rewrite IH by done. by rewrite <- app_assoc.
Qed.

Lemma joinPath_segments (segs : list jstr) (w : jstr) :
  Forall is_segment segs -> joinPath (path_of segs) w = path_of (segs ++ [w]).
Proof.
  intros H. unfold joinPath. rewrite path_of_truthy by done.
  destruct segs as [|v segs]; [done|]. by rewrite path_of_snoc.
Qed.

Lemma last_slash_snoc (segs : list jstr) (w : jstr) :
  segs <> [] -> ~ In c_slash w ->
  last_index_of c_slash (path_of (segs ++ [w])) = Some (length (path_of segs)).
Proof. intros H Hw. rewrite path_of_snoc by done. by apply last_index_of_app. Qed.

Lemma slice_0_app (a b : jstr) : slice 0 (length a) (a ++ b) = a.
Proof. unfold slice. rewrite drop_0, Nat.sub_0_r. apply take_app_length. Qed.

Lemma slice_from_app (a b : jstr) (c : N) : slice_from (S (length a)) (a ++ c :: b) = b.
Proof. unfold slice_from. induction a as [|x a IH]; simpl; [by rewrite drop_0 | exact IH]. Qed.

Lemma parentPath_segments (segs : list jstr) (w : jstr) :
  Forall is_segment segs -> is_segment w -> parentPath (path_of (segs ++ [w])) = Some (path_of segs).
Proof.
  intros H [Hw1 Hw2]. unfold parentPath.
  rewrite path_of_truthy by (apply Forall_app; split; [done | by repeat constructor]).
  destruct segs as [|v segs].
  - change (path_of ([] ++ [w])) with w. by rewrite (proj2 (last_index_of_none c_slash w) Hw2).
  - rewrite last_slash_snoc by done. rewrite path_of_snoc by done.
    destruct segs; simpl; f_equal; apply slice_0_app.
Qed.

Lemma pathBasename_segments (segs : list jstr) (w : jstr) :
  Forall is_segment segs -> is_segment w -> pathBasename (path_of (segs ++ [w])) = w.
Proof.
  intros H [Hw1 Hw2]. unfold pathBasename.
  rewrite path_of_truthy by (apply Forall_app; split; [done | by repeat constructor]).
  destruct segs as [|v segs].
  - change (path_of ([] ++ [w])) with w. by rewrite (proj2 (last_index_of_none c_slash w) Hw2).
  - rewrite last_slash_snoc by done. rewrite path_of_snoc by done.
    destruct segs; apply slice_from_app.
Qed.

(** The parent is strictly shorter: the measure of every climb towards the root. *)
Lemma parentPath_shorter (p q : jstr) : parentPath p = Some q -> (length q < length p)%nat.
Proof.
  unfold parentPath. destruct (truthy p) eqn:Ht; [|done]. apply truthy_spec in Ht.
  destruct (last_index_of c_slash p) as [i|] eqn:E; intros [=]; subst q.
  - apply last_index_of_some in E as (_ & _ & Hi). unfold slice.
    rewrite length_take, drop_0. lia.
  - destruct p; simpl; [done | lia].
Qed.

Lemma parentOr_shorter (p : jstr) : p <> [] -> (length (parentOr p) < length p)%nat.
Proof.
  intros Hp. unfold parentOr. destruct (parentPath p) as [q|] eqn:E.
  - by apply parentPath_shorter.
  - destruct p; [done|]. simpl. lia.
Qed.

#[export] Hint Resolve parentOr_shorter parentPath_shorter : luna.

(** ** Theorems *)

(** paths are lists of segments.  Joining a name to a folder, taking the parent and taking the
    last name are inverse to each other, on every path made of segments; the parent of a path below
    the root is strictly shorter, so a climb towards the root always ends. *)
Theorem path_laws (folder : list jstr) (name : jstr) :
  Forall is_segment folder -> is_segment name ->
  let path := joinPath (path_of folder) name in
  parentPath path = Some (path_of folder)
  /\ pathBasename path = name
  /\ joinPath (parentOr path) (pathBasename path) = path
  /\ split_on c_slash path = folder ++ [name]
  /\ forall p, p <> [] -> (length (parentOr p) < length p)%nat.
Proof.
  intros Hf Hn path. unfold path. rewrite joinPath_segments by done.
  assert (Hp : parentPath (path_of (folder ++ [name])) = Some (path_of folder)) by by apply parentPath_segments.
  assert (Hb : pathBasename (path_of (folder ++ [name])) = name) by by apply pathBasename_segments.
  split_and!; [done | done | | | intros p; apply parentOr_shorter].
  - unfold parentOr. rewrite Hp, Hb. simpl. by apply joinPath_segments.
  - apply split_join; [by destruct folder|]. apply Forall_app. split; [|by repeat constructor; apply Hn].
    eapply Forall_impl; [exact Hf|]. by intros w [_ ?].
Qed.

Lemma path_laws_witness :
  Forall is_segment [js "Photos"; js "2024"] /\ is_segment (js "a.jpg")
  /\ parentPath (joinPath (path_of [js "Photos"; js "2024"]) (js "a.jpg")) = Some (js "Photos/2024").
Proof.
  assert (Hseg : forall w, w <> [] -> existsb (N.eqb c_slash) w = false -> is_segment w).
  { intros w Hw Hs. split; [exact Hw|]. intros Hin.
    rewrite (proj2 (includes_char_spec c_slash w) Hin : existsb (N.eqb c_slash) w = true) in Hs.
    discriminate Hs. }
  assert (H1 : Forall is_segment [js "Photos"; js "2024"])
    by (repeat constructor; apply Hseg; (discriminate || reflexivity)).
  assert (H2 : is_segment (js "a.jpg")) by (apply Hseg; (discriminate || reflexivity)).
  split; [exact H1|]. split; [exact H2|].
  exact (proj1 (path_laws [js "Photos"; js "2024"] (js "a.jpg") H1 H2)).
Defined.

(** Just below a megabyte the rounding shows four digits: the unit is chosen before rounding. *)
Example fmtSize_four_digits : fmtSize 999950 = js "1000.0 KB" /\ fmtSize 1000000 = js "1.0 MB".
Proof. vm_compute. done. Qed.
