(* ===== verification/Delimited.v ===== *)
(** * Delimited text: [luna/web/src/lib/delimited.js]

    The CSV/TSV reader of the table preview.  Section [Grammar] states the RFC 4180 texts of a
    table as a relation, with the freedoms the reader grants: quoted or plain fields, any one of
    the three line endings, an optional final line ending and an optional byte order mark. *)

From S2P Require Import Prelude JsString.

(** ** Definitions *)

(** [[",", "\t", ";", "|"]] *)
Definition SNIFF_CANDIDATES : list N := [44; 9; 59; 124]%N.

Fixpoint count_from (quoted : bool) (line : jstr) (d : N) : Z :=
  match line with
  | [] => 0
  | ch :: r =>
      if (ch =? c_quote)%N then
        match r with
        | e :: r' => if quoted && (e =? c_quote)%N then count_from quoted r' d
                     else count_from (negb quoted) r d
        | [] => 0
        end
      else if negb quoted && (ch =? d)%N then 1 + count_from quoted r d
      else count_from quoted r d
  end.

Definition countOutsideQuotes (line : jstr) (d : N) : Z := count_from false line d.

(** The first ten lines that are not blank. *)
Definition sampled_lines (text : jstr) : list jstr :=
  take 10 (List.filter (fun l => truthy (trim l)) (split_eol text)).

(** One turn of the loop over the candidates. *)
Definition sniff_one (first : jstr) (lines : list jstr) (best : N * Z) (d : N) : N * Z :=
  let count := countOutsideQuotes first d in
  if count =? 0 then best
  else
    let consistent := forallb (fun l => countOutsideQuotes l d =? count) lines in
    if consistent && (best.2 <? count) then (d, count) else best.

Definition sniffDelimiter (text : jstr) : N :=
  match sampled_lines text with
  | [] => 44%N
  | (first :: _) as lines => (foldl (sniff_one first lines) (44%N, 0) SNIFF_CANDIDATES).1
  end.

(** The local variables of the parser. *)
Record pstate := {
  p_rows : list (list jstr);
  p_row : list jstr;
  p_field : jstr;
  p_quoted : bool;
  p_fieldStart : bool;
}.
#[export] Instance eta_pstate : Settable pstate := fun r =>
  {| p_rows := p_rows r; p_row := p_row r; p_field := p_field r; p_quoted := p_quoted r;
     p_fieldStart := p_fieldStart r |}.

Definition pstart : pstate :=
  {| p_rows := []; p_row := []; p_field := []; p_quoted := false; p_fieldStart := true |}.

Definition endField (st : pstate) : pstate :=
  st <| p_row := p_row st ++ [p_field st] |> <| p_field := [] |> <| p_fieldStart := true |>.

Definition endRow (st : pstate) : pstate :=
  let st := endField st in
  st <| p_rows := p_rows st ++ [p_row st] |> <| p_row := [] |>.

Definition addChar (c : N) (st : pstate) : pstate := st <| p_field := p_field st ++ [c] |>.

(** The loop over [src]; [d] is the delimiter string, equal to a character or not. *)
Fixpoint scan (d : jstr) (src : jstr) (st : pstate) : pstate :=
  match src with
  | [] => st
  | ch :: r =>
      if p_quoted st then
        if (ch =? c_quote)%N then
          match r with
          | e :: r' => if (e =? c_quote)%N then scan d r' (addChar c_quote st)
                       else scan d r (st <| p_quoted := false |>)
          | [] => st <| p_quoted := false |>
          end
        else scan d r (addChar ch st)
      else if (ch =? c_quote)%N && p_fieldStart st then
        scan d r (st <| p_quoted := true |> <| p_fieldStart := false |>)
      else if bool_decide (d = [ch]) then scan d r (endField st)
      else if (ch =? c_cr)%N then
        match r with
        | e :: r' => if (e =? c_lf)%N then scan d r' (endRow st) else scan d r (endRow st)
        | [] => endRow st
        end
      else if (ch =? c_lf)%N then scan d r (endRow st)
      else scan d r ((addChar ch st) <| p_fieldStart := false |>)
  end.

(** The row still being read when the text ends. *)
Definition finish_rows (st : pstate) : pstate :=
  if truthy (p_field st) || negb (Nat.eqb (length (p_row st)) 0) then endRow st else st.

Definition blank_row (row : list jstr) : bool := forallb (fun c => negb (truthy c)) row.

(** [while (rows.length > 0 && last row is blank) rows.pop()] *)
Fixpoint pop_blank (rows : list (list jstr)) : list (list jstr) :=
  match rows with
  | [] => []
  | row :: rows =>
      match pop_blank rows with
      | [] => if blank_row row then [] else [row]
      | rows' => row :: rows'
      end
  end.

Definition c_bom : N := 0xFEFF%N.

Definition strip_bom (text : jstr) : jstr :=
  match text with
  | c :: r => if (c =? c_bom)%N then r else text
  | [] => []
  end.

Definition parseDelimited (text : jstr) (delimiter : option jstr) : list (list jstr) :=
  let src := strip_bom text in
  let d := match delimiter with Some d => d | None => [sniffDelimiter src] end in
  pop_blank (p_rows (finish_rows (scan d src pstart))).

(** ** The grammar *)

Section Grammar.
Context (d : N).

(** What may stand outside quotes in a field. *)
Definition plain_char (c : N) : Prop := c <> d /\ c <> c_cr /\ c <> c_lf.

(** A quote is doubled inside quotes. *)
Definition escape_quotes (f : jstr) : jstr :=
  flat_map (fun c => if (c =? c_quote)%N then [c_quote; c_quote] else [c]) f.

Inductive field_text : jstr -> jstr -> Prop :=
  | field_plain f : Forall plain_char f -> head f <> Some c_quote -> field_text f f
  | field_quoted f : field_text f (c_quote :: escape_quotes f ++ [c_quote]).

Inductive row_text : list jstr -> jstr -> Prop :=
  | row_last f t : field_text f t -> row_text [f] t
  | row_more f t fs ts : field_text f t -> row_text fs ts -> row_text (f :: fs) (t ++ d :: ts).

Definition is_eol (eol : jstr) : Prop := eol = [c_cr; c_lf] \/ eol = [c_cr] \/ eol = [c_lf].

Inductive table_text (eol : jstr) : list (list jstr) -> jstr -> Prop :=
  | table_nil : table_text eol [] []
  | table_last row t : row_text row t -> table_text eol [row] t
  | table_more row t rows ts :
      row_text row t -> table_text eol rows ts -> table_text eol (row :: rows) (t ++ eol ++ ts).
End Grammar.

(** [d] separates every line into the same number of fields, [n + 1 > 1]. *)
Definition separates (lines : list jstr) (d : N) (n : Z) : Prop :=
  0 < n /\ Forall (fun l => countOutsideQuotes l d = n) lines.

(** ** Lemmas *)

Lemma scan_plain (d : N) (f rest : jstr) (st : pstate) :
  Forall (plain_char d) f -> p_quoted st = false ->
  (p_fieldStart st = true -> head f <> Some c_quote) ->
  exists b, scan [d] (f ++ rest) st
            = scan [d] rest (st <| p_field := p_field st ++ f |> <| p_fieldStart := b |>).
Proof.
  revert st. induction f as [|c f IH]; intros st Hf Hq Hs.
  - exists (p_fieldStart st). simpl. rewrite app_nil_r. by destruct st.
  - apply Forall_cons in Hf as [(H1 & H2 & H3) Hf].
    destruct (IH ((addChar c st) <| p_fieldStart := false |>)) as [b Hb]; [done..|].
    exists b. cbn [app scan]. rewrite Hq.
    assert ((c =? c_quote)%N && p_fieldStart st = false) as ->.
    { destruct (N.eqb_spec c c_quote) as [->|]; [|done]. destruct (p_fieldStart st); [|done].
      by destruct Hs. }
    rewrite bool_decide_eq_false_2 by congruence.
    rewrite (proj2 (N.eqb_neq c c_cr)), (proj2 (N.eqb_neq c c_lf)) by done.
    rewrite Hb. destruct st; simpl. by rewrite <- app_assoc.
Qed.

Lemma scan_quoted (d : N) (f rest : jstr) (st : pstate) :
  p_quoted st = true -> head rest <> Some c_quote ->
  scan [d] (escape_quotes f ++ c_quote :: rest) st
  = scan [d] rest (st <| p_field := p_field st ++ f |> <| p_quoted := false |>).
Proof.
  intros Hq Hr. revert st Hq. induction f as [|c f IH]; intros st Hq.
  - simpl. rewrite Hq, app_nil_r. destruct rest as [|e rest]; [by destruct st|].
    destruct (N.eqb_spec e c_quote) as [->|]; [done|]. by destruct st.
  - unfold escape_quotes in *. cbn [flat_map].
    destruct (N.eqb_spec c c_quote) as [->|Hc].
    + cbn [app scan]. rewrite Hq, !N.eqb_refl. rewrite IH by done.
      destruct st; simpl. by rewrite <- app_assoc.
    + cbn [app scan]. rewrite Hq, (proj2 (N.eqb_neq c c_quote)) by done. rewrite IH by done.
      destruct st; simpl. by rewrite <- app_assoc.
Qed.

(** A field's text is read as that field, up to the [fieldStart] flag. *)
Lemma scan_field (d : N) (f t rest : jstr) (rows : list (list jstr)) (row : list jstr) :
  field_text d f t -> head rest <> Some c_quote ->
  exists b, scan [d] (t ++ rest) {| p_rows := rows; p_row := row; p_field := [];
                                    p_quoted := false; p_fieldStart := true |}
    = scan [d] rest {| p_rows := rows; p_row := row; p_field := f; p_quoted := false;
                       p_fieldStart := b |}.
Proof.
  intros Ht Hr. destruct Ht as [f Hf Hh|f].
  - by apply (scan_plain d f rest).
  - exists false. rewrite <- app_comm_cons, <- app_assoc. simpl. by rewrite scan_quoted.
Qed.

Lemma scan_row (d : N) (fs : list jstr) (t rest : jstr) (rows : list (list jstr)) :
  d <> c_quote -> row_text d fs t -> head rest <> Some c_quote -> forall row,
  exists init f b, fs = init ++ [f]
    /\ scan [d] (t ++ rest) {| p_rows := rows; p_row := row; p_field := []; p_quoted := false;
                               p_fieldStart := true |}
       = scan [d] rest {| p_rows := rows; p_row := row ++ init; p_field := f; p_quoted := false;
                          p_fieldStart := b |}.
Proof.
  intros Hd Ht Hr. induction Ht as [f t Hf|f t fs ts Hf Hrow IH]; intros row.
  - destruct (scan_field d f t rest rows row Hf Hr) as [b Hb].
    exists [], f, b. by rewrite app_nil_r.
  - destruct (scan_field d f t (d :: ts ++ rest) rows row Hf) as [b Hb]; [simpl; congruence|].
    destruct (IH (row ++ [f])) as (init & g & b' & -> & Hs).
    exists (f :: init), g, b'. split; [done|].
    rewrite <- app_assoc, <- app_comm_cons, Hb. cbn [scan p_quoted p_fieldStart].
    rewrite (proj2 (N.eqb_neq d c_quote)), bool_decide_eq_true_2 by done.
    cbn [andb]. unfold endField. cbn. rewrite Hs. by rewrite <- app_assoc.
Qed.

Lemma scan_eol (d : N) (eol rest : jstr) (st : pstate) :
  d <> c_cr -> d <> c_lf -> is_eol eol -> p_quoted st = false ->
  (eol = [c_cr] -> head rest <> Some c_lf) ->
  scan [d] (eol ++ rest) st = scan [d] rest (endRow st).
Proof.
  intros Hc Hl He Hq Hr. destruct He as [->|[->| ->]]; cbn [app scan]; rewrite Hq;
    change ((c_cr =? c_quote)%N) with false; change ((c_lf =? c_quote)%N) with false;
    cbn [andb]; rewrite bool_decide_eq_false_2 by congruence.
  - reflexivity.
  - rewrite N.eqb_refl. destruct rest as [|e rest]; [done|].
    destruct (N.eqb_spec e c_lf) as [->|]; [|done]. by destruct Hr.
  - reflexivity.
Qed.

Lemma row_head_lf (d : N) (fs : list jstr) (t rest : jstr) :
  d <> c_lf -> row_text d fs t -> head rest <> Some c_lf -> head (t ++ rest) <> Some c_lf.
Proof.
  intros Hd Ht Hr.
  assert (Hfield : forall f t rest, field_text d f t -> head rest <> Some c_lf ->
            head (t ++ rest) <> Some c_lf).
  { intros f u r [g Hg _|g] Hn; [|done]. destruct g as [|c g]; [done|].
    apply Forall_cons in Hg as [(_ & _ & ?) _]. simpl. congruence. }
  destruct Ht as [f t Hf|f t fs ts Hf _]; [by eapply Hfield|].
  rewrite <- app_assoc. eapply Hfield; [done|]. simpl. congruence.
Qed.

Lemma table_head_lf (d : N) (rows : list (list jstr)) (t : jstr) :
  d <> c_lf -> table_text d [c_cr] rows t -> head t <> Some c_lf.
Proof.
  intros Hd [|row u Hrow|row u rs ts Hrow _]; [done| |].
  - rewrite <- (app_nil_r u). by eapply row_head_lf.
  - by eapply row_head_lf.
Qed.

Lemma scan_table (d : N) (eol : jstr) (rows : list (list jstr)) (t : jstr) :
  d <> c_quote -> d <> c_cr -> d <> c_lf -> is_eol eol -> table_text d eol rows t ->
  forall acc, exists rows', (rows = rows' \/ rows = rows' ++ [[[]]])
    /\ p_rows (finish_rows (scan [d] t (pstart <| p_rows := acc |>))) = acc ++ rows'.
Proof.
  intros Hq Hc Hl He Ht. induction Ht as [|row t Hrow|row t rows ts Hrow Htab IH]; intros acc.
  - exists []. split; [by left|]. by rewrite app_nil_r.
  - destruct (scan_row d row t [] acc Hq Hrow (fun H => ltac:(discriminate H)) [])
      as (init & f & b & -> & Hs). rewrite app_nil_r in Hs.
    change (pstart <| p_rows := acc |>) with
      {| p_rows := acc; p_row := []; p_field := []; p_quoted := false; p_fieldStart := true |}.
    rewrite Hs. unfold finish_rows. cbn [scan p_field p_row app].
    destruct (truthy f || negb (Nat.eqb (length init) 0)) eqn:E.
    + exists [init ++ [f]]. split; [by left | done].
    + exists []. apply orb_false_iff in E as [E1 E2]. destruct f; [|done]. destruct init; [|done].
      split; [by right|]. by rewrite app_nil_r.
  - destruct (scan_row d row t (eol ++ ts) acc Hq Hrow) with (row := @nil jstr)
      as (init & f & b & -> & Hs).
    { by destruct He as [->|[->| ->]]. }
    change (pstart <| p_rows := acc |>) with
      {| p_rows := acc; p_row := []; p_field := []; p_quoted := false; p_fieldStart := true |}.
    rewrite Hs, scan_eol; [|done..|]; cycle 1.
    { intros ->. by eapply table_head_lf. }
    unfold endRow, endField. cbn.
    destruct (IH (acc ++ [init ++ [f]])) as (rows' & Hr & Hp).
    exists ((init ++ [f]) :: rows'). split.
    + destruct Hr as [->| ->]; [by left | by right].
    + cbn in Hp. rewrite Hp. by rewrite <- app_assoc.
Qed.

Lemma pop_blank_snoc (rows : list (list jstr)) (row : list jstr) :
  pop_blank (rows ++ [row]) = if blank_row row then pop_blank rows else rows ++ [row].
Proof.
  induction rows as [|r rows IH]; simpl; [by destruct (blank_row row)|].
  rewrite IH. destruct (blank_row row); [done|]. destruct rows; done.
Qed.

Lemma pop_blank_last (rows : list (list jstr)) (row : list jstr) :
  last (pop_blank rows) = Some row -> blank_row row = false.
Proof.
  induction rows as [|r rows IH] using rev_ind; [done|]. rewrite pop_blank_snoc.
  destruct (blank_row r) eqn:E; [done|]. rewrite last_snoc. by intros [= ->].
Qed.

Lemma pop_blank_prefix (rows : list (list jstr)) :
  exists blanks, rows = pop_blank rows ++ blanks /\ Forall (fun r => blank_row r = true) blanks.
Proof.
  induction rows as [|r rows IH] using rev_ind; [by exists []|]. rewrite pop_blank_snoc.
  destruct (blank_row r) eqn:E; [|exists []; by rewrite app_nil_r].
  destruct IH as (bs & Hr & Hb). exists (bs ++ [r]). rewrite app_assoc, <- Hr.
  split; [done|]. apply Forall_app; by repeat constructor.
Qed.

Lemma count_from_nonneg (d : N) (line : jstr) : forall q, 0 <= count_from q line d.
Proof.
  induction line as [line IH] using (induction_ltof1 _ (@length N)). unfold ltof in IH.
  intros q. destruct line as [|ch r]; cbn [count_from]; [lia|].
  destruct (ch =? c_quote)%N.
  - destruct r as [|e r']; [lia|]. destruct (q && (e =? c_quote)%N); apply IH; simpl; lia.
  - assert (0 <= count_from q r d) by (apply IH; simpl; lia).
    destruct (negb q && (ch =? d)%N); lia.
Qed.

Lemma sniff_fold (first : jstr) (lines : list jstr) (ds : list N) (best : N * Z) :
  first ∈ lines -> 0 <= best.2 ->
  let r := foldl (sniff_one first lines) best ds in
  best.2 <= r.2 /\ (r = best \/ (r.1 ∈ ds /\ separates lines r.1 r.2))
  /\ (forall d n, d ∈ ds -> separates lines d n -> n <= r.2).
Proof.
  intros Hf. revert best. induction ds as [|d ds IH]; intros best Hb r; subst r; simpl.
  - split_and!; [lia | by left | intros d n Hd; by apply not_elem_of_nil in Hd].
  - set (b := sniff_one first lines best d).
    assert (Hs : best.2 <= b.2 /\ (b = best \/ (b = (d, b.2) /\ separates lines d b.2))
                 /\ forall n, separates lines d n -> n <= b.2).
    { unfold b, sniff_one. cbv zeta. pose proof (count_from_nonneg d first false) as Hnn.
      fold (countOutsideQuotes first d) in Hnn.
      assert (Huniq : forall n, separates lines d n -> countOutsideQuotes first d = n).
      { intros n [_ Hall]. rewrite Forall_forall in Hall. by apply Hall. }
      destruct (Z.eqb_spec (countOutsideQuotes first d) 0) as [E|E].
      { split_and!; [lia | by left | intros n Hn; rewrite (Huniq n Hn) in E; destruct Hn; lia]. }
      destruct (forallb _ lines) eqn:Hall; cbn [andb].
      - assert (separates lines d (countOutsideQuotes first d)).
        { split; [lia|]. apply Forall_forall. intros l Hl.
          rewrite forallb_forall in Hall. apply Z.eqb_eq, Hall, list_elem_of_In, Hl. }
        destruct (Z.ltb_spec best.2 (countOutsideQuotes first d)); simpl.
        + split_and!; [lia | by right | intros n Hn; by rewrite (Huniq n Hn)].
        + split_and!; [lia | by left | intros n Hn; rewrite <- (Huniq n Hn); lia].
      - split_and!; [lia | by left |]. intros n Hn. exfalso.
        apply not_true_iff_false in Hall. apply Hall, forallb_forall. intros l Hl%list_elem_of_In.
        apply Z.eqb_eq. destruct (Hn) as [_ Hn']. rewrite Forall_forall in Hn'.
        by rewrite (Hn' l Hl), (Huniq n Hn). }
    clearbody b. destruct Hs as (H1 & H2 & H3).
    destruct (IH b) as (I1 & I2 & I3); [lia|].
    split_and!; [lia| |].
    + destruct I2 as [->|[Hin Hsep]].
      * destruct H2 as [->|[Eb Hsep]]; [by left|]. right. rewrite Eb. simpl.
        split; [by left | done].
      * right. split; [by right | done].
    + intros d' n [->|Hd]%elem_of_cons Hn; [|by eapply I3]. specialize (H3 n Hn). lia.
Qed.

(** A text of the grammar reads as its table. *)
Lemma parse_table_text (d : N) (eol : jstr) (rows : list (list jstr)) (text : jstr) :
  d <> c_quote -> d <> c_cr -> d <> c_lf -> is_eol eol -> table_text d eol rows (strip_bom text) ->
  parseDelimited text (Some [d]) = pop_blank rows.
Proof.
  intros Hq Hc Hl He Ht. unfold parseDelimited. cbv zeta.
  destruct (scan_table d eol rows (strip_bom text) Hq Hc Hl He Ht []) as (rows' & Hr & Hp).
  change (pstart <| p_rows := [] |>) with pstart in Hp. rewrite Hp.
  destruct Hr as [->| ->]; [done|]. by rewrite pop_blank_snoc.
Qed.

(** ** Theorems *)

(** C38: the reader accepts RFC 4180.  For every table and every text of it in the grammar (quoted
    or plain fields, doubled quotes, any one of the three line endings, a final line ending or none,
    a byte order mark or none), parsing gives back the table without its trailing blank rows. *)
Theorem csv_reads_grammar (d : N) (eol : jstr) (rows : list (list jstr)) (text : jstr) :
  d <> c_quote -> d <> c_cr -> d <> c_lf -> is_eol eol -> table_text d eol rows (strip_bom text) ->
  parseDelimited text (Some [d]) = pop_blank rows.
Proof.
  apply parse_table_text.
Qed.

(** A one-column field may hold the delimiter, a line break and a quote; the second row ends the
    text without a line ending; the third, all blank, is dropped. *)
Lemma csv_reads_grammar_witness :
  parseDelimited (c_bom :: js "a;b" ++ [c_cr; c_lf] ++ [c_quote; 59; c_lf; c_quote; c_quote; c_quote; 59; c_cr; c_lf; 59]%N)
    (Some [59%N])
  = pop_blank [[js "a"; js "b"]; [[59; c_lf; c_quote]; []]; [[]; []]]%N
  /\ pop_blank [[js "a"; js "b"]; [[59; c_lf; c_quote]; []]; [[]; []]]%N
     = [[js "a"; js "b"]; [[59; c_lf; c_quote]; []]]%N.
Proof.
  split; [|vm_compute; reflexivity].
  apply (csv_reads_grammar 59%N [c_cr; c_lf]); [discriminate.. | by left |].
  change (table_text 59%N [c_cr; c_lf]
            [[js "a"; js "b"]; [[59; c_lf; c_quote]; []]; [[]; []]]%N
            ((js "a" ++ 59%N :: js "b") ++ [c_cr; c_lf]
             ++ ((c_quote :: escape_quotes [59; c_lf; c_quote]%N ++ [c_quote]) ++ 59%N :: [])
             ++ [c_cr; c_lf] ++ ([] ++ 59%N :: []))).
  assert (Hplain : forall f, forallb (fun c => negb (c =? 59)%N && negb (c =? c_cr)%N && negb (c =? c_lf)%N) f = true
            -> head f <> Some c_quote -> field_text 59%N f f).
  { intros f Hf Hh. apply field_plain; [|done]. apply Forall_forall. intros c Hc.
    rewrite forallb_forall in Hf. specialize (Hf c (proj1 (list_elem_of_In _ _) Hc)).
    apply andb_prop in Hf as [[H1 H2]%andb_prop H3].
    split_and!; intros ->; discriminate. }
  apply table_more; [|apply table_more; [|apply table_last]].
  - apply row_more; [|apply row_last]; apply Hplain; (reflexivity || discriminate).
  - apply row_more; [apply field_quoted | apply row_last; apply Hplain; (reflexivity || discriminate)].
  - apply row_more; [|apply row_last]; apply Hplain; (reflexivity || discriminate).
Defined.

(** Sniffing.  On the sampled lines the chosen delimiter separates every line into the same
    number of fields, and no candidate separates them into more; the comma is the answer when no
    candidate separates them. *)
Theorem sniff_best (text : jstr) :
  let lines := sampled_lines text in
  let d := sniffDelimiter text in
  d ∈ SNIFF_CANDIDATES
  /\ ((exists n, separates lines d n
        /\ forall d' n', d' ∈ SNIFF_CANDIDATES -> lines <> [] -> separates lines d' n' -> n' <= n)
      \/ (d = 44%N /\ forall d' n', d' ∈ SNIFF_CANDIDATES -> lines <> [] -> ~ separates lines d' n')).
Proof.
  intros lines d. unfold d, sniffDelimiter. fold lines. clearbody lines. clear d text.
  destruct lines as [|first rest]; [split; [by left | right; done]|].
  destruct (sniff_fold first (first :: rest) SNIFF_CANDIDATES (44%N, 0)) as (H1 & H2 & H3);
    [by left | done |]. cbv zeta in *.
  set (r := foldl _ _ _) in *. clearbody r. destruct H2 as [->|[Hin Hsep]].
  - split; [by left|]. right. split; [done|]. intros d' n' Hd _ Hs.
    specialize (H3 d' n' Hd Hs). destruct Hs. simpl in H3. lia.
  - split; [done|]. left. exists r.2. split; [done|]. intros d' n' Hd _. by apply H3.
Qed.

(** An empty delimiter is not sniffed, although the comment of [parseDelimited] says so: no
    character equals it, so every line is one field. *)
Theorem empty_delimiter_not_sniffed (line : jstr) :
  Forall (fun c => c <> c_quote /\ c <> c_cr /\ c <> c_lf /\ c <> c_bom) line -> line <> [] ->
  parseDelimited line (Some []) = [[line]].
Proof.
  intros Hl Hne.
  assert (Hs : forall f st, Forall (fun c => c <> c_quote /\ c <> c_cr /\ c <> c_lf /\ c <> c_bom) f ->
            p_quoted st = false -> p_row (scan [] f st) = p_row st /\ p_rows (scan [] f st) = p_rows st
            /\ p_field (scan [] f st) = p_field st ++ f).
  { induction f as [|c f IH]; intros st Hf Hq; cbn [scan]; [by rewrite app_nil_r|].
    apply Forall_cons in Hf as [(H1 & H2 & H3 & _) Hf]. rewrite Hq, (proj2 (N.eqb_neq c c_quote)) by done.
    cbn [andb]. rewrite bool_decide_eq_false_2 by done.
    rewrite (proj2 (N.eqb_neq c c_cr)), (proj2 (N.eqb_neq c c_lf)) by done.
    destruct (IH ((addChar c st) <| p_fieldStart := false |>)) as (I1 & I2 & I3); [done..|].
    rewrite I1, I2, I3. split_and!; [done..|]. cbn. by rewrite <- app_assoc. }
  unfold parseDelimited. cbv zeta.
  assert (strip_bom line = line) as ->.
  { destruct line as [|c r]; [done|]. apply Forall_cons in Hl as [(_ & _ & _ & Hb) _]. simpl.
    by rewrite (proj2 (N.eqb_neq c c_bom)). }
  destruct (Hs line pstart Hl eq_refl) as (H1 & H2 & H3). cbn in H1, H2, H3.
  unfold finish_rows. rewrite H3. apply truthy_spec in Hne as Ht. rewrite Ht. cbn [orb].
  unfold endRow, endField. cbn. rewrite H1, H2, H3. cbn.
  unfold blank_row. cbn. by rewrite Ht.
Qed.

Lemma empty_delimiter_not_sniffed_witness :
  parseDelimited (js "a,b,c") (Some []) = [[js "a,b,c"]]
  /\ parseDelimited (js "a,b,c") None = [[js "a"; js "b"; js "c"]].
Proof.
  split; [|vm_compute; reflexivity].
  apply empty_delimiter_not_sniffed; [|discriminate].
  repeat (constructor; [split_and!; discriminate|]). constructor.
Defined.
