(* ===== verification/TableModel.v ===== *)
(** * Markdown tables: [components/files/markdownTableModel.js]

    Span parsing, serialization and the structure operations of the table editor.  The GFM parser
    ([@lezer/markdown]) and [Intl.Collator] are third-party: section variables. *)

From S2P Require Import Prelude JsString.

(** ** Cells *)

Definition char_at (s : jstr) (i : nat) : option N := s !! i.
Definition is_char (s : jstr) (i : nat) (c : N) : bool := bool_decide (char_at s i = Some c).

(** The run of backslashes that ends a prefix, given reversed. *)
Fixpoint backslash_run (revprefix : jstr) : nat :=
  match revprefix with
  | c :: r => if (c =? c_backslash)%N then S (backslash_run r) else 0
  | [] => 0
  end.

Definition isEscaped (s : jstr) (i : nat) : bool := Nat.odd (backslash_run (rev (take i s))).

Definition decodeTableCell (raw : jstr) : jstr := trim raw.

(** [replace(/\r\n|\r|\n/g, " ")] *)
Definition flatten_lines (s : jstr) : jstr := join [c_space] (split_eol s).

Definition encode_char (s : jstr) (i : nat) : jstr :=
  if is_char s i c_pipe && negb (isEscaped s i) then [c_backslash; c_pipe]
  else slice i (S i) s.

Definition encodeTableCell (value : jstr) : jstr :=
  let s := flatten_lines value in
  flat_map (encode_char s) (seq 0 (length s)).

(** ** Lines *)

Record span := { sp_from : nat; sp_to : nat; sp_raw : jstr; sp_missing : bool }.

Definition unescaped_pipes (line : jstr) (lead end_ : nat) : list nat :=
  List.filter (fun i => is_char line i c_pipe && negb (isEscaped line i)) (seq lead (end_ - lead)).

Definition opening (lead : nat) (delims : list nat) : option nat :=
  match delims with
  | d :: _ => if Nat.eqb d lead then Some d else None
  | [] => None
  end.

Definition closing (end_ : nat) (open : option nat) (delims : list nat) : option nat :=
  match last delims with
  | Some d => if Nat.eqb (S d) end_ && negb (bool_decide (Some d = open)) then Some d else None
  | None => None
  end.

Definition cell_span (line : jstr) (from to : nat) : span :=
  {| sp_from := from; sp_to := to; sp_raw := slice from to line; sp_missing := false |}.

(** The loop over the delimiters, and the cell after the last one. *)
Fixpoint cut_cells (line : jstr) (open close : option nat) (lastEnd segStart : nat)
    (delims : list nat) : list span :=
  match delims with
  | [] => [cell_span line segStart lastEnd]
  | d :: ds =>
      if bool_decide (Some d = open) || bool_decide (Some d = close)
      then cut_cells line open close lastEnd segStart ds
      else cell_span line segStart d :: cut_cells line open close lastEnd (S d) ds
  end.

Definition splitLineSpans (line : jstr) : list span :=
  let lead := lead_space line in
  let end_ := (length line - lead_space (rev line))%nat in
  let delims := unescaped_pipes line lead end_ in
  let open := opening lead delims in
  let close := closing end_ open delims in
  cut_cells line open close (default end_ close)
    (match open with Some d => S d | None => 0%nat end) delims.

Definition splitTableLine (line : jstr) : list jstr :=
  map (fun c => decodeTableCell (sp_raw c)) (splitLineSpans line).

Inductive alignment := ANone | ALeft | ACenter | ARight.

#[export] Instance alignment_eq : EqDecision alignment.
Proof. solve_decision. Defined.

Definition alignmentOf (cell : jstr) : alignment :=
  let left := starts_with [c_colon] cell in
  let right := ends_with [c_colon] cell in
  if left && right then ACenter else if right then ARight else if left then ALeft else ANone.

Definition drop_colon (s : jstr) : jstr :=
  match s with
  | c :: r => if (c =? c_colon)%N then r else s
  | [] => []
  end.

(** [/^:?-+:?$/] *)
Definition MIN_CELL_DASHES (cell : jstr) : bool :=
  let core := rev (drop_colon (rev (drop_colon cell))) in
  truthy core && forallb (N.eqb c_dash) core.

(** ** Documents *)

Record table := { header : list jstr; align : list alignment; body : list (list jstr) }.
#[export] Instance eta_table : Settable table := fun r =>
  {| header := header r; align := align r; body := body r |}.

(** A child of the syntax tree's top node: is it a [Table], and where it stands. *)
Record gnode := { g_isTable : bool; g_from : nat; g_to : nat }.

Record rec_line := { rl_line : jstr; rl_start : nat }.

Record table_document := {
  td_model : table;
  td_cells : list (list span);
  td_delimiter : nat * nat;
}.

(** [source.replace(/\r\n?/g, "\n")] *)
Fixpoint normalize_eol (s : jstr) : jstr :=
  match s with
  | [] => []
  | c :: r =>
      if (c =? c_cr)%N then
        c_lf :: match r with
                | e :: r' => if (e =? c_lf)%N then normalize_eol r' else normalize_eol r
                | [] => []
                end
      else c :: normalize_eol r
  end.

Fixpoint rec_lines (off : nat) (lines : list jstr) : list rec_line :=
  match lines with
  | [] => []
  | line :: lines => {| rl_line := line; rl_start := off |} :: rec_lines (off + length line + 1) lines
  end.

(** [spans] with zero-width markers at the line's end up to [cols]. *)
Definition pad_spans (cols : nat) (spans : list span) (r : rec_line) : list span :=
  map (fun c =>
    match spans !! c with
    | Some s => {| sp_from := rl_start r + sp_from s; sp_to := rl_start r + sp_to s;
                   sp_raw := sp_raw s; sp_missing := false |}
    | None => let at_ := (rl_start r + length (rl_line r))%nat in
              {| sp_from := at_; sp_to := at_; sp_raw := []; sp_missing := true |}
    end) (seq 0 cols).

(** The alignments of the delimiter row, [None] when a cell is not one. *)
Fixpoint alignments (spans : list span) : option (list alignment) :=
  match spans with
  | [] => Some []
  | s :: spans =>
      let t := trim (sp_raw s) in
      if MIN_CELL_DASHES t then rest ← alignments spans; Some (alignmentOf t :: rest) else None
  end.

Section Parse.
(** [gfmParser.parse(source)]: the children of the top node. *)
Context (gfm : jstr -> list gnode).

Fixpoint sole_table (source : jstr) (nodes : list gnode) (tbl : option gnode) : option gnode :=
  match nodes with
  | [] => tbl
  | n :: nodes =>
      if g_isTable n then
        match tbl with Some _ => None | None => sole_table source nodes (Some n) end
      else if truthy (trim (slice (g_from n) (g_to n) source)) then None
      else sole_table source nodes tbl
  end.

Definition soleTableNode (source : jstr) : option gnode := sole_table source (gfm source) None.

Definition parseTableDocument (source : jstr) (strict : bool) : option table_document :=
  let source := normalize_eol source in
  tableNode ← soleTableNode source;
  let recs := rec_lines 0 (split_on c_lf source) in
  let inTable := List.filter (fun r => truthy (trim (rl_line r))
                   && (g_from tableNode <=? rl_start r)%nat && (rl_start r <? g_to tableNode)%nat) recs in
  match inTable with
  | headerRec :: delimRec :: bodyRecs =>
      let headerSpans := splitLineSpans (rl_line headerRec) in
      let delimSpans := splitLineSpans (rl_line delimRec) in
      aligns ← alignments delimSpans;
      if strict && (negb (Nat.eqb (length headerSpans) (length delimSpans))
           || (negb (includes_char c_pipe (rl_line headerRec))
               && negb (includes_char c_pipe (rl_line delimRec))))
      then None
      else
        let bodySpans := map (fun r => splitLineSpans (rl_line r)) bodyRecs in
        let cols := foldl Nat.max (length headerSpans) (length aligns :: map length bodySpans) in
        if Nat.eqb cols 0 then None
        else
          let decode := map (fun s => decodeTableCell (sp_raw s)) in
          Some {| td_model :=
                    {| header := pad_to cols [] (decode headerSpans);
                       align := pad_to cols ANone aligns;
                       body := map (fun row => pad_to cols [] (decode row)) bodySpans |};
                  td_cells := pad_spans cols headerSpans headerRec
                              :: map (fun r => pad_spans cols (splitLineSpans (rl_line r)) r) bodyRecs;
                  td_delimiter := (rl_start delimRec,
                                   rl_start delimRec + length (rl_line delimRec))%nat |}
  | _ => None
  end.

Definition parseMarkdownTable (text : jstr) : option table :=
  td_model <$> parseTableDocument text false.
End Parse.

(** ** Serialization *)

Definition pad_cells (cols : nat) (r : list jstr) : list jstr :=
  map (fun i => trim (encodeTableCell (default [] (r !! i)))) (seq 0 cols).

Definition delim_cell (a : option alignment) : jstr :=
  match a with
  | Some ACenter => js ":---:"
  | Some ARight => js "---:"
  | Some ALeft => js ":---"
  | _ => js "---"
  end.

Definition pipe_row (cells : list jstr) : jstr := js "| " ++ join (js " | ") cells ++ js " |".

Definition serializeMarkdownTable (t : table) : jstr :=
  let cols := Nat.max (length (header t)) 1 in
  let row cells := pipe_row (pad_cells cols cells) in
  join [c_lf] (row (header t)
               :: pipe_row (map (fun i => delim_cell (align t !! i)) (seq 0 cols))
               :: map row (body t)).

Definition cloneTableModel (m : table) : table :=
  {| header := header m; align := align m; body := body m |}.

(** [tableCellValue(m, r, c)]; a row or a column out of range reads as empty. *)
Definition tableCellValue (m : table) (r : Z) (c : nat) : jstr :=
  if r =? 0 then default [] (header m !! c)
  else if r <? 0 then []
  else default [] (body m !! Z.to_nat (r - 1) ≫= fun row => row !! c).

(** ** Structure operations *)

Definition emptyRow (cols : nat) : list jstr := replicate cols [].

Definition insertTableRow (m : table) (atR : Z) : table :=
  let next := cloneTableModel m in
  let at_ := Z.min (Z.max atR 1) (Z.of_nat (length (body next)) + 1) in
  next <| body := splice (Z.to_nat (at_ - 1)) 0 [emptyRow (length (header next))] (body next) |>.

Definition deleteTableRow (m : table) (r : Z) : option table :=
  if (r <? 1) || (Z.of_nat (length (body m)) <? r) then None
  else
    let next := cloneTableModel m in
    Some (next <| body := splice (Z.to_nat (r - 1)) 1 [] (body next) |>).

Definition insertTableCol (m : table) (atC : Z) : table :=
  let next := cloneTableModel m in
  let at_ := Z.to_nat (Z.min (Z.max atC 0) (Z.of_nat (length (header next)))) in
  {| header := splice at_ 0 [[]] (header next);
     align := splice at_ 0 [ANone] (align next);
     body := map (splice at_ 0 [[]]) (body next) |}.

Definition deleteTableCol (m : table) (c : Z) : option table :=
  if (c <? 0) || (Z.of_nat (length (header m)) <=? c) || (length (header m) <=? 1)%nat then None
  else
    let next := cloneTableModel m in
    let at_ := Z.to_nat c in
    Some {| header := splice at_ 1 [] (header next);
            align := splice at_ 1 [] (align next);
            body := map (splice at_ 1 []) (body next) |}.

Definition setTableAlign (m : table) (c : Z) (a : alignment) : table :=
  let next := cloneTableModel m in
  if (0 <=? c) && (c <? Z.of_nat (length (align next)))
  then next <| align := <[Z.to_nat c := a]> (align next) |>
  else next.

Section Sort.
(** [collator.compare] *)
Context (collate : jstr -> jstr -> Z).

(** The comparator, on rows tagged with their index. *)
Definition row_order (c : nat) (dir : Z) (a b : list jstr * nat) : Z :=
  let av := default [] (a.1 !! c) in
  let bv := default [] (b.1 !! c) in
  let tie := Z.of_nat a.2 - Z.of_nat b.2 in
  match truthy av, truthy bv with
  | false, false => tie
  | false, true => 1
  | true, false => -1
  | true, true => let cmp := collate av bv in if cmp =? 0 then tie else cmp * dir
  end.

Definition sortTableRows (m : table) (c : nat) (dir : Z) : table :=
  let next := cloneTableModel m in
  let keyed := zip (body next) (seq 0 (length (body next))) in
  next <| body := map fst (js_sort (row_order c dir) keyed) |>.
End Sort.

Example split_ex : splitTableLine (js "| a \| b | `c` ||") = [js "a \| b"; js "`c`"; []].
Proof. vm_compute. reflexivity. Qed.
Example encode_ex : encodeTableCell (js "a|b\|c\\|d") = js "a\|b\|c\\\|d".
Proof. vm_compute. reflexivity. Qed.
