(* ===== verification/TableFacts.v ===== *)
(** * Markdown tables: properties

    Escaping as a two-state machine ([no_pipe], [pipes_from], [encode_from]) that the index-based
    code implements, the clean cells serialization writes, rectangular tables, and the theorems on
    round trip, spans, structure operations and sorting. *)

From S2P Require Import Prelude JsString TableModel.

(** ** Specification *)

(** Is the next character escaped, after [c]? *)
Definition esc_step (b : bool) (c : N) : bool := if (c =? c_backslash)%N then negb b else false.
Definition esc_after (b : bool) (s : jstr) : bool := foldl esc_step b s.

(** No unescaped pipe in [s], when [b] tells whether its first character is escaped. *)
Fixpoint no_pipe (b : bool) (s : jstr) : bool :=
  match s with
  | [] => true
  | c :: r => (b || negb (c =? c_pipe)%N) && no_pipe (esc_step b c) r
  end.

(** The positions of the unescaped pipes, counted from [off]. *)
Fixpoint pipes_from (off : nat) (b : bool) (s : jstr) : list nat :=
  match s with
  | [] => []
  | c :: r =>
      (if (c =? c_pipe)%N && negb b then [off] else []) ++ pipes_from (S off) (esc_step b c) r
  end.

(** Cutting at the unescaped pipes. *)
Fixpoint cut_pipes (b : bool) (s : jstr) : list jstr :=
  match s with
  | [] => [[]]
  | c :: r =>
      if (c =? c_pipe)%N && negb b then [] :: cut_pipes false r
      else match cut_pipes (esc_step b c) r with
           | [] => [[c]]
           | w :: ws => (c :: w) :: ws
           end
  end.

Fixpoint encode_from (b : bool) (s : jstr) : jstr :=
  match s with
  | [] => []
  | c :: r => (if (c =? c_pipe)%N && negb b then [c_backslash; c_pipe] else [c])
              ++ encode_from (esc_step b c) r
  end.

Definition piece (w : jstr) : Prop := no_pipe false w = true /\ esc_after false w = false.

Definition clean (w : jstr) : Prop :=
  no_pipe false w = true /\ trimmed w /\ ~ In c_cr w /\ ~ In c_lf w.

Definition padded (w : jstr) : jstr := c_space :: w ++ [c_space].

Definition table_cols (t : table) : nat := Nat.max (length (header t)) 1.

(** The table a serialization stands for: as many columns as the header, clean cells. *)
Definition normalize (t : table) : table :=
  let cols := table_cols t in
  {| header := pad_cells cols (header t);
     align := map (fun i => default ANone (align t !! i)) (seq 0 cols);
     body := map (pad_cells cols) (body t) |}.

Definition delim_cells (t : table) : list jstr :=
  map (fun i => delim_cell (align t !! i)) (seq 0 (table_cols t)).

(** The lines of a serialization. *)
Definition table_lines (t : table) : list jstr :=
  let row cells := pipe_row (pad_cells (table_cols t) cells) in
  row (header t) :: pipe_row (delim_cells t) :: map row (body t).

(** What the code relies on in [Intl.Collator.compare]: a total preorder. *)
Definition collator (collate : jstr -> jstr -> Z) : Prop :=
  (forall x y, collate x y <= 0 <-> 0 <= collate y x)
  /\ (forall x y z, collate x y <= 0 -> collate y z <= 0 -> collate x z <= 0).

(** Row [a] may stand before row [b]. *)
Definition row_before (collate : jstr -> jstr -> Z) (c : nat) (dir : Z) (a b : list jstr) : Prop :=
  match default [] (a !! c), default [] (b !! c) with
  | _, [] => True
  | [], _ => False
  | av, bv => collate av bv * dir <= 0
  end.

(** The sort may not reorder them. *)
Definition row_tie (collate : jstr -> jstr -> Z) (c : nat) (a b : list jstr) : Prop :=
  match default [] (a !! c), default [] (b !! c) with
  | [], [] => True
  | [], _ | _, [] => False
  | av, bv => collate av bv = 0
  end.

(** A rectangular table. *)
Definition rect (m : table) : Prop :=
  length (align m) = length (header m) /\ (1 <= length (header m))%nat
  /\ Forall (fun row => length row = length (header m)) (body m).

Definition span_in (line : jstr) (s : span) : Prop :=
  (sp_from s <= length line)%nat /\ (sp_to s <= length line)%nat
  /\ sp_raw s = slice (sp_from s) (sp_to s) line /\ sp_missing s = false.

Definition span_ok (source : jstr) (s : span) : Prop :=
  (sp_from s <= length source)%nat /\ (sp_to s <= length source)%nat
  /\ sp_raw s = slice (sp_from s) (sp_to s) source
  /\ (sp_missing s = true -> sp_from s = sp_to s).

(** ** Escapes as a state machine *)

Lemma backslash_run_esc (p : jstr) : Nat.odd (backslash_run (rev p)) = esc_after false p.
Proof.
  induction p as [|c p IH] using rev_ind; [done|].
  rewrite rev_app_distr. unfold esc_after in *. rewrite foldl_app. cbn [rev app foldl backslash_run].
  unfold esc_step at 1. destruct (c =? c_backslash)%N; [|done].
  rewrite Nat.odd_succ, <- Nat.negb_odd. by rewrite IH.
Qed.

Lemma isEscaped_app (p s : jstr) : isEscaped (p ++ s) (length p) = esc_after false p.
Proof. unfold isEscaped. by rewrite take_app_length, backslash_run_esc. Qed.

Lemma is_char_app (p s : jstr) (c d : N) : is_char (p ++ c :: s) (length p) d = (c =? d)%N.
Proof.
  unfold is_char, char_at. rewrite list_lookup_middle by done.
  destruct (N.eqb_spec c d) as [->|]; [by apply bool_decide_eq_true_2|].
  apply bool_decide_eq_false_2. congruence.
Qed.

Lemma esc_after_snoc (b : bool) (p : jstr) (c : N) :
  esc_after b (p ++ [c]) = esc_step (esc_after b p) c.
Proof. unfold esc_after. by rewrite foldl_app. Qed.

Lemma pipes_spec (p s : jstr) :
  List.filter (fun i => is_char (p ++ s) i c_pipe && negb (isEscaped (p ++ s) i))
    (seq (length p) (length s))
  = pipes_from (length p) (esc_after false p) s.
Proof.
  revert p. induction s as [|c s IH]; intros p; [done|]. cbn [length seq List.filter pipes_from].
  rewrite is_char_app, isEscaped_app. specialize (IH (p ++ [c])).
  rewrite <- app_assoc, length_app, Nat.add_1_r, esc_after_snoc in IH. cbn [app] in IH.
  rewrite IH. by destruct ((c =? c_pipe)%N && negb (esc_after false p)).
Qed.

Lemma encode_spec (p s : jstr) :
  flat_map (encode_char (p ++ s)) (seq (length p) (length s)) = encode_from (esc_after false p) s.
Proof.
  revert p. induction s as [|c s IH]; intros p; [done|]. cbn [length seq flat_map encode_from].
  unfold encode_char at 1. rewrite is_char_app, isEscaped_app. specialize (IH (p ++ [c])).
  rewrite <- app_assoc, length_app, Nat.add_1_r, esc_after_snoc in IH. cbn [app] in IH.
  rewrite IH. f_equal. destruct ((c =? c_pipe)%N && negb (esc_after false p)); [done|].
  unfold slice. rewrite drop_app_length. by replace (S (length p) - length p)%nat with 1%nat by lia.
Qed.

Lemma encode_value (value : jstr) : encodeTableCell value = encode_from false (flatten_lines value).
Proof. unfold encodeTableCell. apply (encode_spec []). Qed.

Lemma encode_no_pipe (b : bool) (s : jstr) : no_pipe b (encode_from b s) = true.
Proof.
  revert b. induction s as [|c s IH]; intros b; [done|]. cbn [encode_from].
  destruct (N.eqb_spec c c_pipe) as [->|Hc]; destruct b; cbn [andb negb app no_pipe esc_step].
  - apply IH.
  - cbn. apply IH.
  - cbn [orb]. apply IH.
  - rewrite (proj2 (N.eqb_neq c c_pipe)) by done. cbn [orb negb andb]. apply IH.
Qed.

Lemma encode_id (b : bool) (s : jstr) : no_pipe b s = true -> encode_from b s = s.
Proof.
  revert b. induction s as [|c s IH]; intros b; [done|]. cbn [encode_from no_pipe].
  intros [H1 H2]%andb_prop.
  assert ((c =? c_pipe)%N && negb b = false) as ->.
  { destruct (c =? c_pipe)%N, b; done. }
  cbn [app]. by rewrite IH.
Qed.

Lemma no_pipe_app (b : bool) (s t : jstr) :
  no_pipe b (s ++ t) = no_pipe b s && no_pipe (esc_after b s) t.
Proof.
  revert b. induction s as [|c s IH]; intros b; [done|]. cbn [app no_pipe].
  rewrite IH. by rewrite andb_assoc.
Qed.

Lemma no_pipe_pipes (off : nat) (b : bool) (s : jstr) : no_pipe b s = true -> pipes_from off b s = [].
Proof.
  revert off b. induction s as [|c s IH]; intros off b; [done|]. cbn [no_pipe pipes_from].
  intros [H1 H2]%andb_prop. rewrite IH by done. destruct (c =? c_pipe)%N, b; done.
Qed.

Lemma pipes_app (off : nat) (b : bool) (s t : jstr) :
  pipes_from off b (s ++ t) = pipes_from off b s ++ pipes_from (off + length s) (esc_after b s) t.
Proof.
  revert off b. induction s as [|c s IH]; intros off b; cbn [app pipes_from length].
  - by rewrite Nat.add_0_r.
  - rewrite IH, app_assoc. by replace (S off + length s)%nat with (off + S (length s))%nat by lia.
Qed.

Lemma pipes_bounds (off : nat) (b : bool) (s : jstr) :
  Forall (fun i => off <= i < off + length s)%nat (pipes_from off b s).
Proof.
  revert off b. induction s as [|c s IH]; intros off b; cbn [pipes_from length]; [done|].
  apply Forall_app. split; [destruct (_ && _); repeat constructor; lia|].
  eapply Forall_impl; [apply IH|]. simpl. lia.
Qed.

(** White space never carries an escape over. *)
Lemma is_space_plain (c : N) :
  is_space c = true -> (c =? c_backslash)%N = false /\ (c =? c_pipe)%N = false.
Proof. intros H. split; apply N.eqb_neq; intros ->; discriminate H. Qed.

Lemma esc_step_space (b : bool) (c : N) : is_space c = true -> esc_step b c = false.
Proof. intros [H _]%is_space_plain. unfold esc_step. by rewrite H. Qed.

Lemma no_pipe_trim_start (s : jstr) : no_pipe false s = true -> no_pipe false (trim_start s) = true.
Proof.
  induction s as [|c s IH]; [done|]. cbn [trim_start]. destruct (is_space c) eqn:E; [|done].
  cbn [no_pipe]. rewrite (esc_step_space false c E). intros [_ H]%andb_prop. by apply IH.
Qed.

Lemma trim_end_prefix (s : jstr) : exists t, s = trim_end s ++ t.
Proof.
  unfold trim_end. rewrite trim_start_lead. exists (rev (take (lead_space (rev s)) (rev s))).
  rewrite <- rev_app_distr, take_drop. by rewrite rev_involutive.
Qed.

Lemma no_pipe_trim (s : jstr) : no_pipe false s = true -> no_pipe false (trim s) = true.
Proof.
  intros H%no_pipe_trim_start. unfold trim. destruct (trim_end_prefix (trim_start s)) as [t Ht].
  rewrite Ht, no_pipe_app in H. by apply andb_prop in H as [? _].
Qed.

(** ** Cutting a row *)

Lemma cut_pipes_ne (b : bool) (s : jstr) : cut_pipes b s <> [].
Proof.
  destruct s as [|c s]; cbn [cut_pipes]; [done|]. destruct (_ && _); [done|].
  by destruct (cut_pipes _ s).
Qed.

Lemma cut_pipes_none (b : bool) (s : jstr) : no_pipe b s = true -> cut_pipes b s = [s].
Proof.
  revert b. induction s as [|c s IH]; intros b; [done|]. cbn [no_pipe cut_pipes].
  intros [H1 H2]%andb_prop.
  assert ((c =? c_pipe)%N && negb b = false) as -> by (destruct (c =? c_pipe)%N, b; done).
  by rewrite IH.
Qed.

Lemma cut_pipes_app (b : bool) (s t : jstr) :
  no_pipe b s = true -> esc_after b s = false ->
  cut_pipes b (s ++ c_pipe :: t) = s :: cut_pipes false t.
Proof.
  revert b. induction s as [|c s IH]; intros b; cbn [no_pipe app cut_pipes].
  - intros _ Hb. simpl in Hb. subst b. done.
  - intros [H1 H2]%andb_prop He.
    assert ((c =? c_pipe)%N && negb b = false) as -> by (destruct (c =? c_pipe)%N, b; done).
    by rewrite IH.
Qed.

Lemma cut_pipes_join (ws : list jstr) :
  ws <> [] -> Forall piece ws -> cut_pipes false (join [c_pipe] ws) = ws.
Proof.
  induction ws as [|w ws IH]; [done|]. intros _ [[H1 H2] Hws]%Forall_cons.
  destruct ws as [|v ws]; [by apply cut_pipes_none|].
  change (join [c_pipe] (w :: v :: ws)) with (w ++ c_pipe :: join [c_pipe] (v :: ws)).
  rewrite cut_pipes_app by done. by rewrite IH.
Qed.

Lemma esc_after_join (ws : list jstr) :
  Forall piece ws -> esc_after false (join [c_pipe] ws) = false.
Proof.
  induction ws as [|w ws IH]; [done|]. intros [[H1 H2] Hws]%Forall_cons.
  destruct ws as [|v ws]; [done|].
  change (join [c_pipe] (w :: v :: ws)) with (w ++ c_pipe :: join [c_pipe] (v :: ws)).
  unfold esc_after in *. rewrite foldl_app. cbn [foldl]. rewrite H2. by apply IH.
Qed.

Lemma cut_cells_close (line : jstr) (open : option nat) (lastEnd : nat) (d : nat) (ds : list nat) :
  forall seg, cut_cells line open (Some d) lastEnd seg (ds ++ [d])
              = cut_cells line open (Some d) lastEnd seg ds.
Proof.
  induction ds as [|e ds IH]; intros seg; cbn [app cut_cells].
  - rewrite (bool_decide_eq_true_2 (Some d = Some d)) by done. by rewrite orb_true_r.
  - by rewrite !IH.
Qed.

Lemma slice_middle (p s q : jstr) : slice (length p) (length p + length s) (p ++ s ++ q) = s.
Proof.
  unfold slice. rewrite drop_app_length. replace (length p + length s - length p)%nat with (length s) by lia.
  apply take_app_length.
Qed.

(** The spans cut between two positions hold the text cut at the unescaped pipes. *)
Lemma cut_cells_raw (open close : option nat) (post : jstr) (b : bool) (s : jstr) :
  forall pre cur, 
  (forall d, (length pre <= d < length pre + length cur + length s)%nat -> open <> Some d /\ close <> Some d) ->
  map sp_raw (cut_cells (pre ++ (cur ++ s) ++ post) open close (length pre + length cur + length s)
                (length pre) (pipes_from (length pre + length cur) b s))
  = match cut_pipes b s with w :: ws => (cur ++ w) :: ws | [] => [] end.
Proof.
  revert b. induction s as [|c s IH]; intros b pre cur Hd; cbn [pipes_from cut_pipes].
  - cbn [cut_cells map sp_raw cell_span]. rewrite !app_nil_r. cbn [length].
    rewrite Nat.add_0_r. by rewrite slice_middle.
  - pose proof (cut_pipes_ne (esc_step b c) s) as Hne. cbn [length] in *.
    destruct ((c =? c_pipe)%N && negb b) eqn:E; cbn [app cut_cells].
    + apply andb_prop in E as [->%N.eqb_eq ->%negb_true_iff].
      destruct (Hd (length pre + length cur)%nat) as [H1 H2]; [lia|].
      rewrite !bool_decide_eq_false_2 by congruence. cbn [orb map].
      replace (cut_pipes false s) with (cut_pipes (esc_step false c_pipe) s) by done.
      specialize (IH (esc_step false c_pipe) (pre ++ cur ++ [c_pipe]) []).
      rewrite !length_app in IH. cbn [length app] in IH.
      replace (length pre + (length cur + 1) + 0 + length s)%nat with
        (length pre + length cur + S (length s))%nat in IH by lia.
      replace (length pre + (length cur + 1) + 0)%nat with
        (S (length pre + length cur))%nat in IH by lia.
      replace (length pre + (length cur + 1))%nat with
        (S (length pre + length cur))%nat in IH by lia.
      replace ((pre ++ cur ++ [c_pipe]) ++ s ++ post) with (pre ++ (cur ++ c_pipe :: s) ++ post) in IH
        by (rewrite <- !app_assoc; done).
      rewrite IH by (intros d ?; apply Hd; lia).
      destruct (cut_pipes (esc_step false c_pipe) s) as [|w ws]; [done|].
      rewrite app_nil_r. cbn [app]. f_equal. cbn [cell_span sp_raw].
      rewrite <- app_assoc. by rewrite slice_middle.
    + specialize (IH (esc_step b c) pre (cur ++ [c])).
      rewrite length_app in IH. cbn [length] in IH.
      replace (length pre + (length cur + 1) + length s)%nat with
        (length pre + length cur + S (length s))%nat in IH by lia.
      replace (length pre + (length cur + 1))%nat with
        (S (length pre + length cur))%nat in IH by lia.
      rewrite <- (app_assoc cur [c] s) in IH. cbn [app] in IH.
      rewrite IH by (intros d ?; apply Hd; lia).
      destruct (cut_pipes (esc_step b c) s) as [|w ws]; [done|]. by rewrite <- app_assoc.
Qed.

Lemma split_piped (ws : list jstr) :
  ws <> [] -> Forall piece ws ->
  map sp_raw (splitLineSpans (c_pipe :: join [c_pipe] ws ++ [c_pipe])) = ws.
Proof.
  intros Hne Hws. set (inner := join [c_pipe] ws). unfold splitLineSpans.
  assert (Hrev : lead_space (rev (c_pipe :: inner ++ [c_pipe])) = 0%nat)
    by (cbn [rev]; by rewrite rev_app_distr).
  rewrite Hrev. change (lead_space (c_pipe :: inner ++ [c_pipe])) with 0%nat. cbv zeta.
  rewrite Nat.sub_0_r. unfold unescaped_pipes. rewrite Nat.sub_0_r.
  pose proof (pipes_spec [] (c_pipe :: inner ++ [c_pipe])) as Hp. cbn [app length] in Hp.
  cbn [length]. rewrite Hp. cbn [pipes_from esc_after foldl]. change (c_pipe =? c_pipe)%N with true.
  cbn [negb andb app]. rewrite pipes_app. change (esc_step false c_pipe) with false.
  assert (Hesc : esc_after false inner = false) by (by apply esc_after_join). rewrite Hesc.
  cbn [pipes_from]. change (c_pipe =? c_pipe)%N with true. cbn [negb andb app].
  rewrite length_app. cbn [length]. set (n := length inner).
  unfold opening. rewrite Nat.eqb_refl. unfold closing.
  replace (n + 1)%nat with (S n) by lia. change (1 + n)%nat with (S n).
  rewrite (app_comm_cons _ [S n] 0%nat), last_snoc, Nat.eqb_refl.
  rewrite bool_decide_eq_false_2 by (intros [=]). cbn [negb andb default].
  rewrite cut_cells_close. cbn [cut_cells].
  rewrite bool_decide_eq_true_2 by done. cbn [orb].
  pose proof (cut_cells_raw (Some 0%nat) (Some (S n)) [c_pipe] false inner [c_pipe] []) as Hc.
  cbn [app length] in Hc. fold n in Hc.
  eapply eq_trans; [refine (Hc _); intros d Hd; split; intros [=]; lia|].
  unfold inner. rewrite cut_pipes_join by done. by destruct ws.
Qed.

(** ** Clean cells: what serialization writes *)

Lemma split_eol_chars (s w : jstr) : In w (split_eol s) -> ~ In c_cr w /\ ~ In c_lf w.
Proof.
  revert w. induction s as [s IH] using (induction_ltof1 _ (@length N)). unfold ltof in IH.
  intros w. destruct s as [|c r]; cbn [split_eol]; [naive_solver|].
  destruct (N.eqb_spec c c_cr) as [->|Hcr].
  - destruct r as [|e r']; [simpl; naive_solver|].
    destruct (e =? c_lf)%N; intros [<-|Hin]; [naive_solver|..]; [|naive_solver|];
      eapply IH; eauto; simpl; lia.
  - destruct (N.eqb_spec c c_lf) as [->|Hlf].
    + intros [<-|Hin]; [naive_solver|]. eapply IH; eauto; simpl; lia.
    + assert (Hr : forall v, In v (split_eol r) -> ~ In c_cr v /\ ~ In c_lf v)
        by (intros v Hv; eapply IH; eauto; simpl; lia).
      destruct (split_eol r) as [|v vs]; [intros [<-|[]]; simpl; naive_solver|].
      intros [<-|Hin]; [|by apply Hr; right].
      destruct (Hr v) as [H1 H2]; [by left|]. simpl. naive_solver.
Qed.

Lemma join_chars (sep : jstr) (l : list jstr) (c : N) :
  In c (join sep l) -> In c sep \/ exists w, In w l /\ In c w.
Proof.
  induction l as [|w l IH]; [done|]. destruct l as [|v l].
  - intros H. right. exists w. by split; [left|].
  - change (join sep (w :: v :: l)) with (w ++ sep ++ join sep (v :: l)).
    rewrite !in_app_iff. intros [H|[H|H]]; [right; exists w; by split; [left|] | by left |].
    destruct (IH H) as [|(u & Hu & Hc)]; [by left|]. right. exists u. by split; [right|].
Qed.

Lemma flatten_chars (s : jstr) : ~ In c_cr (flatten_lines s) /\ ~ In c_lf (flatten_lines s).
Proof.
  unfold flatten_lines. split; intros [H|(w & Hw & Hc)]%join_chars;
    try (destruct H as [H|[]]; discriminate H);
    apply split_eol_chars in Hw as [H1 H2]; done.
Qed.

Lemma flatten_id (s : jstr) : ~ In c_cr s -> ~ In c_lf s -> flatten_lines s = s.
Proof.
  intros H1 H2. unfold flatten_lines.
  assert (split_eol s = [s]) as ->; [|done].
  induction s as [|c s IH]; [done|]. cbn [split_eol].
  rewrite (proj2 (N.eqb_neq c c_cr)), (proj2 (N.eqb_neq c c_lf)) by (intros ->; simpl in *; tauto).
  rewrite IH by (simpl in *; tauto). done.
Qed.

Lemma encode_chars (b : bool) (s : jstr) (c : N) :
  In c (encode_from b s) -> In c s \/ c = c_backslash.
Proof.
  revert b. induction s as [|d s IH]; intros b; [done|]. cbn [encode_from].
  rewrite in_app_iff. intros [H|H]; [|destruct (IH _ H); [left; by right | by right]].
  destruct ((d =? c_pipe)%N && negb b) eqn:E.
  - apply andb_prop in E as [->%N.eqb_eq _].
    destruct H as [<-|[<-|[]]]; [by right | left; by left].
  - destruct H as [<-|[]]. left. by left.
Qed.

Lemma trim_start_chars (s : jstr) (c : N) : In c (trim_start s) -> In c s.
Proof.
  induction s as [|d s IH]; [done|]. cbn [trim_start]. destruct (is_space d); [|done].
  intros H. right. by apply IH.
Qed.

Lemma trim_chars (s : jstr) (c : N) : In c (trim s) -> In c s.
Proof.
  unfold trim, trim_end. intros H%in_rev%trim_start_chars%in_rev. by apply trim_start_chars.
Qed.

Lemma clean_cell (value : jstr) : clean (trim (encodeTableCell value)).
Proof.
  rewrite encode_value. destruct (flatten_chars value) as [H1 H2]. split_and!.
  - apply no_pipe_trim, encode_no_pipe.
  - apply trim_is_trimmed.
  - intros [H|H]%trim_chars%encode_chars; [done | discriminate H].
  - intros [H|H]%trim_chars%encode_chars; [done | discriminate H].
Qed.

Lemma clean_fixed (w : jstr) : clean w -> trim (encodeTableCell w) = w.
Proof.
  intros (H1 & H2 & H3 & H4). rewrite encode_value, flatten_id by done.
  rewrite encode_id by done. by apply trim_trimmed.
Qed.

Lemma trim_padded (w : jstr) : trimmed w -> trim (padded w) = w.
Proof.
  intros [H1 H2]. unfold trim, padded. cbn [trim_start]. change (is_space c_space) with true.
  assert (Hs : trim_start (w ++ [c_space]) = match w with [] => [] | _ => w ++ [c_space] end).
  { destruct w as [|c w]; [done|]. cbn [app trim_start] in *. destruct (is_space c); [|done].
    assert (length (trim_start w) <= length w)%nat
      by (rewrite trim_start_lead, length_drop; lia).
    rewrite H1 in H. simpl in H. lia. }
  cbv iota. rewrite Hs. destruct w as [|c w]; [done|].
  unfold trim_end. rewrite rev_app_distr. cbn [rev app trim_start].
  change (is_space c_space) with true. exact H2.
Qed.

Lemma padded_piece (w : jstr) : no_pipe false w = true -> piece (padded w).
Proof.
  intros H. unfold piece, padded. split.
  - cbn [no_pipe]. change (esc_step false c_space) with false. rewrite no_pipe_app, H. simpl.
    by rewrite orb_true_r.
  - unfold esc_after. cbn [foldl]. rewrite foldl_app. reflexivity.
Qed.

Lemma pipe_row_eq (ws : list jstr) :
  ws <> [] -> pipe_row ws = c_pipe :: join [c_pipe] (map padded ws) ++ [c_pipe].
Proof.
  intros Hne. unfold pipe_row. change (js "| ") with [c_pipe; c_space].
  change (js " | ") with [c_space; c_pipe; c_space]. change (js " |") with [c_space; c_pipe].
  cbn [app]. f_equal. induction ws as [|w ws IH]; [done|]. destruct ws as [|v ws].
  - cbn. unfold padded. by rewrite <- app_assoc.
  - change (join [c_space; c_pipe; c_space] (w :: v :: ws))
      with (w ++ [c_space; c_pipe; c_space] ++ join [c_space; c_pipe; c_space] (v :: ws)).
    change (join [c_pipe] (map padded (w :: v :: ws)))
      with (padded w ++ [c_pipe] ++ join [c_pipe] (map padded (v :: ws))).
    unfold padded at 1. specialize (IH ltac:(done)).
    rewrite <- !app_assoc. cbn [app]. rewrite <- !app_assoc. cbn [app].
    rewrite <- IH. done.
Qed.

Lemma split_pipe_row (ws : list jstr) :
  ws <> [] -> Forall clean ws ->
  map sp_raw (splitLineSpans (pipe_row ws)) = map padded ws
  /\ splitTableLine (pipe_row ws) = ws.
Proof.
  intros Hne Hws.
  assert (Hraw : map sp_raw (splitLineSpans (pipe_row ws)) = map padded ws).
  { rewrite pipe_row_eq by done. apply split_piped; [by destruct ws|].
    apply Forall_map. eapply Forall_impl; [exact Hws|]. intros w [H _]. by apply padded_piece. }
  split; [done|]. unfold splitTableLine. rewrite <- (map_map sp_raw decodeTableCell), Hraw, map_map.
  rewrite <- (map_id ws) at 2. apply map_ext_in. intros w Hw%list_elem_of_In.
  rewrite Forall_forall in Hws. destruct (Hws w Hw) as (_ & Ht & _). by apply trim_padded.
Qed.

(** ** Documents *)

Lemma pad_cells_length (cols : nat) (r : list jstr) : length (pad_cells cols r) = cols.
Proof. unfold pad_cells. by rewrite length_map, length_seq. Qed.

Lemma pad_cells_clean (cols : nat) (r : list jstr) : Forall clean (pad_cells cols r).
Proof. unfold pad_cells. apply Forall_map, Forall_forall. intros i _. apply clean_cell. Qed.

Lemma pad_cells_lookup (cols : nat) (r : list jstr) (i : nat) :
  (i < cols)%nat -> pad_cells cols r !! i = Some (trim (encodeTableCell (default [] (r !! i)))).
Proof.
  intros H. unfold pad_cells. rewrite lookup_map, lookup_seq_lt by done. done.
Qed.

Lemma pad_cells_idem (cols : nat) (r : list jstr) : pad_cells cols (pad_cells cols r) = pad_cells cols r.
Proof.
  unfold pad_cells at 1 3. apply map_ext_in. intros i Hi%in_seq.
  rewrite pad_cells_lookup by lia. simpl. apply clean_fixed, clean_cell.
Qed.

Lemma pad_cells_ne (cols : nat) (r : list jstr) : (1 <= cols)%nat -> pad_cells cols r <> [].
Proof. intros H Hn. pose proof (pad_cells_length cols r). rewrite Hn in H0. simpl in H0. lia. Qed.

Lemma rec_lines_lines (off : nat) (lines : list jstr) : map rl_line (rec_lines off lines) = lines.
Proof. revert off. induction lines as [|l ls IH]; intros off; simpl; [done|]. by rewrite IH. Qed.

Lemma rec_lines_bounds (off : nat) (lines : list jstr) :
  Forall (fun l => l <> []) lines ->
  Forall (fun r => off <= rl_start r < off + length (join [c_lf] lines))%nat (rec_lines off lines).
Proof.
  revert off. induction lines as [|l ls IH]; intros off; simpl; [constructor|].
  intros [Hl Hls]%Forall_cons. assert (0 < length l)%nat by (destruct l; simpl; [done | lia]).
  constructor; simpl.
  - destruct ls; [lia|]. rewrite length_app. lia.
  - destruct ls as [|l' ls]; [constructor|]. eapply Forall_impl; [by apply IH|].
    intros r Hr. simpl in *. rewrite !length_app in *. simpl in *. rewrite ?length_app in *. lia.
Qed.

Lemma normalize_eol_id (s : jstr) : ~ In c_cr s -> normalize_eol s = s.
Proof.
  induction s as [|c s IH]; [done|]. intros H. cbn [normalize_eol].
  rewrite (proj2 (N.eqb_neq c c_cr)) by (intros ->; simpl in *; tauto).
  rewrite IH by (simpl in *; tauto). done.
Qed.

Lemma alignments_raw (spans : list span) (ws : list jstr) :
  map sp_raw spans = ws -> Forall (fun w => MIN_CELL_DASHES (trim w) = true) ws ->
  alignments spans = Some (map (fun w => alignmentOf (trim w)) ws).
Proof.
  revert ws. induction spans as [|s spans IH]; intros ws; simpl; intros <-; [done|].
  intros [H1 H2]%Forall_cons. rewrite H1, (IH _ eq_refl H2). done.
Qed.

Lemma delim_cell_ok (a : option alignment) :
  clean (delim_cell a) /\ MIN_CELL_DASHES (delim_cell a) = true
  /\ alignmentOf (delim_cell a) = default ANone a.
Proof.
  assert (forall c s, forallb (fun d => negb (d =? c)%N) s = true -> ~ In c s) as Hin.
  { intros c s H Hc. rewrite forallb_forall in H. specialize (H c Hc).
    rewrite N.eqb_refl in H. done. }
  unfold clean, trimmed. destruct a as [[]|]; split_and!; try (apply Hin); vm_compute; reflexivity.
Qed.

Lemma foldl_max_const (n : nat) (l : list nat) :
  Forall (fun m => m = n) l -> foldl Nat.max n l = n.
Proof. induction 1 as [|m l -> _ IH]; simpl; [done|]. by rewrite Nat.max_id. Qed.

(** A row of clean cells holds no line break and is not blank. *)
Lemma pipe_row_chars (ws : list jstr) (c : N) :
  In c (pipe_row ws) -> c = c_pipe \/ c = c_space \/ exists w, In w ws /\ In c w.
Proof.
  unfold pipe_row. change (js "| ") with [c_pipe; c_space].
  change (js " | ") with [c_space; c_pipe; c_space]. change (js " |") with [c_space; c_pipe].
  rewrite !in_app_iff. simpl. intros H.
  assert (In c (join [c_space; c_pipe; c_space] ws) -> c = c_pipe \/ c = c_space \/ exists w, In w ws /\ In c w).
  { intros [Hs|Hw]%join_chars; [|by right; right]. simpl in Hs. naive_solver. }
  naive_solver.
Qed.

Lemma pipe_row_line (ws : list jstr) :
  Forall clean ws -> ~ In c_cr (pipe_row ws) /\ ~ In c_lf (pipe_row ws)
                     /\ truthy (trim (pipe_row ws)) = true /\ includes_char c_pipe (pipe_row ws) = true.
Proof.
  intros Hws. rewrite Forall_forall in Hws. split_and!.
  - intros [H|[H|(w & Hw & Hc)]]%pipe_row_chars; [discriminate H..|].
    apply list_elem_of_In in Hw. by destruct (Hws w Hw) as (_ & _ & ? & _).
  - intros [H|[H|(w & Hw & Hc)]]%pipe_row_chars; [discriminate H..|].
    apply list_elem_of_In in Hw. by destruct (Hws w Hw) as (_ & _ & _ & ?).
  - unfold pipe_row, trim. change (js "| ") with [c_pipe; c_space]. change (js " |") with [c_space; c_pipe].
    cbn [app trim_start]. change (is_space c_pipe) with false. cbv iota.
    set (J := join _ ws).
    replace (c_pipe :: c_space :: J ++ [c_space; c_pipe])
      with ((c_pipe :: c_space :: J ++ [c_space]) ++ [c_pipe]) by (cbn; by rewrite <- app_assoc).
    unfold trim_end. rewrite rev_app_distr. cbn [rev app trim_start].
    change (is_space c_pipe) with false. cbv iota. apply truthy_spec. by intros [_ ?]%app_nil.
  - apply includes_char_spec. unfold pipe_row. by left.
Qed.

Lemma table_cols_pos (t : table) : (1 <= table_cols t)%nat.
Proof. unfold table_cols. lia. Qed.

Lemma delim_cells_clean (t : table) : Forall clean (delim_cells t).
Proof. apply Forall_map, Forall_forall. intros i _. by apply delim_cell_ok. Qed.

Lemma delim_cells_ne (t : table) : delim_cells t <> [].
Proof.
  intros H. pose proof (table_cols_pos t). apply (f_equal length) in H.
  unfold delim_cells in H. rewrite length_map, length_seq in H. simpl in H. lia.
Qed.

Lemma table_lines_ok (t : table) :
  Forall (fun l => exists ws, l = pipe_row ws /\ ws <> [] /\ Forall clean ws) (table_lines t).
Proof.
  assert (forall r, exists ws, pipe_row (pad_cells (table_cols t) r) = pipe_row ws /\ ws <> [] /\ Forall clean ws).
  { intros r. eexists. split; [done|]. split; [apply pad_cells_ne, table_cols_pos | apply pad_cells_clean]. }
  unfold table_lines. constructor; [done|]. constructor.
  - eexists. split; [done|]. split; [apply delim_cells_ne | apply delim_cells_clean].
  - apply Forall_map, Forall_forall. done.
Qed.

(** The lines of the serialized text are found again, all of them in the table. *)
Lemma serialized_lines (t : table) :
  let text := serializeMarkdownTable t in
  normalize_eol text = text
  /\ split_on c_lf text = table_lines t
  /\ List.filter (fun r => truthy (trim (rl_line r)) && (0 <=? rl_start r)%nat
                           && (rl_start r <? length text)%nat) (rec_lines 0 (table_lines t))
     = rec_lines 0 (table_lines t).
Proof.
  intros text. change text with (join [c_lf] (table_lines t)). clear text.
  pose proof (table_lines_ok t) as Hok.
  assert (Hl : Forall (fun l => ~ In c_cr l /\ ~ In c_lf l /\ truthy (trim l) = true
                                /\ includes_char c_pipe l = true) (table_lines t)).
  { eapply Forall_impl; [exact Hok|]. intros l (ws & -> & _ & Hws). by apply pipe_row_line. }
  split_and!.
  - apply normalize_eol_id. intros [H|(w & Hw & Hc)]%join_chars; [destruct H as [H|[]]; discriminate H|].
    apply list_elem_of_In in Hw. rewrite Forall_forall in Hl. by destruct (Hl w Hw).
  - apply split_join; [done|]. eapply Forall_impl; [exact Hl|]. by intros l (_ & ? & _).
  - apply filter_all. rewrite Forall_forall. intros r Hr.
    assert (Hline : rl_line r ∈ table_lines t).
    { rewrite <- (rec_lines_lines 0 (table_lines t)). apply list_elem_of_In, in_map, list_elem_of_In, Hr. }
    rewrite Forall_forall in Hl. destruct (Hl _ Hline) as (_ & _ & Ht & _). rewrite Ht.
    assert (Hb : Forall (fun l => l <> []) (table_lines t)).
    { eapply Forall_impl; [exact Hok|]. by intros l (ws & -> & _). }
    apply (rec_lines_bounds 0) in Hb. rewrite Forall_forall in Hb. specialize (Hb r Hr). cbv beta in Hb.
    rewrite (proj2 (Nat.ltb_lt _ _)) by lia. done.
Qed.

Lemma split_row_length (ws : list jstr) :
  ws <> [] -> Forall clean ws -> length (splitLineSpans (pipe_row ws)) = length ws.
Proof.
  intros H1 H2. destruct (split_pipe_row ws H1 H2) as [Hr _].
  apply (f_equal length) in Hr. by rewrite !length_map in Hr.
Qed.

Lemma delim_row_aligns (t : table) :
  alignments (splitLineSpans (pipe_row (delim_cells t)))
  = Some (map (fun i => default ANone (align t !! i)) (seq 0 (table_cols t))).
Proof.
  destruct (split_pipe_row (delim_cells t)) as [Hr _]; [apply delim_cells_ne | apply delim_cells_clean |].
  erewrite alignments_raw; [|exact Hr|].
  - f_equal. unfold delim_cells. rewrite !map_map. apply map_ext. intros i.
    destruct (delim_cell_ok (align t !! i)) as ((_ & Ht & _) & _ & Ha). by rewrite trim_padded.
  - apply Forall_map, Forall_map, Forall_forall. intros i _.
    destruct (delim_cell_ok (align t !! i)) as ((_ & Ht & _) & Hm & _). by rewrite trim_padded.
Qed.

Lemma map_lookup_seq {A} (d : A) (l : list A) (k : nat) :
  map (fun i => default d (l !! (i - k)%nat)) (seq k (length l)) = l.
Proof.
  revert k. induction l as [|x l IH]; intros k; [done|]. cbn [length seq map].
  rewrite Nat.sub_diag. cbn. f_equal. rewrite <- (IH (S k)) at 2. apply map_ext_in.
  intros i Hi%in_seq. by replace (i - k)%nat with (S (i - S k)) by lia.
Qed.

Lemma pad_cells_id (r : list jstr) : Forall clean r -> pad_cells (length r) r = r.
Proof.
  intros Hr. transitivity (map (fun i => default [] (r !! (i - 0)%nat)) (seq 0 (length r)));
    [|apply map_lookup_seq]. unfold pad_cells. apply map_ext_in.
  intros i Hi%in_seq. rewrite Nat.sub_0_r. destruct (lookup_lt_is_Some_2 r i) as [w Hw]; [lia|].
  rewrite Hw. simpl. apply clean_fixed. rewrite Forall_forall in Hr.
  apply Hr. by eapply list_elem_of_lookup_2.
Qed.

Lemma normalize_id (t : table) :
  rect t -> Forall clean (header t) -> Forall (Forall clean) (body t) -> normalize t = t.
Proof.
  intros (Ha & Hh & Hb) Hch Hcb. unfold normalize.
  assert (table_cols t = length (header t)) as -> by (unfold table_cols; lia).
  destruct t as [h a b]. cbn [header align body] in *. f_equal.
  - by apply pad_cells_id.
  - rewrite <- Ha. transitivity (map (fun i => default ANone (a !! (i - 0)%nat)) (seq 0 (length a)));
      [|apply map_lookup_seq]. apply map_ext. intros i. by rewrite Nat.sub_0_r.
  - rewrite <- (map_id b) at 2. apply map_ext_in. intros r Hr%list_elem_of_In.
    rewrite Forall_forall in Hb, Hcb. rewrite <- (Hb r Hr). by apply pad_cells_id, Hcb.
Qed.

(** ** Sorting *)

Section SortFacts.
Context (collate : jstr -> jstr -> Z) (Hcol : collator collate) (c : nat) (dir : Z).
Hypothesis Hdir : dir = 1 \/ dir = -1.

Lemma dir_anti (x y : jstr) : collate x y * dir <= 0 <-> 0 <= collate y x * dir.
Proof.
  destruct Hcol as [Ha _]. pose proof (Ha x y). pose proof (Ha y x).
  destruct Hdir as [->| ->]; lia.
Qed.

Lemma dir_trans (x y z : jstr) :
  collate x y * dir <= 0 -> collate y z * dir <= 0 -> collate x z * dir <= 0.
Proof.
  destruct Hcol as [Ha Ht]. pose proof (Ht x y z). pose proof (Ht z y x).
  pose proof (Ha z y). pose proof (Ha y x). pose proof (Ha z x). destruct Hdir as [->| ->]; lia.
Qed.

(** The comparator is lexicographic: first the cells, then the index. *)
Lemma row_order_le (a b : list jstr * nat) :
  row_order collate c dir a b <= 0 <->
  row_before collate c dir a.1 b.1 /\ (row_tie collate c a.1 b.1 -> (a.2 <= b.2)%nat).
Proof.
  unfold row_order, row_before, row_tie. cbv zeta.
  destruct (default [] (a.1 !! c)) as [|x av], (default [] (b.1 !! c)) as [|y bv]; cbn [truthy];
    [intuition lia..|].
  destruct (Z.eqb_spec (collate (x :: av) (y :: bv)) 0) as [E|E].
  - rewrite E. intuition lia.
  - destruct Hdir as [->| ->]; intuition lia.
Qed.

Lemma row_before_total (a b : list jstr) :
  row_before collate c dir a b \/ (row_before collate c dir b a /\ ~ row_tie collate c b a).
Proof.
  unfold row_before, row_tie.
  destruct (default [] (a !! c)) as [|x av], (default [] (b !! c)) as [|y bv]; try naive_solver.
  pose proof (dir_anti (x :: av) (y :: bv)). destruct (Z.le_gt_cases (collate (x :: av) (y :: bv) * dir) 0);
    [by left|]. right. pose proof (dir_anti (y :: bv) (x :: av)).
  destruct Hdir as [->| ->]; lia.
Qed.

Lemma row_tie_sym (a b : list jstr) : row_tie collate c a b -> row_tie collate c b a.
Proof.
  unfold row_tie. destruct Hcol as [Ha _].
  destruct (default [] (a !! c)) as [|x av], (default [] (b !! c)) as [|y bv]; try done.
  pose proof (Ha (x :: av) (y :: bv)). pose proof (Ha (y :: bv) (x :: av)). lia.
Qed.

Lemma row_before_trans (a b d : list jstr) :
  row_before collate c dir a b -> row_before collate c dir b d ->
  row_before collate c dir a d
  /\ (row_tie collate c a d -> row_tie collate c a b /\ row_tie collate c b d).
Proof.
  unfold row_before, row_tie.
  destruct (default [] (a !! c)) as [|x av], (default [] (b !! c)) as [|y bv],
    (default [] (d !! c)) as [|z dv]; try naive_solver.
  intros H1 H2. pose proof (dir_trans _ _ _ H1 H2) as H3. split; [done|]. intros E.
  pose proof (dir_trans (z :: dv) (x :: av) (y :: bv)).
  pose proof (dir_trans (y :: bv) (z :: dv) (x :: av)).
  pose proof (dir_anti (z :: dv) (x :: av)). pose proof (dir_anti (y :: bv) (x :: av)).
  pose proof (dir_anti (z :: dv) (y :: bv)). rewrite E in *. destruct Hdir as [->| ->]; lia.
Qed.

Lemma row_order_total (a b : list jstr * nat) :
  row_order collate c dir a b <= 0 \/ row_order collate c dir b a <= 0.
Proof.
  rewrite !row_order_le.
  destruct (row_before_total a.1 b.1) as [H1|[H1 H1']]; [|right; naive_solver].
  destruct (row_before_total b.1 a.1) as [H2|[H2 H2']]; [|left; naive_solver].
  destruct (le_ge_dec a.2 b.2) as [Hi|Hi]; [left | right]; (split; [done | intros _; lia]).
Qed.

Lemma row_order_trans (a b d : list jstr * nat) :
  row_order collate c dir a b <= 0 -> row_order collate c dir b d <= 0 ->
  row_order collate c dir a d <= 0.
Proof.
  rewrite !row_order_le. intros [H1 H1'] [H2 H2'].
  destruct (row_before_trans _ _ _ H1 H2) as [H3 H3']. split; [done|].
  intros [Hab Hbd]%H3'. specialize (H1' Hab). specialize (H2' Hbd). lia.
Qed.
End SortFacts.

Lemma zip_index_lookup {A} (l : list A) (x : A) (i k : nat) :
  (x, i) ∈ zip l (seq k (length l)) -> l !! (i - k)%nat = Some x /\ (k <= i)%nat.
Proof.
  revert k. induction l as [|y l IH]; intros k; simpl; [by intros ?%not_elem_of_nil|].
  intros [[= -> ->]|H]%elem_of_cons; [rewrite Nat.sub_diag; simpl; split; [done|lia]|].
  apply IH in H as [H1 H2]. replace (i - k)%nat with (S (i - S k)) by lia. simpl. split; [done | lia].
Qed.

Lemma zip_index_sorted {A} (l : list A) (k : nat) :
  StronglySorted (fun a b => (a.2 <= b.2)%nat) (zip l (seq k (length l))).
Proof.
  revert k. induction l as [|y l IH]; intros k; simpl; constructor; [done|].
  apply Forall_forall. intros [z i] Hz. apply zip_index_lookup in Hz as [_ Hz]. simpl. lia.
Qed.

Lemma zip_fst {A} (l : list A) (k : nat) : map fst (zip l (seq k (length l))) = l.
Proof. revert k. induction l as [|y l IH]; intros k; simpl; [done|]. by rewrite IH. Qed.

Lemma filter_map_fst {A B} (Q : A -> bool) (l : list (A * B)) :
  List.filter Q (map fst l) = map fst (List.filter (fun p => Q p.1) l).
Proof. induction l as [|[a b] l IH]; simpl; [done|]. rewrite IH. by destruct (Q a). Qed.

(** ** Structure operations *)

Lemma splice_Forall {A} (P : A -> Prop) (at_ del : nat) (ins a : list A) :
  Forall P ins -> Forall P a -> Forall P (splice at_ del ins a).
Proof.
  intros Hi Ha. unfold splice. rewrite !Forall_app. split_and!;
    [by apply Forall_take | done | by apply Forall_drop].
Qed.

(** ** Spans *)

Lemma cut_cells_in (line : jstr) (open close : option nat) (lastEnd : nat) (ds : list nat) :
  (lastEnd <= length line)%nat -> Forall (fun d => (d < length line)%nat) ds ->
  forall seg, (seg <= length line)%nat ->
  Forall (span_in line) (cut_cells line open close lastEnd seg ds)
  /\ (1 <= length (cut_cells line open close lastEnd seg ds))%nat.
Proof.
  intros Hl. induction ds as [|d ds IH]; intros Hd seg Hs; cbn [cut_cells].
  - split; [repeat constructor; done | simpl; lia].
  - apply Forall_cons in Hd as [Hd Hds]. case_match; [by apply IH|].
    destruct (IH Hds (S d)) as [H1 H2]; [lia|]. split; [|simpl; lia].
    constructor; [|done]. repeat split; simpl; lia.
Qed.

Lemma split_spans_in (line : jstr) :
  Forall (span_in line) (splitLineSpans line) /\ (1 <= length (splitLineSpans line))%nat.
Proof.
  unfold splitLineSpans. cbv zeta.
  assert (Hd : Forall (fun d => (d < length line)%nat)
                 (unescaped_pipes line (lead_space line) (length line - lead_space (rev line)))).
  { apply Forall_forall. unfold unescaped_pipes. intros d [Hd _]%list_elem_of_In%List.filter_In.
    apply in_seq in Hd. lia. }
  set (ds := unescaped_pipes _ _ _) in *. clearbody ds. apply cut_cells_in; [|done|].
  - unfold closing. destruct (last ds) as [d|] eqn:E; simpl; [|lia].
    apply last_Some_elem_of in E. rewrite Forall_forall in Hd. specialize (Hd d E).
    destruct (_ && _); simpl; lia.
  - unfold opening. destruct ds as [|d ds]; [lia|]. apply Forall_cons in Hd as [Hd _].
    destruct (Nat.eqb d _); lia.
Qed.

(** Where a line of a text stands. *)
Lemma rec_line_slice (lines : list jstr) (r : rec_line) :
  r ∈ rec_lines 0 lines ->
  exists p q, join [c_lf] lines = p ++ rl_line r ++ q /\ length p = rl_start r.
Proof.
  assert (forall off, r ∈ rec_lines off lines ->
    exists p q, join [c_lf] lines = p ++ rl_line r ++ q /\ (length p + off)%nat = rl_start r) as H.
  { induction lines as [|l ls IH]; intros off; cbn [rec_lines]; [by intros ?%not_elem_of_nil|].
    intros [->|Hr]%elem_of_cons.
    - exists []. destruct ls as [|l' ls]; [exists []; by rewrite app_nil_r|].
      exists ([c_lf] ++ join [c_lf] (l' :: ls)). done.
    - destruct ls as [|l' ls]; [by apply not_elem_of_nil in Hr|].
      destruct (IH _ Hr) as (p & q & Hj & Hp). exists (l ++ c_lf :: p), q.
      change (join [c_lf] (l :: l' :: ls)) with (l ++ c_lf :: join [c_lf] (l' :: ls)).
      rewrite Hj, <- app_assoc. split; [done|]. rewrite length_app. simpl. lia. }
  intros Hr. destruct (H 0%nat Hr) as (p & q & H1 & H2). exists p, q. by rewrite Nat.add_0_r in H2.
Qed.

Lemma pad_spans_ok (source : jstr) (cols : nat) (r : rec_line) :
  r ∈ rec_lines 0 (split_on c_lf source) ->
  Forall (span_ok source) (pad_spans cols (splitLineSpans (rl_line r)) r)
  /\ length (pad_spans cols (splitLineSpans (rl_line r)) r) = cols.
Proof.
  intros Hr. apply rec_line_slice in Hr as (p & q & Hs & Hp). rewrite join_split in Hs.
  destruct (split_spans_in (rl_line r)) as [Hin _]. rewrite Forall_forall in Hin.
  split; [|by unfold pad_spans; rewrite length_map, length_seq].
  apply Forall_map, Forall_forall. intros i _.
  destruct (splitLineSpans (rl_line r) !! i) as [s|] eqn:E.
  - apply list_elem_of_lookup_2 in E. destruct (Hin s E) as (H1 & H2 & H3 & _).
    unfold span_ok. cbn [sp_from sp_to sp_raw sp_missing]. rewrite Hs, !length_app, <- Hp.
    split_and!; [lia | lia | | done]. rewrite H3. unfold slice.
    replace (length p + sp_to s - (length p + sp_from s))%nat with (sp_to s - sp_from s)%nat by lia.
    rewrite drop_app_add'; [|done]. rewrite drop_app_le by lia. rewrite take_app_le; [done|].
    rewrite length_drop. lia.
  - unfold span_ok. cbn [sp_from sp_to sp_raw sp_missing]. rewrite Hs, !length_app, <- Hp.
    split_and!; [lia | lia | | done]. unfold slice. by rewrite Nat.sub_diag, take_0.
Qed.

Lemma foldl_max_ge (n : nat) (l : list nat) :
  (n <= foldl Nat.max n l)%nat /\ Forall (fun m => (m <= foldl Nat.max n l)%nat) l.
Proof.
  revert n. induction l as [|m l IH]; intros n; simpl; [done|].
  destruct (IH (Nat.max n m)) as [H1 H2]. split; [lia|]. constructor; [lia | done].
Qed.

Lemma alignments_length (spans : list span) (al : list alignment) :
  alignments spans = Some al -> length al = length spans.
Proof.
  revert al. induction spans as [|s spans IH]; intros al; simpl; [by intros [= <-]|].
  destruct (MIN_CELL_DASHES _); [|done]. destruct (alignments spans) as [al'|]; simpl; [|done].
  intros [= <-]. simpl. by rewrite (IH al').
Qed.

(** ** Theorems *)

(** C36: round trip.  Where the GFM parser sees the serialized text as one table, parsing it, strict
    or not, gives back the table: the columns of the header, every cell flattened, escaped and
    trimmed.  The table it gives serializes to the same text, so a second round changes nothing; a
    rectangular table of clean cells comes back unchanged. *)
Theorem serialize_parse (gfm : jstr -> list gnode) (t : table) (strict : bool) :
  gfm (serializeMarkdownTable t)
    = [{| g_isTable := true; g_from := 0; g_to := length (serializeMarkdownTable t) |}] ->
  td_model <$> parseTableDocument gfm (serializeMarkdownTable t) strict = Some (normalize t)
  /\ serializeMarkdownTable (normalize t) = serializeMarkdownTable t
  /\ (rect t -> Forall clean (header t) -> Forall (Forall clean) (body t) -> normalize t = t).
Proof.
  intros Hg. destruct (serialized_lines t) as (Hn & Hs & Hf). pose proof (table_cols_pos t) as Hpos.
  split; [|split; [|apply normalize_id]].
  - unfold parseTableDocument, soleTableNode. rewrite Hn, Hg. cbn [sole_table g_isTable mbind option_bind g_from g_to].
    rewrite Hs, Hf. unfold table_lines. cbn [rec_lines rl_line rl_start]. cbv zeta.
    assert (Hrow : forall r, pad_cells (table_cols t) r <> [] /\ Forall clean (pad_cells (table_cols t) r))
      by (intros r; split; [by apply pad_cells_ne | apply pad_cells_clean]).
    assert (Hlen : forall r, length (splitLineSpans (pipe_row (pad_cells (table_cols t) r))) = table_cols t)
      by (intros r; destruct (Hrow r); rewrite split_row_length by done; apply pad_cells_length).
    assert (Hdec : forall r, map (fun s => decodeTableCell (sp_raw s))
                       (splitLineSpans (pipe_row (pad_cells (table_cols t) r))) = pad_cells (table_cols t) r)
      by (intros r; destruct (Hrow r); by apply split_pipe_row).
    rewrite delim_row_aligns. cbn [mbind option_bind].
    rewrite (split_row_length (delim_cells t)) by (apply delim_cells_ne || apply delim_cells_clean).
    rewrite Hlen. unfold delim_cells at 1. rewrite length_map, length_seq, Nat.eqb_refl.
    destruct (pipe_row_line (pad_cells (table_cols t) (header t))) as (_ & _ & _ & ->); [apply Hrow|].
    cbn [negb orb andb]. rewrite andb_false_r.
    set (bodyRecs := rec_lines _ (map _ (body t))).
    assert (Hbody : map (fun r => splitLineSpans (rl_line r)) bodyRecs
                    = map (fun r => splitLineSpans (pipe_row (pad_cells (table_cols t) r))) (body t)).
    { rewrite <- (map_map rl_line splitLineSpans). unfold bodyRecs. by rewrite rec_lines_lines, map_map. }
    rewrite Hbody, foldl_max_const.
    2: { constructor; [by rewrite length_map, length_seq|]. apply Forall_map, Forall_map, Forall_forall.
         intros r _. apply Hlen. }
    destruct (Nat.eqb_spec (table_cols t) 0) as [|_]; [lia|]. simpl. f_equal.
    unfold normalize. f_equal.
    + rewrite Hdec. apply pad_to_id. by rewrite pad_cells_length.
    + apply pad_to_id. by rewrite length_map, length_seq.
    + rewrite map_map. apply map_ext. intros r. rewrite Hdec. apply pad_to_id. by rewrite pad_cells_length.
  - assert (Hc : table_cols (normalize t) = table_cols t).
    { unfold table_cols at 1. cbn [normalize header]. rewrite pad_cells_length. lia. }
    change (join [c_lf] (table_lines (normalize t)) = join [c_lf] (table_lines t)). f_equal.
    unfold table_lines. rewrite Hc. cbn [normalize header body]. rewrite pad_cells_idem, map_map.
    f_equal. f_equal.
    + f_equal. unfold delim_cells. rewrite Hc. cbn [normalize align]. apply map_ext_in. intros i Hi%in_seq.
      rewrite lookup_map, lookup_seq_lt by lia. cbn. by destruct (align t !! i) as [[]|].
    + apply map_ext. intros r. by rewrite pad_cells_idem.
Qed.

(** Sorting the rows.  With a collator, in either direction: the header stays, the rows are
    permuted, they end in order with the rows whose cell is empty last, and rows the order does not
    separate keep their places relative to each other. *)
Theorem sort_rows (collate : jstr -> jstr -> Z) (m : table) (c : nat) (dir : Z) :
  collator collate -> dir = 1 \/ dir = -1 ->
  let s := sortTableRows collate m c dir in
  header s = header m /\ align s = align m /\ Permutation (body s) (body m)
  /\ StronglySorted (row_before collate c dir) (body s)
  /\ (forall Q : list jstr -> bool,
        (forall a b, Q a = true -> Q b = true -> row_tie collate c a b) ->
        List.filter Q (body s) = List.filter Q (body m)).
Proof.
  intros Hcol Hdir s. unfold s, sortTableRows. cbn [body header align set_field].
  set (keyed := zip (body (cloneTableModel m)) _). cbn [cloneTableModel body] in keyed.
  assert (Hk : map fst keyed = body m) by apply zip_fst.
  pose proof (js_sort_perm (row_order collate c dir) keyed) as Hp.
  assert (Hs : StronglySorted (fun a b => row_order collate c dir a b <= 0) (js_sort (row_order collate c dir) keyed)).
  { apply (js_sort_sorted _ (fun _ => True)); [intros; by apply row_order_total | | by apply Forall_forall].
    intros x y z _ _ _. by apply row_order_trans. }
  split_and!; [done | done | | |].
  - rewrite <- Hk. by apply Permutation_map.
  - eapply sorted_map; [|exact Hs]. intros a b [H _]%(row_order_le collate c dir Hdir). done.
  - intros Q HQ. rewrite <- Hk. rewrite !filter_map_fst. f_equal.
    apply (StronglySorted_unique_strong (fun a b => (a.2 <= b.2)%nat)).
    + intros [x i] [y j] Hx Hy H1 H2. simpl in *. assert (i = j) by lia. subst j.
      apply list_elem_of_In, List.filter_In in Hx as [Hx _]. apply list_elem_of_In, List.filter_In in Hy as [Hy _].
      apply list_elem_of_In in Hx, Hy. rewrite Hp in Hx.
      apply zip_index_lookup in Hx as [Hx _], Hy as [Hy _]. congruence.
    + eapply filter_sorted; [|exact Hs]. intros a b Ha Hb [_ Hab]%(row_order_le collate c dir Hdir).
      apply Hab. by apply HQ.
    + eapply filter_sorted; [|apply zip_index_sorted]. done.
    + by apply filter_perm.
Qed.

(** The structure operations keep a table rectangular, and deleting what was inserted gives the
    table back; the header row and the last column cannot be deleted. *)
Theorem structure_ops (m : table) :
  rect m ->
  (forall r, rect (insertTableRow m r) /\ length (header (insertTableRow m r)) = length (header m))
  /\ (forall r m', deleteTableRow m r = Some m' -> rect m' /\ 1 <= r <= Z.of_nat (length (body m)))
  /\ (forall c, rect (insertTableCol m c) /\ length (header (insertTableCol m c)) = S (length (header m)))
  /\ (forall c m', deleteTableCol m c = Some m' ->
        rect m' /\ length (header m) = S (length (header m')))
  /\ (forall c a, rect (setTableAlign m c a))
  /\ (forall r, 1 <= r <= Z.of_nat (length (body m)) + 1 -> deleteTableRow (insertTableRow m r) r = Some m)
  /\ (forall c, 0 <= c <= Z.of_nat (length (header m)) -> deleteTableCol (insertTableCol m c) c = Some m).
Proof.
  intros (Ha & Hh & Hb). split_and!.
  - intros r. unfold rect, insertTableRow. cbn [header align body set_field cloneTableModel].
    split_and!; try done. apply splice_Forall; [|done]. constructor; [apply length_replicate | done].
  - intros r m'. unfold deleteTableRow. destruct (Z.ltb_spec r 1), (Z.ltb_spec (Z.of_nat (length (body m))) r);
      simpl; try done. intros [= <-]. unfold rect. cbn [header align body].
    split_and!; try done; [by apply splice_Forall | lia..].
  - intros c. unfold rect, insertTableCol. cbn [header align body cloneTableModel].
    rewrite !splice_length. split_and!; [lia | lia | | done]. apply Forall_map.
    eapply Forall_impl; [exact Hb|]. intros row Hr. by rewrite splice_length, Hr.
  - intros c m'. unfold deleteTableCol.
    destruct (Z.ltb_spec c 0), (Z.leb_spec (Z.of_nat (length (header m))) c),
      (Nat.leb_spec (length (header m)) 1); simpl; try done. intros [= <-].
    unfold rect. cbn [header align body]. rewrite !splice_remove_length by lia.
    split_and!; [lia | lia | | lia]. apply Forall_map. eapply Forall_impl; [exact Hb|].
    intros row Hr. cbv beta in Hr. rewrite splice_remove_length by lia. lia.
  - intros c a. unfold setTableAlign. cbn [cloneTableModel align]. case_match; [|done].
    unfold rect. cbn [header align body set_field cloneTableModel]. by rewrite length_insert.
  - intros r Hr. unfold deleteTableRow, insertTableRow. cbn [header align body set_field cloneTableModel].
    rewrite splice_length. destruct (Z.ltb_spec r 1); [lia|].
    destruct (Z.ltb_spec (Z.of_nat (S (length (body m)))) r); [lia|]. cbn [orb].
    replace (Z.min (Z.max r 1) (Z.of_nat (length (body m)) + 1)) with r by lia.
    rewrite splice_insert_remove by lia. by destruct m.
  - intros c Hc. unfold deleteTableCol, insertTableCol. cbn [header align body set_field cloneTableModel].
    rewrite splice_length. destruct (Z.ltb_spec c 0); [lia|].
    destruct (Z.leb_spec (Z.of_nat (S (length (header m)))) c); [lia|].
    destruct (Nat.leb_spec (S (length (header m))) 1); [lia|]. cbn [orb].
    replace (Z.min (Z.max c 0) (Z.of_nat (length (header m)))) with c by lia.
    rewrite !splice_insert_remove by lia. rewrite map_map. f_equal. destruct m as [h a b]; simpl in *.
    f_equal. rewrite <- (map_id b) at 2. apply map_ext_in. intros row Hrow%list_elem_of_In.
    rewrite Forall_forall in Hb. specialize (Hb row Hrow). apply splice_insert_remove. lia.
Qed.

(** What parsing promises the editor.  Whatever the GFM parser answers: the model is
    rectangular, the grid of spans has its dimensions, and the text of every span is what stands
    between its offsets in the (line-normalized) source; a missing cell's span is empty. *)
Theorem parsed_document (gfm : jstr -> list gnode) (source : jstr) (strict : bool) (d : table_document) :
  parseTableDocument gfm source strict = Some d ->
  rect (td_model d)
  /\ length (td_cells d) = S (length (body (td_model d)))
  /\ Forall (fun row => length row = length (header (td_model d))
                        /\ Forall (span_ok (normalize_eol source)) row) (td_cells d).
Proof.
  unfold parseTableDocument. set (src := normalize_eol source). clearbody src.
  destruct (soleTableNode gfm src) as [node|]; [|done]. cbn [mbind option_bind].
  set (P := fun r : rec_line => _). pose proof (fun r => proj1 (List.filter_In P r (rec_lines 0 (split_on c_lf src)))) as Hin.
  destruct (List.filter P _) as [|h [|dl bodyRecs]]; [done..|].
  destruct (alignments (splitLineSpans (rl_line dl))) as [al|] eqn:Ea; [|done]. cbn [mbind option_bind].
  destruct (strict && _); [done|]. cbv zeta.
  set (bodySpans := map (fun r => splitLineSpans (rl_line r)) bodyRecs).
  set (cols := foldl Nat.max _ _). destruct (Nat.eqb_spec cols 0); [done|]. intros [= <-].
  destruct (foldl_max_ge (length (splitLineSpans (rl_line h))) (length al :: map length bodySpans)) as [H1 H2].
  fold cols in H1, H2. apply Forall_cons in H2 as [H2 H3].
  cbn [td_model td_cells header align body].
  assert (Hh : length (pad_to cols [] (map (fun s => decodeTableCell (sp_raw s)) (splitLineSpans (rl_line h)))) = cols)
    by (apply pad_to_length; by rewrite length_map).
  assert (Hrec : forall r, r ∈ h :: dl :: bodyRecs -> r ∈ rec_lines 0 (split_on c_lf src))
    by (intros r Hr%list_elem_of_In; apply list_elem_of_In, Hin, Hr).
  split_and!.
  - unfold rect. cbn [header align body]. rewrite Hh. split_and!; [by apply pad_to_length | lia |].
    apply Forall_map. rewrite Forall_map in H3. eapply Forall_impl; [exact H3|]. intros row Hrow.
    simpl in Hrow. apply pad_to_length. by rewrite length_map.
  - unfold bodySpans. simpl. by rewrite !length_map.
  - rewrite Hh. constructor.
    + apply and_comm, pad_spans_ok, Hrec. by left.
    + apply Forall_map, Forall_forall. intros r Hr. apply and_comm, pad_spans_ok, Hrec. by do 2 right.
Qed.

(** What encoding promises.  An encoded cell has no line break and no pipe that is not escaped,
    so it cannot end its cell; encoding it again changes nothing. *)
Theorem encoded_cell_safe (value : jstr) :
  let e := encodeTableCell value in
  (forall i, e !! i = Some c_pipe -> isEscaped e i = true)
  /\ ~ In c_cr e /\ ~ In c_lf e /\ encodeTableCell e = e.
Proof.
  intros e. destruct (flatten_chars value) as [H1 H2].
  assert (Hn : no_pipe false e = true) by (unfold e; rewrite encode_value; apply encode_no_pipe).
  assert (Hcr : ~ In c_cr e).
  { unfold e. rewrite encode_value. intros [H|H]%encode_chars; [done | discriminate H]. }
  assert (Hlf : ~ In c_lf e).
  { unfold e. rewrite encode_value. intros [H|H]%encode_chars; [done | discriminate H]. }
  clearbody e. split_and!; [|done | done | by rewrite encode_value, flatten_id, encode_id].
  intros i Hi. pose proof (pipes_spec [] e) as Hp. cbn [app length] in Hp.
  change (esc_after false []) with false in Hp. rewrite no_pipe_pipes in Hp by done.
  destruct (isEscaped e i) eqn:E; [done|]. exfalso. apply (in_nil (a := i)). rewrite <- Hp.
  apply List.filter_In. split.
  - apply in_seq. apply lookup_lt_Some in Hi. lia.
  - unfold is_char, char_at. rewrite E, bool_decide_eq_true_2 by done. done.
Qed.

Definition sample_table : table :=
  {| header := [js "name"; js "a \| b"]; align := [ARight; ANone];
     body := [[js "x"; js "2"]; [js "y"; []]; [js "z"; js "1"]] |}.

(** A parser that answers one table over the whole text. *)
Definition one_table (s : jstr) : list gnode := [{| g_isTable := true; g_from := 0; g_to := length s |}].

Lemma serialize_parse_witness :
  one_table (serializeMarkdownTable sample_table)
    = [{| g_isTable := true; g_from := 0; g_to := length (serializeMarkdownTable sample_table) |}]
  /\ td_model <$> parseTableDocument one_table (serializeMarkdownTable sample_table) true
     = Some (normalize sample_table)
  /\ normalize sample_table = sample_table.
Proof.
  split; [reflexivity|]. split; [|vm_compute; reflexivity].
  exact (proj1 (serialize_parse one_table sample_table true eq_refl)).
Defined.

(** Code units of the first character, as a collator. *)
Definition first_unit (x y : jstr) : Z := Z.of_N (default 0%N (head x)) - Z.of_N (default 0%N (head y)).

Lemma sort_rows_witness :
  collator first_unit
  /\ Permutation (body (sortTableRows first_unit sample_table 1 (-1))) (body sample_table)
  /\ body (sortTableRows first_unit sample_table 1 (-1)) = [[js "x"; js "2"]; [js "z"; js "1"]; [js "y"; []]].
Proof.
  assert (H : collator first_unit) by (unfold collator, first_unit; split; intros; lia).
  split; [exact H|]. split; [|vm_compute; reflexivity].
  exact (proj1 (proj2 (proj2 (sort_rows first_unit sample_table 1 (-1) H (or_intror eq_refl))))).
Defined.

Lemma structure_ops_witness :
  rect sample_table /\ deleteTableCol (insertTableCol sample_table 1) 1 = Some sample_table.
Proof.
  assert (H : rect sample_table) by (repeat constructor).
  split; [exact H|].
  exact (proj2 (proj2 (proj2 (proj2 (proj2 (proj2 (structure_ops sample_table H)))))) 1
           ltac:(split; discriminate)).
Defined.

Lemma parsed_document_witness :
  exists d, parseTableDocument one_table (js "| a | b |" ++ [c_cr; c_lf] ++ js "|:-:|--:|" ++ [c_lf] ++ js "| 1 |") true = Some d
    /\ rect (td_model d) /\ td_model d = {| header := [js "a"; js "b"]; align := [ACenter; ARight]; body := [[js "1"; []]] |}.
Proof.
  eexists. split; [vm_compute; reflexivity|]. split; [|vm_compute; reflexivity].
  eapply (fun H => proj1 (parsed_document one_table
    (js "| a | b |" ++ [c_cr; c_lf] ++ js "|:-:|--:|" ++ [c_lf] ++ js "| 1 |") true _ H)).
  vm_compute. reflexivity.
Defined.
