(* ===== verification/Access.v ===== *)
(** * Access: [luna/web/src/lib/access.js]

    The capability vocabulary of shares: the wire string ("view+upload", "full+share", …) as a bit
    set, the choices the share sheet offers, and the words for them. *)

From S2P Require Import Prelude JsString Paths.

(** ** Definitions *)

Definition CAP_VIEW : Z := 1.
Definition CAP_UPLOAD : Z := 2.
Definition CAP_EDIT : Z := 4.
Definition CAP_RESPOND : Z := 8.
Definition CAP_SHARE : Z := 16.
Definition CAP_FULL : Z := Z.lor (Z.lor CAP_VIEW CAP_UPLOAD) CAP_EDIT.
Definition CAP_MANAGE : Z := Z.lor CAP_FULL CAP_SHARE.

Definition KIND_PATH : jstr := js "path".
Definition KIND_ALBUM : jstr := js "album".

(** [string | number | null | undefined]; the last two read as the empty string. *)
Inductive caps := CapsNum (bits : Z) | CapsStr (s : jstr).

Definition is_str (s : jstr) (lit : string) : bool := bool_decide (s = js lit).

(** One part of a composed string; [None] makes the whole string mean nothing. *)
Definition part_bits (part : jstr) : option Z :=
  if is_str part "view" || is_str part "read" then Some CAP_VIEW
  else if is_str part "upload" then Some CAP_UPLOAD
  else if is_str part "share" then Some CAP_SHARE
  else if is_str part "" then Some 0
  else None.

Fixpoint parts_bits (parts : list jstr) (bits : Z) : Z :=
  match parts with
  | [] => bits
  | part :: parts =>
      match part_bits part with
      | Some b => parts_bits parts (Z.lor bits b)
      | None => 0
      end
  end.

Definition c_plus : N := 43%N.

Definition capsBits (c : caps) : Z :=
  match c with
  | CapsNum bits => bits
  | CapsStr v =>
      let s := to_lower (trim v) in
      if is_str s "read_write" || is_str s "write" then Z.lor CAP_VIEW CAP_UPLOAD
      else if is_str s "full" || is_str s "edit" then CAP_FULL
      else if is_str s "full+share" || is_str s "edit+share" then CAP_MANAGE
      else if is_str s "respond" then CAP_RESPOND
      else if is_str s "none" || is_str s "" then 0
      else parts_bits (split_on c_plus s) 0
  end.

Record share_caps := { sc_content : jstr; sc_share : bool }.

Definition splitShareCaps (c : caps) : share_caps :=
  let bits := capsBits c in
  let share := negb (Z.land bits CAP_SHARE =? 0) in
  let content := Z.land bits (Z.lnot CAP_SHARE) in
  let base :=
    if content =? CAP_FULL then js "full"
    else if content =? CAP_RESPOND then js "respond"
    else if content =? Z.lor CAP_VIEW CAP_UPLOAD then js "view+upload"
    else if content =? CAP_UPLOAD then js "upload"
    else if content =? CAP_VIEW then js "view"
    else [] in
  {| sc_content := base; sc_share := share |}.

Definition joinShareCaps (content : jstr) (share : bool) : jstr :=
  if share then str_or content (js "view") ++ js "+share" else content.

Definition bits_cover (m w : Z) : bool := negb (w =? 0) && (Z.land m w =? w).

Definition capsCover (mine want : caps) : bool := bits_cover (capsBits mine) (capsBits want).

Definition hasCap (c : caps) (bit : Z) : bool := negb (Z.land (capsBits c) bit =? 0).

(** A share subject; an absent field is its falsy value. *)
Record subject := {
  su_isAlbum : bool; su_driveId : jstr; su_path : jstr; su_albumId : jstr; su_isFile : bool;
  su_isForm : bool; su_name : jstr;
}.

Definition subjectKey (s : subject) : list jstr :=
  [if su_isAlbum s then KIND_ALBUM else KIND_PATH; su_driveId s; su_path s; su_albumId s].

(** The parameters of the query, in order; [URLSearchParams] writes them. *)
Definition subject_params (s : subject) : list (jstr * jstr) :=
  [(js "kind", if su_isAlbum s then KIND_ALBUM else KIND_PATH); (js "drive_id", su_driveId s)]
  ++ (if truthy (su_path s) then [(js "path", su_path s)] else [])
  ++ (if truthy (su_albumId s) then [(js "album_id", su_albumId s)] else []).

Definition option_labels (isAlbum isFile : bool) : list (jstr * jstr) :=
  if isAlbum then [(js "view", js "Can view"); (js "view+upload", js "Can view + add photos")]
  else if isFile then [(js "view", js "Can view"); (js "full", js "Can view + edit")]
  else [(js "view", js "Can view"); (js "upload", js "Upload only");
        (js "view+upload", js "Can view + upload"); (js "full", js "Can view + edit")].

Definition capsOptions (s : subject) (myCaps : caps) (forLink : bool) : list (jstr * jstr) :=
  let mine := capsBits myCaps in
  (if forLink && su_isForm s && negb (Z.land mine (Z.lor CAP_UPLOAD CAP_EDIT) =? 0)
   then [(js "respond", js "Collect answers")] else [])
  ++ List.filter (fun o => capsCover (CapsNum mine) (CapsStr o.1))
       (option_labels (su_isAlbum s) (su_isFile s)).

Definition capsLabel (c : caps) (album : bool) : jstr :=
  let '{| sc_content := content; sc_share := share |} := splitShareCaps c in
  let base :=
    if is_str content "view" then js "Can view"
    else if is_str content "upload" then js "Upload only"
    else if is_str content "view+upload"
    then if album then js "Can view + add photos" else js "Can view + upload"
    else if is_str content "full" then js "Can view + edit"
    else if is_str content "respond" then js "Collect answers"
    else if share then js "Can share" else js "No access" in
  if share then base ++ js " + share" else base.

Definition capsHint (c : caps) (album file form : bool) : jstr :=
  let '{| sc_content := content; sc_share := share |} := splitShareCaps c in
  let base :=
    if is_str content "view" then
      if form then js "Opens the form and its responses."
      else if album then js "Opens the album."
      else if file then js "Opens and downloads the file." else js "Opens and downloads files."
    else if is_str content "upload" then js "Uploads files without seeing anything already here."
    else if is_str content "view+upload" then
      if album then js "Opens the album and adds their own photos."
      else js "Opens files and adds new ones, but can't delete or rename."
    else if is_str content "full" then
      if form then js "Edits the form and reads its responses."
      else if file then js "Opens, edits, and replaces this file."
      else js "Opens, edits, uploads, renames, moves, and deletes files."
    else if is_str content "respond" then
      js "People fill in the form — they never see other answers or the file itself."
    else [] in
  if share then
    let tail := js "They can also share this with other people." in
    if truthy base then base ++ js " " ++ tail else tail
  else base.

(** A row of [/me/access].  [r_ref] is the identity of the object ([===]); an absent field is its
    falsy value, and [driveId] stands in for an absent [drive_id]. *)
Record access_row := {
  r_ref : nat; r_isAlbum : bool; r_drive_id : jstr; r_driveId : jstr; r_path : jstr;
  r_album_id : jstr; r_caps : caps; r_is_file : bool; r_name : jstr;
}.

Definition sharedItemHref (r : access_row) : option jstr :=
  if r_isAlbum r then
    d ← encode_uri_component (r_drive_id r);
    a ← encode_uri_component (r_album_id r);
    Some (js "/gallery#albums/" ++ d ++ js "/" ++ a)
  else folderHref (r_drive_id r) (r_path r).

Definition sharedItemAction (r : access_row) : jstr :=
  if r_isAlbum r then js "View album" else if r_is_file r then js "Open" else js "Browse files".

Definition shareSubjectFromRow (r : access_row) : subject :=
  {| su_isAlbum := r_isAlbum r; su_driveId := r_drive_id r; su_path := r_path r;
     su_albumId := r_album_id r; su_isFile := r_is_file r; su_isForm := false; su_name := r_name r |}.

(** ** Lemmas *)

Lemma land_cover (a b : Z) : Z.land a b = b <-> forall n, Z.testbit b n = true -> Z.testbit a n = true.
Proof.
  split.
  - intros H n Hn. rewrite <- H, Z.land_spec in Hn. by apply andb_prop in Hn as [? _].
  - intros H. apply Z.bits_inj'. intros n _. rewrite Z.land_spec. specialize (H n).
    destruct (Z.testbit b n); [by rewrite H | apply andb_false_r].
Qed.

Lemma bits_cover_spec (m w : Z) : bits_cover m w = true <-> w <> 0 /\ Z.land m w = w.
Proof.
  unfold bits_cover. rewrite andb_true_iff, negb_true_iff, Z.eqb_eq, Z.eqb_neq. done.
Qed.

Lemma bits_cover_trans (a b c : Z) :
  bits_cover a b = true -> bits_cover b c = true -> bits_cover a c = true.
Proof.
  rewrite !bits_cover_spec, !land_cover. intros [_ H1] [H2 H3]. split; [done|]. auto.
Qed.

Definition caps_range (z : Z) : Prop := 0 <= z <= 31.

Lemma lor_range (a b : Z) : caps_range a -> caps_range b -> caps_range (Z.lor a b).
Proof.
  unfold caps_range. intros Ha Hb. split; [apply Z.lor_nonneg; lia|].
  destruct (Z.eq_dec (Z.lor a b) 0) as [->|Hz]; [lia|].
  assert (0 < Z.lor a b) by (pose proof (proj2 (Z.lor_nonneg a b)); lia).
  assert (Z.log2 (Z.lor a b) < 5); [|assert (Z.lor a b < 2 ^ 5) by (apply Z.log2_lt_pow2; lia); lia].
  rewrite Z.log2_lor by lia.
  apply Z.max_lub_lt; [destruct (Z.eq_dec a 0) as [->|] | destruct (Z.eq_dec b 0) as [->|]];
    try (vm_compute; reflexivity); apply Z.log2_lt_pow2; lia.
Qed.

Lemma part_bits_range (part : jstr) (b : Z) : part_bits part = Some b -> caps_range b.
Proof. unfold part_bits. repeat case_match; intros [= <-]; by vm_compute. Qed.

Lemma parts_range (parts : list jstr) (bits : Z) : caps_range bits -> caps_range (parts_bits parts bits).
Proof.
  revert bits. induction parts as [|p ps IH]; intros bits H; simpl; [done|].
  destruct (part_bits p) as [b|] eqn:E; [|by vm_compute].
  apply IH, lor_range; [done | by eapply part_bits_range].
Qed.

(** ** Theorems *)

(** the wire format.  Every string means a set of the five capabilities; splitting off the share
    bit and joining it again gives back each of the four content sets, with or without it. *)
Theorem share_caps_wire :
  (forall s, caps_range (capsBits (CapsStr s)))
  /\ Forall (fun content => forall share,
        splitShareCaps (CapsStr (joinShareCaps content share))
        = {| sc_content := content; sc_share := share |})
       [js "view"; js "upload"; js "view+upload"; js "full"].
Proof.
  split.
  - intros s. unfold capsBits. cbv zeta. repeat case_match; try (by vm_compute).
    apply parts_range. by vm_compute.
  - repeat constructor; intros []; vm_compute; reflexivity.
Qed.

(** a "respond" grant with the share tail, which the header comment of access.js allows, reads
    as no access at all. *)
Theorem respond_share_reads_as_nothing :
  joinShareCaps (js "respond") true = js "respond+share"
  /\ capsBits (CapsStr (js "respond+share")) = 0
  /\ capsLabel (CapsStr (js "respond+share")) false = js "No access"
  /\ capsBits (CapsStr (js "respond")) = CAP_RESPOND.
Proof. vm_compute. done. Qed.

(** the subset rule.  Every choice offered on a share gives only capabilities the person holds,
    except "respond", which is offered on a link to a form by someone who can upload or edit and
    gives none of the file's own capabilities; no choice carries the share bit. *)
Theorem options_within_mine (s : subject) (mine : caps) (forLink : bool) (value label : jstr) :
  (value, label) ∈ capsOptions s mine forLink ->
  (capsCover mine (CapsStr value) = true /\ hasCap (CapsStr value) CAP_SHARE = false)
  \/ (value = js "respond" /\ forLink = true /\ su_isForm s = true
      /\ (hasCap mine CAP_UPLOAD = true \/ hasCap mine CAP_EDIT = true)
      /\ Z.land (capsBits (CapsStr value)) CAP_MANAGE = 0).
Proof.
  unfold capsOptions. cbv zeta. intros [H|H]%elem_of_app.
  - right. destruct (forLink && su_isForm s && _) eqn:E; [|by apply not_elem_of_nil in H].
    apply list_elem_of_singleton in H as [= -> ->].
    apply andb_prop in E as [[-> ->]%andb_prop E]. split_and!; try done.
    unfold hasCap. apply negb_true_iff, Z.eqb_neq in E. rewrite Z.land_lor_distr_r in E.
    destruct (Z.eqb_spec (Z.land (capsBits mine) CAP_UPLOAD) 0) as [E1|]; [|by left].
    destruct (Z.eqb_spec (Z.land (capsBits mine) CAP_EDIT) 0) as [E2|]; [|by right].
    by rewrite E1, E2 in E.
  - left. apply list_elem_of_In, List.filter_In in H as [Hin Hc]. simpl in Hc. split; [done|].
    unfold option_labels in Hin.
    destruct (su_isAlbum s), (su_isFile s); simpl in Hin;
      repeat destruct Hin as [[= <- _]|Hin]; try done; vm_compute; reflexivity.
Qed.

Lemma options_within_mine_witness :
  capsOptions {| su_isAlbum := false; su_driveId := js "d"; su_path := js "a.lunaform"; su_albumId := [];
                 su_isFile := true; su_isForm := true; su_name := [] |} (CapsStr (js "full")) true
  = [(js "respond", js "Collect answers"); (js "view", js "Can view"); (js "full", js "Can view + edit")]
  /\ ((capsCover (CapsStr (js "full")) (CapsStr (js "view")) = true
       /\ hasCap (CapsStr (js "view")) CAP_SHARE = false)
      \/ (js "view" = js "respond" /\ true = true /\ true = true
          /\ (hasCap (CapsStr (js "full")) CAP_UPLOAD = true \/ hasCap (CapsStr (js "full")) CAP_EDIT = true)
          /\ Z.land (capsBits (CapsStr (js "view"))) CAP_MANAGE = 0)).
Proof.
  split; [vm_compute; reflexivity|].
  apply (options_within_mine {| su_isAlbum := false; su_driveId := js "d"; su_path := js "a.lunaform";
    su_albumId := []; su_isFile := true; su_isForm := true; su_name := [] |} _ true (js "view") (js "Can view")).
  apply (bool_decide_unpack _). vm_compute. exact I.
Defined.
