(* ===== verification/ShareTree.v ===== *)
(** * What a member can reach: [luna/web/src/lib/shareTree.js]

    The rows of [/me/access] as a tree of grants: which rows are roots, what a path's capabilities
    are, how far up a member may browse, and where things can be moved to. *)

From S2P Require Import Prelude JsString Paths Access.

(** ** Definitions *)

Definition slash_of_backslash (c : N) : N := if (c =? c_backslash)%N then c_slash else c.

Fixpoint drop_slashes (s : jstr) : jstr :=
  match s with
  | c :: r => if (c =? c_slash)%N then drop_slashes r else s
  | [] => []
  end.

(** [replace(/\\/g, "/").replace(/^\/+|\/+$/g, "")] *)
Definition pathKey (value : jstr) : jstr :=
  rev (drop_slashes (rev (drop_slashes (map slash_of_backslash value)))).

Definition key_contains (parent child : jstr) : bool :=
  bool_decide (parent = child) || negb (truthy parent) || starts_with (parent ++ js "/") child.

Definition pathContains (ancestor descendant : jstr) : bool :=
  key_contains (pathKey ancestor) (pathKey descendant).

Definition driveIdOf (r : access_row) : jstr := str_or (r_drive_id r) (r_driveId r).

Definition capsGe (parent child : caps) : bool := bits_cover (capsBits parent) (capsBits child).

Definition rowCovers (parent row : access_row) : bool :=
  if Nat.eqb (r_ref parent) (r_ref row) then false
  else if negb (bool_decide (driveIdOf parent = driveIdOf row)) then false
  else if negb (capsGe (r_caps parent) (r_caps row)) then false
  else if r_isAlbum row || r_isAlbum parent
  then r_isAlbum row && r_isAlbum parent && bool_decide (r_album_id row = r_album_id parent)
  else pathContains (r_path parent) (r_path row).

Definition memberAccessRoots (rows : list access_row) : list access_row :=
  List.filter (fun row => negb (existsb (fun parent => rowCovers parent row) rows)) rows.

(** A path row on the drive. *)
Definition on_drive (driveId : jstr) (r : access_row) : bool :=
  negb (r_isAlbum r) && bool_decide (driveIdOf r = driveId).

Definition capsOnPath (rows : list access_row) (driveId path : jstr) : Z :=
  let target := pathKey path in
  foldl (fun bits row =>
      if on_drive driveId row && pathContains (r_path row) target
      then Z.lor bits (capsBits (r_caps row)) else bits) 0 rows.

Definition hasCapOnDrive (rows : list access_row) (driveId : jstr) (bit : Z) : bool :=
  existsb (fun row => on_drive driveId row && negb (Z.land (capsBits (r_caps row)) bit =? 0)) rows.

Definition segmentCount (path : jstr) : nat :=
  if truthy path then length (split_on c_slash path) else 0.

(** One turn of the loop of [memberPathFloor], on [(floor, hasDriveRow)]. *)
Definition floor_step (driveId target : jstr) (acc : option jstr * bool) (row : access_row)
    : option jstr * bool :=
  if negb (on_drive driveId row) then acc
  else if capsBits (r_caps row) =? 0 then acc
  else
    let grant := pathKey (r_path row) in
    if negb (pathContains grant target) then (acc.1, true)
    else match acc.1 with
         | None => (Some grant, true)
         | Some floor => if (segmentCount grant <? segmentCount floor)%nat
                         then (Some grant, true) else (Some floor, true)
         end.

Definition memberPathFloor (rows : list access_row) (driveId path : jstr) : jstr :=
  let target := pathKey path in
  match foldl (floor_step driveId target) (None, false) rows with
  | (Some floor, _) => floor
  | (None, hasDriveRow) => if hasDriveRow then target else []
  end.

Record writable_root := { wr_driveId : jstr; wr_path : jstr; wr_label : jstr }.

Section Writable.
Context (isPresent : jstr -> bool) (driveLabel : jstr -> jstr).

(** The rows that become a destination. *)
Definition writable_row (r : access_row) : bool :=
  negb (r_isAlbum r || r_is_file r) && truthy (driveIdOf r) && isPresent (driveIdOf r)
  && negb (Z.land (capsBits (r_caps r)) (Z.lor CAP_UPLOAD CAP_EDIT) =? 0).

Definition root_key (driveId path : jstr) : jstr := driveId ++ js ":" ++ path.

Definition root_label (r : access_row) (path : jstr) : jstr :=
  str_or (str_or (str_or (r_name r)
    (if truthy path then default [] (last (split_on c_slash path)) else []))
    (driveLabel (driveIdOf r))) (js "Shared folder").

(** One turn of the loop, on [(roots, seen)]. *)
Definition writable_step (acc : list writable_root * list jstr) (r : access_row)
    : list writable_root * list jstr :=
  if negb (writable_row r) then acc
  else
    let path := pathKey (r_path r) in
    let key := root_key (driveIdOf r) path in
    if bool_decide (key ∈ acc.2) then acc
    else (acc.1 ++ [{| wr_driveId := driveIdOf r; wr_path := path; wr_label := root_label r path |}],
          acc.2 ++ [key]).

Definition memberWritableRoots (rows : list access_row) : list writable_root :=
  (foldl writable_step ([], []) rows).1.
End Writable.

Definition memberFileHref (rows : list access_row) (driveId filePath : jstr) : option jstr :=
  let parent := parentOr filePath in
  if negb (Z.land (capsOnPath rows driveId parent) CAP_VIEW =? 0) then fileHref driveId filePath
  else
    base ← folderHref driveId filePath;
    e ← encode_uri_component filePath;
    Some (base ++ js "&file=" ++ e).

Definition memberSearchHref (rows : list access_row) (item : search_item) : option jstr :=
  if si_isDir item then searchResultHref item
  else
    let parent := match si_parent item with Some p => p | None => parentOr (si_path item) end in
    if negb (Z.land (capsOnPath rows (si_drive_id item) parent) CAP_VIEW =? 0)
    then searchResultHref item
    else memberFileHref rows (si_drive_id item) (si_path item).

(** ** Specification *)

(** No two rows of the list make each other redundant. *)
Definition no_twins (rows : list access_row) : Prop :=
  forall p q, p ∈ rows -> q ∈ rows -> rowCovers p q = true -> rowCovers q p = true -> False.

(** Identity is identity: two rows with the same reference are the same object. *)
Definition refs_ok (rows : list access_row) : Prop :=
  forall p q, p ∈ rows -> q ∈ rows -> r_ref p = r_ref q -> p = q.

(** A path row on the drive that gives something, and one whose folder contains the target. *)
Definition grants (d : jstr) (r : access_row) : bool :=
  on_drive d r && negb (capsBits (r_caps r) =? 0).

Definition grants_above (d target : jstr) (r : access_row) : bool :=
  grants d r && pathContains (pathKey (r_path r)) target.

Definition floor_inv (d target : jstr) (rows : list access_row) (acc : option jstr * bool) : Prop :=
  acc.2 = existsb (grants d) rows
  /\ match acc.1 with
     | None => forall r, r ∈ rows -> grants_above d target r = false
     | Some floor =>
         (exists r, r ∈ rows /\ grants_above d target r = true /\ floor = pathKey (r_path r))
         /\ forall r, r ∈ rows -> grants_above d target r = true ->
              (segmentCount floor <= segmentCount (pathKey (r_path r)))%nat
     end.

Definition root_keys (rows : list writable_root) : list jstr :=
  map (fun r => root_key (wr_driveId r) (wr_path r)) rows.

(** ** Keys and segments *)

(** The segments of a key; none at the drive root. *)
Definition segs (key : jstr) : list jstr := if truthy key then split_on c_slash key else [].

Lemma drop_slashes_head (s : jstr) : head (drop_slashes s) <> Some c_slash.
Proof.
  induction s as [|c s IH]; simpl; [done|]. destruct (N.eqb_spec c c_slash); [done|]. simpl. congruence.
Qed.

Lemma drop_slashes_id (s : jstr) : head s <> Some c_slash -> drop_slashes s = s.
Proof.
  destruct s as [|c s]; simpl; [done|]. intros H. destruct (N.eqb_spec c c_slash); [congruence | done].
Qed.

Lemma drop_slashes_suffix (s : jstr) : exists p, s = p ++ drop_slashes s.
Proof.
  induction s as [|c s [p Hp]]; simpl; [by exists []|]. destruct (c =? c_slash)%N; [|by exists []].
  exists (c :: p). simpl. by f_equal.
Qed.

Lemma pathKey_idem (v : jstr) : pathKey (pathKey v) = pathKey v.
Proof.
  unfold pathKey. set (a := drop_slashes (map slash_of_backslash v)).
  assert (Hb : map slash_of_backslash (rev (drop_slashes (rev a))) = rev (drop_slashes (rev a))).
  { rewrite <- (map_id (rev (drop_slashes (rev a)))) at 2. apply map_ext_in. intros c Hc%in_rev.
    unfold slash_of_backslash. destruct (N.eqb_spec c c_backslash) as [->|]; [|done]. exfalso.
    destruct (drop_slashes_suffix (rev a)) as [p Hp].
    assert (In c_backslash a) as Ha.
    { apply in_rev. rewrite Hp. apply in_app_iff. by right. }
    unfold a in Ha. destruct (drop_slashes_suffix (map slash_of_backslash v)) as [q Hq].
    assert (In c_backslash (map slash_of_backslash v)) as Hm by (rewrite Hq; apply in_app_iff; by right).
    apply in_map_iff in Hm as (x & Hx & _). unfold slash_of_backslash in Hx.
    destruct (N.eqb_spec x c_backslash); [discriminate Hx | congruence]. }
  rewrite Hb. rewrite (drop_slashes_id (rev (drop_slashes (rev a)))).
  - by rewrite rev_involutive, (drop_slashes_id (drop_slashes (rev a))) by apply drop_slashes_head.
  - destruct (drop_slashes_suffix (rev a)) as [p Hp].
    assert (Ha : a = rev (drop_slashes (rev a)) ++ rev p).
    { rewrite <- rev_app_distr, <- Hp. by rewrite rev_involutive. }
    destruct (rev (drop_slashes (rev a))) as [|c r] eqn:E; [done|].
    pose proof (drop_slashes_head (map slash_of_backslash v)) as Hh. fold a in Hh. rewrite Ha in Hh. done.
Qed.

Lemma split_on_app_sep (c : N) (a b : jstr) : split_on c (a ++ c :: b) = split_on c a ++ split_on c b.
Proof.
  induction a as [|x a IH]; simpl; [by rewrite N.eqb_refl|].
  destruct (c =? x)%N; [by rewrite IH|]. rewrite IH.
  pose proof (split_on_ne c a) as Hne. by destruct (split_on c a).
Qed.

Lemma join_app_sep (c : N) (a b : list jstr) :
  a <> [] -> b <> [] -> join [c] (a ++ b) = join [c] a ++ c :: join [c] b.
Proof.
  intros Ha Hb. induction a as [|x a IH]; [done|]. destruct a as [|y a].
  - destruct b as [|z b]; [done|]. done.
  - change (join [c] ((x :: y :: a) ++ b)) with (x ++ c :: join [c] ((y :: a) ++ b)).
    rewrite IH by done. change (join [c] (x :: y :: a)) with (x ++ c :: join [c] (y :: a)).
    by rewrite <- app_assoc.
Qed.

Lemma key_contains_segs (p c : jstr) : key_contains p c = true <-> segs p `prefix_of` segs c.
Proof.
  unfold key_contains, segs. rewrite !orb_true_iff, bool_decide_eq_true, negb_true_iff, starts_with_spec.
  destruct (truthy p) eqn:Hp.
  - transitivity (p = c \/ exists r, c = p ++ c_slash :: r).
    { split; [intros [[->|?]|[r ->]]; [by left | done | right; exists r; by rewrite <- app_assoc]|].
      intros [->|[r ->]]; [by do 2 left | right; exists r; by rewrite <- app_assoc]. }
    split.
    + intros [->|[r ->]]; [by rewrite Hp|].
      assert (truthy (p ++ c_slash :: r) = true) as -> by (apply truthy_spec; by destruct p).
      rewrite split_on_app_sep. by eexists.
    + intros [k Hk]. destruct (truthy c) eqn:Hc.
      * rewrite <- (join_split c_slash p), <- (join_split c_slash c), Hk.
        destruct k as [|w k]; [left; by rewrite app_nil_r|]. right. exists (join [c_slash] (w :: k)).
        apply join_app_sep; [apply split_on_ne | done].
      * symmetry in Hk. apply app_nil in Hk as [Hk _]. by apply split_on_ne in Hk.
  - split; [intros _; apply prefix_nil | intros _; left; by right].
Qed.

Lemma pathContains_trans (a b c : jstr) :
  pathContains a b = true -> pathContains b c = true -> pathContains a c = true.
Proof. unfold pathContains. rewrite !key_contains_segs. apply transitivity. Qed.

Lemma segmentCount_segs (p : jstr) : segmentCount p = length (segs p).
Proof. unfold segmentCount, segs. by destruct (truthy p). Qed.

(** ** Roots *)

Lemma rowCovers_spec (p r : access_row) :
  rowCovers p r = true ->
  r_ref p <> r_ref r /\ driveIdOf p = driveIdOf r
  /\ bits_cover (capsBits (r_caps p)) (capsBits (r_caps r)) = true
  /\ r_isAlbum p = r_isAlbum r
  /\ if r_isAlbum r then r_album_id p = r_album_id r else pathContains (r_path p) (r_path r) = true.
Proof.
  unfold rowCovers, capsGe. destruct (Nat.eqb_spec (r_ref p) (r_ref r)); [done|].
  case_bool_decide; simpl; [|done]. destruct (bits_cover _ _) eqn:Hc; simpl; [|done].
  destruct (r_isAlbum r), (r_isAlbum p); simpl; try done.
  intros ?%bool_decide_eq_true. naive_solver.
Qed.

Lemma rowCovers_trans (p q r : access_row) :
  rowCovers p q = true -> rowCovers q r = true -> r_ref p <> r_ref r -> rowCovers p r = true.
Proof.
  intros (H1 & H2 & H3 & H4 & H5)%rowCovers_spec (G1 & G2 & G3 & G4 & G5)%rowCovers_spec Hne.
  unfold rowCovers, capsGe. rewrite (proj2 (Nat.eqb_neq _ _)) by done.
  rewrite bool_decide_eq_true_2 by congruence. rewrite (bits_cover_trans _ _ _ H3 G3). simpl.
  rewrite H4, G4 in *. destruct (r_isAlbum r); simpl.
  - apply bool_decide_eq_true_2. congruence.
  - by eapply pathContains_trans.
Qed.

(** Every row is a root, or a root covers it. *)
Lemma root_above (rows : list access_row) (r : access_row) :
  no_twins rows -> refs_ok rows -> r ∈ rows ->
  exists p, p ∈ memberAccessRoots rows /\ (p = r \/ rowCovers p r = true).
Proof.
  intros Ht Hrefs.
  assert (Htrans : forall p q, p ∈ rows -> q ∈ rows -> forall s, s ∈ rows ->
            rowCovers p q = true -> rowCovers q s = true -> rowCovers p s = true).
  { intros p q Hp Hq s Hs Hpq Hqs. eapply rowCovers_trans; [done..|]. intros Heq.
    assert (p = s) as -> by by apply Hrefs. by apply (Ht s q). }
  remember (length (List.filter (fun p => rowCovers p r) rows)) as n eqn:Hn.
  revert r Hn. induction (lt_wf n) as [n _ IH]. intros r -> Hr.
  destruct (existsb (fun p => rowCovers p r) rows) eqn:E.
  - apply existsb_exists in E as (p & Hp%list_elem_of_In & Hpr).
    destruct (IH (length (List.filter (fun q => rowCovers q p) rows))) with (r := p) as (q & Hq & Hqp); try done.
    + apply (filter_lt_length _ _ _ p); [|done | done|].
      * intros q Hq Hqp. by apply (Htrans q p).
      * destruct (rowCovers p p) eqn:Epp; [|done]. by destruct (Ht p p).
    + exists q. split; [done|]. right. destruct Hqp as [->|Hqp]; [done|].
      apply (Htrans q p); try done. apply list_elem_of_In, List.filter_In in Hq as [Hq _].
      by apply list_elem_of_In.
  - exists r. split; [|by left]. apply list_elem_of_In, List.filter_In.
    split; [by apply list_elem_of_In | by rewrite E].
Qed.

Lemma capsOnPath_bit (rows : list access_row) (d path : jstr) (n : Z) :
  Z.testbit (capsOnPath rows d path) n = true <->
  exists r, r ∈ rows /\ on_drive d r = true /\ pathContains (r_path r) (pathKey path) = true
            /\ Z.testbit (capsBits (r_caps r)) n = true.
Proof.
  unfold capsOnPath. cbv zeta. set (f := fun (bits : Z) (row : access_row) => _).
  set (P := fun r => on_drive d r = true /\ pathContains (r_path r) (pathKey path) = true
                     /\ Z.testbit (capsBits (r_caps r)) n = true).
  assert (H : forall b, Z.testbit (foldl f b rows) n = true <-> Z.testbit b n = true \/ Exists P rows).
  { induction rows as [|r rows IH]; intros b; simpl; [rewrite Exists_nil; tauto|].
    rewrite IH, Exists_cons. unfold f at 1. unfold P at 2.
    destruct (on_drive d r), (pathContains (r_path r) (pathKey path)); simpl;
      rewrite ?Z.lor_spec, ?orb_true_iff; intuition discriminate. }
  rewrite H, Z.bits_0, Exists_exists. intuition discriminate.
Qed.

(** ** The floor *)

Lemma floor_skip (d target : jstr) (rows : list access_row) (f : option jstr) (h h' : bool)
    (r : access_row) :
  floor_inv d target rows (f, h) -> grants_above d target r = false -> h' = h || grants d r ->
  floor_inv d target (rows ++ [r]) (f, h').
Proof.
  intros [Hh Hf] Hr ->. split; [simpl in *; rewrite existsb_app; simpl; by rewrite orb_false_r, Hh|].
  simpl in *. destruct f as [fl|].
  - destruct Hf as [(g & Hg & Hf) Hmin]. split.
    + exists g. split; [apply elem_of_app; by left | done].
    + intros q [Hq|Hq%list_elem_of_singleton]%elem_of_app Hqa; [auto|]. subst q. by rewrite Hr in Hqa.
  - intros q [Hq|Hq%list_elem_of_singleton]%elem_of_app; [auto | by subst q].
Qed.

Lemma floor_step_inv (d target : jstr) (rows : list access_row) (acc : option jstr * bool)
    (r : access_row) :
  floor_inv d target rows acc -> floor_inv d target (rows ++ [r]) (floor_step d target acc r).
Proof.
  destruct acc as [f h]. intros Hinv. unfold floor_step.
  destruct (on_drive d r) eqn:E1; simpl.
  2: { apply (floor_skip _ _ _ _ h); unfold grants_above, grants; rewrite ?E1; simpl; auto.
       by rewrite orb_false_r. }
  destruct (Z.eqb_spec (capsBits (r_caps r)) 0) as [E2|E2]; simpl.
  { apply (floor_skip _ _ _ _ h); unfold grants_above, grants; rewrite ?E1, ?E2; simpl; auto.
    by rewrite orb_false_r. }
  assert (Hg : grants d r = true) by (unfold grants; by rewrite E1, (proj2 (Z.eqb_neq _ _) E2)).
  destruct (pathContains (pathKey (r_path r)) target) eqn:E3; simpl.
  2: { apply (floor_skip _ _ _ _ h); unfold grants_above; rewrite ?Hg, ?E3; auto. by rewrite orb_true_r. }
  assert (Hga : grants_above d target r = true) by (unfold grants_above; by rewrite Hg, E3).
  destruct Hinv as [Hh Hf]. simpl in *.
  assert (Hh' : true = existsb (grants d) (rows ++ [r])).
  { rewrite existsb_app. simpl. by rewrite Hg, orb_true_r. }
  assert (Hr : r ∈ rows ++ [r]) by (apply elem_of_app; right; by apply list_elem_of_singleton).
  destruct f as [fl|]; simpl.
  - destruct Hf as [(r' & Hr' & Hf) Hmin].
    destruct (Nat.ltb_spec (segmentCount (pathKey (r_path r))) (segmentCount fl));
      (split; [done|]); simpl; split.
    + by exists r.
    + intros q [Hq|Hq%list_elem_of_singleton]%elem_of_app Hqa; [specialize (Hmin q Hq Hqa); lia | by subst q].
    + exists r'. split; [apply elem_of_app; by left | done].
    + intros q [Hq|Hq%list_elem_of_singleton]%elem_of_app Hqa; [by apply Hmin | by subst q].
  - split; [done|]. simpl. split; [by exists r|].
    intros q [Hq|Hq%list_elem_of_singleton]%elem_of_app Hqa; [by rewrite Hf in Hqa | by subst q].
Qed.

Lemma floor_fold (d target : jstr) (rows : list access_row) :
  floor_inv d target rows (foldl (floor_step d target) (None, false) rows).
Proof.
  induction rows as [|r rows IH] using rev_ind.
  { split; [done|]. simpl. by intros r ?%not_elem_of_nil. }
  rewrite foldl_app. by apply floor_step_inv.
Qed.

(** Of two folders that contain the same path, the one with fewer segments contains the other. *)
Lemma shallower_contains (a b t : jstr) :
  key_contains a t = true -> key_contains b t = true ->
  (segmentCount a <= segmentCount b)%nat -> key_contains a b = true.
Proof.
  rewrite !key_contains_segs, !segmentCount_segs. intros Ha Hb Hl.
  destruct (prefix_weak_total _ _ _ Ha Hb) as [H|H]; [done|].
  rewrite (prefix_length_eq _ _ H Hl). reflexivity.
Qed.

(** ** Theorems *)

(** C37: dropping redundant rows loses nothing.  Where no two rows make each other redundant, the
    roots give every path the capabilities all rows give it, on every drive. *)
Theorem roots_keep_access (rows : list access_row) :
  no_twins rows -> refs_ok rows ->
  (forall d path, capsOnPath (memberAccessRoots rows) d path = capsOnPath rows d path)
  /\ (forall d bit, hasCapOnDrive (memberAccessRoots rows) d bit = hasCapOnDrive rows d bit).
Proof.
  intros Ht Hrefs.
  assert (Hsub : forall r, r ∈ memberAccessRoots rows -> r ∈ rows).
  { intros r [Hr _]%list_elem_of_In%List.filter_In. by apply list_elem_of_In. }
  split.
  - intros d path. apply Z.bits_inj'. intros n _. apply eq_true_iff_eq. rewrite !capsOnPath_bit.
    split; intros (r & Hr & H1 & H2 & H3); [exists r; by auto|].
    destruct (root_above rows r Ht Hrefs Hr) as (p & Hp & [->|Hc]); [by exists r|].
    exists p. apply rowCovers_spec in Hc as (_ & G2 & [_ G3]%bits_cover_spec & G4 & G5).
    unfold on_drive in *. rewrite G4, G2. apply andb_prop in H1 as [H1 H1'].
    destruct (r_isAlbum r); [done|]. split_and!; [done | done | by eapply pathContains_trans |].
    by apply (proj1 (land_cover _ _) G3).
  - intros d bit. unfold hasCapOnDrive. apply eq_true_iff_eq. rewrite !existsb_exists.
    setoid_rewrite <- list_elem_of_In. split; intros (r & Hr & H1); [exists r; by auto|].
    destruct (root_above rows r Ht Hrefs Hr) as (p & Hp & [->|Hc]); [by exists r|].
    exists p. split; [done|]. apply rowCovers_spec in Hc as (_ & G2 & [_ G3]%bits_cover_spec & G4 & G5).
    apply andb_prop in H1 as [H1 H1']. unfold on_drive in *. rewrite G4, G2, H1. simpl.
    apply negb_true_iff, Z.eqb_neq in H1'. apply negb_true_iff, Z.eqb_neq. intros Hz. apply H1'.
    rewrite <- G3, (Z.land_comm (capsBits (r_caps p))), <- Z.land_assoc, Hz. apply Z.land_0_r.
Qed.

(** Two rows for the same folder with the same capabilities hide each other: both are dropped,
    though one of them is needed. *)
Theorem twin_rows_vanish (a b : access_row) :
  r_ref a <> r_ref b -> driveIdOf a = driveIdOf b -> r_isAlbum a = false -> r_isAlbum b = false ->
  pathKey (r_path a) = pathKey (r_path b) -> r_caps a = r_caps b -> capsBits (r_caps a) <> 0 ->
  memberAccessRoots [a; b] = []
  /\ (forall path, pathContains (r_path a) (pathKey path) = true ->
        capsOnPath [a; b] (driveIdOf a) path = capsBits (r_caps a)
        /\ capsOnPath (memberAccessRoots [a; b]) (driveIdOf a) path = 0).
Proof.
  intros Hr Hd Ha Hb Hp Hc Hz.
  assert (Hself : forall x, bits_cover x x = true <-> x <> 0)
    by (intros x; rewrite bits_cover_spec, Z.land_diag; naive_solver).
  assert (Hcov : rowCovers a b = true /\ rowCovers b a = true).
  { unfold rowCovers, capsGe, pathContains. rewrite Ha, Hb, Hp, <- Hd, Hc.
    rewrite !(proj2 (Nat.eqb_neq _ _)) by done. rewrite Hc in Hz.
    rewrite !bool_decide_eq_true_2 by done. rewrite (proj2 (Hself _)) by done. simpl.
    unfold key_contains. by rewrite bool_decide_eq_true_2. }
  assert (Hnil : memberAccessRoots [a; b] = []).
  { unfold memberAccessRoots. simpl. destruct Hcov as [-> ->]. simpl. by rewrite orb_true_r. }
  split; [done|]. intros path Hpath. rewrite Hnil. split; [|done].
  unfold capsOnPath, on_drive, pathContains in *. simpl.
  rewrite Ha, Hb, <- Hd, <- Hc, <- Hp, Hpath, !bool_decide_eq_true_2 by done. simpl.
  by rewrite Z.lor_diag.
Qed.

(** The member's virtual root.  It contains the path being browsed.  Where a grant on the drive
    contains the path, the root is such a grant and contains every other one; where the drive has
    grants but none that does, it is the path itself; where it has none, the drive root. *)
Theorem path_floor (rows : list access_row) (d path : jstr) :
  let floor := memberPathFloor rows d path in
  let target := pathKey path in
  pathContains floor target = true
  /\ (forall r, r ∈ rows -> grants_above d target r = true ->
        pathContains floor (r_path r) = true
        /\ exists g, g ∈ rows /\ grants_above d target g = true /\ floor = pathKey (r_path g))
  /\ ((forall r, r ∈ rows -> grants_above d target r = false) ->
        floor = if existsb (grants d) rows then target else []).
Proof.
  intros floor target. unfold floor, memberPathFloor. fold target.
  pose proof (floor_fold d target rows) as [Hh Hf].
  destruct (foldl (floor_step d target) (None, false) rows) as [f h]. simpl in *.
  assert (Hnil : pathContains [] target = true).
  { unfold pathContains, key_contains. simpl. by rewrite orb_true_r. }
  assert (Hself : pathContains target target = true).
  { unfold pathContains, key_contains. by rewrite bool_decide_eq_true_2. }
  assert (Habove : forall r, grants_above d target r = true -> key_contains (pathKey (r_path r)) target = true).
  { intros r [_ H]%andb_prop. unfold pathContains in H. unfold target in *. by rewrite !pathKey_idem in H. }
  destruct f as [fl|].
  - destruct Hf as [(g & Hg & Hga & ->) Hmin]. split_and!.
    + by apply andb_prop in Hga as [_ ?].
    + intros r Hr Hra. split; [|by exists g].
      unfold pathContains. rewrite pathKey_idem. eapply shallower_contains; eauto.
    + intros Hnone. by rewrite (Hnone g Hg) in Hga.
  - split_and!; [by destruct h | |].
    + intros r Hr Hra. by rewrite (Hf r Hr) in Hra.
    + intros _. by rewrite Hh.
Qed.

(** Where things can be moved to.  Every destination is the folder of a present row that allows
    uploading or editing and is not a file or an album; every such row has its destination; no
    destination is offered twice. *)
Theorem writable_roots (isPresent : jstr -> bool) (driveLabel : jstr -> jstr) (rows : list access_row) :
  let roots := memberWritableRoots isPresent driveLabel rows in
  (forall w, w ∈ roots -> exists r, r ∈ rows /\ writable_row isPresent r = true
      /\ wr_driveId w = driveIdOf r /\ wr_path w = pathKey (r_path r) /\ wr_label w <> [])
  /\ (forall r, r ∈ rows -> writable_row isPresent r = true ->
        root_key (driveIdOf r) (pathKey (r_path r)) ∈ root_keys roots)
  /\ NoDup (root_keys roots).
Proof.
  intros roots. unfold roots, memberWritableRoots.
  assert (H : let acc := foldl (writable_step isPresent driveLabel) ([], []) rows in
    root_keys acc.1 = acc.2 /\ NoDup acc.2
    /\ (forall w, w ∈ acc.1 -> exists r, r ∈ rows /\ writable_row isPresent r = true
      /\ wr_driveId w = driveIdOf r /\ wr_path w = pathKey (r_path r) /\ wr_label w <> [])
    /\ (forall r, r ∈ rows -> writable_row isPresent r = true ->
        root_key (driveIdOf r) (pathKey (r_path r)) ∈ acc.2)).
  { induction rows as [|r rows IH] using rev_ind; [cbn; split_and!; try done; [by constructor | set_solver..]|].
    cbv zeta in *. rewrite foldl_app. cbn [foldl].
    destruct (foldl _ _ rows) as [rs seen]. cbn [fst snd] in *. destruct IH as (H1 & H2 & H3 & H4).
    unfold writable_step. destruct (writable_row isPresent r) eqn:Ew; cbn [negb].
    2: { cbn [fst snd]. split_and!; [done | done | |].
         - intros w Hw. destruct (H3 w Hw) as (q & Hq & ?). exists q. set_solver.
         - intros q [Hq|Hq%list_elem_of_singleton]%elem_of_app Hwq; [auto | subst q; by rewrite Ew in Hwq]. }
    cbn [fst snd]. case_bool_decide as Hs; cbn [fst snd].
    - split_and!; [done | done | |].
      + intros w Hw. destruct (H3 w Hw) as (q & Hq & ?). exists q. set_solver.
      + intros q [Hq|Hq%list_elem_of_singleton]%elem_of_app Hwq; [auto | by subst q].
    - split_and!.
      + unfold root_keys in *. rewrite map_app, H1. done.
      + apply NoDup_app. split_and!; [done | set_solver | by apply NoDup_singleton].
      + intros w [Hw|Hw%list_elem_of_singleton]%elem_of_app; [|subst w].
        * destruct (H3 w Hw) as (q & Hq & ?). exists q. set_solver.
        * exists r. cbn. split_and!; [set_solver | done..|]. unfold root_label.
          unfold str_or. by repeat (destruct (truthy _) eqn:?; try by apply truthy_spec).
      + intros q [Hq|Hq%list_elem_of_singleton]%elem_of_app Hwq; apply elem_of_app; [left; auto|].
        subst q. right. by apply list_elem_of_singleton. }
  cbv zeta in H. destruct H as (H1 & H2 & H3 & H4). rewrite H1. by split_and!.
Qed.

Definition row (ref : nat) (drive path : jstr) (c : string) : access_row :=
  {| r_ref := ref; r_isAlbum := false; r_drive_id := drive; r_driveId := []; r_path := path;
     r_album_id := []; r_caps := CapsStr (js c); r_is_file := false; r_name := [] |}.

Lemma roots_keep_access_witness :
  let rows := [row 1 (js "d") (js "/album/") "view+upload"; row 2 (js "d") (js "album/print") "view";
               row 3 (js "d") (js "album/print/a") "full"] in
  no_twins rows /\ refs_ok rows
  /\ memberAccessRoots rows = [row 1 (js "d") (js "/album/") "view+upload"; row 3 (js "d") (js "album/print/a") "full"]
  /\ capsOnPath (memberAccessRoots rows) (js "d") (js "album/print/a") = capsOnPath rows (js "d") (js "album/print/a").
Proof.
  intros rows.
  assert (H1 : no_twins rows).
  { intros p q Hp%list_elem_of_In Hq%list_elem_of_In H1 H2. unfold rows in Hp, Hq. simpl in Hp, Hq.
    destruct Hp as [<-|[<-|[<-|[]]]]; destruct Hq as [<-|[<-|[<-|[]]]];
      (vm_compute in H1; discriminate H1) || (vm_compute in H2; discriminate H2). }
  assert (H2 : refs_ok rows).
  { intros p q Hp%list_elem_of_In Hq%list_elem_of_In H2. unfold rows in Hp, Hq. simpl in Hp, Hq.
    destruct Hp as [<-|[<-|[<-|[]]]]; destruct Hq as [<-|[<-|[<-|[]]]];
      reflexivity || (simpl in H2; discriminate H2). }
  split; [exact H1|]. split; [exact H2|]. split; [vm_compute; reflexivity|].
  exact (proj1 (roots_keep_access rows H1 H2) (js "d") (js "album/print/a")).
Defined.

Lemma twin_rows_vanish_witness :
  memberAccessRoots [row 1 (js "d") (js "photos") "view"; row 2 (js "d") (js "/photos/") "view"] = [].
Proof.
  exact (proj1 (twin_rows_vanish (row 1 (js "d") (js "photos") "view") (row 2 (js "d") (js "/photos/") "view")
    ltac:(discriminate) eq_refl eq_refl eq_refl ltac:(vm_compute; reflexivity) eq_refl
    ltac:(vm_compute; discriminate))).
Defined.

Lemma path_floor_witness :
  let rows := [row 1 (js "d") (js "docs/reports") "full"; row 2 (js "d") (js "docs") "view"] in
  memberPathFloor rows (js "d") (js "docs/reports/2024") = js "docs"
  /\ pathContains (memberPathFloor rows (js "d") (js "docs/reports/2024")) (js "docs/reports") = true.
Proof.
  intros rows. split; [vm_compute; reflexivity|].
  apply (proj1 (proj2 (path_floor rows (js "d") (js "docs/reports/2024")))
           (row 1 (js "d") (js "docs/reports") "full")).
  - left.
  - vm_compute. reflexivity.
Defined.

Lemma writable_roots_witness :
  let rows := [row 1 (js "d") (js "docs") "full"; row 2 (js "d") (js "docs/") "upload"] in
  root_key (js "d") (js "docs") ∈ root_keys (memberWritableRoots (fun _ => true) (fun _ => []) rows).
Proof.
  intros rows.
  apply (proj1 (proj2 (writable_roots (fun _ => true) (fun _ => []) rows)) (row 1 (js "d") (js "docs") "full")).
  - left.
  - vm_compute. reflexivity.
Defined.
