(* ===== verification/Zip.v ===== *)
(** * Zip writer: [luna/connect/web/src/lib/zip.js]

    CRC-32 with its table, on 32-bit integers as JavaScript's bit operators see them, the size check,
    and the store-only archive as bytes.  Local time ([Date]) is a section variable. *)

From S2P Require Import Prelude JsString.

(** ** 32-bit operators *)

Definition to_uint32 (x : Z) : Z := x mod 2 ^ 32.
Definition to_int32 (x : Z) : Z :=
  let m := to_uint32 x in if m <? 2 ^ 31 then m else m - 2 ^ 32.

Definition js_xor (a b : Z) : Z := Z.lxor (to_int32 a) (to_int32 b).
Definition js_and (a b : Z) : Z := Z.land (to_int32 a) (to_int32 b).
Definition js_or (a b : Z) : Z := Z.lor (to_int32 a) (to_int32 b).
Definition js_shl (a k : Z) : Z := to_int32 (Z.shiftl (to_int32 a) k).
Definition js_shr (a k : Z) : Z := Z.shiftr (to_int32 a) k.
Definition js_ushr (a k : Z) : Z := Z.shiftr (to_uint32 a) k.

(** ** Constants *)

Definition ZIP_MAX_BYTES : Z := 0xffffffff.
Definition ZIP_MAX_FILES : Z := 65535.
Definition LOCAL_SIG : Z := 0x04034b50.
Definition CENTRAL_SIG : Z := 0x02014b50.
Definition END_SIG : Z := 0x06054b50.
Definition UTF8_FLAG : Z := 0x0800.
Definition VERSION : Z := 20.

(** ** CRC-32 *)

Definition POLY : Z := 0xedb88320.

(** One turn of the inner loop of the table. *)
Definition table_step (c : Z) : Z :=
  if negb (js_and c 1 =? 0) then js_xor POLY (js_ushr c 1) else js_ushr c 1.

Definition table_entry (n : Z) : Z := js_ushr (Nat.iter 8 table_step n) 0.

Definition CRC_TABLE : list Z := map (fun n => table_entry (Z.of_nat n)) (seq 0 256).

Definition crc_byte (c b : Z) : Z :=
  js_xor (nth (Z.to_nat (js_and (js_xor c b) 0xff)) CRC_TABLE 0) (js_ushr c 8).

Definition crc32 (bytes : list Z) (previous : Z) : Z :=
  let c := js_ushr (js_xor previous 0xffffffff) 0 in
  js_ushr (js_xor (foldl crc_byte c bytes) 0xffffffff) 0.

(** ** The size check *)

(** [new TextEncoder().encode(s)] as bytes. *)
Definition encode (s : jstr) : list Z := map Z.of_N (utf8_encode s).

Record sized_file := { sf_path : jstr; sf_size : Z }.

(** The loop over the files; [None] is the ZipTooBigError. *)
Fixpoint fits_loop (files : list sized_file) (total : Z) : option unit :=
  match files with
  | [] => Some tt
  | f :: files =>
      let nameBytes := Z.of_nat (length (encode (sf_path f))) in
      let total := total + (sf_size f + (30 + nameBytes) + (46 + nameBytes)) in
      if ZIP_MAX_BYTES <? total then None else fits_loop files total
  end.

Definition checkZipFits (files : list sized_file) : option unit :=
  if ZIP_MAX_FILES <? Z.of_nat (length files) then None else fits_loop files 22.

(** ** Little-endian buffers *)

Definition le16 (v : Z) : list Z := [v mod 256; (v / 256) mod 256].
Definition le32 (v : Z) : list Z :=
  [v mod 256; (v / 256) mod 256; (v / 65536) mod 256; (v / 16777216) mod 256].

(** [view.setUint16(offset, v, true)] and [setUint32] on the buffer's bytes. *)
Definition put (at_ : nat) (bytes buf : list Z) : list Z :=
  take at_ buf ++ bytes ++ drop (at_ + length bytes) buf.
Definition setUint16 (at_ : nat) (v : Z) (buf : list Z) : list Z := put at_ (le16 v) buf.
Definition setUint32 (at_ : nat) (v : Z) (buf : list Z) : list Z := put at_ (le32 v) buf.

Definition local_header (time date crc size nameLen : Z) : list Z :=
  replicate 30 0
    ▷ setUint32 0 LOCAL_SIG ▷ setUint16 4 VERSION ▷ setUint16 6 UTF8_FLAG ▷ setUint16 8 0
    ▷ setUint16 10 time ▷ setUint16 12 date ▷ setUint32 14 crc ▷ setUint32 18 size
    ▷ setUint32 22 size ▷ setUint16 26 nameLen ▷ setUint16 28 0.

Definition central_header (time date crc size nameLen offset : Z) : list Z :=
  replicate 46 0
    ▷ setUint32 0 CENTRAL_SIG ▷ setUint16 4 VERSION ▷ setUint16 6 VERSION ▷ setUint16 8 UTF8_FLAG
    ▷ setUint16 10 0 ▷ setUint16 12 time ▷ setUint16 14 date ▷ setUint32 16 crc
    ▷ setUint32 20 size ▷ setUint32 24 size ▷ setUint16 28 nameLen ▷ setUint16 30 0
    ▷ setUint16 32 0 ▷ setUint16 34 0 ▷ setUint16 36 0 ▷ setUint32 38 0 ▷ setUint32 42 offset.

Definition end_record (count centralSize offset : Z) : list Z :=
  replicate 22 0
    ▷ setUint32 0 END_SIG ▷ setUint16 4 0 ▷ setUint16 6 0 ▷ setUint16 8 count
    ▷ setUint16 10 count ▷ setUint32 12 centralSize ▷ setUint32 16 offset ▷ setUint16 20 0.

(** ** The archive *)

(** A file: its bytes ([Uint8Array], or what the [Blob] reads as) and its Unix time. *)
Record zip_file := { zf_path : jstr; zf_data : list Z; zf_mtime : Z }.

(** What the code reads of a [Date], in local time; months count from 0. *)
Record local_time := {
  lt_year : Z; lt_month : Z; lt_day : Z; lt_hours : Z; lt_minutes : Z; lt_seconds : Z;
}.

Section Archive.
(** [new Date(mtime * 1000)] *)
Context (local_date : Z -> local_time).

Definition dosTimeDate (mtime : Z) : Z * Z :=
  let d := local_date mtime in
  if lt_year d <? 1980 then (0, js_or (js_or (js_shl 0 9) (js_shl 1 5)) 1)
  else
    (js_or (js_or (js_shl (lt_hours d) 11) (js_shl (lt_minutes d) 5)) (js_shr (lt_seconds d) 1),
     js_or (js_or (js_shl (lt_year d - 1980) 9) (js_shl (lt_month d + 1) 5)) (lt_day d)).

(** The loop variables of [buildZip]. *)
Record zip_state := { zs_parts : list (list Z); zs_central : list (list Z); zs_offset : Z }.

Definition add_file (st : zip_state) (f : zip_file) : zip_state :=
  let name := encode (zf_path f) in
  let bytes := zf_data f in
  let size := Z.of_nat (length bytes) in
  let crc := crc32 bytes 0 in
  let '(time, date) := dosTimeDate (zf_mtime f) in
  let header := local_header time date crc size (Z.of_nat (length name)) in
  let entry := central_header time date crc size (Z.of_nat (length name)) (zs_offset st) in
  {| zs_parts := zs_parts st ++ [header; name; bytes];
     zs_central := zs_central st ++ [entry; name];
     zs_offset := zs_offset st + (Z.of_nat (length header) + Z.of_nat (length name) + size) |}.

Definition buildZip (files : list zip_file) : option (list Z) :=
  checkZipFits (map (fun f => {| sf_path := zf_path f; sf_size := Z.of_nat (length (zf_data f)) |}) files) ≫= fun _ =>
  let st := foldl add_file {| zs_parts := []; zs_central := []; zs_offset := 0 |} files in
  let centralSize := foldl (fun sum part => sum + Z.of_nat (length part)) 0 (zs_central st) in
  let fin := end_record (Z.of_nat (length files)) centralSize (zs_offset st) in
  Some (concat (zs_parts st) ++ concat (zs_central st) ++ fin).

End Archive.

Example crc_check : crc32 [49; 50; 51; 52; 53; 54; 55; 56; 57] 0 = 0xcbf43926.
Proof. vm_compute. reflexivity. Qed.
