(* ===== verification/NotFound.v ===== *)
(** * The not-found page: [luna/web/src/lib/notFoundHelpers.js]

    The guess at what a dead link meant: edit distance, the ranking of known pages, a stable quip. *)

From S2P Require Import Prelude JsString Zip.

(** ** Definitions *)

Fixpoint hash_loop (hash : Z) (value : jstr) : Z :=
  match value with
  | [] => hash
  | c :: value => hash_loop (js_xor (hash * 33) (Z.of_N c)) value
  end.
Definition hashString (value : jstr) : Z := js_ushr (hash_loop 5381 value) 0.

(** [value.replace(/\/+$/, "")] *)
Definition strip_trailing (s : jstr) : jstr :=
  let strip := fix strip s := match s with c :: r => if (c =? c_slash)%N then strip r else s | [] => [] end in rev (strip (rev s)).

Definition normalizePathname (pathname : jstr) : jstr :=
  let value := trim pathname in
  if negb (truthy value) then js "/" else str_or (strip_trailing value) (js "/").

Definition path_parts (pathname : jstr) : list jstr := List.filter truthy (split_on c_slash pathname).
Definition getPrimarySegment (pathname : jstr) : jstr := default [] (head (path_parts pathname)).

(** One turn of the outer loop: [current] from [previous], the cell to the left being [left]. *)
Fixpoint lev_row (bCode : N) (a : jstr) (previous : list Z) (left : Z) : list Z :=
  match a, previous with
  | c :: a, diag :: ((up :: _) as previous) =>
      let cost := if (c =? bCode)%N then 0 else 1 in
      let cell := Z.min (Z.min (left + 1) (up + 1)) (diag + cost) in
      cell :: lev_row bCode a previous cell
  | _, _ => []
  end.

(** The outer loop over [b]; [j] is the index of its next character. *)
Fixpoint lev_rows (a b : jstr) (j : Z) (previous : list Z) : list Z :=
  match b with
  | [] => previous
  | bCode :: b => lev_rows a b (j + 1) (j :: lev_row bCode a previous j)
  end.

Definition levenshteinDistance (first second : jstr) : Z :=
  if bool_decide (first = second) then 0
  else if negb (truthy first) then Z.of_nat (length second)
  else if negb (truthy second) then Z.of_nat (length first)
  else
    let '(a, b) := if Nat.ltb (length second) (length first) then (second, first) else (first, second) in
    let previous := map Z.of_nat (seq 0 (S (length a))) in
    default 0 (last (lev_rows a b 1 previous)).

Record known_page := { kp_to : jstr; kp_label : jstr; kp_match : option jstr }.

(** [None] is [Infinity] in [sp_lettersOff] and [sp_score]. *)
Record scored_page := {
  sp_page : known_page; sp_candidatePath : jstr; sp_candidateSegment : jstr; sp_isPathPrefix : bool;
  sp_isTypedPrefixOfCandidate : bool; sp_isCandidatePrefixOfTyped : bool; sp_lettersOff : option Z; sp_score : option Z;
  sp_isClose : bool;
}.

(** The scoring of one page.  Paths reach it percent-encoded, so that lower case is that of ASCII. *)
Definition score_page (pathnameForMatch : jstr) (page : known_page) : scored_page :=
  let primarySegment := getPrimarySegment pathnameForMatch in
  let minCharsForGuess := 2%nat in
  let typedIsShort := Nat.ltb (length primarySegment) minCharsForGuess in
  let candidatePath := to_lower (default (kp_to page) (kp_match page)) in
  let candidateSegment := getPrimarySegment candidatePath in
  let isPathPrefix := bool_decide (pathnameForMatch = candidatePath) || starts_with (candidatePath ++ [c_slash]) pathnameForMatch in
  let isTypedPrefixOfCandidate := negb typedIsShort && starts_with primarySegment candidateSegment in
  let isCandidatePrefixOfTyped := starts_with candidateSegment primarySegment && Nat.leb minCharsForGuess (length candidateSegment) in
  let lettersOff := if typedIsShort then None else Some (levenshteinDistance primarySegment candidateSegment) in
  let prefix := isPathPrefix || isTypedPrefixOfCandidate || isCandidatePrefixOfTyped in
  let score := if prefix then Some 0 else lettersOff in
  let maxLen := Z.max (Z.of_nat (length primarySegment)) (Z.of_nat (length candidateSegment)) in
  let maxTypos := if maxLen <=? 4 then 2 else if maxLen <=? 8 then 3 else 4 in
  let isClose := prefix
    || (negb typedIsShort && Nat.leb 3 (length primarySegment)
        && match lettersOff with Some n => (n <=? maxTypos) && (2 * n <=? Z.max 1 maxLen) | None => false end) in
  {| sp_page := page; sp_candidatePath := candidatePath; sp_candidateSegment := candidateSegment; sp_isPathPrefix := isPathPrefix;
     sp_isTypedPrefixOfCandidate := isTypedPrefixOfCandidate; sp_isCandidatePrefixOfTyped := isCandidatePrefixOfTyped;
     sp_lettersOff := lettersOff; sp_score := score; sp_isClose := isClose |}.

(** [a - b] of two that differ, up to its sign. *)
Definition minus (a b : option Z) : Z :=
  match a, b with Some a, Some b => a - b | None, Some _ => 1 | Some _, None => -1 | None, None => 0 end.

Section Ranking.
(** [a.localeCompare(b)] *)
Context (localeCompare : jstr -> jstr -> Z).

Definition compare_scored (a b : scored_page) : Z :=
  if negb (bool_decide (sp_score a = sp_score b)) then minus (sp_score a) (sp_score b)
  else if negb (bool_decide (sp_lettersOff a = sp_lettersOff b)) then minus (sp_lettersOff a) (sp_lettersOff b)
  else if negb (Nat.eqb (length (sp_candidatePath a)) (length (sp_candidatePath b)))
  then Z.of_nat (length (sp_candidatePath a)) - Z.of_nat (length (sp_candidatePath b))
  else localeCompare (kp_label (sp_page a)) (kp_label (sp_page b)).

Definition scoreKnownPages (normalizedPathname : jstr) (knownPages : list known_page) : list scored_page :=
  js_sort compare_scored (map (score_page (to_lower normalizedPathname)) knownPages).
End Ranking.

(** [undefined] where the list is empty: the code gives the empty string before it indexes. *)
Definition pickStableQuip (attemptedPath : jstr) (quips : list jstr) : option jstr :=
  match quips with
  | [] => Some []
  | _ => quips !! Z.to_nat (hashString attemptedPath mod Z.of_nat (length quips))
  end.

(** The loop of [bestDistinctMatches]. *)
Fixpoint best_loop (bestScore : option Z) (limit : nat) (seen : list jstr) (out close : list scored_page) : list scored_page :=
  match close with
  | [] => out
  | m :: close =>
      if negb (bool_decide (sp_score m = bestScore)) || bool_decide (kp_to (sp_page m) ∈ seen)
      then best_loop bestScore limit seen out close
      else
        let out := out ++ [m] in
        if Nat.leb limit (length out) then out else best_loop bestScore limit (kp_to (sp_page m) :: seen) out close
  end.

Definition bestDistinctMatches (scored : list scored_page) (limit : nat) : list scored_page :=
  match List.filter sp_isClose scored with
  | [] => []
  | (m :: _) as close => best_loop (sp_score m) limit [] [] close
  end.

(** ** Edit scripts *)

(** [n] single-character insertions, deletions and replacements turn [a] into [b]. *)
Inductive edits : jstr -> jstr -> Z -> Prop :=
| ed_done : edits [] [] 0
| ed_keep c a b n : edits a b n -> edits (c :: a) (c :: b) n
| ed_replace c d a b n : edits a b n -> edits (c :: a) (d :: b) (n + 1)
| ed_insert d a b n : edits a b n -> edits a (d :: b) (n + 1)
| ed_delete c a b n : edits a b n -> edits (c :: a) b (n + 1).

Definition least_edits (a b : jstr) (d : Z) : Prop := edits a b d /\ forall n, edits a b n -> d <= n.

Lemma edits_sym (a b : jstr) (n : Z) : edits a b n -> edits b a n.
Proof. induction 1; by constructor. Qed.

Lemma edits_nonneg (a b : jstr) (n : Z) : edits a b n -> 0 <= n.
Proof. induction 1; lia. Qed.

Lemma edits_length (a b : jstr) (n : Z) : edits a b n -> Z.of_nat (length b) - Z.of_nat (length a) <= n.
Proof. induction 1; cbn [length]; lia. Qed.

Lemma edits_same (a : jstr) : edits a a 0.
Proof. induction a; by constructor. Qed.

Lemma edits_nil (b : jstr) : edits [] b (Z.of_nat (length b)).
Proof. induction b as [|d b IH]; [constructor|]. replace (Z.of_nat (length (d :: b))) with (Z.of_nat (length b) + 1) by (cbn [length]; lia). by constructor. Qed.

Lemma edits_app (a b c d : jstr) (n m : Z) : edits a b n -> edits c d m -> edits (a ++ c) (b ++ d) (n + m).
Proof.
  intros H Hm. induction H; cbn [app]; rewrite ?Z.add_0_l; try done; try (by constructor);
    rewrite <- Z.add_assoc, (Z.add_comm 1), Z.add_assoc; by constructor.
Qed.

(** A script may as well work from the end. *)
Lemma edits_rev (a b : jstr) (n : Z) : edits a b n -> edits (rev a) (rev b) n.
Proof.
  induction 1 as [|c a b n H IH|c d a b n H IH|d a b n H IH|c a b n H IH]; cbn [rev].
  - constructor.
  - rewrite <- (Z.add_0_r n). apply edits_app; [done | apply edits_same].
  - apply edits_app; [done|]. exact (ed_replace c d [] [] 0 ed_done).
  - rewrite <- (app_nil_r (rev a)). apply edits_app; [done|]. exact (ed_insert d [] [] 0 ed_done).
  - rewrite <- (app_nil_r (rev b)). apply edits_app; [done|]. exact (ed_delete c [] [] 0 ed_done).
Qed.

Lemma least_rev (a b : jstr) (d : Z) : least_edits (rev a) (rev b) d -> least_edits a b d.
Proof.
  intros [H1 H2]. split; [apply edits_rev in H1; by rewrite !rev_involutive in H1 | intros n Hn; by apply H2, edits_rev].
Qed.

Lemma least_sym (a b : jstr) (d : Z) : least_edits a b d -> least_edits b a d.
Proof. intros [H1 H2]. split; [by apply edits_sym | intros n Hn; by apply H2, edits_sym]. Qed.

Lemma least_nil (b : jstr) : least_edits [] b (Z.of_nat (length b)).
Proof. split; [apply edits_nil|]. intros n Hn%edits_length. cbn in Hn. lia. Qed.

Lemma least_same (a : jstr) : least_edits a a 0.
Proof. split; [apply edits_same | apply edits_nonneg]. Qed.

(** The recurrence of a cell. *)
Lemma least_step (x y : N) (p q : jstr) (diag left up : Z) :
  least_edits p q diag -> least_edits p (y :: q) left -> least_edits (x :: p) q up ->
  least_edits (x :: p) (y :: q) (Z.min (Z.min (left + 1) (up + 1)) (diag + (if (x =? y)%N then 0 else 1))).
Proof.
  intros [D1 D2] [L1 L2] [U1 U2]. split.
  - destruct (Z.min_spec (Z.min (left + 1) (up + 1)) (diag + (if (x =? y)%N then 0 else 1))) as [[_ ->]|[_ ->]].
    + destruct (Z.min_spec (left + 1) (up + 1)) as [[_ ->]|[_ ->]]; by constructor.
    + destruct (N.eqb_spec x y) as [->|]; [rewrite Z.add_0_r|]; by constructor.
  - intros n H. inversion H as [|c a b m Hm|c d a b m Hm|d a b m Hm|c a b m Hm]; subst.
    + apply D2 in Hm. rewrite N.eqb_refl. lia.
    + apply D2 in Hm. destruct (x =? y)%N; lia.
    + apply U2 in Hm. lia.
    + apply L2 in Hm. lia.
Qed.

(** A row: the distances from [q] of [p] and of its extensions by the characters of [a]. *)
Fixpoint cells (p q a : jstr) (l : list Z) {struct l} : Prop :=
  match l with
  | [] => False
  | v :: l => least_edits p q v /\ match a with [] => l = [] | c :: a => cells (c :: p) q a l end
  end.

Lemma cells_row (y : N) (a p q : jstr) (prev : list Z) (left : Z) : cells p q a prev -> least_edits p (y :: q) left ->
  cells p (y :: q) a (left :: lev_row y a prev left).
Proof.
  revert p prev left. induction a as [|c a IH]; intros p prev left Hc Hl; [by split|].
  destruct prev as [|diag [|up prev]]; [done | by destruct Hc as [_ []] |]. destruct Hc as [Hd Hc]. split; [done|].
  cbn [lev_row]. apply IH; [exact Hc|]. apply least_step; [done..|]. by destruct Hc.
Qed.

Lemma cells_rows (a b q : jstr) (prev : list Z) : cells [] q a prev -> cells [] (rev b ++ q) a (lev_rows a b (Z.of_nat (length q) + 1) prev).
Proof.
  revert q prev. induction b as [|y b IH]; intros q prev Hc; [done|]. cbn [lev_rows rev]. rewrite <- app_assoc. cbn [app].
  replace (Z.of_nat (length q) + 1 + 1) with (Z.of_nat (length (y :: q)) + 1) by (cbn [length]; lia). apply IH.
  apply cells_row; [done|]. replace (Z.of_nat (length q) + 1) with (Z.of_nat (length (y :: q))) by (cbn [length]; lia). apply least_nil.
Qed.

Lemma cells_first (a p : jstr) : cells p [] a (map Z.of_nat (seq (length p) (S (length a)))).
Proof.
  revert p. induction a as [|c a IH]; intros p; (split; [by apply least_sym, least_nil|]); [done|]. apply (IH (c :: p)).
Qed.

Lemma cells_last (a p q : jstr) (l : list Z) : cells p q a l -> least_edits (rev a ++ p) q (default 0 (last l)).
Proof.
  revert p l. induction a as [|c a IH]; intros p l; destruct l as [|v l]; try done; intros [Hv Hl]; [by subst|].
  cbn [rev]. rewrite <- app_assoc. cbn [app]. destruct l as [|w l]; [done|]. by apply (IH (c :: p) (w :: l)).
Qed.

(** C35: the two-row loop computes the edit distance: no script of insertions, deletions and replacements that turns one
    string into the other is shorter than [levenshteinDistance] says, and one is as long. *)
Theorem levenshtein_is_least (first second : jstr) : least_edits first second (levenshteinDistance first second).
Proof.
  unfold levenshteinDistance. case_bool_decide as E; [subst; apply least_same|].
  destruct first as [|c first]; [apply least_nil|]. destruct second as [|d second]; [apply least_sym, least_nil|]. cbn [truthy negb].
  assert (G : forall a b, least_edits a b (default 0 (last (lev_rows a b 1 (map Z.of_nat (seq 0 (S (length a)))))))).
  { intros a b. apply least_rev. pose proof (cells_last _ _ _ _ (cells_rows a b [] _ (cells_first a []))) as H. by rewrite !app_nil_r in H. }
  destruct (Nat.ltb _ _); [apply least_sym|]; apply G.
Qed.

(** ** The hash *)

Lemma int32_range (x : Z) : - 2 ^ 31 <= to_int32 x < 2 ^ 31.
Proof. unfold to_int32, to_uint32. pose proof (Z.mod_pos_bound x (2 ^ 32) ltac:(lia)). cbv zeta. case_match; lia. Qed.

Lemma int32_sign (x : Z) : - 2 ^ 31 <= x < 2 ^ 31 <-> (Z.shiftr x 31 = 0 \/ Z.shiftr x 31 = -1).
Proof. rewrite Z.shiftr_div_pow2 by lia. split; intros H; [|Z.to_euclidean_division_equations; lia]. Z.to_euclidean_division_equations. lia. Qed.

Lemma xor_range (a b : Z) : - 2 ^ 31 <= js_xor a b < 2 ^ 31.
Proof.
  unfold js_xor. apply int32_sign. rewrite Z.shiftr_lxor.
  destruct (proj1 (int32_sign _) (int32_range a)) as [-> | ->], (proj1 (int32_sign _) (int32_range b)) as [-> | ->]; cbn; auto.
Qed.

(** The hash stays exact, and every path has a quip: from a 32-bit hash the product of the next turn is an integer
    that doubles hold, and the index taken from the hash is one of the list. *)
Theorem quip_is_stable (attemptedPath : jstr) (quips : list jstr) : quips <> [] ->
  (forall hash c, - 2 ^ 31 <= hash < 2 ^ 31 -> Z.abs (hash * 33) < 2 ^ 53 /\ - 2 ^ 31 <= js_xor (hash * 33) c < 2 ^ 31)
  /\ 0 <= hashString attemptedPath < 2 ^ 32 /\ exists q, pickStableQuip attemptedPath quips = Some q /\ q ∈ quips.
Proof.
  intros Hq. split; [|split].
  - intros hash c Hh. split; [lia | apply xor_range].
  - unfold hashString, js_ushr, to_uint32. rewrite Z.shiftr_0_r. by apply Z.mod_pos_bound.
  - assert (L : (0 < length quips)%nat) by (destruct quips; [done | cbn; lia]).
    destruct (lookup_lt_is_Some_2 quips (Z.to_nat (hashString attemptedPath mod Z.of_nat (length quips)))) as [q Eq].
    + pose proof (Z.mod_pos_bound (hashString attemptedPath) (Z.of_nat (length quips)) ltac:(lia)). lia.
    + exists q. split; [by destruct quips | by eapply list_elem_of_lookup_2].
Qed.

Lemma quip_is_stable_witness : exists q, pickStableQuip (js "/nope") [js "a"; js "b"; js "c"] = Some q /\ q ∈ [js "a"; js "b"; js "c"].
Proof. exact (proj2 (proj2 (quip_is_stable (js "/nope") [js "a"; js "b"; js "c"] ltac:(discriminate)))). Defined.

(** ** Suggestions *)

Lemma best_loop_ok (best : option Z) (limit : nat) (close out : list scored_page) (seen : list jstr) :
  let to m := kp_to (sp_page m) in
  (forall x, x ∈ seen <-> x ∈ map to out) -> NoDup (map to out) -> Forall (fun m => sp_score m = best) out -> (length out < limit)%nat ->
  exists more, best_loop best limit seen out close = out ++ more /\ (forall m, m ∈ more -> m ∈ close) /\ NoDup (map to (out ++ more))
    /\ Forall (fun m => sp_score m = best) (out ++ more) /\ (length (out ++ more) <= limit)%nat
    /\ ((length (out ++ more) < limit)%nat -> forall m, m ∈ close -> sp_score m = best -> to m ∈ map to (out ++ more)).
Proof.
  intros to. revert out seen. induction close as [|m close IH]; intros out seen Hs Hn Hb Hl; cbn [best_loop].
  - exists []. rewrite app_nil_r. split_and!; [done | by intros m Hm%not_elem_of_nil | done | done | lia | by intros _ m Hm%not_elem_of_nil].
  - change (kp_to (sp_page m)) with (to m). destruct (negb (bool_decide (sp_score m = best)) || bool_decide (to m ∈ seen)) eqn:E.
    + destruct (IH out seen Hs Hn Hb Hl) as (more & -> & H1 & H2 & H3 & H4 & H5). exists more. split_and!; try done.
      * intros x Hx. right. by apply H1.
      * intros Hlt x [->|Hx]%elem_of_cons Hsx; [|by apply H5]. rewrite (bool_decide_true _ Hsx) in E. cbn [negb orb] in E.
        apply bool_decide_eq_true, Hs in E. rewrite map_app. apply elem_of_app. by left.
    + apply orb_false_iff in E as [E1%negb_false_iff%bool_decide_eq_true E2%bool_decide_eq_false].
      assert (Hn' : NoDup (map to (out ++ [m]))).
      { rewrite map_app. apply NoDup_app. split_and!; [done | | apply NoDup_singleton]. intros x Hx ->%list_elem_of_singleton. apply E2. by apply Hs. }
      assert (Hb' : Forall (fun m => sp_score m = best) (out ++ [m])) by (apply Forall_app; split; [done | by constructor]).
      destruct (Nat.leb_spec limit (length (out ++ [m]))) as [Hge|Hlt].
      * exists [m]. rewrite length_app in *. cbn [length] in *. split_and!; [done | intros x ->%list_elem_of_singleton; by left | done | done | lia | lia].
      * destruct (IH (out ++ [m]) (to m :: seen)) as (more & -> & H1 & H2 & H3 & H4 & H5); try done.
        { intros x. rewrite map_app, elem_of_app, elem_of_cons, Hs. cbn [map]. rewrite list_elem_of_singleton. tauto. }
        exists (m :: more). rewrite <- app_assoc in *. cbn [app] in *. split_and!; try done.
        -- intros x [->|Hx]%elem_of_cons; [by left | right; by apply H1].
        -- intros Hlt' x [->|Hx]%elem_of_cons Hsx; [|by apply H5]. rewrite map_app. apply elem_of_app. right. by left.
Qed.

(** The suggestions are at most [limit], each of another destination, all close to the typed path and all of the
    score of the first close page; if there is room for more, no destination of that score is left out. *)
Theorem suggestions_are_distinct (scored : list scored_page) (limit : nat) : (0 < limit)%nat ->
  let out := bestDistinctMatches scored limit in let to m := kp_to (sp_page m) in
  (length out <= limit)%nat /\ NoDup (map to out)
  /\ (forall m, m ∈ out -> m ∈ scored /\ sp_isClose m = true /\ head (List.filter sp_isClose scored) ≫= sp_score = sp_score m)
  /\ ((length out < limit)%nat -> forall m, m ∈ scored -> sp_isClose m = true ->
        head (List.filter sp_isClose scored) ≫= sp_score = sp_score m -> to m ∈ map to out).
Proof.
  intros Hl. cbv zeta. unfold bestDistinctMatches. set (close := List.filter sp_isClose scored).
  assert (Hc : forall m, m ∈ close <-> m ∈ scored /\ sp_isClose m = true) by (intros m; unfold close; rewrite !list_elem_of_In; apply filter_In).
  destruct close as [|b close'] eqn:E; [split_and!; [cbn; lia | constructor | by intros m Hm%not_elem_of_nil|]|].
  { intros _ m H1 H2. by pose proof (proj2 (Hc m) (conj H1 H2)) as Hm%not_elem_of_nil. }
  cbn [head mbind option_bind].
  destruct (best_loop_ok (sp_score b) limit (b :: close') [] []) as (more & -> & H1 & H2 & H3 & H4 & H5);
    [intros x; done | constructor | constructor | done |]. cbn [app] in *. split_and!; try done.
  - intros m Hm. destruct (proj1 (Hc m) (H1 m Hm)) as [? ?]. split_and!; [done..|]. rewrite Forall_forall in H3. symmetry. by apply H3.
  - intros Hlt m Hm Hcl Hs. apply H5; [done | by apply Hc | done].
Qed.

Lemma suggestions_are_distinct_witness : exists out, bestDistinctMatches (scoreKnownPages (fun _ _ => 0) (js "/fiels")
    [{| kp_to := js "/settings"; kp_label := js "Settings"; kp_match := None |}; {| kp_to := js "/files"; kp_label := js "Files"; kp_match := None |};
     {| kp_to := js "/files"; kp_label := js "Files"; kp_match := Some (js "/field") |}]) 2 = out
  /\ NoDup (map (fun m => kp_to (sp_page m)) out) /\ map (fun m => kp_to (sp_page m)) out = [js "/files"].
Proof.
  eexists. split; [reflexivity|]. split; [|vm_compute; reflexivity].
  match goal with |- NoDup (map _ (bestDistinctMatches ?s _)) => destruct (suggestions_are_distinct s 2 ltac:(lia)) as (_ & N & _); exact N end.
Defined.

(** A comparison by a key, ties decided by another. *)
Section Lexicographic.
Context {A K : Type} `{EqDecision K} (k : A -> K) (d : K -> K -> Z) (tie : A -> A -> Z).
Context (d_total : forall x y, d x y <= 0 \/ d y x <= 0) (d_anti : forall x y, d x y <= 0 -> d y x <= 0 -> x = y)
  (d_trans : forall x y z, d x y <= 0 -> d y z <= 0 -> d x z <= 0).

Definition lexically (x y : A) : Z := if negb (bool_decide (k x = k y)) then d (k x) (k y) else tie x y.

Lemma lexically_le (x y : A) : lexically x y <= 0 <-> (k x <> k y /\ d (k x) (k y) <= 0) \/ (k x = k y /\ tie x y <= 0).
Proof. unfold lexically. case_bool_decide; cbn [negb]; naive_solver. Qed.

Lemma lexically_total : (forall x y, tie x y <= 0 \/ tie y x <= 0) -> forall x y, lexically x y <= 0 \/ lexically y x <= 0.
Proof. intros Ht x y. rewrite !lexically_le. destruct (decide (k x = k y)) as [E|E]; destruct (Ht x y), (d_total (k x) (k y)); naive_solver. Qed.

Lemma lexically_trans : (forall x y z, tie x y <= 0 -> tie y z <= 0 -> tie x z <= 0) ->
  forall x y z, lexically x y <= 0 -> lexically y z <= 0 -> lexically x z <= 0.
Proof.
  intros Ht x y z. rewrite !lexically_le. intros [[N1 H1]|[E1 H1]] [[N2 H2]|[E2 H2]].
  - left. split; [|by apply (d_trans _ (k y))]. intros E. apply N1. apply d_anti; [done | by rewrite E].
  - left. rewrite <- E2. done.
  - left. rewrite E1. done.
  - right. split; [congruence|]. by apply (Ht x y z).
Qed.
End Lexicographic.

Section Ranked.
Context (localeCompare : jstr -> jstr -> Z).
Context (lc_total : forall x y, localeCompare x y <= 0 \/ localeCompare y x <= 0)
  (lc_trans : forall x y z, localeCompare x y <= 0 -> localeCompare y z <= 0 -> localeCompare x z <= 0).

Lemma minus_total (x y : option Z) : minus x y <= 0 \/ minus y x <= 0.
Proof. destruct x, y; cbn; lia. Qed.
Lemma minus_anti (x y : option Z) : minus x y <= 0 -> minus y x <= 0 -> x = y.
Proof. destruct x, y; cbn; intros; f_equal; lia. Qed.
Lemma minus_trans (x y z : option Z) : minus x y <= 0 -> minus y z <= 0 -> minus x z <= 0.
Proof. destruct x, y, z; cbn; lia. Qed.

#[local] Definition by_label (a b : scored_page) : Z := localeCompare (kp_label (sp_page a)) (kp_label (sp_page b)).
#[local] Definition by_length : scored_page -> scored_page -> Z :=
  lexically (fun m => length (sp_candidatePath m)) (fun x y => Z.of_nat x - Z.of_nat y) by_label.
#[local] Definition by_letters : scored_page -> scored_page -> Z := lexically sp_lettersOff minus by_length.

Lemma compare_lexically (a b : scored_page) : compare_scored localeCompare a b = lexically sp_score minus by_letters a b.
Proof.
  unfold compare_scored, lexically, by_letters, by_length, lexically. destruct (negb (bool_decide (sp_score a = _))); [done|].
  destruct (negb (bool_decide (sp_lettersOff a = _))); [done|].
  destruct (Nat.eqb_spec (length (sp_candidatePath a)) (length (sp_candidatePath b))) as [E|E];
    [by rewrite bool_decide_true | by rewrite bool_decide_false].
Qed.

Lemma compare_total (a b : scored_page) : compare_scored localeCompare a b <= 0 \/ compare_scored localeCompare b a <= 0.
Proof.
  rewrite !compare_lexically. apply lexically_total; [apply minus_total|]. apply lexically_total; [apply minus_total|].
  apply lexically_total; [intros; lia|]. intros x y. apply lc_total.
Qed.

Lemma compare_trans (a b c : scored_page) : compare_scored localeCompare a b <= 0 -> compare_scored localeCompare b c <= 0 ->
  compare_scored localeCompare a c <= 0.
Proof.
  rewrite !compare_lexically. apply lexically_trans; [apply minus_anti | apply minus_trans|]. apply lexically_trans; [apply minus_anti | apply minus_trans|].
  apply lexically_trans; [intros; lia | intros; lia|]. intros x y z. apply lc_trans.
Qed.

(** Every known page is ranked, and the first close one has the best score of all close ones. *)
Theorem ranking_is_best_first (pathname : jstr) (pages : list known_page) :
  let ranked := scoreKnownPages localeCompare pathname pages in
  Permutation ranked (map (score_page (to_lower pathname)) pages)
  /\ forall b m, head (List.filter sp_isClose ranked) = Some b -> m ∈ ranked -> sp_isClose m = true -> minus (sp_score b) (sp_score m) <= 0.
Proof.
  cbv zeta. unfold scoreKnownPages. set (l := map _ pages). split; [apply js_sort_perm|].
  pose proof (js_sort_sorted (compare_scored localeCompare) (fun _ => True) (fun x y _ _ => compare_total x y)
    (fun x y z _ _ _ => compare_trans x y z) l ltac:(by apply Forall_forall)) as S.
  revert S. generalize (js_sort (compare_scored localeCompare) l). induction 1 as [|x r S IH Hx]; cbn [List.filter]; intros b m Hb Hm Hc; [done|].
  destruct (sp_isClose x) eqn:Ex.
  - injection Hb as <-. apply elem_of_cons in Hm as [->|Hm]; [destruct (sp_score x); cbn; lia|].
    rewrite Forall_forall in Hx. specialize (Hx m Hm). cbn beta in Hx. rewrite compare_lexically, lexically_le in Hx.
    destruct Hx as [[_ Hx]|[-> _]]; [done | destruct (sp_score m); cbn; lia].
  - apply elem_of_cons in Hm as [->|Hm]; [congruence|]. by apply IH.
Qed.
End Ranked.
