(* ===== verification/FileKinds.v ===== *)
(** * Kinds of files: [luna/web/src/lib/fileKinds.js] and the choice of a conversion in [officeConvert.js]

    Which viewer or editor a name opens in, by its extension.  [toLowerCase] follows tables of Unicode that the browser
    has: it is a parameter, the one used on names. *)

From S2P Require Import Prelude JsString.

(** ** Tables *)

Definition IMAGE_EXT : list jstr :=
  [
    js "jpg"; js "jpeg"; js "png"; js "gif"; js "webp"; js "bmp"; js "ico"; js "avif"
  ].
Definition VIDEO_EXT : list jstr :=
  [
    js "mp4"; js "webm"; js "ogv"; js "mov"; js "m4v"
  ].
Definition HEIC_EXT : list jstr :=
  [
    js "heic"; js "heif"
  ].
Definition TEXT_EXT : list jstr :=
  [
    js "txt"; js "text"; js "json"; js "jsonc"; js "jsonl"; js "xml"; js "yaml"; js "yml"; js "toml"; js "ini"; js "cfg"; js "conf";
    js "log"; js "css"; js "scss"; js "less"; js "html"; js "htm"; js "svg"; js "js"; js "jsx"; js "mjs"; js "cjs"; js "ts"; js "tsx";
    js "py"; js "rs"; js "go"; js "java"; js "c"; js "h"; js "cpp"; js "hpp"; js "cs"; js "sh"; js "bash"; js "zsh"; js "fish";
    js "ps1"; js "bat"; js "cmd"; js "env"; js "gitignore"; js "dockerfile"; js "makefile"; js "r"; js "rb"; js "php"; js "sql";
    js "graphql"; js "vue"; js "svelte"
  ].
Definition MARKDOWN_EXT : list jstr :=
  [
    js "md"; js "markdown"
  ].
Definition PDF_EXT : list jstr :=
  [
    js "pdf"
  ].
Definition AUDIO_EXT : list jstr :=
  [
    js "mp3"; js "m4a"; js "aac"; js "ogg"; js "oga"; js "flac"; js "wav"; js "opus"
  ].
Definition ARCHIVE_EXT : list jstr :=
  [
    js "zip"; js "tar"; js "tgz"; js "gz"; js "bz2"; js "xz"; js "7z"; js "rar"
  ].
Definition EBOOK_EXT : list jstr :=
  [
    js "epub"
  ].
Definition COMIC_EXT : list jstr :=
  [
    js "cbz"; js "cbr"
  ].
Definition FONT_EXT : list jstr :=
  [
    js "ttf"; js "otf"; js "woff"; js "woff2"
  ].
Definition NOTEBOOK_EXT : list jstr :=
  [
    js "ipynb"
  ].
Definition GEO_EXT : list jstr :=
  [
    js "geojson"; js "gpx"; js "kml"
  ].
Definition CALENDAR_EXT : list jstr :=
  [
    js "ics"
  ].
Definition CONTACT_EXT : list jstr :=
  [
    js "vcf"
  ].
Definition OFFICE_FORMATS : list (jstr * jstr) :=
  [
    (js "docx", js "word"); (js "docm", js "word"); (js "dotx", js "word"); (js "dotm", js "word"); (js "docxf", js "word");
    (js "oform", js "word"); (js "odt", js "word"); (js "fodt", js "word"); (js "ott", js "word"); (js "rtf", js "word");
    (js "xlsx", js "cell"); (js "xlsm", js "cell"); (js "xltx", js "cell"); (js "xltm", js "cell"); (js "xlsb", js "cell");
    (js "ods", js "cell"); (js "fods", js "cell"); (js "ots", js "cell"); (js "xls", js "cell"); (js "xlt", js "cell");
    (js "pptx", js "slide"); (js "pptm", js "slide"); (js "ppsx", js "slide"); (js "ppsm", js "slide"); (js "potx", js "slide");
    (js "potm", js "slide"); (js "odp", js "slide"); (js "fodp", js "slide"); (js "otp", js "slide"); (js "ppt", js "slide");
    (js "pps", js "slide")
  ].
Definition OFFICE_SAVE_EXT : list jstr :=
  [
    js "docx"; js "dotx"; js "docxf"; js "oform"; js "rtf"; js "odt"; js "ott"; js "xlsx"; js "xltx"; js "xlsb"; js "ods"; js "ots";
    js "pptx"; js "ppsx"; js "potx"; js "odp"; js "otp"
  ].
Definition CSV_EXT : list jstr :=
  [
    js "csv"; js "tsv"
  ].
Definition FORM_EXT : list jstr :=
  [
    js "lunaform"
  ].
Definition DIAGRAM_EXT : list jstr :=
  [
    js "drawio"
  ].
Definition WHITEBOARD_EXT : list jstr :=
  [
    js "excalidraw"
  ].

(** *** Conversions *)

(** A conversion to another format; [cv_convert] says whether the browser can make it. *)
Record conversion := { cv_targetExt : jstr; cv_targetLabel : jstr; cv_convert : bool }.

Definition to_docx (convert : bool) : conversion := {| cv_targetExt := js "docx"; cv_targetLabel := js "document"; cv_convert := convert |}.

Definition BY_KIND : list (jstr * conversion) :=
  [(js "csv", {| cv_targetExt := js "xlsx"; cv_targetLabel := js "spreadsheet"; cv_convert := true |});
   (js "text", to_docx true); (js "markdown", to_docx true); (js "ebook", to_docx true); (js "notebook", to_docx true);
   (js "geo", to_docx true); (js "calendar", to_docx true); (js "contact", to_docx true); (js "pdf", to_docx false)].

Definition HINT_BY_EXT : list (jstr * jstr) :=
  [
    (js "doc", js "docx"); (js "dot", js "docx"); (js "pages", js "docx"); (js "wps", js "docx"); (js "hwp", js "docx");
    (js "hwpx", js "docx"); (js "fb2", js "docx"); (js "mht", js "docx"); (js "mhtml", js "docx"); (js "sxw", js "docx");
    (js "stw", js "docx"); (js "numbers", js "xlsx"); (js "et", js "xlsx"); (js "ett", js "xlsx"); (js "sxc", js "xlsx");
    (js "key", js "pptx"); (js "dps", js "pptx"); (js "dpt", js "pptx"); (js "pot", js "pptx"); (js "sxi", js "pptx")
  ].

Definition TARGET_LABEL : list (jstr * jstr) :=
  [(js "docx", js "document"); (js "xlsx", js "spreadsheet"); (js "pptx", js "presentation")].

(** ** Definitions *)

(** [set.has(ext)] *)
Definition has (ext : jstr) (set : list jstr) : bool := bool_decide (ext ∈ set).

(** The names every object has by its prototype. *)
Definition prototype_names : list jstr :=
  [js "constructor"; js "__defineGetter__"; js "__defineSetter__"; js "hasOwnProperty"; js "__lookupGetter__"; js "__lookupSetter__";
   js "isPrototypeOf"; js "propertyIsEnumerable"; js "toString"; js "valueOf"; js "__proto__"; js "toLocaleString"].

(** [key in object] *)
Definition in_object {A} (key : jstr) (object : list (jstr * A)) : bool := has key (map fst object) || has key prototype_names.

(** [object[key]], where it is truthy: the value, or something the prototype has under that name. *)
Inductive found (A : Type) := Own (a : A) | Inherited.
Arguments Own {A} a.
Arguments Inherited {A}.

Fixpoint own_entry {A} (key : jstr) (object : list (jstr * A)) : option A :=
  match object with [] => None | (k, v) :: object => if bool_decide (k = key) then Some v else own_entry key object end.
Definition get_entry {A} (key : jstr) (object : list (jstr * A)) : option (found A) :=
  match own_entry key object with Some v => Some (Own v) | None => if has key prototype_names then Some Inherited else None end.

Section Kinds.
Context (toLowerCase : jstr -> jstr).

Definition basename (name : jstr) : jstr := List.last (split_on c_slash name) [].

Definition fileExtension (name : jstr) : jstr :=
  let base := basename name in
  let lower := toLowerCase base in
  if ends_with (js ".tar.gz") lower then js "tar.gz"
  else if ends_with (js ".tar.bz2") lower then js "tar.bz2"
  else if ends_with (js ".tar.xz") lower then js "tar.xz"
  else match last_index_of c_dot base with
       | None | Some O => []
       | Some dot => toLowerCase (slice_from (S dot) base)
       end.

Definition isImageFile (name : jstr) : bool := has (fileExtension name) IMAGE_EXT.
Definition isVideoFile (name : jstr) : bool := has (fileExtension name) VIDEO_EXT.
Definition isHeicFile (name : jstr) : bool := has (fileExtension name) HEIC_EXT.

(** [/^(readme|…)$/i] matches no other letters than those of ASCII. *)
Definition plain_name (base : jstr) : bool :=
  has (to_lower base) [js "readme"; js "license"; js "licence"; js "changelog"; js "todo"; js "authors"; js "copying"].

Definition isTextFile (name : jstr) : bool :=
  let ext := fileExtension name in
  if has ext TEXT_EXT then true
  else if ends_with (js ".lunaform.responses") (toLowerCase name) then true
  else if truthy ext then false else plain_name (basename name).

Definition isMarkdownFile (name : jstr) : bool := has (fileExtension name) MARKDOWN_EXT.
Definition isPdfFile (name : jstr) : bool := has (fileExtension name) PDF_EXT.
Definition isAudioFile (name : jstr) : bool := has (fileExtension name) AUDIO_EXT.
Definition isArchiveFile (name : jstr) : bool :=
  let ext := fileExtension name in
  has ext ARCHIVE_EXT || bool_decide (ext = js "tar.gz") || bool_decide (ext = js "tar.bz2") || bool_decide (ext = js "tar.xz").
Definition isEbookFile (name : jstr) : bool := has (fileExtension name) EBOOK_EXT.
Definition isComicFile (name : jstr) : bool := has (fileExtension name) COMIC_EXT.
Definition isFontFile (name : jstr) : bool := has (fileExtension name) FONT_EXT.
Definition isNotebookFile (name : jstr) : bool := has (fileExtension name) NOTEBOOK_EXT.
Definition isGeoFile (name : jstr) : bool := has (fileExtension name) GEO_EXT.
Definition isCalendarFile (name : jstr) : bool := has (fileExtension name) CALENDAR_EXT.
Definition isContactFile (name : jstr) : bool := has (fileExtension name) CONTACT_EXT.
Definition isOfficeFile (name : jstr) : bool := in_object (fileExtension name) OFFICE_FORMATS.
Definition isCsvFile (name : jstr) : bool := has (fileExtension name) CSV_EXT.
Definition isFormFile (name : jstr) : bool := has (fileExtension name) FORM_EXT.
Definition isDiagramFile (name : jstr) : bool :=
  let base := toLowerCase (basename name) in
  has (fileExtension base) DIAGRAM_EXT || ends_with (js ".drawio.svg") base || ends_with (js ".drawio.png") base.
Definition isWhiteboardFile (name : jstr) : bool := has (fileExtension name) WHITEBOARD_EXT.

(** The tests of [openableKind] in their order. *)
Definition kind_tests : list ((jstr -> bool) * jstr) :=
  [(isFormFile, js "form"); (isDiagramFile, js "diagram"); (isWhiteboardFile, js "whiteboard"); (isImageFile, js "image");
   (isVideoFile, js "video"); (isOfficeFile, js "office"); (isPdfFile, js "pdf"); (isAudioFile, js "audio"); (isEbookFile, js "ebook");
   (isComicFile, js "comic"); (isFontFile, js "font"); (isNotebookFile, js "notebook"); (isGeoFile, js "geo");
   (isCalendarFile, js "calendar"); (isContactFile, js "contact"); (isArchiveFile, js "archive"); (isCsvFile, js "csv");
   (isMarkdownFile, js "markdown"); (isTextFile, js "text")].

Definition openableKind (name : jstr) : option jstr := snd <$> List.find (fun t => t.1 name) kind_tests.

Definition viewerNeedsSession (name : jstr) : bool :=
  match openableKind name with
  | Some kind => has kind [js "office"; js "form"; js "diagram"; js "whiteboard"]
  | None => false
  end.

Definition truthy_kind (kind : option jstr) : bool := match kind with Some k => truthy k | None => false end.

(** What [officeConversionFor] answers; a key of the prototype gives something that is no conversion. *)
Definition officeConversionFor (name : jstr) (kind : option jstr) : option (found conversion) :=
  match kind ≫= (fun k => if truthy k then get_entry k BY_KIND else None) with
  | Some c => Some c
  | None =>
      if truthy_kind kind then None
      else match get_entry (fileExtension name) HINT_BY_EXT with
           | Some (Own target) =>
               Some (Own {| cv_targetExt := target; cv_targetLabel := default [] (own_entry target TARGET_LABEL); cv_convert := false |})
           | Some Inherited => Some Inherited
           | None => None
           end
  end.

Definition canViewerOpen (name : jstr) : bool :=
  truthy_kind (openableKind name) || match officeConversionFor name None with Some _ => true | None => false end.
End Kinds.

(** ** The tables do not overlap *)

(** Every table with the kind it stands for. *)
Definition tables : list (jstr * list jstr) :=
  [(js "form", FORM_EXT); (js "diagram", DIAGRAM_EXT); (js "whiteboard", WHITEBOARD_EXT); (js "image", IMAGE_EXT); (js "video", VIDEO_EXT);
   (js "office", map fst OFFICE_FORMATS); (js "pdf", PDF_EXT); (js "audio", AUDIO_EXT); (js "ebook", EBOOK_EXT); (js "comic", COMIC_EXT);
   (js "font", FONT_EXT); (js "notebook", NOTEBOOK_EXT); (js "geo", GEO_EXT); (js "calendar", CALENDAR_EXT); (js "contact", CONTACT_EXT);
   (js "archive", [js "tar.gz"; js "tar.bz2"; js "tar.xz"] ++ ARCHIVE_EXT); (js "csv", CSV_EXT); (js "markdown", MARKDOWN_EXT); (js "text", TEXT_EXT)].

(** No extension is of two kinds, and none is the name of something a prototype has. *)
Lemma tables_disjoint : NoDup (concat (map snd tables) ++ prototype_names).
Proof. apply (bool_decide_unpack _). vm_compute. exact I. Qed.

Lemma table_kind (kind e : jstr) (table : list jstr) : (kind, table) ∈ tables -> e ∈ table -> List.find (fun t => has e t.2) tables = Some (kind, table).
Proof.
  pose proof tables_disjoint as H. apply NoDup_app in H as [H _]. revert H. generalize tables as l.
  induction l as [|[k t] l IH]; [by intros _ H%not_elem_of_nil|]. cbn [map snd concat List.find]. intros (Ht & Hd & Hl)%NoDup_app Hk He. unfold has at 1.
  cbn [snd]. apply elem_of_cons in Hk as [[= -> ->]|Hk]; [by rewrite bool_decide_true|].
  rewrite bool_decide_false; [by apply IH|]. intros Het. apply (Hd e Het). apply list_elem_of_In, in_concat. exists table.
  split; [|by apply list_elem_of_In]. apply in_map_iff. exists (kind, table). split; [done | by apply list_elem_of_In].
Qed.

(** The files that are text without an extension that says so. *)
Definition text_without (toLowerCase : jstr -> jstr) (name : jstr) : bool :=
  ends_with (js ".lunaform.responses") (toLowerCase name) || (negb (truthy (fileExtension toLowerCase name)) && plain_name (basename name)).

Lemma openable_tables (toLowerCase : jstr -> jstr) (name : jstr) : let e := fileExtension toLowerCase name in
  isDiagramFile toLowerCase name = has e DIAGRAM_EXT ->
  openableKind toLowerCase name
  = match List.find (fun t => has e t.2) tables with
    | Some t => Some t.1
    | None => if has e prototype_names then Some (js "office") else if text_without toLowerCase name then Some (js "text") else None
    end.
Proof.
  cbv zeta. intros Hd. unfold openableKind, kind_tests, tables, text_without.
  cbn [List.find fst snd]. unfold isFormFile. destruct (has _ FORM_EXT); [done|]. rewrite Hd. destruct (has _ DIAGRAM_EXT); [done|].
  unfold isWhiteboardFile. destruct (has _ WHITEBOARD_EXT); [done|]. unfold isImageFile. destruct (has _ IMAGE_EXT); [done|].
  unfold isVideoFile. destruct (has _ VIDEO_EXT); [done|]. unfold isOfficeFile, in_object. destruct (has _ (map fst OFFICE_FORMATS)); [done|].
  cbn [orb]. destruct (has (fileExtension toLowerCase name) prototype_names) eqn:Ep.
  { pose proof tables_disjoint as H. apply NoDup_app in H as (_ & H & _). apply bool_decide_eq_true in Ep. cbn [fmap option_fmap option_map snd].
    assert (N : forall k t, (k, t) ∈ tables -> has (fileExtension toLowerCase name) t = false).
    { intros k t Ht. apply bool_decide_eq_false. intros He. eapply H; [|exact Ep]. apply list_elem_of_In, in_concat. exists t.
      split; [apply in_map_iff; exists (k, t); split; [done | by apply list_elem_of_In] | by apply list_elem_of_In]. }
    rewrite (N (js "pdf") PDF_EXT), (N (js "audio") AUDIO_EXT), (N (js "ebook") EBOOK_EXT), (N (js "comic") COMIC_EXT), (N (js "font") FONT_EXT),
      (N (js "notebook") NOTEBOOK_EXT), (N (js "geo") GEO_EXT), (N (js "calendar") CALENDAR_EXT), (N (js "contact") CONTACT_EXT),
      (N (js "archive") ([js "tar.gz"; js "tar.bz2"; js "tar.xz"] ++ ARCHIVE_EXT)), (N (js "csv") CSV_EXT), (N (js "markdown") MARKDOWN_EXT),
      (N (js "text") TEXT_EXT); [done|..]; unfold tables; repeat (first [by left | right]). }
  unfold isPdfFile. destruct (has _ PDF_EXT); [done|]. unfold isAudioFile. destruct (has _ AUDIO_EXT); [done|].
  unfold isEbookFile. destruct (has _ EBOOK_EXT); [done|]. unfold isComicFile. destruct (has _ COMIC_EXT); [done|].
  unfold isFontFile. destruct (has _ FONT_EXT); [done|]. unfold isNotebookFile. destruct (has _ NOTEBOOK_EXT); [done|].
  unfold isGeoFile. destruct (has _ GEO_EXT); [done|]. unfold isCalendarFile. destruct (has _ CALENDAR_EXT); [done|].
  unfold isContactFile. destruct (has _ CONTACT_EXT); [done|].
  assert (A : isArchiveFile toLowerCase name = has (fileExtension toLowerCase name) ([js "tar.gz"; js "tar.bz2"; js "tar.xz"] ++ ARCHIVE_EXT)).
  { unfold isArchiveFile, has. apply eq_bool_prop_intro. rewrite !orb_True, !bool_decide_spec, elem_of_app, !elem_of_cons. split.
    - intros [[[H|H]|H]|H]; tauto.
    - intros [[H|[H|[H|H]]]|H]; try tauto. by apply not_elem_of_nil in H. }
  rewrite A. destruct (has _ (_ ++ ARCHIVE_EXT)); [done|]. unfold isCsvFile. destruct (has _ CSV_EXT); [done|].
  unfold isMarkdownFile. destruct (has _ MARKDOWN_EXT); [done|]. unfold isTextFile. destruct (has _ TEXT_EXT); [done|].
  destruct (ends_with _ _); [done|]. cbn [orb]. destruct (truthy (fileExtension toLowerCase name)); [done|]. cbn [negb andb].
  by destruct (plain_name _).
Qed.

(** a name opens in the viewer its extension stands for, which is one at most: the order in which the kinds are tried
    decides nothing but the images that hold a diagram.  A name with an unlisted extension opens as text in two cases; with
    the name of a member of [Object.prototype] for an extension it passes for a document of the office editor. *)
Theorem kind_is_by_extension (toLowerCase : jstr -> jstr) (name : jstr) : let e := fileExtension toLowerCase name in
  isDiagramFile toLowerCase name = has e DIAGRAM_EXT ->
  (forall kind table, (kind, table) ∈ tables -> e ∈ table -> openableKind toLowerCase name = Some kind)
  /\ ((forall kind table, (kind, table) ∈ tables -> e ∉ table) -> e ∉ prototype_names ->
      openableKind toLowerCase name = if text_without toLowerCase name then Some (js "text") else None)
  /\ (e ∈ prototype_names -> openableKind toLowerCase name = Some (js "office")).
Proof.
  cbv zeta. intros Hd. rewrite openable_tables by done. split_and!.
  - intros kind table Hk He. by rewrite (table_kind kind _ table).
  - intros Hn Hp. destruct (List.find _ tables) as [[k t]|] eqn:E.
    + apply find_some in E as [E He%bool_decide_eq_true]. by apply list_elem_of_In, Hn in E.
    + unfold has. by rewrite bool_decide_false.
  - intros Hp. destruct (List.find _ tables) as [[k t]|] eqn:E.
    + apply find_some in E as [E He%bool_decide_eq_true]. pose proof tables_disjoint as H. apply NoDup_app in H as (_ & H & _). exfalso.
      eapply H; [|exact Hp]. apply list_elem_of_In, in_concat. exists t. split; [by apply (in_map snd) in E | by apply list_elem_of_In].
    + unfold has. by rewrite bool_decide_true.
Qed.

Lemma kind_is_by_extension_witness : openableKind to_lower (js "Photos/cat.JPG") = Some (js "image")
  /\ openableKind to_lower (js "notes.constructor") = Some (js "office").
Proof.
  split.
  - apply (proj1 (kind_is_by_extension to_lower (js "Photos/cat.JPG") eq_refl) (js "image") IMAGE_EXT); apply (bool_decide_unpack _); vm_compute; exact I.
  - apply (proj2 (proj2 (kind_is_by_extension to_lower (js "notes.constructor") eq_refl))). apply (bool_decide_unpack _). vm_compute. exact I.
Defined.
