(* ===== verification/UploadRetry.v ===== *)
(** * Sending a chunk again: [luna/web/src/lib/uploadRetry.js]

    A chunk of an upload is sent again through a dropped connection.  [send] is the caller's request: what it answers on an
    attempt that starts at a time, and when.  The signal may be aborted from a moment on; times are milliseconds. *)

From S2P Require Import Prelude JsString.

(** ** Definitions *)

Definition CHUNK_RETRY_DELAYS_MS : list Z := [1000; 2000; 4000; 8000; 15000; 15000; 30000; 30000].

(** What was thrown: its [name], and its [status] where that is a number. *)
Record upload_error := { ue_name : jstr; ue_status : option Z }.
Definition AbortError : upload_error := {| ue_name := js "AbortError"; ue_status := None |}.

Definition isTransientUploadError (err : upload_error) : bool :=
  bool_decide (ue_name err = js "ApiError")
  && match ue_status err with
     | Some status => (status =? 0) || (status =? 408) || (status =? 429) || (status =? 502) || (status =? 503) || (status =? 504)
     | None => false
     end.

(** An aborted signal, at a time. *)
Definition aborted_by (abort_at : option Z) (now : Z) : bool := match abort_at with Some t => t <=? now | None => false end.

(** [pause(ms, signal)] from [now]: when it settles, and whether it is the abort that settles it. *)
Definition pause (abort_at : option Z) (ms now : Z) : Z * bool :=
  if aborted_by abort_at now then (now, true)
  else match abort_at with
       | Some t => if t <? now + ms then (t, true) else (now + ms, false)
       | None => (now + ms, false)
       end.

Section Send.
Context {A : Type} (send : nat -> Z -> (A + upload_error) * Z) (abort_at : option Z).

(** How it ended, when, and the times at which a request was started. *)
Record sending_end := { se_result : A + upload_error; se_time : Z; se_sends : list Z }.

(** The loop; [delays] is what is left of the pauses, [attempt] the number of tries so far. *)
Fixpoint send_loop (attempt : nat) (delays : list Z) (now : Z) : sending_end :=
  match send attempt now with
  | (inl a, t) => {| se_result := inl a; se_time := t; se_sends := [now] |}
  | (inr err, t) =>
      let thrown := {| se_result := inr err; se_time := t; se_sends := [now] |} in
      match delays with
      | [] => thrown
      | ms :: delays =>
          if negb (isTransientUploadError err) then thrown
          else
            let '(t, cut) := pause abort_at ms t in
            if cut then {| se_result := inr AbortError; se_time := t; se_sends := [now] |}
            else
              let rest := send_loop (S attempt) delays t in
              {| se_result := se_result rest; se_time := se_time rest; se_sends := now :: se_sends rest |}
      end
  end.

Definition sendChunkWithRetry (delays : list Z) (now : Z) : sending_end := send_loop 0 delays now.

(** ** Facts *)

(** Whether a try that failed is tried again. *)
Definition again (r : A + upload_error) : bool := match r with inl _ => false | inr err => isTransientUploadError err end.

Lemma pause_going (ms now t : Z) : pause abort_at ms now = (t, false) -> t = now + ms /\ (0 <= ms -> aborted_by abort_at now = false)
  /\ match abort_at with Some a => now + ms <= a | None => True end.
Proof.
  unfold pause. destruct (aborted_by abort_at now) eqn:E; [done|]. destruct abort_at as [a|]; [|by intros [= <-]].
  destruct (Z.ltb_spec a (now + ms)); [done|]. intros [= <-]. split_and!; [done..|lia].
Qed.

Context (takes : forall attempt now, now <= (send attempt now).2).

Lemma loop_facts (delays : list Z) : Forall (fun ms => 0 < ms) delays -> forall attempt now,
  let e := send_loop attempt delays now in
  (1 <= length (se_sends e) <= 1 + length delays)%nat
  /\ (forall k t, se_sends e !! S k = Some t -> match abort_at with Some a => t <= a | None => True end)
  /\ (forall k t, se_sends e !! k = Some t -> (S k < length (se_sends e))%nat -> again (send (attempt + k) t).1 = true
        /\ exists ms, delays !! k = Some ms /\ se_sends e !! S k = Some ((send (attempt + k) t).2 + ms))
  /\ exists t, last (se_sends e) = Some t
       /\ (se_result e = (send (attempt + length (se_sends e) - 1) t).1 /\ (again (se_result e) = false \/ length (se_sends e) = S (length delays))
           \/ se_result e = inr AbortError /\ abort_at <> None).
Proof.
  induction 1 as [|ms delays Hms _ IH]; intros attempt now; cbv zeta; cbn [send_loop].
  - replace (attempt + 1 - 1)%nat with attempt by lia.
    destruct (send attempt now) as [[a|err] t] eqn:Es; cbn [se_sends se_result length];
      (split_and!; [lia|lia|intros k t' H; by destruct k|intros k t' H; lia|]); exists now; (split; [done|]); left;
      replace (attempt + 1 - 1)%nat with attempt by lia; rewrite Es; (split; [done|]); first [by left | by right].
  - pose proof (takes attempt now) as Ht. destruct (send attempt now) as [[a|err] t] eqn:Es; cbn [snd] in Ht.
    { cbn [se_sends se_result length]. split_and!; [lia|lia|intros k t' H; by destruct k|intros k t' H; lia|]. exists now. split; [done|]. left.
      replace (attempt + 1 - 1)%nat with attempt by lia. rewrite Es. split; [done | by left]. }
    destruct (isTransientUploadError err) eqn:Et; cbn [negb].
    2:{ cbn [se_sends se_result length]. split_and!; [lia|lia|intros k t' H; by destruct k|intros k t' H; lia|]. exists now. split; [done|]. left.
        replace (attempt + 1 - 1)%nat with attempt by lia. rewrite Es. split; [done | by left]. }
    destruct (pause abort_at ms t) as [t' cut] eqn:Ep. destruct cut.
    { cbn [se_sends se_result length]. split_and!; [lia|lia|intros k u H; by destruct k|intros k u H; lia|]. exists now. split; [done|]. right. split; [done|].
      intros ->. unfold pause in Ep. cbn in Ep. congruence. }
    apply pause_going in Ep as (-> & _ & Ha). destruct (IH (S attempt) (t + ms)) as (I1 & I2 & I3 & u & I4 & I5). clear IH.
    set (rest := send_loop (S attempt) delays (t + ms)) in *. cbn [se_sends se_result length].
    assert (H0 : se_sends rest !! 0%nat = Some (t + ms)).
    { unfold rest. destruct delays; cbn [send_loop]; destruct (send (S attempt) (t + ms)) as [[?|?] ?]; try done.
      destruct (negb _); [done|]. by destruct (pause _ _ _) as [? []]. }
    split_and!; [lia|lia| | |].
    + intros [|k] v Hv; [change (se_sends rest !! 0%nat = Some v) in Hv|by apply (I2 k)]. rewrite H0 in Hv. injection Hv as <-. destruct abort_at; [lia | done].
    + intros [|k] v Hv Hlt; [change (Some now = Some v) in Hv|change (se_sends rest !! k = Some v) in Hv].
      * injection Hv as <-. rewrite Nat.add_0_r, Es. split; [done|]. exists ms. by split.
      * replace (attempt + S k)%nat with (S attempt + k)%nat by lia. apply (I3 k v Hv). cbn in Hlt. lia.
    + exists u. destruct (se_sends rest) as [|v l] eqn:El; [discriminate I4|]. split; [exact I4|].
      destruct I5 as [[H1 H2]|H]; [left|by right]. cbn [length] in *. split.
      * rewrite H1. do 2 f_equal. lia.
      * destruct H2 as [H2|H2]; [by left | right; lia].
Qed.

Lemma sends_in_order (delays : list Z) : Forall (fun ms => 0 < ms) delays -> forall attempt now,
  StronglySorted Z.lt (se_sends (send_loop attempt delays now)) /\ Forall (fun t => now <= t) (se_sends (send_loop attempt delays now)).
Proof.
  induction 1 as [|ms delays Hms _ IH]; intros attempt now; cbn [send_loop]; pose proof (takes attempt now) as Ht;
    destruct (send attempt now) as [[a|err] t]; cbn [snd] in Ht; try (by split; repeat constructor).
  destruct (negb _); [by split; repeat constructor|]. destruct (pause abort_at ms t) as [t' [|]] eqn:Ep; [by split; repeat constructor|].
  apply pause_going in Ep as (-> & _ & _). destruct (IH (S attempt) (t + ms)) as [I1 I2]. cbn [se_sends]. split; constructor; try done; try lia.
  - eapply Forall_impl; [exact I2|]. cbn. lia.
  - eapply Forall_impl; [exact I2|]. cbn. lia.
Qed.
End Send.

(** C14: a chunk is sent again only as long as that helps: at most once more than there are pauses; each try but the last
    failed for a reason that passes, and the next one starts its pause later and not after an abort; and what comes
    back is what the last try gave - a success, a failure nobody can wait out, or the failure after the last pause -
    unless the abort ended it. *)
Theorem retries_are_bounded {A} (send : nat -> Z -> (A + upload_error) * Z) (abort_at : option Z) (delays : list Z) (now : Z) :
  (forall attempt now, now <= (send attempt now).2) -> Forall (fun ms => 0 < ms) delays ->
  let e := sendChunkWithRetry send abort_at delays now in
  (1 <= length (se_sends e) <= 1 + length delays)%nat /\ StronglySorted Z.lt (se_sends e)
  /\ (forall k t, se_sends e !! S k = Some t -> match abort_at with Some a => t <= a | None => True end)
  /\ (forall k t, se_sends e !! k = Some t -> (S k < length (se_sends e))%nat -> again (send k t).1 = true
        /\ exists ms, delays !! k = Some ms /\ se_sends e !! S k = Some ((send k t).2 + ms))
  /\ exists t, last (se_sends e) = Some t
       /\ (se_result e = (send (length (se_sends e) - 1)%nat t).1 /\ (again (se_result e) = false \/ length (se_sends e) = S (length delays))
           \/ se_result e = inr AbortError /\ abort_at <> None).
Proof.
  intros Ht Hd. cbv zeta. destruct (loop_facts send abort_at Ht delays Hd 0 now) as (H1 & H2 & H3 & H4).
  destruct (sends_in_order send abort_at Ht delays Hd 0 now) as [H5 _]. done.
Qed.

#[local] Definition busy (attempt : nat) (now : Z) : (Z + upload_error) * Z :=
  (if Nat.ltb attempt 2 then inr {| ue_name := js "ApiError"; ue_status := Some 503 |} else inl now, now + 10).

Lemma busy_takes (attempt : nat) (now : Z) : now <= (busy attempt now).2.
Proof. cbn. lia. Qed.

Lemma delays_positive : Forall (fun ms => 0 < ms) CHUNK_RETRY_DELAYS_MS.
Proof. repeat constructor. Qed.

Lemma retries_are_bounded_witness :
  se_sends (sendChunkWithRetry busy None CHUNK_RETRY_DELAYS_MS 0) = [0; 1010; 3020]
  /\ (length (se_sends (sendChunkWithRetry busy None CHUNK_RETRY_DELAYS_MS 0)) <= 9)%nat.
Proof.
  split; [vm_compute; reflexivity|].
  exact (proj2 (proj1 (retries_are_bounded busy None CHUNK_RETRY_DELAYS_MS 0 busy_takes delays_positive))).
Defined.

(** All pauses together. *)
Example pauses_in_all : foldl Z.add 0 CHUNK_RETRY_DELAYS_MS = 105000.
Proof. reflexivity. Qed.
