(* ===== verification/MultiSelect.v ===== *)
(** * Selecting several: [luna/web/src/hooks/useMultiSelect.js]

    The selection of a photo grid as a state machine: the keys selected, the anchor a range starts from, whether the grid is
    in selecting mode.  React runs the updates in the order they are made, so each callback is one step. *)

From S2P Require Import Prelude JsString.

(** ** Definitions *)

(** [`${drive}\0${path}`] of an item that is an object, empty where a field is. *)
Definition photoSelectionKey (drive_id path : jstr) : jstr := drive_id ++ 0%N :: path.

Record selection := { sl_mode : bool; sl_selected : gset jstr; sl_anchor : option jstr }.
#[global] Instance selection_settable : Settable selection := fun s =>
  {| sl_mode := sl_mode s; sl_selected := sl_selected s; sl_anchor := sl_anchor s |}.

Definition initial : selection := {| sl_mode := false; sl_selected := ∅; sl_anchor := None |}.

Section Select.
Context {item : Type} (keyOf : item -> jstr).

Definition keysInView (items : list item) : list jstr := List.filter truthy (map keyOf items).

Definition clear (s : selection) : selection := s <| sl_selected := ∅ |> <| sl_anchor := None |>.
Definition exit (s : selection) : selection := {| sl_mode := false; sl_selected := ∅; sl_anchor := None |}.
Definition enter (s : selection) : selection := s <| sl_mode := true |>.

(** [keys.indexOf(key)] *)
Fixpoint index_of (key : jstr) (keys : list jstr) : option nat :=
  match keys with [] => None | k :: keys => if bool_decide (k = key) then Some 0%nat else S <$> index_of key keys end.

Definition flip (key : jstr) (selected : gset jstr) : gset jstr :=
  if bool_decide (key ∈ selected) then selected ∖ {[key]} else selected ∪ {[key]}.

(** The updater of [toggle]: [keys] and [anchor] are those of the moment of the call. *)
Definition toggled (key : jstr) (range : bool) (keys : list jstr) (anchor : option jstr) (selected : gset jstr) : gset jstr :=
  match (if range then anchor ≫= (fun a => if truthy a then index_of a keys else None) else None), index_of key keys with
  | Some a, Some b =>
      let '(lo, hi) := if Nat.ltb a b then (a, b) else (b, a) in
      selected ∪ list_to_set (take (S hi - lo) (drop lo keys))
  | _, _ => flip key selected
  end.

Definition toggle (items : list item) (i : item) (range : bool) (s : selection) : selection :=
  let key := keyOf i in
  if negb (truthy key) then s
  else {| sl_mode := true; sl_selected := toggled key range (keysInView items) (sl_anchor s) (sl_selected s); sl_anchor := Some key |}.

Definition selectAllInView (items : list item) (s : selection) : selection :=
  s <| sl_mode := true |> <| sl_selected := list_to_set (keysInView items) |>.

Definition selectItems (l : list item) (s : selection) : selection :=
  s <| sl_mode := true |> <| sl_selected ::= fun sel => foldl (fun sel i => if truthy (keyOf i) then sel ∪ {[keyOf i]} else sel) sel l |>.
Definition deselectItems (l : list item) (s : selection) : selection :=
  s <| sl_selected ::= fun sel => foldl (fun sel i => if truthy (keyOf i) then sel ∖ {[keyOf i]} else sel) sel l |>.

Definition selectedItems (items : list item) (s : selection) : list item := List.filter (fun i => bool_decide (keyOf i ∈ sl_selected s)) items.
Definition isSelected (s : selection) (i : item) : bool := bool_decide (keyOf i ∈ sl_selected s).
Definition selectedCount (s : selection) : nat := size (sl_selected s).

(** ** Facts *)

Lemma index_of_spec (key : jstr) (keys : list jstr) :
  match index_of key keys with Some n => keys !! n = Some key /\ (forall m, (m < n)%nat -> keys !! m <> Some key) | None => key ∉ keys end.
Proof.
  induction keys as [|k keys IH]; cbn [index_of]; [by intros H%not_elem_of_nil|]. case_bool_decide as E.
  - subst. split; [done | intros m Hm; lia].
  - destruct (index_of key keys) as [n|]; cbn [fmap option_fmap option_map].
    + destruct IH as [H1 H2]. split; [done|]. intros [|m] Hm; [cbn; congruence|]. apply H2. lia.
    + rewrite elem_of_cons. intros [?|?]; [by subst | done].
Qed.

Lemma slice_elem (lo hi : nat) (keys : list jstr) (k : jstr) :
  k ∈ take (S hi - lo) (drop lo keys) <-> exists m, (lo <= m <= hi)%nat /\ keys !! m = Some k.
Proof.
  rewrite list_elem_of_lookup. split.
  - intros (m & H). apply lookup_take_Some in H as [H Hm]. rewrite lookup_drop in H. exists (lo + m)%nat. split; [lia | done].
  - intros (m & Hm & H). exists (m - lo)%nat. rewrite lookup_take_Some, lookup_drop. split; [by replace (lo + (m - lo))%nat with m by lia | lia].
Qed.

(** a click with Shift selects the whole stretch: with the anchor in view, exactly the keys from the anchor to the item
    clicked, at whichever side it is, are selected besides those that were; without Shift, or without an anchor in view,
    the click flips the item alone.  The item becomes the anchor of the next. *)
Theorem range_is_the_stretch (items : list item) (i : item) (range : bool) (s : selection) : keyOf i <> [] -> keyOf i ∈ keysInView items ->
  let keys := keysInView items in let s' := toggle items i range s in
  sl_mode s' = true /\ sl_anchor s' = Some (keyOf i)
  /\ (forall a, range = true -> sl_anchor s = Some a -> a <> [] -> a ∈ keys ->
        exists na ni, index_of a keys = Some na /\ index_of (keyOf i) keys = Some ni
          /\ forall k, k ∈ sl_selected s' <-> k ∈ sl_selected s \/ exists m, (Nat.min na ni <= m <= Nat.max na ni)%nat /\ keys !! m = Some k)
  /\ ((range = false \/ sl_anchor s = None \/ exists a, sl_anchor s = Some a /\ a ∉ keys) ->
        forall k, k ∈ sl_selected s' <-> (k <> keyOf i /\ k ∈ sl_selected s) \/ (k = keyOf i /\ k ∉ sl_selected s)).
Proof.
  intros Hk Hin. cbv zeta. unfold toggle. rewrite (proj2 (truthy_spec _) Hk). cbn [negb sl_mode sl_anchor sl_selected]. split; [done|]. split; [done|].
  pose proof (index_of_spec (keyOf i) (keysInView items)) as Hi. destruct (index_of (keyOf i) (keysInView items)) as [ni|] eqn:Ei; [|done]. split.
  - intros a -> Ha Hne Hak. pose proof (index_of_spec a (keysInView items)) as Hs. destruct (index_of a (keysInView items)) as [na|] eqn:Ea; [|done].
    exists na, ni. split; [done|]. split; [done|]. intros k. unfold toggled. rewrite Ha. cbn [mbind option_bind]. rewrite (proj2 (truthy_spec a) Hne), Ea, Ei.
    destruct (Nat.ltb_spec na ni); rewrite elem_of_union, elem_of_list_to_set, slice_elem;
      [rewrite Nat.min_l, Nat.max_r by lia | rewrite Nat.min_r, Nat.max_l by lia]; done.
  - intros Hr k. unfold toggled.
    assert (N : (if range then sl_anchor s ≫= (fun a => if truthy a then index_of a (keysInView items) else None) else None) = None).
    { destruct Hr as [->|[->|(a & -> & Ha)]]; [done|by destruct range|]. destruct range; [|done]. cbn [mbind option_bind].
      pose proof (index_of_spec a (keysInView items)) as Hs. destruct (truthy a); [|done]. destruct (index_of a (keysInView items)) as [n|]; [|done].
      exfalso. apply Ha. by eapply list_elem_of_lookup_2, Hs. }
    rewrite N. unfold flip. case_bool_decide; set_solver.
Qed.

Lemma select_items_elem (l : list item) (sel : gset jstr) (k : jstr) :
  k ∈ foldl (fun sel i => if truthy (keyOf i) then sel ∪ {[keyOf i]} else sel) sel l <-> k ∈ sel \/ (k <> [] /\ exists i, i ∈ l /\ keyOf i = k).
Proof.
  revert sel. induction l as [|i l IH]; intros sel; cbn [foldl]; [set_solver|]. rewrite IH. destruct (truthy (keyOf i)) eqn:E.
  - apply truthy_spec in E. rewrite elem_of_union, elem_of_singleton. split.
    + intros [[?| ->]|(? & j & ? & ?)]; [by left|right; split; [done|exists i; by split; [left|]]|right; split; [done|exists j; by split; [right|]]].
    + intros [?|(Hk & j & [->|?]%elem_of_cons & <-)]; [tauto..|]. right. split; [done|]. by exists j.
  - assert (Ei : keyOf i = []) by by destruct (keyOf i). split.
    + intros [?|(? & j & ? & ?)]; [by left|right; split; [done|exists j; by split; [right|]]].
    + intros [?|(Hk & j & [->|?]%elem_of_cons & <-)]; [by left|done|]. right. split; [done|]. by exists j.
Qed.
End Select.

Lemma range_is_the_stretch_witness : exists na ni, index_of (js "b") (keysInView js ["a"; "b"; "c"; "d"]) = Some na
  /\ index_of (js "d") (keysInView js ["a"; "b"; "c"; "d"]) = Some ni
  /\ js "c" ∈ sl_selected (toggle js ["a"; "b"; "c"; "d"] "d" true {| sl_mode := true; sl_selected := ∅; sl_anchor := Some (js "b") |}).
Proof.
  destruct (proj1 (proj2 (proj2 (range_is_the_stretch js ["a"; "b"; "c"; "d"] "d" true {| sl_mode := true; sl_selected := ∅; sl_anchor := Some (js "b") |}
    ltac:(discriminate) ltac:(apply (bool_decide_unpack _); vm_compute; exact I)))) (js "b") eq_refl eq_refl ltac:(discriminate)
    ltac:(apply (bool_decide_unpack _); vm_compute; exact I)) as (na & ni & H1 & H2 & H3).
  exists na, ni. split; [exact H1|]. split; [exact H2|]. apply H3. right. exists 2%nat. split; [|reflexivity].
  vm_compute in H1, H2. injection H1 as <-. injection H2 as <-. split; lia.
Defined.
