(* ===== verification/ZipFacts.v ===== *)
(** * Zip writer: properties

    CRC-32 against its bit-by-bit definition, and the archive against a reader: what [buildZip]
    writes reads back as the files it was given. *)

From S2P Require Import Prelude JsString Zip.

(** ** CRC-32, one bit at a time *)

Definition crc_step (c : Z) : Z := Z.lxor (Z.shiftr c 1) (if Z.odd c then POLY else 0).
Definition ref_byte (c b : Z) : Z := Nat.iter 8 crc_step (Z.lxor c b).
Definition crc_spec (bytes : list Z) (previous : Z) : Z :=
  Z.lxor (foldl ref_byte (Z.lxor previous 0xffffffff) bytes) 0xffffffff.

Definition is_byte (b : Z) : Prop := 0 <= b < 256.

Lemma testbit_uint32 (x n : Z) : 0 <= n -> Z.testbit (to_uint32 x) n = (n <? 32) && Z.testbit x n.
Proof.
  intros Hn. unfold to_uint32. destruct (Z.ltb_spec n 32) as [H|H]; simpl.
  - by apply Z.mod_pow2_bits_low.
  - apply Z.mod_pow2_bits_high. lia.
Qed.

Lemma to_uint32_small (x : Z) : 0 <= x < 2 ^ 32 -> to_uint32 x = x.
Proof. intros H. by apply Z.mod_small. Qed.

Lemma to_uint32_range (x : Z) : 0 <= to_uint32 x < 2 ^ 32.
Proof. by apply Z.mod_pos_bound. Qed.

Lemma uint32_int32 (x : Z) : to_uint32 (to_int32 x) = to_uint32 x.
Proof.
  unfold to_int32. cbv zeta. pose proof (to_uint32_range x) as Hr.
  destruct (_ <? _); [by apply to_uint32_small|]. unfold to_uint32 at 1.
  replace (to_uint32 x - 2 ^ 32) with (to_uint32 x + (-1) * 2 ^ 32) by lia.
  rewrite Z.mod_add by lia. by apply Z.mod_small.
Qed.

Lemma uint32_lxor (a b : Z) : to_uint32 (Z.lxor a b) = Z.lxor (to_uint32 a) (to_uint32 b).
Proof.
  apply Z.bits_inj'. intros n Hn. rewrite testbit_uint32, !Z.lxor_spec, !testbit_uint32 by done.
  by destruct (n <? 32), (Z.testbit a n), (Z.testbit b n).
Qed.

Lemma uint32_js_xor (a b : Z) : to_uint32 (js_xor a b) = Z.lxor (to_uint32 a) (to_uint32 b).
Proof. unfold js_xor. by rewrite uint32_lxor, !uint32_int32. Qed.

Lemma js_and_mask (x m : Z) : 0 <= m < 2 ^ 31 -> js_and x m = Z.land (to_uint32 x) m.
Proof.
  intros Hm. unfold js_and.
  assert (to_int32 m = m) as ->.
  { unfold to_int32. cbv zeta. rewrite to_uint32_small by lia. by rewrite (proj2 (Z.ltb_lt _ _)) by lia. }
  apply Z.bits_inj'. intros n Hn. rewrite !Z.land_spec, testbit_uint32 by done.
  destruct (Z.ltb_spec n 32) as [H|H]; simpl.
  - assert (Z.testbit (to_int32 x) n = Z.testbit (to_uint32 (to_int32 x)) n) as ->.
    { rewrite testbit_uint32 by done. by rewrite (proj2 (Z.ltb_lt _ _)) by lia. }
    rewrite uint32_int32, testbit_uint32 by done. by rewrite (proj2 (Z.ltb_lt _ _)) by lia.
  - destruct (Z.eq_dec m 0) as [->|]; [by rewrite Z.bits_0, andb_false_r|].
    rewrite (Z.bits_above_log2 m n) by (try lia; enough (Z.log2 m < 31) by lia; apply Z.log2_lt_pow2; lia).
    apply andb_false_r.
Qed.

Lemma lxor_range (a b : Z) : 0 <= a < 2 ^ 32 -> 0 <= b < 2 ^ 32 -> 0 <= Z.lxor a b < 2 ^ 32.
Proof.
  intros Ha Hb. rewrite <- (to_uint32_small a), <- (to_uint32_small b), <- uint32_lxor by done.
  apply to_uint32_range.
Qed.

Lemma shiftr_range (a k : Z) : 0 <= k -> 0 <= a < 2 ^ 32 -> 0 <= Z.shiftr a k < 2 ^ 32.
Proof.
  intros Hk Ha. rewrite Z.shiftr_div_pow2 by done.
  assert (0 < 2 ^ k) by (apply Z.pow_pos_nonneg; lia). split; [apply Z.div_pos; lia|].
  eapply Z.le_lt_trans; [apply Z.div_le_upper_bound with (q := a); nia | lia].
Qed.

Lemma uint32_ushr (x k : Z) : 0 <= k -> to_uint32 (js_ushr x k) = Z.shiftr (to_uint32 x) k.
Proof. intros Hk. apply to_uint32_small, shiftr_range; [done | apply to_uint32_range]. Qed.

(** *** One step is linear *)

Lemma crc_step_lxor (a b : Z) : crc_step (Z.lxor a b) = Z.lxor (crc_step a) (crc_step b).
Proof.
  unfold crc_step. rewrite Z.shiftr_lxor, <- !Z.bit0_odd, Z.lxor_spec.
  apply Z.bits_inj'. intros n Hn. rewrite !Z.lxor_spec.
  destruct (Z.testbit a 0), (Z.testbit b 0); simpl; rewrite ?Z.bits_0;
    destruct (Z.testbit _ n), (Z.testbit _ n), (Z.testbit _ n) || destruct (Z.testbit _ n), (Z.testbit _ n);
    done.
Qed.

Lemma iter_step_lxor (n : nat) (a b : Z) :
  Nat.iter n crc_step (Z.lxor a b) = Z.lxor (Nat.iter n crc_step a) (Nat.iter n crc_step b).
Proof. induction n as [|n IH]; [done|]. rewrite !Nat.iter_succ. by rewrite IH, crc_step_lxor. Qed.

(** A step of a number whose low bits are zero only shifts it. *)
Lemma iter_step_shift (n : nat) (y : Z) :
  Nat.iter n crc_step (Z.shiftl y (Z.of_nat n)) = y.
Proof.
  induction n as [|n IH]; [by rewrite Z.shiftl_0_r|].
  rewrite Nat.iter_succ_r. unfold crc_step at 2.
  replace (Z.shiftl y (Z.of_nat (S n))) with (2 * Z.shiftl y (Z.of_nat n)).
  - rewrite Z.odd_mul. cbn [Z.odd andb]. rewrite Z.lxor_0_r, <- Z.div2_spec, Z.div2_div.
    by rewrite Z.mul_comm, Z.div_mul.
  - rewrite !Z.shiftl_mul_pow2 by lia. rewrite Nat2Z.inj_succ, Z.pow_succ_r by lia. ring.
Qed.

Lemma split_low (x : Z) : 0 <= x -> x = Z.lxor (Z.land x 255) (Z.shiftl (Z.shiftr x 8) 8).
Proof.
  intros Hx. apply Z.bits_inj'. intros n Hn. change 255 with (Z.ones 8).
  rewrite Z.lxor_spec, Z.land_spec, Z.testbit_ones_nonneg by lia.
  destruct (Z.ltb_spec n 8).
  - rewrite Z.shiftl_spec_low by lia. by rewrite andb_true_r, xorb_false_r.
  - rewrite andb_false_r, Z.shiftl_spec, Z.shiftr_spec by lia. simpl. f_equal. lia.
Qed.

Lemma table_spec : CRC_TABLE = map (fun n => Nat.iter 8 crc_step (Z.of_nat n)) (seq 0 256).
Proof. vm_compute. reflexivity. Qed.

Lemma table_nth (i : Z) : is_byte i -> nth (Z.to_nat i) CRC_TABLE 0 = Nat.iter 8 crc_step i.
Proof.
  intros [H0 H1]. rewrite table_spec.
  set (f := fun n => Nat.iter 8 crc_step (Z.of_nat n)).
  rewrite (nth_indep _ 0 (f 0%nat)) by (rewrite length_map, length_seq; lia).
  rewrite (map_nth f), seq_nth by lia. unfold f. f_equal. lia.
Qed.

Lemma iter_step_range (n : nat) (a : Z) : 0 <= a < 2 ^ 32 -> 0 <= Nat.iter n crc_step a < 2 ^ 32.
Proof.
  intros Ha. induction n as [|n IH]; [done|]. rewrite Nat.iter_succ. unfold crc_step at 1 3.
  apply lxor_range; [by apply shiftr_range|]. destruct (Z.odd _); split; done.
Qed.

(** One byte through the table is one byte bit by bit. *)
Lemma crc_byte_spec (c b : Z) : is_byte b -> to_uint32 (crc_byte c b) = ref_byte (to_uint32 c) b.
Proof.
  intros Hb. unfold is_byte in Hb. unfold crc_byte. rewrite uint32_js_xor, uint32_ushr by lia.
  rewrite js_and_mask by lia. rewrite uint32_js_xor, (to_uint32_small b) by lia.
  pose proof (to_uint32_range c) as Hc. set (u := to_uint32 c) in *. clearbody u.
  unfold ref_byte. set (x := Z.lxor u b). assert (Hx : 0 <= x < 2 ^ 32) by (apply lxor_range; lia).
  assert (Hl : is_byte (Z.land x 255)).
  { unfold is_byte. change 255 with (Z.ones 8). rewrite Z.land_ones by lia. by apply Z.mod_pos_bound. }
  change 0xff with 255. rewrite table_nth by done.
  rewrite to_uint32_small by (apply iter_step_range; destruct Hl; lia).
  rewrite (split_low x) at 2 by lia. rewrite iter_step_lxor. f_equal.
  change 8 with (Z.of_nat 8) at 2. rewrite iter_step_shift. unfold x.
  rewrite Z.shiftr_lxor, (Z.shiftr_div_pow2 b), (Z.div_small b) by lia. by rewrite Z.lxor_0_r.
Qed.

Lemma crc_fold_spec (bytes : list Z) (c : Z) :
  Forall is_byte bytes -> to_uint32 (foldl crc_byte c bytes) = foldl ref_byte (to_uint32 c) bytes.
Proof.
  intros H. revert c. induction H as [|b bytes Hb _ IH]; intros c; [done|]. simpl.
  by rewrite IH, crc_byte_spec.
Qed.

Lemma crc32_unfold (bytes : list Z) (p : Z) :
  Forall is_byte bytes -> 0 <= p < 2 ^ 32 -> crc32 bytes p = crc_spec bytes p.
Proof.
  intros Hb Hp. unfold crc32, crc_spec. cbv zeta.
  assert (H0 : forall x, js_ushr x 0 = to_uint32 x) by (intros x; apply Z.shiftr_0_r).
  rewrite !H0, uint32_js_xor, crc_fold_spec by done.
  rewrite to_uint32_small by apply to_uint32_range.
  rewrite uint32_js_xor, !(to_uint32_small 0xffffffff) by lia. by rewrite (to_uint32_small p).
Qed.

(** ** Reading an archive *)

Definition u16 (p : nat) (l : list Z) : Z := nth p l 0 + 256 * nth (p + 1) l 0.
Definition u32 (p : nat) (l : list Z) : Z := u16 p l + 65536 * u16 (p + 2) l.
Definition sub (p n : nat) (l : list Z) : list Z := take n (drop p l).

(** The name and the data behind a local header. *)
Definition read_local (archive : list Z) (at_ : nat) : option (list Z * list Z) :=
  let h := drop at_ archive in
  if u32 0 h =? LOCAL_SIG then
    let n := Z.to_nat (u16 26 h) in
    let extra := Z.to_nat (u16 28 h) in
    Some (sub 30 n h, sub (30 + n + extra) (Z.to_nat (u32 18 h)) h)
  else None.

(** [count] records of the central directory: each must point at a local header with the same name,
    whose data has the size and the CRC-32 the record states. *)
Fixpoint read_central (count : nat) (archive dir : list Z) : option (list (list Z * list Z)) :=
  match count with
  | O => Some []
  | S count =>
      if u32 0 dir =? CENTRAL_SIG then
        let n := Z.to_nat (u16 28 dir) in
        let skip := (46 + n + Z.to_nat (u16 30 dir) + Z.to_nat (u16 32 dir))%nat in
        let name := sub 46 n dir in
        '(lname, data) ← read_local archive (Z.to_nat (u32 42 dir));
        if bool_decide (lname = name) && (Z.of_nat (length data) =? u32 20 dir)
           && (crc32 data 0 =? u32 16 dir)
        then rest ← read_central count archive (drop skip dir); Some ((name, data) :: rest)
        else None
      else None
  end.

(** An archive without comment: the end record is its last 22 bytes. *)
Definition unzip (archive : list Z) : option (list (list Z * list Z)) :=
  let fin := drop (length archive - 22) archive in
  if u32 0 fin =? END_SIG
  then read_central (Z.to_nat (u16 10 fin)) archive (drop (Z.to_nat (u32 16 fin)) archive)
  else None.

Lemma crc32_range (bytes : list Z) (p : Z) : 0 <= crc32 bytes p < 2 ^ 32.
Proof. unfold crc32. cbv zeta. unfold js_ushr at 1. rewrite Z.shiftr_0_r. apply to_uint32_range. Qed.

Lemma le16_back (v : Z) : 0 <= v < 65536 -> v mod 256 + 256 * ((v / 256) mod 256) = v.
Proof. intros H. Z.div_mod_to_equations. lia. Qed.

Lemma le32_back (v : Z) : 0 <= v < 2 ^ 32 ->
  v mod 256 + 256 * ((v / 256) mod 256)
  + 65536 * ((v / 65536) mod 256 + 256 * ((v / 16777216) mod 256)) = v.
Proof.
  intros H. change (2 ^ 32) with 4294967296 in H.
  replace (v / 65536) with (v / 256 / 256) by (rewrite Z.div_div by lia; reflexivity).
  replace (v / 16777216) with (v / 256 / 256 / 256) by (rewrite !Z.div_div by lia; reflexivity).
  pose proof (Z.div_mod v 256 ltac:(lia)). pose proof (Z.div_mod (v / 256) 256 ltac:(lia)).
  pose proof (Z.div_mod (v / 256 / 256) 256 ltac:(lia)).
  rewrite (Z.mod_small (v / 256 / 256 / 256)); [lia|].
  rewrite !Z.div_div by lia. split; [apply Z.div_pos; lia | apply Z.div_lt_upper_bound; lia].
Qed.

Lemma local_fields (t d c s n : Z) (rest : list Z) :
  0 <= s < 2 ^ 32 -> 0 <= n < 65536 ->
  let h := local_header t d c s n ++ rest in
  u32 0 h = LOCAL_SIG /\ u32 18 h = s /\ u16 26 h = n /\ u16 28 h = 0
  /\ length (local_header t d c s n) = 30%nat.
Proof.
  intros Hs Hn h. split_and!; [reflexivity | | | reflexivity | reflexivity].
  - exact (le32_back s Hs).
  - exact (le16_back n Hn).
Qed.

Lemma central_fields (t d c s n o : Z) (rest : list Z) :
  0 <= c < 2 ^ 32 -> 0 <= s < 2 ^ 32 -> 0 <= n < 65536 -> 0 <= o < 2 ^ 32 ->
  let h := central_header t d c s n o ++ rest in
  u32 0 h = CENTRAL_SIG /\ u32 16 h = c /\ u32 20 h = s /\ u16 28 h = n /\ u16 30 h = 0
  /\ u16 32 h = 0 /\ u32 42 h = o /\ length (central_header t d c s n o) = 46%nat.
Proof.
  intros Hc Hs Hn Ho h. split_and!; try reflexivity.
  - exact (le32_back c Hc).
  - exact (le32_back s Hs).
  - exact (le16_back n Hn).
  - exact (le32_back o Ho).
Qed.

Lemma end_fields (n size o : Z) :
  0 <= n < 65536 -> 0 <= o < 2 ^ 32 ->
  let e := end_record n size o in
  u32 0 e = END_SIG /\ u16 10 e = n /\ u32 16 e = o /\ length e = 22%nat.
Proof.
  intros Hn Ho e. split_and!; try reflexivity.
  - exact (le16_back n Hn).
  - exact (le32_back o Ho).
Qed.

(** ** The archive, file by file *)

Definition file_ok (f : zip_file) : Prop :=
  Forall is_byte (zf_data f) /\ Z.of_nat (length (encode (zf_path f))) < 65536.

Section Layout.
Context (ld : Z -> local_time).

Definition data_size (f : zip_file) : Z := Z.of_nat (length (zf_data f)).
Definition name_size (f : zip_file) : Z := Z.of_nat (length (encode (zf_path f))).
Definition local_size (f : zip_file) : Z := 30 + name_size f + data_size f.
Definition central_size (f : zip_file) : Z := 46 + name_size f.

Definition local_part (f : zip_file) : list Z :=
  let '(t, d) := dosTimeDate ld (zf_mtime f) in
  local_header t d (crc32 (zf_data f) 0) (data_size f) (name_size f).

Definition central_part (off : Z) (f : zip_file) : list Z :=
  let '(t, d) := dosTimeDate ld (zf_mtime f) in
  central_header t d (crc32 (zf_data f) 0) (data_size f) (name_size f) off.

Fixpoint locals (files : list zip_file) : list Z :=
  match files with
  | [] => []
  | f :: fs => local_part f ++ encode (zf_path f) ++ zf_data f ++ locals fs
  end.

Fixpoint centrals (off : Z) (files : list zip_file) : list Z :=
  match files with
  | [] => []
  | f :: fs => central_part off f ++ encode (zf_path f) ++ centrals (off + local_size f) fs
  end.

Fixpoint sizes (size : zip_file -> Z) (files : list zip_file) : Z :=
  match files with [] => 0 | f :: fs => size f + sizes size fs end.

Lemma local_part_length (f : zip_file) : length (local_part f) = 30%nat.
Proof. unfold local_part. destruct (dosTimeDate _ _). reflexivity. Qed.

Lemma central_part_length (off : Z) (f : zip_file) : length (central_part off f) = 46%nat.
Proof. unfold central_part. destruct (dosTimeDate _ _). reflexivity. Qed.

Lemma add_file_eq (st : zip_state) (f : zip_file) :
  add_file ld st f
  = {| zs_parts := zs_parts st ++ [local_part f; encode (zf_path f); zf_data f];
       zs_central := zs_central st ++ [central_part (zs_offset st) f; encode (zf_path f)];
       zs_offset := zs_offset st + local_size f |}.
Proof.
  unfold add_file, local_part, central_part. destruct (dosTimeDate _ _) as [t d]. cbv zeta.
  f_equal.
Qed.

Lemma add_files (files : list zip_file) : forall st,
  let st' := foldl (add_file ld) st files in
  concat (zs_parts st') = concat (zs_parts st) ++ locals files
  /\ concat (zs_central st') = concat (zs_central st) ++ centrals (zs_offset st) files
  /\ zs_offset st' = zs_offset st + sizes local_size files.
Proof.
  induction files as [|f fs IH]; intros st; cbn [foldl locals centrals sizes].
  - rewrite !app_nil_r. split_and!; [done | done | lia].
  - destruct (IH (add_file ld st f)) as (H1 & H2 & H3). rewrite H1, H2, H3, add_file_eq.
    cbn [zs_parts zs_central zs_offset]. rewrite !concat_app. cbn [concat].
    rewrite ?app_nil_r, <- !app_assoc. split_and!; [done | done | lia].
Qed.

Lemma concat_length (l : list (list Z)) (z : Z) :
  foldl (fun sum part => sum + Z.of_nat (length part)) z l = z + Z.of_nat (length (concat l)).
Proof.
  revert z. induction l as [|p l IH]; intros z; cbn [foldl concat]; [simpl; lia|].
  rewrite IH, length_app. lia.
Qed.

Lemma locals_length (files : list zip_file) : Z.of_nat (length (locals files)) = sizes local_size files.
Proof.
  induction files as [|f fs IH]; cbn [locals sizes]; [done|].
  rewrite !length_app, local_part_length. unfold local_size, name_size, data_size in *. lia.
Qed.

Lemma centrals_length (files : list zip_file) : forall off,
  Z.of_nat (length (centrals off files)) = sizes central_size files.
Proof.
  induction files as [|f fs IH]; intros off; cbn [centrals sizes]; [done|].
  rewrite !length_app, central_part_length. specialize (IH (off + local_size f)).
  unfold central_size, name_size in *. lia.
Qed.

Lemma sizes_nonneg (files : list zip_file) :
  0 <= sizes local_size files /\ 0 <= sizes central_size files.
Proof.
  induction files as [|f fs IH]; cbn [sizes]; [lia|].
  unfold local_size, central_size, name_size, data_size in *. lia.
Qed.

(** A file's local header, where it stands, reads as its name and its data. *)
Lemma read_local_part (pre post : list Z) (f : zip_file) :
  Z.of_nat (length (encode (zf_path f))) < 65536 -> data_size f < 2 ^ 32 ->
  read_local (pre ++ local_part f ++ encode (zf_path f) ++ zf_data f ++ post) (length pre)
  = Some (encode (zf_path f), zf_data f).
Proof.
  intros Hn Hd. unfold read_local. rewrite drop_app_length. cbv zeta. unfold local_part.
  destruct (dosTimeDate ld (zf_mtime f)) as [t d].
  set (rest := encode (zf_path f) ++ zf_data f ++ post).
  destruct (local_fields t d (crc32 (zf_data f) 0) (data_size f) (name_size f) rest) as (-> & -> & -> & -> & Hl).
  { unfold data_size in *. lia. }
  { unfold name_size. lia. }
  rewrite Z.eqb_refl. set (hd := local_header _ _ _ _ _) in *. clearbody hd.
  unfold sub, name_size, data_size. rewrite !Nat2Z.id, Nat.add_0_r.
  rewrite !drop_app_ge, !Hl by (rewrite Hl; lia). unfold rest.
  replace (30 - 30)%nat with 0%nat by lia. rewrite drop_0, take_app_length.
  replace (30 + length (encode (zf_path f)) - 30)%nat with (length (encode (zf_path f))) by lia.
  by rewrite drop_app_length, take_app_length.
Qed.

Lemma read_central_step (count : nat) (archive dir name data : list Z) (n o : Z) :
  u32 0 dir = CENTRAL_SIG -> u32 16 dir = crc32 data 0 -> u32 20 dir = Z.of_nat (length data) ->
  u16 28 dir = n -> u16 30 dir = 0 -> u16 32 dir = 0 -> u32 42 dir = o ->
  sub 46 (Z.to_nat n) dir = name -> read_local archive (Z.to_nat o) = Some (name, data) ->
  read_central (S count) archive dir
  = rest ← read_central count archive (drop (46 + Z.to_nat n) dir); Some ((name, data) :: rest).
Proof.
  intros H0 H16 H20 H28 H30 H32 H42 Hn Hl. cbn [read_central].
  rewrite H0, H28, H30, H32, H42, Hn, Hl, H16, H20. rewrite Z.eqb_refl. cbn [mbind option_bind].
  rewrite bool_decide_eq_true_2, !Z.eqb_refl by done. cbn [andb Z.to_nat].
  by rewrite !Nat.add_0_r.
Qed.

Lemma read_centrals (files : list zip_file) : forall (pre post tail : list Z) (off : Z),
  Forall file_ok files -> Z.of_nat (length pre) = off ->
  off + sizes local_size files < 2 ^ 32 ->
  read_central (length files) (pre ++ locals files ++ post) (centrals off files ++ tail)
  = Some (map (fun f => (encode (zf_path f), zf_data f)) files).
Proof.
  induction files as [|f fs IH]; intros pre post tail off Hok Hoff Hmax; [done|].
  apply Forall_cons in Hok as [[Hbytes Hname] Hok]. cbn [sizes] in Hmax.
  destruct (sizes_nonneg fs) as [Hs _].
  assert (Hd : 0 <= data_size f < 2 ^ 32) by (unfold local_size, name_size, data_size in *; lia).
  assert (Ho : 0 <= off < 2 ^ 32) by (unfold local_size, name_size, data_size in *; lia).
  cbn [length locals centrals map]. unfold central_part.
  destruct (dosTimeDate ld (zf_mtime f)) as [t d] eqn:Et.
  rewrite <- !app_assoc.
  set (rest := centrals (off + local_size f) fs ++ tail).
  destruct (central_fields t d (crc32 (zf_data f) 0) (data_size f) (name_size f) off
      (encode (zf_path f) ++ rest)) as (F0 & F16 & F20 & F28 & F30 & F32 & F42 & Hl);
    [apply crc32_range | done | unfold name_size; lia | done |].
  set (hd := central_header _ _ _ _ _ _) in *. clearbody hd.
  erewrite read_central_step; [| exact F0 | exact F16 | exact F20 | exact F28 | exact F30 | exact F32 | exact F42 | |].
  - unfold name_size. rewrite Nat2Z.id, drop_app_ge, Hl by (rewrite Hl; lia).
    replace (46 + _ - 46)%nat with (length (encode (zf_path f))) by lia.
    rewrite drop_app_length.
    specialize (IH (pre ++ local_part f ++ encode (zf_path f) ++ zf_data f) post tail (off + local_size f) Hok).
    rewrite <- !app_assoc in IH. unfold rest. rewrite IH; [done | | lia].
    rewrite !length_app, local_part_length. unfold local_size, name_size, data_size. lia.
  - unfold sub, name_size. rewrite Nat2Z.id, drop_app_ge, Hl, Nat.sub_diag, drop_0 by (rewrite Hl; lia).
    apply take_app_length.
  - rewrite <- Hoff, Nat2Z.id. apply read_local_part; [done | lia].
Qed.

Lemma fits_spec (files : list zip_file) (total : Z) :
  total <= ZIP_MAX_BYTES ->
  fits_loop (map (fun f => {| sf_path := zf_path f; sf_size := data_size f |}) files) total = Some tt ->
  total + sizes local_size files + sizes central_size files <= ZIP_MAX_BYTES.
Proof.
  revert total. induction files as [|f fs IH]; intros total Ht; cbn [map fits_loop sizes]; [lia|].
  cbv zeta. cbn [sf_size sf_path]. destruct (Z.ltb_spec ZIP_MAX_BYTES
    (total + (data_size f + (30 + Z.of_nat (length (encode (zf_path f)))) + (46 + Z.of_nat (length (encode (zf_path f))))))); [done|].
  intros H1. apply IH in H1; [|done]. unfold local_size at 1, central_size at 1, name_size. lia.
Qed.
End Layout.

(** ** Theorems *)

(** CRC-32.  On 32-bit integers with JavaScript's signed operators and its 256-entry table,
    [crc32] computes the CRC-32 of the bit-by-bit definition; it may be continued over a second
    piece, and the result is an unsigned 32-bit integer. *)
Theorem crc32_bitwise (a b : list Z) (previous : Z) :
  Forall is_byte a -> Forall is_byte b -> 0 <= previous < 2 ^ 32 ->
  crc32 a previous = crc_spec a previous
  /\ crc32 (a ++ b) previous = crc32 b (crc32 a previous)
  /\ 0 <= crc32 a previous < 2 ^ 32.
Proof.
  intros Ha Hb Hp. split_and!; [by apply crc32_unfold | | apply crc32_range..].
  rewrite (crc32_unfold b) by (try done; apply crc32_range).
  rewrite !crc32_unfold by (try done; by apply Forall_app). unfold crc_spec.
  by rewrite foldl_app, (Z.lxor_assoc _ 0xffffffff 0xffffffff), Z.lxor_nilpotent, Z.lxor_0_r.
Qed.

Lemma crc32_bitwise_witness :
  crc32 [1; 2; 255; 254] 0 = crc32 [255; 254] (crc32 [1; 2] 0).
Proof.
  apply (crc32_bitwise [1; 2] [255; 254] 0).
  - repeat constructor; discriminate.
  - repeat constructor; discriminate.
  - split; [discriminate | reflexivity].
Defined.

(** the archive reads back.  Where [buildZip] does not refuse, names are shorter than 64 KiB and
    data are bytes, a reader that follows the end record, the central directory and the local
    headers finds exactly the files, in order, each with its UTF-8 name, its bytes, and the size and
    CRC-32 its records state; the archive is no longer than 4 GiB. *)
Theorem zip_reads_back (ld : Z -> local_time) (files : list zip_file) (archive : list Z) :
  Forall file_ok files -> buildZip ld files = Some archive ->
  unzip archive = Some (map (fun f => (encode (zf_path f), zf_data f)) files)
  /\ Z.of_nat (length archive) <= ZIP_MAX_BYTES.
Proof.
  intros Hok. unfold buildZip, checkZipFits. rewrite length_map.
  destruct (Z.ltb_spec ZIP_MAX_FILES (Z.of_nat (length files))) as [|Hcount]; [done|].
  destruct (fits_loop _ 22) as [[]|] eqn:Hfit; [|done]. cbn [mbind option_bind]. cbv zeta.
  apply (fits_spec files 22) in Hfit; [|done].
  destruct (add_files ld files {| zs_parts := []; zs_central := []; zs_offset := 0 |}) as (H1 & H2 & H3).
  cbn [zs_parts zs_central zs_offset concat app] in H1, H2, H3.
  rewrite H1, H2, H3, concat_length, H2, Z.add_0_l. intros [= <-].
  destruct (sizes_nonneg files) as [Hl Hc]. unfold ZIP_MAX_BYTES, ZIP_MAX_FILES in *.
  rewrite Z.add_0_l in *.
  set (fin := end_record _ _ _).
  destruct (end_fields (Z.of_nat (length files)) (Z.of_nat (length (centrals ld 0 files)))
              (sizes local_size files)) as (E1 & E2 & E3 & E4); [lia | lia|]. fold fin in E1, E2, E3, E4.
  assert (Hlen : length (locals ld files ++ centrals ld 0 files ++ fin)
                 = (length (locals ld files ++ centrals ld 0 files) + 22)%nat)
    by (rewrite app_assoc, length_app, E4; done).
  split.
  - unfold unzip. rewrite Hlen, Nat.add_sub, (app_assoc (locals ld files)), drop_app_length.
    rewrite E1, Z.eqb_refl, E2, E3, Nat2Z.id, <- app_assoc.
    rewrite <- (locals_length ld files), Nat2Z.id, drop_app_length.
    apply (read_centrals ld files [] (centrals ld 0 files ++ fin) fin 0); [done | done | lia].
  - rewrite Hlen, length_app. pose proof (locals_length ld files).
    pose proof (centrals_length ld files 0). lia.
Qed.

(** Local time that ignores its argument. *)
Definition noon (_ : Z) : local_time :=
  {| lt_year := 2026; lt_month := 6; lt_day := 1; lt_hours := 12; lt_minutes := 0; lt_seconds := 0 |}.

Definition two_files : list zip_file :=
  [{| zf_path := js "a/b.txt"; zf_data := [104; 105]; zf_mtime := 0 |};
   {| zf_path := js "é"; zf_data := []; zf_mtime := 1 |}].

Lemma zip_reads_back_witness :
  exists archive, buildZip noon two_files = Some archive
    /\ unzip archive = Some [(encode (js "a/b.txt"), [104; 105]); ([0xC3; 0xA9], [])].
Proof.
  eexists. split; [vm_compute; reflexivity|].
  refine (eq_trans (proj1 (zip_reads_back noon two_files _ _ _)) _).
  - repeat constructor; try discriminate; vm_compute; reflexivity || (intros H; discriminate H) || lia.
  - vm_compute. reflexivity.
  - vm_compute. reflexivity.
Defined.

(** A name of 64 KiB is not refused, and its length does not fit its field. *)
Example long_name_wraps :
  checkZipFits [{| sf_path := replicate 65536 97%N; sf_size := 0 |}] = Some tt
  /\ u16 26 (local_header 0 0 0 0 65536) = 0.
Proof. vm_compute. done. Qed.
