(* ===== verification/Utf8.v ===== *)
(** * UTF-8 and URLs

    UTF-8 is injective: two strings without lone surrogates and with the same UTF-8 are the same string; a lone
    surrogate is encoded as U+FFFD, so without the condition this fails.  Then [decodeURIComponent] and [URLSearchParams],
    with their inverse laws: what [encodeURIComponent] writes reads back. *)

From S2P Require Import Prelude JsString.
#[local] Open Scope N_scope.

(** Linear arithmetic with division by numerals, on [N]. *)
Ltac ndiv_lia := zify; Z.to_euclidean_division_equations; lia.

(** Sixteen-bit code units, every surrogate with its partner. *)
Definition well_formed (s : jstr) : Prop :=
  Forall (fun c => c < 65536) s /\ Forall (fun o => is_Some o) (code_points s).

(** The code units of a code point. *)
Definition units_of (p : N) : jstr :=
  if p <? 0x10000 then [p]
  else [0xD800 + (p - 0x10000) / 1024; 0xDC00 + (p - 0x10000) mod 1024].

Definition scalar (p : N) : Prop := p < 0x110000.

Lemma code_points_units (s : jstr) : well_formed s ->
  Forall (fun o => exists p, o = Some p /\ scalar p) (code_points s)
  /\ flat_map (fun o => units_of (default 0 o)) (code_points s) = s.
Proof.
  unfold well_formed, scalar.
  induction s as [s IH] using (induction_ltof1 _ (@length N)); unfold ltof in IH.
  destruct s as [|c r]; intros [Hc Hs]; [split; [constructor | done]|].
  inversion Hc as [|? ? Hc1 Hr]; subst. cbn [code_points] in *.
  destruct ((0xD800 <=? c) && (c <=? 0xDBFF)) eqn:Hhi.
  - destruct r as [|d r']; [by inversion Hs as [|? ? [? ?] _]|].
    apply andb_true_iff in Hhi as [H1%N.leb_le H2%N.leb_le].
    destruct ((0xDC00 <=? d) && (d <=? 0xDFFF)) eqn:Hlo; [|by inversion Hs as [|? ? [? ?] _]].
    apply andb_true_iff in Hlo as [H3%N.leb_le H4%N.leb_le].
    inversion Hs; subst. inversion Hr; subst. destruct (IH r') as [A B]; [simpl; lia | done|].
    split; [constructor; [eexists; split; [done | lia] | done]|].
    cbn [flat_map default from_option id]. rewrite B. unfold units_of.
    destruct (N.ltb_spec (65536 + (c - 55296) * 1024 + (d - 56320)) 0x10000); [lia|].
    assert (E1 : 0xD800 + (0x10000 + (c - 0xD800) * 1024 + (d - 0xDC00) - 0x10000) / 1024 = c)
      by (ndiv_lia).
    assert (E2 : 0xDC00 + (0x10000 + (c - 0xD800) * 1024 + (d - 0xDC00) - 0x10000) mod 1024 = d)
      by (ndiv_lia).
    by rewrite E1, E2.
  - destruct ((0xDC00 <=? c) && (c <=? 0xDFFF)); [by inversion Hs as [|? ? [? ?] _]|].
    inversion Hs; subst. destruct (IH r) as [A B]; [simpl; lia | done|].
    split; [constructor; [eexists; split; [done | lia] | done]|].
    cbn [flat_map default from_option id]. rewrite B. unfold units_of.
    by destruct (N.ltb_spec c 0x10000); [|lia].
Qed.

(** The first code point of a UTF-8 text, and what follows. *)
Definition utf8_first (l : list N) : option (N * list N) :=
  match l with
  | b :: r =>
      if b <? 0x80 then Some (b, r)
      else if b <? 0xE0 then
        match r with b1 :: r => Some ((b - 0xC0) * 64 + (b1 - 0x80), r) | _ => None end
      else if b <? 0xF0 then
        match r with
        | b1 :: b2 :: r => Some ((b - 0xE0) * 4096 + (b1 - 0x80) * 64 + (b2 - 0x80), r)
        | _ => None
        end
      else
        match r with
        | b1 :: b2 :: b3 :: r =>
            Some ((b - 0xF0) * 262144 + (b1 - 0x80) * 4096 + (b2 - 0x80) * 64 + (b3 - 0x80), r)
        | _ => None
        end
  | [] => None
  end.

Lemma utf8_first_back (p : N) (r : list N) :
  scalar p -> utf8_first (utf8_of_code_point p ++ r) = Some (p, r).
Proof.
  unfold scalar, utf8_of_code_point, utf8_first. intros Hp.
  destruct (N.ltb_spec p 0x80); [|destruct (N.ltb_spec p 0x800); [|destruct (N.ltb_spec p 0x10000)]];
    cbn [app].
  - by destruct (N.ltb_spec p 0x80); [|lia].
  - destruct (N.ltb_spec (0xC0 + p / 64) 0x80); [ndiv_lia|].
    destruct (N.ltb_spec (0xC0 + p / 64) 0xE0); [|ndiv_lia].
    do 2 f_equal. ndiv_lia.
  - destruct (N.ltb_spec (0xE0 + p / 4096) 0x80); [ndiv_lia|].
    destruct (N.ltb_spec (0xE0 + p / 4096) 0xE0); [ndiv_lia|].
    destruct (N.ltb_spec (0xE0 + p / 4096) 0xF0); [|ndiv_lia].
    do 2 f_equal. ndiv_lia.
  - destruct (N.ltb_spec (0xF0 + p / 262144) 0x80); [ndiv_lia|].
    destruct (N.ltb_spec (0xF0 + p / 262144) 0xE0); [ndiv_lia|].
    destruct (N.ltb_spec (0xF0 + p / 262144) 0xF0); [ndiv_lia|].
    do 2 f_equal. ndiv_lia.
Qed.

Lemma utf8_encode_inj (s t : jstr) :
  well_formed s -> well_formed t -> utf8_encode s = utf8_encode t -> s = t.
Proof.
  intros [As Bs]%code_points_units [At_ Bt]%code_points_units E. rewrite <- Bs, <- Bt. f_equal.
  clear Bs Bt. apply (f_equal utf8_first) in E as E0. unfold utf8_encode in E, E0.
  revert At_ E E0. generalize (code_points t).
  induction As as [|o l (p & -> & Hp) As IH]; intros [|o' l'] At_ E E0; [done | | |];
    [inversion At_ as [|? ? (q & -> & Hq) _]; subst | |inversion At_ as [|? ? (q & -> & Hq) At']; subst];
    cbn [flat_map default from_option id] in E, E0; rewrite ?utf8_first_back in E0 by done; [done..|].
  injection E0 as -> E1. f_equal.
  apply IH; [done | done | by rewrite E1].
Qed.

(** A string without surrogates is well formed. *)
Lemma ascii_well_formed (s : jstr) : forallb (fun c => c <? 55296) s = true -> well_formed s.
Proof.
  intros Hs. rewrite forallb_forall in Hs. split.
  - apply Forall_forall. intros c Hc. apply list_elem_of_In, Hs, N.ltb_lt in Hc. lia.
  - induction s as [|c s IH]; [constructor|]. pose proof (Hs c (or_introl eq_refl)) as Hc%N.ltb_lt.
    cbn [code_points]. destruct (N.leb_spec 0xD800 c); [lia|]. destruct (N.leb_spec 0xDC00 c); [lia|].
    cbn [andb]. constructor; [by eexists|]. apply IH. intros d Hd. apply Hs. by right.
Qed.

(** ** Reading URLs *)

(** *** UTF-8 *)

(** The decoder's state between two bytes of a sequence: how many it needs after the next,
    what it has, the bounds of the next. *)
Record utf8_state := { us_needed : nat; us_point : N; us_lower : N; us_upper : N }.

(** How a byte starts: a code point of its own, a sequence, or an error. *)
Definition utf8_start (b : N) : option (N + utf8_state) :=
  if b <? 0x80 then Some (inl b)
  else if (0xC2 <=? b) && (b <=? 0xDF) then Some (inr {| us_needed := 0; us_point := b - 0xC0; us_lower := 0x80; us_upper := 0xBF |})
  else if (0xE0 <=? b) && (b <=? 0xEF) then
    Some (inr {| us_needed := 1; us_point := b - 0xE0; us_lower := (if b =? 0xE0 then 0xA0 else 0x80);
                 us_upper := (if b =? 0xED then 0x9F else 0xBF) |})
  else if (0xF0 <=? b) && (b <=? 0xF4) then
    Some (inr {| us_needed := 2; us_point := b - 0xF0; us_lower := (if b =? 0xF0 then 0x90 else 0x80);
                 us_upper := (if b =? 0xF4 then 0x8F else 0xBF) |})
  else None.

(** Decoding of items, each a code unit of the text ([inl]) or a byte ([inr]).  A [lossy] decoder puts U+FFFD for what is
    malformed; the other one gives up. *)
Fixpoint decode_items (lossy : bool) (state : option utf8_state) (items : list (N + N)) : option jstr :=
  let bad (rest : option jstr) := if lossy then rest ≫= fun rest => Some (0xFFFD :: rest) else None in
  match items with
  | [] => match state with None => Some [] | Some _ => bad (Some []) end
  | inl c :: items =>
      let rest := decode_items lossy None items ≫= fun rest => Some (c :: rest) in
      match state with None => rest | Some _ => bad rest end
  | inr b :: items =>
      let start :=
        match utf8_start b with
        | Some (inl p) => decode_items lossy None items ≫= fun rest => Some (p :: rest)
        | Some (inr st) => decode_items lossy (Some st) items
        | None => bad (decode_items lossy None items)
        end in
      match state with
      | None => start
      | Some st =>
          if (us_lower st <=? b) && (b <=? us_upper st) then
            let point := us_point st * 64 + (b - 0x80) in
            match us_needed st with
            | O => decode_items lossy None items ≫= fun rest => Some (units_of point ++ rest)
            | S n => decode_items lossy (Some {| us_needed := n; us_point := point; us_lower := 0x80; us_upper := 0xBF |}) items
            end
          else bad start
      end
  end.

(** *** Percent-decoding *)

Definition hex_digit (c : N) : option N :=
  if is_digit c then Some (c - 48) else if (65 <=? c) && (c <=? 70) then Some (c - 55) else if (97 <=? c) && (c <=? 102) then Some (c - 87) else None.

(** [decodeURIComponent]'s reading of [%XX]: [None] where the two digits are not there. *)
Fixpoint uri_items (s : jstr) : option (list (N + N)) :=
  match s with
  | [] => Some []
  | c :: r =>
      if c =? 37 then
        match r with
        | h :: l :: r =>
            match hex_digit h, hex_digit l with
            | Some h, Some l => uri_items r ≫= fun items => Some (inr (h * 16 + l) :: items)
            | _, _ => None
            end
        | _ => None
        end
      else uri_items r ≫= fun items => Some (inl c :: items)
  end.

(** [decodeURIComponent(s)]; [None] is the URIError. *)
Definition decode_uri_component (s : jstr) : option jstr := uri_items s ≫= decode_items false None.

(** The percent-decoding of bytes that [URLSearchParams] does: what is no [%XX] stays. *)
Fixpoint percent_decode (s : list N) : list N :=
  match s with
  | [] => []
  | c :: r =>
      match r with
      | h :: l :: r' =>
          match (if c =? 37 then hex_digit h else None), hex_digit l with
          | Some h, Some l => (h * 16 + l) :: percent_decode r'
          | _, _ => c :: percent_decode r
          end
      | _ => c :: percent_decode r
      end
  end.

Definition form_decode (s : jstr) : jstr :=
  let plus := map (fun c => if c =? 43 then 32 else c) s in
  default [] (decode_items true None (map inr (percent_decode (utf8_encode plus)))).

(** [new URLSearchParams(search)] as its pairs, in order. *)
Definition search_pairs (search : jstr) : list (jstr * jstr) :=
  let query := match search with c :: r => if c =? 63 then r else search | [] => [] end in
  omap (fun piece =>
          match piece with
          | [] => None
          | _ =>
              match split_on 61 piece with
              | name :: value => Some (form_decode name, form_decode (join [61] value))
              | [] => None
              end
          end) (split_on 38 query).

(** [params.get(name)] *)
Definition search_get (name : jstr) (search : jstr) : option jstr :=
  snd <$> List.find (fun p => bool_decide (p.1 = name)) (search_pairs search).

(** *** What is encoded reads back *)

(** A code point that is no surrogate. *)
Definition scalar_value (p : N) : Prop := p < 0xD800 \/ (0xE000 <= p /\ p < 0x110000).

Lemma decode_point (lossy : bool) (p : N) (items : list (N + N)) : scalar_value p ->
  decode_items lossy None (map inr (utf8_of_code_point p) ++ items) = decode_items lossy None items ≫= fun rest => Some (units_of p ++ rest).
Proof.
  intros Hp. unfold utf8_of_code_point, scalar_value in *.
  destruct (N.ltb_spec p 0x80) as [H|H]; [|destruct (N.ltb_spec p 0x800) as [H2|H2]; [|destruct (N.ltb_spec p 0x10000) as [H3|H3]]];
    cbn [map app decode_items]; unfold utf8_start.
  - rewrite (proj2 (N.ltb_lt _ _) H). unfold units_of. by rewrite (proj2 (N.ltb_lt p 0x10000)) by lia.
  - rewrite (proj2 (N.ltb_ge (0xC0 + p / 64) 0x80)) by ndiv_lia.
    rewrite (proj2 (N.leb_le 0xC2 (0xC0 + p / 64))), (proj2 (N.leb_le (0xC0 + p / 64) 0xDF)) by ndiv_lia. cbn [andb us_lower us_upper us_needed us_point].
    rewrite (proj2 (N.leb_le 0x80 _)), (proj2 (N.leb_le _ 0xBF)) by ndiv_lia. cbn [andb].
    by replace ((0xC0 + p / 64 - 0xC0) * 64 + (0x80 + p mod 64 - 0x80)) with p by ndiv_lia.
  - rewrite (proj2 (N.ltb_ge (0xE0 + p / 4096) 0x80)) by ndiv_lia.
    rewrite (proj2 (N.leb_gt (0xE0 + p / 4096) 0xDF)) by ndiv_lia. rewrite andb_false_r.
    rewrite (proj2 (N.leb_le 0xE0 (0xE0 + p / 4096))), (proj2 (N.leb_le (0xE0 + p / 4096) 0xEF)) by ndiv_lia. cbn [andb us_lower us_upper us_needed us_point].
    replace ((if 0xE0 + p / 4096 =? 0xE0 then 0xA0 else 0x80) <=? 0x80 + (p / 64) mod 64) with true
      by (symmetry; apply N.leb_le; destruct (N.eqb_spec (0xE0 + p / 4096) 0xE0); ndiv_lia).
    replace (0x80 + (p / 64) mod 64 <=? (if 0xE0 + p / 4096 =? 0xED then 0x9F else 0xBF)) with true
      by (symmetry; apply N.leb_le; destruct (N.eqb_spec (0xE0 + p / 4096) 0xED); ndiv_lia).
    cbn [andb us_lower us_upper us_needed us_point]. rewrite (proj2 (N.leb_le 0x80 _)), (proj2 (N.leb_le _ 0xBF)) by ndiv_lia. cbn [andb].
    by replace (((0xE0 + p / 4096 - 0xE0) * 64 + (0x80 + (p / 64) mod 64 - 0x80)) * 64 + (0x80 + p mod 64 - 0x80)) with p by ndiv_lia.
  - rewrite (proj2 (N.ltb_ge (0xF0 + p / 262144) 0x80)) by ndiv_lia.
    rewrite (proj2 (N.leb_gt (0xF0 + p / 262144) 0xDF)) by ndiv_lia. rewrite andb_false_r.
    rewrite (proj2 (N.leb_gt (0xF0 + p / 262144) 0xEF)) by ndiv_lia. rewrite andb_false_r.
    rewrite (proj2 (N.leb_le 0xF0 (0xF0 + p / 262144))), (proj2 (N.leb_le (0xF0 + p / 262144) 0xF4)) by ndiv_lia. cbn [andb us_lower us_upper us_needed us_point].
    replace ((if 0xF0 + p / 262144 =? 0xF0 then 0x90 else 0x80) <=? 0x80 + (p / 4096) mod 64) with true
      by (symmetry; apply N.leb_le; destruct (N.eqb_spec (0xF0 + p / 262144) 0xF0); ndiv_lia).
    replace (0x80 + (p / 4096) mod 64 <=? (if 0xF0 + p / 262144 =? 0xF4 then 0x8F else 0xBF)) with true
      by (symmetry; apply N.leb_le; destruct (N.eqb_spec (0xF0 + p / 262144) 0xF4); ndiv_lia).
    cbn [andb us_lower us_upper us_needed us_point].
    rewrite (proj2 (N.leb_le 0x80 (0x80 + (p / 64) mod 64))), (proj2 (N.leb_le (0x80 + (p / 64) mod 64) 0xBF)) by ndiv_lia.
    cbn [andb us_lower us_upper us_needed us_point].
    rewrite (proj2 (N.leb_le 0x80 (0x80 + p mod 64))), (proj2 (N.leb_le (0x80 + p mod 64) 0xBF)) by ndiv_lia. cbn [andb].
    by replace ((((0xF0 + p / 262144 - 0xF0) * 64 + (0x80 + (p / 4096) mod 64 - 0x80)) * 64 + (0x80 + (p / 64) mod 64 - 0x80)) * 64
      + (0x80 + p mod 64 - 0x80)) with p by ndiv_lia.
Qed.

(** The code points of a well-formed text, with the law that brings the text back. *)
Lemma code_points_scalar (s : jstr) : Forall (fun o => match o with Some p => p < 0xD800 \/ 0xE000 <= p | None => True end) (code_points s).
Proof.
  induction s as [s IH] using (induction_ltof1 _ (@length N)); unfold ltof in IH. destruct s as [|c r]; [constructor|]. cbn [code_points].
  destruct ((0xD800 <=? c) && (c <=? 0xDBFF)) eqn:Hhi.
  - destruct r as [|d r']; [by repeat constructor|]. destruct ((0xDC00 <=? d) && (d <=? 0xDFFF)) eqn:Hlo.
    + constructor; [right|apply IH; cbn; lia]. apply andb_true_iff in Hhi as [H1%N.leb_le H2%N.leb_le]. lia.
    + constructor; [done | apply IH; cbn; lia].
  - destruct ((0xDC00 <=? c) && (c <=? 0xDFFF)) eqn:Hlo; (constructor; [|apply IH; cbn; lia]); [done|].
    apply andb_false_iff in Hhi, Hlo. rewrite !N.leb_gt in *. lia.
Qed.

Lemma points_of (s : jstr) : well_formed s -> exists ps, code_points s = map Some ps /\ Forall scalar_value ps /\ flat_map units_of ps = s.
Proof.
  intros Hs. destruct (code_points_units s Hs) as [H1 H2]. pose proof (code_points_scalar s) as H3.
  enough (exists ps, code_points s = map Some ps /\ Forall scalar_value ps /\ flat_map units_of ps = flat_map (fun o => units_of (default 0 o)) (code_points s)) as G
    by (by rewrite H2 in G).
  revert H3. clear H2 Hs. induction H1 as [|o l (p & -> & Hp) _ IH]; intros H3; [by exists []|]. apply Forall_cons in H3 as [Hq H3].
  destruct (IH H3) as (ps & -> & Hps & E). exists (p :: ps).
  split_and!; [done | constructor; [|done] | cbn [flat_map default from_option]; by rewrite E]. unfold scalar_value, scalar in *. lia.
Qed.

(** The items an encoded code point gives. *)
Definition point_items (p : N) : list (N + N) := if uri_unreserved p then [inl p] else map inr (utf8_of_code_point p).

Lemma unreserved_ascii (p : N) : uri_unreserved p = true -> 33 <= p < 127 /\ p <> 37 /\ p <> 38 /\ p <> 43 /\ p <> 61 /\ p <> 63.
Proof.
  unfold uri_unreserved, is_digit. rewrite !orb_true_iff, !andb_true_iff, !N.leb_le, existsb_exists.
  intros [[[H|H]|H]|(x & Hx & ->%N.eqb_eq)]; [lia..|]. cbn in Hx. repeat destruct Hx as [<-|Hx]; (lia || done).
Qed.

Lemma point_bytes (p : N) : p < 0x110000 -> Forall (fun b => b < 256) (utf8_of_code_point p).
Proof.
  intros Hp. unfold utf8_of_code_point. repeat case_match; repeat constructor; rewrite ?N.ltb_lt, ?N.ltb_ge in *; ndiv_lia.
Qed.

Lemma upper_digit_back (d : N) : d < 16 -> hex_digit (hex_digit_upper d) = Some d /\ uri_unreserved (hex_digit_upper d) = true.
Proof.
  intros Hd. assert (In d (map N.of_nat (seq 0 16))) as H.
  { apply in_map_iff. exists (N.to_nat d). split; [lia|]. apply in_seq. lia. }
  assert (F : forallb (fun d => bool_decide (hex_digit (hex_digit_upper d) = Some d) && uri_unreserved (hex_digit_upper d)) (map N.of_nat (seq 0 16)) = true)
    by (vm_compute; reflexivity).
  rewrite forallb_forall in F. by apply F, andb_true_iff in H as [H1%bool_decide_eq_true H2].
Qed.

Lemma items_bytes (bs : list N) (t : jstr) : Forall (fun b => b < 256) bs ->
  uri_items (flat_map percent_byte bs ++ t) = uri_items t ≫= fun items => Some (map inr bs ++ items).
Proof.
  induction 1 as [|b bs Hb _ IH]; [cbn; by destruct (uri_items t)|]. cbn [flat_map percent_byte app uri_items]. cbn [N.eqb Pos.eqb].
  destruct (upper_digit_back (b / 16)) as [-> _]; [ndiv_lia|]. destruct (upper_digit_back (b mod 16)) as [-> _]; [ndiv_lia|]. rewrite IH.
  destruct (uri_items t); [|done]. cbn. do 3 f_equal. ndiv_lia.
Qed.

(** What [encodeURIComponent] writes, code point by code point. *)
Definition encoded_point (p : N) : jstr := if uri_unreserved p then [p] else flat_map percent_byte (utf8_of_code_point p).

Lemma encoded_points (s : jstr) (ps : list N) : code_points s = map Some ps -> encode_uri_component s = Some (flat_map encoded_point ps).
Proof.
  unfold encode_uri_component. intros ->. induction ps as [|p ps IH]; [done|]. cbn [map foldr]. by rewrite IH.
Qed.

Lemma uri_points (ps : list N) : Forall scalar_value ps -> uri_items (flat_map encoded_point ps) = Some (flat_map point_items ps).
Proof.
  induction 1 as [|p ps Hp _ IH]; [done|]. cbn [flat_map]. unfold encoded_point at 1, point_items at 1. destruct (uri_unreserved p) eqn:E.
  - cbn [app uri_items]. apply unreserved_ascii in E as (_ & H & _). apply N.eqb_neq in H. by rewrite H, IH.
  - rewrite items_bytes, IH; [done|]. apply point_bytes. unfold scalar_value in Hp. lia.
Qed.

Lemma decode_points (lossy : bool) (ps : list N) : Forall scalar_value ps -> decode_items lossy None (flat_map point_items ps) = Some (flat_map units_of ps).
Proof.
  induction 1 as [|p ps Hp _ IH]; [done|]. cbn [flat_map]. unfold point_items at 1. destruct (uri_unreserved p) eqn:E.
  - cbn [app decode_items]. rewrite IH. apply unreserved_ascii in E as (E & _). unfold units_of at 2. by rewrite (proj2 (N.ltb_lt p 0x10000)) by lia.
  - by rewrite decode_point, IH.
Qed.

(** [decodeURIComponent(encodeURIComponent(s))] *)
Lemma decode_encode (s : jstr) : well_formed s -> exists e, encode_uri_component s = Some e /\ decode_uri_component e = Some s.
Proof.
  intros Hs. destruct (points_of s Hs) as (ps & Hc & Hp & E). exists (flat_map encoded_point ps). split; [by apply encoded_points|].
  unfold decode_uri_component. rewrite uri_points by done. cbn. rewrite decode_points by done. by rewrite E.
Qed.

(** A text that a query may hold as it is. *)
Definition query_plain (e : jstr) : Prop := Forall (fun c => c < 128 /\ c <> 38 /\ c <> 43 /\ c <> 61 /\ c <> 63) e.

Lemma bytes_plain (bs : list N) : Forall (fun b => b < 256) bs -> query_plain (flat_map percent_byte bs).
Proof.
  induction 1 as [|b bs Hb _ IH]; [constructor|]. cbn [flat_map percent_byte app].
  destruct (upper_digit_back (b / 16)) as [_ H1%unreserved_ascii]; [ndiv_lia|]. destruct (upper_digit_back (b mod 16)) as [_ H2%unreserved_ascii]; [ndiv_lia|].
  repeat constructor; lia || done.
Qed.

Lemma points_plain (ps : list N) : Forall scalar_value ps -> query_plain (flat_map encoded_point ps).
Proof.
  induction 1 as [|p ps Hp _ IH]; [constructor|]. cbn [flat_map]. apply Forall_app. split; [|done]. unfold encoded_point.
  destruct (uri_unreserved p) eqn:E; [apply unreserved_ascii in E; repeat constructor; lia|]. apply bytes_plain, point_bytes. unfold scalar_value in Hp. lia.
Qed.

Lemma utf8_plain (e : jstr) : Forall (fun c => c < 128) e -> utf8_encode e = e.
Proof.
  induction 1 as [|c e Hc _ IH]; [done|]. unfold utf8_encode in *. cbn [code_points].
  rewrite (proj2 (N.leb_gt 0xD800 c)), (proj2 (N.leb_gt 0xDC00 c)) by lia. cbn [andb flat_map default from_option]. rewrite IH.
  unfold utf8_of_code_point, Datatypes.id. by rewrite (proj2 (N.ltb_lt c 0x80)) by lia.
Qed.

Lemma percent_bytes (bs t : list N) : Forall (fun b => b < 256) bs -> percent_decode (flat_map percent_byte bs ++ t) = bs ++ percent_decode t.
Proof.
  induction 1 as [|b bs Hb _ IH]; [done|]. cbn [flat_map percent_byte app percent_decode]. cbn [N.eqb Pos.eqb].
  destruct (upper_digit_back (b / 16)) as [-> _]; [ndiv_lia|]. destruct (upper_digit_back (b mod 16)) as [-> _]; [ndiv_lia|]. rewrite IH. f_equal. ndiv_lia.
Qed.

Lemma percent_points (ps : list N) : Forall scalar_value ps -> percent_decode (flat_map encoded_point ps) = flat_map utf8_of_code_point ps.
Proof.
  induction 1 as [|p ps Hp _ IH]; [done|]. cbn [flat_map]. unfold encoded_point at 1. destruct (uri_unreserved p) eqn:E.
  - apply unreserved_ascii in E as (E & H & _). apply N.eqb_neq in H. cbn [app percent_decode]. rewrite H, IH.
    assert (U : utf8_of_code_point p = [p]) by (unfold utf8_of_code_point; by rewrite (proj2 (N.ltb_lt p 0x80)) by lia). rewrite U. by destruct (flat_map encoded_point ps) as [|? [|? ?]].
  - rewrite percent_bytes, IH; [done|]. apply point_bytes. unfold scalar_value in Hp. lia.
Qed.

Lemma decode_bytes (lossy : bool) (ps : list N) : Forall scalar_value ps ->
  decode_items lossy None (map inr (flat_map utf8_of_code_point ps)) = Some (flat_map units_of ps).
Proof. induction 1 as [|p ps Hp _ IH]; [done|]. cbn [flat_map]. by rewrite map_app, decode_point, IH. Qed.

(** A value of a query that [encodeURIComponent] wrote. *)
Lemma form_decode_encode (s : jstr) : well_formed s ->
  exists e, encode_uri_component s = Some e /\ query_plain e /\ form_decode e = s.
Proof.
  intros Hs. destruct (points_of s Hs) as (ps & Hc & Hp & E). exists (flat_map encoded_point ps). pose proof (points_plain ps Hp) as Hq.
  split_and!; [by apply encoded_points | done|]. unfold form_decode.
  replace (map (fun c => if c =? 43 then 32 else c) (flat_map encoded_point ps)) with (flat_map encoded_point ps).
  - rewrite utf8_plain, percent_points, decode_bytes by (done || (eapply Forall_impl; [exact Hq | by intros c [? _]])). by rewrite E.
  - symmetry. clear -Hq. induction Hq as [|c e (_ & _ & Hc & _) _ IH]; [done|]. cbn [map]. apply N.eqb_neq in Hc. by rewrite Hc, IH.
Qed.

Lemma form_decode_plain (e : jstr) : Forall (fun c => c < 128 /\ c <> 37 /\ c <> 43) e -> form_decode e = e.
Proof.
  intros He. unfold form_decode. replace (map (fun c => if c =? 43 then 32 else c) e) with e.
  - rewrite utf8_plain by (eapply Forall_impl; [exact He | by intros c [? _]]).
    assert (P : percent_decode e = e).
    { induction He as [|c e (_ & Hc & _) _ IH]; [done|]. cbn [percent_decode]. apply N.eqb_neq in Hc. rewrite Hc, IH. by destruct e as [|? [|? ?]]. }
    rewrite P. assert (D : decode_items true None (map inr e) = Some e); [|by rewrite D].
    clear P. induction He as [|c e (Hc & _) _ IH]; [done|]. cbn [map decode_items]. unfold utf8_start. apply N.ltb_lt in Hc. by rewrite Hc, IH.
  - symmetry. induction He as [|c e (_ & _ & Hc) _ IH]; [done|]. cbn [map]. apply N.eqb_neq in Hc. by rewrite Hc, IH.
Qed.

(** ** [JSON.stringify] of an array of strings

    The text of an array of strings: quoted, escaped, without white space.  A lone surrogate is
    escaped, so the text is well formed whatever the strings are, and it determines them. *)


(** *** Definitions *)

Definition hex_lower (d : N) : N := if d <? 10 then 48 + d else 87 + d.

(** [\uXXXX], in lower case *)
Definition unicode_escape (c : N) : jstr :=
  [c_backslash; 117; hex_lower (c / 4096); hex_lower (c / 256 mod 16);
   hex_lower (c / 16 mod 16); hex_lower (c mod 16)].

(** A code unit that is not part of a surrogate pair. *)
Definition json_unit (c : N) : jstr :=
  if c =? 8 then [c_backslash; 98]
  else if c =? 9 then [c_backslash; 116]
  else if c =? 10 then [c_backslash; 110]
  else if c =? 12 then [c_backslash; 102]
  else if c =? 13 then [c_backslash; 114]
  else if (c =? c_quote) || (c =? c_backslash) then [c_backslash; c]
  else if (c <? 32) || ((0xD800 <=? c) && (c <=? 0xDFFF)) then unicode_escape c
  else [c].

Definition is_high (c : N) : bool := (0xD800 <=? c) && (c <=? 0xDBFF).
Definition is_low (c : N) : bool := (0xDC00 <=? c) && (c <=? 0xDFFF).

Fixpoint json_chars (s : jstr) : jstr :=
  match s with
  | [] => []
  | c :: r =>
      match r with
      | d :: r' => if is_high c && is_low d then c :: d :: json_chars r' else json_unit c ++ json_chars r
      | [] => json_unit c
      end
  end.

Definition json_string (s : jstr) : jstr := c_quote :: json_chars s ++ [c_quote].

(** [JSON.stringify(l)] for strings [l] *)
Definition json_strings (l : list jstr) : jstr := js "[" ++ join (js ",") (map json_string l) ++ js "]".

(** *** Reading a string back *)

Definition hex_digit_value (c : N) : N := if c <? 58 then c - 48 else c - 87.

Definition unescape (e : N) : N :=
  if e =? 98 then 8 else if e =? 116 then 9 else if e =? 110 then 10
  else if e =? 102 then 12 else if e =? 114 then 13 else e.

(** The string up to its closing quote, and what follows. *)
Fixpoint read_chars (s : jstr) : option (jstr * jstr) :=
  match s with
  | [] => None
  | c :: r =>
      if c =? c_quote then Some ([], r)
      else if c =? c_backslash then
        match r with
        | e :: r =>
            if e =? 117 then
              match r with
              | a :: b :: c :: d :: r =>
                  '(s, r) ← read_chars r;
                  Some (hex_digit_value a * 4096 + hex_digit_value b * 256
                        + hex_digit_value c * 16 + hex_digit_value d :: s, r)
              | _ => None
              end
            else '(s, r) ← read_chars r; Some (unescape e :: s, r)
        | [] => None
        end
      else '(s, r) ← read_chars r; Some (c :: s, r)
  end.

(** *** Lemmas *)

Lemma hex_digit_back (d : N) : d < 16 -> hex_digit_value (hex_lower d) = d.
Proof.
  intros Hd. unfold hex_lower, hex_digit_value. destruct (N.ltb_spec d 10).
  - destruct (N.ltb_spec (48 + d) 58); lia.
  - destruct (N.ltb_spec (87 + d) 58); lia.
Qed.

Lemma hex_lower_ascii (d : N) : d < 16 -> hex_lower d < 128.
Proof. intros Hd. unfold hex_lower. destruct (d <? 10); lia. Qed.

Lemma hex_split (c : N) : c < 65536 ->
  c / 4096 < 16 /\ c / 256 mod 16 < 16 /\ c / 16 mod 16 < 16 /\ c mod 16 < 16
  /\ c / 4096 * 4096 + c / 256 mod 16 * 256 + c / 16 mod 16 * 16 + c mod 16 = c.
Proof. intros Hc. ndiv_lia. Qed.

Lemma read_escape (c : N) (t : jstr) : c < 65536 ->
  read_chars (unicode_escape c ++ t) = '(s, r) ← read_chars t; Some (c :: s, r).
Proof.
  intros (H1 & H2 & H3 & H4 & E)%hex_split. cbn. rewrite !hex_digit_back by done. by rewrite E.
Qed.

(** A unit written on its own reads back, unless it opens a surrogate pair: that is [json_chars]'s case. *)
Lemma read_unit (c : N) (t : jstr) : c < 65536 ->
  read_chars (json_unit c ++ t) = '(s, r) ← read_chars t; Some (c :: s, r).
Proof.
  intros Hc. unfold json_unit.
  repeat match goal with |- context [if ?a =? ?b then _ else _] => destruct (N.eqb_spec a b) as [->|] end; try done.
  destruct (N.eqb_spec c c_quote) as [->|Hq]; [done|]. destruct (N.eqb_spec c c_backslash) as [->|Hb]; [done|].
  cbn [orb]. destruct (_ || _); [by apply read_escape|]. cbn [app read_chars].
  by rewrite (proj2 (N.eqb_neq _ _) Hq), (proj2 (N.eqb_neq _ _) Hb).
Qed.

Lemma read_plain (c : N) (t : jstr) : 128 <= c ->
  read_chars (c :: t) = '(s, r) ← read_chars t; Some (c :: s, r).
Proof.
  intros Hc. cbn [read_chars]. unfold c_quote, c_backslash.
  by destruct (N.eqb_spec c 34), (N.eqb_spec c 92); try lia.
Qed.

Lemma pair_bounds (c d : N) : is_high c && is_low d = true ->
  0xD800 <= c <= 0xDBFF /\ 0xDC00 <= d <= 0xDFFF.
Proof. unfold is_high, is_low. rewrite !andb_true_iff, !N.leb_le. lia. Qed.

(** The quoted units of a string, then a quote: the string reads back. *)
Lemma read_json_chars (s t : jstr) : Forall (fun c => c < 65536) s ->
  read_chars (json_chars s ++ c_quote :: t) = Some (s, t).
Proof.
  induction s as [s IH] using (induction_ltof1 _ (@length N)); unfold ltof in IH. intros Hs.
  destruct s as [|c r]; [done|]. apply Forall_cons in Hs as [Hc Hr]. cbn [json_chars].
  destruct r as [|d r]; [by rewrite read_unit|]. destruct (is_high c && is_low d) eqn:E.
  - apply pair_bounds in E as [? ?]. apply Forall_cons in Hr as [_ Hr].
    rewrite <- !app_comm_cons, !read_plain, IH by (done || cbn; lia). done.
  - rewrite <- app_assoc, read_unit, IH by (done || cbn; lia). done.
Qed.

Lemma read_json_string (s t : jstr) : Forall (fun c => c < 65536) s ->
  read_chars (drop 1 (json_string s ++ t)) = Some (s, t).
Proof. intros Hs. unfold json_string. cbn [app drop]. rewrite <- app_assoc. by apply read_json_chars. Qed.

Lemma json_string_inj (s s' t t' : jstr) :
  Forall (fun c => c < 65536) s -> Forall (fun c => c < 65536) s' ->
  json_string s ++ t = json_string s' ++ t' -> s = s' /\ t = t'.
Proof.
  intros Hs Hs' E. pose proof (read_json_string s t Hs) as H1. rewrite E, read_json_string in H1 by done.
  by injection H1.
Qed.

(** The text of an array determines its strings. *)
Lemma json_strings_inj (l l' : list jstr) :
  Forall (Forall (fun c => c < 65536)) l -> Forall (Forall (fun c => c < 65536)) l' ->
  json_strings l = json_strings l' -> l = l'.
Proof.
  intros Hl Hl' E. unfold json_strings in E. apply (app_inv_head (js "[")) in E.
  revert l' Hl' E. induction Hl as [|s l Hs Hl IH]; intros [|s' l'] Hl' E; [done | | |].
  - destruct l'; discriminate E.
  - destruct l; discriminate E.
  - apply Forall_cons in Hl' as [Hs' Hl']. cbn [map join] in E.
    destruct l as [|u l], l' as [|v l']; cbn [map] in E;
      rewrite <- ?app_assoc in E; apply json_string_inj in E as [-> E]; try done.
    f_equal. apply IH; [done|]. by apply (app_inv_head (js ",")) in E.
Qed.

(** *** The text is well formed *)

Definition good (s : jstr) : Prop := Forall (fun c => c < 65536) s /\ Forall (fun o => is_Some o) (code_points s).

Lemma good_ascii (c : N) (t : jstr) : c < 0xD800 -> good t -> good (c :: t).
Proof.
  intros Hc [H1 H2]. split; [constructor; [lia | done]|]. cbn [code_points].
  destruct (N.leb_spec 0xD800 c), (N.leb_spec 0xDC00 c); try lia. cbn [andb]. constructor; [by eexists | done].
Qed.

Lemma good_pair (c d : N) (t : jstr) : is_high c && is_low d = true -> good t -> good (c :: d :: t).
Proof.
  intros E [H1 H2]. pose proof (pair_bounds _ _ E) as [? ?]. split; [repeat (constructor; [lia|]); done|].
  cbn [code_points]. apply andb_true_iff in E as [Eh El]. unfold is_high in Eh. unfold is_low in El.
  rewrite Eh, El. constructor; [by eexists | done].
Qed.

Lemma good_unit (c : N) (t : jstr) : c < 65536 -> good t -> good (json_unit c ++ t).
Proof.
  intros Hc Ht. unfold json_unit. repeat case_match; cbn [app];
    repeat (apply good_ascii; [unfold c_backslash; lia|]); try done.
  - apply orb_true_iff in H4 as [?%N.eqb_eq|?%N.eqb_eq]; subst; apply good_ascii; done.
  - destruct (hex_split c Hc) as (X1%hex_lower_ascii & X2%hex_lower_ascii & X3%hex_lower_ascii & X4%hex_lower_ascii & _).
    unfold unicode_escape. cbn [app]. repeat (apply good_ascii; [unfold c_backslash; lia|]). done.
  - apply orb_false_iff in H5 as [_ H5]. destruct Ht as [H6 H7]. split; [by constructor|]. cbn [code_points].
    destruct (N.leb_spec 0xD800 c); cbn [andb].
    + destruct (N.leb_spec c 0xDFFF); [done|]. destruct (N.leb_spec c 0xDBFF); [lia|]. rewrite andb_false_r.
      constructor; [by eexists | done].
    + destruct (N.leb_spec 0xDC00 c); [lia|]. constructor; [by eexists | done].
Qed.

Lemma good_chars (s t : jstr) : Forall (fun c => c < 65536) s -> good t -> good (json_chars s ++ t).
Proof.
  induction s as [s IH] using (induction_ltof1 _ (@length N)); unfold ltof in IH. intros Hs Ht.
  destruct s as [|c r]; [done|]. apply Forall_cons in Hs as [Hc Hr]. cbn [json_chars].
  destruct r as [|d r]; [by apply good_unit|]. destruct (is_high c && is_low d) eqn:E.
  - apply Forall_cons in Hr as [_ Hr]. cbn [app]. apply good_pair; [done|]. apply IH; [cbn; lia | done..].
  - rewrite <- app_assoc. apply good_unit; [done|]. apply IH; [cbn; lia | done..].
Qed.

Lemma json_strings_well_formed (l : list jstr) :
  Forall (Forall (fun c => c < 65536)) l -> well_formed (json_strings l).
Proof.
  intros Hl. unfold json_strings. change (good (js "[" ++ join (js ",") (map json_string l) ++ js "]")).
  apply good_ascii; [done|]. assert (Hj : forall t, good t -> good (join (js ",") (map json_string l) ++ t)).
  { induction Hl as [|s l Hs Hl IH]; intros t Ht; [done|]. cbn [map join].
    assert (Hq : forall t, good t -> good (json_string s ++ t)).
    { intros t' Ht'. unfold json_string. cbn [app]. apply good_ascii; [done|]. rewrite <- app_assoc.
      apply good_chars; [done|]. by apply good_ascii. }
    destruct (map json_string l) eqn:E; [by apply Hq|]. rewrite <- !app_assoc. apply Hq.
    apply good_ascii; [done|]. by apply IH. }
  apply Hj. by apply good_ascii; [|split; constructor].
Qed.

Example stringify :
  json_strings [js "a"; [34; 10; 1]; [0xD800]]
  = js "[" ++ [34] ++ js "a" ++ [34; 44; 34; 92; 34] ++ js "\n\u0001" ++ [34; 44; 34] ++ js "\ud800" ++ [34] ++ js "]".
Proof. vm_compute. reflexivity. Qed.
