(* ===== verification/Bytes.v ===== *)
(** * Byte arrays, thrown errors and JSON values

    What the cloud backup reader uses of JavaScript: [Uint8Array] values, big-endian [DataView]
    accesses, errors as values, [JSON.parse] trees and the coercions of [BigInt] and [setUint32]. *)

From Stdlib Require Export Floats.SpecFloat.
From S2P Require Import Prelude JsString.

(** ** Thrown errors *)

Inductive result (E A : Type) :=
| Ok (a : A)
| Err (e : E).
Arguments Ok {E A} a.
Arguments Err {E A} e.

#[global] Instance result_ret E : MRet (result E) := fun A a => Ok a.
#[global] Instance result_bind E : MBind (result E) :=
  fun A B f m => match m with Ok a => f a | Err e => Err e end.
#[global] Instance result_fmap E : FMap (result E) :=
  fun A B f m => match m with Ok a => Ok (f a) | Err e => Err e end.

(** An [Error] with its message, or the one subclass the code tells apart. *)
Inductive error :=
| EError (message : jstr)
| EMissingKey.

Abbreviation thrown := (result error).

(** [try { m } catch { h }] *)
Definition catching {A} (m : thrown A) (h : error -> thrown A) : thrown A :=
  match m with Ok a => Ok a | Err e => h e end.

Definition to_option {A} (m : thrown A) : option A :=
  match m with Ok a => Some a | Err _ => None end.

(** [xs.map(f)] for an [f] that may throw. *)
Fixpoint map_thrown {A B} (f : A -> thrown B) (l : list A) : thrown (list B) :=
  match l with
  | [] => Ok []
  | x :: l => y ← f x; ys ← map_thrown f l; Ok (y :: ys)
  end.

(** ** Bytes *)

Abbreviation bytes := (list Z).

Definition is_octet (b : Z) : Prop := 0 <= b < 256.
Definition octets (l : bytes) : Prop := Forall is_octet l.

Definition len (l : bytes) : Z := Z.of_nat (length l).

(** [bytes.slice(start, end)] for offsets that are not negative. *)
Definition byte_slice (a b : Z) (l : bytes) : bytes :=
  take (Z.to_nat b - Z.to_nat a) (drop (Z.to_nat a) l).

Definition slice_after (a : Z) (l : bytes) : bytes := drop (Z.to_nat a) l.

(** [k] big-endian bytes of [v mod 256^k]: [setUint32], [setBigInt64] on a fresh buffer. *)
Fixpoint be (k : nat) (v : Z) : bytes :=
  match k with
  | O => []
  | S k => be k (v / 256) ++ [v mod 256]
  end.

(** The unsigned integer big-endian bytes spell. *)
Definition of_be (l : bytes) : Z := foldl (fun acc b => acc * 256 + b) 0 l.

(** [getUint32(pos, false)] and [getBigUint64(pos, false)] inside the bounds. *)
Definition get_be (k : nat) (pos : Z) (l : bytes) : Z := of_be (take k (drop (Z.to_nat pos) l)).

(** ** JSON values *)

Inductive json :=
| JNull
| JBool (b : bool)
| JNum (n : num)
| JStr (s : jstr)
| JArr (l : list json)
| JObj (fields : list (jstr * json)).

(** A property, or an array element, may be absent: [None] is [undefined]. *)
Abbreviation value := (option json).

Definition TypeError : error := EError (js "TypeError").
Definition RangeError : error := EError (js "RangeError").

Fixpoint own_field (key : jstr) (fields : list (jstr * json)) : value :=
  match fields with
  | [] => None
  | (k, v) :: fields =>
      match own_field key fields with
      | Some v => Some v
      | None => if bool_decide (k = key) then Some v else None
      end
  end.

(** [v.key] *)
Definition prop_of (key : string) (v : value) : thrown value :=
  match v with
  | None | Some JNull => Err TypeError
  | Some (JObj fields) => Ok (own_field (js key) fields)
  | Some _ => Ok None
  end.

(** [v?.key] *)
Definition opt_prop (key : string) (v : value) : value :=
  match v with Some (JObj fields) => own_field (js key) fields | _ => None end.

Definition as_string (v : value) : option jstr :=
  match v with Some (JStr s) => Some s | _ => None end.

(** ** Coercions *)

(** The integer a double is, if it is one. *)
Definition num_integer (n : num) : option Z :=
  match n with
  | S754_zero _ => Some 0
  | S754_finite s m e =>
      let v := if s then Z.neg m else Z.pos m in
      if 0 <=? e then Some (v * 2 ^ e)
      else if v mod 2 ^ (- e) =? 0 then Some (v / 2 ^ (- e)) else None
  | _ => None
  end.

(** The integer part, toward zero; 0 for NaN and the infinities. *)
Definition num_trunc (n : num) : Z :=
  match n with
  | S754_finite s m e =>
      let a := if 0 <=? e then Z.pos m * 2 ^ e else Z.pos m / 2 ^ (- e) in
      if s then - a else a
  | _ => 0
  end.

Definition MAX_SAFE_INTEGER : Z := 2 ^ 53 - 1.

(** [Number.isSafeInteger(v)], with the integer. *)
Definition safe_integer (v : value) : option Z :=
  match v with
  | Some (JNum n) =>
      z ← num_integer n;
      if (- MAX_SAFE_INTEGER <=? z) && (z <=? MAX_SAFE_INTEGER) then Some z else None
  | _ => None
  end.

(** The parser and the coercions of strings, arrays and objects. *)
Class JsText := {
  (** [JSON.parse(new TextDecoder().decode(bytes))]; [None] where it throws. *)
  json_parse : bytes -> option json;
  (** [Number(v)] and [BigInt(v)] of a string, an array or an object. *)
  coerce_number : json -> thrown num;
  coerce_bigint : json -> thrown Z;
  (** [String(v)] of a number, an array or an object. *)
  coerce_string : json -> thrown jstr;
}.

Section Coercions.
Context `{JsText}.

Definition to_number (v : value) : thrown num :=
  match v with
  | None => Ok S754_nan
  | Some JNull => Ok (num_of_Z 0)
  | Some (JBool b) => Ok (num_of_Z (if b then 1 else 0))
  | Some (JNum n) => Ok n
  | Some v => coerce_number v
  end.

(** [BigInt(v)] *)
Definition to_bigint (v : value) : thrown Z :=
  match v with
  | None | Some JNull => Err TypeError
  | Some (JBool b) => Ok (if b then 1 else 0)
  | Some (JNum n) => match num_integer n with Some z => Ok z | None => Err RangeError end
  | Some v => coerce_bigint v
  end.

(** The four bytes of [setUint32(0, v, false)] and the eight of
    [setBigInt64(0, BigInt(v), false)]. *)
Definition uint32_bytes (v : value) : thrown bytes := (fun n => be 4 (num_trunc n)) <$> to_number v.
Definition bigint64_bytes (v : value) : thrown bytes := be 8 <$> to_bigint v.

(** [String(v)] *)
Definition to_string (v : value) : thrown jstr :=
  match v with
  | None => Ok (js "undefined")
  | Some JNull => Ok (js "null")
  | Some (JBool b) => Ok (js (if b then "true" else "false"))
  | Some (JStr s) => Ok s
  | Some v => coerce_string v
  end.

(** [a + b] *)
Definition js_plus (a b : json) : thrown json :=
  match a, b with
  | (JStr _ | JArr _ | JObj _), _ | _, (JStr _ | JArr _ | JObj _) =>
      s ← to_string (Some a); t ← to_string (Some b); Ok (JStr (s ++ t))
  | _, _ => x ← to_number (Some a); y ← to_number (Some b); Ok (JNum (num_add x y))
  end.
End Coercions.

(** [v == null] *)
Definition nullish (v : value) : bool := match v with None | Some JNull => true | _ => false end.

(** [Boolean(v)] *)
Definition truthy_value (v : value) : bool :=
  match v with
  | None | Some JNull | Some (JBool false) | Some (JStr []) => false
  | Some (JNum n) => match n with S754_zero _ | S754_nan => false | _ => true end
  | Some _ => true
  end.

(** ** Lemmas *)

Lemma catching_ok {A} (m : thrown A) (h : error -> thrown A) (a : A) :
  m = Ok a -> catching m h = Ok a.
Proof. by intros ->. Qed.

Lemma bind_ok {E A B} (m : result E A) (f : A -> result E B) (b : B) :
  m ≫= f = Ok b <-> exists a, m = Ok a /\ f a = Ok b.
Proof.
  destruct m as [a|e]; cbn; split; [eauto | intros (? & [= ->] & ?); done | done | intros (? & ? & ?); done].
Qed.

Lemma fmap_ok {E A B} (m : result E A) (f : A -> B) (b : B) :
  f <$> m = Ok b <-> exists a, m = Ok a /\ b = f a.
Proof.
  destruct m as [a|e]; cbn; split; [intros [= <-]; eauto | intros (? & [= ->] & ->); done | done
    | intros (? & ? & ?); done].
Qed.

Lemma map_thrown_ok {A B} (f : A -> thrown B) (l : list A) (r : list B) :
  map_thrown f l = Ok r <-> Forall2 (fun x y => f x = Ok y) l r.
Proof.
  revert r. induction l as [|x l IH]; intros r; cbn [map_thrown].
  - split; [intros [= <-]; constructor | by intros H%Forall2_nil_inv_l; subst].
  - rewrite bind_ok. setoid_rewrite bind_ok. split.
    + intros (y & Hy & ys & Hys & [= <-]). constructor; [done | by apply IH].
    + intros H. inversion H as [|? y ? ys Hy Hys]; subst. exists y. split; [done|].
      exists ys. split; [by apply IH | done].
Qed.

Lemma be_length (k : nat) (v : Z) : length (be k v) = k.
Proof. revert v. induction k as [|k IH]; intros v; cbn; [done|]. rewrite length_app, IH. simpl. lia. Qed.

Lemma be_len (k : nat) (v : Z) : len (be k v) = Z.of_nat k.
Proof. unfold len. by rewrite be_length. Qed.

Lemma be_octets (k : nat) (v : Z) : octets (be k v).
Proof.
  revert v. induction k as [|k IH]; intros v; cbn; [constructor|].
  apply Forall_app. split; [apply IH|]. constructor; [|constructor]. by apply Z.mod_pos_bound.
Qed.

Lemma of_be_snoc (l : bytes) (b : Z) : of_be (l ++ [b]) = of_be l * 256 + b.
Proof. unfold of_be. by rewrite foldl_app. Qed.

Lemma of_be_be (k : nat) (v : Z) : of_be (be k v) = v mod 256 ^ Z.of_nat k.
Proof.
  revert v. induction k as [|k IH]; intros v; [by rewrite Z.mod_1_r|].
  cbn [be]. rewrite of_be_snoc, IH, Nat2Z.inj_succ. rewrite Z.pow_succ_r by lia.
  rewrite Z.rem_mul_r by lia. lia.
Qed.

Lemma be_mod (k : nat) (v w : Z) :
  be k v = be k w <-> v mod 256 ^ Z.of_nat k = w mod 256 ^ Z.of_nat k.
Proof.
  split; [intros H; by rewrite <- !of_be_be, H|].
  revert v w. induction k as [|k IH]; intros v w H; [done|].
  rewrite Nat2Z.inj_succ, Z.pow_succ_r in H by lia. rewrite !Z.rem_mul_r in H by lia.
  pose proof (Z.mod_pos_bound v 256 ltac:(lia)) as Hv. pose proof (Z.mod_pos_bound w 256 ltac:(lia)) as Hw.
  cbn [be]. assert (v mod 256 = w mod 256 /\ (v / 256) mod 256 ^ Z.of_nat k = (w / 256) mod 256 ^ Z.of_nat k)
    as [-> E].
  { revert H Hv Hw. generalize ((v / 256) mod 256 ^ Z.of_nat k), ((w / 256) mod 256 ^ Z.of_nat k),
      (v mod 256), (w mod 256).
    lia. }
  by rewrite (IH _ _ E).
Qed.

Lemma of_be_bound (l : bytes) : octets l -> 0 <= of_be l < 256 ^ len l.
Proof.
  unfold len. induction l as [|b l IH] using rev_ind; intros H; [done|].
  apply Forall_app in H as [Hl Hb]. apply Forall_cons_1 in Hb as [Hb _]. specialize (IH Hl).
  rewrite of_be_snoc, length_app, Nat2Z.inj_add, Z.pow_add_r by lia.
  change (256 ^ Z.of_nat (length [b])) with 256. unfold is_octet in Hb.
  revert IH. generalize (256 ^ Z.of_nat (length l)). lia.
Qed.

Lemma get_be_app (k : nat) (a b c : bytes) :
  length b = k -> get_be k (len a) (a ++ b ++ c) = of_be b.
Proof.
  intros <-. unfold get_be, len. by rewrite Nat2Z.id, drop_app_length, take_app_length.
Qed.

Lemma byte_slice_app (a b c : bytes) : byte_slice (len a) (len a + len b) (a ++ b ++ c) = b.
Proof.
  unfold byte_slice, len. rewrite <- Nat2Z.inj_add, !Nat2Z.id, Nat.add_comm, Nat.add_sub.
  by rewrite drop_app_length, take_app_length.
Qed.

Lemma byte_slice_length (a b : Z) (l : bytes) :
  0 <= a <= b -> b <= len l -> len (byte_slice a b l) = b - a.
Proof. unfold byte_slice, len. rewrite length_take, length_drop. lia. Qed.

Lemma slice_after_app (a b : bytes) : slice_after (len a) (a ++ b) = b.
Proof. unfold slice_after, len. by rewrite Nat2Z.id, drop_app_length. Qed.

Lemma len_app (a b : bytes) : len (a ++ b) = len a + len b.
Proof. unfold len. rewrite length_app. lia. Qed.

Lemma len_nonneg (l : bytes) : 0 <= len l.
Proof. unfold len. lia. Qed.

#[export] Hint Resolve len_nonneg : core.
