(* ===== verification/JsonTree.v ===== *)
(** * JSON text of values

    [JSON.stringify] of the trees [JSON.parse] makes, with and without indentation.  An object keeps one
    value per key, under the key's first place; keys that are array indices come first, in their order. *)

From S2P Require Import Prelude JsString Utf8 Bytes.

(** ** Keys of an object *)

(** The array index a key spells. *)
Definition array_index (k : jstr) : option Z :=
  match k with
  | [] => None
  | c :: r =>
      let v := foldl (fun v c => v * 10 + (Z.of_N c - 48)) 0 k in
      if forallb is_digit k && (Nat.eqb (length r) 0 || negb (N.eqb c 48)) && (v <? 2 ^ 32 - 1) then Some v else None
  end.

Section Order.
Context {A : Type}.

(** Each key with its last value, where the key was first. *)
Fixpoint set_field_last (k : jstr) (v : A) (l : list (jstr * A)) : list (jstr * A) :=
  match l with
  | [] => [(k, v)]
  | (k', v') :: l => if bool_decide (k' = k) then (k', v) :: l else (k', v') :: set_field_last k v l
  end.
Definition own_fields (l : list (jstr * A)) : list (jstr * A) := foldl (fun acc f => set_field_last f.1 f.2 acc) [] l.

Fixpoint index_insert (k : jstr) (i : Z) (v : A) (l : list (Z * (jstr * A))) : list (Z * (jstr * A)) :=
  match l with
  | [] => [(i, (k, v))]
  | (j, f) :: l => if i <? j then (i, (k, v)) :: (j, f) :: l else (j, f) :: index_insert k i v l
  end.

(** [Object.entries] *)
Definition object_entries (l : list (jstr * A)) : list (jstr * A) :=
  let own := own_fields l in
  let indices := foldl (fun acc f => match array_index f.1 with Some i => index_insert f.1 i f.2 acc | None => acc end) [] own in
  map snd indices ++ List.filter (fun f => match array_index f.1 with Some _ => false | None => true end) own.
End Order.

(** ** [JSON.stringify(v, null, gap)] *)
Section Stringify.
Context `{JsText}.

Definition number_text (n : num) : jstr :=
  match n with
  | S754_nan | S754_infinity _ => js "null"
  | _ => default [] (to_option (coerce_string (JNum n)))
  end.

(** The members of an array or an object between their brackets. *)
Definition bracketed (open close gap indent : jstr) (members : list jstr) : jstr :=
  match members with
  | [] => open ++ close
  | _ =>
      if truthy gap
      then open ++ [c_lf] ++ indent ++ gap ++ join (js "," ++ [c_lf] ++ indent ++ gap) members ++ [c_lf] ++ indent ++ close
      else open ++ join (js ",") members ++ close
  end.

Fixpoint stringify (gap indent : jstr) (v : json) : jstr :=
  match v with
  | JNull => js "null"
  | JBool b => js (if b then "true" else "false")
  | JNum n => number_text n
  | JStr s => json_string s
  | JArr l => bracketed (js "[") (js "]") gap indent (map (stringify gap (indent ++ gap)) l)
  | JObj fields =>
      let members := map (fun f => (fst f, stringify gap (indent ++ gap) (snd f))) fields in
      bracketed (js "{") (js "}") gap indent
        (map (fun f => json_string (fst f) ++ js (if truthy gap then ": " else ":") ++ snd f) (object_entries members))
  end.

Definition json_text (v : json) : jstr := stringify [] [] v.
End Stringify.

(** ** Objects in order *)

Section Canonical.
Context {A : Type}.
Implicit Types (l : list (jstr * A)).

Definition index_key (f : jstr * A) : bool := match array_index (fst f) with Some _ => true | None => false end.
Definition index_of (f : jstr * A) : Z := default 0%Z (array_index (fst f)).

(** One value per key, the indices first and in their order. *)
Definition canonical l : Prop :=
  NoDup (map fst l) /\ exists a b, l = a ++ b /\ Forall (fun f => index_key f = true) a
    /\ Forall (fun f => index_key f = false) b /\ StronglySorted (fun f g => (index_of f <= index_of g)%Z) a.

Lemma set_field_keys (k : jstr) (v : A) l :
  map fst (set_field_last k v l) = if bool_decide (k ∈ map fst l) then map fst l else map fst l ++ [k].
Proof.
  induction l as [|[k' v'] l IH]; cbn; [by rewrite bool_decide_false by (by apply not_elem_of_nil)|].
  destruct (decide (k' = k)) as [->|Hne].
  { rewrite !bool_decide_true by (done || by left). done. }
  rewrite (bool_decide_false (k' = k)) by done. cbn. rewrite IH.
  destruct (decide (k ∈ map fst l)) as [H|H].
  - rewrite (bool_decide_true _ H), bool_decide_true by (by right). done.
  - rewrite (bool_decide_false _ H), bool_decide_false; [done|]. intros [?|?]%elem_of_cons; [congruence | done].
Qed.

Lemma set_field_nodup (k : jstr) (v : A) l : NoDup (map fst l) -> NoDup (map fst (set_field_last k v l)).
Proof.
  intros Hl. rewrite set_field_keys. case_bool_decide; [done|]. apply NoDup_app. split_and!; [done | | apply NoDup_singleton].
  by intros x Hx ->%list_elem_of_singleton.
Qed.

Lemma set_field_new (k : jstr) (v : A) l : k ∉ map fst l -> set_field_last k v l = l ++ [(k, v)].
Proof.
  induction l as [|[k' v'] l IH]; cbn; [done|]. intros [H1 H2]%not_elem_of_cons.
  rewrite bool_decide_false by congruence. by rewrite IH.
Qed.

Lemma own_fields_fold l acc : NoDup (map fst (acc ++ l)) -> foldl (fun acc f => set_field_last f.1 f.2 acc) acc l = acc ++ l.
Proof.
  revert acc. induction l as [|[k v] l IH]; cbn; intros acc Hn; [by rewrite app_nil_r|].
  rewrite set_field_new.
  - rewrite IH; [by rewrite <- app_assoc | by rewrite <- app_assoc].
  - rewrite map_app in Hn. apply NoDup_app in Hn as (_ & H & _). intros Hk. apply (H k Hk). by left.
Qed.

Lemma own_fields_same l : NoDup (map fst l) -> own_fields l = l.
Proof. apply (own_fields_fold l []). Qed.

Lemma own_fields_nodup l : NoDup (map fst (own_fields l)).
Proof.
  unfold own_fields. assert (H : NoDup (map fst (@nil (jstr * A)))) by constructor. revert H. generalize (@nil (jstr * A)).
  induction l as [|[k v] l IH]; cbn; intros acc H; [done|]. by apply IH, set_field_nodup.
Qed.

(** *** The insertion sort *)

#[local] Definition ordered (f : jstr * A) (acc : list (Z * (jstr * A))) :=
  match array_index f.1 with Some i => index_insert f.1 i f.2 acc | None => acc end.
#[local] Definition indices l : list (Z * (jstr * A)) := foldl (fun acc f => ordered f acc) [] l.
#[local] Definition tagged (l : list (jstr * A)) : list (Z * (jstr * A)) := map (fun f => (index_of f, f)) l.

Lemma index_insert_perm (k : jstr) (i : Z) (v : A) (l : list (Z * (jstr * A))) : index_insert k i v l ≡ₚ (i, (k, v)) :: l.
Proof. induction l as [|[j f] l IH]; cbn; [done|]. case_match; [done|]. rewrite IH. constructor. Qed.

Lemma index_insert_sorted (k : jstr) (i : Z) (v : A) (l : list (Z * (jstr * A))) :
  StronglySorted (fun x y => (x.1 <= y.1)%Z) l -> StronglySorted (fun x y => (x.1 <= y.1)%Z) (index_insert k i v l).
Proof.
  induction 1 as [|[j f] l Hl IH Hf]; cbn; [by repeat constructor|]. destruct (Z.ltb_spec i j) as [Hij|Hij].
  - constructor; [by constructor|]. constructor; [cbn; lia|]. eapply Forall_impl; [exact Hf|]. cbn. intros; lia.
  - constructor; [done|]. rewrite index_insert_perm. by constructor.
Qed.

Lemma index_insert_last (k : jstr) (i : Z) (v : A) (l : list (Z * (jstr * A))) : Forall (fun x => (x.1 <= i)%Z) l ->
  index_insert k i v l = l ++ [(i, (k, v))].
Proof. induction 1 as [|[j f] l Hj Hl IH]; cbn; [done|]. cbn in Hj. rewrite (proj2 (Z.ltb_ge _ _) Hj). by rewrite IH. Qed.

Lemma indices_ok l : forall acc, StronglySorted (fun x y => (x.1 <= y.1)%Z) acc -> (exists m, acc = tagged m /\ Forall (fun f => index_key f = true) m) ->
  let r := foldl (fun acc f => ordered f acc) acc l in
  StronglySorted (fun x y => (x.1 <= y.1)%Z) r /\ (exists m, r = tagged m /\ Forall (fun f => index_key f = true) m)
  /\ map snd r ≡ₚ map snd acc ++ List.filter index_key l.
Proof.
  induction l as [|[k v] l IH]; intros acc Hs (m & Em & Hm); [split_and!; [done | by exists m | by rewrite app_nil_r]|].
  cbn [foldl List.filter]. destruct (array_index k) as [i|] eqn:Ei.
  - replace (ordered (k, v) acc) with (index_insert k i v acc) by (unfold ordered; cbn; by rewrite Ei).
    replace (index_key (k, v)) with true by (unfold index_key; cbn; by rewrite Ei).
    destruct (IH (index_insert k i v acc)) as (H1 & H2 & H3).
    + by apply index_insert_sorted.
    + assert (Iv : index_of (k, v) = i) by (unfold index_of; cbn; by rewrite Ei).
      assert (Ik : index_key (k, v) = true) by (unfold index_key; cbn; by rewrite Ei).
      clear IH Hs Ei. revert m Em Hm. induction acc as [|[j f] acc IH]; intros m Em Hm.
      * exists [(k, v)]. split; [cbn; by rewrite Iv | by constructor].
      * destruct m as [|f' m]; [done|]. injection Em as -> -> ->. apply Forall_cons in Hm as [Hf Hm]. cbn [index_insert]. case_match.
        -- exists ((k, v) :: f' :: m). split; [cbn; by rewrite Iv | by repeat constructor].
        -- destruct (IH m eq_refl Hm) as (m' & E & Hm'). exists (f' :: m'). split; [exact (f_equal (cons (index_of f', f')) E) | by constructor].
    + split_and!; [done..|]. rewrite H3, index_insert_perm. apply Permutation_middle.
  - replace (ordered (k, v) acc) with acc by (unfold ordered; cbn; by rewrite Ei).
    replace (index_key (k, v)) with false by (unfold index_key; cbn; by rewrite Ei). apply IH; [done | by exists m].
Qed.

Lemma canonical_entries l : canonical (object_entries l).
Proof.
  unfold object_entries. set (own := own_fields l). destruct (indices_ok own [] ltac:(constructor)) as (Hs & (m & Em & Hm) & Hp); [by exists []|].
  change (foldl (fun acc f => match array_index f.1 with Some i => index_insert f.1 i f.2 acc | None => acc end) [] own)
    with (foldl (fun acc f => ordered f acc) [] own). rewrite Em in *.
  assert (Et : map snd (tagged m) = m) by (unfold tagged; rewrite map_map; apply map_id). rewrite Et in *. cbn [app map] in Hp. split.
  - rewrite Hp, map_app, <- map_app. assert (P : List.filter index_key own ++ List.filter (fun f => match array_index f.1 with Some _ => false | None => true end) own ≡ₚ own).
    { clear. induction own as [|f own IH]; cbn; [done|]. unfold index_key at 1. destruct (array_index f.1); cbn; [by rewrite IH|].
      by rewrite <- Permutation_middle, IH. }
    rewrite P. apply own_fields_nodup.
  - exists m. eexists. split; [done|]. split_and!; [done | |].
    + apply Forall_forall. intros f. rewrite list_elem_of_In, filter_In. unfold index_key. by destruct (array_index f.1) as [|]; [intros [_ ?]|].
    + clear - Hs. unfold tagged in Hs. induction m as [|f m IH]; [constructor|]. cbn in Hs. apply StronglySorted_inv in Hs as [Hs Hf].
      constructor; [by apply IH|]. rewrite Forall_forall in Hf. apply Forall_forall. intros g Hg. apply (Hf (index_of g, g)).
      by apply (list_elem_of_fmap_2 (fun f => (index_of f, f))).
Qed.

Lemma entries_canonical l : canonical l -> object_entries l = l.
Proof.
  intros (Hn & a & b & -> & Ha & Hb & Hs). unfold object_entries. rewrite own_fields_same by done. f_equal.
  - assert (Hg : forall a' a, a' ++ a = a' ++ a -> Forall (fun f => index_key f = true) a -> StronglySorted (fun f g => (index_of f <= index_of g)%Z) (a' ++ a) ->
      foldl (fun acc f => ordered f acc) (tagged a') a = tagged (a' ++ a)).
    { clear. intros a' a _. revert a'. induction a as [|[k v] a IH]; intros a' Ha Hs; cbn; [by rewrite app_nil_r|].
      apply Forall_cons in Ha as [Hk Ha]. unfold ordered at 2. unfold index_key in Hk. cbn in *. destruct (array_index k) as [i|] eqn:Ei; [|done].
      rewrite index_insert_last.
      - replace (tagged a' ++ [(i, (k, v))]) with (tagged (a' ++ [(k, v)])) by (unfold tagged; rewrite map_app; cbn; unfold index_of at 2; cbn; by rewrite Ei).
        rewrite IH; [by rewrite <- app_assoc | done | by rewrite <- app_assoc].
      - unfold tagged. apply Forall_fmap, Forall_forall. intros f Hf. cbn. apply StronglySorted_app_1_elem_of with (x1 := f) (x2 := (k, v)) in Hs; [|done | by left].
        unfold index_of at 2 in Hs. cbn in Hs. by rewrite Ei in Hs. }
    rewrite foldl_app. change (foldl _ [] a) with (foldl (fun acc f => ordered f acc) (tagged []) a). rewrite Hg by done.
    assert (Hb' : forall acc, foldl (fun acc f => match array_index f.1 with Some i => index_insert f.1 i f.2 acc | None => acc end) acc b = acc).
    { clear - Hb. induction Hb as [|f b Hf Hb IH]; cbn; intros acc; [done|]. unfold index_key in Hf. destruct (array_index f.1); [done | apply IH]. }
    rewrite Hb'. unfold tagged. rewrite map_map. apply map_id.
  - clear - Ha Hb. rewrite List.filter_app. replace (List.filter _ a) with (@nil (jstr * A)); [|symmetry].
    + cbn. induction Hb as [|f b Hf Hb IH]; cbn; [done|]. unfold index_key in Hf. destruct (array_index f.1); [done|]. by rewrite IH.
    + induction Ha as [|f a Hf Ha IH]; cbn; [done|]. unfold index_key in Hf. destruct (array_index f.1); [done|]. done.
Qed.

Lemma entries_twice l : object_entries (object_entries l) = object_entries l.
Proof. apply entries_canonical, canonical_entries. Qed.

(** Setting a field that is no index. *)
Lemma canonical_set (k : jstr) (v : A) l : array_index k = None -> canonical l -> canonical (set_field_last k v l).
Proof.
  intros Hk (Hn & a & b & -> & Ha & Hb & Hs). split; [by apply set_field_nodup|]. exists a, (set_field_last k v b). split_and!; try done.
  - clear Hn Hs. induction Ha as [|[k' v'] a Hf Ha IH]; cbn; [done|]. rewrite bool_decide_false; [by rewrite IH|].
    intros ->. unfold index_key in Hf. cbn in Hf. by rewrite Hk in Hf.
  - clear Hn Hs. induction Hb as [|[k' v'] b Hf Hb IH]; cbn; [repeat constructor; unfold index_key; cbn; by rewrite Hk|].
    case_bool_decide; by constructor.
Qed.

Lemma canonical_filter (p : jstr * A -> bool) l : canonical l -> canonical (List.filter p l).
Proof.
  intros (Hn & a & b & -> & Ha & Hb & Hs). split.
  - clear - Hn. induction (a ++ b) as [|f l IH]; cbn; [done|]. cbn in Hn. apply NoDup_cons in Hn as [Hf Hn]. destruct (p f); [|by apply IH].
    cbn. apply NoDup_cons. split; [|by apply IH]. intros (g & Eg & Hg)%list_elem_of_fmap. apply Hf. rewrite Eg. apply list_elem_of_fmap_2.
    rewrite list_elem_of_In, filter_In in Hg. apply list_elem_of_In. tauto.
  - exists (List.filter p a), (List.filter p b). split_and!; [apply List.filter_app | | |].
    + clear - Ha. induction Ha as [|f a Hf Ha IH]; cbn; [constructor|]. destruct (p f); [by constructor | done].
    + clear - Hb. induction Hb as [|f b Hf Hb IH]; cbn; [constructor|]. destruct (p f); [by constructor | done].
    + clear - Hs. induction Hs as [|f a Hs IH Hf]; cbn; [constructor|]. destruct (p f); [|done]. constructor; [done|].
      apply Forall_forall. intros g. rewrite list_elem_of_In, filter_In. intros [Hg _]. rewrite Forall_forall in Hf. apply Hf. by apply list_elem_of_In.
Qed.
Lemma entries_elem l (f : jstr * A) : f ∈ object_entries l -> f ∈ l.
Proof.
  assert (Ho : forall (l acc : list (jstr * A)) f, f ∈ foldl (fun acc f => set_field_last f.1 f.2 acc) acc l -> f ∈ acc \/ f ∈ l).
  { clear. induction l as [|[k v] l IH]; cbn; intros acc f Hf; [by left|]. destruct (IH _ _ Hf) as [H|H]; [|right; by right].
    clear -H. induction acc as [|[k' v'] acc IH]; cbn in H; [apply list_elem_of_singleton in H as ->; right; by left|].
    case_bool_decide; apply elem_of_cons in H as [->|H].
    - subst. right; by left.
    - left; by right.
    - left; by left.
    - destruct (IH H); [left; by right | by right]. }
  assert (Hi : forall (l : list (jstr * A)) (acc : list (Z * (jstr * A))) f, f ∈ foldl (fun acc f => match array_index f.1 with Some i => index_insert f.1 i f.2 acc | None => acc end) acc l ->
     f ∈ acc \/ f.2 ∈ l).
  { clear. induction l as [|[k v] l IH]; cbn; intros acc f Hf; [by left|]. destruct (IH _ _ Hf) as [H|H]; [|right; by right].
    destruct (array_index k) as [i|]; [|by left]. rewrite index_insert_perm in H. apply elem_of_cons in H as [->|H]; [right; by left | by left]. }
  intros H. apply elem_of_app in H as [H|H].
  - apply list_elem_of_fmap in H as ((i & g) & -> & H). destruct (Hi _ _ _ H) as [H'|H']; [by apply not_elem_of_nil in H'|]. cbn in *.
    destruct (Ho _ _ _ H') as [H''|?]; [by apply not_elem_of_nil in H'' | done].
  - rewrite list_elem_of_In, filter_In in H. destruct H as [H _]. apply list_elem_of_In in H.
    destruct (Ho _ _ _ H) as [H'|?]; [by apply not_elem_of_nil in H' | done].
Qed.

End Canonical.

(** ** Renaming the values *)
Section Entries.
Context {A B : Type} (g : A -> B).
Definition over (f : jstr * A) : jstr * B := (fst f, g (snd f)).

Lemma set_field_map (k : jstr) (v : A) (l : list (jstr * A)) :
  map over (set_field_last k v l) = set_field_last k (g v) (map over l).
Proof. induction l as [|[k' v'] l IH]; cbn; [done|]. case_bool_decide; cbn; by rewrite ?IH. Qed.

Lemma own_fields_map (l : list (jstr * A)) : own_fields (map over l) = map over (own_fields l).
Proof.
  unfold own_fields. change (@nil (jstr * B)) with (map over []). generalize (@nil (jstr * A)).
  induction l as [|[k v] l IH]; cbn; intros acc; [done|]. by rewrite <- set_field_map, IH.
Qed.

Lemma index_insert_map (k : jstr) (i : Z) (v : A) (l : list (Z * (jstr * A))) :
  map (fun x => (fst x, over (snd x))) (index_insert k i v l) = index_insert k i (g v) (map (fun x => (fst x, over (snd x))) l).
Proof. induction l as [|[j f] l IH]; cbn; [done|]. case_match; cbn; by rewrite ?IH. Qed.

Lemma filter_map_over (p : jstr -> bool) (l : list (jstr * A)) :
  List.filter (fun f => p (fst f)) (map over l) = map over (List.filter (fun f => p (fst f)) l).
Proof. induction l as [|[k v] l IH]; cbn; [done|]. case_match; cbn; by rewrite ?IH. Qed.

Lemma entries_map (l : list (jstr * A)) : object_entries (map over l) = map over (object_entries l).
Proof.
  unfold object_entries. rewrite own_fields_map, map_app. f_equal; [|apply (filter_map_over (fun k => match array_index k with Some _ => false | None => true end))].
  generalize (own_fields l). intros own.
  assert (E : forall l acc, foldl (fun acc f => match array_index f.1 with Some i => index_insert f.1 i f.2 acc | None => acc end)
      (map (fun x => (fst x, over (snd x))) acc) (map over l)
    = map (fun x => (fst x, over (snd x))) (foldl (fun acc f => match array_index f.1 with Some i => index_insert f.1 i f.2 acc | None => acc end) acc l)).
  { clear. induction l as [|[k v] l IH]; cbn; intros acc; [done|]. destruct (array_index k); [by rewrite <- index_insert_map, IH | by rewrite IH]. }
  specialize (E own []). cbn [map] in E. rewrite E, !map_map. done.
Qed.
End Entries.

