(* ===== verification/JsonParse.v ===== *)
(** * Reading JSON text

    [JSON.parse]: the grammar of RFC 8259 over code units, the numbers rounded to doubles, an object's
    keys in the order a JavaScript object keeps them. *)

From S2P Require Import Prelude JsString Utf8 Bytes JsonTree.
#[local] Open Scope N_scope.

(** ** Tokens *)

Definition json_space (c : N) : bool := (c =? 32) || (c =? 9) || (c =? 10) || (c =? 13).

Fixpoint skip_space (s : jstr) : jstr :=
  match s with c :: r => if json_space c then skip_space r else s | [] => [] end.

Definition hex_value (c : N) : option N :=
  if is_digit c then Some (c - 48)
  else if (97 <=? c) && (c <=? 102) then Some (c - 87)
  else if (65 <=? c) && (c <=? 70) then Some (c - 55)
  else None.

(** What a backslash and a letter stand for. *)
Definition simple_escape (e : N) : option N :=
  if (e =? 34) || (e =? 92) || (e =? 47) then Some e
  else if e =? 98 then Some 8 else if e =? 102 then Some 12 else if e =? 110 then Some 10
  else if e =? 114 then Some 13 else if e =? 116 then Some 9 else None.

(** A string after its opening quote, and what follows the closing one. *)
Fixpoint parse_chars (s : jstr) : option (jstr * jstr) :=
  match s with
  | [] => None
  | c :: r =>
      if c =? c_quote then Some ([], r)
      else if c =? c_backslash then
        match r with
        | [] => None
        | e :: r =>
            if e =? 117 then
              match r with
              | x1 :: x2 :: x3 :: x4 :: r =>
                  h1 ← hex_value x1; h2 ← hex_value x2; h3 ← hex_value x3; h4 ← hex_value x4;
                  '(s, r) ← parse_chars r;
                  Some (h1 * 4096 + h2 * 256 + h3 * 16 + h4 :: s, r)
              | _ => None
              end
            else u ← simple_escape e; '(s, r) ← parse_chars r; Some (u :: s, r)
        end
      else if c <? 32 then None
      else '(s, r) ← parse_chars r; Some (c :: s, r)
  end.

(** [p] followed by what is left. *)
Fixpoint keyword (p s : jstr) : option jstr :=
  match p, s with
  | [], _ => Some s
  | a :: p, b :: s => if a =? b then keyword p s else None
  | _ :: _, [] => None
  end.

(** The longest prefix of characters [f] holds of, and the rest. *)
Fixpoint span (f : N -> bool) (s : jstr) : jstr * jstr :=
  match s with
  | c :: r => if f c then let '(a, b) := span f r in (c :: a, b) else ([], s)
  | [] => ([], [])
  end.

(** ** Numbers *)

Definition number_char (c : N) : bool :=
  is_digit c || (c =? 43) || (c =? 45) || (c =? 46) || (c =? 69) || (c =? 101).

Definition digits_value (l : jstr) : Z := foldl (fun v c => v * 10 + (Z.of_N c - 48))%Z 0%Z l.

(** The double nearest to [m * 10^e], a tie going to the even one. *)
Definition num_of_decimal (neg : bool) (m e : Z) : num :=
  match m with
  | Z.pos p =>
      if (0 <=? e)%Z then binary_normalize 53 1024 ((if neg then -1 else 1) * (m * 10 ^ e)) 0 false
      else SFdiv 53 1024 (S754_finite neg p 0) (S754_finite false (Z.to_pos (10 ^ (- e))) 0)
  | _ => S754_zero neg
  end.

(** [(\.\d+)?] *)
Definition fraction_part (s : jstr) : option (jstr * jstr) :=
  match s with
  | c :: r =>
      if c =? 46 then let '(d, r) := span is_digit r in if truthy d then Some (d, r) else None else Some ([], s)
  | [] => Some ([], [])
  end.

(** [([eE][+-]?\d+)?] *)
Definition exponent_part (s : jstr) : option (Z * jstr) :=
  match s with
  | c :: r =>
      if (c =? 101) || (c =? 69) then
        let '(neg, r) := match r with
                         | x :: r' => if x =? 45 then (true, r') else if x =? 43 then (false, r') else (false, r)
                         | [] => (false, r)
                         end in
        let '(d, r) := span is_digit r in
        if truthy d then Some ((if neg then - digits_value d else digits_value d)%Z, r) else None
      else Some (0%Z, s)
  | [] => Some (0%Z, [])
  end.

(** The value of a whole number token. *)
Definition number_of_token (s : jstr) : option num :=
  let '(neg, s) := match s with c :: r => if c =? 45 then (true, r) else (false, s) | [] => (false, s) end in
  let '(int, s) := span is_digit s in
  if match int with [] => true | [_] => false | c :: _ => c =? 48 end then None
  else
    '(frac, s) ← fraction_part s;
    '(e, s) ← exponent_part s;
    if truthy s then None
    else Some (num_of_decimal neg (digits_value (int ++ frac)) (e - Z.of_nat (length frac)))%Z.

(** ** Values *)

(** The items of an array or an object after its opening bracket, up to [close]. *)
Fixpoint parse_items {A} (item : jstr -> option (A * jstr)) (close : N) (fuel : nat) (s : jstr) : option (list A * jstr) :=
  match fuel with
  | O => None
  | S fuel =>
      '(x, s) ← item s;
      match skip_space s with
      | c :: s =>
          if c =? 44 then '(l, s) ← parse_items item close fuel s; Some (x :: l, s)
          else if c =? close then Some ([x], s)
          else None
      | [] => None
      end
  end.

Definition parse_list {A} (item : jstr -> option (A * jstr)) (close : N) (s : jstr) : option (list A * jstr) :=
  match skip_space s with
  | c :: r => if c =? close then Some ([], r) else parse_items item close (S (length s)) s
  | [] => None
  end.

(** A key, a colon and a value. *)
Definition parse_member (value : jstr -> option (json * jstr)) (s : jstr) : option ((jstr * json) * jstr) :=
  match skip_space s with
  | c :: s =>
      if c =? c_quote then
        '(k, s) ← parse_chars s;
        match skip_space s with
        | c :: s => if c =? 58 then '(v, s) ← value s; Some ((k, v), s) else None
        | [] => None
        end
      else None
  | [] => None
  end.

(** Each nested array or object takes one unit of [fuel]. *)
Fixpoint parse_value (fuel : nat) (s : jstr) : option (json * jstr) :=
  match fuel with
  | O => None
  | S fuel =>
      match skip_space s with
      | c :: r =>
          if c =? c_quote then '(k, r) ← parse_chars r; Some (JStr k, r)
          else if c =? 91 then '(l, r) ← parse_list (parse_value fuel) 93 r; Some (JArr l, r)
          else if c =? 123 then
            '(l, r) ← parse_list (parse_member (parse_value fuel)) 125 r; Some (JObj (object_entries l), r)
          else if c =? 116 then r ← keyword (js "rue") r; Some (JBool true, r)
          else if c =? 102 then r ← keyword (js "alse") r; Some (JBool false, r)
          else if c =? 110 then r ← keyword (js "ull") r; Some (JNull, r)
          else let '(tok, r) := span number_char (c :: r) in n ← number_of_token tok; Some (JNum n, r)
      | [] => None
      end
  end.

(** [JSON.parse(s)]; [None] is a SyntaxError. *)
Definition parse_json (s : jstr) : option json :=
  '(v, r) ← parse_value (S (length s)) s;
  if truthy (skip_space r) then None else Some v.

(** ** Strings read back *)

Definition units (s : jstr) : Prop := Forall (fun c => c < 65536) s.

Lemma hex_value_back (d : N) : d < 16 -> hex_value (hex_lower d) = Some d.
Proof.
  intros Hd. unfold hex_lower, hex_value, is_digit. destruct (N.ltb_spec d 10).
  - rewrite (proj2 (N.leb_le 48 _)), (proj2 (N.leb_le _ 57)) by lia. cbn. f_equal. lia.
  - rewrite (proj2 (N.leb_gt _ 57)), andb_false_r by lia. rewrite (proj2 (N.leb_le 97 _)), (proj2 (N.leb_le _ 102)) by lia.
    cbn. f_equal. lia.
Qed.

Lemma parse_escape (c : N) (t : jstr) : c < 65536 ->
  parse_chars (unicode_escape c ++ t) = '(s, r) ← parse_chars t; Some (c :: s, r).
Proof.
  intros (H1 & H2 & H3 & H4 & E)%hex_split. unfold unicode_escape. cbn [app parse_chars].
  change (c_backslash =? c_quote) with false. change (c_backslash =? c_backslash) with true.
  change (117 =? 117) with true. cbv iota. rewrite !hex_value_back by done. cbn [mbind option_bind]. by rewrite E.
Qed.

Lemma parse_plain (c : N) (t : jstr) : c <> c_quote -> c <> c_backslash -> 32 <= c ->
  parse_chars (c :: t) = '(s, r) ← parse_chars t; Some (c :: s, r).
Proof.
  intros Hq Hb Hc. cbn [parse_chars].
  by rewrite (proj2 (N.eqb_neq _ _) Hq), (proj2 (N.eqb_neq _ _) Hb), (proj2 (N.ltb_ge _ _) Hc).
Qed.

Lemma parse_unit (c : N) (t : jstr) : c < 65536 ->
  parse_chars (json_unit c ++ t) = '(s, r) ← parse_chars t; Some (c :: s, r).
Proof.
  intros Hc. unfold json_unit.
  repeat match goal with |- context [if ?a =? ?b then _ else _] => destruct (N.eqb_spec a b) as [->|] end; try done.
  destruct (N.eqb_spec c c_quote) as [->|Hq]; [done|]. destruct (N.eqb_spec c c_backslash) as [->|Hb]; [done|].
  cbn [orb]. destruct (N.ltb_spec c 32); [by apply parse_escape|]. cbn [orb]. destruct (_ && _); [by apply parse_escape|].
  by apply parse_plain.
Qed.

Lemma parse_json_chars (s t : jstr) : units s -> parse_chars (json_chars s ++ c_quote :: t) = Some (s, t).
Proof.
  induction s as [s IH] using (induction_ltof1 _ (@length N)); unfold ltof in IH. intros Hs.
  destruct s as [|c r]; [done|]. apply Forall_cons in Hs as [Hc Hr]. cbn [json_chars].
  destruct r as [|d r]; [by rewrite parse_unit|]. destruct (is_high c && is_low d) eqn:E.
  - apply pair_bounds in E as [? ?]. apply Forall_cons in Hr as [_ Hr].
    rewrite <- !app_comm_cons, !parse_plain, IH by (done || (cbn; lia) || (unfold c_quote, c_backslash; lia)). done.
  - rewrite <- app_assoc, parse_unit, IH by (done || (cbn; lia)). done.
Qed.

(** ** Lists read back *)

Definition spaces (w : jstr) : Prop := Forall (fun c => json_space c = true) w.

Lemma skip_spaces (w s : jstr) : spaces w -> skip_space (w ++ s) = skip_space s.
Proof. induction 1 as [|c w Hc _ IH]; [done|]. cbn. by rewrite Hc. Qed.

(** What may follow a number. *)
Definition no_number (t : jstr) : Prop := match t with c :: _ => number_char c = false | [] => True end.

Lemma spaces_no_number (w t : jstr) : spaces w -> no_number t -> no_number (w ++ t).
Proof.
  intros Hw Ht. destruct Hw as [|c w Hc _]; [done|]. cbn. unfold json_space in Hc.
  rewrite !orb_true_iff, !N.eqb_eq in Hc. by destruct Hc as [[[-> | ->] | ->] | ->].
Qed.

(** Items between separators: each text is read by [item], after white space. *)
Lemma parse_items_join {A} (item : jstr -> option (A * jstr)) (close : N) (w w' t : jstr) (texts : list jstr) (xs : list A) (fuel : nat) :
  Forall2 (fun u x => forall v t, spaces v -> no_number t -> item (v ++ u ++ t) = Some (x, t)) texts xs ->
  spaces w -> spaces w' -> close <> 44 -> json_space close = false -> number_char close = false ->
  texts <> [] -> (length texts <= fuel)%nat ->
  parse_items item close fuel (w ++ join (44 :: w) texts ++ w' ++ close :: t) = Some (xs, t).
Proof.
  intros H Hw Hw' Hc Hs Hn. revert fuel. induction H as [|u x texts xs Hu H IH]; intros fuel He Hf; [done|].
  destruct fuel as [|fuel]; [cbn in Hf; lia|]. cbn [parse_items]. destruct texts as [|u' texts].
  - apply Forall2_nil_inv_l in H as ->. cbn [join]. rewrite Hu; [|done|by apply spaces_no_number]. cbn [mbind option_bind].
    rewrite skip_spaces by done. cbn [skip_space]. rewrite Hs, (proj2 (N.eqb_neq _ _) Hc), N.eqb_refl. done.
  - change (join (44 :: w) (u :: u' :: texts)) with (u ++ (44 :: w) ++ join (44 :: w) (u' :: texts)).
    rewrite <- app_assoc, Hu by done. cbn [mbind option_bind app]. cbn [skip_space]. change (json_space 44) with false.
    cbv iota. change (44 =? 44) with true. cbv iota. rewrite <- app_assoc, IH by (done || (cbn in *; lia)). done.
Qed.

Lemma join_length (sep : jstr) (l : list jstr) : sep <> [] -> (length l <= S (length (join sep l)))%nat.
Proof.
  intros Hs. induction l as [|w l IH]; [cbn; lia|]. destruct l as [|v l]; [cbn; lia|].
  change (join sep (w :: v :: l)) with (w ++ sep ++ join sep (v :: l)). rewrite !length_app. destruct sep; [done|]. cbn in *. lia.
Qed.

(** The bracketed text of a list reads back; [gap] is white space. *)
Lemma parse_bracketed {A} (item : jstr -> option (A * jstr)) (open close : N) (gap indent t : jstr) (texts0 : list jstr) (xs : list A) :
  Forall2 (fun u x => forall v t, spaces v -> no_number t -> item (v ++ u ++ t) = Some (x, t)) texts0 xs ->
  Forall (fun u => forall t, exists c r, u ++ t = c :: r /\ json_space c = false /\ c <> close) texts0 ->
  spaces gap -> spaces indent -> close <> 44 -> json_space close = false -> number_char close = false ->
  exists r, bracketed [open] [close] gap indent texts0 ++ t = open :: r /\ parse_list item close r = Some (xs, t).
Proof.
  intros H Hh Hg Hi Hc Hs Hn. unfold bracketed. destruct texts0 as [|u texts] eqn:Et.
  { apply Forall2_nil_inv_l in H as ->. eexists. split; [done|]. unfold parse_list. cbn. rewrite Hs. cbn. by rewrite N.eqb_refl. }
  rewrite <- Et in *. assert (Ht : texts0 <> []) by (by rewrite Et).
  assert (Hgo : forall w w', spaces w -> spaces w' ->
     parse_list item close (w ++ join (44 :: w) texts0 ++ w' ++ close :: t) = Some (xs, t)).
  { intros w w' Hw Hw'. unfold parse_list. rewrite skip_spaces by done.
    assert (E : exists c r, join (44 :: w) texts0 ++ w' ++ close :: t = c :: r /\ json_space c = false /\ c <> close).
    { rewrite Et in *. apply Forall_cons in Hh as [Hu _]. destruct texts as [|u' texts]; [apply Hu|].
      change (join (44 :: w) (u :: u' :: texts)) with (u ++ (44 :: w) ++ join (44 :: w) (u' :: texts)). rewrite <- app_assoc. apply Hu. }
    destruct E as (c & r & E & Hc1 & Hc2). rewrite E. cbn [skip_space]. rewrite Hc1, (proj2 (N.eqb_neq _ _) Hc2), <- E.
    apply parse_items_join; try done. rewrite !length_app. pose proof (join_length (44 :: w) texts0 ltac:(done)). cbn. lia. }
  destruct (truthy gap) eqn:Eg.
  - eexists. split; [cbn [app]; reflexivity|]. rewrite <- !app_assoc.
    refine (eq_trans _ (Hgo (c_lf :: indent ++ gap) (c_lf :: indent) _ _)).
    + cbn [app]. by rewrite <- !app_assoc.
    + constructor; [done|]. by apply Forall_app.
    + by constructor.
  - eexists. split; [cbn [app]; reflexivity|]. rewrite <- !app_assoc. apply (Hgo [] []); constructor.
Qed.

(** ** Values read back *)

Section ReadBack.
Context `{JsText}.

(** The text of a number is a number token and reads as it. *)
Definition reads_back (n : num) : Prop :=
  Forall (fun c => number_char c = true) (number_text n) /\ number_of_token (number_text n) = Some n.

(** What a parser makes: numbers of [P], 16-bit units, objects with their keys in order. *)
Inductive formed (P : num -> Prop) : json -> Prop :=
| f_null : formed P JNull
| f_bool b : formed P (JBool b)
| f_num n : P n -> formed P (JNum n)
| f_str s : units s -> formed P (JStr s)
| f_arr l : Forall (formed P) l -> formed P (JArr l)
| f_obj f : canonical f -> Forall (fun x => units (fst x) /\ formed P (snd x)) f -> formed P (JObj f).

(** Values whose text reads back: the numbers in them print as themselves. *)
Definition readable : json -> Prop := formed reads_back.

Fixpoint numbers_of (v : json) : list num :=
  match v with
  | JNum n => [n]
  | JArr l => concat (map numbers_of l)
  | JObj f => concat (map (fun x => numbers_of (snd x)) f)
  | _ => []
  end.

Lemma json_nested (Q : json -> Prop) : Q JNull -> (forall b, Q (JBool b)) -> (forall n, Q (JNum n)) -> (forall s, Q (JStr s)) ->
  (forall l, Forall Q l -> Q (JArr l)) -> (forall f, Forall (fun x => Q (snd x)) f -> Q (JObj f)) -> forall v, Q v.
Proof.
  intros H1 H2 H3 H4 H5 H6. fix IH 1. intros [|b|n|s|l|f]; [done|done|done|done| |].
  - apply H5. induction l as [|x l IHl]; constructor; [apply IH | exact IHl].
  - apply H6. induction f as [|[k x] f IHf]; constructor; [apply IH | exact IHf].
Qed.

Lemma formed_numbers (P : num -> Prop) (v : json) : formed (fun _ => True) v -> Forall P (numbers_of v) -> formed P v.
Proof.
  induction v as [|b|n|s|l IH|f IH] using json_nested; intros F N; inversion F as [| | | |? Hl|? Hc Hf]; subst; cbn in N; try (by constructor).
  - constructor. by apply Forall_cons in N as [? _].
  - constructor. rewrite Forall_forall in N. rewrite Forall_forall in *. intros x Hx. apply IH; [done | by apply Hl|].
    apply Forall_forall. intros m Hm. apply N. apply list_elem_of_In, in_concat. exists (numbers_of x).
    split; [by apply in_map, list_elem_of_In | by apply list_elem_of_In].
  - constructor; [done|]. rewrite Forall_forall in N. rewrite Forall_forall in *. intros x Hx. split; [by apply Hf|]. apply IH; [done | by apply Hf|].
    apply Forall_forall. intros m Hm. apply N. apply list_elem_of_In, in_concat. exists (numbers_of x.2).
    split; [apply (in_map (fun x => numbers_of x.2)); by apply list_elem_of_In | by apply list_elem_of_In].
Qed.

Fixpoint json_depth (v : json) : nat :=
  match v with
  | JArr l => S (foldr (fun v n => Nat.max (json_depth v) n) 0 l)%nat
  | JObj f => S (foldr (fun x n => Nat.max (json_depth (snd x)) n) 0 f)%nat
  | _ => 0%nat
  end.

Lemma span_all (f : N -> bool) (a t : jstr) : Forall (fun c => f c = true) a -> match t with c :: _ => f c = false | [] => True end ->
  span f (a ++ t) = (a, t).
Proof.
  intros Ha Ht. induction Ha as [|c a Hc Ha IH]; cbn; [by destruct t as [|c t]; [|cbn; rewrite Ht]|]. by rewrite Hc, IH.
Qed.

Lemma token_starts (s : jstr) (n : num) : number_of_token s = Some n -> exists c r, s = c :: r.
Proof. destruct s as [|c r]; [done | by eauto]. Qed.

Lemma number_char_other (c : N) : number_char c = true -> json_space c = false /\ c <> 34 /\ c <> 91 /\ c <> 123 /\ c <> 116 /\ c <> 102 /\ c <> 110 /\ c <> 93 /\ c <> 125.
Proof.
  unfold number_char, json_space, is_digit. rewrite !orb_true_iff, andb_true_iff, !N.leb_le, !N.eqb_eq, !orb_false_iff, !N.eqb_neq. lia.
Qed.

Lemma parse_number (n : num) (v t : jstr) (fuel : nat) : reads_back n -> spaces v -> no_number t ->
  parse_value (S fuel) (v ++ number_text n ++ t) = Some (JNum n, t).
Proof.
  intros [Ha Hn] Hv Ht. cbn [parse_value]. rewrite skip_spaces by done. destruct (token_starts _ _ Hn) as (c & r & E).
  rewrite E in *. pose proof Ha as [Hc _]%Forall_cons. destruct (number_char_other c Hc) as (H1 & H2 & H3 & H4 & H5 & H6 & H7 & _).
  cbn [app skip_space]. rewrite H1. unfold c_quote. rewrite !(proj2 (N.eqb_neq _ _)) by done.
  change (c :: r ++ t) with ((c :: r) ++ t). rewrite span_all by done. by rewrite Hn.
Qed.

(** No value opens with white space or a closing bracket. *)
Lemma stringify_head (gap indent t : jstr) (v : json) : readable v ->
  exists c r, stringify gap indent v ++ t = c :: r /\ json_space c = false /\ c <> 93 /\ c <> 125.
Proof.
  destruct 1 as [|b|n [Ha Hn]|s Hs|l Hl|f Hc Hf]; cbn [stringify].
  - by eexists _, _.
  - destruct b; by eexists _, _.
  - destruct (token_starts _ _ Hn) as (c & r & E). rewrite E in *. apply Forall_cons in Ha as [Hc _].
    apply number_char_other in Hc. eexists c, _. split; [done | tauto].
  - by eexists _, _.
  - unfold bracketed. destruct (map _ l); [by eexists _, _|]. destruct (truthy gap); by eexists _, _.
  - unfold bracketed. destruct (map _ (object_entries _)); [by eexists _, _|]. destruct (truthy gap); by eexists _, _.
Qed.

Lemma max_depth {A} (d : A -> nat) (l : list A) (x : A) : x ∈ l -> (d x <= foldr (fun v n => Nat.max (d v) n) 0 l)%nat.
Proof. induction 1 as [x l|x y l _ IH]; cbn; lia. Qed.

Lemma parse_stringify (fuel : nat) (v : json) (gap indent w t : jstr) : readable v -> (json_depth v < fuel)%nat ->
  spaces gap -> spaces indent -> spaces w -> no_number t -> parse_value fuel (w ++ stringify gap indent v ++ t) = Some (v, t).
Proof.
  revert v indent w t. induction fuel as [|fuel IH]; intros v indent w t R D Hg Hi Hw Ht; [lia|].
  assert (Hgi : spaces (indent ++ gap)) by (by apply Forall_app).
  destruct R as [|b|n Hn|s Hs|l Hl|f He%entries_canonical Hf]; [| |by apply parse_number|..]; (cbn [parse_value]; rewrite skip_spaces by done).
  - done.
  - by destruct b.
  - cbn [stringify]. unfold json_string. cbn [app skip_space]. change (json_space c_quote) with false. cbv iota.
    change (c_quote =? c_quote) with true. cbv iota. rewrite <- app_assoc. cbn [app]. by rewrite parse_json_chars.
  - cbn [stringify]. rewrite Forall_forall in Hl.
    destruct (parse_bracketed (parse_value fuel) 91 93 gap indent t (map (stringify gap (indent ++ gap)) l) l) as (r & E & P); try done.
    + apply Forall2_fmap_l, Forall_Forall2_diag, Forall_forall. intros x Hx u t' Hu Ht'. apply IH; [by apply Hl | | done..].
      cbn in D. pose proof (max_depth json_depth l x Hx). lia.
    + apply Forall_fmap, Forall_forall. intros x Hx t'. destruct (stringify_head gap (indent ++ gap) t' x (Hl x Hx)) as (c & q & E & ? & ? & _). eauto.
    + change (js "[") with [91]. change (js "]") with [93]. rewrite E. cbn. by rewrite P.
  - cbn [stringify]. change (map (fun f0 => (f0.1, stringify gap (indent ++ gap) f0.2)) f) with (map (over (stringify gap (indent ++ gap))) f).
    rewrite entries_map, He, map_map. rewrite Forall_forall in Hf.
    destruct (parse_bracketed (parse_member (parse_value fuel)) 123 125 gap indent t
      (map (fun x => json_string (over (stringify gap (indent ++ gap)) x).1 ++ js (if truthy gap then ": " else ":") ++ (over (stringify gap (indent ++ gap)) x).2) f) f)
      as (r & E & P); try done.
    + apply Forall2_fmap_l, Forall_Forall2_diag, Forall_forall. intros [k x] Hx u t' Hu Ht'. destruct (Hf _ Hx) as [Hk Rx]. cbn [fst snd over] in *.
      unfold parse_member. rewrite skip_spaces by done. unfold json_string. rewrite <- !app_assoc. cbn [app skip_space].
      change (json_space c_quote) with false. cbv iota. change (c_quote =? c_quote) with true. cbv iota.
      rewrite <- ?app_assoc. cbn [app]. rewrite parse_json_chars by done. cbn [mbind option_bind app].
      assert (Ec : exists w', spaces w' /\ js (if truthy gap then ": " else ":") = 58 :: w')
        by (destruct (truthy gap); [exists [32]; split; [repeat constructor | done] | exists []; split; [constructor | done]]).
      destruct Ec as (w' & Hw' & ->). cbn [app skip_space]. change (json_space 58) with false. cbv iota. change (58 =? 58) with true. cbv iota.
      rewrite IH; try done. cbn in D. pose proof (max_depth (fun x => json_depth x.2) f (k, x) Hx). cbn in *. lia.
    + apply Forall_fmap, Forall_forall. intros [k x] _ t'. cbn. eexists _, _. split; [done|]. done.
    + change (js "{") with [123]. change (js "}") with [125]. rewrite E. cbn. rewrite P. cbn. by rewrite He.
Qed.

(** ** Fuel *)

Lemma bracketed_length (open close gap indent u : jstr) (texts : list jstr) : u ∈ texts ->
  (length open + length u + length close <= length (bracketed open close gap indent texts))%nat.
Proof.
  intros Hu. assert (L : forall sep, (length u <= length (join sep texts))%nat).
  { intros sep. induction Hu as [u l|u u' l Hu IH]; [destruct l as [|u0 l]; [cbn; lia | change (join sep (u :: u0 :: l)) with (u ++ sep ++ join sep (u0 :: l)); rewrite !length_app; lia]|].
    destruct l as [|u0 l]; [by apply not_elem_of_nil in Hu|].
    change (join sep (u' :: u0 :: l)) with (u' ++ sep ++ join sep (u0 :: l)). rewrite !length_app. lia. }
  unfold bracketed. destruct texts; [by apply not_elem_of_nil in Hu|]. destruct (truthy gap); rewrite !length_app; [pose proof (L (js "," ++ [c_lf] ++ indent ++ gap)) | pose proof (L (js ","))]; lia.
Qed.

Lemma bracketed_open (open close gap indent : jstr) (texts : list jstr) :
  (length open <= length (bracketed open close gap indent texts))%nat.
Proof. unfold bracketed. destruct texts; [|destruct (truthy gap)]; rewrite length_app; lia. Qed.

Lemma foldr_max_le {A} (d : A -> nat) (l : list A) (n : nat) : (n <= foldr (fun v n => Nat.max (d v) n) 0 l)%nat -> (0 < n)%nat ->
  exists x, x ∈ l /\ (n <= d x)%nat.
Proof.
  induction l as [|x l IH]; cbn; intros Hn H0; [lia|]. destruct (decide (n <= d x)%nat) as [Hx|Hx]; [exists x; split; [by left | done]|].
  destruct IH as (y & Hy & Hd); [lia | done|]. exists y. split; [by right | done].
Qed.

Lemma depth_length (n : nat) (v : json) (gap indent : jstr) : readable v -> (n <= json_depth v)%nat -> (n <= length (stringify gap indent v))%nat.
Proof.
  revert v indent. induction n as [|n IH]; intros v indent R Hn; [lia|]. destruct R as [|b|m Hm|s Hs|l Hl|f He%entries_canonical Hf]; cbn in Hn; try lia.
  - destruct (decide (n = 0)%nat) as [->|H0].
    { cbn [stringify]. exact (bracketed_open (js "[") _ _ _ _). }
    destruct (foldr_max_le json_depth l n ltac:(lia) ltac:(lia)) as (x & Hx & Hd). rewrite Forall_forall in Hl.
    pose proof (IH x (indent ++ gap) (Hl x Hx) Hd). cbn [stringify].
    pose proof (bracketed_length (js "[") (js "]") gap indent _ (map (stringify gap (indent ++ gap)) l) (list_elem_of_fmap_2 (stringify gap (indent ++ gap)) l x Hx)).
    change (length (js "[")) with 1%nat in *. change (length (js "]")) with 1%nat in *. lia.
  - destruct (decide (n = 0)%nat) as [->|H0].
    { cbn [stringify]. exact (bracketed_open (js "{") _ _ _ _). }
    destruct (foldr_max_le (fun x => json_depth x.2) f n ltac:(lia) ltac:(lia)) as (x & Hx & Hd). rewrite Forall_forall in Hf.
    pose proof (IH x.2 (indent ++ gap) (proj2 (Hf x Hx)) Hd). cbn [stringify].
    change (map (fun f0 => (f0.1, stringify gap (indent ++ gap) f0.2)) f) with (map (over (stringify gap (indent ++ gap))) f).
    rewrite entries_map, He, map_map.
    pose proof (bracketed_length (js "{") (js "}") gap indent _ (map
      (fun x => json_string (over (stringify gap (indent ++ gap)) x).1 ++ js (if truthy gap then ": " else ":") ++ (over (stringify gap (indent ++ gap)) x).2) f) (list_elem_of_fmap_2
      (fun x => json_string (over (stringify gap (indent ++ gap)) x).1 ++ js (if truthy gap then ": " else ":") ++ (over (stringify gap (indent ++ gap)) x).2) f x Hx)) as L.
    rewrite !length_app in L. change (length (js "{")) with 1%nat in *. change (length (js "}")) with 1%nat in *. cbn [over snd] in *. lia.
Qed.

(** *** What the parser makes *)

Lemma units_keyword (p s r : jstr) : units s -> keyword p s = Some r -> units r.
Proof. revert s. induction p as [|a p IH]; cbn; intros s Hs; [by intros [= <-]|]. destruct s as [|b s]; [done|]. case_match; [|done]. apply IH. by apply Forall_cons in Hs as [_ Hs]. Qed.

Lemma units_skip (s : jstr) : units s -> units (skip_space s).
Proof. induction 1 as [|c s Hc Hs IH]; cbn; [constructor|]. case_match; [done | by constructor]. Qed.

Lemma units_span (f : N -> bool) (s : jstr) : units s -> units (span f s).2.
Proof. induction 1 as [|c s Hc Hs IH]; cbn; [constructor|]. case_match; [|by constructor]. by destruct (span f s). Qed.

Lemma hex_value_bound (c h : N) : hex_value c = Some h -> h < 16.
Proof.
  unfold hex_value, is_digit. repeat case_match; intros [= <-]; rewrite ?andb_true_iff, ?N.leb_le in *; lia.
Qed.

Lemma units_chars (s k r : jstr) : units s -> parse_chars s = Some (k, r) -> units k /\ units r.
Proof.
  revert k r. induction s as [s IH] using (induction_ltof1 _ (@length N)); unfold ltof in IH. intros k r Hs.
  destruct s as [|c s]; [done|]. apply Forall_cons in Hs as [Hc Hs]. cbn [parse_chars].
  destruct (c =? c_quote); [intros [= <- <-]; split; [constructor | done]|].
  assert (Hsub : forall u s', (length s' < length (c :: s))%nat -> u < 65536 -> units s' ->
     ('(s, r) ← parse_chars s'; Some (u :: s, r)) = Some (k, r) -> units k /\ units r).
  { intros u s' Hl Hu Hs' ((k' & r') & E & [= <- <-])%bind_Some. destruct (IH s' Hl k' r' Hs' E). split; [by constructor | done]. }
  destruct (c =? c_backslash).
  - destruct s as [|e s]; [done|]. apply Forall_cons in Hs as [He Hs]. destruct (e =? 117).
    + destruct s as [|x1 [|x2 [|x3 [|x4 s]]]]; try done. intros (h1 & E1%hex_value_bound & (h2 & E2%hex_value_bound & (h3 & E3%hex_value_bound & (h4 & E4%hex_value_bound & E)%bind_Some)%bind_Some)%bind_Some)%bind_Some.
      refine (Hsub _ s _ _ _ E); [cbn; lia | lia |]. by do 4 apply Forall_cons in Hs as [_ Hs].
    + intros (u & Eu & E)%bind_Some. refine (Hsub u s _ _ Hs E); [cbn; lia|]. unfold simple_escape in Eu. repeat case_match; simplify_eq; lia.
  - destruct (c <? 32); [done|]. intros E. refine (Hsub c s _ Hc Hs E). cbn; lia.
Qed.

Lemma items_formed {A} (item : jstr -> option (A * jstr)) (Q : A -> Prop) (close : N) (fuel : nat) (s r : jstr) (l : list A) :
  (forall s x r, units s -> item s = Some (x, r) -> Q x /\ units r) -> units s -> parse_items item close fuel s = Some (l, r) ->
  Forall Q l /\ units r.
Proof.
  intros Hi. revert s r l. induction fuel as [|fuel IH]; cbn; intros s r l Hs; [done|]. intros ((x & s1) & E1 & E)%bind_Some.
  destruct (Hi s x s1 Hs E1) as [Hx Hs1]. apply units_skip in Hs1. destruct (skip_space s1) as [|c s2]; [done|]. apply Forall_cons in Hs1 as [_ Hs2].
  destruct (c =? 44); [|case_match; [injection E as <- <-; by repeat constructor | done]].
  apply bind_Some in E as ((l' & r') & E2 & [= <- <-]). destruct (IH _ _ _ Hs2 E2). split; [by constructor | done].
Qed.

Lemma list_formed {A} (item : jstr -> option (A * jstr)) (Q : A -> Prop) (close : N) (s r : jstr) (l : list A) :
  (forall s x r, units s -> item s = Some (x, r) -> Q x /\ units r) -> units s -> parse_list item close s = Some (l, r) ->
  Forall Q l /\ units r.
Proof.
  intros Hi Hs. unfold parse_list. pose proof (units_skip s Hs) as Hk. destruct (skip_space s) as [|c k]; [done|]. case_match.
  - intros [= <- <-]. apply Forall_cons in Hk as [_ Hk]. by split.
  - by apply items_formed.
Qed.

Lemma member_formed (value : jstr -> option (json * jstr)) (Q : json -> Prop) (s r : jstr) (x : jstr * json) :
  (forall s x r, units s -> value s = Some (x, r) -> Q x /\ units r) -> units s -> parse_member value s = Some (x, r) ->
  (units x.1 /\ Q x.2) /\ units r.
Proof.
  intros Hv Hs%units_skip. unfold parse_member. destruct (skip_space s) as [|c k]; [done|]. apply Forall_cons in Hs as [_ Hk]. case_match; [|done].
  intros ((key & s1) & E1 & E)%bind_Some. destruct (units_chars _ _ _ Hk E1) as [Hkey Hs1%units_skip]. destruct (skip_space s1) as [|c' s2]; [done|].
  apply Forall_cons in Hs1 as [_ Hs2]. case_match; [|done]. apply bind_Some in E as ((v & r') & E2 & [= <- <-]). by destruct (Hv _ _ _ Hs2 E2).
Qed.

Lemma parse_formed (fuel : nat) (s r : jstr) (v : json) : units s -> parse_value fuel s = Some (v, r) ->
  formed (fun _ => True) v /\ units r.
Proof.
  revert s r v. induction fuel as [|fuel IH]; intros s r v Hs; [done|]. cbn [parse_value]. apply units_skip in Hs.
  destruct (skip_space s) as [|c k]; [done|]. pose proof Hs as [_ Hk]%Forall_cons.
  destruct (c =? c_quote). { intros ((x & r') & E & [= <- <-])%bind_Some. destruct (units_chars _ _ _ Hk E). split; [by constructor | done]. }
  destruct (c =? 91).
  { intros ((l & r') & E & [= <- <-])%bind_Some. destruct (list_formed _ (formed (fun _ => True)) 93 _ _ _ (fun s x r Hu => IH s r x Hu) Hk E). split; [by constructor | done]. }
  destruct (c =? 123).
  { intros ((l & r') & E & [= <- <-])%bind_Some.
    destruct (list_formed _ (fun x => units x.1 /\ formed (fun _ => True) x.2) 125 _ _ _ (fun s x r Hu => member_formed _ _ s r x (fun s x r Hu => IH s r x Hu) Hu) Hk E) as [Hl Hr].
    split; [|done]. constructor; [apply canonical_entries|]. rewrite Forall_forall in *. intros x Hx%entries_elem. by apply Hl. }
  destruct (c =? 116). { intros (r' & E%units_keyword & [= <- <-])%bind_Some; [split; [constructor | done] | done]. }
  destruct (c =? 102). { intros (r' & E%units_keyword & [= <- <-])%bind_Some; [split; [constructor | done] | done]. }
  destruct (c =? 110). { intros (r' & E%units_keyword & [= <- <-])%bind_Some; [split; [constructor | done] | done]. }
  pose proof (units_span number_char (c :: k) Hs) as Hr. destruct (span number_char (c :: k)) as [tok r']. intros (n & _ & [= <- <-])%bind_Some.
  split; [by constructor | done].
Qed.

Lemma parse_json_formed (s : jstr) (v : json) : units s -> parse_json s = Some v -> formed (fun _ => True) v.
Proof. intros Hs ((v' & r) & E & E')%bind_Some. case_match; simplify_eq. by apply (parse_formed _ _ _ _ Hs E). Qed.

(** [JSON.parse(JSON.stringify(v, null, gap))] is [v]. *)
Lemma parse_json_text (v : json) (gap w' : jstr) : readable v -> spaces gap -> spaces w' ->
  parse_json (stringify gap [] v ++ w') = Some v.
Proof.
  intros R Hg Hw. unfold parse_json. pose proof (parse_stringify (S (length (stringify gap [] v ++ w'))) v gap [] [] w' R) as P.
  cbn [app] in P. rewrite P; try done; [| |constructor|constructor|].
  - cbn. rewrite <- (app_nil_r w'), skip_spaces by done. done.
  - rewrite length_app. pose proof (depth_length (json_depth v) v gap [] R). lia.
  - rewrite <- (app_nil_r w'). by apply spaces_no_number.
Qed.
End ReadBack.
