(* ===== verification/ArchiveReader.v ===== *)
(** * Zip and tar readers: [luna/web/src/lib/archiveReader.js]

    What the viewer lists of an archive and reads of it, on the bytes of the file.  An access beyond the end of the buffer
    throws.  [DecompressionStream] is an argument: [None] where the browser has none. *)

From S2P Require Import Prelude JsString Utf8 Bytes Zip ZipFacts.

(** ** Definitions *)

(** [view.getUint16(p, true)] and [getUint32], for an offset that is not negative. *)
Definition getUint16 (p : Z) (l : bytes) : thrown Z := if p + 2 <=? len l then Ok (u16 (Z.to_nat p) l) else Err RangeError.
Definition getUint32 (p : Z) (l : bytes) : thrown Z := if p + 4 <=? len l then Ok (u32 (Z.to_nat p) l) else Err RangeError.

(** [bytes.subarray(a, b)] for [0 <= a <= b]: what there is of the stretch. *)
Definition subarray (a b : Z) (l : bytes) : bytes := take (Z.to_nat (b - a)) (drop (Z.to_nat a) l).

(** [new TextDecoder("utf-8").decode(bytes)]: without a byte order mark at the start. *)
Definition text_decode (l : bytes) : jstr :=
  let l := if bool_decide (take 3 l = [0xEF; 0xBB; 0xBF]) then drop 3 l else l in
  default [] (decode_items true None (map (fun b => inr (Z.to_N b)) l)).

Definition ZIP_DAMAGED : error := EError (js "This zip file looks damaged.").
Definition ENTRY_DAMAGED : error := EError (js "This zip entry looks damaged.").
Definition NO_INFLATE : error := EError (js "This browser cannot unpack zip compression.").
Definition UNKNOWN_METHOD : error := EError (js "This zip uses a compression Luna cannot open yet.").

Record zip_entry := { ze_name : jstr; ze_size : Z; ze_offset : Z; ze_compressedSize : Z; ze_method : Z }.

(** The loop that looks for the end record, down from position [k - 1]; every position it reads is inside. *)
Fixpoint find_end (k : nat) (l : bytes) : option nat :=
  match k with O => None | S i => if u32 i l =? END_SIG then Some i else find_end i l end.

(** The loop over the central directory. *)
Fixpoint read_directory (count : nat) (offset : Z) (l : bytes) : thrown (list zip_entry) :=
  match count with
  | O => Ok []
  | S count =>
      sig ← getUint32 offset l;
      if negb (sig =? CENTRAL_SIG) then Ok []
      else
        method ← getUint16 (offset + 10) l;
        compressedSize ← getUint32 (offset + 20) l;
        size ← getUint32 (offset + 24) l;
        nameLen ← getUint16 (offset + 28) l;
        extraLen ← getUint16 (offset + 30) l;
        commentLen ← getUint16 (offset + 32) l;
        localOffset ← getUint32 (offset + 42) l;
        let name := text_decode (subarray (offset + 46) (offset + 46 + nameLen) l) in
        entries ← read_directory count (offset + (46 + nameLen + extraLen + commentLen)) l;
        Ok ({| ze_name := name; ze_size := size; ze_offset := localOffset; ze_compressedSize := compressedSize; ze_method := method |} :: entries)
  end.

Definition listZipEntries (l : bytes) : thrown (list zip_entry) :=
  match find_end (length l - 21) l with
  | None => Err ZIP_DAMAGED
  | Some eocd =>
      count ← getUint16 (Z.of_nat eocd + 10) l;
      offset ← getUint32 (Z.of_nat eocd + 16) l;
      read_directory (Z.to_nat count) offset l
  end.

Section Entries.
(** [DecompressionStream("deflate-raw")] over the bytes, where the browser has it. *)
Context (inflate : option (bytes -> thrown bytes)).

Definition readZipEntry (l : bytes) (entry : zip_entry) : thrown bytes :=
  sig ← getUint32 (ze_offset entry) l;
  if negb (sig =? LOCAL_SIG) then Err ENTRY_DAMAGED
  else
    nameLen ← getUint16 (ze_offset entry + 26) l;
    extraLen ← getUint16 (ze_offset entry + 28) l;
    let dataStart := ze_offset entry + 30 + nameLen + extraLen in
    (* [new Uint8Array(buf, dataStart, compressedSize)] *)
    compressed ← (if dataStart + ze_compressedSize entry <=? len l then Ok (subarray dataStart (dataStart + ze_compressedSize entry) l) else Err RangeError);
    if ze_method entry =? 0 then Ok compressed
    else if ze_method entry =? 8 then match inflate with None => Err NO_INFLATE | Some inflate => inflate compressed end
    else Err UNKNOWN_METHOD.
End Entries.

(** *** Tar *)

(** [asciiField(block, start, len)]; a byte beyond a block that is cut short reads as the character 0. *)
Fixpoint until_zero (l : list (option Z)) : jstr :=
  match l with
  | Some b :: l => if b =? 0 then [] else Z.to_N b :: until_zero l
  | None :: l => 0%N :: until_zero l
  | [] => []
  end.
Definition asciiField (block : bytes) (start n : nat) : jstr := until_zero (map (fun i => block !! i) (seq start n)).

(** [s.replace(/\0+$/, "")] *)
Definition strip_zeros (s : jstr) : jstr := rev ((fix go s := match s with c :: r => if (c =? 0)%N then go r else s | [] => [] end) (rev s)).

(** The digits of [parseInt(s, 8)], after what was read before them. *)
Fixpoint octal_digits (s : jstr) (acc : Z) : Z :=
  match s with c :: s => if ((48 <=? c) && (c <=? 55))%N then octal_digits s (acc * 8 + (Z.of_N c - 48)) else acc | [] => acc end.

(** [parseInt(s, 8) || 0] *)
Definition parse_octal (s : jstr) : Z :=
  match trim_start s with
  | c :: r => if (c =? 45)%N then - octal_digits r 0 else if (c =? 43)%N then octal_digits r 0 else octal_digits (c :: r) 0
  | [] => 0
  end.

Record tar_entry := { ta_name : jstr; ta_size : Z }.

Definition tar_size (block : bytes) : Z := parse_octal (trim (asciiField block 124 12)).

(** What a header adds to the list. *)
Definition tar_entries (block : bytes) : list tar_entry :=
  let name := strip_zeros (asciiField block 0 100) in
  if negb (truthy name) then []
  else
    let isDir := bool_decide (block !! 156%nat = Some 53) || ends_with [c_slash] name in
    [{| ta_name := if isDir && negb (ends_with [c_slash] name) then name ++ [c_slash] else name; ta_size := tar_size block |}].

(** [512 + Math.ceil(size / 512) * 512] *)
Definition tar_step (size : Z) : Z := 512 + - (- size / 512) * 512.

(** [bytes.subarray(offset, offset + 512)]; offsets below zero count from the end. *)
Definition from_end (p : Z) (l : bytes) : Z := if p <? 0 then Z.max 0 (len l + p) else p.
Definition tar_block (offset : Z) (l : bytes) : bytes := subarray (from_end offset l) (from_end (offset + 512) l) l.

(** The loop; [None]: it did not end within [fuel] turns. *)
Fixpoint tar_loop (fuel : nat) (offset : Z) (l : bytes) : option (list tar_entry) :=
  match fuel with
  | O => None
  | S fuel =>
      if len l <? offset + 512 then Some []
      else
        let block := tar_block offset l in
        if forallb (fun b => b =? 0) block then Some []
        else entries ← tar_loop fuel (offset + tar_step (tar_size block)) l; Some (tar_entries block ++ entries)
  end.

Definition listTarEntries (fuel : nat) (l : bytes) : option (list tar_entry) := tar_loop fuel 0 l.

(** [/\.(jpe?g|png|gif|webp|bmp)$/i] *)
Definition IMAGE_ENDINGS : list jstr := [js ".jpeg"; js ".jpg"; js ".png"; js ".gif"; js ".webp"; js ".bmp"].
Definition ascii_lower (c : N) : N := if ((65 <=? c) && (c <=? 90))%N then (c + 32)%N else c.
Definition isImageEntryName (name : jstr) : bool :=
  existsb (fun e => ends_with e (map ascii_lower name)) IMAGE_ENDINGS && negb (ends_with [c_slash] name).

(** ** Facts *)

Lemma u16_drop (p n : nat) (l : bytes) : u16 (n + p) l = u16 p (drop n l).
Proof. unfold u16. rewrite <- Nat.add_assoc. by rewrite !nth_skipn. Qed.

Lemma u32_drop (p n : nat) (l : bytes) : u32 (n + p) l = u32 p (drop n l).
Proof. unfold u32. rewrite <- Nat.add_assoc. by rewrite !u16_drop. Qed.

(** Reading at an offset is reading the rest from there. *)
Lemma getUint16_at (pre l : bytes) (p : nat) : (p + 2 <= length l)%nat -> getUint16 (len pre + Z.of_nat p) (pre ++ l) = Ok (u16 p l).
Proof.
  intros H. unfold getUint16, len. rewrite length_app, (proj2 (Z.leb_le _ _)) by lia.
  replace (Z.to_nat (Z.of_nat (length pre) + Z.of_nat p)) with (length pre + p)%nat by lia. by rewrite u16_drop, drop_app_length.
Qed.

Lemma getUint32_at (pre l : bytes) (p : nat) : (p + 4 <= length l)%nat -> getUint32 (len pre + Z.of_nat p) (pre ++ l) = Ok (u32 p l).
Proof.
  intros H. unfold getUint32, len. rewrite length_app, (proj2 (Z.leb_le _ _)) by lia.
  replace (Z.to_nat (Z.of_nat (length pre) + Z.of_nat p)) with (length pre + p)%nat by lia. by rewrite u32_drop, drop_app_length.
Qed.

Lemma getUint32_start (pre l : bytes) : (4 <= length l)%nat -> getUint32 (len pre) (pre ++ l) = Ok (u32 0 l).
Proof. intros H. rewrite <- (getUint32_at pre l 0) by lia. by rewrite Z.add_0_r. Qed.

Lemma subarray_at (pre a b l : bytes) : l = pre ++ a ++ b -> subarray (len pre) (len pre + len a) l = a.
Proof.
  intros ->. unfold subarray, len. replace (Z.to_nat (Z.of_nat (length pre) + Z.of_nat (length a) - Z.of_nat (length pre))) with (length a) by lia.
  by rewrite Nat2Z.id, drop_app_length, take_app_length.
Qed.

(** A name whose first character is no byte order mark decodes as itself. *)
Lemma decode_name (path : jstr) : well_formed path -> head path <> Some 0xFEFF%N -> text_decode (encode path) = path.
Proof.
  intros Hw Hb. destruct (points_of path Hw) as (ps & Hc & Hp & E).
  assert (U : utf8_encode path = flat_map utf8_of_code_point ps).
  { unfold utf8_encode. rewrite Hc. clear. induction ps as [|p ps IH]; [done|]. cbn [map flat_map]. by rewrite IH. }
  assert (D : default [] (decode_items true None (map (fun b => inr (Z.to_N b)) (encode path))) = path).
  { unfold encode. rewrite U, map_map. rewrite (map_ext _ inr) by (intros; by rewrite N2Z.id). by rewrite decode_bytes, E. }
  unfold text_decode. cbv zeta. rewrite bool_decide_false; [exact D|]. intros H. apply Hb.
  assert (F : utf8_first (utf8_encode path) = Some (0xFEFF%N, drop 3 (utf8_encode path))).
  { unfold encode in H. rewrite <- fmap_take in H. destruct (utf8_encode path) as [|b1 [|b2 [|b3 r]]]; try done. cbn in H. injection H as H1 H2 H3.
    assert (b1 = 0xEF%N /\ b2 = 0xBB%N /\ b3 = 0xBF%N) as (-> & -> & ->) by lia. reflexivity. }
  rewrite U in F. destruct Hp as [|p ps Hp _]; [done|]. cbn [flat_map] in F, E. rewrite utf8_first_back in F by (unfold scalar, scalar_value in *; lia).
  injection F as -> _. by rewrite <- E.
Qed.

(** ** What [buildZip] writes, this reader lists and reads *)

Section Layout.
Context (ld : Z -> local_time).

(** What the reader finds of the files, the first of which is at [off]. *)
Fixpoint zip_entries (off : Z) (files : list zip_file) : list zip_entry :=
  match files with
  | [] => []
  | f :: fs => {| ze_name := zf_path f; ze_size := data_size f; ze_offset := off; ze_compressedSize := data_size f; ze_method := 0 |}
               :: zip_entries (off + local_size f) fs
  end.

Lemma central_rest (f : zip_file) (off : Z) (rest : bytes) : 0 <= data_size f < 2 ^ 32 -> u16 10 (central_part ld off f ++ rest) = 0 /\ u32 24 (central_part ld off f ++ rest) = data_size f.
Proof. intros Hs. unfold central_part. destruct (dosTimeDate ld (zf_mtime f)) as [t d]. split; [reflexivity | exact (le32_back _ Hs)]. Qed.

Lemma directory_back (files : list zip_file) : forall (pre tail : bytes) (off : Z),
  Forall file_ok files -> Forall (fun f => well_formed (zf_path f) /\ head (zf_path f) <> Some 0xFEFF%N) files ->
  0 <= off -> off + sizes local_size files < 2 ^ 32 ->
  read_directory (length files) (len pre) (pre ++ centrals ld off files ++ tail) = Ok (zip_entries off files).
Proof.
  induction files as [|f fs IH]; intros pre tail off Hok Hnames Hoff Hmax; [done|].
  apply Forall_cons in Hok as [[Hbytes Hname] Hok]. apply Forall_cons in Hnames as [[Hw Hb] Hnames]. cbn [sizes] in Hmax.
  destruct (sizes_nonneg fs) as [Hs _].
  assert (Hd : 0 <= data_size f < 2 ^ 32 /\ 0 <= name_size f < 65536 /\ 0 <= off < 2 ^ 32) by (unfold local_size, name_size, data_size in *; lia).
  cbn [length centrals zip_entries read_directory]. rewrite <- !app_assoc. set (rest := centrals ld (off + local_size f) fs ++ tail).
  destruct (central_rest f off (encode (zf_path f) ++ rest)) as [R10 R24]; [lia|].
  assert (F : let h := central_part ld off f ++ encode (zf_path f) ++ rest in u32 0 h = CENTRAL_SIG /\ u32 20 h = data_size f /\ u16 28 h = name_size f
    /\ u16 30 h = 0 /\ u16 32 h = 0 /\ u32 42 h = off /\ length (central_part ld off f) = 46%nat).
  { unfold central_part. destruct (dosTimeDate ld (zf_mtime f)) as [t d].
    destruct (central_fields t d (crc32 (zf_data f) 0) (data_size f) (name_size f) off (encode (zf_path f) ++ rest)) as (F0 & _ & F20 & F28 & F30 & F32 & F42 & Hl);
      [apply crc32_range | lia.. |]. cbv zeta. split_and!; assumption. }
  destruct F as (F0 & F20 & F28 & F30 & F32 & F42 & Hl). set (h := central_part ld off f) in *. clearbody h.
  assert (L : (46 <= length (h ++ encode (zf_path f) ++ rest))%nat) by (rewrite length_app; lia).
  rewrite getUint32_start by lia. change 10 with (Z.of_nat 10). change 20 with (Z.of_nat 20). change 24 with (Z.of_nat 24). change 28 with (Z.of_nat 28).
  change 30 with (Z.of_nat 30). change 32 with (Z.of_nat 32). change 42 with (Z.of_nat 42).
  rewrite F0. cbn [mbind result_bind]. rewrite Z.eqb_refl. cbn [negb mbind result_bind].
  repeat (first [rewrite getUint16_at by lia | rewrite getUint32_at by lia]; cbn [mbind result_bind]).
  rewrite R10, F20, R24, F28, F30, F32, F42. change (Z.of_nat 46) with 46.
  assert (Sn : subarray (len pre + 46) (len pre + 46 + name_size f) (pre ++ h ++ encode (zf_path f) ++ rest) = encode (zf_path f)).
  { replace (len pre + 46) with (len (pre ++ h)) by (unfold len; rewrite length_app; lia). apply (subarray_at (pre ++ h) _ rest). by rewrite <- app_assoc. }
  assert (So : len pre + (46 + name_size f + 0 + 0) = len (pre ++ h ++ encode (zf_path f))) by (unfold len, name_size; rewrite !length_app; lia).
  rewrite Sn, So, decode_name by done. replace (pre ++ h ++ encode (zf_path f) ++ rest) with ((pre ++ h ++ encode (zf_path f)) ++ rest) by by rewrite <- !app_assoc.
  unfold rest. rewrite IH by (done || (unfold local_size, name_size, data_size in *; lia)). done.
Qed.

Context (inflate : option (bytes -> thrown bytes)).

(** The entries, read where they say. *)
Lemma entries_back (files : list zip_file) : forall (pre tail : bytes),
  Forall file_ok files -> len pre + sizes local_size files < 2 ^ 32 ->
  Forall2 (fun e f => readZipEntry inflate (pre ++ locals ld files ++ tail) e = Ok (zf_data f)) (zip_entries (len pre) files) files.
Proof.
  induction files as [|f fs IH]; intros pre tail Hok Hmax; [constructor|].
  apply Forall_cons in Hok as [[Hbytes Hname] Hok]. cbn [sizes] in Hmax. destruct (sizes_nonneg fs) as [Hs _]. pose proof (Zle_0_nat (length pre)) as Hp.
  assert (Hd : 0 <= data_size f < 2 ^ 32 /\ 0 <= name_size f < 65536) by (unfold len, local_size, name_size, data_size in *; lia).
  cbn [zip_entries locals]. constructor.
  - rewrite <- !app_assoc. set (rest := locals ld fs ++ tail). set (after := encode (zf_path f) ++ zf_data f ++ rest).
    assert (F : let h := local_part ld f ++ after in u32 0 h = LOCAL_SIG /\ u16 26 h = name_size f /\ u16 28 h = 0 /\ length (local_part ld f) = 30%nat).
    { unfold local_part. destruct (dosTimeDate ld (zf_mtime f)) as [t d].
      destruct (local_fields t d (crc32 (zf_data f) 0) (data_size f) (name_size f) after) as (F0 & _ & F26 & F28 & Hl); [lia.. |]. cbv zeta. split_and!; assumption. }
    destruct F as (F0 & F26 & F28 & Hl). set (h := local_part ld f) in *. clearbody h.
    assert (L : (30 <= length (h ++ after))%nat) by (rewrite length_app; lia).
    unfold readZipEntry. cbn [ze_offset ze_compressedSize ze_method]. rewrite getUint32_start by lia. change 26 with (Z.of_nat 26). change 28 with (Z.of_nat 28).
    rewrite F0. cbn [mbind result_bind]. rewrite Z.eqb_refl. cbn [negb mbind result_bind].
    repeat (first [rewrite getUint16_at by lia | rewrite getUint32_at by lia]; cbn [mbind result_bind]). rewrite F26, F28.
    replace (len pre + 30 + name_size f + 0) with (len (pre ++ h ++ encode (zf_path f))) by (unfold len, name_size; rewrite !length_app; lia).
    unfold data_size. fold (len (zf_data f)). rewrite (subarray_at (pre ++ h ++ encode (zf_path f)) _ rest) by (unfold after; by rewrite <- !app_assoc).
    rewrite (proj2 (Z.leb_le _ _)); [done|]. unfold after, len. rewrite !length_app. lia.
  - replace (len pre + local_size f) with (len (pre ++ local_part ld f ++ encode (zf_path f) ++ zf_data f))
      by (unfold len, local_size, name_size, data_size; rewrite !length_app, local_part_length; lia).
    specialize (IH (pre ++ local_part ld f ++ encode (zf_path f) ++ zf_data f) tail Hok). rewrite <- !app_assoc in IH. rewrite <- !app_assoc. apply IH.
    unfold len, local_size, name_size, data_size in *. rewrite !length_app, local_part_length. lia.
Qed.
End Layout.

(** The archive [buildZip] makes, in its three parts. *)
Lemma buildZip_parts (ld : Z -> local_time) (files : list zip_file) (archive : bytes) : buildZip ld files = Some archive ->
  archive = locals ld files ++ centrals ld 0 files
              ++ end_record (Z.of_nat (length files)) (Z.of_nat (length (centrals ld 0 files))) (sizes local_size files)
  /\ Z.of_nat (length files) < 65536 /\ sizes local_size files < 2 ^ 32.
Proof.
  unfold buildZip, checkZipFits. rewrite length_map. destruct (Z.ltb_spec ZIP_MAX_FILES (Z.of_nat (length files))) as [|Hcount]; [done|].
  destruct (fits_loop _ 22) as [[]|] eqn:Hfit; [|done]. cbn [mbind option_bind]. cbv zeta. apply (fits_spec files 22) in Hfit; [|done].
  destruct (add_files ld files {| zs_parts := []; zs_central := []; zs_offset := 0 |}) as (H1 & H2 & H3). cbn [zs_parts zs_central zs_offset concat app] in H1, H2, H3.
  rewrite H1, H2, H3, concat_length, H2, !Z.add_0_l. intros [= <-]. destruct (sizes_nonneg files) as [Hl Hc]. unfold ZIP_MAX_BYTES, ZIP_MAX_FILES in *.
  split; [done|]. lia.
Qed.

(** C39: what the cloud page packs, the viewer opens: the archive [buildZip] makes of files whose names are texts of less than
    64 KiB that do not start with a byte order mark is listed as those files, in their order, with their names and sizes, and each entry reads as its file's bytes. *)
Theorem zip_opens_in_viewer (ld : Z -> local_time) (inflate : option (bytes -> thrown bytes)) (files : list zip_file) (archive : bytes) :
  Forall file_ok files -> Forall (fun f => well_formed (zf_path f) /\ head (zf_path f) <> Some 0xFEFF%N) files -> buildZip ld files = Some archive ->
  exists entries, listZipEntries archive = Ok entries /\ map ze_name entries = map zf_path files /\ map ze_size entries = map data_size files
    /\ Forall2 (fun e f => readZipEntry inflate archive e = Ok (zf_data f)) entries files.
Proof.
  intros Hok Hnames (-> & Hcount & Hmax)%buildZip_parts. exists (zip_entries 0 files). set (fin := end_record _ _ _).
  destruct (sizes_nonneg files) as [Hl _].
  destruct (end_fields (Z.of_nat (length files)) (Z.of_nat (length (centrals ld 0 files))) (sizes local_size files)) as (E1 & E2 & E3 & E4); [lia.. |].
  fold fin in E1, E2, E3, E4. clearbody fin. split_and!.
  - unfold listZipEntries. rewrite (app_assoc (locals ld files)). set (body := locals ld files ++ centrals ld 0 files).
    assert (E : (length (body ++ fin) - 21 = S (length body + 0))%nat) by (rewrite length_app; lia). rewrite E. cbn [find_end].
    rewrite u32_drop, drop_app_length, E1, Z.eqb_refl. rewrite Nat.add_0_r. change 10 with (Z.of_nat 10). change 16 with (Z.of_nat 16). fold (len body).
    rewrite getUint16_at, getUint32_at by lia. cbn [mbind result_bind]. rewrite E2, E3, Nat2Z.id. unfold body. rewrite <- app_assoc, <- (locals_length ld files).
    apply (directory_back ld files (locals ld files) fin 0); [done.. | lia].
  - generalize 0. clear. induction files as [|f fs IH]; intros off; [done|]. cbn [zip_entries map ze_name]. by rewrite IH.
  - generalize 0. clear. induction files as [|f fs IH]; intros off; [done|]. cbn [zip_entries map ze_size]. by rewrite IH.
  - apply (entries_back ld inflate files [] (centrals ld 0 files ++ fin)); [done | unfold len; cbn [length]; lia].
Qed.

Lemma zip_opens_in_viewer_witness : exists archive entries, buildZip noon two_files = Some archive
  /\ listZipEntries archive = Ok entries /\ map ze_name entries = [js "a/b.txt"; js "é"].
Proof.
  destruct (buildZip noon two_files) as [archive|] eqn:E; [|by vm_compute in E]. exists archive.
  destruct (zip_opens_in_viewer noon None two_files archive) as (entries & H1 & H2 & _).
  - repeat constructor; try discriminate; vm_compute; reflexivity || (intros H; discriminate H) || lia.
  - constructor; [|constructor; [|constructor]]; (split; [apply ascii_well_formed; vm_compute; reflexivity | vm_compute; intros H; discriminate H]).
  - exact E.
  - exists entries. split; [reflexivity|]. split; [exact H1 | exact H2].
Defined.

(** ** Tar *)

Lemma tar_step_pos (size : Z) : 0 <= size -> 512 <= tar_step size /\ size + 512 <= tar_step size < size + 1024.
Proof. intros H. unfold tar_step. pose proof (Z.div_mod (- size) 512 ltac:(lia)). pose proof (Z.mod_pos_bound (- size) 512 ltac:(lia)). lia. Qed.

(** The listing of a tar ends: where no block spells a negative size, as many turns as the file has blocks and one are
    enough, whatever its bytes, and more turns change nothing. *)
Theorem tar_listing_ends (l : bytes) : (forall offset, 0 <= tar_size (tar_block offset l)) ->
  exists entries, (length entries <= length l / 512)%nat /\ forall fuel, (length l / 512 < fuel)%nat -> listTarEntries fuel l = Some entries.
Proof.
  intros Hsize. unfold listTarEntries.
  enough (G : forall n offset, 0 <= offset -> len l - offset < 512 * (Z.of_nat n + 1) ->
    exists entries, (length entries <= n)%nat /\ forall fuel, (n < fuel)%nat -> tar_loop fuel offset l = Some entries).
  { apply (G (length l / 512)%nat 0); [done|]. unfold len. pose proof (Nat.div_mod_eq (length l) 512). pose proof (Nat.mod_upper_bound (length l) 512). lia. }
  induction n as [|n IH]; intros offset Hoff Hn.
  - exists []. split; [done|]. intros [|fuel] Hf; [lia|]. cbn [tar_loop]. by rewrite (proj2 (Z.ltb_lt _ _)) by lia.
  - destruct (Z.ltb_spec (len l) (offset + 512)) as [E|E].
    { exists []. split; [cbn; lia|]. intros [|fuel] Hf; [lia|]. cbn [tar_loop]. by rewrite (proj2 (Z.ltb_lt _ _)). }
    destruct (forallb (fun b => b =? 0) (tar_block offset l)) eqn:Ez.
    { exists []. split; [cbn; lia|]. intros [|fuel] Hf; [lia|]. cbn [tar_loop]. by rewrite (proj2 (Z.ltb_ge _ _)), Ez. }
    pose proof (tar_step_pos _ (Hsize offset)) as [Hs _]. destruct (IH (offset + tar_step (tar_size (tar_block offset l)))) as (entries & He & Hr); [lia.. |].
    exists (tar_entries (tar_block offset l) ++ entries). split; [rewrite length_app; unfold tar_entries; case_match; cbn [length]; lia|].
    intros [|fuel] Hf; [lia|]. cbn [tar_loop]. rewrite (proj2 (Z.ltb_ge _ _)), Ez, Hr by lia. done.
Qed.

Lemma short_block_size (block : bytes) : (length block <= 124)%nat -> tar_size block = 0.
Proof.
  intros H. unfold tar_size, asciiField. cbn [seq map]. rewrite !lookup_ge_None_2 by lia. vm_compute. reflexivity.
Qed.

Lemma tar_listing_ends_witness : listTarEntries 1 [1; 2; 3] = Some [].
Proof.
  destruct (tar_listing_ends [1; 2; 3]) as (entries & Hl & H).
  - intros offset. rewrite short_block_size; [lia|]. unfold tar_block, subarray. rewrite length_take, length_drop. cbn [length]. lia.
  - rewrite (H 1%nat) by (cbn; lia). destruct entries; [reflexivity | cbn in Hl; lia].
Defined.

(** A header with a name, a size as its digits and a type. *)
#[local] Definition header (name size : string) (flag : Z) : bytes :=
  let field n (s : string) := map Z.of_N (js s) ++ replicate (n - length (js s)) 0 in
  field 100%nat name ++ replicate 24 0 ++ field 12%nat size ++ replicate 20 0 ++ [flag] ++ replicate 355 0.

(** A header whose size field says -1000 in octal, with a name. *)
#[local] Definition looping_tar : bytes := header "a" "-1000" 48.

(** Where a block spells a negative size the loop may not move: a header with the size [-1000] is read for ever, and
    the list grows with every turn. *)
Lemma negative_size_hangs (fuel : nat) : listTarEntries fuel looping_tar = None.
Proof.
  unfold listTarEntries. induction fuel as [|fuel IH]; [done|]. cbn [tar_loop].
  assert (E : (len looping_tar <? 0 + 512) = false /\ forallb (fun b => b =? 0) (tar_block 0 looping_tar) = false
              /\ 0 + tar_step (tar_size (tar_block 0 looping_tar)) = 0) by (vm_compute; done).
  destruct E as (-> & -> & ->). by rewrite IH.
Qed.

(** A member: its header and its data, padded to whole blocks. *)
Definition padded (data : bytes) : bytes := data ++ replicate (Z.to_nat (- len data mod 512)) 0.
Definition member_ok (m : bytes * bytes) : Prop := length m.1 = 512%nat /\ tar_size m.1 = len m.2 /\ forallb (fun b => b =? 0) m.1 = false.
Definition tar_of (members : list (bytes * bytes)) : bytes := concat (map (fun m => m.1 ++ padded m.2) members) ++ replicate 1024 0.

Lemma padded_step (data : bytes) : 512 + len (padded data) = tar_step (len data).
Proof.
  unfold padded, tar_step, len. rewrite length_app, length_replicate. pose proof (Z.div_mod (- Z.of_nat (length data)) 512 ltac:(lia)).
  pose proof (Z.mod_pos_bound (- Z.of_nat (length data)) 512 ltac:(lia)). lia.
Qed.

Lemma tar_block_at (pre block rest : bytes) : length block = 512%nat -> tar_block (len pre) (pre ++ block ++ rest) = block.
Proof.
  intros Hb. unfold tar_block, from_end. rewrite !(proj2 (Z.ltb_ge _ _)) by (unfold len; lia).
  replace (len pre + 512) with (len pre + len block) by (unfold len; lia). by apply (subarray_at pre block rest).
Qed.

(** A tar is listed by its headers: of members of any content, each a header and its data padded to blocks, the list has what
    each header says, in order; no data is taken for a header. *)
Theorem tar_lists_headers (members : list (bytes * bytes)) (fuel : nat) : Forall member_ok members -> (length members < fuel)%nat ->
  listTarEntries fuel (tar_of members) = Some (concat (map (fun m => tar_entries m.1) members)).
Proof.
  unfold listTarEntries, tar_of. change 0 with (len []) at 1. intros Hm. change (concat (map (fun m => m.1 ++ padded m.2) members) ++ replicate 1024 0)
    with ([] ++ concat (map (fun m => m.1 ++ padded m.2) members) ++ replicate 1024 0). generalize (@nil Z). revert fuel.
  induction Hm as [|[h d] members (Hl & Hs & Hz) Hm IH]; intros [|fuel] pre Hf; cbn [length] in Hf; try lia; cbn [map concat tar_loop].
  - unfold len. rewrite !length_app. rewrite (proj2 (Z.ltb_ge _ _)) by (rewrite length_replicate; lia). fold (len pre). cbn [app].
    change (replicate 1024 0) with (replicate 512 0 ++ replicate 512 0). rewrite tar_block_at by done. reflexivity.
  - cbn [fst snd] in *. rewrite <- !app_assoc. rewrite tar_block_at, Hz, Hs by done.
    rewrite (proj2 (Z.ltb_ge _ _)) by (unfold len; rewrite !length_app; lia).
    assert (E : len pre + tar_step (len d) = len (pre ++ h ++ padded d)) by (rewrite <- padded_step; unfold len; rewrite !length_app; lia).
    specialize (IH fuel (pre ++ h ++ padded d) ltac:(lia)). rewrite <- !app_assoc in IH. rewrite E, IH. done.
Qed.

Lemma tar_lists_headers_witness : listTarEntries 4 (tar_of [(header "docs" "00000000000" 53, []); (header "docs/a" "00000000003" 48, [97; 98; 99])])
  = Some [{| ta_name := js "docs/"; ta_size := 0 |}; {| ta_name := js "docs/a"; ta_size := 3 |}].
Proof.
  rewrite (tar_lists_headers [(header "docs" "00000000000" 53, []); (header "docs/a" "00000000003" 48, [97; 98; 99])] 4).
  - vm_compute. reflexivity.
  - constructor; [|constructor; [|constructor]]; (split; [vm_compute; reflexivity | split; vm_compute; reflexivity]).
  - cbn. lia.
Defined.
