(* ===== verification/Search.v ===== *)
(** * Search: [luna/web/src/lib/fileSearch.js] and the matching of [shared/ui/lib/settingsSearch.js]

    The letters that a hit underlines, the words of a hit's row, and which settings a query finds, in which order.  Tables of
    Unicode - lower case, letters and digits, accents - are arguments. *)

From S2P Require Import Prelude JsString Bytes Utf8.

(** ** Files *)

Definition MIN_SEARCH_LENGTH : nat := 2.

Inductive search_kind := KAll | KDir | KFile.
Definition kind_text (k : search_kind) : jstr := match k with KAll => js "all" | KDir => js "dir" | KFile => js "file" end.

(** [None] is the URIError of a lone surrogate. *)
Definition searchUrl (q : jstr) (kind : search_kind) : option jstr :=
  e ← encode_uri_component q;
  let base := js "/api/v1/search?q=" ++ e in
  Some (match kind with KAll => base | _ => base ++ js "&kind=" ++ kind_text kind end).

Record search_answer := { sa_hits : list json; sa_closeOnly : bool; sa_truncated : bool; sa_incomplete : bool; sa_scan : json }.

Definition parseSearchResponse (data : value) : search_answer :=
  {| sa_hits := match opt_prop "hits" data with Some (JArr l) => l | _ => [] end;
     sa_closeOnly := truthy_value (opt_prop "close_only" data);
     sa_truncated := truthy_value (opt_prop "truncated" data);
     sa_incomplete := truthy_value (opt_prop "incomplete" data);
     sa_scan := default JNull (opt_prop "scan" data) |}.

Section Highlight.
(** [s.toLowerCase()] and [/[\p{L}\p{N}]/u] on a code point. *)
Context (toLowerCase : jstr -> jstr) (word_point : N -> bool).

(** [s.split(/[^\p{L}\p{N}]+/u)] up to empty pieces, which the filter drops: the runs of letters and digits. *)
Fixpoint word_runs (points : list (option N)) (run : jstr) : list jstr :=
  match points with
  | [] => [run]
  | Some p :: points => if word_point p then word_runs points (run ++ units_of p) else run :: word_runs points []
  | None :: points => run :: word_runs points []
  end.

(** [[...new Set(l)]] *)
Fixpoint distinct (l : list jstr) : list jstr :=
  match l with [] => [] | s :: l => s :: List.filter (fun t => negb (bool_decide (t = s))) (distinct l) end.

Definition query_words (query : jstr) : list jstr :=
  distinct (List.filter (fun w => Nat.leb 2 (length w)) (word_runs (code_points (toLowerCase query)) [])).

(** The loop over [lower.indexOf(word, from)]: [k] more characters belong to an occurrence that was found. *)
Fixpoint marks (word : jstr) (k : nat) (lower : jstr) : list bool :=
  match lower with
  | [] => []
  | _ :: rest =>
      match k with
      | S k => true :: marks word k rest
      | O => if starts_with word lower then true :: marks word (length word - 1) rest else false :: marks word 0 rest
      end
  end.

(** [marked], after all words. *)
Definition marked (words : list jstr) (lower : jstr) : list bool :=
  foldl (fun m word => zip_with orb m (marks word 0 lower)) (replicate (length lower) false) words.

Record part := { pt_text : jstr; pt_hit : bool }.

(** The last loop, from its end: a character joins the part after it, which is the part the loop would have put it in. *)
Fixpoint parts_of (name : jstr) (hits : list bool) : list part :=
  match name, hits with
  | c :: name, hit :: hits =>
      match parts_of name hits with
      | part :: parts => if eqb (pt_hit part) hit then {| pt_text := c :: pt_text part; pt_hit := hit |} :: parts
                         else {| pt_text := [c]; pt_hit := hit |} :: part :: parts
      | [] => [{| pt_text := [c]; pt_hit := hit |}]
      end
  | _, _ => []
  end.

Definition highlightParts (name query : jstr) : list part :=
  let words := query_words query in
  match words with
  | [] => [{| pt_text := name; pt_hit := false |}]
  | _ =>
      let lower := toLowerCase name in
      if negb (Nat.eqb (length lower) (length name)) then [{| pt_text := name; pt_hit := false |}]
      else parts_of name (marked words lower)
  end.
End Highlight.

(** [None] where the storage refuses. *)
Definition loadSearchKind (saved : option (option jstr)) : search_kind :=
  match saved with
  | Some (Some s) => if bool_decide (s = js "dir") then KDir else if bool_decide (s = js "file") then KFile else KAll
  | _ => KAll
  end.

Definition locationParts (driveLabel folder : jstr) : list jstr :=
  let parts := if truthy folder then List.filter truthy (split_on c_slash folder) else [] in
  driveLabel :: (if Nat.ltb 2 (length parts) then js "…" :: drop (length parts - 2) parts else parts).

(** [modified] is in seconds; [localeDate] is the browser's short date, with the year when asked. *)
Definition searchWhen (localeDate : bool -> Z -> jstr) (yearOf : Z -> Z) (modified now : Z) : jstr :=
  if modified <=? 0 then []
  else
    let at_ := modified * 1000 in
    let mins := Z.max 0 (now - at_) / 60000 in
    if mins <? 1 then js "Just now"
    else if mins <? 60 then js_of_Z mins ++ js " min ago"
    else
      let hours := mins / 60 in
      if hours <? 24 then js_of_Z hours ++ js " h ago"
      else
        let days := hours / 24 in
        if days <? 7 then js_of_Z days ++ js " day" ++ js (if days =? 1 then "" else "s") ++ js " ago"
        else localeDate (negb (yearOf at_ =? yearOf now)) at_.

(** ** Settings *)

Inductive hit_kind := HCategory | HCard | HRow.
Record settings_hit := { sh_kind : hit_kind; sh_categoryId : jstr; sh_categoryLabel : jstr; sh_title : jstr; sh_cardTitle : jstr; sh_text : jstr }.

Section Settings.
(** [normalize(value)]: lower case without accents (the browser's), then single spaces. *)
Context (fold_case : jstr -> jstr).

Fixpoint single_spaces (s : jstr) : jstr :=
  match s with
  | c :: r => if is_space c then match r with d :: _ => if is_space d then single_spaces r else 32%N :: single_spaces r | [] => [32%N] end
              else c :: single_spaces r
  | [] => []
  end.
Definition normalize (value : jstr) : jstr := trim (single_spaces (fold_case value)).

Record normalized := { nm_title : jstr; nm_titleWords : list jstr; nm_card : jstr; nm_category : jstr; nm_text : jstr }.
Definition normalizedHit (hit : settings_hit) : normalized :=
  let title := normalize (sh_title hit) in
  {| nm_title := title; nm_titleWords := split_on 32 title; nm_card := normalize (sh_cardTitle hit);
     nm_category := normalize (sh_categoryLabel hit); nm_text := normalize (sh_text hit) |}.

Definition word_score (n : normalized) (word : jstr) : Z :=
  if existsb (starts_with word) (nm_titleWords n) then 6
  else if includes word (nm_title n) then 4
  else if includes word (nm_card n) then 3
  else if includes word (nm_category n) then 2
  else if includes word (nm_text n) then 1 else 0.

(** The loop over the words; [None] where a word is nowhere. *)
Fixpoint hit_score (n : normalized) (words : list jstr) (score : Z) : option Z :=
  match words with
  | [] => Some score
  | word :: words => let best := word_score n word in if best =? 0 then None else hit_score n words (score + best)
  end.

Record scored_hit := { sc_hit : settings_hit; sc_score : Z; sc_order : Z }.

Definition score_hits (index : list settings_hit) (words : list jstr) : list scored_hit :=
  omap (fun '(hit, order) => (fun score => {| sc_hit := hit; sc_score := score; sc_order := Z.of_nat order |}) <$> hit_score (normalizedHit hit) words 0)
    (zip index (seq 0 (length index))).

(** [b.score - a.score || a.order - b.order] *)
Definition better (a b : scored_hit) : Z := let d := sc_score b - sc_score a in if d =? 0 then sc_order a - sc_order b else d.

Definition settings_words (query : jstr) : list jstr := List.filter truthy (split_on 32 (normalize query)).

Definition searchSettings (index : list settings_hit) (query : jstr) (limit : nat) : list settings_hit :=
  let words := settings_words query in
  match words with
  | [] => []
  | _ => map sc_hit (take limit (js_sort better (score_hits index words)))
  end.
End Settings.

(** ** Facts *)

Lemma marks_length (word : jstr) (lower : jstr) : forall k, length (marks word k lower) = length lower.
Proof. induction lower as [|c lower IH]; intros k; [done|]. cbn [marks length]. destruct k; [destruct (starts_with _ _)|]; cbn [length]; by rewrite IH. Qed.

Lemma parts_text (name : jstr) : forall hits, length hits = length name -> concat (map pt_text (parts_of name hits)) = name.
Proof.
  induction name as [|c name IH]; intros [|hit hits] Hl; try done. cbn [parts_of]. injection Hl as Hl. specialize (IH hits Hl).
  destruct (parts_of name hits) as [|part parts]; cbn [map concat pt_text] in *; [by rewrite <- IH|].
  destruct (eqb (pt_hit part) hit); cbn [map concat pt_text app]; by rewrite <- IH.
Qed.

(** The flags of the parts, letter by letter. *)
Lemma parts_hits (name : jstr) : forall hits, length hits = length name ->
  concat (map (fun p => replicate (length (pt_text p)) (pt_hit p)) (parts_of name hits)) = hits.
Proof.
  induction name as [|c name IH]; intros [|hit hits] Hl; try done. cbn [parts_of]. injection Hl as Hl. specialize (IH hits Hl).
  destruct (parts_of name hits) as [|part parts]; cbn [map concat pt_text pt_hit length replicate app] in *; [by rewrite <- IH|].
  destruct (eqb (pt_hit part) hit) eqn:E; cbn [map concat pt_text pt_hit length replicate app]; [|by rewrite <- IH].
  apply eqb_prop in E. by rewrite <- E, <- IH.
Qed.

Lemma marked_length (words : list jstr) (lower : jstr) : length (marked words lower) = length lower.
Proof.
  unfold marked. assert (G : forall m, length m = length lower -> length (foldl (fun m word => zip_with orb m (marks word 0 lower)) m words) = length lower).
  { induction words as [|w words IH]; intros m Hm; [done|]. cbn [foldl]. apply IH. rewrite length_zip_with, marks_length. lia. }
  apply G. apply length_replicate.
Qed.

(** Where [word] is in [lower]. *)
Definition occurs (word lower : jstr) (at_ : nat) : Prop := starts_with word (drop at_ lower) = true.

(** A mark is inside an occurrence; the start of every occurrence is marked. *)
Lemma marks_sound (word : jstr) (lower : jstr) : word <> [] -> forall k i, nth i (marks word k lower) false = true ->
  (i < k)%nat \/ exists at_, occurs word lower at_ /\ (at_ <= i < at_ + length word)%nat.
Proof.
  intros Hw. unfold occurs. induction lower as [|c lower IH]; intros k i; [by destruct i|]. cbn [marks].
  assert (Hl : (0 < length word)%nat) by (destruct word; [done | cbn; lia]).
  destruct k as [|k]; [destruct (starts_with word (c :: lower)) eqn:E|]; destruct i as [|i]; cbn [nth]; try done.
  - intros _. right. exists 0%nat. by split; [|lia].
  - intros [H|(a & Ha & Hr)]%IH; right; [exists 0%nat; by split; [|lia] | exists (S a); by split; [|lia]].
  - intros [H|(a & Ha & Hr)]%IH; [lia|]. right. exists (S a). by split; [|lia].
  - intros _. left. lia.
  - intros [H|(a & Ha & Hr)]%IH; [left; lia|]. right. exists (S a). by split; [|lia].
Qed.

Lemma marks_complete (word : jstr) (lower : jstr) : forall k at_, occurs word lower at_ -> (at_ < length lower)%nat -> nth at_ (marks word k lower) false = true.
Proof.
  unfold occurs. induction lower as [|c lower IH]; intros k at_ Ho Hl; [cbn in Hl; lia|]. cbn [marks]. destruct at_ as [|a].
  - cbn [drop] in Ho. destruct k as [|k]; [by rewrite Ho | done].
  - cbn [length drop] in *. destruct k as [|k]; [destruct (starts_with word (c :: lower))|]; cbn [nth]; apply IH; done || lia.
Qed.

Lemma marked_spec (words : list jstr) (lower : jstr) (i : nat) :
  nth i (marked words lower) false = existsb (fun w => nth i (marks w 0 lower) false) words.
Proof.
  unfold marked. assert (G : forall m, length m = length lower ->
    nth i (foldl (fun m word => zip_with orb m (marks word 0 lower)) m words) false = nth i m false || existsb (fun w => nth i (marks w 0 lower) false) words).
  { induction words as [|w words IH]; intros m Hm; cbn [foldl existsb]; [by rewrite orb_false_r|]. rewrite IH by (rewrite length_zip_with, marks_length; lia).
    rewrite orb_assoc. f_equal. clear IH. revert i. generalize (marks_length w lower 0). generalize (marks w 0 lower). rewrite <- Hm. clear.
    induction m as [|x m IH]; intros [|y l] Hl [|i]; try done. cbn [zip_with nth]. apply IH. by injection Hl. }
  rewrite G by apply length_replicate. clear. replace (nth i (replicate (length lower) false) false) with false; [done|].
  revert i. induction lower as [|c lower IH]; intros [|i]; try done. apply IH.
Qed.

Lemma distinct_in (l : list jstr) (x : jstr) : x ∈ distinct l <-> x ∈ l.
Proof.
  induction l as [|s l IH]; [done|]. cbn [distinct]. rewrite !elem_of_cons, list_elem_of_In, filter_In, <- list_elem_of_In, IH.
  destruct (decide (x = s)) as [->|Hx]; [naive_solver|]. rewrite bool_decide_false by done. naive_solver.
Qed.

Lemma query_words_long (toLowerCase : jstr -> jstr) (word_point : N -> bool) (query w : jstr) : w ∈ query_words toLowerCase word_point query -> (2 <= length w)%nat.
Proof. unfold query_words. rewrite distinct_in, list_elem_of_In, filter_In. by intros [_ H%Nat.leb_le]. Qed.

(** No part is empty, and neighbours differ. *)
Fixpoint alternate (parts : list part) : Prop :=
  match parts with
  | p :: rest => pt_text p <> [] /\ match rest with q :: _ => pt_hit q <> pt_hit p | [] => True end /\ alternate rest
  | [] => True
  end.

Lemma parts_alternate (name : jstr) : forall hits, alternate (parts_of name hits).
Proof.
  induction name as [|c name IH]; intros [|hit hits]; try done. cbn [parts_of]. specialize (IH hits).
  destruct (parts_of name hits) as [|part parts]; [done|]. cbn [alternate] in IH. destruct IH as (H1 & H2 & H3).
  destruct (eqb (pt_hit part) hit) eqn:E.
  - apply eqb_prop in E. cbn [alternate pt_text pt_hit]. rewrite <- E. done.
  - cbn [alternate pt_text pt_hit]. apply eqb_false_iff in E. done.
Qed.

Section Underlining.
Context (toLowerCase : jstr -> jstr) (word_point : N -> bool).

(** The flags of a name's letters. *)
Definition underlined (name query : jstr) : list bool :=
  concat (map (fun p => replicate (length (pt_text p)) (pt_hit p)) (highlightParts toLowerCase word_point name query)).

(** the underlining says what matched: the parts spell the name, neighbours differ and none is empty; an underlined letter is in
    an occurrence of a word of the query, whatever its case, and every place where such a word occurs starts underlined. *)
Theorem underlined_is_matched (name query : jstr) : name <> [] ->
  let parts := highlightParts toLowerCase word_point name query in
  let words := query_words toLowerCase word_point query in let lower := toLowerCase name in
  concat (map pt_text parts) = name /\ alternate parts
  /\ (forall i, nth i (underlined name query) false = true -> exists w at_, w ∈ words /\ occurs w lower at_ /\ (at_ <= i < at_ + length w)%nat)
  /\ (length lower = length name -> forall w at_, w ∈ words -> occurs w lower at_ -> (at_ < length name)%nat -> nth at_ (underlined name query) false = true).
Proof.
  intros Hn. cbn zeta. unfold underlined, highlightParts. pose proof (query_words_long toLowerCase word_point query) as Hlong.
  assert (Z : forall i n, nth i (replicate n false ++ []) false = false).
  { intros i n. rewrite app_nil_r. revert i. induction n as [|n IH]; intros [|i]; try done. apply IH. }
  destruct (query_words toLowerCase word_point query) as [|w0 ws] eqn:Ew.
  { cbn [map concat pt_text pt_hit alternate]. rewrite app_nil_r. split_and!; try done; [intros i; by rewrite Z | by intros _ w a ?%not_elem_of_nil]. }
  set (words := w0 :: ws) in *. destruct (Nat.eqb_spec (length (toLowerCase name)) (length name)) as [El|El]; cbn [negb].
  - assert (Hm : length (marked words (toLowerCase name)) = length name) by by rewrite marked_length. rewrite parts_text, parts_hits by done.
    split_and!; [done | apply parts_alternate | |].
    + intros i. rewrite marked_spec. intros (w & Hin & H)%existsb_exists. apply list_elem_of_In in Hin. pose proof (Hlong w Hin) as Hw.
      apply marks_sound in H as [H|(a & Ha & Hr)]; [lia | by exists w, a | by destruct w; cbn in Hw; lia || done].
    + intros _ w a Hin Ho Ha. rewrite marked_spec. apply existsb_exists. exists w. split; [by apply list_elem_of_In|]. apply marks_complete; [done | lia].
  - cbn [map concat pt_text pt_hit alternate]. rewrite app_nil_r. split_and!; try done. intros i. by rewrite Z.
Qed.
End Underlining.

Lemma underlined_is_matched_witness :
  concat (map pt_text (highlightParts to_lower is_digit (js "IMG 2024 12") (js "24 2024"))) = js "IMG 2024 12".
Proof. apply (proj1 (underlined_is_matched to_lower is_digit (js "IMG 2024 12") (js "24 2024") ltac:(discriminate))). Defined.

Example underlined_run :
  highlightParts to_lower is_digit (js "IMG 2024 12") (js "24 2024")
  = [{| pt_text := js "IMG "; pt_hit := false |}; {| pt_text := js "2024"; pt_hit := true |}; {| pt_text := js " 12"; pt_hit := false |}].
Proof. vm_compute. reflexivity. Qed.

(** ** The settings a query finds *)

Lemma word_score_found (n : normalized) (word : jstr) :
  0 <= word_score n word <= 6 /\ (word_score n word <> 0 <->
    existsb (starts_with word) (nm_titleWords n) = true \/ includes word (nm_title n) = true \/ includes word (nm_card n) = true
    \/ includes word (nm_category n) = true \/ includes word (nm_text n) = true).
Proof. unfold word_score. repeat case_match; (split; [lia|]); naive_solver. Qed.

Lemma hit_score_spec (n : normalized) (words : list jstr) : forall score,
  hit_score n words score = if forallb (fun w => negb (word_score n w =? 0)) words then Some (score + foldr (fun w s => word_score n w + s) 0 words) else None.
Proof.
  induction words as [|w words IH]; intros score; cbn [hit_score forallb foldr]; [by rewrite Z.add_0_r|].
  destruct (Z.eqb_spec (word_score n w) 0) as [E|E]; cbn [negb andb]; [done|]. rewrite IH. destruct (forallb _ words); [|done]. f_equal. lia.
Qed.

Section Found.
Context (fold_case : jstr -> jstr).

(** Every word is somewhere in the hit. *)
Definition says_all (words : list jstr) (hit : settings_hit) : Prop := Forall (fun w => word_score (normalizedHit fold_case hit) w <> 0) words.
Definition total_score (words : list jstr) (hit : settings_hit) : Z := foldr (fun w s => word_score (normalizedHit fold_case hit) w + s) 0 words.

Lemma score_hits_in (index : list settings_hit) (words : list jstr) (s : scored_hit) : s ∈ score_hits fold_case index words <->
  exists i, sc_order s = Z.of_nat i /\ index !! i = Some (sc_hit s) /\ says_all words (sc_hit s) /\ sc_score s = total_score words (sc_hit s).
Proof.
  assert (A : forall hit, forallb (fun w => negb (word_score (normalizedHit fold_case hit) w =? 0)) words = true <-> says_all words hit).
  { intros hit. unfold says_all. rewrite forallb_forall, Forall_forall. setoid_rewrite list_elem_of_In. setoid_rewrite negb_true_iff. by setoid_rewrite Z.eqb_neq. }
  unfold score_hits. rewrite list_elem_of_omap. split.
  - intros ([hit order] & Hin & E). rewrite hit_score_spec in E. destruct (forallb _ words) eqn:F; [|done]. injection E as <-. cbn [sc_order sc_hit sc_score].
    apply list_elem_of_lookup in Hin as (i & Hi). apply lookup_zip_with_Some in Hi as (h & o & [= -> ->] & Hh & Ho). apply lookup_seq in Ho as [-> _].
    exists i. split_and!; [done | done | by apply A | done].
  - intros (i & Ei & Hi & Ha & Es). exists (sc_hit s, i). split.
    + apply list_elem_of_lookup. exists i. apply lookup_zip_with_Some. exists (sc_hit s), i. split_and!; [done | done|]. apply lookup_seq. split; [done|].
      by apply lookup_lt_Some in Hi.
    + rewrite hit_score_spec, (proj2 (A _) Ha). cbn. destruct s as [h sc o]. cbn in *. unfold total_score in Es. by rewrite Es, Ei.
Qed.

Lemma better_total (a b c : scored_hit) : (better a b <= 0 \/ better b a <= 0) /\ (better a b <= 0 -> better b c <= 0 -> better a c <= 0).
Proof.
  unfold better. destruct (Z.eqb_spec (sc_score b - sc_score a) 0), (Z.eqb_spec (sc_score a - sc_score b) 0), (Z.eqb_spec (sc_score c - sc_score b) 0),
    (Z.eqb_spec (sc_score c - sc_score a) 0); lia.
Qed.

(** a query finds the settings that say all of its words, best first: each result says every word somewhere, the scores
    fall along the list, at most [limit] are shown, and one that says every word and is not shown is no better than any
    that is. *)
Theorem settings_best_first (index : list settings_hit) (query : jstr) (limit : nat) : let words := settings_words fold_case query in
  words <> [] ->
  let out := searchSettings fold_case index query limit in
  (length out <= limit)%nat
  /\ Forall (fun h => h ∈ index /\ says_all words h) out
  /\ StronglySorted (fun a b => total_score words b <= total_score words a) out
  /\ forall h, h ∈ index -> says_all words h -> h ∈ out \/ (length out = limit /\ Forall (fun g => total_score words h <= total_score words g) out).
Proof.
  cbn zeta. intros Hw. unfold searchSettings. destruct (settings_words fold_case query) as [|w ws] eqn:E; [done|]. clear Hw. set (words := w :: ws) in *.
  set (all := js_sort better (score_hits fold_case index words)).
  assert (P : forall s, s ∈ all <-> s ∈ score_hits fold_case index words) by (intros s; unfold all; by rewrite js_sort_perm).
  assert (S : StronglySorted (fun a b => better a b <= 0) all).
  { apply (js_sort_sorted better (fun _ => True)); [intros; apply better_total; exact x | intros x y z _ _ _; apply better_total | by apply Forall_true]. }
  assert (Sc : forall s, s ∈ all -> sc_score s = total_score words (sc_hit s)) by (intros s (i & _ & _ & _ & ?)%P%score_hits_in; done).
  rewrite length_map, length_take. split_and!.
  - lia.
  - apply Forall_map, Forall_forall. intros s Hs. assert (Ha : s ∈ all) by (rewrite <- (take_drop limit all); apply elem_of_app; by left).
    apply P, score_hits_in in Ha as (i & _ & Hi & Ha & _). split; [|done]. apply list_elem_of_lookup. by exists i.
  - assert (St : StronglySorted (fun a b => better a b <= 0) (take limit all)) by (rewrite <- (take_drop limit all) in S; by apply StronglySorted_app in S as (_ & S & _)).
    assert (Hin : Forall (fun s => sc_score s = total_score words (sc_hit s)) (take limit all)).
    { apply Forall_forall. intros s Hs. apply Sc. rewrite <- (take_drop limit all). apply elem_of_app. by left. }
    revert St Hin. induction 1 as [|a l Hl IH Ha]; cbn [map]; [constructor|]. intros [Ea El]%Forall_cons. constructor; [by apply IH|]. apply Forall_map.
    apply Forall_forall. intros b Hb. rewrite Forall_forall in Ha, El. specialize (Ha b Hb). rewrite <- Ea, <- (El b Hb). unfold better in Ha.
    destruct (Z.eqb_spec (sc_score b - sc_score a) 0); lia.
  - intros h (i & Hi)%list_elem_of_lookup Hs. set (s := {| sc_hit := h; sc_score := total_score words h; sc_order := Z.of_nat i |}).
    assert (Hall : s ∈ all) by (apply P, score_hits_in; by exists i). pose proof Hall as Hsplit. rewrite <- (take_drop limit all) in Hsplit.
    apply elem_of_app in Hsplit as [Hs1|Hs2]; [left; apply list_elem_of_fmap; by exists s|].
    right. split.
    { assert (limit <= length all)%nat; [|lia]. apply list_elem_of_lookup in Hs2 as (j & Hj%lookup_lt_Some). rewrite length_drop in Hj. lia. }
    apply Forall_map, Forall_forall. intros b Hb. rewrite <- (take_drop limit all) in S. apply StronglySorted_app in S as (S & _ & _).
    specialize (S b s Hb Hs2). assert (Hb' : b ∈ all) by (rewrite <- (take_drop limit all); apply elem_of_app; by left). rewrite <- (Sc b Hb').
    unfold better in S. cbn [sc_score s] in S. destruct (Z.eqb_spec (total_score words h - sc_score b) 0); lia.
Qed.
End Found.

#[local] Definition row (title card text : string) : settings_hit :=
  {| sh_kind := HRow; sh_categoryId := js "net"; sh_categoryLabel := js "Network"; sh_title := js title; sh_cardTitle := js card; sh_text := js text |}.

Lemma settings_best_first_witness :
  searchSettings to_lower [row "Wi-Fi" "Connections" "Join a network"; row "Network name" "This Luna" ""; row "Clock" "Time" ""] (js " network ") 5
    = [row "Network name" "This Luna" ""; row "Wi-Fi" "Connections" "Join a network"; row "Clock" "Time" ""]
  /\ (length (searchSettings to_lower [row "Wi-Fi" "Connections" "Join a network"] (js "wi") 1) <= 1)%nat.
Proof.
  split; [vm_compute; reflexivity|].
  apply (proj1 (settings_best_first to_lower [row "Wi-Fi" "Connections" "Join a network"] (js "wi") 1 ltac:(vm_compute; discriminate))).
Defined.
