(* ===== verification/RecentItems.v ===== *)
(** * Recent items: [luna/web/src/lib/recentItems.js]

    The list of what a user opened last, kept in the browser's local storage as JSON text, the item a location of the
    router stands for, and the link that opens it again. *)

From S2P Require Import Prelude JsString Bytes Utf8 JsonTree JsonParse Paths FileKinds.

(** ** Definitions *)

Definition RECENT_ITEMS_LIMIT : nat := 10.
Definition STORAGE_PREFIX : jstr := js "luna.recentItems.".

(** An item as the object it is. *)
Abbreviation item_fields := (list (jstr * json)).

(** The local storage: whether reading and writing throw, and the texts. *)
Record local_storage := { ls_readable : bool; ls_writable : bool; ls_texts : gmap jstr jstr }.
#[global] Instance local_storage_settable : Settable local_storage := fun s =>
  {| ls_readable := ls_readable s; ls_writable := ls_writable s; ls_texts := ls_texts s |}.

(** [try { setItem(key, text) } catch {}] *)
Definition set_item (key text : jstr) (st : local_storage) : local_storage :=
  if ls_writable st then st <| ls_texts ::= <[key := text]> |> else st.

Definition storageKey (username : option jstr) : jstr := STORAGE_PREFIX ++ str_or (default [] username) (js "guest").

(** A field that is a string; the items that are stored have these. *)
Definition field_text (key : string) (item : item_fields) : jstr := default [] (as_string (own_field (js key) item)).

Definition itemKey (item : item_fields) : jstr := field_text "kind" item ++ js "|" ++ field_text "driveId" item ++ js "|" ++ field_text "path" item.

Definition is_kind (k : jstr) : bool := bool_decide (k = js "file") || bool_decide (k = js "folder") || bool_decide (k = js "drive").

Definition isValidItem (item : item_fields) : bool :=
  match as_string (own_field (js "kind") item), as_string (own_field (js "driveId") item), as_string (own_field (js "path") item), own_field (js "at") item with
  | Some kind, Some driveId, Some _, Some (JNum at_) => is_kind kind && truthy driveId && num_is_finite at_
  | _, _, _, _ => false
  end.

(** [list.filter(isValidItem)]: what is no object is no item. *)
Definition valid_items (l : list json) : list item_fields :=
  omap (fun v => match v with JObj f => if isValidItem f then Some f else None | _ => None end) l.

Section Stored.
Context `{JsText}.

Definition readRecentItems (username : option jstr) (st : local_storage) : list item_fields :=
  if negb (ls_readable st) then []
  else match ls_texts st !! storageKey username with
       | None | Some [] => []
       | Some raw => match parse_json raw with Some (JArr l) => take RECENT_ITEMS_LIMIT (valid_items l) | _ => [] end
       end.

Definition write_items (username : option jstr) (items : list item_fields) (st : local_storage) : local_storage :=
  set_item (storageKey username) (json_text (JArr (map JObj items))) st.

(** [{ ...item, at: now }] *)
Definition stamped (item : item_fields) (now : num) : item_fields := set_field_last (js "at") (JNum now) item.

Definition recordRecentItem (username : option jstr) (item : item_fields) (now : num) (st : local_storage) : list item_fields * local_storage :=
  let entry := stamped item now in
  let key := itemKey entry in
  let next := take RECENT_ITEMS_LIMIT (entry :: List.filter (fun existing => negb (bool_decide (itemKey existing = key))) (readRecentItems username st)) in
  (next, write_items username next st).

Definition removeRecentItem (username : option jstr) (driveId path : jstr) (st : local_storage) : list item_fields * local_storage :=
  let next := List.filter (fun existing =>
      negb (bool_decide (as_string (own_field (js "driveId") existing) = Some driveId) && bool_decide (as_string (own_field (js "path") existing) = Some path)))
    (readRecentItems username st) in
  (next, write_items username next st).
End Stored.

(** *** Locations *)

Record location := { lo_pathname : jstr; lo_search : jstr; lo_hash : jstr }.

(** An item without its time. *)
Record recent_item := { ri_kind : jstr; ri_driveId : jstr; ri_path : jstr; ri_driveLabel : option jstr }.

(** [/^\/files\/([^/]+)\/?$/] *)
Definition files_match (pathname : jstr) : option jstr :=
  if starts_with (js "/files/") pathname then
    match split_on c_slash (slice_from 7 pathname) with
    | [id] | [id; []] => if truthy id then Some id else None
    | _ => None
    end
  else None.

(** [params.get(name) || ""] *)
Definition param (name : string) (search : jstr) : jstr := default [] (search_get (js name) search).

Definition strip_hash (hash : jstr) : jstr := match hash with c :: r => if (c =? 35)%N then r else hash | [] => [] end.

(** The outer [None] is the URIError of a malformed escape, the inner one [null]. *)
Definition recentItemFromLocation (toLowerCase : jstr -> jstr) (l : location) : option (option recent_item) :=
  match files_match (lo_pathname l) with
  | None => Some None
  | Some id =>
      driveId ← decode_uri_component id;
      let path := param "path" (lo_search l) in
      if isTrashPath path then Some None
      else
        let fileParam := str_or (param "file" (lo_search l)) (param "open" (lo_search l)) in
        rawHash ← (if truthy (lo_hash l) then decode_uri_component (strip_hash (lo_hash l)) else Some []);
        let hashCandidate := if bool_decide (rawHash = js "main-content") then [] else rawHash in
        let candidate := str_or fileParam hashCandidate in
        let name := pathBasename candidate in
        if truthy candidate && truthy name && canViewerOpen toLowerCase name then
          Some (Some {| ri_kind := js "file"; ri_driveId := driveId;
                        ri_path := if includes_char c_slash candidate then candidate else joinPath path candidate; ri_driveLabel := None |})
        else if truthy path then Some (Some {| ri_kind := js "folder"; ri_driveId := driveId; ri_path := path; ri_driveLabel := None |})
        else Some (Some {| ri_kind := js "drive"; ri_driveId := driveId; ri_path := []; ri_driveLabel := None |})
  end.

Definition recentItemHref (item : recent_item) : option jstr :=
  if bool_decide (ri_kind item = js "file") then fileHref (ri_driveId item) (ri_path item)
  else folderHref (ri_driveId item) (if bool_decide (ri_kind item = js "folder") then ri_path item else []).

(** [driveLabel || item.driveLabel || "Drive"] *)
Definition drive_words (item : recent_item) (driveLabel : option jstr) : jstr :=
  str_or (default [] driveLabel) (str_or (default [] (ri_driveLabel item)) (js "Drive")).

Definition recentItemName (item : recent_item) (driveLabel : option jstr) : jstr :=
  str_or (pathBasename (ri_path item)) (drive_words item driveLabel).

Definition recentItemLocationLine (item : recent_item) (driveLabel : option jstr) : option jstr :=
  if bool_decide (ri_kind item = js "drive") then None
  else
    let label := drive_words item driveLabel in
    let parent := parentOr (ri_path item) in
    Some (if truthy parent then label ++ js " · " ++ parent else label).

(** [new Date(at).toLocaleDateString(…)] is the browser's; times are whole milliseconds. *)
Definition formatRecentAgo (localeDate : Z -> jstr) (at_ now : Z) : jstr :=
  let diff := Z.max 0 (now - at_) in
  let mins := diff / 60000 in
  if mins <? 1 then js "Just now"
  else if mins <? 60 then js_of_Z mins ++ js " min ago"
  else
    let hours := mins / 60 in
    if hours <? 24 then js_of_Z hours ++ js " h ago"
    else
      let days := hours / 24 in
      if days <? 7 then js_of_Z days ++ js " day" ++ js (if days =? 1 then "" else "s") ++ js " ago"
      else localeDate at_.

(** ** An item opens as itself *)

(** A drive's id as Luna makes them: nothing in it that a URL spells otherwise. *)
Definition plain_id (id : jstr) : Prop := id <> [] /\ Forall (fun c => (c < 128)%N /\ c <> 37%N /\ c <> c_slash /\ c <> 63%N) id.

Lemma split_plain (c : N) (id : jstr) : Forall (fun d => d <> c) id -> split_on c id = [id].
Proof. intros H. apply split_on_notin. rewrite Forall_forall in H. intros Hc%list_elem_of_In. by apply (H c). Qed.

Lemma files_match_plain (id : jstr) : plain_id id -> files_match (js "/files/" ++ id) = Some id.
Proof.
  intros [Hn H]. unfold files_match. rewrite (proj2 (starts_with_spec _ _)) by by exists id.
  change (slice_from 7 (js "/files/" ++ id)) with (drop 0 id). rewrite drop_0, split_plain by (eapply Forall_impl; [exact H | by intros c (_ & _ & ? & _)]).
  by destruct id.
Qed.

Lemma decode_plain (id : jstr) : plain_id id -> decode_uri_component id = Some id.
Proof.
  intros [_ H]. unfold decode_uri_component. assert (E : uri_items id = Some (map inl id)).
  { induction H as [|c id (_ & Hc & _) _ IH]; [done|]. cbn [uri_items map]. apply N.eqb_neq in Hc. by rewrite Hc, IH. }
  rewrite E. cbn. clear. induction id as [|c id IH]; [done|]. cbn [map decode_items]. by rewrite IH.
Qed.

(** A query of pairs whose values are encoded. *)
Fixpoint query_of (pairs : list (jstr * jstr)) : jstr :=
  match pairs with
  | [] => []
  | [(k, v)] => k ++ 61%N :: v
  | (k, v) :: pairs => k ++ 61%N :: v ++ 38%N :: query_of pairs
  end.

Definition name_plain (k : jstr) : Prop := k <> [] /\ Forall (fun c => (c < 128)%N /\ c <> 37%N /\ c <> 38%N /\ c <> 43%N /\ c <> 61%N /\ c <> 63%N) k.

Lemma pair_piece (k v : jstr) : name_plain k -> query_plain v ->
  Forall (fun c => c <> 38%N) (k ++ 61%N :: v) /\ split_on 61 (k ++ 61%N :: v) = [k; v].
Proof.
  intros [_ Hk] Hv. split.
  - apply Forall_app. split; [eapply Forall_impl; [exact Hk | naive_solver]|]. constructor; [done | eapply Forall_impl; [exact Hv | naive_solver]].
  - rewrite split_on_app, split_plain; [done | eapply Forall_impl; [exact Hv | naive_solver]|]. rewrite Forall_forall in Hk.
    intros H%list_elem_of_In. apply Hk in H. naive_solver.
Qed.

Lemma search_query (pairs : list (jstr * jstr)) : pairs <> [] -> Forall (fun p => name_plain p.1 /\ query_plain p.2) pairs ->
  search_pairs (63%N :: query_of pairs) = map (fun p => (p.1, form_decode p.2)) pairs.
Proof.
  intros Hne H. unfold search_pairs. cbn [N.eqb Pos.eqb].
  induction H as [|[k v] pairs [Hk Hv] Hp IH]; [done|]. destruct (pair_piece k v Hk Hv) as [H1 H2]. cbn [fst snd] in *.
  assert (P : match k ++ 61%N :: v with
    | [] => None
    | _ => match split_on 61 (k ++ 61%N :: v) with name :: value => Some (form_decode name, form_decode (join [61%N] value)) | [] => None end
    end = Some (k, form_decode v)).
  { rewrite H2. destruct k as [|c k]; [by destruct Hk|]. cbn [app join]. rewrite form_decode_plain; [done|].
    destruct Hk as [_ Hk]. eapply Forall_impl; [exact Hk | naive_solver]. }
  destruct pairs as [|q pairs].
  - cbn [query_of map]. rewrite split_plain by done. cbn [omap list_omap]. by rewrite P.
  - change (query_of ((k, v) :: q :: pairs)) with (k ++ 61%N :: v ++ 38%N :: query_of (q :: pairs)).
    replace (k ++ 61%N :: v ++ 38%N :: query_of (q :: pairs)) with ((k ++ 61%N :: v) ++ 38%N :: query_of (q :: pairs)) by (by rewrite <- app_assoc).
    rewrite split_on_app by (rewrite Forall_forall in H1; intros Hin%list_elem_of_In; by apply (H1 38%N)). cbn [omap list_omap]. rewrite P.
    change (map ?f ((k, v) :: q :: pairs)) with ((k, form_decode v) :: map f (q :: pairs)). f_equal. by apply IH.
Qed.

Lemma named (s : string) : forallb (fun c => (c <? 128) && negb (c =? 37) && negb (c =? 38) && negb (c =? 43) && negb (c =? 61) && negb (c =? 63))%N (js s) = true ->
  js s <> [] -> name_plain (js s).
Proof.
  intros H Hn. split; [done|]. rewrite forallb_forall in H. apply Forall_forall. intros c Hc%list_elem_of_In. apply H in Hc.
  rewrite !andb_true_iff, !negb_true_iff, !N.eqb_neq, N.ltb_lt in Hc. naive_solver.
Qed.

Lemma path_named : name_plain (js "path").
Proof. by apply named. Qed.
Lemma file_named : name_plain (js "file").
Proof. by apply named. Qed.

(** An item Luna can open: what [recentItemFromLocation] makes of a location with an encoded path. *)
Definition openable (toLowerCase : jstr -> jstr) (item : recent_item) : Prop :=
  plain_id (ri_driveId item) /\ ri_driveLabel item = None
  /\ ((ri_kind item = js "drive" /\ ri_path item = [])
      \/ (ri_kind item = js "folder" /\ ri_path item <> [] /\ well_formed (ri_path item) /\ isTrashPath (ri_path item) = false)
      \/ (ri_kind item = js "file" /\ exists folder name, Forall is_segment folder /\ is_segment name /\ ri_path item = path_of (folder ++ [name])
            /\ well_formed (path_of folder) /\ well_formed name /\ isTrashPath (path_of folder) = false /\ canViewerOpen toLowerCase name = true)).

(** Where a browser cuts the link of an item: its path, and its query with the question mark. *)
Definition cut_href (href : jstr) (l : location) : Prop :=
  href = lo_pathname l ++ lo_search l /\ ~ In 63%N (lo_pathname l) /\ lo_hash l = []
  /\ match lo_search l with [] => True | c :: _ => c = 63%N end.

Lemma plain_no_query (id : jstr) : plain_id id -> ~ In 63%N (js "/files/" ++ id).
Proof.
  intros [_ H]. rewrite Forall_forall in H. intros [Hi|Hi]%in_app_iff; [cbn in Hi; repeat destruct Hi as [Hi|Hi]; done|].
  apply list_elem_of_In, H in Hi. naive_solver.
Qed.

Lemma plain_no_mark (id e : jstr) : plain_id id -> includes_char 63 (js "/files/" ++ id ++ js "?path=" ++ e) = true.
Proof. intros _. apply includes_char_spec. rewrite !in_app_iff. right. right. left. by left. Qed.

Lemma slashless (name : jstr) : is_segment name -> includes_char c_slash name = false.
Proof. intros [_ H]. apply not_true_iff_false. by intros E%includes_char_spec. Qed.

Lemma segment_basename (name : jstr) : is_segment name -> pathBasename name = name.
Proof. intros H. apply (pathBasename_segments [] name); [constructor | done]. Qed.

(** The link of an item, cut at its query, stands for the item. *)
Definition link_returns (toLowerCase : jstr -> jstr) (item : recent_item) : Prop :=
  exists href l, recentItemHref item = Some href /\ cut_href href l /\ recentItemFromLocation toLowerCase l = Some (Some item).

Lemma drive_link_returns (toLowerCase : jstr -> jstr) (id : jstr) : plain_id id ->
  link_returns toLowerCase {| ri_kind := js "drive"; ri_driveId := id; ri_path := []; ri_driveLabel := None |}.
Proof.
  intros Hid. assert (Dd : js "drive" <> js "file" /\ js "drive" <> js "folder") by (split; vm_compute; discriminate).
  exists (js "/files/" ++ id), {| lo_pathname := js "/files/" ++ id; lo_search := []; lo_hash := [] |}.
  split; [|split].
  + unfold recentItemHref. cbn [ri_kind ri_driveId ri_path]. rewrite !bool_decide_false by tauto. done.
  + unfold cut_href. cbn. rewrite app_nil_r. split_and!; [done | by apply plain_no_query | done | done].
  + unfold recentItemFromLocation. cbn [lo_pathname lo_search lo_hash]. rewrite (files_match_plain id Hid). rewrite (decode_plain id Hid). reflexivity.
Qed.

Lemma folder_link_returns (toLowerCase : jstr -> jstr) (id path : jstr) : plain_id id -> path <> [] -> well_formed path -> isTrashPath path = false ->
  link_returns toLowerCase {| ri_kind := js "folder"; ri_driveId := id; ri_path := path; ri_driveLabel := None |}.
Proof.
  intros Hid Hp Hw Ht. assert (Df : js "folder" <> js "file") by (vm_compute; discriminate).
  destruct (form_decode_encode path Hw) as (e & He & Hq & Hd).
  exists (js "/files/" ++ id ++ js "?path=" ++ e), {| lo_pathname := js "/files/" ++ id; lo_search := js "?path=" ++ e; lo_hash := [] |}.
  split; [|split].
  + unfold recentItemHref. cbn [ri_kind ri_driveId ri_path]. rewrite bool_decide_false by done. rewrite bool_decide_true by done.
    unfold folderHref. rewrite (proj2 (truthy_spec path)) by done. rewrite He. done.
  + unfold cut_href. cbn [lo_pathname lo_search lo_hash]. rewrite <- app_assoc. split_and!; [done | by apply plain_no_query | done | done].
  + unfold recentItemFromLocation. cbn [lo_pathname lo_search lo_hash truthy]. rewrite (files_match_plain id Hid). rewrite (decode_plain id Hid). cbn [mbind option_bind].
    assert (S : search_pairs (js "?path=" ++ e) = [(js "path", path)]).
    { rewrite <- Hd. apply (search_query [(js "path", e)]); [done|]. constructor; [split; [apply path_named | done] | constructor]. }
    unfold param, search_get. rewrite S. cbn [List.find fst]. rewrite bool_decide_true by done.
    rewrite !bool_decide_false by (vm_compute; discriminate). cbn. unfold Datatypes.id. rewrite Ht, (proj2 (truthy_spec path)) by done. done.
Qed.

Lemma file_link_returns (toLowerCase : jstr -> jstr) (id : jstr) (folder : list jstr) (name : jstr) : plain_id id ->
  Forall is_segment folder -> is_segment name -> well_formed (path_of folder) -> well_formed name ->
  isTrashPath (path_of folder) = false -> canViewerOpen toLowerCase name = true ->
  link_returns toLowerCase {| ri_kind := js "file"; ri_driveId := id; ri_path := path_of (folder ++ [name]); ri_driveLabel := None |}.
Proof.
  intros Hid Hf Hn Hwf Hwn Ht Hv.
  assert (Htn : truthy name = true) by (apply truthy_spec; apply Hn).
  destruct (form_decode_encode name Hwn) as (en & Hen & Hqn & Hdn). destruct (form_decode_encode (path_of folder) Hwf) as (ef & Hef & Hqf & Hdf).
  assert (Hb : pathBasename (path_of (folder ++ [name])) = name) by by apply pathBasename_segments.
  assert (Hpar : parentOr (path_of (folder ++ [name])) = path_of folder) by (unfold parentOr; by rewrite parentPath_segments).
  set (search := if truthy (path_of folder) then js "?path=" ++ ef ++ js "&file=" ++ en else js "?file=" ++ en).
  exists (js "/files/" ++ id ++ search), {| lo_pathname := js "/files/" ++ id; lo_search := search; lo_hash := [] |}.
  split; [|split].
  + unfold recentItemHref. cbn [ri_kind ri_driveId ri_path]. rewrite bool_decide_true by done. unfold fileHref. rewrite Hb, Hpar, Htn. cbv zeta.
    unfold folderHref, search. destruct (truthy (path_of folder)).
    * rewrite Hef. cbn [mbind option_bind]. rewrite Hen. cbn [mbind option_bind]. unfold sep_for. rewrite plain_no_mark by done. by rewrite <- !app_assoc.
    * cbn [mbind option_bind]. rewrite Hen. cbn [mbind option_bind]. unfold sep_for.
      replace (includes_char 63 (js "/files/" ++ id)) with false
        by (symmetry; apply not_true_iff_false; intros E%includes_char_spec; by apply (plain_no_query id)). by rewrite <- !app_assoc.
  + unfold cut_href. cbn [lo_pathname lo_search lo_hash]. rewrite <- app_assoc. split_and!; [done | by apply plain_no_query | done|].
    unfold search. destruct (truthy (path_of folder)); reflexivity.
  + unfold recentItemFromLocation. cbn [lo_pathname lo_search lo_hash truthy]. rewrite (files_match_plain id Hid). rewrite (decode_plain id Hid). cbn [mbind option_bind].
    assert (S : search_pairs search = (if truthy (path_of folder) then [(js "path", path_of folder)] else []) ++ [(js "file", name)]).
    { unfold search. destruct (truthy (path_of folder)).
      - rewrite <- Hdn. rewrite <- Hdf. apply (search_query [(js "path", ef); (js "file", en)]); [done|].
        repeat (constructor; [split; [apply path_named || apply file_named | done]|]). constructor.
      - rewrite <- Hdn. apply (search_query [(js "file", en)]); [done|]. constructor; [split; [apply file_named | done] | constructor]. }
    assert (Pp : param "path" search = path_of folder).
    { unfold param, search_get. rewrite S. destruct (truthy (path_of folder)) eqn:E; cbn [app List.find fst].
      - by rewrite bool_decide_true.
      - rewrite bool_decide_false by (vm_compute; discriminate). cbn. by destruct (path_of folder). }
    assert (Pf : param "file" search = name).
    { unfold param, search_get. rewrite S. destruct (truthy (path_of folder)) eqn:E; cbn [app List.find fst].
      - rewrite bool_decide_false by (vm_compute; discriminate). by rewrite bool_decide_true.
      - by rewrite bool_decide_true. }
    rewrite Pp, Pf, Ht. unfold str_or. rewrite Htn. cbn [mbind option_bind]. rewrite Htn. rewrite segment_basename, Htn, Hv by done. cbn [andb].
    rewrite slashless, joinPath_segments by done. done.
Qed.

(** C12: an item opens as itself: the link of a recent item, cut into path and query as the router does, stands for the
    same item again: the same kind, the same drive, the same path, whatever characters its names have, where the
    item is one that Luna can open ([openable]): a drive id of plain characters, a path that is a well-formed string outside
    Trash and, for a file, non-empty names with a name at the end that the viewer opens. *)
Theorem recent_link_returns (toLowerCase : jstr -> jstr) (item : recent_item) : openable toLowerCase item ->
  exists href l, recentItemHref item = Some href /\ cut_href href l /\ recentItemFromLocation toLowerCase l = Some (Some item).
Proof.
  intros (Hid & Hl & Hk). destruct item as [kind id path label]. cbn [ri_driveId ri_driveLabel ri_kind ri_path] in *. subst label.
  destruct Hk as [[-> ->]|[(-> & Hp & Hw & Ht)|(-> & folder & name & Hf & Hn & -> & Hwf & Hwn & Ht & Hv)]].
  - by apply drive_link_returns.
  - by apply folder_link_returns.
  - by apply file_link_returns.
Qed.

Lemma recent_link_returns_witness : exists href l, recentItemHref {| ri_kind := js "file"; ri_driveId := js "d1"; ri_path := js "Fotos & co/käse 100%.md"; ri_driveLabel := None |} = Some href
  /\ recentItemFromLocation to_lower l = Some (Some {| ri_kind := js "file"; ri_driveId := js "d1"; ri_path := js "Fotos & co/käse 100%.md"; ri_driveLabel := None |}).
Proof.
  assert (W : forall s, forallb (fun c => (c <? 55296)%N) s = true -> well_formed s) by exact ascii_well_formed.
  assert (G : forall s, truthy s && negb (includes_char c_slash s) = true -> is_segment s).
  { intros s [H1%truthy_spec H2%negb_true_iff]%andb_true_iff. split; [exact H1|]. intros H%(includes_char_spec c_slash s). rewrite H in H2. discriminate H2. }
  destruct (recent_link_returns to_lower {| ri_kind := js "file"; ri_driveId := js "d1"; ri_path := js "Fotos & co/käse 100%.md"; ri_driveLabel := None |}) as (href & l & H1 & _ & H2).
  - split; [split; [discriminate | repeat constructor; discriminate]|]. split; [reflexivity|]. right. right. split; [reflexivity|].
    exists [js "Fotos & co"], (js "käse 100%.md").
    split; [constructor; [apply G; reflexivity | constructor]|]. split; [apply G; reflexivity|]. split; [reflexivity|].
    split; [apply W; reflexivity|]. split; [apply W; reflexivity|]. split; reflexivity.
  - exists href, l. split; [exact H1 | exact H2].
Defined.

(** ** The list *)

Section List_facts.
Context `{JsText}.

Lemma valid_items_app (l : list item_fields) : Forall (fun f => isValidItem f = true) l -> valid_items (map JObj l) = l.
Proof. induction 1 as [|f l Hf _ IH]; [done|]. cbn. rewrite Hf. by f_equal. Qed.

Lemma read_valid (username : option jstr) (st : local_storage) : Forall (fun f => isValidItem f = true) (readRecentItems username st)
  /\ (length (readRecentItems username st) <= RECENT_ITEMS_LIMIT)%nat.
Proof.
  unfold readRecentItems. destruct (negb _); [by split; [|cbn; lia]|]. destruct (ls_texts st !! _) as [[|c raw]|]; [by split; [|cbn; lia]| |by split; [|cbn; lia]].
  destruct (parse_json (c :: raw)) as [[| | | |l|]|]; try (by split; [|cbn; lia]). split; [|rewrite length_take; lia].
  apply Forall_take. unfold valid_items. induction l as [|v l IH]; [constructor|]. cbn [omap list_omap]. destruct v as [| | | | |f]; try done.
  destruct (isValidItem f) eqn:E; [by constructor | done].
Qed.

(** What was written is what is read. *)
Lemma written_is_read (username : option jstr) (items : list item_fields) (st : local_storage) :
  ls_readable st = true -> ls_writable st = true -> Forall (fun f => isValidItem f = true) items -> (length items <= RECENT_ITEMS_LIMIT)%nat ->
  Forall (fun f => readable (JObj f)) items -> readRecentItems username (write_items username items st) = items.
Proof.
  intros Hr Hw Hv Hn Hf.
  assert (R : readable (JArr (map JObj items))) by (apply f_arr, Forall_forall; intros v (f & -> & Hin)%list_elem_of_fmap; rewrite Forall_forall in Hf; by apply Hf).
  pose proof (parse_json_text (JArr (map JObj items)) [] [] R ltac:(constructor) ltac:(constructor)) as P. rewrite app_nil_r in P.
  unfold readRecentItems, write_items, json_text. revert P. generalize (stringify [] [] (JArr (map JObj items))) as text. intros text P.
  unfold set_item. rewrite Hw. cbn -[parse_json]. rewrite Hr, lookup_insert_eq. cbn [negb]. destruct text; [discriminate P|]. rewrite P.
  rewrite valid_items_app by done. by apply take_ge.
Qed.

End List_facts.

(** ** Two openings *)
Module RecentSample.
#[export] Instance plain : JsText := {|
  json_parse _ := None; coerce_number _ := Err TypeError; coerce_bigint _ := Err TypeError;
  coerce_string v := match v with JNum n => Ok (js_of_Z (default 0 (num_integer n))) | _ => Err TypeError end;
|}.
Definition opened (path : string) : item_fields := [(js "kind", JStr (js "folder")); (js "driveId", JStr (js "d1")); (js "path", JStr (js path))].
Definition empty : local_storage := {| ls_readable := true; ls_writable := true; ls_texts := ∅ |}.
Definition ana : option jstr := Some (js "ana").
Definition first : local_storage := (recordRecentItem ana (opened "Photos") (num_of_Z 5) empty).2.
Definition listed : list item_fields := readRecentItems ana first.
End RecentSample.

#[local] Existing Instance RecentSample.plain.
Import RecentSample.

Lemma opened_readable (path : string) (n : Z) : forallb (fun c => (c <? 65536)%N) (js path) = true -> reads_back (num_of_Z n) ->
  readable (JObj (stamped (opened path) (num_of_Z n))).
Proof.
  intros Hp Hn. assert (U : forall s, forallb (fun c => (c <? 65536)%N) s = true -> units s).
  { intros s Hs. apply Forall_forall. intros c Hc%list_elem_of_In. rewrite forallb_forall in Hs. by apply N.ltb_lt, Hs. }
  assert (E : stamped (opened path) (num_of_Z n)
    = [(js "kind", JStr (js "folder")); (js "driveId", JStr (js "d1")); (js "path", JStr (js path)); (js "at", JNum (num_of_Z n))]) by reflexivity.
  rewrite E. apply f_obj.
  - split; [apply (bool_decide_unpack _); vm_compute; exact I|]. eexists [], _. split; [reflexivity|]. split; [constructor|]. split; [|constructor].
    repeat (apply Forall_cons; split); [reflexivity..|apply Forall_nil_2].
  - repeat (apply Forall_cons; split); [split; [by apply U | by apply f_str, U]..|split; [by apply U | by apply f_num]|apply Forall_nil_2].
Qed.

