(* ===== verification/CloudRestore.v ===== *)
(** * Restoring the list of cloud backups: [luna/web/src/lib/cloudRestore.js]

    The answer of a restore is a stream of events that the browser reads in pieces of any size.  This is the loop that reads
    it, and what it makes of its end; the requests before it are left out, the reading of the keys is in [CloudKeys]. *)

From S2P Require Import Prelude JsString Bytes JsonParse.

(** ** Definitions *)

(** [text.split("\n\n")] *)
Fixpoint split_blank (s : jstr) : list jstr :=
  match s with
  | [] => [[]]
  | c :: r =>
      match r with
      | d :: r' =>
          if ((c =? c_lf) && (d =? c_lf))%N then [] :: split_blank r'
          else match split_blank r with w :: ws => (c :: w) :: ws | [] => [[c]] end
      | [] => [[c]]
      end
  end.

(** What the page is told: an event of progress, or the last one over the latest progress with the words for what is left. *)
Inductive told := Progress (event : json) | Finishing (latest event : json) (message : jstr).

(** What ends the restore early: an error of its own, or [new Error(event.message)] with what the event says. *)
Inductive failure := Failed (e : error) | Reported (message : value).

Record restoring := { rs_latest : json; rs_result : option json; rs_told : list told }.
#[global] Instance restoring_settable : Settable restoring := fun s => {| rs_latest := rs_latest s; rs_result := rs_result s; rs_told := rs_told s |}.

Definition begun : restoring := {| rs_latest := JObj []; rs_result := None; rs_told := [] |}.

Definition SyntaxError : error := EError (js "SyntaxError").

Definition is_type (t : string) (event : json) : bool := bool_decide (as_string (opt_prop "type" (Some event)) = Some (js t)).

(** One event; the property of [null] throws. *)
Definition take_event (phraseSet : bool) (event : json) (s : restoring) : restoring * option failure :=
  match event with
  | JNull => (s, Some (Failed TypeError))
  | _ =>
      let s := if is_type "progress" event then s <| rs_latest := event |> <| rs_told ::= fun l => l ++ [Progress event] |> else s in
      if is_type "error" event then (s, Some (Reported (opt_prop "message" (Some event))))
      else if is_type "done" event then
        (s <| rs_result := Some event |> <| rs_told ::= fun l => l ++ [Finishing (rs_latest s) event (if phraseSet then js "Finishing restore…" else js "Saving your recovery phrase…")] |>, None)
      else (s, None)
  end.

(** One frame: its first line of data, if it has one. *)
Definition take_frame (phraseSet : bool) (frame : jstr) (s : restoring) : restoring * option failure :=
  match List.find (starts_with (js "data: ")) (split_on c_lf frame) with
  | None => (s, None)
  | Some line => match parse_json (slice_from 6 line) with Some event => take_event phraseSet event s | None => (s, Some (Failed SyntaxError)) end
  end.

Fixpoint take_frames (phraseSet : bool) (frames : list jstr) (s : restoring) : restoring * option failure :=
  match frames with
  | [] => (s, None)
  | frame :: frames => match take_frame phraseSet frame s with (s, None) => take_frames phraseSet frames s | (s, Some err) => (s, Some err) end
  end.

(** [reads] is what the reads of the body gave, decoded; the connection may break after them. *)
Fixpoint read_loop (phraseSet : bool) (reads : list jstr) (broken : option failure) (buffer : jstr) (s : restoring) : restoring * option failure :=
  match reads with
  | [] => (s, broken)
  | text :: reads =>
      let frames := split_blank (buffer ++ text) in
      match take_frames phraseSet (removelast frames) s with
      | (s, Some err) => (s, Some err)
      | (s, None) => read_loop phraseSet reads broken (List.last frames []) s
      end
  end.

Definition STOPPED : error :=
  EError (js "Restore stopped before it finished. Some backup versions may already be back; you can safely try again.").
Definition PHRASE_FAILED : error :=
  EError (js "Your backups are back, but saving your recovery phrase to this account failed. Set it up again in Settings → Cloud backup.").
Definition AbortError : error := EError (js "AbortError").

Record restored := { rd_snapshots : value; rd_alreadyIndexed : value; rd_skipped : value; rd_warning : option json }.

(** [v ?? 0] *)
Definition or_zero (v : value) : value := match v with None | Some JNull => Some (JNum (num_of_Z 0)) | _ => v end.

(** From the answer's body to the end; [phraseSet] and whether saving the phrase works, and whether the signal was aborted. *)
Definition finish_restore (reads : list jstr) (broken : option failure) (phraseSet saved aborted : bool) : list told * (restored + failure) :=
  let '(s, r) := read_loop phraseSet reads broken [] begun in
  let outcome :=
    match r with
    | Some err => inr err
    | None =>
        match rs_result s with
        | None => inr (Failed STOPPED)
        | Some result =>
            if negb phraseSet && negb saved then inr (Failed PHRASE_FAILED)
            else inl {| rd_snapshots := or_zero (opt_prop "snapshots" (Some result)); rd_alreadyIndexed := or_zero (opt_prop "already_indexed" (Some result));
                        rd_skipped := or_zero (opt_prop "skipped" (Some result));
                        rd_warning := let w := opt_prop "warning" (Some result) in if truthy_value w then w else None |}
        end
    end in
  (rs_told s, match outcome with inr err => inr (if aborted then Failed AbortError else err) | inl d => inl d end).

(** ** Facts *)

Lemma split_blank_two (c d : N) (r : jstr) : split_blank (c :: d :: r)
  = if ((c =? c_lf) && (d =? c_lf))%N then [] :: split_blank r
    else match split_blank (d :: r) with w :: ws => (c :: w) :: ws | [] => [[c]] end.
Proof. done. Qed.

Lemma split_blank_ne (s : jstr) : split_blank s <> [].
Proof.
  destruct s as [|c [|d r]]; [done..|]. rewrite split_blank_two. destruct ((c =? c_lf) && (d =? c_lf))%N; [done|].
  by destruct (split_blank (d :: r)).
Qed.

(** A text that is one frame is that frame. *)
Lemma split_blank_one (s w : jstr) : split_blank s = [w] -> w = s.
Proof.
  revert w. induction s as [|c [|d r] IH]; intros w; [by intros [= <-]..|]. rewrite split_blank_two. destruct ((c =? c_lf) && (d =? c_lf))%N.
  - intros [= _ E]. by destruct (split_blank_ne r).
  - destruct (split_blank (d :: r)) as [|x xs] eqn:E; [by destruct (split_blank_ne (d :: r))|]. intros [= <- ->]. f_equal. by apply IH.
Qed.

(** A text cut anywhere gives the same frames. *)
Lemma split_blank_app (a b : jstr) : split_blank (a ++ b) = removelast (split_blank a) ++ split_blank (List.last (split_blank a) [] ++ b).
Proof.
  revert b. induction a as [a IH] using (induction_ltof1 _ (@length N)); unfold ltof in IH. intros b. destruct a as [|c [|d r]]; [done..|].
  assert (T : split_blank ((c :: d :: r) ++ b) = if ((c =? c_lf) && (d =? c_lf))%N then [] :: split_blank (r ++ b)
    else match split_blank ((d :: r) ++ b) with w :: ws => (c :: w) :: ws | [] => [[c]] end) by done.
  rewrite split_blank_two. destruct ((c =? c_lf) && (d =? c_lf))%N eqn:Ec.
  - rewrite removelast_cons, last_cons, T by apply split_blank_ne. cbn [app]. f_equal. apply IH. cbn. lia.
  - rewrite T, (IH (d :: r)) by (cbn; lia).
    destruct (split_blank (d :: r)) as [|w [|v ws]] eqn:Ed; [by destruct (split_blank_ne (d :: r)) | | done].
    apply split_blank_one in Ed as ->. cbn [removelast List.last]. rewrite T. done.
Qed.

Lemma take_frames_app (ps : bool) (l m : list jstr) (s : restoring) : take_frames ps (l ++ m) s
  = match take_frames ps l s with (s, None) => take_frames ps m s | (s, Some err) => (s, Some err) end.
Proof. revert s. induction l as [|f l IH]; intros s; [done|]. cbn [app take_frames]. destruct (take_frame ps f s) as [s' [err|]]; [done | apply IH]. Qed.

(** The frames of a text that is complete: all but what follows the last blank line. *)
Lemma read_loop_frames (ps : bool) (reads : list jstr) (broken : option failure) : forall buffer s, split_blank buffer = [buffer] ->
  read_loop ps reads broken buffer s
  = match take_frames ps (removelast (split_blank (buffer ++ concat reads))) s with (s, Some err) => (s, Some err) | (s, None) => (s, broken) end.
Proof.
  induction reads as [|text reads IH]; intros buffer s Hb; cbn [read_loop concat].
  - rewrite app_nil_r, Hb. done.
  - rewrite app_assoc, (split_blank_app (buffer ++ text)). rewrite removelast_app by apply split_blank_ne. rewrite take_frames_app.
    destruct (take_frames ps (removelast (split_blank (buffer ++ text))) s) as [s' [err|]]; [done|]. apply IH.
    pose proof (split_blank_app (buffer ++ text) []) as E. rewrite !app_nil_r in E.
    rewrite (app_removelast_last [] (split_blank_ne (buffer ++ text))) in E at 1. by apply app_inv_head in E.
Qed.

(** how the answer comes in pieces makes no difference: cut anywhere - inside an event, between the two line ends that
    part events, inside a letter's units - the same text tells the page the same and ends the same. *)
Theorem events_ignore_pieces (reads reads' : list jstr) (broken : option failure) (phraseSet saved aborted : bool) : concat reads = concat reads' ->
  finish_restore reads broken phraseSet saved aborted = finish_restore reads' broken phraseSet saved aborted
  /\ read_loop phraseSet reads broken [] begun
     = match take_frames phraseSet (removelast (split_blank (concat reads))) begun with (s, Some err) => (s, Some err) | (s, None) => (s, broken) end.
Proof.
  intros E. unfold finish_restore. rewrite !(read_loop_frames _ _ broken []) by done. cbn [app]. by rewrite E.
Qed.

#[local] Definition answer : jstr :=
  js "data: {§type§:§progress§,§processed§:1}" ++ [c_lf; c_lf] ++ js "event: x" ++ [c_lf] ++ js "data: {§type§:§done§,§snapshots§:3}" ++ [c_lf; c_lf].
#[local] Definition quoted (s : jstr) : jstr := map (fun c => if (c =? 167)%N then c_quote else c) s.

Lemma events_ignore_pieces_witness :
  finish_restore [quoted answer] None true true false = finish_restore (map (fun c => [c]) (quoted answer)) None true true false
  /\ length (finish_restore [quoted answer] None true true false).1 = 2%nat.
Proof.
  split; [|vm_compute; reflexivity].
  exact (proj1 (events_ignore_pieces [quoted answer] (map (fun c => [c]) (quoted answer)) None true true false ltac:(vm_compute; reflexivity))).
Defined.

(** ** The cloud backup browser's tree: [luna/connect/web/src/lib/cloudTree.js]

    A flat list of files with paths, shown folder by folder; folders are implied by the paths.  The order of names and the
    words for a moment are the browser's. *)

(** *** Definitions *)

Definition SIZE_UNITS : list jstr := [js "B"; js "KB"; js "MB"; js "GB"].

(** What the tree reads of an entry. *)
Record tree_entry := { te_path : jstr; te_size : Z }.
(** [{ ...entry, name }] *)
Record tree_file := { tf_entry : tree_entry; tf_name : jstr }.
Record tree_folder := { td_name : jstr; td_path : jstr; td_size : Z; td_files : Z }.

Definition parentFolder (path : jstr) : jstr := match last_index_of c_slash path with None => [] | Some idx => slice 0 idx path end.
Definition baseName (path : jstr) : jstr := match last_index_of c_slash path with None => path | Some idx => slice_from (S idx) path end.

(** [s.indexOf("/")]: what is before the first slash, if there is one. *)
Fixpoint before_slash (s : jstr) : option jstr :=
  match s with [] => None | c :: s => if (c =? c_slash)%N then Some [] else cons c <$> before_slash s end.

Definition prefix_of (folder : jstr) : jstr := if truthy folder then folder ++ [c_slash] else [].

(** The entry's folder in the map counts it; the map keeps the order in which names came first. *)
Fixpoint count_in (prefix name : jstr) (size : Z) (folders : list tree_folder) : list tree_folder :=
  match folders with
  | [] => [{| td_name := name; td_path := prefix ++ name; td_size := 0 + size; td_files := 0 + 1 |}]
  | d :: folders =>
      if bool_decide (td_name d = name)
      then {| td_name := td_name d; td_path := td_path d; td_size := td_size d + size; td_files := td_files d + 1 |} :: folders
      else d :: count_in prefix name size folders
  end.

(** One turn of the loop. *)
Definition list_entry (prefix : jstr) (state : list tree_folder * list tree_file) (entry : tree_entry) : list tree_folder * list tree_file :=
  let '(folders, files) := state in
  if negb (starts_with prefix (te_path entry)) then state
  else
    let rest := slice_from (length prefix) (te_path entry) in
    if negb (truthy rest) then state
    else match before_slash rest with
         | None => (folders, files ++ [{| tf_entry := entry; tf_name := rest |}])
         | Some name => (count_in prefix name (te_size entry) folders, files)
         end.

Section Names.
(** [a.localeCompare(b, undefined, NAME_ORDER)] *)
Context (byName : jstr -> jstr -> Z).

Definition listFolder (entries : list tree_entry) (folder : jstr) : list tree_folder * list tree_file :=
  let '(folders, files) := foldl (list_entry (prefix_of folder)) ([], []) entries in
  (js_sort (fun a b => byName (td_name a) (td_name b)) folders, js_sort (fun a b => byName (tf_name a) (tf_name b)) files).
End Names.

Definition filesUnder (entries : list tree_entry) (folder : jstr) : list tree_entry :=
  if negb (truthy folder) then entries else List.filter (fun e => starts_with (folder ++ [c_slash]) (te_path e)) entries.

(** [1000 ** unit] *)
Definition thousand (unit : nat) : num := num_of_Z (1000 ^ Z.of_nat unit).

(** The loop that moves up a unit before rounding would show a thousand; [fuel] is the number of units. *)
Fixpoint pick_unit (fuel : nat) (n : num) (unit : nat) : nat :=
  match fuel with
  | O => unit
  | S fuel => if Nat.ltb unit (length SIZE_UNITS - 1) && negb (num_lt (num_div n (thousand unit)) (num_div (num_of_Z 99995) (num_of_Z 100)))
              then pick_unit fuel n (S unit) else unit
  end.

(** [String(t / 10)] for a whole number of tenths. *)
Definition tenths_text (t : Z) : jstr := if t mod 10 =? 0 then js_of_Z (t / 10) else js_of_Z (t / 10) ++ js "." ++ js_of_Z (t mod 10).

Definition formatSize (bytes : Z) : jstr :=
  let n := Z.max 0 bytes in
  if n <? 1000 then js_of_Z n ++ js " B"
  else
    let unit := pick_unit (length SIZE_UNITS) (num_of_Z n) 1 in
    let value := num_div (num_of_Z n) (thousand unit) in
    let text := if num_lt value (num_of_Z 10) then tenths_text (math_round (num_mul value (num_of_Z 10))) else js_of_Z (math_round value) in
    text ++ js " " ++ default [] (SIZE_UNITS !! unit).

Section When.
(** [new Date(ms).toLocaleString(…)] *)
Context (localeString : Z -> jstr).
Definition formatWhen (unixSeconds : Z) : jstr := localeString (unixSeconds * 1000).
Definition versionLabel (createdAt : Z) (index : nat) : jstr :=
  let when := formatWhen createdAt in if Nat.eqb index 0 then js "Latest · " ++ when else when.
End When.

(** *** Facts *)

Definition total (entries : list tree_entry) : Z := foldr (fun e n => te_size e + n) 0 entries.

Lemma total_app (a b : list tree_entry) : total (a ++ b) = total a + total b.
Proof. unfold total. induction a as [|e a IH]; [done|]. cbn. rewrite IH. lia. Qed.

Lemma before_slash_spec (s : jstr) : match before_slash s with
  | None => ~ In c_slash s
  | Some name => ~ In c_slash name /\ exists r, s = name ++ c_slash :: r
  end.
Proof.
  induction s as [|c s IH]; cbn [before_slash]; [by intros []|]. destruct (N.eqb_spec c c_slash) as [->|Hc].
  - split; [by intros []|]. by exists s.
  - destruct (before_slash s) as [name|]; cbn [fmap option_fmap option_map].
    + destruct IH as [H (r & ->)]. split; [intros [?|?]; done|]. by exists r.
    + intros [?|?]; done.
Qed.

Lemma before_slash_unique (name r : jstr) : ~ In c_slash name -> before_slash (name ++ c_slash :: r) = Some name.
Proof.
  induction name as [|c name IH]; intros H; [done|]. cbn [app before_slash]. destruct (N.eqb_spec c c_slash) as [->|]; [exfalso; apply H; by left|].
  rewrite IH; [done|]. intros ?. apply H. by right.
Qed.

(** What an entry is below a folder: in the folder [name], a file called [name], or not there. *)
Inductive place := InFolder (name : jstr) | AsFile (name : jstr) | Elsewhere.
#[global] Instance place_eq_dec : EqDecision place.
Proof. solve_decision. Defined.

Definition place_of (prefix : jstr) (entry : tree_entry) : place :=
  if negb (starts_with prefix (te_path entry)) then Elsewhere
  else let rest := slice_from (length prefix) (te_path entry) in
       if negb (truthy rest) then Elsewhere else match before_slash rest with None => AsFile rest | Some name => InFolder name end.

Definition placed_in (prefix name : jstr) (entry : tree_entry) : bool := bool_decide (place_of prefix entry = InFolder name).

Lemma list_entry_place (prefix : jstr) (folders : list tree_folder) (files : list tree_file) (entry : tree_entry) :
  list_entry prefix (folders, files) entry = match place_of prefix entry with
    | InFolder name => (count_in prefix name (te_size entry) folders, files)
    | AsFile name => (folders, files ++ [{| tf_entry := entry; tf_name := name |}])
    | Elsewhere => (folders, files)
    end.
Proof. unfold list_entry, place_of. destruct (negb _); [done|]. cbv zeta. destruct (negb _); [done|]. by destruct (before_slash _). Qed.

(** An entry is in a folder exactly when its path starts with the folder's. *)
Lemma placed_below (prefix name : jstr) (entry : tree_entry) : ~ In c_slash name ->
  placed_in prefix name entry = starts_with ((prefix ++ name) ++ [c_slash]) (te_path entry).
Proof.
  intros Hn. unfold placed_in, place_of. apply eq_bool_prop_intro. rewrite bool_decide_spec. split.
  - destruct (starts_with prefix (te_path entry)) eqn:E; cbn [negb]; [|done]. cbv zeta. apply starts_with_spec in E as [rest E]. rewrite E.
    unfold slice_from. rewrite drop_app_length. destruct (negb _); [done|]. pose proof (before_slash_spec rest) as B.
    destruct (before_slash rest) as [m|]; [|done]. intros [= ->]. destruct B as [_ (r & ->)]. apply Is_true_true, starts_with_spec. exists r. by rewrite <- !app_assoc.
  - intros H%Is_true_true%starts_with_spec. destruct H as [r E]. rewrite <- !app_assoc in E. cbn [app] in E. rewrite E.
    rewrite (proj2 (starts_with_spec prefix _)) by by exists (name ++ c_slash :: r). cbn [negb]. cbv zeta. unfold slice_from. rewrite drop_app_length.
    rewrite before_slash_unique by done. by destruct name.
Qed.

(** What the map says of a name. *)
Definition folder_row (prefix name : jstr) (entries : list tree_entry) : tree_folder :=
  let below := List.filter (placed_in prefix name) entries in
  {| td_name := name; td_path := prefix ++ name; td_size := total below; td_files := Z.of_nat (length below) |}.

Lemma placed_snoc (prefix n : jstr) (entries : list tree_entry) (entry : tree_entry) :
  List.filter (placed_in prefix n) (entries ++ [entry])
  = List.filter (placed_in prefix n) entries ++ (if bool_decide (place_of prefix entry = InFolder n) then [entry] else []).
Proof. rewrite List.filter_app. cbn. unfold placed_in at 2. by case_bool_decide. Qed.

Lemma count_in_rows (prefix : jstr) (entries : list tree_entry) (entry : tree_entry) (name : jstr) (names : list jstr) :
  place_of prefix entry = InFolder name -> NoDup names -> (name ∉ names -> List.filter (placed_in prefix name) entries = []) ->
  count_in prefix name (te_size entry) (map (fun n => folder_row prefix n entries) names)
  = map (fun n => folder_row prefix n (entries ++ [entry])) (if bool_decide (name ∈ names) then names else names ++ [name]).
Proof.
  intros Hp. assert (Same : forall n, n <> name -> folder_row prefix n (entries ++ [entry]) = folder_row prefix n entries).
  { intros n Hne. unfold folder_row. rewrite placed_snoc, Hp, bool_decide_false by congruence. by rewrite app_nil_r. }
  assert (Mine : folder_row prefix name (entries ++ [entry]) = {| td_name := name; td_path := prefix ++ name;
      td_size := td_size (folder_row prefix name entries) + te_size entry; td_files := td_files (folder_row prefix name entries) + 1 |}).
  { unfold folder_row. cbn [td_size td_files]. rewrite placed_snoc, Hp, bool_decide_true by done.
    rewrite total_app, length_app. cbn. f_equal; lia. }
  intros Hn Hnone. induction names as [|n names IH].
  - cbn [map count_in]. rewrite bool_decide_false by (by apply not_elem_of_nil). cbn [app map]. rewrite Mine. unfold folder_row. cbn [td_size td_files].
    by rewrite (Hnone (not_elem_of_nil _)).
  - apply NoDup_cons in Hn as [Hni Hn]. cbn [map count_in td_name folder_row]. destruct (decide (n = name)) as [->|Hne].
    + rewrite bool_decide_true by done. rewrite (bool_decide_true (name ∈ _)) by by left. cbn [map]. f_equal; [by rewrite Mine|].
      apply map_ext_in. intros m Hm. symmetry. apply Same. intros ->. by apply Hni, list_elem_of_In.
    + rewrite bool_decide_false by done. change (td_name (folder_row prefix n entries)) with n.
      replace (bool_decide (name ∈ n :: names)) with (bool_decide (name ∈ names)) by (apply bool_decide_ext; rewrite elem_of_cons; naive_solver).
      rewrite IH; [|done|]. 2:{ intros Hin. apply Hnone. rewrite elem_of_cons. naive_solver. }
      destruct (bool_decide (name ∈ names)); cbn [app map]; by rewrite Same.
Qed.

(** The loop: the folders that occur, in the order of their first entries, and the files in the entries' order. *)
Lemma loop_rows (prefix : jstr) (entries : list tree_entry) : exists names,
  foldl (list_entry prefix) ([], []) entries
  = (map (fun n => folder_row prefix n entries) names,
     omap (fun e => match place_of prefix e with AsFile n => Some {| tf_entry := e; tf_name := n |} | _ => None end) entries)
  /\ NoDup names /\ forall n, n ∈ names <-> exists e, e ∈ entries /\ place_of prefix e = InFolder n.
Proof.
  induction entries as [|entry entries IH] using rev_ind.
  { exists []. split_and!; [done | constructor|]. intros n. split; [by intros H%not_elem_of_nil | intros (e & H%not_elem_of_nil & _); done]. }
  destruct IH as (names & E & Hn & Hin). rewrite foldl_snoc, E, list_entry_place, omap_app.
  assert (N : forall n, (exists e, e ∈ entries ++ [entry] /\ place_of prefix e = InFolder n) <-> n ∈ names \/ place_of prefix entry = InFolder n).
  { intros n. rewrite Hin. split.
    - intros (e & [He|He%list_elem_of_singleton]%elem_of_app & Hp); [left; by exists e | right; by subst].
    - intros [(e & He & Hp)|Hp]; [exists e | exists entry]; rewrite elem_of_app; (split; [|done]); [by left | right; by apply list_elem_of_singleton]. }
  cbn [omap list_omap]. destruct (place_of prefix entry) as [name|name|] eqn:Hp.
  - exists (if bool_decide (name ∈ names) then names else names ++ [name]). rewrite app_nil_r. split_and!.
    + f_equal. apply count_in_rows; [done..|]. intros Hni. destruct (List.filter (placed_in prefix name) entries) as [|e l] eqn:F; [done|]. exfalso. apply Hni, Hin.
      assert (He : e ∈ e :: l) by by left. rewrite <- F in He. apply list_elem_of_In, filter_In in He as [He Hpl%bool_decide_eq_true]. exists e.
      split; [by apply list_elem_of_In | done].
    + case_bool_decide; [done|]. apply NoDup_app. split_and!; [done| |apply NoDup_singleton]. by intros x Hx ->%list_elem_of_singleton.
    + intros n. rewrite N. case_bool_decide; [|rewrite elem_of_app, list_elem_of_singleton]; naive_solver.
  - exists names. split_and!; [|done|intros n; rewrite N; naive_solver]. f_equal. apply map_ext. intros n. unfold folder_row.
    rewrite placed_snoc, Hp, bool_decide_false by done. by rewrite app_nil_r.
  - exists names. rewrite app_nil_r. split_and!; [|done|intros n; rewrite N; naive_solver]. f_equal. apply map_ext. intros n. unfold folder_row.
    rewrite placed_snoc, Hp, bool_decide_false by done. by rewrite app_nil_r.
Qed.

Lemma folder_names_plain (prefix n : jstr) (e : tree_entry) : place_of prefix e = InFolder n -> ~ In c_slash n.
Proof.
  unfold place_of. destruct (negb _); [done|]. cbv zeta. destruct (negb _); [done|]. pose proof (before_slash_spec (slice_from (length prefix) (te_path e))) as B.
  destruct (before_slash _); [|done]. intros [= <-]. by destruct B.
Qed.

Lemma folder_path_below (prefix n : jstr) (entries : list tree_entry) : ~ In c_slash n -> prefix ++ n <> [] ->
  List.filter (placed_in prefix n) entries = filesUnder entries (prefix ++ n).
Proof.
  intros Hn Hp. unfold filesUnder. rewrite (proj2 (truthy_spec _) Hp). cbn [negb]. apply List.filter_ext. intros e. by apply placed_below.
Qed.

Definition sum_of {A} (f : A -> Z) (l : list A) : Z := foldr (fun a n => f a + n) 0 l.

Lemma sum_cons {A} (f : A -> Z) (a : A) (l : list A) : sum_of f (a :: l) = f a + sum_of f l.
Proof. done. Qed.

Lemma sum_perm {A} (f : A -> Z) (l m : list A) : Permutation l m -> sum_of f l = sum_of f m.
Proof. unfold sum_of. induction 1; cbn in *; lia. Qed.

Lemma place_file (prefix : jstr) (e : tree_entry) (n : jstr) : place_of prefix e = AsFile n -> te_path e = prefix ++ n /\ ~ In c_slash n.
Proof.
  unfold place_of. destruct (starts_with prefix (te_path e)) eqn:E; [|done]. cbn [negb]. cbv zeta. apply starts_with_spec in E as [r E]. rewrite E.
  unfold slice_from. rewrite drop_app_length. destruct (negb _); [done|]. pose proof (before_slash_spec r) as B. destruct (before_slash r); [done|].
  intros [= <-]. done.
Qed.

Lemma file_place (prefix : jstr) (e : tree_entry) (n : jstr) : te_path e = prefix ++ n -> ~ In c_slash n -> n <> [] -> place_of prefix e = AsFile n.
Proof.
  intros E Hs Hn. unfold place_of. rewrite E, (proj2 (starts_with_spec prefix _)) by by exists n. cbn [negb]. cbv zeta. unfold slice_from. rewrite drop_app_length.
  rewrite (proj2 (truthy_spec n) Hn). cbn [negb]. pose proof (before_slash_spec n) as B. destruct (before_slash n) as [m|]; [|done].
  destruct B as [_ (r & ->)]. exfalso. apply Hs. apply in_app_iff. right. by left.
Qed.

(** The size of an entry that the page shows. *)
Definition shown_size (prefix : jstr) (e : tree_entry) : Z := match place_of prefix e with Elsewhere => 0 | _ => te_size e end.

Lemma one_row (prefix : jstr) (e : tree_entry) (names : list jstr) : NoDup names ->
  sum_of (fun n => if placed_in prefix n e then te_size e else 0) names
  = match place_of prefix e with InFolder n => if bool_decide (n ∈ names) then te_size e else 0 | _ => 0 end.
Proof.
  unfold placed_in, sum_of. induction names as [|m names IH]; [by destruct (place_of prefix e)|]. intros [Hm Hn]%NoDup_cons. cbn [foldr]. rewrite IH by done.
  destruct (place_of prefix e) as [n|n|]; [|by rewrite bool_decide_false..]. destruct (decide (n = m)) as [->|Hne].
  - rewrite (bool_decide_true (InFolder m = InFolder m)), (bool_decide_false (m ∈ names)), (bool_decide_true (m ∈ m :: names)) by (done || by left). lia.
  - rewrite (bool_decide_false (InFolder n = InFolder m)) by congruence.
    replace (bool_decide (n ∈ m :: names)) with (bool_decide (n ∈ names)) by (apply bool_decide_ext; rewrite elem_of_cons; naive_solver). done.
Qed.

Lemma page_sums (prefix : jstr) (entries : list tree_entry) (names : list jstr) : NoDup names ->
  (forall n, n ∈ names -> ~ In c_slash n) -> (forall e n, e ∈ entries -> place_of prefix e = InFolder n -> n ∈ names) ->
  sum_of td_size (map (fun n => folder_row prefix n entries) names)
  + sum_of (fun f => te_size (tf_entry f)) (omap (fun e => match place_of prefix e with AsFile n => Some {| tf_entry := e; tf_name := n |} | _ => None end) entries)
  = sum_of (shown_size prefix) entries.
Proof.
  intros Hn _. induction entries as [|e entries IH]; intros Hin.
  - assert (Z0 : sum_of td_size (map (fun n => folder_row prefix n []) names) = 0) by (clear; unfold sum_of; induction names; [done|]; cbn in *; lia). rewrite Z0. done.
  - assert (R : sum_of td_size (map (fun n => folder_row prefix n (e :: entries)) names)
      = sum_of (fun n => if placed_in prefix n e then te_size e else 0) names + sum_of td_size (map (fun n => folder_row prefix n entries) names)).
    { clear. unfold sum_of. induction names as [|n names IH]; [done|]. cbn [map foldr]. rewrite IH. unfold folder_row at 1 3. cbn [td_size List.filter].
      destruct (placed_in prefix n e); unfold total; cbn [foldr]; lia. }
    rewrite R, one_row, sum_cons by done. specialize (IH ltac:(intros e' n He; apply Hin; by right)). rewrite <- IH.
    cbn [omap list_omap]. unfold shown_size. destruct (place_of prefix e) as [n|n|] eqn:Hp; [|rewrite sum_cons; cbn [tf_entry]; lia|lia].
    rewrite bool_decide_true by (apply (Hin e n); [by left | done]). lia.
Qed.

(** Everything below a folder has a place on its page. *)
Lemma under_places (folder : jstr) (entries : list tree_entry) : Forall (fun e => te_path e <> [] /\ ends_with [c_slash] (te_path e) = false) entries ->
  sum_of (shown_size (prefix_of folder)) entries = total (filesUnder entries folder).
Proof.
  intros H. set (prefix := prefix_of folder).
  assert (P : forall e, te_path e <> [] -> ends_with [c_slash] (te_path e) = false -> shown_size prefix e = if starts_with prefix (te_path e) then te_size e else 0).
  { intros e Hne Hend. unfold shown_size, place_of. destruct (starts_with prefix (te_path e)) eqn:E; [|done]. cbn [negb]. cbv zeta.
    apply starts_with_spec in E as [r E]. rewrite E. unfold slice_from. rewrite drop_app_length. destruct r as [|c r]; [|by destruct (before_slash (c :: r))].
    exfalso. rewrite app_nil_r in E. unfold prefix, prefix_of in E. destruct (truthy folder); [|done].
    rewrite E, (proj2 (ends_with_spec [c_slash] _)) in Hend by by exists folder. done. }
  unfold filesUnder, prefix, prefix_of in *. destruct (truthy folder) eqn:Ht; cbn [negb]; unfold sum_of, total.
  - induction H as [|e entries [H1 H2] _ IH]; [done|]. cbn [foldr List.filter]. rewrite IH, P by done. destruct (starts_with _ (te_path e)); cbn [foldr]; lia.
  - induction H as [|e entries [H1 H2] _ IH]; [done|]. cbn [foldr]. rewrite IH, P by done. done.
Qed.

(** a folder's page adds up: each folder row counts exactly the files below it and their bytes, no folder is listed
    twice, the files are those directly in the folder, and with the folders' bytes they make up everything below it. *)
Theorem folder_page_adds_up (byName : jstr -> jstr -> Z) (entries : list tree_entry) (folder : jstr) :
  let page := listFolder byName entries folder in
  Forall (fun e => te_path e <> [] /\ ends_with [c_slash] (te_path e) = false /\ starts_with [c_slash] (te_path e) = false) entries ->
  NoDup (map td_name page.1)
  /\ (forall d, d ∈ page.1 -> td_path d = prefix_of folder ++ td_name d /\ td_size d = total (filesUnder entries (td_path d))
        /\ td_files d = Z.of_nat (length (filesUnder entries (td_path d))) /\ 0 < td_files d)
  /\ (forall e n, {| tf_entry := e; tf_name := n |} ∈ page.2 <-> e ∈ entries /\ te_path e = prefix_of folder ++ n /\ ~ In c_slash n)
  /\ sum_of td_size page.1 + sum_of (fun f => te_size (tf_entry f)) page.2 = total (filesUnder entries folder).
Proof.
  cbv zeta. intros Hp. unfold listFolder. set (prefix := prefix_of folder). destruct (loop_rows prefix entries) as (names & -> & Hn & Hin).
  set (files := omap _ entries). cbn [fst snd].
  assert (Plain : forall n, n ∈ names -> ~ In c_slash n /\ prefix ++ n <> [] /\ exists e, e ∈ entries /\ placed_in prefix n e = true).
  { intros n (e & He & Hpl)%Hin. split; [by apply (folder_names_plain prefix n e)|]. split; [|exists e; by rewrite (bool_decide_true _ Hpl : placed_in prefix n e = true)].
    intros [Epr ->]%app_nil. assert (B : placed_in prefix [] e = true) by by apply bool_decide_eq_true.
    rewrite placed_below, Epr in B by by intros []. rewrite Forall_forall in Hp. destruct (Hp e He) as (_ & _ & H3). cbn [app] in B. congruence. }
  split_and!.
  - rewrite js_sort_perm. by rewrite map_map, map_id.
  - intros d. rewrite js_sort_perm. intros (n & -> & Hnin)%list_elem_of_fmap. destruct (Plain n Hnin) as (H1 & H2 & e & He & Hb).
    cbn [td_path td_name td_size td_files folder_row]. rewrite (folder_path_below prefix n entries H1 H2). split_and!; [done..|].
    rewrite <- (folder_path_below prefix n entries H1 H2). apply list_elem_of_In in He.
    destruct (List.filter (placed_in prefix n) entries) eqn:F; [|cbn; lia]. exfalso. eapply in_nil. rewrite <- F. apply filter_In. by split; [exact He|].
  - intros e n. rewrite js_sort_perm. unfold files. rewrite list_elem_of_omap. rewrite Forall_forall in Hp. split.
    + intros (e' & He' & Hf). destruct (place_of prefix e') as [|m|] eqn:Epl; simplify_eq. split; [done|]. by apply place_file in Epl.
    + intros (He & Epath & Hs). exists e. split; [done|]. destruct (Hp e He) as (Hne & Hend & _). rewrite (file_place prefix e n Epath Hs); [done|].
      intros ->. rewrite app_nil_r in Epath. unfold prefix, prefix_of in Epath. destruct (truthy folder); [|by rewrite Epath in Hne].
      rewrite Epath, (proj2 (ends_with_spec [c_slash] _)) in Hend by by exists folder. done.
  - rewrite (sum_perm td_size _ _ (js_sort_perm _ _)), (sum_perm (fun f => te_size (tf_entry f)) _ _ (js_sort_perm _ _)).
    unfold files. rewrite (page_sums prefix entries names Hn (fun n H => proj1 (Plain n H)) (fun e n He Hpl => proj2 (Hin n) (ex_intro _ e (conj He Hpl)))).
    apply under_places. rewrite Forall_forall in *. intros e He. by destruct (Hp e He) as (? & ? & _).
Qed.

#[local] Definition sample : list tree_entry :=
  [{| te_path := js "readme.txt"; te_size := 10 |}; {| te_path := js "docs/a.txt"; te_size := 100 |}; {| te_path := js "docs/sub/b.txt"; te_size := 400 |}].

Lemma folder_page_adds_up_witness :
  map td_size (listFolder (fun _ _ => 0) sample []).1 = [500]
  /\ sum_of td_size (listFolder (fun _ _ => 0) sample []).1 + sum_of (fun f => te_size (tf_entry f)) (listFolder (fun _ _ => 0) sample []).2 = 510.
Proof.
  split; [vm_compute; reflexivity|].
  assert (F : Forall (fun e => te_path e <> [] /\ ends_with [c_slash] (te_path e) = false /\ starts_with [c_slash] (te_path e) = false) sample)
    by (repeat (apply Forall_cons; split); try apply Forall_nil_2; (split; [discriminate | split; reflexivity])).
  exact (proj2 (proj2 (proj2 (folder_page_adds_up (fun _ _ => 0) sample [] F)))).
Defined.

Example sizes : map formatSize [0; 999; 1500; 12000000; 3400000000; 999960] = [js "0 B"; js "999 B"; js "1.5 KB"; js "12 MB"; js "3.4 GB"; js "1 MB"].
Proof. vm_compute. reflexivity. Qed.
