(* ===== verification/BackupRows.v ===== *)
(** * Backup rows: [luna/web/src/lib/backupRows.js]

    The backups of the drives and of the cloud as one list of rows, what is said of each, and their groups.  Times are whole
    seconds, [0] or absent when there was none. *)

From S2P Require Import Prelude JsString RecentItems.

(** ** Definitions *)

Inductive backup_kind := BDrive | BCloud.
#[global] Instance backup_kind_eq_dec : EqDecision backup_kind.
Proof. solve_decision. Defined.

(** A backup as the service lists it. *)
Record api_backup := {
  ab_id : jstr; ab_private : bool; ab_source_path : jstr; ab_source_name : jstr; ab_target_drive_name : option jstr;
  ab_status : jstr; ab_state : jstr; ab_last_ok_at : Z; ab_last_error : option jstr; ab_created_by : jstr;
  ab_last_checked_at : option Z; ab_check_problem : option jstr; ab_source_missing : bool; ab_hard : bool;
}.

(** [{ ...b, kind, private, destination }] *)
Record backup_row := { br_of : api_backup; br_kind : backup_kind; br_destination : jstr }.

Definition br_id (r : backup_row) : jstr := ab_id (br_of r).
Definition br_private (r : backup_row) : bool := ab_private (br_of r).
Definition br_created_by (r : backup_row) : jstr := ab_created_by (br_of r).
Definition br_last_ok_at (r : backup_row) : Z := ab_last_ok_at (br_of r).
Definition is_cloud (r : backup_row) : bool := bool_decide (br_kind r = BCloud).
Definition status_is (s : string) (r : backup_row) : bool := bool_decide (ab_status (br_of r) = js s).
Definition state_is (s : string) (r : backup_row) : bool := bool_decide (ab_state (br_of r) = js s).
(** [!!b.check_problem] *)
Definition has_problem (r : backup_row) : bool := truthy (default [] (ab_check_problem (br_of r))).

Definition hard_number (r : backup_row) : Z := if ab_hard (br_of r) then 1 else 0.

Definition by_urgency (a b : backup_row) : Z :=
  let d := hard_number b - hard_number a in
  if negb (d =? 0) then d else br_last_ok_at a - br_last_ok_at b.

Definition sortByUrgency (rows : list backup_row) : list backup_row := js_sort by_urgency rows.

Definition drive_row (b : api_backup) : backup_row := {| br_of := b; br_kind := BDrive; br_destination := default [] (ab_target_drive_name b) |}.
Definition cloud_row (b : api_backup) : backup_row := {| br_of := b; br_kind := BCloud; br_destination := js "Cloud" |}.

Definition buildBackupRows (driveList cloudList : option (list api_backup)) : list backup_row :=
  sortByUrgency (map drive_row (default [] driveList) ++ map cloud_row (default [] cloudList)).

Definition needsALook (r : backup_row) : bool :=
  if negb (status_is "active" r) then false
  else if state_is "failing" r || state_is "stale" r then true
  else is_cloud r && (has_problem r || ab_source_missing (br_of r)).

Definition backupKindLabel (r : backup_row) : jstr :=
  if is_cloud r then js "Cloud backup" else if truthy (ab_source_path (br_of r)) then js "Folder backup" else js "Drive backup".

Section Dates.
(** The browser's date of a time in milliseconds. *)
Context (localeDate : Z -> jstr).

Definition lastBackedUpLine (lastOkAt now : Z) : jstr :=
  if lastOkAt =? 0 then js "Not backed up yet."
  else
    let ago := formatRecentAgo localeDate (lastOkAt * 1000) now in
    if bool_decide (ago = js "Just now") then js "Last backed up just now."
    else if ends_with (js "ago") ago then js "Last backed up " ++ ago ++ js "." else js "Last backed up on " ++ ago ++ js ".".

Definition lastCopyLine (r : backup_row) (now : Z) : jstr := lastBackedUpLine (br_last_ok_at r) now.

(** The label and the variant of the pill. *)
Definition backupStatus (r : backup_row) (now : Z) : jstr * jstr :=
  if status_is "stopped" r then (js "Stopped", js "default")
  else if status_is "source_gone" r then (js "Original is gone", js "default")
  else if is_cloud r && status_is "active" r && ab_source_missing (br_of r) then (js "Original is missing", js "warning")
  else if state_is "failing" r then (js "Last copy failed", js "error")
  else if state_is "stale" r then (lastBackedUpLine (br_last_ok_at r) now, js "warning")
  else if is_cloud r && has_problem r then (js "Check failed", js "warning")
  else if br_last_ok_at r =? 0 then (js "No copy yet", js "default")
  else (js "Backup successful", js "success").

Definition lastTestedLine (rows : list backup_row) (now : Z) : option jstr :=
  let checks := omap (fun r => if is_cloud r then match ab_last_checked_at (br_of r) with Some 0 => None | c => c end else None) rows in
  match checks with
  | [] => None
  | c :: checks =>
      let ago := formatRecentAgo localeDate (foldl Z.max c checks * 1000) now in
      Some (js "Copies last tested " ++ (if bool_decide (ago = js "Just now") then js "just now" else ago))
  end.
End Dates.

(** *** Groups *)

Record user := { u_id : jstr; u_display_name : option jstr; u_username : jstr }.

Definition creatorName (userId : jstr) (users : list user) : jstr :=
  match List.find (fun x => bool_decide (u_id x = userId)) users with
  | Some u => str_or (default [] (u_display_name u)) (u_username u)
  | None => js "Someone"
  end.

(** [groups.get(name).push(b)], the group made where there is none. *)
Fixpoint push_group (name : jstr) (b : backup_row) (groups : list (jstr * list backup_row)) : list (jstr * list backup_row) :=
  match groups with
  | [] => [(name, [b])]
  | (n, items) :: groups => if bool_decide (n = name) then (n, items ++ [b]) :: groups else (n, items) :: push_group name b groups
  end.

Section Grouped.
(** [a.localeCompare(b)] *)
Context (localeCompare : jstr -> jstr -> Z).

Definition someone (g : jstr * list backup_row) : Z := if bool_decide (g.1 = js "Someone") then 1 else 0.
Definition by_creator (a b : jstr * list backup_row) : Z :=
  let d := someone a - someone b in if negb (d =? 0) then d else localeCompare a.1 b.1.

Definition groupByCreator (rows : list backup_row) (users : list user) : list (jstr * list backup_row) :=
  let groups := foldl (fun groups b => push_group (creatorName (br_created_by b) users) b groups) [] rows in
  map (fun g => (g.1, sortByUrgency g.2)) (js_sort by_creator groups).
End Grouped.

Definition backupHeadline (rows : list backup_row) : jstr :=
  match rows with
  | [] => js "No backups yet"
  | _ =>
      let count := length (List.filter needsALook rows) in
      if Nat.eqb count 0 then js "All backed up"
      else if Nat.eqb count 1 then js "1 backup needs a look"
      else js_of_Z (Z.of_nat count) ++ js " backups need a look"
  end.

(** Private backups of an owner, as the service counts them. *)
Record private_owner := { po_owner_id : jstr; po_name : option jstr; po_deleted : bool; po_backups : option Z; po_needs_look : bool }.
Record private_group := { pg_ownerId : jstr; pg_name : jstr; pg_deleted : bool; pg_backups : Z; pg_needsLook : Z }.

Definition privateGroups (owners : option (list private_owner)) (users : list user) : list private_group :=
  map (fun o => {|
         pg_ownerId := po_owner_id o;
         pg_name := if po_deleted o then js "Deleted user" else str_or (default [] (po_name o)) (creatorName (po_owner_id o) users);
         pg_deleted := po_deleted o; pg_backups := default 0 (po_backups o); pg_needsLook := if po_needs_look o then 1 else 0 |})
    (default [] owners).

(** ** Facts *)

Lemma by_urgency_le (a b : backup_row) :
  by_urgency a b <= 0 <-> hard_number b < hard_number a \/ (hard_number a = hard_number b /\ br_last_ok_at a <= br_last_ok_at b).
Proof. unfold by_urgency. cbv zeta. destruct (Z.eqb_spec (hard_number b - hard_number a) 0); cbn [negb]; lia. Qed.

(** Rows in order of urgency: errors a person must act on first, then the oldest good copies. *)
Lemma urgency_sorted (rows : list backup_row) :
  Permutation (sortByUrgency rows) rows /\ StronglySorted (fun a b => by_urgency a b <= 0) (sortByUrgency rows).
Proof.
  split; [apply js_sort_perm|]. apply (js_sort_sorted by_urgency (fun _ => True)); [| |by apply Forall_forall].
  - intros x y _ _. rewrite !by_urgency_le. lia.
  - intros x y z _ _ _. rewrite !by_urgency_le. lia.
Qed.

(** What the groups hold of a creator. *)
Definition group_of (name : jstr) (groups : list (jstr * list backup_row)) : list backup_row :=
  default [] (snd <$> List.find (fun g => bool_decide (g.1 = name)) groups).

Lemma push_group_of (name n : jstr) (b : backup_row) (groups : list (jstr * list backup_row)) :
  group_of n (push_group name b groups) = if bool_decide (n = name) then group_of n groups ++ [b] else group_of n groups.
Proof.
  induction groups as [|[m items] groups IH]; unfold group_of in *; cbn [push_group List.find fst].
  - case_bool_decide as E; [|rewrite bool_decide_false by congruence; done]. subst. by rewrite bool_decide_true.
  - destruct (decide (m = name)) as [->|Hm].
    + rewrite (bool_decide_true (name = name)) by done. cbn [List.find fst]. destruct (decide (n = name)) as [->|Hn].
      * by rewrite !bool_decide_true.
      * rewrite !(bool_decide_false (n = name)), !(bool_decide_false (name = n)) by congruence. done.
    + rewrite (bool_decide_false (m = name)) by done. cbn [List.find fst]. destruct (decide (m = n)) as [->|Hn].
      * rewrite !(bool_decide_true (n = n)), (bool_decide_false (n = name)) by done. done.
      * rewrite !(bool_decide_false (m = n)) by done. exact IH.
Qed.

Lemma push_group_names (name : jstr) (b : backup_row) (groups : list (jstr * list backup_row)) : NoDup (map fst groups) ->
  NoDup (map fst (push_group name b groups)) /\ forall n, n ∈ map fst (push_group name b groups) <-> n = name \/ n ∈ map fst groups.
Proof.
  induction groups as [|[m items] groups IH]; cbn [push_group map fst].
  - intros _. split; [apply NoDup_singleton|]. intros n. rewrite list_elem_of_singleton, elem_of_nil. tauto.
  - intros [Hm Hg]%NoDup_cons. destruct (IH Hg) as [IH1 IH2]. case_bool_decide as E; cbn [map fst].
    + split; [by apply NoDup_cons|]. intros n. rewrite elem_of_cons. subst. tauto.
    + split; [|intros n; rewrite !elem_of_cons, IH2; tauto]. apply NoDup_cons. split; [|done]. rewrite IH2. naive_solver.
Qed.

Lemma groups_hold (users : list user) (rows : list backup_row) :
  let name b := creatorName (br_created_by b) users in
  let groups := foldl (fun groups b => push_group (name b) b groups) [] rows in
  NoDup (map fst groups) /\ (forall n, n ∈ map fst groups <-> n ∈ map name rows)
  /\ forall n, group_of n groups = List.filter (fun b => bool_decide (name b = n)) rows.
Proof.
  cbv zeta. induction rows as [|b rows IH] using rev_ind; [split_and!; [constructor | done | done]|]. rewrite foldl_snoc.
  destruct IH as (H1 & H2 & H3). destruct (push_group_names (creatorName (br_created_by b) users) b _ H1) as [P1 P2]. split_and!; [done| |].
  - intros n. rewrite P2, H2, map_app, elem_of_app. cbn [map]. rewrite list_elem_of_singleton. tauto.
  - intros n. rewrite push_group_of, H3, List.filter_app. cbn [List.filter]. case_bool_decide as E; subst; [by rewrite bool_decide_true|].
    rewrite bool_decide_false by congruence. by rewrite app_nil_r.
Qed.

Lemma group_of_member (g : jstr * list backup_row) (groups : list (jstr * list backup_row)) : NoDup (map fst groups) -> g ∈ groups -> group_of g.1 groups = g.2.
Proof.
  unfold group_of. induction groups as [|h groups IH]; [by intros _ H%not_elem_of_nil|]. cbn [map List.find]. intros [Hh Hg]%NoDup_cons.
  intros [->|Hin]%elem_of_cons; [by rewrite bool_decide_true|]. rewrite bool_decide_false; [by apply IH|]. intros E. apply Hh. rewrite E.
  by apply list_elem_of_In, in_map, list_elem_of_In.
Qed.

(** the groups part the rows: each creator has one group, the group holds exactly that creator's rows, most urgent
    first and otherwise in their order, and no row is in a group of another name. *)
Theorem groups_part_rows (localeCompare : jstr -> jstr -> Z) (rows : list backup_row) (users : list user) :
  let groups := groupByCreator localeCompare rows users in let name b := creatorName (br_created_by b) users in
  NoDup (map fst groups) /\ (forall n, n ∈ map fst groups <-> n ∈ map name rows)
  /\ forall g, g ∈ groups -> g.2 = sortByUrgency (List.filter (fun b => bool_decide (name b = g.1)) rows)
      /\ Permutation g.2 (List.filter (fun b => bool_decide (name b = g.1)) rows) /\ StronglySorted (fun a b => by_urgency a b <= 0) g.2.
Proof.
  cbv zeta. unfold groupByCreator. destruct (groups_hold users rows) as (H1 & H2 & H3).
  set (raw := foldl _ [] rows) in *. pose proof (js_sort_perm (by_creator localeCompare) raw) as P.
  assert (F : map fst (map (fun g => (g.1, sortByUrgency g.2)) (js_sort (by_creator localeCompare) raw)) = map fst (js_sort (by_creator localeCompare) raw))
    by by rewrite map_map.
  rewrite F. split_and!.
  - by rewrite P.
  - intros n. rewrite <- H2. by rewrite P.
  - intros g (h & -> & Hh)%list_elem_of_fmap. rewrite P in Hh. cbn [fst snd]. rewrite <- H3, (group_of_member h raw) by done.
    split; [done | apply urgency_sorted].
Qed.
