(* ===== verification/HealthChecks.v ===== *)
(** * Health in words: [luna/web/src/lib/driveHealth.js], [healthChecks.js] and [needsYouChecks.js]

    Luna's report of a drive turned into plain copy: numbers of the report are integers or absent.  Then the words for Luna's
    checks of itself, which of them the header's pill lists, and which become rows of the Needs you list: the names of
    checks are lunad's; none is the name of a member of [Object.prototype]. *)

From S2P Require Import Prelude JsString Paths BackupRows.

(** ** Definitions *)

Record health_signal := { hs_kind : jstr; hs_level : jstr; hs_value : option Z; hs_limit : option Z }.

Record health_report := {
  hr_reason : option jstr; hr_verdict : option jstr; hr_overall : option jstr;
  hr_temperature_c : option Z; hr_temperature_max_c : option Z; hr_temperature_max_source : option jstr;
  hr_reallocated_sectors : option Z; hr_pending_sectors : option Z; hr_uncorrectable_sectors : option Z;
  hr_signals : option (list health_signal);
}.

Record health_row := { hw_key : jstr; hw_label : jstr; hw_hint : jstr; hw_value : jstr }.
Inductive tone := Problem | Warning | Info.
Record needs_you_copy := { ny_tone : tone; ny_rank : Z; ny_title : jstr; ny_detail : jstr }.
Record health_copy := {
  hc_verdict : jstr; hc_pill : jstr * jstr; hc_summary : jstr; hc_hint : option jstr; hc_needsYou : option needs_you_copy;
  hc_rows : list health_row; hc_steps : list jstr;
}.

Definition COPY_NOW : jstr := js "Copy your files to another drive now.".
Definition KEEP_AND_BACK_UP : jstr := js "Keep using it, and make sure it's backed up.".
Definition WATCH_SUMMARY : jstr := js "Still working. Keep using it, and make sure its files are backed up.".
Definition NO_REPORT_HINT : jstr :=
  js "Hard drives keep a health report that Luna reads. Some USB cases don't pass it on. Luna can still use the drive, but it can't warn you early.".

Definition kind_is (kind : string) (signal : health_signal) : bool := bool_decide (hs_kind signal = js kind).
Definition findSignal (signals : list health_signal) (kind : string) : option health_signal := List.find (kind_is kind) signals.

Definition has_signal (signals : list health_signal) (kind : string) : bool := existsb (kind_is kind) signals.

(** [`${n}`] of a number that may be null. *)
Definition shown (n : option Z) : jstr := match n with Some n => js_of_Z n | None => js "null" end.
(** [`${top?.value}`] *)
Definition shown_value (top : option health_signal) : jstr :=
  match top with Some top => shown (hs_value top) | None => js "undefined" end.
Definition top_is (kind : string) (top : option health_signal) : bool := match top with Some top => kind_is kind top | None => false end.

Definition failingDetail (top : option health_signal) : jstr :=
  let n := shown_value top in
  if top_is "self_check_failed" top then js "Its own self-check failed. " ++ COPY_NOW
  else if top_is "worn_past_limit" top then js "It's past its maker's wear limit. " ++ COPY_NOW
  else if top_is "pending_sectors" top || top_is "uncorrectable_sectors" top then js "It can't read " ++ n ++ js " blocks on its disk. " ++ COPY_NOW
  else if top_is "reallocated_sectors" top then n ++ js " blocks on its disk have worn out. " ++ COPY_NOW
  else COPY_NOW.

(** The pill, the summary, the title and the detail. *)
Record watch_copy := { wc_pill : jstr; wc_summary : jstr; wc_title : jstr; wc_detail : jstr }.

Definition watchCopy (top : option health_signal) (health : health_report) : watch_copy :=
  if top_is "error_log" top then
    {| wc_pill := js "Logged errors"; wc_summary := WATCH_SUMMARY; wc_title := js " has logged errors";
       wc_detail := js "It recorded errors while reading or writing. " ++ KEEP_AND_BACK_UP |}
  else if top_is "self_test_errors" top then
    {| wc_pill := js "Failed a self-test"; wc_summary := WATCH_SUMMARY; wc_title := js " failed a self-test";
       wc_detail := js "Its own test found a problem. " ++ KEEP_AND_BACK_UP |}
  else if top_is "temperature" top then
    let max := match top ≫= hs_limit with Some max => Some max | None => hr_temperature_max_c health end in
    {| wc_pill := js "Running hot"; wc_summary := js "Still working, but too hot. Move it somewhere cooler or give it more air.";
       wc_title := js " is running hot";
       wc_detail := js "It's " ++ shown_value top ++ js "°C, above the " ++ shown max ++ js "°C it's made for. Move it somewhere cooler." |}
  else if top_is "worn_in_past" top then
    {| wc_pill := js "Showing wear"; wc_summary := WATCH_SUMMARY; wc_title := js " is showing wear";
       wc_detail := js "It went past its maker's wear limit once. " ++ KEEP_AND_BACK_UP |}
  else
    {| wc_pill := js "Showing wear"; wc_summary := WATCH_SUMMARY; wc_title := js " is showing wear";
       wc_detail := shown_value top ++ js " blocks on its disk have worn out. " ++ KEEP_AND_BACK_UP |}.

Definition level_of (signals : list health_signal) (kind : string) : option jstr := hs_level <$> findSignal signals kind.
Definition level_is (level : option jstr) (l : string) : bool := bool_decide (level = Some (js l)).

Definition self_check_row (health : health_report) : health_row :=
  {| hw_key := js "self-check"; hw_label := js "Drive's self-check"; hw_hint := js "Hard drives test themselves and report pass or fail.";
     hw_value := if bool_decide (hr_overall health = Some (js "passed")) then js "Passed"
                 else if bool_decide (hr_overall health = Some (js "failed")) then js "Failed" else js "Not reported" |}.

Definition temperature_row (health : health_report) (signals : list health_signal) (t : Z) : health_row :=
  let level := level_of signals "temperature" in
  let max := shown (hr_temperature_max_c health) in
  let source := if bool_decide (hr_temperature_max_source health = Some (js "drive"))
                then js "This drive says it's made to run at up to " ++ max ++ js "°C."
                else js "Most hard drives are made to run at up to " ++ max ++ js "°C." in
  let '(value, hint) :=
    if level_is level "note" then (js_of_Z t ++ js "°C · warm", js "Close to its limit. " ++ source ++ js " Keep air moving around it.")
    else if level_is level "watch" || level_is level "failing" then
      (js_of_Z t ++ js "°C · too hot", js "Above its limit. " ++ source ++ js " Heat wears a drive out faster.")
    else (js_of_Z t ++ js "°C · normal", js "Hard drives get warm while they work. " ++ source) in
  {| hw_key := js "temperature"; hw_label := js "Temperature"; hw_hint := hint; hw_value := value |}.

Definition replaced_row (signals : list health_signal) (n : Z) : health_row :=
  {| hw_key := js "replaced-blocks"; hw_label := js "Replaced blocks";
     hw_hint := js "Blocks of the disk that wore out. The drive moved their data to spare space. A few is a warning sign, and the number usually grows. Luna treats 100 or more as failing.";
     hw_value := if 0 <? n then js_of_Z n ++ js " · " ++ (if level_is (level_of signals "reallocated_sectors") "failing" then js "too many" else js "showing wear")
                 else js "None" |}.

Definition unreadable_row (n : Z) : health_row :=
  {| hw_key := js "unreadable-blocks"; hw_label := js "Unreadable blocks";
     hw_hint := js "Blocks of the disk the drive couldn't read. Files stored there may already be damaged.";
     hw_value := if 0 <? n then js_of_Z n ++ js " · failing" else js "None" |}.

Definition wear_row (value : string) : health_row :=
  {| hw_key := js "wear-limit"; hw_label := js "Wear limit"; hw_hint := js "A wear measure the maker sets has passed its failure line."; hw_value := js value |}.

Definition buildRows (health : health_report) (signals : list health_signal) : list health_row :=
  [self_check_row health]
  ++ match hr_temperature_c health with Some t => [temperature_row health signals t] | None => [] end
  ++ match hr_reallocated_sectors health with Some n => [replaced_row signals n] | None => [] end
  ++ match hr_pending_sectors health, hr_uncorrectable_sectors health with
     | None, None => []
     | p, u => [unreadable_row (default 0 p + default 0 u)]
     end
  ++ (if has_signal signals "error_log" then
        [{| hw_key := js "error-log"; hw_label := js "Error log";
            hw_hint := js "The drive recorded errors while reading or writing. One or two can come from a loose cable; more point to wear.";
            hw_value := js "Has errors" |}] else [])
  ++ (if has_signal signals "self_test_errors" then
        [{| hw_key := js "self-test"; hw_label := js "Self-test"; hw_hint := js "The drive's own surface test found a fault."; hw_value := js "Found a problem" |}]
      else [])
  ++ (if has_signal signals "worn_past_limit" then [wear_row "Past the maker's limit"]
      else if has_signal signals "worn_in_past" then [wear_row "Went past it once"] else []).

(** [None] for [health] is a report that is still loading; [None] as the answer is [null]. *)
Definition describeDriveHealth (health : option health_report) : option health_copy :=
  match health with
  | None =>
      Some {| hc_verdict := js "checking"; hc_pill := (js "muted", js "Checking health…"); hc_summary := js "Checking this drive's health…";
              hc_hint := None; hc_needsYou := None; hc_rows := []; hc_steps := [] |}
  | Some health =>
      if bool_decide (hr_reason health = Some (js "not_a_hard_drive")) then None
      else
        let signals := default [] (hr_signals health) in
        let top := head signals in
        let verdict := default (js "unknown") (hr_verdict health) in
        if bool_decide (verdict = js "failing") then
          Some {| hc_verdict := verdict; hc_pill := (js "error", js "Failing"); hc_summary := js "This drive is failing. " ++ COPY_NOW; hc_hint := None;
                  hc_needsYou := Some {| ny_tone := Problem; ny_rank := 12; ny_title := js " is failing"; ny_detail := failingDetail top |};
                  hc_rows := buildRows health signals;
                  hc_steps := [js "Unplug this drive from Luna and plug it into a computer."; js "Copy all the files off it to the computer.";
                               js "When the copy is done, stop using this drive."] |}
        else if bool_decide (verdict = js "watch") then
          let watch := watchCopy top health in
          Some {| hc_verdict := verdict; hc_pill := (js "warning", wc_pill watch); hc_summary := wc_summary watch; hc_hint := None;
                  hc_needsYou := Some {| ny_tone := Warning; ny_rank := 70; ny_title := wc_title watch; ny_detail := wc_detail watch |};
                  hc_rows := buildRows health signals;
                  hc_steps := [js "Keep using it."; js "Make sure its files are backed up: use the Back up button on this drive's card."]
                    ++ (if level_is (level_of signals "temperature") "watch"
                        then [js "Give it more air: away from heaters and out of closed cupboards."] else []) |}
        else if bool_decide (verdict = js "ok") then
          Some {| hc_verdict := verdict; hc_pill := (js "success", js "Healthy"); hc_summary := js "This hard drive reported no problems."; hc_hint := None;
                  hc_needsYou := None; hc_rows := buildRows health signals; hc_steps := [] |}
        else
          Some {| hc_verdict := js "unknown"; hc_pill := (js "muted", js "Health unknown"); hc_summary := js "Luna couldn't read this hard drive's health report.";
                  hc_hint := Some NO_REPORT_HINT; hc_needsYou := None; hc_rows := buildRows health signals; hc_steps := [] |}
  end.

(** ** Facts *)

Lemma temperature_key (health : health_report) (signals : list health_signal) (t : Z) : hw_key (temperature_row health signals t) = js "temperature".
Proof. unfold temperature_row. cbv zeta. by repeat case_match. Qed.

(** The rows are told apart by their keys. *)
Lemma row_keys_distinct (health : health_report) (signals : list health_signal) : NoDup (map hw_key (buildRows health signals)).
Proof.
  unfold buildRows. cbn [app map hw_key self_check_row].
  destruct (hr_temperature_c health), (hr_reallocated_sectors health), (hr_pending_sectors health), (hr_uncorrectable_sectors health),
    (has_signal signals "error_log"), (has_signal signals "self_test_errors"), (has_signal signals "worn_past_limit"), (has_signal signals "worn_in_past");
    cbn [app map hw_key replaced_row unreadable_row wear_row]; rewrite ?temperature_key;
    (apply (bool_decide_unpack _); vm_compute; exact I).
Qed.

(** A drive asks for attention exactly when Luna's verdict says so, and as a problem exactly when it is failing. *)
Lemma attention_follows_verdict (health : health_report) (copy : health_copy) : describeDriveHealth (Some health) = Some copy ->
  (is_Some (hc_needsYou copy) <-> hr_verdict health = Some (js "failing") \/ hr_verdict health = Some (js "watch"))
  /\ forall n, hc_needsYou copy = Some n -> (ny_tone n = Problem <-> hr_verdict health = Some (js "failing")).
Proof.
  cbn [describeDriveHealth]. case_bool_decide as E0; [done|]. cbv zeta.
  assert (D : js "failing" <> js "watch") by (vm_compute; discriminate). assert (Df : js "unknown" <> js "failing") by (vm_compute; discriminate).
  assert (Dw : js "unknown" <> js "watch") by (vm_compute; discriminate).
  destruct (hr_verdict health) as [v|]; cbn [default from_option].
  - unfold Datatypes.id. case_bool_decide as E1; [|case_bool_decide as E2; [|case_bool_decide as E3]]; intros [= <-]; cbn [hc_needsYou].
    + split; [split; [intros _; left; congruence | by eexists]|]. intros n [= <-]. cbn. split; [congruence | done].
    + split; [split; [intros _; right; congruence | by eexists]|]. intros n [= <-]. cbn. split; [done|]. congruence.
    + split; [split; [by intros [? ?] | intros [[= ?]|[= ?]]; congruence] | done].
    + split; [split; [by intros [? ?] | intros [[= ?]|[= ?]]; congruence] | done].
  - unfold Datatypes.id. rewrite !bool_decide_false by done. intros [= <-]; cbn [hc_needsYou];
      (split; [split; [by intros [? ?] | by intros [?|?]] | done]).
Qed.

(** ** System checks *)

(** *** Rows of the list *)

(** A title or a detail: plain text, or pieces of which some are names. *)
Inductive piece := PText (s : jstr) | PName (s : jstr).
Inductive detail := DText (s : jstr) | DPieces (l : list piece).

Record action := { ac_label : jstr; ac_ariaLabel : option jstr; ac_href : option jstr; ac_intent : option jstr; ac_payload : option backup_row }.
Definition link (label href : jstr) : action :=
  {| ac_label := label; ac_ariaLabel := None; ac_href := Some href; ac_intent := None; ac_payload := None |}.

Record needs_item := { ni_id : jstr; ni_rank : Z; ni_tone : tone; ni_title : list piece; ni_detail : option detail; ni_action : option action }.

(** [a < b] of strings: by code units. *)
Fixpoint unit_ltb (a b : jstr) : bool :=
  match a, b with
  | _, [] => false
  | [], _ :: _ => true
  | x :: a, y :: b => if (x =? y)%N then unit_ltb a b else (x <? y)%N
  end.

(** [byId] *)
Definition byId (a b : needs_item) : Z :=
  if bool_decide (ni_id a = ni_id b) then 0 else if unit_ltb (ni_id a) (ni_id b) then -1 else 1.

(** *** Checks *)

Record check_details := { cd_folder : option jstr; cd_target_drive : option jstr; cd_drive_label : option jstr }.
Record check := { ck_status : jstr; ck_message : option jstr; ck_category : option jstr; ck_details : option check_details }.

(** [Object.entries(systemChecks.checks)]; an entry may be null. *)
Abbreviation checks := (list (jstr * option check)).

Definition CHECK_LABELS : list (jstr * jstr) :=
  [(js "database", js "Accounts and settings"); (js "data_path_writable", js "Luna data folder"); (js "logs_path_writable", js "Logs folder");
   (js "disk_space", js "Luna's own storage"); (js "clock", js "Clock"); (js "update_signing", js "Update safety check");
   (js "os_update_tools", js "System updates"); (js "network", js "Network"); (js "connect", js "Luna Connect");
   (js "remote_access", js "Remote access"); (js "office_pack", js "Documents, spreadsheets, and presentations");
   (js "diagram_pack", js "Diagrams"); (js "whiteboard", js "Whiteboards"); (js "video_tools", js "Video previews");
   (js "heic_tools", js "iPhone photos"); (js "drive_tools", js "Adding and ejecting drives"); (js "ntfs_support", js "NTFS drives");
   (js "erase_tools", js "Erasing drives"); (js "smart_tool", js "Hard drive health reports"); (js "trim_tool", js "SSD upkeep")].

Definition CATEGORY_ORDER : list jstr := [js "system"; js "storage"; js "network"; js "drives"; js "backups"; js "features"].
Definition SETUP_CATEGORY_ORDER : list jstr := List.filter (fun id => negb (bool_decide (id = js "backups"))) CATEGORY_ORDER.

Definition statusRank (status : jstr) : Z := if bool_decide (status = js "failed") then 0 else if bool_decide (status = js "warning") then 1 else 2.

Fixpoint table_entry {A} (key : jstr) (table : list (jstr * A)) : option A :=
  match table with [] => None | (k, v) :: table => if bool_decide (k = key) then Some v else table_entry key table end.

(** [/^drive_.+<suffix>$/] *)
Definition drive_check (suffix : string) (name : jstr) : bool :=
  starts_with (js "drive_") name && ends_with (js suffix) name && Nat.ltb (6 + length (js suffix)) (length name)
  && negb (existsb is_line_terminator name).

(** [\w], and its upper case *)
Definition word_char (c : N) : bool := (is_digit c || ((65 <=? c) && (c <=? 90)) || ((97 <=? c) && (c <=? 122)) || (c =? 95))%N.
Definition upper_char (c : N) : N := if ((97 <=? c) && (c <=? 122))%N then (c - 32)%N else c.

(** [replace(/\b\w/g, (c) => c.toUpperCase())]; [after] says whether a word character came before. *)
Fixpoint title_case (after : bool) (s : jstr) : jstr :=
  match s with [] => [] | c :: s => (if word_char c && negb after then upper_char c else c) :: title_case (word_char c) s end.

Definition labelFor (name : jstr) : jstr :=
  match table_entry name CHECK_LABELS with
  | Some label => label
  | None =>
      if drive_check "_read_write" name then js "Drive save test"
      else if drive_check "_smart" name then js "Hard drive wear check"
      else if starts_with (js "protect_") name then js "Protected folder"
      else if starts_with (js "cloud_backup_") name then js "Cloud backup"
      else if starts_with (js "cloud_phrase_") name then js "Cloud recovery phrase"
      else title_case false (map (fun c => if (c =? 95)%N then c_space else c) name)
  end.

(** [check?.details?.folder] and the like; empty where there is none. *)
Definition detail_of (f : check_details -> option jstr) (c : option check) : jstr := default [] ((c ≫= ck_details) ≫= f).

Definition displayLabel (name : jstr) (c : option check) : jstr :=
  let folder := detail_of cd_folder c in
  if truthy folder && starts_with (js "protect_") name then
    let target := detail_of cd_target_drive c in
    if truthy target then folder ++ js " — copy on " ++ target else folder ++ js " — protected copy"
  else if truthy folder && starts_with (js "cloud_backup_") name then folder ++ js " — cloud backup"
  else if truthy folder && starts_with (js "cloud_phrase_") name then folder ++ js " — recovery phrase"
  else
    let label := detail_of cd_drive_label c in
    if truthy label && starts_with (js "drive_") name && ends_with (js "_read_write") name then label ++ js " — save test"
    else if truthy label && starts_with (js "drive_") name && ends_with (js "_smart") name then label ++ js " — hard drive wear"
    else labelFor name.

(** *** The pill *)

Definition SYSTEM_DISK_CHECKS : list jstr := [js "disk_space"; js "data_path_writable"; js "logs_path_writable"].
Definition NO_ACTION_CHECKS : list jstr := [js "disk_space"; js "data_path_writable"; js "database"].

Record pill_check := { pc_name : jstr; pc_label : jstr; pc_message : option jstr; pc_status : jstr }.

Definition has_status (s : string) (c : option check) : bool := bool_decide (ck_status <$> c = Some (js s)).

Definition in_pill (entry : jstr * option check) : bool :=
  has_status "warning" entry.2 || (has_status "failed" entry.2 && bool_decide (entry.1 ∈ NO_ACTION_CHECKS)).

Definition pillChecks (systemChecks : option checks) : list pill_check :=
  map (fun '(name, result) =>
         {| pc_name := name; pc_label := displayLabel name result; pc_message := result ≫= ck_message;
            pc_status := if has_status "failed" result then js "failed" else js "warning" |})
    (List.filter in_pill (default [] systemChecks)).

(** *** Rows for failed checks *)

(** One turn of the loop: the row of a check, if it gets one. *)
Definition check_item (coveredDriveLabels : list jstr) (noRouteShown : bool) (entry : jstr * option check) : option needs_item :=
  let '(name, c) := entry in
  match c with
  | None => None
  | Some check =>
      if negb (bool_decide (ck_status check = js "failed")) then None
      else if bool_decide (name ∈ NO_ACTION_CHECKS) then None
      else if bool_decide (ck_category check = Some (js "backups")) then None
      else if drive_check "_smart" name then None
      else if bool_decide (name = js "clock") && noRouteShown then None
      else
        let detail := match ck_message check with Some m => if truthy (trim m) then Some (DText m) else None | None => None end in
        let item a := Some {| ni_id := js "check:" ++ name; ni_rank := 20; ni_tone := Problem; ni_title := [PText (displayLabel name c)];
                              ni_detail := detail; ni_action := Some a |} in
        if drive_check "_read_write" name then
          match ck_details check ≫= cd_drive_label with
          | Some label => if bool_decide (label ∈ coveredDriveLabels) then None else item (link (js "Open Files") (js "/files"))
          | None => item (link (js "Open Files") (js "/files"))
          end
        else item (link (js "Open system checks") (js "/settings#about"))
  end.

Definition buildSystemCheckItems (systemChecks : option checks) (coveredDriveLabels : list jstr) (noRouteShown : bool) : list needs_item :=
  js_sort byId (omap (check_item coveredDriveLabels noRouteShown) (default [] systemChecks)).

(** *** Facts *)

Lemma unit_ltb_irrefl (a : jstr) : unit_ltb a a = false.
Proof. induction a as [|x a IH]; [done|]. cbn. by rewrite N.eqb_refl. Qed.

Lemma unit_ltb_total (a b : jstr) : a = b \/ unit_ltb a b = true \/ unit_ltb b a = true.
Proof.
  revert b. induction a as [|x a IH]; intros [|y b]; cbn; [auto..|]. rewrite (N.eqb_sym y x). destruct (N.eqb_spec x y) as [->|H].
  - destruct (IH b) as [->|[?|?]]; auto.
  - rewrite !N.ltb_lt. lia.
Qed.

Lemma unit_ltb_trans (a b c : jstr) : unit_ltb a b = true -> unit_ltb b c = true -> unit_ltb a c = true.
Proof.
  revert b c. induction a as [|x a IH]; intros [|y b] [|z c]; cbn; try done.
  destruct (N.eqb_spec x y) as [->|H1]; destruct (N.eqb_spec y z) as [->|H2]; rewrite ?N.ltb_lt.
  - apply IH.
  - done.
  - intros H _. destruct (N.eqb_spec x z); [lia|]. by apply N.ltb_lt.
  - intros H3 H4. destruct (N.eqb_spec x z); [lia|]. apply N.ltb_lt. lia.
Qed.

Lemma unit_ltb_asym (a b : jstr) : unit_ltb a b = true -> unit_ltb b a = false.
Proof. intros H. apply not_true_iff_false. intros H'. pose proof (unit_ltb_trans _ _ _ H H') as E. by rewrite unit_ltb_irrefl in E. Qed.

(** The row of a check: a problem, with the check's label and its message. *)
Definition row_says (name : jstr) (c : check) (i : needs_item) : Prop :=
  ni_tone i = Problem /\ ni_title i = [PText (displayLabel name (Some c))]
  /\ forall m, ck_message c = Some m -> trim m <> [] -> ni_detail i = Some (DText m).

(** Every failed check is in the pill, has a row, or is left out for one of four reasons. *)
Lemma failed_check_shown (covered : list jstr) (noRoute : bool) (systemChecks : option checks) (name : jstr) (c : check) :
  (name, Some c) ∈ default [] systemChecks -> ck_status c = js "failed" ->
  (name ∈ NO_ACTION_CHECKS
   /\ {| pc_name := name; pc_label := displayLabel name (Some c); pc_message := ck_message c; pc_status := js "failed" |} ∈ pillChecks systemChecks)
  \/ (exists i, i ∈ buildSystemCheckItems systemChecks covered noRoute /\ ni_id i = js "check:" ++ name /\ row_says name c i)
  \/ ck_category c = Some (js "backups") \/ drive_check "_smart" name = true \/ (name = js "clock" /\ noRoute = true)
  \/ (drive_check "_read_write" name = true /\ exists label, ck_details c ≫= cd_drive_label = Some label /\ label ∈ covered).
Proof.
  intros Hin Hs.
  assert (S : forall i, check_item covered noRoute (name, Some c) = Some i -> i ∈ buildSystemCheckItems systemChecks covered noRoute).
  { intros i Hi. unfold buildSystemCheckItems. rewrite js_sort_perm. apply list_elem_of_omap. by eexists. }
  destruct (decide (name ∈ NO_ACTION_CHECKS)) as [Hn|Hn].
  { left. split; [done|]. unfold pillChecks. apply list_elem_of_fmap. exists (name, Some c). unfold has_status, in_pill. cbn [fst snd fmap option_fmap option_map].
    rewrite Hs, bool_decide_true by done. split; [done|]. apply list_elem_of_In, filter_In. split; [by apply list_elem_of_In|].
    unfold in_pill, has_status. cbn [fst snd fmap option_fmap option_map]. rewrite Hs, (bool_decide_true (Some (js "failed") = Some (js "failed"))) by done.
    rewrite (bool_decide_true (name ∈ _)) by done. by rewrite orb_true_r. }
  destruct (decide (ck_category c = Some (js "backups"))) as [Hc|Hc]; [tauto|]. destruct (drive_check "_smart" name) eqn:Em; [tauto|].
  destruct (bool_decide (name = js "clock") && noRoute) eqn:Ek; [apply andb_true_iff in Ek as [Ek%bool_decide_eq_true ->]; tauto|].
  assert (U : exists f, check_item covered noRoute (name, Some c) = (if drive_check "_read_write" name then
      match ck_details c ≫= cd_drive_label with
      | Some label => if bool_decide (label ∈ covered) then None else Some (f (link (js "Open Files") (js "/files")))
      | None => Some (f (link (js "Open Files") (js "/files"))) end
      else Some (f (link (js "Open system checks") (js "/settings#about")))) /\ forall a, ni_id (f a) = js "check:" ++ name /\ row_says name c (f a)).
  { eexists (fun a => {| ni_id := _; ni_action := Some a |}). unfold check_item. rewrite Hs, bool_decide_true by done. cbn [negb].
    rewrite (bool_decide_false (name ∈ _)), (bool_decide_false (ck_category c = _)), Em, Ek by done. cbv zeta. split; [done|]. intros a. split; [done|]. split; [done|]. split; [done|].
    intros m -> Hm. cbn. destruct (trim m) as [|x t]; done. }
  destruct U as (f & U & Hf). destruct (drive_check "_read_write" name) eqn:Er; [|right; left; eexists; split; [apply S, U | apply Hf]].
  destruct (ck_details c ≫= cd_drive_label) as [label|] eqn:El; [|right; left; eexists; split; [apply S, U | apply Hf]].
  case_bool_decide as Hl; [|right; left; eexists; split; [apply S, U | apply Hf]]. do 5 right. split; [done|]. by exists label.
Qed.
