(* ===== verification/NeedsYou.v ===== *)
(** * What needs you: [luna/web/src/lib/needsYou.js], [needsYouBackups.js], [drives.js] and [formatBytes.js]

    The list of what asks for a person's attention, put together from drives, backups, system checks and the network, for
    a viewer who is an Admin or is not; what a viewer may see, the order of the list and its ids, and that no failed check
    goes unmentioned. *)

From S2P Require Import Prelude JsString BackupRows HealthChecks.

(** ** Definitions *)

(** *** Drives *)

(** [locked] and [converting] say whether the field is [true]; [mounted] may be absent. *)
Record drive := {
  dv_id : jstr; dv_label : jstr; dv_state : jstr; dv_mounted : option bool; dv_locked : bool; dv_converting : bool; dv_encrypted : bool;
}.

Definition drive_state_is (s : string) (d : drive) : bool := bool_decide (dv_state d = js s).
Definition isLockedDrive (d : drive) : bool := dv_locked d.
Definition isConvertingDrive (d : drive) : bool := dv_converting d.
Definition unmounted (d : drive) : bool := bool_decide (dv_mounted d = Some false).

Definition isUnopenable (d : drive) : bool :=
  if isLockedDrive d || isConvertingDrive d then false
  else (drive_state_is "as_is" d || drive_state_is "readonly" d) && unmounted d.

Definition isPresentDrive (d : drive) : bool :=
  negb (drive_state_is "missing" d) && negb (drive_state_is "ejected" d) && negb (drive_state_is "failed" d) && negb (unmounted d)
  && negb (isLockedDrive d) && negb (isConvertingDrive d).

Definition isWritableDrive (d : drive) : bool := isPresentDrive d && negb (drive_state_is "readonly" d).

Definition encryptionHref (d : drive) : jstr := js "/files/" ++ dv_id d ++ js "/encryption".

Definition driveEncryptionLine (d : drive) : jstr :=
  if dv_converting d then js "Encrypting" else if negb (dv_encrypted d) then [] else if dv_locked d then js "Locked" else js "Unlocked".

(** *** Sizes *)

(** The loop over the units: the value and the unit it ends with. *)
Fixpoint scale (value : num) (unit : jstr) (units : list jstr) : num * jstr :=
  match units with
  | [] => (value, unit)
  | next :: units => if num_lt value (num_of_Z 1000) then (value, unit) else scale (num_div value (num_of_Z 1000)) next units
  end.

Definition formatBytes (bytes : option Z) : jstr :=
  match bytes with
  | None => []
  | Some n =>
      if n <? 1000 then js_of_Z n ++ js " B"
      else
        let '(value, unit) := scale (num_div (num_of_Z n) (num_of_Z 1000)) (js "KB") [js "MB"; js "GB"; js "TB"] in
        (if num_lt value (num_of_Z 10) then to_fixed1 value else js_of_Z (math_round value)) ++ js " " ++ unit
  end.

(** *** Backups *)

Definition MISSING_SOURCE_DETAIL : jstr := js "The folder or drive this backs up is not available right now.".
Definition FALLBACK_DETAIL : jstr := js "The last copy did not finish. Open it to see what went wrong.".
Definition PHRASE_DETAIL : jstr := js "It's been a while. Make sure your recovery phrase still opens your cloud backups.".

Definition canSee (isAdmin : bool) (userId : jstr) (row : backup_row) : bool :=
  let own := truthy userId && bool_decide (br_created_by row = userId) in
  if negb isAdmin then own else own || negb (br_private row).

Definition visibleBackupRows (isAdmin : bool) (userId : jstr) (rows : list backup_row) : list backup_row := List.filter (canSee isAdmin userId) rows.

Definition source_name (r : backup_row) : jstr := ab_source_name (br_of r).

Definition backupTitle (row : backup_row) : list piece :=
  PName (source_name row)
  :: [PText (if state_is "failing" row then js " backup didn't finish"
             else if state_is "stale" row then js " backup is out of date"
             else if is_cloud row && ab_source_missing (br_of row) then js " backup can't find its original"
             else js " backup needs a look")].

(** [/^drive full\.?$/i] and the like: a sentence whose full stop may be missing. *)
Definition says (sentence : string) (s : jstr) : bool :=
  bool_decide (to_lower s = js sentence) || bool_decide (to_lower s = js sentence ++ js ".").

Definition plainError (error : jstr) : jstr := if says "drive full" (trim error) then js "Backup drive is full." else error.

Section Dates.
Context (localeDate : Z -> jstr).

Definition backupDetail (row : backup_row) (now : Z) : detail :=
  let last := default [] (ab_last_error (br_of row)) in
  let error := if truthy last then plainError last else [] in
  let driveName := if is_cloud row then [] else br_destination row in
  if state_is "failing" row && truthy driveName then
    if says "the backup drive is full" error then DText error
    else if bool_decide (error = js "Backup drive is full.") then DPieces [PName driveName; PText (js " (the backup drive) is full.")]
    else if truthy error then DPieces [PText (js "Backup drive "); PName driveName; PText (js ": "); PText error]
    else DPieces [PText (js "Backing up to "); PName driveName; PText (js " did not finish.")]
  else if state_is "stale" row then
    let age := lastBackedUpLine localeDate (br_last_ok_at row) now in
    DText (if truthy error then error ++ js " " ++ age else age)
  else
    DText (str_or error (str_or (default [] (ab_check_problem (br_of row)))
      (if ab_source_missing (br_of row) then MISSING_SOURCE_DETAIL else FALLBACK_DETAIL))).

Definition kind_word (k : backup_kind) : jstr := match k with BDrive => js "drive" | BCloud => js "cloud" end.

Definition backupItem (now : Z) (row : backup_row) : needs_item :=
  {| ni_id := js "backup:" ++ kind_word (br_kind row) ++ js ":" ++ br_id row; ni_rank := 40; ni_tone := Problem; ni_title := backupTitle row;
     ni_detail := Some (backupDetail row now);
     ni_action := Some {| ac_label := js "Open"; ac_ariaLabel := Some (js "Open " ++ source_name row ++ js " backup"); ac_href := None;
                          ac_intent := Some (js "open-backup"); ac_payload := Some row |} |}.

Definition buildBackupItems (backupRows : list backup_row) (isAdmin : bool) (userId : jstr) (now : Z) : list needs_item :=
  js_sort byId (map (backupItem now) (List.filter needsALook (visibleBackupRows isAdmin userId backupRows))).

Definition buildPhraseItem (backupRows : list backup_row) (check_due isAdmin : bool) (userId : jstr) : option needs_item :=
  if negb check_due then None
  else if negb (existsb is_cloud (visibleBackupRows isAdmin userId backupRows)) then None
  else Some {| ni_id := js "phrase-check"; ni_rank := 90; ni_tone := Info; ni_title := [PText (js "Check your recovery phrase")];
               ni_detail := Some (DText PHRASE_DETAIL);
               ni_action := Some {| ac_label := js "Check now"; ac_ariaLabel := None; ac_href := None; ac_intent := Some (js "check-phrase"); ac_payload := None |} |}.

(** *** The list *)

Record drive_summary := { ds_mounted : bool; ds_total_bytes : option Z; ds_free_bytes : option Z }.

Record needs_input := {
  in_isAdmin : bool; in_userId : jstr; in_drives : list (option drive); in_drivesLoading : bool;
  in_driveSummaries : gmap jstr drive_summary; in_driveHealth : gmap jstr health_report; in_systemChecks : option checks;
  in_backupRows : list backup_row; in_check_due : bool; in_device_token_error : option jstr; in_has_default_route : option bool;
  in_detected : nat; in_now : option Z;
}.

(** The double 0.1. *)
Definition ALMOST_FULL_RATIO : num := num_div (num_of_Z 1) (num_of_Z 10).

Definition isAlmostFull (d : drive) (summary : option drive_summary) : bool :=
  (drive_state_is "as_is" d || drive_state_is "readonly" d)
  && match summary with
     | Some s =>
         ds_mounted s
         && match ds_total_bytes s, ds_free_bytes s with
            | Some total, Some free => (0 <? total) && num_lt (num_div (num_of_Z free) (num_of_Z total)) ALMOST_FULL_RATIO
            | _, _ => false
            end
     | None => false
     end.

Definition whatsWrongAction (d : drive) : action := link (js "See what's wrong") (js "/files#drive-" ++ dv_id d).

Definition driveUnopenableItem (d : drive) : needs_item :=
  {| ni_id := js "drive-unopenable:" ++ dv_id d; ni_rank := 15; ni_tone := Problem; ni_title := [PName (dv_label d); PText (js " can't be opened")];
     ni_detail := Some (DText (js "Its files and free space aren't available. Unplug it and plug it back in.")); ni_action := Some (whatsWrongAction d) |}.

Definition driveHealthItem (d : drive) (n : needs_you_copy) : needs_item :=
  {| ni_id := js "drive-health:" ++ dv_id d; ni_rank := ny_rank n; ni_tone := ny_tone n; ni_title := [PName (dv_label d); PText (ny_title n)];
     ni_detail := Some (DText (ny_detail n)); ni_action := Some (whatsWrongAction d) |}.

Definition driveFullItem (d : drive) (summary : option drive_summary) : needs_item :=
  {| ni_id := js "drive-full:" ++ dv_id d; ni_rank := 80; ni_tone := Problem; ni_title := [PName (dv_label d); PText (js " is almost full")];
     ni_detail := Some (DText (formatBytes (summary ≫= ds_free_bytes) ++ js " free of " ++ formatBytes (summary ≫= ds_total_bytes)));
     ni_action := Some (link (js "Browse files") (js "/files/" ++ dv_id d)) |}.

Definition deviceTokenItem (error : jstr) : needs_item :=
  {| ni_id := js "device-token"; ni_rank := 50; ni_tone := Problem; ni_title := [PText (js "Luna Connect needs a new device token")];
     ni_detail := Some (DText error); ni_action := Some (link (js "Change the device token") (js "/settings#about")) |}.

Definition noRouteItem : needs_item :=
  {| ni_id := js "no-route"; ni_rank := 60; ni_tone := Problem; ni_title := [PText (js "Luna can't reach the internet")];
     ni_detail := Some (DText (js "Check that your router or modem is online.")); ni_action := Some (link (js "Open system checks") (js "/settings#about")) |}.

Definition noDrivesItem : needs_item :=
  {| ni_id := js "no-drives"; ni_rank := 100; ni_tone := Info; ni_title := [PText (js "No drives yet")];
     ni_detail := Some (DText (js "Plug a USB drive into Luna to get started.")); ni_action := None |}.

(** One turn of the loop over the drives: its rows, and the label it covers. *)
Definition drive_items (input : needs_input) (d : drive) : list needs_item * list jstr :=
  if isUnopenable d then ([driveUnopenableItem d], [dv_label d])
  else
    let '(items, covered) :=
      match in_driveHealth input !! dv_id d with
      | Some health =>
          match describeDriveHealth (Some health) ≫= hc_needsYou with
          | Some n => ([driveHealthItem d n], [dv_label d])
          | None => ([], [])
          end
      | None => ([], [])
      end in
    let summary := in_driveSummaries input !! dv_id d in
    (items ++ (if isAlmostFull d summary then [driveFullItem d summary] else []), covered).

Fixpoint drives_loop (input : needs_input) (drives : list (option drive)) (items : list needs_item) (covered : list jstr) : list needs_item * list jstr :=
  match drives with
  | [] => (items, covered)
  | None :: drives => drives_loop input drives items covered
  | Some d :: drives => let '(i, c) := drive_items input d in drives_loop input drives (items ++ i) (covered ++ c)
  end.

Definition token_error (input : needs_input) : option jstr :=
  match in_device_token_error input with Some e => if truthy (trim e) then Some e else None | None => None end.
Definition no_route (input : needs_input) : bool := bool_decide (in_has_default_route input = Some false).

Definition buildAdminItems (input : needs_input) : list needs_item :=
  let '(items, coveredDriveLabels) := drives_loop input (in_drives input) [] [] in
  let items := items ++ match token_error input with Some e => [deviceTokenItem e] | None => [] end in
  let items := items ++ (if no_route input then [noRouteItem] else []) in
  let items := items ++ buildSystemCheckItems (in_systemChecks input) coveredDriveLabels (no_route input) in
  let driveWaiting := Nat.ltb 0 (in_detected input) in
  items ++ (if negb (in_drivesLoading input) && Nat.eqb (length (in_drives input)) 0 && negb driveWaiting then [noDrivesItem] else []).

Definition byRankThenId (a b : needs_item) : Z :=
  if negb (ni_rank a =? ni_rank b) then ni_rank a - ni_rank b else byId a b.

(** [clock] is [Date.now()]. *)
Definition buildNeedsYouItems (clock : Z) (input : needs_input) : list needs_item :=
  let now := default clock (in_now input) in
  let items := if in_isAdmin input then buildAdminItems input else [] in
  let items := items ++ buildBackupItems (in_backupRows input) (in_isAdmin input) (in_userId input) now in
  let items := items ++ match buildPhraseItem (in_backupRows input) (in_check_due input) (in_isAdmin input) (in_userId input) with
                        | Some i => [i] | None => [] end in
  js_sort byRankThenId items.
End Dates.

(** ** Theorems *)

(** *** The list in parts *)

Lemma drives_loop_parts (input : needs_input) (drives : list (option drive)) (items : list needs_item) (covered : list jstr) :
  drives_loop input drives items covered
  = (items ++ concat (map (fun d => (drive_items input d).1) (omap id drives)), covered ++ concat (map (fun d => (drive_items input d).2) (omap id drives))).
Proof.
  revert items covered. induction drives as [|[d|] drives IH]; intros items covered; cbn [drives_loop omap list_omap id map concat].
  - by rewrite !app_nil_r.
  - destruct (drive_items input d) as [i c]. by rewrite IH, !app_assoc.
  - apply IH.
Qed.

Definition drive_rows (input : needs_input) : list needs_item := concat (map (fun d => (drive_items input d).1) (omap id (in_drives input))).
Definition covered_labels (input : needs_input) : list jstr := concat (map (fun d => (drive_items input d).2) (omap id (in_drives input))).
Definition token_rows (input : needs_input) : list needs_item := match token_error input with Some e => [deviceTokenItem e] | None => [] end.
Definition route_rows (input : needs_input) : list needs_item := if no_route input then [noRouteItem] else [].
Definition check_rows (input : needs_input) : list needs_item := buildSystemCheckItems (in_systemChecks input) (covered_labels input) (no_route input).
Definition empty_rows (input : needs_input) : list needs_item :=
  if negb (in_drivesLoading input) && Nat.eqb (length (in_drives input)) 0 && negb (Nat.ltb 0 (in_detected input)) then [noDrivesItem] else [].

Lemma admin_parts (input : needs_input) :
  buildAdminItems input = drive_rows input ++ token_rows input ++ route_rows input ++ check_rows input ++ empty_rows input.
Proof. unfold buildAdminItems. rewrite drives_loop_parts. cbn [app]. by rewrite <- !app_assoc. Qed.

Section Facts.
Context (localeDate : Z -> jstr) (clock : Z).
#[local] Abbreviation build := (buildNeedsYouItems localeDate clock).

Definition now_of (input : needs_input) : Z := default clock (in_now input).
Definition backup_rows (input : needs_input) : list needs_item :=
  buildBackupItems localeDate (in_backupRows input) (in_isAdmin input) (in_userId input) (now_of input).
Definition phrase_rows (input : needs_input) : list needs_item :=
  match buildPhraseItem (in_backupRows input) (in_check_due input) (in_isAdmin input) (in_userId input) with Some i => [i] | None => [] end.
Definition admin_rows (input : needs_input) : list needs_item := if in_isAdmin input then buildAdminItems input else [].

Lemma build_perm (input : needs_input) : Permutation (build input) (admin_rows input ++ backup_rows input ++ phrase_rows input).
Proof. unfold buildNeedsYouItems. rewrite js_sort_perm. by rewrite <- app_assoc. Qed.

(** *** Who sees what *)

Definition row_of (i : needs_item) : option backup_row := ni_action i ≫= ac_payload.

Lemma drive_item_shape (input : needs_input) (d : drive) (i : needs_item) : i ∈ (drive_items input d).1 ->
  row_of i = None /\ exists p, p ∈ [js "drive-unopenable:"; js "drive-health:"; js "drive-full:"] /\ ni_id i = p ++ dv_id d.
Proof.
  unfold drive_items. intros H.
  assert (D : i = driveUnopenableItem d \/ (exists n, i = driveHealthItem d n) \/ i = driveFullItem d (in_driveSummaries input !! dv_id d)).
  { destruct (isUnopenable d); [cbn in H; apply list_elem_of_singleton in H; by left|]. right.
    assert (F : forall (l : list needs_item), i ∈ l ++ (if isAlmostFull d (in_driveSummaries input !! dv_id d) then [driveFullItem d (in_driveSummaries input !! dv_id d)] else []) ->
      i ∈ l \/ i = driveFullItem d (in_driveSummaries input !! dv_id d)).
    { intros l [Hl|Hl]%elem_of_app; [by left|]. right. destruct (isAlmostFull _ _); [by apply list_elem_of_singleton in Hl | by apply not_elem_of_nil in Hl]. }
    destruct (in_driveHealth input !! dv_id d) as [h|]; [destruct (describeDriveHealth (Some h) ≫= hc_needsYou) as [n|]|];
      cbn [fst] in H; apply F in H as [H|H]; try (by right); try (by apply not_elem_of_nil in H).
    left. apply list_elem_of_singleton in H. by exists n. }
  destruct D as [->|[(n & ->)| ->]]; (split; [done|]); eexists; (split; [|reflexivity]).
  - by left.
  - right. by left.
  - right. right. by left.
Qed.

Lemma check_item_shape (covered : list jstr) (r : bool) (e : jstr * option check) (i : needs_item) : check_item covered r e = Some i ->
  row_of i = None /\ ni_id i = js "check:" ++ e.1.
Proof. destruct e as [name [c|]]; [|done]. unfold check_item. cbv zeta. intros H. repeat case_match; simplify_eq; by split. Qed.

Lemma check_rows_in (input : needs_input) (i : needs_item) : i ∈ check_rows input ->
  row_of i = None /\ exists e, e ∈ default [] (in_systemChecks input) /\ ni_id i = js "check:" ++ e.1.
Proof.
  unfold check_rows, buildSystemCheckItems. rewrite js_sort_perm. intros (e & He & Hi)%list_elem_of_omap. apply check_item_shape in Hi as [H1 H2].
  split; [done|]. by exists e.
Qed.

(** C11: nobody sees what is not theirs.  The list depends on the backups only through the rows the viewer may see - their
    own, and for an Admin everyone's that are not private - and for a viewer who is no Admin on nothing else of Luna than
    those and the reminder; a row that opens a backup opens one of these. *)
Theorem viewer_sees_own (i j : needs_input) :
  in_isAdmin i = in_isAdmin j -> in_userId i = in_userId j -> in_check_due i = in_check_due j -> in_now i = in_now j ->
  visibleBackupRows (in_isAdmin i) (in_userId i) (in_backupRows i) = visibleBackupRows (in_isAdmin j) (in_userId j) (in_backupRows j) ->
  (in_isAdmin i = true -> buildAdminItems i = buildAdminItems j) ->
  build i = build j
  /\ forall item r, item ∈ build i -> row_of item = Some r ->
       r ∈ in_backupRows i /\ (in_userId i <> [] /\ br_created_by r = in_userId i \/ in_isAdmin i = true /\ br_private r = false).
Proof.
  intros Ha Hu Hc Hn Hv Had. split.
  - unfold buildNeedsYouItems, buildBackupItems, buildPhraseItem. rewrite Hv, <- Ha, Hc, Hn, <- Hu in *.
    replace (if in_isAdmin i then buildAdminItems j else []) with (if in_isAdmin i then buildAdminItems i else []); [done|].
    destruct (in_isAdmin i); [by apply Had | done].
  - intros item r. rewrite build_perm, !elem_of_app. intros [H|[H|H]] Hr.
    + exfalso. unfold admin_rows in H. destruct (in_isAdmin i); [|by apply not_elem_of_nil in H]. rewrite admin_parts, !elem_of_app in H.
      destruct H as [H|[H|[H|[H|H]]]].
      * apply in_concat_map in H as (d & _ & H). apply drive_item_shape in H as [H _]. congruence.
      * unfold token_rows in H. destruct (token_error i); [apply list_elem_of_singleton in H; by subst | by apply not_elem_of_nil in H].
      * unfold route_rows in H. destruct (no_route i); [apply list_elem_of_singleton in H; by subst | by apply not_elem_of_nil in H].
      * apply check_rows_in in H as [H _]. congruence.
      * unfold empty_rows in H. case_match; [apply list_elem_of_singleton in H; by subst | by apply not_elem_of_nil in H].
    + unfold backup_rows, buildBackupItems in H. rewrite js_sort_perm in H. apply list_elem_of_fmap in H as (row & -> & H). injection Hr as <-.
      apply list_elem_of_In, filter_In in H as [H _]. apply filter_In in H as [H1 H2]. split; [by apply list_elem_of_In|].
      unfold canSee in H2. destruct (in_isAdmin i); cbn [negb] in H2.
      * apply orb_true_iff in H2 as [[H2%truthy_spec H3%bool_decide_eq_true]%andb_true_iff|H2%negb_true_iff]; [by left | by right].
      * apply andb_true_iff in H2 as [H2%truthy_spec H3%bool_decide_eq_true]. by left.
    + exfalso. unfold phrase_rows in H. destruct (buildPhraseItem _ _ _ _) as [p|] eqn:E; [|by apply not_elem_of_nil in H].
      apply list_elem_of_singleton in H. subst. unfold buildPhraseItem in E. by repeat case_match; simplify_eq.
Qed.

(** *** Ids *)

(** What is told apart by a key stays apart when each key gives several things. *)
Lemma nodup_concat {A B K} (k : A -> K) (f : A -> list B) (l : list A) : (forall a, NoDup (f a)) ->
  (forall a b x, x ∈ f a -> x ∈ f b -> k a = k b) -> NoDup (map k l) -> NoDup (concat (map f l)).
Proof.
  intros Hf Hk. induction l as [|a l IH]; [constructor|]. cbn [map concat]. intros [Ha Hl]%NoDup_cons. apply NoDup_app.
  split_and!; [done | | by apply IH]. intros x Hx (b & Hb & Hxb)%in_concat_map. apply Ha. rewrite (Hk a b x) by done.
  by apply list_elem_of_In, in_map, list_elem_of_In.
Qed.

(** The part of the list an id belongs to. *)
Definition part_of (id : jstr) : nat :=
  if starts_with (js "drive-") id then 1 else if bool_decide (id = js "device-token") then 2 else if bool_decide (id = js "no-route") then 3
  else if starts_with (js "check:") id then 4 else if bool_decide (id = js "no-drives") then 5 else if starts_with (js "backup:") id then 6
  else if bool_decide (id = js "phrase-check") then 7 else 0.

(** What tells drives, checks and backups apart. *)
Record told_apart (input : needs_input) : Prop := {
  ta_drives : NoDup (map dv_id (omap id (in_drives input)));
  ta_checks : NoDup (map fst (default [] (in_systemChecks input)));
  ta_backups : NoDup (map (fun r => (br_kind r, br_id r)) (in_backupRows input));
}.

Definition ids (l : list needs_item) : list jstr := map ni_id l.

Lemma drive_item_ids (input : needs_input) (d : drive) : NoDup (ids (drive_items input d).1).
Proof.
  unfold drive_items. destruct (isUnopenable d); [apply NoDup_singleton|].
  assert (D : js "drive-health:" ++ dv_id d <> js "drive-full:" ++ dv_id d).
  { intros E. apply (f_equal (starts_with (js "drive-full:"))) in E. vm_compute in E. discriminate E. }
  destruct (in_driveHealth input !! dv_id d) as [h|]; [destruct (describeDriveHealth (Some h) ≫= hc_needsYou)|]; destruct (isAlmostFull _ _);
    cbn [fst app ids map ni_id driveHealthItem driveFullItem]; try apply NoDup_singleton; try constructor; try apply NoDup_singleton.
  by intros E%list_elem_of_singleton.
Qed.

Lemma prefix_drive (p q : jstr) (a b : jstr) : p ∈ [js "drive-unopenable:"; js "drive-health:"; js "drive-full:"] ->
  q ∈ [js "drive-unopenable:"; js "drive-health:"; js "drive-full:"] -> p ++ a = q ++ b -> a = b.
Proof.
  rewrite !elem_of_cons, !elem_of_nil. intros Hp Hq E.
  destruct Hp as [->|[->|[->|[]]]], Hq as [->|[->|[->|[]]]]; try (by apply app_inv_head in E); exfalso;
    (apply (f_equal (starts_with (js "drive-unopenable:"))) in E as E1; apply (f_equal (starts_with (js "drive-health:"))) in E as E2;
     vm_compute in E1; vm_compute in E2; discriminate E1 || discriminate E2).
Qed.

Lemma ids_concat {A} (f : A -> list needs_item) (l : list A) : ids (concat (map f l)) = concat (map (fun a => ids (f a)) l).
Proof. unfold ids. by rewrite concat_map, map_map. Qed.

Lemma drive_ids (input : needs_input) : NoDup (map dv_id (omap id (in_drives input))) -> NoDup (ids (drive_rows input)).
Proof.
  intros H. unfold drive_rows. rewrite ids_concat. eapply (nodup_concat dv_id); [| |exact H].
  - apply drive_item_ids.
  - intros a b x (i & -> & Hi)%list_elem_of_fmap (i' & E & Hi')%list_elem_of_fmap.
    apply drive_item_shape in Hi as (_ & p & Hp & Ep). apply drive_item_shape in Hi' as (_ & q & Hq & Eq). eapply prefix_drive; [exact Hp | exact Hq | congruence].
Qed.

Lemma check_ids (input : needs_input) : NoDup (map fst (default [] (in_systemChecks input))) -> NoDup (ids (check_rows input)).
Proof.
  intros H. unfold check_rows, buildSystemCheckItems, ids. rewrite js_sort_perm. revert H. generalize (default [] (in_systemChecks input)) as l.
  induction l as [|e l IH]; [constructor|]. cbn [map omap list_omap]. intros [He Hl]%NoDup_cons.
  destruct (check_item _ _ e) as [i|] eqn:E; [|by apply IH]. cbn [map]. apply NoDup_cons. split; [|by apply IH].
  intros (i' & Ei & (e' & He' & Hi')%list_elem_of_omap)%list_elem_of_fmap. apply check_item_shape in E as [_ E], Hi' as [_ Hi'].
  apply He. rewrite E, Hi' in Ei. apply app_inv_head in Ei. rewrite Ei. by apply list_elem_of_In, in_map, list_elem_of_In.
Qed.

Lemma backup_ids (input : needs_input) : NoDup (map (fun r => (br_kind r, br_id r)) (in_backupRows input)) -> NoDup (ids (backup_rows input)).
Proof.
  intros H. unfold backup_rows, buildBackupItems, ids. rewrite js_sort_perm, map_map. unfold visibleBackupRows. revert H. generalize (in_backupRows input) as l.
  induction l as [|r l IH]; [constructor|]. cbn [map List.filter]. intros [Hr Hl]%NoDup_cons. destruct (canSee _ _ r); [|by apply IH].
  cbn [List.filter]. destruct (needsALook r); [|by apply IH]. cbn [map]. apply NoDup_cons. split; [|by apply IH].
  intros (r' & E & Hin)%list_elem_of_fmap. apply Hr. apply list_elem_of_In, filter_In in Hin as [Hin _]. apply filter_In in Hin as [Hin _].
  cbn [ni_id backupItem] in E. apply app_inv_head in E.
  assert (P : (br_kind r, br_id r) = (br_kind r', br_id r')).
  { destruct (br_kind r), (br_kind r'); cbn [kind_word] in E; try (apply app_inv_head, app_inv_head in E; by rewrite E); exfalso;
      apply (f_equal (starts_with (js "drive"))) in E; vm_compute in E; discriminate E. }
  rewrite P. by apply (in_map (fun r => (br_kind r, br_id r))), list_elem_of_In in Hin.
Qed.

(** The parts in order, each with its number. *)
Definition parts (input : needs_input) : list (nat * list needs_item) :=
  (if in_isAdmin input then [(1, drive_rows input); (2, token_rows input); (3, route_rows input); (4, check_rows input); (5, empty_rows input)] else [])%nat
  ++ [(6, backup_rows input); (7, phrase_rows input)]%nat.

Lemma build_parts (input : needs_input) : Permutation (build input) (concat (map snd (parts input))).
Proof.
  rewrite build_perm. unfold admin_rows, parts. destruct (in_isAdmin input); cbn [app map snd concat]; rewrite ?admin_parts, ?app_nil_r; [|done].
  by rewrite <- !app_assoc.
Qed.

Lemma part_numbers (input : needs_input) (p : nat * list needs_item) (i : needs_item) : p ∈ parts input -> i ∈ p.2 -> part_of (ni_id i) = p.1.
Proof.
  intros Hp. assert (D : p ∈ [(1, drive_rows input); (2, token_rows input); (3, route_rows input); (4, check_rows input); (5, empty_rows input);
    (6, backup_rows input); (7, phrase_rows input)]%nat).
  { unfold parts in Hp. destruct (in_isAdmin input); [done|]. cbn [app] in Hp. do 5 right. done. }
  clear Hp. rewrite !elem_of_cons, elem_of_nil in D. destruct D as [->|[->|[->|[->|[->|[->|[->|[]]]]]]]]; cbn [fst snd].
  - intros (d & _ & Hi)%in_concat_map. apply drive_item_shape in Hi as (_ & q & Hq & ->). rewrite !elem_of_cons, elem_of_nil in Hq.
    by destruct Hq as [->|[->|[->|[]]]].
  - unfold token_rows. destruct (token_error input); [intros ->%list_elem_of_singleton; reflexivity | by intros H%not_elem_of_nil].
  - unfold route_rows. destruct (no_route input); [intros ->%list_elem_of_singleton; reflexivity | by intros H%not_elem_of_nil].
  - intros (_ & e & _ & ->)%check_rows_in. reflexivity.
  - unfold empty_rows. case_match; [intros ->%list_elem_of_singleton; reflexivity | by intros H'%not_elem_of_nil].
  - unfold backup_rows, buildBackupItems. rewrite js_sort_perm. intros (r & -> & _)%list_elem_of_fmap. reflexivity.
  - unfold phrase_rows. destruct (buildPhraseItem _ _ _ _) as [q|] eqn:E; [|by intros H%not_elem_of_nil]. intros ->%list_elem_of_singleton.
    unfold buildPhraseItem in E. by repeat case_match; simplify_eq.
Qed.

Lemma ids_distinct (input : needs_input) : told_apart input -> NoDup (ids (build input)).
Proof.
  intros [H1 H2 H3]. unfold ids. rewrite build_parts, concat_map, map_map.
  assert (P : Forall (fun p => NoDup (ids p.2)) (parts input)).
  { unfold parts. assert (A : Forall (fun p => NoDup (ids p.2)) [(1, drive_rows input); (2, token_rows input); (3, route_rows input); (4, check_rows input); (5, empty_rows input)]%nat).
    { repeat (apply Forall_cons; split); cbn [snd]; [by apply drive_ids | | |by apply check_ids| |constructor].
      - unfold token_rows. destruct (token_error input); [apply NoDup_singleton | constructor].
      - unfold route_rows. destruct (no_route input); [apply NoDup_singleton | constructor].
      - unfold empty_rows. case_match; [apply NoDup_singleton | constructor]. }
    apply Forall_app. split; [by destruct (in_isAdmin input)|]. repeat (apply Forall_cons; split); cbn [snd]; [by apply backup_ids | |constructor].
    unfold phrase_rows. destruct (buildPhraseItem _ _ _ _); [apply NoDup_singleton | constructor]. }
  assert (K : NoDup (map fst (parts input))) by (unfold parts; destruct (in_isAdmin input); apply (bool_decide_unpack _); exact I).
  pose proof (part_numbers input) as N. revert P K N. generalize (parts input) as l. induction l as [|p l IH]; [constructor|].
  intros [Hp Hl]%Forall_cons [Kp Kl]%NoDup_cons N. cbn [map concat]. apply NoDup_app. split_and!; [done| |apply IH; [done..|intros q i Hq; apply N; by right]].
  intros x (i & -> & Hi)%list_elem_of_fmap (q & Hq & Hx)%in_concat_map. apply list_elem_of_fmap in Hx as (i' & E & Hi').
  apply Kp. rewrite <- (N p i) by (done || by left). rewrite E, (N q i') by (done || by right). by apply list_elem_of_In, in_map, list_elem_of_In.
Qed.

(** *** Order *)

Lemma byRank_le (a b : needs_item) : byRankThenId a b <= 0 <->
  ni_rank a < ni_rank b \/ (ni_rank a = ni_rank b /\ (ni_id a = ni_id b \/ unit_ltb (ni_id a) (ni_id b) = true)).
Proof.
  unfold byRankThenId, byId. destruct (Z.eqb_spec (ni_rank a) (ni_rank b)) as [E|E]; cbn [negb]; [|lia].
  case_bool_decide; [naive_solver lia|]. destruct (unit_ltb _ _) eqn:U; naive_solver lia.
Qed.

Lemma build_sorted (input : needs_input) : StronglySorted (fun a b => byRankThenId a b <= 0) (build input).
Proof.
  apply (js_sort_sorted byRankThenId (fun _ => True)); [| |by apply Forall_forall].
  - intros x y _ _. rewrite !byRank_le. destruct (Z.lt_total (ni_rank x) (ni_rank y)) as [H|[H|H]]; [by left; left| |by right; left].
    destruct (unit_ltb_total (ni_id x) (ni_id y)) as [E|[E|E]]; [left|left|right]; right; auto.
  - intros x y z _ _ _. rewrite !byRank_le. intros [H|[H Hi]] [H'|[H' Hi']]; try (left; lia). right. split; [lia|].
    destruct Hi as [->|Hi]; [done|]. destruct Hi' as [<-|Hi']; [by right|]. right. by eapply unit_ltb_trans.
Qed.

(** The same things told in another order. *)
Record same_things (i j : needs_input) : Prop := {
  st_viewer : in_isAdmin i = in_isAdmin j /\ in_userId i = in_userId j /\ in_now i = in_now j;
  st_drives : Permutation (in_drives i) (in_drives j) /\ in_drivesLoading i = in_drivesLoading j /\ in_detected i = in_detected j;
  st_reports : in_driveSummaries i = in_driveSummaries j /\ in_driveHealth i = in_driveHealth j;
  st_checks : Permutation (default [] (in_systemChecks i)) (default [] (in_systemChecks j));
  st_backups : Permutation (in_backupRows i) (in_backupRows j) /\ in_check_due i = in_check_due j;
  st_network : in_device_token_error i = in_device_token_error j /\ in_has_default_route i = in_has_default_route j;
}.

Lemma check_item_covered (c d : list jstr) (r : bool) (e : jstr * option check) : (forall x, x ∈ c <-> x ∈ d) -> check_item c r e = check_item d r e.
Proof.
  intros H. destruct e as [name [k|]]; [|done]. unfold check_item. cbv zeta. destruct (negb _); [done|]. destruct (bool_decide (name ∈ _)); [done|].
  destruct (bool_decide (ck_category k = _)); [done|]. destruct (drive_check "_smart" name); [done|]. destruct (bool_decide _ && r); [done|].
  destruct (drive_check "_read_write" name); [|done]. destruct (ck_details k ≫= cd_drive_label); [|done]. by rewrite (bool_decide_ext _ _ (H _)).
Qed.

Lemma drive_items_same (i j : needs_input) (d : drive) : in_driveSummaries i = in_driveSummaries j -> in_driveHealth i = in_driveHealth j ->
  drive_items i d = drive_items j d.
Proof. intros H1 H2. unfold drive_items. by rewrite H1, H2. Qed.

Lemma rows_perm (i j : needs_input) : same_things i j -> Permutation (build i) (build j).
Proof.
  intros [(A1 & A2 & A3) (B1 & B2 & B3) (C1 & C2) D (E1 & E2) (F1 & F2)]. rewrite !build_perm.
  assert (B : Permutation (omap id (in_drives i)) (omap id (in_drives j))) by by rewrite B1.
  assert (Dr : Permutation (drive_rows i) (drive_rows j)).
  { unfold drive_rows. rewrite (map_ext _ _ (fun d => f_equal fst (drive_items_same i j d C1 C2))). by apply concat_perm, Permutation_map. }
  assert (Cv : forall x, x ∈ covered_labels i <-> x ∈ covered_labels j).
  { intros x. unfold covered_labels. rewrite !in_concat_map.
    split; intros (d & Hd & Hx); exists d; [rewrite <- B, <- (drive_items_same i j d C1 C2) | rewrite B, (drive_items_same i j d C1 C2)]; done. }
  assert (Ch : Permutation (check_rows i) (check_rows j)).
  { unfold check_rows, buildSystemCheckItems. rewrite !js_sort_perm. unfold no_route. rewrite F2.
    rewrite (omap_ext_in _ _ (default [] (in_systemChecks i)) (fun e => check_item_covered _ _ _ e Cv)). by rewrite D. }
  assert (Bk : Permutation (backup_rows i) (backup_rows j)).
  { unfold backup_rows, buildBackupItems, visibleBackupRows, now_of. rewrite !js_sort_perm, A1, A2, A3. apply Permutation_map. by do 2 apply filter_perm. }
  assert (Ph : phrase_rows i = phrase_rows j).
  { unfold phrase_rows, buildPhraseItem, visibleBackupRows. rewrite A1, A2, E2. by rewrite (existsb_perm _ _ _ (filter_perm _ _ _ E1)). }
  rewrite Bk, Ph. apply Permutation_app_tail. unfold admin_rows. rewrite A1. destruct (in_isAdmin j); [|done]. rewrite !admin_parts, Dr, Ch.
  unfold token_rows, token_error, route_rows, no_route, empty_rows. by rewrite F1, F2, B2, B3, (Permutation_length B1).
Qed.

(** The list has an order of its own: rows are told apart by their ids, the more urgent come first and equals by id, so
    that the same drives, checks and backups in any order give the same list. *)
Theorem list_is_determined (i j : needs_input) : told_apart i -> same_things i j ->
  NoDup (ids (build i)) /\ StronglySorted (fun a b => ni_rank a <= ni_rank b) (build i) /\ build i = build j.
Proof.
  intros Ht Hs. pose proof (ids_distinct i Ht) as Hd. pose proof (build_sorted i) as S. split_and!; [done| |].
  - eapply sorted_impl; [|exact S]. intros x y. rewrite byRank_le. lia.
  - eapply StronglySorted_unique_strong; [|exact S|apply build_sorted|by apply rows_perm]. intros x y Hx Hy H1 H2.
    rewrite <- (rows_perm i j Hs) in Hy. assert (E : ni_id x = ni_id y).
    { rewrite byRank_le in H1, H2. destruct H1 as [H1|(H1 & [?|U1])], H2 as [H2|(H2 & [?|U2])]; try lia; try done.
      apply unit_ltb_asym in U1. congruence. }
    clear -Hd Hx Hy E. revert Hd Hx Hy. generalize (build i) as l. unfold ids. induction l as [|a l IH]; [by intros _ H%not_elem_of_nil|].
    cbn [map]. intros [Ha Hl]%NoDup_cons [->|Hx]%elem_of_cons [->|Hy]%elem_of_cons; [done| | |by apply IH]; exfalso; apply Ha;
      [rewrite E | rewrite <- E]; by apply list_elem_of_In, in_map, list_elem_of_In.
Qed.

End Facts.

(** *** A dashboard *)
Module NeedsSample.
Definition backup (id owner : string) (private : bool) : backup_row :=
  drive_row {| ab_id := js id; ab_private := private; ab_source_path := []; ab_source_name := js id; ab_target_drive_name := Some (js "Big");
               ab_status := js "active"; ab_state := js "failing"; ab_last_ok_at := 0; ab_last_error := Some (js "Drive full."); ab_created_by := js owner;
               ab_last_checked_at := None; ab_check_problem := None; ab_source_missing := false; ab_hard := false |}.
Definition a_drive (id label : string) : drive :=
  {| dv_id := js id; dv_label := js label; dv_state := js "as_is"; dv_mounted := Some false; dv_locked := false; dv_converting := false; dv_encrypted := false |}.
Definition failed (label : option jstr) : check :=
  {| ck_status := js "failed"; ck_message := None; ck_category := Some (js "drives");
     ck_details := Some {| cd_folder := None; cd_target_drive := None; cd_drive_label := label |} |}.
Definition dashboard (admin : bool) (drives : list (option drive)) (rows : list backup_row) : needs_input :=
  {| in_isAdmin := admin; in_userId := js "ana"; in_drives := drives; in_drivesLoading := false; in_driveSummaries := ∅; in_driveHealth := ∅;
     in_systemChecks := Some [(js "drive_d1_read_write", Some (failed (Some (js "USB")))); (js "clock", Some (failed None))];
     in_backupRows := rows; in_check_due := false; in_device_token_error := None; in_has_default_route := Some false; in_detected := 0; in_now := Some 0 |}.
Definition mine : backup_row := backup "b1" "ana" false.
Definition theirs : backup_row := backup "b2" "ben" true.
Definition i1 : needs_input := dashboard true [Some (a_drive "d1" "USB"); Some (a_drive "d2" "Old")] [mine; theirs].
Definition i2 : needs_input := dashboard true [Some (a_drive "d2" "Old"); Some (a_drive "d1" "USB")] [theirs; mine].
Definition dates : Z -> jstr := fun _ => js "Mar 4".
End NeedsSample.
Import NeedsSample.

Lemma viewer_sees_own_witness :
  buildNeedsYouItems dates 0 (dashboard false [] [mine; theirs]) = buildNeedsYouItems dates 0 (dashboard false [Some (a_drive "d1" "USB")] [mine])
  /\ ids (buildNeedsYouItems dates 0 (dashboard false [] [mine; theirs])) = [js "backup:drive:b1"].
Proof.
  split; [|vm_compute; reflexivity].
  exact (proj1 (viewer_sees_own dates 0 (dashboard false [] [mine; theirs]) (dashboard false [Some (a_drive "d1" "USB")] [mine])
    eq_refl eq_refl eq_refl eq_refl ltac:(vm_compute; reflexivity) ltac:(intros H; discriminate H))).
Defined.

Lemma list_is_determined_witness :
  buildNeedsYouItems dates 0 i1 = buildNeedsYouItems dates 0 i2
  /\ ids (buildNeedsYouItems dates 0 i1) = [js "drive-unopenable:d1"; js "drive-unopenable:d2"; js "backup:drive:b1"; js "no-route"].
Proof.
  split; [|vm_compute; reflexivity].
  assert (T : told_apart i1) by (split; apply (bool_decide_unpack _); vm_compute; exact I).
  assert (S : same_things i1 i2).
  { split; try (split; [reflexivity | split; reflexivity]); try (split; reflexivity); try reflexivity.
    - split; [apply perm_swap | split; reflexivity].
    - split; [apply perm_swap | reflexivity]. }
  exact (proj2 (proj2 (list_is_determined dates 0 i1 i2 T S))).
Defined.

