(* ===== verification/Base64.v ===== *)
(** * Base64: [atob], [btoa] and the two helpers of [luna/web/src/lib/cloudPhrase.js]

    The platform's forgiving decoder and its encoder, on code units, and the conversions between
    byte arrays and base64 text built on them. *)

From S2P Require Import Prelude JsString Bytes.

(** ** The alphabet *)

(** The character of a sextet, and back. *)
Definition b64_char (v : Z) : N :=
  Z.to_N (if v <? 26 then 65 + v else if v <? 52 then 71 + v else if v <? 62 then v - 4
          else if v =? 62 then 43 else 47).

Definition b64_value (c : N) : option Z :=
  if (65 <=? c)%N && (c <=? 90)%N then Some (Z.of_N c - 65)
  else if (97 <=? c)%N && (c <=? 122)%N then Some (Z.of_N c - 71)
  else if is_digit c then Some (Z.of_N c + 4)
  else if (c =? 43)%N then Some 62 else if (c =? 47)%N then Some 63 else None.

Definition c_equals : N := 61.

(** ** [btoa] *)

Fixpoint b64_encode (b : bytes) : jstr :=
  match b with
  | [] => []
  | [x] => [b64_char (x / 4); b64_char (x mod 4 * 16); c_equals; c_equals]
  | [x; y] => [b64_char (x / 4); b64_char (x mod 4 * 16 + y / 16); b64_char (y mod 16 * 4); c_equals]
  | x :: y :: z :: b =>
      b64_char (x / 4) :: b64_char (x mod 4 * 16 + y / 16) :: b64_char (y mod 16 * 4 + z / 64)
        :: b64_char (z mod 64) :: b64_encode b
  end.

(** ** [atob] *)

Definition ascii_space (c : N) : bool := existsb (N.eqb c) [9; 10; 12; 13; 32]%N.

(** One or two [=] at the end of a text whose length is a multiple of four. *)
Definition strip_padding (s : jstr) : jstr :=
  if Nat.eqb (Nat.modulo (length s) 4) 0 then
    match rev s with
    | c :: d :: r => if (c =? c_equals)%N then rev (if (d =? c_equals)%N then r else d :: r) else s
    | _ => s
    end
  else s.

Fixpoint b64_decode (l : list Z) : option bytes :=
  match l with
  | [] => Some []
  | [_] => None
  | [a; b] => Some [a * 4 + b / 16]
  | [a; b; c] => Some [a * 4 + b / 16; b mod 16 * 16 + c / 4]
  | a :: b :: c :: d :: l =>
      rest ← b64_decode l;
      Some (a * 4 + b / 16 :: b mod 16 * 16 + c / 4 :: c mod 4 * 64 + d :: rest)
  end.

Definition atob (s : jstr) : option bytes :=
  let s := strip_padding (List.filter (fun c => negb (ascii_space c)) s) in
  mapM b64_value s ≫= b64_decode.

(** ** The helpers *)

Definition toBase64 (b : bytes) : jstr := b64_encode b.

Definition InvalidCharacterError : error := EError (js "InvalidCharacterError").

Definition base64_bytes (text : jstr) : thrown bytes :=
  match atob text with Some b => Ok b | None => Err InvalidCharacterError end.

(** [fromBase64(text)]: [atob] takes the argument's string. *)
Definition fromBase64 `{JsText} (text : value) : thrown bytes :=
  s ← to_string text; base64_bytes s.

(** ** Laws *)

Definition is_sextet (v : Z) : Prop := 0 <= v < 64.

Lemma b64_value_char (v : Z) : is_sextet v -> b64_value (b64_char v) = Some v.
Proof.
  intros Hv. assert (Hall : forallb (fun v => match b64_value (b64_char v) with
    | Some w => w =? v | None => false end) (seqZ 0 64) = true) by reflexivity.
  rewrite forallb_forall in Hall. specialize (Hall v).
  assert (Hin : In v (seqZ 0 64)) by (apply list_elem_of_In, elem_of_seqZ; unfold is_sextet in Hv; lia).
  specialize (Hall Hin). destruct (b64_value (b64_char v)) as [w|]; [f_equal; by apply Z.eqb_eq | done].
Qed.

Lemma b64_char_plain (v : Z) : is_sextet v ->
  ascii_space (b64_char v) = false /\ (b64_char v =? c_equals)%N = false.
Proof.
  intros Hv. assert (Hall : forallb (fun v => negb (ascii_space (b64_char v) || (b64_char v =? c_equals)%N))
    (seqZ 0 64) = true) by reflexivity.
  rewrite forallb_forall in Hall. specialize (Hall v).
  apply orb_false_iff, negb_true_iff, Hall, list_elem_of_In, elem_of_seqZ. unfold is_sextet in Hv; lia.
Qed.

(** The sextets of an encoding, and its padding. *)
Fixpoint sextets (b : bytes) : list Z :=
  match b with
  | [] => []
  | [x] => [x / 4; x mod 4 * 16]
  | [x; y] => [x / 4; x mod 4 * 16 + y / 16; y mod 16 * 4]
  | x :: y :: z :: b => x / 4 :: x mod 4 * 16 + y / 16 :: y mod 16 * 4 + z / 64 :: z mod 64 :: sextets b
  end.

Fixpoint padding (b : bytes) : jstr :=
  match b with
  | [] => []
  | [_] => [c_equals; c_equals]
  | [_; _] => [c_equals]
  | _ :: _ :: _ :: b => padding b
  end.

Lemma triples_ind {A} (P : list A -> Prop) :
  P [] -> (forall x, P [x]) -> (forall x y, P [x; y]) ->
  (forall x y z l, P l -> P (x :: y :: z :: l)) -> forall l, P l.
Proof.
  intros H0 H1 H2 H3. fix IH 1. intros [|x [|y [|z l]]]; [done | apply H1 | apply H2 | apply H3, IH].
Qed.

Lemma b64_encode_split (b : bytes) : b64_encode b = map b64_char (sextets b) ++ padding b.
Proof.
  induction b as [|x|x y|x y z b IH] using triples_ind; [done..|]. cbn [b64_encode sextets padding map app].
  by rewrite IH.
Qed.

Lemma octet_sextets (b : bytes) : octets b -> Forall is_sextet (sextets b).
Proof.
  unfold octets, is_octet, is_sextet.
  induction b as [|x|x y|x y z b IH] using triples_ind; intros H; rewrite ?Forall_cons in H;
    destruct_and?; cbn [sextets]; repeat (apply Forall_cons; split); try (apply Forall_nil_2 || (by apply IH));
    Z.div_mod_to_equations; lia.
Qed.

Lemma decode_sextets (b : bytes) : octets b -> b64_decode (sextets b) = Some b.
Proof.
  unfold octets, is_octet.
  induction b as [|x|x y|x y z b IH] using triples_ind; intros H; rewrite ?Forall_cons in H;
    destruct_and?; cbn [sextets b64_decode]; [done| | |rewrite IH by done; cbn [mbind option_bind]];
    repeat f_equal; Z.div_mod_to_equations; lia.
Qed.

(** The sizes: a multiple of four, and padding only after something. *)
Lemma padding_shape (b : bytes) :
  Nat.modulo (length (sextets b ++ map Z.of_N (padding b))) 4 = 0%nat
  /\ (padding b = [] \/ exists s v, sextets b = s ++ [v]
      /\ (padding b = [c_equals] \/ padding b = [c_equals; c_equals])).
Proof.
  induction b as [|x|x y|x y z b [IH1 IH2]] using triples_ind; cbn [sextets padding].
  - split; [done | by left].
  - split; [done|]. right. exists [x / 4]. eexists. split; [done | by right].
  - split; [done|]. right. exists [x / 4; x mod 4 * 16 + y / 16]. eexists. split; [done | by left].
  - split.
    { etrans; [|exact IH1].
      rewrite <- (Nat.Div0.mod_add (length (sextets b ++ map Z.of_N (padding b))) 1 4).
      apply (f_equal (fun n => Nat.modulo n 4)). cbn [app length]. lia. }
    destruct IH2 as [?|(s & v & -> & ?)]; [by left|right].
    eexists (_ :: _ :: _ :: _ :: s), v. done.
Qed.

Lemma strip_encode (b : bytes) : octets b ->
  strip_padding (map b64_char (sextets b) ++ padding b) = map b64_char (sextets b).
Proof.
  intros Hb. destruct (padding_shape b) as [Hlen Hpad]. unfold strip_padding.
  rewrite length_app, length_map in Hlen |- *. rewrite Hlen. cbn [Nat.eqb].
  rewrite rev_app_distr. apply octet_sextets in Hb. destruct Hpad as [->|(s & v & Hs & Hp)].
  - rewrite app_nil_r. cbn [rev app]. destruct (sextets b) as [|w l _] eqn:E using rev_ind; [done|].
    rewrite map_app, rev_app_distr. apply Forall_app in Hb as [_ Hw%Forall_inv].
    cbn [map rev app]. destruct (rev (map b64_char l)) eqn:El; [done|]. simpl.
    by rewrite (proj2 (b64_char_plain w Hw)).
  - rewrite Hs, map_app, rev_app_distr in *. apply Forall_app in Hb as [_ Hw%Forall_inv].
    cbn [map rev app] in *. pose proof (proj2 (b64_char_plain v Hw)) as Hne.
    destruct Hp as [-> | ->]; cbn [rev app]; change ((c_equals =? c_equals)%N) with true; cbn [rev];
      rewrite ?Hne; cbn [rev]; by rewrite rev_involutive.
Qed.

Lemma atob_encode (b : bytes) : octets b -> atob (b64_encode b) = Some b.
Proof.
  intros Hb. unfold atob. rewrite b64_encode_split. pose proof (octet_sextets b Hb) as Hs.
  assert (Hf : forall s : jstr, Forall (fun c => ascii_space c = false) s ->
    List.filter (fun c => negb (ascii_space c)) s = s).
  { intros s Hall. induction Hall as [|c s Hc _ IH]; [done|]. cbn [List.filter]. by rewrite Hc, IH. }
  rewrite Hf; [rewrite strip_encode by done|].
  - enough (mapM b64_value (map b64_char (sextets b)) = Some (sextets b)) as -> by by apply decode_sextets.
    apply mapM_Some. induction Hs as [|v l Hv _ IH]; constructor; [by apply b64_value_char | done].
  - apply Forall_app. split.
    + apply Forall_map. eapply Forall_impl; [exact Hs|]. intros v Hv. by apply b64_char_plain.
    + destruct (padding_shape b) as [_ [->|(? & ? & _ & [-> | ->])]]; by repeat constructor.
Qed.

Lemma fromBase64_toBase64 `{JsText} (b : bytes) : octets b -> fromBase64 (Some (JStr (toBase64 b))) = Ok b.
Proof. intros Hb. unfold fromBase64, base64_bytes, toBase64. cbn. by rewrite atob_encode. Qed.

Lemma octet_of_sextets (a b : Z) : is_sextet a -> is_sextet b ->
  is_octet (a * 4 + b / 16) /\ is_octet (a mod 16 * 16 + b / 4) /\ is_octet (a mod 4 * 64 + b).
Proof. unfold is_sextet, is_octet. intros. Z.div_mod_to_equations. lia. Qed.

Lemma b64_decode_octets (l : list Z) : Forall is_sextet l -> forall b, b64_decode l = Some b -> octets b.
Proof.
  unfold octets. revert l. fix IH 1. intros [|x [|y [|z [|w l]]]] Hl b; cbn [b64_decode];
    rewrite ?Forall_cons in Hl; destruct_and?; intros Hd.
  - simplify_eq. constructor.
  - done.
  - simplify_eq. repeat (apply Forall_cons; split); try apply Forall_nil_2. by apply octet_of_sextets.
  - simplify_eq. repeat (apply Forall_cons; split); try apply Forall_nil_2; by apply octet_of_sextets.
  - destruct (b64_decode l) as [rest|] eqn:E; [|done]. cbn in Hd. simplify_eq.
    repeat (apply Forall_cons; split); try (by apply octet_of_sextets). by apply (IH l).
Qed.

Lemma b64_value_sextet (c : N) (v : Z) : b64_value c = Some v -> is_sextet v.
Proof.
  unfold b64_value, is_digit, is_sextet. intros H. repeat case_match; simplify_eq;
    repeat match goal with E : _ && _ = true |- _ => apply andb_true_iff in E as [?%N.leb_le ?%N.leb_le] end; lia.
Qed.

Lemma fromBase64_octets `{JsText} (v : value) (b : bytes) : fromBase64 v = Ok b -> octets b.
Proof.
  unfold fromBase64, base64_bytes. intros (s & _ & Hs)%bind_ok. destruct (atob s) as [x|] eqn:E; [|done].
  injection Hs as ->. unfold atob in E. apply bind_Some in E as (l & Hl & Hd). eapply b64_decode_octets; [|done].
  apply mapM_Some in Hl. clear Hd. induction Hl as [|c v' ? ? Hc _ IH]; constructor; [by eapply b64_value_sextet | done].
Qed.

Example atob_padding : atob (js "AQ==") = Some [1] /\ atob (js " AQ I ") = Some [1; 2] /\ atob (js "A") = None.
Proof. vm_compute. done. Qed.
Example atob_null : atob (js "null") = Some [158; 233; 101].
Proof. vm_compute. done. Qed.

(** Decoding never grows. *)
Lemma b64_decode_length (l : list Z) : forall b, b64_decode l = Some b -> (length b <= length l)%nat.
Proof.
  revert l. fix IH 1. intros [|x [|y [|z [|w l]]]] b; cbn [b64_decode]; intros Hd; simplify_eq; cbn; try lia.
  destruct (b64_decode l) as [rest|] eqn:E; [|done]. cbn in Hd. simplify_eq. apply IH in E. cbn. lia.
Qed.

Lemma strip_padding_length (s : jstr) : (length (strip_padding s) <= length s)%nat.
Proof.
  unfold strip_padding. destruct (Nat.eqb _ _); [|done]. destruct (rev s) as [|c [|d r]] eqn:E; [done..|].
  assert (Hl : length s = S (S (length r))) by (rewrite <- length_rev, E; done).
  destruct (c =? c_equals)%N; [|done]. destruct (d =? c_equals)%N; rewrite length_rev; cbn; lia.
Qed.

Lemma base64_bytes_length (s : jstr) (b : bytes) : base64_bytes s = Ok b -> (length b <= length s)%nat.
Proof.
  unfold base64_bytes, atob. intros H. destruct (mapM b64_value _) as [l|] eqn:E; [|done]. cbn in H.
  destruct (b64_decode l) as [x|] eqn:Hd; [|done]. injection H as ->. apply b64_decode_length in Hd.
  apply length_mapM in E. pose proof (strip_padding_length (List.filter (fun c => negb (ascii_space c)) s)).
  pose proof (List.filter_length_le (fun c => negb (ascii_space c)) s). lia.
Qed.
