(* ===== verification/BackupCrypto.v ===== *)
(** * Cloud backup crypto: [shared/ui/lib/cloud/backupCrypto.js]

    How the backup format uses its primitives: the layouts of sealed and encrypted data, the checks
    around them, the signed bytes and the canonical encoding of fields.  The primitives themselves
    (the noble packages and [@scure/bip39]) are operations of the class [Noble]; wiping a local
    array with [fill(0)] does not change a result and is left out here. *)

From S2P Require Import Prelude JsString Bytes.

(** ** The libraries *)

Record key_pair := { kp_secret : bytes; kp_public : bytes }.

Class Noble := {
  (* @noble/hashes *)
  utf8ToBytes : jstr -> bytes;
  concatBytes : list bytes -> bytes;
  bytesToHex : bytes -> jstr;
  hexToBytes : jstr -> thrown bytes;
  sha256 : bytes -> bytes;
  hmac_sha256 : bytes -> bytes -> bytes;
  hkdf_sha256 : bytes -> option bytes -> bytes -> nat -> bytes;
  (* @noble/ciphers: [xchacha20poly1305(key, nonce, aad)] *)
  xchacha_encrypt : bytes -> bytes -> bytes -> bytes -> thrown bytes;
  xchacha_decrypt : bytes -> bytes -> bytes -> bytes -> thrown bytes;
  (* @noble/curves *)
  x25519_getPublicKey : bytes -> thrown bytes;
  x25519_getSharedSecret : bytes -> bytes -> thrown bytes;
  ed25519_getPublicKey : bytes -> thrown bytes;
  ed25519_sign : bytes -> bytes -> thrown bytes;
  ed25519_verify : bytes -> bytes -> bytes -> thrown bool;
  (* @noble/post-quantum; an encapsulation is a ciphertext and a shared secret *)
  mlkem_keygen : bytes -> thrown key_pair;
  mlkem_encapsulate : bytes -> bytes -> thrown (bytes * bytes);
  mlkem_decapsulate : bytes -> bytes -> thrown bytes;
  mldsa_keygen : bytes -> thrown key_pair;
  mldsa_sign : bytes -> bytes -> thrown bytes;
  mldsa_verify : bytes -> bytes -> bytes -> thrown bool;
  (* @scure/bip39, with its English word list *)
  entropyToMnemonic : bytes -> thrown jstr;
  mnemonicToEntropy : jstr -> thrown bytes;
  wordlist : list jstr;
  (* [String.prototype.toLowerCase] beyond ASCII *)
  toLowerCase : jstr -> jstr;
}.

Definition throw {A} (message : string) : thrown A := Err (EError (js message)).

(** ** Lengths *)

Definition ED_PUBLIC_LEN : Z := 32.
Definition MLDSA_PUBLIC_LEN : Z := 1952.
Definition ED_SIG_LEN : Z := 64.
Definition MLDSA_SIG_LEN : Z := 3309.
Definition SIG_PUBLIC_LEN : Z := ED_PUBLIC_LEN + MLDSA_PUBLIC_LEN.
Definition SIG_LEN : Z := ED_SIG_LEN + MLDSA_SIG_LEN.
Definition NONCE_LEN : Z := 24.
Definition TAG_LEN : Z := 16.
Definition X25519_LEN : Z := 32.
Definition MLKEM_PUBLIC_LEN : Z := 1184.
Definition MLKEM_CT_LEN : Z := 1088.
Definition MLKEM_SEED_LEN : Z := 64.
Definition SEAL_PUBLIC_LEN : Z := X25519_LEN + MLKEM_PUBLIC_LEN.
Definition SEAL_SECRET_LEN : Z := X25519_LEN + MLKEM_SEED_LEN.

Record user_keys := {
  uk_sealSecret : bytes; uk_sealPublic : bytes; uk_selfKey : bytes;
  uk_authSecret : bytes; uk_authPublic : bytes;
}.

Section Crypto.
Context `{Noble}.

(** ** Labels *)

Definition DERIVE_SALT : bytes := utf8ToBytes (js "luna-backup-v1").
Definition SIG_PREFIX : bytes := utf8ToBytes (js "luna-sig-v2" ++ [0%N]).
Definition MLDSA_SEED_INFO : bytes := utf8ToBytes (js "luna-mldsa-v1").
Definition SEAL_INFO : bytes := utf8ToBytes (js "luna-seal-v2").
Definition SCOPE_X25519_INFO : bytes := utf8ToBytes (js "luna-scope-x25519-v1").
Definition SCOPE_MLKEM_INFO : bytes := utf8ToBytes (js "luna-scope-mlkem-v1").

Definition cat (parts : list bytes) : bytes := concatBytes parts.

(** ** Key derivation *)

Definition deriveInfo (label : bytes) (lunaId : jstr) : bytes := cat [label; [0]; utf8ToBytes lunaId].

Definition hkdf32 (ikm : bytes) (salt : option bytes) (info : bytes) : bytes :=
  hkdf_sha256 ikm salt info 32.

Definition mlkemKeys (seed : bytes) : thrown key_pair := mlkem_keygen seed.

(** The clamping of an X25519 secret. *)
Definition clamp (secret : bytes) : bytes :=
  alter (fun b => Z.lor b 64) 31%nat (alter (fun b => Z.land b 127) 31%nat
    (alter (fun b => Z.land b 248) 0%nat secret)).

Definition sealPairFrom (x25519Secret mlkemSeed : bytes) : thrown key_pair :=
  let secret := clamp x25519Secret in
  let sealSecret := cat [secret; mlkemSeed] in
  xPublic ← x25519_getPublicKey secret;
  mlkem ← mlkemKeys mlkemSeed;
  Ok {| kp_secret := sealSecret; kp_public := cat [xPublic; kp_public mlkem] |}.

Definition mldsaKeys (seed : bytes) : thrown key_pair :=
  mldsa_keygen (hkdf32 seed None MLDSA_SEED_INFO).

Definition signerPublic (seed : bytes) : thrown bytes :=
  edPublic ← ed25519_getPublicKey seed;
  mldsa ← mldsaKeys seed;
  Ok (cat [edPublic; kp_public mldsa]).

Definition derive (entropy : bytes) (lunaId : jstr) : thrown user_keys :=
  if negb (len entropy =? 16) && negb (len entropy =? 32)
  then throw "Recovery phrase entropy must be 16 or 32 bytes."
  else
    let x25519Secret := hkdf32 entropy (Some DERIVE_SALT) (deriveInfo (utf8ToBytes (js "x25519")) lunaId) in
    let mlkemSeed := hkdf_sha256 entropy (Some DERIVE_SALT)
                       (deriveInfo (utf8ToBytes (js "mlkem")) lunaId) (Z.to_nat MLKEM_SEED_LEN) in
    pair ← sealPairFrom x25519Secret mlkemSeed;
    let selfKey := hkdf32 entropy (Some DERIVE_SALT) (deriveInfo (utf8ToBytes (js "self")) lunaId) in
    let authSecret := hkdf32 entropy (Some DERIVE_SALT) (deriveInfo (utf8ToBytes (js "auth")) lunaId) in
    authPublic ← signerPublic authSecret;
    Ok {| uk_sealSecret := kp_secret pair; uk_sealPublic := kp_public pair; uk_selfKey := selfKey;
          uk_authSecret := authSecret; uk_authPublic := authPublic |}.

Definition scopeKeysFromSeed (seed : bytes) : thrown key_pair :=
  if negb (len seed =? 32) then throw "Scope seed must be 32 bytes."
  else
    let x25519Secret := hkdf32 seed (Some DERIVE_SALT) SCOPE_X25519_INFO in
    let mlkemSeed := hkdf_sha256 seed (Some DERIVE_SALT) SCOPE_MLKEM_INFO (Z.to_nat MLKEM_SEED_LEN) in
    sealPairFrom x25519Secret mlkemSeed.

(** ** Authenticated encryption *)

Definition aeadEncrypt (key nonce aad msg : bytes) : thrown bytes := xchacha_encrypt key nonce aad msg.
Definition aeadDecrypt (key nonce aad body : bytes) : thrown bytes := xchacha_decrypt key nonce aad body.

Definition encryptWith (key nonce aad msg : bytes) : thrown bytes :=
  body ← aeadEncrypt key nonce aad msg; Ok (cat [nonce; body]).

(** [randomBytes(n)] is what the platform draws: [draw k n] for the [k]-th draw of a call. *)
Definition encrypt (draw : nat -> Z -> bytes) (key aad msg : bytes) : thrown bytes :=
  encryptWith key (draw 0%nat NONCE_LEN) aad msg.

Definition decrypt (key aad sealed : bytes) : thrown bytes :=
  if len sealed <? NONCE_LEN + TAG_LEN then throw "This encrypted data is too short to be valid."
  else
    let nonce := byte_slice 0 NONCE_LEN sealed in
    catching (aeadDecrypt key nonce aad (slice_after NONCE_LEN sealed)) (fun _ =>
      throw "This encrypted data could not be opened. It was changed, or the key is wrong.").

(** ** Sealing to a public key *)

Definition sealKey (sharedX sharedK ephPublic recipientPublic mlkemCt : bytes) : bytes :=
  let info := cat [SEAL_INFO; ephPublic; byte_slice 0 X25519_LEN recipientPublic; mlkemCt;
                   sha256 (slice_after X25519_LEN recipientPublic)] in
  hkdf32 (cat [sharedX; sharedK]) None info.

Definition sharedSecret (secret publicKey : bytes) : option bytes :=
  to_option (x25519_getSharedSecret secret publicKey).

Definition bad_public_key : string := "This recovery key is not valid. Set up the recovery phrase again.".

Definition checkPublicKey (publicKey : bytes) : thrown unit :=
  if negb (len publicKey =? SEAL_PUBLIC_LEN) then throw bad_public_key
  else
    match sharedSecret (replicate 32 0x42) (byte_slice 0 X25519_LEN publicKey) with
    | None => throw bad_public_key
    | Some _ =>
        match mlkem_encapsulate (slice_after X25519_LEN publicKey) (replicate 32 0) with
        | Err _ => throw bad_public_key
        | Ok _ => Ok tt
        end
    end.

Definition sealWith (ephSecret m nonce recipientPublic aad msg : bytes) : thrown bytes :=
  _ ← checkPublicKey recipientPublic;
  ephPublic ← x25519_getPublicKey ephSecret;
  match sharedSecret ephSecret (byte_slice 0 X25519_LEN recipientPublic) with
  | None => throw "This sealed copy is not valid."
  | Some sharedX =>
      '(cipherText, sharedK) ← mlkem_encapsulate (slice_after X25519_LEN recipientPublic) m;
      let key := sealKey sharedX sharedK ephPublic recipientPublic cipherText in
      body ← aeadEncrypt key nonce aad msg;
      Ok (cat [ephPublic; cipherText; nonce; body])
  end.

Definition seal (draw : nat -> Z -> bytes) (recipientPublic aad msg : bytes) : thrown bytes :=
  sealWith (draw 0%nat 32) (draw 1%nat 32) (draw 2%nat NONCE_LEN) recipientPublic aad msg.

Definition open_head : Z := X25519_LEN + MLKEM_CT_LEN + NONCE_LEN.

Definition open (secret aad sealed : bytes) : thrown bytes :=
  if len sealed <? open_head + TAG_LEN then throw "This sealed copy is too short to be valid."
  else if negb (len secret =? SEAL_SECRET_LEN) then throw "This recovery key is not valid."
  else
    let ephPublic := byte_slice 0 X25519_LEN sealed in
    let mlkemCt := byte_slice X25519_LEN (X25519_LEN + MLKEM_CT_LEN) sealed in
    let nonce := byte_slice (X25519_LEN + MLKEM_CT_LEN) open_head sealed in
    let body := slice_after open_head sealed in
    let xSecret := byte_slice 0 X25519_LEN secret in
    mlkem ← mlkemKeys (slice_after X25519_LEN secret);
    xPublic ← x25519_getPublicKey xSecret;
    let recipientPublic := cat [xPublic; kp_public mlkem] in
    match sharedSecret xSecret ephPublic with
    | None => throw "This sealed copy is not valid."
    | Some sharedX =>
        sharedK ← mlkem_decapsulate mlkemCt (kp_secret mlkem);
        let key := sealKey sharedX sharedK ephPublic recipientPublic mlkemCt in
        catching (aeadDecrypt key nonce aad body) (fun _ =>
          throw "This sealed copy could not be opened. It was changed, or it was sealed to a different key.")
    end.

(** ** Signatures *)

Definition signedBytes (domain : jstr) (msg : bytes) : bytes :=
  cat [SIG_PREFIX; utf8ToBytes domain; [0]; msg].

Definition sign (seed : bytes) (domain : jstr) (msg : bytes) : thrown bytes :=
  let signed := signedBytes domain msg in
  keys ← mldsaKeys seed;
  mldsa ← mldsa_sign signed (kp_secret keys);
  ed ← ed25519_sign signed seed;
  Ok (cat [ed; mldsa]).

Definition verify (publicKey : bytes) (domain : jstr) (msg sig : bytes) : bool :=
  if negb (len publicKey =? SIG_PUBLIC_LEN) || negb (len sig =? SIG_LEN) then false
  else
    let signed := signedBytes domain msg in
    match
      edOk ← ed25519_verify (byte_slice 0 ED_SIG_LEN sig) signed (byte_slice 0 ED_PUBLIC_LEN publicKey);
      mldsaOk ← mldsa_verify (slice_after ED_SIG_LEN sig) signed (slice_after ED_PUBLIC_LEN publicKey);
      Ok (edOk && mldsaOk)
    with
    | Ok ok => ok
    | Err _ => false
    end.

(** ** Ids and the canonical encoding *)

Definition chunkId (dedupKey chunk : bytes) : bytes := hmac_sha256 dedupKey chunk.
Definition packId (ciphertext : bytes) : bytes := sha256 ciphertext.

Definition lengthPrefixed (b : bytes) : bytes := cat [be 4 (len b); b].

Definition canonical (fields : list (jstr * bytes)) : bytes :=
  cat (flat_map (fun '(name, value) => [lengthPrefixed (utf8ToBytes name); lengthPrefixed value]) fields).

(** ** Recovery phrases *)

Definition word_count (l : list jstr) : jstr := js_of_Z (Z.of_nat (length l)).

Definition phraseToEntropy (words : jstr) : thrown bytes :=
  let lst := map toLowerCase (List.filter truthy (split_spaces words)) in
  if negb (Z.of_nat (length lst) =? 12) && negb (Z.of_nat (length lst) =? 24)
  then Err (EError (js "Your recovery phrase has " ++ word_count lst ++ js " words. It needs 12 or 24."))
  else
    match List.find (fun w => negb (bool_decide (w ∈ wordlist))) lst with
    | Some word => Err (EError (js "That word isn't on the recovery phrase list: " ++ word))
    | None =>
        let invalid := Err (EError (js "These " ++ word_count lst
          ++ js " words don't form a valid recovery phrase. Check each word.")) in
        match mnemonicToEntropy (join [c_space] lst) with
        | Ok entropy => if (len entropy =? 16) || (len entropy =? 32) then Ok entropy else invalid
        | Err _ => invalid
        end
    end.

Definition entropyToPhrase (entropy : bytes) : thrown jstr := entropyToMnemonic entropy.

Definition newEntropy (draw : nat -> Z -> bytes) (words : Z) : thrown bytes :=
  if negb (words =? 12) && negb (words =? 24) then throw "A recovery phrase has 12 or 24 words."
  else Ok (draw 0%nat (if words =? 24 then 32 else 16)).
End Crypto.
