(* ===== verification/CryptoFacts.v ===== *)
(** * Cloud backup crypto: properties

    What the code relies on of its libraries, as classes of laws, and what follows for the layouts:
    sealed and encrypted data open again, signatures verify, and signed bytes determine the domain
    and the fields they cover. *)

From S2P Require Import Prelude JsString Utf8 Bytes BackupCrypto.

(** ** Laws of the libraries *)

(** @noble/hashes: concatenation, UTF-8, hexadecimal, digest lengths. *)
Class NobleBytes `{Noble} := {
  concat_law : forall parts, concatBytes parts = concat parts;
  utf8_law : forall s, utf8ToBytes s = map Z.of_N (utf8_encode s);
  hex_back : forall b, octets b -> hexToBytes (bytesToHex b) = Ok b;
  hex_octets : forall s b, hexToBytes s = Ok b -> octets b;
  hex_length : forall b, length (bytesToHex b) = (2 * length b)%nat;
  sha256_octets : forall b, octets (sha256 b);
  sha256_len : forall b, len (sha256 b) = 32;
  hkdf_len : forall ikm salt info n, length (hkdf_sha256 ikm salt info n) = n;
}.

(** XChaCha20-Poly1305 opens what it sealed, X25519 agrees, ML-KEM decapsulates, and the lengths. *)
Class NobleSeal `{Noble} := {
  aead_correct : forall key nonce aad msg body, xchacha_encrypt key nonce aad msg = Ok body ->
    xchacha_decrypt key nonce aad body = Ok msg /\ len body = len msg + TAG_LEN;
  x25519_public_len : forall s p, x25519_getPublicKey s = Ok p -> len p = X25519_LEN;
  x25519_agree : forall a pa b pb, x25519_getPublicKey a = Ok pa -> x25519_getPublicKey b = Ok pb ->
    x25519_getSharedSecret a pb = x25519_getSharedSecret b pa;
  mlkem_public_len : forall seed k, mlkem_keygen seed = Ok k -> len (kp_public k) = MLKEM_PUBLIC_LEN;
  mlkem_correct : forall seed k m ct ss, mlkem_keygen seed = Ok k ->
    mlkem_encapsulate (kp_public k) m = Ok (ct, ss) ->
    mlkem_decapsulate ct (kp_secret k) = Ok ss /\ len ct = MLKEM_CT_LEN;
}.

(** Both signature schemes accept what they signed. *)
Class NobleSign `{Noble} := {
  ed25519_correct : forall seed pub msg sig, ed25519_getPublicKey seed = Ok pub ->
    ed25519_sign msg seed = Ok sig ->
    ed25519_verify sig msg pub = Ok true /\ len sig = ED_SIG_LEN /\ len pub = ED_PUBLIC_LEN;
  mldsa_correct : forall seed k msg sig, mldsa_keygen seed = Ok k ->
    mldsa_sign msg (kp_secret k) = Ok sig ->
    mldsa_verify sig msg (kp_public k) = Ok true /\ len sig = MLDSA_SIG_LEN
    /\ len (kp_public k) = MLDSA_PUBLIC_LEN;
}.

(** ** Encodings *)

Section Encodings.
Context `{NB : NobleBytes}.

Lemma utf8ToBytes_inj (s t : jstr) :
  well_formed s -> well_formed t -> utf8ToBytes s = utf8ToBytes t -> s = t.
Proof.
  rewrite !utf8_law. intros Hs Ht E. apply utf8_encode_inj; [done..|].
  revert E. generalize (utf8_encode s), (utf8_encode t).
  intros l. induction l as [|x l IH]; intros [|y r] E; [done..|].
  injection E as E1 E2. f_equal; [lia | by apply IH].
Qed.

Lemma bytesToHex_inj (a b : bytes) : octets a -> octets b -> bytesToHex a = bytesToHex b -> a = b.
Proof. intros Ha Hb E. apply hex_back in Ha, Hb. rewrite E in Ha. congruence. Qed.

Lemma lengthPrefixed_eq (b : bytes) : lengthPrefixed b = be 4 (len b) ++ b.
Proof. unfold lengthPrefixed, cat. rewrite concat_law. cbn [concat]. by rewrite app_nil_r. Qed.

Lemma lengthPrefixed_inj (a b r r' : bytes) : len a < 2 ^ 32 -> len b < 2 ^ 32 ->
  lengthPrefixed a ++ r = lengthPrefixed b ++ r' -> a = b /\ r = r'.
Proof.
  rewrite !lengthPrefixed_eq, <- !app_assoc. intros Ha Hb E.
  apply app_inj_1 in E as [E1 E2]; [|by rewrite !be_length].
  apply be_mod in E1. change (256 ^ Z.of_nat 4) with (2 ^ 32) in E1.
  rewrite !Z.mod_small in E1 by (pose proof (len_nonneg a); pose proof (len_nonneg b); lia).
  apply app_inj_1 in E2; [done | unfold len in E1; lia].
Qed.

(** What [canonical] can carry without loss: a name that is well formed, sizes below 4 GiB. *)
Definition field_ok (f : jstr * bytes) : Prop :=
  well_formed f.1 /\ len (utf8ToBytes f.1) < 2 ^ 32 /\ len f.2 < 2 ^ 32.

Lemma canonical_cons (n : jstr) (v : bytes) (fs : list (jstr * bytes)) :
  canonical ((n, v) :: fs) = lengthPrefixed (utf8ToBytes n) ++ lengthPrefixed v ++ canonical fs.
Proof. unfold canonical, cat. rewrite !concat_law. done. Qed.

Lemma canonical_nil : canonical [] = [].
Proof. unfold canonical, cat. by rewrite concat_law. Qed.

Lemma canonical_inj (fs gs : list (jstr * bytes)) :
  Forall field_ok fs -> Forall field_ok gs -> canonical fs = canonical gs -> fs = gs.
Proof.
  intros Hf. revert gs. induction Hf as [|[n v] fs (Hn & Hnl & Hv) Hf IH]; intros [|[n' v'] gs] Hg E.
  - done.
  - rewrite canonical_nil, canonical_cons, lengthPrefixed_eq in E. discriminate E.
  - rewrite canonical_nil, canonical_cons, lengthPrefixed_eq in E. discriminate E.
  - apply Forall_cons in Hg as [(Hn' & Hnl' & Hv') Hg]. rewrite !canonical_cons in E. cbn [fst snd] in *.
    apply lengthPrefixed_inj in E as [E1 E]; [|done..].
    apply lengthPrefixed_inj in E as [-> E]; [|done..].
    apply utf8ToBytes_inj in E1 as ->; [|done..]. f_equal. by apply IH.
Qed.

Lemma zero_ends (a b r r' : bytes) :
  ~ In 0 a -> ~ In 0 b -> a ++ 0 :: r = b ++ 0 :: r' -> a = b /\ r = r'.
Proof.
  revert b. induction a as [|x a IH]; intros [|y b] Ha Hb E; cbn in *;
    injection E as ?; subst; [done | tauto | tauto |].
  destruct (IH b) as [-> ->]; tauto || done.
Qed.

Lemma signedBytes_inj (d d' : jstr) (m m' : bytes) :
  well_formed d -> well_formed d' -> ~ In 0 (utf8ToBytes d) -> ~ In 0 (utf8ToBytes d') ->
  signedBytes d m = signedBytes d' m' -> d = d' /\ m = m'.
Proof.
  unfold signedBytes, cat. rewrite !concat_law. cbn [concat]. rewrite !app_nil_r. cbn [app].
  intros Hd Hd' Hz Hz' E. apply app_inv_head in E. apply zero_ends in E as [E ->]; [|done..].
  by apply utf8ToBytes_inj in E as ->.
Qed.
End Encodings.

(** ** Layouts *)

Section Layouts.
Context `{NB : NobleBytes} {NS : NobleSeal}.

Lemma cat_app (parts : list bytes) : cat parts = concat parts.
Proof. apply concat_law. Qed.

Lemma decrypt_encryptWith (key nonce aad msg sealed : bytes) : len nonce = NONCE_LEN ->
  encryptWith key nonce aad msg = Ok sealed -> decrypt key aad sealed = Ok msg.
Proof.
  unfold encryptWith, aeadEncrypt. intros Hn (body & Hb & [= <-])%bind_ok.
  apply aead_correct in Hb as [Hd Hl]. unfold decrypt. rewrite cat_app. cbn [concat]. rewrite app_nil_r.
  rewrite len_app, Hn, Hl. destruct (Z.ltb_spec (NONCE_LEN + (len msg + TAG_LEN)) (NONCE_LEN + TAG_LEN)) as [Hlt|_].
  { pose proof (len_nonneg msg). unfold NONCE_LEN, TAG_LEN in *. lia. }
  pose proof (byte_slice_app [] nonce body) as E1. pose proof (slice_after_app nonce body) as E2.
  change (len []) with 0 in E1. rewrite Hn in E1, E2. cbn [app] in E1. cbv zeta.
  change (0 + NONCE_LEN) with NONCE_LEN in E1. rewrite E1, E2. unfold aeadDecrypt. by rewrite Hd.
Qed.

Lemma clamp_len (x : bytes) : len (clamp x) = len x.
Proof. unfold clamp, len. by rewrite !length_alter. Qed.

(** The two halves of a key pair made by [sealPairFrom]. *)
Lemma sealPairFrom_parts (x seed : bytes) (pair : key_pair) : len x = X25519_LEN ->
  sealPairFrom x seed = Ok pair ->
  exists pub mlkem, x25519_getPublicKey (clamp x) = Ok pub /\ mlkem_keygen seed = Ok mlkem
    /\ kp_secret pair = clamp x ++ seed /\ kp_public pair = pub ++ kp_public mlkem
    /\ len pub = X25519_LEN /\ len (kp_public mlkem) = MLKEM_PUBLIC_LEN.
Proof.
  unfold sealPairFrom, mlkemKeys. intros Hx (pub & Hp & (mlkem & Hm & [= <-])%bind_ok)%bind_ok.
  exists pub, mlkem. cbn [kp_secret kp_public]. rewrite !cat_app. cbn [concat]. rewrite !app_nil_r.
  split_and!; try done; [by eapply x25519_public_len | by eapply mlkem_public_len].
Qed.

Lemma slice_head (a b : bytes) (n : Z) : len a = n -> byte_slice 0 n (a ++ b) = a.
Proof. intros <-. pose proof (byte_slice_app [] a b) as E. exact E. Qed.

Lemma slice_tail (a b : bytes) (n : Z) : len a = n -> slice_after n (a ++ b) = b.
Proof. intros <-. apply slice_after_app. Qed.

Lemma open_sealWith (x seed eph m nonce aad msg sealed : bytes) (pair : key_pair) :
  len x = X25519_LEN -> len seed = MLKEM_SEED_LEN -> len nonce = NONCE_LEN ->
  sealPairFrom x seed = Ok pair ->
  sealWith eph m nonce (kp_public pair) aad msg = Ok sealed ->
  open (kp_secret pair) aad sealed = Ok msg.
Proof.
  intros Hx Hs Hn Hpair. destruct (sealPairFrom_parts x seed pair Hx Hpair)
    as (pub & mlkem & Hpub & Hkem & Esec & Epub & Lpub & Lkem).
  unfold sealWith. rewrite Epub. rewrite (slice_head pub _ _ Lpub), (slice_tail pub _ _ Lpub).
  intros (? & _ & (ephPub & Heph & Hrest)%bind_ok)%bind_ok. unfold sharedSecret in *.
  destruct (x25519_getSharedSecret eph pub) as [sharedX|] eqn:Hsh; cbn [to_option] in Hrest; [|done].
  apply bind_ok in Hrest as ([ct sharedK] & Henc & (body & Hbody & [= <-])%bind_ok).
  destruct (mlkem_correct _ _ _ _ _ Hkem Henc) as [Hdec Lct].
  apply aead_correct in Hbody as [Hopen Lbody]. pose proof (x25519_public_len _ _ Heph) as Leph.
  rewrite cat_app. cbn [concat]. rewrite app_nil_r. unfold open.
  assert (Lhead : len (ephPub ++ ct ++ nonce) = open_head)
    by (rewrite !len_app, Leph, Lct, Hn; reflexivity).
  rewrite !len_app, Leph, Lct, Hn, Lbody.
  destruct (Z.ltb_spec (X25519_LEN + (MLKEM_CT_LEN + (NONCE_LEN + (len msg + TAG_LEN)))) (open_head + TAG_LEN)).
  { pose proof (len_nonneg msg). unfold open_head, X25519_LEN, MLKEM_CT_LEN, NONCE_LEN, TAG_LEN in *. lia. }
  rewrite Esec, len_app, clamp_len, Hx, Hs. change (X25519_LEN + MLKEM_SEED_LEN =? SEAL_SECRET_LEN) with true.
  cbn [negb]. cbv zeta. rewrite !(slice_head (clamp x)), !(slice_tail (clamp x)) by (by rewrite clamp_len).
  rewrite (slice_head ephPub) by done. unfold mlkemKeys. rewrite Hkem, Hpub. cbn [mbind result_bind].
  pose proof (byte_slice_app ephPub ct (nonce ++ body)) as E1. rewrite Leph, Lct in E1. rewrite E1.
  pose proof (byte_slice_app (ephPub ++ ct) nonce body) as E2. rewrite len_app, Leph, Lct, Hn, <- app_assoc in E2.
  change (X25519_LEN + MLKEM_CT_LEN + NONCE_LEN) with open_head in E2. rewrite E2.
  pose proof (slice_tail _ body _ Lhead) as E3. rewrite <- !app_assoc in E3. rewrite E3.
  unfold sharedSecret. rewrite (x25519_agree _ _ _ _ Hpub Heph), Hsh. cbn [to_option]. rewrite Hdec. cbn [mbind result_bind].
  rewrite cat_app. cbn [concat]. rewrite app_nil_r. unfold aeadDecrypt, aeadEncrypt in *. by rewrite Hopen.
Qed.

Lemma hkdf_32 (ikm : bytes) (salt : option bytes) (info : bytes) : len (hkdf32 ikm salt info) = 32.
Proof. unfold hkdf32, len. by rewrite hkdf_len. Qed.

Lemma derive_pair (entropy : bytes) (lunaId : jstr) (uk : user_keys) :
  derive entropy lunaId = Ok uk ->
  exists x seed pair, len x = X25519_LEN /\ len seed = MLKEM_SEED_LEN /\ sealPairFrom x seed = Ok pair
    /\ uk_sealSecret uk = kp_secret pair /\ uk_sealPublic uk = kp_public pair
    /\ signerPublic (uk_authSecret uk) = Ok (uk_authPublic uk).
Proof.
  unfold derive. destruct (negb (len entropy =? 16) && negb (len entropy =? 32)); [done|].
  cbv zeta. intros (pair & Hp & (pub & Hs & [= <-])%bind_ok)%bind_ok.
  do 3 eexists. split_and!; [| | exact Hp | done | done | exact Hs].
  - apply hkdf_32.
  - unfold len. by rewrite hkdf_len.
Qed.

Lemma scope_pair (seed : bytes) (pair : key_pair) :
  scopeKeysFromSeed seed = Ok pair ->
  exists x s, len x = X25519_LEN /\ len s = MLKEM_SEED_LEN /\ sealPairFrom x s = Ok pair.
Proof.
  unfold scopeKeysFromSeed. destruct (negb (len seed =? 32)); [done|]. cbv zeta. intros Hp.
  do 2 eexists. split_and!; [| | exact Hp]; [apply hkdf_32 | unfold len; by rewrite hkdf_len].
Qed.
End Layouts.

Section Signing.
Context `{NB : NobleBytes} {NS : NobleSign}.

Lemma verify_sign (seed pub msg sig : bytes) (domain : jstr) :
  signerPublic seed = Ok pub -> sign seed domain msg = Ok sig -> verify pub domain msg sig = true.
Proof.
  unfold signerPublic, sign. cbv zeta.
  intros (edPub & Hed & (k & Hk & [= <-])%bind_ok)%bind_ok.
  intros (k' & Hk' & (mld & Hml & (ed & Hsig & [= <-])%bind_ok)%bind_ok)%bind_ok.
  rewrite Hk in Hk'. injection Hk' as <-. unfold mldsaKeys in Hk.
  destruct (ed25519_correct _ _ _ _ Hed Hsig) as (V1 & L1 & L1').
  destruct (mldsa_correct _ _ _ _ Hk Hml) as (V2 & L2 & L2').
  unfold verify, cat. rewrite !concat_law. cbn [concat]. rewrite !app_nil_r, !len_app, L1, L1', L2, L2'.
  change (negb (ED_PUBLIC_LEN + MLDSA_PUBLIC_LEN =? SIG_PUBLIC_LEN)) with false.
  change (negb (ED_SIG_LEN + MLDSA_SIG_LEN =? SIG_LEN)) with false. cbn [orb]. cbv zeta.
  rewrite (slice_head ed), (slice_head edPub), (slice_tail ed), (slice_tail edPub) by done.
  rewrite V1. cbn [mbind result_bind]. by rewrite V2.
Qed.
End Signing.

(** The secret and the public half of a recovery phrase's sealing key, or of a scope's. *)
Inductive sealing_keys `{Noble} : bytes -> bytes -> Prop :=
| keys_of_phrase entropy lunaId uk : derive entropy lunaId = Ok uk ->
    sealing_keys (uk_sealSecret uk) (uk_sealPublic uk)
| keys_of_scope seed pair : scopeKeysFromSeed seed = Ok pair ->
    sealing_keys (kp_secret pair) (kp_public pair).

Lemma seal_open `{NB : NobleBytes} {NS : NobleSeal} (secret public aad msg sealed : bytes) (draw : nat -> Z -> bytes) :
  (forall k n, 0 <= n -> len (draw k n) = n) ->
  sealing_keys secret public -> seal draw public aad msg = Ok sealed -> open secret aad sealed = Ok msg.
Proof.
  intros Hdraw Hkeys Hseal. assert (Hpair : exists x s pair, len x = X25519_LEN /\ len s = MLKEM_SEED_LEN
    /\ sealPairFrom x s = Ok pair /\ secret = kp_secret pair /\ public = kp_public pair).
  { destruct Hkeys as [? ? ? (x & s & pair & ? & ? & ? & ? & ? & _)%derive_pair
      | ? pair (x & s & ? & ? & ?)%scope_pair]; exists x, s, pair; split_and!; congruence. }
  destruct Hpair as (x & s & pair & Hx & Hs & Hp & -> & ->).
  eapply (open_sealWith x s); [done | done | | exact Hp | exact Hseal]. by apply Hdraw.
Qed.

(** ** Theorems *)

(** sealed copies open.  What [seal] makes for the public key of a recovery phrase or of a scope,
    whatever the random bytes drawn, [open] with the secret key returns; and [decrypt] returns what
    [encrypt] was given under the same key and associated data. *)
Theorem sealed_copies_open `{NB : NobleBytes} {NS : NobleSeal}
    (secret public aad msg sealed : bytes) (draw : nat -> Z -> bytes) :
  (forall k n, 0 <= n -> len (draw k n) = n) ->
  (sealing_keys secret public -> seal draw public aad msg = Ok sealed -> open secret aad sealed = Ok msg)
  /\ (forall key, encrypt draw key aad msg = Ok sealed -> decrypt key aad sealed = Ok msg).
Proof.
  intros Hdraw. split; [by apply seal_open|].
  intros key. apply decrypt_encryptWith. by apply Hdraw.
Qed.

(** A signature speaks for one purpose and one list of fields.  If two signed messages are the same
    bytes, their domains are the same and so are their fields, name by name and value by value. *)
Theorem signed_bytes_determine_fields `{NB : NobleBytes} (d d' : jstr) (fs gs : list (jstr * bytes)) :
  well_formed d -> well_formed d' -> ~ In 0 (utf8ToBytes d) -> ~ In 0 (utf8ToBytes d') ->
  Forall field_ok fs -> Forall field_ok gs ->
  signedBytes d (canonical fs) = signedBytes d' (canonical gs) -> d = d' /\ fs = gs.
Proof.
  intros Hd Hd' Hz Hz' Hf Hg [-> E]%signedBytes_inj; [|done..]. split; [done|]. by apply canonical_inj.
Qed.

(** ** An instance

    Not a cipher: functions with the shapes and the laws above, so that statements can be run. *)

Module Toy.
Definition pad (n : nat) (b : bytes) : bytes := take n (b ++ replicate n 0).
Definition tag (key : bytes) : bytes := replicate 16 (nth 0 key 0 mod 256).

Definition hex_digit (d : Z) : N := if d <? 10 then Z.to_N (48 + d) else Z.to_N (87 + d).
Definition to_hex (b : bytes) : jstr := flat_map (fun x => [hex_digit (x / 16); hex_digit (x mod 16)]) b.

Definition hex_value (c : N) : option Z :=
  let z := Z.of_N c in
  if (48 <=? z) && (z <=? 57) then Some (z - 48)
  else if (97 <=? z) && (z <=? 102) then Some (z - 87)
  else if (65 <=? z) && (z <=? 70) then Some (z - 55) else None.

Fixpoint of_hex (s : jstr) : thrown bytes :=
  match s with
  | [] => Ok []
  | [_] => throw "hex string expected"
  | h :: l :: r =>
      match hex_value h, hex_value l with
      | Some x, Some y => t ← of_hex r; Ok (x * 16 + y :: t)
      | _, _ => throw "hex string expected"
      end
  end.

Definition encrypt (key nonce aad msg : bytes) : thrown bytes := Ok (msg ++ tag key).
Definition decrypt (key nonce aad body : bytes) : thrown bytes :=
  let n := (length body - 16)%nat in
  if bool_decide (drop n body = tag key) then Ok (take n body) else throw "invalid tag".

#[export] Instance noble : Noble := {
  utf8ToBytes s := map Z.of_N (utf8_encode s);
  concatBytes parts := concat parts;
  bytesToHex := to_hex;
  hexToBytes := of_hex;
  sha256 b := replicate 32 (foldl Z.add 0 b mod 256);
  hmac_sha256 k b := pad 32 b;
  hkdf_sha256 ikm salt info n := pad n ikm;
  xchacha_encrypt := encrypt;
  xchacha_decrypt := decrypt;
  x25519_getPublicKey s := Ok (pad 32 s);
  x25519_getSharedSecret a p := Ok (zip_with Z.lxor (pad 32 a) p);
  ed25519_getPublicKey s := Ok (pad 32 s);
  ed25519_sign msg seed := Ok (pad 64 msg);
  ed25519_verify sig msg pub := Ok (bool_decide (sig = pad 64 msg));
  mlkem_keygen seed := Ok {| kp_secret := seed; kp_public := pad 1184 seed |};
  mlkem_encapsulate pub m := Ok (pad 1088 m, take 32 (pad 1088 m));
  mlkem_decapsulate ct sk := Ok (take 32 ct);
  mldsa_keygen seed := Ok {| kp_secret := seed; kp_public := pad 1952 seed |};
  mldsa_sign msg sk := Ok (pad 3309 msg);
  mldsa_verify sig msg pub := Ok (bool_decide (sig = pad 3309 msg));
  entropyToMnemonic e := Ok (js "word");
  mnemonicToEntropy s := Ok (replicate 16 0);
  wordlist := [js "word"];
  toLowerCase := to_lower;
}.

Lemma pad_length (n : nat) (b : bytes) : length (pad n b) = n.
Proof. unfold pad. rewrite length_take, length_app, length_replicate. lia. Qed.

Lemma pad_len (n : nat) (b : bytes) : len (pad n b) = Z.of_nat n.
Proof. unfold len. by rewrite pad_length. Qed.

Lemma hex_value_digit (d : Z) : 0 <= d < 16 -> hex_value (hex_digit d) = Some d.
Proof.
  intros Hd. unfold hex_digit, hex_value. destruct (Z.ltb_spec d 10).
  - rewrite Z2N.id by lia. destruct (Z.leb_spec 48 (48 + d)), (Z.leb_spec (48 + d) 57); try lia.
    cbn [andb]. f_equal. lia.
  - rewrite Z2N.id by lia. destruct (Z.leb_spec (87 + d) 57); [lia|]. rewrite andb_false_r.
    destruct (Z.leb_spec 97 (87 + d)), (Z.leb_spec (87 + d) 102); try lia. cbn [andb]. f_equal. lia.
Qed.

Lemma of_hex_to_hex (b : bytes) : octets b -> of_hex (to_hex b) = Ok b.
Proof.
  induction 1 as [|x b Hx Hb IH]; [done|]. unfold is_octet in Hx. cbn [to_hex flat_map app of_hex].
  rewrite !hex_value_digit by (try apply Z.mod_pos_bound; Z.div_mod_to_equations; lia).
  fold (to_hex b). rewrite IH. cbn [mbind result_bind]. do 2 f_equal.
  pose proof (Z.div_mod x 16 ltac:(lia)). lia.
Qed.

Lemma hex_value_range (c : N) (x : Z) : hex_value c = Some x -> 0 <= x < 16.
Proof.
  unfold hex_value. cbv zeta.
  repeat match goal with |- context [?a <=? ?b] => destruct (Z.leb_spec a b) end; cbn [andb];
    intros [= <-]; lia.
Qed.

Lemma of_hex_octets (s : jstr) : forall b, of_hex s = Ok b -> octets b.
Proof.
  induction s as [s IH] using (induction_ltof1 _ (@length N)); unfold ltof in IH.
  destruct s as [|h [|l r]]; intros b; cbn [of_hex]; [by intros [= <-]; constructor | done|].
  destruct (hex_value h) as [x|] eqn:Hx; [|done]. destruct (hex_value l) as [y|] eqn:Hy; [|done].
  intros (t & Ht & [= <-])%bind_ok. apply hex_value_range in Hx, Hy.
  constructor; [unfold is_octet; lia|]. apply (IH r); [simpl; lia | done].
Qed.

#[export] Instance noble_bytes : NobleBytes.
Proof.
  split; cbn; try done.
  - apply of_hex_to_hex.
  - intros s b. apply of_hex_octets.
  - intros b. unfold to_hex. induction b as [|x b IH]; [done|]. cbn [flat_map app length]. lia.
  - intros b. repeat constructor; by apply Z.mod_pos_bound.
  - intros. apply pad_length.
Qed.

#[export] Instance noble_seal : NobleSeal.
Proof.
  split; cbn.
  - unfold encrypt, decrypt. intros key nonce aad msg body [= <-]. rewrite length_app.
    change (length (tag key)) with 16%nat. rewrite Nat.add_sub, drop_app_length, take_app_length.
    rewrite bool_decide_eq_true_2 by done. split; [done|]. by rewrite len_app.
  - intros s p [= <-]. apply pad_len.
  - intros a pa b pb [= <-] [= <-]. f_equal. generalize (pad 32 a), (pad 32 b).
    intros l. induction l as [|x l IH]; intros [|y r]; cbn; [done..|]. by rewrite Z.lxor_comm, IH.
  - intros seed k [= <-]. apply pad_len.
  - intros seed k m ct ss [= <-] [= <- <-]. split; [done | apply pad_len].
Qed.

#[export] Instance noble_sign : NobleSign.
Proof.
  split; cbn.
  - intros seed pub msg sig [= <-] [= <-]. rewrite bool_decide_eq_true_2 by done.
    split_and!; [done | apply pad_len..].
  - intros seed k msg sig [= <-] [= <-]. rewrite bool_decide_eq_true_2 by done.
    split_and!; [done | apply pad_len..].
Qed.
End Toy.

#[local] Existing Instances Toy.noble Toy.noble_bytes Toy.noble_seal Toy.noble_sign.

Lemma sealed_copies_open_witness :
  exists uk sealed, derive (replicate 16 9) (js "luna") = Ok uk
    /\ seal (fun _ n => replicate (Z.to_nat n) 5) (uk_sealPublic uk) [1] [10; 20; 30] = Ok sealed
    /\ open (uk_sealSecret uk) [1] sealed = Ok [10; 20; 30].
Proof.
  do 2 eexists. split; [vm_compute; reflexivity|]. split; [vm_compute; reflexivity|].
  eapply (sealed_copies_open (NB := Toy.noble_bytes) (NS := Toy.noble_seal) _ _ [1] [10; 20; 30] _
            (fun _ n => replicate (Z.to_nat n) 5)).
  - intros k n Hn. unfold len. rewrite length_replicate. lia.
  - apply (keys_of_phrase (replicate 16 9) (js "luna")). vm_compute. reflexivity.
  - vm_compute. reflexivity.
Defined.

Lemma signed_bytes_determine_fields_witness :
  signedBytes (js "snapshot") (canonical [(js "a", [1; 2])])
  = signedBytes (js "snapshot") (canonical [(js "a", [1; 2])])
  /\ [(js "a", [1; 2])] = [(js "a", [1; 2])].
Proof.
  split; [reflexivity|].
  pose proof ascii_well_formed as Hw.
  assert (Hf : Forall field_ok [(js "a", [1; 2])]).
  { constructor; [|constructor]. split; [by apply Hw | by split]. }
  assert (Hz : ~ In 0 (utf8ToBytes (js "snapshot"))) by (vm_compute; intuition discriminate).
  apply (signed_bytes_determine_fields (NB := Toy.noble_bytes) (js "snapshot") (js "snapshot")
           [(js "a", [1; 2])] [(js "a", [1; 2])]); [by apply Hw | by apply Hw | done | done | done | done | done].
Defined.
