(* ===== verification/Buffers.v ===== *)
(** * Buffers that are wiped

    Arrays that hold keys or plain text are cells of a heap: a computation reads, allocates and
    clears them, may throw, and keeps the heap as the throw left it. *)

From S2P Require Import Prelude JsString Bytes.

(** An opened pack is an object of the heap too: its two arrays, its table of chunks (the closure's
    [entries]) and its [disposed] flag. *)
Record pack := {
  pk_scopeId : nat;
  pk_body : nat;
  pk_entries : gmap jstr (Z * Z);
  pk_disposed : bool;
}.

#[export] Instance eta_pack : Settable pack :=
  fun p => {| pk_scopeId := pk_scopeId p; pk_body := pk_body p; pk_entries := pk_entries p;
              pk_disposed := pk_disposed p |}.

Record heap := { h_bufs : list bytes; h_packs : list pack }.

#[export] Instance eta_heap : Settable heap :=
  fun h => {| h_bufs := h_bufs h; h_packs := h_packs h |}.

Definition buffers (A : Type) : Type := heap -> thrown A * heap.

#[export] Instance buffers_ret : MRet buffers := fun A a h => (Ok a, h).
#[export] Instance buffers_bind : MBind buffers := fun A B f m h =>
  match m h with
  | (Ok a, h) => f a h
  | (Err e, h) => (Err e, h)
  end.
#[export] Instance buffers_fmap : FMap buffers := fun A B f m h =>
  match m h with
  | (Ok a, h) => (Ok (f a), h)
  | (Err e, h) => (Err e, h)
  end.

Definition lift {A} (r : thrown A) : buffers A := fun h => (r, h).
Definition throwing {A} (message : jstr) : buffers A := lift (Err (EError message)).

(** [try { m } finally { c }], for a [c] that does not throw. *)
Definition finally {A} (m : buffers A) (c : buffers unit) : buffers A := fun h =>
  let '(r, h) := m h in (r, (c h).2).

(** [try { m } catch (e) { f(e) }] *)
Definition catch {A} (m : buffers A) (f : error -> buffers A) : buffers A := fun h =>
  match m h with
  | (Err e, h) => f e h
  | ok => ok
  end.

(** The cleanup of a [finally] that runs only when its block did not reach its end. *)
Definition unless_done {A} (m : buffers A) (c : buffers unit) : buffers A := fun h =>
  match m h with
  | (Err e, h) => (Err e, (c h).2)
  | ok => ok
  end.

(** A fresh array; its contents; [fill(0)]. *)
Definition alloc (b : bytes) : buffers nat := fun h =>
  (Ok (length (h_bufs h)), h <| h_bufs ::= fun l => l ++ [b] |>).
Definition read_buf (p : nat) : buffers bytes := fun h => (Ok (default [] (h_bufs h !! p)), h).
Definition zeros (b : bytes) : bytes := replicate (length b) 0.
Definition fill0 (p : nat) : buffers unit := fun h => (Ok tt, h <| h_bufs ::= alter zeros p |>).

Definition new_pack (p : pack) : buffers nat := fun h =>
  (Ok (length (h_packs h)), h <| h_packs ::= fun l => l ++ [p] |>).
Definition get_pack (i : nat) : buffers (option pack) := fun h => (Ok (h_packs h !! i), h).
Definition set_pack (i : nat) (p : pack) : buffers unit := fun h =>
  (Ok tt, h <| h_packs ::= <[i := p]> |>).

Definition empty_heap : heap := {| h_bufs := []; h_packs := [] |}.

(** A heap whose packs share no array, and whose disposed packs are cleared. *)
Definition pack_arrays (p : pack) : list nat := [pk_scopeId p; pk_body p].

Record heap_ok (h : heap) : Prop := {
  ho_apart : NoDup (flat_map pack_arrays (h_packs h));
  ho_bound : Forall (fun i => i < length (h_bufs h))%nat (flat_map pack_arrays (h_packs h));
  ho_cleared : forall p pk i b, h_packs h !! p = Some pk -> pk_disposed pk = true ->
    i ∈ pack_arrays pk -> h_bufs h !! i = Some b -> Forall (fun x => x = 0) b;
}.

(** ** Laws *)

Lemma empty_heap_ok : heap_ok empty_heap.
Proof. split; [constructor | constructor | done]. Qed.

Lemma bind_run {A B} (m : buffers A) (f : A -> buffers B) (h h' : heap) (b : B) :
  (m ≫= f) h = (Ok b, h') <-> exists a h1, m h = (Ok a, h1) /\ f a h1 = (Ok b, h').
Proof.
  unfold mbind, buffers_bind. destruct (m h) as [[a|e] h1].
  - split; [eauto | by intros (? & ? & [= <- <-] & ?)].
  - split; [done | by intros (? & ? & ? & ?)].
Qed.

Lemma bind_ran {A B} (m : buffers A) (f : A -> buffers B) (h h1 : heap) (a : A) :
  m h = (Ok a, h1) -> (m ≫= f) h = f a h1.
Proof. unfold mbind, buffers_bind. by intros ->. Qed.

Lemma finally_run {A} (m : buffers A) (c : buffers unit) (h h1 : heap) (r : thrown A) :
  m h = (r, h1) -> finally m c h = (r, (c h1).2).
Proof. unfold finally. by intros ->. Qed.

Lemma bind_err {A B} (m : buffers A) (f : A -> buffers B) (h h' : heap) (e : error) :
  (m ≫= f) h = (Err e, h') ->
  m h = (Err e, h') \/ exists a h1, m h = (Ok a, h1) /\ f a h1 = (Err e, h').
Proof.
  unfold mbind, buffers_bind. destruct (m h) as [[a|e'] h1]; [eauto|]. intros [= -> <-]. by left.
Qed.

Lemma finally_end {A} (m : buffers A) (c : buffers unit) (h h' : heap) (r : thrown A) :
  finally m c h = (r, h') -> exists h1, m h = (r, h1).
Proof. unfold finally. destruct (m h) as [r' h1]. intros [= -> _]. eauto. Qed.

Lemma lift_run {A} (r : thrown A) (h h' : heap) (x : thrown A) : lift r h = (x, h') <-> r = x /\ h' = h.
Proof. unfold lift. split; [by intros [= -> <-] | by intros [-> ->]]. Qed.

Lemma bind_failed {A B} (m : buffers A) (f : A -> buffers B) (h h1 : heap) (e : error) :
  m h = (Err e, h1) -> (m ≫= f) h = (Err e, h1).
Proof. unfold mbind, buffers_bind. by intros ->. Qed.

Lemma catch_ran {A} (m : buffers A) (f : error -> buffers A) (h h1 : heap) (a : A) :
  m h = (Ok a, h1) -> catch m f h = (Ok a, h1).
Proof. unfold catch. by intros ->. Qed.

Lemma catch_failed {A} (m : buffers A) (f : error -> buffers A) (h h1 : heap) (e : error) :
  m h = (Err e, h1) -> catch m f h = f e h1.
Proof. unfold catch. by intros ->. Qed.

Lemma unless_ran {A} (m : buffers A) (c : buffers unit) (h h1 : heap) (a : A) :
  m h = (Ok a, h1) -> unless_done m c h = (Ok a, h1).
Proof. unfold unless_done. by intros ->. Qed.

Lemma unless_failed {A} (m : buffers A) (c : buffers unit) (h h1 : heap) (e : error) :
  m h = (Err e, h1) -> unless_done m c h = (Err e, (c h1).2).
Proof. unfold unless_done. by intros ->. Qed.

Lemma finally_inv {A} (m : buffers A) (c : buffers unit) (h h' : heap) (a : A) :
  finally m c h = (Ok a, h') -> exists h1, m h = (Ok a, h1) /\ h' = (c h1).2.
Proof. unfold finally. destruct (m h) as [r h1]. intros [= -> <-]. by exists h1. Qed.
