(* ===== verification/CloudFormat.v ===== *)
(** * Backup format reader: [shared/ui/lib/cloud/cloudFormat.js]

    Signed snapshot records, packs, the file list and files.  Keys and plain text of packs live in
    the heap of [Buffers], where the code clears them; a pack's bytes on the wire, and arrays nobody
    else can reach, are values. *)

From S2P Require Import Prelude JsString Bytes BackupCrypto Buffers.

Definition DAMAGED : jstr := js "Part of this backup can't be read. It may be damaged.".
Definition CHANGED : jstr :=
  js "A backup file doesn't match its fingerprint, so it was not used. Try again later.".
Definition NO_KEY : jstr := js "Part of this backup can't be opened with the keys you have.".

Definition damaged {A} : thrown A := Err (EError DAMAGED).

Definition PACK_VERSION : Z := 1.
Definition KEY_LEN : Z := 32.
Definition ID_LEN : Z := 32.
Definition INDEX_HEADER_LEN : Z := 36.
Definition INDEX_ENTRY_LEN : Z := 44.

(** [/^[0-9a-f]{64}$/] *)
Definition HEX64 (s : jstr) : bool :=
  Nat.eqb (length s) 64 && forallb (fun c => is_digit c || ((97 <=? c) && (c <=? 102)))%N s.

Definition sameBytes (a b : bytes) : bool := bool_decide (a = b).

(** ** Bounds-checked reads *)

Definition u32At (b : bytes) (pos : Z) : thrown Z :=
  if len b <? pos + 4 then damaged else Ok (get_be 4 pos b).

Definition u64At (b : bytes) (pos : Z) : thrown Z :=
  if len b <? pos + 8 then damaged
  else
    let big := get_be 8 pos b in
    if MAX_SAFE_INTEGER <? big then damaged else Ok big.

Definition sliceChecked (b : bytes) (start n : Z) : thrown bytes :=
  if len b <? start + n then damaged else Ok (byte_slice start (start + n) b).

Definition text (v : value) : jstr := default [] (as_string v).

(** What the code reads of the text parsers, and of a record that may hold anything. *)
Definition string_of (v : value) : thrown jstr :=
  match as_string v with Some s => Ok s | None => Err TypeError end.

Record snapshot := {
  sn_lunaId : jstr; sn_protectionId : jstr; sn_snapshotId : jstr;
  sn_createdAt : value; sn_keyVersion : value;
  sn_treePackId : jstr; sn_treeHash : bytes; sn_meta : bytes;
}.

Record backup_meta := {
  bm_name : jstr; bm_sourceDrive : jstr; bm_sourcePath : jstr;
  bm_startedBy : jstr; bm_startedByName : jstr;
}.

Record chunk_ref := { ck_id : jstr; ck_pack : jstr; ck_offset : Z; ck_len : Z }.
Record tree_entry := { te_path : jstr; te_size : Z; te_mtime : Z; te_chunks : list chunk_ref }.

(** Every element of an array, each parsed by an [f] that may throw. *)
Definition map_array {B} (f : value -> thrown B) (v : value) : thrown (list B) :=
  match v with
  | Some (JArr l) => map_thrown (fun x => f (Some x)) l
  | _ => damaged
  end.

Section Format.
Context `{N : Noble} `{JT : JsText}.

Definition PACK_KEY_WRAP_AAD : bytes := utf8ToBytes (js "luna-pack-key-wrap-v1").
Definition PACK_INDEX_AAD : bytes := utf8ToBytes (js "luna-pack-index-v1").
Definition PACK_BODY_AAD : bytes := utf8ToBytes (js "luna-pack-v1").
Definition TREE_AAD : bytes := utf8ToBytes (js "luna-tree-v1").
Definition META_AAD : bytes := utf8ToBytes (js "luna-meta-v1").

Definition hex_field (v : value) : thrown bytes := s ← string_of v; hexToBytes s.

(** ** Snapshots *)

Definition snapshotSignedBytes (r : snapshot) : thrown bytes :=
  createdAt ← bigint64_bytes (sn_createdAt r);
  keyVersion ← uint32_bytes (sn_keyVersion r);
  treePackId ← hexToBytes (sn_treePackId r);
  Ok (canonical [
    (js "luna_id", utf8ToBytes (sn_lunaId r));
    (js "protection_id", utf8ToBytes (sn_protectionId r));
    (js "snapshot_id", utf8ToBytes (sn_snapshotId r));
    (js "created_at", createdAt);
    (js "key_version", keyVersion);
    (js "tree_pack_id", treePackId);
    (js "tree_hash", sn_treeHash r);
    (js "meta", sn_meta r)]).

(** The body of the [try]; [Ok None] is an early [return null]. *)
Definition verify_record (b : bytes) (signingPublics : list bytes) (lunaId domain : jstr)
  : thrown (option snapshot) :=
  match json_parse b with
  | None => Err (EError (js "SyntaxError"))
  | Some signed =>
      rec ← prop_of "record" (Some signed);
      luna ← prop_of "luna_id" rec;
      if negb (bool_decide (as_string luna = Some lunaId)) then Ok None
      else
        tp ← prop_of "tree_pack_id" rec; treePackId ← hex_field tp;
        th ← prop_of "tree_hash" rec; treeHash ← hex_field th;
        if negb (len treePackId =? ID_LEN) || negb (len treeHash =? ID_LEN) then Ok None
        else
          protection ← prop_of "protection_id" rec;
          snap ← prop_of "snapshot_id" rec;
          createdAt ← prop_of "created_at" rec;
          keyVersion ← prop_of "key_version" rec;
          m ← prop_of "meta" rec; meta ← hex_field m;
          protectionId ← string_of protection;
          snapshotId ← string_of snap;
          let view := {| sn_lunaId := lunaId; sn_protectionId := protectionId;
                         sn_snapshotId := snapshotId; sn_createdAt := createdAt;
                         sn_keyVersion := keyVersion; sn_treePackId := bytesToHex treePackId;
                         sn_treeHash := treeHash; sn_meta := meta |} in
          msg ← snapshotSignedBytes view;
          sig ← prop_of "signature" (Some signed); signature ← hex_field sig;
          Ok (if existsb (fun pub => verify pub domain msg signature) signingPublics
              then Some view else None)
  end.

Definition verifySnapshot (b : bytes) (signingPublics : list bytes) (lunaId domain : jstr)
  : option snapshot :=
  match verify_record b signingPublics lunaId domain with
  | Ok r => r
  | Err _ => None
  end.

Definition parse_meta (plain : bytes) : thrown backup_meta :=
  match json_parse plain with
  | None => Err (EError (js "SyntaxError"))
  | Some parsed =>
      name ← prop_of "name" (Some parsed);
      drive ← prop_of "source_drive" (Some parsed);
      path ← prop_of "source_path" (Some parsed);
      by_ ← prop_of "started_by" (Some parsed);
      byName ← prop_of "started_by_name" (Some parsed);
      Ok {| bm_name := text name; bm_sourceDrive := text drive; bm_sourcePath := text path;
            bm_startedBy := text by_; bm_startedByName := text byName |}
  end.

Definition decryptMeta (meta key : bytes) : thrown backup_meta :=
  catching (plain ← decrypt key META_AAD meta; parse_meta plain) (fun _ => damaged).

(** ** Packs *)

(** An unwrap step returns the pack key in a fresh array. *)
Definition unwrapWithBackupKey (backupKey wrapped : bytes) : thrown bytes :=
  decrypt backupKey PACK_KEY_WRAP_AAD wrapped.

Fixpoint unwrapWithAnyKey (keys : list bytes) (wrapped : bytes) : thrown bytes :=
  match keys with
  | [] => Err EMissingKey
  | key :: keys =>
      match decrypt key PACK_KEY_WRAP_AAD wrapped with
      | Ok k => Ok k
      | Err _ => unwrapWithAnyKey keys wrapped
      end
  end.

(** The loop that fills [entries]. *)
Fixpoint read_entries (count : nat) (i : Z) (index : bytes) (bodyLen : Z) (entries : gmap jstr (Z * Z))
  : thrown (gmap jstr (Z * Z)) :=
  match count with
  | O => Ok entries
  | S count =>
      let at_ := INDEX_HEADER_LEN + i * INDEX_ENTRY_LEN in
      let id := bytesToHex (byte_slice at_ (at_ + ID_LEN) index) in
      offset ← u64At index (at_ + ID_LEN);
      n ← u32At index (at_ + ID_LEN + 8);
      if bodyLen <? offset + n then damaged
      else read_entries count (i + 1) index bodyLen (<[id := (offset, n)]> entries)
  end.

(** The two tests on the index, then its entries. *)
Definition read_index (index : bytes) (bodyLen : Z) : thrown (gmap jstr (Z * Z)) :=
  if len index <? INDEX_HEADER_LEN then damaged
  else
    count ← u32At index ID_LEN;
    if negb (len index =? INDEX_HEADER_LEN + count * INDEX_ENTRY_LEN) then damaged
    else read_entries (Z.to_nat count) 0 index bodyLen ∅.

Definition openPackParts (b : bytes) (unwrapKey : bytes -> thrown bytes) : buffers nat :=
  if negb (bool_decide (b !! 0%nat = Some PACK_VERSION)) then lift damaged
  else
    wrappedLen ← lift (u32At b 1);
    wrapped ← lift (sliceChecked b 5 wrappedLen);
    key ← lift (unwrapKey wrapped); packKey ← alloc key;
    finally
      (if negb (len key =? KEY_LEN) then lift damaged
       else
         let pos := 5 + wrappedLen in
         indexLen ← lift (u32At b pos);
         sealedIndex ← lift (sliceChecked b (pos + 4) indexLen);
         let pos := pos + 4 + indexLen in
         indexBytes ← lift (decrypt key PACK_INDEX_AAD sealedIndex); index ← alloc indexBytes;
         unless_done
           (bodyBytes ← lift (decrypt key PACK_BODY_AAD (slice_after pos b)); body ← alloc bodyBytes;
            unless_done
              (_ ← lift (if len indexBytes <? INDEX_HEADER_LEN then damaged else Ok tt);
               scopeId ← alloc (byte_slice 0 ID_LEN indexBytes);
               entries ← lift (read_index indexBytes (len bodyBytes));
               _ ← fill0 index;
               new_pack {| pk_scopeId := scopeId; pk_body := body; pk_entries := entries;
                           pk_disposed := false |})
              (fill0 body))
           (fill0 index))
      (fill0 packKey).

Definition openPackWith (b : bytes) (idHex : jstr) (unwrapKey : bytes -> thrown bytes) : buffers nat :=
  if negb (bool_decide (bytesToHex (packId b) = idHex)) then throwing CHANGED
  else catch (openPackParts b unwrapKey) (fun e =>
         match e with EMissingKey => lift (Err e) | EError _ => lift damaged end).

Definition openPack (b : bytes) (idHex : jstr) (backupKey : bytes) : buffers nat :=
  openPackWith b idHex (unwrapWithBackupKey backupKey).

(** [pack.chunk(idBytes)]: a copy in a fresh array, or [null]. *)
Definition pack_chunk (i : nat) (idBytes : bytes) : buffers (option nat) :=
  p ← get_pack i;
  match p with
  | None => lift damaged
  | Some p =>
      if pk_disposed p then lift damaged
      else
        match pk_entries p !! bytesToHex idBytes with
        | None => mret None
        | Some (offset, n) =>
            body ← read_buf (pk_body p);
            copy ← alloc (byte_slice offset (offset + n) body);
            mret (Some copy)
        end
  end.

(** [pack.dispose()] *)
Definition pack_dispose (i : nat) : buffers unit :=
  p ← get_pack i;
  match p with
  | None => mret tt
  | Some p =>
      if pk_disposed p then mret tt
      else
        _ ← set_pack i (p <| pk_disposed := true |> <| pk_entries := ∅ |>);
        _ ← fill0 (pk_body p);
        fill0 (pk_scopeId p)
  end.

(** ** The file list *)

(** Opening the sealed tree, then parsing it; the plain bytes are cleared. *)
Definition open_tree (openTreeBytes : bytes -> thrown bytes) (sealed : bytes) : buffers json :=
  catch
    (plain ← lift (openTreeBytes sealed); p ← alloc plain;
     finally (match json_parse plain with
              | Some tree => mret tree
              | None => throwing (js "SyntaxError")
              end) (fill0 p))
    (fun _ => lift damaged).

Definition readRawTreeWith (treePackBytes : bytes) (treePackId : jstr) (treeHash : bytes)
    (unwrapKey openTreeBytes : bytes -> thrown bytes) : buffers json :=
  p ← openPackWith treePackBytes treePackId unwrapKey;
  finally
    (c ← pack_chunk p treeHash;
     match c with
     | None => lift damaged
     | Some sealed =>
         finally
           (s ← read_buf sealed;
            if negb (sameBytes (sha256 s) treeHash) then throwing CHANGED
            else open_tree openTreeBytes s)
           (fill0 sealed)
     end)
    (pack_dispose p).

Definition parse_chunk (c : value) : thrown chunk_ref :=
  id ← prop_of "id" c; pk ← prop_of "pack" c;
  match as_string id, as_string pk with
  | Some id, Some pk =>
      if HEX64 id && HEX64 pk then
        offset ← prop_of "offset" c; n ← prop_of "len" c;
        match safe_integer offset, safe_integer n with
        | Some offset, Some n => Ok {| ck_id := id; ck_pack := pk; ck_offset := offset; ck_len := n |}
        | _, _ => damaged
        end
      else damaged
  | _, _ => damaged
  end.

Definition parseTreeEntry (e : value) : thrown tree_entry :=
  path ← prop_of "path" e; size ← prop_of "size" e; mtime ← prop_of "mtime" e;
  match as_string path, safe_integer size, safe_integer mtime with
  | Some path, Some size, Some mtime =>
      chunks ← prop_of "chunks" e;
      chunks ← map_array parse_chunk chunks;
      Ok {| te_path := path; te_size := size; te_mtime := mtime; te_chunks := chunks |}
  | _, _, _ => damaged
  end.

Definition readTreeWith (treePackBytes : bytes) (treePackId : jstr) (treeHash : bytes)
    (unwrapKey openTreeBytes : bytes -> thrown bytes) : buffers (list tree_entry) :=
  tree ← readRawTreeWith treePackBytes treePackId treeHash unwrapKey openTreeBytes;
  lift (catching (entries ← prop_of "entries" (Some tree); map_array parseTreeEntry entries)
          (fun _ => damaged)).

Definition readTree (treePackBytes : bytes) (treePackId : jstr) (treeHash backupKey : bytes)
  : buffers (list tree_entry) :=
  readTreeWith treePackBytes treePackId treeHash (unwrapWithBackupKey backupKey)
    (fun sealed => decrypt backupKey TREE_AAD sealed).

(** ** Files *)

(** What [readFile] asks of a pack: its chunks, and to be given back. *)
Record pack_handle := { ph_chunk : bytes -> buffers (option nat); ph_close : buffers unit }.

(** One turn of the loop over the chunks: the bytes to append. *)
Definition read_chunk (readPack : jstr -> buffers pack_handle) (dedupKey : bytes) (c : chunk_ref)
  : buffers bytes :=
  p ← readPack (ck_pack c);
  finally
    (id ← lift (hexToBytes (ck_id c));
     got ← ph_chunk p id;
     match got with
     | None => lift damaged
     | Some buf =>
         finally
           (b ← read_buf buf;
            if negb (len b =? ck_len c) then lift damaged
            else if negb (bool_decide (bytesToHex (chunkId dedupKey b) = ck_id c)) then throwing CHANGED
            else mret b)
           (fill0 buf)
     end)
    (ph_close p).

Fixpoint read_chunks (readPack : jstr -> buffers pack_handle) (dedupKey : bytes)
    (chunks : list chunk_ref) (parts : list bytes) (total : Z) : buffers (list bytes * Z) :=
  match chunks with
  | [] => mret (parts, total)
  | c :: chunks =>
      b ← read_chunk readPack dedupKey c;
      read_chunks readPack dedupKey chunks (parts ++ [b]) (total + len b)
  end.

(** The bytes of the [Blob]. *)
Definition readFile (size : Z) (chunks : list chunk_ref) (readPack : jstr -> buffers pack_handle)
    (dedupKey : bytes) : buffers bytes :=
  '(parts, total) ← read_chunks readPack dedupKey chunks [] 0;
  if negb (total =? size) then lift damaged else mret (concat parts).

(** The keys a reader holds, by key version, newest first. *)
Definition newest_first (keysByVersion : list (Z * bytes)) : list bytes :=
  map snd (js_sort (fun a b => b.1 - a.1) keysByVersion).
End Format.
