(* ===== verification/CloudFacts.v ===== *)
(** * Backup format reader: properties

    A pack laid out as the format says opens to its chunks; opening clears every key on every path;
    the errors that leave it; files are what their chunk ids and sizes say; a snapshot's signature
    covers the snapshot. *)

From S2P Require Import Prelude JsString Utf8 Bytes BackupCrypto CryptoFacts Buffers CloudFormat.

Create HintDb plain.

Definition all_zero (b : bytes) : Prop := Forall (fun x => x = 0) b.

Lemma zeros_zero (b : bytes) : all_zero (zeros b).
Proof. unfold zeros. induction (length b); constructor; done. Qed.

(** A heap after some arrays and packs were added, as far as old arrays go. *)
Definition grown (h : heap) (bufs : list bytes) (packs : list pack) : heap :=
  {| h_bufs := h_bufs h ++ bufs; h_packs := h_packs h ++ packs |}.

Lemma grown_nil (h : heap) : grown h [] [] = h.
Proof. destruct h. unfold grown. cbn. by rewrite !app_nil_r. Qed.

Lemma alloc_grown (h : heap) (bufs : list bytes) (packs : list pack) (b : bytes) :
  alloc b (grown h bufs packs)
  = (Ok (length (h_bufs h) + length bufs)%nat, grown h (bufs ++ [b]) packs).
Proof. unfold alloc, grown. cbn. by rewrite length_app, <- app_assoc. Qed.

Lemma fill0_grown (h : heap) (bufs : list bytes) (packs : list pack) (i : nat) :
  fill0 (length (h_bufs h) + i)%nat (grown h bufs packs) = (Ok tt, grown h (alter zeros i bufs) packs).
Proof. unfold fill0, grown. cbn. by rewrite alter_app_r. Qed.

Lemma new_pack_grown (h : heap) (bufs : list bytes) (packs : list pack) (p : pack) :
  new_pack p (grown h bufs packs)
  = (Ok (length (h_packs h) + length packs)%nat, grown h bufs (packs ++ [p])).
Proof. unfold new_pack, grown. cbn. by rewrite length_app, <- app_assoc. Qed.

Lemma lift_bind {A B} (r : thrown A) (f : A -> buffers B) (h : heap) :
  (lift r ≫= f) h = match r with Ok a => f a h | Err e => (Err e, h) end.
Proof. by destruct r. Qed.

Lemma alloc_bind {B} (f : nat -> buffers B) (h : heap) (bufs : list bytes) (packs : list pack) (b : bytes) :
  (alloc b ≫= f) (grown h bufs packs)
  = f (length (h_bufs h) + length bufs)%nat (grown h (bufs ++ [b]) packs).
Proof. apply bind_ran, alloc_grown. Qed.

Lemma fill0_bind {B} (f : unit -> buffers B) (h : heap) (bufs : list bytes) (packs : list pack) (i : nat) :
  (fill0 (length (h_bufs h) + i)%nat ≫= f) (grown h bufs packs) = f tt (grown h (alter zeros i bufs) packs).
Proof. apply bind_ran, fill0_grown. Qed.

(** Running the clearing of arrays. *)
Ltac clearing := unfold lift, damaged; cbv beta iota; repeat (rewrite fill0_grown; cbn [snd alter list_alter]); done.

Section Opening.
Context `{NB : NobleBytes}.

(** What [openPackParts] does, as one function of the bytes: the arrays it leaves, then the pack or
    the error. *)
Definition parts_end (b : bytes) (unwrapKey : bytes -> thrown bytes) (base : nat)
  : thrown unit * list bytes * list pack :=
  if negb (bool_decide (b !! 0%nat = Some PACK_VERSION)) then (damaged, [], [])
  else
    match
      wrappedLen ← u32At b 1; wrapped ← sliceChecked b 5 wrappedLen; key ← unwrapKey wrapped;
      Ok (wrappedLen, key)
    with
    | Err e => (Err e, [], [])
    | Ok (wrappedLen, key) =>
        if negb (len key =? KEY_LEN) then (damaged, [zeros key], [])
        else
          match
            indexLen ← u32At b (5 + wrappedLen);
            sealedIndex ← sliceChecked b (5 + wrappedLen + 4) indexLen;
            index ← decrypt key PACK_INDEX_AAD sealedIndex; Ok (indexLen, index)
          with
          | Err e => (Err e, [zeros key], [])
          | Ok (indexLen, index) =>
              match decrypt key PACK_BODY_AAD (slice_after (5 + wrappedLen + 4 + indexLen) b) with
              | Err e => (Err e, [zeros key; zeros index], [])
              | Ok body =>
                  if len index <? INDEX_HEADER_LEN then (damaged, [zeros key; zeros index; zeros body], [])
                  else
                    match read_index index (len body) with
                    | Err e => (Err e, [zeros key; zeros index; zeros body; byte_slice 0 ID_LEN index], [])
                    | Ok entries =>
                        (Ok tt, [zeros key; zeros index; body; byte_slice 0 ID_LEN index],
                         [{| pk_scopeId := base + 3; pk_body := base + 2; pk_entries := entries;
                             pk_disposed := false |}])
                    end
              end
          end
    end.

Lemma openPackParts_end (b : bytes) (unwrapKey : bytes -> thrown bytes) (h : heap) :
  let '(r, bufs, packs) := parts_end b unwrapKey (length (h_bufs h)) in
  openPackParts b unwrapKey h
  = (match r with Ok _ => Ok (length (h_packs h)) | Err e => Err e end, grown h bufs packs).
Proof.
  replace (openPackParts b unwrapKey h) with (openPackParts b unwrapKey (grown h [] []))
    by (by rewrite grown_nil).
  unfold parts_end, openPackParts.
  destruct (bool_decide _); cbn [negb]; [|done]. rewrite lift_bind.
  destruct (u32At b 1) as [wl|e]; cbn [mbind result_bind]; [|done]. rewrite lift_bind.
  destruct (sliceChecked b 5 wl) as [wrapped|e]; cbn [mbind result_bind]; [|done]. rewrite lift_bind.
  destruct (unwrapKey wrapped) as [key|e]; cbn [mbind result_bind]; [|done]. rewrite alloc_bind.
  cbn [app length]. unfold finally at 1.
  destruct (negb (len key =? KEY_LEN)); [unfold lift; clearing|]. cbv zeta. rewrite lift_bind.
  destruct (u32At b _) as [il|e]; cbn [mbind result_bind]; [|clearing]. rewrite lift_bind.
  destruct (sliceChecked b _ il) as [si|e]; cbn [mbind result_bind]; [|clearing]. rewrite lift_bind.
  destruct (decrypt key PACK_INDEX_AAD si) as [index|e]; cbn [mbind result_bind]; [|clearing].
  rewrite alloc_bind. cbn [app length]. unfold unless_done at 1. rewrite lift_bind.
  destruct (decrypt key PACK_BODY_AAD _) as [body|e]; [|clearing].
  rewrite alloc_bind. cbn [app length]. unfold unless_done at 1. rewrite lift_bind.
  destruct (len index <? INDEX_HEADER_LEN); [clearing|]. rewrite alloc_bind, lift_bind.
  cbn [app length]. destruct (read_index index (len body)) as [entries|e]; [|clearing].
  rewrite fill0_bind, new_pack_grown. cbn [alter list_alter length app]. rewrite Nat.add_0_r. clearing.
Qed.

(** ** Packs as the format lays them out *)

Definition index_entry (id : bytes) (offset n : Z) : bytes := id ++ be 8 offset ++ be 4 n.

Fixpoint index_entries (offset : Z) (chunks : list (bytes * bytes)) : bytes :=
  match chunks with
  | [] => []
  | (id, data) :: chunks => index_entry id offset (len data) ++ index_entries (offset + len data) chunks
  end.

Definition pack_index (scope : bytes) (chunks : list (bytes * bytes)) : bytes :=
  scope ++ be 4 (Z.of_nat (length chunks)) ++ index_entries 0 chunks.

Definition pack_body (chunks : list (bytes * bytes)) : bytes := concat (map snd chunks).

Definition pack_file (wrapped sealedIndex sealedBody : bytes) : bytes :=
  [PACK_VERSION] ++ be 4 (len wrapped) ++ wrapped ++ be 4 (len sealedIndex) ++ sealedIndex ++ sealedBody.

Definition chunk_ok (c : bytes * bytes) : Prop := len c.1 = ID_LEN /\ octets c.1 /\ len c.2 < 2 ^ 32.

(** The table [read_entries] builds of such an index. *)
Fixpoint table_of (offset : Z) (chunks : list (bytes * bytes)) (t : gmap jstr (Z * Z)) : gmap jstr (Z * Z) :=
  match chunks with
  | [] => t
  | (id, data) :: chunks =>
      table_of (offset + len data) chunks (<[bytesToHex id := (offset, len data)]> t)
  end.

Lemma get_be_at (k : nat) (pos v : Z) (a c : bytes) :
  pos = len a -> 0 <= v < 256 ^ Z.of_nat k -> get_be k pos (a ++ be k v ++ c) = v.
Proof. intros -> Hv. rewrite get_be_app by apply be_length. rewrite of_be_be. by apply Z.mod_small. Qed.

Lemma u32At_at (pos v : Z) (a c : bytes) :
  pos = len a -> 0 <= v < 2 ^ 32 -> u32At (a ++ be 4 v ++ c) pos = Ok v.
Proof.
  intros -> Hv. unfold u32At. rewrite !len_app, be_len.
  destruct (Z.ltb_spec (len a + (Z.of_nat 4 + len c)) (len a + 4)) as [Hlt|_].
  { pose proof (len_nonneg c). lia. }
  by rewrite get_be_at.
Qed.

Lemma u64At_at (pos v : Z) (a c : bytes) :
  pos = len a -> 0 <= v <= MAX_SAFE_INTEGER -> u64At (a ++ be 8 v ++ c) pos = Ok v.
Proof.
  intros -> Hv. unfold u64At. rewrite !len_app, be_len.
  destruct (Z.ltb_spec (len a + (Z.of_nat 8 + len c)) (len a + 8)) as [Hlt|_].
  { pose proof (len_nonneg c). lia. }
  rewrite get_be_at by (done || (unfold MAX_SAFE_INTEGER in Hv; lia)).
  by destruct (Z.ltb_spec MAX_SAFE_INTEGER v); [lia|].
Qed.

Lemma sliceChecked_at (pos : Z) (a x c : bytes) :
  pos = len a -> sliceChecked (a ++ x ++ c) pos (len x) = Ok x.
Proof.
  intros ->. unfold sliceChecked. rewrite !len_app.
  destruct (Z.ltb_spec (len a + (len x + len c)) (len a + len x)) as [Hlt|_].
  { pose proof (len_nonneg c). lia. }
  by rewrite byte_slice_app.
Qed.

Lemma byte_slice_at (pos n : Z) (a x c : bytes) :
  pos = len a -> len x = n -> byte_slice pos (pos + n) (a ++ x ++ c) = x.
Proof. intros -> <-. apply byte_slice_app. Qed.

Lemma index_entry_len (id : bytes) (o n : Z) : len id = ID_LEN -> len (index_entry id o n) = INDEX_ENTRY_LEN.
Proof. intros E. unfold index_entry. by rewrite !len_app, E, !be_len. Qed.

Lemma index_entries_len (chunks : list (bytes * bytes)) (o : Z) : Forall chunk_ok chunks ->
  len (index_entries o chunks) = Z.of_nat (length chunks) * INDEX_ENTRY_LEN.
Proof.
  intros Hc. revert o. induction Hc as [|[id data] chunks (Hid & _) Hc IH]; intros o; [done|].
  cbn [index_entries length fst] in *. rewrite len_app, index_entry_len, IH by done. lia.
Qed.

Lemma pack_body_len (chunks : list (bytes * bytes)) :
  len (pack_body chunks) = foldr (fun c n => len c.2 + n) 0 chunks.
Proof. induction chunks as [|c chunks IH]; [done|]. cbn. rewrite len_app, <- IH. done. Qed.

Lemma read_entries_table (chunks : list (bytes * bytes)) : forall (pre : bytes) (i o total : Z) t,
  Forall chunk_ok chunks -> len pre = INDEX_HEADER_LEN + i * INDEX_ENTRY_LEN -> 0 <= o ->
  o + len (pack_body chunks) <= total -> total <= MAX_SAFE_INTEGER ->
  read_entries (length chunks) i (pre ++ index_entries o chunks) total t = Ok (table_of o chunks t).
Proof.
  induction chunks as [|[id data] chunks IH]; intros pre i o total t Hc Hpre Ho Hsum Htot; [done|].
  apply Forall_cons in Hc as [(Hid & Hoct & Hlen) Hc]. cbn [fst snd] in *.
  cbn [length read_entries index_entries table_of]. rewrite <- Hpre. cbv zeta.
  unfold pack_body in Hsum. cbn [map concat snd] in Hsum. rewrite len_app in Hsum. fold (pack_body chunks) in Hsum.
  pose proof (len_nonneg (pack_body chunks)). pose proof (len_nonneg data).
  unfold index_entry. rewrite <- !app_assoc.
  set (rest := index_entries (o + len data) chunks).
  rewrite (byte_slice_at (len pre) ID_LEN pre id) by done.
  rewrite (app_assoc pre id), (u64At_at _ o (pre ++ id)) by (rewrite ?len_app; lia). cbn [mbind result_bind].
  rewrite (app_assoc (pre ++ id)).
  rewrite (u32At_at _ (len data) ((pre ++ id) ++ be 8 o))
    by (rewrite ?len_app, ?be_len; lia). cbn [mbind result_bind].
  destruct (Z.ltb_spec total (o + len data)); [lia|].
  rewrite <- !app_assoc. change (id ++ be 8 o ++ be 4 (len data) ++ rest)
    with (id ++ (be 8 o ++ (be 4 (len data) ++ rest))).
  rewrite (app_assoc id), (app_assoc (id ++ be 8 o)), (app_assoc pre), <- (app_assoc id).
  fold (index_entry id o (len data)). apply (IH (pre ++ index_entry id o (len data))); try done; [|lia..].
  rewrite len_app, index_entry_len by done. lia.
Qed.

Lemma table_of_other (chunks : list (bytes * bytes)) : forall (o : Z) t (id : bytes),
  Forall chunk_ok chunks -> octets id -> id ∉ map fst chunks ->
  table_of o chunks t !! bytesToHex id = t !! bytesToHex id.
Proof.
  induction chunks as [|[id' data] chunks IH]; intros o t id Hc Hid Hni; [done|].
  apply Forall_cons in Hc as [(_ & Hoct & _) Hc]. cbn [map fst] in Hni. cbn [table_of fst] in *.
  apply not_elem_of_cons in Hni as [Hne Hni]. rewrite IH by done.
  apply lookup_insert_ne. intros E%bytesToHex_inj; [congruence | done..].
Qed.

Lemma table_of_chunk (chunks : list (bytes * bytes)) : forall (o : Z) t (id data pre : bytes),
  Forall chunk_ok chunks -> NoDup (map fst chunks) -> (id, data) ∈ chunks -> len pre = o ->
  exists at_, table_of o chunks t !! bytesToHex id = Some (at_, len data)
    /\ byte_slice at_ (at_ + len data) (pre ++ pack_body chunks) = data.
Proof.
  induction chunks as [|[id' data'] chunks IH]; intros o t id data pre Hc Hnd Hin Hpre;
    [by apply not_elem_of_nil in Hin|].
  apply Forall_cons in Hc as [(_ & Hoct & _) Hc]. cbn [map fst] in *. apply NoDup_cons in Hnd as [Hni Hnd].
  unfold pack_body. cbn [map concat snd table_of]. fold (pack_body chunks).
  apply elem_of_cons in Hin as [[= -> ->]|Hin].
  - exists o. rewrite table_of_other, lookup_insert_eq by done. split; [done|]. subst o. apply byte_slice_app.
  - rewrite app_assoc. apply IH; [done | done | done | rewrite len_app; lia].
Qed.

Lemma read_index_pack (scope : bytes) (chunks : list (bytes * bytes)) :
  len scope = ID_LEN -> Forall chunk_ok chunks -> Z.of_nat (length chunks) < 2 ^ 32 ->
  len (pack_body chunks) <= MAX_SAFE_INTEGER ->
  (len (pack_index scope chunks) <? INDEX_HEADER_LEN) = false
  /\ read_index (pack_index scope chunks) (len (pack_body chunks)) = Ok (table_of 0 chunks ∅)
  /\ byte_slice 0 ID_LEN (pack_index scope chunks) = scope.
Proof.
  intros Hs Hc Hn Hb. unfold pack_index, read_index.
  assert (Hlen : len (scope ++ be 4 (Z.of_nat (length chunks)) ++ index_entries 0 chunks)
                 = INDEX_HEADER_LEN + Z.of_nat (length chunks) * INDEX_ENTRY_LEN).
  { rewrite !len_app, index_entries_len, Hs, be_len by done. unfold INDEX_HEADER_LEN, ID_LEN. lia. }
  rewrite Hlen.
  destruct (Z.ltb_spec (INDEX_HEADER_LEN + Z.of_nat (length chunks) * INDEX_ENTRY_LEN) INDEX_HEADER_LEN) as [Hlt|_].
  { unfold INDEX_ENTRY_LEN in Hlt. lia. }
  rewrite u32At_at by lia. cbn [mbind result_bind]. rewrite Z.eqb_refl. cbn [negb]. rewrite Nat2Z.id.
  split_and!; [done | | by apply slice_head].
  rewrite app_assoc. apply read_entries_table; [done | | lia | lia | done].
  by rewrite len_app, Hs, be_len.
Qed.
Lemma read_entries_bounds (index : bytes) (total : Z) (count : nat) : forall i t r,
  (forall k o n, t !! k = Some (o, n) -> o + n <= total) ->
  read_entries count i index total t = Ok r -> forall k o n, r !! k = Some (o, n) -> o + n <= total.
Proof.
  induction count as [|count IH]; intros i t r Ht; cbn [read_entries]; [by intros [= <-]|]. cbv zeta.
  intros (o & Ho & (n & Hn & Hr)%bind_ok)%bind_ok. destruct (Z.ltb_spec total (o + n)) as [|Hle]; [done|].
  revert Hr. apply IH. intros k o' n' [[<- [= <- <-]]|[_ Hk]]%lookup_insert_Some; [done | by eapply Ht].
Qed.

Lemma read_index_bounds (index : bytes) (total : Z) (r : gmap jstr (Z * Z)) :
  read_index index total = Ok r -> forall k o n, r !! k = Some (o, n) -> o + n <= total.
Proof.
  unfold read_index. destruct (len index <? INDEX_HEADER_LEN); [done|].
  intros (count & _ & Hr)%bind_ok. destruct (negb _); [done|].
  eapply read_entries_bounds; [|exact Hr]. intros k o n Hk. by rewrite lookup_empty in Hk.
Qed.

Lemma openPackWith_run (b : bytes) (idHex : jstr) (unwrapKey : bytes -> thrown bytes) (h : heap) :
  bytesToHex (packId b) = idHex ->
  let '(r, bufs, packs) := parts_end b unwrapKey (length (h_bufs h)) in
  openPackWith b idHex unwrapKey h
  = (match r with
     | Ok _ => Ok (length (h_packs h))
     | Err EMissingKey => Err EMissingKey
     | Err (EError _) => damaged
     end, grown h bufs packs).
Proof.
  intros E. unfold openPackWith. rewrite bool_decide_eq_true_2 by done. cbn [negb]. unfold catch.
  pose proof (openPackParts_end b unwrapKey h) as Hrun.
  destruct (parts_end b unwrapKey (length (h_bufs h))) as [[[[]|[m|]] bufs] packs]; by rewrite Hrun.
Qed.

(** Steps that never throw a [MissingKeyError]. *)
Definition plain_error {A} (m : thrown A) : Prop := m <> Err EMissingKey.

Lemma plain_bind {A B} (m : thrown A) (f : A -> thrown B) :
  plain_error m -> (forall a, plain_error (f a)) -> plain_error (m ≫= f).
Proof. unfold plain_error. intros Hm Hf. destruct m as [a|e]; cbn; [apply Hf | congruence]. Qed.

Lemma plain_u32At (b : bytes) (pos : Z) : plain_error (u32At b pos).
Proof. unfold u32At, plain_error. by destruct (_ <? _). Qed.

Lemma plain_u64At (b : bytes) (pos : Z) : plain_error (u64At b pos).
Proof. unfold u64At, plain_error. destruct (_ <? _); [done|]. cbv zeta. by destruct (_ <? _). Qed.

Lemma plain_slice (b : bytes) (pos n : Z) : plain_error (sliceChecked b pos n).
Proof. unfold sliceChecked, plain_error. by destruct (_ <? _). Qed.

Lemma plain_decrypt (key aad b : bytes) : plain_error (decrypt key aad b).
Proof.
  unfold decrypt, plain_error. destruct (_ <? _); [done|]. cbv zeta. unfold catching.
  by destruct (aeadDecrypt _ _ _ _).
Qed.

Lemma plain_read_index (index : bytes) (total : Z) : plain_error (read_index index total).
Proof.
  unfold read_index. destruct (_ <? _); [done|]. apply plain_bind; [apply plain_u32At|]. intros count.
  destruct (negb _); [done|]. generalize (Z.to_nat count), 0, (∅ : gmap jstr (Z * Z)).
  intros n. induction n as [|n IH]; intros i t; cbn [read_entries]; [done|]. cbv zeta.
  apply plain_bind; [apply plain_u64At|]. intros o. apply plain_bind; [apply plain_u32At|]. intros m.
  by destruct (_ <? _).
Qed.

Lemma plain_ok {A} (a : A) : plain_error (Ok a).
Proof. done. Qed.

#[local] Hint Resolve plain_ok plain_bind plain_u32At plain_u64At plain_slice plain_decrypt plain_read_index : plain.

Lemma cleared_only (l : list bytes) :
  Forall all_zero l -> exists cleared tail, l = cleared ++ tail /\ Forall all_zero cleared
    /\ (length tail <= 1)%nat /\ Forall (fun s => len s <= ID_LEN) tail.
Proof. intros Hl. exists l, []. rewrite app_nil_r. split_and!; [done | done | simpl; lia | constructor]. Qed.

Lemma parts_end_spec (b : bytes) (unwrapKey : bytes -> thrown bytes) (base : nat) :
  let '(r, bufs, packs) := parts_end b unwrapKey base in
  match r with
  | Err e => packs = [] /\ (e = EMissingKey -> exists wrapped, unwrapKey wrapped = Err EMissingKey)
      /\ exists cleared tail, bufs = cleared ++ tail /\ Forall all_zero cleared
           /\ (length tail <= 1)%nat /\ Forall (fun s => len s <= ID_LEN) tail
  | Ok _ => exists key index body scope entries, bufs = [zeros key; zeros index; body; scope]
      /\ packs = [{| pk_scopeId := base + 3; pk_body := base + 2; pk_entries := entries;
                     pk_disposed := false |}]
      /\ forall k o n, entries !! k = Some (o, n) -> o + n <= len body
  end.
Proof.
  assert (Hz : forall x, all_zero (zeros x)) by apply zeros_zero.
  unfold parts_end. destruct (negb _); [split_and!; [done | done | apply cleared_only; by repeat constructor]|].
  destruct (wrappedLen ← u32At b 1; wrapped ← sliceChecked b 5 wrappedLen; key ← unwrapKey wrapped;
            Ok (wrappedLen, key)) as [[wl key]|e] eqn:E1.
  2:{ split_and!; [done | | apply cleared_only; by repeat constructor]. intros ->.
      destruct (u32At b 1) as [wl|e] eqn:Eu; cbn in E1; [|by destruct (plain_u32At b 1); congruence].
      destruct (sliceChecked b 5 wl) as [w|e] eqn:Es; cbn in E1; [|by destruct (plain_slice b 5 wl); congruence].
      exists w. destruct (unwrapKey w); cbn in E1; congruence. }
  destruct (negb (len key =? KEY_LEN)).
  { split_and!; [done | done | apply cleared_only; by repeat constructor]. }
  match goal with |- context [match ?m with Ok _ => _ | Err e => (Err e, [zeros key], []) end] =>
    assert (Hm : plain_error m) by auto 10 with plain; destruct m as [[il index]|e] eqn:E2 end.
  2:{ split_and!; [done | by intros -> | apply cleared_only; by repeat constructor]. }
  clear Hm. pose proof (plain_decrypt key PACK_BODY_AAD (slice_after (5 + wl + 4 + il) b)) as Hm.
  destruct (decrypt key PACK_BODY_AAD _) as [body|e].
  2:{ split_and!; [done | by intros -> | apply cleared_only; by repeat constructor]. }
  destruct (len index <? INDEX_HEADER_LEN).
  { split_and!; [done | done | apply cleared_only; by repeat constructor]. }
  pose proof (plain_read_index index (len body)) as Hi. pose proof (read_index_bounds index (len body)) as Hr.
  destruct (read_index index (len body)) as [entries|e].
  - do 5 eexists. split_and!; [done | done | by apply Hr].
  - split_and!; [done | by intros -> |].
    exists [zeros key; zeros index; zeros body], [byte_slice 0 ID_LEN index].
    split_and!; [done | by repeat constructor | simpl; lia | constructor; [|constructor]].
    unfold byte_slice, len, ID_LEN. rewrite length_take. lia.
Qed.

(** The steps of an opening: the key unwrapped from the field after the version, the index and the body opened with it. *)
Definition unwraps (b : bytes) (unwrapKey : bytes -> thrown bytes) (n : Z) (key : bytes) : Prop :=
  exists wrapped, u32At b 1 = Ok n /\ sliceChecked b 5 n = Ok wrapped /\ unwrapKey wrapped = Ok key.
Definition index_opens (b key : bytes) (n m : Z) (index : bytes) : Prop :=
  exists sealed, u32At b (5 + n) = Ok m /\ sliceChecked b (5 + n + 4) m = Ok sealed /\ decrypt key PACK_INDEX_AAD sealed = Ok index.
Definition body_opens (b key : bytes) (n m : Z) (body : bytes) : Prop := decrypt key PACK_BODY_AAD (slice_after (5 + n + 4 + m) b) = Ok body.

(** The arrays a failed opening leaves: zeros where the key, the index and the body were, as far as it came, and the scope id. *)
Inductive left_by (b : bytes) (unwrapKey : bytes -> thrown bytes) : list bytes -> Prop :=
| left_nothing : left_by b unwrapKey []
| left_key n key : unwraps b unwrapKey n key -> left_by b unwrapKey [zeros key]
| left_index n key m index : unwraps b unwrapKey n key -> index_opens b key n m index -> left_by b unwrapKey [zeros key; zeros index]
| left_body n key m index body : unwraps b unwrapKey n key -> index_opens b key n m index -> body_opens b key n m body ->
    left_by b unwrapKey [zeros key; zeros index; zeros body]
| left_scope n key m index body : unwraps b unwrapKey n key -> index_opens b key n m index -> body_opens b key n m body ->
    left_by b unwrapKey [zeros key; zeros index; zeros body; byte_slice 0 ID_LEN index].

(** What an opening leaves when it succeeds. *)
Definition opened_by (b : bytes) (unwrapKey : bytes -> thrown bytes) (bufs : list bytes) (entries : gmap jstr (Z * Z)) : Prop :=
  exists n key m index body, unwraps b unwrapKey n key /\ index_opens b key n m index /\ body_opens b key n m body
    /\ read_index index (len body) = Ok entries /\ bufs = [zeros key; zeros index; body; byte_slice 0 ID_LEN index].

Lemma parts_end_arrays (b : bytes) (unwrapKey : bytes -> thrown bytes) (base : nat) :
  let '(r, bufs, packs) := parts_end b unwrapKey base in
  match r with
  | Err e => left_by b unwrapKey bufs
  | Ok _ => exists entries, opened_by b unwrapKey bufs entries
      /\ packs = [{| pk_scopeId := base + 3; pk_body := base + 2; pk_entries := entries; pk_disposed := false |}]
  end.
Proof.
  unfold parts_end. destruct (negb _); [constructor|].
  destruct (wrappedLen ← u32At b 1; wrapped ← sliceChecked b 5 wrappedLen; key ← unwrapKey wrapped;
            Ok (wrappedLen, key)) as [[n key]|e] eqn:E1; [|constructor].
  assert (Hk : unwraps b unwrapKey n key).
  { unfold unwraps. destruct (u32At b 1) as [n'|] eqn:Eu; cbn in E1; [|done]. destruct (sliceChecked b 5 n') as [w|] eqn:Es; cbn in E1; [|done].
    destruct (unwrapKey w) as [k|] eqn:Ek; cbn in E1; [|done]. injection E1 as <- <-. by exists w. }
  destruct (negb (len key =? KEY_LEN)); [by eapply left_key|].
  match goal with |- context [match ?x with Ok _ => _ | Err e => (Err e, [zeros key], []) end] => destruct x as [[m index]|e] eqn:E2 end; [|by eapply left_key].
  assert (Hi : index_opens b key n m index).
  { unfold index_opens. destruct (u32At b (5 + n)) as [m'|] eqn:Eu; cbn in E2; [|done]. destruct (sliceChecked b _ m') as [w|] eqn:Es; cbn in E2; [|done].
    destruct (decrypt key _ w) as [k|] eqn:Ek; cbn in E2; [|done]. injection E2 as <- <-. by exists w. }
  destruct (decrypt key PACK_BODY_AAD _) as [body|e] eqn:Eb; [|by eapply left_index].
  destruct (len index <? INDEX_HEADER_LEN); [by eapply left_body|].
  destruct (read_index index (len body)) as [entries|e] eqn:Er; [|by eapply left_scope].
  exists entries. split; [|done]. by exists n, key, m, index, body.
Qed.

(** The fields of a laid-out pack, where [parts_end] looks for them. *)
Lemma pack_file_parts (wrapped sealedIndex sealedBody key index body : bytes)
    (unwrapKey : bytes -> thrown bytes) (base : nat) (entries : gmap jstr (Z * Z)) :
  len wrapped < 2 ^ 32 -> len sealedIndex < 2 ^ 32 ->
  unwrapKey wrapped = Ok key -> len key = KEY_LEN ->
  decrypt key PACK_INDEX_AAD sealedIndex = Ok index -> decrypt key PACK_BODY_AAD sealedBody = Ok body ->
  (len index <? INDEX_HEADER_LEN) = false -> read_index index (len body) = Ok entries ->
  parts_end (pack_file wrapped sealedIndex sealedBody) unwrapKey base
  = (Ok tt, [zeros key; zeros index; body; byte_slice 0 ID_LEN index],
     [{| pk_scopeId := base + 3; pk_body := base + 2; pk_entries := entries; pk_disposed := false |}]).
Proof.
  intros Hw Hi Hun Hkey Hdi Hdb Hl Hr. unfold parts_end, pack_file.
  pose proof (len_nonneg wrapped). pose proof (len_nonneg sealedIndex).
  rewrite bool_decide_eq_true_2 by done. cbn [negb].
  set (rest := be 4 (len sealedIndex) ++ sealedIndex ++ sealedBody).
  rewrite (u32At_at 1 (len wrapped) [PACK_VERSION]) by (done || lia). cbn [mbind result_bind].
  rewrite (app_assoc [PACK_VERSION]), (sliceChecked_at 5) by done. cbn [mbind result_bind].
  rewrite Hun. cbn [mbind result_bind]. rewrite Hkey. cbn [negb Z.eqb]. rewrite Z.eqb_refl. cbn [negb].
  unfold rest. rewrite (app_assoc ([PACK_VERSION] ++ _)).
  set (front := ([PACK_VERSION] ++ be 4 (len wrapped)) ++ wrapped).
  assert (Hfront : len front = 5 + len wrapped) by (unfold front; rewrite !len_app, be_len; unfold len; simpl; lia).
  rewrite (u32At_at (5 + len wrapped) (len sealedIndex) front) by lia. cbn [mbind result_bind].
  rewrite (app_assoc front).
  rewrite (sliceChecked_at (5 + len wrapped + 4)) by (rewrite len_app, be_len; lia). cbn [mbind result_bind].
  rewrite Hdi. cbn [mbind result_bind]. rewrite (app_assoc (front ++ _)).
  rewrite (slice_tail _ sealedBody) by (rewrite !len_app, be_len; lia).
  by rewrite Hdb, Hl, Hr.
Qed.

(** The heap an attempt leaves: nothing but what it added, and a pack only on success. *)
Lemma openPackWith_heap (b : bytes) (idHex : jstr) (unwrapKey : bytes -> thrown bytes) (h : heap) :
  let '(r, h') := openPackWith b idHex unwrapKey h in
  exists bufs packs, h' = grown h bufs packs /\
  match r with
  | Err _ => packs = []
  | Ok p => p = length (h_packs h) /\ exists pk, packs = [pk] /\ pk_disposed pk = false
      /\ length bufs = 4%nat /\ pk_scopeId pk = (length (h_bufs h) + 3)%nat
      /\ pk_body pk = (length (h_bufs h) + 2)%nat
  end.
Proof.
  destruct (decide (bytesToHex (packId b) = idHex)) as [E|E].
  - pose proof (openPackWith_run b idHex unwrapKey h E) as Hrun.
    pose proof (parts_end_spec b unwrapKey (length (h_bufs h))) as Hspec.
    destruct (parts_end b unwrapKey (length (h_bufs h))) as [[r bufs] packs]. rewrite Hrun.
    exists bufs, packs. split; [done|]. destruct r as [[]|[m|]]; [|by destruct Hspec..].
    destruct Hspec as (? & ? & ? & ? & ? & -> & -> & _). split; [done|]. by eexists.
  - unfold openPackWith. rewrite bool_decide_eq_false_2 by done. cbn.
    exists [], []. by rewrite grown_nil.
Qed.

(** Reading a chunk and disposing a pack, as far as packs go. *)
Lemma pack_chunk_packs (i : nat) (id : bytes) (h : heap) : h_packs (pack_chunk i id h).2 = h_packs h.
Proof.
  unfold pack_chunk, get_pack. unfold mbind at 1, buffers_bind.
  destruct (h_packs h !! i) as [p|]; [|done]. destruct (pk_disposed p); [done|].
  by destruct (pk_entries p !! bytesToHex id) as [[o n]|].
Qed.

Lemma pack_dispose_run (q : nat) (p : pack) (h : heap) :
  h_packs h !! q = Some p -> pk_disposed p = false ->
  pack_dispose q h
  = (Ok tt, {| h_bufs := alter zeros (pk_scopeId p) (alter zeros (pk_body p) (h_bufs h));
               h_packs := <[q := p <| pk_disposed := true |> <| pk_entries := ∅ |>]> (h_packs h) |}).
Proof.
  intros Hq Hd. unfold pack_dispose, get_pack. unfold mbind at 1, buffers_bind. by rewrite Hq, Hd.
Qed.

Lemma pack_dispose_idle (q : nat) (h : heap) :
  (forall p, h_packs h !! q = Some p -> pk_disposed p = true) -> pack_dispose q h = (Ok tt, h).
Proof.
  intros Hq. unfold pack_dispose, get_pack. unfold mbind at 1, buffers_bind.
  destruct (h_packs h !! q) as [p|]; [|done]. by rewrite (Hq p eq_refl).
Qed.

Lemma pack_dispose_packs (q : nat) (h : heap) (p : nat) (pk : pack) :
  h_packs h !! p = Some pk ->
  exists pk', h_packs (pack_dispose q h).2 !! p = Some pk'
    /\ pk_disposed pk' = (if decide (p = q) then true else pk_disposed pk).
Proof.
  intros Hp. destruct (h_packs h !! q) as [pq|] eqn:Hq; [destruct (pk_disposed pq) eqn:Hd|].
  - rewrite pack_dispose_idle by (intros; congruence). exists pk. split; [done|]. case_decide; congruence.
  - rewrite (pack_dispose_run q pq h Hq Hd). cbn [snd h_packs]. destruct (decide (p = q)) as [->|Hne].
    + rewrite list_lookup_insert_eq by (by eapply lookup_lt_Some). by eexists.
    + rewrite list_lookup_insert_ne by done. by exists pk.
  - rewrite pack_dispose_idle by (intros; congruence). exists pk. split; [done|]. case_decide; congruence.
Qed.

Lemma pack_chunk_run (i : nat) (p : pack) (h : heap) (id : bytes) :
  h_packs h !! i = Some p -> pk_disposed p = false ->
  pack_chunk i id h
  = match pk_entries p !! bytesToHex id with
    | None => (Ok None, h)
    | Some (o, n) =>
        (Ok (Some (length (h_bufs h))),
         h <| h_bufs ::= fun l => l ++ [byte_slice o (o + n) (default [] (h_bufs h !! pk_body p))] |>)
    end.
Proof.
  intros Hp Hd. unfold pack_chunk, get_pack. unfold mbind at 1, buffers_bind. rewrite Hp, Hd.
  by destruct (pk_entries p !! bytesToHex id) as [[o n]|].
Qed.
End Opening.

(** ** Theorems *)

(** C24: opening a pack clears what it opened.  Whatever the bytes, the expected id and the unwrap step: a pack whose hash is not
    its id is refused as changed before anything is read.  Any other failure is the missing key the unwrap step reported, or
    damage; no pack is made, and of the arrays the opening filled the pack key it unwrapped, the index and the body it
    decrypted are all zeroed, however far it came; only the scope id that was cut from the index may remain.  On success
    the key and the index are zeroed, the pack holds the body and the scope id, and its entries are those the index
    lists, each inside the body.  (The slices of ciphertext on the way are values here, not arrays.) *)
Theorem opening_clears_keys `{NB : NobleBytes} (b : bytes) (idHex : jstr)
    (unwrapKey : bytes -> thrown bytes) (h : heap) :
  let '(r, h') := openPackWith b idHex unwrapKey h in
  exists bufs packs, h' = grown h bufs packs /\
  match r with
  | Err e =>
      packs = [] /\
      (if bool_decide (bytesToHex (packId b) = idHex)
       then (e = EError DAMAGED \/ (e = EMissingKey /\ exists wrapped, unwrapKey wrapped = Err EMissingKey)) /\ left_by b unwrapKey bufs
       else e = EError CHANGED /\ bufs = [])
  | Ok p =>
      bytesToHex (packId b) = idHex /\ p = length (h_packs h)
      /\ exists entries, opened_by b unwrapKey bufs entries
         /\ packs = [{| pk_scopeId := length (h_bufs h) + 3; pk_body := length (h_bufs h) + 2; pk_entries := entries; pk_disposed := false |}]
         /\ forall k o n, entries !! k = Some (o, n) -> o + n <= len (nth 2 bufs [])
  end.
Proof.
  destruct (decide (bytesToHex (packId b) = idHex)) as [E|E].
  - pose proof (openPackWith_run b idHex unwrapKey h E) as Hrun. rewrite bool_decide_eq_true_2 by done.
    pose proof (parts_end_spec b unwrapKey (length (h_bufs h))) as Hspec. pose proof (parts_end_arrays b unwrapKey (length (h_bufs h))) as Harr.
    destruct (parts_end b unwrapKey (length (h_bufs h))) as [[r bufs] packs]. rewrite Hrun.
    exists bufs, packs. split; [done|]. destruct r as [[]|[m|]].
    + split; [done|]. split; [done|]. destruct Harr as (entries & Ho & ->). exists entries. split; [done|]. split; [done|].
      destruct Ho as (n & key & m & index & body & _ & _ & _ & Hr & ->). by apply (read_index_bounds index (len body)).
    + destruct Hspec as (-> & _). split_and!; [done | by left | done].
    + destruct Hspec as (-> & Hm & _). split_and!; [done | right; auto | done].
  - unfold openPackWith. rewrite !bool_decide_eq_false_2 by done. cbn.
    exists [], []. by rewrite grown_nil.
Qed.

(** C23: a pack reads back.  A pack written as the format lays it out (version, wrapped key, sealed index,
    sealed body) opens under its own hash; each of its chunks comes back byte for byte in a fresh
    array, an id it does not hold gives [null], and its key and index are zeroed. *)
Theorem pack_reads_back `{NB : NobleBytes} {NS : NobleSeal}
    (wrapped key scope n1 n2 sealedIndex sealedBody : bytes) (chunks : list (bytes * bytes))
    (unwrapKey : bytes -> thrown bytes) (h : heap) :
  len scope = ID_LEN -> Forall chunk_ok chunks -> NoDup (map fst chunks) ->
  Z.of_nat (length chunks) < 2 ^ 32 -> len (pack_body chunks) <= MAX_SAFE_INTEGER ->
  unwrapKey wrapped = Ok key -> len key = KEY_LEN -> len wrapped < 2 ^ 32 -> len sealedIndex < 2 ^ 32 ->
  len n1 = NONCE_LEN -> encryptWith key n1 PACK_INDEX_AAD (pack_index scope chunks) = Ok sealedIndex ->
  len n2 = NONCE_LEN -> encryptWith key n2 PACK_BODY_AAD (pack_body chunks) = Ok sealedBody ->
  let file := pack_file wrapped sealedIndex sealedBody in
  exists p h', openPackWith file (bytesToHex (packId file)) unwrapKey h = (Ok p, h')
    /\ h_bufs h' = h_bufs h ++ [zeros key; zeros (pack_index scope chunks); pack_body chunks; scope]
    /\ (forall id data, (id, data) ∈ chunks -> exists q h2,
          pack_chunk p id h' = (Ok (Some q), h2) /\ h_bufs h2 !! q = Some data)
    /\ (forall id, octets id -> id ∉ map fst chunks -> pack_chunk p id h' = (Ok None, h')).
Proof.
  intros Hs Hc Hnd Hn Hb Hun Hk Hw Hi Hn1 He1 Hn2 He2 file.
  destruct (read_index_pack scope chunks Hs Hc Hn Hb) as (Hl & Hr & Hsc).
  apply (decrypt_encryptWith _ _ _ _ _ Hn1) in He1. apply (decrypt_encryptWith _ _ _ _ _ Hn2) in He2.
  pose proof (openPackWith_run file (bytesToHex (packId file)) unwrapKey h eq_refl) as Hrun.
  unfold file in Hrun at 1. erewrite pack_file_parts in Hrun; [|eassumption..]. rewrite Hsc in Hrun.
  do 2 eexists. split; [exact Hrun|]. split; [done|]. cbn [h_packs grown].
  assert (Hp : forall x, (h_packs h ++ [x]) !! length (h_packs h) = Some x)
    by (intros x; by rewrite lookup_app_r, Nat.sub_diag by lia).
  split.
  - intros id data Hin. destruct (table_of_chunk chunks 0 ∅ id data [] Hc Hnd Hin eq_refl) as (o & Ht & Hd).
    do 2 eexists. erewrite pack_chunk_run; [|apply Hp | done]. cbn [pk_entries pk_body]. rewrite Ht.
    split; [done|]. cbn. rewrite lookup_app_r, Nat.sub_diag by lia. cbn. f_equal.
    rewrite lookup_app_r by lia. replace (length (h_bufs h) + 2 - length (h_bufs h))%nat with 2%nat by lia.
    exact Hd.
  - intros id Hoct Hni. erewrite pack_chunk_run; [|apply Hp | done]. cbn [pk_entries].
    by rewrite table_of_other, lookup_empty.
Qed.
(** ** Snapshots *)

Lemma num_trunc_integer (n : num) (z : Z) : num_integer n = Some z -> num_trunc n = z.
Proof.
  unfold num_integer, num_trunc. destruct n as [s| | |s m e]; try done; [by intros [= <-]|]. cbv zeta.
  destruct (Z.leb_spec 0 e); [destruct s; intros [= <-]; lia|].
  destruct (Z.eqb_spec ((if s then Z.neg m else Z.pos m) mod 2 ^ (- e)) 0) as [Hm|]; [|done].
  intros [= <-]. assert (2 ^ (- e) <> 0) by (apply Z.pow_nonzero; lia).
  destruct s; [|done]. change (Z.neg m) with (- Z.pos m) in *.
  rewrite Z.div_opp_l_z; [done | done|]. by apply Z.mod_opp_l_z in Hm; [rewrite Z.opp_involutive in Hm|].
Qed.

(** A record as Luna writes it: whole numbers in range, strings of whole characters, ids of 32 bytes. *)
Record snapshot_ok `{Noble} (s : snapshot) (createdAt keyVersion : Z) (treePackId : bytes) : Prop := {
  so_strings : Forall (fun x => well_formed x /\ len (utf8ToBytes x) < 2 ^ 32)
                 [sn_lunaId s; sn_protectionId s; sn_snapshotId s];
  so_created : exists n, sn_createdAt s = Some (JNum n) /\ num_integer n = Some createdAt;
  so_created_range : - 2 ^ 63 <= createdAt < 2 ^ 63;
  so_version : exists n, sn_keyVersion s = Some (JNum n) /\ num_integer n = Some keyVersion;
  so_version_range : 0 <= keyVersion < 2 ^ 32;
  so_pack : sn_treePackId s = bytesToHex treePackId /\ octets treePackId /\ len treePackId < 2 ^ 32;
  so_sizes : len (sn_treeHash s) < 2 ^ 32 /\ len (sn_meta s) < 2 ^ 32;
}.

Definition snapshot_fields `{Noble} (s : snapshot) (createdAt keyVersion treePackId : bytes)
  : list (jstr * bytes) := [
  (js "luna_id", utf8ToBytes (sn_lunaId s)); (js "protection_id", utf8ToBytes (sn_protectionId s));
  (js "snapshot_id", utf8ToBytes (sn_snapshotId s)); (js "created_at", createdAt);
  (js "key_version", keyVersion); (js "tree_pack_id", treePackId);
  (js "tree_hash", sn_treeHash s); (js "meta", sn_meta s)].

Section Snapshots.
Context `{NB : NobleBytes} `{JT : JsText}.

Lemma signed_ok (s : snapshot) (t v : Z) (p : bytes) : snapshot_ok s t v p ->
  snapshotSignedBytes s = Ok (canonical (snapshot_fields s (be 8 t) (be 4 v) p)).
Proof.
  intros [_ (n & Hc & Hn) _ (n' & Hv & Hn') _ (Hp & Ho & _) _]. unfold snapshotSignedBytes.
  rewrite Hc, Hv, Hp. cbn [bigint64_bytes uint32_bytes to_bigint to_number].
  unfold bigint64_bytes, uint32_bytes. cbn [to_bigint to_number]. rewrite Hn.
  cbn [fmap result_fmap mbind result_bind]. rewrite (num_trunc_integer _ _ Hn'), hex_back by done. done.
Qed.

Lemma label_ok (name : jstr) (v : bytes) :
  forallb (fun c => c <? 55296)%N name && (Z.of_nat (length (utf8_encode name)) <? 2 ^ 32) = true ->
  len v < 2 ^ 32 -> field_ok (name, v).
Proof.
  intros [Hw Hl%Z.ltb_lt]%andb_true_iff Hv. split_and!; [by apply ascii_well_formed | | done].
  unfold len. by rewrite utf8_law, length_map.
Qed.

Lemma snapshot_fields_ok (s : snapshot) (t v : Z) (p : bytes) :
  snapshot_ok s t v p -> Forall field_ok (snapshot_fields s (be 8 t) (be 4 v) p).
Proof.
  intros [Hs _ _ _ _ (_ & _ & Hp) (H1 & H2)]. rewrite !Forall_cons in Hs.
  destruct Hs as ([_ Hl] & [_ Hpr] & [_ Hsn] & _).
  unfold snapshot_fields. repeat (apply Forall_cons; split); try apply Forall_nil_2;
    apply label_ok; rewrite ?be_len; done || (vm_compute; reflexivity).
Qed.

Lemma snapshot_fields_inj (s s' : snapshot) (a a' b b' p p' : bytes) :
  snapshot_fields s a b p = snapshot_fields s' a' b' p' ->
  utf8ToBytes (sn_lunaId s) = utf8ToBytes (sn_lunaId s')
  /\ utf8ToBytes (sn_protectionId s) = utf8ToBytes (sn_protectionId s')
  /\ utf8ToBytes (sn_snapshotId s) = utf8ToBytes (sn_snapshotId s')
  /\ a = a' /\ b = b' /\ p = p' /\ sn_treeHash s = sn_treeHash s' /\ sn_meta s = sn_meta s'.
Proof. unfold snapshot_fields. intros E. by injection E as -> -> -> -> -> -> -> ->. Qed.

(** What two records have in common when they say the same. *)
Definition agrees (s s' : snapshot) : Prop :=
  sn_lunaId s = sn_lunaId s' /\ sn_protectionId s = sn_protectionId s'
  /\ sn_snapshotId s = sn_snapshotId s' /\ sn_treePackId s = sn_treePackId s'
  /\ sn_treeHash s = sn_treeHash s' /\ sn_meta s = sn_meta s'.

Lemma signed_bytes_agree (s s' : snapshot) (t t' v v' : Z) (p p' : bytes) (msg : bytes) :
  snapshot_ok s t v p -> snapshot_ok s' t' v' p' ->
  snapshotSignedBytes s = Ok msg -> snapshotSignedBytes s' = Ok msg ->
  agrees s s' /\ t = t' /\ v = v'.
Proof.
  intros Ho Ho' Hm Hm'. rewrite (signed_ok _ _ _ _ Ho) in Hm. rewrite (signed_ok _ _ _ _ Ho') in Hm'.
  injection Hm as <-. injection Hm' as E. symmetry in E.
  apply canonical_inj in E; [|by eapply snapshot_fields_ok..].
  destruct Ho as [Hs _ Ht _ Hv (Hp & Hoc & _) _], Ho' as [Hs' _ Ht' _ Hv' (Hp' & Hoc' & _) _].
  rewrite !Forall_cons in Hs, Hs'. destruct Hs as ([W1 _] & [W2 _] & [W3 _] & _).
  destruct Hs' as ([W1' _] & [W2' _] & [W3' _] & _).
  apply snapshot_fields_inj in E as (E1 & E2 & E3 & E4 & E5 & E6 & E7 & E8).
  apply utf8ToBytes_inj in E1, E2, E3; [|done..]. apply (be_mod 8) in E4. apply (be_mod 4) in E5.
  split; [unfold agrees; split_and!; congruence|]. split.
  - change (256 ^ Z.of_nat 8) with (2 ^ 64) in E4. Z.div_mod_to_equations. lia.
  - change (256 ^ Z.of_nat 4) with (2 ^ 32) in E5. by rewrite !Z.mod_small in E5.
Qed.

Lemma prop_of_ok (k : string) (v w : value) : prop_of k v = Ok w -> v <> None.
Proof. by destruct v. Qed.

Lemma verify_record_some (b : bytes) (pubs : list bytes) (lunaId domain : jstr) (s : snapshot) :
  verify_record b pubs lunaId domain = Ok (Some s) ->
  sn_lunaId s = lunaId /\ len (sn_treeHash s) = ID_LEN /\ length (sn_treePackId s) = 64%nat
  /\ exists pub msg sig, pub ∈ pubs /\ snapshotSignedBytes s = Ok msg /\ verify pub domain msg sig = true.
Proof.
  unfold verify_record. destruct (json_parse b) as [signed|]; [|done].
  intros (rec & _ & (luna & _ & Hr)%bind_ok)%bind_ok. destruct (negb (bool_decide _)); [done|].
  apply bind_ok in Hr as (tp & _ & (pid & _ & (th & _ & (hash & _ & Hr)%bind_ok)%bind_ok)%bind_ok).
  destruct (Z.eqb_spec (len pid) ID_LEN) as [Hp|]; [|done].
  destruct (Z.eqb_spec (len hash) ID_LEN) as [Hh|]; [|done]. cbn [negb orb] in Hr.
  apply bind_ok in Hr as (prot & _ & (snap & _ & (ca & _ & (kv & _ & (m & _ & Hr)%bind_ok)%bind_ok)%bind_ok)%bind_ok).
  apply bind_ok in Hr as (meta & _ & (pr & _ & (sn & _ & Hr)%bind_ok)%bind_ok). cbv zeta in Hr.
  apply bind_ok in Hr as (msg & Hmsg & (sg & _ & (sig & _ & Hr)%bind_ok)%bind_ok).
  destruct (existsb _ pubs) eqn:Hex; [|done]. injection Hr as <-.
  apply existsb_exists in Hex as (pub & Hin & Hv). cbn [sn_lunaId sn_treeHash sn_treePackId].
  split_and!; [done | done | |].
  - rewrite hex_length. unfold len, ID_LEN in Hp. lia.
  - exists pub, msg, sig. split_and!; [by apply list_elem_of_In | done | done].
Qed.
End Snapshots.

(** ** Files and file lists *)

Section Reading.
Context `{NB : NobleBytes} `{JT : JsText}.

Lemma catch_ok {A} (m : buffers A) (h h' : heap) (a : A) (r : error -> thrown A) :
  (forall e, r e <> Ok a) -> catch m (fun e => lift (r e)) h = (Ok a, h') -> m h = (Ok a, h').
Proof.
  unfold catch. intros Hr. destruct (m h) as [[x|e] h1]; [done|]. unfold lift. intros [= E _].
  by destruct (Hr e).
Qed.

Lemma read_chunk_ok (readPack : jstr -> buffers pack_handle) (dedupKey : bytes) (c : chunk_ref)
    (h h' : heap) (b : bytes) :
  read_chunk readPack dedupKey c h = (Ok b, h') ->
  len b = ck_len c /\ bytesToHex (chunkId dedupKey b) = ck_id c.
Proof.
  unfold read_chunk. intros (p & h1 & _ & Hf)%bind_run. apply finally_end in Hf as (h2 & Hm).
  apply bind_run in Hm as (id & h3 & _ & (got & h4 & _ & Hg)%bind_run).
  destruct got as [buf|]; [|done]. apply finally_end in Hg as (h5 & Hm).
  apply bind_run in Hm as (x & h6 & _ & Hx). destruct (Z.eqb_spec (len x) (ck_len c)); [|done].
  cbn [negb] in Hx. destruct (bool_decide_reflect (bytesToHex (chunkId dedupKey x) = ck_id c)); [|done].
  cbn [negb] in Hx. injection Hx as -> _. done.
Qed.

Definition piece_of (dedupKey : bytes) (c : chunk_ref) (p : bytes) : Prop :=
  len p = ck_len c /\ bytesToHex (chunkId dedupKey p) = ck_id c.

Lemma read_chunks_ok (readPack : jstr -> buffers pack_handle) (dedupKey : bytes)
    (chunks : list chunk_ref) : forall parts total h h' parts' total',
  read_chunks readPack dedupKey chunks parts total h = (Ok (parts', total'), h') ->
  exists pieces, parts' = parts ++ pieces /\ total' = total + len (concat pieces)
    /\ Forall2 (piece_of dedupKey) chunks pieces.
Proof.
  induction chunks as [|c chunks IH]; intros parts total h h' parts' total'; cbn [read_chunks].
  - intros [= <- <- _]. exists []. rewrite app_nil_r. split_and!; [done | change (len (concat [])) with 0; lia | constructor].
  - intros (b & h1 & Hb & Hr)%bind_run. apply read_chunk_ok in Hb. apply IH in Hr as (pieces & -> & -> & Hp).
    exists (b :: pieces). rewrite <- app_assoc. cbn [concat]. rewrite len_app.
    split_and!; [done | lia | by constructor].
Qed.

Lemma parse_entry_ok (v : value) (e : tree_entry) : parseTreeEntry v = Ok e ->
  Forall (fun c => HEX64 (ck_id c) = true /\ HEX64 (ck_pack c) = true) (te_chunks e).
Proof.
  unfold parseTreeEntry. intros (path & _ & (size & _ & (mtime & _ & H1)%bind_ok)%bind_ok)%bind_ok.
  destruct (as_string path), (safe_integer size), (safe_integer mtime); try done.
  apply bind_ok in H1 as (ch & _ & (chunks & Hc & [= <-])%bind_ok). cbn [te_chunks].
  unfold map_array in Hc. destruct ch as [[]|]; try done. apply map_thrown_ok in Hc.
  induction Hc as [|x y xs r Hxy Hxs IH]; constructor; [|done]. revert Hxy. unfold parse_chunk.
  intros (id & _ & (pk & _ & H1)%bind_ok)%bind_ok. destruct (as_string id) as [i|], (as_string pk) as [q|]; try done.
  destruct (HEX64 i) eqn:E1, (HEX64 q) eqn:E2; try done. cbn [andb] in H1.
  apply bind_ok in H1 as (o & _ & (n & _ & H1)%bind_ok).
  destruct (safe_integer o), (safe_integer n); try done. by injection H1 as <-.
Qed.

(** The three errors a reader shows. *)
Definition reader_error (e : error) : Prop := e = EError DAMAGED \/ e = EError CHANGED \/ e = EMissingKey.

Lemma openPackWith_error (b : bytes) (idHex : jstr) (unwrapKey : bytes -> thrown bytes) (h h' : heap) e :
  openPackWith b idHex unwrapKey h = (Err e, h') -> reader_error e.
Proof.
  unfold openPackWith, reader_error, catch, throwing, lift.
  destruct (negb _); [intros [= <- _]; right; left; reflexivity|].
  destruct (openPackParts b unwrapKey h) as [[p|[m|]] h1]; [done | |]; intros [= <- _];
    [left; reflexivity | right; right; reflexivity].
Qed.

Lemma openPackWith_id (b : bytes) (idHex : jstr) (unwrapKey : bytes -> thrown bytes) (h h' : heap) p :
  openPackWith b idHex unwrapKey h = (Ok p, h') -> bytesToHex (packId b) = idHex.
Proof.
  unfold openPackWith. destruct (bool_decide_reflect (bytesToHex (packId b) = idHex)) as [E|E]; [done|].
  unfold throwing, lift. cbn [negb]. intros E1. discriminate E1.
Qed.

Lemma pack_chunk_error (i : nat) (id : bytes) (h h' : heap) e :
  pack_chunk i id h = (Err e, h') -> e = EError DAMAGED.
Proof.
  unfold pack_chunk, get_pack. unfold mbind at 1, buffers_bind.
  destruct (h_packs h !! i) as [p|]; [|by intros [= <- _]].
  destruct (pk_disposed p); [by intros [= <- _]|].
  destruct (pk_entries p !! _) as [[o n]|]; intros Hx; discriminate Hx.
Qed.
(** A chunk of a pack file: the file opens with the unwrap step, its index lists the id, and the chunk is that part of the body. *)
Definition holds_chunk (b : bytes) (unwrapKey : bytes -> thrown bytes) (id chunk : bytes) : Prop :=
  exists n key m index body entries o l, unwraps b unwrapKey n key /\ index_opens b key n m index /\ body_opens b key n m body
    /\ read_index index (len body) = Ok entries /\ entries !! bytesToHex id = Some (o, l) /\ chunk = byte_slice o (o + l) body.

Lemma openPackWith_ok (b : bytes) (idHex : jstr) (unwrapKey : bytes -> thrown bytes) (h h' : heap) p :
  openPackWith b idHex unwrapKey h = (Ok p, h') ->
  p = length (h_packs h) /\ exists bufs entries, opened_by b unwrapKey bufs entries
    /\ h' = grown h bufs [{| pk_scopeId := length (h_bufs h) + 3; pk_body := length (h_bufs h) + 2;
                             pk_entries := entries; pk_disposed := false |}].
Proof.
  intros Hp. pose proof (openPackWith_run b idHex unwrapKey h (openPackWith_id _ _ _ _ _ _ Hp)) as Hrun.
  pose proof (parts_end_arrays b unwrapKey (length (h_bufs h))) as Ha.
  destruct (parts_end b unwrapKey (length (h_bufs h))) as [[[[]|[m|]] bufs] packs]; rewrite Hrun in Hp; try done.
  injection Hp as <- <-. destruct Ha as (entries & Ho & ->). split; [done|]. by exists bufs, entries.
Qed.

Lemma raw_tree_ok (file : bytes) (treePackId : jstr) (treeHash : bytes)
    (unwrapKey openTreeBytes : bytes -> thrown bytes) (h h' : heap) (tree : json) :
  readRawTreeWith file treePackId treeHash unwrapKey openTreeBytes h = (Ok tree, h') ->
  bytesToHex (packId file) = treePackId
  /\ exists sealed plain, holds_chunk file unwrapKey treeHash sealed /\ sha256 sealed = treeHash
     /\ openTreeBytes sealed = Ok plain /\ json_parse plain = Some tree.
Proof.
  unfold readRawTreeWith. intros (p & h1 & Hp & Hf)%bind_run. split; [by eapply openPackWith_id|].
  apply openPackWith_ok in Hp as (-> & bufs & entries & Ho & ->).
  apply finally_end in Hf as (h2 & Hm). apply bind_run in Hm as (c & h3 & Hch & Hc).
  set (pk := {| pk_scopeId := _; pk_body := _; pk_entries := entries; pk_disposed := false |}) in *.
  rewrite (pack_chunk_run _ pk) in Hch; [|cbn; by rewrite lookup_app_r, Nat.sub_diag by lia | done].
  destruct (pk_entries pk !! bytesToHex treeHash) as [[o l]|] eqn:He; [|by injection Hch as <- <-].
  destruct c as [sealed|]; [|done]. injection Hch as <- <-. apply finally_end in Hc as (h4 & Hm).
  apply bind_run in Hm as (s & h5 & Hr & Hs). unfold sameBytes in Hs.
  destruct (bool_decide_reflect (sha256 s = treeHash)) as [E|]; cbn [negb] in Hs;
    [|unfold throwing, lift in Hs; discriminate Hs].
  unfold open_tree in Hs. apply catch_ok in Hs; [|by intros e]. exists s.
  apply bind_run in Hs as (plain & h6 & [Hpl ->]%lift_run & Hs). exists plain. split_and!; [| done | done|].
  - destruct Ho as (n & key & m & index & body & H1 & H2 & H3 & H4 & ->).
    exists n, key, m, index, body, entries, o, l. split_and!; try done.
    unfold read_buf in Hr. injection Hr as <- _. cbn. rewrite lookup_app_r, length_app, Nat.sub_diag by (rewrite length_app; lia).
    cbn. rewrite lookup_app_r, Nat.add_comm, Nat.add_sub by lia. done.
  - apply bind_run in Hs as (q & h7 & _ & Hs). apply finally_end in Hs as (h8 & Hs).
    destruct (json_parse plain) as [t|]; [by injection Hs as -> _ | unfold throwing, lift in Hs; discriminate Hs].
Qed.

Lemma open_tree_error (openTreeBytes : bytes -> thrown bytes) (s : bytes) (h h' : heap) e :
  open_tree openTreeBytes s h = (Err e, h') -> e = EError DAMAGED.
Proof.
  unfold open_tree, catch. generalize (plain ← lift (openTreeBytes s); p ← alloc plain;
    finally (match json_parse plain with Some tree => mret tree | None => throwing (js "SyntaxError") end)
      (fill0 p)). intros m. destruct (m h) as [[t|e1] h1]; [done|]. by intros [= <- _].
Qed.

Lemma raw_tree_error (file : bytes) (treePackId : jstr) (treeHash : bytes)
    (unwrapKey openTreeBytes : bytes -> thrown bytes) (h h' : heap) e :
  readRawTreeWith file treePackId treeHash unwrapKey openTreeBytes h = (Err e, h') -> reader_error e.
Proof.
  unfold readRawTreeWith. intros [Hp|(p & h1 & _ & Hf)]%bind_err; [by eapply openPackWith_error|].
  apply finally_end in Hf as (h2 & [Hc|(c & h3 & _ & Hc)]%bind_err); [left; by eapply pack_chunk_error|].
  destruct c as [sealed|]; [|left; by apply lift_run in Hc as [[= ->] _]].
  apply finally_end in Hc as (h4 & [Hr|(s & h5 & _ & Hs)]%bind_err); [discriminate Hr|].
  destruct (negb _); [right; left; by injection Hs as <- _|].
  left. by eapply open_tree_error.
Qed.
End Reading.

(** A file list is what its snapshot signed, or nothing.  [readTreeWith] fails only with one of the
    three messages a reader shows; if it returns entries, the tree pack's hash is the snapshot's
    [treePackId], the sealed list's SHA-256 is its [treeHash], the list was opened with the caller's
    key, and every chunk it names has ids of 64 hexadecimal digits. *)
Theorem file_list_is_checked `{NB : NobleBytes} `{JT : JsText} (file : bytes) (treePackId : jstr)
    (treeHash : bytes) (unwrapKey openTreeBytes : bytes -> thrown bytes) (h h' : heap)
    (r : thrown (list tree_entry)) :
  readTreeWith file treePackId treeHash unwrapKey openTreeBytes h = (r, h') ->
  match r with
  | Err e => reader_error e
  | Ok entries =>
      bytesToHex (packId file) = treePackId
      /\ (exists sealed plain, sha256 sealed = treeHash /\ openTreeBytes sealed = Ok plain
            /\ exists tree, json_parse plain = Some tree)
      /\ Forall (fun e => Forall (fun c => HEX64 (ck_id c) = true /\ HEX64 (ck_pack c) = true)
                            (te_chunks e)) entries
  end.
Proof.
  unfold readTreeWith. intros Hrun. destruct r as [entries|e].
  - apply bind_run in Hrun as (tree & h1 & Hraw & [Hpar _]%lift_run).
    apply raw_tree_ok in Hraw as (Hid & sealed & plain & _ & Hs & Hopen & Hp).
    split; [done|]. split; [by exists sealed, plain; eauto|].
    destruct (prop_of "entries" (Some tree)) as [es|]; [|done]. cbn [mbind result_bind] in Hpar.
    unfold catching in Hpar. destruct (map_array parseTreeEntry es) as [l|] eqn:Hm; [|done].
    injection Hpar as <-. unfold map_array in Hm. destruct es as [[]|]; try done.
    apply map_thrown_ok in Hm. induction Hm as [|x y xs ys Hxy Hm IH]; constructor; [|done].
    by eapply parse_entry_ok.
  - apply bind_err in Hrun as [Hraw|(tree & h1 & _ & [Hx _]%lift_run)]; [by eapply raw_tree_error|].
    left. unfold catching in Hx.
    match type of Hx with match ?m with _ => _ end = _ => destruct m end; [done | by injection Hx].
Qed.

(** C25: a file is its chunks.  Whatever the packs return, bytes that [readFile] hands out are a
    concatenation of pieces, one per chunk of the list in order, each of the length and with the keyed
    hash the list gives, and as long together as the file; so where those hashes do not collide, they
    are the original's bytes. *)
Theorem file_is_its_chunks `{NB : NobleBytes} (size : Z) (chunks : list chunk_ref)
    (readPack : jstr -> buffers pack_handle) (dedupKey : bytes) (h h' : heap) (data : bytes) :
  readFile size chunks readPack dedupKey h = (Ok data, h') ->
  len data = size
  /\ exists pieces, data = concat pieces /\ Forall2 (piece_of dedupKey) chunks pieces
     /\ forall original, Forall2 (piece_of dedupKey) chunks original ->
          (forall p q, p ∈ pieces -> q ∈ original ->
             bytesToHex (chunkId dedupKey p) = bytesToHex (chunkId dedupKey q) -> p = q) ->
          data = concat original.
Proof.
  unfold readFile. intros ([parts total] & h1 & Hr & Hm)%bind_run.
  apply read_chunks_ok in Hr as (pieces & -> & -> & Hp). cbn [app] in Hm.
  destruct (Z.eqb_spec (0 + len (concat pieces)) size) as [E|]; [|done]. cbn [negb] in Hm.
  injection Hm as <- _. split; [lia|]. exists pieces. split_and!; [done | done|].
  intros original Ho Hcol. f_equal. clear E h1. revert original Ho Hcol.
  induction Hp as [|c p chunks pieces [_ Hp] Hps IH]; intros original Ho Hcol.
  - by apply Forall2_nil_inv_l in Ho.
  - apply Forall2_cons_inv_l in Ho as (q & qs & [_ Hq] & Hqs & ->). f_equal.
    + apply Hcol; [by left | by left | congruence].
    + apply IH; [done|]. intros x y Hx Hy. apply Hcol; by right.
Qed.

(** C40: a snapshot is signed.  A view [verifySnapshot] returns is of the Luna asked for, has ids of 32
    bytes, and one of the given keys verifies, under the given domain, a message computed from the
    view itself.  If the view is in the ranges Luna writes - its time fits 64 bits, its key version 32 bits, its
    strings are well formed - then no record in those ranges that differs from it in any field has that message; a
    view whose key version is beyond 32 bits can share its message with one in the ranges ([key_version_wraps]). *)
Theorem snapshot_is_signed `{NB : NobleBytes} `{JT : JsText} (b : bytes) (signingPublics : list bytes)
    (lunaId domain : jstr) (s : snapshot) :
  verifySnapshot b signingPublics lunaId domain = Some s ->
  sn_lunaId s = lunaId /\ len (sn_treeHash s) = ID_LEN /\ length (sn_treePackId s) = 64%nat
  /\ exists pub msg sig, pub ∈ signingPublics /\ snapshotSignedBytes s = Ok msg
     /\ verify pub domain msg sig = true
     /\ forall s' t v p t' v' p', snapshot_ok s t v p -> snapshot_ok s' t' v' p' ->
          snapshotSignedBytes s' = Ok msg -> agrees s s' /\ t = t' /\ v = v'.
Proof.
  unfold verifySnapshot. destruct (verify_record b signingPublics lunaId domain) as [[s0|]|] eqn:Hv; try done.
  intros [= ->]. apply verify_record_some in Hv as (H1 & H2 & H3 & pub & msg & sig & Hin & Hm & Hs).
  split_and!; [done | done | done|]. exists pub, msg, sig. split_and!; [done | done | done|].
  intros. by eapply signed_bytes_agree.
Qed.

(** ** The statements on concrete packs and records *)

#[local] Existing Instances Toy.noble Toy.noble_bytes Toy.noble_seal.

Module Sample.
Definition key : bytes := replicate 32 7.
Definition nonce : bytes := replicate 24 0.
Definition scope : bytes := replicate 32 1.
Definition id1 : bytes := replicate 32 2.
Definition id2 : bytes := replicate 32 5.
Definition chunks : list (bytes * bytes) := [(id1, [10; 20; 30]); (id2, [5])].
Definition sealedIndex : bytes := pack_index scope chunks ++ Toy.tag key.
Definition sealedBody : bytes := pack_body chunks ++ Toy.tag key.
Definition file : bytes := pack_file [9] (nonce ++ sealedIndex) (nonce ++ sealedBody).
Definition unwrapKey (_ : bytes) : thrown bytes := Ok key.

Definition number (z : Z) : json := JNum (num_of_Z z).
Definition str (s : string) : json := JStr (js s).
Definition hex (b : bytes) : json := JStr (Toy.to_hex b).

Definition chunk_json : json :=
  JObj [(js "id", hex id1); (js "pack", hex id1); (js "offset", number 0); (js "len", number 3)].
Definition tree_json : json :=
  JObj [(js "entries", JArr [JObj [(js "path", str "a.txt"); (js "size", number 3);
                                   (js "mtime", number 1700000000); (js "chunks", JArr [chunk_json])]])].

Definition view (version : Z) : snapshot := {|
  sn_lunaId := js "luna"; sn_protectionId := js "p"; sn_snapshotId := js "s";
  sn_createdAt := Some (number 1700000000); sn_keyVersion := Some (number version);
  sn_treePackId := Toy.to_hex id1; sn_treeHash := id2; sn_meta := [1] |}.

Definition record_json : json :=
  JObj [(js "luna_id", str "luna"); (js "protection_id", str "p"); (js "snapshot_id", str "s");
        (js "created_at", number 1700000000); (js "key_version", number 1);
        (js "tree_pack_id", hex id1); (js "tree_hash", hex id2); (js "meta", hex [1])].

Definition seed : bytes := replicate 32 3.

(** A parser of two texts: the record under the given signature, and the file list. *)
Definition texts (sig : bytes) : JsText := {|
  json_parse b := Some (if bool_decide (b = [1])
                        then JObj [(js "record", record_json); (js "signature", hex sig)] else tree_json);
  coerce_number _ := Err TypeError;
  coerce_bigint _ := Err TypeError;
  coerce_string _ := Err TypeError;
|}.

Definition message : bytes :=
  canonical (snapshot_fields (view 1) (be 8 1700000000) (be 4 1) id1).
Definition public : bytes := default [] (to_option (signerPublic seed)).
Definition signature : bytes := default [] (to_option (sign seed (js "snapshot") message)).

Definition read (_ : jstr) : buffers pack_handle :=
  mret {| ph_chunk := fun _ => p ← alloc [10; 20; 30]; mret (Some p); ph_close := mret tt |}.
Definition file_chunk : chunk_ref :=
  {| ck_id := Toy.to_hex (chunkId key [10; 20; 30]); ck_pack := Toy.to_hex id1; ck_offset := 0; ck_len := 3 |}.
End Sample.

Lemma pack_reads_back_witness :
  exists p h' q h2,
    openPackWith Sample.file (bytesToHex (packId Sample.file)) Sample.unwrapKey empty_heap = (Ok p, h')
    /\ pack_chunk p Sample.id1 h' = (Ok (Some q), h2) /\ h_bufs h2 !! q = Some [10; 20; 30].
Proof.
  destruct (pack_reads_back [9] Sample.key Sample.scope Sample.nonce Sample.nonce
    (Sample.nonce ++ Sample.sealedIndex) (Sample.nonce ++ Sample.sealedBody) Sample.chunks
    Sample.unwrapKey empty_heap) as (p & h' & Hopen & _ & Hchunks & _); try reflexivity.
  - repeat constructor; discriminate.
  - apply (bool_decide_unpack _). vm_compute. exact I.
  - discriminate.
  - destruct (Hchunks Sample.id1 [10; 20; 30]) as (q & h2 & Hc & Hq); [by left|].
    exists p, h', q, h2. split; [exact Hopen | split; [exact Hc | exact Hq]].
Defined.

Lemma opening_clears_keys_witness :
  exists p h', openPackWith Sample.file (bytesToHex (packId Sample.file)) Sample.unwrapKey empty_heap = (Ok p, h')
    /\ exists key, h_bufs h' !! 0%nat = Some (zeros key).
Proof.
  pose proof (opening_clears_keys Sample.file (bytesToHex (packId Sample.file)) Sample.unwrapKey empty_heap) as Ho.
  destruct (openPackWith _ _ _ _) as [r h'] eqn:E. destruct Ho as (bufs & packs & -> & Hr).
  assert (Hok : exists p, r = Ok p) by (vm_compute in E; injection E as <- _; by eexists).
  destruct Hok as [p ->]. exists p, (grown empty_heap bufs packs). split; [reflexivity|].
  destruct Hr as (_ & _ & entries & (n & key & m & index & body & _ & _ & _ & _ & ->) & _). by exists key.
Defined.

Lemma file_list_is_checked_witness :
  exists entries h', readTreeWith (JT := Sample.texts []) Sample.file (bytesToHex (packId Sample.file))
      Sample.id2 Sample.unwrapKey Ok empty_heap = (Ok entries, h')
    /\ map te_path entries = [js "a.txt"]
    /\ exists sealed plain, sha256 sealed = Sample.id2 /\ Ok sealed = Ok (E := error) plain.
Proof.
  do 2 eexists. split; [vm_compute; reflexivity|]. split; [vm_compute; reflexivity|].
  epose proof (file_list_is_checked (JT := Sample.texts []) Sample.file (bytesToHex (packId Sample.file))
    Sample.id2 Sample.unwrapKey Ok empty_heap _ (Ok _)) as Hc. cbv beta iota in Hc.
  destruct Hc as (_ & (sealed & plain & Hs & Hp & _) & _); [vm_compute; reflexivity|].
  exists sealed, plain. split; [exact Hs | exact Hp].
Defined.

Lemma file_is_its_chunks_witness :
  exists h', readFile 3 [Sample.file_chunk] Sample.read Sample.key empty_heap = (Ok [10; 20; 30], h')
    /\ len [10; 20; 30] = 3.
Proof.
  eexists. split; [vm_compute; reflexivity|].
  eapply (file_is_its_chunks 3 [Sample.file_chunk] Sample.read Sample.key empty_heap).
  vm_compute. reflexivity.
Defined.

Lemma snapshot_is_signed_witness :
  exists s, verifySnapshot (JT := Sample.texts Sample.signature) [1] [Sample.public] (js "luna") (js "snapshot")
            = Some s /\ sn_lunaId s = js "luna".
Proof.
  eexists. split; [vm_compute; reflexivity|].
  eapply (snapshot_is_signed (JT := Sample.texts Sample.signature) [1] [Sample.public] (js "luna") (js "snapshot")).
  vm_compute. reflexivity.
Defined.

(** Outside those ranges the signature does not cover the record: key versions [1] and [2^32 + 1] are
    signed by the same bytes. *)
Example key_version_wraps :
  snapshotSignedBytes (JT := Sample.texts []) (Sample.view 1)
  = snapshotSignedBytes (JT := Sample.texts []) (Sample.view (2 ^ 32 + 1)).
Proof. vm_compute. reflexivity. Qed.
