(* ===== verification/CloudPrivate.v ===== *)
(** * Private backup items: [shared/ui/lib/cloud/cloudPrivate.js]

    Scope records, sealed keys and signed snapshots of the backups only their owner can open.  Secret
    keys and plain text are arrays of the heap of [Buffers], filled with zeros where the code does. *)

From S2P Require Import Prelude JsString Bytes BackupCrypto Buffers CloudFormat.

Definition PSCOPES_KIND : jstr := js "pscopes".
Definition PSNAPSHOTS_KIND : jstr := js "psnapshots".
Definition SCOPE_RECORD_DOMAIN : jstr := js "private-scope".
Definition PRIVATE_SNAPSHOT_DOMAIN : jstr := js "private-snapshot".
Definition PRIVATE_OPEN_DOMAIN : jstr := js "private-open".

Definition PACK_KEY_PURPOSE : jstr := js "luna-private-pack-key-v1".
Definition SCOPE_SECRET_PURPOSE : jstr := js "luna-private-scope-secret-v1".
Definition TREE_PURPOSE : jstr := js "luna-private-tree-v1".
Definition META_PURPOSE : jstr := js "luna-private-meta-v1".
Definition DEDUP_PURPOSE : jstr := js "luna-private-dedup-v1".
Definition SCOPE_PURPOSE : jstr := js "luna-scope-v1".

Record scope_record := {
  sr_lunaId : jstr; sr_scope : jstr; sr_userId : jstr;
  sr_sealPublic : bytes; sr_authPublic : bytes; sr_createdAt : Z;
  sr_scopePublic : bytes; sr_sealedScopeSecret : bytes; sr_sealedDedup : bytes;
}.

(** A record as it was fetched: its name is whatever the reply held, its data an array's contents. *)
Record fetched := { ft_name : value; ft_data : bytes }.

(** A scope the phrase opened; the two keys are arrays. *)
Record found_scope := {
  fs_scope : jstr; fs_userId : jstr; fs_createdAt : Z; fs_dedupKey : nat; fs_sealSecret : nat;
}.

(** The fields of a verified snapshot with its opened details; [sealedMeta] is the field [meta] of
    the snapshot itself. *)
Record private_snapshot := { ps_snap : snapshot; ps_meta : backup_meta }.

(** The comparison [(a, b) => b.createdAt - a.createdAt] of two values that passed [BigInt]: the
    sign of the difference, and 0 where it is NaN. *)
Definition created_later `{JsText} (a b : value) : Z :=
  match to_number b, to_number a with
  | Ok b, Ok a => match SFcompare b a with Some Lt => -1 | Some Gt => 1 | _ => 0 end
  | _, _ => 0
  end.

Section Private.
Context `{N : Noble} `{JT : JsText}.

Definition privateAad (purpose lunaId scope : jstr) : bytes :=
  canonical [
    (js "purpose", utf8ToBytes purpose);
    (js "luna_id", utf8ToBytes lunaId);
    (js "scope", utf8ToBytes scope)].

Definition scopeOf (dedupKey : bytes) : jstr :=
  bytesToHex (byte_slice 0 16 (chunkId dedupKey (utf8ToBytes SCOPE_PURPOSE))).

Definition privateUnwrap (sealSecret : bytes) (lunaId scope : jstr) (wrapped : bytes) : thrown bytes :=
  open sealSecret (privateAad PACK_KEY_PURPOSE lunaId scope) wrapped.

Definition openPrivateTreeBytes (sealSecret : bytes) (lunaId scope : jstr) (sealed : bytes) : thrown bytes :=
  catching (open sealSecret (privateAad TREE_PURPOSE lunaId scope) sealed) (fun _ => damaged).

(** ** Sealed details and keys *)

Definition private_meta (parsed : value) : thrown backup_meta :=
  match
    mapM as_string [opt_prop "name" parsed; opt_prop "source_drive" parsed; opt_prop "source_path" parsed;
                    opt_prop "started_by" parsed; opt_prop "started_by_name" parsed]
  with
  | Some [name; drive; path; by_; byName] =>
      Ok {| bm_name := name; bm_sourceDrive := drive; bm_sourcePath := path;
            bm_startedBy := by_; bm_startedByName := byName |}
  | _ => damaged
  end.

Definition openPrivateMeta (sealed sealSecret : bytes) (lunaId scope : jstr) : buffers backup_meta :=
  parsed ← catch
    (plain ← lift (open sealSecret (privateAad META_PURPOSE lunaId scope) sealed); p ← alloc plain;
     finally (match json_parse plain with
              | Some v => mret v
              | None => throwing (js "SyntaxError")
              end) (fill0 p))
    (fun _ => lift damaged);
  lift (private_meta (Some parsed)).

(** The two openers of keys differ in purpose and length only in the code too. *)
Definition openKey (purpose : jstr) (n : Z) (sealed secret : bytes) (lunaId scope : jstr) : buffers nat :=
  plain ← lift (catching (open secret (privateAad purpose lunaId scope) sealed) (fun _ => damaged));
  p ← alloc plain;
  if negb (len plain =? n) then _ ← fill0 p; lift damaged else mret p.

Definition openScopeSecret (sealed ownerSealSecret : bytes) (lunaId scope : jstr) : buffers nat :=
  openKey SCOPE_SECRET_PURPOSE SEAL_SECRET_LEN sealed ownerSealSecret lunaId scope.

Definition sealScopeSecret (draw : nat -> Z -> bytes) (scopeSecret ownerSealPublic : bytes)
    (lunaId scope : jstr) : thrown bytes :=
  seal draw ownerSealPublic (privateAad SCOPE_SECRET_PURPOSE lunaId scope) scopeSecret.

Definition openPrivateDedup (sealed sealSecret : bytes) (lunaId scope : jstr) : buffers nat :=
  openKey DEDUP_PURPOSE KEY_LEN sealed sealSecret lunaId scope.

(** ** Scope records *)

(** What Luna signs of a scope record. *)
Definition scopeSignedBytes (r : scope_record) : bytes :=
  canonical [
    (js "luna_id", utf8ToBytes (sr_lunaId r));
    (js "scope", utf8ToBytes (sr_scope r));
    (js "user_id", utf8ToBytes (sr_userId r));
    (js "seal_public", sr_sealPublic r);
    (js "auth_public", sr_authPublic r);
    (js "created_at", be 8 (sr_createdAt r));
    (js "scope_public", sr_scopePublic r);
    (js "sealed_scope_secret", sr_sealedScopeSecret r);
    (js "sealed_dedup", sr_sealedDedup r)].

(** The body of the [try]; [Ok None] is an early [return null]. *)
Definition check_scope_record (b : bytes) (signingPublics : list bytes) (lunaId : jstr)
  : thrown (option scope_record) :=
  match json_parse b with
  | None => Err (EError (js "SyntaxError"))
  | Some signed =>
      rec ← prop_of "record" (Some signed);
      luna ← prop_of "luna_id" rec;
      if negb (bool_decide (as_string luna = Some lunaId)) then Ok None
      else
        scopeV ← prop_of "scope" rec; userV ← prop_of "user_id" rec; createdV ← prop_of "created_at" rec;
        match as_string scopeV, as_string userV, safe_integer createdV with
        | Some scope, Some userId, Some createdAt =>
            sp ← prop_of "seal_public" rec; sealPublic ← hex_field sp;
            ap ← prop_of "auth_public" rec; authPublic ← hex_field ap;
            pp ← prop_of "scope_public" rec; scopePublic ← hex_field pp;
            ss ← prop_of "sealed_scope_secret" rec; sealedScopeSecret ← hex_field ss;
            sd ← prop_of "sealed_dedup" rec; sealedDedup ← hex_field sd;
            if negb (len sealPublic =? SEAL_PUBLIC_LEN) || negb (len authPublic =? SIG_PUBLIC_LEN) then Ok None
            else if negb (len scopePublic =? SEAL_PUBLIC_LEN) then Ok None
            else
              sg ← prop_of "signature" (Some signed); sig ← hex_field sg;
              if negb (len sig =? SIG_LEN) then Ok None
              else
                let view := {| sr_lunaId := lunaId; sr_scope := scope; sr_userId := userId;
                               sr_sealPublic := sealPublic; sr_authPublic := authPublic;
                               sr_createdAt := createdAt; sr_scopePublic := scopePublic;
                               sr_sealedScopeSecret := sealedScopeSecret; sr_sealedDedup := sealedDedup |} in
                let msg := scopeSignedBytes view in
                Ok (if existsb (fun pub => verify pub SCOPE_RECORD_DOMAIN msg sig) signingPublics
                    then Some view else None)
        | _, _, _ => Ok None
        end
  end.

Definition verifyScopeRecord (b : bytes) (signingPublics : list bytes) (lunaId : jstr) : option scope_record :=
  match check_scope_record b signingPublics lunaId with
  | Ok r => r
  | Err _ => None
  end.

(** ** Opening a scope on Connect *)

Definition privateOpenMessage (lunaId scope : jstr) (challenge : bytes) : bytes :=
  canonical [
    (js "luna_id", utf8ToBytes lunaId);
    (js "scope", utf8ToBytes scope);
    (js "challenge", challenge)].

Definition signPrivateOpen (authSecret : bytes) (lunaId scope : jstr) (challenge : bytes) : thrown bytes :=
  sign authSecret PRIVATE_OPEN_DOMAIN (privateOpenMessage lunaId scope challenge).

(** ** The scopes of a phrase *)

(** [derive], with the three secrets it returns in arrays: the sealing secret, [selfKey] and
    [authSecret]. *)
Definition derive_secrets (entropy : bytes) (lunaId : jstr) : buffers (user_keys * list nat) :=
  k ← lift (derive entropy lunaId);
  s ← alloc (uk_sealSecret k); f ← alloc (uk_selfKey k); a ← alloc (uk_authSecret k);
  mret (k, [s; f; a]).

Fixpoint fill_all (l : list nat) : buffers unit :=
  match l with
  | [] => mret tt
  | p :: l => _ ← fill0 p; fill_all l
  end.

(** The two keys of a verified record: the inner [try] of [findMyPrivateScopes] and the test of the
    scope's name after it.  [None] is a [continue]; what was opened is cleared first. *)
Definition open_scope_keys (sealedScopeSecret : bytes) (ownerSealSecret : bytes) (lunaId : jstr)
    (rec : scope_record) : buffers (option found_scope) :=
  keys ← catch
    (s ← openScopeSecret sealedScopeSecret ownerSealSecret lunaId (sr_scope rec);
     secret ← read_buf s;
     d ← unless_done (openPrivateDedup (sr_sealedDedup rec) secret lunaId (sr_scope rec)) (fill0 s);
     mret (Some (s, d)))
    (fun _ => mret None);
  match keys with
  | None => mret None
  | Some (s, d) =>
      dedupKey ← read_buf d;
      if negb (bool_decide (scopeOf dedupKey = sr_scope rec)) then _ ← fill_all [s; d]; mret None
      else mret (Some {| fs_scope := sr_scope rec; fs_userId := sr_userId rec;
                         fs_createdAt := sr_createdAt rec; fs_dedupKey := d; fs_sealSecret := s |})
  end.

(** The first signing key that verifies the record. *)
Fixpoint verify_with_any (b : bytes) (signingPublics : list bytes) (lunaId : jstr) : option scope_record :=
  match signingPublics with
  | [] => None
  | pub :: signingPublics =>
      match verifyScopeRecord b [pub] lunaId with
      | Some rec => Some rec
      | None => verify_with_any b signingPublics lunaId
      end
  end.

Fixpoint find_scopes (k : user_keys) (lunaId : jstr) (signingPublics : list bytes) (pscopes : list fetched)
    (found : list found_scope) : buffers (list found_scope) :=
  match pscopes with
  | [] => mret found
  | r :: pscopes =>
      let again := find_scopes k lunaId signingPublics pscopes in
      match verify_with_any (ft_data r) signingPublics lunaId with
      | Some rec =>
          if negb (bool_decide (as_string (ft_name r) = Some (sr_scope rec)))
             || negb (sameBytes (sr_sealPublic rec) (uk_sealPublic k))
          then again found
          else
            f ← open_scope_keys (sr_sealedScopeSecret rec) (uk_sealSecret k) lunaId rec;
            again (match f with Some f => found ++ [f] | None => found end)
      | None => again found
      end
  end.

Definition findMyPrivateScopes (lunaId : jstr) (entropy : bytes) (pscopes : list fetched)
    (signingPublics : list bytes) : buffers (list found_scope) :=
  '(k, secrets) ← derive_secrets entropy lunaId;
  finally
    (found ← find_scopes k lunaId signingPublics pscopes [];
     mret (js_sort (fun a b => fs_createdAt b - fs_createdAt a) found))
    (fill_all secrets).

(** ** The snapshots of a scope *)

Fixpoint read_snapshots (lunaId : jstr) (sealSecret : bytes) (scope : jstr) (psnapshots : list fetched)
    (signingPublics : list bytes) (out : list private_snapshot) : buffers (list private_snapshot) :=
  match psnapshots with
  | [] => mret out
  | r :: psnapshots =>
      let again := read_snapshots lunaId sealSecret scope psnapshots signingPublics in
      name ← lift (string_of (ft_name r));
      if negb (starts_with (scope ++ js ".") name) then again out
      else
        match verifySnapshot (ft_data r) signingPublics lunaId PRIVATE_SNAPSHOT_DOMAIN with
        | None => again out
        | Some snap =>
            if negb (bool_decide (name = scope ++ js "." ++ sn_snapshotId snap)) then again out
            else
              meta ← catch (Some <$> openPrivateMeta (sn_meta snap) sealSecret lunaId scope)
                       (fun _ => mret None);
              again (match meta with
                     | Some meta => out ++ [{| ps_snap := snap; ps_meta := meta |}]
                     | None => out
                     end)
        end
  end.

Definition readPrivateSnapshots (lunaId : jstr) (sealSecret : bytes) (scope : jstr)
    (psnapshots : list fetched) (signingPublics : list bytes) : buffers (list private_snapshot) :=
  out ← read_snapshots lunaId sealSecret scope psnapshots signingPublics [];
  mret (js_sort (fun a b => created_later (sn_createdAt (ps_snap a)) (sn_createdAt (ps_snap b))) out).
End Private.
