(* ===== verification/CloudPrivateFacts.v ===== *)
(** * Private backup items: properties

    The scopes a recovery phrase finds, as one function of the records; what stays in memory; what a
    scope record's signatures cover. *)

From S2P Require Import Prelude JsString Utf8 Bytes BackupCrypto CryptoFacts Buffers CloudFormat.
From S2P Require Import CloudFacts CloudPrivate.

(** ** Growing heaps *)

Lemma grown_grown (h : heap) (b1 b2 : list bytes) (p1 p2 : list pack) :
  grown (grown h b1 p1) b2 p2 = grown h (b1 ++ b2) (p1 ++ p2).
Proof. unfold grown. cbn. by rewrite !app_assoc. Qed.

Lemma alloc_heap (b : bytes) (h : heap) : alloc b h = (Ok (length (h_bufs h)), grown h [b] []).
Proof. unfold alloc, grown. destruct h as [bs ps]. cbn. by rewrite app_nil_r. Qed.

Lemma read_grown (h : heap) (bufs : list bytes) (packs : list pack) (i : nat) (b : bytes) :
  bufs !! i = Some b -> read_buf (length (h_bufs h) + i)%nat (grown h bufs packs) = (Ok b, grown h bufs packs).
Proof.
  intros Hb. unfold read_buf, grown. cbn. rewrite lookup_app_r by lia. by rewrite Nat.add_comm, Nat.add_sub, Hb.
Qed.

Lemma fill0_last (h : heap) (b : bytes) :
  fill0 (length (h_bufs h)) (grown h [b] []) = (Ok tt, grown h [zeros b] []).
Proof. pose proof (fill0_grown h [b] [] 0) as E. by rewrite Nat.add_0_r in E. Qed.

(** A heap whose arrays from [base] on are zeroed, save those in [keep]. *)
Definition tidy (base : nat) (keep : list nat) (h : heap) : Prop :=
  forall i b, (base <= i)%nat -> h_bufs h !! i = Some b -> i ∈ keep \/ all_zero b.

Lemma tidy_start (h : heap) : tidy (length (h_bufs h)) [] h.
Proof. intros i b Hi Hb. apply lookup_lt_Some in Hb. lia. Qed.

Lemma tidy_weaken (base : nat) (keep keep' : list nat) (h : heap) :
  tidy base keep h -> keep ⊆ keep' -> tidy base keep' h.
Proof. intros Ht Hk i b Hi Hb. destruct (Ht i b Hi Hb); [left; by apply Hk | by right]. Qed.

Lemma tidy_alloc (base : nat) (keep : list nat) (b : bytes) (h : heap) :
  tidy base keep h -> tidy base (length (h_bufs h) :: keep) (alloc b h).2.
Proof.
  intros Ht i x Hi. rewrite alloc_heap. cbn. intros [Hx|[Hl Hx]]%lookup_app_Some.
  - destruct (Ht i x Hi Hx); [left; by right | by right].
  - apply list_lookup_singleton_Some in Hx as [Hx _]. left. replace i with (length (h_bufs h)) by lia. by left.
Qed.

Lemma tidy_fill (base : nat) (p : nat) (keep : list nat) (h : heap) :
  tidy base (p :: keep) h -> tidy base keep (fill0 p h).2.
Proof.
  intros Ht i b Hi. cbn. destruct (decide (p = i)) as [->|Hne].
  - rewrite list_lookup_alter_eq. intros (x & _ & ->)%fmap_Some. right. apply zeros_zero.
  - rewrite list_lookup_alter_ne by done. intros Hb.
    destruct (Ht i b Hi Hb) as [[E|?]%elem_of_cons|?]; [by subst | by left | by right].
Qed.

Lemma tidy_refill (base : nat) (p : nat) (keep : list nat) (h : heap) :
  tidy base keep h -> tidy base keep (fill0 p h).2.
Proof. intros Ht. apply tidy_fill. eapply tidy_weaken; [done|]. intros x Hx. by right. Qed.

Lemma fill_all_run (l : list nat) (h : heap) : (fill_all l h).1 = Ok tt.
Proof. revert h. induction l as [|p l IH]; intros h; [done|]. cbn [fill_all]. unfold mbind, buffers_bind, fill0. apply IH. Qed.

Lemma fill_all_cons (p : nat) (l : list nat) (h : heap) :
  (fill_all (p :: l) h).2 = (fill_all l (fill0 p h).2).2.
Proof. done. Qed.

Lemma tidy_fill_all (base : nat) (l keep : list nat) (h : heap) :
  tidy base (l ++ keep) h -> tidy base keep (fill_all l h).2.
Proof.
  revert h. induction l as [|p l IH]; intros h Ht; [done|]. rewrite fill_all_cons. by apply IH, tidy_fill.
Qed.

Lemma tidy_grown (base : nat) (keep keep' : list nat) (h : heap) (bufs : list bytes) (packs : list pack) :
  tidy base keep h ->
  (forall i b, bufs !! i = Some b -> (length (h_bufs h) + i)%nat ∈ keep' \/ all_zero b) ->
  tidy base (keep' ++ keep) (grown h bufs packs).
Proof.
  intros Ht Hb i b Hi [Hx|[Hl Hx]]%lookup_app_Some.
  - destruct (Ht i b Hi Hx); [left; apply elem_of_app; by right | by right].
  - destruct (Hb _ _ Hx) as [Hk|]; [left; apply elem_of_app; left | by right].
    by replace (length (h_bufs h) + (i - length (h_bufs h)))%nat with i in Hk by lia.
Qed.

(** ** Opening a record's keys *)

Section Found.
Context `{N : Noble} `{JT : JsText}.

(** A scope as its two keys spell it. *)
Record opened_scope := {
  os_scope : jstr; os_userId : jstr; os_createdAt : Z; os_dedupKey : bytes; os_sealSecret : bytes;
}.

(** A sealed key of the expected length. *)
Definition key_of (purpose : jstr) (n : Z) (sealed secret : bytes) (lunaId scope : jstr) : option bytes :=
  plain ← to_option (open secret (privateAad purpose lunaId scope) sealed);
  if len plain =? n then Some plain else None.

Definition scope_keys (sealedScopeSecret ownerSealSecret : bytes) (lunaId : jstr) (rec : scope_record)
  : option opened_scope :=
  secret ← key_of SCOPE_SECRET_PURPOSE SEAL_SECRET_LEN sealedScopeSecret ownerSealSecret lunaId (sr_scope rec);
  dedup ← key_of DEDUP_PURPOSE KEY_LEN (sr_sealedDedup rec) secret lunaId (sr_scope rec);
  if bool_decide (scopeOf dedup = sr_scope rec)
  then Some {| os_scope := sr_scope rec; os_userId := sr_userId rec; os_createdAt := sr_createdAt rec;
               os_dedupKey := dedup; os_sealSecret := secret |}
  else None.

(** What one record gives a phrase: nothing, unless it is signed, named after its scope, sealed to
    this phrase, and its keys open and belong to the scope. *)
Definition record_scope (k : user_keys) (lunaId : jstr) (signingPublics : list bytes) (r : fetched)
  : option opened_scope :=
  rec ← verify_with_any (ft_data r) signingPublics lunaId;
  if bool_decide (as_string (ft_name r) = Some (sr_scope rec)) && sameBytes (sr_sealPublic rec) (uk_sealPublic k)
  then scope_keys (sr_sealedScopeSecret rec) (uk_sealSecret k) lunaId rec
  else None.

(** A found scope holds an opened one, in the arrays [bufs]. *)
Definition holds (bufs : list bytes) (f : found_scope) (o : opened_scope) : Prop :=
  fs_scope f = os_scope o /\ fs_userId f = os_userId o /\ fs_createdAt f = os_createdAt o
  /\ bufs !! fs_dedupKey f = Some (os_dedupKey o) /\ bufs !! fs_sealSecret f = Some (os_sealSecret o).

Definition scope_arrays (f : found_scope) : list nat := [fs_sealSecret f; fs_dedupKey f].

Lemma openKey_run (purpose : jstr) (n : Z) (sealed secret : bytes) (lunaId scope : jstr) (h : heap) :
  match key_of purpose n sealed secret lunaId scope with
  | Some plain => openKey purpose n sealed secret lunaId scope h = (Ok (length (h_bufs h)), grown h [plain] [])
  | None => exists bufs, openKey purpose n sealed secret lunaId scope h = (damaged, grown h bufs [])
      /\ Forall all_zero bufs
  end.
Proof.
  unfold key_of, openKey. rewrite lift_bind.
  destruct (open secret (privateAad purpose lunaId scope) sealed) as [plain|e]; cbn [catching to_option mbind option_bind].
  - rewrite (bind_ran _ _ _ _ _ (alloc_heap plain h)). destruct (len plain =? n); cbn [negb]; [done|].
    exists [zeros plain]. rewrite (bind_ran _ _ _ _ _ (fill0_last h plain)).
    split; [done | repeat constructor; apply zeros_zero].
  - exists []. rewrite grown_nil. split; [done | constructor].
Qed.

Lemma open_scope_keys_run (sealedScopeSecret ownerSealSecret : bytes) (lunaId : jstr) (rec : scope_record) (h : heap) :
  let n := length (h_bufs h) in
  match scope_keys sealedScopeSecret ownerSealSecret lunaId rec with
  | Some o =>
      open_scope_keys sealedScopeSecret ownerSealSecret lunaId rec h
      = (Ok (Some {| fs_scope := os_scope o; fs_userId := os_userId o; fs_createdAt := os_createdAt o;
                     fs_dedupKey := n + 1; fs_sealSecret := n |}),
         grown h [os_sealSecret o; os_dedupKey o] [])
  | None => exists bufs, open_scope_keys sealedScopeSecret ownerSealSecret lunaId rec h = (Ok None, grown h bufs [])
      /\ Forall all_zero bufs
  end.
Proof.
  intros n. unfold scope_keys, open_scope_keys, openScopeSecret, openPrivateDedup.
  pose proof (openKey_run SCOPE_SECRET_PURPOSE SEAL_SECRET_LEN sealedScopeSecret ownerSealSecret lunaId (sr_scope rec) h) as Hs.
  destruct (key_of SCOPE_SECRET_PURPOSE _ _ _ _ _) as [secret|]; cbn [mbind option_bind].
  2:{ destruct Hs as (bufs & Hs & Hz). exists bufs. split; [|done].
      erewrite bind_ran; [|erewrite catch_failed by (eapply bind_failed, Hs); reflexivity]. done. }
  pose proof (openKey_run DEDUP_PURPOSE KEY_LEN (sr_sealedDedup rec) secret lunaId (sr_scope rec) (grown h [secret] [])) as Hd.
  pose proof (read_grown h [secret] [] 0 secret eq_refl) as Hr. rewrite Nat.add_0_r in Hr.
  destruct (key_of DEDUP_PURPOSE _ _ _ _ _) as [dedup|]; cbn [mbind option_bind].
  - rewrite grown_grown in Hd. cbn [app grown h_bufs] in Hd. rewrite length_app in Hd. cbn [length] in Hd. fold n in Hs, Hr, Hd.
    erewrite bind_ran; [|eapply catch_ran; erewrite bind_ran by exact Hs; erewrite bind_ran by exact Hr;
      erewrite bind_ran by (eapply unless_ran, Hd); reflexivity].
    cbn beta iota. rewrite (bind_ran _ _ _ _ _ (read_grown h [secret; dedup] [] 1 dedup eq_refl)).
    destruct (bool_decide_reflect (scopeOf dedup = sr_scope rec)) as [Heq|]; cbn [negb]; [done|].
    exists [zeros secret; zeros dedup]. split; [|repeat constructor; apply zeros_zero].
    erewrite bind_ran; [done|]. cbn [fill_all].
    pose proof (fill0_bind (fun _ : unit => _ ← fill0 (n + 1)%nat; mret tt) h [secret; dedup] [] 0) as E.
    rewrite Nat.add_0_r in E. fold n in E. rewrite E. unfold n. by rewrite fill0_bind.
  - destruct Hd as (bufs & Hd & Hz). rewrite grown_grown in Hd. fold n in Hs, Hr.
    exists (zeros secret :: bufs). split; [|constructor; [apply zeros_zero | done]].
    erewrite bind_ran; [|erewrite catch_failed; [reflexivity|]; erewrite bind_ran by exact Hs;
      erewrite bind_ran by exact Hr; eapply bind_failed, unless_failed, Hd].
    cbn beta iota. pose proof (fill0_grown h (secret :: bufs) [] 0) as E. rewrite Nat.add_0_r in E.
    fold n in E. cbn [app]. rewrite E. done.
Qed.

(** The arrays a search adds: each belongs to a found scope or is zeroed. *)
Definition kept_or_zero (base : nat) (bufs : list bytes) (keep : list nat) : Prop :=
  forall i b, bufs !! i = Some b -> (base + i)%nat ∈ keep \/ all_zero b.

Lemma kept_zero (base : nat) (bufs : list bytes) : Forall all_zero bufs -> kept_or_zero base bufs [].
Proof. intros Hz i b Hb. right. by eapply Forall_lookup_1. Qed.

Lemma kept_app (base : nat) (b1 b2 : list bytes) (k1 k2 : list nat) :
  kept_or_zero base b1 k1 -> kept_or_zero (base + length b1) b2 k2 -> kept_or_zero base (b1 ++ b2) (k1 ++ k2).
Proof.
  intros H1 H2 i b [Hb|[Hl Hb]]%lookup_app_Some.
  - destruct (H1 i b Hb); [left; apply elem_of_app; by left | by right].
  - destruct (H2 _ b Hb) as [Hk|]; [left; apply elem_of_app; right | by right].
    by replace (base + length b1 + (i - length b1))%nat with (base + i)%nat in Hk by lia.
Qed.

Definition found_ok (base : nat) (bufs : list bytes) (f : found_scope) (o : opened_scope) : Prop :=
  fs_scope f = os_scope o /\ fs_userId f = os_userId o /\ fs_createdAt f = os_createdAt o
  /\ (exists i j, fs_sealSecret f = (base + i)%nat /\ bufs !! i = Some (os_sealSecret o)
        /\ fs_dedupKey f = (base + j)%nat /\ bufs !! j = Some (os_dedupKey o)).

Lemma found_ok_front (base : nat) (b1 b2 : list bytes) (f : found_scope) (o : opened_scope) :
  found_ok base b1 f o -> found_ok base (b1 ++ b2) f o.
Proof.
  intros (H1 & H2 & H3 & i & j & H4 & H5 & H6 & H7). split_and!; [done..|]. exists i, j.
  split_and!; try done; by apply lookup_app_l_Some.
Qed.

Lemma found_ok_back (base : nat) (b1 b2 : list bytes) (f : found_scope) (o : opened_scope) :
  found_ok (base + length b1) b2 f o -> found_ok base (b1 ++ b2) f o.
Proof.
  intros (H1 & H2 & H3 & i & j & H4 & H5 & H6 & H7). split_and!; [done..|].
  exists (length b1 + i)%nat, (length b1 + j)%nat.
  rewrite !lookup_app_r by lia. rewrite !(Nat.add_comm (length b1)), !Nat.add_sub. split_and!; done || lia.
Qed.

(** Pointers to arrays of their own, from [base] on. *)
Definition apart (base : nat) (l : list nat) : Prop := NoDup l /\ Forall (fun i => base <= i)%nat l.

Lemma apart_nil (base : nat) : apart base [].
Proof. split; constructor. Qed.

Lemma apart_two (base : nat) (l : list nat) : apart (base + 2) l -> apart base (base :: base + 1 :: l)%nat.
Proof.
  intros [Hn Hf]. rewrite Forall_forall in Hf. split.
  - rewrite !NoDup_cons. split_and!; [|intros Hx; specialize (Hf _ Hx); lia | done].
    intros [Hx|Hx]%elem_of_cons; [lia|]. specialize (Hf _ Hx). lia.
  - repeat constructor; [lia..|]. apply Forall_forall. intros i Hi. specialize (Hf _ Hi). lia.
Qed.

Lemma apart_later (base n : nat) (l : list nat) : apart (base + n) l -> apart base l.
Proof. intros [Hn Hf]. split; [done|]. eapply Forall_impl; [exact Hf|]. intros. cbn in *. lia. Qed.

Lemma find_scopes_run (k : user_keys) (lunaId : jstr) (signingPublics : list bytes) (pscopes : list fetched) :
  forall found h, exists fs bufs,
    find_scopes k lunaId signingPublics pscopes found h = (Ok (found ++ fs), grown h bufs [])
    /\ Forall2 (found_ok (length (h_bufs h)) bufs) fs (omap (record_scope k lunaId signingPublics) pscopes)
    /\ kept_or_zero (length (h_bufs h)) bufs (flat_map scope_arrays fs)
    /\ apart (length (h_bufs h)) (flat_map scope_arrays fs).
Proof.
  induction pscopes as [|r pscopes IH]; intros found h.
  { exists [], []. rewrite grown_nil, app_nil_r. split_and!; [done | constructor | by apply kept_zero | apply apart_nil]. }
  cbn [find_scopes omap list_omap]. unfold record_scope at 1.
  destruct (verify_with_any (ft_data r) signingPublics lunaId) as [rec|]; cbn [mbind option_bind]; [|apply IH].
  destruct (bool_decide (as_string (ft_name r) = Some (sr_scope rec))); cbn [negb orb andb]; [|apply IH].
  destruct (sameBytes (sr_sealPublic rec) (uk_sealPublic k)); cbn [negb]; [|apply IH].
  pose proof (open_scope_keys_run (sr_sealedScopeSecret rec) (uk_sealSecret k) lunaId rec h) as Hr. cbv zeta in Hr.
  destruct (scope_keys (sr_sealedScopeSecret rec) (uk_sealSecret k) lunaId rec) as [o|].
  - rewrite (bind_ran _ _ _ _ _ Hr). edestruct IH as (fs & bufs & -> & Hf & Hk & Ha). clear Hr.
    eexists (_ :: fs), (_ ++ bufs). rewrite grown_grown, <- app_assoc. split; [done|].
    cbn [h_bufs grown] in Hf, Hk, Ha. rewrite length_app in Hf, Hk, Ha. split_and!.
    + constructor.
      * apply found_ok_front. split_and!; [done..|]. exists 0%nat, 1%nat. split_and!; done || lia.
      * eapply Forall2_impl; [exact Hf|]. intros. by apply found_ok_back.
    + cbn [flat_map]. apply kept_app; [|exact Hk]. intros [|[|i]] b Hb; left; cbn; set_solver by lia.
    + by apply apart_two.
  - destruct Hr as (b0 & Hr & Hz). rewrite (bind_ran _ _ _ _ _ Hr).
    edestruct IH as (fs & bufs & -> & Hf & Hk & Ha). exists fs, (b0 ++ bufs). rewrite grown_grown.
    cbn [h_bufs grown] in Hf, Hk, Ha. rewrite length_app in Hf, Hk, Ha. split_and!; [done | | |].
    + eapply Forall2_impl; [exact Hf|]. intros. by apply found_ok_back.
    + apply (kept_app _ _ _ []); [by apply kept_zero | exact Hk].
    + by eapply apart_later.
Qed.
End Found.

(** Sorting two lists that correspond. *)
Lemma js_sort_Forall2 {A B} (R : A -> B -> Prop) (cmp : A -> A -> Z) (cmp' : B -> B -> Z) (l : list A) (l' : list B) :
  (forall x x' y y', R x x' -> R y y' -> cmp x y = cmp' x' y') ->
  Forall2 R l l' -> Forall2 R (js_sort cmp l) (js_sort cmp' l').
Proof.
  intros Hc. induction 1 as [|x x' l l' Hx _ IH]; cbn [js_sort]; [constructor|].
  induction IH as [|y y' l1 l1' Hy Hl IH2]; cbn [sort_insert]; [by repeat constructor|].
  rewrite (Hc x x' y y') by done. destruct (cmp' x' y' <=? 0); repeat (constructor; try done).
Qed.

Section Records.
Context `{NB : NobleBytes} `{JT : JsText}.

(** What the code checked of a record it accepts. *)
Lemma verifyScopeRecord_some (b : bytes) (pubs : list bytes) (lunaId : jstr) (r : scope_record) :
  verifyScopeRecord b pubs lunaId = Some r ->
  sr_lunaId r = lunaId /\ len (sr_sealPublic r) = SEAL_PUBLIC_LEN /\ len (sr_authPublic r) = SIG_PUBLIC_LEN
  /\ len (sr_scopePublic r) = SEAL_PUBLIC_LEN /\ - MAX_SAFE_INTEGER <= sr_createdAt r <= MAX_SAFE_INTEGER
  /\ exists pub sig, pub ∈ pubs /\ verify pub SCOPE_RECORD_DOMAIN (scopeSignedBytes r) sig = true.
Proof.
  unfold verifyScopeRecord. destruct (check_scope_record b pubs lunaId) as [res|] eqn:E; [|done]. intros ->.
  unfold check_scope_record in E. destruct (json_parse b) as [signed|]; [|done].
  apply bind_ok in E as (rec & _ & (luna & _ & E)%bind_ok). destruct (negb (bool_decide _)); [done|].
  apply bind_ok in E as (sv & _ & (uv & _ & (cv & _ & E)%bind_ok)%bind_ok).
  destruct (as_string sv) as [scope|]; [|done]. destruct (as_string uv) as [user|]; [|done].
  destruct (safe_integer cv) as [created|] eqn:Hc; [|done].
  do 5 (apply bind_ok in E as (? & _ & (? & _ & E)%bind_ok)).
  match type of E with context [negb (len ?x =? SEAL_PUBLIC_LEN) || negb (len ?y =? SIG_PUBLIC_LEN)] =>
    destruct (Z.eqb_spec (len x) SEAL_PUBLIC_LEN), (Z.eqb_spec (len y) SIG_PUBLIC_LEN); try done end.
  cbn [negb orb] in E. match type of E with context [negb (len ?x =? SEAL_PUBLIC_LEN)] =>
    destruct (Z.eqb_spec (len x) SEAL_PUBLIC_LEN); [|done] end.
  cbn [negb] in E. apply bind_ok in E as (sg & _ & (sig & _ & E)%bind_ok).
  destruct (negb (len sig =? SIG_LEN)); [done|]. cbv zeta in E. destruct (existsb _ pubs) eqn:Hex; [|done].
  injection E as <-. apply existsb_exists in Hex as (pub & Hin & Hv). cbn.
  split_and!; try done; [| |by exists pub, sig; split; [apply list_elem_of_In|]];
    unfold safe_integer in Hc; destruct cv as [[]|]; try done; apply bind_Some in Hc as (z & _ & Hz);
    destruct ((_ <=? z) && (z <=? _)) eqn:Hr; try done; injection Hz as ->;
    by apply andb_true_iff in Hr as [?%Z.leb_le ?%Z.leb_le].
Qed.

(** Well-formed strings and sizes the encoding can carry. *)
Record scope_record_ok (r : scope_record) : Prop := {
  rk_strings : Forall (fun s => well_formed s /\ len (utf8ToBytes s) < 2 ^ 32) [sr_lunaId r; sr_scope r; sr_userId r];
  rk_sizes : Forall (fun b => len b < 2 ^ 32)
    [sr_sealPublic r; sr_authPublic r; sr_scopePublic r; sr_sealedScopeSecret r; sr_sealedDedup r];
  rk_created : - 2 ^ 63 <= sr_createdAt r < 2 ^ 63;
}.

Definition scope_fields (r : scope_record) : list (jstr * bytes) := [
  (js "luna_id", utf8ToBytes (sr_lunaId r)); (js "scope", utf8ToBytes (sr_scope r));
  (js "user_id", utf8ToBytes (sr_userId r)); (js "seal_public", sr_sealPublic r);
  (js "auth_public", sr_authPublic r); (js "created_at", be 8 (sr_createdAt r));
  (js "scope_public", sr_scopePublic r); (js "sealed_scope_secret", sr_sealedScopeSecret r);
  (js "sealed_dedup", sr_sealedDedup r)].

Lemma scope_fields_ok (r : scope_record) : scope_record_ok r -> Forall field_ok (scope_fields r).
Proof.
  intros [Hs Hb _]. rewrite !Forall_cons in Hs. rewrite !Forall_cons in Hb. destruct_and!. unfold scope_fields.
  repeat (apply Forall_cons; split); try apply Forall_nil_2;
    apply label_ok; rewrite ?be_len; done || (vm_compute; reflexivity).
Qed.

Lemma scope_bytes_inj (r r' : scope_record) :
  scope_record_ok r -> scope_record_ok r' -> scopeSignedBytes r = scopeSignedBytes r' -> r = r'.
Proof.
  intros Ho Ho' E. change (canonical (scope_fields r) = canonical (scope_fields r')) in E.
  apply canonical_inj in E; [|by apply scope_fields_ok..].
  destruct Ho as [Hs _ Hc], Ho' as [Hs' _ Hc']. rewrite !Forall_cons in Hs, Hs'. destruct_and!.
  destruct r as [l1 s1 u1 a1 b1 t1 c1 d1 e1], r' as [l2 s2 u2 a2 b2 t2 c2 d2 e2]. unfold scope_fields in E.
  cbn [sr_lunaId sr_scope sr_userId sr_sealPublic sr_authPublic sr_createdAt sr_scopePublic
    sr_sealedScopeSecret sr_sealedDedup] in *.
  remember (be 8 t1) as x1 eqn:Ht1. remember (be 8 t2) as x2 eqn:Ht2. injection E as E1 E2 E3 -> -> E6 -> -> ->.
  rewrite Ht1, Ht2 in E6. apply utf8ToBytes_inj in E1, E2, E3; [subst|done..]. f_equal.
  apply (be_mod 8) in E6. change (256 ^ Z.of_nat 8) with (2 ^ 64) in E6. Z.div_mod_to_equations. lia.
Qed.
End Records.

(** A sealed scope secret opens with the owner's key, under the same Luna and scope. *)
Lemma sealed_scope_opens `{NB : NobleBytes} {NS : NobleSeal} (ownerSecret ownerPublic secret sealed : bytes)
    (draw : nat -> Z -> bytes) (lunaId scope : jstr) :
  (forall k n, 0 <= n -> len (draw k n) = n) -> sealing_keys ownerSecret ownerPublic ->
  len secret = SEAL_SECRET_LEN -> sealScopeSecret draw secret ownerPublic lunaId scope = Ok sealed ->
  key_of SCOPE_SECRET_PURPOSE SEAL_SECRET_LEN sealed ownerSecret lunaId scope = Some secret.
Proof.
  intros Hd Hk Hl Hs. unfold key_of. erewrite seal_open by done. cbn. by rewrite Hl.
Qed.

Section Search.
Context `{N : Noble} `{JT : JsText}.

Definition newest (a b : opened_scope) : Z := os_createdAt b - os_createdAt a.

Lemma derive_secrets_run (entropy : bytes) (lunaId : jstr) (h : heap) :
  let n := length (h_bufs h) in
  derive_secrets entropy lunaId h
  = match derive entropy lunaId with
    | Ok k => (Ok (k, [n; n + 1; n + 2])%nat,
               grown h [uk_sealSecret k; uk_selfKey k; uk_authSecret k] [])
    | Err e => (Err e, h)
    end.
Proof.
  unfold derive_secrets. rewrite lift_bind. destruct (derive entropy lunaId) as [k|e]; [|done].
  erewrite bind_ran by apply alloc_heap. rewrite alloc_bind. rewrite alloc_bind. cbn [app length]. done.
Qed.

Lemma fill_three (h : heap) (a b c : bytes) (bufs : list bytes) :
  let n := length (h_bufs h) in
  (fill_all [n; n + 1; n + 2]%nat (grown h (a :: b :: c :: bufs) [])).2
  = grown h (zeros a :: zeros b :: zeros c :: bufs) [].
Proof.
  intros n. rewrite !fill_all_cons. pose proof (fill0_grown h (a :: b :: c :: bufs) [] 0) as E.
  rewrite Nat.add_0_r in E. fold n in E. rewrite E. cbn [snd alter list_alter]. unfold n.
  repeat (rewrite fill0_grown; cbn [snd alter list_alter]). done.
Qed.

Lemma findMyPrivateScopes_run (lunaId : jstr) (entropy : bytes) (pscopes : list fetched)
    (signingPublics : list bytes) (h : heap) (k : user_keys) :
  derive entropy lunaId = Ok k ->
  exists fs bufs, findMyPrivateScopes lunaId entropy pscopes signingPublics h = (Ok fs, grown h bufs [])
    /\ Forall2 (found_ok (length (h_bufs h)) bufs) fs
         (js_sort newest (omap (record_scope k lunaId signingPublics) pscopes))
    /\ kept_or_zero (length (h_bufs h)) bufs (flat_map scope_arrays fs)
    /\ apart (length (h_bufs h)) (flat_map scope_arrays fs).
Proof.
  intros Hk. unfold findMyPrivateScopes. pose proof (derive_secrets_run entropy lunaId h) as Hd.
  cbv zeta in Hd. rewrite Hk in Hd. erewrite bind_ran by exact Hd. cbn beta iota.
  destruct (find_scopes_run k lunaId signingPublics pscopes []
    (grown h [uk_sealSecret k; uk_selfKey k; uk_authSecret k] [])) as (fs & bufs & Hf & Hok & Hkept & Ha).
  rewrite grown_grown in Hf. cbn [app] in Hf. erewrite finally_run by (erewrite bind_ran by exact Hf; reflexivity). rewrite fill_three.
  cbn [grown h_bufs] in Hok, Hkept, Ha. rewrite length_app in Hok, Hkept, Ha.
  eexists _, _. split; [reflexivity|]. split_and!.
  - apply js_sort_Forall2.
    + intros x x' y y' (_ & _ & Hx & _) (_ & _ & Hy & _). unfold newest. by rewrite Hx, Hy.
    + eapply Forall2_impl; [exact Hok|]. intros f o. intros Hfo.
      eapply (found_ok_back _ [_; _; _]). exact Hfo.
  - intros i b Hb. pose proof (kept_app (length (h_bufs h))
      [zeros (uk_sealSecret k); zeros (uk_selfKey k); zeros (uk_authSecret k)] bufs [] (flat_map scope_arrays fs)
      ltac:(apply kept_zero; repeat constructor; apply zeros_zero) Hkept i b Hb) as [Hin|]; [left|by right].
    cbn [app] in Hin. rewrite list_elem_of_In, in_flat_map in Hin |- *. destruct Hin as (f & Hfin & Hi).
    exists f. split; [|done]. eapply Permutation_in; [symmetry; apply js_sort_perm | exact Hfin].
  - apply apart_later in Ha as [Hn Hl]. unfold apart.
    assert (P : Permutation (flat_map scope_arrays (js_sort (fun a b => fs_createdAt b - fs_createdAt a) fs)) (flat_map scope_arrays fs))
      by apply Permutation_flat_map, js_sort_perm.
    by rewrite P.
Qed.
End Search.

(** ** What readers leave in memory *)

(** A computation that, when it succeeds, adds arrays that are all zeroed, and changes no older one. *)
Definition leaves_zeros {A} (m : buffers A) : Prop :=
  forall h a h', m h = (Ok a, h') -> exists bufs packs, h' = grown h bufs packs /\ Forall all_zero bufs.

Lemma leaves_zeros_ret {A} (a : A) : leaves_zeros (mret a).
Proof. intros h x h' [= _ <-]. exists [], []. by rewrite grown_nil. Qed.

Lemma leaves_zeros_lift {A} (r : thrown A) : leaves_zeros (lift r).
Proof. intros h x h' [_ ->]%lift_run. exists [], []. by rewrite grown_nil. Qed.

Lemma leaves_zeros_bind {A B} (m : buffers A) (f : A -> buffers B) :
  leaves_zeros m -> (forall a, leaves_zeros (f a)) -> leaves_zeros (m ≫= f).
Proof.
  intros Hm Hf h b h' (a & h1 & (b1 & p1 & -> & H1)%Hm & (b2 & p2 & -> & H2)%Hf)%bind_run.
  exists (b1 ++ b2), (p1 ++ p2). rewrite grown_grown. split; [done | by apply Forall_app].
Qed.

Section Readers.
Context `{NB : NobleBytes} `{JT : JsText}.

(** The inner block of both openers: the plain bytes are parsed, then cleared. *)
Lemma parsed_plain_run (plain : bytes) (h h' : heap) (v : json) :
  (p ← alloc plain;
   finally (match json_parse plain with Some v => mret v | None => throwing (js "SyntaxError") end) (fill0 p)) h
  = (Ok v, h') -> h' = grown h [zeros plain] [].
Proof.
  erewrite bind_ran by apply alloc_heap. unfold finally. destruct (json_parse plain).
  - unfold mret, buffers_ret. rewrite fill0_last. by intros [= _ <-].
  - by unfold throwing, lift.
Qed.

Lemma open_tree_zeros (openTreeBytes : bytes -> thrown bytes) (s : bytes) : leaves_zeros (open_tree openTreeBytes s).
Proof.
  intros h v h' Hrun. unfold open_tree in Hrun. apply catch_ok in Hrun; [|by intros].
  apply bind_run in Hrun as (plain & h1 & [_ ->]%lift_run & Hrun). apply parsed_plain_run in Hrun as ->.
  exists [zeros plain], []. split; [done | repeat constructor; apply zeros_zero].
Qed.

Lemma openPackWith_opened (b : bytes) (idHex : jstr) (unwrapKey : bytes -> thrown bytes) (h h' : heap) (p : nat) :
  openPackWith b idHex unwrapKey h = (Ok p, h') ->
  p = length (h_packs h)
  /\ exists key index body scope entries, h' = grown h [zeros key; zeros index; body; scope]
       [{| pk_scopeId := length (h_bufs h) + 3; pk_body := length (h_bufs h) + 2; pk_entries := entries;
           pk_disposed := false |}].
Proof.
  intros Hrun. pose proof (openPackWith_id _ _ _ _ _ _ Hrun) as E.
  pose proof (openPackWith_run _ _ unwrapKey h E) as Hopen. pose proof (parts_end_spec b unwrapKey (length (h_bufs h))) as Hs.
  destruct (parts_end b unwrapKey (length (h_bufs h))) as [[[[]|[m|]] bufs] packs];
    rewrite Hopen in Hrun; try done. injection Hrun as <- <-. split; [done|]. destruct Hs as (key & index & body & scope & entries & -> & -> & _).
  by exists key, index, body, scope, entries.
Qed.

Lemma raw_tree_zeros (file : bytes) (treePackId : jstr) (treeHash : bytes)
    (unwrapKey openTreeBytes : bytes -> thrown bytes) :
  leaves_zeros (readRawTreeWith file treePackId treeHash unwrapKey openTreeBytes).
Proof.
  intros h v h' Hrun. unfold readRawTreeWith in Hrun.
  apply bind_run in Hrun as (p & h1 & Hp & Hf). apply openPackWith_opened in Hp as (-> & key & index & body & scope & entries & ->).
  set (pk := {| pk_scopeId := _; pk_body := _; pk_entries := entries; pk_disposed := false |}) in *.
  apply finally_inv in Hf as (h2 & Hf & ->). set (n := length (h_bufs h)) in *.
  assert (Hpk : forall bufs packs, h_packs (grown h bufs (pk :: packs)) !! length (h_packs h) = Some pk).
  { intros bufs packs. cbn. by rewrite lookup_app_r, Nat.sub_diag by lia. }
  apply bind_run in Hf as (c & h3 & Hc & Hf).
  rewrite (pack_chunk_run _ pk) in Hc; [|apply Hpk | done].
  destruct (pk_entries pk !! bytesToHex treeHash) as [[o l]|]; [|by injection Hc as <- <-; discriminate Hf].
  match type of Hc with (_, ?h0 <| h_bufs ::= fun b => b ++ [?x] |>) = _ =>
    set (chunk := x) in *; replace (h0 <| h_bufs ::= fun b => b ++ [chunk] |>)
      with (grown h ([zeros key; zeros index; body; scope] ++ [chunk]) [pk]) in Hc end.
  2:{ unfold grown. cbn. by rewrite <- app_assoc. }
  injection Hc as <- <-. apply finally_inv in Hf as (h4 & Hf & ->).
  apply bind_run in Hf as (s & h5 & Hr & Hf). injection Hr as _ <-.
  destruct (negb (sameBytes (sha256 s) treeHash)); [discriminate Hf|].
  apply open_tree_zeros in Hf as (bufs & packs & -> & Hz).
  rewrite grown_grown. cbn [grown h_bufs app]. rewrite length_app. fold n. cbn [length].
  pose proof (fill0_grown h (zeros key :: zeros index :: body :: scope :: chunk :: bufs) (pk :: packs) 4) as E.
  fold n in E. rewrite E.
  cbn [snd alter list_alter]. rewrite (pack_dispose_run _ pk); [|apply Hpk | done]. cbn [snd].
  eexists (zeros key :: zeros index :: zeros body :: zeros scope :: zeros chunk :: bufs), (_ :: packs).
  split; [|repeat (constructor; [apply zeros_zero|]); done].
  unfold grown. cbn [h_bufs h_packs]. unfold pk, n. cbn [pk_scopeId pk_body]. rewrite !alter_app_r.
  cbn [alter list_alter]. f_equal. rewrite insert_app_r_alt, Nat.sub_diag by lia. done.
Qed.

(** The details of a snapshot open: what the code checked on the way to [meta]. *)
Definition meta_opens (secret : bytes) (lunaId scope : jstr) (sealed : bytes) (meta : backup_meta) : Prop :=
  exists plain parsed, open secret (privateAad META_PURPOSE lunaId scope) sealed = Ok plain
    /\ json_parse plain = Some parsed /\ private_meta (Some parsed) = Ok meta.

Lemma openPrivateMeta_eq (sealed secret : bytes) (lunaId scope : jstr) (h : heap) :
  openPrivateMeta sealed secret lunaId scope h
  = match open secret (privateAad META_PURPOSE lunaId scope) sealed with
    | Err _ => (damaged, h)
    | Ok plain =>
        (match json_parse plain with Some v => private_meta (Some v) | None => damaged end,
         grown h [zeros plain] [])
    end.
Proof.
  unfold openPrivateMeta. unfold mbind at 1, buffers_bind, catch. rewrite lift_bind.
  destruct (open secret (privateAad META_PURPOSE lunaId scope) sealed) as [plain|e]; [|done].
  erewrite bind_ran by apply alloc_heap. unfold finally.
  destruct (json_parse plain) as [v|]; unfold mret, buffers_ret, throwing, lift; by rewrite fill0_last.
Qed.

Lemma openPrivateMeta_run (sealed secret : bytes) (lunaId scope : jstr) (h : heap) :
  exists r bufs, openPrivateMeta sealed secret lunaId scope h = (r, grown h bufs []) /\ Forall all_zero bufs
    /\ forall meta, r = Ok meta -> meta_opens secret lunaId scope sealed meta.
Proof.
  rewrite openPrivateMeta_eq. unfold meta_opens.
  destruct (open secret (privateAad META_PURPOSE lunaId scope) sealed) as [plain|e].
  - do 2 eexists. split; [reflexivity|]. split; [constructor; [apply zeros_zero | constructor]|].
    intros meta Hm. destruct (json_parse plain) as [v|] eqn:Hp; [|done]. by exists plain, v.
  - exists damaged, []. rewrite grown_nil. by split_and!.
Qed.

Lemma read_snapshots_run (lunaId : jstr) (secret : bytes) (scope : jstr) (signingPublics : list bytes)
    (psnapshots : list fetched) : forall out h res h',
  read_snapshots lunaId secret scope psnapshots signingPublics out h = (Ok res, h') ->
  exists bufs new, h' = grown h bufs [] /\ Forall all_zero bufs /\ res = out ++ new
    /\ Forall (fun s => exists r, r ∈ psnapshots
         /\ as_string (ft_name r) = Some (scope ++ js "." ++ sn_snapshotId (ps_snap s))
         /\ verifySnapshot (ft_data r) signingPublics lunaId PRIVATE_SNAPSHOT_DOMAIN = Some (ps_snap s)
         /\ meta_opens secret lunaId scope (sn_meta (ps_snap s)) (ps_meta s)) new.
Proof.
  induction psnapshots as [|r l IH]; intros out h res h'; cbn [read_snapshots].
  { intros [= <- <-]. exists [], []. by rewrite grown_nil, app_nil_r. }
  assert (Hskip : forall out bufs0, Forall all_zero bufs0 ->
    read_snapshots lunaId secret scope l signingPublics out (grown h bufs0 []) = (Ok res, h') ->
    exists bufs new, h' = grown h bufs [] /\ Forall all_zero bufs /\ res = out ++ new
    /\ Forall (fun s => exists r0, r0 ∈ r :: l
         /\ as_string (ft_name r0) = Some (scope ++ js "." ++ sn_snapshotId (ps_snap s))
         /\ verifySnapshot (ft_data r0) signingPublics lunaId PRIVATE_SNAPSHOT_DOMAIN = Some (ps_snap s)
         /\ meta_opens secret lunaId scope (sn_meta (ps_snap s)) (ps_meta s)) new).
  { intros o bufs0 Hz (bufs & new & -> & Hzs & -> & Hnew)%IH. exists (bufs0 ++ bufs), new.
    rewrite grown_grown. split_and!; [done | by apply Forall_app | done |].
    eapply Forall_impl; [exact Hnew|]. intros s (r0 & Hin & Hs). exists r0. split; [by right | done]. }
  intros (name & h1 & [Hname ->]%lift_run & Hrun)%bind_run.
  pose proof (Hskip out [] (Forall_nil_2 _)) as Hnone. rewrite grown_nil in Hnone.
  destruct (starts_with (scope ++ js ".") name); cbn [negb] in Hrun; [|by apply Hnone].
  destruct (verifySnapshot (ft_data r) signingPublics lunaId PRIVATE_SNAPSHOT_DOMAIN) as [snap|] eqn:Hv;
    [|by apply Hnone].
  destruct (bool_decide_reflect (name = scope ++ js "." ++ sn_snapshotId snap)) as [Hn|]; cbn [negb] in Hrun;
    [|by apply Hnone].
  destruct (openPrivateMeta_run (sn_meta snap) secret lunaId scope h) as (rm & bufs0 & Hh & Hz & Hm).
  apply bind_run in Hrun as (meta & h2 & Hc & Hrun). unfold catch, fmap, buffers_fmap in Hc.
  rewrite Hh in Hc. destruct rm as [m|e].
  2:{ injection Hc as <- <-. by apply (Hskip out bufs0). }
  injection Hc as <- <-. apply (Hskip _ bufs0) in Hrun as (bufs & new & -> & Hzs & -> & Hnew); [|done].
  exists bufs, ({| ps_snap := snap; ps_meta := m |} :: new). rewrite <- app_assoc. split_and!; [done..|].
  constructor; [|done]. exists r. split_and!; [by left | | done | by apply Hm]. cbn [ps_snap].
  unfold string_of in Hname. destruct (as_string (ft_name r)); [|done]. injection Hname as ->. by rewrite Hn.
Qed.

(** One record read alone. *)
Lemma readPrivateSnapshots_one (lunaId : jstr) (secret : bytes) (scope : jstr) (signingPublics : list bytes)
    (r : fetched) (h h' : heap) (res : list private_snapshot) :
  readPrivateSnapshots lunaId secret scope [r] signingPublics h = (Ok res, h') ->
  exists bufs, h' = grown h bufs [] /\ Forall all_zero bufs
    /\ Forall (fun s => verifySnapshot (ft_data r) signingPublics lunaId PRIVATE_SNAPSHOT_DOMAIN = Some (ps_snap s)
         /\ meta_opens secret lunaId scope (sn_meta (ps_snap s)) (ps_meta s)) res.
Proof.
  unfold readPrivateSnapshots. intros (out & h1 & (bufs & new & -> & Hz & -> & Hnew)%read_snapshots_run & Hr)%bind_run.
  injection Hr as <- <-. exists bufs. split_and!; [done..|]. cbn [app]. rewrite js_sort_perm.
  eapply Forall_impl; [exact Hnew|]. intros s (r0 & Hin%list_elem_of_singleton & _ & Hs). by subst.
Qed.
End Readers.

(** ** Theorems *)

(** The whole search: what it returns, and what becomes of the arrays it holds itself - the phrase's keys and what the
    scopes open to: every one that is not returned is zeroed.  Arrays that live inside the primitives are not in this heap. *)
Lemma findMyPrivateScopes_spec `{N : Noble} `{JT : JsText} (lunaId : jstr) (entropy : bytes)
    (pscopes : list fetched) (signingPublics : list bytes) (h : heap) :
  match findMyPrivateScopes lunaId entropy pscopes signingPublics h with
  | (Err e, h') => derive entropy lunaId = Err e /\ h' = h
  | (Ok found, h') =>
      exists k opened, derive entropy lunaId = Ok k
        /\ Permutation opened (omap (record_scope k lunaId signingPublics) pscopes)
        /\ StronglySorted (fun a b => os_createdAt b <= os_createdAt a) opened
        /\ Forall2 (holds (h_bufs h')) found opened
        /\ tidy (length (h_bufs h)) (flat_map scope_arrays found) h'
        /\ h_bufs h `prefix_of` h_bufs h'
  end.
Proof.
  destruct (derive entropy lunaId) as [k|e] eqn:Hk.
  - destruct (findMyPrivateScopes_run lunaId entropy pscopes signingPublics h k Hk) as (fs & bufs & -> & Hf & Hkept & _).
    exists k. eexists. split; [done|]. split; [apply js_sort_perm|]. split_and!.
    + eapply sorted_impl; [|apply (js_sort_sorted newest (fun _ => True))]; unfold newest; try lia.
      by apply Forall_true.
    + eapply Forall2_impl; [exact Hf|]. intros f o (H1 & H2 & H3 & i & j & Hi & Hbi & Hj & Hbj).
      unfold holds. rewrite Hi, Hj. cbn. rewrite !lookup_app_r, !(Nat.add_comm (length _)), !Nat.add_sub by lia. done.
    + rewrite <- (app_nil_r (flat_map _ _)). apply tidy_grown; [apply tidy_start | exact Hkept].
    + by exists bufs.
  - unfold findMyPrivateScopes. pose proof (derive_secrets_run entropy lunaId h) as Hd. cbv zeta in Hd.
    rewrite Hk in Hd. by erewrite bind_failed by exact Hd.
Qed.


(** A scope record says what was signed.  A record the code accepts is for this Luna, has keys of the
    right sizes and a verified signature of the scope domain over all nine of its fields; two
    well-formed records with the same signed bytes are the same record. *)
Theorem scope_record_is_signed `{NB : NobleBytes} `{JT : JsText} (b : bytes) (signingPublics : list bytes)
    (lunaId : jstr) (r : scope_record) :
  verifyScopeRecord b signingPublics lunaId = Some r ->
  sr_lunaId r = lunaId /\ len (sr_sealPublic r) = SEAL_PUBLIC_LEN /\ len (sr_authPublic r) = SIG_PUBLIC_LEN
  /\ len (sr_scopePublic r) = SEAL_PUBLIC_LEN
  /\ (exists pub sig, pub ∈ signingPublics /\ verify pub SCOPE_RECORD_DOMAIN (scopeSignedBytes r) sig = true)
  /\ forall r', scope_record_ok r -> scope_record_ok r' -> scopeSignedBytes r' = scopeSignedBytes r -> r' = r.
Proof.
  intros (H1 & H2 & H3 & H4 & _ & H5)%verifyScopeRecord_some. split_and!; try done.
  intros r' Ho Ho' E. by apply scope_bytes_inj.
Qed.

(** ** One scope with one snapshot *)

#[local] Existing Instances Toy.noble Toy.noble_bytes Toy.noble_seal.

Module PrivateSample.
Import Sample.
Definition draw (_ : nat) (n : Z) : bytes := replicate (Z.to_nat n) 5.
Definition made (m : thrown bytes) : bytes := default [] (to_option m).
Definition luna : jstr := js "luna".
Definition words : jstr := join [c_space] (replicate 12 (js "word")).
Definition entropy : bytes := replicate 16 0.
Definition owner : user_keys := default
  {| uk_sealSecret := []; uk_sealPublic := []; uk_selfKey := []; uk_authSecret := []; uk_authPublic := [] |}
  (to_option (derive entropy luna)).
Definition pair : key_pair := default {| kp_secret := []; kp_public := [] |}
  (to_option (scopeKeysFromSeed (replicate 32 4))).
Definition dedup : bytes := replicate 32 7.
Definition scope : jstr := scopeOf dedup.
Definition sealed (purpose : jstr) (msg : bytes) : bytes :=
  made (seal draw (kp_public pair) (privateAad purpose luna scope) msg).

Definition record : scope_record := {|
  sr_lunaId := luna; sr_scope := scope; sr_userId := js "u"; sr_sealPublic := uk_sealPublic owner;
  sr_authPublic := uk_authPublic owner; sr_createdAt := 1700000000; sr_scopePublic := kp_public pair;
  sr_sealedScopeSecret := made (sealScopeSecret draw (kp_secret pair) (uk_sealPublic owner) luna scope);
  sr_sealedDedup := sealed DEDUP_PURPOSE dedup |}.
Definition signed (domain : jstr) (msg : bytes) : json := hex (made (sign seed domain msg)).
Definition scope_json : json := JObj [
  (js "record", JObj [
     (js "luna_id", JStr luna); (js "scope", JStr scope); (js "user_id", str "u");
     (js "seal_public", hex (sr_sealPublic record)); (js "auth_public", hex (sr_authPublic record));
     (js "created_at", number 1700000000); (js "scope_public", hex (sr_scopePublic record));
     (js "sealed_scope_secret", hex (sr_sealedScopeSecret record));
     (js "sealed_dedup", hex (sr_sealedDedup record))]);
  (js "signature", signed SCOPE_RECORD_DOMAIN (scopeSignedBytes record))].

(** The tree is the text [2], its details the text [3]. *)
Definition sealedTree : bytes := sealed TREE_PURPOSE [2].
Definition treeHash : bytes := sha256 sealedTree.
Definition tree_chunks : list (bytes * bytes) := [(treeHash, sealedTree)].
Definition tree_file : bytes := pack_file (sealed PACK_KEY_PURPOSE key)
  (made (encryptWith key nonce PACK_INDEX_AAD (pack_index id1 tree_chunks)))
  (made (encryptWith key nonce PACK_BODY_AAD (pack_body tree_chunks))).
Definition snap : snapshot := {|
  sn_lunaId := luna; sn_protectionId := js "p"; sn_snapshotId := js "s";
  sn_createdAt := Some (number 1700000000); sn_keyVersion := Some (number 1);
  sn_treePackId := bytesToHex (packId tree_file); sn_treeHash := treeHash; sn_meta := sealed META_PURPOSE [3] |}.
Definition snapshot_json : json := JObj [
  (js "record", JObj [
     (js "luna_id", JStr luna); (js "protection_id", str "p"); (js "snapshot_id", str "s");
     (js "created_at", number 1700000000); (js "key_version", number 1);
     (js "tree_pack_id", JStr (sn_treePackId snap)); (js "tree_hash", hex treeHash);
     (js "meta", hex (sn_meta snap))]);
  (js "signature", signed PRIVATE_SNAPSHOT_DOMAIN
     (canonical (snapshot_fields snap (be 8 1700000000) (be 4 1) (packId tree_file))))].
Definition details : json := JObj [
  (js "name", str "Photos"); (js "source_drive", str "d"); (js "source_path", str "p");
  (js "started_by", str "u"); (js "started_by_name", str "U")].

(** A parser of four texts. *)
#[export] Instance texts : JsText := {|
  json_parse b := match b with
                  | [1] => Some scope_json
                  | [2] => Some (JObj [(js "entries", JArr [])])
                  | [3] => Some details
                  | [4] => Some snapshot_json
                  | _ => None
                  end;
  coerce_number _ := Err TypeError; coerce_bigint _ := Err TypeError; coerce_string _ := Err TypeError;
|}.
Definition public : bytes := made (signerPublic seed).
End PrivateSample.

#[local] Existing Instance PrivateSample.texts.

Example one_scope_found :
  let '(r, h) := findMyPrivateScopes PrivateSample.luna PrivateSample.entropy
    [{| ft_name := Some (JStr PrivateSample.scope); ft_data := [1] |};
     {| ft_name := Some (JStr (js "other")); ft_data := [1] |}] [PrivateSample.public] empty_heap in
  match r with
  | Ok [f] => h_bufs h !! fs_dedupKey f = Some PrivateSample.dedup
      /\ h_bufs h !! fs_sealSecret f = Some (kp_secret PrivateSample.pair)
  | _ => False
  end.
Proof. vm_compute. split; reflexivity. Qed.

Lemma scope_record_is_signed_witness :
  exists r, verifyScopeRecord [1] [PrivateSample.public] PrivateSample.luna = Some r
    /\ sr_lunaId r = PrivateSample.luna.
Proof.
  exists PrivateSample.record. split; [vm_compute; reflexivity|].
  eapply (scope_record_is_signed [1] [PrivateSample.public] PrivateSample.luna). vm_compute. reflexivity.
Defined.
