(* ===== verification/CloudKeys.v ===== *)
(** * Backup keys: [shared/ui/lib/cloud/cloudKeys.js]

    The keys one recovery phrase opens on one Luna.  A signing key is the one the phrase sealed to itself;
    a recipient list and a key copy count only when such a key signed them.  Opened keys are arrays
    of the heap of [Buffers]. *)

From S2P Require Import Prelude JsString Utf8 Bytes BackupCrypto Buffers CloudFormat CloudPrivate.

Definition NO_BACKUPS : string := "This recovery phrase doesn't open any backups on this Luna. Check each word.".
Definition SIGNING_MISMATCH : string :=
  "Luna's backup signing key doesn't match the one saved with your recovery phrase, so nothing was sent.".

(** A record list's entry. *)
Record record_entry := { re_name : jstr; re_data : bytes }.

(** ** Record names *)

Definition hex_char (c : N) : bool := is_digit c || ((97 <=? c) && (c <=? 102))%N.

(** [[0-9a-f]{n}] *)
Definition hex_run (n : nat) (s : jstr) : bool := Nat.eqb (length s) n && forallb hex_char s.

Definition UUID (s : jstr) : bool :=
  match split_on c_dash s with
  | [a; b; c; d; e] => hex_run 8 a && hex_run 4 b && hex_run 4 c && hex_run 4 d && hex_run 12 e
  | _ => false
  end.

(** [0|[1-9][0-9]*] *)
Definition VERSION (s : jstr) : bool :=
  match s with
  | [c] => is_digit c
  | c :: r => is_digit c && negb (c =? 48)%N && forallb is_digit r
  | [] => false
  end.

(** The integer decimal digits spell. *)
Definition digits_value (s : jstr) : Z := foldl (fun v c => v * 10 + (Z.of_N c - 48)) 0 s.

Record key_name := { kn_protectionId : jstr; kn_version : num; kn_part : jstr }.
Record recipients_name := { rn_protectionId : jstr; rn_version : num }.

(** [KEY_NAME] and [RECIPIENTS_NAME]: their pieces hold no dot.  [Number] rounds to the nearest double. *)
Definition parseKeyName (name : jstr) : option key_name :=
  match split_on c_dot name with
  | [p; v; part] =>
      if UUID p && VERSION v && hex_run 32 part
      then Some {| kn_protectionId := p; kn_version := num_of_Z (digits_value v); kn_part := part |}
      else None
  | _ => None
  end.

Definition parseRecipientsName (name : jstr) : option recipients_name :=
  match split_on c_dot name with
  | [p; v] =>
      if UUID p && VERSION v
      then Some {| rn_protectionId := p; rn_version := num_of_Z (digits_value v) |}
      else None
  | _ => None
  end.

(** [Math.max(a, b)] of numbers that are not NaN and not zeros of different signs. *)
Definition num_max (a b : num) : num := if num_lt a b then b else a.

(** [new Map(l.map((r) => [r.name, r.data])).get(name)]: the last entry of that name. *)
Fixpoint by_name (l : list record_entry) (name : jstr) : option bytes :=
  match l with
  | [] => None
  | r :: l =>
      match by_name l name with
      | Some d => Some d
      | None => if bool_decide (re_name r = name) then Some (re_data r) else None
      end
  end.

(** [set.add(s)], in order of first insertion. *)
Definition set_push (s : jstr) (l : list jstr) : list jstr := if bool_decide (s ∈ l) then l else l ++ [s].

(** A key copy that opened, and what a search returns: the two keys are arrays. *)
Record key_pair_bufs := { kb_key : nat; kb_dedupKey : nat }.
Record found_key := {
  fk_protectionId : jstr; fk_version : num; fk_keys : key_pair_bufs; fk_userId : jstr;
}.
Record my_keys := {
  mk_signingPublics : list bytes; mk_userIds : list jstr; mk_keys : list found_key;
  mk_latestVersion : gmap jstr num; mk_privateScopes : list found_scope;
}.

Section Keys.
Context `{N : Noble} `{JT : JsText}.

Definition userRecordPart (userId : jstr) : jstr := bytesToHex (byte_slice 0 16 (sha256 (utf8ToBytes userId))).

(** [String(version)] *)
Definition version_text (v : num) : jstr := default [] (to_option (coerce_string (JNum v))).

Definition selfSealedAad (lunaId userId : jstr) : bytes :=
  canonical [
    (js "luna_id", utf8ToBytes lunaId);
    (js "user_id", utf8ToBytes userId);
    (js "purpose", utf8ToBytes (js "signing-public"))].

Definition keyCopyAad (lunaId protectionId : jstr) (version : num) (userId : jstr) : bytes :=
  canonical [
    (js "luna_id", utf8ToBytes lunaId);
    (js "protection_id", utf8ToBytes protectionId);
    (js "version", utf8ToBytes (version_text version));
    (js "user_id", utf8ToBytes userId)].

Definition openSelfRecord (selfKey : bytes) (lunaId userId : jstr) (data : bytes) : option bytes :=
  match decrypt selfKey (selfSealedAad lunaId userId) data with
  | Ok publicKey => if len publicKey =? SIG_PUBLIC_LEN then Some publicKey else None
  | Err _ => None
  end.

(** What a recipient list's signature covers. *)
Definition recipients_message (lunaId protectionId : jstr) (version : num) (users : list jstr) : bytes :=
  canonical [
    (js "luna_id", utf8ToBytes lunaId);
    (js "protection_id", utf8ToBytes protectionId);
    (js "version", utf8ToBytes (version_text version));
    (js "users", utf8ToBytes (json_strings users))].

Definition verifyRecipients (b signingPublic : bytes) (lunaId protectionId : jstr) (version : num)
  : option (list jstr) :=
  match json_parse b with
  | None => None
  | Some parsed =>
      match prop_of "users" (Some parsed) with
      | Ok (Some (JArr l)) =>
          match mapM (fun u => as_string (Some u)) l with
          | Some users =>
              match hex_field (opt_prop "signature" (Some parsed)) with
              | Ok sig =>
                  if negb (len sig =? SIG_LEN) then None
                  else if verify signingPublic (js "recipients")
                            (recipients_message lunaId protectionId version users) sig
                  then Some users else None
              | Err _ => None
              end
          | None => None
          end
      | _ => None
      end
  end.

(** What a key copy's signature covers. *)
Definition copy_message (aad sealed : bytes) : bytes := canonical [(js "aad", aad); (js "sealed", sealed)].

Definition openKeyCopy (record sealSecret signingPublic : bytes) (lunaId protectionId : jstr) (version : num)
    (userId : jstr) : buffers (option key_pair_bufs) :=
  if len record <=? SIG_LEN then mret None
  else
    let sealed := byte_slice 0 (len record - SIG_LEN) record in
    let sig := slice_after (len record - SIG_LEN) record in
    let aad := keyCopyAad lunaId protectionId version userId in
    if negb (verify signingPublic (js "key-copy") (copy_message aad sealed) sig) then mret None
    else
      catch
        (plain ← lift (open sealSecret aad sealed); p ← alloc plain;
         finally
           (if negb (len plain =? 2 * KEY_LEN) then mret None
            else
              key ← alloc (byte_slice 0 KEY_LEN plain);
              dedupKey ← alloc (slice_after KEY_LEN plain);
              mret (Some {| kb_key := key; kb_dedupKey := dedupKey |}))
           (fill0 p))
        (fun _ => mret None).

(** ** The search *)

Definition candidate_users (r : record_entry) : list jstr :=
  match opt_prop "users" (json_parse (re_data r)) with
  | Some (JArr l) => omap (fun u => as_string (Some u)) l
  | _ => []
  end.

Definition candidate_owner (r : record_entry) : list jstr :=
  option_list (as_string (opt_prop "user_id" (opt_prop "record" (json_parse (re_data r))))).

Definition candidates_of (recipients pscopes : list record_entry) : list jstr :=
  foldl (fun l u => set_push u l) []
    (flat_map candidate_users recipients ++ flat_map candidate_owner pscopes).

(** The signing keys the phrase sealed to itself, each once. *)
Fixpoint signing_keys (selfKey : bytes) (lunaId : jstr) (self : list record_entry) (candidates : list jstr)
    (signingPublics : list bytes) : list bytes :=
  match candidates with
  | [] => signingPublics
  | uid :: candidates =>
      let next :=
        match by_name self (userRecordPart uid) ≫= openSelfRecord selfKey lunaId uid with
        | Some publicKey =>
            if existsb (fun p => sameBytes p publicKey) signingPublics then signingPublics
            else signingPublics ++ [publicKey]
        | None => signingPublics
        end in
      signing_keys selfKey lunaId self candidates next
  end.

Definition expect_signing (expectSigningPublic : option bytes) (signingPublics : list bytes) : thrown (list bytes) :=
  match expectSigningPublic with
  | Some expected =>
      if 0 <? Z.of_nat (length signingPublics) then
        match List.filter (fun p => sameBytes p expected) signingPublics with
        | [] => throw SIGNING_MISMATCH
        | l => Ok l
        end
      else Ok signingPublics
  | None => Ok signingPublics
  end.

Fixpoint recipients_with_any (b : bytes) (signingPublics : list bytes) (lunaId protectionId : jstr) (version : num)
  : option (list jstr) :=
  match signingPublics with
  | [] => None
  | pub :: signingPublics =>
      match verifyRecipients b pub lunaId protectionId version with
      | Some users => Some users
      | None => recipients_with_any b signingPublics lunaId protectionId version
      end
  end.

Fixpoint copy_with_any (data sealSecret : bytes) (signingPublics : list bytes) (lunaId protectionId : jstr)
    (version : num) (uid : jstr) : buffers (option key_pair_bufs) :=
  match signingPublics with
  | [] => mret None
  | pub :: signingPublics =>
      o ← openKeyCopy data sealSecret pub lunaId protectionId version uid;
      match o with
      | Some opened => mret (Some opened)
      | None => copy_with_any data sealSecret signingPublics lunaId protectionId version uid
      end
  end.

Definition copy_name (protectionId : jstr) (version : num) (uid : jstr) : jstr :=
  protectionId ++ js "." ++ version_text version ++ js "." ++ userRecordPart uid.

(** The loop over a list's users: it stops at the first copy that opens. *)
Fixpoint open_for_users (keys : list record_entry) (sealSecret : bytes) (signingPublics : list bytes)
    (lunaId protectionId : jstr) (version : num) (users : list jstr) : buffers (option found_key) :=
  match users with
  | [] => mret None
  | uid :: users =>
      let again := open_for_users keys sealSecret signingPublics lunaId protectionId version users in
      match by_name keys (copy_name protectionId version uid) with
      | None => again
      | Some data =>
          o ← copy_with_any data sealSecret signingPublics lunaId protectionId version uid;
          match o with
          | Some opened => mret (Some {| fk_protectionId := protectionId; fk_version := version;
                                         fk_keys := opened; fk_userId := uid |})
          | None => again
          end
      end
  end.

Definition raise_latest (protectionId : jstr) (version : num) (latest : gmap jstr num) : gmap jstr num :=
  <[protectionId := num_max (default (num_of_Z 0) (latest !! protectionId)) version]> latest.

(** The loop over the recipient lists. *)
Fixpoint find_keys (keys : list record_entry) (sealSecret : bytes) (signingPublics : list bytes) (lunaId : jstr)
    (recipients : list record_entry) (latest : gmap jstr num) (found : list found_key) (userIds : list jstr)
  : buffers (gmap jstr num * list found_key * list jstr) :=
  match recipients with
  | [] => mret (latest, found, userIds)
  | r :: recipients =>
      let again := find_keys keys sealSecret signingPublics lunaId recipients in
      match parseRecipientsName (re_name r) with
      | None => again latest found userIds
      | Some parsed =>
          let protectionId := rn_protectionId parsed in let version := rn_version parsed in
          match recipients_with_any (re_data r) signingPublics lunaId protectionId version with
          | None => again latest found userIds
          | Some users =>
              let latest := raise_latest protectionId version latest in
              o ← open_for_users keys sealSecret signingPublics lunaId protectionId version users;
              match o with
              | Some f => again latest (found ++ [f]) (set_push (fk_userId f) userIds)
              | None => again latest found userIds
              end
          end
      end
  end.

Definition as_fetched (r : record_entry) : fetched :=
  {| ft_name := Some (JStr (re_name r)); ft_data := re_data r |}.

Definition findMyKeys (lunaId : jstr) (entropy : bytes) (self recipients keys pscopes : list record_entry)
    (expectSigningPublic : option bytes) : buffers my_keys :=
  '(k, secrets) ← derive_secrets entropy lunaId;
  finally
    (let candidates := candidates_of recipients pscopes in
     signingPublics ← lift (expect_signing expectSigningPublic (signing_keys (uk_selfKey k) lunaId self candidates []));
     '(latest, found, userIds) ← find_keys keys (uk_sealSecret k) signingPublics lunaId recipients ∅ [] [];
     privateScopes ← findMyPrivateScopes lunaId entropy (map as_fetched pscopes) signingPublics;
     if Nat.eqb (length found) 0 && Nat.eqb (length privateScopes) 0 then lift (throw NO_BACKUPS)
     else mret {| mk_signingPublics := signingPublics; mk_userIds := userIds; mk_keys := found;
                  mk_latestVersion := latest; mk_privateScopes := privateScopes |})
    (fill_all secrets).
End Keys.
