(* ===== verification/CloudKeysFacts.v ===== *)
(** * Backup keys: properties

    The keys a recovery phrase finds, as functions of the records: each is signed by a key the phrase
    itself keeps, and opens; what stays in memory; what a recipient list's signature covers. *)

From S2P Require Import Prelude JsString Utf8 Bytes BackupCrypto CryptoFacts Buffers.
From S2P Require Import CloudFormat CloudFacts CloudPrivate CloudPrivateFacts CloudKeys.

(** ** The first that gives something *)

Definition first_some {A B} (f : A -> option B) (l : list A) : option B := head (omap f l).

Lemma first_some_cons {A B} (f : A -> option B) (x : A) (l : list A) :
  first_some f (x :: l) = match f x with Some y => Some y | None => first_some f l end.
Proof. unfold first_some. cbn. by destruct (f x). Qed.

Lemma first_some_in {A B} (f : A -> option B) (l : list A) (y : B) :
  first_some f l = Some y -> exists x, x ∈ l /\ f x = Some y.
Proof.
  induction l as [|x l IH]; [done|]. rewrite first_some_cons. destruct (f x) eqn:E.
  - intros [= ->]. exists x. split; [by left | done].
  - intros (x' & ? & ?)%IH. exists x'. split; [by right | done].
Qed.

(** ** Computations that add arrays *)

(** [m] runs to the end from any heap and only adds arrays; when [o] is something, its result names it by
    [R] and the arrays it does not name are zeroed, and when it is nothing all of them are. *)
Definition yields {A B} (arrays : A -> list nat) (R : nat -> list bytes -> A -> B -> Prop)
    (m : buffers (option A)) (o : option B) : Prop :=
  forall h, exists a bufs, m h = (Ok a, grown h bufs []) /\
    match a, o with
    | Some a, Some b => R (length (h_bufs h)) bufs a b /\ kept_or_zero (length (h_bufs h)) bufs (arrays a)
    | None, None => Forall all_zero bufs
    | _, _ => False
    end.

Lemma yields_none {A B} (arrays : A -> list nat) (R : nat -> list bytes -> A -> B -> Prop) :
  yields arrays R (mret None) None.
Proof. intros h. exists None, []. rewrite grown_nil. split; [done | constructor]. Qed.

(** Trying one thing, then another when it gave nothing. *)
Lemma yields_try {A B A' B'} (arrays : A -> list nat) (R : nat -> list bytes -> A -> B -> Prop)
    (arrays' : A' -> list nat) (R' : nat -> list bytes -> A' -> B' -> Prop)
    (m : buffers (option A)) (o : option B) (f : A -> A') (g : B -> B')
    (m' : buffers (option A')) (o' : option B') :
  (forall base bufs a b, R base bufs a b -> R' base bufs (f a) (g b)) ->
  (forall a, arrays' (f a) = arrays a) ->
  (forall base b1 b2 a b, R' (base + length b1)%nat b2 a b -> R' base (b1 ++ b2) a b) ->
  yields arrays R m o -> yields arrays' R' m' o' ->
  yields arrays' R' (x ← m; match x with Some a => mret (Some (f a)) | None => m' end)
    (match o with Some b => Some (g b) | None => o' end).
Proof.
  intros HR Ha Hback Hm Hm' h. destruct (Hm h) as (a & b1 & E & Hab). rewrite (bind_ran _ _ _ _ _ E).
  destruct a as [a|], o as [b|]; try done.
  - exists (Some (f a)), b1. split; [done|]. destruct Hab as [H1 H2]. split; [by apply HR | by rewrite Ha].
  - destruct (Hm' (grown h b1 [])) as (a & b2 & E2 & H2). exists a, (b1 ++ b2). rewrite E2, grown_grown.
    split; [done|]. cbn [grown h_bufs] in H2. rewrite length_app in H2. destruct a as [a|], o' as [b|]; try done.
    + destruct H2 as [H2 H3]. split; [by apply Hback|].
      apply (kept_app _ _ _ []); [by apply kept_zero | done].
    + by apply Forall_app.
Qed.

(** ** Key copies *)

Section Keys.
Context `{N : Noble} `{JT : JsText}.

(** The two keys of a copy that is signed and opens. *)
Definition copy_keys (data sealSecret pub : bytes) (lunaId protectionId : jstr) (version : num) (uid : jstr)
  : option (bytes * bytes) :=
  if len data <=? SIG_LEN then None
  else
    let sealed := byte_slice 0 (len data - SIG_LEN) data in
    let sig := slice_after (len data - SIG_LEN) data in
    let aad := keyCopyAad lunaId protectionId version uid in
    if verify pub (js "key-copy") (copy_message aad sealed) sig then
      plain ← to_option (open sealSecret aad sealed);
      if len plain =? 2 * KEY_LEN then Some (byte_slice 0 KEY_LEN plain, slice_after KEY_LEN plain) else None
    else None.

Definition pair_arrays (p : key_pair_bufs) : list nat := [kb_key p; kb_dedupKey p].

Definition pair_ok (base : nat) (bufs : list bytes) (p : key_pair_bufs) (k : bytes * bytes) : Prop :=
  exists i j, kb_key p = (base + i)%nat /\ bufs !! i = Some k.1
    /\ kb_dedupKey p = (base + j)%nat /\ bufs !! j = Some k.2.

Lemma pair_ok_back (base : nat) (b1 b2 : list bytes) (p : key_pair_bufs) (k : bytes * bytes) :
  pair_ok (base + length b1) b2 p k -> pair_ok base (b1 ++ b2) p k.
Proof.
  intros (i & j & H1 & H2 & H3 & H4). exists (length b1 + i)%nat, (length b1 + j)%nat.
  rewrite !lookup_app_r by lia. rewrite !(Nat.add_comm (length b1)), !Nat.add_sub. split_and!; done || lia.
Qed.

Lemma pair_ok_front (base : nat) (b1 b2 : list bytes) (p : key_pair_bufs) (k : bytes * bytes) :
  pair_ok base b1 p k -> pair_ok base (b1 ++ b2) p k.
Proof.
  intros (i & j & H1 & H2 & H3 & H4). exists i, j. split_and!; try done; by apply lookup_app_l_Some.
Qed.

Lemma openKeyCopy_yields (data sealSecret pub : bytes) (lunaId protectionId : jstr) (version : num) (uid : jstr) :
  yields pair_arrays pair_ok (openKeyCopy data sealSecret pub lunaId protectionId version uid)
    (copy_keys data sealSecret pub lunaId protectionId version uid).
Proof.
  unfold openKeyCopy, copy_keys. destruct (len data <=? SIG_LEN); [apply yields_none|]. cbv zeta.
  destruct (verify pub (js "key-copy") _ _); cbn [negb]; [|apply yields_none].
  intros h. destruct (open sealSecret _ _) as [plain|e]; cbn [to_option mbind option_bind].
  2:{ exists None, []. rewrite grown_nil. split; [|constructor]. done. }
  unfold catch. rewrite lift_bind, (bind_ran _ _ _ _ _ (alloc_heap plain h)).
  destruct (len plain =? 2 * KEY_LEN); cbn [negb].
  - erewrite finally_run.
    2:{ erewrite bind_ran by apply alloc_heap. erewrite bind_ran by apply alloc_heap. reflexivity. }
    rewrite !grown_grown. cbn [app grown h_bufs]. rewrite !length_app. cbn [length].
    eexists (Some {| kb_key := _; kb_dedupKey := _ |}), [zeros plain; _; _]. split; [|split].
    + pose proof (fill0_grown h [plain; byte_slice 0 KEY_LEN plain; slice_after KEY_LEN plain] [] 0) as E.
      rewrite Nat.add_0_r in E. rewrite E. done.
    + exists 1%nat, 2%nat. cbn. split_and!; done || lia.
    + intros [|[|[|i]]] b Hb; try done; [right; injection Hb as <-; apply zeros_zero|..]; left; cbn; set_solver by lia.
  - exists None, [zeros plain]. split; [|repeat constructor; apply zeros_zero].
    erewrite finally_run by reflexivity. by rewrite fill0_last.
Qed.

Lemma copy_with_any_yields (data sealSecret : bytes) (pubs : list bytes) (lunaId protectionId : jstr)
    (version : num) (uid : jstr) :
  yields pair_arrays pair_ok (copy_with_any data sealSecret pubs lunaId protectionId version uid)
    (first_some (fun pub => copy_keys data sealSecret pub lunaId protectionId version uid) pubs).
Proof.
  induction pubs as [|pub pubs IH]; [apply yields_none|]. rewrite first_some_cons. cbn [copy_with_any].
  eapply (yields_try _ _ _ _ _ _ (fun a => a) (fun b => b)); [done | done | apply pair_ok_back | | exact IH].
  apply openKeyCopy_yields.
Qed.

(** A key as its bytes spell it. *)
Record opened_key := {
  ok_protectionId : jstr; ok_version : num; ok_userId : jstr; ok_key : bytes; ok_dedupKey : bytes;
}.

(** What a user's name in a list gives. *)
Definition user_key (keys : list record_entry) (sealSecret : bytes) (pubs : list bytes)
    (lunaId protectionId : jstr) (version : num) (uid : jstr) : option opened_key :=
  data ← by_name keys (copy_name protectionId version uid);
  k ← first_some (fun pub => copy_keys data sealSecret pub lunaId protectionId version uid) pubs;
  Some {| ok_protectionId := protectionId; ok_version := version; ok_userId := uid;
          ok_key := k.1; ok_dedupKey := k.2 |}.

(** A recipient list that is named as one and signed. *)
Definition signed_list (pubs : list bytes) (lunaId : jstr) (r : record_entry) : option (recipients_name * list jstr) :=
  parsed ← parseRecipientsName (re_name r);
  users ← first_some (fun pub => verifyRecipients (re_data r) pub lunaId (rn_protectionId parsed) (rn_version parsed)) pubs;
  Some (parsed, users).

(** The key a recipient list gives a phrase: that of the first user whose copy opens. *)
Definition list_key (keys : list record_entry) (sealSecret : bytes) (pubs : list bytes) (lunaId : jstr)
    (r : record_entry) : option opened_key :=
  '(parsed, users) ← signed_list pubs lunaId r;
  first_some (user_key keys sealSecret pubs lunaId (rn_protectionId parsed) (rn_version parsed)) users.

Definition key_arrays (f : found_key) : list nat := pair_arrays (fk_keys f).

Definition key_ok (base : nat) (bufs : list bytes) (f : found_key) (o : opened_key) : Prop :=
  fk_protectionId f = ok_protectionId o /\ fk_version f = ok_version o /\ fk_userId f = ok_userId o
  /\ pair_ok base bufs (fk_keys f) (ok_key o, ok_dedupKey o).

Lemma key_ok_back (base : nat) (b1 b2 : list bytes) (f : found_key) (o : opened_key) :
  key_ok (base + length b1) b2 f o -> key_ok base (b1 ++ b2) f o.
Proof. intros (H1 & H2 & H3 & H4). split_and!; try done. by apply pair_ok_back. Qed.

Lemma key_ok_front (base : nat) (b1 b2 : list bytes) (f : found_key) (o : opened_key) :
  key_ok base b1 f o -> key_ok base (b1 ++ b2) f o.
Proof. intros (H1 & H2 & H3 & H4). split_and!; try done. by apply pair_ok_front. Qed.

Lemma open_for_users_yields (keys : list record_entry) (sealSecret : bytes) (pubs : list bytes)
    (lunaId protectionId : jstr) (version : num) (users : list jstr) :
  yields key_arrays key_ok (open_for_users keys sealSecret pubs lunaId protectionId version users)
    (first_some (user_key keys sealSecret pubs lunaId protectionId version) users).
Proof.
  induction users as [|uid users IH]; [apply yields_none|]. rewrite first_some_cons. cbn [open_for_users].
  unfold user_key at 1. destruct (by_name keys _) as [data|]; cbn [mbind option_bind]; [|apply IH].
  pose proof (yields_try pair_arrays pair_ok key_arrays key_ok _ _
    (fun opened => {| fk_protectionId := protectionId; fk_version := version; fk_keys := opened; fk_userId := uid |})
    (fun k => {| ok_protectionId := protectionId; ok_version := version; ok_userId := uid;
                 ok_key := k.1; ok_dedupKey := k.2 |}) _ _
    ltac:(intros base bufs a [k1 k2] H; split_and!; done) ltac:(done) ltac:(intros; by apply key_ok_back)
    (copy_with_any_yields data sealSecret pubs lunaId protectionId version uid) IH) as Ht.
  destruct (first_some (fun pub => copy_keys _ _ _ _ _ _ _) pubs); exact Ht.
Qed.

Lemma recipients_with_any_eq (b : bytes) (pubs : list bytes) (lunaId protectionId : jstr) (version : num) :
  recipients_with_any b pubs lunaId protectionId version
  = first_some (fun pub => verifyRecipients b pub lunaId protectionId version) pubs.
Proof.
  induction pubs as [|pub pubs IH]; [done|]. rewrite first_some_cons. cbn [recipients_with_any].
  by destruct (verifyRecipients _ _ _ _ _).
Qed.

(** The newest version of each protection among verified lists. *)
Definition latest_of (lists : list (recipients_name * list jstr)) (latest : gmap jstr num) : gmap jstr num :=
  foldl (fun m p => raise_latest (rn_protectionId p.1) (rn_version p.1) m) latest lists.

Definition distinct (l acc : list jstr) : list jstr := foldl (fun l u => set_push u l) acc l.

Lemma find_keys_run (keys : list record_entry) (sealSecret : bytes) (pubs : list bytes) (lunaId : jstr)
    (recipients : list record_entry) :
  forall latest found userIds h, exists fs bufs,
    find_keys keys sealSecret pubs lunaId recipients latest found userIds h
    = (Ok (latest_of (omap (signed_list pubs lunaId) recipients) latest, found ++ fs,
           distinct (map fk_userId fs) userIds), grown h bufs [])
    /\ Forall2 (key_ok (length (h_bufs h)) bufs) fs (omap (list_key keys sealSecret pubs lunaId) recipients)
    /\ kept_or_zero (length (h_bufs h)) bufs (flat_map key_arrays fs).
Proof.
  induction recipients as [|r recipients IH]; intros latest found userIds h.
  { exists [], []. rewrite grown_nil, app_nil_r. split_and!; [done | constructor | by apply kept_zero]. }
  cbn [find_keys omap list_omap]. unfold list_key at 1. destruct (signed_list pubs lunaId r) as [[parsed users]|] eqn:Hl;
    unfold signed_list in Hl; cbn [mbind option_bind];
    (destruct (parseRecipientsName (re_name r)) as [parsed'|]; cbn [mbind option_bind] in Hl; [|apply IH || done]);
    rewrite recipients_with_any_eq;
    (destruct (first_some _ pubs) as [users'|]; cbn [mbind option_bind] in Hl; [|apply IH || done]); [|done].
  injection Hl as -> ->.
  destruct (open_for_users_yields keys sealSecret pubs lunaId (rn_protectionId parsed) (rn_version parsed) users h)
    as (o & b1 & Hr & Ho). rewrite (bind_ran _ _ _ _ _ Hr).
  destruct o as [f|], (first_some (user_key _ _ _ _ _ _) users) as [k|]; try done.
  - destruct Ho as [Hf Hk1]. edestruct IH as (fs & bufs & -> & Hfs & Hk2).
    exists (f :: fs), (b1 ++ bufs). rewrite grown_grown, <- app_assoc. split; [done|].
    cbn [h_bufs grown] in Hfs, Hk2. rewrite length_app in Hfs, Hk2. split.
    + constructor; [by apply key_ok_front|]. eapply Forall2_impl; [exact Hfs|]. intros. by apply key_ok_back.
    + by apply kept_app.
  - edestruct IH as (fs & bufs & -> & Hfs & Hk). exists fs, (b1 ++ bufs). rewrite grown_grown. split; [done|].
    cbn [h_bufs grown] in Hfs, Hk. rewrite length_app in Hfs, Hk. split.
    + eapply Forall2_impl; [exact Hfs|]. intros. by apply key_ok_back.
    + apply (kept_app _ _ _ []); [by apply kept_zero | done].
Qed.

(** ** The whole search *)

(** The signing keys a search ends up with. *)
Definition own_signing_keys (k : user_keys) (lunaId : jstr) (self recipients pscopes : list record_entry)
  : list bytes := signing_keys (uk_selfKey k) lunaId self (candidates_of recipients pscopes) [].

Definition scopes_of (k : user_keys) (lunaId : jstr) (pubs : list bytes) (pscopes : list record_entry)
  : list opened_scope := omap (record_scope k lunaId pubs) (map as_fetched pscopes).

(** The end of a search: what it returns or throws, and the arrays it leaves. *)
Lemma findMyKeys_run (lunaId : jstr) (entropy : bytes) (self recipients keys pscopes : list record_entry)
    (expected : option bytes) (h : heap) (k : user_keys) :
  derive entropy lunaId = Ok k ->
  let n := length (h_bufs h) in
  match expect_signing expected (own_signing_keys k lunaId self recipients pscopes) with
  | Err e => exists bufs, findMyKeys lunaId entropy self recipients keys pscopes expected h = (Err e, grown h bufs [])
      /\ Forall all_zero bufs
  | Ok pubs =>
      exists fs ss bufs,
        findMyKeys lunaId entropy self recipients keys pscopes expected h
        = (if Nat.eqb (length fs) 0 && Nat.eqb (length ss) 0 then throw NO_BACKUPS
           else Ok {| mk_signingPublics := pubs; mk_userIds := distinct (map fk_userId fs) []; mk_keys := fs;
                      mk_latestVersion := latest_of (omap (signed_list pubs lunaId) recipients) ∅;
                      mk_privateScopes := ss |}, grown h bufs [])
        /\ Forall2 (key_ok n bufs) fs (omap (list_key keys (uk_sealSecret k) pubs lunaId) recipients)
        /\ Forall2 (found_ok n bufs) ss (js_sort newest (scopes_of k lunaId pubs pscopes))
        /\ kept_or_zero n bufs (flat_map key_arrays fs ++ flat_map scope_arrays ss)
  end.
Proof.
  intros Hk n. unfold findMyKeys. pose proof (derive_secrets_run entropy lunaId h) as Hd. cbv zeta in Hd.
  rewrite Hk in Hd. fold n in Hd. unfold own_signing_keys.
  destruct (expect_signing expected _) as [pubs|e] eqn:He; erewrite bind_ran by exact Hd; cbn beta iota zeta.
  2:{ erewrite finally_run by (rewrite He; eapply bind_failed; reflexivity). unfold n. rewrite fill_three.
      eexists. split; [reflexivity|]. repeat constructor; apply zeros_zero. }
  destruct (find_keys_run keys (uk_sealSecret k) pubs lunaId recipients ∅ [] []
    (grown h [uk_sealSecret k; uk_selfKey k; uk_authSecret k] [])) as (fs & b1 & Hf & Hok & Hkept).
  rewrite grown_grown in Hf. cbn [app] in Hf.
  destruct (findMyPrivateScopes_run lunaId entropy (map as_fetched pscopes) pubs
    (grown h (uk_sealSecret k :: uk_selfKey k :: uk_authSecret k :: b1) []) k Hk) as (ss & b2 & Hs & Hok2 & Hkept2 & _).
  rewrite grown_grown in Hs. cbn [app] in Hs.
  exists fs, ss, (zeros (uk_sealSecret k) :: zeros (uk_selfKey k) :: zeros (uk_authSecret k) :: b1 ++ b2).
  cbn [grown h_bufs] in Hok, Hkept, Hok2, Hkept2. rewrite length_app in Hok, Hkept, Hok2, Hkept2.
  cbn [length] in Hok, Hkept, Hok2, Hkept2. fold n in Hok, Hkept, Hok2, Hkept2. split_and!.
  - destruct (Nat.eqb (length fs) 0 && Nat.eqb (length ss) 0) eqn:Hnone;
      (erewrite finally_run;
       [|rewrite He, lift_bind; erewrite bind_ran by exact Hf; cbn beta iota; erewrite bind_ran by exact Hs;
         cbn [app]; rewrite Hnone; reflexivity]); unfold n; by rewrite fill_three.
  - eapply Forall2_impl; [exact Hok|]. intros f o Hfo. apply (key_ok_back _ [_; _; _]). by apply key_ok_front.
  - eapply Forall2_impl; [exact Hok2|]. intros f o Hfo.
    apply (found_ok_back _ (_ :: _ :: _ :: b1)). cbn [length]. done.
  - apply (kept_app _ [_; _; _] _ []); [apply kept_zero; repeat constructor; apply zeros_zero|].
    cbn [length]. apply kept_app; [done|]. by rewrite <- Nat.add_assoc.
Qed.

(** The greatest version among the lists of a protection. *)
Definition newest_version (p : jstr) (lists : list (recipients_name * list jstr)) : option num :=
  match map (fun l => rn_version l.1) (List.filter (fun l => bool_decide (rn_protectionId l.1 = p)) lists) with
  | [] => None
  | versions => Some (foldl num_max (num_of_Z 0) versions)
  end.

Lemma latest_of_lookup (p : jstr) (lists : list (recipients_name * list jstr)) : forall latest,
  latest_of lists latest !! p
  = match map (fun l => rn_version l.1) (List.filter (fun l => bool_decide (rn_protectionId l.1 = p)) lists) with
    | [] => latest !! p
    | versions => Some (foldl num_max (default (num_of_Z 0) (latest !! p)) versions)
    end.
Proof.
  induction lists as [|l lists IH]; intros latest; [done|]. unfold latest_of in *. cbn [foldl List.filter]. rewrite IH.
  unfold raise_latest. destruct (decide (rn_protectionId l.1 = p)) as [<-|Hne].
  - rewrite bool_decide_eq_true_2 by done. rewrite lookup_insert_eq. cbn [map foldl default from_option id].
    by destruct (map _ _).
  - rewrite bool_decide_eq_false_2, lookup_insert_ne by done. done.
Qed.

Lemma expect_signing_ok (expected : option bytes) (l pubs : list bytes) :
  expect_signing expected l = Ok pubs ->
  pubs = match expected with Some p => List.filter (fun q => sameBytes q p) l | None => l end.
Proof.
  unfold expect_signing. destruct expected as [p|]; [|by intros [= <-]].
  destruct l as [|q l]; [by intros [= <-]|]. cbn [length Z.of_nat Z.ltb Z.compare].
  by destruct (List.filter _ _); [|intros [= <-]].
Qed.

Lemma expect_signing_err (expected : option bytes) (l : list bytes) (e : error) :
  expect_signing expected l = Err e ->
  e = EError (js SIGNING_MISMATCH) /\ exists p, expected = Some p /\ l <> [] /\ p ∉ l.
Proof.
  unfold expect_signing. destruct expected as [p|]; [|done].
  destruct l as [|q l]; [done|]. cbn [length Z.of_nat Z.ltb Z.compare].
  destruct (List.filter _ _) eqn:E; [|done]. intros [= <-]. split; [done|]. exists p. split_and!; [done..|].
  intros Hin%list_elem_of_In. assert (Hp : In p (List.filter (fun q => sameBytes q p) (q :: l))).
  { apply filter_In. split; [done|]. unfold sameBytes. by apply bool_decide_eq_true_2. }
  by rewrite E in Hp.
Qed.

(** The signing keys are the ones the phrase opens: each is the plain text of a self record. *)
Lemma signing_keys_opened (selfKey : bytes) (lunaId : jstr) (self : list record_entry) (candidates : list jstr) :
  forall acc pub, pub ∈ signing_keys selfKey lunaId self candidates acc ->
  pub ∈ acc \/ exists uid data, uid ∈ candidates /\ by_name self (userRecordPart uid) = Some data
    /\ decrypt selfKey (selfSealedAad lunaId uid) data = Ok pub /\ len pub = SIG_PUBLIC_LEN.
Proof.
  induction candidates as [|uid candidates IH]; intros acc pub Hin; [by left|]. cbn [signing_keys] in Hin.
  apply IH in Hin as [Hin|(u & d & Hu & H)]; [|right; exists u, d; split; [by right | done]].
  destruct (by_name self (userRecordPart uid)) as [data|] eqn:Hd; cbn [mbind option_bind] in Hin; [|by left].
  destruct (openSelfRecord selfKey lunaId uid data) as [p|] eqn:Hp; [|by left].
  destruct (existsb _ acc); [by left|]. apply elem_of_app in Hin as [Hin|Hin%list_elem_of_singleton]; [by left|].
  subst p. right. exists uid, data. split; [by left|]. split; [done|]. unfold openSelfRecord in Hp.
  destruct (decrypt _ _ _) as [q|]; [|done]. destruct (Z.eqb_spec (len q) SIG_PUBLIC_LEN); [|done].
  by injection Hp as ->.
Qed.

(** A found key holds an opened one, in the arrays [bufs]. *)
Definition holds_key (bufs : list bytes) (f : found_key) (o : opened_key) : Prop :=
  fk_protectionId f = ok_protectionId o /\ fk_version f = ok_version o /\ fk_userId f = ok_userId o
  /\ bufs !! kb_key (fk_keys f) = Some (ok_key o) /\ bufs !! kb_dedupKey (fk_keys f) = Some (ok_dedupKey o).

Lemma key_ok_holds (h : heap) (bufs : list bytes) (f : found_key) (o : opened_key) :
  key_ok (length (h_bufs h)) bufs f o -> holds_key (h_bufs h ++ bufs) f o.
Proof.
  intros (H1 & H2 & H3 & i & j & Hi & Hbi & Hj & Hbj). split_and!; try done; rewrite ?Hi, ?Hj;
    by rewrite lookup_app_r, Nat.add_comm, Nat.add_sub by lia.
Qed.

Lemma found_ok_holds (h : heap) (bufs : list bytes) (f : found_scope) (o : opened_scope) :
  found_ok (length (h_bufs h)) bufs f o -> holds (h_bufs h ++ bufs) f o.
Proof.
  intros (H1 & H2 & H3 & i & j & Hi & Hbi & Hj & Hbj). split_and!; try done; rewrite ?Hi, ?Hj;
    by rewrite lookup_app_r, Nat.add_comm, Nat.add_sub by lia.
Qed.

Lemma distinct_owners (fs : list found_key) (os : list opened_key) (R : found_key -> opened_key -> Prop) :
  (forall f o, R f o -> fk_userId f = ok_userId o) -> Forall2 R fs os -> map fk_userId fs = map ok_userId os.
Proof. intros HR. induction 1 as [|f o fs os Hf _ IH]; [done|]. cbn. by rewrite (HR f o), IH. Qed.

Lemma Forall2_empty {A B} (R : A -> B -> Prop) (l : list A) (l' : list B) :
  Forall2 R l l' -> Nat.eqb (length l) 0 = bool_decide (l' = []).
Proof. intros [|]; [done|]. by rewrite bool_decide_eq_false_2. Qed.

Lemma js_sort_empty {A} (cmp : A -> A -> Z) (l : list A) : js_sort cmp l = [] <-> l = [].
Proof.
  split; [|by intros ->]. intros E. pose proof (js_sort_perm cmp l) as H. rewrite E in H.
  by apply Permutation_nil_l in H.
Qed.

(** ** Theorems *)

(** The whole search: what it returns, and what becomes of the arrays it holds itself - the phrase's keys and what the
    copies open to: every one that is not returned is zeroed.  Arrays that live inside the primitives are not in this heap. *)
Lemma findMyKeys_spec (lunaId : jstr) (entropy : bytes) (self recipients keys pscopes : list record_entry)
    (expected : option bytes) (h : heap) :
  match findMyKeys lunaId entropy self recipients keys pscopes expected h with
  | (Err e, h') =>
      (derive entropy lunaId = Err e /\ h' = h)
      \/ exists k, derive entropy lunaId = Ok k /\ tidy (length (h_bufs h)) [] h'
           /\ let own := own_signing_keys k lunaId self recipients pscopes in
              (e = EError (js SIGNING_MISMATCH) /\ exists p, expected = Some p /\ own <> [] /\ p ∉ own)
              \/ (e = EError (js NO_BACKUPS) /\ exists pubs, expect_signing expected own = Ok pubs
                  /\ omap (list_key keys (uk_sealSecret k) pubs lunaId) recipients = []
                  /\ scopes_of k lunaId pubs pscopes = [])
  | (Ok r, h') =>
      exists k opened scopes, derive entropy lunaId = Ok k
        /\ mk_signingPublics r
           = (let own := own_signing_keys k lunaId self recipients pscopes in
              match expected with Some p => List.filter (fun q => sameBytes q p) own | None => own end)
        /\ opened = omap (list_key keys (uk_sealSecret k) (mk_signingPublics r) lunaId) recipients
        /\ Forall2 (holds_key (h_bufs h')) (mk_keys r) opened
        /\ mk_userIds r = distinct (map ok_userId opened) []
        /\ (forall p, mk_latestVersion r !! p
              = newest_version p (omap (signed_list (mk_signingPublics r) lunaId) recipients))
        /\ scopes = js_sort newest (scopes_of k lunaId (mk_signingPublics r) pscopes)
        /\ Forall2 (holds (h_bufs h')) (mk_privateScopes r) scopes
        /\ (opened <> [] \/ scopes <> [])
        /\ tidy (length (h_bufs h)) (flat_map key_arrays (mk_keys r) ++ flat_map scope_arrays (mk_privateScopes r)) h'
        /\ h_bufs h `prefix_of` h_bufs h'
  end.
Proof.
  destruct (derive entropy lunaId) as [k|e] eqn:Hk.
  2:{ unfold findMyKeys. pose proof (derive_secrets_run entropy lunaId h) as Hd. cbv zeta in Hd. rewrite Hk in Hd.
      erewrite bind_failed by exact Hd. by left. }
  pose proof (findMyKeys_run lunaId entropy self recipients keys pscopes expected h k Hk) as Hr. cbv zeta in Hr.
  destruct (expect_signing expected _) as [pubs|e] eqn:He.
  2:{ destruct Hr as (bufs & -> & Hz). right. exists k. split_and!; [done | |].
      - apply (tidy_grown _ _ []); [apply tidy_start|]. intros i b Hb. right. by eapply Forall_lookup_1.
      - left. by apply expect_signing_err in He. }
  destruct Hr as (fs & ss & bufs & -> & Hf & Hs & Hkept).
  rewrite (Forall2_empty _ _ _ Hf), (Forall2_empty _ _ _ Hs).
  assert (Ht : tidy (length (h_bufs h)) (flat_map key_arrays fs ++ flat_map scope_arrays ss) (grown h bufs [])).
  { rewrite <- (app_nil_r (flat_map _ _ ++ _)). apply tidy_grown; [apply tidy_start | exact Hkept]. }
  destruct (bool_decide_reflect (omap (list_key keys (uk_sealSecret k) pubs lunaId) recipients = [])) as [E1|E1],
    (bool_decide_reflect (js_sort newest (scopes_of k lunaId pubs pscopes) = [])) as [E2|E2]; cbn [andb].
  1:{ right. exists k. split; [done|]. rewrite E1 in Hf. rewrite E2 in Hs. apply Forall2_nil_inv_r in Hf, Hs. subst.
      split; [done|]. right. split; [done|]. exists pubs. split_and!; [done | done | by apply js_sort_empty in E2]. }
  all: eexists k, _, _; cbn [mk_signingPublics mk_userIds mk_keys mk_latestVersion mk_privateScopes];
    split_and!; try reflexivity; try exact Ht; try (by left); try (by right); try (by exists bufs);
    [by apply expect_signing_ok | eapply Forall2_impl; [exact Hf | intros; by apply key_ok_holds] | |
     intros p; rewrite latest_of_lookup, lookup_empty; done
     | eapply Forall2_impl; [exact Hs | intros; by apply found_ok_holds]];
    f_equal; eapply distinct_owners; [|exact Hf]; intros f o Hfo; apply Hfo.
Qed.

End Keys.

Section Signed.
Context `{NB : NobleBytes} `{JT : JsText}.

(** What a copy that gave keys says: its signature, and what it opened to. *)
Definition copy_opens (data sealSecret pub aad key dedupKey : bytes) : Prop :=
  exists sealed sig, data = sealed ++ sig /\ len sig = SIG_LEN
    /\ verify pub (js "key-copy") (copy_message aad sealed) sig = true
    /\ open sealSecret aad sealed = Ok (key ++ dedupKey) /\ len key = KEY_LEN /\ len dedupKey = KEY_LEN.

Lemma copy_keys_some (data sealSecret pub : bytes) (lunaId protectionId : jstr) (version : num) (uid : jstr)
    (key dedupKey : bytes) :
  copy_keys data sealSecret pub lunaId protectionId version uid = Some (key, dedupKey) ->
  copy_opens data sealSecret pub (keyCopyAad lunaId protectionId version uid) key dedupKey.
Proof.
  unfold copy_keys. destruct (Z.leb_spec (len data) SIG_LEN) as [|Hl]; [done|]. cbv zeta.
  destruct (verify _ _ _ _) eqn:Hv; [|done]. destruct (open _ _ _) as [plain|] eqn:Ho; [|done].
  cbn [to_option mbind option_bind]. destruct (Z.eqb_spec (len plain) (2 * KEY_LEN)) as [Hp|]; [|done].
  intros [= <- <-]. exists (byte_slice 0 (len data - SIG_LEN) data), (slice_after (len data - SIG_LEN) data).
  pose proof (len_nonneg data). assert (Hsplit : forall n (l : bytes), 0 <= n -> byte_slice 0 n l ++ slice_after n l = l).
  { intros n l Hn. unfold byte_slice, slice_after. change (Z.to_nat 0) with 0%nat. rewrite Nat.sub_0_r.
    apply take_drop. }
  assert (Hs : 0 < SIG_LEN) by (vm_compute; reflexivity). assert (Hk : KEY_LEN = 32) by done.
  split_and!; try done.
  - symmetry. apply Hsplit. lia.
  - unfold slice_after, len in *. rewrite length_drop. lia.
  - rewrite Hsplit by (rewrite Hk; lia). done.
  - rewrite byte_slice_length; lia.
  - unfold slice_after, len in *. rewrite length_drop. lia.
Qed.

(** A search returns no key that is not signed and opened.  Each returned signing key was opened with the
    phrase's own key from the self record of a user named in the records; each returned key comes from a
    recipient list one of those signed, naming the user, and from that user's copy, signed by one of them
    and opened with the phrase to exactly the two keys. *)
Theorem keys_are_signed (lunaId : jstr) (entropy : bytes) (self recipients keys pscopes : list record_entry)
    (expected : option bytes) (h h' : heap) (r : my_keys) (f : found_key) :
  findMyKeys lunaId entropy self recipients keys pscopes expected h = (Ok r, h') ->
  f ∈ mk_keys r ->
  exists k key dedupKey, derive entropy lunaId = Ok k
    /\ h_bufs h' !! kb_key (fk_keys f) = Some key /\ h_bufs h' !! kb_dedupKey (fk_keys f) = Some dedupKey
    /\ (forall pub, pub ∈ mk_signingPublics r -> exists uid data,
          uid ∈ candidates_of recipients pscopes /\ by_name self (userRecordPart uid) = Some data
          /\ decrypt (uk_selfKey k) (selfSealedAad lunaId uid) data = Ok pub)
    /\ (exists pub l users, pub ∈ mk_signingPublics r /\ l ∈ recipients
          /\ parseRecipientsName (re_name l)
             = Some {| rn_protectionId := fk_protectionId f; rn_version := fk_version f |}
          /\ verifyRecipients (re_data l) pub lunaId (fk_protectionId f) (fk_version f) = Some users
          /\ fk_userId f ∈ users)
    /\ exists pub data, pub ∈ mk_signingPublics r
         /\ by_name keys (copy_name (fk_protectionId f) (fk_version f) (fk_userId f)) = Some data
         /\ copy_opens data (uk_sealSecret k) pub
              (keyCopyAad lunaId (fk_protectionId f) (fk_version f) (fk_userId f)) key dedupKey.
Proof.
  intros Hrun Hin. destruct (derive entropy lunaId) as [k|e] eqn:Hk.
  2:{ unfold findMyKeys in Hrun. pose proof (derive_secrets_run entropy lunaId h) as Hd. cbv zeta in Hd.
      rewrite Hk in Hd. by erewrite bind_failed in Hrun by exact Hd. }
  pose proof (findMyKeys_run lunaId entropy self recipients keys pscopes expected h k Hk) as Hr. cbv zeta in Hr.
  destruct (expect_signing expected _) as [pubs|e] eqn:He.
  2:{ destruct Hr as (bufs & E & _). by rewrite E in Hrun. }
  destruct Hr as (fs & ss & bufs & E & Hf & _ & _). rewrite E in Hrun.
  destruct (_ && _); [done|]. injection Hrun as <- <-. cbn [mk_keys mk_signingPublics] in *.
  apply list_elem_of_lookup in Hin as [i Hi]. eapply Forall2_lookup_l in Hf as (o & Ho & Hfo); [|exact Hi].
  pose proof (key_ok_holds h bufs f o Hfo) as (-> & -> & -> & Hb1 & Hb2).
  apply list_elem_of_lookup_2, list_elem_of_omap in Ho as (l & Hl & Hlk).
  unfold list_key in Hlk. apply bind_Some in Hlk as ([parsed users] & Hsl & Hu).
  unfold signed_list in Hsl. apply bind_Some in Hsl as (p & Hp & (us & Hus & [= -> ->])%bind_Some).
  apply first_some_in in Hus as (pub & Hpub & Hv). apply first_some_in in Hu as (uid & Huid & Hkey).
  unfold user_key in Hkey. apply bind_Some in Hkey as (data & Hd & ([a b] & Hc & [= <-])%bind_Some).
  cbn [ok_protectionId ok_version ok_userId ok_key ok_dedupKey fst snd] in *.
  apply first_some_in in Hc as (pub2 & Hpub2 & Hc). apply copy_keys_some in Hc.
  exists k, a, b. split_and!; [done | done | done | | |].
  - intros q Hq. assert (Hown : q ∈ own_signing_keys k lunaId self recipients pscopes).
    { apply expect_signing_ok in He. rewrite He in Hq. destruct expected; [|done].
      by apply list_elem_of_In, filter_In in Hq as [?%list_elem_of_In _]. }
    apply signing_keys_opened in Hown as [[]%elem_of_nil|(u & d & ? & ? & ? & _)]. by exists u, d.
  - exists pub, l, users. split_and!; try done. by destruct parsed.
  - exists pub2, data. done.
Qed.

(** A key copy that is sealed to a phrase and signed opens to its two keys.  Whatever the random bytes, the
    record built from a seal of both keys under the copy's associated data and from the signature over it is
    opened to two arrays holding just these keys, and the plain text is zeroed. *)
Theorem key_copy_opens {NS : NobleSeal} {NG : NobleSign} (draw : nat -> Z -> bytes) (entropy seed pub sealed sig : bytes)
    (lunaId protectionId uid : jstr) (version : num) (k : user_keys) (key dedupKey : bytes) (h : heap) :
  (forall i n, 0 <= n -> len (draw i n) = n) ->
  derive entropy lunaId = Ok k -> signerPublic seed = Ok pub -> len key = KEY_LEN -> len dedupKey = KEY_LEN ->
  seal draw (uk_sealPublic k) (keyCopyAad lunaId protectionId version uid) (key ++ dedupKey) = Ok sealed ->
  sign seed (js "key-copy") (copy_message (keyCopyAad lunaId protectionId version uid) sealed) = Ok sig ->
  0 < len sealed ->
  exists p plain, openKeyCopy (sealed ++ sig) (uk_sealSecret k) pub lunaId protectionId version uid h
    = (Ok (Some p), grown h [zeros plain; key; dedupKey] [])
    /\ p = {| kb_key := length (h_bufs h) + 1; kb_dedupKey := length (h_bufs h) + 2 |}.
Proof.
  intros Hdraw Hk Hpub Hlk Hld Hseal Hsign Hs. pose proof (verify_sign _ _ _ _ _ Hpub Hsign) as Hv.
  eapply seal_open in Hseal; [|done | by apply keys_of_phrase in Hk].
  assert (Hsig : len sig = SIG_LEN).
  { unfold verify in Hv. destruct (Z.eqb_spec (len sig) SIG_LEN); [done|]. by rewrite orb_true_r in Hv. }
  eexists _, (key ++ dedupKey). split; [|reflexivity]. unfold openKeyCopy.
  destruct (Z.leb_spec (len (sealed ++ sig)) SIG_LEN) as [Hle|_]; [rewrite len_app in Hle; lia|]. cbv zeta.
  assert (E1 : byte_slice 0 (len (sealed ++ sig) - SIG_LEN) (sealed ++ sig) = sealed).
  { rewrite len_app, Hsig. replace (len sealed + SIG_LEN - SIG_LEN) with (len ([] : bytes) + len sealed)
      by (change (len []) with 0; lia). apply (byte_slice_app [] sealed sig). }
  assert (E2 : slice_after (len (sealed ++ sig) - SIG_LEN) (sealed ++ sig) = sig).
  { rewrite len_app, Hsig. replace (len sealed + SIG_LEN - SIG_LEN) with (len sealed) by lia. apply slice_after_app. }
  rewrite E1, E2, Hv. cbn [negb]. unfold catch. rewrite Hseal, lift_bind, (bind_ran _ _ _ _ _ (alloc_heap _ h)).
  rewrite len_app, Hlk, Hld.
  change (KEY_LEN + KEY_LEN =? 2 * KEY_LEN) with true. cbn [negb].
  assert (E3 : byte_slice 0 KEY_LEN (key ++ dedupKey) = key).
  { rewrite <- Hlk. apply (byte_slice_app [] key dedupKey). }
  assert (E4 : slice_after KEY_LEN (key ++ dedupKey) = dedupKey) by (rewrite <- Hlk; apply slice_after_app).
  erewrite finally_run.
  2:{ erewrite bind_ran by apply alloc_heap. erewrite bind_ran by apply alloc_heap. reflexivity. }
  rewrite !grown_grown. cbn [app grown h_bufs]. rewrite !length_app. cbn [length].
  pose proof (fill0_grown h [key ++ dedupKey; byte_slice 0 KEY_LEN (key ++ dedupKey);
    slice_after KEY_LEN (key ++ dedupKey)] [] 0) as E.
  rewrite Nat.add_0_r in E. rewrite E. cbn [snd alter list_alter]. by rewrite E3, E4.
Qed.

(** The sizes of names and lists the encoding can carry, and 16-bit code units. *)
Record list_fields_ok (lunaId protectionId : jstr) (version : num) (users : list jstr) : Prop := {
  lf_names : Forall (fun s => well_formed s /\ len (utf8ToBytes s) < 2 ^ 32) [lunaId; protectionId; version_text version];
  lf_units : Forall (Forall (fun c => (c < 65536)%N)) users;
  lf_size : len (utf8ToBytes (json_strings users)) < 2 ^ 32;
}.

(** A recipient list's signature covers its users.  Lists with the same signed message are for the same Luna
    and protection, have the same version as it is printed and the same users in the same order, even where a user's
    name is not well-formed text. *)
Theorem recipients_are_signed (l1 l2 p1 p2 : jstr) (v1 v2 : num) (us1 us2 : list jstr) :
  list_fields_ok l1 p1 v1 us1 -> list_fields_ok l2 p2 v2 us2 ->
  recipients_message l1 p1 v1 us1 = recipients_message l2 p2 v2 us2 ->
  l1 = l2 /\ p1 = p2 /\ version_text v1 = version_text v2 /\ us1 = us2.
Proof.
  intros [Hn1 Hu1 Hs1] [Hn2 Hu2 Hs2] E. rewrite !Forall_cons in Hn1, Hn2. destruct_and!.
  apply canonical_inj in E.
  - injection E as E1 E2 E3 E4. apply utf8ToBytes_inj in E1, E2, E3, E4; try done;
      try by apply json_strings_well_formed.
    split_and!; try done. by apply json_strings_inj.
  - repeat (apply Forall_cons; split); try apply Forall_nil_2; apply label_ok; done || (vm_compute; reflexivity).
  - repeat (apply Forall_cons; split); try apply Forall_nil_2; apply label_ok; done || (vm_compute; reflexivity).
Qed.
End Signed.

(** ** One list with two users *)

#[local] Existing Instances Toy.noble Toy.noble_bytes Toy.noble_seal Toy.noble_sign.

Module KeysSample.
Import Sample PrivateSample.
Definition printed (v : json) : thrown jstr :=
  match v with JNum n => Ok (js_of_Z (default 0 (num_integer n))) | _ => Err TypeError end.
#[export] Instance numbers : JsText := {|
  json_parse _ := None; coerce_number _ := Err TypeError; coerce_bigint _ := Err TypeError; coerce_string := printed;
|}.
Definition uuid : jstr := js "00000000-0000-0000-0000-00000000000a".
Definition two : num := num_of_Z 2.
Definition users : list jstr := [js "v"; js "u"].
Definition aad : bytes := keyCopyAad luna uuid two (js "u").
Definition key1 : bytes := replicate 32 8.
Definition key2 : bytes := replicate 32 9.
Definition copy : bytes := made (seal draw (uk_sealPublic owner) aad (key1 ++ key2)).
Definition copy_sig : bytes := made (sign seed (js "key-copy") (copy_message aad copy)).
Definition list_json : json := JObj [
  (js "users", JArr (map JStr users));
  (js "signature", hex (made (sign seed (js "recipients") (recipients_message luna uuid two users))))].
Definition self : list record_entry := [
  {| re_name := userRecordPart (js "u");
     re_data := made (encrypt draw (uk_selfKey owner) (selfSealedAad luna (js "u")) public) |}].
Definition keys : list record_entry := [{| re_name := copy_name uuid two (js "u"); re_data := copy ++ copy_sig |}].
Definition recipients : list record_entry := [
  {| re_name := uuid ++ js ".2"; re_data := [1] |}; {| re_name := js "junk"; re_data := [1] |}].
Definition texts : JsText := {|
  json_parse b := if bool_decide (b = [1]) then Some list_json else None;
  coerce_number _ := Err TypeError; coerce_bigint _ := Err TypeError; coerce_string := printed;
|}.
End KeysSample.

(** The copy of the second user is the one that exists, and opens. *)
Example one_key_found :
  match findMyKeys (JT := KeysSample.texts) PrivateSample.luna PrivateSample.entropy KeysSample.self
          KeysSample.recipients KeysSample.keys [] None empty_heap with
  | (Ok r, h) =>
      match mk_keys r with
      | [f] => fk_userId f = js "u" /\ h_bufs h !! kb_key (fk_keys f) = Some KeysSample.key1
               /\ h_bufs h !! kb_dedupKey (fk_keys f) = Some KeysSample.key2
      | _ => False
      end /\ mk_latestVersion r !! KeysSample.uuid = Some KeysSample.two
  | _ => False
  end.
Proof. vm_compute. repeat split. Qed.

Example other_signing_key :
  (findMyKeys (JT := KeysSample.texts) PrivateSample.luna PrivateSample.entropy KeysSample.self
     KeysSample.recipients KeysSample.keys [] (Some [1]) empty_heap).1 = throw SIGNING_MISMATCH.
Proof. vm_compute. reflexivity. Qed.

Lemma keys_are_signed_witness :
  exists r h' f, findMyKeys (JT := KeysSample.texts) PrivateSample.luna PrivateSample.entropy KeysSample.self
      KeysSample.recipients KeysSample.keys [] None empty_heap = (Ok r, h') /\ mk_keys r = [f]
    /\ exists key dedupKey pub data,
         copy_opens data (uk_sealSecret PrivateSample.owner) pub KeysSample.aad key dedupKey.
Proof.
  destruct (findMyKeys (JT := KeysSample.texts) PrivateSample.luna PrivateSample.entropy KeysSample.self
      KeysSample.recipients KeysSample.keys [] None empty_heap) as [o h'] eqn:E.
  assert (Hr : exists r f, o = Ok r /\ mk_keys r = [f] /\ fk_protectionId f = KeysSample.uuid
      /\ fk_version f = KeysSample.two /\ fk_userId f = js "u").
  { vm_compute in E. injection E as <- _. do 2 eexists. split; [reflexivity|]. split; [reflexivity|]. vm_compute.
    repeat split. }
  destruct Hr as (r & f & -> & Hf & H1 & H2 & H3). exists r, h', f. split; [reflexivity|]. split; [exact Hf|].
  destruct (keys_are_signed (JT := KeysSample.texts) _ _ _ _ _ _ _ _ _ _ f E) as (k & key & dedupKey & Hk & _ & _ & _ & _ & Hc).
  { rewrite Hf. by left. }
  destruct Hc as (pub & data & _ & _ & Hc). exists key, dedupKey, pub, data. rewrite H1, H2, H3 in Hc.
  assert (Ek : k = PrivateSample.owner) by (vm_compute in Hk; injection Hk as <-; vm_compute; reflexivity).
  rewrite Ek in Hc. exact Hc.
Defined.

Lemma key_copy_opens_witness :
  exists p plain, openKeyCopy (JT := KeysSample.numbers) (KeysSample.copy ++ KeysSample.copy_sig)
      (uk_sealSecret PrivateSample.owner) PrivateSample.public PrivateSample.luna KeysSample.uuid KeysSample.two
      (js "u") empty_heap = (Ok (Some p), grown empty_heap [zeros plain; KeysSample.key1; KeysSample.key2] [])
    /\ kb_key p = 1%nat.
Proof.
  destruct (key_copy_opens (JT := KeysSample.numbers) PrivateSample.draw PrivateSample.entropy Sample.seed
    PrivateSample.public KeysSample.copy KeysSample.copy_sig PrivateSample.luna KeysSample.uuid (js "u")
    KeysSample.two PrivateSample.owner KeysSample.key1 KeysSample.key2 empty_heap) as (p & plain & E & Hp);
    try (vm_compute; reflexivity).
  - intros i n Hn. unfold PrivateSample.draw, len. rewrite length_replicate. lia.
  - exists p, plain. split; [exact E|]. rewrite Hp. reflexivity.
Defined.

Lemma recipients_are_signed_witness :
  recipients_message (JT := KeysSample.numbers) PrivateSample.luna KeysSample.uuid KeysSample.two KeysSample.users
  = recipients_message (JT := KeysSample.numbers) PrivateSample.luna KeysSample.uuid KeysSample.two KeysSample.users
  /\ KeysSample.users = KeysSample.users.
Proof.
  split; [reflexivity|].
  assert (Hok : list_fields_ok (JT := KeysSample.numbers) PrivateSample.luna KeysSample.uuid KeysSample.two KeysSample.users).
  { pose proof ascii_well_formed as Hw. split; [| |vm_compute; reflexivity].
    - repeat (apply Forall_cons; split); try apply Forall_nil_2;
        (split; [apply Hw; vm_compute; reflexivity | vm_compute; reflexivity]).
    - apply (bool_decide_unpack _). vm_compute. exact I. }
  apply (recipients_are_signed (JT := KeysSample.numbers) PrivateSample.luna PrivateSample.luna KeysSample.uuid
    KeysSample.uuid KeysSample.two KeysSample.two); [exact Hok | exact Hok | reflexivity].
Defined.
