(* ===== verification/Network.v ===== *)
(** * Requests that are awaited

    A sequential [async] function as a computation over a client: its arrays, the replies its requests
    will get, the abort signal, the variables its [finally] block reads, and a log of what it sent.
    A run consumes a finite list of replies; one that awaits a reply beyond the list is [Waiting], as a
    promise that has not settled, and runs no cleanup. *)

From S2P Require Import Prelude JsString Bytes Buffers.

(** A settled request, as whichever of [getJson], [postJson] and [putJson], [apiFetch] or [arrayBuffer] awaits it,
    and whether the signal was aborted by then. *)
Record reply := { rp_json : thrown json; rp_ok : thrown bool; rp_body : thrown bytes; rp_aborted : bool }.

Inductive request :=
| GetJson (path : jstr)
| PostJson (path : jstr) (body : json)
| PutJson (path : jstr) (body : json)
| ApiFetch (path : jstr)
| ArrayBuffer.

(** A call of the optional [onProgress]; the callers pass a state setter, which neither throws nor
    aborts. *)
Record progress := {
  pg_processed : Z; pg_total : Z; pg_snapshots : json; pg_alreadyIndexed : Z; pg_skipped : Z;
  pg_message : jstr;
}.

Inductive event :=
| Sent (r : request)
| Progressed (p : progress).

Record client (L : Type) := {
  cl_heap : heap;
  cl_replies : list reply;
  cl_aborted : bool;
  cl_locals : L;
  cl_log : list event;
}.
Arguments cl_heap {L}.
Arguments cl_replies {L}.
Arguments cl_aborted {L}.
Arguments cl_locals {L}.
Arguments cl_log {L}.
Arguments Build_client {L}.

#[export] Instance eta_client L : Settable (client L) := fun c =>
  {| cl_heap := cl_heap c; cl_replies := cl_replies c; cl_aborted := cl_aborted c;
     cl_locals := cl_locals c; cl_log := cl_log c |}.

Inductive outcome (A : Type) :=
| Settled (r : thrown A)
| Waiting
| OutOfFuel.
Arguments Settled {A} r.
Arguments Waiting {A}.
Arguments OutOfFuel {A}.

Definition net (L A : Type) : Type := client L -> outcome A * client L.

Section Net.
Context {L : Type}.

#[export] Instance net_ret : MRet (net L) := fun A a c => (Settled (Ok a), c).
#[export] Instance net_bind : MBind (net L) := fun A B f m c =>
  match m c with
  | (Settled (Ok a), c) => f a c
  | (Settled (Err e), c) => (Settled (Err e), c)
  | (Waiting, c) => (Waiting, c)
  | (OutOfFuel, c) => (OutOfFuel, c)
  end.

Definition fail {A} (e : error) : net L A := fun c => (Settled (Err e), c).
Definition check {A} (r : thrown A) : net L A := fun c => (Settled r, c).
Definition exhausted {A} : net L A := fun c => (OutOfFuel, c).

(** A computation on the arrays alone. *)
Definition on_heap {A} (m : buffers A) : net L A := fun c =>
  let '(r, h) := m (cl_heap c) in (Settled r, c <| cl_heap := h |>).

Definition get_locals : net L L := fun c => (Settled (Ok (cl_locals c)), c).
Definition set_locals (l : L) : net L unit := fun c => (Settled (Ok tt), c <| cl_locals := l |>).
Definition aborted : net L bool := fun c => (Settled (Ok (cl_aborted c)), c).
Definition log (e : event) : net L unit := fun c => (Settled (Ok tt), c <| cl_log ::= fun l => l ++ [e] |>).

(** [try { m } finally { cleanup }] for a cleanup of arrays chosen by the locals of that moment. *)
Definition ensure {A} (m : net L A) (cleanup : L -> buffers unit) : net L A := fun c =>
  match m c with
  | (Settled r, c) => (Settled r, c <| cl_heap := (cleanup (cl_locals c) (cl_heap c)).2 |>)
  | o => o
  end.

(** [try { m } catch (e) { f(e) }] *)
Definition attempt {A} (m : net L A) (f : error -> net L A) : net L A := fun c =>
  match m c with
  | (Settled (Err e), c) => f e c
  | o => o
  end.

(** Sends a request and awaits its reply. *)
Definition await (r : request) : net L reply := fun c =>
  let c := c <| cl_log ::= fun l => l ++ [Sent r] |> in
  match cl_replies c with
  | [] => (Waiting, c)
  | rp :: rest =>
      (Settled (Ok rp), c <| cl_replies := rest |> <| cl_aborted := cl_aborted c || rp_aborted rp |>)
  end.

Definition getJson (path : jstr) : net L json := rp ← await (GetJson path); check (rp_json rp).
Definition postJson (path : jstr) (body : json) : net L json := rp ← await (PostJson path body); check (rp_json rp).
Definition putJson (path : jstr) (body : json) : net L json := rp ← await (PutJson path body); check (rp_json rp).
Definition apiFetch (path : jstr) : net L bool := rp ← await (ApiFetch path); check (rp_ok rp).
Definition arrayBuffer : net L bytes := rp ← await ArrayBuffer; check (rp_body rp).
End Net.

(** ** URLs *)

(** Bytes the [application/x-www-form-urlencoded] serializer leaves alone. *)
Definition form_plain (c : N) : bool :=
  (is_digit c || ((65 <=? c) && (c <=? 90)) || ((97 <=? c) && (c <=? 122))
   || existsb (N.eqb c) (js "*-._"))%N.

Definition form_encode (s : jstr) : jstr :=
  flat_map (fun b => if form_plain b then [b] else if (b =? 32)%N then js "+" else percent_byte b) (utf8_encode s).

(** [new URLSearchParams(pairs).toString()] *)
Definition query_string (pairs : list (jstr * jstr)) : jstr :=
  join (js "&") (map (fun '(k, v) => form_encode k ++ js "=" ++ form_encode v) pairs).

(** ** A program logic *)

(** How a run stops without a result. *)
Inductive ending := Failed (e : error) | Pending | NoFuel.

Definition ends {A} (o : outcome A) : ending + A :=
  match o with
  | Settled (Ok a) => inr a
  | Settled (Err e) => inl (Failed e)
  | Waiting => inl Pending
  | OutOfFuel => inl NoFuel
  end.

(** From a client in [P], a result comes with [Q] and any other ending with [E]. *)
Definition hoare {L A} (P : client L -> Prop) (m : net L A) (Q : A -> client L -> Prop)
    (E : ending -> client L -> Prop) : Prop :=
  forall c, P c -> match ends (m c).1 with inr a => Q a (m c).2 | inl e => E e (m c).2 end.

Section Logic.
Context {L : Type}.
Implicit Types (P I : client L -> Prop) (E : ending -> client L -> Prop).

Lemma hoare_weaken {A} P P' (m : net L A) (Q Q' : A -> client L -> Prop) E E' :
  hoare P m Q E -> (forall c, P' c -> P c) -> (forall a c, Q a c -> Q' a c) ->
  (forall e c, E e c -> E' e c) -> hoare P' m Q' E'.
Proof.
  intros Hm HP HQ HE c Hc. specialize (Hm c (HP c Hc)). destruct (ends (m c).1); [by apply HE | by apply HQ].
Qed.

Lemma hoare_pre {A} P P' (m : net L A) (Q : A -> client L -> Prop) E :
  hoare P m Q E -> (forall c, P' c -> P c) -> hoare P' m Q E.
Proof. intros Hm HP. by eapply hoare_weaken. Qed.

Lemma hoare_pure {A} P (R : Prop) (m : net L A) (Q : A -> client L -> Prop) E :
  (R -> hoare P m Q E) -> hoare (fun c => P c /\ R) m Q E.
Proof. intros Hm c [Hc HR]. by apply Hm. Qed.

Lemma hoare_bind {A B} P (m : net L A) (R : A -> client L -> Prop) (f : A -> net L B) (Q : B -> client L -> Prop) E :
  hoare P m R E -> (forall a, hoare (R a) (f a) Q E) -> hoare P (m ≫= f) Q E.
Proof.
  intros Hm Hf c Hc. specialize (Hm c Hc). unfold mbind, net_bind.
  destruct (m c) as [[[a|e]| |] c1]; cbn in *; [by apply Hf | done..].
Qed.

Lemma hoare_ret {A} P (a : A) (Q : A -> client L -> Prop) E :
  (forall c, P c -> Q a c) -> hoare P (mret a) Q E.
Proof. intros H c Hc. by apply H. Qed.

Lemma hoare_check {A} P (r : thrown A) (Q : A -> client L -> Prop) E :
  (forall a c, r = Ok a -> P c -> Q a c) -> (forall e c, P c -> E (Failed e) c) -> hoare P (check r) Q E.
Proof. intros HQ HE c Hc. unfold check. cbn. destruct r; cbn; auto. Qed.

Lemma hoare_fail {A} P (e : error) (Q : A -> client L -> Prop) E :
  (forall c, P c -> E (Failed e) c) -> hoare P (fail e) Q E.
Proof. intros H c Hc. by apply H. Qed.

Lemma hoare_exhausted {A} P (Q : A -> client L -> Prop) E :
  (forall c, P c -> E NoFuel c) -> hoare P (exhausted (A := A)) Q E.
Proof. intros H c Hc. by apply H. Qed.

Lemma hoare_on_heap {A} P (m : buffers A) (Q : A -> client L -> Prop) E :
  (forall c a h, P c -> m (cl_heap c) = (Ok a, h) -> Q a (c <| cl_heap := h |>)) ->
  (forall c e h, P c -> m (cl_heap c) = (Err e, h) -> E (Failed e) (c <| cl_heap := h |>)) ->
  hoare P (on_heap m) Q E.
Proof.
  intros HQ HE c Hc. unfold on_heap. specialize (HQ c). specialize (HE c).
  destruct (m (cl_heap c)) as [[a|e] h]; cbn; [by eapply HQ | by eapply HE].
Qed.

Lemma hoare_aborted P (Q : bool -> client L -> Prop) E :
  (forall c, P c -> Q (cl_aborted c) c) -> hoare P aborted Q E.
Proof. intros H c Hc. by apply H. Qed.

Lemma hoare_set_locals P (l : L) (Q : unit -> client L -> Prop) E :
  (forall c, P c -> Q tt (c <| cl_locals := l |>)) -> hoare P (set_locals l) Q E.
Proof. intros H c Hc. by apply H. Qed.

Lemma hoare_log P (e : event) (Q : unit -> client L -> Prop) E :
  (forall c, P c -> Q tt (c <| cl_log ::= fun l => l ++ [e] |>)) -> hoare P (log e) Q E.
Proof. intros H c Hc. by apply H. Qed.

Definition sent (r : request) (c : client L) : client L := c <| cl_log ::= fun l => l ++ [Sent r] |>.
Definition received (rp : reply) (rest : list reply) (c : client L) : client L :=
  c <| cl_replies := rest |> <| cl_aborted := cl_aborted c || rp_aborted rp |>.

Lemma hoare_await P (r : request) (Q : reply -> client L -> Prop) E :
  (forall c, P c -> cl_replies c = [] -> E Pending (sent r c)) ->
  (forall c rp rest, P c -> cl_replies c = rp :: rest -> Q rp (received rp rest (sent r c))) ->
  hoare P (await r) Q E.
Proof.
  intros HE HQ [h rs a l lg] Hc. specialize (HE _ Hc).
  destruct rs as [|rp rest]; [exact (HE eq_refl) | exact (HQ _ rp rest Hc eq_refl)].
Qed.

Lemma hoare_attempt {A} P (m : net L A) (f : error -> net L A) (R : error -> client L -> Prop)
    (Q : A -> client L -> Prop) E :
  hoare P m Q (fun e c => match e with Failed x => R x c | e => E e c end) ->
  (forall x, hoare (R x) (f x) Q E) -> hoare P (attempt m f) Q E.
Proof.
  intros Hm Hf c Hc. specialize (Hm c Hc). unfold attempt.
  destruct (m c) as [[[a|e]| |] c1]; cbn in *; [done | by apply Hf | done | done].
Qed.

Definition cleaned (cleanup : L -> buffers unit) (c : client L) : client L :=
  c <| cl_heap := (cleanup (cl_locals c) (cl_heap c)).2 |>.

Lemma hoare_ensure {A} P (m : net L A) (cleanup : L -> buffers unit) (Q : A -> client L -> Prop) E :
  hoare P m (fun a c => Q a (cleaned cleanup c))
    (fun e c => match e with Failed _ => E e (cleaned cleanup c) | _ => E e c end) ->
  hoare P (ensure m cleanup) Q E.
Proof.
  intros Hm c Hc. specialize (Hm c Hc). unfold ensure.
  destruct (m c) as [[[a|e]| |] c1]; cbn in *; done.
Qed.
End Logic.

(** [hbind t as x]: the first computation by [t], then the rest from what it leaves. *)
Tactic Notation "hbind" tactic3(tac) "as" simple_intropattern(x) :=
  eapply hoare_bind; [tac | cbn beta; intros x; cbn beta].
