(* ===== verification/PrivateRestore.v ===== *)
(** * Restoring private backups: [luna/web/src/lib/privateRestore.js]

    The recovery phrase opens the scopes Luna lists page by page, and every snapshot of each scope is
    verified, opened and sent back.  Requests are awaited through [Network]; the loops over pages run
    on fuel. *)

From S2P Require Import Prelude JsString Bytes Base64 BackupCrypto Buffers CloudFormat CloudPrivate Network.

Definition PRIVATE_RESTORE_PATH : jstr := js "/api/v1/cloud/restore-private".
Definition KEPT_SCOPES_PATH : jstr := js "/api/v1/cloud/phrase/kept-scopes".

Definition NOT_FOUND_MESSAGE : string :=
  "This recovery phrase doesn't open any private backups on this Luna. Check each word.".
Definition PACK_FAILED_MESSAGE : string :=
  "Could not download part of your private backups. Check your connection, then try again.".
Definition invalid_page : string := "The private backup list changed or returned an invalid page. Try again.".
Definition incomplete_page : string := "The private backup list changed or returned an incomplete page. Try again.".

(** [a < b] of strings: by code units. *)
Fixpoint js_ltb (a b : jstr) : bool :=
  match a, b with
  | _, [] => false
  | [], _ :: _ => true
  | x :: a, y :: b => if (x =? y)%N then js_ltb a b else (x <? y)%N
  end.
Definition js_leb (a b : jstr) : bool := negb (js_ltb b a).

(** [new DOMException("Restore stopped", "AbortError")], an error with that message. *)
Definition stoppedRestore : error := EError (js "Restore stopped").

(** The fields of a page of scope records; [records] is what the code made of them: names as they
    came, data in arrays. *)
Record scope_page := {
  sp_records : list (value * nat); sp_scanned : value; sp_total : value; sp_version : value;
  sp_next_after : value;
}.

(** A number the validation checked, and its test. *)
Definition counted (v : value) : Z := default 0 (safe_integer v).
Definition is_count (v : value) : bool :=
  match safe_integer v with Some z => 0 <=? z | None => false end.

(** [/^[a-z0-9._-]+$/] and [/^[a-f0-9]{32}$/] *)
Definition cursor_text (s : jstr) : bool :=
  truthy s && forallb (fun c => is_digit c || ((97 <=? c) && (c <=? 122)) || existsb (N.eqb c) (js "._-"))%N s.
Definition HEX32 (s : jstr) : bool :=
  Nat.eqb (length s) 32 && forallb (fun c => is_digit c || ((97 <=? c) && (c <=? 102)))%N s.

Definition bad_cursor (v : value) : bool :=
  negb (nullish v)
  && match as_string v with
     | None => true
     | Some s => (128 <? Z.of_nat (length s)) || negb (cursor_text s)
                 || bool_decide (s = js ".") || includes (js "..") s
     end.

(** [expected !== undefined && v !== expected] *)
Definition differs (expected : option Z) (v : Z) : bool :=
  match expected with Some e => negb (v =? e) | None => false end.

(** The loop over the records of a page. *)
Fixpoint increasing_scopes (previous : jstr) (names : list value) : bool :=
  match names with
  | [] => true
  | v :: names =>
      match as_string v with
      | Some name => HEX32 name && negb (js_leb name previous) && increasing_scopes name names
      | None => false
      end
  end.

Definition validateScopePage (page : scope_page) (after : option jstr) (processed : Z)
    (expectedTotal expectedVersion : option Z) : thrown unit :=
  let names := map fst (sp_records page) in
  let n := Z.of_nat (length (sp_records page)) in
  let scanned := counted (sp_scanned page) in
  let total := counted (sp_total page) in
  if (64 <? n) || negb (is_count (sp_scanned page)) || (64 <? scanned)
     || negb (is_count (sp_total page)) || negb (is_count (sp_version page))
     || differs expectedTotal total || differs expectedVersion (counted (sp_version page))
     || (scanned <? n) || bad_cursor (sp_next_after page)
  then throw invalid_page
  else if negb (increasing_scopes [] names) then throw invalid_page
  else
    let next := text (sp_next_after page) in
    if (nullish (sp_next_after page) && negb (processed + scanned =? total))
       || (negb (nullish (sp_next_after page))
           && (negb (scanned =? 64) || js_leb next (default [] after)
               || existsb (fun v => js_ltb next (text v)) names
               || (total <=? processed + scanned)))
    then throw incomplete_page
    else Ok tt.

Fixpoint increasing_names (prefix previous : jstr) (names : list value) : bool :=
  match names with
  | [] => true
  | v :: names =>
      match as_string v with
      | Some name => starts_with prefix name && negb (js_leb name previous) && increasing_names prefix name names
      | None => false
      end
  end.

(** The names of a page, once it is an array. *)
Definition page_names (page : json) : list value :=
  match opt_prop "names" (Some page) with Some (JArr l) => map Some l | _ => [] end.

Definition validateRecordNamesPage (page : json) (scope : jstr) (after : option jstr) (processed : Z)
    (expectedTotal expectedVersion : option Z) : thrown unit :=
  let prefix := scope ++ js "." in
  names ← prop_of "names" (Some page);
  let total := opt_prop "total" (Some page) in
  let version := opt_prop "version" (Some page) in
  let next := opt_prop "next_after" (Some page) in
  match names with
  | Some (JArr l) =>
      let n := Z.of_nat (length l) in
      if (64 <? n) || negb (is_count total) || negb (is_count version)
         || differs expectedTotal (counted total) || differs expectedVersion (counted version)
      then throw invalid_page
      else if negb (increasing_names prefix (default prefix after) (map Some l)) then throw invalid_page
      else if (nullish next && negb (processed + n =? counted total))
              || (negb (nullish next)
                  && (negb (n =? 64)
                      || negb (bool_decide (as_string next = (last l ≫= fun v => as_string (Some v))))
                      || js_leb (text next) (default [] after)))
      then throw incomplete_page
      else Ok tt
  | _ => throw invalid_page
  end.

(** The counters of a restore: [restored] is what [+] made of the replies. *)
Record counters := { ct_restored : json; ct_alreadyIndexed : Z; ct_skipped : Z }.

#[export] Instance eta_counters : Settable counters := fun c =>
  {| ct_restored := ct_restored c; ct_alreadyIndexed := ct_alreadyIndexed c; ct_skipped := ct_skipped c |}.

(** The variables the outer [finally] reads. *)
Record locals := { lo_scopes : list found_scope; lo_scopeRecords : list (value * nat) }.

Abbreviation restoring := (net locals).

(** The elements a [for … of] visits. *)
Definition iterate (v : value) : thrown (list value) :=
  match v with
  | Some (JArr l) => Ok (map Some l)
  | Some (JStr s) => Ok (map (fun _ => Some (JStr [])) (code_points s))
  | _ => Err TypeError
  end.

Definition num_text (z : Z) : jstr := js_of_Z z.

Section Restore.
Context `{N : Noble} `{JT : JsText}.

(** ** Requests *)

Definition checkRestoreSignal : restoring unit := a ← aborted; if a : bool then fail stoppedRestore else mret tt.

Definition requestWithRestoreSignal {A} (request : restoring A) : restoring A :=
  _ ← checkRestoreSignal;
  attempt request (fun e => a ← aborted; fail (if a : bool then stoppedRestore else e)).

Definition page_query (head : list (jstr * jstr)) (after : option jstr) (version total : option Z) : jstr :=
  query_string (head
    ++ match after with Some a => if truthy a then [(js "after", a)] else [] | None => [] end
    ++ match version with Some v => [(js "version", num_text v)] | None => [] end
    ++ match total with Some t => [(js "total", num_text t)] | None => [] end).

(** [(page.records ?? []).map(…)] *)
Fixpoint decode_records (l : list json) : restoring (list (value * nat)) :=
  match l with
  | [] => mret []
  | r :: l =>
      name ← check (prop_of "name" (Some r));
      d ← check (prop_of "data" (Some r)); b ← check (fromBase64 d);
      p ← on_heap (alloc b);
      rest ← decode_records l;
      mret ((name, p) :: rest)
  end.

Definition fetchScopePage (after : option jstr) (version total : option Z) (processed : Z) : restoring scope_page :=
  let query := page_query [(js "limit", js "64"); (js "processed", num_text processed)] after version total in
  page ← requestWithRestoreSignal (getJson (PRIVATE_RESTORE_PATH ++ js "/records/" ++ PSCOPES_KIND ++ js "?" ++ query));
  rs ← check (prop_of "records" (Some page));
  records ← match rs with
            | None | Some JNull => mret []
            | Some (JArr l) => decode_records l
            | Some _ => fail TypeError
            end;
  mret {| sp_records := records; sp_scanned := opt_prop "scanned" (Some page);
          sp_total := opt_prop "total" (Some page); sp_version := opt_prop "version" (Some page);
          sp_next_after := opt_prop "next_after" (Some page) |}.

Definition fetchRecordNames (kind scope : jstr) (after : option jstr) (version total : option Z) : restoring json :=
  let query := page_query [(js "scope", scope); (js "limit", js "64")] after version total in
  requestWithRestoreSignal (getJson (PRIVATE_RESTORE_PATH ++ js "/records/" ++ kind ++ js "/names?" ++ query)).

Definition URIError : error := EError (js "URI malformed").

Definition fetchRecord (kind name : jstr) : restoring (value * nat) :=
  match encode_uri_component name with
  | None => fail URIError
  | Some encoded =>
      body ← requestWithRestoreSignal (getJson (PRIVATE_RESTORE_PATH ++ js "/records/" ++ kind ++ js "/" ++ encoded));
      got ← check (prop_of "name" (Some body));
      d ← check (prop_of "data" (Some body)); b ← check (fromBase64 d);
      p ← on_heap (alloc b);
      mret (got, p)
  end.

Definition fetchPack (scope snapshotId treePackId : jstr) : restoring nat :=
  ok ← requestWithRestoreSignal
         (apiFetch (PRIVATE_RESTORE_PATH ++ js "/packs/" ++ scope ++ js "/" ++ snapshotId ++ js "/" ++ treePackId));
  if negb ok then check (throw PACK_FAILED_MESSAGE)
  else b ← requestWithRestoreSignal arrayBuffer; on_heap (alloc b).

(** ** Kept scopes *)

(** The records of the arrays, as they are at that moment. *)
Fixpoint read_records (l : list (value * nat)) : buffers (list fetched) :=
  match l with
  | [] => mret []
  | (name, p) :: l =>
      b ← read_buf p; rest ← read_records l; mret ({| ft_name := name; ft_data := b |} :: rest)
  end.

(** One turn of the loop over the kept copies. *)
Definition open_kept (k : user_keys) (lunaId : jstr) (pscopes : list fetched) (signingPublics : list bytes)
    (skip : list jstr) (copy : value) : restoring (option found_scope) :=
  _ ← checkRestoreSignal;
  sc ← check (prop_of "scope" copy);
  match as_string sc with
  | None => mret None
  | Some scope =>
      if bool_decide (scope ∈ skip) then mret None
      else
        match List.find (fun r => bool_decide (as_string (ft_name r) = Some scope)) pscopes with
        | None => mret None
        | Some record =>
            match verifyScopeRecord (ft_data record) signingPublics lunaId with
            | None => mret None
            | Some rec =>
                if negb (bool_decide (sr_scope rec = scope)) then mret None
                else
                  match fromBase64 (opt_prop "sealed_scope_secret" copy) with
                  | Err _ => mret None
                  | Ok sealed => on_heap (open_scope_keys sealed (uk_sealSecret k) lunaId rec)
                  end
            end
        end
  end.

Fixpoint open_kept_all (k : user_keys) (lunaId : jstr) (pscopes : list fetched) (signingPublics : list bytes)
    (skip : list jstr) (kept : list value) (found : list found_scope) : restoring (list found_scope) :=
  match kept with
  | [] => mret found
  | copy :: kept =>
      f ← open_kept k lunaId pscopes signingPublics skip copy;
      open_kept_all k lunaId pscopes signingPublics skip kept
        (match f with Some f => found ++ [f] | None => found end)
  end.

Definition openKeptScopes (lunaId : jstr) (entropy : bytes) (pscopes : list fetched)
    (signingPublics : list bytes) (skip : list jstr) (kept : value) : restoring (list found_scope) :=
  '(k, secrets) ← on_heap (derive_secrets entropy lunaId);
  ensure
    (copies ← check (iterate kept);
     open_kept_all k lunaId pscopes signingPublics skip copies [])
    (fun _ => fill_all secrets).

(** ** One scope *)

Definition no_progress (cs : counters) (processed total : Z) (message : jstr) : progress := {|
  pg_processed := processed; pg_total := total; pg_snapshots := ct_restored cs;
  pg_alreadyIndexed := ct_alreadyIndexed cs; pg_skipped := ct_skipped cs; pg_message := message |}.

Definition onProgress (cs : counters) (processed total : Z) (message : jstr) : restoring unit :=
  log (Progressed (no_progress cs processed total message)).

(** The body that restores one snapshot. *)
Definition restore_body (scope : jstr) (dedupKey recordData : bytes) (s : private_snapshot) (tree : json) : json :=
  let snap := ps_snap s in
  JObj [(js "scope", JStr scope);
        (js "dedup_key", JStr (toBase64 dedupKey));
        (js "snapshots", JArr [JObj [
           (js "snapshot_id", JStr (sn_snapshotId snap));
           (js "protection_id", JStr (sn_protectionId snap));
           (js "record", JStr (toBase64 recordData));
           (js "meta", JObj [(js "name", JStr (bm_name (ps_meta s)));
                             (js "source_drive", JStr (bm_sourceDrive (ps_meta s)));
                             (js "source_path", JStr (bm_sourcePath (ps_meta s)))]);
           (js "tree", tree)]])].

Definition is_zero (v : json) : bool :=
  match v with JNum n => match num_integer n with Some 0 => true | _ => false end | _ => false end.

(** [data.restored ?? 1] *)
Definition inserted_of (data : json) : thrown json :=
  v ← prop_of "restored" (Some data);
  Ok (match v with None | Some JNull => JNum (num_of_Z 1) | Some v => v end).

(** Opens the tree of a snapshot and sends it to Luna; the pack is cleared. *)
Definition send_snapshot (lunaId : jstr) (found : found_scope) (secret : bytes) (record : nat)
    (s : private_snapshot) (cs : counters) : restoring counters :=
  let snap := ps_snap s in
  treePack ← fetchPack (fs_scope found) (sn_snapshotId snap) (sn_treePackId snap);
  ensure
    (packBytes ← on_heap (read_buf treePack);
     tree ← on_heap (readRawTreeWith packBytes (sn_treePackId snap) (sn_treeHash snap)
                       (privateUnwrap secret lunaId (fs_scope found))
                       (openPrivateTreeBytes secret lunaId (fs_scope found)));
     dedupKey ← on_heap (read_buf (fs_dedupKey found));
     data ← on_heap (read_buf record);
     let body := restore_body (fs_scope found) dedupKey data s tree in
     reply ← requestWithRestoreSignal (postJson PRIVATE_RESTORE_PATH body);
     inserted ← check (inserted_of reply);
     restored ← check (js_plus (ct_restored cs) inserted);
     mret {| ct_restored := restored;
             ct_alreadyIndexed := ct_alreadyIndexed cs + (if is_zero inserted then 1 else 0);
             ct_skipped := ct_skipped cs |})
    (fun _ => fill0 treePack).

Definition version_message (verb : string) (processed total number : Z) : jstr :=
  js verb ++ js " version " ++ num_text processed ++ js " of " ++ num_text total
  ++ js " in private backup " ++ num_text number.

(** One name of a page. *)
Definition restore_name (lunaId : jstr) (signingPublics : list bytes) (found : found_scope) (number total : Z)
    (name : jstr) (processed : Z) (cs : counters) : restoring counters :=
  _ ← checkRestoreSignal;
  record ← fetchRecord PSNAPSHOTS_KIND name;
  ensure
    (data ← on_heap (read_buf record.2);
     secret ← on_heap (read_buf (fs_sealSecret found));
     snaps ← on_heap (readPrivateSnapshots lunaId secret (fs_scope found)
                        [{| ft_name := record.1; ft_data := data |}] signingPublics);
     match snaps with
     | [] =>
         let cs := cs <| ct_skipped := ct_skipped cs + 1 |> in
         _ ← onProgress cs (processed + 1) total (version_message "Checking" (processed + 1) total number);
         mret cs
     | s :: _ =>
         cs ← send_snapshot lunaId found secret record.2 s cs;
         _ ← onProgress cs (processed + 1) total (version_message "Restoring" (processed + 1) total number);
         mret cs
     end)
    (fun _ => fill0 record.2).

Fixpoint restore_each (lunaId : jstr) (signingPublics : list bytes) (found : found_scope) (number total : Z)
    (names : list jstr) (processed : Z) (cs : counters) : restoring (Z * counters) :=
  match names with
  | [] => mret (processed, cs)
  | name :: names =>
      cs ← restore_name lunaId signingPublics found number total name processed cs;
      restore_each lunaId signingPublics found number total names (processed + 1) cs
  end.

Fixpoint restore_names (fuel : nat) (lunaId : jstr) (signingPublics : list bytes) (found : found_scope)
    (number : Z) (after : option jstr) (processed : Z) (expectedTotal expectedVersion : option Z)
    (cs : counters) : restoring counters :=
  match fuel with
  | O => exhausted
  | S fuel =>
      _ ← checkRestoreSignal;
      page ← fetchRecordNames PSNAPSHOTS_KIND (fs_scope found) after expectedVersion expectedTotal;
      _ ← check (validateRecordNamesPage page (fs_scope found) after processed expectedTotal expectedVersion);
      let total := counted (opt_prop "total" (Some page)) in
      let version := counted (opt_prop "version" (Some page)) in
      let names := omap as_string (page_names page) in
      _ ← (if total =? 0
           then onProgress cs 0 0 (js "Checking private backup " ++ num_text number) else mret tt);
      '(processed, cs) ← restore_each lunaId signingPublics found number total names processed cs;
      let next := opt_prop "next_after" (Some page) in
      if nullish next then
        let verifyAfter := match last names with Some n => Some n | None => after end in
        verification ← fetchRecordNames PSNAPSHOTS_KIND (fs_scope found) verifyAfter (Some version) (Some total);
        _ ← check (validateRecordNamesPage verification (fs_scope found) verifyAfter processed
                     (Some total) (Some version));
        if negb (Nat.eqb (length (page_names verification)) 0) then check (throw incomplete_page) else mret cs
      else
        restore_names fuel lunaId signingPublics found number (as_string next) processed
          (Some total) (Some version) cs
  end.

Definition clear_scope (f : found_scope) : buffers unit := fill_all [fs_sealSecret f; fs_dedupKey f].

(** One scope, its keys cleared at the end. *)
Definition restore_scope (fuel : nat) (lunaId : jstr) (signingPublics : list bytes) (found : found_scope)
    (number : Z) (cs : counters) : restoring counters :=
  ensure (restore_names fuel lunaId signingPublics found number None 0 None None cs)
    (fun _ => clear_scope found).

Fixpoint restore_scopes (fuel : nat) (lunaId : jstr) (signingPublics : list bytes) (scopes : list found_scope)
    (number : Z) (cs : counters) : restoring counters :=
  match scopes with
  | [] => mret cs
  | found :: scopes =>
      _ ← checkRestoreSignal;
      cs ← restore_scope fuel lunaId signingPublics found (number + 1) cs;
      restore_scopes fuel lunaId signingPublics scopes (number + 1) cs
  end.

(** ** The restore *)

Definition clear_all (lo : locals) : buffers unit :=
  _ ← fill_all (map snd (lo_scopeRecords lo));
  fill_all (flat_map (fun f => [fs_sealSecret f; fs_dedupKey f]) (lo_scopes lo)).

(** The scopes of one page: what the phrase opens, then what the kept copies open. *)
Definition open_page_scopes (lunaId : jstr) (entropy : nat) (signingPublics : list bytes) (kept : value)
    (records : list (value * nat)) : restoring (list found_scope) :=
  e ← on_heap (read_buf entropy); pscopes ← on_heap (read_records records);
  mine ← on_heap (findMyPrivateScopes lunaId e pscopes signingPublics);
  _ ← set_locals {| lo_scopes := mine; lo_scopeRecords := records |};
  more ← openKeptScopes lunaId e pscopes signingPublics (map fs_scope mine) kept;
  _ ← set_locals {| lo_scopes := mine ++ more; lo_scopeRecords := records |};
  mret (mine ++ more).

Fixpoint restore_pages (fuel : nat) (lunaId : jstr) (entropy : nat) (signingPublics : list bytes) (kept : value)
    (scopeAfter : option jstr) (scopeVersion scopeTotal : option Z) (scopeProcessed discovered : Z)
    (cs : counters) : restoring (Z * counters) :=
  match fuel with
  | O => exhausted
  | S fuel =>
      _ ← checkRestoreSignal;
      page ← fetchScopePage scopeAfter scopeVersion scopeTotal scopeProcessed;
      _ ← check (validateScopePage page scopeAfter scopeProcessed scopeTotal scopeVersion);
      _ ← set_locals {| lo_scopes := []; lo_scopeRecords := sp_records page |};
      scopes ← open_page_scopes lunaId entropy signingPublics kept (sp_records page);
      cs ← restore_scopes (S fuel) lunaId signingPublics scopes discovered cs;
      _ ← on_heap (clear_all {| lo_scopes := scopes; lo_scopeRecords := sp_records page |});
      _ ← set_locals {| lo_scopes := []; lo_scopeRecords := [] |};
      let discovered := discovered + Z.of_nat (length scopes) in
      if nullish (sp_next_after page) then mret (discovered, cs)
      else
        _ ← onProgress cs 0 0 (js "Finding your private backups");
        restore_pages fuel lunaId entropy signingPublics kept (as_string (sp_next_after page))
          (Some (counted (sp_version page))) (Some (counted (sp_total page)))
          (scopeProcessed + counted (sp_scanned page)) discovered cs
  end.

Definition restorePrivateFromPhrase (fuel : nat) (words lunaId signingPublic : jstr) : restoring json :=
  _ ← checkRestoreSignal;
  b ← check (phraseToEntropy words); entropy ← on_heap (alloc b);
  _ ← set_locals {| lo_scopes := []; lo_scopeRecords := [] |};
  ensure
    (pub ← check (fromBase64 (Some (JStr signingPublic)));
     keptResponse ← requestWithRestoreSignal (getJson KEPT_SCOPES_PATH);
     k ← check (prop_of "kept" (Some keptResponse));
     let kept := if nullish k then Some (JArr []) else k in
     '(discovered, cs) ← restore_pages fuel lunaId entropy [pub] kept None None None 0 0
                           {| ct_restored := JNum (num_of_Z 0); ct_alreadyIndexed := 0; ct_skipped := 0 |};
     if discovered =? 0 then check (throw NOT_FOUND_MESSAGE)
     else mret (JObj [(js "restored", ct_restored cs)]))
    (fun lo => _ ← fill0 entropy; clear_all lo).
End Restore.
