(* ===== verification/PrivateRestoreFacts.v ===== *)
(** * Restoring private backups: properties

    A restore sends Luna nothing that is not signed and opened with the phrase's keys; a scope is done only when
    every version of a consistent list was sent or counted as skipped; a restore that succeeded leaves none of the
    arrays it holds itself filled; what fuel is enough. *)

From S2P Require Import Prelude JsString Utf8 Bytes Base64 BackupCrypto CryptoFacts Buffers.
From S2P Require Import CloudFormat CloudFacts CloudPrivate CloudPrivateFacts Network PrivateRestore.

Create HintDb inert.
Create HintDb holding.

(** ** Requests *)

Section Requests.
Context `{N : Noble} `{JT : JsText}.
Implicit Types (P Q : client locals -> Prop) (E : ending -> client locals -> Prop).

Lemma signal_rule P E :
  (forall c, P c -> E (Failed stoppedRestore) c) -> hoare P checkRestoreSignal (fun _ => P) E.
Proof.
  intros HE. hbind (by apply (hoare_aborted P (fun _ => P))) as a.
  destruct a; [by apply hoare_fail | by apply hoare_ret].
Qed.

(** A request under the signal: the reply arrives in [Q], and every error ends in [E]. *)
Lemma reply_rule P (Q : reply -> client locals -> Prop) E {A} (r : request) (get : reply -> thrown A) :
  (forall c, P c -> E (Failed stoppedRestore) c) ->
  (forall c, P c -> cl_replies c = [] -> E Pending (sent r c)) ->
  (forall c rp rest, P c -> cl_replies c = rp :: rest -> Q rp (received rp rest (sent r c))) ->
  (forall e rp c, Q rp c -> E (Failed e) c) ->
  hoare P (requestWithRestoreSignal (rp ← await r; check (get rp))) (fun a c => exists rp, get rp = Ok a /\ Q rp c) E.
Proof.
  intros HP Hend HQ HE. hbind (by apply signal_rule) as _.
  apply hoare_attempt with (R := fun _ c => exists rp, Q rp c).
  - hbind (exact (hoare_await P r Q _ Hend HQ)) as rp.
    apply hoare_check; [intros a c Ha Hc; by exists rp | intros e c Hc; by exists rp].
  - intros e. hbind (by apply (hoare_aborted (fun c => exists rp, Q rp c) (fun _ c => exists rp, Q rp c))) as a.
    apply hoare_fail. intros c [rp Hc]. by eapply HE.
Qed.

Lemma request_rule P Q E {A} (r : request) (get : reply -> thrown A) :
  (forall c, P c -> E (Failed stoppedRestore) c) ->
  (forall c, P c -> cl_replies c = [] -> E Pending (sent r c)) ->
  (forall c rp rest, P c -> cl_replies c = rp :: rest -> Q (received rp rest (sent r c))) ->
  (forall e c, Q c -> E (Failed e) c) ->
  hoare P (requestWithRestoreSignal (rp ← await r; check (get rp))) (fun _ => Q) E.
Proof.
  intros HP Hend HQ HE. eapply hoare_weaken; [apply (reply_rule P (fun _ => Q) E); eauto | done | | done].
  by intros a c (rp & _ & Hc).
Qed.
End Requests.

Lemma hoare_ex {A X} (P : X -> client locals -> Prop) (m : restoring A) (Q : A -> client locals -> Prop) E :
  (forall x, hoare (P x) m Q E) -> hoare (fun c => exists x, P x c) m Q E.
Proof. intros Hm c [x Hc]. by apply (Hm x). Qed.

Lemma hoare_given {A X} (R : X -> Prop) (P : X -> client locals -> Prop) (m : restoring A) (Q : A -> client locals -> Prop) E :
  (forall x, R x -> hoare (P x) m Q E) -> hoare (fun c => exists x, R x /\ P x c) m Q E.
Proof. intros Hm c (x & Hx & Hc). by apply (Hm x). Qed.

Lemma hoare_known {A} (R : Prop) (P : client locals -> Prop) (m : restoring A) (Q : A -> client locals -> Prop) E :
  (forall c, P c -> R) -> (R -> hoare P m Q E) -> hoare P m Q E.
Proof. intros HR Hm c Hc. apply Hm; [by eapply HR | done]. Qed.

(** ** Arrays that must not be lost *)

(** Distinct arrays and their contents. *)
Definition keeps (keep : list (nat * bytes)) (h : heap) : Prop :=
  NoDup (map fst keep) /\ Forall (fun x => h_bufs h !! x.1 = Some x.2) keep.

Lemma keeps_perm (keep keep' : list (nat * bytes)) (h : heap) : keep ≡ₚ keep' -> keeps keep h -> keeps keep' h.
Proof. intros P [H1 H2]. split; by rewrite <- P. Qed.

Lemma keeps_drop (front keep : list (nat * bytes)) (h : heap) : keeps (front ++ keep) h -> keeps keep h.
Proof. unfold keeps. rewrite map_app, Forall_app, NoDup_app. tauto. Qed.

Lemma keeps_prefix (keep : list (nat * bytes)) (h h' : heap) :
  keeps keep h -> h_bufs h `prefix_of` h_bufs h' -> keeps keep h'.
Proof.
  intros [H1 H2] [l Hl]. split; [done|]. eapply Forall_impl; [exact H2|]. intros x Hx. cbn in *. rewrite Hl.
  by apply lookup_app_l_Some.
Qed.

Lemma keeps_fresh (base : nat) (front keep : list (nat * bytes)) (h h' : heap) :
  base = length (h_bufs h) -> keeps keep h -> h_bufs h `prefix_of` h_bufs h' -> apart base (map fst front) ->
  Forall (fun x => h_bufs h' !! x.1 = Some x.2) front -> keeps (front ++ keep) h'.
Proof.
  intros -> Hk Hp [Hn Hf] Hfr. pose proof (keeps_prefix _ _ _ Hk Hp) as [H1 H2]. split; [|by apply Forall_app].
  rewrite map_app. apply NoDup_app. split_and!; [done | | done]. intros i Hi (x & -> & Hx)%list_elem_of_fmap.
  rewrite Forall_forall in Hf. specialize (Hf _ Hi). destruct Hk as [_ Hk]. rewrite Forall_forall in Hk.
  specialize (Hk _ Hx). apply lookup_lt_Some in Hk. lia.
Qed.

Lemma keeps_fill_other (l : list nat) (keep : list (nat * bytes)) (h : heap) :
  (forall i, i ∈ l -> i ∉ map fst keep) -> keeps keep h -> keeps keep (fill_all l h).2.
Proof.
  revert h. induction l as [|p l IH]; intros h Hl [H1 H2]; [done|]. rewrite fill_all_cons. apply IH; [set_solver|].
  split; [done|]. rewrite Forall_forall in H2 |- *. intros x Hx. cbn. rewrite list_lookup_alter_ne; [by apply H2|].
  intros ->. apply (Hl x.1); [by left | by apply list_elem_of_fmap_2].
Qed.

Lemma keeps_fill (front keep : list (nat * bytes)) (h : heap) :
  keeps (front ++ keep) h -> keeps keep (fill_all (map fst front) h).2.
Proof.
  intros Hk. pose proof (keeps_drop _ _ _ Hk) as Hd. destruct Hk as [Hn _]. rewrite map_app in Hn.
  apply NoDup_app in Hn as (_ & Hn & _). by apply keeps_fill_other.
Qed.

(** What computations add to. *)
Definition grows {A} (m : buffers A) : Prop := forall h a h', m h = (Ok a, h') -> h_bufs h `prefix_of` h_bufs h'.

Lemma read_buf_prefix (q : nat) (h : heap) (b : bytes) (h' : heap) :
  read_buf q h = (Ok b, h') -> b = default [] (h_bufs h !! q) /\ h' = h.
Proof. by intros [= <- <-]. Qed.

Lemma grows_read (q : nat) : grows (read_buf q).
Proof. by intros h a h' [-> ->]%read_buf_prefix. Qed.

Lemma grows_zeros {A} (m : buffers A) : leaves_zeros m -> grows m.
Proof. intros Hm h a h' (bufs & packs & -> & _)%Hm. by exists bufs. Qed.

Lemma grows_records (l : list (value * nat)) : grows (read_records l).
Proof.
  induction l as [|[name p] l IH]; cbn [read_records]; [by intros h a h' [= _ <-]|].
  intros h a h' (b & h1 & [-> ->]%read_buf_prefix & (rest & h2 & Hr%IH & [= _ <-])%bind_run)%bind_run. done.
Qed.

(** ** Progress and what is sent *)

Section Sends.
Context `{NB : NobleBytes} `{JT : JsText} (lunaId : jstr) (signingPublics : list bytes).

(** The keys of a scope are the phrase's: Luna signed a record of the scope, the scope's secret opens with the phrase's
    own sealing key, from the record that names this key or from a kept copy for the scope, and the secret opens the
    record's dedup key, whose scope it is. *)
Definition phrase_opens (entropy : bytes) (copies : list value) (scope : jstr) (secret dedupKey : bytes) : Prop :=
  exists k rec sealed, derive entropy lunaId = Ok k /\ sr_lunaId rec = lunaId /\ sr_scope rec = scope
    /\ (exists pub sig, pub ∈ signingPublics /\ verify pub SCOPE_RECORD_DOMAIN (scopeSignedBytes rec) sig = true)
    /\ (sealed = sr_sealedScopeSecret rec /\ sr_sealPublic rec = uk_sealPublic k
        \/ exists copy, copy ∈ copies /\ as_string (opt_prop "scope" copy) = Some scope
             /\ fromBase64 (opt_prop "sealed_scope_secret" copy) = Ok sealed)
    /\ open (uk_sealSecret k) (privateAad SCOPE_SECRET_PURPOSE lunaId scope) sealed = Ok secret
    /\ len secret = SEAL_SECRET_LEN
    /\ open secret (privateAad DEDUP_PURPOSE lunaId scope) (sr_sealedDedup rec) = Ok dedupKey
    /\ len dedupKey = KEY_LEN /\ scopeOf dedupKey = scope.

(** A snapshot read with a scope's secret key: its record is signed, and its details open. *)
Definition snapshot_opens (secret : bytes) (scope : jstr) (data : bytes) (s : private_snapshot) : Prop :=
  verifySnapshot data signingPublics lunaId PRIVATE_SNAPSHOT_DOMAIN = Some (ps_snap s)
  /\ meta_opens secret lunaId scope (sn_meta (ps_snap s)) (ps_meta s).

(** A tree is the one a snapshot names: a pack file of the signed id opens with the scope's secret, its chunk of the
    signed hash has that hash, and opens to the tree with the same secret. *)
Definition tree_opens (secret : bytes) (scope : jstr) (snap : snapshot) (tree : json) : Prop :=
  exists file sealed plain, bytesToHex (packId file) = sn_treePackId snap
    /\ holds_chunk file (privateUnwrap secret lunaId scope) (sn_treeHash snap) sealed
    /\ sha256 sealed = sn_treeHash snap
    /\ openPrivateTreeBytes secret lunaId scope sealed = Ok plain /\ json_parse plain = Some tree.

Context (entropy : bytes) (copies : list value).

(** What may be sent: anything but a body that is not of an opened snapshot. *)
Definition sound (e : event) : Prop :=
  match e with
  | Sent (PostJson path body) =>
      path = PRIVATE_RESTORE_PATH
      /\ exists scope secret dedupKey data s tree, body = restore_body scope dedupKey data s tree
           /\ phrase_opens entropy copies scope secret dedupKey
           /\ snapshot_opens secret scope data s /\ tree_opens secret scope (ps_snap s) tree
  | Sent (PutJson _ _) => False
  | _ => True
  end.

Definition quiet (r : request) : Prop := match r with PostJson _ _ | PutJson _ _ => False | _ => True end.

(** The replies to come, a sound log, and the arrays that are kept. *)
Definition tracked (lim : list reply -> Prop) (keep : list (nat * bytes)) (c : client locals) : Prop :=
  lim (cl_replies c) /\ Forall sound (cl_log c) /\ keeps keep (cl_heap c).
Abbreviation upto n := (tracked (fun rs => length rs <= n)%nat).
Abbreviation below n := (tracked (fun rs => length rs < n)%nat).
Definition stopped (e : ending) (c : client locals) : Prop := e <> NoFuel /\ Forall sound (cl_log c).

Lemma tracked_stop lim keep (c : client locals) (e : ending) : tracked lim keep c -> e <> NoFuel -> stopped e c.
Proof. by intros (_ & ? & _). Qed.

Lemma below_upto (n : nat) keep (c : client locals) : below n keep c -> upto n keep c.
Proof. intros (? & ? & ?). split_and!; [lia | done | done]. Qed.

Lemma quiet_sound (r : request) : quiet r -> sound (Sent r).
Proof. by destruct r. Qed.

Lemma sound_sent (r : request) (c : client locals) :
  sound (Sent r) -> Forall sound (cl_log c) -> Forall sound (cl_log (sent r c)).
Proof. intros Hr Hc. apply Forall_app. by repeat constructor. Qed.

Lemma post_rule (n : nat) keep {A} (r : request) (get : reply -> thrown A) : sound (Sent r) ->
  hoare (upto n keep) (requestWithRestoreSignal (rp ← await r; check (get rp))) (fun _ => below n keep) stopped.
Proof.
  intros Hq. apply request_rule.
  - intros c Hc. by eapply tracked_stop.
  - intros c (_ & ? & _) _. split; [done | by apply sound_sent].
  - intros c rp rest (Hl & Hg & Hk) Hr. split_and!; [| by apply sound_sent | done]. cbn. rewrite Hr in Hl. cbn in Hl. lia.
  - intros e c Hc. by eapply tracked_stop.
Qed.

Lemma ask_rule (n : nat) keep {A} (r : request) (get : reply -> thrown A) : quiet r ->
  hoare (upto n keep) (requestWithRestoreSignal (rp ← await r; check (get rp))) (fun _ => below n keep) stopped.
Proof. intros Hq%quiet_sound. by apply post_rule. Qed.

Lemma ask_upto (n : nat) keep {A} (r : request) (get : reply -> thrown A) : quiet r ->
  hoare (upto n keep) (requestWithRestoreSignal (rp ← await r; check (get rp))) (fun _ => upto n keep) stopped.
Proof.
  intros Hq. eapply hoare_weaken; [by apply (ask_rule n keep r get) | done | | done].
  intros a c. apply below_upto.
Qed.

Section Tracked.
Context (lim : list reply -> Prop) (keep : list (nat * bytes)).
Abbreviation J := (tracked lim keep).

Lemma t_grown {A} (m : buffers A) (R : A -> Prop) :
  grows m -> (forall h a h', m h = (Ok a, h') -> R a) -> hoare J (on_heap m) (fun a c => J c /\ R a) stopped.
Proof.
  intros Hg HR. apply hoare_on_heap; [|by intros c e h (_ & ? & _) _].
  intros c a h (H1 & H2 & H3) Hr. split; [|by eapply HR]. split_and!; [done | done|]. by eapply keeps_prefix, Hg.
Qed.

Lemma t_on_heap {A} (m : buffers A) : grows m -> hoare J (on_heap m) (fun _ => J) stopped.
Proof. intros Hg. eapply hoare_weaken; [by apply (t_grown m (fun _ => True)) | done | by intros a c [? _] | done]. Qed.

Lemma t_check {A} (r : thrown A) : hoare J (check r) (fun _ => J) stopped.
Proof. apply hoare_check; [done|]. intros e c Hc. by eapply tracked_stop. Qed.

Lemma t_checked {A} (r : thrown A) : hoare J (check r) (fun a c => J c /\ r = Ok a) stopped.
Proof. apply hoare_check; [done|]. intros e c Hc. by eapply tracked_stop. Qed.

Lemma t_fail {A} (e : error) (Q : A -> client locals -> Prop) : hoare J (fail (A := A) e) Q stopped.
Proof. apply hoare_fail. intros c Hc. by eapply tracked_stop. Qed.

Lemma t_ret {A} (a : A) : hoare J (mret a) (fun _ => J) stopped.
Proof. by apply hoare_ret. Qed.

Lemma t_set_locals (l : locals) : hoare J (set_locals l) (fun _ => J) stopped.
Proof. by apply hoare_set_locals. Qed.

Lemma t_onProgress (cs : counters) (p t : Z) (m : jstr) : hoare J (onProgress cs p t m) (fun _ => J) stopped.
Proof. apply hoare_log. intros c (H1 & H2 & H3). split_and!; [done | | done]. apply Forall_app. by repeat constructor. Qed.

Lemma t_signal : hoare J checkRestoreSignal (fun _ => J) stopped.
Proof. apply signal_rule. intros c Hc. by eapply tracked_stop. Qed.

Lemma t_alloc (b : bytes) : hoare J (on_heap (alloc b)) (fun p => tracked lim ((p, b) :: keep)) stopped.
Proof.
  apply hoare_on_heap; [|by intros c e h (_ & ? & _) _]. intros c p h (H1 & H2 & H3). rewrite alloc_heap. intros [= <- <-].
  split_and!; [done | done|]. apply (keeps_fresh _ [_] keep (cl_heap c) _ eq_refl); [done | by exists [b] | | repeat constructor].
  - split; [apply NoDup_singleton | repeat constructor].
  - cbn. by rewrite lookup_app_r, Nat.sub_diag by lia.
Qed.

Lemma t_read (p : nat) (b : bytes) : (p, b) ∈ keep -> hoare J (on_heap (read_buf p)) (fun d c => J c /\ d = b) stopped.
Proof.
  intros Hin. apply hoare_on_heap; [|by intros c e h (_ & ? & _) _]. intros c d h Hc [-> ->]%read_buf_prefix.
  destruct Hc as (H1 & H2 & H3). split; [by split_and!|]. destruct H3 as [_ H3]. rewrite Forall_forall in H3.
  specialize (H3 _ Hin). cbn in H3. by rewrite H3.
Qed.

Lemma t_ensure (front : list (nat * bytes)) {A} P (m : restoring A) (f : locals -> buffers unit) :
  hoare P m (fun _ => tracked lim front) stopped ->
  (forall lo h, keeps front h -> keeps keep (f lo h).2) ->
  hoare P (ensure m f) (fun _ => tracked lim keep) stopped.
Proof.
  intros Hm Hf. apply hoare_ensure. eapply hoare_weaken; [exact Hm | done | |].
  - intros a c (H1 & H2 & H3). split_and!; [done | done | by apply Hf].
  - by intros [] c Hc.
Qed.
End Tracked.

#[local] Hint Resolve t_on_heap t_check t_fail t_ret t_set_locals t_onProgress t_signal t_alloc
  grows_read grows_records : inert.

(** *** One version *)

Lemma fetchPack_rule n keep scope snapshotId treePackId :
  hoare (upto n keep) (fetchPack scope snapshotId treePackId) (fun p c => exists b, upto n ((p, b) :: keep) c) stopped.
Proof.
  unfold fetchPack. hbind (by apply ask_upto) as ok. destruct ok; cbn [negb].
  - hbind (by apply ask_upto) as b. eapply hoare_weaken; [apply t_alloc | done | intros p c Hc; by exists b | done].
  - apply hoare_check; [done | intros e c Hc; by eapply tracked_stop].
Qed.

Lemma fetchRecord_rule n keep kind name :
  hoare (upto n keep) (fetchRecord kind name) (fun r c => exists data, upto n ((r.2, data) :: keep) c) stopped.
Proof.
  unfold fetchRecord. destruct (encode_uri_component name); [|by apply t_fail].
  hbind (by apply ask_upto) as body. hbind (auto with inert) as got. hbind (auto with inert) as d.
  hbind (auto with inert) as b. hbind (apply t_alloc) as p. apply hoare_ret. intros c Hc. by exists b.
Qed.

Lemma fill0_keeps p b keep (lo : locals) (h : heap) : keeps ((p, b) :: keep) h -> keeps keep (fill0 p h).2.
Proof. apply (keeps_fill [(p, b)]). Qed.

Lemma send_snapshot_rule n keep found secret dedupKey p data (s : private_snapshot) cs :
  (p, data) ∈ keep -> (fs_dedupKey found, dedupKey) ∈ keep ->
  phrase_opens entropy copies (fs_scope found) secret dedupKey -> snapshot_opens secret (fs_scope found) data s ->
  hoare (upto n keep) (send_snapshot lunaId found secret p s cs) (fun _ => upto n keep) stopped.
Proof.
  intros Hp Hd Hopen Hsnap. unfold send_snapshot. hbind (apply fetchPack_rule) as q. apply hoare_ex. intros file.
  apply (t_ensure _ _ ((q, file) :: keep)); [|intros lo h; by apply fill0_keeps].
  hbind (apply (t_read _ _ q file); by left) as fb. apply hoare_pure. intros ->.
  hbind (apply (t_grown _ _ _ (tree_opens secret (fs_scope found) (ps_snap s)))) as tree.
  { apply grows_zeros, raw_tree_zeros. }
  { intros h t h' (H1 & sealed & plain & H2 & H3 & H4 & H5)%raw_tree_ok. by exists file, sealed, plain. }
  apply hoare_pure. intros Htree.
  hbind (apply (t_read _ _ _ dedupKey); by right) as dk. apply hoare_pure. intros ->.
  hbind (apply (t_read _ _ p data); by right) as d. apply hoare_pure. intros ->.
  eapply hoare_bind with (R := fun _ => upto n ((q, file) :: keep)).
  - eapply hoare_weaken; [apply post_rule | done | intros a c; apply below_upto | done].
    split; [done|]. by exists (fs_scope found), secret, dedupKey, data, s, tree.
  - intros reply. hbind (auto with inert) as ins. hbind (auto with inert) as rest. auto with inert.
Qed.

(** A found scope whose keys are the phrase's, with the arrays that hold them. *)
Definition good (x : found_scope * opened_scope) : Prop :=
  fs_scope x.1 = os_scope x.2 /\ phrase_opens entropy copies (os_scope x.2) (os_sealSecret x.2) (os_dedupKey x.2).
Definition holding_keys (x : found_scope * opened_scope) : list (nat * bytes) :=
  [(fs_sealSecret x.1, os_sealSecret x.2); (fs_dedupKey x.1, os_dedupKey x.2)].

Lemma restore_name_rule n keep x number total name processed cs :
  good x -> holding_keys x ⊆ keep ->
  hoare (upto n keep) (restore_name lunaId signingPublics x.1 number total name processed cs)
    (fun _ => upto n keep) stopped.
Proof.
  destruct x as [found o]. intros [Hsc Hopen] Hin. cbn [fst snd] in *. unfold restore_name.
  hbind (auto with inert) as u. hbind (apply fetchRecord_rule) as record.
  destruct record as [got p]. cbn [snd fst]. apply hoare_ex. intros data.
  apply (t_ensure _ _ ((p, data) :: keep)); [|intros lo h; by apply fill0_keeps].
  hbind (apply (t_read _ _ p data); by left) as d. apply hoare_pure. intros ->.
  hbind (apply (t_read _ _ _ (os_sealSecret o)); right; apply Hin; by left) as secret. apply hoare_pure. intros ->.
  hbind (apply (t_grown _ _ _ (Forall (snapshot_opens (os_sealSecret o) (fs_scope found) data)))) as snaps.
  { intros h a h' (bufs & -> & _)%readPrivateSnapshots_one. by exists bufs. }
  { by intros h a h' (bufs & -> & _ & Hs)%readPrivateSnapshots_one. }
  apply hoare_pure. intros Hs. destruct snaps as [|s snaps]; cbv zeta.
  - hbind (auto with inert) as v. auto with inert.
  - apply Forall_cons in Hs as [Hs _]. eapply hoare_bind.
    + apply (send_snapshot_rule _ _ _ _ (os_dedupKey o) p data); [by left | | by rewrite Hsc | done].
      right. apply Hin. right. by left.
    + intros cs'. hbind (auto with inert) as v. auto with inert.
Qed.

Lemma restore_each_rule n keep x number total names : good x -> holding_keys x ⊆ keep -> forall processed cs,
  hoare (upto n keep) (restore_each lunaId signingPublics x.1 number total names processed cs)
    (fun _ => upto n keep) stopped.
Proof.
  intros Hg Hk. induction names as [|name names IH]; intros processed cs; cbn [restore_each]; [auto with inert|].
  hbind (by apply restore_name_rule) as cs'. apply IH.
Qed.

Lemma restore_names_rule (fuel : nat) keep x : good x -> holding_keys x ⊆ keep ->
  forall n number after processed et ev cs, (n < fuel)%nat ->
  hoare (upto n keep) (restore_names fuel lunaId signingPublics x.1 number after processed et ev cs)
    (fun _ => upto n keep) stopped.
Proof.
  intros Hg Hk. induction fuel as [|fuel IH]; intros n number after processed et ev cs Hn; [lia|]. cbn [restore_names].
  hbind (auto with inert) as u. hbind (by apply ask_rule) as page. hbind (auto with inert) as v.
  destruct n as [|n]; [by intros c [? _]; lia|].
  eapply hoare_pre with (P := upto n keep); [|intros c [? ?]; split; [lia | done]].
  eapply hoare_weaken with (Q := fun _ => upto n keep); [|done | intros a c [? ?]; split; [lia | done] | done].
  eapply hoare_bind with (R := fun _ => upto n keep); [case_match; auto with inert|]. intros w.
  hbind (by apply restore_each_rule) as r. destruct r as [processed' cs']. cbv zeta.
  destruct (nullish _).
  - hbind (by apply ask_upto) as vp.
    hbind (auto with inert) as x'. destruct (negb _); auto with inert.
  - apply IH. lia.
Qed.

Lemma restore_scopes_rule (fuel n : nat) keep l : Forall good l -> forall number cs, (n < fuel)%nat ->
  hoare (upto n (flat_map holding_keys l ++ keep)) (restore_scopes fuel lunaId signingPublics (map fst l) number cs)
    (fun _ => upto n keep) stopped.
Proof.
  induction 1 as [|x l Hg _ IH]; intros number cs Hn; cbn [restore_scopes map flat_map]; [auto with inert|].
  hbind (auto with inert) as u. eapply hoare_bind with (R := fun _ => upto n (flat_map holding_keys l ++ keep)).
  - rewrite <- app_assoc. apply (t_ensure _ _ (holding_keys x ++ flat_map holding_keys l ++ keep)).
    + apply restore_names_rule; [done | set_solver | done].
    + intros lo h. apply (keeps_fill (holding_keys x)).
  - intros cs'. by apply IH.
Qed.

(** *** A page of scopes *)

Lemma decode_records_rule lim (l : list json) : forall keep,
  hoare (tracked lim keep) (decode_records l)
    (fun rs c => exists front, map fst front = map snd rs /\ tracked lim (front ++ keep) c) stopped.
Proof.
  induction l as [|r l IH]; intros keep; cbn [decode_records].
  { apply hoare_ret. intros c Hc. by exists []. }
  hbind (auto with inert) as name. hbind (auto with inert) as d. hbind (auto with inert) as b.
  hbind (apply t_alloc) as p. hbind (apply IH) as rest. apply hoare_ret. intros c (front & Hf & H1 & H2 & H3).
  exists ((p, b) :: front). split; [cbn; by rewrite Hf|]. split_and!; [done | done|].
  eapply keeps_perm; [|exact H3]. symmetry. apply Permutation_middle.
Qed.

Lemma fetchScopePage_rule (n : nat) keep after version total processed :
  hoare (upto n keep) (fetchScopePage after version total processed)
    (fun page c => exists front, map fst front = map snd (sp_records page) /\ below n (front ++ keep) c) stopped.
Proof.
  unfold fetchScopePage. hbind (by apply ask_rule) as page. hbind (auto with inert) as rs.
  eapply hoare_bind with (R := fun rs c => exists front, map fst front = map snd rs /\ below n (front ++ keep) c);
    [|by intros rs'; apply hoare_ret].
  destruct rs as [[]|]; try (by apply t_fail); [ | apply decode_records_rule | ];
    apply hoare_ret; intros c Hc; by exists [].
Qed.

Lemma signed_by_any b pubs rec : verify_with_any b pubs lunaId = Some rec -> pubs ⊆ signingPublics ->
  sr_lunaId rec = lunaId /\ exists pub sig, pub ∈ signingPublics /\ verify pub SCOPE_RECORD_DOMAIN (scopeSignedBytes rec) sig = true.
Proof.
  induction pubs as [|pub pubs IH]; cbn [verify_with_any]; [done|]. intros Hv Hs.
  destruct (verifyScopeRecord b [pub] lunaId) as [r|] eqn:E; [|apply IH; set_solver]. injection Hv as ->.
  apply verifyScopeRecord_some in E as (H1 & _ & _ & _ & _ & q & sig & Hq & Hsig). split; [done|].
  exists q, sig. split; [set_solver | done].
Qed.

(** The keys [scope_keys] opens are the phrase's, however the sealed secret came. *)
Lemma scope_keys_opens k rec sealed o :
  derive entropy lunaId = Ok k -> scope_keys sealed (uk_sealSecret k) lunaId rec = Some o ->
  sr_lunaId rec = lunaId /\ (exists pub sig, pub ∈ signingPublics /\ verify pub SCOPE_RECORD_DOMAIN (scopeSignedBytes rec) sig = true) ->
  (sealed = sr_sealedScopeSecret rec /\ sr_sealPublic rec = uk_sealPublic k
   \/ exists copy, copy ∈ copies /\ as_string (opt_prop "scope" copy) = Some (sr_scope rec)
        /\ fromBase64 (opt_prop "sealed_scope_secret" copy) = Ok sealed) ->
  os_scope o = sr_scope rec /\ phrase_opens entropy copies (os_scope o) (os_sealSecret o) (os_dedupKey o).
Proof.
  intros Hk Ho [Hl Hs] Hfrom. unfold scope_keys, key_of in Ho.
  destruct (open (uk_sealSecret k) _ sealed) as [secret|] eqn:E1; cbn in Ho; [|done].
  destruct (Z.eqb_spec (len secret) SEAL_SECRET_LEN); cbn in Ho; [|done].
  destruct (open secret _ _) as [dk|] eqn:E2; cbn in Ho; [|done].
  destruct (Z.eqb_spec (len dk) KEY_LEN); cbn in Ho; [|done].
  destruct (bool_decide_reflect (scopeOf dk = sr_scope rec)); [|done]. injection Ho as <-. cbn. split; [done|].
  exists k, rec, sealed. by split_and!.
Qed.

Definition found_tracked lim keep (fs : list found_scope) (c : client locals) : Prop :=
  exists l, (fs = map fst l /\ Forall good l) /\ tracked lim (flat_map holding_keys l ++ keep) c.

Lemma findMy_rule lim keep pscopes :
  hoare (tracked lim keep) (on_heap (findMyPrivateScopes lunaId entropy pscopes signingPublics))
    (found_tracked lim keep) stopped.
Proof.
  apply hoare_on_heap; [|by intros c e h (_ & ? & _) _]. intros c fs h (H1 & H2 & H3) Hr.
  destruct (derive entropy lunaId) as [k|e] eqn:Hk.
  2:{ unfold findMyPrivateScopes in Hr. pose proof (derive_secrets_run entropy lunaId (cl_heap c)) as Hd. cbv zeta in Hd.
      rewrite Hk in Hd. by erewrite bind_failed in Hr by exact Hd. }
  destruct (findMyPrivateScopes_run lunaId entropy pscopes signingPublics (cl_heap c) k Hk) as (fs' & bufs & E & Hf & _ & Ha).
  rewrite E in Hr. injection Hr as <- <-. set (os := js_sort _ _) in Hf.
  assert (Hos : Forall (fun o => phrase_opens entropy copies (os_scope o) (os_sealSecret o) (os_dedupKey o)) os).
  { apply Forall_forall. intros o Ho. unfold os in Ho. rewrite js_sort_perm in Ho.
    apply list_elem_of_omap in Ho as (r & _ & Hr). unfold record_scope in Hr.
    destruct (verify_with_any (ft_data r) signingPublics lunaId) as [rec|] eqn:Hv; [|done]. cbn in Hr.
    destruct (bool_decide _); [|done]. cbn in Hr. destruct (sameBytes _ _) eqn:Hsame; [|done].
    eapply scope_keys_opens in Hr as [_ Hr]; [exact Hr | done | by eapply signed_by_any | left].
    split; [done|]. unfold sameBytes in Hsame. by apply bool_decide_eq_true in Hsame. }
  clearbody os. exists (zip fs' os). pose proof (Forall2_length _ _ _ Hf) as Hlen.
  split; [split; [by rewrite fst_zip by lia|] | split_and!; [done | done|]].
  - clear -Hf Hos. induction Hf as [|f o fs os (Hsc & _) _ IH]; [constructor|]. apply Forall_cons in Hos as [Ho Hos].
    constructor; [by split | by apply IH].
  - assert (Hp : map fst (flat_map holding_keys (zip fs' os)) = flat_map scope_arrays fs').
    { clear -Hlen. revert os Hlen. induction fs' as [|f fs IH]; intros [|o os] Hlen; try done. cbn in *. by rewrite IH by lia. }
    eapply keeps_fresh; [done | done | by exists bufs | by rewrite Hp|].
    cbn. clear -Hf. induction Hf as [|f o fs os (_ & _ & _ & i & j & Hi & Hbi & Hj & Hbj) _ IH]; [constructor|].
    cbn. rewrite Hi, Hj. repeat constructor; [..|done]; cbn; rewrite lookup_app_r, Nat.add_comm, Nat.add_sub by lia; done.
Qed.

Lemma prop_of_opt (key : string) (v x : value) : prop_of key v = Ok x -> opt_prop key v = x.
Proof. destruct v as [[]|]; cbn; congruence. Qed.

Lemma open_scope_keys_rule lim keep sealed secret rec :
  hoare (tracked lim keep) (on_heap (open_scope_keys sealed secret lunaId rec))
    (fun f c => match f with
                | Some f => exists o, scope_keys sealed secret lunaId rec = Some o /\ fs_scope f = os_scope o
                    /\ tracked lim (holding_keys (f, o) ++ keep) c
                | None => tracked lim keep c
                end) stopped.
Proof.
  apply hoare_on_heap; [|by intros c e h (_ & ? & _) _]. intros c f h (H1 & H2 & H3) Hr.
  pose proof (open_scope_keys_run sealed secret lunaId rec (cl_heap c)) as Hrun. cbv zeta in Hrun.
  destruct (scope_keys sealed secret lunaId rec) as [o|].
  - rewrite Hrun in Hr. injection Hr as <- <-. exists o. split; [done|]. split; [done|]. split_and!; [done | done |].
    eapply keeps_fresh; [done | done | by eexists | |].
    + apply apart_two, apart_nil.
    + cbn. repeat constructor; cbn; rewrite lookup_app_r by lia; [by rewrite Nat.sub_diag | by rewrite Nat.add_comm, Nat.add_sub].
  - destruct Hrun as (bufs & Hrun & Hz). rewrite Hrun in Hr. injection Hr as <- <-.
    split_and!; [done | done|]. eapply keeps_prefix; [done | by exists bufs].
Qed.

Lemma found_more lim keep l x (c : client locals) :
  Forall good l -> good x -> tracked lim (holding_keys x ++ flat_map holding_keys l ++ keep) c ->
  tracked lim (flat_map holding_keys (l ++ [x]) ++ keep) c /\ Forall good (l ++ [x]).
Proof.
  intros Hl Hx (H1 & H2 & H3). split; [|apply Forall_app; split; [done|]; by apply Forall_singleton]. split_and!; [done | done|].
  eapply keeps_perm; [|exact H3]. rewrite flat_map_app. cbn [flat_map]. rewrite app_nil_r.
  by rewrite !(app_assoc _ _ keep), (Permutation_app_comm (holding_keys x)).
Qed.

Lemma open_kept_rule lim keep k pscopes skip l copy :
  derive entropy lunaId = Ok k -> copy ∈ copies -> Forall good l ->
  hoare (tracked lim (flat_map holding_keys l ++ keep)) (open_kept k lunaId pscopes signingPublics skip copy)
    (fun f => found_tracked lim keep (match f with Some f => map fst l ++ [f] | None => map fst l end)) stopped.
Proof.
  intros Hk Hc Hl.
  assert (Hnone : hoare (tracked lim (flat_map holding_keys l ++ keep)) (mret None)
    (fun f => found_tracked lim keep (match f with Some f => map fst l ++ [f] | None => map fst l end)) stopped).
  { apply hoare_ret. intros c Ht. by exists l. }
  unfold open_kept. hbind (auto with inert) as u. hbind (apply t_checked) as sc. apply hoare_pure. intros Hsc%prop_of_opt.
  destruct (as_string sc) as [scope|] eqn:Hs; [|done]. destruct (bool_decide _); [done|].
  destruct (List.find _ pscopes) as [record|]; [|done].
  destruct (verifyScopeRecord _ _ _) as [rec|] eqn:Hv; [|done].
  destruct (bool_decide_reflect (sr_scope rec = scope)) as [<-|]; cbn [negb]; [|done].
  destruct (fromBase64 _) as [sealed|] eqn:Hb; [|done].
  eapply hoare_weaken; [apply open_scope_keys_rule | done | | done].
  intros [f|] c; [|intros Ht; by exists l]. intros (o & Ho & Hf & Ht).
  assert (Hg : good (f, o)).
  { eapply scope_keys_opens in Ho as [H1 H2]; [split; [exact Hf | exact H2] | done | |].
    - apply verifyScopeRecord_some in Hv as (H1 & _ & _ & _ & _ & H2). done.
    - right. exists copy. split_and!; [done | by rewrite Hsc | done]. }
  destruct (found_more lim keep l (f, o) c Hl Hg Ht) as [H1 H2]. exists (l ++ [(f, o)]).
  split; [split; [by rewrite map_app | done] | done].
Qed.

Lemma open_kept_all_rule lim keep k pscopes skip (kept : list value) :
  derive entropy lunaId = Ok k -> kept ⊆ copies -> forall l, Forall good l ->
  hoare (tracked lim (flat_map holding_keys l ++ keep))
    (open_kept_all k lunaId pscopes signingPublics skip kept (map fst l)) (found_tracked lim keep) stopped.
Proof.
  intros Hk. induction kept as [|copy kept IH]; intros Hin l Hl; cbn [open_kept_all].
  { apply hoare_ret. intros c Hc. by exists l. }
  hbind (apply open_kept_rule; [done | set_solver | done]) as f.
  apply hoare_given. intros l' [E Hl']. rewrite E. apply IH; [set_solver | done].
Qed.

Lemma openKeptScopes_rule lim keep pscopes skip kept :
  (forall l, iterate kept = Ok l -> l ⊆ copies) ->
  hoare (tracked lim keep) (openKeptScopes lunaId entropy pscopes signingPublics skip kept)
    (found_tracked lim keep) stopped.
Proof.
  intros Hkept. unfold openKeptScopes.
  eapply hoare_bind with (R := fun ks c => exists front, (map fst front = ks.2 /\ derive entropy lunaId = Ok ks.1)
    /\ tracked lim (front ++ keep) c).
  { apply hoare_on_heap; [|by intros c e h (_ & ? & _) _]. intros c ks h (H1 & H2 & H3) Hr.
    pose proof (derive_secrets_run entropy lunaId (cl_heap c)) as Hd. cbv zeta in Hd. rewrite Hd in Hr.
    destruct (derive entropy lunaId) as [k|]; [|done]. injection Hr as <- <-. set (m := length (h_bufs (cl_heap c))).
    exists [(m, uk_sealSecret k); (m + 1, uk_selfKey k); (m + 2, uk_authSecret k)]%nat.
    split; [done|]. split_and!; [done | done|]. eapply keeps_fresh; [done | done | by eexists | |].
    - apply apart_two. split; [apply NoDup_singleton | repeat constructor].
    - cbn. repeat constructor; cbn; rewrite lookup_app_r by lia; fold m;
        [by rewrite Nat.sub_diag | by rewrite Nat.add_comm, Nat.add_sub..]. }
  intros [k secrets]. cbn [fst snd]. apply hoare_given. intros front [<- Hk].
  apply hoare_ensure. eapply hoare_weaken with (Q := found_tracked lim (front ++ keep)) (E := stopped); [|done| |by intros [] c].
  - hbind (apply t_checked) as l. apply hoare_pure. intros Hl%Hkept. by apply (open_kept_all_rule lim (front ++ keep) k pscopes skip l Hk Hl []).
  - intros fs c (l & [-> Hl] & H1 & H2 & H3). exists l. split; [done|]. split_and!; [done | done |].
    apply (keeps_fill front). eapply keeps_perm; [|exact H3].
    by rewrite !app_assoc, (Permutation_app_comm (flat_map _ _)).
Qed.

Lemma open_page_scopes_rule lim keep e kept records :
  (e, entropy) ∈ keep -> (forall l, iterate kept = Ok l -> l ⊆ copies) ->
  hoare (tracked lim keep) (open_page_scopes lunaId e signingPublics kept records) (found_tracked lim keep) stopped.
Proof.
  intros He Hkept. unfold open_page_scopes. hbind (by apply (t_read _ _ e entropy)) as b. apply hoare_pure. intros ->.
  hbind (auto with inert) as pscopes. hbind (apply findMy_rule) as mine.
  apply hoare_given. intros l1 [-> Hl1].
  hbind (auto with inert) as u. hbind (by apply openKeptScopes_rule) as more. 
  apply hoare_given. intros l2 [-> Hl2]. hbind (auto with inert) as v. apply hoare_ret. intros c (H1 & H2 & H3). exists (l1 ++ l2).
  split; [split; [by rewrite map_app | by apply Forall_app]|]. split_and!.
  - done.
  - done.
  - eapply keeps_perm; [|exact H3]. rewrite flat_map_app, !app_assoc. by rewrite (Permutation_app_comm (flat_map _ l2)).
Qed.

Lemma clear_all_keeps (lo : locals) front keep (h : heap) :
  map fst front = map snd (lo_scopeRecords lo) ->
  (forall i, i ∈ flat_map scope_arrays (lo_scopes lo) -> i ∉ map fst keep) ->
  keeps (front ++ keep) h -> keeps keep (clear_all lo h).2.
Proof.
  intros Hf Hs Hk. unfold clear_all. rewrite <- Hf.
  pose proof (fill_all_run (map fst front) h) as Hr. pose proof (keeps_fill front keep h Hk) as Hk1.
  destruct (fill_all (map fst front) h) as [r h1] eqn:E. cbn in Hr, Hk1. subst r.
  erewrite bind_ran by exact E. by apply keeps_fill_other.
Qed.

Lemma arrays_of_found (l : list (found_scope * opened_scope)) :
  map fst (flat_map holding_keys l) = flat_map scope_arrays (map fst l).
Proof. induction l as [|x l IH]; [done|]. cbn. by rewrite IH. Qed.

Lemma restore_pages_rule (fuel : nat) e kept : (forall l, iterate kept = Ok l -> l ⊆ copies) ->
  forall n after ev et processed discovered cs, (n < fuel)%nat ->
  hoare (upto n [(e, entropy)]) (restore_pages fuel lunaId e signingPublics kept after ev et processed discovered cs)
    (fun _ => upto n [(e, entropy)]) stopped.
Proof.
  intros Hkept. induction fuel as [|fuel IH]; intros n after ev et processed discovered cs Hn; [lia|].
  cbn [restore_pages]. hbind (auto with inert) as u. hbind (apply fetchScopePage_rule) as page.
  apply hoare_given. intros front Hf. destruct n as [|n]; [by intros c [? _]; lia|].
  eapply hoare_pre with (P := upto n (front ++ [(e, entropy)])); [|intros c [? ?]; split; [lia | done]].
  eapply hoare_weaken with (Q := fun _ => upto n [(e, entropy)]); [|done | intros a c [? ?]; split; [lia | done] | done].
  hbind (auto with inert) as v. hbind (auto with inert) as w.
  hbind (apply open_page_scopes_rule; [set_solver | done]) as scopes.
  apply hoare_given. intros l [-> Hl].
  apply (hoare_known (forall i, i ∈ flat_map scope_arrays (map fst l) -> i ∉ map fst [(e, entropy)])).
  { intros c (_ & _ & Hnd & _). rewrite map_app, arrays_of_found in Hnd.
      apply NoDup_app in Hnd as (_ & Hnd & _). intros i Hi. specialize (Hnd i Hi). rewrite map_app in Hnd. set_solver. }
  intros Hdis.
  hbind (by apply restore_scopes_rule; [|lia]) as cs'.
  eapply hoare_bind with (R := fun _ => upto n [(e, entropy)]).
  { apply hoare_on_heap; [|by intros c x h (_ & ? & _) _]. intros c a h (H1 & H2 & H3) Hr. split_and!; [done | done|].
    assert (h = (clear_all {| lo_scopes := map fst l; lo_scopeRecords := sp_records page |} (cl_heap c)).2) as -> by (by rewrite Hr).
    by eapply clear_all_keeps. }
  intros x. hbind (auto with inert) as y. cbv zeta. destruct (nullish _); [auto with inert|].
  hbind (auto with inert) as z. apply IH. lia.
Qed.
End Sends.

(** The signing key a restore checks against, if its text decodes; its phrase's bytes; the kept copies, the first reply's. *)
Definition restore_keys `{JsText} (signingPublic : jstr) : list bytes :=
  match fromBase64 (Some (JStr signingPublic)) with Ok pub => [pub] | Err _ => [] end.
Definition phrase_bytes `{Noble} (words : jstr) : bytes := default [] (to_option (phraseToEntropy words)).
Definition kept_copies (rs : list reply) : list value :=
  match rs with
  | rp :: _ =>
      match rp_json rp with
      | Ok page => match iterate (opt_prop "kept" (Some page)) with Ok l => l | Err _ => [] end
      | Err _ => []
      end
  | [] => []
  end.

#[local] Hint Resolve t_on_heap t_check t_fail t_ret t_set_locals t_onProgress t_signal t_alloc : inert.

Lemma restore_rule `{NB : NobleBytes} `{JT : JsText} (fuel : nat) (rs : list reply) (words lunaId signingPublic : jstr) :
  (length rs < fuel)%nat ->
  let track := tracked lunaId (restore_keys signingPublic) (phrase_bytes words) (kept_copies rs) in
  hoare (track (fun l => l = rs) []) (restorePrivateFromPhrase fuel words lunaId signingPublic)
    (fun _ => track (fun l => length l <= length rs)%nat [])
    (stopped lunaId (restore_keys signingPublic) (phrase_bytes words) (kept_copies rs)).
Proof.
  intros Hn track. unfold restorePrivateFromPhrase. hbind (apply t_signal) as u. hbind (apply t_checked) as b.
  apply hoare_pure. intros Hb. assert (E : phrase_bytes words = b) by (unfold phrase_bytes; by rewrite Hb).
  hbind (apply t_alloc) as p. hbind (apply t_set_locals) as v.
  apply (t_ensure _ _ _ _ _ _ [(p, b)]).
  2:{ intros lo h Hk. rewrite (bind_ran _ _ _ _ _ (eq_refl : fill0 p h = (Ok tt, _))). by split; constructor. }
  unfold restore_keys in *. destruct (fromBase64 (Some (JStr signingPublic))) as [pub|e]; [|by apply hoare_check; [|intros e' c Hc; eapply tracked_stop]].
  eapply hoare_bind with (R := fun q c => tracked lunaId [pub] (phrase_bytes words) (kept_copies rs) (fun l => l = rs) [(p, b)] c /\ q = pub).
  { apply hoare_check; [by intros a c [= <-]|]. intros e c Hc. by eapply tracked_stop. }
  intros q. apply hoare_pure. intros ->.
  eapply hoare_bind.
  { apply (reply_rule _ (fun rp c => head rs = Some rp /\
      tracked lunaId [pub] (phrase_bytes words) (kept_copies rs) (fun l => length l <= length rs)%nat [(p, b)] c)).
    - intros c Hc. by eapply tracked_stop.
    - intros c (_ & ? & _) _. split; [done | by apply sound_sent].
    - intros c rp rest (-> & Hg & Hk) ->. split; [done|]. split_and!; [cbn; lia | by apply sound_sent | done].
    - intros e rp c [_ Hc]. by eapply tracked_stop. }
  intros kr. cbn beta. apply hoare_ex. intros rp. eapply hoare_pre with (P := fun c => tracked lunaId [pub] (phrase_bytes words) (kept_copies rs) (fun l => length l <= length rs)%nat [(p, b)] c
    /\ (rp_json rp = Ok kr /\ head rs = Some rp)); [|tauto]. apply hoare_pure. intros [Hj Hh].
  hbind (apply t_checked) as k. apply hoare_pure. intros Hkept%prop_of_opt. cbv zeta.
  eapply hoare_bind with (R := fun _ => tracked lunaId [pub] (phrase_bytes words) (kept_copies rs) (fun l => length l <= length rs)%nat [(p, b)]).
  - rewrite <- E. apply restore_pages_rule; [|done]. intros l Hl. destruct rs as [|rp' rs']; [done|]. cbn in Hh. assert (rp' = rp) as -> by congruence.
    unfold kept_copies. rewrite Hj, Hkept. destruct k as [k|]; cbn in Hl |- *; [|by injection Hl as <-].
    destruct k; cbn in Hl |- *; try discriminate Hl; injection Hl as <-; done.
  - intros [discovered cs]. destruct (discovered =? 0); [apply t_check | apply t_ret].
Qed.

Lemma tracked_start `{NB : NobleBytes} `{JT : JsText} lunaId pubs entropy copies (c : client locals) :
  cl_log c = [] -> tracked lunaId pubs entropy copies (fun l => l = cl_replies c) [] c.
Proof. intros Hl. split_and!; [done | by rewrite Hl | by split; constructor]. Qed.

Lemma not_a_phrase `{NB : NobleBytes} `{JT : JsText} (fuel : nat) (words lunaId signingPublic : jstr) (c : client locals) :
  cl_log c = [] -> (exists e, phraseToEntropy words = Err e) ->
  cl_log (restorePrivateFromPhrase fuel words lunaId signingPublic c).2 = [].
Proof.
  intros Hl [e He]. pose (P := fun c : client locals => cl_log c = []).
  assert (Hrun : hoare P (restorePrivateFromPhrase fuel words lunaId signingPublic) (fun _ => P) (fun _ => P)).
  { unfold restorePrivateFromPhrase. hbind (by apply signal_rule) as u. rewrite He.
    eapply hoare_bind with (R := fun _ _ => False); [by apply hoare_check | by intros a c']. }
  specialize (Hrun c Hl). by destruct (ends _).
Qed.

(** ** Lists of names *)

Lemma js_ltb_trans (a b c : jstr) : js_ltb a b = true -> js_ltb b c = true -> js_ltb a c = true.
Proof.
  revert b c. induction a as [|x a IH]; intros [|y b] [|z c]; cbn; try done.
  destruct (N.eqb_spec x y), (N.eqb_spec y z), (N.eqb_spec x z); subst; intros H1 H2; try done;
    rewrite ?N.ltb_lt in *; [by eapply IH | lia..].
Qed.

(** Strictly increasing after [previous]. *)
Fixpoint increasing (previous : jstr) (names : list jstr) : Prop :=
  match names with
  | [] => True
  | n :: names => js_ltb previous n = true /\ increasing n names
  end.

Lemma increasing_app (previous : jstr) (a b : list jstr) :
  increasing previous a -> increasing (default previous (last a)) b -> increasing previous (a ++ b).
Proof.
  revert previous. induction a as [|x a IH]; intros previous; [done|]. cbn [increasing app].
  intros [Hx Ha] Hb. split; [done|]. apply IH; [done|]. destruct a as [|y a]; [done|].
  rewrite last_cons_cons in Hb. destruct (last (y :: a)) eqn:E; [done|]. by apply last_None in E.
Qed.

Lemma increasing_above (previous : jstr) (names : list jstr) :
  increasing previous names -> Forall (fun n => js_ltb previous n = true) names.
Proof.
  revert previous. induction names as [|n names IH]; intros previous; cbn; [constructor|].
  intros [Hn Hr]. constructor; [done|]. eapply Forall_impl; [by apply IH|].
  intros m. by apply js_ltb_trans.
Qed.

Lemma increasing_sorted (previous : jstr) (names : list jstr) :
  increasing previous names -> StronglySorted (fun a b => js_ltb a b = true) names.
Proof.
  revert previous. induction names as [|n names IH]; intros previous; cbn; [constructor|].
  intros [_ Hr]. constructor; [by eapply IH | by apply increasing_above].
Qed.

(** What the validation of a page of names accepts. *)
Lemma increasing_names_ok (prefix : jstr) (names : list value) : forall previous,
  increasing_names prefix previous names = true ->
  let l := omap as_string names in
  length l = length names /\ increasing previous l /\ Forall (fun n => starts_with prefix n = true) l.
Proof.
  induction names as [|v names IH]; intros previous; cbn [increasing_names]; [done|].
  cbn [omap list_omap]. destruct (as_string v) as [name|]; [|done].
  intros [[Hp Hl]%andb_true_iff Hr]%andb_true_iff. unfold js_leb in Hl. rewrite negb_involutive in Hl.
  destruct (IH _ Hr) as (H1 & H2 & H3). cbn [length increasing].
  split_and!; [by rewrite <- H1 | done | done | by constructor].
Qed.

Lemma last_strings (l : list json) : length (omap as_string (map Some l)) = length l ->
  last (omap as_string (map Some l)) = (last l ≫= fun v => as_string (Some v)).
Proof.
  induction l as [|x l IH]; [done|]. cbn [map omap list_omap]. intros Hl.
  destruct (as_string (Some x)) as [s|] eqn:E.
  - cbn [length] in Hl. injection Hl as Hl. specialize (IH Hl). destruct l as [|y l]; [exact (eq_sym E)|].
    rewrite (last_cons_cons x y l), <- IH.
    destruct (omap as_string (map Some (y :: l))) eqn:Eo; [done | by rewrite last_cons_cons].
  - exfalso. cbn [length] in Hl. pose proof (length_omap_le as_string (map Some l)) as Hle.
    rewrite length_map in Hle. lia.
Qed.

Lemma names_page_ok (page : json) scope after processed et ev :
  validateRecordNamesPage page scope after processed et ev = Ok tt ->
  let names := omap as_string (page_names page) in
  let total := counted (opt_prop "total" (Some page)) in
  let next := opt_prop "next_after" (Some page) in
  increasing (default (scope ++ js ".") after) names
  /\ Forall (fun n => starts_with (scope ++ js ".") n = true) names
  /\ length names = length (page_names page)
  /\ (forall t, et = Some t -> total = t)
  /\ (if nullish next then processed + Z.of_nat (length names) = total
      else as_string next = last names /\ last names <> None).
Proof.
  unfold validateRecordNamesPage. intros (v & Hv & Hp)%bind_ok. cbv zeta in *.
  unfold page_names. assert (Ho : opt_prop "names" (Some page) = v).
  { destruct page; cbn in *; congruence. }
  rewrite Ho. destruct v as [[| | | |l|]|]; try done.
  match type of Hp with (if ?b then _ else _) = _ => destruct b eqn:Hbad; [done|] end.
  destruct (increasing_names _ _ _) eqn:Hinc; [|done]. cbn [negb] in Hp.
  match type of Hp with (if ?b then _ else _) = _ => destruct b eqn:Hend; [done|] end.
  apply increasing_names_ok in Hinc as (Hlen & Hi & Hf). cbv zeta in Hlen. rewrite length_map in Hlen.
  apply orb_false_iff in Hend as [Hlast Hmore]. split_and!; [done | done | by rewrite Hlen, length_map | |].
  - intros t ->. repeat (apply orb_false_iff in Hbad as [Hbad ?]). cbn [differs] in *.
    match goal with E : negb (counted _ =? t) = false |- _ => by apply negb_false_iff, Z.eqb_eq in E end.
  - rewrite Hlen. destruct (nullish _); cbn [negb andb] in *.
    + by apply negb_false_iff, Z.eqb_eq in Hlast.
    + apply orb_false_iff in Hmore as [[Hn Hs]%orb_false_iff _]. apply negb_false_iff, Z.eqb_eq in Hn.
      apply negb_false_iff, bool_decide_eq_true in Hs. rewrite last_strings by done. split; [done|].
      rewrite <- last_strings by done. intros E%last_None. rewrite E in Hlen. cbn in Hlen. lia.
Qed.

(** ** One scope *)

Definition posts (l : list event) : list json :=
  omap (fun e => match e with Sent (PostJson _ body) => Some body | _ => None end) l.
Definition gets (l : list event) : list jstr :=
  omap (fun e => match e with Sent (GetJson path) => Some path | _ => None end) l.

(** The address of one snapshot record. *)
Definition record_path (name : jstr) : jstr :=
  PRIVATE_RESTORE_PATH ++ js "/records/" ++ PSNAPSHOTS_KIND ++ js "/" ++ default [] (encode_uri_component name).

(** Events in which each of [names] was fetched, in order, and sent or counted as skipped. *)
Definition handled (evs : list event) (names : list jstr) (cs cs' : counters) : Prop :=
  map record_path names `sublist_of` gets evs
  /\ Z.of_nat (length (posts evs)) + (ct_skipped cs' - ct_skipped cs) = Z.of_nat (length names).

Lemma handled_app evs evs' names names' cs cs1 cs2 :
  handled evs names cs cs1 -> handled evs' names' cs1 cs2 -> handled (evs ++ evs') (names ++ names') cs cs2.
Proof.
  intros [H1 H2] [H3 H4]. unfold handled, gets, posts in *. rewrite !omap_app, map_app, !length_app.
  split; [by apply sublist_app | lia].
Qed.

Lemma handled_quiet evs cs : posts evs = [] -> handled evs [] cs cs.
Proof. intros Hp. unfold handled. rewrite Hp. split; [apply sublist_nil_l | cbn; lia]. Qed.

Section Scope.
Context `{NB : NobleBytes} `{JT : JsText} (lunaId : jstr) (signingPublics : list bytes) (rs : list reply).

Definition anyend (e : ending) (c : client locals) : Prop := True.

(** The log is [l], and the replies left are the end of [rs]. *)
Definition at_log (l : list event) (c : client locals) : Prop := cl_log c = l /\ cl_replies c `suffix_of` rs.

(** A result with the events it logged. *)
Definition logs {A} (l : list event) (F : A -> list event -> Prop) (a : A) (c : client locals) : Prop :=
  exists evs, at_log (l ++ evs) c /\ F a evs.

Lemma log_on_heap l {A} (m : buffers A) : hoare (at_log l) (on_heap m) (fun _ => at_log l) anyend.
Proof. by apply hoare_on_heap. Qed.

Lemma log_check l {A} (r : thrown A) : hoare (at_log l) (check r) (fun a c => at_log l c /\ r = Ok a) anyend.
Proof. by apply hoare_check. Qed.

Lemma log_signal l : hoare (at_log l) checkRestoreSignal (fun _ => at_log l) anyend.
Proof. by apply signal_rule. Qed.

Lemma log_progress l cs p t m :
  hoare (at_log l) (onProgress cs p t m) (fun _ => at_log (l ++ [Progressed (no_progress cs p t m)])) anyend.
Proof. apply hoare_log. intros c [<- ?]. by split. Qed.

Lemma log_ask l {A} (r : request) (get : reply -> thrown A) :
  hoare (at_log l) (requestWithRestoreSignal (rp ← await r; check (get rp)))
    (fun a c => at_log (l ++ [Sent r]) c /\ exists rp, rp ∈ rs /\ get rp = Ok a) anyend.
Proof.
  hbind (apply log_signal) as u. eapply hoare_attempt with (R := fun _ _ => True).
  - eapply hoare_bind with (R := fun rp c => at_log (l ++ [Sent r]) c /\ rp ∈ rs).
    + apply hoare_await; [done|]. intros c rp rest [<- Hs] Hr. cbn. rewrite Hr in Hs. split; [split; [done|]|].
      * cbn. etrans; [|exact Hs]. by exists [rp].
      * destruct Hs as [k ->]. apply elem_of_app. right. by left.
    + intros rp. apply hoare_pure. intros Hin. apply hoare_check; [|done]. intros a c Ha Hc. split; [done | by exists rp].
  - intros e. hbind (by apply (hoare_aborted (fun _ => True) (fun _ _ => True))) as a. by apply hoare_fail.
Qed.

Lemma log_ensure l {A} (m : restoring A) (f : locals -> buffers unit) (F : A -> list event -> Prop) :
  hoare (at_log l) m (logs l F) anyend -> hoare (at_log l) (ensure m f) (logs l F) anyend.
Proof. intros Hm. apply hoare_ensure. eapply hoare_weaken; [exact Hm | done | done | by intros [] c]. Qed.

(** The rest of a computation that logged [evs] first. *)
Lemma logs_after l evs {A} (m : restoring A) (F G : A -> list event -> Prop) :
  hoare (at_log (l ++ evs)) m (logs (l ++ evs) F) anyend ->
  (forall a evs', F a evs' -> G a (evs ++ evs')) -> hoare (at_log (l ++ evs)) m (logs l G) anyend.
Proof.
  intros Hm HG. eapply hoare_weaken; [exact Hm | done | | done]. intros a c (evs' & Hl & HF).
  exists (evs ++ evs'). rewrite app_assoc. split; [done | by apply HG].
Qed.

Lemma logs_bind l {A B} (m : restoring A) (f : A -> restoring B) (F : A -> list event -> Prop) (G : B -> list event -> Prop) :
  hoare (at_log l) m (logs l F) anyend ->
  (forall a evs, F a evs -> hoare (at_log (l ++ evs)) (f a) (logs (l ++ evs) (fun b evs' => G b (evs ++ evs'))) anyend) ->
  hoare (at_log l) (m ≫= f) (logs l G) anyend.
Proof.
  intros Hm Hf. eapply hoare_bind; [exact Hm|]. intros a c (evs & Hl & HF). revert c Hl. eapply logs_after; [by apply Hf | done].
Qed.

Lemma logs_none l {A} (m : restoring A) (F : A -> list event -> Prop) :
  hoare (at_log l) m (fun a c => at_log l c /\ F a []) anyend -> hoare (at_log l) m (logs l F) anyend.
Proof.
  intros Hm. eapply hoare_weaken; [exact Hm | done | | done]. intros a c [Hc HF]. exists []. by rewrite app_nil_r.
Qed.

(** Requests of a pack, and of other kinds, log no record and no post. *)
Lemma send_snapshot_logs l found secret p s cs :
  hoare (at_log l) (send_snapshot lunaId found secret p s cs)
    (logs l (fun cs' evs => length (posts evs) = 1%nat /\ ct_skipped cs' = ct_skipped cs)) anyend.
Proof.
  unfold send_snapshot. eapply logs_bind with (F := fun _ evs => posts evs = []).
  - unfold fetchPack. hbind (apply log_ask) as ok. apply hoare_pure. intros _.
    destruct ok; cbn [negb]; [|by apply hoare_check].
    hbind (apply log_ask) as b. apply hoare_pure. intros _.
    eapply hoare_weaken; [apply log_on_heap | done | | done].
    intros a c Hc. rewrite <- app_assoc in Hc. eexists. split; [exact Hc | done].
  - intros pack evs Hp. apply log_ensure. do 4 hbind (apply log_on_heap) as ?.
    hbind (apply log_ask) as reply. apply hoare_pure. intros _.
    hbind (apply log_check) as inserted. apply hoare_pure. intros _.
    hbind (apply log_check) as restored. apply hoare_pure. intros _.
    apply hoare_ret. intros c Hc. eexists. split; [exact Hc|]. cbn beta. unfold posts in *.
    by rewrite omap_app, Hp.
Qed.

Lemma restore_name_logs l found number total name processed cs :
  hoare (at_log l) (restore_name lunaId signingPublics found number total name processed cs)
    (logs l (fun cs' evs => handled evs [name] cs cs')) anyend.
Proof.
  unfold restore_name. hbind (apply log_signal) as u.
  eapply logs_bind with (F := fun _ evs => evs = [Sent (GetJson (record_path name))]).
  - unfold fetchRecord, record_path. destruct (encode_uri_component name) as [enc|]; [|by apply hoare_fail].
    hbind (apply log_ask) as body. apply hoare_pure. intros _.
    hbind (apply log_check) as got. apply hoare_pure. intros _. hbind (apply log_check) as d. apply hoare_pure. intros _.
    hbind (apply log_check) as b. apply hoare_pure. intros _. hbind (apply log_on_heap) as p.
    apply hoare_ret. intros c Hc. by eexists.
  - intros record evs ->. apply log_ensure. do 3 hbind (apply log_on_heap) as ?.
    match goal with |- hoare _ (match ?x with _ => _ end) _ _ => destruct x as [|s snaps] end.
    + cbv zeta. hbind (apply log_progress) as v. apply hoare_ret. intros c Hc. eexists. split; [exact Hc|].
      split; [by cbn | cbn; lia].
    + eapply logs_bind; [apply send_snapshot_logs|]. intros cs' evs [Hp Hs].
      hbind (apply log_progress) as v. apply hoare_ret. intros c Hc. eexists. split; [exact Hc|].
      unfold handled, gets, posts in *. cbn [app omap list_omap map]. rewrite !omap_app, length_app. split.
      * apply sublist_skip, sublist_nil_l.
      * rewrite Hp, Hs. cbn. lia.
Qed.

Lemma restore_each_logs found number total names : forall l processed cs,
  hoare (at_log l) (restore_each lunaId signingPublics found number total names processed cs)
    (logs l (fun r evs => handled evs names cs r.2 /\ r.1 = processed + Z.of_nat (length names))) anyend.
Proof.
  induction names as [|name names IH]; intros l processed cs; cbn [restore_each].
  - apply logs_none, hoare_ret. intros c Hc. split; [done|]. split; [by apply handled_quiet | cbn; lia].
  - eapply logs_bind; [apply restore_name_logs|]. intros cs1 evs H1.
    eapply hoare_weaken; [apply IH | done | | done].
    intros [p cs2] c (evs' & Hc & H2 & Hp). exists evs'. split; [done|]. split.
    + exact (handled_app _ _ [name] names _ _ _ H1 H2).
    + cbn [fst length] in *. lia.
Qed.

(** A list of names that is complete: increasing, of this scope, and as many as some reply's total. *)
Definition listing (scope : jstr) (after : option jstr) (processed : Z) (names : list jstr) : Prop :=
  increasing (default (scope ++ js ".") after) names
  /\ Forall (fun n => starts_with (scope ++ js ".") n = true) names
  /\ exists rp page, rp ∈ rs /\ rp_json rp = Ok page
       /\ counted (opt_prop "total" (Some page)) = processed + Z.of_nat (length names).

Lemma restore_names_logs (fuel : nat) : forall l found number after processed et ev cs,
  hoare (at_log l) (restore_names fuel lunaId signingPublics found number after processed et ev cs)
    (logs l (fun cs' evs => exists names, handled evs names cs cs' /\ listing (fs_scope found) after processed names)) anyend.
Proof.
  induction fuel as [|fuel IH]; intros l found number after processed et ev cs; cbn [restore_names];
    [by apply hoare_exhausted|].
  hbind (apply log_signal) as u. hbind (apply log_ask) as page. apply hoare_pure. intros (rp & Hrp & Hpage).
  hbind (apply log_check) as v. destruct v. apply hoare_pure. intros Hval. cbv zeta.
  apply names_page_ok in Hval as (Hinc & Hpre & _ & _ & Hnext). cbv zeta in Hnext.
  set (names := omap as_string (page_names page)) in *. set (total := counted _) in *.
  eapply logs_after with (evs := [Sent _]) (F := fun cs' evs => exists names, handled evs names cs cs'
    /\ listing (fs_scope found) after processed names).
  2:{ intros a evs' (ns & Hh & Hl). exists ns. split; [|done].
      apply (handled_app [_] evs' [] ns cs cs a); [by apply handled_quiet | done]. }
  eapply logs_bind with (F := fun _ evs => posts evs = []).
  { destruct (total =? 0); [|apply logs_none; by apply hoare_ret].
    eapply hoare_weaken; [apply log_progress | done | | done]. intros a c Hc.
    eexists. split; [exact Hc | done]. }
  intros w evs0 Hq. eapply logs_bind; [apply restore_each_logs|].
  intros [p' cs1] evs1 [H1 Hp']. cbn [fst snd] in *.
  assert (H01 : handled (evs0 ++ evs1) names cs cs1)
    by exact (handled_app evs0 evs1 [] names cs cs cs1 (handled_quiet _ _ Hq) H1).
  destruct (nullish _).
  - hbind (apply log_ask) as ver. apply hoare_pure. intros _. hbind (apply log_check) as x. apply hoare_pure. intros _.
    destruct (negb _); [by apply hoare_check|]. apply hoare_ret. intros c Hc. eexists. split; [exact Hc|].
    exists names. split.
    + rewrite app_assoc, <- (app_nil_r names). eapply handled_app; [exact H01 | by apply handled_quiet].
    + split_and!; [done | done |]. by exists rp, page.
  - destruct Hnext as [Hnext Hne]. eapply hoare_weaken; [apply IH | done | | done].
    intros cs2 c (evs2 & Hc & names2 & H2 & Hinc2 & Hpre2 & rp2 & page2 & Hin2 & Hj2 & Ht2).
    exists evs2. split; [exact Hc|]. exists (names ++ names2). split.
    + rewrite app_assoc. eapply handled_app; [exact H01 | exact H2].
    + split_and!.
      * apply increasing_app; [done|]. rewrite Hnext in Hinc2. by destruct (last names).
      * by apply Forall_app.
      * exists rp2, page2. split_and!; [done | done|]. rewrite length_app. lia.
Qed.
End Scope.

(** ** Memory *)

Section Memory.
Context `{NB : NobleBytes} `{JT : JsText} (lunaId : jstr) (signingPublics : list bytes) (base : nat).

(** Of the arrays from [base] on, only those in [keep] may hold anything. *)
Definition holding (keep : list nat) (c : client locals) : Prop := tidy base keep (cl_heap c).

Lemma holding_signal keep : hoare (holding keep) checkRestoreSignal (fun _ => holding keep) anyend.
Proof. by apply signal_rule. Qed.

Lemma holding_ask keep {A} (r : request) (get : reply -> thrown A) :
  hoare (holding keep) (requestWithRestoreSignal (rp ← await r; check (get rp))) (fun _ => holding keep) anyend.
Proof. by apply request_rule. Qed.

Lemma holding_check keep {A} (r : thrown A) : hoare (holding keep) (check r) (fun _ => holding keep) anyend.
Proof. by apply hoare_check. Qed.

Lemma holding_ret keep {A} (a : A) : hoare (holding keep) (mret a) (fun _ => holding keep) anyend.
Proof. by apply hoare_ret. Qed.

Lemma holding_set_locals keep l : hoare (holding keep) (set_locals l) (fun _ => holding keep) anyend.
Proof. by apply hoare_set_locals. Qed.

Lemma holding_onProgress keep cs p t m : hoare (holding keep) (onProgress cs p t m) (fun _ => holding keep) anyend.
Proof. by apply hoare_log. Qed.

Lemma holding_fail keep {A} (e : error) : hoare (holding keep) (fail (A := A) e) (fun _ => holding keep) anyend.
Proof. by apply hoare_fail. Qed.

Lemma holding_alloc keep (b : bytes) : hoare (holding keep) (on_heap (alloc b)) (fun p => holding (p :: keep)) anyend.
Proof.
  apply hoare_on_heap; [|done]. intros c p h Hc Hr. pose proof (tidy_alloc base keep b (cl_heap c) Hc) as Ht.
  rewrite alloc_heap in Hr, Ht. by injection Hr as <- <-.
Qed.

Lemma holding_zeros keep {A} (m : buffers A) : leaves_zeros m ->
  hoare (holding keep) (on_heap m) (fun _ => holding keep) anyend.
Proof.
  intros Hm. apply hoare_on_heap; [|done]. intros c a h Hc (bufs & packs & -> & Hz)%Hm.
  apply (tidy_grown _ _ []); [done|]. intros i b Hb. right. by eapply Forall_lookup_1.
Qed.

Lemma holding_ensure keep (l : list nat) {A} P (m : restoring A) :
  hoare P m (fun _ => holding (l ++ keep)) anyend -> hoare P (ensure m (fun _ => fill_all l)) (fun _ => holding keep) anyend.
Proof.
  intros Hm. apply hoare_ensure. eapply hoare_weaken; [exact Hm | done | | by intros []].
  intros a c Hc. by apply (tidy_fill_all base l keep).
Qed.

Lemma holding_ensure1 keep (p : nat) {A} P (m : restoring A) :
  hoare P m (fun _ => holding (p :: keep)) anyend -> hoare P (ensure m (fun _ => fill0 p)) (fun _ => holding keep) anyend.
Proof.
  intros Hm. apply hoare_ensure. eapply hoare_weaken; [exact Hm | done | | by intros []].
  intros a c Hc. by apply (tidy_fill base p keep).
Qed.

Lemma leaves_zeros_read (p : nat) : leaves_zeros (read_buf p).
Proof. intros h b h' [_ ->]%read_buf_prefix. exists [], []. by rewrite grown_nil. Qed.

Lemma leaves_zeros_records (l : list (value * nat)) : leaves_zeros (read_records l).
Proof.
  induction l as [|[name p] l IH]; cbn [read_records]; [apply leaves_zeros_ret|].
  apply leaves_zeros_bind; [apply leaves_zeros_read|]. intros b.
  apply leaves_zeros_bind; [exact IH|]. intros rest. apply leaves_zeros_ret.
Qed.

Lemma leaves_zeros_snapshots secret scope r : leaves_zeros (readPrivateSnapshots lunaId secret scope [r] signingPublics).
Proof. intros h a h' (bufs & -> & Hz & _)%readPrivateSnapshots_one. by exists bufs, []. Qed.

#[local] Hint Resolve holding_signal holding_ask holding_check holding_ret holding_set_locals holding_onProgress
  holding_fail holding_alloc holding_zeros leaves_zeros_read leaves_zeros_records leaves_zeros_snapshots
  raw_tree_zeros : holding.

Lemma decode_records_holding (l : list json) : forall keep,
  hoare (holding keep) (decode_records l) (fun rs => holding (map snd rs ++ keep)) anyend.
Proof.
  induction l as [|r l IH]; intros keep; cbn [decode_records]; [by apply hoare_ret|].
  hbind (auto with holding) as name. hbind (auto with holding) as d. hbind (auto with holding) as b.
  hbind (auto with holding) as p. hbind (apply IH) as rest. apply hoare_ret. intros c Hc.
  eapply tidy_weaken; [exact Hc|]. cbn [map snd app]. set_solver.
Qed.

Lemma fetchScopePage_holding keep after version total processed :
  hoare (holding keep) (fetchScopePage after version total processed)
    (fun page => holding (map snd (sp_records page) ++ keep)) anyend.
Proof.
  unfold fetchScopePage. hbind (apply holding_ask) as page. hbind (auto with holding) as v.
  eapply hoare_bind with (R := fun rs => holding (map snd rs ++ keep)); [|by intros rs; apply hoare_ret].
  destruct v as [[| | | |l|]|]; try (by apply hoare_fail); [by apply hoare_ret| |by apply hoare_ret].
  apply decode_records_holding.
Qed.

(** Searches leave the keys of what they found. *)
Lemma findMy_holding keep entropy pscopes :
  hoare (holding keep) (on_heap (findMyPrivateScopes lunaId entropy pscopes signingPublics))
    (fun fs => holding (flat_map scope_arrays fs ++ keep)) anyend.
Proof.
  apply hoare_on_heap; [|done]. intros c fs h Hc Hr. destruct (derive entropy lunaId) as [k|e] eqn:Hk.
  - destruct (findMyPrivateScopes_run lunaId entropy pscopes signingPublics (cl_heap c) k Hk) as (fs' & bufs & E & _ & Hkept & _).
    rewrite E in Hr. injection Hr as <- <-. by apply tidy_grown.
  - unfold findMyPrivateScopes in Hr. pose proof (derive_secrets_run entropy lunaId (cl_heap c)) as Hd. cbv zeta in Hd.
    rewrite Hk in Hd. by erewrite bind_failed in Hr by exact Hd.
Qed.

Lemma open_scope_keys_holding keep sealed secret rec :
  hoare (holding keep) (on_heap (open_scope_keys sealed secret lunaId rec))
    (fun f => holding (match f with Some f => scope_arrays f | None => [] end ++ keep)) anyend.
Proof.
  apply hoare_on_heap; [|done]. intros c f h Hc Hr.
  pose proof (open_scope_keys_run sealed secret lunaId rec (cl_heap c)) as Hrun. cbv zeta in Hrun.
  destruct (scope_keys sealed secret lunaId rec) as [o|].
  - rewrite Hrun in Hr. injection Hr as <- <-. apply tidy_grown; [done|].
    intros [|[|i]] b Hb; left; cbn; set_solver by lia.
  - destruct Hrun as (bufs & Hrun & Hz). rewrite Hrun in Hr. injection Hr as <- <-.
    apply tidy_grown; [done|]. by apply kept_zero.
Qed.

Lemma open_kept_all_holding keep k pscopes skip (kept : list value) : forall found,
  hoare (holding (flat_map scope_arrays found ++ keep))
    (open_kept_all k lunaId pscopes signingPublics skip kept found)
    (fun fs => holding (flat_map scope_arrays fs ++ keep)) anyend.
Proof.
  induction kept as [|copy kept IH]; intros found; cbn [open_kept_all]; [by apply hoare_ret|].
  eapply hoare_bind with (R := fun f => holding (match f with Some f => scope_arrays f | None => [] end
    ++ flat_map scope_arrays found ++ keep)).
  - unfold open_kept. hbind (auto with holding) as u. hbind (auto with holding) as sc.
    repeat case_match; try (by apply hoare_ret). apply open_scope_keys_holding.
  - intros f. eapply hoare_pre; [apply IH|]. intros c Hc. eapply tidy_weaken; [exact Hc|].
    destruct f as [f|]; [|done]. rewrite flat_map_app. cbn [flat_map]. set_solver.
Qed.

Lemma open_page_scopes_holding keep entropy kept records :
  hoare (holding keep) (open_page_scopes lunaId entropy signingPublics kept records)
    (fun fs => holding (flat_map scope_arrays fs ++ keep)) anyend.
Proof.
  unfold open_page_scopes. hbind (auto with holding) as e. hbind (auto with holding) as pscopes.
  hbind (apply findMy_holding) as mine. hbind (auto with holding) as u.
  eapply hoare_bind with (R := fun more => holding (flat_map scope_arrays more ++ flat_map scope_arrays mine ++ keep)).
  - unfold openKeptScopes. eapply hoare_bind with (R := fun ks => holding (ks.2 ++ flat_map scope_arrays mine ++ keep)).
    + apply hoare_on_heap; [|done]. intros c ks h Hc Hr. pose proof (derive_secrets_run e lunaId (cl_heap c)) as Hd.
      cbv zeta in Hd. rewrite Hd in Hr. destruct (derive e lunaId) as [k|]; [|done]. injection Hr as <- <-.
      apply tidy_grown; [done|]. intros i b Hb. left. cbn. apply lookup_lt_Some in Hb. cbn in Hb.
      destruct i as [|[|[|i]]]; [| | |lia]; set_solver by lia.
    + intros [k secrets]. cbn [snd]. apply hoare_ensure.
      eapply hoare_weaken with (Q := fun fs => holding (secrets ++ flat_map scope_arrays fs ++ flat_map scope_arrays mine ++ keep))
        (E := anyend); [|done| |by intros []].
      * hbind (auto with holding) as copies.
        eapply hoare_weaken; [apply (open_kept_all_holding (secrets ++ flat_map scope_arrays mine ++ keep) k _ _ copies [])
          | done | | done].
        intros fs c Hc. eapply tidy_weaken; [exact Hc|]. set_solver.
      * intros fs c Hc. by apply (tidy_fill_all base secrets).
  - intros more. hbind (auto with holding) as v. apply hoare_ret. intros c Hc. eapply tidy_weaken; [exact Hc|].
    rewrite flat_map_app. set_solver.
Qed.

(** Clearing clears what it is given, and nothing it clears counts again. *)
Lemma clear_all_tidy keep (lo : locals) (h : heap) :
  tidy base (map snd (lo_scopeRecords lo) ++ keep) h -> tidy base keep (clear_all lo h).2.
Proof.
  intros Ht. unfold clear_all.
  pose proof (fill_all_run (map snd (lo_scopeRecords lo)) h) as Hr.
  destruct (fill_all (map snd (lo_scopeRecords lo)) h) as [r h1] eqn:E. cbn in Hr. subst r.
  erewrite bind_ran by exact E. apply tidy_fill_all. eapply tidy_weaken; [|apply list_subseteq_app_r; reflexivity].
  apply (tidy_fill_all base) in Ht. by rewrite E in Ht.
Qed.

Lemma send_snapshot_holding keep found secret p s cs :
  hoare (holding keep) (send_snapshot lunaId found secret p s cs) (fun _ => holding keep) anyend.
Proof.
  unfold send_snapshot. eapply hoare_bind with (R := fun q => holding (q :: keep)).
  - unfold fetchPack. hbind (apply holding_ask) as ok. destruct ok; cbn [negb]; [|by apply hoare_check].
    hbind (apply holding_ask) as b. apply holding_alloc.
  - intros q. apply holding_ensure1. hbind (auto with holding) as file. hbind (auto with holding) as tree.
    hbind (auto with holding) as d. hbind (auto with holding) as data. hbind (apply holding_ask) as reply.
    hbind (auto with holding) as x. hbind (auto with holding) as y. apply holding_ret.
Qed.

Lemma restore_name_holding keep found number total name processed cs :
  hoare (holding keep) (restore_name lunaId signingPublics found number total name processed cs)
    (fun _ => holding keep) anyend.
Proof.
  unfold restore_name. hbind (auto with holding) as u. eapply hoare_bind with (R := fun r => holding (r.2 :: keep)).
  - unfold fetchRecord. destruct (encode_uri_component name); [|by apply hoare_fail].
    hbind (apply holding_ask) as body. hbind (auto with holding) as got. hbind (auto with holding) as d.
    hbind (auto with holding) as b. hbind (auto with holding) as p. by apply hoare_ret.
  - intros record. apply holding_ensure1. hbind (auto with holding) as data. hbind (auto with holding) as secret.
    hbind (auto with holding) as snaps. destruct snaps as [|s snaps]; cbv zeta.
    + hbind (auto with holding) as v. apply holding_ret.
    + hbind (apply send_snapshot_holding) as cs'. hbind (auto with holding) as v. apply holding_ret.
Qed.

Lemma restore_each_holding keep found number total names : forall processed cs,
  hoare (holding keep) (restore_each lunaId signingPublics found number total names processed cs)
    (fun _ => holding keep) anyend.
Proof.
  induction names as [|name names IH]; intros processed cs; cbn [restore_each]; [auto with holding|].
  hbind (apply restore_name_holding) as cs'. apply IH.
Qed.

Lemma restore_names_holding keep (fuel : nat) : forall found number after processed et ev cs,
  hoare (holding keep) (restore_names fuel lunaId signingPublics found number after processed et ev cs)
    (fun _ => holding keep) anyend.
Proof.
  induction fuel as [|fuel IH]; intros found number after processed et ev cs; cbn [restore_names];
    [by apply hoare_exhausted|].
  hbind (auto with holding) as u. hbind (apply holding_ask) as page. hbind (auto with holding) as v. cbv zeta.
  eapply hoare_bind with (R := fun _ => holding keep); [destruct (_ =? 0); auto with holding|]. intros w.
  hbind (apply restore_each_holding) as r. destruct r as [p' cs']. destruct (nullish _); [|apply IH].
  hbind (apply holding_ask) as ver. hbind (auto with holding) as x. destruct (negb _); auto with holding.
Qed.

Lemma restore_scopes_holding keep (fuel : nat) scopes : forall number cs,
  hoare (holding (flat_map scope_arrays scopes ++ keep))
    (restore_scopes fuel lunaId signingPublics scopes number cs) (fun _ => holding keep) anyend.
Proof.
  induction scopes as [|found scopes IH]; intros number cs; cbn [restore_scopes flat_map]; [by apply hoare_ret|].
  hbind (auto with holding) as u. eapply hoare_bind with (R := fun _ => holding (flat_map scope_arrays scopes ++ keep)).
  - apply (holding_ensure _ [fs_sealSecret found; fs_dedupKey found]). rewrite <- app_assoc. apply restore_names_holding.
  - intros cs'. apply IH.
Qed.

Lemma restore_pages_holding keep (fuel : nat) : forall entropy kept after ev et processed discovered cs,
  hoare (holding keep) (restore_pages fuel lunaId entropy signingPublics kept after ev et processed discovered cs)
    (fun _ => holding keep) anyend.
Proof.
  induction fuel as [|fuel IH]; intros entropy kept after ev et processed discovered cs; cbn [restore_pages];
    [by apply hoare_exhausted|].
  hbind (auto with holding) as u. hbind (apply fetchScopePage_holding) as page. hbind (auto with holding) as v.
  hbind (auto with holding) as w. hbind (apply open_page_scopes_holding) as scopes.
  hbind (apply restore_scopes_holding) as cs'. eapply hoare_bind with (R := fun _ => holding keep).
  { apply hoare_on_heap; [|done]. intros c a h Hc Hr.
    assert (h = (clear_all {| lo_scopes := scopes; lo_scopeRecords := sp_records page |} (cl_heap c)).2) as ->
      by (by rewrite Hr).
    apply (clear_all_tidy keep). by eapply tidy_weaken; [exact Hc | set_solver]. }
  intros x. hbind (auto with holding) as y. cbv zeta. destruct (nullish _); [auto with holding|].
  hbind (auto with holding) as z. apply IH.
Qed.

End Memory.

Lemma restore_holding `{NB : NobleBytes} `{JT : JsText} (base fuel : nat) (words lunaId signingPublic : jstr) :
  hoare (holding base []) (restorePrivateFromPhrase fuel words lunaId signingPublic) (fun _ => holding base []) anyend.
Proof.
  unfold restorePrivateFromPhrase. hbind (apply holding_signal) as u. hbind (apply holding_check) as b.
  hbind (apply holding_alloc) as entropy. hbind (apply holding_set_locals) as v. apply hoare_ensure.
  eapply hoare_weaken with (Q := fun _ => holding base [entropy]) (E := anyend); [|done| |by intros []].
  - hbind (apply holding_check) as pub. hbind (apply holding_ask) as kr. hbind (apply holding_check) as k. cbv zeta.
    hbind (apply restore_pages_holding) as r. destruct r as [discovered cs].
    destruct (discovered =? 0); [apply holding_check | apply holding_ret].
  - intros r c Hc. unfold holding, cleaned. cbn [cl_heap]. erewrite bind_ran by reflexivity.
    apply clear_all_tidy. apply (tidy_fill base entropy) in Hc. eapply tidy_weaken; [exact Hc | set_solver].
Qed.

(** ** Theorems *)

(** The fuel of a run.  Every turn of every loop takes a reply, so with more fuel than there are replies a run ends, or awaits
    the next reply; this says what fuel is enough, not that the server's lists come to an end. *)
Theorem restore_ends `{NB : NobleBytes} `{JT : JsText} (fuel : nat) (words lunaId signingPublic : jstr)
    (c : client locals) :
  (length (cl_replies c) < fuel)%nat -> cl_log c = [] ->
  (restorePrivateFromPhrase fuel words lunaId signingPublic c).1 <> OutOfFuel.
Proof.
  intros Hf Hl. pose proof (restore_rule fuel _ words lunaId signingPublic Hf c) as Hr.
  destruct (restorePrivateFromPhrase fuel words lunaId signingPublic c) as [[[a|e]| |] c1]; try done.
  destruct Hr as [Hr _]; [|by destruct Hr]. by apply tracked_start.
Qed.

(** C26: a restore sends only what the phrase opened and Luna signed.  At every point of every run, each body
    posted so far names a scope whose keys are the phrase's: Luna signed its record, its secret opens with the sealing
    key derived from these words, out of that record (which names this key) or of a kept copy in Luna's first reply, and
    the secret opens the record's dedup key, the one that is sent and whose scope it is.  The body carries a snapshot
    whose record verifies under Luna's key for this Luna and whose details open with the scope's secret, and the very
    tree that snapshot signs: a pack file of the signed id opens with the same secret, its chunk of the signed hash
    has that hash, and opens with the same secret to the tree. *)
Theorem restore_sends_only_opened `{NB : NobleBytes} `{JT : JsText} (fuel : nat)
    (words lunaId signingPublic : jstr) (c : client locals) (path : jstr) (body : json) :
  (length (cl_replies c) < fuel)%nat -> cl_log c = [] ->
  Sent (PostJson path body) ∈ cl_log (restorePrivateFromPhrase fuel words lunaId signingPublic c).2 ->
  path = PRIVATE_RESTORE_PATH
  /\ exists entropy scope secret dedupKey data s tree, phraseToEntropy words = Ok entropy
       /\ body = restore_body scope dedupKey data s tree
       /\ phrase_opens lunaId (restore_keys signingPublic) entropy (kept_copies (cl_replies c)) scope secret dedupKey
       /\ snapshot_opens lunaId (restore_keys signingPublic) secret scope data s
       /\ tree_opens lunaId secret scope (ps_snap s) tree.
Proof.
  intros Hf Hl Hin. pose proof (restore_rule fuel _ words lunaId signingPublic Hf c) as Hr. cbv zeta in Hr.
  specialize (Hr (tracked_start _ _ _ _ c Hl)). pose proof (not_a_phrase fuel words lunaId signingPublic c Hl) as Hno.
  assert (Hs : sound lunaId (restore_keys signingPublic) (phrase_bytes words) (kept_copies (cl_replies c)) (Sent (PostJson path body))).
  { destruct (ends _) as [e|a]; [destruct Hr as [_ Hr] | destruct Hr as (_ & Hr & _)];
      rewrite Forall_forall in Hr; exact (Hr _ Hin). }
  unfold phrase_bytes in Hs. destruct (phraseToEntropy words) as [entropy|e]; [|rewrite Hno in Hin by (by eexists); by apply not_elem_of_nil in Hin].
  destruct Hs as [Hp (scope & secret & dedupKey & data & s & tree & Hs)]. split; [done|].
  by exists entropy, scope, secret, dedupKey, data, s, tree.
Qed.

(** C27: a scope is done only when its whole list was handled.  If the restore of a scope succeeds, there is a
    list of names, strictly increasing and all of this scope, as long as the total one of Luna's
    replies gave; each was fetched, in this order; and the bodies posted and the versions counted as
    skipped are together exactly as many. *)
Theorem scope_is_whole `{NB : NobleBytes} `{JT : JsText} (fuel : nat) (lunaId : jstr) (signingPublics : list bytes)
    (found : found_scope) (number : Z) (cs cs' : counters) (c c' : client locals) :
  restore_scope fuel lunaId signingPublics found number cs c = (Settled (Ok cs'), c') ->
  exists evs names, cl_log c' = cl_log c ++ evs
    /\ StronglySorted (fun a b => js_ltb a b = true) names
    /\ Forall (fun n => starts_with (fs_scope found ++ js ".") n = true) names
    /\ map record_path names `sublist_of` gets evs
    /\ Z.of_nat (length (posts evs)) + (ct_skipped cs' - ct_skipped cs) = Z.of_nat (length names)
    /\ exists rp page, rp ∈ cl_replies c /\ rp_json rp = Ok page
         /\ counted (opt_prop "total" (Some page)) = Z.of_nat (length names).
Proof.
  intros Hrun. pose proof (log_ensure (cl_replies c) (cl_log c)
    (restore_names fuel lunaId signingPublics found number None 0 None None cs) (fun _ => clear_scope found) _
    (restore_names_logs lunaId signingPublics (cl_replies c) fuel (cl_log c) found number None 0 None None cs) c) as Hh.
  change (ensure _ _) with (restore_scope fuel lunaId signingPublics found number cs) in Hh. rewrite Hrun in Hh.
  destruct Hh as (evs & [Hl _] & names & [H1 H2] & H3 & H4 & rp & page & H5 & H6 & H7); [by split|].
  exists evs, names. split_and!; try done; [by eapply increasing_sorted|].
  exists rp, page. split_and!; [done | done | lia].
Qed.

(** The arrays a restore holds itself: when it succeeds, each it filled, the phrase's entropy, the keys, the records and the
    packs, is zeroed.  The heap has no arrays of the primitives: what [open] slices and derives inside, copies of these
    secrets among it, is neither here nor cleared in the source. *)
Theorem restore_clears `{NB : NobleBytes} `{JT : JsText} (fuel : nat) (words lunaId signingPublic : jstr)
    (c c' : client locals) (r : json) :
  restorePrivateFromPhrase fuel words lunaId signingPublic c = (Settled (Ok r), c') ->
  forall i b, (length (h_bufs (cl_heap c)) <= i)%nat -> h_bufs (cl_heap c') !! i = Some b -> all_zero b.
Proof.
  intros Hrun i b Hi Hb. pose proof (restore_holding (length (h_bufs (cl_heap c))) fuel words lunaId signingPublic c
    (tidy_start (cl_heap c))) as Hh.
  rewrite Hrun in Hh. by destruct (Hh i b Hi Hb) as [[]%elem_of_nil|].
Qed.

(** ** A run *)

#[local] Existing Instances Toy.noble Toy.noble_bytes Toy.noble_seal PrivateSample.texts.

Module RunSample.
Import Sample PrivateSample.
Definition answer (v : json) : reply := {| rp_json := Ok v; rp_ok := Ok true; rp_body := Ok tree_file; rp_aborted := false |}.
Definition name : jstr := scope ++ js "." ++ js "s".
Definition data (s : string) : jstr * json := (js "data", str s).
Definition names_page (l : list json) : json :=
  JObj [(js "names", JArr l); (js "total", number 1); (js "version", number 1)].

(** The replies of the names page, the record, the pack, the post and the closing page. *)
Definition scope_replies : list reply := [
  answer (names_page [JStr name]); answer (JObj [(js "name", JStr name); data "BA=="]);
  answer JNull; answer JNull; answer (JObj [(js "restored", number 1)]); answer (names_page [])].
Definition replies : list reply := [
  answer (JObj [(js "kept", JArr [])]);
  answer (JObj [(js "records", JArr [JObj [(js "name", JStr scope); data "AQ=="]]); (js "scanned", number 1);
                (js "total", number 1); (js "version", number 1)])] ++ scope_replies.
Definition start (rs : list reply) (bufs : list bytes) : client locals := {|
  cl_heap := {| h_bufs := bufs; h_packs := [] |}; cl_replies := rs; cl_aborted := false;
  cl_locals := {| lo_scopes := []; lo_scopeRecords := [] |}; cl_log := [] |}.
Definition signingPublic : jstr := toBase64 public.
Abbreviation run := (restorePrivateFromPhrase 20 words luna signingPublic (start replies [])).
Definition found : found_scope := {|
  fs_scope := scope; fs_userId := js "u"; fs_createdAt := 1700000000; fs_dedupKey := 1; fs_sealSecret := 0 |}.
Definition zero : counters := {| ct_restored := number 0; ct_alreadyIndexed := 0; ct_skipped := 0 |}.
Abbreviation scope_run :=
  (restore_scope 20 luna [public] found 1 zero (start scope_replies [kp_secret pair; dedup])).
End RunSample.

Example run_restores_one : RunSample.run.1 = Settled (Ok (JObj [(js "restored", Sample.number 1)])).
Proof. vm_compute. reflexivity. Qed.

Example run_stopped_short :
  (restorePrivateFromPhrase 20 PrivateSample.words PrivateSample.luna RunSample.signingPublic
     (RunSample.start (take 6 RunSample.replies) [])).1 = Waiting.
Proof. vm_compute. reflexivity. Qed.

Lemma restore_ends_witness :
  (length (cl_replies (RunSample.start RunSample.replies [])) < 20)%nat /\ RunSample.run.1 <> OutOfFuel.
Proof.
  split; [cbn; lia|]. apply restore_ends; [cbn; lia | reflexivity].
Defined.

Lemma restore_sends_only_opened_witness :
  exists path body, Sent (PostJson path body) ∈ cl_log RunSample.run.2 /\ path = PRIVATE_RESTORE_PATH.
Proof.
  assert (Hin : exists path body, cl_log RunSample.run.2 !! 6%nat = Some (Sent (PostJson path body)))
    by (do 2 eexists; vm_compute; reflexivity).
  destruct Hin as (path & body & Hin). apply list_elem_of_lookup_2 in Hin. exists path, body. split; [exact Hin|].
  apply (restore_sends_only_opened 20 PrivateSample.words PrivateSample.luna RunSample.signingPublic
    (RunSample.start RunSample.replies []) path body); [cbn; lia | reflexivity | exact Hin].
Defined.

Lemma scope_is_whole_witness :
  RunSample.scope_run.1 = Settled (Ok (RunSample.zero <| ct_restored := Sample.number 1 |>))
  /\ exists evs (names : list jstr), cl_log RunSample.scope_run.2 = [] ++ evs
       /\ Z.of_nat (length (posts evs)) + 0 = Z.of_nat (length names).
Proof.
  assert (Hr : RunSample.scope_run.1 = Settled (Ok (RunSample.zero <| ct_restored := Sample.number 1 |>)))
    by (vm_compute; reflexivity).
  split; [exact Hr|].
  destruct (scope_is_whole 20 PrivateSample.luna [PrivateSample.public] RunSample.found 1 RunSample.zero
    (RunSample.zero <| ct_restored := Sample.number 1 |>)
    (RunSample.start RunSample.scope_replies [kp_secret PrivateSample.pair; PrivateSample.dedup])
    RunSample.scope_run.2) as (evs & names & Hl & _ & _ & _ & Hn & _).
  - rewrite <- Hr. apply surjective_pairing.
  - exists evs, names. split; [exact Hl | exact Hn].
Defined.

Lemma restore_clears_witness :
  RunSample.run.1 = Settled (Ok (JObj [(js "restored", Sample.number 1)]))
  /\ exists b, h_bufs (cl_heap RunSample.run.2) !! 0%nat = Some b /\ all_zero b.
Proof.
  assert (Hr : RunSample.run.1 = Settled (Ok (JObj [(js "restored", Sample.number 1)])))
    by (vm_compute; reflexivity).
  assert (Hb : h_bufs (cl_heap RunSample.run.2) !! 0%nat = Some (replicate 16 0)) by (vm_compute; reflexivity).
  split; [exact Hr|]. exists (replicate 16 0). split; [exact Hb|].
  apply (restore_clears 20 PrivateSample.words PrivateSample.luna RunSample.signingPublic
    (RunSample.start RunSample.replies []) RunSample.run.2 (JObj [(js "restored", Sample.number 1)])) with (i := 0%nat);
    [rewrite <- Hr; apply surjective_pairing | apply Nat.le_0_l | exact Hb].
Defined.
