(* ===== verification/CloudPhrase.v ===== *)
(** * The recovery phrase: [luna/web/src/lib/cloudPhrase.js]

    Signing challenges, re-sealing private scopes to a new phrase, the bytes a replacement signs, and
    reading typed words.  Requests are awaited through [Network]. *)

From S2P Require Import Prelude JsString Bytes Base64 BackupCrypto Buffers CloudFormat CloudPrivate.
From S2P Require Import Network.

Definition PHRASE_PATH : jstr := js "/api/v1/cloud/phrase".
Definition CHECK_DOMAIN : jstr := js "phrase-check".
Definition REPLACE_DOMAIN : jstr := js "phrase-replace".
Definition RESEAL_CHECK_FAILED : string :=
  "Your phrase was not changed. Luna could not safely move your private backups to the new phrase. Your old phrase still works.".
Definition unreadable : string := "Could not read your private backups. Try again.".

Definition bytesEqual (a b : bytes) : bool := bool_decide (a = b).

Definition encode (s : jstr) : bytes := map Z.of_N (utf8_encode s).

(** A re-sealed scope, and what a replacement holds when it is signed. *)
Record rescoped := { rc_scope : jstr; rc_sealed : jstr }.
Record replacement := {
  rp_seal_public : jstr; rp_auth_public : jstr; rp_self_sealed : jstr; rp_exposed : bool;
  rp_rescoped : list rescoped;
}.

Fixpoint compareBytes (a b : bytes) : Z :=
  match a, b with
  | x :: a, y :: b => if x =? y then compareBytes a b else x - y
  | [], _ => - len b
  | _, [] => len a
  end.

(** The body of PUT before the proof is added. *)
Record phrase_body := {
  pb_seal_public : jstr; pb_auth_public : jstr; pb_self_sealed : jstr; pb_words : Z;
}.

Inductive phrase_proof :=
| OldEntropy (entropy : bytes)
| Password (password : jstr).

Abbreviation phrasing := (net unit).

Section Phrase.
Context `{Noble} `{JsText}.

(** ** What a replacement signs *)

Definition rescopedHash (l : list rescoped) : thrown bytes :=
  items ← map_thrown (fun e => sealed ← base64_bytes (rc_sealed e); Ok (encode (rc_scope e), sealed)) l;
  let items := js_sort (fun a b => compareBytes a.1 b.1) items in
  Ok (packId (canonical (flat_map (fun i => [(js "scope", i.1); (js "sealed_scope_secret", i.2)]) items))).

Definition replaceMessage (challenge : bytes) (body : replacement) : thrown bytes :=
  sealPublic ← base64_bytes (rp_seal_public body);
  authPublic ← base64_bytes (rp_auth_public body);
  selfSealed ← base64_bytes (rp_self_sealed body);
  hash ← rescopedHash (rp_rescoped body);
  Ok (canonical [
    (js "challenge", challenge);
    (js "seal_public", sealPublic);
    (js "auth_public", authPublic);
    (js "self_sealed_hash", packId selfSealed);
    (js "exposed", [if rp_exposed body then 1 else 0]);
    (js "rescoped_hash", hash)]).

(** ** Challenges *)

(** [const { challenge } = await requestChallenge()], decoded. *)
Definition requestChallenge : phrasing bytes :=
  reply ← postJson (PHRASE_PATH ++ js "/challenge") (JObj []);
  v ← check (prop_of "challenge" (Some reply));
  check (fromBase64 v).

(** Runs with the three secrets of a phrase in arrays, cleared at the end. *)
Definition with_keys {A} (entropy : bytes) (lunaId : jstr) (m : user_keys -> phrasing A) : phrasing A :=
  '(k, secrets) ← on_heap (derive_secrets entropy lunaId);
  ensure (m k) (fun _ => fill_all secrets).

Definition signFreshChallenge (entropy : bytes) (lunaId domain : jstr) : phrasing jstr :=
  with_keys entropy lunaId (fun k =>
    challenge ← requestChallenge;
    sig ← check (sign (uk_authSecret k) domain challenge);
    mret (toBase64 sig)).

Definition signReplacement (entropy : bytes) (lunaId : jstr) (body : replacement) : phrasing jstr :=
  with_keys entropy lunaId (fun k =>
    challenge ← requestChallenge;
    msg ← check (replaceMessage challenge body);
    sig ← check (sign (uk_authSecret k) REPLACE_DOMAIN msg);
    mret (toBase64 sig)).

(** ** Re-sealing *)

(** [fromBase64(entry.sealed_scope_secret)], then [openScopeSecret]: the first [try]. *)
Definition open_entry (oldSealSecret : bytes) (lunaId : jstr) (entry : value) : buffers (option (jstr * nat)) :=
  catch
    (v ← lift (prop_of "sealed_scope_secret" entry); sealed ← lift (fromBase64 v);
     sv ← lift (prop_of "scope" entry); scope ← lift (string_of sv);
     s ← openScopeSecret sealed oldSealSecret lunaId scope;
     mret (Some (scope, s)))
    (fun _ => mret None).

(** The rest of one turn: seal, open again, compare, clear. *)
Definition reseal_one (draw : nat -> Z -> bytes) (newSealPublic newSealSecret : bytes) (lunaId scope : jstr)
    (scopeSecret : nat) : buffers rescoped :=
  secret ← read_buf scopeSecret;
  sealed ← lift (sealScopeSecret draw secret newSealPublic lunaId scope);
  reopened ← catch (Some <$> openScopeSecret sealed newSealSecret lunaId scope) (fun _ => mret None);
  again ← match reopened with Some r => Some <$> read_buf r | None => mret None end;
  let matches := match again with Some b => bytesEqual b secret | None => false end in
  _ ← fill0 scopeSecret;
  _ ← match reopened with Some r => fill0 r | None => mret tt end;
  if negb matches then lift (throw RESEAL_CHECK_FAILED)
  else mret {| rc_scope := scope; rc_sealed := toBase64 sealed |}.

(** [draw i] is the randomness of the [i]-th turn. *)
Fixpoint reseal_entries (draw : nat -> nat -> Z -> bytes) (oldSealSecret newSealPublic newSealSecret : bytes)
    (lunaId : jstr) (entries : list value) (out : list rescoped) : buffers (list rescoped) :=
  match entries with
  | [] => mret out
  | entry :: entries =>
      o ← open_entry oldSealSecret lunaId entry;
      match o with
      | None => reseal_entries (fun i => draw (S i)) oldSealSecret newSealPublic newSealSecret lunaId entries out
      | Some (scope, s) =>
          r ← reseal_one (draw 0%nat) newSealPublic newSealSecret lunaId scope s;
          reseal_entries (fun i => draw (S i)) oldSealSecret newSealPublic newSealSecret lunaId entries (out ++ [r])
      end
  end.

Definition resealScopes (draw : nat -> nat -> Z -> bytes) (oldEntropy : bytes) (lunaId : jstr)
    (newSealPublic newSealSecret : bytes) : phrasing (list rescoped) :=
  reply ← attempt (getJson (PHRASE_PATH ++ js "/scopes")) (fun _ => check (throw unreadable));
  match opt_prop "scopes" (Some reply) with
  | Some (JArr scopes) =>
      with_keys oldEntropy lunaId (fun k =>
        on_heap (reseal_entries draw (uk_sealSecret k) newSealPublic newSealSecret lunaId (map Some scopes) []))
  | _ => check (throw unreadable)
  end.

(** ** Bodies *)

(** [signingPublic] given as base64 text; the secrets of [derive] are local here. *)
Definition buildPhraseBody (draw : nat -> Z -> bytes) (entropy : bytes) (lunaId userId signingPublic : jstr)
  : thrown phrase_body :=
  signingBytes ← base64_bytes signingPublic;
  if negb (len signingBytes =? SIG_PUBLIC_LEN)
  then throw "Luna's signing key is missing. Reload the page and try again."
  else
    k ← derive entropy lunaId;
    let aad := canonical [(js "luna_id", encode lunaId); (js "user_id", encode userId);
                          (js "purpose", encode (js "signing-public"))] in
    sealed ← encrypt draw (uk_selfKey k) aad signingBytes;
    Ok {| pb_seal_public := toBase64 (uk_sealPublic k); pb_auth_public := toBase64 (uk_authPublic k);
          pb_self_sealed := toBase64 sealed; pb_words := if len entropy =? 32 then 24 else 12 |}.

Definition rescoped_json (e : rescoped) : json :=
  JObj [(js "scope", JStr (rc_scope e)); (js "sealed_scope_secret", JStr (rc_sealed e))].

Definition body_fields (b : phrase_body) (exposed : bool) : list (jstr * json) := [
  (js "seal_public", JStr (pb_seal_public b)); (js "auth_public", JStr (pb_auth_public b));
  (js "self_sealed", JStr (pb_self_sealed b)); (js "words", JNum (num_of_Z (pb_words b)));
  (js "exposed", JBool exposed)].

(** [selfDraw] is the randomness of the sealed signing key, [draw] that of the scopes. *)
Definition buildReplaceBody (selfDraw : nat -> Z -> bytes) (draw : nat -> nat -> Z -> bytes) (proof : phrase_proof)
    (exposed : bool) (newPhrase lunaId userId signingPublic : jstr) : phrasing json :=
  newEntropy ← check (phraseToEntropy newPhrase); e ← on_heap (alloc newEntropy);
  ensure
    (b ← check (buildPhraseBody selfDraw newEntropy lunaId userId signingPublic);
     match proof with
     | OldEntropy oldEntropy =>
         rescoped ← with_keys newEntropy lunaId (fun k =>
           resealScopes draw oldEntropy lunaId (uk_sealPublic k) (uk_sealSecret k));
         signature ← signReplacement oldEntropy lunaId
           {| rp_seal_public := pb_seal_public b; rp_auth_public := pb_auth_public b;
              rp_self_sealed := pb_self_sealed b; rp_exposed := exposed; rp_rescoped := rescoped |};
         mret (JObj (body_fields b exposed
           ++ [(js "rescoped", JArr (map rescoped_json rescoped)); (js "proof", JStr (js "old_signature"));
               (js "signature", JStr signature)]))
     | Password password =>
         mret (JObj (body_fields b exposed
           ++ [(js "proof", JStr (js "password")); (js "password", JStr password)]))
     end)
    (fun _ => fill0 e).

Definition replacePhrase (selfDraw : nat -> Z -> bytes) (draw : nat -> nat -> Z -> bytes) (proof : phrase_proof)
    (exposed : bool) (newPhrase lunaId userId signingPublic : jstr) : phrasing json :=
  body ← buildReplaceBody selfDraw draw proof exposed newPhrase lunaId userId signingPublic;
  putJson PHRASE_PATH body.

(** ** Typed words *)

(** [/^#?\d+/] at the front: what follows it. *)
Definition after_number (s : jstr) : option jstr :=
  let s := match s with 35%N :: r => r | _ => s end in
  let fix digits (s : jstr) (any : bool) :=
    match s with
    | c :: r => if is_digit c then digits r true else if any then Some s else None
    | [] => if any then Some [] else None
    end in
  digits s false.

Definition number_end (c : N) : bool := existsb (N.eqb c) (js ".):").

(** [/^\s*#?\d+\s*[.):]/.test(line)] *)
Definition numbered_line (line : jstr) : bool :=
  match after_number (trim_start line) with
  | Some rest => match trim_start rest with c :: _ => number_end c | [] => false end
  | None => false
  end.

(** [text.split(/\r?\n/)] *)
Fixpoint split_lines (s : jstr) : list jstr :=
  match s with
  | [] => [[]]
  | c :: r =>
      if (c =? c_lf)%N then [] :: split_lines r
      else if (c =? c_cr)%N then
        match r with
        | d :: r' => if (d =? c_lf)%N then [] :: split_lines r' else
            match split_lines r with w :: ws => (c :: w) :: ws | [] => [[c]] end
        | [] => [[c]]
        end
      else match split_lines r with w :: ws => (c :: w) :: ws | [] => [[c]] end
  end.

Definition word_break (c : N) : bool := is_space c || (c =? 44)%N.

(** The tokens between runs of white space and commas; the empty ones are dropped later. *)
Fixpoint tokens (s : jstr) : list jstr :=
  match s with
  | [] => [[]]
  | c :: r =>
      if word_break c then [] :: tokens r
      else match tokens r with w :: ws => (c :: w) :: ws | [] => [[c]] end
  end.

Fixpoint drop_while (f : N -> bool) (s : jstr) : jstr :=
  match s with c :: r => if f c then drop_while f r else s | [] => [] end.

Definition is_letter (c : N) : bool := ((97 <=? c) && (c <=? 122))%N.

(** The two [replace] calls on a token. *)
Definition clean_token (t : jstr) : jstr :=
  let t := match after_number t with Some rest => drop_while number_end rest | None => t end in
  let t := drop_while (fun c => negb (is_letter c)) t in
  rev (drop_while (fun c => negb (is_letter c)) (rev t)).

Definition splitPhraseText (s : jstr) : list jstr :=
  let lines := split_lines s in
  let numbered := List.filter numbered_line lines in
  let source := if 2 <=? Z.of_nat (length numbered) then join [c_lf] numbered else join [c_lf] lines in
  List.filter truthy (map clean_token (tokens (toLowerCase source))).

Inductive box_state := box_empty | box_typing | box_valid | box_invalid.

Definition boxState (v : jstr) (focused : bool) : box_state :=
  if negb (truthy v) then box_empty
  else if bool_decide (v ∈ wordlist) then box_valid
  else if focused && existsb (fun w => starts_with v w) wordlist then box_typing
  else box_invalid.

Definition notOnListLine (positions : list Z) : jstr :=
  match positions with
  | [p] => js "Word " ++ js_of_Z p ++ js " isn't on the recovery phrase list. Check the spelling."
  | _ =>
      let texts := map js_of_Z positions in
      js "Words " ++ join (js ", ") (removelast texts) ++ js " and "
      ++ default (js "undefined") (last texts) ++ js " aren't on the recovery phrase list. Check the spelling."
  end.
End Phrase.
