(* ===== verification/CloudPhraseFacts.v ===== *)
(** * The recovery phrase: properties

    A change of phrase moves every private scope the old phrase opens, and nothing that the new phrase
    does not open to the same secret; what a replacement signs does not depend on the order of the
    scopes. *)

From S2P Require Import Prelude JsString Utf8 Bytes Base64 BackupCrypto CryptoFacts Buffers.
From S2P Require Import CloudFormat CloudFacts CloudPrivate CloudPrivateFacts Network CloudPhrase.

(** ** Re-sealing *)

Section Reseal.
Context `{N : Noble} `{JT : JsText}.

(** The scope and the secret an entry gives a sealing key. *)
Definition openable (secretKey : bytes) (lunaId : jstr) (entry : value) : option (jstr * bytes) :=
  v ← to_option (prop_of "sealed_scope_secret" entry); sealed ← to_option (fromBase64 v);
  sv ← to_option (prop_of "scope" entry); scope ← as_string sv;
  secret ← key_of SCOPE_SECRET_PURPOSE SEAL_SECRET_LEN sealed secretKey lunaId scope;
  Some (scope, secret).

Lemma open_entry_run (secretKey : bytes) (lunaId : jstr) (entry : value) (h : heap) :
  match openable secretKey lunaId entry with
  | Some (scope, secret) =>
      open_entry secretKey lunaId entry h = (Ok (Some (scope, length (h_bufs h))), grown h [secret] [])
  | None => exists bufs, open_entry secretKey lunaId entry h = (Ok None, grown h bufs []) /\ Forall all_zero bufs
  end.
Proof.
  assert (Hnone : forall e, exists bufs, (Ok None, h) = (Ok (E := e) (A := option (jstr * nat)) None, grown h bufs [])
    /\ Forall all_zero bufs) by (intros e; exists []; rewrite grown_nil; by split).
  unfold openable, open_entry, catch. rewrite lift_bind.
  destruct (prop_of "sealed_scope_secret" entry) as [v|e]; cbn [to_option mbind option_bind]; [|apply Hnone].
  rewrite lift_bind. destruct (fromBase64 v) as [sealed|e]; cbn [to_option mbind option_bind]; [|apply Hnone].
  rewrite lift_bind. destruct (prop_of "scope" entry) as [sv|e]; cbn [to_option mbind option_bind]; [|apply Hnone].
  rewrite lift_bind. unfold string_of.
  destruct (as_string sv) as [scope|]; cbn [mbind option_bind]; [|apply Hnone].
  pose proof (openKey_run SCOPE_SECRET_PURPOSE SEAL_SECRET_LEN sealed secretKey lunaId scope h) as Hk.
  destruct (key_of SCOPE_SECRET_PURPOSE _ _ _ _ _) as [secret|]; cbn [mbind option_bind].
  - by erewrite bind_ran by exact Hk.
  - destruct Hk as (bufs & Hk & Hz). exists bufs. by erewrite bind_failed by exact Hk.
Qed.

(** One turn, from the array [open_entry] left. *)
Lemma reseal_one_run (draw : nat -> Z -> bytes) (newPublic newSecret : bytes) (lunaId scope : jstr) (secret : bytes)
    (h : heap) :
  let r := reseal_one draw newPublic newSecret lunaId scope (length (h_bufs h)) (grown h [secret] []) in
  match sealScopeSecret draw secret newPublic lunaId scope with
  | Err e => r.1 = Err e
  | Ok sealed =>
      (exists bufs, r.2 = grown h bufs [] /\ Forall all_zero bufs)
      /\ r.1 = if bool_decide (key_of SCOPE_SECRET_PURPOSE SEAL_SECRET_LEN sealed newSecret lunaId scope = Some secret)
               then Ok {| rc_scope := scope; rc_sealed := toBase64 sealed |}
               else throw RESEAL_CHECK_FAILED
  end.
Proof.
  intros r. unfold r, reseal_one. clear r. set (n := length (h_bufs h)).
  pose proof (read_grown h [secret] [] 0 secret eq_refl) as Hr. rewrite Nat.add_0_r in Hr. fold n in Hr.
  erewrite bind_ran by exact Hr. rewrite lift_bind.
  destruct (sealScopeSecret draw secret newPublic lunaId scope) as [sealed|e]; [|done].
  pose proof (openKey_run SCOPE_SECRET_PURPOSE SEAL_SECRET_LEN sealed newSecret lunaId scope (grown h [secret] [])) as Hk.
  destruct (key_of SCOPE_SECRET_PURPOSE _ _ _ _ _) as [again|].
  - rewrite grown_grown in Hk. cbn [app grown h_bufs] in Hk. rewrite length_app in Hk. cbn [length] in Hk. fold n in Hk.
    erewrite bind_ran; [|eapply catch_ran; unfold fmap, buffers_fmap, openScopeSecret; rewrite Hk; reflexivity].
    cbn beta iota. erewrite bind_ran.
    2:{ unfold fmap, buffers_fmap. unfold n. rewrite (read_grown h [secret; again] [] 1 again eq_refl). reflexivity. }
    cbv zeta. pose proof (fill0_grown h [secret; again] [] 0) as E0. rewrite Nat.add_0_r in E0. fold n in E0.
    erewrite bind_ran by exact E0. cbn [alter list_alter]. unfold n. erewrite bind_ran by apply fill0_grown.
    cbn [alter list_alter]. unfold bytesEqual. destruct (bool_decide_reflect (again = secret)) as [->|Hne]; cbn [negb].
    + rewrite bool_decide_eq_true_2 by done. split; [|done]. eexists. split; [reflexivity|].
      repeat (constructor; [apply zeros_zero|]). constructor.
    + rewrite bool_decide_eq_false_2 by congruence. split; [|done]. eexists. split; [reflexivity|].
      repeat (constructor; [apply zeros_zero|]). constructor.
  - destruct Hk as (bufs & Hk & Hz). rewrite grown_grown in Hk.
    erewrite bind_ran; [|erewrite catch_failed; [reflexivity|]; unfold fmap, buffers_fmap, openScopeSecret; rewrite Hk; reflexivity].
    erewrite bind_ran by reflexivity. cbv zeta. cbn [app].
    pose proof (fill0_grown h (secret :: bufs) [] 0) as E0. rewrite Nat.add_0_r in E0. fold n in E0.
    erewrite bind_ran by exact E0. cbn [alter list_alter]. erewrite bind_ran by reflexivity. cbn [negb].
    rewrite bool_decide_eq_false_2 by done. split; [|done]. eexists. split; [reflexivity|].
    constructor; [apply zeros_zero | done].
Qed.

(** What one turn may add to the result. *)
Definition resealed (newSecret : bytes) (lunaId : jstr) (o : jstr * bytes) (r : rescoped) : Prop :=
  rc_scope r = o.1 /\ exists sealed, rc_sealed r = toBase64 sealed
    /\ key_of SCOPE_SECRET_PURPOSE SEAL_SECRET_LEN sealed newSecret lunaId o.1 = Some o.2.

Lemma reseal_entries_run (oldSecret newPublic newSecret : bytes) (lunaId : jstr) (entries : list value) :
  forall draw out h,
  match reseal_entries draw oldSecret newPublic newSecret lunaId entries out h with
  | (Ok res, h') =>
      exists new bufs, res = out ++ new /\ h' = grown h bufs [] /\ Forall all_zero bufs
        /\ Forall2 (resealed newSecret lunaId) (omap (openable oldSecret lunaId) entries) new
  | (Err e, _) =>
      exists i scope secret, (scope, secret) ∈ omap (openable oldSecret lunaId) entries
        /\ (sealScopeSecret (draw i) secret newPublic lunaId scope = Err e
            \/ (e = EError (js RESEAL_CHECK_FAILED) /\ exists sealed,
                  sealScopeSecret (draw i) secret newPublic lunaId scope = Ok sealed
                  /\ key_of SCOPE_SECRET_PURPOSE SEAL_SECRET_LEN sealed newSecret lunaId scope <> Some secret))
  end.
Proof.
  induction entries as [|entry entries IH]; intros draw out h; cbn [reseal_entries omap list_omap].
  { exists [], []. rewrite app_nil_r, grown_nil. split_and!; [done | done | constructor | constructor]. }
  pose proof (open_entry_run oldSecret lunaId entry h) as Ho.
  destruct (openable oldSecret lunaId entry) as [[scope secret]|].
  - erewrite bind_ran by exact Ho. cbn beta iota.
    pose proof (reseal_one_run (draw 0%nat) newPublic newSecret lunaId scope secret h) as Hr. cbv zeta in Hr.
    destruct (reseal_one _ _ _ _ _ _ _) as [r1 h1] eqn:E. cbn [fst snd] in Hr.
    destruct (sealScopeSecret (draw 0%nat) secret newPublic lunaId scope) as [sealed|e] eqn:Hs.
    2:{ subst r1. erewrite bind_failed by exact E. exists 0%nat, scope, secret. split; [by left | by left]. }
    destruct Hr as ((bufs & -> & Hz) & ->). destruct (bool_decide_reflect (key_of SCOPE_SECRET_PURPOSE SEAL_SECRET_LEN
      sealed newSecret lunaId scope = Some secret)) as [Hk|Hk].
    2:{ erewrite bind_failed by exact E. exists 0%nat, scope, secret. split; [by left|]. right. split; [done|]. by exists sealed. }
    erewrite bind_ran by exact E. specialize (IH (fun i => draw (S i)) (out ++ [{| rc_scope := scope; rc_sealed := toBase64 sealed |}])
      (grown h bufs [])). destruct (reseal_entries _ _ _ _ _ _ _ _) as [[res|e] h2].
    + destruct IH as (new & bufs' & -> & -> & Hz' & Hf). exists ({| rc_scope := scope; rc_sealed := toBase64 sealed |} :: new), (bufs ++ bufs').
      rewrite <- app_assoc, grown_grown. split_and!; [done | done | by apply Forall_app |].
      constructor; [|done]. split; [done|]. by exists sealed.
    + destruct IH as (i & sc & se & Hin & Hor). exists (S i), sc, se. split; [by right | done].
  - destruct Ho as (bufs & Ho & Hz). erewrite bind_ran by exact Ho. cbn beta iota.
    specialize (IH (fun i => draw (S i)) out (grown h bufs [])). destruct (reseal_entries _ _ _ _ _ _ _ _) as [[res|e] h2].
    + destruct IH as (new & bufs' & -> & -> & Hz' & Hf). exists new, (bufs ++ bufs').
      rewrite grown_grown. split_and!; [done | done | by apply Forall_app | done].
    + destruct IH as (i & sc & se & Hin & Hor). exists (S i), sc, se. by split.
Qed.
End Reseal.

Lemma openable_length `{N : Noble} `{JT : JsText} (secretKey : bytes) (lunaId : jstr) (entry : value) scope secret :
  openable secretKey lunaId entry = Some (scope, secret) -> len secret = SEAL_SECRET_LEN.
Proof.
  unfold openable. intros (v & _ & (sealed & _ & (sv & _ & (sc & _ & (s & Hk & [= -> ->])%bind_Some)%bind_Some)%bind_Some)%bind_Some)%bind_Some.
  unfold key_of in Hk. apply bind_Some in Hk as (p & _ & Hp). by destruct (Z.eqb_spec (len p) SEAL_SECRET_LEN); simplify_eq.
Qed.

(** What a run of [with_keys] is, on the arrays. *)
Lemma with_keys_run `{N : Noble} {A} (entropy : bytes) (lunaId : jstr) (f : user_keys -> buffers A) (c : client unit) :
  let h := cl_heap c in
  with_keys entropy lunaId (fun k => on_heap (f k)) c
  = match derive entropy lunaId with
    | Err e => (Settled (Err e), c)
    | Ok k =>
        let '(r, h1) := f k (grown h [uk_sealSecret k; uk_selfKey k; uk_authSecret k] []) in
        (Settled r, c <| cl_heap := (fill_all [length (h_bufs h); length (h_bufs h) + 1; length (h_bufs h) + 2]%nat h1).2 |>)
    end.
Proof.
  destruct c as [h rs ab lo lg]. cbv zeta. cbn [cl_heap]. unfold with_keys, mbind, net_bind, on_heap at 1. cbn [cl_heap].
  pose proof (derive_secrets_run entropy lunaId h) as Hd. cbv zeta in Hd. rewrite Hd.
  destruct (derive entropy lunaId) as [k|e]; [|done].
  unfold ensure, on_heap. cbn. by destruct (f k _) as [r h1].
Qed.

(** ** Replacements *)

Lemma compareBytes_flip (a b : bytes) : compareBytes b a = - compareBytes a b.
Proof.
  revert b. induction a as [|x a IH]; intros [|y b]; cbn [compareBytes]; try (unfold len; cbn; lia).
  rewrite (Z.eqb_sym y x). destruct (x =? y); [apply IH | lia].
Qed.

Lemma compareBytes_zero (a b : bytes) : compareBytes a b = 0 -> a = b.
Proof.
  revert b. induction a as [|x a IH]; intros [|y b]; cbn [compareBytes]; try (unfold len; cbn [length]; lia); [done|].
  destruct (Z.eqb_spec x y) as [->|]; [|lia]. intros E. f_equal. by apply IH.
Qed.

Lemma compareBytes_trans (a b c : bytes) : compareBytes a b <= 0 -> compareBytes b c <= 0 -> compareBytes a c <= 0.
Proof.
  revert b c. induction a as [|x a IH]; intros [|y b] [|z c]; cbn [compareBytes]; try (unfold len; cbn [length]; lia).
  destruct (Z.eqb_spec x y), (Z.eqb_spec y z), (Z.eqb_spec x z); subst; try lia. apply IH.
Qed.

(** Two sorted lists of the same items, no two of one scope, are the same list. *)
Lemma sort_items_perm (l l' : list (bytes * bytes)) : Permutation l l' -> NoDup (map fst l) ->
  js_sort (fun a b => compareBytes a.1 b.1) l = js_sort (fun a b => compareBytes a.1 b.1) l'.
Proof.
  intros Hp Hnd. set (cmp := fun a b : bytes * bytes => compareBytes a.1 b.1).
  assert (Hs : forall k, StronglySorted (fun a b => cmp a b <= 0) (js_sort cmp k)).
  { intros k. apply (js_sort_sorted cmp (fun _ => True)); [| |by apply Forall_true]; unfold cmp.
    - intros x y _ _. rewrite (compareBytes_flip x.1). lia.
    - intros x y z _ _ _. apply compareBytes_trans. }
  apply (StronglySorted_unique_strong (fun a b => cmp a b <= 0)); [|apply Hs..|by rewrite !js_sort_perm].
  intros x y Hx Hy H1 H2. rewrite js_sort_perm in Hx. rewrite js_sort_perm, <- Hp in Hy.
  assert (E : x.1 = y.1) by (apply compareBytes_zero; unfold cmp in *; rewrite (compareBytes_flip x.1) in H2; lia).
  apply list_elem_of_lookup in Hx as [i Hi], Hy as [j Hj].
  assert (i = j) as ->; [|congruence].
  apply (NoDup_lookup (map fst l) i j x.1); [done | |]; rewrite list_lookup_fmap; [by rewrite Hi | by rewrite Hj, E].
Qed.

Section Replacements.
Context `{N : Noble}.

Definition item_of (e : rescoped) : thrown (bytes * bytes) :=
  sealed ← base64_bytes (rc_sealed e); Ok (encode (rc_scope e), sealed).

Lemma item_error (e : rescoped) (x : error) : item_of e = Err x -> x = InvalidCharacterError.
Proof. unfold item_of, base64_bytes. destruct (atob (rc_sealed e)); [done|]. by intros [= <-]. Qed.

Lemma items_perm (l l' : list rescoped) : Permutation l l' ->
  match map_thrown item_of l, map_thrown item_of l' with
  | Ok a, Ok b => Permutation a b
  | Err x, Err y => x = y
  | _, _ => False
  end.
Proof.
  assert (Herr : forall l x, map_thrown item_of l = Err x -> x = InvalidCharacterError).
  { clear. intros l. induction l as [|e l IH]; intros x; cbn [map_thrown]; [done|].
    destruct (item_of e) as [i|y] eqn:E; cbn [mbind result_bind]; [|intros [= <-]; by apply item_error in E].
    destruct (map_thrown item_of l); cbn; [done|]. intros [= <-]. by apply IH. }
  induction 1 as [|e l l' _ IH|e e' l|l1 l2 l3 _ IH1 _ IH2]; cbn [map_thrown].
  - done.
  - destruct (item_of e); [|done]. cbn. destruct (map_thrown item_of l), (map_thrown item_of l'); cbn; try done.
    by constructor.
  - destruct (item_of e) as [i|x] eqn:Ei, (item_of e') as [i'|x'] eqn:Ei', (map_thrown item_of l) as [r|y] eqn:Er;
      cbn; try done; try constructor;
      repeat match goal with
      | H : item_of _ = Err _ |- _ => apply item_error in H
      | H : map_thrown _ _ = Err _ |- _ => apply Herr in H
      end; congruence.
  - destruct (map_thrown item_of l1), (map_thrown item_of l2), (map_thrown item_of l3); try done; [by etrans | congruence].
Qed.

Lemma rescopedHash_perm (l l' : list rescoped) : Permutation l l' -> NoDup (map (fun e => encode (rc_scope e)) l) ->
  rescopedHash l = rescopedHash l'.
Proof.
  intros Hp Hnd. unfold rescopedHash. change (fun e => sealed ← base64_bytes (rc_sealed e); Ok (encode (rc_scope e), sealed)) with item_of.
  pose proof (items_perm l l' Hp) as Hi.
  destruct (map_thrown item_of l) as [a|x] eqn:Ha, (map_thrown item_of l') as [b|y]; try done; [|by subst].
  cbn [mbind result_bind]. cbv zeta. rewrite (sort_items_perm a b Hi); [done|].
  apply map_thrown_ok in Ha. replace (map fst a) with (map (fun e => encode (rc_scope e)) l); [done|].
  clear Hi Hp Hnd. induction Ha as [|e i l0 a0 He _ IH]; [done|]. cbn [map]. f_equal; [|done].
  unfold item_of in He. apply bind_ok in He as (s & _ & [= <-]). done.
Qed.
End Replacements.

Lemma message_fields_ok `{NB : NobleBytes} (b : replacement) (challenge sp ap ss hash : bytes) :
  len challenge < 2 ^ 32 ->
  Z.of_nat (length (rp_seal_public b)) < 2 ^ 30 -> Z.of_nat (length (rp_auth_public b)) < 2 ^ 30 ->
  base64_bytes (rp_seal_public b) = Ok sp -> base64_bytes (rp_auth_public b) = Ok ap ->
  rescopedHash (rp_rescoped b) = Ok hash ->
  Forall field_ok [(js "challenge", challenge); (js "seal_public", sp); (js "auth_public", ap);
                   (js "self_sealed_hash", packId ss); (js "exposed", [if rp_exposed b then 1 else 0]);
                   (js "rescoped_hash", hash)].
Proof.
  intros Hc H1 H2 Hsp%base64_bytes_length Hap%base64_bytes_length Hh.
  unfold rescopedHash in Hh. apply bind_ok in Hh as (items & _ & [= <-]).
  assert (Hp : forall x, len (packId x) = 32) by (intros x; apply sha256_len).
  assert (B1 : len sp < 2 ^ 32) by (unfold len; lia). assert (B2 : len ap < 2 ^ 32) by (unfold len; lia).
  assert (B3 : forall x, len (packId x) < 2 ^ 32) by (intros x; by rewrite Hp).
  repeat (apply Forall_cons; split); try apply Forall_nil_2; (apply label_ok; [vm_compute; reflexivity|]);
    done || apply B3.
Qed.

(** ** Theorems *)

(** The whole change: its entries, what it sent, and what becomes of the arrays it holds itself - the phrase's keys, the
    secrets that are moved: every one is zeroed.  Arrays that live inside the primitives are not in this heap. *)
Lemma resealScopes_spec `{NB : NobleBytes} {NS : NobleSeal} `{JT : JsText} (draw : nat -> nat -> Z -> bytes)
    (oldEntropy : bytes) (lunaId : jstr) (newPublic newSecret : bytes) (c : client unit) :
  match resealScopes draw oldEntropy lunaId newPublic newSecret c with
  | (Settled (Ok out), c') =>
      exists k rp rest reply entries, derive oldEntropy lunaId = Ok k
        /\ cl_replies c = rp :: rest /\ rp_json rp = Ok reply
        /\ opt_prop "scopes" (Some reply) = Some (JArr entries)
        /\ Forall2 (resealed newSecret lunaId) (omap (openable (uk_sealSecret k) lunaId) (map Some entries)) out
        /\ cl_log c' = cl_log c ++ [Sent (GetJson (PHRASE_PATH ++ js "/scopes"))]
        /\ tidy (length (h_bufs (cl_heap c))) [] (cl_heap c')
  | (Settled (Err e), _) =>
      e = EError (js unreadable) \/ derive oldEntropy lunaId = Err e
      \/ exists i scope secret, sealScopeSecret (draw i) secret newPublic lunaId scope = Err e
           \/ (e = EError (js RESEAL_CHECK_FAILED)
               /\ ~ (sealing_keys newSecret newPublic /\ forall k n, 0 <= n -> len (draw i k n) = n))
  | (Waiting, c') => cl_replies c = []
  | (OutOfFuel, _) => False
  end.
Proof.
  unfold resealScopes. unfold mbind at 1, net_bind, attempt, getJson.
  unfold mbind at 1, net_bind, await. cbn [cl_replies].
  destruct c as [h rs ab lo lg]. cbn -[with_keys opt_prop]. destruct rs as [|rp rest]; [done|].
  unfold check. destruct (rp_json rp) as [reply|e] eqn:Hrp; cbn -[with_keys opt_prop]; [|by left].
  destruct (opt_prop "scopes" (Some reply)) as [[| | | |entries|]|] eqn:Hsc; try (by left).
    rewrite with_keys_run. cbv zeta. cbn [cl_heap].
  destruct (derive oldEntropy lunaId) as [k|e] eqn:Hk; [|by right; left].
  set (h0 := grown h [uk_sealSecret k; uk_selfKey k; uk_authSecret k] []).
  pose proof (reseal_entries_run (uk_sealSecret k) newPublic newSecret lunaId (map Some entries) draw [] h0) as Hr.
  destruct (reseal_entries draw _ _ _ _ _ _ h0) as [[out|e] h1].
  - destruct Hr as (new & bufs & -> & -> & Hz & Hf). unfold h0. rewrite grown_grown. cbn [app].
    cbn [cl_heap]. rewrite fill_three. exists k, rp, rest, reply, entries. split_and!; try done.
    cbn [cl_heap]. apply (tidy_grown _ _ []); [apply tidy_start|].
    intros i b Hb. right. eapply Forall_lookup_1; [|exact Hb]. repeat (constructor; [apply zeros_zero|]). done.
  - destruct Hr as (i & scope & secret & Hin & [He|(-> & sealed & Hs & Hne)]); right; right; exists i, scope, secret; [by left|].
    right. split; [done|]. intros [Hkeys Hdraw]. apply Hne.
    apply list_elem_of_omap in Hin as (entry & _ & Ho). apply openable_length in Ho.
    eapply (sealed_scope_opens newSecret newPublic secret sealed (draw i)); done.
Qed.

(** C31: a change of phrase moves every private scope the old phrase opens.  When re-sealing succeeds, the result has one
    entry for each scope of Luna's list that the old phrase opens, in order, and each opens with the new phrase's
    key to the same secret; nothing was sent but the request for the list.  It fails only when the list cannot be
    read, a key cannot be derived or sealed to, or a copy does not open again, which with a proper key pair cannot
    happen. *)
Theorem reseal_moves_every_scope `{NB : NobleBytes} {NS : NobleSeal} `{JT : JsText} (draw : nat -> nat -> Z -> bytes)
    (oldEntropy : bytes) (lunaId : jstr) (newPublic newSecret : bytes) (c : client unit) :
  match resealScopes draw oldEntropy lunaId newPublic newSecret c with
  | (Settled (Ok out), c') =>
      exists k rp rest reply entries, derive oldEntropy lunaId = Ok k
        /\ cl_replies c = rp :: rest /\ rp_json rp = Ok reply
        /\ opt_prop "scopes" (Some reply) = Some (JArr entries)
        /\ Forall2 (resealed newSecret lunaId) (omap (openable (uk_sealSecret k) lunaId) (map Some entries)) out
        /\ cl_log c' = cl_log c ++ [Sent (GetJson (PHRASE_PATH ++ js "/scopes"))]
  | (Settled (Err e), _) =>
      e = EError (js unreadable) \/ derive oldEntropy lunaId = Err e
      \/ exists i scope secret, sealScopeSecret (draw i) secret newPublic lunaId scope = Err e
           \/ (e = EError (js RESEAL_CHECK_FAILED)
               /\ ~ (sealing_keys newSecret newPublic /\ forall k n, 0 <= n -> len (draw i k n) = n))
  | (Waiting, c') => cl_replies c = []
  | (OutOfFuel, _) => False
  end.
Proof.
  pose proof (resealScopes_spec draw oldEntropy lunaId newPublic newSecret c) as Hr.
  destruct (resealScopes _ _ _ _ _ c) as [[[out|e]| |] c']; try done.
  destruct Hr as (k & rp & rest & reply & entries & Hr). exists k, rp, rest, reply, entries. tauto.
Qed.

(** A replacement's signature covers every value of the request, and not their order.  Two requests with
    the same signed message have the same challenge, keys, "exposed" answer and hashes of the sealed
    signing key and of the scopes; and the hash of the scopes is the same for any order of the list,
    so long as no scope is listed twice. *)
Theorem replacement_is_covered `{NB : NobleBytes} (challenge challenge' msg : bytes) (b b' : replacement) :
  len challenge < 2 ^ 32 -> len challenge' < 2 ^ 32 ->
  Forall (fun r => Z.of_nat (length (rp_seal_public r)) < 2 ^ 30 /\ Z.of_nat (length (rp_auth_public r)) < 2 ^ 30) [b; b'] ->
  replaceMessage challenge b = Ok msg -> replaceMessage challenge' b' = Ok msg ->
  (challenge = challenge' /\ base64_bytes (rp_seal_public b) = base64_bytes (rp_seal_public b')
   /\ base64_bytes (rp_auth_public b) = base64_bytes (rp_auth_public b') /\ rp_exposed b = rp_exposed b'
   /\ packId <$> base64_bytes (rp_self_sealed b) = packId <$> base64_bytes (rp_self_sealed b')
   /\ rescopedHash (rp_rescoped b) = rescopedHash (rp_rescoped b'))
  /\ forall l, Permutation (rp_rescoped b) l -> NoDup (map (fun e => encode (rc_scope e)) (rp_rescoped b)) ->
       rescopedHash l = rescopedHash (rp_rescoped b).
Proof.
  intros Hc Hc' Hsizes Hm Hm'. split; [|intros l Hp Hnd; symmetry; by apply rescopedHash_perm].
  unfold replaceMessage in Hm, Hm'.
  apply bind_ok in Hm as (sp & Hsp & (ap & Hap & (ss & Hss & (hash & Hh & [= <-])%bind_ok)%bind_ok)%bind_ok).
  apply bind_ok in Hm' as (sp' & Hsp' & (ap' & Hap' & (ss' & Hss' & (hash' & Hh' & E)%bind_ok)%bind_ok)%bind_ok).
  symmetry in E. injection E as E. apply canonical_inj in E.
  - remember (packId ss) as p1 eqn:E1. remember (packId ss') as p2 eqn:E2.
    injection E as -> -> -> -> He ->. rewrite Hsp, Hsp', Hap, Hap', Hss, Hss', Hh, Hh'. cbn [fmap result_fmap].
    rewrite <- E1, <- E2. split_and!; try done. by destruct (rp_exposed b), (rp_exposed b').
  - rewrite !Forall_cons in Hsizes. destruct Hsizes as [[H1 H2] _].
    eapply (message_fields_ok b); eassumption.
  - rewrite !Forall_cons in Hsizes. destruct Hsizes as [_ [[H1 H2] _]].
    eapply (message_fields_ok b'); eassumption.
Qed.

(** ** The statements on a concrete list *)

#[local] Existing Instances Toy.noble Toy.noble_bytes Toy.noble_seal PrivateSample.texts.

Module PhraseSample.
Import Sample PrivateSample.
Definition e1 : rescoped := {| rc_scope := js "a"; rc_sealed := js "AQ==" |}.
Definition e2 : rescoped := {| rc_scope := js "b"; rc_sealed := js "AgM=" |}.
Definition body : replacement := {|
  rp_seal_public := js "AQID"; rp_auth_public := js "BA=="; rp_self_sealed := js "BQ=="; rp_exposed := true;
  rp_rescoped := [e2; e1] |}.
Definition message : bytes := default [] (to_option (replaceMessage [1; 2; 3] body)).
Definition entry (b : bytes) : json :=
  JObj [(js "scope", JStr scope); (js "sealed_scope_secret", JStr (toBase64 b))].
Definition scopes : json := JObj [(js "scopes", JArr [
  entry (sr_sealedScopeSecret record); entry [1; 2]; JNull])].
Definition start : client unit := {|
  cl_heap := empty_heap;
  cl_replies := [{| rp_json := Ok scopes; rp_ok := Ok true; rp_body := Ok []; rp_aborted := false |}];
  cl_aborted := false; cl_locals := tt; cl_log := [] |}.
Definition next : user_keys := default owner (to_option (derive (replicate 32 16) luna)).
End PhraseSample.

(** Of the three entries the old phrase opens one, and the new phrase opens what comes out. *)
Example one_scope_moves :
  match (resealScopes (fun _ => PrivateSample.draw) PrivateSample.entropy PrivateSample.luna
           (uk_sealPublic PhraseSample.next) (uk_sealSecret PhraseSample.next) PhraseSample.start).1 with
  | Settled (Ok [r]) =>
      match base64_bytes (rc_sealed r) with
      | Ok sealed => key_of SCOPE_SECRET_PURPOSE SEAL_SECRET_LEN sealed (uk_sealSecret PhraseSample.next)
                       PrivateSample.luna (rc_scope r) = Some (kp_secret PrivateSample.pair)
      | Err _ => False
      end
  | _ => False
  end.
Proof. vm_compute. reflexivity. Qed.

Lemma reseal_moves_every_scope_witness :
  exists out c', resealScopes (fun _ => PrivateSample.draw) PrivateSample.entropy PrivateSample.luna
      (uk_sealPublic PhraseSample.next) (uk_sealSecret PhraseSample.next) PhraseSample.start = (Settled (Ok out), c')
    /\ length out = 1%nat /\ cl_log c' = [Sent (GetJson (PHRASE_PATH ++ js "/scopes"))].
Proof.
  pose proof (reseal_moves_every_scope (fun _ => PrivateSample.draw) PrivateSample.entropy PrivateSample.luna
    (uk_sealPublic PhraseSample.next) (uk_sealSecret PhraseSample.next) PhraseSample.start) as Hr.
  destruct (resealScopes _ _ _ _ _ _) as [r c'] eqn:E.
  assert (Hok : exists out, r = Settled (Ok out) /\ length out = 1%nat)
    by (vm_compute in E; injection E as <- _; by eexists).
  destruct Hok as (out & -> & Hl). exists out, c'. split; [reflexivity|]. split; [exact Hl|].
  destruct Hr as (k & rp & rest & reply & entries & _ & _ & _ & _ & _ & Hlog). exact Hlog.
Defined.

(** A public key that is not the secret key's stops the change. *)
Example wrong_pair_is_refused :
  (resealScopes (fun _ => PrivateSample.draw) PrivateSample.entropy PrivateSample.luna
     (uk_sealPublic PhraseSample.next) (uk_sealSecret PrivateSample.owner) PhraseSample.start).1
  = Settled (throw RESEAL_CHECK_FAILED).
Proof. vm_compute. reflexivity. Qed.

Example typed_words :
  splitPhraseText (js "Luna recovery phrase
1. Word
#2) word,
keep it") = [js "word"; js "word"].
Proof. vm_compute. reflexivity. Qed.

Lemma replacement_is_covered_witness :
  replaceMessage [1; 2; 3] PhraseSample.body = Ok PhraseSample.message
  /\ rescopedHash [PhraseSample.e1; PhraseSample.e2] = rescopedHash [PhraseSample.e2; PhraseSample.e1].
Proof.
  assert (Hm : replaceMessage [1; 2; 3] PhraseSample.body = Ok PhraseSample.message) by (vm_compute; reflexivity).
  split; [exact Hm|].
  apply (replacement_is_covered [1; 2; 3] [1; 2; 3] PhraseSample.message PhraseSample.body PhraseSample.body);
    [reflexivity | reflexivity | repeat constructor | exact Hm | exact Hm | apply perm_swap |].
  apply (bool_decide_unpack _). vm_compute. exact I.
Defined.
