(* ===== verification/PackReader.v ===== *)
(** * Opened-pack cache: [makePackReaderWith] of [shared/ui/lib/cloud/cloudFormat.js]

    The state of one reader, its operations as functions of it, and a step relation that interleaves
    calls, settling promises, their continuations, releases and the disposal in any order.  An
    [await entry.opening] cuts the call in two: [call] leaves a waiter, [resume] continues it. *)

From S2P Require Import Prelude JsString Bytes BackupCrypto Buffers CloudFormat.

(** The promise [entry.opening]. *)
Inductive opening :=
| Opening
| Opened (p : nat)
| OpenFailed (e : error).

(** [CacheEntry]; [ce_resolved] says that its [disposed] promise is resolved. *)
Record cache_entry := {
  ce_id : jstr;
  ce_opening : opening;
  ce_leases : nat;
  ce_evicted : bool;
  ce_disposeStarted : bool;
  ce_resolved : bool;
}.

#[export] Instance eta_cache_entry : Settable cache_entry := fun c =>
  {| ce_id := ce_id c; ce_opening := ce_opening c; ce_leases := ce_leases c;
     ce_evicted := ce_evicted c; ce_disposeStarted := ce_disposeStarted c; ce_resolved := ce_resolved c |}.

(** What a call returns: the entry and its pack, and the closure's [released]. *)
Record lease := { le_entry : nat; le_pack : nat; le_released : bool }.

#[export] Instance eta_lease : Settable lease := fun l =>
  {| le_entry := le_entry l; le_pack := le_pack l; le_released := le_released l |}.

(** Entries are named by the order of their creation. *)
Record reader := {
  rd_made : list cache_entry;
  rd_cache : list (jstr * nat);       (* the Map, oldest first *)
  rd_entries : list nat;              (* the Set *)
  rd_disposed : bool;
  rd_disposal : option (list nat);    (* the promises the disposal waits for *)
  rd_waiters : list nat;              (* calls that await an opening *)
  rd_leases : list lease;
  rd_heap : heap;
}.

#[export] Instance eta_reader : Settable reader := fun r =>
  {| rd_made := rd_made r; rd_cache := rd_cache r; rd_entries := rd_entries r;
     rd_disposed := rd_disposed r; rd_disposal := rd_disposal r; rd_waiters := rd_waiters r;
     rd_leases := rd_leases r; rd_heap := rd_heap r |}.

Definition new_reader (h : heap) : reader :=
  {| rd_made := []; rd_cache := []; rd_entries := []; rd_disposed := false; rd_disposal := None;
     rd_waiters := []; rd_leases := []; rd_heap := h |}.

Definition upd_entry (e : nat) (f : cache_entry -> cache_entry) (s : reader) : reader :=
  s <| rd_made ::= alter f e |>.

Section Reader.
Context `{N : Noble} (unwrapKey : bytes -> thrown bytes) (keep : nat).

Definition unused (c : cache_entry) : bool :=
  ce_evicted c && Nat.eqb (ce_leases c) 0 && negb (ce_disposeStarted c).

Definition disposeWhenUnused (e : nat) (s : reader) : reader :=
  match rd_made s !! e with
  | Some c => if unused c then upd_entry e (fun c => c <| ce_disposeStarted := true |>) s else s
  | None => s
  end.

(** The handlers behind [entry.opening.then(...)] of [disposeWhenUnused]. *)
Definition run_dispose (e : nat) (s : reader) : reader :=
  match rd_made s !! e with
  | Some c =>
      let s := match ce_opening c with
               | Opened p => s <| rd_heap := (pack_dispose p (rd_heap s)).2 |>
               | _ => s
               end in
      upd_entry e (fun c => c <| ce_resolved := true |>)
        (s <| rd_entries ::= filter (fun x => x <> e) |>)
  | None => s
  end.

Definition evictOldest (s : reader) : reader :=
  match rd_cache s with
  | [] => s
  | (_, e) :: rest =>
      disposeWhenUnused e (upd_entry e (fun c => c <| ce_evicted := true |>) (s <| rd_cache := rest |>))
  end.

(** [while (cache.size > keep) evictOldest()], with the size of the cache as fuel. *)
Fixpoint evict_loop (fuel : nat) (s : reader) : reader :=
  match fuel with
  | O => s
  | S fuel => if Nat.ltb keep (length (rd_cache s)) then evict_loop fuel (evictOldest s) else s
  end.

Definition new_entry (id : jstr) : cache_entry :=
  {| ce_id := id; ce_opening := Opening; ce_leases := 0; ce_evicted := false;
     ce_disposeStarted := false; ce_resolved := false |}.

Definition cached (id : jstr) (s : reader) : option nat :=
  snd <$> List.find (fun x => bool_decide (x.1 = id)) (rd_cache s).

Definition uncache (id : jstr) (s : reader) : reader :=
  s <| rd_cache ::= filter (fun x => x.1 <> id) |>.

(** The entry a call uses: the cached one, moved to the end, or a new one. *)
Definition take_entry (id : jstr) (s : reader) : nat * reader :=
  match cached id s with
  | Some e => (e, (uncache id s) <| rd_cache ::= fun l => l ++ [(id, e)] |>)
  | None =>
      let e := length (rd_made s) in
      (e, s <| rd_made ::= fun l => l ++ [new_entry id] |>
            <| rd_cache ::= fun l => l ++ [(id, e)] |>
            <| rd_entries ::= fun l => l ++ [e] |>)
  end.

(** [reader(idHex)] up to its [await]; a disposed reader throws. *)
Definition call (id : jstr) (s : reader) : reader :=
  if rd_disposed s then s
  else
    let '(e, s) := take_entry id s in
    let s := upd_entry e (fun c => c <| ce_leases ::= S |>) s in
    let s := evict_loop (length (rd_cache s)) s in
    s <| rd_waiters ::= fun l => l ++ [e] |>.

(** [getPack] settles: the pack is opened, or the opening fails. *)
Definition settle (e : nat) (got : thrown bytes) (s : reader) : reader :=
  match rd_made s !! e with
  | Some c =>
      match got with
      | Err err => upd_entry e (fun c => c <| ce_opening := OpenFailed err |>) s
      | Ok b =>
          let '(r, h) := openPackWith b (ce_id c) unwrapKey (rd_heap s) in
          upd_entry e (fun c => c <| ce_opening :=
              match r with Ok p => Opened p | Err err => OpenFailed err end |>) (s <| rd_heap := h |>)
      end
  | None => s
  end.

(** [entry.opening.catch(...)]: a failed opening leaves the cache. *)
Definition on_failed (e : nat) (s : reader) : reader :=
  match rd_made s !! e with
  | Some c => if bool_decide (cached (ce_id c) s = Some e) then uncache (ce_id c) s else s
  | None => s
  end.

Definition drop_lease (e : nat) (s : reader) : reader :=
  disposeWhenUnused e (upd_entry e (fun c => c <| ce_leases ::= pred |>) s).

(** The call after its [await]: the [w]-th waiter gets its lease, or throws. *)
Definition resume (w : nat) (s : reader) : reader :=
  match rd_waiters s !! w with
  | None => s
  | Some e =>
      match ce_opening <$> rd_made s !! e with
      | Some (Opened p) =>
          s <| rd_waiters ::= delete w |>
            <| rd_leases ::= fun l => l ++ [{| le_entry := e; le_pack := p; le_released := false |}] |>
      | Some (OpenFailed _) => drop_lease e (s <| rd_waiters ::= delete w |>)
      | _ => s
      end
  end.

(** [lease.chunk(idBytes)] *)
Definition lease_chunk (l : nat) (idBytes : bytes) (s : reader) : thrown (option nat) * reader :=
  match rd_leases s !! l with
  | Some x =>
      if le_released x then (damaged, s)
      else
        let '(r, h) := pack_chunk (le_pack x) idBytes (rd_heap s) in (r, s <| rd_heap := h |>)
  | None => (damaged, s)
  end.

(** [lease.release()] *)
Definition release (l : nat) (s : reader) : reader :=
  match rd_leases s !! l with
  | Some x =>
      if le_released x then s
      else drop_lease (le_entry x) (s <| rd_leases ::= alter (fun x => x <| le_released := true |>) l |>)
  | None => s
  end.

Definition dispose_entry (s : reader) (e : nat) : reader :=
  disposeWhenUnused e (upd_entry e (fun c => c <| ce_evicted := true |>) s).

(** [reader.dispose()] *)
Definition dispose (s : reader) : reader :=
  match rd_disposal s with
  | Some _ => s
  | None =>
      let pending := rd_entries s in
      let s := s <| rd_disposed := true |> <| rd_cache := [] |> in
      (foldl dispose_entry s pending) <| rd_disposal := Some pending |>
  end.

Definition settled (c : cache_entry) : Prop := ce_opening c <> Opening.

(** One step of a reader among its users and its network. *)
Inductive step (s : reader) : reader -> Prop :=
| step_call id : step s (call id s)
| step_settle e c got : rd_made s !! e = Some c -> ce_opening c = Opening -> step s (settle e got s)
| step_failed e c err : rd_made s !! e = Some c -> ce_opening c = OpenFailed err -> step s (on_failed e s)
| step_resume w e c : rd_waiters s !! w = Some e -> rd_made s !! e = Some c -> settled c ->
    step s (resume w s)
| step_run_dispose e c : rd_made s !! e = Some c -> ce_disposeStarted c = true ->
    ce_resolved c = false -> settled c -> step s (run_dispose e s)
| step_chunk l idBytes : step s (lease_chunk l idBytes s).2
| step_release l : step s (release l s)
| step_dispose : step s (dispose s).

Inductive reachable : reader -> Prop :=
| reachable_new h : heap_ok h -> reachable (new_reader h)
| reachable_step s s' : reachable s -> step s s' -> reachable s'.
End Reader.

(** [makePackReader] and [makePackReaderForVersions] differ in the unwrap step only. *)
Definition makePackReader_unwrap `{Noble} (backupKey : bytes) : bytes -> thrown bytes :=
  unwrapWithBackupKey backupKey.
Definition makePackReaderForVersions_unwrap `{Noble} (keysByVersion : list (Z * bytes)) : bytes -> thrown bytes :=
  unwrapWithAnyKey (newest_first keysByVersion).
