(* ===== verification/PackReaderFacts.v ===== *)
(** * Opened-pack cache: properties

    In every state a reader can reach: a lease that was not released has its pack, whole and open;
    the cache stays within its bound; and once the reader is disposed and its leases are back, every
    pack it opened has been cleared. *)

From S2P Require Import Prelude JsString Bytes BackupCrypto CryptoFacts Buffers CloudFormat CloudFacts PackReader.

(** ** Counting *)

Lemma filter_none {A} (P : A -> Prop) `{forall a, Decision (P a)} (l : list A) :
  (forall a, a ∈ l -> ~ P a) -> filter P l = [].
Proof.
  induction l as [|a l IH]; intros Hn; [done|]. rewrite filter_cons_False by (apply Hn; by left).
  apply IH. intros b Hb. apply Hn. by right.
Qed.

Definition waits (e : nat) (l : list nat) : nat := length (filter (fun x => x = e) l).
Definition held (e : nat) (l : list lease) : nat :=
  length (filter (fun x => le_entry x = e /\ le_released x = false) l).

#[local] Arguments waits : simpl never.
#[local] Arguments held : simpl never.

Lemma waits_app (e : nat) (a b : list nat) : waits e (a ++ b) = (waits e a + waits e b)%nat.
Proof. unfold waits. by rewrite filter_app, length_app. Qed.

Lemma held_app (e : nat) (a b : list lease) : held e (a ++ b) = (held e a + held e b)%nat.
Proof. unfold held. by rewrite filter_app, length_app. Qed.

Definition one (e i : nat) : nat := if decide (i = e) then 1%nat else 0%nat.

#[local] Arguments one : simpl never.

Lemma waits_one (e i : nat) : waits e [i] = one i e.
Proof. unfold waits, one. cbn. repeat case_decide; cbn; congruence. Qed.

Lemma waits_delete (w e i : nat) (l : list nat) :
  l !! w = Some i -> waits e l = (waits e (delete w l) + one i e)%nat.
Proof.
  intros Hw. rewrite <- (take_drop_middle l w i Hw) at 1. rewrite delete_take_drop.
  change (i :: drop (S w) l) with ([i] ++ drop (S w) l). rewrite !waits_app, waits_one. lia.
Qed.

Lemma held_release (k e : nat) (l : list lease) (x : lease) :
  l !! k = Some x -> le_released x = false ->
  held e l = (held e (alter (fun x => x <| le_released := true |>) k l) + one (le_entry x) e)%nat.
Proof.
  intros Hk Hr. rewrite <- (take_drop_middle l k x Hk).
  assert (Hlen : length (take k l) = k).
  { apply lookup_lt_Some in Hk. rewrite length_take. lia. }
  replace (alter _ k _) with (take k l ++ [x <| le_released := true |>] ++ drop (S k) l).
  - change (x :: drop (S k) l) with ([x] ++ drop (S k) l). rewrite !held_app.
    assert (E1 : held e [x] = one (le_entry x) e).
    { unfold held, one. cbn. repeat case_decide; cbn; done || naive_solver. }
    assert (E2 : held e [x <| le_released := true |>] = 0%nat).
    { unfold held. cbn. case_decide as Hd; [by destruct Hd|done]. }
    rewrite E1, E2. lia.
  - rewrite <- Hlen at 3. rewrite <- (Nat.add_0_r (length (take k l))), alter_app_r. done.
Qed.

(** ** The invariant *)

Record core (x : nat -> nat) (s : reader) : Prop := {
  c_ids : NoDup (map fst (rd_cache s));
  c_cache : forall id e, (id, e) ∈ rd_cache s ->
    exists c, rd_made s !! e = Some c /\ ce_id c = id /\ ce_evicted c = false;
  c_count : forall e c, rd_made s !! e = Some c ->
    ce_leases c = (waits e (rd_waiters s) + held e (rd_leases s) + x e)%nat;
  c_started : forall e c, rd_made s !! e = Some c -> ce_disposeStarted c = true ->
    ce_evicted c = true /\ ce_leases c = 0%nat;
  c_resolved : forall e c, rd_made s !! e = Some c -> ce_resolved c = true ->
    ce_disposeStarted c = true /\ settled c;
  c_pack : forall e c p, rd_made s !! e = Some c -> ce_opening c = Opened p ->
    exists pk, h_packs (rd_heap s) !! p = Some pk /\ pk_disposed pk = ce_resolved c;
  c_distinct : forall e e' c c' p, rd_made s !! e = Some c -> rd_made s !! e' = Some c' ->
    ce_opening c = Opened p -> ce_opening c' = Opened p -> e = e';
  c_lease : forall l, l ∈ rd_leases s -> le_released l = false ->
    exists c, rd_made s !! le_entry l = Some c /\ ce_opening c = Opened (le_pack l);
  c_live : forall e c, rd_made s !! e = Some c -> ce_resolved c = false -> e ∈ rd_entries s;
  c_valid : forall e, e ∈ rd_entries s -> is_Some (rd_made s !! e);
  c_waits : forall e, e ∈ rd_waiters s -> is_Some (rd_made s !! e);
}.

(** Evicted entries nobody uses are on their way out, the listed ones aside. *)
Definition used_ok (except : list nat) (s : reader) : Prop :=
  forall e c, rd_made s !! e = Some c -> e ∉ except ->
    ce_evicted c = true -> ce_leases c = 0%nat -> ce_disposeStarted c = true.

Definition gone (s : reader) : Prop :=
  rd_disposed s = true -> rd_cache s = [] /\ forall e c, rd_made s !! e = Some c -> ce_evicted c = true.

Definition no_extra (_ : nat) : nat := 0%nat.

Lemma alter_lookup {A} (f : A -> A) (e i : nat) (l : list A) :
  alter f e l !! i = (if decide (i = e) then f else id) <$> l !! i.
Proof.
  case_decide as H.
  - subst. apply list_lookup_alter_eq.
  - rewrite list_lookup_alter_ne by done. by destruct (l !! i).
Qed.

Lemma upd_lookup (e i : nat) (f : cache_entry -> cache_entry) (s : reader) :
  rd_made (upd_entry e f s) !! i = (if decide (i = e) then f else id) <$> rd_made s !! i.
Proof. apply alter_lookup. Qed.

Lemma upd_some (e i : nat) (f : cache_entry -> cache_entry) (s : reader) (c : cache_entry) :
  rd_made (upd_entry e f s) !! i = Some c <->
  (i <> e /\ rd_made s !! i = Some c) \/ (i = e /\ exists c0, rd_made s !! e = Some c0 /\ c = f c0).
Proof.
  rewrite upd_lookup. case_decide as H.
  - subst. destruct (rd_made s !! e) as [c0|]; cbn; split.
    + intros [= <-]. right. eauto.
    + intros [[]|(_ & ? & [= <-] & ->)]; done.
    + done.
    + intros [[]|(_ & ? & ? & ?)]; done.
  - destruct (rd_made s !! i) as [c0|]; cbn; split; try (by intros [= <-]; left);
      intros [[_ ?]|[? _]]; done.
Qed.

(** Everything but the list of entries. *)
Lemma upd_frame (e : nat) (f : cache_entry -> cache_entry) (s : reader) :
  rd_cache (upd_entry e f s) = rd_cache s /\ rd_entries (upd_entry e f s) = rd_entries s
  /\ rd_disposed (upd_entry e f s) = rd_disposed s /\ rd_disposal (upd_entry e f s) = rd_disposal s
  /\ rd_waiters (upd_entry e f s) = rd_waiters s /\ rd_leases (upd_entry e f s) = rd_leases s
  /\ rd_heap (upd_entry e f s) = rd_heap s.
Proof. done. Qed.

(** Changing one entry keeps the invariant when the new entry meets it. *)
Lemma core_upd (x y : nat -> nat) (e : nat) (f : cache_entry -> cache_entry) (s : reader) :
  core x s ->
  (forall i, i <> e -> x i = y i) ->
  (forall c, rd_made s !! e = Some c ->
     ce_id (f c) = ce_id c /\ ce_opening (f c) = ce_opening c /\ ce_resolved (f c) = ce_resolved c
     /\ (ce_evicted (f c) = true -> ce_evicted c = true \/ e ∉ map snd (rd_cache s))
     /\ (ce_leases (f c) + x e = ce_leases c + y e)%nat
     /\ (ce_disposeStarted (f c) = true -> ce_evicted (f c) = true /\ ce_leases (f c) = 0%nat)
     /\ (ce_disposeStarted c = true -> ce_disposeStarted (f c) = true)) ->
  core y (upd_entry e f s).
Proof.
  intros [? Hcache Hcount Hst Hres Hpack Hdis Hlease Hlive Hvalid Hwaits] Hxy Hf.
  split; cbn [upd_entry]; rewrite ?(proj1 (upd_frame e f s)).
  - done.
  - intros id i Hi. destruct (Hcache id i Hi) as (c & Hc & Hid & Hev).
    destruct (decide (i = e)) as [->|Hne].
    + destruct (Hf c Hc) as (E1 & _ & _ & E4 & _). exists (f c). rewrite upd_some.
      split_and!; [right; eauto | congruence|].
      destruct (ce_evicted (f c)); [|done]. destruct (E4 eq_refl) as [|Hni]; [congruence|].
      destruct Hni. apply list_elem_of_fmap. by exists (id, e).
    + exists c. rewrite upd_some. auto.
  - intros i c [[Hne Hc]|(-> & c0 & Hc & ->)]%upd_some.
    + rewrite <- Hxy by done. by apply Hcount.
    + destruct (Hf c0 Hc) as (_ & _ & _ & _ & E5 & _). specialize (Hcount e c0 Hc). cbn. lia.
  - intros i c [[Hne Hc]|(-> & c0 & Hc & ->)]%upd_some; [by apply (Hst i)|]. by apply Hf.
  - intros i c [[Hne Hc]|(-> & c0 & Hc & ->)]%upd_some; [by apply (Hres i)|].
    destruct (Hf c0 Hc) as (_ & E2 & E3 & _ & _ & _ & E7). unfold settled. rewrite E2, E3. intros Hr.
    destruct (Hres e c0 Hc Hr). auto.
  - intros i c p [[Hne Hc]|(-> & c0 & Hc & ->)]%upd_some; [by apply (Hpack i)|].
    destruct (Hf c0 Hc) as (_ & E2 & E3 & _). rewrite E2, E3. by apply (Hpack e).
  - assert (Hback : forall i c, rd_made (upd_entry e f s) !! i = Some c ->
      exists c0, rd_made s !! i = Some c0 /\ ce_opening c = ce_opening c0).
    { intros i c [[Hne Hc]|(-> & c0 & Hc & ->)]%upd_some; [eauto|]. exists c0. split; [done|]. by apply Hf. }
    intros i j c c' p (c1 & H1 & E1)%Hback (c2 & H2 & E2)%Hback. rewrite E1, E2. by eapply Hdis.
  - intros l Hl Hr. destruct (Hlease l Hl Hr) as (c & Hc & Ho).
    destruct (decide (le_entry l = e)) as [E|Hne].
    + exists (f c). rewrite upd_some. split; [right; rewrite <- E; eauto|].
      rewrite E in Hc. destruct (Hf c Hc) as (_ & E2 & _). congruence.
    + exists c. rewrite upd_some. auto.
  - intros i c [[Hne Hc]|(-> & c0 & Hc & ->)]%upd_some; [by apply (Hlive i c)|].
    destruct (Hf c0 Hc) as (_ & _ & E3 & _). rewrite E3. by apply (Hlive e c0).
  - intros i Hi. destruct (Hvalid i Hi) as [c Hc]. rewrite upd_lookup, Hc. by eexists.
  - intros i Hi. destruct (Hwaits i Hi) as [c Hc]. rewrite upd_lookup, Hc. by eexists.
Qed.

(** ** Parts of the state the invariant does not look at, or looks at from one side *)

Lemma core_cache (x : nat -> nat) (l : list (jstr * nat)) (s : reader) :
  core x s -> NoDup (map fst l) -> (forall p, p ∈ l -> p ∈ rd_cache s) -> core x (s <| rd_cache := l |>).
Proof. intros [? Hc] Hn Hl. split; cbn; try done. intros id e Hi. by apply Hc, Hl. Qed.

Lemma core_heap (x : nat -> nat) (h : heap) (s : reader) :
  core x s ->
  (forall p pk, h_packs (rd_heap s) !! p = Some pk ->
     exists pk', h_packs h !! p = Some pk' /\ pk_disposed pk' = pk_disposed pk) ->
  core x (s <| rd_heap := h |>).
Proof.
  intros [? ? ? ? ? Hp ? ? ? ?] Hh. split; cbn; try done. intros e c p Hc Ho.
  destruct (Hp e c p Hc Ho) as (pk & Hpk & <-). by apply Hh.
Qed.

Lemma core_counts (x y : nat -> nat) (W : list nat) (L : list lease) (s : reader) :
  core x s ->
  (forall e, waits e W + held e L + y e = waits e (rd_waiters s) + held e (rd_leases s) + x e)%nat ->
  (forall l, l ∈ L -> le_released l = false -> l ∈ rd_leases s
     \/ exists c, rd_made s !! le_entry l = Some c /\ ce_opening c = Opened (le_pack l)) ->
  (forall e, e ∈ W -> is_Some (rd_made s !! e)) ->
  core y (s <| rd_waiters := W |> <| rd_leases := L |>).
Proof.
  intros [? ? Hc ? ? ? ? Hl ? ? ?] Hn HL HW. split; cbn; try done.
  - intros e c He. rewrite (Hc e c He), Hn. done.
  - intros l Hin Hr. destruct (HL l Hin Hr) as [Ho|Ho]; [by apply Hl | done].
Qed.

(** [disposeWhenUnused] only starts the disposal of an entry that is evicted and unused. *)
Lemma dwu_core (x : nat -> nat) (e : nat) (s : reader) : core x s -> core x (disposeWhenUnused e s).
Proof.
  intros Hs. unfold disposeWhenUnused. destruct (rd_made s !! e) as [c|] eqn:He; [|done].
  destruct (unused c) eqn:Hu; [|done]. unfold unused in Hu.
  apply andb_true_iff in Hu as [[Hev Hl]%andb_true_iff _]. apply Nat.eqb_eq in Hl.
  apply (core_upd x x); [done | done|]. intros c0 E. rewrite He in E. injection E as <-. cbn.
  split_and!; auto.
Qed.

Lemma dwu_some (e i : nat) (s : reader) (c : cache_entry) :
  rd_made (disposeWhenUnused e s) !! i = Some c ->
  exists c0, rd_made s !! i = Some c0
    /\ c = (if decide (i = e) then if unused c0 then c0 <| ce_disposeStarted := true |> else c0 else c0).
Proof.
  unfold disposeWhenUnused. destruct (rd_made s !! e) as [ce|] eqn:He.
  - destruct (unused ce) eqn:Hu.
    + intros [[Hne Hc]|(-> & c0 & Hc & ->)]%upd_some; [exists c; by rewrite decide_False|].
      rewrite He in Hc. injection Hc as <-. exists ce. by rewrite decide_True, Hu.
    + intros Hc. exists c. split; [done|]. case_decide; [|done]. subst. rewrite He in Hc.
      injection Hc as <-. by rewrite Hu.
  - intros Hc. exists c. split; [done|]. case_decide; [congruence | done].
Qed.

Lemma dwu_used (except : list nat) (e : nat) (s : reader) :
  used_ok (e :: except) s -> used_ok except (disposeWhenUnused e s).
Proof.
  intros Hu i c (c0 & Hc & ->)%dwu_some Hi. case_decide as He.
  - subst. destruct (unused c0) eqn:E; [done|]. intros Hev Hl. unfold unused in E.
    rewrite Hev, Hl in E. cbn in E. by apply negb_false_iff in E.
  - apply (Hu i c0 Hc). rewrite elem_of_cons. tauto.
Qed.

Lemma used_weaken (e : nat) (except : list nat) (s : reader) : used_ok except s -> used_ok (e :: except) s.
Proof. intros Hu i c Hc Hi. apply (Hu i c Hc). rewrite elem_of_cons in Hi. tauto. Qed.

Lemma used_upd (e : nat) (f : cache_entry -> cache_entry) (except : list nat) (s : reader) :
  used_ok except s -> used_ok (e :: except) (upd_entry e f s).
Proof.
  intros Hu i c [[Hne Hc]|(-> & _)]%upd_some Hi; rewrite elem_of_cons in Hi; [|tauto].
  apply (Hu i c Hc). tauto.
Qed.

Lemma dwu_frame (e : nat) (s : reader) :
  rd_cache (disposeWhenUnused e s) = rd_cache s /\ rd_entries (disposeWhenUnused e s) = rd_entries s
  /\ rd_disposed (disposeWhenUnused e s) = rd_disposed s /\ rd_waiters (disposeWhenUnused e s) = rd_waiters s
  /\ rd_leases (disposeWhenUnused e s) = rd_leases s /\ rd_heap (disposeWhenUnused e s) = rd_heap s
  /\ rd_disposal (disposeWhenUnused e s) = rd_disposal s.
Proof.
  unfold disposeWhenUnused. destruct (rd_made s !! e) as [c|]; [|done]. by destruct (unused c).
Qed.

Lemma dwu_evicted (e i : nat) (s : reader) (c : cache_entry) :
  rd_made (disposeWhenUnused e s) !! i = Some c ->
  exists c0, rd_made s !! i = Some c0 /\ ce_evicted c = ce_evicted c0 /\ ce_resolved c = ce_resolved c0.
Proof. intros (c0 & Hc & ->)%dwu_some. exists c0. case_decide; [by destruct (unused c0) | done]. Qed.

(** ** Eviction *)

Lemma evict_entry (x : nat -> nat) (e : nat) (s : reader) :
  core x s -> used_ok [] s -> e ∉ map snd (rd_cache s) ->
  core x (dispose_entry s e) /\ used_ok [] (dispose_entry s e).
Proof.
  intros Hs Hu Hni. unfold dispose_entry. split.
  - apply dwu_core, (core_upd x x); [done | done|]. intros c Hc. cbn. split_and!; try done; [by right|].
    intros Hst. split; [done|]. by apply (c_started x s Hs e c).
  - by apply dwu_used, used_upd.
Qed.

Lemma evict_ok (x : nat -> nat) (s : reader) :
  core x s -> used_ok [] s ->
  core x (evictOldest s) /\ used_ok [] (evictOldest s)
  /\ length (rd_cache (evictOldest s)) = pred (length (rd_cache s))
  /\ rd_disposed (evictOldest s) = rd_disposed s /\ rd_waiters (evictOldest s) = rd_waiters s
  /\ rd_leases (evictOldest s) = rd_leases s /\ length (rd_made (evictOldest s)) = length (rd_made s)
  /\ rd_disposal (evictOldest s) = rd_disposal s.
Proof.
  intros Hs Hu. unfold evictOldest. destruct (rd_cache s) as [|[id e] rest] eqn:Hca.
  { rewrite Hca. split_and!; done. }
  set (s1 := s <| rd_cache := rest |>).
  change (disposeWhenUnused e (upd_entry e (fun c => c <| ce_evicted := true |>) s1)) with (dispose_entry s1 e).
  pose proof (c_ids x s Hs) as Hnd. rewrite Hca in Hnd. cbn in Hnd. apply NoDup_cons in Hnd as [Hni Hnd].
  assert (H1 : core x s1).
  { apply core_cache; [done | done|]. intros p Hp. rewrite Hca. by right. }
  assert (Hne : e ∉ map snd (rd_cache s1)).
  { cbn. intros ([id' e'] & He & Hin)%list_elem_of_fmap. cbn in He. subst e'.
    destruct (c_cache x s Hs id e) as (c & Hc & Hid & _); [rewrite Hca; by left|].
    destruct (c_cache x s Hs id' e) as (c' & Hc' & Hid' & _); [rewrite Hca; by right|].
    apply Hni, list_elem_of_fmap. exists (id', e). split; [cbn; congruence | done]. }
  destruct (evict_entry x e s1 H1 Hu Hne) as [H2 H3]. split; [done|]. split; [done|].
  unfold dispose_entry. destruct (dwu_frame e (upd_entry e (fun c => c <| ce_evicted := true |>) s1))
    as (-> & _ & -> & -> & -> & _ & ->). cbn. split_and!; try done.
  unfold disposeWhenUnused. destruct (rd_made _ !! e) as [c|]; [destruct (unused c)|]; cbn;
    by rewrite ?length_alter.
Qed.

Lemma evict_loop_ok (keep : nat) (x : nat -> nat) (fuel : nat) : forall s,
  core x s -> used_ok [] s -> (length (rd_cache s) <= fuel + keep)%nat ->
  core x (evict_loop keep fuel s) /\ used_ok [] (evict_loop keep fuel s)
  /\ (length (rd_cache (evict_loop keep fuel s)) <= keep)%nat
  /\ rd_disposed (evict_loop keep fuel s) = rd_disposed s
  /\ rd_waiters (evict_loop keep fuel s) = rd_waiters s
  /\ rd_leases (evict_loop keep fuel s) = rd_leases s
  /\ length (rd_made (evict_loop keep fuel s)) = length (rd_made s)
  /\ rd_disposal (evict_loop keep fuel s) = rd_disposal s.
Proof.
  induction fuel as [|fuel IH]; intros s Hs Hu Hl; cbn [evict_loop]; [split_and!; done || lia|].
  destruct (Nat.ltb_spec keep (length (rd_cache s))); [|split_and!; done || lia].
  destruct (evict_ok x s Hs Hu) as (H1 & H2 & H3 & H4 & H5 & H6 & H7 & H8).
  destruct (IH (evictOldest s) H1 H2) as (I1 & I2 & I3 & I4 & I5 & I6 & I7 & I8); [lia|].
  split_and!; done || congruence.
Qed.

(** ** The handlers keep the invariant *)

Section Handlers.
Context `{NB : NobleBytes} (unwrapKey : bytes -> thrown bytes) (keep : nat).

Definition inv (s : reader) : Prop :=
  core no_extra s /\ used_ok [] s /\ gone s /\ (length (rd_cache s) <= keep)%nat.

Lemma filter_subset {A} (P : A -> Prop) `{forall a, Decision (P a)} (l : list A) (a : A) :
  a ∈ filter P l -> a ∈ l.
Proof. intros Hin. by apply list_elem_of_filter in Hin as [_ ?]. Qed.

Lemma filter_ids (P : jstr * nat -> Prop) `{forall a, Decision (P a)} (l : list (jstr * nat)) :
  NoDup (map fst l) -> NoDup (map fst (filter P l)).
Proof.
  induction l as [|[id e] l IH]; [done|]. cbn [map fst]. rewrite NoDup_cons, filter_cons. intros [Hni Hnd].
  case_decide; [|by apply IH]. cbn [map fst]. apply NoDup_cons. split; [|by apply IH].
  intros Hin. apply Hni. apply list_elem_of_fmap in Hin as (p & Hp & Hin%filter_subset).
  apply list_elem_of_fmap. eauto.
Qed.

Lemma uncache_core (x : nat -> nat) (id : jstr) (s : reader) : core x s -> core x (uncache id s).
Proof.
  intros Hs. apply core_cache; [done | apply filter_ids, Hs|]. intros p. apply filter_subset.
Qed.

Lemma uncache_none (id : jstr) (s : reader) : id ∉ map fst (rd_cache (uncache id s)).
Proof.
  unfold uncache. cbn. intros ([id' e] & -> & Hin)%list_elem_of_fmap.
  apply list_elem_of_filter in Hin as [Hne _]. by apply Hne.
Qed.

Lemma cached_some (id : jstr) (s : reader) (e : nat) : cached id s = Some e -> (id, e) ∈ rd_cache s.
Proof.
  unfold cached. destruct (List.find _ (rd_cache s)) as [[id' e']|] eqn:Hf; [|done]. cbn. intros [= ->].
  apply find_some in Hf as [Hin Hid%bool_decide_eq_true_1]. cbn in Hid. subst. by apply list_elem_of_In.
Qed.

Lemma cached_none (id : jstr) (s : reader) : cached id s = None -> id ∉ map fst (rd_cache s).
Proof.
  unfold cached. destruct (List.find _ (rd_cache s)) as [p|] eqn:Hf; [done|]. intros _ Hin.
  apply list_elem_of_fmap in Hin as (p & -> & Hp%list_elem_of_In).
  pose proof (find_none _ _ Hf p Hp) as Hn. cbn in Hn. by rewrite bool_decide_eq_true_2 in Hn.
Qed.

Lemma cache_last (x : nat -> nat) (id : jstr) (e : nat) (c : cache_entry) (s : reader) :
  core x s -> id ∉ map fst (rd_cache s) -> rd_made s !! e = Some c -> ce_id c = id -> ce_evicted c = false ->
  core x (s <| rd_cache ::= fun l => l ++ [(id, e)] |>).
Proof.
  intros [Hn Hc] Hid He Hci Hev. split; cbn; try done.
  - rewrite map_app. apply NoDup_app. split_and!; [done | | apply NoDup_singleton].
    intros i Hi Hin. cbn in Hin. apply list_elem_of_singleton in Hin. by subst.
  - intros i k [Hi|Hi]%elem_of_app; [by apply Hc|]. apply list_elem_of_singleton in Hi as [= -> ->]. eauto.
Qed.

Lemma core_new (x : nat -> nat) (id : jstr) (s : reader) :
  core x s -> (forall e, (length (rd_made s) <= e)%nat -> x e = 0%nat) ->
  core x (s <| rd_made ::= fun l => l ++ [new_entry id] |> <| rd_entries ::= fun l => l ++ [length (rd_made s)] |>).
Proof.
  intros [? Hca Hn Hst Hr Hp Hd Hl Hv Hval Hw] Hx.
  assert (Hold : forall e c, rd_made s !! e = Some c -> (rd_made s ++ [new_entry id]) !! e = Some c)
    by (intros; by apply lookup_app_l_Some).
  assert (Hnew : forall e c, (rd_made s ++ [new_entry id]) !! e = Some c ->
    rd_made s !! e = Some c \/ (e = length (rd_made s) /\ c = new_entry id)).
  { intros e c [Hc|[Hge Hc]]%lookup_app_Some; [by left|]. right.
    apply list_lookup_singleton_Some in Hc as [Hc <-]. split; [lia | done]. }
  split; cbn; try done.
  - intros i e Hi. destruct (Hca i e Hi) as (c & Hc & ?). exists c. auto.
  - intros e c [Hc|[-> ->]]%Hnew; [by apply Hn|]. cbn. rewrite Hx by lia.
    assert (waits (length (rd_made s)) (rd_waiters s) = 0%nat) as ->.
    { apply length_zero_iff_nil, filter_none. intros e He ->.
      destruct (Hw _ He) as [? H1]. apply lookup_lt_Some in H1. lia. }
    assert (held (length (rd_made s)) (rd_leases s) = 0%nat) as ->; [|done].
    apply length_zero_iff_nil, filter_none. intros l Hin [E Hrel].
    destruct (Hl l Hin Hrel) as (c & Hc & _). apply lookup_lt_Some in Hc. lia.
  - intros e c [Hc|[-> ->]]%Hnew; [by apply (Hst e) | done].
  - intros e c [Hc|[-> ->]]%Hnew; [by apply (Hr e) | done].
  - intros e c p [Hc|[-> ->]]%Hnew; [by apply (Hp e) | done].
  - intros e e' c c' p [Hc|[-> ->]]%Hnew [Hc'|[-> ->]]%Hnew; try done. by eapply Hd.
  - intros l Hin Hrel. destruct (Hl l Hin Hrel) as (c & Hc & ?). exists c. auto.
  - intros e c [Hc|[-> ->]]%Hnew Hres; apply elem_of_app; [left; by apply (Hv e c) | right; by left].
  - intros e [He|He]%elem_of_app.
    + destruct (Hval e He) as [c Hc]. exists c. auto.
    + apply list_elem_of_singleton in He as ->. rewrite lookup_app_r, Nat.sub_diag by lia. by eexists.
  - intros e He. destruct (Hw e He) as [c Hc]. exists c. auto.
Qed.

Lemma take_entry_ok (id : jstr) (s : reader) :
  core no_extra s -> used_ok [] s -> (length (rd_cache s) <= keep)%nat ->
  let '(e, s1) := take_entry id s in
  core no_extra s1 /\ used_ok [] s1 /\ (length (rd_cache s1) <= S keep)%nat
  /\ rd_disposed s1 = rd_disposed s /\ rd_disposal s1 = rd_disposal s
  /\ exists c, rd_made s1 !! e = Some c /\ ce_evicted c = false.
Proof.
  intros Hs Hu Hl. unfold take_entry. destruct (cached id s) as [e|] eqn:Hc.
  - apply cached_some in Hc. destruct (c_cache _ s Hs id e Hc) as (c & He & Hid & Hev).
    split_and!; [| done | | done | done | by exists c].
    + eapply cache_last; [by apply uncache_core | apply uncache_none | exact He | done | done].
    + cbn. rewrite length_app. etrans; [apply Nat.add_le_mono_r, length_filter|]. cbn. lia.
  - apply cached_none in Hc.
    pose proof (core_new no_extra id s Hs (fun _ _ => eq_refl)) as H1.
    assert (He : (rd_made s ++ [new_entry id]) !! length (rd_made s) = Some (new_entry id))
      by (by rewrite lookup_app_r, Nat.sub_diag by lia).
    split_and!; [| | | done | done | by exists (new_entry id)].
    + exact (cache_last no_extra id (length (rd_made s)) (new_entry id) _ H1 Hc He eq_refl eq_refl).
    + intros i c [Hi|[_ Hi]]%lookup_app_Some; [by apply Hu|].
      apply list_lookup_singleton_Some in Hi as [_ <-]. done.
    + cbn. rewrite length_app. cbn. lia.
Qed.

Lemma call_inv (id : jstr) (s : reader) : inv s -> inv (call keep id s).
Proof.
  intros (Hs & Hu & Hg & Hl). unfold call. destruct (rd_disposed s) eqn:Hd; [done|].
  pose proof (take_entry_ok id s Hs Hu Hl) as Ht. destruct (take_entry id s) as [e s1].
  destruct Ht as (H1 & U1 & L1 & D1 & D2 & c & He & Hev). cbv zeta.
  set (s2 := upd_entry e (fun c => c <| ce_leases ::= S |>) s1).
  assert (H2 : core (one e) s2).
  { apply (core_upd no_extra); [done | intros i Hi; unfold one; by rewrite decide_False|].
    intros c0 Hc0. rewrite He in Hc0. injection Hc0 as <-. cbn.
    unfold one. rewrite decide_True by done. unfold no_extra. split_and!; try done || lia; [auto|].
    intros Hst. destruct (c_started _ s1 H1 e c He Hst). congruence. }
  assert (U2 : used_ok [] s2).
  { intros i ci [[Hne Hc]|(-> & c0 & Hc & ->)]%upd_some Hni Hevi Hli;
      [by apply (U1 i) | discriminate Hli]. }
  destruct (evict_loop_ok keep (one e) (length (rd_cache s2)) s2 H2 U2) as (H3 & U3 & L3 & D3 & W3 & HL3 & M3 & _);
    [lia|].
  set (s3 := evict_loop keep (length (rd_cache s2)) s2) in *.
  change (rd_cache s1) with (rd_cache s2). fold s3. clearbody s3.
  split_and!; [| done | | done].
  - apply (core_counts (one e) no_extra (rd_waiters s3 ++ [e]) (rd_leases s3) s3 H3).
    + intros i. rewrite waits_app, waits_one. unfold no_extra. lia.
    + intros l Hin _. by left.
    + intros i [Hi|Hi]%elem_of_app; [by apply (c_waits _ s3 H3)|]. apply list_elem_of_singleton in Hi as ->.
      apply lookup_lt_is_Some. rewrite M3. cbn. rewrite length_alter. by eapply lookup_lt_Some.
  - intros Hdis. exfalso. cbn in Hdis. rewrite D3 in Hdis. cbn in Hdis. congruence.
Qed.

(** Setting the outcome of an opening. *)
Lemma core_opening (x : nat -> nat) (e : nat) (c : cache_entry) (o : opening) (s : reader) :
  core x s -> rd_made s !! e = Some c -> ce_opening c = Opening ->
  (o = Opening -> False) ->
  (forall p, o = Opened p -> (exists pk, h_packs (rd_heap s) !! p = Some pk /\ pk_disposed pk = false)
     /\ forall i ci, rd_made s !! i = Some ci -> ce_opening ci <> Opened p) ->
  core x (upd_entry e (fun c => c <| ce_opening := o |>) s).
Proof.
  intros [? Hca Hn Hst Hr Hp Hd Hl Hv Hval Hw] He Hop Ho Hfresh.
  assert (Hres : ce_resolved c = false).
  { destruct (ce_resolved c) eqn:E; [|done]. destruct (Hr e c He E) as [_ Hs]. by destruct Hs. }
  assert (Hback : forall i ci, rd_made (upd_entry e (fun c => c <| ce_opening := o |>) s) !! i = Some ci ->
    exists c0, rd_made s !! i = Some c0 /\ ci = (if decide (i = e) then c0 <| ce_opening := o |> else c0)).
  { intros i ci [[Hne Hc]|(-> & c0 & Hc & ->)]%upd_some; eexists; (split; [exact Hc|]);
      [by rewrite decide_False | by rewrite decide_True]. }
  split; cbn; try done.
  - intros id i Hi. destruct (Hca id i Hi) as (c0 & Hc0 & Hid & Hev). rewrite alter_lookup, Hc0.
    case_decide; eexists; (split; [reflexivity|]); done.
  - intros i ci (c0 & Hc0 & ->)%Hback. rewrite <- (Hn i c0 Hc0). by case_decide.
  - intros i ci (c0 & Hc0 & ->)%Hback. case_decide; apply (Hst i c0 Hc0).
  - intros i ci (c0 & Hc0 & ->)%Hback. case_decide as Hd1; [|by apply (Hr i)]. subst i. cbn. congruence.
  - intros i ci p (c0 & Hc0 & ->)%Hback. case_decide as Hd1; [|by apply (Hp i)]. subst i. cbn. intros Hop1.
    destruct (Hfresh p Hop1) as [(pk & ? & ?) _]. exists pk. split; [done|]. congruence.
  - intros i j ci cj p (c0 & Hc0 & ->)%Hback (c1 & Hc1 & ->)%Hback Hi Hj.
    case_decide as Di; case_decide as Dj; subst; cbn in *;
      first [done | by destruct (proj2 (Hfresh p Hi) _ _ Hc1) | by destruct (proj2 (Hfresh p Hj) _ _ Hc0)
            | by eapply Hd].
  - intros l Hin Hrel. destruct (Hl l Hin Hrel) as (c0 & Hc0 & Ho0). rewrite alter_lookup.
    case_decide as Dl; [rewrite Dl in Hc0; congruence|]. rewrite Hc0. by eexists.
  - intros i ci (c0 & Hc0 & ->)%Hback Hri. apply (Hv i c0 Hc0). by case_decide.
  - intros i Hi. destruct (Hval i Hi) as [c0 Hc0]. rewrite alter_lookup, Hc0. by case_decide; eexists.
  - intros i Hi. destruct (Hw i Hi) as [c0 Hc0]. rewrite alter_lookup, Hc0. by case_decide; eexists.
Qed.

(** What leaves the two other parts of the invariant alone. *)
Lemma inv_same (s s' : reader) (f : cache_entry -> cache_entry) (e : nat) :
  inv s -> core no_extra s' -> rd_cache s' = rd_cache s -> rd_disposed s' = rd_disposed s ->
  rd_made s' = alter f e (rd_made s) ->
  (forall c, ce_evicted (f c) = ce_evicted c /\ ce_leases (f c) = ce_leases c
             /\ ce_disposeStarted (f c) = ce_disposeStarted c) ->
  inv s'.
Proof.
  intros (_ & Hu & Hg & Hl) Hs' Hca Hdi Hm Hf. split; [done|].
  assert (Hback : forall i c, rd_made s' !! i = Some c -> exists c0, rd_made s !! i = Some c0
    /\ ce_evicted c = ce_evicted c0 /\ ce_leases c = ce_leases c0 /\ ce_disposeStarted c = ce_disposeStarted c0).
  { intros i c. rewrite Hm, alter_lookup. destruct (rd_made s !! i) as [c0|]; [|done]. intros [= <-].
    exists c0. split; [done|]. case_decide; [apply Hf | done]. }
  split_and!.
  - intros i c (c0 & Hc0 & E1 & E2 & E3)%Hback Hni. rewrite E1, E2, E3. by apply (Hu i c0 Hc0).
  - unfold gone. rewrite Hdi, Hca. intros Hd. destruct (Hg Hd) as [Hg1 Hg2]. split; [done|].
    intros i c (c0 & Hc0 & E1 & _)%Hback. rewrite E1. by apply (Hg2 i).
  - by rewrite Hca.
Qed.

Lemma settle_inv (e : nat) (c : cache_entry) (got : thrown bytes) (s : reader) :
  inv s -> rd_made s !! e = Some c -> ce_opening c = Opening -> inv (settle unwrapKey e got s).
Proof.
  intros Hi He Hop. pose proof Hi as (Hs & _). unfold settle. rewrite He. destruct got as [b|err].
  - pose proof (openPackWith_heap b (ce_id c) unwrapKey (rd_heap s)) as Hg.
    destruct (openPackWith b (ce_id c) unwrapKey (rd_heap s)) as [r h].
    destruct Hg as (bufs & packs & -> & Hr).
    eapply (inv_same s); [done | | done | done | reflexivity | done].
    assert (H1 : core no_extra (s <| rd_heap := grown (rd_heap s) bufs packs |>)).
    { apply core_heap; [done|]. intros p pk Hp. exists pk. split; [|done]. cbn.
      by apply lookup_app_l_Some. }
    apply (core_opening no_extra e c); [done | done | done | by destruct r|].
    intros p Hp. destruct r as [q|]; [|done]. injection Hp as ->. destruct Hr as (-> & pk & -> & Hpk & _). split.
    + exists pk. cbn. by rewrite lookup_app_r, Nat.sub_diag by lia.
    + intros i ci Hci Ho. destruct (c_pack _ s Hs i ci _ Hci Ho) as (pk' & Hp' & _).
      apply lookup_lt_Some in Hp'. lia.
  - eapply (inv_same s); [done | | done | done | reflexivity | done].
    by apply (core_opening no_extra e c).
Qed.

Lemma on_failed_inv (e : nat) (s : reader) : inv s -> inv (on_failed e s).
Proof.
  intros (Hs & Hu & Hg & Hl). unfold on_failed. destruct (rd_made s !! e) as [c|]; [|done].
  case_bool_decide; [|done]. split_and!; [by apply uncache_core | done | |].
  - intros Hd. destruct (Hg Hd) as [Hg1 Hg2]. split; [|done]. unfold uncache. cbn. by rewrite Hg1.
  - cbn. etrans; [apply length_filter | done].
Qed.

Lemma drop_lease_ok (e : nat) (s : reader) :
  core (one e) s -> used_ok [] s -> core no_extra (drop_lease e s) /\ used_ok [] (drop_lease e s).
Proof.
  intros Hs Hu. unfold drop_lease. split; [|by apply dwu_used, used_upd].
  apply dwu_core, (core_upd (one e)); [done | intros i Hi; unfold one; by rewrite decide_False|].
  intros c Hc. cbn. pose proof (c_count _ s Hs e c Hc) as Hn. unfold one in *.
  rewrite decide_True in * by done. unfold no_extra. split_and!; try done || lia; [auto|].
  intros Hst. destruct (c_started _ s Hs e c Hc Hst). lia.
Qed.

Lemma drop_frame (e : nat) (s : reader) :
  rd_cache (drop_lease e s) = rd_cache s /\ rd_disposed (drop_lease e s) = rd_disposed s
  /\ forall i c, rd_made (drop_lease e s) !! i = Some c ->
       exists c0, rd_made s !! i = Some c0 /\ ce_evicted c = ce_evicted c0.
Proof.
  unfold drop_lease. destruct (dwu_frame e (upd_entry e (fun c => c <| ce_leases ::= pred |>) s))
    as (-> & _ & -> & _). split_and!; [done | done|].
  intros i c (c1 & [[_ Hc]|(-> & c0 & Hc & ->)]%upd_some & Ev & _)%dwu_evicted; eauto.
Qed.

Lemma drop_inv (e : nat) (s : reader) :
  core (one e) s -> used_ok [] s -> gone s -> (length (rd_cache s) <= keep)%nat -> inv (drop_lease e s).
Proof.
  intros Hs Hu Hg Hl. destruct (drop_lease_ok e s Hs Hu) as [H1 H2].
  destruct (drop_frame e s) as (Hc & Hd & Hm). split_and!; [done | done | | by rewrite Hc].
  unfold gone. rewrite Hd, Hc. intros Hdis. destruct (Hg Hdis) as [Hg1 Hg2]. split; [done|].
  intros i c (c0 & Hc0 & ->)%Hm. by apply (Hg2 i).
Qed.

Lemma resume_inv (w : nat) (s : reader) : inv s -> inv (resume w s).
Proof.
  intros (Hs & Hu & Hg & Hl). unfold resume. destruct (rd_waiters s !! w) as [e|] eqn:Hw; [|done].
  destruct (c_waits _ s Hs e) as [c Hc]; [by eapply list_elem_of_lookup_2|]. rewrite Hc.
  cbn [fmap option_fmap option_map].
  assert (Hdel : forall i, i ∈ delete w (rd_waiters s) -> is_Some (rd_made s !! i)).
  { intros i Hi. apply (c_waits _ s Hs). by eapply delete_subset. }
  assert (H1 : core (one e) (s <| rd_waiters ::= delete w |>)).
  { refine (core_counts no_extra (one e) (delete w (rd_waiters s)) (rd_leases s) s Hs _ _ Hdel); [|by auto].
    intros i. rewrite (waits_delete w i e (rd_waiters s) Hw). unfold no_extra, one.
    destruct (decide (e = i)), (decide (i = e)); congruence || lia. }
  destruct (ce_opening c) as [|p|err] eqn:Ho.
  - done.
  - split_and!; [| done | done | done].
    refine (core_counts (one e) no_extra (delete w (rd_waiters s)) _ _ H1 _ _ Hdel).
    + intros i. cbn [rd_leases]. rewrite held_app. unfold no_extra. cbn.
      unfold held at 2, one. cbn. repeat case_decide; cbn; lia || naive_solver lia.
    + intros l [Hin|Hin]%elem_of_app _; [by left|]. right. apply list_elem_of_singleton in Hin as ->.
      exists c. done.
  - apply drop_inv; done.
Qed.

Lemma release_inv (k : nat) (s : reader) : inv s -> inv (release k s).
Proof.
  intros (Hs & Hu & Hg & Hl). unfold release. destruct (rd_leases s !! k) as [x|] eqn:Hk; [|done].
  destruct (le_released x) eqn:Hr; [done|]. apply drop_inv; try done.
  refine (core_counts no_extra (one (le_entry x)) (rd_waiters s) _ s Hs _ _ _); [| |by apply (c_waits _ s Hs)].
  - intros i. rewrite (held_release k i (rd_leases s) x Hk Hr). unfold no_extra, one.
    repeat case_decide; congruence || lia.
  - intros l Hin Hrel. left. apply list_elem_of_lookup in Hin as [j Hj]. rewrite alter_lookup in Hj.
    destruct (rd_leases s !! j) as [y|] eqn:Hy; [|done]. injection Hj as <-.
    case_decide; [done|]. by eapply list_elem_of_lookup_2.
Qed.

Lemma chunk_inv (l : nat) (idBytes : bytes) (s : reader) : inv s -> inv (lease_chunk l idBytes s).2.
Proof.
  intros (Hs & Hu & Hg & Hl). unfold lease_chunk. destruct (rd_leases s !! l) as [x|]; [|done].
  destruct (le_released x); [done|]. pose proof (pack_chunk_packs (le_pack x) idBytes (rd_heap s)) as Hp.
  destruct (pack_chunk (le_pack x) idBytes (rd_heap s)) as [r h]. cbn [snd] in *.
  split_and!; [| done | done | done]. apply core_heap; [done|]. intros p pk Hpk. exists pk.
  by rewrite Hp.
Qed.

Lemma run_dispose_inv (e : nat) (c : cache_entry) (s : reader) :
  inv s -> rd_made s !! e = Some c -> ce_disposeStarted c = true -> ce_resolved c = false -> settled c ->
  inv (run_dispose e s).
Proof.
  intros Hi He Hst Hres Hset. pose proof Hi as (Hs & _). unfold run_dispose. rewrite He. cbv zeta.
  set (s0 := match ce_opening c with Opened p => s <| rd_heap := (pack_dispose p (rd_heap s)).2 |> | _ => s end).
  assert (E : s0 = s <| rd_heap := rd_heap s0 |>) by (unfold s0; destruct (ce_opening c); by destruct s).
  rewrite E.
  eapply (inv_same s); [done | | done | done | reflexivity | done].
  destruct Hs as [? Hca Hn Hsta Hr Hp Hd Hl Hv Hval Hw].
  assert (Hheap : forall i ci p, rd_made s !! i = Some ci -> ce_opening ci = Opened p ->
    exists pk, h_packs (rd_heap s0) !! p = Some pk
      /\ pk_disposed pk = (if decide (i = e) then true else ce_resolved ci)).
  { intros i ci p Hci Ho. destruct (Hp i ci p Hci Ho) as (pk & Hpk & Hdp). unfold s0.
    destruct (ce_opening c) as [|q|err] eqn:Hoc.
    - by destruct Hset.
    - cbn. destruct (pack_dispose_packs q (rd_heap s) p pk Hpk) as (pk' & Hpk' & Hd').
      exists pk'. split; [done|]. rewrite Hd'. destruct (decide (p = q)) as [->|Hne].
      + assert (i = e) as -> by (by eapply Hd). by rewrite decide_True.
      + rewrite decide_False; [done|]. intros ->. congruence.
    - exists pk. split; [done|]. rewrite decide_False; [done|]. intros ->. congruence. }
  split; cbn; try done.
  - intros id i Hin. destruct (Hca id i Hin) as (ci & Hci & ?). rewrite alter_lookup, Hci.
    case_decide; by eexists.
  - intros i ci Hci. rewrite alter_lookup in Hci. destruct (rd_made s !! i) as [c0|] eqn:H0; [|done].
    injection Hci as <-. rewrite <- (Hn i c0 H0). by case_decide.
  - intros i ci Hci. rewrite alter_lookup in Hci. destruct (rd_made s !! i) as [c0|] eqn:H0; [|done].
    injection Hci as <-. case_decide; apply (Hsta i c0 H0).
  - intros i ci Hci. rewrite alter_lookup in Hci. destruct (rd_made s !! i) as [c0|] eqn:H0; [|done].
    injection Hci as <-. case_decide; [|by apply (Hr i)]. subst. rewrite He in H0. injection H0 as <-. done.
  - intros i ci p Hci. rewrite alter_lookup in Hci. destruct (rd_made s !! i) as [c0|] eqn:H0; [|done].
    injection Hci as <-. intros Ho. destruct (Hheap i c0 p H0) as (pk & Hpk & Hdp); [by case_decide|].
    exists pk. split; [done|]. rewrite Hdp. by case_decide.
  - intros i j ci cj p Hci Hcj. rewrite alter_lookup in Hci, Hcj.
    destruct (rd_made s !! i) as [c0|] eqn:H0; [|done]. destruct (rd_made s !! j) as [c1|] eqn:H1; [|done].
    injection Hci as <-. injection Hcj as <-. intros Ho Ho'. apply (Hd i j c0 c1 p H0 H1); by repeat case_decide.
  - intros l Hin Hrel. destruct (Hl l Hin Hrel) as (ci & Hci & Ho). rewrite alter_lookup, Hci.
    case_decide; by eexists.
  - intros i ci Hci. rewrite alter_lookup in Hci. destruct (rd_made s !! i) as [c0|] eqn:H0; [|done].
    injection Hci as <-. intros Hrf. apply list_elem_of_filter. case_decide; [done|]. split; [done|].
    by apply (Hv i c0).
  - intros i Hin%filter_subset. destruct (Hval i Hin) as [ci Hci]. rewrite alter_lookup, Hci. by eexists.
  - intros i Hin. destruct (Hw i Hin) as [ci Hci]. rewrite alter_lookup, Hci. by eexists.
Qed.

(** Evicting every listed entry, with the cache already empty. *)
Lemma dispose_fold (l : list nat) : forall s, core no_extra s -> used_ok [] s -> rd_cache s = [] ->
  let s' := foldl dispose_entry s l in
  core no_extra s' /\ used_ok [] s' /\ rd_cache s' = [] /\ rd_disposed s' = rd_disposed s
  /\ rd_entries s' = rd_entries s /\ rd_disposal s' = rd_disposal s
  /\ forall i c, rd_made s' !! i = Some c -> exists c0, rd_made s !! i = Some c0
       /\ ce_resolved c = ce_resolved c0 /\ (i ∈ l \/ ce_evicted c0 = true -> ce_evicted c = true).
Proof.
  induction l as [|e l IH]; intros s Hs Hu Hca; cbn [foldl].
  - split_and!; try done. intros i c Hc. exists c. split_and!; [done | done|].
    intros [Hin|Hev]; [by apply not_elem_of_nil in Hin | done].
  - destruct (evict_entry no_extra e s Hs Hu) as [H1 H2]; [rewrite Hca; apply not_elem_of_nil|].
    destruct (dwu_frame e (upd_entry e (fun c => c <| ce_evicted := true |>) s)) as (F1 & F2 & F3 & _ & _ & _ & F7).
    fold (dispose_entry s e) in F1, F2, F3, F7.
    destruct (IH (dispose_entry s e) H1 H2) as (I1 & I2 & I3 & I4 & I5 & I6 & I7); [rewrite F1; exact Hca|].
    split_and!; [done | done | done | by rewrite I4, F3 | by rewrite I5, F2 | by rewrite I6, F7|].
    intros i c (c1 & Hc1 & R1 & E1)%I7. apply dwu_evicted in Hc1 as (c2 & Hc2 & Ev & Rs).
    apply upd_some in Hc2 as [[Hne Hc2]|(-> & c0 & Hc0 & ->)].
    + exists c2. split_and!; [done | congruence|]. intros Hor. apply E1. rewrite Ev.
      rewrite elem_of_cons in Hor. tauto.
    + exists c0. split_and!; [done | rewrite R1, Rs; done|]. intros _. apply E1. right. by rewrite Ev.
Qed.

Lemma dispose_inv (s : reader) : inv s -> inv (dispose s).
Proof.
  intros Hi. pose proof Hi as (Hs & Hu & Hg & Hl). unfold dispose. destruct (rd_disposal s); [done|]. cbv zeta.
  set (s0 := s <| rd_disposed := true |> <| rd_cache := [] |>).
  assert (H0 : core no_extra s0).
  { destruct (core_cache no_extra [] s Hs (NoDup_nil_2)); [by intros p Hp%not_elem_of_nil|]. by split. }
  destruct (dispose_fold (rd_entries s) s0 H0 Hu eq_refl) as (I1 & I2 & I3 & I4 & I5 & I6 & I7).
  set (s1 := foldl dispose_entry s0 (rd_entries s)) in *.
  split_and!; [destruct I1; by split | done | | cbn; rewrite I3; simpl; lia].
  intros _. split; [done|]. intros i c Hc. destruct (I7 i c Hc) as (c0 & Hc0 & Hres & Hev). apply Hev.
  destruct (ce_resolved c0) eqn:E.
  - right. destruct (c_resolved _ s Hs i c0 Hc0 E) as [Hst _]. by apply (c_started _ s Hs i c0).
  - left. by apply (c_live _ s Hs i c0).
Qed.
End Handlers.

(** ** The heap, step by step *)

Lemma flat_map_apart {A} (f : A -> list nat) (l : list A) : forall i j x y a b,
  NoDup (flat_map f l) -> l !! i = Some x -> l !! j = Some y -> i <> j -> a ∈ f x -> b ∈ f y -> a <> b.
Proof.
  assert (Hin : forall l i x a, l !! i = Some x -> a ∈ f x -> a ∈ flat_map f l).
  { intros l0. induction l0 as [|z l0 IH]; intros [|i] x a Hl Ha; try done; cbn in *; apply elem_of_app.
    - injection Hl as ->. by left.
    - right. by eapply IH. }
  induction l as [|z l IH]; intros [|i] [|j] x y a b Hnd Hi Hj Hne Ha Hb; try done; cbn in *;
    apply NoDup_app in Hnd as (_ & Hsep & Hnd).
  - injection Hi as ->. intros ->. apply (Hsep b Ha). by eapply Hin.
  - injection Hj as ->. intros <-. apply (Hsep a Hb). by eapply Hin.
  - eapply IH; [done | exact Hi | exact Hj | congruence | done | done].
Qed.

Lemma flat_map_insert {A B} (f : A -> list B) (l : list A) : forall i x y,
  l !! i = Some x -> f y = f x -> flat_map f (<[i := y]> l) = flat_map f l.
Proof.
  induction l as [|z l IH]; intros [|i] x y Hl Hf; try done; cbn in *.
  - injection Hl as ->. by rewrite Hf.
  - f_equal. by eapply IH.
Qed.

Lemma arrays_in (h : heap) (p : nat) (pk : pack) (i : nat) :
  h_packs h !! p = Some pk -> i ∈ pack_arrays pk -> i ∈ flat_map pack_arrays (h_packs h).
Proof.
  intros Hp Hi. apply list_elem_of_In, in_flat_map. exists pk.
  split; apply list_elem_of_In; [by eapply list_elem_of_lookup_2 | done].
Qed.

(** [h'] keeps the packs of [h] that it does not dispose, arrays included. *)
Definition keeps (h h' : heap) : Prop :=
  heap_ok h' /\ forall p pk pk', h_packs h !! p = Some pk -> h_packs h' !! p = Some pk' ->
    pk_disposed pk' = false -> pk' = pk /\ forall i, i ∈ pack_arrays pk -> h_bufs h' !! i = h_bufs h !! i.

Lemma bound_of (h : heap) (p : nat) (pk : pack) (i : nat) :
  heap_ok h -> h_packs h !! p = Some pk -> i ∈ pack_arrays pk -> (i < length (h_bufs h))%nat.
Proof. intros [_ Hb _] Hp Hi. rewrite Forall_forall in Hb. by eapply Hb, arrays_in. Qed.

Lemma keeps_refl (h : heap) : heap_ok h -> keeps h h.
Proof. intros Hh. split; [done|]. intros p pk pk' Hp Hp' _. split; [congruence | done]. Qed.

Lemma keeps_more (h : heap) (bufs : list bytes) : heap_ok h -> keeps h (grown h bufs []).
Proof.
  intros Hh. pose proof Hh as [Ha Hb Hc]. unfold grown. rewrite app_nil_r. split.
  - split; cbn; [done | |].
    + eapply Forall_impl; [exact Hb|]. intros i Hi. cbn in *. rewrite length_app. lia.
    + intros p pk i b Hp Hd Hi. rewrite lookup_app_l by (by apply (bound_of h p pk)). by apply (Hc p pk).
  - cbn. intros p pk pk' Hp Hp' _. split; [congruence|]. intros i Hi.
    apply lookup_app_l. by apply (bound_of h p pk).
Qed.

Lemma keeps_pack (h : heap) (bufs : list bytes) (pk : pack) :
  heap_ok h -> pk_disposed pk = false -> length bufs = 4%nat ->
  pk_scopeId pk = (length (h_bufs h) + 3)%nat -> pk_body pk = (length (h_bufs h) + 2)%nat ->
  keeps h (grown h bufs [pk]).
Proof.
  intros Hh Hd Hl Hs Hb. pose proof Hh as [Ha Hbo Hc]. rewrite Forall_forall in Hbo.
  assert (Hpk : pack_arrays pk = [(length (h_bufs h) + 3)%nat; (length (h_bufs h) + 2)%nat])
    by (unfold pack_arrays; by rewrite Hs, Hb).
  split.
  - unfold grown. split; cbn; rewrite ?flat_map_app; cbn; rewrite ?app_nil_r, ?Hpk.
    + apply NoDup_app. split_and!; [done | |].
      * intros i Hi%Hbo. rewrite !elem_of_cons. intros [->|[->|[]%not_elem_of_nil]]; lia.
      * repeat constructor; rewrite ?elem_of_cons; intros Hin; [|by apply not_elem_of_nil in Hin].
        destruct Hin as [E|[]%not_elem_of_nil]. lia.
    + rewrite length_app, Hl. apply Forall_app. split; [|repeat constructor; lia].
      apply Forall_forall. intros i Hi%Hbo. lia.
    + intros p q i b [Hp|[_ Hp]]%lookup_app_Some Hdq Hi.
      * rewrite lookup_app_l by (by apply (bound_of h p q)). by apply (Hc p q).
      * apply list_lookup_singleton_Some in Hp as [_ <-]. congruence.
  - cbn. intros p q q' Hp Hp' _. rewrite lookup_app_l in Hp' by (by eapply lookup_lt_Some).
    split; [congruence|]. intros i Hi. apply lookup_app_l. by apply (bound_of h p q).
Qed.

Lemma alter_zeros_other (h : heap) (i j : nat) : i <> j -> alter zeros j (h_bufs h) !! i = h_bufs h !! i.
Proof. intros Hne. by apply list_lookup_alter_ne. Qed.

Lemma keeps_dispose (h : heap) (q : nat) : heap_ok h -> keeps h (pack_dispose q h).2.
Proof.
  intros Hh. pose proof Hh as [Ha Hbo Hc].
  destruct (h_packs h !! q) as [pq|] eqn:Hq; [destruct (pk_disposed pq) eqn:Hd|];
    [rewrite pack_dispose_idle by (intros; congruence); by apply keeps_refl | |
     rewrite pack_dispose_idle by (intros; congruence); by apply keeps_refl].
  rewrite (pack_dispose_run q pq h Hq Hd). cbn [snd].
  assert (Hother : forall p pk i, p <> q -> h_packs h !! p = Some pk -> i ∈ pack_arrays pk ->
    alter zeros (pk_scopeId pq) (alter zeros (pk_body pq) (h_bufs h)) !! i = h_bufs h !! i).
  { intros p pk i Hne Hp Hi.
    assert (forall j, j ∈ pack_arrays pq -> i <> j)
      by (intros j Hj; by eapply (flat_map_apart pack_arrays (h_packs h) p q)).
    rewrite !list_lookup_alter_ne; [done| |]; apply not_eq_sym; apply H;
      unfold pack_arrays; rewrite !elem_of_cons; auto. }
  set (pq' := pq <| pk_disposed := true |> <| pk_entries := ∅ |>).
  split.
  - split; cbn.
    + by rewrite (flat_map_insert pack_arrays _ q pq pq').
    + rewrite (flat_map_insert pack_arrays _ q pq pq') by done.
      eapply Forall_impl; [exact Hbo|]. intros i. by rewrite !length_alter.
    + intros p pk i b Hp Hdp Hi. destruct (decide (p = q)) as [->|Hne].
      * rewrite list_lookup_insert_eq in Hp by (by eapply lookup_lt_Some). injection Hp as <-.
        change (i ∈ [pk_scopeId pq; pk_body pq]) in Hi. rewrite !alter_lookup.
        destruct (h_bufs h !! i) as [z|]; [|done]. intros [= <-].
        rewrite !elem_of_cons in Hi. destruct Hi as [->|[->|[]%not_elem_of_nil]]; repeat case_decide;
          done || apply zeros_zero.
      * rewrite list_lookup_insert_ne in Hp by done. rewrite (Hother p pk i) by done. by apply (Hc p pk).
  - cbn. intros p pk pk' Hp Hp' Hd'. destruct (decide (p = q)) as [->|Hne].
    + rewrite list_lookup_insert_eq in Hp' by (by eapply lookup_lt_Some). injection Hp' as <-. discriminate Hd'.
    + rewrite list_lookup_insert_ne in Hp' by done. split; [congruence|]. intros i Hi. by apply (Hother p pk).
Qed.

(** ** Reachable readers *)

Section Reachable.
Context `{NB : NobleBytes} (unwrapKey : bytes -> thrown bytes) (keep : nat).

Lemma step_inv (s s' : reader) : inv keep s -> step unwrapKey keep s s' -> inv keep s'.
Proof.
  intros Hi Hst. destruct Hst as [id | e c got He Ho | e c err He Ho | w e c Hw He Hs | e c He Hd Hr Hs | l id | l |].
  - by apply call_inv.
  - by eapply settle_inv.
  - by apply on_failed_inv.
  - by apply resume_inv.
  - by eapply run_dispose_inv.
  - by apply chunk_inv.
  - by apply release_inv.
  - by apply dispose_inv.
Qed.

Lemma reachable_inv (s : reader) : reachable unwrapKey keep s -> inv keep s.
Proof.
  induction 1 as [h Hh | s s' _ IH Hst]; [|by eapply step_inv].
  split_and!; [|done | done | cbn; lia].
  split; cbn; try done; [constructor | by intros ? ? ?%not_elem_of_nil | by intros ? ?%not_elem_of_nil
    | by intros ? ?%not_elem_of_nil | by intros ? ?%not_elem_of_nil].
Qed.

Lemma evict_heap (fuel : nat) : forall s, rd_heap (evict_loop keep fuel s) = rd_heap s.
Proof.
  induction fuel as [|fuel IH]; intros s; cbn [evict_loop]; [done|]. destruct (Nat.ltb _ _); [|done].
  rewrite IH. unfold evictOldest. destruct (rd_cache s) as [|[id e] rest]; [done|]. by destruct
    (dwu_frame e (upd_entry e (fun c => c <| ce_evicted := true |>) (s <| rd_cache := rest |>))) as (_&_&_&_&_&->&_).
Qed.

Lemma dispose_entries_heap (l : list nat) : forall s, rd_heap (foldl dispose_entry s l) = rd_heap s.
Proof.
  induction l as [|e l IH]; intros s; cbn [foldl]; [done|]. rewrite IH. unfold dispose_entry.
  by destruct (dwu_frame e (upd_entry e (fun c => c <| ce_evicted := true |>) s)) as (_&_&_&_&_&->&_).
Qed.

(** What a step does to the heap. *)
Lemma step_heap (s s' : reader) : step unwrapKey keep s s' ->
  rd_heap s' = rd_heap s
  \/ (exists b id, rd_heap s' = (openPackWith b id unwrapKey (rd_heap s)).2)
  \/ (exists p id, rd_heap s' = (pack_chunk p id (rd_heap s)).2)
  \/ (exists p, rd_heap s' = (pack_dispose p (rd_heap s)).2).
Proof.
  intros Hst. destruct Hst as [id | e c got He Ho | e c err He Ho | w e c Hw He Hs | e c He Hd Hr Hs | l id | l |].
  - left. unfold call. destruct (rd_disposed s); [done|]. unfold take_entry.
    destruct (cached id s); cbn -[evict_loop]; by rewrite evict_heap.
  - unfold settle. rewrite He. destruct got as [b|err]; [|by left]. right. left. exists b, (ce_id c).
    by destruct (openPackWith b (ce_id c) unwrapKey (rd_heap s)).
  - left. unfold on_failed. rewrite He. by case_bool_decide.
  - left. unfold resume. rewrite Hw, He. cbn [fmap option_fmap option_map]. destruct (ce_opening c); try done.
    unfold drop_lease. by destruct (dwu_frame e (upd_entry e (fun c => c <| ce_leases ::= pred |>)
      (s <| rd_waiters ::= delete w |>))) as (_&_&_&_&_&->&_).
  - unfold run_dispose. rewrite He. destruct (ce_opening c) as [|p|]; [by left | | by left].
    do 3 right. by exists p.
  - unfold lease_chunk. destruct (rd_leases s !! l) as [x|]; [|by left]. destruct (le_released x); [by left|].
    right. right. left. exists (le_pack x), id. by destruct (pack_chunk (le_pack x) id (rd_heap s)).
  - left. unfold release. destruct (rd_leases s !! l) as [x|]; [|done]. destruct (le_released x); [done|].
    unfold drop_lease. by destruct (dwu_frame (le_entry x) (upd_entry (le_entry x) (fun c => c <| ce_leases ::= pred |>)
      (s <| rd_leases ::= alter (fun x => x <| le_released := true |>) l |>))) as (_&_&_&_&_&->&_).
  - left. unfold dispose. destruct (rd_disposal s); [done|]. cbn -[foldl]. by rewrite dispose_entries_heap.
Qed.

Lemma evict_flags (fuel : nat) : forall s, rd_disposal (evict_loop keep fuel s) = rd_disposal s
  /\ rd_disposed (evict_loop keep fuel s) = rd_disposed s.
Proof.
  induction fuel as [|fuel IH]; intros s; cbn [evict_loop]; [done|]. destruct (Nat.ltb _ _); [|done].
  destruct (IH (evictOldest s)) as [-> ->]. unfold evictOldest. destruct (rd_cache s) as [|[id e] rest]; [done|].
  by destruct (dwu_frame e (upd_entry e (fun c => c <| ce_evicted := true |>) (s <| rd_cache := rest |>)))
    as (_&_&->&_&_&_&->).
Qed.

Lemma drop_flags (e : nat) (s : reader) :
  rd_disposal (drop_lease e s) = rd_disposal s /\ rd_disposed (drop_lease e s) = rd_disposed s.
Proof.
  unfold drop_lease. by destruct (dwu_frame e (upd_entry e (fun c => c <| ce_leases ::= pred |>) s))
    as (_&_&->&_&_&_&->).
Qed.

(** Only [dispose] touches the two flags of the disposal. *)
Lemma step_flags (s s' : reader) : step unwrapKey keep s s' ->
  s' = dispose s \/ (rd_disposal s' = rd_disposal s /\ rd_disposed s' = rd_disposed s).
Proof.
  intros Hst. destruct Hst as [id | e c got He Ho | e c err He Ho | w e c Hw He Hs | e c He Hd Hr Hs | l id | l |];
    [right.. | by left].
  - unfold call. destruct (rd_disposed s) eqn:E; [by rewrite E|]. unfold take_entry.
    destruct (cached id s); cbn -[evict_loop];
      match goal with |- context [evict_loop keep ?f ?t] => destruct (evict_flags f t) as [-> ->] end; done.
  - unfold settle. rewrite He. destruct got as [b|err]; [|done].
    by destruct (openPackWith b (ce_id c) unwrapKey (rd_heap s)).
  - unfold on_failed. rewrite He. by case_bool_decide.
  - unfold resume. rewrite Hw, He. cbn [fmap option_fmap option_map]. destruct (ce_opening c); try done.
    by destruct (drop_flags e (s <| rd_waiters ::= delete w |>)) as [-> ->].
  - unfold run_dispose. rewrite He. by destruct (ce_opening c).
  - unfold lease_chunk. destruct (rd_leases s !! l) as [x|]; [|done]. destruct (le_released x); [done|].
    by destruct (pack_chunk (le_pack x) id (rd_heap s)).
  - unfold release. destruct (rd_leases s !! l) as [x|]; [|done]. destruct (le_released x); [done|].
    by destruct (drop_flags (le_entry x) (s <| rd_leases ::= alter (fun x => x <| le_released := true |>) l |>)) as [-> ->].
Qed.

Lemma dispose_entries_disposed (l : list nat) : forall s, rd_disposed (foldl dispose_entry s l) = rd_disposed s.
Proof.
  induction l as [|e l IH]; intros s; cbn [foldl]; [done|]. rewrite IH. unfold dispose_entry.
  by destruct (dwu_frame e (upd_entry e (fun c => c <| ce_evicted := true |>) s)) as (_&_&->&_).
Qed.

Lemma disposal_flag (s : reader) :
  reachable unwrapKey keep s -> is_Some (rd_disposal s) -> rd_disposed s = true.
Proof.
  induction 1 as [h Hh | s s' Hr IH Hst]; [by intros [? ?]|].
  destruct (step_flags s s' Hst) as [->|[-> ->]]; [|done]. unfold dispose.
  destruct (rd_disposal s) eqn:E; [intros _; by apply IH|]. intros _. cbn -[foldl].
  by rewrite dispose_entries_disposed.
Qed.

Lemma chunk_heap (p : nat) (id : bytes) (h : heap) :
  exists bufs, (pack_chunk p id h).2 = grown h bufs [].
Proof.
  unfold pack_chunk, get_pack. unfold mbind at 1, buffers_bind.
  destruct (h_packs h !! p) as [pk|]; [|exists []; by rewrite grown_nil].
  destruct (pk_disposed pk); [exists []; by rewrite grown_nil|].
  destruct (pk_entries pk !! bytesToHex id) as [[o n]|]; [|exists []; by rewrite grown_nil].
  eexists [_]. unfold grown. by rewrite app_nil_r.
Qed.

Lemma step_keeps (s s' : reader) :
  heap_ok (rd_heap s) -> step unwrapKey keep s s' -> keeps (rd_heap s) (rd_heap s').
Proof.
  intros Hh Hst. destruct (step_heap s s' Hst) as [->|[(b & id & ->)|[(p & id & ->)|(p & ->)]]].
  - by apply keeps_refl.
  - pose proof (openPackWith_heap b id unwrapKey (rd_heap s)) as Hg.
    destruct (openPackWith b id unwrapKey (rd_heap s)) as [r h]. destruct Hg as (bufs & packs & -> & Hr).
    cbn [snd]. destruct r as [p|err]; [|subst; by apply keeps_more].
    destruct Hr as (_ & pk & -> & Hd & Hl & Hs & Hb). by apply keeps_pack.
  - destruct (chunk_heap p id (rd_heap s)) as (bufs & ->). by apply keeps_more.
  - by apply keeps_dispose.
Qed.

Lemma reachable_heap (s : reader) : reachable unwrapKey keep s -> heap_ok (rd_heap s).
Proof. induction 1 as [h Hh | s s' _ IH Hst]; [done|]. by apply (step_keeps s s' IH Hst). Qed.
End Reachable.

(** ** Theorems *)

(** C21: a leased pack stays whole.  In every reachable state the cache holds at most [keep] packs, the
    pack of a lease that was not released is open, and reading a chunk through it does not throw; and
    no step, of whatever reader, changes an array of a pack that it leaves open.  So one user's
    disposal, eviction or release never clears a pack under another. *)
Theorem leased_packs_stay_open `{NB : NobleBytes} (unwrapKey : bytes -> thrown bytes) (keep : nat) (s : reader) :
  reachable unwrapKey keep s ->
  (length (rd_cache s) <= keep)%nat
  /\ (forall k l, rd_leases s !! k = Some l -> le_released l = false ->
        exists pk, h_packs (rd_heap s) !! le_pack l = Some pk /\ pk_disposed pk = false
          /\ forall id, exists got, (lease_chunk k id s).1 = Ok got)
  /\ (forall s', step unwrapKey keep s s' ->
        forall p pk pk', h_packs (rd_heap s) !! p = Some pk -> h_packs (rd_heap s') !! p = Some pk' ->
          pk_disposed pk' = false ->
          pk' = pk /\ forall i, i ∈ pack_arrays pk -> h_bufs (rd_heap s') !! i = h_bufs (rd_heap s) !! i).
Proof.
  intros Hr. pose proof (reachable_inv _ _ s Hr) as (Hs & _ & _ & Hl). split; [done|]. split.
  - intros k l Hk Hrel. destruct (c_lease _ s Hs l) as (c & Hc & Ho); [by eapply list_elem_of_lookup_2 | done|].
    destruct (c_pack _ s Hs _ c _ Hc Ho) as (pk & Hpk & Hd).
    assert (Hopen : pk_disposed pk = false).
    { rewrite Hd. destruct (ce_resolved c) eqn:E; [|done].
      destruct (c_resolved _ s Hs _ c Hc E) as [Hst _]. destruct (c_started _ s Hs _ c Hc Hst) as [_ Hz].
      rewrite (c_count _ s Hs _ c Hc) in Hz. assert (held (le_entry l) (rd_leases s) = 0%nat) as H0 by lia.
      rewrite (held_release k _ _ l Hk Hrel) in H0. unfold one in H0. rewrite decide_True in H0 by done. lia. }
    exists pk. split_and!; [done | done|]. intros id. unfold lease_chunk. rewrite Hk, Hrel.
    rewrite (pack_chunk_run _ pk _ _ Hpk Hopen). destruct (pk_entries pk !! bytesToHex id) as [[o n]|]; by eexists.
  - intros s' Hst. by apply (step_keeps unwrapKey keep s s'); [apply (reachable_heap unwrapKey keep)|].
Qed.

(** C22: a disposed reader ends with every pack cleared.  Once [dispose] was called, a reachable state in
    which every opening has settled, no call waits, every lease is back and no disposal handler is
    left to run has resolved every entry's [disposed] promise, and every pack the reader ever opened
    is disposed and its arrays are zeroed. *)
Theorem disposed_reader_clears_everything `{NB : NobleBytes} (unwrapKey : bytes -> thrown bytes)
    (keep : nat) (s : reader) :
  reachable unwrapKey keep s -> is_Some (rd_disposal s) ->
  (forall e c, rd_made s !! e = Some c -> settled c) -> rd_waiters s = [] ->
  (forall l, l ∈ rd_leases s -> le_released l = true) ->
  (forall e c, rd_made s !! e = Some c -> settled c -> ce_disposeStarted c = true -> ce_resolved c = true) ->
  forall e c, rd_made s !! e = Some c -> ce_resolved c = true
    /\ forall p, ce_opening c = Opened p -> exists pk, h_packs (rd_heap s) !! p = Some pk
         /\ pk_disposed pk = true
         /\ forall i b, i ∈ pack_arrays pk -> h_bufs (rd_heap s) !! i = Some b -> all_zero b.
Proof.
  intros Hr Hdis Hset Hw Hl Hrun e c Hc. pose proof (reachable_inv _ _ s Hr) as (Hs & Hu & Hg & _).
  pose proof (reachable_heap _ _ s Hr) as Hh.
  assert (Hd : rd_disposed s = true) by (by apply (disposal_flag unwrapKey keep)).
  destruct (Hg Hd) as [_ Hev].
  assert (Hz : ce_leases c = 0%nat).
  { rewrite (c_count _ s Hs e c Hc), Hw. unfold held.
    rewrite (filter_none _ (rd_leases s)); [done|]. intros l Hin [_ Hrel]. rewrite (Hl l Hin) in Hrel. done. }
  assert (Hres : ce_resolved c = true).
  { apply (Hrun e c Hc (Hset e c Hc)). by apply (Hu e c Hc (not_elem_of_nil e) (Hev e c Hc)). }
  split; [done|]. intros p Ho. destruct (c_pack _ s Hs e c p Hc Ho) as (pk & Hpk & Hd').
  exists pk. split_and!; [done | congruence|]. intros i b Hi Hb.
  eapply (ho_cleared _ Hh p pk); [done | congruence | done | done].
Qed.

(** ** A reader at work: one pack, a lease, a disposal while it is held, and its release *)

#[local] Existing Instances Toy.noble Toy.noble_bytes.

Module Run.
Definition id : jstr := bytesToHex (packId Sample.file).
Definition called : reader := call 3 id (new_reader empty_heap).
Definition opened : reader := settle Sample.unwrapKey 0 (Ok Sample.file) called.
Definition leased : reader := resume 0 opened.
Definition disposing : reader := dispose leased.
Definition released : reader := release 0 disposing.
Definition cleared : reader := run_dispose 0 released.

Definition entry (o : opening) (leases : nat) (ended : bool) : cache_entry :=
  {| ce_id := id; ce_opening := o; ce_leases := leases; ce_evicted := ended; ce_disposeStarted := ended;
     ce_resolved := false |}.

Lemma leased_reachable : reachable Sample.unwrapKey 3 leased.
Proof.
  assert (H1 : rd_made called !! 0%nat = Some (entry Opening 1 false)) by (vm_compute; reflexivity).
  assert (H2 : rd_made opened !! 0%nat = Some (entry (Opened 0) 1 false)) by (vm_compute; reflexivity).
  assert (Hw : rd_waiters opened !! 0%nat = Some 0%nat) by (vm_compute; reflexivity).
  refine (reachable_step _ _ opened leased _ (step_resume _ _ opened 0 0 _ Hw H2 _)); [|discriminate].
  refine (reachable_step _ _ called opened _ (step_settle _ _ called 0 _ _ H1 eq_refl)).
  refine (reachable_step _ _ _ called _ (step_call _ _ _ id)). apply reachable_new, empty_heap_ok.
Qed.

Lemma cleared_reachable : reachable Sample.unwrapKey 3 cleared.
Proof.
  assert (H1 : rd_made released !! 0%nat = Some (entry (Opened 0) 0 true)) by (vm_compute; reflexivity).
  refine (reachable_step _ _ released cleared _
            (step_run_dispose _ _ released 0 _ H1 eq_refl eq_refl _)); [|discriminate].
  refine (reachable_step _ _ disposing released _ (step_release _ _ disposing 0)).
  exact (reachable_step _ _ leased disposing leased_reachable (step_dispose _ _ leased)).
Qed.
End Run.

Lemma leased_packs_stay_open_witness :
  le_released <$> rd_leases Run.leased !! 0%nat = Some false
  /\ exists got, (lease_chunk 0 Sample.id1 Run.leased).1 = Ok got.
Proof.
  split; [vm_compute; reflexivity|].
  destruct (leased_packs_stay_open Sample.unwrapKey 3 Run.leased Run.leased_reachable) as (_ & Hl & _).
  destruct (Hl 0%nat {| le_entry := 0; le_pack := 0; le_released := false |}) as (pk & _ & _ & Hc);
    [vm_compute; reflexivity | reflexivity |]. exact (Hc Sample.id1).
Defined.

Lemma disposed_reader_clears_everything_witness :
  exists c, rd_made Run.cleared !! 0%nat = Some c /\ ce_resolved c = true.
Proof.
  eexists. split; [vm_compute; reflexivity|].
  refine (proj1 (disposed_reader_clears_everything Sample.unwrapKey 3 Run.cleared Run.cleared_reachable
    _ _ _ _ _ 0%nat _ _)).
  - vm_compute. eexists. reflexivity.
  - intros [|e] c; vm_compute; [intros [= <-]; discriminate | discriminate].
  - vm_compute. reflexivity.
  - intros l Hl. vm_compute in Hl. apply list_elem_of_singleton in Hl as ->. reflexivity.
  - intros [|e] c; vm_compute; [intros [= <-]; reflexivity | discriminate].
  - vm_compute. reflexivity.
Defined.
