(* ===== verification/CollabSocket.v ===== *)
(** * Collaboration sockets: [luna/web/src/components/files/office/collabSocket.js]

    A socket keeps one [WebSocket] to a room of Luna's hub and opens it again with a growing delay when it
    drops.  The browser's sockets, the timers and the clock are state next to it; what the hub sends
    and when a connection opens, fails or closes is up to the environment.  The owner of a socket is
    called back through [onStatus] and [onMessage], the variables of the section. *)

From S2P Require Import Prelude JsString Bytes.

(** ** Frames *)

(** What peers relay to each other, opaque to the hub: shared documents put [{ k, d }] in it, diagrams
    [{ kind, patch, checksum }].  A field may be missing, or not a string where one is read. *)
Record payload := {
  pl_k : option jstr; pl_d : option jstr;
  pl_kind : option jstr; pl_patch : value; pl_checksum : value;
}.
Record peer_info := { pi_id : Z; pi_username : jstr; pi_color : option jstr }.

(** [CollabFrame] and [CollabEvent], one constructor per [type]. *)
Inductive frame :=
| FWelcome (peer_id : option Z) (peers : list peer_info) (can_write : option bool) (catchup : list frame)
| FPeerJoin (peer : option peer_info)
| FPeerLeave (peer_id : option Z)
| FPresence (cursor : option payload)
| FOp (seq peer_id : option Z) (p : option payload)
| FAck (seq : option Z)
| FSaved (peer_id seq : option Z)
| FSaveLock (granted : option bool)
| FFormResponse (count : option Z)
| FOther.

(** What a client sends. *)
Inductive client_msg :=
| CHello
| COp (p : payload)
| CPresence (p : payload)
| CSaved (size : option Z) (seq : option Z)
| CSaveLock
| CSaveEnd.

(** ** State *)

Inductive ready_state := CONNECTING | OPEN | CLOSING | CLOSED.
#[export] Instance ready_state_eq_dec : EqDecision ready_state.
Proof. solve_decision. Defined.

(** A [WebSocket], with the socket whose listeners it carries. *)
Record websocket := { ws_sock : nat; ws_state : ready_state }.

Record socket := {
  sk_ws : option nat; sk_closed : bool; sk_attempts : Z; sk_retryTimer : option nat; sk_peerId : option Z;
}.

(** The pending timers: a socket's, two of a shared document's session and one of a diagram's. *)
Inductive timer_cb := CbReconnect (sock : nat) | CbSyncRetry | CbSeed | CbLock.
Record timer := { tm_id : nat; tm_due : Z; tm_cb : timer_cb }.

Record hub := {
  hb_socks : list socket; hb_wss : list websocket; hb_timers : list timer; hb_nextTimer : nat; hb_now : Z;
  (* what went out, with the connection it went out on *)
  hb_sent : list (nat * client_msg);
}.

#[export] Instance eta_websocket : Settable websocket := fun w => {| ws_sock := ws_sock w; ws_state := ws_state w |}.
#[export] Instance eta_socket : Settable socket := fun s =>
  {| sk_ws := sk_ws s; sk_closed := sk_closed s; sk_attempts := sk_attempts s;
     sk_retryTimer := sk_retryTimer s; sk_peerId := sk_peerId s |}.
#[export] Instance eta_hub : Settable hub := fun h =>
  {| hb_socks := hb_socks h; hb_wss := hb_wss h; hb_timers := hb_timers h; hb_nextTimer := hb_nextTimer h;
     hb_now := hb_now h; hb_sent := hb_sent h |}.

Definition empty_hub : hub :=
  {| hb_socks := []; hb_wss := []; hb_timers := []; hb_nextTimer := 0; hb_now := 0; hb_sent := [] |}.

Definition MAX_RECONNECT_ATTEMPTS : Z := 8.

(** [new CollabSocket(driveId, path)] *)
Definition new_socket : socket :=
  {| sk_ws := None; sk_closed := false; sk_attempts := 0; sk_retryTimer := None; sk_peerId := None |}.

Definition updSock (i : nat) (f : socket -> socket) (h : hub) : hub := h <| hb_socks ::= alter f i |>.
Definition updWs (w : nat) (f : websocket -> websocket) (h : hub) : hub := h <| hb_wss ::= alter f w |>.

Definition setTimer (cb : timer_cb) (delay : Z) (h : hub) : nat * hub :=
  (hb_nextTimer h,
   h <| hb_timers ::= fun l => l ++ [{| tm_id := hb_nextTimer h; tm_due := hb_now h + delay; tm_cb := cb |}] |>
     <| hb_nextTimer ::= S |>).
Definition clearTimer (t : nat) (h : hub) : hub :=
  h <| hb_timers ::= List.filter (fun x => negb (Nat.eqb (tm_id x) t)) |>.
Definition clearOpt (t : option nat) (h : hub) : hub := match t with Some t => clearTimer t h | None => h end.

(** ** URLs *)

Definition collabWsUrl (host : jstr) (secure : bool) (driveId path : jstr) : option jstr :=
  d ← encode_uri_component driveId; p ← encode_uri_component path;
  Some (js (if secure then "wss" else "ws") ++ js "://" ++ host ++ js "/api/v1/collab/ws?drive_id=" ++ d
        ++ js "&path=" ++ p).

(** ** Sending *)

(** The connection a socket may send on: [ws] is there and [OPEN]. *)
Definition live_ws (i : nat) (h : hub) : option nat :=
  s ← hb_socks h !! i; w ← sk_ws s; x ← hb_wss h !! w;
  if bool_decide (ws_state x = OPEN) then Some w else None.

Definition ws_send (w : nat) (m : client_msg) (h : hub) : hub := h <| hb_sent ::= fun l => l ++ [(w, m)] |>.

(** The common shape of [sendOp], [sendPresence], [sendSaved], [sendSaveLock] and [sendSaveEnd], with the
    boolean some of them return. *)
Definition send (i : nat) (m : client_msg) (h : hub) : bool * hub :=
  match live_ws i h with Some w => (true, ws_send w m h) | None => (false, h) end.

Definition sendOp (i : nat) (p : payload) (h : hub) : hub := (send i (COp p) h).2.
Definition sendPresence (i : nat) (p : payload) (h : hub) : hub := (send i (CPresence p) h).2.
Definition sendSaved (i : nat) (size seq : option Z) (h : hub) : hub := (send i (CSaved size seq) h).2.
Definition sendSaveLock (i : nat) (h : hub) : bool * hub := send i CSaveLock h.
Definition sendSaveEnd (i : nat) (h : hub) : bool * hub := send i CSaveEnd h.

(** ** Connecting *)

Definition reconnect_delay (attempts : Z) : Z := Z.min (1000 * 2 ^ attempts) 15000.

Definition scheduleReconnect (i : nat) (h : hub) : hub :=
  match hb_socks h !! i with
  | Some s =>
      if sk_closed s || bool_decide (sk_retryTimer s <> None) then h
      else if MAX_RECONNECT_ATTEMPTS <=? sk_attempts s then h
      else
        let delay := reconnect_delay (sk_attempts s) in
        let h := updSock i (fun s => s <| sk_attempts ::= Z.succ |>) h in
        let '(t, h) := setTimer (CbReconnect i) delay h in
        updSock i (fun s => s <| sk_retryTimer := Some t |>) h
  | None => h
  end.

(** [ws.close()] *)
Definition ws_close (w : nat) (h : hub) : hub :=
  updWs w (fun x => match ws_state x with CONNECTING | OPEN => x <| ws_state := CLOSING |> | _ => x end) h.

Definition close (i : nat) (h : hub) : hub :=
  match hb_socks h !! i with
  | Some s =>
      let h := clearOpt (sk_retryTimer s) h in
      let h := match sk_ws s with Some w => ws_close w h | None => h end in
      updSock i (fun s => s <| sk_closed := true |> <| sk_retryTimer := None |> <| sk_ws := None |>) h
  | None => h
  end.

Section Socket.
(** The owner [W] holds the hub; [onStatus i] and [onMessage i] are the callbacks it set on socket [i]. *)
Context {W : Type} (hub_of : W -> hub) (on_hub : (hub -> hub) -> W -> W).
Context (onStatus : nat -> jstr -> W -> W) (onMessage : nat -> frame -> W -> W).

Definition connect (i : nat) (c : W) : W :=
  match hb_socks (hub_of c) !! i with
  | Some s =>
      if sk_closed s then c
      else
        let w := length (hb_wss (hub_of c)) in
        let c := on_hub (fun h => h <| hb_wss ::= fun l => l ++ [{| ws_sock := i; ws_state := CONNECTING |}] |>) c in
        let c := on_hub (updSock i (fun s => s <| sk_ws := Some w |>)) c in
        onStatus i (js (if sk_attempts s =? 0 then "connecting" else "reconnecting")) c
  | None => c
  end.

(** The listeners of connection [w] on socket [i]. *)
Definition on_open (i w : nat) (c : W) : W :=
  let c := on_hub (updSock i (fun s => s <| sk_attempts := 0 |>)) c in
  let c := onStatus i (js "open") c in
  on_hub (ws_send w CHello) c.

(** [None] is a text [JSON.parse] refuses. *)
Definition on_message (i : nat) (msg : option frame) (c : W) : W :=
  match msg with
  | None => c
  | Some msg =>
      let c := match msg with
               | FWelcome p _ _ _ => on_hub (updSock i (fun s => s <| sk_peerId := p |>)) c
               | _ => c
               end in
      onMessage i msg c
  end.

Definition on_close (i w : nat) (c : W) : W :=
  let c := on_hub (updSock i (fun s =>
             if bool_decide (sk_ws s = Some w) then s <| sk_ws := None |> else s)) c in
  let c := onStatus i (js "closed") c in
  on_hub (scheduleReconnect i) c.

Definition on_error (i : nat) (c : W) : W := onStatus i (js "error") c.

(** The reconnect timer fires. *)
Definition on_reconnect (i : nat) (c : W) : W :=
  connect i (on_hub (updSock i (fun s => s <| sk_retryTimer := None |>)) c).

(** What the browser reports of a connection; a report that cannot come is [None]. *)
Inductive ws_event := WsOpen | WsMessage (msg : option frame) | WsClose | WsError.

Definition ws_step (w : nat) (e : ws_event) (c : W) : option W :=
  x ← hb_wss (hub_of c) !! w;
  let i := ws_sock x in
  match e, ws_state x with
  | WsOpen, CONNECTING =>
      Some (on_open i w (on_hub (updWs w (fun x => x <| ws_state := OPEN |>)) c))
  | WsMessage msg, OPEN => Some (on_message i msg c)
  | WsClose, (CONNECTING | OPEN | CLOSING) =>
      Some (on_close i w (on_hub (updWs w (fun x => x <| ws_state := CLOSED |>)) c))
  | WsError, (CONNECTING | OPEN | CLOSING) => Some (on_error i c)
  | _, _ => None
  end.
End Socket.
