(* ===== verification/CollabSocketFacts.v ===== *)
(** * Collaboration sockets: the connections of a session

    The invariant of the sockets, connections and timers of a session, and that every operation of a
    socket keeps it: at most one connection is under way, it is that of the current socket, and a socket
    that is not closed has a connection, or a timer to open one, or has given up. *)

From S2P Require Import Prelude JsString CollabSocket.

(** ** Changes that leave the sockets alone *)

Definition reconnects (x : timer) : bool := match tm_cb x with CbReconnect _ => true | _ => false end.
Definition is_live (x : websocket) : bool := match ws_state x with CONNECTING | OPEN => true | _ => false end.

(** Frames go out on open connections and timers that open none are armed; nothing else changes. *)
Record quiet (h h' : hub) : Prop := {
  q_socks : hb_socks h' = hb_socks h;
  q_wss : hb_wss h' = hb_wss h;
  q_now : hb_now h' = hb_now h;
  q_timers : exists new, hb_timers h' = hb_timers h ++ new
    /\ map tm_id new = seq (hb_nextTimer h) (length new) /\ hb_nextTimer h' = (hb_nextTimer h + length new)%nat
    /\ Forall (fun x => reconnects x = false) new;
  q_sent : exists out, hb_sent h' = hb_sent h ++ out
    /\ Forall (fun m => exists x, hb_wss h !! m.1 = Some x /\ ws_state x = OPEN) out;
}.

#[export] Instance quiet_refl : Reflexive quiet.
Proof.
  intros h. split; try done; exists []; rewrite app_nil_r; [|split; constructor].
  split_and!; [done | done | cbn; lia | constructor].
Qed.

#[export] Instance quiet_trans : Transitive quiet.
Proof.
  intros a b c [S1 W1 N1 (t1 & T1 & I1 & X1 & F1) (o1 & O1 & G1)] [S2 W2 N2 (t2 & T2 & I2 & X2 & F2) (o2 & O2 & G2)].
  split; try congruence.
  - exists (t1 ++ t2). rewrite T2, T1, app_assoc, map_app, I1, I2, X2, X1, length_app, seq_app.
    split_and!; [done | done | lia | by apply Forall_app].
  - exists (o1 ++ o2). rewrite O2, O1, app_assoc. split; [done|]. rewrite W1 in G2. by apply Forall_app.
Qed.

Lemma live_ws_open (i : nat) (h : hub) (w : nat) : live_ws i h = Some w ->
  exists x, hb_wss h !! w = Some x /\ ws_state x = OPEN.
Proof.
  unfold live_ws. intros (s & _ & (w' & _ & (x & Hx & Ho)%bind_Some)%bind_Some)%bind_Some.
  destruct (bool_decide_reflect (ws_state x = OPEN)); [|done]. injection Ho as ->. by exists x.
Qed.

Lemma quiet_send (i : nat) (m : client_msg) (h : hub) : quiet h (send i m h).2.
Proof.
  unfold send. destruct (live_ws i h) as [w|] eqn:E; [|done]. apply live_ws_open in E.
  split; try done; [exists []; cbn; rewrite app_nil_r, Nat.add_0_r; by split_and!|].
  exists [(w, m)]. split; [done|]. by constructor.
Qed.

Lemma quiet_setTimer (cb : timer_cb) (ms : Z) (h : hub) :
  (forall i, cb <> CbReconnect i) -> quiet h (setTimer cb ms h).2.
Proof.
  intros Hcb. split; try done.
  - eexists [_]. cbn. split_and!; [done | done | lia |]. constructor; [|done]. unfold reconnects. cbn.
    destruct cb; [by edestruct Hcb | done..].
  - exists []. by rewrite app_nil_r.
Qed.

(** ** The invariant *)

(** Connection [w] of socket [i] is under way; timer [t] opens the next one. *)
Definition conn_of (h : hub) (i w : nat) : Prop :=
  exists x, hb_wss h !! w = Some x /\ ws_sock x = i /\ is_live x = true.
Definition timer_of (h : hub) (i t : nat) : Prop :=
  exists x, x ∈ hb_timers h /\ tm_id x = t /\ tm_cb x = CbReconnect i.

(** One socket, given its connections and its timers; [idle] allows it to be between two connections. *)
Record sock_ok (idle stale : Prop) (C T : nat -> Prop) (k : socket) : Prop := {
  so_stale : stale -> sk_closed k = true;
  so_idle : sk_closed k = true -> sk_ws k = None /\ sk_retryTimer k = None;
  so_ws : forall w, sk_ws k = Some w <-> C w;
  so_timer : forall t, sk_retryTimer k = Some t <-> T t;
  so_one : sk_ws k = None \/ sk_retryTimer k = None;
  so_attempts : 0 <= sk_attempts k <= MAX_RECONNECT_ATTEMPTS;
  so_kept : sk_closed k = false -> ~ idle ->
    sk_ws k <> None \/ sk_retryTimer k <> None \/ sk_attempts k = MAX_RECONNECT_ATTEMPTS;
}.

(** [cur] is the session's socket, [destroyed] whether it ended; socket [exc] may be between two
    connections. *)
Record net_ok (exc cur : option nat) (destroyed : bool) (h : hub) : Prop := {
  no_range : forall i, cur = Some i -> (i < length (hb_socks h))%nat;
  no_sock : forall i k, hb_socks h !! i = Some k ->
    sock_ok (exc = Some i) (cur <> Some i \/ destroyed = true) (conn_of h i) (timer_of h i) k;
  no_owner : forall w x, hb_wss h !! w = Some x -> (ws_sock x < length (hb_socks h))%nat;
  no_closing : forall w x, hb_wss h !! w = Some x -> ws_state x = CLOSING ->
    exists k, hb_socks h !! ws_sock x = Some k /\ sk_closed k = true;
  no_timer : forall i t, timer_of h i t -> (i < length (hb_socks h))%nat;
  no_ids : NoDup (map tm_id (hb_timers h));
  no_next : forall x, x ∈ hb_timers h -> (tm_id x < hb_nextTimer h)%nat;
}.

Lemma sock_ok_mono (idle idle' stale stale' : Prop) (C C' T T' : nat -> Prop) (k : socket) :
  (idle -> idle') -> (stale' -> stale) -> (forall w, C w <-> C' w) -> (forall t, T t <-> T' t) ->
  sock_ok idle stale C T k -> sock_ok idle' stale' C' T' k.
Proof.
  intros Hi Hs HC HT [H1 H2 H3 H4 H5 H6 H7]. split; auto; intros v; [by rewrite H3 | by rewrite H4].
Qed.

(** A timer's id names it. *)
Lemma unique_id (l : list timer) (x y : timer) : NoDup (map tm_id l) -> x ∈ l -> y ∈ l -> tm_id x = tm_id y -> x = y.
Proof.
  intros N [i Hi]%list_elem_of_lookup [j Hj]%list_elem_of_lookup E.
  assert (i = j) as ->; [|congruence].
  apply (NoDup_lookup (tm_id <$> l) _ _ (tm_id x)); [done | |]; rewrite list_lookup_fmap;
    [rewrite Hi | rewrite Hj]; cbn; congruence.
Qed.

Lemma timer_unique (exc cur : option nat) (d : bool) (h : hub) (x y : timer) :
  net_ok exc cur d h -> x ∈ hb_timers h -> y ∈ hb_timers h -> tm_id x = tm_id y -> x = y.
Proof. intros H. apply unique_id, H. Qed.

Lemma quiet_timer_of (h h' : hub) (i t : nat) : quiet h h' -> timer_of h i t <-> timer_of h' i t.
Proof.
  intros [_ _ _ (new & T & _ & _ & F) _]. unfold timer_of. setoid_rewrite T. setoid_rewrite elem_of_app.
  split; intros (x & Hx & E & C); [by eauto 6|]. destruct Hx as [Hx|Hx]; [by eauto|].
  rewrite Forall_forall in F. specialize (F x Hx). unfold reconnects in F. by rewrite C in F.
Qed.

Lemma net_ok_quiet (exc cur : option nat) (d : bool) (h h' : hub) :
  quiet h h' -> net_ok exc cur d h -> net_ok exc cur d h'.
Proof.
  intros Q [H1 H2 H3 Hcl H4 H5 H6]. pose proof (fun i t => quiet_timer_of h h' i t Q) as HT.
  destruct Q as [S W _ (new & T & I & X & F) _].
  assert (Hnew : forall x, x ∈ new -> (hb_nextTimer h <= tm_id x < hb_nextTimer h')%nat).
  { intros x Hx. apply (list_elem_of_fmap_2 tm_id) in Hx. change (tm_id <$> new) with (map tm_id new) in Hx.
    rewrite I in Hx. apply elem_of_seq in Hx. lia. }
  split; rewrite ?S, ?W; try done.
  - intros i k Hk. eapply sock_ok_mono; [| | | | by apply H2]; try done.
    intros w. unfold conn_of. by rewrite W.
  - intros i t. rewrite <- HT. apply H4.
  - rewrite T, map_app. apply NoDup_app. split_and!; [done | | rewrite I; apply NoDup_seq].
    intros t (x & -> & Hx)%list_elem_of_fmap (y & E & Hy)%list_elem_of_fmap. apply H6 in Hx. apply Hnew in Hy. lia.
  - intros x. rewrite T. intros [Hx|Hx]%elem_of_app; [apply H6 in Hx; lia | by apply Hnew].
Qed.

Lemma net_ok_sent (exc cur : option nat) (d : bool) (h : hub) (w : nat) (m : client_msg) :
  net_ok exc cur d h -> net_ok exc cur d (ws_send w m h).
Proof. by intros []. Qed.

(** ** Changes of one socket

    Connections and timers of the other sockets stay; [k'] is what socket [i] becomes. *)
Lemma net_ok_one (exc exc' cur : option nat) (d : bool) (h h' : hub) (i : nat) (f : socket -> socket) :
  hb_socks h' = alter f i (hb_socks h) ->
  (forall j w, j <> i -> conn_of h j w <-> conn_of h' j w) ->
  (forall j t, j <> i -> timer_of h j t <-> timer_of h' j t) ->
  (forall w x, hb_wss h' !! w = Some x -> (ws_sock x < length (hb_socks h))%nat) ->
  (forall k, hb_socks h !! i = Some k -> sk_closed k = true -> sk_closed (f k) = true) ->
  (forall w x, hb_wss h' !! w = Some x -> ws_state x = CLOSING ->
     hb_wss h !! w = Some x \/ (ws_sock x = i /\ forall k, hb_socks h !! i = Some k -> sk_closed (f k) = true)) ->
  (forall j t, timer_of h' j t -> (j < length (hb_socks h))%nat) ->
  NoDup (map tm_id (hb_timers h')) -> (forall x, x ∈ hb_timers h' -> (tm_id x < hb_nextTimer h')%nat) ->
  (forall j, exc = Some j -> j <> i -> exc' = Some j) ->
  (forall k, hb_socks h !! i = Some k ->
     sock_ok (exc = Some i) (cur <> Some i \/ d = true) (conn_of h i) (timer_of h i) k ->
     sock_ok (exc' = Some i) (cur <> Some i \/ d = true) (conn_of h' i) (timer_of h' i) (f k)) ->
  net_ok exc cur d h -> net_ok exc' cur d h'.
Proof.
  intros S HC HT HO Hm Hcl HI N X He Hi [H1 H2 _ H4 _ _ _]. split; rewrite ?S, ?length_alter; try done.
  - intros j k. rewrite list_lookup_alter. case_decide as E.
    + subst j. rewrite fmap_Some. intros (k0 & Hk & ->). by apply Hi; [|apply H2].
    + intros Hk. eapply sock_ok_mono; [| | | | by apply H2]; auto.
  - intros w x Hx Hc. rewrite list_lookup_alter. destruct (Hcl w x Hx Hc) as [Hx'|[E Hf]].
    + destruct (H4 w x Hx' Hc) as (k & Hk & Ck). case_decide as E; [|by eauto]. subst i. rewrite Hk. cbn. eauto.
    + apply HO in Hx. rewrite E in *. rewrite decide_True by done. destruct (lookup_lt_is_Some_2 _ _ Hx) as [k Hk].
      rewrite Hk. cbn. eauto.
Qed.

Lemma clearTimer_elem (t : nat) (h : hub) (x : timer) : x ∈ hb_timers (clearTimer t h) <-> x ∈ hb_timers h /\ tm_id x <> t.
Proof. cbn. rewrite !list_elem_of_In, filter_In. destruct (Nat.eqb_spec (tm_id x) t); naive_solver. Qed.

Lemma clearTimer_of (t : nat) (h : hub) (i u : nat) : timer_of (clearTimer t h) i u <-> timer_of h i u /\ u <> t.
Proof. unfold timer_of. setoid_rewrite clearTimer_elem. naive_solver. Qed.

Lemma clearTimer_ids (t : nat) (h : hub) : NoDup (map tm_id (hb_timers h)) -> NoDup (map tm_id (hb_timers (clearTimer t h))).
Proof.
  cbn. induction (hb_timers h) as [|x l IH]; cbn; [done|]. intros [Hx Hl]%NoDup_cons.
  destruct (Nat.eqb (tm_id x) t); cbn; [by apply IH|]. constructor; [|by apply IH].
  intros (y & E & [Hy _]%list_elem_of_In%filter_In)%list_elem_of_fmap. apply Hx. apply list_elem_of_fmap.
  exists y. by rewrite list_elem_of_In.
Qed.
#[export] Hint Resolve clearTimer_ids : core.

Lemma net_ok_clear (exc cur : option nat) (d : bool) (h : hub) (t : nat) :
  (forall i, ~ timer_of h i t) -> net_ok exc cur d h -> net_ok exc cur d (clearTimer t h).
Proof.
  intros Ht [H1 H2 H3 Hcl H4 H5 H6].
  assert (HT : forall i u, timer_of h i u <-> timer_of (clearTimer t h) i u).
  { intros i u. rewrite clearTimer_of. split; [|by intros []]. intros Hu. split; [done|]. intros ->. by eapply Ht. }
  split; eauto.
  - intros i k Hk. eapply sock_ok_mono; [| | | | by apply H2]; done.
  - intros i u. rewrite <- HT. apply H4.
  - intros x [Hx _]%clearTimer_elem. by apply H6.
Qed.

Lemma net_ok_tick (exc cur : option nat) (d : bool) (h : hub) (f : Z -> Z) :
  net_ok exc cur d h -> net_ok exc cur d (h <| hb_now ::= f |>).
Proof. by intros []. Qed.

(** ** Operations *)

Lemma alter_alter {A} (f g : A -> A) (i : nat) (l : list A) : alter f i (alter g i l) = alter (fun x => f (g x)) i l.
Proof. apply list_eq. intros j. rewrite !list_lookup_alter. repeat case_decide; try done. by destruct (l !! i). Qed.

Lemma net_ok_exc (exc cur : option nat) (d : bool) (h : hub) : net_ok None cur d h -> net_ok exc cur d h.
Proof. intros []. split; try done. intros i k Hk. eapply sock_ok_mono; [| | | | eauto]; done. Qed.

Lemma updWs_conn (w : nat) (f : websocket -> websocket) (h : hub) (x : websocket) (i v : nat) :
  hb_wss h !! w = Some x -> ws_sock (f x) = ws_sock x ->
  conn_of (updWs w f h) i v <-> (if decide (v = w) then i = ws_sock x /\ is_live (f x) = true else conn_of h i v).
Proof.
  intros Hx Hs. unfold conn_of. cbn. rewrite list_lookup_alter. destruct (decide (w = v)) as [->|Hv].
  - rewrite decide_True by done. rewrite Hx. cbn. rewrite <- Hs. naive_solver.
  - by rewrite decide_False by congruence.
Qed.

Lemma updWs_owner (w : nat) (f : websocket -> websocket) (h : hub) (n : nat) :
  (forall x, ws_sock (f x) = ws_sock x) -> (forall v x, hb_wss h !! v = Some x -> (ws_sock x < n)%nat) ->
  forall v x, hb_wss (updWs w f h) !! v = Some x -> (ws_sock x < n)%nat.
Proof.
  intros Hf H v x. cbn. rewrite list_lookup_alter. case_decide; [subst|by apply H].
  rewrite fmap_Some. intros (y & Hy & ->). rewrite Hf. by eapply H.
Qed.

Lemma updWs_closing (w : nat) (f : websocket -> websocket) (h : hub) (v : nat) (x : websocket) :
  (forall x, ws_state (f x) <> CLOSING) -> hb_wss (updWs w f h) !! v = Some x -> ws_state x = CLOSING -> hb_wss h !! v = Some x.
Proof.
  intros Hf. cbn. rewrite list_lookup_alter. case_decide; [subst|done].
  rewrite fmap_Some. intros (y & Hy & ->) Hc. by apply Hf in Hc.
Qed.

(** The hub's answer to the upgrade. *)
Lemma net_ok_open (cur : option nat) (d : bool) (h : hub) (w : nat) (x : websocket) :
  hb_wss h !! w = Some x -> ws_state x = CONNECTING -> net_ok None cur d h ->
  net_ok None cur d (updSock (ws_sock x) (fun s => s <| sk_attempts := 0 |>) (updWs w (fun x => x <| ws_state := OPEN |>) h)).
Proof.
  intros Hx Hc H. assert (HC : forall i v, conn_of h i v <-> conn_of (updWs w (fun x => x <| ws_state := OPEN |>) h) i v).
  { intros i v. rewrite (updWs_conn w _ h x) by done. case_decide; [subst|done]. unfold conn_of, is_live. rewrite Hx.
    cbn. split; [naive_solver|]. intros [-> _]. exists x. by rewrite Hc. }
  eapply (net_ok_one None None cur d h _ (ws_sock x)); try done; try apply H.
  - apply updWs_owner; [done | apply H].
  - intros v y Hy Hs. left. by apply updWs_closing in Hy.
  - intros k Hk [K1 K2 K3 K4 K5 K6 K7].
    assert (W : sk_ws k = Some w) by (apply K3; exists x; unfold is_live; by rewrite Hc).
    split; cbn; auto; [intros v; rewrite K3; apply HC | lia | left; by rewrite W].
Qed.

Lemma net_ok_peerId (cur : option nat) (d : bool) (h : hub) (i : nat) (f : socket -> socket) :
  (forall s, f s = s <| sk_peerId := sk_peerId (f s) |>) ->
  net_ok None cur d h -> net_ok None cur d (updSock i f h).
Proof.
  intros Hf H. assert (E : forall s, sk_ws (f s) = sk_ws s /\ sk_closed (f s) = sk_closed s
    /\ sk_retryTimer (f s) = sk_retryTimer s /\ sk_attempts (f s) = sk_attempts s).
  { intros s. rewrite Hf. done. }
  eapply (net_ok_one None _ cur d h _ i); try done; try apply H; auto.
  - intros k _. by destruct (E k) as (_ & -> & _).
  - intros k _ [K1 K2 K3 K4 K5 K6 K7]. destruct (E k) as (W & C & R & A). split; rewrite ?W, ?C, ?R, ?A; done.
Qed.

(** A connection closes: its socket is between two connections, unless it was closed itself. *)
Definition drop_ws (i w : nat) (h : hub) : hub :=
  updSock i (fun s => if bool_decide (sk_ws s = Some w) then s <| sk_ws := None |> else s)
    (updWs w (fun x => x <| ws_state := CLOSED |>) h).

Lemma net_ok_drop (cur : option nat) (d : bool) (h : hub) (w : nat) (x : websocket) :
  hb_wss h !! w = Some x -> net_ok None cur d h -> net_ok (Some (ws_sock x)) cur d (drop_ws (ws_sock x) w h).
Proof.
  intros Hx H.
  assert (HC : forall i v, conn_of (drop_ws (ws_sock x) w h) i v <-> conn_of h i v /\ v <> w).
  { intros i v. unfold drop_ws. change (conn_of (updSock ?a ?b ?c) i v) with (conn_of c i v).
    rewrite (updWs_conn w _ h x) by done. case_decide; naive_solver. }
  eapply (net_ok_one None _ cur d h _ (ws_sock x)); try done; try apply H.
  - intros j v Hj. rewrite HC. split; [|by intros []]. intros (y & Hy & <- & L). split; [by exists y|]. intros ->. congruence.
  - apply updWs_owner; [done | apply H].
  - cbn. intros k Hk Hc. by case_bool_decide.
  - intros v y Hy Hs. left. by apply updWs_closing in Hy.
  - intros k Hk [K1 K2 K3 K4 K5 K6 K7]. case_bool_decide as E.
    + split; cbn; try done; [naive_solver | | by left].
      intros v. rewrite HC, <- K3, E. naive_solver.
    + split; auto. intros v. rewrite HC, <- K3. naive_solver.
Qed.

Lemma drop_ws_idle (cur : option nat) (d : bool) (h : hub) (w : nat) (x : websocket) (k : socket) :
  hb_wss h !! w = Some x -> ws_state x <> CLOSED -> net_ok None cur d h ->
  hb_socks (drop_ws (ws_sock x) w h) !! ws_sock x = Some k -> sk_closed k = false -> sk_ws k = None.
Proof.
  intros Hx Hn H. cbn. rewrite list_lookup_alter, decide_True, fmap_Some by done. intros (k0 & Hk & ->) Hc.
  assert (L : ws_state x <> CLOSING).
  { intros Hs. destruct (no_closing _ _ _ _ H w x Hx Hs) as (k & Hk' & C). case_bool_decide; cbn in Hc; congruence. }
  assert (W : sk_ws k0 = Some w).
  { eapply so_ws; [by apply H|]. exists x. unfold is_live. by destruct (ws_state x). }
  by rewrite bool_decide_true.
Qed.

Lemma net_ok_schedule (cur : option nat) (d : bool) (h : hub) (i : nat) :
  (forall k, hb_socks h !! i = Some k -> sk_closed k = false -> sk_ws k = None) ->
  net_ok (Some i) cur d h -> net_ok None cur d (scheduleReconnect i h).
Proof.
  intros Hw H. unfold scheduleReconnect. destruct (hb_socks h !! i) as [k|] eqn:Hk.
  2: { destruct H. split; try done. intros j k Hj. eapply sock_ok_mono; [| | | | eauto]; [|done..]. congruence. }
  assert (Hno : (sk_closed k = true \/ sk_retryTimer k <> None \/ sk_attempts k = MAX_RECONNECT_ATTEMPTS) -> net_ok None cur d h).
  { intros Hc. destruct H as [H1 H2 H3 Hcl H4 H5 H6]. split; try done. intros j k' Hj. destruct (decide (j = i)) as [->|Hn].
    - simplify_eq. destruct (H2 i k Hk). split; auto. intros Hf _. destruct Hc as [?|[?|?]]; [congruence | auto..].
    - eapply sock_ok_mono; [| | | | by apply H2]; [|done..]. congruence. }
  destruct (no_sock _ _ _ _ H i k Hk) as [K1 K2 K3 K4 K5 K6 K7].
  destruct (sk_closed k) eqn:Ec; [by apply Hno; left|]. cbn.
  case_bool_decide as Er; [by apply Hno; right; left|]. destruct (Z.leb_spec MAX_RECONNECT_ATTEMPTS (sk_attempts k)).
  { apply Hno. right; right. lia. }
  assert (Er' : sk_retryTimer k = None) by (destruct (sk_retryTimer k); [by edestruct Er | done]).
  set (t := hb_nextTimer h). cbn.
  assert (HT : forall h' j u, hb_timers h' = hb_timers h ++ [{| tm_id := t; tm_due := hb_now h + reconnect_delay (sk_attempts k); tm_cb := CbReconnect i |}] ->
     timer_of h' j u <-> timer_of h j u \/ (j = i /\ u = t)).
  { intros h' j u E. unfold timer_of. rewrite E. setoid_rewrite elem_of_app. setoid_rewrite list_elem_of_singleton. split.
    - intros (y & [Hy|Hy] & <- & C); [left; by exists y|]. subst y. right. cbn in C. by injection C as ->.
    - intros [(y & Hy & <- & C)|[-> ->]]; [by exists y; auto|]. eexists. by split; [right|]. }
  eapply (net_ok_one (Some i) None cur d h _ i (fun s => s <| sk_attempts ::= Z.succ |> <| sk_retryTimer := Some t |>)); [| | | | | | | | | | | done].
  - cbn. apply alter_alter.
  - done.
  - intros j u Hj. etrans; [|symmetry; by apply HT]. naive_solver.
  - cbn. apply H.
  - done.
  - by left.
  - intros j u Hu. apply HT in Hu; [|done]. revert Hu. intros [Hu|[-> _]]; [by eapply (no_timer _ _ _ _ H)|]. by apply lookup_lt_Some in Hk.
  - cbn. rewrite map_app. apply NoDup_app. split_and!; [apply H | | apply NoDup_singleton].
    intros u (y & Eu & Hy)%list_elem_of_fmap Et%list_elem_of_singleton. apply (no_next _ _ _ _ H) in Hy. cbn in Et. unfold t in Et. lia.
  - cbn. intros y [Hy|Hy%list_elem_of_singleton]%elem_of_app; [|subst y; cbn; lia]. apply (no_next _ _ _ _ H) in Hy. lia.
  - congruence.
  - intros k' Hk' _. simplify_eq. split; cbn; try done.
    + intros Hs. apply K1 in Hs. congruence.
    + congruence.
    + intros u. etrans; [|symmetry; by apply HT]. rewrite <- K4, Er'. naive_solver.
    + left. by apply Hw.
    + lia.
    + intros _ _. right; left; done.
Qed.

(** The socket between two connections: nothing is open and nothing armed. *)
Definition between (i : nat) (h : hub) : Prop :=
  forall k, hb_socks h !! i = Some k -> sk_closed k = false /\ sk_ws k = None /\ sk_retryTimer k = None.

(** The reconnect timer fires. *)
Definition fire (i t : nat) (h : hub) : hub := updSock i (fun s => s <| sk_retryTimer := None |>) (clearTimer t h).

Lemma net_ok_fire (cur : option nat) (d : bool) (h : hub) (i t : nat) :
  timer_of h i t -> net_ok None cur d h -> net_ok (Some i) cur d (fire i t h) /\ between i (fire i t h).
Proof.
  intros Ht H.
  assert (HT : forall j u, timer_of (fire i t h) j u <-> timer_of h j u /\ u <> t).
  { intros j u. change (timer_of (fire i t h) j u) with (timer_of (clearTimer t h) j u). apply clearTimer_of. }
  assert (HK : forall k, hb_socks h !! i = Some k -> sk_retryTimer k = Some t /\ sk_closed k = false /\ sk_ws k = None).
  { intros k Hk. destruct (no_sock _ _ _ _ H i k Hk) as [_ K2 _ K4 K5 _ _]. apply K4 in Ht.
    split_and!; [done | | destruct K5; congruence]. destruct (sk_closed k); [|done]. destruct K2; congruence. }
  split.
  - eapply (net_ok_one None _ cur d h _ i); [done | done | | | done | by left | | | | done | | exact H].
    + intros j u Hj. rewrite HT. split; [|by intros []]. intros Hu. split; [done|]. intros ->.
      destruct Ht as (x & Hx & Ex & Cx), Hu as (y & Hy & Ey & Cy).
      assert (x = y) by (eapply timer_unique; [done..|congruence]). congruence.
    + apply H.
    + intros j u [Hu _]%HT. by apply (no_timer _ _ _ _ H) in Hu.
    + apply clearTimer_ids, H.
    + intros x [Hx _]%clearTimer_elem. by apply (no_next _ _ _ _ H).
    + intros k Hk [K1 K2 K3 K4 K5 K6 K7]. destruct (HK k Hk) as (R & C & W). split; cbn; try done; [|by left].
      intros u. rewrite HT, <- K4, R. naive_solver.
  - intros k. unfold fire. cbn. rewrite list_lookup_alter, decide_True, fmap_Some by done. intros (k0 & Hk & ->).
    destruct (HK k0 Hk) as (_ & C & W). done.
Qed.

(** A socket opens a connection. *)
Definition dial (i : nat) (h : hub) : hub :=
  updSock i (fun s => s <| sk_ws := Some (length (hb_wss h)) |>)
    (h <| hb_wss ::= fun l => l ++ [{| ws_sock := i; ws_state := CONNECTING |}] |>).

Lemma net_ok_dial (cur : option nat) (d : bool) (h : hub) (i : nat) :
  (i < length (hb_socks h))%nat -> between i h -> net_ok (Some i) cur d h -> net_ok None cur d (dial i h).
Proof.
  intros Hi Hb H.
  assert (HC : forall j v, conn_of (dial i h) j v <-> conn_of h j v \/ (j = i /\ v = length (hb_wss h))).
  { intros j v. unfold conn_of, dial. cbn. setoid_rewrite lookup_snoc_Some. split.
    - intros (x & [[_ Hx]|[-> <-]] & E & L); [left; by exists x | by right].
    - intros [(x & Hx & E & L)|[-> ->]]; [exists x; split; [left; split; [by apply lookup_lt_Some in Hx | done] | done]|].
      eexists. split; [by right|done]. }
  eapply (net_ok_one (Some i) _ cur d h _ i); [done | | done | | done | | apply H | apply H | apply H | congruence | | exact H].
  - intros j v Hj. rewrite HC. naive_solver.
  - unfold dial. cbn. intros v x [[_ Hx]|[_ <-]]%lookup_snoc_Some; [by eapply (no_owner _ _ _ _ H) | done].
  - unfold dial. cbn. intros v x [[_ Hx]|[_ <-]]%lookup_snoc_Some Hs; [by left | done].
  - intros k Hk [K1 K2 K3 K4 K5 K6 K7]. destruct (Hb k Hk) as (C & W & R). split; cbn; try done.
    + by rewrite C.
    + intros v. rewrite HC, <- K3, W. naive_solver.
    + by right.
    + by left.
Qed.

(** A new socket takes the place of the old one, which was closed. *)
Definition push_socket (h : hub) : hub := h <| hb_socks ::= fun l => l ++ [new_socket] |>.

Lemma net_ok_push (cur : option nat) (h : hub) :
  (forall i k, hb_socks h !! i = Some k -> sk_closed k = true) -> net_ok None cur false h ->
  net_ok (Some (length (hb_socks h))) (Some (length (hb_socks h))) false (push_socket h)
  /\ between (length (hb_socks h)) (push_socket h).
Proof.
  intros Hc H. split.
  - split; cbn; rewrite ?length_app; cbn; try apply H.
    + intros i E. injection E as <-. lia.
    + intros i k [[Hi Hk]|[-> <-]]%lookup_snoc_Some.
      * pose proof (Hc i k Hk) as Ec. destruct (no_sock _ _ _ _ H i k Hk) as [K1 K2 K3 K4 K5 K6 K7].
        split; auto.
      * split; cbn; try done; try lia; [naive_solver | | | by left];
          intros v; (split; [done|]).
        { intros (x & Hx & E & _). apply (no_owner _ _ _ _ H) in Hx. lia. }
        { intros Hv%(no_timer _ _ _ _ H). lia. }
    + intros w x Hx. apply (no_owner _ _ _ _ H) in Hx. lia.
    + intros w x Hx Hs. destruct (no_closing _ _ _ _ H w x Hx Hs) as (k & Hk & C). exists k. split; [|done].
      by apply lookup_app_l_Some.
    + intros i t Ht. apply (no_timer _ _ _ _ H) in Ht. lia.
  - intros k. unfold push_socket. cbn. rewrite lookup_snoc_Some. intros [[? _]|[_ <-]]; [lia | done].
Qed.

(** ** Ending

    The hub of a session whose sockets are all closed. *)
Definition ended (h : hub) : Prop := forall i k, hb_socks h !! i = Some k -> sk_closed k = true.

Lemma net_ok_ended (cur cur' : option nat) (d d' : bool) (h : hub) :
  ended h -> (forall i, cur' = Some i -> (i < length (hb_socks h))%nat) -> net_ok None cur d h -> net_ok None cur' d' h.
Proof.
  intros He Hr [H1 H2 H3 Hcl H4 H5 H6]. split; try done. intros i k Hk. pose proof (He i k Hk).
  destruct (H2 i k Hk). by split.
Qed.

(** Nothing goes out any more. *)
Lemma ended_send (cur : option nat) (d : bool) (i : nat) (m : client_msg) (h : hub) :
  ended h -> net_ok None cur d h -> send i m h = (false, h).
Proof.
  intros He H. unfold send, live_ws. destruct (hb_socks h !! i) as [k|] eqn:Hk; [|done].
  destruct (no_sock _ _ _ _ H i k Hk) as [_ K2 _ _ _ _ _]. destruct (K2 (He i k Hk)) as [W _]. cbn. by rewrite W.
Qed.

Lemma close_ended (d : bool) (i : nat) (h : hub) : net_ok None (Some i) d h -> ended (close i h).
Proof.
  intros H j k. unfold close. destruct (hb_socks h !! i) as [k0|] eqn:Hi.
  - assert (E : hb_socks (match sk_ws k0 with Some w => ws_close w (clearOpt (sk_retryTimer k0) h) | None => clearOpt (sk_retryTimer k0) h end) = hb_socks h).
    { by destruct (sk_ws k0), (sk_retryTimer k0). }
    cbn. rewrite E, list_lookup_alter. case_decide; [subst; rewrite fmap_Some; naive_solver|].
    intros Hk. eapply so_stale; [by apply H | left; congruence].
  - intros Hk. eapply so_stale; [by apply H | left; congruence].
Qed.

(** Closing the session's socket: its connection and its timer go. *)
Lemma close_socks (i : nat) (h : hub) :
  hb_socks (close i h) = alter (fun s => s <| sk_closed := true |> <| sk_retryTimer := None |> <| sk_ws := None |>) i (hb_socks h).
Proof.
  unfold close. destruct (hb_socks h !! i) as [k|] eqn:Hk; [by destruct (sk_ws k), (sk_retryTimer k)|].
  apply list_eq. intros j. rewrite list_lookup_alter. case_decide; [subst; by rewrite Hk | done].
Qed.

Lemma close_conn (cur : option nat) (d : bool) (i : nat) (h : hub) (k : socket) (j v : nat) :
  hb_socks h !! i = Some k -> net_ok None cur d h -> conn_of (close i h) j v <-> conn_of h j v /\ j <> i.
Proof.
  intros Hk H. destruct (no_sock _ _ _ _ H i k Hk) as [_ _ K3 _ _ _ _]. unfold close. rewrite Hk.
  destruct (sk_ws k) as [w|] eqn:W.
  - destruct (proj1 (K3 w) eq_refl) as (x & Hx & Ex & Lx).
    transitivity (conn_of (ws_close w h) j v); [by destruct (sk_retryTimer k)|]. unfold ws_close.
    rewrite (updWs_conn w _ h x) by (try done; by destruct (ws_state x)).
    case_decide as Ev; [subst v; rewrite Ex; split|].
    + intros [-> L]. destruct (ws_state x) eqn:Sx; unfold is_live in *; cbn in *; try rewrite Sx in *; done.
    + intros [(y & Hy & Ey & _) Hj]. congruence.
    + split; [|by intros []]. intros Hv. split; [done|]. intros ->. apply K3 in Hv. congruence.
  - transitivity (conn_of h j v); [by destruct (sk_retryTimer k)|].
    split; [|by intros []]. intros Hv. split; [done|]. intros ->. by apply K3 in Hv.
Qed.

Lemma close_timer (cur : option nat) (d : bool) (i : nat) (h : hub) (k : socket) (j u : nat) :
  hb_socks h !! i = Some k -> net_ok None cur d h -> timer_of (close i h) j u <-> timer_of h j u /\ j <> i.
Proof.
  intros Hk H. destruct (no_sock _ _ _ _ H i k Hk) as [_ _ _ K4 _ _ _]. unfold close. rewrite Hk.
  destruct (sk_retryTimer k) as [t|] eqn:R.
  - transitivity (timer_of (clearTimer t h) j u); [by destruct (sk_ws k)|]. rewrite clearTimer_of.
    pose proof (proj1 (K4 t) eq_refl) as (x & Hx & Ex & Cx).
    split; intros [Hu Hn]; split; try done; [intros ->; apply K4 in Hu; congruence|].
    intros ->. destruct Hu as (y & Hy & Ey & Cy).
    assert (x = y) by (eapply timer_unique; [done..|congruence]). congruence.
  - transitivity (timer_of h j u); [by destruct (sk_ws k)|].
    split; [|by intros []]. intros Hu. split; [done|]. intros ->. by apply K4 in Hu.
Qed.

Lemma close_timers (i : nat) (h : hub) : NoDup (map tm_id (hb_timers h)) ->
  NoDup (map tm_id (hb_timers (close i h))) /\ hb_nextTimer (close i h) = hb_nextTimer h
  /\ forall x, x ∈ hb_timers (close i h) -> x ∈ hb_timers h.
Proof.
  intros H. unfold close. destruct (hb_socks h !! i) as [k|]; [|done].
  destruct (sk_ws k), (sk_retryTimer k) as [t|]; cbn; try done;
    (split_and!; [by apply (clearTimer_ids t) | done | by intros x [Hx _]%(clearTimer_elem t)]).
Qed.

(** The connection is left to close. *)
Lemma close_wss (cur : option nat) (d : bool) (i : nat) (h : hub) (k : socket) (v : nat) (x : websocket) :
  hb_socks h !! i = Some k -> net_ok None cur d h -> hb_wss (close i h) !! v = Some x ->
  hb_wss h !! v = Some x \/ (ws_sock x = i /\ ws_state x = CLOSING).
Proof.
  intros Hk H. destruct (no_sock _ _ _ _ H i k Hk) as [_ _ K3 _ _ _ _]. unfold close. rewrite Hk.
  destruct (sk_ws k) as [w|] eqn:W, (sk_retryTimer k); cbn; try (by left);
    rewrite list_lookup_alter; (case_decide; [subst v; rewrite fmap_Some|by left]);
    destruct (proj1 (K3 w) eq_refl) as (x0 & Hx0 & Ex0 & L); intros (y & Hy & ->); right;
    assert (y = x0) as -> by congruence; unfold is_live in L; by destruct (ws_state x0).
Qed.

(** What was open or armed before is gone, whatever becomes of the session. *)
Lemma net_ok_close (cur' : option nat) (d d' : bool) (i : nat) (h : hub) :
  cur' = None \/ cur' = Some i -> net_ok None (Some i) d h -> net_ok None cur' d' (close i h).
Proof.
  intros Hc H. assert (Hi : (i < length (hb_socks h))%nat) by by apply H.
  destruct (lookup_lt_is_Some_2 _ _ Hi) as [k Hk].
  destruct (close_timers i h (no_ids _ _ _ _ H)) as (I & N & L).
  apply (net_ok_ended (Some i) cur' d d').
  { by eapply close_ended. }
  { rewrite close_socks, length_alter. intros j ->. destruct Hc; [done|congruence]. }
  eapply (net_ok_one None _ (Some i) d h _ i); [apply close_socks | | | | done | | | done | | done | | exact H].
  - intros j v Hj. rewrite (close_conn _ _ i h k) by done. tauto.
  - intros j u Hj. rewrite (close_timer _ _ i h k) by done. tauto.
  - intros v x Hx. eapply close_wss in Hx as [Hx|[-> _]]; [| |exact Hk|exact H]; [by eapply (no_owner _ _ _ _ H) | done].
  - intros v x Hx _. eapply close_wss in Hx as [Hx|[E _]]; [| |exact Hk|exact H]; auto.
  - intros j u Hu. eapply close_timer in Hu as [Hu _]; [|done..]. by apply (no_timer _ _ _ _ H) in Hu.
  - intros x Hx%L. rewrite N. by apply (no_next _ _ _ _ H).
  - intros k' Hk' K. destruct K as [K1 K2 K3 K4 K5 K6 K7]. split; cbn; try done; [| | by left].
    + intros v. rewrite (close_conn _ _ i h k) by done. naive_solver.
    + intros u. rewrite (close_timer _ _ i h k) by done. naive_solver.
Qed.
