(* ===== verification/CollabDocSync.v ===== *)
(** * Shared documents: [luna/web/src/components/files/collabDocSync.js]

    A session shares one document with the peers of its room.  The first peer seeds it from the file on the
    drive; later ones ask for it and fall back to the file when nobody answers.  Yjs and its awareness
    protocol are third-party: the operations of the class [Yjs]. *)

From S2P Require Import Prelude JsString Bytes Base64 CollabSocket.

(** The state a peer shares about itself. *)
Record presence_state := { pr_peerId : option Z; pr_name : jstr; pr_color : jstr }.

(** A transaction gives the update it emits, if it changed anything; decoding may throw, and may have
    changed the document before it did. *)
Class Yjs := {
  ydoc : Type;
  new_doc : ydoc;
  encodeStateVector : ydoc -> bytes;
  encodeStateAsUpdate : ydoc -> bytes -> thrown bytes;
  applyUpdate : ydoc -> bytes -> ydoc * thrown unit;
  (* [ydoc.getText("file")] *)
  text_string : ydoc -> jstr;
  text_insert : ydoc -> jstr -> ydoc * option bytes;
  text_delete : ydoc -> ydoc * option bytes;
  awareness : Type;
  new_awareness : ydoc -> awareness;
  (* with the ids its [update] event lists *)
  setLocalState : awareness -> presence_state -> awareness * list Z;
  encodeAwarenessUpdate : awareness -> list Z -> bytes;
  applyAwarenessUpdate : awareness -> bytes -> awareness * thrown unit;
  (* the clients of [getStates()], with the [peerId] each stored *)
  getStates : awareness -> list (Z * option Z);
  removeAwarenessStates : awareness -> list Z -> awareness;
  destroyAwareness : awareness -> awareness;
}.

(** ** Constants and encoding *)

Definition SEED_FALLBACK_MS : Z := 4000.
Definition SYNC_RETRY_MS : Z := 1500.
Definition B64_CHUNK : nat := Z.to_nat 0x8000.

(** The loop of [toB64]: [String.fromCharCode] of one chunk after the other. *)
Fixpoint binary_string (fuel : nat) (b : bytes) : jstr :=
  match fuel, b with
  | _, [] | O, _ => []
  | S fuel, _ => map Z.to_N (take B64_CHUNK b) ++ binary_string fuel (drop B64_CHUNK b)
  end.

(** [btoa] of bytes does not throw. *)
Definition toB64 (b : bytes) : jstr := toBase64 (map Z.of_N (binary_string (length b) b)).
Definition fromB64 (s : jstr) : thrown bytes := base64_bytes s.

(** ** State *)

(** Callbacks of the editor, and two marks of the session's own: the document was seeded, a waiter
    for [ready] was released. *)
Inductive notice :=
| NPeers (peers : list peer_info)
| NStatus (status : jstr)
| NPeerSaved (peer : option Z)
| NFormResponse (count : option Z)
| NSeeded (content : jstr)
| NReady.

Section Sync.
Context `{Y : Yjs}.

(** How the document becomes the file. *)
Record DocAdapter := {
  isEmpty : ydoc -> bool;
  seed : ydoc -> jstr -> ydoc * option bytes;
  serialize_doc : ydoc -> jstr;
  matchesSeed : ydoc -> jstr -> bool;
  clear : ydoc -> ydoc * option bytes;
}.

(** The adapter of text files. *)
Definition text_adapter : DocAdapter := {|
  isEmpty d := Nat.eqb (length (text_string d)) 0;
  seed d content :=
    if Nat.eqb (length (text_string d)) 0 && Nat.ltb 0 (length content) then text_insert d content else (d, None);
  serialize_doc d := text_string d;
  matchesSeed d s := bool_decide (text_string d = s);
  clear d := if negb (Nat.eqb (length (text_string d)) 0) then text_delete d else (d, None);
|}.

Record session := {
  s_hub : hub; s_doc : ydoc; s_aware : awareness; s_adapter : DocAdapter;
  s_peers : list peer_info; s_peerId : option Z;
  s_synced : bool; s_pendingContent : option jstr; s_destroyed : bool; s_welcomed : bool; s_offline : bool;
  s_seeded : bool; s_seedContent : option jstr; s_seedTimer : option nat; s_retryTimer : option nat;
  s_socket : option nat; s_log : list notice;
}.

#[export] Instance eta_session : Settable session := fun s =>
  {| s_hub := s_hub s; s_doc := s_doc s; s_aware := s_aware s; s_adapter := s_adapter s; s_peers := s_peers s;
     s_peerId := s_peerId s; s_synced := s_synced s; s_pendingContent := s_pendingContent s;
     s_destroyed := s_destroyed s; s_welcomed := s_welcomed s; s_offline := s_offline s; s_seeded := s_seeded s;
     s_seedContent := s_seedContent s; s_seedTimer := s_seedTimer s; s_retryTimer := s_retryTimer s;
     s_socket := s_socket s; s_log := s_log s |}.

(** [new CollabDocSync({ …, solo, adapter })] *)
Definition new_session (solo : bool) (adapter : option DocAdapter) : session := {|
  s_hub := empty_hub; s_doc := new_doc; s_aware := new_awareness new_doc;
  s_adapter := default text_adapter adapter; s_peers := []; s_peerId := None;
  s_synced := false; s_pendingContent := None; s_destroyed := false; s_welcomed := false; s_offline := solo;
  s_seeded := false; s_seedContent := None; s_seedTimer := None; s_retryTimer := None; s_socket := None;
  s_log := [] |}.

Definition notify (n : notice) (s : session) : session := s <| s_log ::= fun l => l ++ [n] |>.
Definition on_hub (f : hub -> hub) (s : session) : session := s <| s_hub ::= f |>.

(** [this.socket?.…] *)
Definition via_socket (f : nat -> hub -> hub) (s : session) : session :=
  match s_socket s with Some i => on_hub (f i) s | None => s end.

Definition frame_of (k : string) (d : bytes) : payload := 
  {| pl_k := Some (js k); pl_d := Some (toB64 d); pl_kind := None; pl_patch := None; pl_checksum := None |}.

Definition sendPresenceFrame (p : payload) (s : session) : session := via_socket (fun i => sendPresence i p) s.
Definition sendSyncRequest (s : session) : session :=
  sendPresenceFrame (frame_of "s1" (encodeStateVector (s_doc s))) s.

(** The listeners the constructor puts on the document and on the awareness, for changes whose origin is not
    [remote]. *)
Definition on_doc_update (update : bytes) (s : session) : session :=
  if s_destroyed s then s else via_socket (fun i => sendOp i (frame_of "u" update)) s.

Definition on_aware_update (ids : list Z) (s : session) : session :=
  if s_destroyed s then s
  else match ids with
       | [] => s
       | _ => sendPresenceFrame (frame_of "a" (encodeAwarenessUpdate (s_aware s) ids)) s
       end.

(** ** Peers *)

(** [peers.set(id, peer)] on a [Map]. *)
Fixpoint map_set_peer (p : peer_info) (l : list peer_info) : list peer_info :=
  match l with
  | [] => [p]
  | q :: l => if pi_id q =? pi_id p then p :: l else q :: map_set_peer p l
  end.

Definition otherPeers (s : session) : list peer_info :=
  List.filter (fun p => negb (bool_decide (Some (pi_id p) = s_peerId s))) (s_peers s).
Definition emitPeers (s : session) : session := notify (NPeers (otherPeers s)) s.

(** [Math.min(...this.peers.keys())], [None] when there are none (it is infinite then). *)
Definition lowest_peer (l : list peer_info) : option Z :=
  match l with
  | [] => None
  | p :: l => Some (foldl (fun m q => Z.min m (pi_id q)) (pi_id p) l)
  end.
Definition is_lowest (s : session) : bool :=
  match s_peerId s, lowest_peer (s_peers s) with
  | Some i, Some l => i =? l
  | _, _ => false
  end.

(** ** Seeding *)

Definition maybeSeed (force : bool) (s : session) : session :=
  if s_destroyed s || negb (isEmpty (s_adapter s) (s_doc s)) then s
  else
    let alone := Nat.eqb (length (otherPeers s)) 0 in
    let allowed := s_welcomed s || s_offline s in
    if negb allowed || (negb alone && negb force) then s
    else
      match s_pendingContent s with
      | None => s
      | Some content =>
          let s := s <| s_pendingContent := None |> <| s_seeded := true |> <| s_seedContent := Some content |> in
          let '(d, update) := seed (s_adapter s) (s_doc s) content in
          let s := notify (NSeeded content) (s <| s_doc := d |>) in
          match update with Some u => on_doc_update u s | None => s end
      end.

Definition adoptContent (content : jstr) (s : session) : session :=
  maybeSeed false (s <| s_pendingContent := Some content |>).

Definition serialize (s : session) : jstr := serialize_doc (s_adapter s) (s_doc s).

Definition hydrated (s : session) : bool :=
  s_seeded s || s_synced s || negb (isEmpty (s_adapter s) (s_doc s)).

Definition notifySaved (size : option Z) (s : session) : session :=
  via_socket (fun i => sendSaved i size None) s.

(** ** Frames *)

Definition onPeerLeave (peerId : option Z) (s : session) : session :=
  match peerId with
  | None => s
  | Some id =>
      let s := emitPeers (s <| s_peers ::= List.filter (fun p => negb (pi_id p =? id)) |>) in
      let stale := map fst (List.filter (fun c => bool_decide (snd c = Some id)) (getStates (s_aware s))) in
      match stale with
      | [] => s
      | _ => s <| s_aware := removeAwarenessStates (s_aware s) stale |>
      end
  end.

Definition onPresence (cursor : option payload) (s : session) : session :=
  match cursor with
  | Some {| pl_k := k; pl_d := Some d |} =>
      let kind_is n := bool_decide (k = Some (js n)) in
      if kind_is "s1"%string then
        match sv ← fromB64 d; encodeStateAsUpdate (s_doc s) sv with
        | Ok reply => sendPresenceFrame (frame_of "s2" reply) s
        | Err _ => s
        end
      else if kind_is "s2"%string then
        let s := s <| s_synced := true |> in
        match fromB64 d with
        | Ok u => s <| s_doc := (applyUpdate (s_doc s) u).1 |>
        | Err _ => s
        end
      else if kind_is "a"%string then
        match fromB64 d with
        | Ok u => s <| s_aware := (applyAwarenessUpdate (s_aware s) u).1 |>
        | Err _ => s
        end
      else s
  | _ => s
  end.

Definition onOp (p : option payload) (s : session) : session :=
  match p with
  | Some {| pl_k := k; pl_d := Some d |} =>
      if bool_decide (k = Some (js "u")) then
        let s := s <| s_synced := true |> in
        match fromB64 d with
        | Ok u => s <| s_doc := (applyUpdate (s_doc s) u).1 |>
        | Err _ => s
        end
      else s
  | _ => s
  end.

Definition onPeerJoin (peer : option peer_info) (s : session) : session :=
  match peer with
  | None => s
  | Some p =>
      let s := emitPeers (s <| s_peers ::= map_set_peer p |>) in
      if is_lowest s then sendSyncRequest s else s
  end.

(** [_onWelcome] up to the backlog. *)
Definition welcome_start (peer_id : option Z) (peers : list peer_info) (s : session) : session :=
  let s := s <| s_welcomed := true |> <| s_peerId := peer_id |>
             <| s_peers := foldl (fun l p => map_set_peer p l) [] peers |> in
  let s := emitPeers s in
  let self := id ← s_peerId s; List.find (fun p => pi_id p =? id) (s_peers s) in
  let name := match self with Some p => if truthy (pi_username p) then pi_username p else js "Someone" | None => js "Someone" end in
  let color := match self ≫= pi_color with Some c => if truthy c then c else js "var(--accent)" | None => js "var(--accent)" end in
  let '(a, ids) := setLocalState (s_aware s) {| pr_peerId := s_peerId s; pr_name := name; pr_color := color |} in
  on_aware_update ids (s <| s_aware := a |>).

(** Two sessions seeded while the hub could not be reached: all but the lowest peer drop their copy. *)
Definition drop_double_seed (s : session) : session :=
  match s_seedContent s with
  | Some content =>
      if s_seeded s && matchesSeed (s_adapter s) (s_doc s) content && negb (is_lowest s)
      then s <| s_doc := (clear (s_adapter s) (s_doc s)).1 |> <| s_seeded := false |>
      else s
  | None => s
  end.

(** The rest of it, after the backlog. *)
Definition welcome_end (s : session) : session :=
  let s :=
    match otherPeers s with
    | [] => maybeSeed false s
    | _ =>
        let s := sendSyncRequest (drop_double_seed s) in
        let '(t, h) := setTimer CbSyncRetry SYNC_RETRY_MS (s_hub s) in
        let s := s <| s_hub := h |> <| s_retryTimer := Some t |> in
        let '(t, h) := setTimer CbSeed SEED_FALLBACK_MS (s_hub s) in
        s <| s_hub := h |> <| s_seedTimer := Some t |>
    end in
  notify NReady s.

Fixpoint onMessage (msg : frame) (s : session) : session :=
  if s_destroyed s then s
  else
    match msg with
    | FWelcome peer_id peers _ catchup =>
        let fix replay (l : list frame) (s : session) :=
          match l with [] => s | ev :: l => replay l (onMessage ev s) end in
        welcome_end (replay catchup (welcome_start peer_id peers s))
    | FPeerJoin peer => onPeerJoin peer s
    | FPeerLeave id => onPeerLeave id s
    | FPresence cursor => onPresence cursor s
    | FOp _ _ p => onOp p s
    | FSaved id _ => notify (NPeerSaved id) s
    | FFormResponse n => notify (NFormResponse n) s
    | FAck _ | FSaveLock _ | FOther => s
    end.

(** ** Callbacks of the socket *)

Definition sock_message (i : nat) (msg : frame) (s : session) : session :=
  if bool_decide (s_socket s = Some i) then onMessage msg s else s.

Definition is_down (status : jstr) : bool := bool_decide (status = js "closed") || bool_decide (status = js "error").

Definition sock_status (i : nat) (status : jstr) (s : session) : session :=
  if negb (bool_decide (s_socket s = Some i)) then s
  else
    let s := if is_down status && negb (s_welcomed s) then maybeSeed false (s <| s_offline := true |>) else s in
    let willRetry :=
      match hb_socks (s_hub s) !! i with
      | Some k => negb (sk_closed k) && (sk_attempts k <? MAX_RECONNECT_ATTEMPTS)
      | None => false
      end in
    let display := if is_down status && willRetry then js "reconnecting" else status in
    notify (NStatus display) s.

(** ** Connecting and ending *)

Definition sync_connect (s : session) : session :=
  if s_destroyed s then s
  else
    match s_socket s with
    | None =>
        if s_offline s then notify (NStatus (js "open")) s
        else
          let i := length (hb_socks (s_hub s)) in
          let s := (on_hub (fun h => h <| hb_socks ::= fun l => l ++ [new_socket] |>) s) <| s_socket := Some i |> in
          connect s_hub on_hub sock_status i s
    | Some j =>
        let closed := match hb_socks (s_hub s) !! j with Some k => sk_closed k | None => false end in
        if negb closed then s
        else
          let i := length (hb_socks (s_hub s)) in
          let s := (on_hub (fun h => h <| hb_socks ::= fun l => l ++ [new_socket] |>) s) <| s_socket := Some i |> in
          connect s_hub on_hub sock_status i s
    end.

Definition disconnect (s : session) : session :=
  (via_socket close s) <| s_socket := None |> <| s_welcomed := false |>.

Definition destroy (s : session) : session :=
  let s := s <| s_destroyed := true |> in
  let s := on_hub (fun h => clearOpt (s_retryTimer s) (clearOpt (s_seedTimer s) h)) s in
  let s := via_socket close s in
  s <| s_aware ::= destroyAwareness |>.

(** ** Steps

    What can happen next: a call of the editor, a change it made to the document or to its own presence, a
    report of the browser on a connection, the passing of time, and a timer that is due. *)
Inductive sync_event :=
| EvConnect | EvDisconnect | EvDestroy
| EvAdopt (content : jstr)
| EvSaved (size : option Z)
| EvEdit (d : ydoc) (update : bytes)
| EvPresence (a : awareness) (ids : list Z)
| EvWs (w : nat) (e : ws_event)
| EvTick (ms : Z)
| EvTimer (t : nat).

Definition on_timer (cb : timer_cb) (s : session) : session :=
  match cb with
  | CbReconnect i => on_reconnect s_hub on_hub sock_status i s
  | CbSyncRetry =>
      let s := s <| s_retryTimer := None |> in
      if s_synced s then s else sendSyncRequest s
  | CbSeed => maybeSeed true (s <| s_seedTimer := None |>)
  | CbLock => s
  end.

Definition step (e : sync_event) (s : session) : option session :=
  match e with
  | EvConnect => Some (sync_connect s)
  | EvDisconnect => Some (disconnect s)
  | EvDestroy => Some (destroy s)
  | EvAdopt content => Some (adoptContent content s)
  | EvSaved size => Some (notifySaved size s)
  | EvEdit d u => Some (on_doc_update u (s <| s_doc := d |>))
  | EvPresence a ids => Some (on_aware_update ids (s <| s_aware := a |>))
  | EvWs w e => ws_step s_hub on_hub sock_status sock_message w e s
  | EvTick ms => if 0 <=? ms then Some (on_hub (fun h => h <| hb_now ::= Z.add ms |>) s) else None
  | EvTimer t =>
      x ← List.find (fun x => Nat.eqb (tm_id x) t) (hb_timers (s_hub s));
      if tm_due x <=? hb_now (s_hub s)
      then Some (on_timer (tm_cb x) (on_hub (clearTimer t) s)) else None
  end.

Fixpoint run (es : list sync_event) (s : session) : option session :=
  match es with
  | [] => Some s
  | e :: es => s ← step e s; run es s
  end.

Inductive reachable (solo : bool) (adapter : option DocAdapter) : session -> Prop :=
| reach_new : reachable solo adapter (new_session solo adapter)
| reach_step e s s' : reachable solo adapter s -> step e s = Some s' -> reachable solo adapter s'.
End Sync.
