(* ===== verification/CollabFacts.v ===== *)
(** * Shared documents: sessions and rooms

    What a session of [collabDocSync.js] promises over all its events: its connection is kept, a
    destroyed session is silent, and in a room of sessions the frames in flight die out. *)

From S2P Require Import Prelude JsString Bytes Base64 CollabSocket CollabSocketFacts CollabDocSync.

(** ** Induction on frames

    The backlog of a [welcome] holds frames again. *)
Section FrameInduction.
Context (P : frame -> Prop) (Hw : forall p ps cw l, Forall P l -> P (FWelcome p ps cw l))
  (Hj : forall p, P (FPeerJoin p)) (Hl : forall i, P (FPeerLeave i)) (Hp : forall c, P (FPresence c))
  (Ho : forall q i p, P (FOp q i p)) (Ha : forall q, P (FAck q)) (Hs : forall i q, P (FSaved i q)) (Hk : forall g, P (FSaveLock g))
  (Hf : forall n, P (FFormResponse n)) (Hx : P FOther).

Fixpoint frame_nested_ind (f : frame) : P f :=
  match f with
  | FWelcome p ps cw l => Hw p ps cw l ((fix go l : Forall P l :=
      match l with [] => Forall_nil_2 _ | f :: l => Forall_cons_2 _ _ _ (frame_nested_ind f) (go l) end) l)
  | FPeerJoin p => Hj p | FPeerLeave i => Hl i | FPresence c => Hp c | FOp q i p => Ho q i p
  | FAck q => Ha q | FSaved i q => Hs i q | FSaveLock g => Hk g | FFormResponse n => Hf n | FOther => Hx
  end.
End FrameInduction.

Section Facts.
Context `{Y : Yjs}.

(** ** Changes that leave the connection alone *)

Record calm (s s' : session) : Prop := {
  ca_hub : quiet (s_hub s) (s_hub s');
  ca_socket : s_socket s' = s_socket s;
  ca_destroyed : s_destroyed s' = s_destroyed s;
  ca_adapter : s_adapter s' = s_adapter s;
}.

#[export] Instance calm_preorder : PreOrder calm.
Proof. split; [done|]. intros a b c [] []. split; [etrans; eassumption | congruence..]. Qed.

Lemma calm_of (s s' : session) : s_hub s' = s_hub s -> s_socket s' = s_socket s -> s_destroyed s' = s_destroyed s ->
  s_adapter s' = s_adapter s -> calm s s'.
Proof. intros E. split; [by rewrite E | done..]. Qed.

Lemma calm_notify (n : notice) (s : session) : calm s (notify n s).
Proof. by apply calm_of. Qed.

Lemma calm_via (f : nat -> hub -> hub) (s : session) : (forall i, quiet (s_hub s) (f i (s_hub s))) -> calm s (via_socket f s).
Proof. intros H. unfold via_socket. destruct (s_socket s) as [i|]; [by split; [apply H|..] | done]. Qed.

Lemma calm_presence (p : payload) (s : session) : calm s (sendPresenceFrame p s).
Proof. apply calm_via. intros i. apply quiet_send. Qed.

Lemma calm_doc_update (u : bytes) (s : session) : calm s (on_doc_update u s).
Proof. unfold on_doc_update. destruct (s_destroyed s); [done|]. apply calm_via. intros i. apply quiet_send. Qed.

Lemma calm_aware_update (ids : list Z) (s : session) : calm s (on_aware_update ids s).
Proof. unfold on_aware_update. destruct (s_destroyed s), ids; try done. apply calm_presence. Qed.


Lemma calm_maybeSeed (force : bool) (s : session) : calm s (maybeSeed force s).
Proof.
  unfold maybeSeed. repeat case_match; try done; try (etrans; [|apply calm_doc_update]); by apply calm_of.
Qed.

Lemma calm_adopt (content : jstr) (s : session) : calm s (adoptContent content s).
Proof. etrans; [|apply calm_maybeSeed]. by apply calm_of. Qed.

Lemma calm_leave (id : option Z) (s : session) : calm s (onPeerLeave id s).
Proof. unfold onPeerLeave. destruct id; [|done]. cbn. case_match; by apply calm_of. Qed.

Lemma calm_join (p : option peer_info) (s : session) : calm s (onPeerJoin p s).
Proof.
  unfold onPeerJoin. destruct p as [p|]; [|done]. cbn. case_match; [etrans; [|apply calm_presence]|]; by apply calm_of.
Qed.

Lemma calm_on_presence (c : option payload) (s : session) : calm s (onPresence c s).
Proof.
  unfold onPresence. repeat case_match; try done; try by apply calm_of. apply calm_presence.
Qed.

Lemma calm_on_op (p : option payload) (s : session) : calm s (onOp p s).
Proof. unfold onOp. repeat case_match; try done; by apply calm_of. Qed.

Lemma calm_welcome_start (p : option Z) (ps : list peer_info) (s : session) : calm s (welcome_start p ps s).
Proof. unfold welcome_start. case_match. etrans; [|apply calm_aware_update]. by apply calm_of. Qed.

Lemma calm_timer (cb : timer_cb) (ms : Z) (s s' : session) : (forall i, cb <> CbReconnect i) ->
  s_hub s' = (setTimer cb ms (s_hub s)).2 -> s_socket s' = s_socket s -> s_destroyed s' = s_destroyed s ->
  s_adapter s' = s_adapter s -> calm s s'.
Proof. intros Hcb E. split; [rewrite E; by apply quiet_setTimer | done..]. Qed.

Lemma calm_drop (s : session) : calm s (drop_double_seed s).
Proof. unfold drop_double_seed. repeat case_match; try done. Qed.

Lemma calm_welcome_end (s : session) : calm s (welcome_end s).
Proof.
  unfold welcome_end. etrans; [|apply calm_notify]. case_match; [apply calm_maybeSeed|].
  etrans; [apply calm_drop|]. etrans; [apply calm_presence|]. fold (sendSyncRequest (drop_double_seed s)).
  set (s1 := sendSyncRequest (drop_double_seed s)).
  etrans; [by eapply (calm_timer CbSyncRetry SYNC_RETRY_MS s1 (s1 <| s_hub := (setTimer CbSyncRetry SYNC_RETRY_MS (s_hub s1)).2 |> <| s_retryTimer := Some (hb_nextTimer (s_hub s1)) |>))|].
  by eapply (calm_timer CbSeed SEED_FALLBACK_MS).
Qed.

Lemma onMessage_welcome (p : option Z) (ps : list peer_info) (cw : option bool) (l : list frame) (s : session) :
  onMessage (FWelcome p ps cw l) s
  = if s_destroyed s then s else welcome_end (foldl (fun s ev => onMessage ev s) (welcome_start p ps s) l).
Proof.
  cbn [onMessage]. destruct (s_destroyed s); [done|]. f_equal. generalize (welcome_start p ps s).
  induction l as [|f l IH]; intros t; [done|]. apply IH.
Qed.

Lemma calm_onMessage (f : frame) (s : session) : calm s (onMessage f s).
Proof.
  revert s. induction f as [p ps cw l Hl| | | | | | | | |] using frame_nested_ind; intros s;
    [rewrite onMessage_welcome | cbn [onMessage]..]; destruct (s_destroyed s); try done.
  - etrans; [apply (calm_welcome_start p ps)|]. etrans; [|apply calm_welcome_end].
    generalize (welcome_start p ps s). induction Hl as [|f l Hf Hl IH]; intros t; cbn; [reflexivity|]. etrans; [apply Hf | apply IH].
  - apply calm_join.
  - apply calm_leave.
  - apply calm_on_presence.
  - apply calm_on_op.
Qed.

Lemma calm_sock_message (i : nat) (f : frame) (s : session) : calm s (sock_message i f s).
Proof. unfold sock_message. case_match; [apply calm_onMessage | done]. Qed.

Lemma calm_sock_status (i : nat) (status : jstr) (s : session) : calm s (sock_status i status s).
Proof.
  unfold sock_status. case_match; [done|]. etrans; [|apply calm_notify].
  case_match; [|done]. etrans; [|apply calm_maybeSeed]. by apply calm_of.
Qed.

(** ** The connection of a session *)

Definition session_ok (exc : option nat) (s : session) : Prop := net_ok exc (s_socket s) (s_destroyed s) (s_hub s).

Lemma session_ok_calm (exc : option nat) (s s' : session) : calm s s' -> session_ok exc s -> session_ok exc s'.
Proof. intros [Q S D _]. unfold session_ok. rewrite S, D. by apply net_ok_quiet. Qed.

Lemma connect_ok (i : nat) (s : session) :
  (i < length (hb_socks (s_hub s)))%nat -> between i (s_hub s) -> session_ok (Some i) s ->
  session_ok None (connect s_hub on_hub sock_status i s).
Proof.
  intros Hi Hb H. unfold connect. destruct (lookup_lt_is_Some_2 _ _ Hi) as [k Hk]. rewrite Hk.
  destruct (Hb k Hk) as (-> & _). eapply session_ok_calm; [apply calm_sock_status|]. by apply (net_ok_dial _ _ (s_hub s)).
Qed.

(** A call of [connect()] finds every older socket closed. *)
Lemma stale_ended (s : session) :
  session_ok None s -> match s_socket s with None => True
    | Some j => match hb_socks (s_hub s) !! j with Some k => sk_closed k | None => false end = true end -> ended (s_hub s).
Proof.
  intros H Hj i k Hk. destruct (decide (s_socket s = Some i)) as [E|E]; [by rewrite E, Hk in Hj|].
  eapply so_stale; [by apply H | by left].
Qed.

Lemma sync_connect_ok (s : session) : session_ok None s -> session_ok None (sync_connect s).
Proof.
  intros H. unfold sync_connect. destruct (s_destroyed s) eqn:D; [done|].
  assert (Hnew : ended (s_hub s) -> session_ok None (connect s_hub on_hub sock_status (length (hb_socks (s_hub s)))
     ((on_hub push_socket s) <| s_socket := Some (length (hb_socks (s_hub s))) |>))).
  { intros He. destruct (net_ok_push (s_socket s) (s_hub s) He) as [Hn Hb]; [by rewrite <- D|].
    apply connect_ok; cbn; [rewrite length_app; cbn; lia | done | by unfold session_ok; cbn; rewrite D]. }
  destruct (s_socket s) as [j|] eqn:Ej.
  - case_match eqn:E; [done|]. apply negb_false_iff in E. apply Hnew, stale_ended; [done | by rewrite Ej].
  - destruct (s_offline s); [eapply session_ok_calm; [apply calm_notify | done]|].
    apply Hnew, stale_ended; [done | by rewrite Ej].
Qed.

Lemma disconnect_ok (s : session) : session_ok None s -> session_ok None (disconnect s).
Proof.
  unfold session_ok, disconnect, via_socket. destruct (s_socket s) as [i|] eqn:E; cbn; rewrite ?E; [|done].
  apply net_ok_close. by left.
Qed.

(** Clearing timers that a closed session left behind. *)
Lemma ended_clearOpt (cur : option nat) (d : bool) (h : hub) (t : option nat) :
  ended h -> net_ok None cur d h -> net_ok None cur d (clearOpt t h) /\ ended (clearOpt t h).
Proof.
  intros He H. destruct t as [t|]; [|done]. split; [|done]. apply net_ok_clear; [|done]. intros i Ht.
  pose proof (no_timer _ _ _ _ H i t Ht) as [k Hk]%lookup_lt_is_Some_2.
  destruct (no_sock _ _ _ _ H i k Hk) as [_ K2 _ K4 _ _ _]. apply K4 in Ht. destruct (K2 (He i k Hk)). congruence.
Qed.

(** Clearing a timer commutes with closing a socket, up to the timers kept twice over. *)
Lemma close_clear (t : option nat) (i : nat) (h : hub) : close i (clearOpt t h) = clearOpt t (close i h).
Proof.
  destruct t as [t|]; [|done]. unfold close. cbn [clearOpt]. change (hb_socks (clearTimer t h)) with (hb_socks h).
  destruct (hb_socks h !! i) as [k|]; [|done].
  assert (C : forall u, clearTimer u (clearTimer t h) = clearTimer t (clearTimer u h)).
  { intros u. unfold clearTimer. cbn. unfold set_field. cbn. f_equal. generalize (hb_timers h). intros l.
    induction l as [|x l IH]; cbn; [done|]. repeat (case_match; cbn); congruence. }
  by destruct (sk_retryTimer k) as [u|]; cbn [clearOpt]; rewrite ?C; destruct (sk_ws k).
Qed.

Lemma destroy_ok (s : session) : session_ok None s -> session_ok None (destroy s) /\ ended (s_hub (destroy s)).
Proof.
  intros H.
  assert (Hh : exists h, ended h /\ net_ok None (s_socket s) true h
     /\ s_hub (destroy s) = clearOpt (s_retryTimer s) (clearOpt (s_seedTimer s) h)).
  { unfold session_ok in H. unfold destroy, via_socket. cbn. destruct (s_socket s) as [i|] eqn:E; cbn.
    - exists (close i (s_hub s)). rewrite !close_clear. split_and!; [by eapply close_ended | | done].
      apply (net_ok_close _ (s_destroyed s)); auto.
    - assert (He : ended (s_hub s)) by (apply stale_ended; [unfold session_ok|]; by rewrite E).
      exists (s_hub s). split_and!; [done | | done]. by apply (net_ok_ended None _ (s_destroyed s)). }
  destruct Hh as (h & He & Hn & E). unfold session_ok. rewrite E.
  assert (S : s_socket (destroy s) = s_socket s /\ s_destroyed (destroy s) = true).
  { unfold destroy, via_socket. cbn. by destruct (s_socket s). }
  destruct S as [-> ->]. destruct (ended_clearOpt _ _ _ (s_seedTimer s) He Hn). by apply ended_clearOpt.
Qed.

Lemma on_close_ok (w : nat) (x : websocket) (s : session) :
  hb_wss (s_hub s) !! w = Some x -> ws_state x <> CLOSED -> session_ok None s ->
  session_ok None (on_close on_hub sock_status (ws_sock x) w (on_hub (updWs w (fun x => x <| ws_state := CLOSED |>)) s)).
Proof.
  intros Hx Hn H. unfold on_close. set (s1 := on_hub _ (on_hub _ s)).
  assert (H1 : session_ok (Some (ws_sock x)) s1) by by apply (net_ok_drop _ _ (s_hub s) w x).
  pose proof (calm_sock_status (ws_sock x) (js "closed") s1) as C.
  pose proof (session_ok_calm _ _ _ C H1) as H2. apply net_ok_schedule; [|exact H2].
  intros k. rewrite (q_socks _ _ (ca_hub _ _ C)). by apply (drop_ws_idle _ _ (s_hub s) w x k Hx Hn H).
Qed.

Lemma ws_step_ok (w : nat) (e : ws_event) (s s' : session) : session_ok None s ->
  ws_step s_hub on_hub sock_status sock_message w e s = Some s' -> session_ok None s'.
Proof.
  intros H. unfold ws_step. destruct (hb_wss (s_hub s) !! w) as [x|] eqn:Hx; [|done]. cbn.
  destruct e as [|msg| |].
  - destruct (ws_state x) eqn:Sx; [|done..]. intros E. injection E as <-. unfold on_open.
    set (s1 := on_hub _ (on_hub _ s)).
    assert (H1 : session_ok None s1) by by apply (net_ok_open _ _ (s_hub s) w x).
    pose proof (session_ok_calm _ _ _ (calm_sock_status (ws_sock x) (js "open") s1) H1) as H2. by apply net_ok_sent.
  - destruct (ws_state x) eqn:Sx; try done. intros E. injection E as <-. unfold on_message.
    destruct msg as [msg|]; [|done]. eapply session_ok_calm; [apply calm_sock_message|].
    destruct msg; try done. by apply (net_ok_peerId _ _ (s_hub s)).
  - intros E. assert (s' = on_close on_hub sock_status (ws_sock x) w (on_hub (updWs w (fun x => x <| ws_state := CLOSED |>)) s))
      as -> by (destruct (ws_state x); by simplify_eq). apply on_close_ok; [done | | done]. by destruct (ws_state x).
  - intros E. assert (s' = on_error sock_status (ws_sock x) s) as -> by (destruct (ws_state x); by simplify_eq).
    eapply session_ok_calm; [apply calm_sock_status | done].
Qed.

Lemma find_timer (t : nat) (l : list timer) (x : timer) :
  List.find (fun x => Nat.eqb (tm_id x) t) l = Some x -> x ∈ l /\ tm_id x = t.
Proof. intros [Hx Ht]%find_some. split; [by apply list_elem_of_In | by apply Nat.eqb_eq]. Qed.

Lemma on_timer_ok (x : timer) (s : session) : x ∈ hb_timers (s_hub s) -> session_ok None s ->
  session_ok None (on_timer (tm_cb x) (on_hub (clearTimer (tm_id x)) s)).
Proof.
  intros Hx H.
  assert (H1 : (forall i, tm_cb x <> CbReconnect i) -> session_ok None (on_hub (clearTimer (tm_id x)) s)).
  { intros Hn. apply net_ok_clear; [|done]. intros i (y & Hy & Ey & Cy).
    assert (x = y) by (eapply timer_unique; [done..|congruence]). subst y. by eapply Hn. }
  destruct (tm_cb x) as [i| | |] eqn:Cx; cbn [on_timer].
  - assert (Ht : timer_of (s_hub s) i (tm_id x)) by by exists x.
    destruct (net_ok_fire _ _ _ i (tm_id x) Ht H) as [Hf Hb]. apply connect_ok; [|exact Hb|exact Hf].
    cbn. rewrite length_alter. by apply (no_timer _ _ _ _ H) in Ht.
  - cbn. case_match; [by apply H1|]. eapply session_ok_calm; [apply calm_presence | by apply H1].
  - eapply session_ok_calm; [apply calm_maybeSeed | by apply H1].
  - by apply H1.
Qed.

Lemma step_ok (e : sync_event) (s s' : session) : session_ok None s -> step e s = Some s' -> session_ok None s'.
Proof.
  intros H. destruct e as [| | |content|size|d u|a ids|w e|ms|t]; cbn; try (intros E; injection E as <-).
  - by apply sync_connect_ok.
  - by apply disconnect_ok.
  - by apply destroy_ok.
  - by eapply session_ok_calm; [apply calm_adopt|].
  - eapply session_ok_calm; [|done]. apply calm_via. intros i. apply quiet_send.
  - by eapply session_ok_calm; [apply calm_doc_update|].
  - by eapply session_ok_calm; [apply calm_aware_update|].
  - by apply ws_step_ok.
  - case_match; [|done]. intros E. injection E as <-. by apply net_ok_tick.
  - intros (x & Hx%find_timer & E)%bind_Some. destruct Hx as [Hx <-]. case_match; [|done]. injection E as <-.
    by apply on_timer_ok.
Qed.

Lemma reachable_ok (solo : bool) (adapter : option DocAdapter) (s : session) : reachable solo adapter s -> session_ok None s.
Proof.
  induction 1 as [|e s s' _ IH Hs]; [|by eapply step_ok]. split; cbn; try done; try (intros; by set_solver).
  - constructor.
Qed.

(** A connection under way is that of the current socket. *)
Lemma live_current (s : session) (w : nat) (x : websocket) :
  session_ok None s -> hb_wss (s_hub s) !! w = Some x -> is_live x = true ->
  s_socket s = Some (ws_sock x) /\ s_destroyed s = false
  /\ exists k, hb_socks (s_hub s) !! ws_sock x = Some k /\ sk_ws k = Some w.
Proof.
  intros H Hx L. destruct (lookup_lt_is_Some_2 _ _ (no_owner _ _ _ _ H w x Hx)) as [k Hk].
  destruct (no_sock _ _ _ _ H _ _ Hk) as [K1 K2 K3 _ _ _ _]. pose proof (proj2 (K3 w) (ex_intro _ x (conj Hx (conj eq_refl L)))) as Hw.
  assert (Hc : sk_closed k = false) by (destruct (sk_closed k); [destruct K2; congruence | done]).
  split_and!; [| | by exists k].
  - destruct (decide (s_socket s = Some (ws_sock x))); [done|]. rewrite K1 in Hc; [done | by left].
  - destruct (s_destroyed s); [|done]. rewrite K1 in Hc; [done | by right].
Qed.

(** ** Reconnecting *)

Lemma schedule_arms (i : nat) (h : hub) (k : socket) :
  hb_socks h !! i = Some k -> sk_closed k = false -> sk_retryTimer k = None -> sk_attempts k < MAX_RECONNECT_ATTEMPTS ->
  let x := {| tm_id := hb_nextTimer h; tm_due := hb_now h + reconnect_delay (sk_attempts k); tm_cb := CbReconnect i |} in
  hb_timers (scheduleReconnect i h) = hb_timers h ++ [x] /\ hb_now (scheduleReconnect i h) = hb_now h
  /\ hb_wss (scheduleReconnect i h) = hb_wss h
  /\ exists k', hb_socks (scheduleReconnect i h) !! i = Some k' /\ sk_closed k' = false.
Proof.
  intros Hk Hc Hr Ha x. unfold scheduleReconnect. rewrite Hk, Hc, Hr. cbn. destruct (Z.leb_spec MAX_RECONNECT_ATTEMPTS (sk_attempts k)); [lia|].
  cbn. split_and!; [done..|]. rewrite alter_alter, list_lookup_alter, decide_True, Hk by done. by eexists.
Qed.

Lemma find_last_timer (l : list timer) (x : timer) : (forall y, y ∈ l -> (tm_id y < tm_id x)%nat) ->
  List.find (fun y => Nat.eqb (tm_id y) (tm_id x)) (l ++ [x]) = Some x.
Proof.
  induction l as [|y l IH]; cbn; intros H; [by rewrite Nat.eqb_refl|].
  assert (tm_id y < tm_id x)%nat by (apply H; left). destruct (Nat.eqb_spec (tm_id y) (tm_id x)); [lia|].
  apply IH. intros z Hz. apply H. by right.
Qed.

Lemma connect_dials (i : nat) (s : session) (k : socket) :
  hb_socks (s_hub s) !! i = Some k -> sk_closed k = false ->
  let h := s_hub (connect s_hub on_hub sock_status i s) in
  exists k', hb_socks h !! i = Some k' /\ sk_ws k' = Some (length (hb_wss (s_hub s)))
    /\ hb_wss h !! length (hb_wss (s_hub s)) = Some {| ws_sock := i; ws_state := CONNECTING |}.
Proof.
  intros Hk Hc h. unfold h, connect. rewrite Hk, Hc.
  destruct (calm_sock_status i (js (if sk_attempts k =? 0 then "connecting" else "reconnecting")) (on_hub (dial i) s)) as [[S W _ _ _] _ _ _].
  change (on_hub (updSock i _) (on_hub _ s)) with (on_hub (dial i) s). rewrite S, W. cbn.
  rewrite list_lookup_alter, decide_True, Hk by done. eexists. split_and!; [done | done |].
  by rewrite lookup_app_r, Nat.sub_diag by done.
Qed.

Lemma reconnect_delay_bounds (a : Z) : 0 <= a -> 1000 <= reconnect_delay a <= 15000.
Proof. intros Ha. unfold reconnect_delay. assert (0 < 2 ^ a) by lia. lia. Qed.

Lemma close_then_dial (s : session) (i w : nat) (k : socket) :
  session_ok None s -> s_socket s = Some i -> hb_socks (s_hub s) !! i = Some k -> sk_ws k = Some w ->
  sk_attempts k < MAX_RECONNECT_ATTEMPTS ->
  exists t s' k' w', run [EvWs w WsClose; EvTick (reconnect_delay (sk_attempts k)); EvTimer t] s = Some s'
    /\ hb_socks (s_hub s') !! i = Some k' /\ sk_ws k' = Some w'
    /\ hb_wss (s_hub s') !! w' = Some {| ws_sock := i; ws_state := CONNECTING |}.
Proof.
  intros H Hs Hk Hw Ha. destruct (no_sock _ _ _ _ H i k Hk) as [_ K2 K3 _ K5 K6 _].
  destruct (proj1 (K3 w) Hw) as (x & Hx & <- & L).
  assert (Hc : sk_closed k = false) by (destruct (sk_closed k); [destruct K2; congruence | done]).
  assert (Hr : sk_retryTimer k = None) by (destruct K5; congruence).
  set (s1 := on_hub (drop_ws (ws_sock x) w) s). set (s2 := sock_status (ws_sock x) (js "closed") s1).
  destruct (calm_sock_status (ws_sock x) (js "closed") s1) as [[S W N (new & T & _ & X & _) _] _ _ _]. fold s2 in S, W, N, T, X.
  assert (Hk2 : hb_socks (s_hub s2) !! ws_sock x = Some (k <| sk_ws := None |>)).
  { rewrite S. cbn. rewrite list_lookup_alter, decide_True, Hk by done. cbn. by rewrite bool_decide_true. }
  assert (Hids : forall y, y ∈ hb_timers (s_hub s2) -> (tm_id y < hb_nextTimer (s_hub s2))%nat).
  { eapply no_next, session_ok_calm; [apply calm_sock_status|]. by apply (net_ok_drop _ _ (s_hub s) w x). }
  destruct (schedule_arms _ _ _ Hk2 Hc Hr Ha) as (T3 & N3 & W3 & k3 & Hk3 & Hc3).
  set (y := {| tm_id := hb_nextTimer (s_hub s2) |}) in T3. set (s3 := on_hub (scheduleReconnect (ws_sock x)) s2).
  set (s4 := on_hub (fun h => h <| hb_now ::= Z.add (reconnect_delay (sk_attempts k)) |>) s3).
  exists (tm_id y). eexists (on_timer (CbReconnect (ws_sock x)) (on_hub (clearTimer (tm_id y)) s4)).
  edestruct (connect_dials (ws_sock x) (on_hub (fire (ws_sock x) (tm_id y)) s4)) as (k' & Hk' & Hw' & Hx').
  { cbn. rewrite list_lookup_alter, decide_True by done. change (hb_socks _) with (hb_socks (scheduleReconnect (ws_sock x) (s_hub s2))).
    by rewrite Hk3. }
  { done. }
  exists k'. eexists. split_and!; [|exact Hk' | exact Hw' | exact Hx'].
  assert (E1 : step (EvWs w WsClose) s = Some s3).
  { cbn [step]. unfold ws_step. rewrite Hx. cbn. unfold is_live in L. by destruct (ws_state x). }
  assert (E2 : step (EvTick (reconnect_delay (sk_attempts k))) s3 = Some s4).
  { cbn [step]. destruct (Z.leb_spec 0 (reconnect_delay (sk_attempts k))); [done|]. pose proof (reconnect_delay_bounds (sk_attempts k)). lia. }
  cbn [run]. rewrite E1. cbn [mbind option_bind]. rewrite E2. cbn [mbind option_bind]. cbn [step].
  change (hb_timers (s_hub s4)) with (hb_timers (scheduleReconnect (ws_sock x) (s_hub s2))). rewrite T3, find_last_timer by done.
  cbn [mbind option_bind].
  change (hb_now (s_hub s4)) with (reconnect_delay (sk_attempts k) + hb_now (scheduleReconnect (ws_sock x) (s_hub s2))). rewrite N3.
  cbn. by rewrite (proj2 (Z.leb_le _ _)) by lia.
Qed.

(** ** After [destroy] *)

Definition edits (e : sync_event) : bool := match e with EvEdit _ _ => true | _ => false end.

(** Nothing went out and the document stayed. *)
Record mute (s s' : session) : Prop := {
  mu_sent : hb_sent (s_hub s') = hb_sent (s_hub s);
  mu_destroyed : s_destroyed s' = true;
  mu_doc : s_doc s' = s_doc s;
}.

Lemma destroyed_ended (s : session) : session_ok None s -> s_destroyed s = true -> ended (s_hub s).
Proof. intros H D i k Hk. eapply so_stale; [by apply H | by right]. Qed.

Lemma mute_send (m : client_msg) (s : session) : session_ok None s -> s_destroyed s = true ->
  mute s (via_socket (fun i h => (send i m h).2) s).
Proof.
  intros H D. unfold via_socket. destruct (s_socket s) as [i|]; [|by split]. split; cbn; try done.
  rewrite (ended_send (s_socket s) (s_destroyed s)); [done | by apply destroyed_ended | done].
Qed.

Lemma mute_maybeSeed (force : bool) (s : session) : s_destroyed s = true -> maybeSeed force s = s.
Proof. intros D. unfold maybeSeed. by rewrite D. Qed.

Lemma mute_status (i : nat) (status : jstr) (s : session) : s_destroyed s = true -> mute s (sock_status i status s).
Proof.
  intros D. unfold sock_status. destruct (negb _); [by split|].
  destruct (is_down status && negb (s_welcomed s)); [|by split].
  rewrite mute_maybeSeed by done. by split.
Qed.

Lemma mute_schedule (i : nat) (h : hub) : hb_sent (scheduleReconnect i h) = hb_sent h.
Proof. unfold scheduleReconnect. destruct (hb_socks h !! i) as [k|]; [|done]. destruct (sk_closed k || _); [done|]. by destruct (_ <=? _). Qed.

Lemma mute_close (i : nat) (h : hub) : hb_sent (close i h) = hb_sent h.
Proof. unfold close. destruct (hb_socks h !! i) as [k|]; [|done]. by destruct (sk_ws k), (sk_retryTimer k). Qed.

Lemma ended_idle (cur : option nat) (d : bool) (h : hub) (i : nat) (n : nat) :
  ended h -> net_ok None cur d h -> ~ conn_of h i n /\ ~ timer_of h i n.
Proof.
  intros He H. split.
  - intros Hc. pose proof Hc as (x & Hx & Ex & _). apply (no_owner _ _ _ _ H) in Hx. rewrite Ex in Hx.
    destruct (lookup_lt_is_Some_2 _ _ Hx) as [k Hk]. destruct (no_sock _ _ _ _ H i k Hk) as [_ K2 K3 _ _ _ _].
    apply K3 in Hc. destruct (K2 (He i k Hk)). congruence.
  - intros Ht. destruct (lookup_lt_is_Some_2 _ _ (no_timer _ _ _ _ H i n Ht)) as [k Hk].
    destruct (no_sock _ _ _ _ H i k Hk) as [_ K2 _ K4 _ _ _]. apply K4 in Ht. destruct (K2 (He i k Hk)). congruence.
Qed.

Lemma mute_ws (w : nat) (e : ws_event) (s s' : session) : session_ok None s -> s_destroyed s = true ->
  ws_step s_hub on_hub sock_status sock_message w e s = Some s' -> mute s s'.
Proof.
  intros H D. unfold ws_step. destruct (hb_wss (s_hub s) !! w) as [x|] eqn:Hx; [|done]. cbn.
  destruct (ended_idle _ _ _ (ws_sock x) w (destroyed_ended s H D) H) as [Hn _].
  assert (L : is_live x = false) by (destruct (is_live x) eqn:L; [destruct Hn; by exists x | done]).
  unfold is_live in L. destruct e as [|msg| |], (ws_state x); try done; intros E; injection E as <-.
  - unfold on_close. set (s1 := on_hub _ (on_hub _ s)).
    destruct (mute_status (ws_sock x) (js "closed") s1 D) as [A B C]. split; cbn; [|done..].
    rewrite mute_schedule. exact A.
  - by apply mute_status.
Qed.

Lemma mute_timer (x : timer) (s : session) : session_ok None s -> s_destroyed s = true -> x ∈ hb_timers (s_hub s) ->
  mute s (on_timer (tm_cb x) (on_hub (clearTimer (tm_id x)) s)).
Proof.
  intros H D Hx. destruct (tm_cb x) as [i| | |] eqn:Cx; cbn [on_timer].
  - destruct (ended_idle _ _ _ i (tm_id x) (destroyed_ended s H D) H) as [_ Hn]. destruct Hn. by exists x.
  - destruct (s_synced _); [by split|]. set (s1 := (on_hub (clearTimer (tm_id x)) s) <| s_retryTimer := None |>).
    assert (H1 : session_ok None s1).
    { apply net_ok_clear; [|done]. intros i. by apply (ended_idle _ _ _ i (tm_id x) (destroyed_ended s H D) H). }
    by destruct (mute_send (CPresence (frame_of "s1" (encodeStateVector (s_doc s1)))) s1 H1 D).
  - rewrite mute_maybeSeed by done. by split.
  - by split.
Qed.

Lemma mute_step (e : sync_event) (s s' : session) : session_ok None s -> s_destroyed s = true -> step e s = Some s' ->
  hb_sent (s_hub s') = hb_sent (s_hub s) /\ s_destroyed s' = true /\ (edits e = false -> s_doc s' = s_doc s).
Proof.
  intros H D. assert (Hm : forall s', mute s s' -> hb_sent (s_hub s') = hb_sent (s_hub s) /\ s_destroyed s' = true
    /\ (edits e = false -> s_doc s' = s_doc s)) by (intros ? []; auto).
  destruct e as [| | |content|size|d u|a ids|w e|ms|t]; cbn [step]; try (intros E; injection E as <-).
  - unfold sync_connect. by rewrite D.
  - apply Hm. unfold disconnect, via_socket. destruct (s_socket s); split; cbn; by rewrite ?mute_close.
  - apply Hm. unfold destroy, via_socket. cbn.
    destruct (s_socket s); split; cbn; rewrite ?mute_close; try done; by destruct (s_seedTimer s), (s_retryTimer s).
  - unfold adoptContent. by rewrite mute_maybeSeed.
  - apply Hm. by apply mute_send.
  - unfold on_doc_update. cbn. by rewrite D.
  - unfold on_aware_update. cbn. by rewrite D.
  - intros E. apply Hm. by eapply mute_ws.
  - case_match; [|done]. intros E. by injection E as <-.
  - intros (x & Hx%find_timer & E)%bind_Some. destruct Hx as [Hx <-]. case_match; [|done]. injection E as <-.
    apply Hm. by apply mute_timer.
Qed.

Lemma mute_run (es : list sync_event) (s s' : session) : session_ok None s -> s_destroyed s = true -> run es s = Some s' ->
  hb_sent (s_hub s') = hb_sent (s_hub s) /\ s_destroyed s' = true
  /\ (forallb (fun e => negb (edits e)) es = true -> s_doc s' = s_doc s).
Proof.
  revert s. induction es as [|e es IH]; cbn; intros s H D; [by intros [= <-]|].
  intros (s1 & E1 & E)%bind_Some. destruct (mute_step e s s1 H D E1) as (A & B & C).
  destruct (IH s1 (step_ok _ _ _ H E1) B E) as (A' & B' & C'). split_and!; [congruence | done|].
  intros [He%negb_true_iff Hes]%andb_true_iff. rewrite C', C; done.
Qed.
End Facts.
