(* ===== verification/CollabRoom.v ===== *)
(** * Rooms: the sessions of a document and the hub between them

    Lunad's hub ([luna/crates/lunad/src/office/collab.rs]) passes what one peer sends to the others without looking
    into it.  A room holds the sessions of [collabDocSync.js] and the frames on their way to them, which may arrive
    in any order or be lost. *)

From S2P Require Import Prelude JsString Bytes Base64 CollabSocket CollabSocketFacts CollabDocSync CollabFacts.

Section Room.
Context `{Y : Yjs}.
(** What the hub checks of a session and of an edit: the right to write, and the size. *)
Context (can_write : nat -> bool) (fits : payload -> bool).

(** ** The hub *)

(** Everyone but the sender ([should_skip_echo]). *)
Definition others (n i : nat) : list nat := List.filter (fun j => negb (Nat.eqb j i)) (seq 0 n).

(** [CollabHub::handle]: the frames one message of session [i] becomes, with the sessions they go to; acknowledgements
    and refusals go back to the sender.  The sequence numbers of edits are left out: these sessions do not read them. *)
Definition hub_handle (n i : nat) (peer_id : option Z) (m : client_msg) : list (nat * frame) :=
  match m with
  | CHello => []
  | CPresence p => map (fun j => (j, FPresence (Some p))) (others n i)
  | COp p =>
      if negb (can_write i) then [(i, FOther)]
      else if negb (fits p) then [(i, FOther)]
      else map (fun j => (j, FOp None peer_id (Some p))) (others n i) ++ [(i, FOther)]
  | CSaved _ seq =>
      if negb (can_write i) then [(i, FOther)] else map (fun j => (j, FSaved peer_id seq)) (others n i)
  | CSaveLock => [(i, FOther)]
  | CSaveEnd => []
  end.

(** ** Rooms *)

Record room := { r_sessions : list session; r_flight : list (nat * frame) }.

(** What [s'] sent since [s]. *)
Definition sent_since (s s' : session) : list client_msg :=
  map snd (drop (length (hb_sent (s_hub s))) (hb_sent (s_hub s'))).

(** The [k]th frame on its way arrives on connection [w] of its session, or is lost. *)
Inductive room_event := Arrives (k w : nat) | Lost (k : nat).

Definition room_step (e : room_event) (r : room) : option room :=
  match e with
  | Arrives k w =>
      d ← r_flight r !! k; s ← r_sessions r !! d.1;
      s' ← step (EvWs w (WsMessage (Some d.2))) s;
      Some {| r_sessions := <[d.1 := s']> (r_sessions r);
              r_flight := delete k (r_flight r)
                ++ concat (map (hub_handle (length (r_sessions r)) d.1 (s_peerId s')) (sent_since s s')) |}
  | Lost k =>
      _ ← r_flight r !! k;
      Some {| r_sessions := r_sessions r; r_flight := delete k (r_flight r) |}
  end.

Fixpoint room_run (es : list room_event) (r : room) : option room :=
  match es with
  | [] => Some r
  | e :: es => r ← room_step e r; room_run es r
  end.

(** ** The load of a room

    What a frame can still cause among [n] sessions: the answer it gets, and the answers to that. *)

Definition is_s1 (p : payload) : bool := bool_decide (pl_k p = Some (js "s1")).

Fixpoint reply_cost (n : nat) (f : frame) : nat :=
  match f with
  | FWelcome _ _ _ l =>
      n + (fix go (l : list frame) := match l with [] => 0 | f :: l => reply_cost n f + go l end) l + n * S n
  | FPeerJoin _ => n * S n
  | FPresence (Some p) => if is_s1 p then n else 0
  | _ => 0
  end%nat.
Definition weight (n : nat) (f : frame) : nat := S (reply_cost n f).
Definition flight_weight (n : nat) (l : list (nat * frame)) : nat := sum_list_with (fun d => weight n (snd d)) l.
Definition load (r : room) : nat := flight_weight (length (r_sessions r)) (r_flight r).

(** What a message weighs at each session it reaches. *)
Definition msg_weight (n : nat) (m : client_msg) : nat :=
  match m with CPresence p => weight n (FPresence (Some p)) | CHello | CSaveEnd => 0 | _ => 1 end%nat.

Definition out_weight (n : nat) (out : list (nat * client_msg)) : nat := sum_list_with (fun m => n * msg_weight n (snd m))%nat out.

(** ** What handling a frame sends *)

Definition sends (n c : nat) (s s' : session) : Prop :=
  exists out, hb_sent (s_hub s') = hb_sent (s_hub s) ++ out /\ (out_weight n out <= c)%nat.

Lemma out_weight_app (n : nat) (a b : list (nat * client_msg)) : out_weight n (a ++ b) = (out_weight n a + out_weight n b)%nat.
Proof. unfold out_weight. by rewrite sum_list_with_app. Qed.

Lemma sends_trans (n c1 c2 : nat) (a b c : session) : sends n c1 a b -> sends n c2 b c -> sends n (c1 + c2) a c.
Proof.
  intros (o1 & E1 & H1) (o2 & E2 & H2). exists (o1 ++ o2). rewrite E2, E1, app_assoc, out_weight_app. split; [done | lia].
Qed.

Lemma sends_same (n c : nat) (a b : session) : hb_sent (s_hub b) = hb_sent (s_hub a) -> sends n c a b.
Proof. intros E. exists []. rewrite app_nil_r. split; [done | cbn; lia]. Qed.

Lemma sends_le (n c c' : nat) (a b : session) : (c <= c')%nat -> sends n c a b -> sends n c' a b.
Proof. intros L (o & E & H). exists o. split; [done | lia]. Qed.

Lemma sends_before (n c : nat) (a a' b : session) : hb_sent (s_hub a') = hb_sent (s_hub a) -> sends n c a' b -> sends n c a b.
Proof. intros E (o & E' & H). exists o. by rewrite <- E. Qed.

Lemma sends_send (n c : nat) (m : client_msg) (s : session) : (n * msg_weight n m <= c)%nat ->
  sends n c s (via_socket (fun i h => (send i m h).2) s).
Proof.
  intros Hc. unfold via_socket. destruct (s_socket s) as [i|]; [|by apply sends_same]. unfold sends, on_hub, send. cbn.
  destruct (live_ws i (s_hub s)) as [w|]; cbn.
  - exists [(w, m)]. split; [done|]. unfold out_weight. cbn. lia.
  - exists []. rewrite app_nil_r. split; [done | cbn; lia].
Qed.

Lemma msg_weight_presence (n : nat) (k : string) (b : bytes) :
  msg_weight n (CPresence (frame_of k b)) = S (if bool_decide (js k = js "s1") then n else 0%nat).
Proof.
  cbn. unfold weight. cbn. unfold is_s1. cbn. do 2 f_equal.
  by destruct (decide (js k = js "s1")) as [->|H]; [rewrite !bool_decide_true | rewrite !bool_decide_false by congruence].
Qed.

Lemma sends_doc_update (n : nat) (u : bytes) (s : session) : sends n n s (on_doc_update u s).
Proof. unfold on_doc_update. destruct (s_destroyed s); [by apply sends_same|]. apply sends_send. cbn. lia. Qed.

Lemma sends_aware_update (n : nat) (ids : list Z) (s : session) : sends n n s (on_aware_update ids s).
Proof.
  unfold on_aware_update. destruct (s_destroyed s); [by apply sends_same|]. destruct ids; [by apply sends_same|].
  apply sends_send. rewrite msg_weight_presence. rewrite bool_decide_false by done. lia.
Qed.

Lemma sends_sync_request (n : nat) (s : session) : sends n (n * S n) s (sendSyncRequest s).
Proof. apply sends_send. rewrite msg_weight_presence. rewrite bool_decide_true by done. lia. Qed.

Lemma sends_maybeSeed (n : nat) (force : bool) (s : session) : sends n n s (maybeSeed force s).
Proof.
  unfold maybeSeed. destruct (_ || _); [by apply sends_same|]. cbn. destruct (_ || _); [by apply sends_same|].
  destruct (s_pendingContent s) as [content|]; [|by apply sends_same]. cbn.
  destruct (seed (s_adapter s) (s_doc s) content) as [d [u|]]; [|by apply sends_same].
  eapply sends_before; [|apply sends_doc_update]. done.
Qed.

Lemma sends_presence (n : nat) (c : option payload) (s : session) : sends n (reply_cost n (FPresence c)) s (onPresence c s).
Proof.
  unfold onPresence. destruct c as [[k [d|]]|]; try by apply sends_same. cbn. unfold is_s1. cbn.
  case_bool_decide as E1.
  - destruct (_ : thrown bytes) as [reply|e]; [|by apply sends_same]. apply sends_send.
    rewrite msg_weight_presence. rewrite bool_decide_false by done. lia.
  - destruct (bool_decide (k = Some (js "s2"))); [destruct (fromB64 d); by apply sends_same|].
    destruct (bool_decide (k = Some (js "a"))); [destruct (fromB64 d)|]; by apply sends_same.
Qed.

Lemma sends_op (n c : nat) (p : option payload) (s : session) : sends n c s (onOp p s).
Proof. unfold onOp. repeat case_match; by apply sends_same. Qed.

Lemma sends_leave (n c : nat) (id : option Z) (s : session) : sends n c s (onPeerLeave id s).
Proof. unfold onPeerLeave. destruct id; [|by apply sends_same]. cbn. case_match; by apply sends_same. Qed.

Lemma sends_join (n : nat) (p : option peer_info) (s : session) : sends n (n * S n) s (onPeerJoin p s).
Proof.
  unfold onPeerJoin. destruct p as [p|]; [|by apply sends_same]. cbn. case_match; [|by apply sends_same].
  eapply sends_before; [|apply sends_sync_request]. done.
Qed.

Lemma sends_welcome_start (n : nat) (p : option Z) (ps : list peer_info) (s : session) : sends n n s (welcome_start p ps s).
Proof. unfold welcome_start. case_match. eapply sends_before; [|apply sends_aware_update]. done. Qed.

Lemma sends_welcome_end (n : nat) (s : session) : sends n (n * S n) s (welcome_end s).
Proof.
  unfold welcome_end. destruct (otherPeers s).
  - eapply (sends_le n n); [lia|]. by destruct (sends_maybeSeed n false s) as (o & E & H); exists o.
  - destruct (sends_sync_request n (drop_double_seed s)) as (o & E & H). exists o. split; [|done]. cbn. rewrite E. f_equal.
    unfold drop_double_seed. by repeat case_match.
Qed.

Lemma sends_onMessage (n : nat) (f : frame) (s : session) : sends n (reply_cost n f) s (onMessage f s).
Proof.
  revert s. induction f as [p ps cw l Hl| | | | | | | | |] using frame_nested_ind; intros s;
    [rewrite onMessage_welcome | cbn [onMessage]..]; (destruct (s_destroyed s); [by apply sends_same|]);
    try by apply sends_same.
  - cbn [reply_cost]. eapply sends_trans; [|apply sends_welcome_end]. eapply sends_trans; [apply (sends_welcome_start n p ps)|].
    generalize (welcome_start p ps s). induction Hl as [|f l Hf Hl IH]; intros t; cbn; [by apply sends_same|].
    eapply sends_trans; [apply Hf | apply IH].
  - apply sends_join.
  - apply sends_leave.
  - apply sends_presence.
  - apply sends_op.
Qed.

(** Only the frame's handler sends: the socket itself adds nothing. *)
Lemma sends_arrival (n w : nat) (f : frame) (s s' : session) :
  step (EvWs w (WsMessage (Some f))) s = Some s' -> sends n (reply_cost n f) s s'.
Proof.
  cbn [step]. unfold ws_step. intros (x & _ & E)%bind_Some. destruct (ws_state x); try done. injection E as <-.
  unfold on_message. set (s1 := match f with FWelcome _ _ _ _ => _ | _ => _ end).
  apply (sends_before n _ s s1); [by destruct f|]. unfold sock_message. case_match; [apply sends_onMessage | by apply sends_same].
Qed.

(** ** The hub adds no more than a message weighs *)

Lemma length_others (n i : nat) : (length (others n i) <= n)%nat.
Proof. unfold others. etrans; [apply filter_length_le|]. by rewrite length_seq. Qed.

Lemma length_others_lt (n i : nat) : (i < n)%nat -> (S (length (others n i)) <= n)%nat.
Proof.
  intros Hi. unfold others. rewrite <- (length_seq n 0) at 2. rewrite <- (filter_length (fun j => negb (Nat.eqb j i)) (seq 0 n)).
  assert (0 < length (List.filter (fun x => negb (negb (Nat.eqb x i))) (seq 0 n)))%nat; [|lia].
  assert (Hin : In i (List.filter (fun x => negb (negb (Nat.eqb x i))) (seq 0 n))).
  { apply filter_In. rewrite negb_involutive, Nat.eqb_refl. split; [|done]. apply in_seq. lia. }
  destruct (List.filter _ _); [done | cbn; lia].
Qed.

Lemma flight_weight_app (n : nat) (a b : list (nat * frame)) : flight_weight n (a ++ b) = (flight_weight n a + flight_weight n b)%nat.
Proof. unfold flight_weight. by rewrite sum_list_with_app. Qed.

Lemma flight_weight_all (n : nat) (f : frame) (l : list nat) :
  flight_weight n (map (fun j => (j, f)) l) = (length l * weight n f)%nat.
Proof. induction l as [|j l IH]; [done|]. unfold flight_weight in *. cbn in *. rewrite IH. lia. Qed.

Lemma handle_weight (n i : nat) (peer : option Z) (m : client_msg) : (i < n)%nat ->
  (flight_weight n (hub_handle n i peer m) <= n * msg_weight n m)%nat.
Proof.
  intros Hi. pose proof (length_others n i) as L. pose proof (length_others_lt n i Hi) as L'.
  destruct m as [|p|p|size seq| |]; cbn [hub_handle]; repeat case_match;
    rewrite ?flight_weight_app, ?flight_weight_all; unfold flight_weight; cbn -[weight]; unfold weight; cbn [reply_cost]; try nia.
Qed.

Lemma handled_weight (n i : nat) (peer : option Z) (out : list (nat * client_msg)) : (i < n)%nat ->
  (flight_weight n (concat (map (hub_handle n i peer) (map snd out))) <= out_weight n out)%nat.
Proof.
  intros Hi. induction out as [|[w m] out IH]; [done|]. cbn [map concat snd]. rewrite flight_weight_app.
  pose proof (handle_weight n i peer m Hi). unfold out_weight in *. cbn [map snd]. cbn in *. lia.
Qed.

Lemma flight_delete (n k : nat) (l : list (nat * frame)) (d : nat * frame) : l !! k = Some d ->
  flight_weight n l = (weight n (snd d) + flight_weight n (delete k l))%nat.
Proof.
  intros Hk. rewrite <- (take_drop_middle l k d Hk) at 1. rewrite delete_take_drop, !flight_weight_app.
  unfold flight_weight. cbn. lia.
Qed.

Lemma room_step_load (e : room_event) (r r' : room) : room_step e r = Some r' ->
  length (r_sessions r') = length (r_sessions r) /\ (load r' < load r)%nat.
Proof.
  unfold load. destruct e as [k w|k]; cbn -[flight_weight].
  - intros (d & Hd & (s & Hs & (s' & Hs' & E)%bind_Some)%bind_Some)%bind_Some. injection E as <-. cbn -[flight_weight].
    rewrite length_insert. split; [done|]. rewrite flight_weight_app, (flight_delete _ _ _ _ Hd).
    destruct (sends_arrival (length (r_sessions r)) w d.2 s s' Hs') as (out & E & Hc). unfold sent_since. rewrite E, drop_app_length.
    pose proof (handled_weight (length (r_sessions r)) d.1 (s_peerId s') out (lookup_lt_Some _ _ _ Hs)). unfold weight. lia.
  - intros (d & Hd & E)%bind_Some. injection E as <-. cbn -[flight_weight]. split; [done|]. rewrite (flight_delete _ _ _ _ Hd). unfold weight. lia.
Qed.

Lemma room_run_load (es : list room_event) (r r' : room) : room_run es r = Some r' -> (length es + load r' <= load r)%nat.
Proof.
  revert r. induction es as [|e es IH]; cbn; intros r; [by intros [= ->]|].
  intros (r1 & H1%room_step_load & H)%bind_Some. apply IH in H. lia.
Qed.
End Room.
