(* ===== verification/CollabConverge.v ===== *)
(** * Rooms: what a joiner receives

    A joiner asks the room for the document and every peer that has one answers.  Under Yjs's documented
    behaviour (an update only adds to a document, and the answer to a state vector completes whatever holds that state)
    the joiner ends with all a peer had when it joined, however the frames in flight are ordered. *)

From S2P Require Import Prelude JsString Bytes Base64 CollabSocket CollabSocketFacts CollabDocSync CollabFacts CollabRoom.

(** ** Frames carry their bytes *)

Lemma binary_string_map (fuel : nat) (b : bytes) : (length b <= fuel)%nat -> binary_string fuel b = map Z.to_N b.
Proof.
  revert b. induction fuel as [|fuel IH]; intros [|x b] H; cbn [length] in H; try done; [lia|].
  cbn [binary_string]. rewrite IH, <- map_app, take_drop; [done|]. rewrite length_drop. cbn [length].
  assert (0 < B64_CHUNK)%nat by (unfold B64_CHUNK; lia). lia.
Qed.

Lemma toB64_toBase64 (b : bytes) : octets b -> toB64 b = toBase64 b.
Proof.
  intros Hb. unfold toB64. rewrite binary_string_map, map_map by done. f_equal.
  rewrite <- (map_id b) at 2. apply map_ext_Forall. eapply Forall_impl; [exact Hb|]. intros x [Hx _]. by apply Z2N.id.
Qed.

Lemma fromB64_toB64 (b : bytes) : octets b -> fromB64 (toB64 b) = Ok b.
Proof. intros Hb. rewrite toB64_toBase64 by done. unfold fromB64, base64_bytes, toBase64. by rewrite atob_encode. Qed.

(** ** What the sessions rely on in Yjs *)
Class YjsLaws `{Y : Yjs} := {
  doc_le : ydoc -> ydoc -> Prop;
  doc_le_preorder :: PreOrder doc_le;
  vector_octets : forall d, octets (encodeStateVector d);
  update_octets : forall d v u, encodeStateAsUpdate d v = Ok u -> octets u;
  update_grows : forall d u, doc_le d (applyUpdate d u).1;
  (* an answer to the state vector of [d'] is enough for any document that holds [d'] *)
  update_completes : forall d d' d'', doc_le d' d'' ->
    exists u, encodeStateAsUpdate d (encodeStateVector d') = Ok u;
  update_brings : forall d d' d'' u, doc_le d' d'' -> encodeStateAsUpdate d (encodeStateVector d') = Ok u ->
    doc_le d (applyUpdate d'' u).1;
}.

Section Converge.
Context `{L : YjsLaws} (can_write : nat -> bool) (fits : payload -> bool).

(** ** One session *)

Definition welcomes (f : frame) : bool := match f with FWelcome _ _ _ _ => true | _ => false end.
Definition is_op_frame (f : frame) : bool := match f with FOp _ _ _ => true | _ => false end.

Definition grows (s s' : session) : Prop := doc_le (s_doc s) (s_doc s').

Lemma grows_same (s s' : session) : s_doc s' = s_doc s -> grows s s'.
Proof. unfold grows. by intros ->. Qed.

Lemma doc_via (f : nat -> hub -> hub) (s : session) : s_doc (via_socket f s) = s_doc s.
Proof. unfold via_socket. by destruct (s_socket s). Qed.

Lemma grows_onMessage (f : frame) (s : session) : welcomes f = false -> grows s (onMessage f s).
Proof.
  intros Hf. destruct f as [p ps cw l|p|id|c|q i p|q|id q|g|n|]; [done|..]; cbn [onMessage];
    (destruct (s_destroyed s); [by apply grows_same|]); try by apply grows_same.
  - apply grows_same. unfold onPeerJoin. destruct p as [p|]; [|done]. cbn. case_match; [|done].
    unfold sendSyncRequest, sendPresenceFrame. by rewrite doc_via.
  - apply grows_same. unfold onPeerLeave. destruct id; [|done]. cbn. by case_match.
  - unfold onPresence. destruct c as [[k [d|]]|]; try by apply grows_same.
    repeat case_match; first [by apply grows_same | apply grows_same, doc_via | unfold grows; cbn; apply update_grows].
  - unfold onOp. destruct p as [[k [d|]]|]; try by apply grows_same.
    repeat case_match; first [by apply grows_same | unfold grows; cbn; apply update_grows].
Qed.

(** A frame arrives on the open connection of the session's socket. *)
Lemma arrival (w : nat) (f : frame) (s s' : session) : session_ok None s -> step (EvWs w (WsMessage (Some f))) s = Some s' ->
  exists i s1, s_socket s1 = Some i /\ live_ws i (s_hub s1) = Some w /\ s_destroyed s1 = false /\ s_doc s1 = s_doc s
    /\ hb_sent (s_hub s1) = hb_sent (s_hub s) /\ s' = onMessage f s1.
Proof.
  intros H. cbn [step]. unfold ws_step. intros (x & Hx & E)%bind_Some. destruct (ws_state x) eqn:Sx; try done. injection E as <-.
  destruct (live_current s w x H Hx) as (Hs & Hd & k & Hk & Hw); [by unfold is_live; rewrite Sx|].
  unfold on_message. set (s1 := match f with FWelcome _ _ _ _ => _ | _ => _ end). exists (ws_sock x), s1.
  assert (E : s_socket s1 = s_socket s /\ s_destroyed s1 = s_destroyed s /\ s_doc s1 = s_doc s
     /\ hb_sent (s_hub s1) = hb_sent (s_hub s) /\ hb_wss (s_hub s1) = hb_wss (s_hub s)
     /\ exists k', hb_socks (s_hub s1) !! ws_sock x = Some k' /\ sk_ws k' = Some w).
  { unfold s1. destruct f; cbn; split_and!; try done; try (by exists k).
    rewrite list_lookup_alter, decide_True, Hk by done. by eexists. }
  destruct E as (E1 & E2 & E3 & E4 & E5 & k' & Hk' & Hw'). split_and!; try congruence.
  - unfold live_ws. rewrite Hk'. cbn. rewrite Hw'. cbn. rewrite E5, Hx. cbn. by rewrite bool_decide_true.
  - unfold sock_message. by rewrite bool_decide_true by congruence.
Qed.

Lemma sent_presence (p : payload) (s : session) (i w : nat) : s_socket s = Some i -> live_ws i (s_hub s) = Some w ->
  hb_sent (s_hub (sendPresenceFrame p s)) = hb_sent (s_hub s) ++ [(w, CPresence p)].
Proof. intros Hs Hw. unfold sendPresenceFrame, via_socket, sendPresence, send. rewrite Hs. cbn. by rewrite Hw. Qed.

Lemma live_ws_calm (s s' : session) (i w : nat) : calm s s' -> live_ws i (s_hub s) = Some w -> live_ws i (s_hub s') = Some w.
Proof. intros [[S W _ _ _] _ _ _]. unfold live_ws. by rewrite S, W. Qed.

Lemma sent_calm (s s' : session) : calm s s' -> exists out, hb_sent (s_hub s') = hb_sent (s_hub s) ++ out.
Proof. intros [[_ _ _ _ (out & E & _)] _ _ _]. by exists out. Qed.

(** The joiner's request: its own state vector. *)
Lemma map_set_peer_id (p : peer_info) (l : list peer_info) (id : Z) :
  id ∈ map pi_id (map_set_peer p l) <-> id = pi_id p \/ id ∈ map pi_id l.
Proof.
  induction l as [|q l IH]; cbn; [set_solver|]. destruct (Z.eqb_spec (pi_id q) (pi_id p)); cbn; [set_solver|].
  rewrite !elem_of_cons, IH. naive_solver.
Qed.

Lemma peers_of_welcome (ps acc : list peer_info) (id : Z) :
  id ∈ map pi_id (foldl (fun l p => map_set_peer p l) acc ps) <-> id ∈ map pi_id acc \/ id ∈ map pi_id ps.
Proof.
  revert acc. induction ps as [|p ps IH]; intros acc; cbn; [set_solver|]. rewrite IH, map_set_peer_id. set_solver.
Qed.

Lemma others_kept (s s' : session) : s_peers s' = s_peers s -> s_peerId s' = s_peerId s -> otherPeers s' = otherPeers s.
Proof. unfold otherPeers. by intros -> ->. Qed.

Lemma ops_keep_peers (l : list frame) (s : session) : forallb is_op_frame l = true ->
  otherPeers (foldl (fun s ev => onMessage ev s) s l) = otherPeers s.
Proof.
  revert s. induction l as [|f l IH]; intros s; cbn; [done|]. intros [Hf Hl]%andb_true_iff. rewrite IH by done.
  destruct f; try done. cbn. destruct (s_destroyed s); [done|]. unfold onOp. repeat case_match; done.
Qed.

Lemma welcome_others (p : option Z) (ps : list peer_info) (q : peer_info) (s : session) :
  q ∈ ps -> Some (pi_id q) <> p -> otherPeers (welcome_start p ps s) <> [].
Proof.
  intros Hq Hp. unfold welcome_start. destruct (setLocalState _ _) as [a ids].
  set (s1 := _ <| s_aware := a |>).
  assert (E : otherPeers (on_aware_update ids s1) = otherPeers s1).
  { unfold on_aware_update, sendPresenceFrame, via_socket. destruct (s_destroyed s1); [done|]. destruct ids; [done|].
    by destruct (s_socket s1). }
  rewrite E. unfold otherPeers. cbn.
  assert (Hin : pi_id q ∈ map pi_id (foldl (fun l p => map_set_peer p l) [] ps)).
  { rewrite peers_of_welcome. right. apply list_elem_of_fmap. by exists q. }
  apply list_elem_of_fmap in Hin as (x & Ex & Hx). intros E'.
  assert (Hf : In x (List.filter (fun p0 => negb (bool_decide (Some (pi_id p0) = p))) (foldl (fun l p => map_set_peer p l) [] ps))).
  { apply filter_In. split; [by apply list_elem_of_In|]. rewrite bool_decide_false; [done | congruence]. }
  cbn in Hf. rewrite E' in Hf. done.
Qed.

Lemma welcome_asks (p : option Z) (ps : list peer_info) (cw : option bool) (l : list frame) (q : peer_info) (s : session) (i w : nat) :
  s_socket s = Some i -> live_ws i (s_hub s) = Some w -> s_destroyed s = false ->
  forallb is_op_frame l = true -> q ∈ ps -> Some (pi_id q) <> p ->
  let s' := onMessage (FWelcome p ps cw l) s in
  exists out, hb_sent (s_hub s') = hb_sent (s_hub s) ++ out
    /\ (w, CPresence (frame_of "s1" (encodeStateVector (s_doc s')))) ∈ out.
Proof.
  intros Hs Hw Hd Hl Hq Hp. cbn zeta. rewrite onMessage_welcome, Hd. set (s1 := foldl _ _ l).
  assert (C : calm s s1).
  { etrans; [apply (calm_welcome_start p ps)|]. unfold s1. clear. generalize (welcome_start p ps s).
    induction l as [|f l IH]; intros t; cbn; [reflexivity|]. etrans; [apply calm_onMessage | apply IH]. }
  assert (Ho : otherPeers s1 <> []) by (unfold s1; rewrite ops_keep_peers by done; by eapply welcome_others).
  pose proof (calm_drop s1) as C'. set (s2 := drop_double_seed s1) in *.
  assert (C2 : calm s s2) by (etrans; eassumption).
  assert (E : hb_sent (s_hub (welcome_end s1)) = hb_sent (s_hub (sendSyncRequest s2)) /\ s_doc (welcome_end s1) = s_doc s2).
  { unfold welcome_end. destruct (otherPeers s1); [done|]. cbn. split; [done|]. apply (doc_via _ s2). }
  destruct E as (E & Ed). destruct (sent_calm s s2 C2) as [out Eo].
  exists (out ++ [(w, CPresence (frame_of "s1" (encodeStateVector (s_doc s2))))]). rewrite Ed. split.
  - rewrite E. unfold sendSyncRequest. rewrite (sent_presence _ s2 i w), Eo, app_assoc; [done | |].
    + rewrite (ca_socket _ _ C2). done.
    + by eapply live_ws_calm.
  - apply elem_of_app. right. by apply list_elem_of_singleton.
Qed.

(** A peer answers. *)
Lemma s1_answered (s : session) (i w : nat) (v u : bytes) :
  s_socket s = Some i -> live_ws i (s_hub s) = Some w -> s_destroyed s = false -> octets v ->
  encodeStateAsUpdate (s_doc s) v = Ok u ->
  let s' := onMessage (FPresence (Some (frame_of "s1" v))) s in
  hb_sent (s_hub s') = hb_sent (s_hub s) ++ [(w, CPresence (frame_of "s2" u))].
Proof.
  intros Hs Hw Hd Hv Hu. cbn [onMessage]. rewrite Hd. unfold onPresence, frame_of. cbn [pl_k pl_d].
  rewrite bool_decide_true, fromB64_toB64 by done. cbn. rewrite Hu. by apply (sent_presence _ s i w).
Qed.

Lemma s2_applied (s : session) (u : bytes) : s_destroyed s = false -> octets u ->
  s_doc (onMessage (FPresence (Some (frame_of "s2" u))) s) = (applyUpdate (s_doc s) u).1.
Proof.
  intros Hd Hu. cbn [onMessage]. rewrite Hd. unfold onPresence, frame_of. cbn [pl_k pl_d].
  rewrite bool_decide_false, bool_decide_true, fromB64_toB64 by done. done.
Qed.

(** ** The room while the joiner catches up

    [d0] is what session [ia] held; session [ib] has it, or a frame on its way will bring it. *)
Section Catching.
Context (ia ib : nat) (d0 : ydoc).

Definition catches (r : room) (sb : session) : Prop :=
  doc_le d0 (s_doc sb)
  \/ (exists d', (ia, FPresence (Some (frame_of "s1" (encodeStateVector d')))) ∈ r_flight r /\ doc_le d' (s_doc sb))
  \/ (exists u, (ib, FPresence (Some (frame_of "s2" u))) ∈ r_flight r /\ octets u
        /\ forall d, doc_le (s_doc sb) d -> doc_le d0 (applyUpdate d u).1).

Record catching (r : room) : Prop := {
  cg_ok : forall i s, r_sessions r !! i = Some s -> session_ok None s;
  cg_a : exists sa, r_sessions r !! ia = Some sa /\ doc_le d0 (s_doc sa);
  cg_b : exists sb, r_sessions r !! ib = Some sb /\ catches r sb;
  cg_frames : Forall (fun d => welcomes (snd d) = false) (r_flight r);
}.

Lemma others_in (n i j : nat) : j ∈ others n i <-> (j < n)%nat /\ j <> i.
Proof.
  unfold others. rewrite list_elem_of_In, filter_In, in_seq, negb_true_iff, Nat.eqb_neq. lia.
Qed.

Lemma presence_reaches (n i j : nat) (peer : option Z) (p : payload) : (j < n)%nat -> j <> i ->
  (j, FPresence (Some p)) ∈ hub_handle can_write fits n i peer (CPresence p).
Proof. intros Hn Hj. cbn. apply list_elem_of_fmap. exists j. by rewrite others_in. Qed.

Lemma handled_in (n i : nat) (peer : option Z) (out : list client_msg) (m : client_msg) (d : nat * frame) :
  m ∈ out -> d ∈ hub_handle can_write fits n i peer m -> d ∈ concat (map (hub_handle can_write fits n i peer) out).
Proof.
  rewrite !list_elem_of_In. intros Hm Hd. apply in_concat. eexists. split; [by apply in_map | done].
Qed.

Lemma handled_no_welcome (n i : nat) (peer : option Z) (out : list client_msg) :
  Forall (fun d => welcomes (snd d) = false) (concat (map (hub_handle can_write fits n i peer) out)).
Proof.
  apply Forall_concat, Forall_map, Forall_forall. intros m _. destruct m; cbn; repeat case_match;
    repeat first [by repeat constructor | apply Forall_app; split | apply Forall_map; by apply Forall_forall].
Qed.

(** The joiner's own state grows, so what was enough for it still is. *)
Lemma catches_grows (r r' : room) (sb sb' : session) (k : nat) (d : nat * frame) :
  r_flight r !! k = Some d -> (forall x, x ∈ delete k (r_flight r) -> x ∈ r_flight r') -> grows sb sb' ->
  catches r sb -> (catches r' sb' \/ doc_le d0 (s_doc sb'))
  \/ (exists d', d = (ia, FPresence (Some (frame_of "s1" (encodeStateVector d')))) /\ doc_le d' (s_doc sb))
  \/ (exists u, d = (ib, FPresence (Some (frame_of "s2" u))) /\ octets u
        /\ forall d, doc_le (s_doc sb) d -> doc_le d0 (applyUpdate d u).1).
Proof.
  intros Hk Hd Hg [H|[(d' & Hin & H)|(u & Hin & Hu & H)]].
  - left; right. by etrans.
  - destruct (elem_delete k _ _ _ Hk Hin) as [<-|Hin']; [right; left; by exists d'|].
    left; left; right; left. exists d'. split; [by apply Hd | by etrans].
  - destruct (elem_delete k _ _ _ Hk Hin) as [<-|Hin']; [right; right; by exists u|].
    left; left; right; right. exists u. split_and!; [by apply Hd | done |]. intros e He. apply H. by etrans.
Qed.

Lemma catching_step (k w : nat) (r r' : room) : ia <> ib -> catching r ->
  room_step can_write fits (Arrives k w) r = Some r' -> catching r'.
Proof.
  intros Hn [C1 (sa & Ha & Hda) (sb & Hb & Hc) C4] E. cbn in E. apply bind_Some in E as (d & Hd & E).
  apply bind_Some in E as (s & Hs & E). apply bind_Some in E as (s' & Hs' & E). injection E as <-.
  set (n := length (r_sessions r)). set (new := concat _).
  assert (Hwf : welcomes d.2 = false) by (rewrite Forall_forall in C4; apply C4; by eapply list_elem_of_lookup_2).
  destruct (arrival w d.2 s s' (C1 _ _ Hs) Hs') as (i & s1 & Es & Ew & Ed & Edoc & Esent & ->).
  assert (Hg : grows s (onMessage d.2 s1)) by (unfold grows; rewrite <- Edoc; by apply grows_onMessage).
  assert (Hall : forall j t, <[d.1 := onMessage d.2 s1]> (r_sessions r) !! j = Some t -> session_ok None t
     /\ forall t0, r_sessions r !! j = Some t0 -> grows t0 t).
  { intros j t. destruct (decide (j = d.1)) as [->|Hj].
    - rewrite list_lookup_insert_eq by (eapply lookup_lt_Some; eassumption). intros [= <-].
      split; [eapply ws_step_ok; [apply (C1 _ _ Hs) | exact Hs']|]. intros t0 Ht0. congruence.
    - rewrite list_lookup_insert_ne by done. intros Ht. split; [by eapply C1|]. intros t0 Ht0. rewrite Ht in Ht0.
      injection Ht0 as ->. by apply grows_same. }
  assert (Hlook : forall j t0, r_sessions r !! j = Some t0 -> exists t, <[d.1 := onMessage d.2 s1]> (r_sessions r) !! j = Some t /\ grows t0 t).
  { intros j t0 Ht0. destruct (lookup_lt_is_Some_2 (<[d.1 := onMessage d.2 s1]> (r_sessions r)) j) as [t Ht].
    - rewrite length_insert. eapply lookup_lt_Some; eassumption.
    - exists t. split; [done|]. by eapply Hall. }
  split; cbn.
  - intros j t Ht. by apply Hall in Ht as [? _].
  - destruct (Hlook ia sa Ha) as (ta & Hta & Hga). exists ta. split; [done|]. unfold grows in Hga. by etrans.
  - destruct (Hlook ib sb Hb) as (tb & Htb & Hgb). exists tb. split; [done|]. set (r' := Build_room _ _).
    assert (Hsub : forall x, x ∈ delete k (r_flight r) -> x ∈ r_flight r') by (intros x Hx; apply elem_of_app; by left).
    destruct (catches_grows r r' sb tb k d Hd Hsub Hgb Hc) as [[H|H]|[(d' & -> & H)|(u & -> & Hu & H)]]; [done | by left | |].
    + right; right. cbn [fst snd] in Hs, Htb. assert (s = sa) as -> by congruence. rewrite list_lookup_insert_ne in Htb by done.
      assert (tb = sb) as -> by congruence. destruct (update_completes (s_doc sa) d' (s_doc sb) H) as [u Hu].
      exists u. split_and!; [|by eapply update_octets|].
      * apply elem_of_app. right. eapply handled_in; [|by apply presence_reaches; [eapply lookup_lt_Some; eassumption|]].
        unfold sent_since. cbn [snd] in *. rewrite (s1_answered s1 i w (encodeStateVector d') u) by first [done | apply vector_octets | by rewrite Edoc].
        rewrite Esent, drop_app_length. cbn. by apply list_elem_of_singleton.
      * intros e He. etrans; [exact Hda|]. apply (update_brings _ d'); [by etrans | done].
    + left. cbn [fst snd] in Hs, Htb. rewrite list_lookup_insert_eq in Htb by (eapply lookup_lt_Some; eassumption). apply (inj Some) in Htb. rewrite <- Htb. clear Htb.
      cbn [snd]. rewrite s2_applied by done. apply H. rewrite Edoc. assert (s = sb) as -> by congruence. done.
  - apply Forall_app. split; [by apply Forall_delete | apply handled_no_welcome].
Qed.
End Catching.

(** ** Joining *)

Definition arrives (e : room_event) : bool := match e with Arrives _ _ => true | Lost _ => false end.

Lemma joining (ia ib k w : nat) (sa : session) (p : option Z) (ps : list peer_info) (cw : option bool) (l : list frame) (q : peer_info) (r r' : room) :
  (forall i s, r_sessions r !! i = Some s -> session_ok None s) -> ia <> ib -> r_sessions r !! ia = Some sa ->
  r_flight r !! k = Some (ib, FWelcome p ps cw l) -> Forall (fun d => welcomes (snd d) = false) (delete k (r_flight r)) ->
  forallb is_op_frame l = true -> q ∈ ps -> Some (pi_id q) <> p ->
  room_step can_write fits (Arrives k w) r = Some r' -> catching ia ib (s_doc sa) r'.
Proof.
  intros C1 Hn Ha Hk C4 Hl Hq Hp E. cbn in E. rewrite Hk in E. cbn [mbind option_bind fst snd] in E.
  apply bind_Some in E as (s & Hs & E). apply bind_Some in E as (s' & Hs' & E). apply (inj Some) in E. rewrite <- E. clear E.
  destruct (arrival w _ s s' (C1 _ _ Hs) Hs') as (i & s1 & Es & Ew & Ed & Edoc & Esent & Es').
  destruct (welcome_asks p ps cw l q s1 i w Es Ew Ed Hl Hq Hp) as (out & Eout & Hout). rewrite <- Es' in Eout, Hout.
  split; cbn [r_sessions r_flight].
  - intros j t. destruct (decide (j = ib)) as [->|Hj].
    + rewrite list_lookup_insert_eq by (eapply lookup_lt_Some; eassumption). intros Ht. apply (inj Some) in Ht. rewrite <- Ht.
      eapply ws_step_ok; [apply (C1 _ _ Hs) | exact Hs'].
    + rewrite list_lookup_insert_ne by done. apply C1.
  - exists sa. by rewrite list_lookup_insert_ne by done.
  - exists s'. rewrite list_lookup_insert_eq by (eapply lookup_lt_Some; eassumption). split; [done|].
    right; left. exists (s_doc s'). split; [|done]. apply elem_of_app. right.
    eapply handled_in; [|apply presence_reaches; [eapply lookup_lt_Some; eassumption | done]].
    unfold sent_since. rewrite Eout, Esent, drop_app_length. apply list_elem_of_fmap. by eexists (w, _).
  - apply Forall_app. split; [done | apply handled_no_welcome].
Qed.

Lemma catching_run (ia ib : nat) (d0 : ydoc) (es : list room_event) (r r' : room) :
  ia <> ib -> catching ia ib d0 r -> forallb arrives es = true -> room_run can_write fits es r = Some r' -> catching ia ib d0 r'.
Proof.
  intros Hn. revert r. induction es as [|[k w|k] es IH]; cbn [room_run forallb arrives andb]; intros r H Ha; [by intros [= <-]| |done].
  intros (r1 & E & Er)%bind_Some. eapply IH; [|done|exact Er]. by eapply catching_step.
Qed.

(** A quiet room has nothing left to bring. *)
Lemma caught_up (ia ib : nat) (d0 : ydoc) (r : room) : catching ia ib d0 r -> r_flight r = [] ->
  exists sb, r_sessions r !! ib = Some sb /\ doc_le d0 (s_doc sb).
Proof.
  intros [_ _ (sb & Hb & Hc) _] E. exists sb. split; [done|]. destruct Hc as [H|[(d & H & _)|(u & H & _)]]; [done| |];
    rewrite E in H; by apply not_elem_of_nil in H.
Qed.
End Converge.
