(* ===== verification/CollabTheorems.v ===== *)
(** * Shared documents: the theorems

    What the sessions and rooms of [collabDocSync.js] and [collabSocket.js] guarantee, with runs of sessions on a
    small document type in place of Yjs. *)

From S2P Require Import Prelude JsString Bytes Base64 CollabSocket CollabSocketFacts CollabDocSync CollabFacts CollabRoom CollabConverge.

(** ** A document type for runs

    A document is a list of bytes that only grows; its state vector lists what it holds. *)
Module Toy.
Definition to_z (b : Byte.byte) : Z := Z.of_N (Byte.to_N b).
Definition of_bytes (u : bytes) : list Byte.byte := omap (fun z => Byte.of_N (Z.to_N z)) u.
Definition missing (d e : list Byte.byte) : list Byte.byte := List.filter (fun b => negb (existsb (Byte.eqb b) d)) e.

#[export] Instance toy : Yjs := {
  ydoc := list Byte.byte;
  new_doc := [];
  encodeStateVector d := map to_z d;
  encodeStateAsUpdate d v := Ok (map to_z (missing (of_bytes v) d));
  applyUpdate d u := (d ++ missing d (of_bytes u), Ok tt);
  text_string d := map Byte.to_N d;
  text_insert d s := let new := omap Byte.of_N s in (new ++ d, Some (map to_z new));
  text_delete d := ([], Some []);
  awareness := list (Z * option Z);
  new_awareness _ := [];
  setLocalState _ p := ([(0, pr_peerId p)], [0]);
  encodeAwarenessUpdate _ ids := ids;
  applyAwarenessUpdate a _ := (a, Ok tt);
  getStates a := a;
  removeAwarenessStates a ids := List.filter (fun c => negb (bool_decide (fst c ∈ ids))) a;
  destroyAwareness _ := [];
}.

Lemma of_bytes_to_z (d : list Byte.byte) : of_bytes (map to_z d) = d.
Proof.
  unfold of_bytes. induction d as [|b d IH]; [done|]. cbn. unfold to_z at 1. rewrite N2Z.id, Byte.of_to_N. by f_equal.
Qed.

Lemma to_z_octet (d : list Byte.byte) : octets (map to_z d).
Proof.
  apply Forall_map, Forall_forall. intros b _. unfold is_octet, to_z. pose proof (Byte.to_N_bounded b). lia.
Qed.

Lemma missing_elem (d e : list Byte.byte) (b : Byte.byte) : b ∈ missing d e <-> b ∈ e /\ b ∉ d.
Proof.
  unfold missing. rewrite !list_elem_of_In, filter_In, negb_true_iff. f_equiv.
  rewrite <- not_true_iff_false, existsb_exists. split; intros H Hb; apply H.
  - exists b. split; [done|]. by apply Byte.byte_dec_lb.
  - destruct Hb as (c & Hc & E). apply Byte.byte_dec_bl in E. by subst.
Qed.

#[export] Program Instance toy_laws : YjsLaws := { doc_le := fun d e : list Byte.byte => d ⊆ e }.
Next Obligation. intros d. apply to_z_octet. Qed.
Next Obligation. intros d v u [= <-]. apply to_z_octet. Qed.
Next Obligation. intros d u b Hb. cbn. apply elem_of_app. by left. Qed.
Next Obligation. intros d d' d'' _. by eexists. Qed.
Next Obligation.
  intros d d' d'' u Hd [= <-] b Hb. cbn. rewrite !of_bytes_to_z. rewrite elem_of_app, !missing_elem.
  destruct (in_dec Byte.byte_eq_dec b d'') as [H|H]; rewrite <- list_elem_of_In in H; [by left | right].
  split_and!; [done | | done]. intros ?. by apply H, Hd.
Qed.

(** Two editors of one file: session 0 opened it first. *)
Definition peer (id : Z) : peer_info := {| pi_id := id; pi_username := js "Ada"; pi_color := None |}.
Definition welcomed (id : Z) (ids : list Z) : sync_event := EvWs 0 (WsMessage (Some (FWelcome (Some id) (map peer ids) (Some true) []))).

(** The file's text is in the document, on a connection that is open. *)
Definition first_run : list sync_event := [EvConnect; EvWs 0 WsOpen; EvAdopt (js "abc"); welcomed 1 [1]].
Definition second_run : list sync_event := [EvConnect; EvWs 0 WsOpen; EvAdopt (js "abc")].
Definition state_of (es : list sync_event) : session := default (new_session false None) (run es (new_session false None)).

Definition two : room := {|
  r_sessions := [state_of first_run; state_of second_run];
  r_flight := [(1%nat, FWelcome (Some 2) [peer 1; peer 2] (Some true) []); (0%nat, FPeerJoin (Some (peer 2)))] |}.
Definition all_write (i : nat) : bool := true.
Definition all_fit (p : payload) : bool := true.
(* the joiner's awareness, its request, the first session's request, and the two answers *)
Definition arrivals : list room_event := repeat (Arrives 0 0) 7.
End Toy.

Lemma session_run_reachable `{Y : Yjs} (solo : bool) (adapter : option DocAdapter) (es : list sync_event) (s s' : session) :
  reachable solo adapter s -> run es s = Some s' -> reachable solo adapter s'.
Proof.
  revert s. induction es as [|e es IH]; cbn; intros s H; [by intros [= <-]|].
  intros (s1 & E & Er)%bind_Some. eapply IH; [|exact Er]. by eapply reach_step.
Qed.


Lemma first_run_reachable : reachable false None (Toy.state_of Toy.first_run).
Proof. eapply (session_run_reachable _ _ Toy.first_run); [apply reach_new | by vm_compute]. Qed.

Section Theorems.
Context `{Y : Yjs}.

(** C19: in every reachable session at most one connection is under way, that of the session's current socket, and
    none once the session is destroyed; and as long as the current socket is not closed it has a connection
    under way, or an armed timer that will open one, or has used up its eight attempts. *)
Theorem connection_is_kept (solo : bool) (adapter : option DocAdapter) (s : session) : reachable solo adapter s ->
  (forall w x v y, hb_wss (s_hub s) !! w = Some x -> is_live x = true -> hb_wss (s_hub s) !! v = Some y -> is_live y = true ->
     v = w /\ s_socket s = Some (ws_sock x) /\ s_destroyed s = false)
  /\ forall i k, s_socket s = Some i -> hb_socks (s_hub s) !! i = Some k -> sk_closed k = false ->
     (exists w, conn_of (s_hub s) i w) \/ (exists t, timer_of (s_hub s) i t) \/ sk_attempts k = MAX_RECONNECT_ATTEMPTS.
Proof.
  intros H%reachable_ok. split.
  - intros w x v y Hx Lx Hy Ly. destruct (live_current s w x H Hx Lx) as (E & D & k & Hk & Hw).
    destruct (live_current s v y H Hy Ly) as (E' & _ & k' & Hk' & Hw'). split_and!; congruence.
  - intros i k Hs Hk Hc. destruct (no_sock _ _ _ _ H i k Hk) as [_ _ K3 K4 _ _ K7].
    destruct (K7 Hc) as [Hw|[Ht|Ha]]; [done | left | right; left | by right; right].
    + destruct (sk_ws k) as [w|] eqn:E; [|done]. exists w. by apply K3.
    + destruct (sk_retryTimer k) as [t|] eqn:E; [|done]. exists t. by apply K4.
Qed.

(** A connection that drops is opened again: after at least one and at most fifteen seconds, twice as long with
    each attempt in between, the timer it armed is due and dials the same room, unless eight attempts in a row have
    failed. *)
Theorem drop_reconnects (solo : bool) (adapter : option DocAdapter) (s : session) (i w : nat) (k : socket) :
  reachable solo adapter s -> s_socket s = Some i -> hb_socks (s_hub s) !! i = Some k -> sk_ws k = Some w ->
  sk_attempts k < MAX_RECONNECT_ATTEMPTS ->
  1000 <= reconnect_delay (sk_attempts k) <= 15000
  /\ exists t s' k' w', run [EvWs w WsClose; EvTick (reconnect_delay (sk_attempts k)); EvTimer t] s = Some s'
    /\ hb_socks (s_hub s') !! i = Some k' /\ sk_ws k' = Some w'
    /\ hb_wss (s_hub s') !! w' = Some {| ws_sock := i; ws_state := CONNECTING |}.
Proof.
  intros H%reachable_ok Hs Hk Hw Ha. split; [|by eapply close_then_dial].
  apply reconnect_delay_bounds. by apply (so_attempts _ _ _ _ _ (no_sock _ _ _ _ H i k Hk)).
Qed.

(** C20: a destroyed session is silent: whatever the browser, the hub, its timers or the editor still do, nothing more is
    sent, and only the editor's own edits change its document. *)
Theorem destroyed_is_silent (solo : bool) (adapter : option DocAdapter) (s s' : session) (es : list sync_event) :
  reachable solo adapter s -> s_destroyed s = true -> run es s = Some s' ->
  hb_sent (s_hub s') = hb_sent (s_hub s) /\ (forallb (fun e => negb (edits e)) es = true -> s_doc s' = s_doc s).
Proof. intros H%reachable_ok D E. destruct (mute_run es s s' H D E) as (A & _ & B). done. Qed.

(** C15: a room settles: whatever the order in which frames arrive, and whichever are lost, the answers they cause
    die out; the number of deliveries is bounded by the load of the frames that were under way. *)
Theorem room_settles (can_write : nat -> bool) (fits : payload -> bool) (es : list room_event) (r r' : room) :
  room_run can_write fits es r = Some r' -> (length es + load r' <= load r)%nat.
Proof. apply room_run_load. Qed.

(** C16: a joiner catches up: when a session is welcomed to a room with peers and every frame arrives, in any order,
    then once the room is quiet the joiner's document holds all that the document of any other session in the room held
    when the joiner was welcomed. *)
Theorem joiner_catches_up `{L : !YjsLaws} (can_write : nat -> bool) (fits : payload -> bool) (r r' : room) (k w ia ib : nat)
    (sa : session) (p : option Z) (ps : list peer_info) (cw : option bool) (l : list frame) (q : peer_info) (es : list room_event) :
  (forall i s, r_sessions r !! i = Some s -> exists solo adapter, reachable solo adapter s) ->
  r_flight r !! k = Some (ib, FWelcome p ps cw l) -> forallb is_op_frame l = true -> q ∈ ps -> Some (pi_id q) <> p ->
  Forall (fun d => welcomes (snd d) = false) (delete k (r_flight r)) ->
  r_sessions r !! ia = Some sa -> ia <> ib ->
  room_run can_write fits (Arrives k w :: es) r = Some r' -> forallb arrives es = true -> r_flight r' = [] ->
  exists sb, r_sessions r' !! ib = Some sb /\ doc_le (s_doc sa) (s_doc sb).
Proof.
  intros Hr Hk Hl Hq Hp Hf Ha Hn E Hes Hend. cbn [room_run] in E. apply bind_Some in E as (r1 & E1 & E).
  eapply caught_up; [|done]. eapply catching_run; [done | | done | exact E].
  eapply joining; try done. intros i s Hs. destruct (Hr i s Hs) as (solo & adapter & H). by eapply reachable_ok.
Qed.
End Theorems.

Lemma connection_is_kept_witness :
  (forall w x v y, hb_wss (s_hub (Toy.state_of Toy.first_run)) !! w = Some x -> is_live x = true ->
     hb_wss (s_hub (Toy.state_of Toy.first_run)) !! v = Some y -> is_live y = true ->
     v = w /\ s_socket (Toy.state_of Toy.first_run) = Some (ws_sock x) /\ s_destroyed (Toy.state_of Toy.first_run) = false)
  /\ forall i k, s_socket (Toy.state_of Toy.first_run) = Some i -> hb_socks (s_hub (Toy.state_of Toy.first_run)) !! i = Some k ->
     sk_closed k = false -> (exists w, conn_of (s_hub (Toy.state_of Toy.first_run)) i w)
       \/ (exists t, timer_of (s_hub (Toy.state_of Toy.first_run)) i t) \/ sk_attempts k = MAX_RECONNECT_ATTEMPTS.
Proof. exact (connection_is_kept false None (Toy.state_of Toy.first_run) first_run_reachable). Defined.

Lemma drop_reconnects_witness : exists t s', run [EvWs 0 WsClose; EvTick 1000; EvTimer t] (Toy.state_of Toy.first_run) = Some s'.
Proof.
  edestruct (drop_reconnects false None (Toy.state_of Toy.first_run) 0 0) as (_ & t & s' & k' & w' & E & _);
    [apply first_run_reachable | by vm_compute | by vm_compute | by vm_compute | by vm_compute |].
  exists t, s'. exact E.
Defined.

Lemma destroyed_is_silent_witness : exists s', run [EvDestroy; EvConnect; EvTick 5000; EvAdopt (js "x")] (Toy.state_of Toy.first_run) = Some s'
  /\ hb_sent (s_hub s') = hb_sent (s_hub (destroy (Toy.state_of Toy.first_run))).
Proof.
  eexists. split; [by vm_compute|].
  refine (proj1 (destroyed_is_silent false None (destroy (Toy.state_of Toy.first_run)) _ [EvConnect; EvTick 5000; EvAdopt (js "x")] _ _ _));
    [|by vm_compute|by vm_compute]. by eapply (reach_step _ _ EvDestroy); [apply first_run_reachable|].
Defined.

Lemma room_settles_witness : exists r', room_run Toy.all_write Toy.all_fit Toy.arrivals Toy.two = Some r'
  /\ (length Toy.arrivals + load r' <= load Toy.two)%nat.
Proof. eexists. split; [by vm_compute|]. by apply (room_settles Toy.all_write Toy.all_fit), reflexivity. Defined.

Lemma second_run_reachable : reachable false None (Toy.state_of Toy.second_run).
Proof. eapply (session_run_reachable _ _ Toy.second_run); [apply reach_new | by vm_compute]. Qed.

Lemma two_reachable (i : nat) (s : session) : r_sessions Toy.two !! i = Some s -> exists solo adapter, reachable solo adapter s.
Proof.
  unfold Toy.two. cbn [r_sessions]. intros H%list_elem_of_lookup_2. apply elem_of_cons in H as [->|H]; [|apply list_elem_of_singleton in H as ->]; exists false, None;
    [apply first_run_reachable | apply second_run_reachable].
Qed.

Lemma joiner_catches_up_witness : exists r' sb, room_run Toy.all_write Toy.all_fit (Arrives 0 0 :: repeat (Arrives 0 0) 6) Toy.two = Some r'
  /\ r_sessions r' !! 1%nat = Some sb /\ @doc_le Toy.toy Toy.toy_laws (s_doc (Toy.state_of Toy.first_run)) (s_doc sb).
Proof.
  assert (Q : option_map (fun r => length (r_flight r)) (room_run Toy.all_write Toy.all_fit (Arrives 0 0 :: repeat (Arrives 0 0) 6) Toy.two)
    = Some 0%nat) by (vm_compute; exact eq_refl).
  destruct (room_run Toy.all_write Toy.all_fit (Arrives 0 0 :: repeat (Arrives 0 0) 6) Toy.two) as [r'|] eqn:E; [|discriminate Q].
  pose proof (nil_length_inv _ (inj Some _ _ Q)) as Q'.
  edestruct (joiner_catches_up (L := Toy.toy_laws) Toy.all_write Toy.all_fit Toy.two r' 0 0 0 1 (Toy.state_of Toy.first_run)
    (Some 2) [Toy.peer 1; Toy.peer 2] (Some true) [] (Toy.peer 1) (repeat (Arrives 0 0) 6) two_reachable) as (sb & Hsb & Hle).
  - exact eq_refl.
  - exact eq_refl.
  - apply list_elem_of_here.
  - discriminate.
  - apply List.Forall_cons; [exact eq_refl | apply List.Forall_nil].
  - exact eq_refl.
  - discriminate.
  - exact E.
  - exact eq_refl.
  - exact Q'.
  - exists r', sb. exact (conj eq_refl (conj Hsb Hle)).
Defined.

(** ** Where the file does not reach the document

    Runs of single sessions on the same small document type. *)

Definition seen `{Y : Yjs} (s : session) : jstr * bool * option jstr * nat :=
  (serialize s, hydrated s, s_pendingContent s, length (hb_timers (s_hub s))).

(** The file arrives after another peer joined: neither the arrival, nor time, nor that peer's leaving seeds it,
    although the session is then alone in the room. *)
Example late_file_is_never_seeded :
  seen (Toy.state_of [EvConnect; EvWs 0 WsOpen; Toy.welcomed 1 [1]; EvWs 0 (WsMessage (Some (FPeerJoin (Some (Toy.peer 2)))));
                      EvAdopt (js "abc"); EvTick 10000; EvWs 0 (WsMessage (Some (FPeerLeave (Some 2))))])
  = ([], false, Some (js "abc"), 0%nat).
Proof. by vm_compute. Qed.

(** A session that seeded while the hub could not be reached drops its copy for the lowest peer's; when
    nobody answers, the fallback has no content left to seed. *)
Example dropped_seed_is_lost :
  seen (Toy.state_of [EvConnect; EvAdopt (js "abc"); EvWs 0 WsClose; EvTick 1000; EvTimer 0; EvWs 1 WsOpen;
                      EvWs 1 (WsMessage (Some (FWelcome (Some 2) [Toy.peer 1; Toy.peer 2] (Some true) [])));
                      EvTick 1500; EvTimer 1; EvTick 2500; EvTimer 2])
  = ([], false, None, 0%nat).
Proof. by vm_compute. Qed.

(** The answer of a peer that has nothing yet counts as the document. *)
Example empty_answer_hydrates :
  seen (Toy.state_of (Toy.second_run ++ [Toy.welcomed 2 [1; 2]; EvWs 0 (WsMessage (Some (FPresence (Some (frame_of "s2" [])))))]))
  = ([], true, Some (js "abc"), 2%nat).
Proof. by vm_compute. Qed.

(** An unreachable hub marks the session as one without a hub: after closing its socket, connecting again reports it
    open and opens nothing. *)
Example offline_never_reconnects :
  let s := Toy.state_of [EvConnect; EvWs 0 WsError; EvDisconnect; EvConnect] in
  last (s_log s) = Some (NStatus (js "open")) /\ s_socket s = None.
Proof. by vm_compute. Qed.
