(* ===== verification/DiagramCollab.v ===== *)
(** * Diagrams edited together: [luna/web/src/components/files/diagram/diagramCollab.js]

    A session relays the patches of the diagram editor through the room of the file.  It knows which numbered
    edits the editor holds, so that a save can name the last one in the file, and it asks the hub to be the
    one that uploads.  The editor is the environment: it hands over patches and confirms those it applied. *)

From S2P Require Import Prelude JsString Bytes JsonTree CollabSocket.

Definition APPLIED_CAP : nat := 512.
Definition SAVE_LOCK_TIMEOUT_MS : Z := 4000.

(** A remote patch ready for the editor. *)
Record pending_patch := { pp_seq : option Z; pp_patch : json; pp_checksum : value }.

(** [new Set(list)] of a list that grows at its end. *)
Definition set_add {A} `{EqDecision A} (x : A) (l : list A) : list A := if bool_decide (x ∈ l) then l else l ++ [x].

Section Patches.
Context `{JsText}.

(** [JSON.stringify] does not throw on what came as JSON; of [undefined] it makes no text. *)
Definition patchFingerprint (patch : value) : jstr := match patch with Some v => json_text v | None => [] end.

Definition is_patch (p : option payload) : option json :=
  match p with
  | Some p => if bool_decide (pl_kind p = Some (js "patch")) && negb (nullish (pl_patch p)) then pl_patch p else None
  | None => None
  end.

(** One turn of the loop of [patchesToApply]. *)
Definition patch_of (selfPeerId : option Z) (appliedSeqs : list Z) (sentFingerprints : list jstr) (ev : frame) : option pending_patch :=
  match ev with
  | FOp seq peer_id p =>
      patch ← is_patch p;
      if bool_decide (selfPeerId <> None) && bool_decide (peer_id = selfPeerId) then None
      else if match seq with Some q => bool_decide (q ∈ appliedSeqs) | None => false end then None
      else
        let fp := patchFingerprint (Some patch) in
        if truthy fp && bool_decide (fp ∈ sentFingerprints) then None
        else
          let checksum := match p with Some p => pl_checksum p | None => None end in
          Some {| pp_seq := seq; pp_patch := patch; pp_checksum := if nullish checksum then Some JNull else checksum |}
  | _ => None
  end.

Definition patchesToApply (events : list frame) (selfPeerId : option Z) (appliedSeqs : list Z)
    (sentFingerprints : list jstr) : list pending_patch :=
  omap (patch_of selfPeerId appliedSeqs sentFingerprints) events.

Definition peerSaveCoversEditor (pending includedSeq : Z) (savedSeq : option Z) : bool :=
  if 0 <? pending then false
  else match savedSeq with Some q => includedSeq <=? q | None => false end.

(** ** State *)

(** Callbacks of the editor. *)
Inductive diagram_notice :=
| DUpdate (peers : list peer_info) (selfPeerId : option Z) (canWrite : bool)
| DRemotePatch (p : pending_patch)
| DPeerSaved (peer_id seq : option Z).

Record diagram := {
  g_hub : hub; g_socket : nat; g_canWrite : bool; g_peers : list peer_info; g_selfPeerId : option Z;
  g_serverCanWrite : option bool; g_appliedSeqs : list Z; g_appliedOrder : list Z;
  g_sentFingerprints : list jstr; g_outstanding : list Z; g_includedSeq : Z; g_pending : Z;
  g_lockResolve : option nat; g_lockTimer : option nat;
  (* what the promises of [requestSaveLock] resolved to *)
  g_locks : list (option bool);
  g_log : list diagram_notice;
}.

#[export] Instance eta_diagram : Settable diagram := fun s =>
  {| g_hub := g_hub s; g_socket := g_socket s; g_canWrite := g_canWrite s; g_peers := g_peers s;
     g_selfPeerId := g_selfPeerId s; g_serverCanWrite := g_serverCanWrite s; g_appliedSeqs := g_appliedSeqs s;
     g_appliedOrder := g_appliedOrder s; g_sentFingerprints := g_sentFingerprints s; g_outstanding := g_outstanding s;
     g_includedSeq := g_includedSeq s; g_pending := g_pending s; g_lockResolve := g_lockResolve s;
     g_lockTimer := g_lockTimer s; g_locks := g_locks s; g_log := g_log s |}.

(** [new DiagramCollab({ … })] *)
Definition new_diagram (canWrite : bool) : diagram :=
  {| g_hub := empty_hub <| hb_socks := [new_socket] |>; g_socket := 0; g_canWrite := canWrite; g_peers := [];
     g_selfPeerId := None; g_serverCanWrite := None; g_appliedSeqs := []; g_appliedOrder := [];
     g_sentFingerprints := []; g_outstanding := []; g_includedSeq := 0; g_pending := 0; g_lockResolve := None;
     g_lockTimer := None; g_locks := []; g_log := [] |}.

Definition on_g_hub (f : hub -> hub) (s : diagram) : diagram := s <| g_hub ::= f |>.
Definition g_notify (n : diagram_notice) (s : diagram) : diagram := s <| g_log ::= fun l => l ++ [n] |>.

Definition writable (s : diagram) : bool := g_canWrite s && negb (bool_decide (g_serverCanWrite s = Some false)).

Definition emit (s : diagram) : diagram := g_notify (DUpdate (g_peers s) (g_selfPeerId s) (writable s)) s.

(** ** The save election *)

Definition settleLock (value : bool) (s : diagram) : diagram :=
  let s := (on_g_hub (clearOpt (g_lockTimer s)) s) <| g_lockTimer := None |> in
  let resolve := g_lockResolve s in
  let s := s <| g_lockResolve := None |> in
  match resolve with Some p => s <| g_locks ::= alter (fun r => match r with None => Some value | _ => r end) p |> | None => s end.

(** The number of the promise, and the state. *)
Definition requestSaveLock (s : diagram) : nat * diagram :=
  let p := length (g_locks s) in
  let s := s <| g_locks ::= fun l => l ++ [None] |> <| g_lockResolve := Some p |> in
  let '(t, h) := setTimer CbLock SAVE_LOCK_TIMEOUT_MS (g_hub s) in
  let s := s <| g_hub := h |> <| g_lockTimer := Some t |> in
  let '(sent, h) := sendSaveLock (g_socket s) (g_hub s) in
  let s := s <| g_hub := h |> in
  (p, if sent then s else settleLock true s).

Definition releaseSaveLock (s : diagram) : diagram := on_g_hub (fun h => (sendSaveEnd (g_socket s) h).2) s.

(** ** What the editor holds *)

Definition contiguousSeq (s : diagram) : Z :=
  match g_outstanding s with
  | [] => g_includedSeq s
  | q :: l => Z.min (g_includedSeq s) (Z.max 0 (foldl Z.min q l - 1))
  end.

Definition snapshotSeq (s : diagram) : option Z := if 0 <? g_pending s then None else Some (contiguousSeq s).

Definition editsCoveredBy (savedSeq : option Z) (s : diagram) : bool :=
  peerSaveCoversEditor (g_pending s) (contiguousSeq s) savedSeq.

Definition noteIncluded (seq : option Z) (s : diagram) : diagram :=
  match seq with Some q => s <| g_includedSeq ::= fun i => Z.max i q |> | None => s end.

(** The [while] of [markApplied]: the oldest numbers leave. *)
Fixpoint trim_applied (fuel : nat) (s : diagram) : diagram :=
  match fuel, g_appliedOrder s with
  | S fuel, old :: order =>
      if Nat.ltb APPLIED_CAP (length (g_appliedOrder s))
      then trim_applied fuel (s <| g_appliedOrder := order |> <| g_appliedSeqs ::= List.filter (fun q => negb (q =? old)) |>)
      else s
  | _, _ => s
  end.

Definition markApplied (seq : option Z) (s : diagram) : diagram :=
  match seq with
  | Some q =>
      if bool_decide (q ∈ g_appliedSeqs s) then s
      else
        let s := s <| g_appliedSeqs ::= set_add q |> <| g_appliedOrder ::= fun l => l ++ [q] |> in
        trim_applied (length (g_appliedOrder s)) s
  | None => s
  end.

Definition confirmApplied (seq : option Z) (s : diagram) : diagram :=
  let s := markApplied seq s in
  let s := match seq with Some q => s <| g_outstanding ::= List.filter (fun x => negb (x =? q)) |> | None => s end in
  noteIncluded seq s.

Definition deliver (p : pending_patch) (s : diagram) : diagram :=
  let s := match pp_seq p with Some q => s <| g_outstanding ::= set_add q |> | None => s end in
  g_notify (DRemotePatch p) s.

(** ** Sending *)

Definition sendPatch (patch : value) (checksum : value) (s : diagram) : diagram :=
  if negb (writable s) then s
  else
    let fp := patchFingerprint patch in
    let s := if truthy fp then s <| g_sentFingerprints ::= set_add fp |> else s in
    let p := {| pl_k := None; pl_d := None; pl_kind := Some (js "patch"); pl_patch := patch;
                pl_checksum := if nullish checksum then Some JNull else checksum |} in
    let '(sent, h) := send (g_socket s) (COp p) (g_hub s) in
    let s := s <| g_hub := h |> in
    if sent then s <| g_pending ::= Z.succ |> else s.

Definition g_sendSaved (size seq : option Z) (s : diagram) : diagram := on_g_hub (sendSaved (g_socket s) size seq) s.

(** ** Frames *)

Definition g_onMessage (msg : frame) (s : diagram) : diagram :=
  match msg with
  | FWelcome peer_id peers can_write catchup =>
      let s := s <| g_peers := peers |> <| g_selfPeerId := peer_id |> in
      let s := match can_write with Some b => s <| g_serverCanWrite := Some b |> | None => s end in
      let s := emit s in
      foldl (fun s p => deliver p s) s
        (patchesToApply catchup (g_selfPeerId s) (g_appliedSeqs s) (g_sentFingerprints s))
  | FPeerJoin (Some p) =>
      if existsb (fun q => pi_id q =? pi_id p) (g_peers s) then s else emit (s <| g_peers ::= fun l => l ++ [p] |>)
  | FPeerLeave id =>
      emit (s <| g_peers ::= List.filter (fun p => negb (bool_decide (Some (pi_id p) = id))) |>)
  | FAck seq => noteIncluded seq (if 0 <? g_pending s then s <| g_pending ::= Z.pred |> else s)
  | FOp _ _ _ =>
      match patchesToApply [msg] (g_selfPeerId s) (g_appliedSeqs s) (g_sentFingerprints s) with
      | p :: _ => deliver p s
      | [] => s
      end
  | FSaved peer_id seq => g_notify (DPeerSaved peer_id seq) s
  | FSaveLock granted => settleLock (negb (bool_decide (granted = Some false))) s
  | FPeerJoin None | FPresence _ | FFormResponse _ | FOther => s
  end.

(** The callbacks of the socket. *)
Definition g_onStatus (i : nat) (status : jstr) (s : diagram) : diagram :=
  if bool_decide (status = js "closed") || bool_decide (status = js "error") then settleLock true s else s.
Definition g_sock_message (i : nat) (msg : frame) (s : diagram) : diagram := g_onMessage msg s.

Definition g_connect (s : diagram) : diagram := connect g_hub on_g_hub g_onStatus (g_socket s) s.
Definition g_close (s : diagram) : diagram := let s := settleLock true s in on_g_hub (close (g_socket s)) s.

(** ** Steps

    The editor's calls, what the browser reports of a connection, time, and a timer that is due. *)
Inductive diagram_event :=
| GConnect | GClose
| GSendPatch (patch checksum : value)
| GConfirm (seq : option Z)
| GSaved (size seq : option Z)
| GRequestLock | GReleaseLock
| GWs (w : nat) (e : ws_event)
| GTick (ms : Z)
| GTimer (t : nat).

Definition g_on_timer (cb : timer_cb) (s : diagram) : diagram :=
  match cb with
  | CbReconnect i => on_reconnect g_hub on_g_hub g_onStatus i s
  | CbLock => settleLock true s
  | CbSyncRetry | CbSeed => s
  end.

Definition g_step (e : diagram_event) (s : diagram) : option diagram :=
  match e with
  | GConnect => Some (g_connect s)
  | GClose => Some (g_close s)
  | GSendPatch patch checksum => Some (sendPatch patch checksum s)
  | GConfirm seq => Some (confirmApplied seq s)
  | GSaved size seq => Some (g_sendSaved size seq s)
  | GRequestLock => Some (requestSaveLock s).2
  | GReleaseLock => Some (releaseSaveLock s)
  | GWs w e => ws_step g_hub on_g_hub g_onStatus g_sock_message w e s
  | GTick ms => if 0 <=? ms then Some (on_g_hub (fun h => h <| hb_now ::= Z.add ms |>) s) else None
  | GTimer t =>
      x ← List.find (fun x => Nat.eqb (tm_id x) t) (hb_timers (g_hub s));
      if tm_due x <=? hb_now (g_hub s) then Some (g_on_timer (tm_cb x) (on_g_hub (clearTimer t) s)) else None
  end.

Fixpoint g_run (es : list diagram_event) (s : diagram) : option diagram :=
  match es with
  | [] => Some s
  | e :: es => s ← g_step e s; g_run es s
  end.
End Patches.
