(* ===== verification/DiagramFacts.v ===== *)
(** * Diagrams edited together: what a save may claim

    The number a save names, the window of applied numbers, and the answer to a request for the upload. *)

From S2P Require Import Prelude JsString Bytes JsonTree CollabSocket CollabSocketFacts DiagramCollab.

Section Facts.
Context `{JsText}.

(** ** The books of a session

    What it knows of the editor, apart from its connection and the save election. *)
Record same_books (s s' : diagram) : Prop := {
  sb_log : g_log s' = g_log s;
  sb_outstanding : g_outstanding s' = g_outstanding s;
  sb_included : g_includedSeq s' = g_includedSeq s;
  sb_pending : g_pending s' = g_pending s;
  sb_applied : g_appliedSeqs s' = g_appliedSeqs s;
  sb_order : g_appliedOrder s' = g_appliedOrder s;
}.

#[export] Instance same_books_preorder : PreOrder same_books.
Proof. split; [done|]. intros a b c [] []. split; congruence. Qed.

Lemma books_hub (f : hub -> hub) (s : diagram) : same_books s (on_g_hub f s).
Proof. done. Qed.

Lemma books_settle (v : bool) (s : diagram) : same_books s (settleLock v s).
Proof. unfold settleLock. cbn. by destruct (g_lockResolve s). Qed.

Lemma books_status (i : nat) (status : jstr) (s : diagram) : same_books s (g_onStatus i status s).
Proof. unfold g_onStatus. case_match; [apply books_settle | done]. Qed.

Lemma books_connect (i : nat) (s : diagram) : same_books s (connect g_hub on_g_hub g_onStatus i s).
Proof.
  unfold connect. destruct (hb_socks (g_hub s) !! i) as [k|]; [|done]. destruct (sk_closed k); [done|].
  etrans; [|apply books_status]. done.
Qed.

Lemma books_close (w i : nat) (s : diagram) : same_books s (on_close on_g_hub g_onStatus i w s).
Proof. unfold on_close. etrans; [|apply books_hub]. etrans; [|apply books_status]. done. Qed.

Lemma books_request (s : diagram) : same_books s (requestSaveLock s).2.
Proof.
  unfold requestSaveLock. destruct (setTimer CbLock SAVE_LOCK_TIMEOUT_MS _) as [t h]. destruct (sendSaveLock _ _) as [sent h']. cbn.
  by destruct sent.
Qed.

(** Of what the browser reports, only a frame changes the books. *)
Lemma books_ws (w : nat) (e : ws_event) (s s' : diagram) :
  ws_step g_hub on_g_hub g_onStatus g_sock_message w e s = Some s' ->
  same_books s s' \/ exists f s1, e = WsMessage (Some f) /\ same_books s s1 /\ s' = g_onMessage f s1.
Proof.
  unfold ws_step. intros (x & _ & E)%bind_Some. destruct e as [|msg| |].
  - left. destruct (ws_state x); try done. injection E as <-. unfold on_open.
    etrans; [|apply books_hub]. etrans; [|apply books_status]. done.
  - destruct (ws_state x); try done. injection E as <-. destruct msg as [f|]; [|by left].
    right. eexists f, _. split_and!; [done | | done]. by destruct f.
  - left. assert (s' = on_close on_g_hub g_onStatus (ws_sock x) w (on_g_hub (updWs w (fun x => x <| ws_state := CLOSED |>)) s))
      as -> by (destruct (ws_state x); by simplify_eq). etrans; [|apply books_close]. done.
  - left. assert (s' = g_onStatus (ws_sock x) (js "error") s) as -> by (destruct (ws_state x); by simplify_eq). apply books_status.
Qed.

(** Every other event but a patch that is sent and a confirmation leaves them too. *)
Lemma books_step (e : diagram_event) (s s' : diagram) : g_step e s = Some s' ->
  match e with
  | GSendPatch patch checksum => s' = sendPatch patch checksum s
  | GConfirm seq => s' = confirmApplied seq s
  | GWs w (WsMessage (Some f)) => exists s1, same_books s s1 /\ s' = g_onMessage f s1
  | _ => same_books s s'
  end.
Proof.
  destruct e as [| |patch checksum|seq|size seq| | |w e|ms|t]; cbn [g_step]; try (intros E; injection E as <-).
  - apply books_connect.
  - unfold g_close. etrans; [|apply books_hub]. apply books_settle.
  - done.
  - done.
  - done.
  - apply books_request.
  - done.
  - intros E. pose proof (books_ws _ _ _ _ E) as [B|(f & s1 & -> & B & ->)]; [|by exists s1].
    destruct e as [|[f|]| |]; try done. unfold ws_step in E. apply bind_Some in E as (x & _ & E). destruct (ws_state x); try done.
    injection E as <-. eexists. split; [|reflexivity]. by destruct f.
  - case_match; [|done]. intros E. by injection E as <-.
  - intros (x & _ & E)%bind_Some. case_match; [|done]. injection E as <-. destruct (tm_cb x) as [i| | |]; cbn [g_on_timer]; try done.
    + unfold on_reconnect. etrans; [|apply books_connect]. done.
    + etrans; [|apply books_settle]. done.
Qed.

(** ** The numbers of a run *)

(** The numbers a frame brings. *)
Definition op_seqs (f : frame) : list Z := match f with FOp (Some q) _ _ => [q] | _ => [] end.
Definition frame_seqs (f : frame) : list Z :=
  match f with
  | FAck (Some q) => [q]
  | FWelcome _ _ _ l => concat (map op_seqs l)
  | _ => op_seqs f
  end.
Definition event_seqs (e : diagram_event) : list Z := match e with GWs _ (WsMessage (Some f)) => frame_seqs f | _ => [] end.
Definition arrived (es : list diagram_event) : list Z := concat (map event_seqs es).

Definition confirmed_by (e : diagram_event) : list Z := match e with GConfirm (Some q) => [q] | _ => [] end.
Definition confirmed (es : list diagram_event) : list Z := concat (map confirmed_by es).

(** The numbers of the patches handed to the editor. *)
Definition handed_by (n : diagram_notice) : list Z := match n with DRemotePatch {| pp_seq := Some q |} => [q] | _ => [] end.
Definition handed (s : diagram) : list Z := concat (map handed_by (g_log s)).

(** From number [hi] on, no number is skipped, and nothing is confirmed that did not come: the highest
    number at the end. *)
Fixpoint take_seqs (hi : Z) (l : list Z) : option Z :=
  match l with
  | [] => Some hi
  | q :: l => if q <=? hi + 1 then take_seqs (Z.max hi q) l else None
  end.
Definition scan_event (e : diagram_event) (hi : Z) : option Z :=
  match e with
  | GConfirm (Some q) => if q <=? hi then Some hi else None
  | _ => take_seqs hi (event_seqs e)
  end.
Fixpoint in_order (hi : Z) (es : list diagram_event) : option Z :=
  match es with
  | [] => Some hi
  | e :: es => hi ← scan_event e hi; in_order hi es
  end.

Lemma take_seqs_covers (l : list Z) (hi hi' : Z) : take_seqs hi l = Some hi' ->
  hi <= hi' /\ (forall q, hi < q <= hi' -> q ∈ l) /\ forall q, q ∈ l -> q <= hi'.
Proof.
  revert hi. induction l as [|p l IH]; cbn; intros hi; [intros [= <-]|].
  - split_and!; [lia | intros; lia | by intros q Hq%not_elem_of_nil].
  - destruct (Z.leb_spec p (hi + 1)) as [Hp|]; [|done]. intros (Hle & Hin & Hall)%IH. split_and!; [lia | |].
    + intros q Hq. destruct (decide (q = p)) as [->|]; [by left | right]. apply Hin. lia.
    + intros q [->|Hq]%elem_of_cons; [lia | by apply Hall].
Qed.

Lemma scan_covers (e : diagram_event) (hi hi' : Z) : scan_event e hi = Some hi' ->
  hi <= hi' /\ (forall q, hi < q <= hi' -> q ∈ event_seqs e) /\ (forall q, q ∈ event_seqs e -> q <= hi')
  /\ forall q, q ∈ confirmed_by e -> q <= hi'.
Proof.
  assert (Hd : take_seqs hi (event_seqs e) = Some hi' -> confirmed_by e = [] -> hi <= hi' /\ (forall q, hi < q <= hi' -> q ∈ event_seqs e)
     /\ (forall q, q ∈ event_seqs e -> q <= hi') /\ forall q, q ∈ confirmed_by e -> q <= hi').
  { intros (A & B & C)%take_seqs_covers E. split_and!; try done. rewrite E. by intros q Hq%not_elem_of_nil. }
  destruct e as [| |patch checksum|[q|]|size seq| | |w e|ms|t]; try (intros E; by apply Hd).
  cbn. destruct (Z.leb_spec q hi) as [Hq|]; [|done]. intros [= <-]. split_and!; [lia | intros; lia | by intros x Hx%not_elem_of_nil |].
  intros x ->%list_elem_of_singleton. done.
Qed.

Lemma in_order_covers (es : list diagram_event) (hi hi' : Z) : in_order hi es = Some hi' ->
  hi <= hi' /\ (forall q, hi < q <= hi' -> q ∈ arrived es).
Proof.
  revert hi. induction es as [|e es IH]; cbn; intros hi; [intros [= <-]; split; [lia | intros; lia]|].
  intros (h1 & (L & B & _)%scan_covers & (L' & B')%IH)%bind_Some. split; [lia|]. intros q Hq. unfold arrived. cbn. apply elem_of_app.
  destruct (decide (q <= h1)); [left; apply B; lia | right; apply B'; lia].
Qed.

(** ** Handing over and confirming *)

Lemma set_add_elem {A} `{EqDecision A} (x y : A) (l : list A) : y ∈ set_add x l <-> y = x \/ y ∈ l.
Proof. unfold set_add. case_bool_decide; [naive_solver|]. rewrite elem_of_app, list_elem_of_singleton. naive_solver. Qed.

Lemma filter_out_elem (q x : Z) (l : list Z) : x ∈ List.filter (fun y => negb (y =? q)) l <-> x ∈ l /\ x <> q.
Proof. rewrite !list_elem_of_In, filter_In. destruct (Z.eqb_spec x q); naive_solver. Qed.

Lemma handed_deliver (p : pending_patch) (s : diagram) : handed (deliver p s) = handed s ++ handed_by (DRemotePatch p).
Proof. unfold deliver, handed. destruct (pp_seq p); cbn; rewrite map_app, concat_app; cbn; by rewrite app_nil_r. Qed.

(** What was handed over is outstanding or was confirmed. *)
Definition accounted (cs : list Z) (s : diagram) : Prop := forall q, q ∈ handed s -> q ∈ g_outstanding s \/ q ∈ cs.

Lemma accounted_deliver (cs : list Z) (p : pending_patch) (s : diagram) : accounted cs s -> accounted cs (deliver p s).
Proof.
  intros Ha q. rewrite handed_deliver. unfold deliver. destruct p as [[x|] patch checksum]; cbn.
  - intros [Hq|Hq%list_elem_of_singleton]%elem_of_app; [|left; apply set_add_elem; auto].
    destruct (Ha q Hq); [left; apply set_add_elem; auto | by right].
  - rewrite app_nil_r. apply Ha.
Qed.

Lemma accounted_books (cs : list Z) (s s' : diagram) : same_books s s' -> accounted cs s -> accounted cs s'.
Proof. intros [L O _ _ _ _]. unfold accounted, handed. by rewrite L, O. Qed.

Lemma accounted_same (cs : list Z) (s s' : diagram) : handed s' = handed s -> g_outstanding s' = g_outstanding s ->
  accounted cs s -> accounted cs s'.
Proof. intros L O. unfold accounted. by rewrite L, O. Qed.

Lemma handed_notify (n : diagram_notice) (s : diagram) : handed_by n = [] -> handed (g_notify n s) = handed s.
Proof. intros E. unfold handed, g_notify. cbn. rewrite map_app, concat_app. cbn. by rewrite E, !app_nil_r. Qed.

Lemma accounted_frame (cs : list Z) (f : frame) (s : diagram) : accounted cs s -> accounted cs (g_onMessage f s).
Proof.
  intros Ha. destruct f as [p ps cw l|p|id|c|q i p|q|id q|g|n|]; cbn [g_onMessage]; try done.
  - assert (Hd : forall ds t, accounted cs t -> accounted cs (foldl (fun s p => deliver p s) t ds)).
    { induction ds as [|d ds IH]; cbn; intros t Ht; [done|]. by apply IH, accounted_deliver. }
    apply Hd. unfold emit. eapply accounted_same; [by apply handed_notify | by destruct cw | by destruct cw].
  - destruct p as [p|]; [|done]. case_match; [done|]. eapply accounted_same; [by apply handed_notify | done..].
  - eapply accounted_same; [by apply handed_notify | done..].
  - case_match; [done|]. by apply accounted_deliver.
  - unfold noteIncluded. destruct q; case_match; done.
  - eapply accounted_same; [by apply handed_notify | done..].
  - eapply accounted_books; [apply books_settle | done].
Qed.

(** The books of the applied numbers alone. *)
Lemma trim_same (fuel : nat) (s : diagram) : g_log (trim_applied fuel s) = g_log s
  /\ g_outstanding (trim_applied fuel s) = g_outstanding s /\ g_includedSeq (trim_applied fuel s) = g_includedSeq s.
Proof.
  revert s. induction fuel as [|fuel IH]; intros s; cbn; [done|]. destruct (g_appliedOrder s); [done|]. case_match; [|done].
  rewrite !(proj1 (IH _)), !(proj1 (proj2 (IH _))), !(proj2 (proj2 (IH _))). done.
Qed.

Lemma mark_same (seq : option Z) (s : diagram) : g_log (markApplied seq s) = g_log s
  /\ g_outstanding (markApplied seq s) = g_outstanding s /\ g_includedSeq (markApplied seq s) = g_includedSeq s.
Proof. unfold markApplied. destruct seq as [q|]; [|done]. case_match; [done|]. 
  set (s1 := (s <| g_appliedSeqs ::= _ |>) <| g_appliedOrder ::= _ |>). exact (trim_same _ s1).
Qed.

Lemma confirm_books (seq : option Z) (s : diagram) : g_log (confirmApplied seq s) = g_log s
  /\ g_outstanding (confirmApplied seq s) = (match seq with Some q => List.filter (fun x => negb (x =? q)) (g_outstanding s) | None => g_outstanding s end)
  /\ g_includedSeq (confirmApplied seq s) = (match seq with Some q => Z.max (g_includedSeq s) q | None => g_includedSeq s end).
Proof.
  unfold confirmApplied, noteIncluded. destruct (mark_same seq s) as (L & O & I).
  destruct seq as [q|]; cbn -[markApplied]; [by rewrite L, O, I | done].
Qed.

Lemma accounted_step (cs : list Z) (e : diagram_event) (s s' : diagram) : g_step e s = Some s' -> accounted cs s ->
  accounted (cs ++ confirmed_by e) s'.
Proof.
  intros E%books_step Ha.
  assert (Hb : same_books s s' -> accounted (cs ++ confirmed_by e) s').
  { intros B. eapply accounted_books; [exact B|]. intros q Hq. destruct (Ha q Hq); [by left | right; apply elem_of_app; by left]. }
  destruct e as [| |patch checksum|seq|size seq| | |w e|ms|t]; try (by apply Hb).
  - subst s'. rewrite app_nil_r. unfold sendPatch. destruct (negb (writable s)); [done|]. cbn.
    destruct (send _ _ _) as [[] h]; case_match; done.
  - subst s'. destruct (confirm_books seq s) as (L & O & _). intros q. unfold handed. rewrite L, O. intros Hq.
    destruct (Ha q Hq) as [Ho|Hc]; [|right; apply elem_of_app; by left]. destruct seq as [x|]; [|by left].
    destruct (decide (q = x)) as [->|]; [right; apply elem_of_app; right; by apply list_elem_of_singleton|].
    left. by apply filter_out_elem.
  - destruct e as [|[f|]| |]; try (by apply Hb). destruct E as (s1 & B & ->). rewrite app_nil_r.
    apply accounted_frame. by eapply accounted_books.
Qed.

Lemma accounted_run (es : list diagram_event) (cs : list Z) (s s' : diagram) : g_run es s = Some s' -> accounted cs s ->
  accounted (cs ++ confirmed es) s'.
Proof.
  revert cs s. induction es as [|e es IH]; cbn; intros cs s; [intros [= <-]; by rewrite app_nil_r|].
  intros (s1 & E1 & E)%bind_Some Ha. unfold confirmed. cbn. rewrite app_assoc. eapply IH; [exact E|]. by eapply accounted_step.
Qed.

(** ** The highest number *)

Lemma included_deliver (ds : list pending_patch) (s : diagram) :
  g_includedSeq (foldl (fun s p => deliver p s) s ds) = g_includedSeq s.
Proof. revert s. induction ds as [|[[q|] patch c] ds IH]; cbn; intros s; [done | by rewrite IH..]. Qed.

Lemma included_frame (f : frame) (s : diagram) : exists q, g_includedSeq (g_onMessage f s) = Z.max (g_includedSeq s) q
  /\ (q <= g_includedSeq s \/ f = FAck (Some q)).
Proof.
  assert (Hs : forall t, g_includedSeq t = g_includedSeq s -> exists q, g_includedSeq t = Z.max (g_includedSeq s) q
     /\ (q <= g_includedSeq s \/ f = FAck (Some q))) by (intros t ->; exists (g_includedSeq s); split; [lia | left; lia]).
  destruct f as [p ps cw l|p|id|c|q i p|q|id q|g|n|]; cbn [g_onMessage]; try (by apply Hs).
  - apply Hs. rewrite included_deliver. unfold emit. by destruct cw.
  - destruct p as [p|]; [|by apply Hs]. case_match; by apply Hs.
  - case_match; [by apply Hs|]. apply Hs. unfold deliver. by destruct (pp_seq p0).
  - destruct q as [q|]; [|by case_match; apply Hs]. exists q. split; [|by right]. by case_match.
  - apply Hs. apply books_settle.
Qed.

Lemma included_step (e : diagram_event) (s s' : diagram) (hi hi' : Z) : g_step e s = Some s' -> scan_event e hi = Some hi' ->
  g_includedSeq s <= hi -> g_includedSeq s' <= hi'.
Proof.
  intros E%books_step (L & _ & A & C)%scan_covers Hi.
  assert (Hb : same_books s s' -> g_includedSeq s' <= hi') by (intros B; rewrite (sb_included _ _ B); lia).
  destruct e as [| |patch checksum|seq|size seq| | |w e|ms|t]; try (by apply Hb).
  - subst s'. unfold sendPatch. destruct (negb (writable s)); [lia|]. destruct (send _ _ _) as [[] h]; case_match; cbn; lia.
  - subst s'. destruct (confirm_books seq s) as (_ & _ & ->). destruct seq as [q|]; [|lia].
    assert (q <= hi') by (apply C; by apply list_elem_of_singleton). lia.
  - destruct e as [|[f|]| |]; try (by apply Hb). destruct E as (s1 & B & ->).
    destruct (included_frame f s1) as (q & -> & Hq). rewrite (sb_included _ _ B) in *. destruct Hq as [Hq| ->]; [lia|].
    assert (q <= hi') by (apply A; by apply list_elem_of_singleton). lia.
Qed.

Lemma included_run (es : list diagram_event) (s s' : diagram) (hi hi' : Z) : g_run es s = Some s' -> in_order hi es = Some hi' ->
  g_includedSeq s <= hi -> g_includedSeq s' <= hi'.
Proof.
  revert s hi. induction es as [|e es IH]; cbn; intros s hi; [by intros [= <-] [= <-]|].
  intros (s1 & E1 & E)%bind_Some (h1 & O1 & O)%bind_Some Hi. eapply IH; [exact E | exact O|]. by eapply included_step.
Qed.

Lemma fold_min_le (l : list Z) (m : Z) : foldl Z.min m l <= m /\ forall q, q ∈ l -> foldl Z.min m l <= q.
Proof.
  revert m. induction l as [|x l IH]; cbn; intros m; [split; [lia | by intros q Hq%not_elem_of_nil]|].
  destruct (IH (Z.min m x)) as [A B]. split; [lia|]. intros q [->|Hq]%elem_of_cons; [lia | by apply B].
Qed.

Lemma contiguous_bound (s : diagram) : contiguousSeq s <= g_includedSeq s
  /\ forall q, q ∈ g_outstanding s -> 0 < q -> contiguousSeq s < q.
Proof.
  unfold contiguousSeq. destruct (g_outstanding s) as [|x l]; [split; [lia | by intros q Hq%not_elem_of_nil]|].
  split; [lia|]. intros q Hq H0. destruct (fold_min_le l x) as [A B].
  assert (foldl Z.min x l <= q) by (apply elem_of_cons in Hq as [->|Hq]; [done | by apply B]). lia.
Qed.

(** ** The window of applied numbers *)

Record window_ok (s : diagram) : Prop := {
  wd_same : g_appliedSeqs s = g_appliedOrder s;
  wd_distinct : NoDup (g_appliedOrder s);
  wd_length : (length (g_appliedOrder s) <= APPLIED_CAP)%nat;
}.

Lemma filter_out_head (q : Z) (l : list Z) : NoDup (q :: l) -> List.filter (fun x => negb (x =? q)) (q :: l) = l.
Proof.
  intros [Hq _]%NoDup_cons. cbn. rewrite Z.eqb_refl. cbn. induction l as [|x l IH]; cbn; [done|].
  apply not_elem_of_cons in Hq as [Hx Hq]. destruct (Z.eqb_spec x q); [congruence|]. cbn. by rewrite IH.
Qed.

Lemma window_trim (fuel : nat) (s : diagram) : g_appliedSeqs s = g_appliedOrder s -> NoDup (g_appliedOrder s) ->
  (length (g_appliedOrder s) <= APPLIED_CAP + fuel)%nat ->
  window_ok (trim_applied fuel s) /\ exists k, g_appliedOrder (trim_applied fuel s) = drop k (g_appliedOrder s)
    /\ (k = (length (g_appliedOrder s) - APPLIED_CAP)%nat).
Proof.
  revert s. induction fuel as [|fuel IH]; intros s E N L.
  - cbn [trim_applied]. split; [by split; [..|lia]|]. exists 0%nat. split; [done | lia].
  - cbn [trim_applied]. destruct (g_appliedOrder s) as [|old order] eqn:O; [split; [by split; rewrite ?O; [..|cbn [length]; lia]|]|].
    { exists 0%nat. rewrite O. split; [done | cbn [length]; lia]. }
    destruct (Nat.ltb_spec APPLIED_CAP (length (old :: order))) as [Hlt|Hge].
    + set (s1 := (s <| g_appliedOrder := order |>) <| g_appliedSeqs ::= List.filter (fun q => negb (q =? old)) |>).
      assert (E1 : g_appliedSeqs s1 = order) by (unfold s1; cbn; rewrite E; by apply filter_out_head).
      apply NoDup_cons in N as [_ N]. cbn [length] in L, Hlt. destruct (IH s1) as (W & k & Hk & ->); [done | done | change (g_appliedOrder s1) with order; lia |].
      split; [exact W|]. exists (S (length order) - APPLIED_CAP)%nat. split; [|done]. rewrite Hk. change (g_appliedOrder s1) with order.
      by replace (S (length order) - APPLIED_CAP)%nat with (S (length order - APPLIED_CAP)) by lia.
    + split; [split; rewrite ?O; done|]. exists 0%nat. rewrite O. split; [done | lia].
Qed.

Lemma window_mark (seq : option Z) (s : diagram) : window_ok s -> window_ok (markApplied seq s).
Proof.
  intros [E N L]. unfold markApplied. destruct seq as [q|]; [|done]. case_bool_decide as Hq; [done|].
  set (s1 := (s <| g_appliedSeqs ::= set_add q |>) <| g_appliedOrder ::= fun l => l ++ [q] |>).
  refine (proj1 (window_trim _ s1 _ _ _)).
  - unfold s1. cbn. unfold set_add. rewrite bool_decide_false by done. by rewrite E.
  - unfold s1. cbn. rewrite E in Hq. apply NoDup_app. split_and!; [done | | apply NoDup_singleton].
    intros x Hx ->%list_elem_of_singleton. done.
  - change (g_appliedOrder s1) with (g_appliedOrder s ++ [q]). rewrite length_app. lia.
Qed.

Lemma window_books (s s' : diagram) : same_books s s' -> window_ok s -> window_ok s'.
Proof. intros [_ _ _ _ A O] [E N L]. split; by rewrite ?A, ?O. Qed.

Lemma window_deliver (ds : list pending_patch) (s : diagram) : window_ok s -> window_ok (foldl (fun s p => deliver p s) s ds).
Proof. revert s. induction ds as [|[[q|] patch c] ds IH]; cbn; intros s [E N L]; [done | by apply IH..]. Qed.

Lemma window_frame (f : frame) (s : diagram) : window_ok s -> window_ok (g_onMessage f s).
Proof.
  intros W. pose proof W as [E N L]. destruct f as [p ps cw l|p|id|c|q i p|q|id q|g|n|]; cbn [g_onMessage]; try done.
  - apply window_deliver. unfold emit. by destruct cw.
  - destruct p as [p|]; [|done]. by case_match.
  - case_match; [done|]. by apply (window_deliver [p0]).
  - unfold noteIncluded. destruct q; by case_match.
  - eapply window_books; [apply books_settle | done].
Qed.

Lemma window_step (e : diagram_event) (s s' : diagram) : g_step e s = Some s' -> window_ok s -> window_ok s'.
Proof.
  intros E%books_step W.
  destruct e as [| |patch checksum|seq|size seq| | |w e|ms|t]; try (by eapply window_books).
  - subst s'. unfold sendPatch. destruct (negb (writable s)); [done|]. destruct W as [A N L].
    destruct (send _ _ _) as [[] h]; case_match; done.
  - subst s'. unfold confirmApplied, noteIncluded. pose proof (window_mark seq s W) as [A N L]. by destruct seq.
  - destruct e as [|[f|]| |]; try (by eapply window_books). destruct E as (s1 & B & ->). apply window_frame. by eapply window_books.
Qed.

Lemma window_run (es : list diagram_event) (s s' : diagram) : g_run es s = Some s' -> window_ok s -> window_ok s'.
Proof.
  revert s. induction es as [|e es IH]; cbn; intros s; [by intros [= <-]|].
  intros (s1 & E1 & E)%bind_Some W. eapply IH; [exact E|]. by eapply window_step.
Qed.

Lemma window_new (cw : bool) : window_ok (new_diagram cw).
Proof. split; cbn; [done | constructor | lia]. Qed.

(** ** The save election

    The editor connects once and asks again only after its last request was answered. *)

Definition once (e : diagram_event) (s : diagram) : Prop :=
  match e with GRequestLock => g_lockResolve s = None | _ => True end.

Inductive used : diagram -> Prop :=
| used_new cw : used (new_diagram cw)
| used_step e s s' : used s -> once e s -> g_step e s = Some s' -> used s'.

(** Ids name timers, and a socket's timer is a timer of its own. *)
Record timers_ok (h : hub) : Prop := {
  to_ids : NoDup (map tm_id (hb_timers h));
  to_next : forall x, x ∈ hb_timers h -> (tm_id x < hb_nextTimer h)%nat;
  to_retry : forall i k t, hb_socks h !! i = Some k -> sk_retryTimer k = Some t ->
    exists x, x ∈ hb_timers h /\ tm_id x = t /\ tm_cb x = CbReconnect i;
}.

(** The timers of requests stay. *)
Definition keeps_locks (h h' : hub) : Prop :=
  (forall x, x ∈ hb_timers h -> tm_cb x = CbLock -> x ∈ hb_timers h') /\ hb_now h' = hb_now h.

Lemma named_timer (h : hub) (x y : timer) : timers_ok h -> x ∈ hb_timers h -> y ∈ hb_timers h -> tm_id x = tm_id y -> x = y.
Proof. intros [N _ _]. by apply unique_id. Qed.

Lemma find_named (h : hub) (x : timer) : timers_ok h -> x ∈ hb_timers h ->
  List.find (fun y => Nat.eqb (tm_id y) (tm_id x)) (hb_timers h) = Some x.
Proof.
  intros T Hx. destruct (List.find _ _) as [y|] eqn:E.
  - apply find_some in E as [Hy E]. f_equal. apply (named_timer h); [done | by apply list_elem_of_In | done | by apply Nat.eqb_eq].
  - apply list_elem_of_In in Hx. apply (find_none _ _ E) in Hx. by rewrite Nat.eqb_refl in Hx.
Qed.

(** Operations that touch no timer. *)
Lemma timers_ok_same (h h' : hub) : hb_timers h' = hb_timers h -> hb_nextTimer h' = hb_nextTimer h ->
  (forall i k, hb_socks h' !! i = Some k -> sk_retryTimer k = None \/ exists k0, hb_socks h !! i = Some k0 /\ sk_retryTimer k0 = sk_retryTimer k) ->
  timers_ok h -> timers_ok h'.
Proof.
  intros T N S [H1 H2 H3]. split; rewrite ?T, ?N; try done. intros i k t Hk Ht.
  destruct (S i k Hk) as [E|(k0 & Hk0 & E)]; [congruence|]. apply (H3 i k0); congruence.
Qed.

Lemma timers_updSock (i : nat) (f : socket -> socket) (h : hub) :
  (forall k, sk_retryTimer (f k) = sk_retryTimer k \/ sk_retryTimer (f k) = None) -> timers_ok h -> timers_ok (updSock i f h).
Proof.
  intros Hf. apply timers_ok_same; [done..|]. intros j k. cbn. rewrite list_lookup_alter. case_decide; [|by eauto].
  subst. rewrite fmap_Some. intros (k0 & Hk0 & ->). destruct (Hf k0); eauto.
Qed.

Lemma timers_send (i : nat) (m : client_msg) (h : hub) : timers_ok h -> timers_ok (send i m h).2.
Proof. intros T. unfold send. destruct (live_ws i h); [|done]. by destruct T. Qed.

Lemma timers_clear (t : nat) (h : hub) : (forall i k, hb_socks h !! i = Some k -> sk_retryTimer k <> Some t) ->
  timers_ok h -> timers_ok (clearTimer t h).
Proof.
  intros Ht [H1 H2 H3]. split.
  - by apply clearTimer_ids.
  - intros x [Hx _]%clearTimer_elem. by apply H2.
  - intros i k u Hk Hu. destruct (H3 i k u Hk Hu) as (x & Hx & <- & C). exists x. rewrite clearTimer_elem.
    split_and!; try done. intros E. apply (Ht i k Hk). congruence.
Qed.

Lemma timers_set (cb : timer_cb) (ms : Z) (h : hub) : timers_ok h -> timers_ok (setTimer cb ms h).2
  /\ keeps_locks h (setTimer cb ms h).2.
Proof.
  intros [H1 H2 H3]. split; [split|split; [|done]]; cbn.
  - rewrite map_app. apply NoDup_app. split_and!; [done | | apply NoDup_singleton].
    intros t (x & Et & Hx)%list_elem_of_fmap Eu%list_elem_of_singleton. apply H2 in Hx. cbn in Eu. lia.
  - intros x [Hx|Hx%list_elem_of_singleton]%elem_of_app; [apply H2 in Hx; lia | subst x; cbn; lia].
  - intros i k t Hk Ht. destruct (H3 i k t Hk Ht) as (x & Hx & E). exists x. split; [|done]. apply elem_of_app; by left.
  - intros x Hx _. apply elem_of_app; by left.
Qed.

Lemma timers_schedule (i : nat) (h : hub) : timers_ok h -> timers_ok (scheduleReconnect i h) /\ keeps_locks h (scheduleReconnect i h).
Proof.
  intros T. unfold scheduleReconnect. destruct (hb_socks h !! i) as [k|] eqn:Hk; [|done].
  destruct (sk_closed k || _); [done|]. destruct (_ <=? _); [done|].
  set (h1 := updSock i (fun s => s <| sk_attempts ::= Z.succ |>) h).
  assert (T1 : timers_ok h1) by (apply timers_updSock; [by left | done]).
  destruct (timers_set (CbReconnect i) (reconnect_delay (sk_attempts k)) h1 T1) as [T2 K2].
  destruct (setTimer _ _ h1) as [t h2] eqn:E. cbn [snd] in *. injection E as Et Eh. split; [|done]. destruct T2 as [N2 X2 R2].
  split; [done | done |]. intros j k' u. cbn. rewrite list_lookup_alter. case_decide as Ej; [|apply R2].
  subst j. rewrite fmap_Some. intros (k0 & _ & ->). cbn. intros [= <-]. eexists. rewrite <- Eh. cbn.
  split_and!; [apply elem_of_app; right; by apply list_elem_of_singleton | done | done].
Qed.

(** Closing a socket ends no timer but its own. *)
Lemma close_keeps (i : nat) (h : hub) (x : timer) : timers_ok h -> x ∈ hb_timers h -> tm_cb x <> CbReconnect i ->
  x ∈ hb_timers (close i h).
Proof.
  intros T Hx Cx. unfold close. destruct (hb_socks h !! i) as [k|] eqn:Hi; [|done].
  destruct (sk_retryTimer k) as [u|] eqn:R; [|by destruct (sk_ws k)].
  assert (Hn : x ∈ hb_timers (clearTimer u h)); [|by destruct (sk_ws k)].
  apply clearTimer_elem. split; [done|]. intros Eu. destruct (to_retry _ T i k u Hi R) as (y & Hy & Ey & Cy).
  assert (x = y) by (apply (named_timer h); [done..|congruence]). congruence.
Qed.

Lemma timers_close (i : nat) (h : hub) : timers_ok h -> timers_ok (close i h) /\ keeps_locks h (close i h).
Proof.
  intros T. destruct (close_timers i h (to_ids _ T)) as (I & N & L). split.
  - split; [done | intros x Hx%L; rewrite N; by apply T |].
    intros j k t. rewrite close_socks, list_lookup_alter. case_decide as E; [rewrite fmap_Some; by intros (k0 & _ & ->)|].
    intros Hk Ht. destruct (to_retry _ T j k t Hk Ht) as (x & Hx & Ex & Cx). exists x. split; [|done].
    apply close_keeps; [done..|]. rewrite Cx. congruence.
  - split; [|unfold close; destruct (hb_socks h !! i) as [ki|]; [|done]; by destruct (sk_retryTimer ki), (sk_ws ki)].
    intros x Hx Cx. apply close_keeps; [done..|]. by rewrite Cx.
Qed.

Record lock_ok (s : diagram) : Prop := {
  lk_timers : timers_ok (g_hub s);
  lk_pending : forall p, g_locks s !! p = Some None -> g_lockResolve s = Some p;
  lk_current : forall p, g_lockResolve s = Some p -> g_locks s !! p = Some None /\ g_lockTimer s <> None;
  lk_armed : forall t, g_lockTimer s = Some t ->
    exists x, x ∈ hb_timers (g_hub s) /\ tm_id x = t /\ tm_cb x = CbLock /\ tm_due x <= hb_now (g_hub s) + SAVE_LOCK_TIMEOUT_MS;
}.

Lemma lock_hub (f : hub -> hub) (s : diagram) : timers_ok (f (g_hub s)) -> keeps_locks (g_hub s) (f (g_hub s)) ->
  lock_ok s -> lock_ok (on_g_hub f s).
Proof.
  intros T [K N] [H1 H2 H3 H4]. split; cbn; try done. intros t Ht. destruct (H4 t Ht) as (x & Hx & Ex & Cx & Dx).
  exists x. rewrite N. split_and!; [by apply K | done..].
Qed.

Lemma lock_same (s s' : diagram) : g_hub s' = g_hub s -> g_lockResolve s' = g_lockResolve s -> g_lockTimer s' = g_lockTimer s ->
  g_locks s' = g_locks s -> lock_ok s -> lock_ok s'.
Proof. intros E1 E2 E3 E4 [H1 H2 H3 H4]. split; by rewrite ?E1, ?E2, ?E3, ?E4. Qed.

(** Settling resolves what is pending and leaves no timer. *)
Lemma settle_weak (v : bool) (s : diagram) : timers_ok (g_hub s) ->
  (forall t i k, g_lockTimer s = Some t -> hb_socks (g_hub s) !! i = Some k -> sk_retryTimer k <> Some t) ->
  (forall p, g_locks s !! p = Some None -> g_lockResolve s = Some p) ->
  lock_ok (settleLock v s) /\ forall p, g_lockResolve s = Some p -> g_locks s !! p = Some None -> g_locks (settleLock v s) !! p = Some (Some v).
Proof.
  intros T Ht Hp.
  assert (E : g_hub (settleLock v s) = clearOpt (g_lockTimer s) (g_hub s) /\ g_lockResolve (settleLock v s) = None /\ g_lockTimer (settleLock v s) = None
    /\ forall p, g_locks (settleLock v s) !! p = (if decide (g_lockResolve s = Some p) then (fun r => match r with None => Some v | _ => r end) <$> g_locks s !! p else g_locks s !! p)).
  { unfold settleLock. cbn. destruct (g_lockResolve s) as [q|]; cbn; split_and!; try done; intros p.
    rewrite list_lookup_alter. destruct (decide (q = p)) as [->|Hn]; [by rewrite decide_True | by rewrite decide_False by congruence]. }
  destruct E as (Eh & Er & Et & El). split.
  - split; rewrite ?Eh, ?Er, ?Et; try done.
    + destruct (g_lockTimer s) as [t|]; [|done]. cbn. apply timers_clear; [|done]. intros i k Hk. by apply (Ht t i k).
    + intros p Hl. rewrite El in Hl. case_decide as D; [|by apply Hp in Hl]. by destruct (g_locks s !! p) as [[b|]|].
  - intros p Hr Hl. rewrite El, decide_True by done. by rewrite Hl.
Qed.

Lemma lock_timer_apart (s : diagram) (t i : nat) (k : socket) : lock_ok s -> g_lockTimer s = Some t ->
  hb_socks (g_hub s) !! i = Some k -> sk_retryTimer k <> Some t.
Proof.
  intros [T _ _ A] Ht Hk R. destruct (A t Ht) as (x & Hx & Ex & Cx & _). destruct (to_retry _ T i k t Hk R) as (y & Hy & Ey & Cy).
  assert (x = y) by (apply (named_timer (g_hub s)); [done..|congruence]). congruence.
Qed.

Lemma lock_settle (v : bool) (s : diagram) : lock_ok s -> lock_ok (settleLock v s).
Proof.
  intros L. apply settle_weak; [apply L | intros t i k; by apply lock_timer_apart | apply L].
Qed.

Lemma lock_status (i : nat) (status : jstr) (s : diagram) : lock_ok s -> lock_ok (g_onStatus i status s).
Proof. intros L. unfold g_onStatus. case_match; [by apply lock_settle | done]. Qed.

(** Changes of a socket that touch no timer. *)
Lemma lock_updSock (i : nat) (f : socket -> socket) (s : diagram) :
  (forall k, sk_retryTimer (f k) = sk_retryTimer k \/ sk_retryTimer (f k) = None) -> lock_ok s -> lock_ok (on_g_hub (updSock i f) s).
Proof. intros Hf L. apply lock_hub; [apply timers_updSock; [done | apply L] | done | done]. Qed.

Lemma lock_wss (f : hub -> hub) (s : diagram) : hb_timers (f (g_hub s)) = hb_timers (g_hub s) ->
  hb_nextTimer (f (g_hub s)) = hb_nextTimer (g_hub s) -> hb_now (f (g_hub s)) = hb_now (g_hub s) ->
  hb_socks (f (g_hub s)) = hb_socks (g_hub s) -> lock_ok s -> lock_ok (on_g_hub f s).
Proof.
  intros T N W S L. apply lock_hub; [|by split; rewrite ?T|done].
  eapply timers_ok_same; [exact T | exact N | | apply L]. rewrite S. eauto.
Qed.

Lemma lock_connect (i : nat) (s : diagram) : lock_ok s -> lock_ok (connect g_hub on_g_hub g_onStatus i s).
Proof.
  intros L. unfold connect. destruct (hb_socks (g_hub s) !! i) as [k|]; [|done]. destruct (sk_closed k); [done|].
  apply lock_status, lock_updSock; [by left|]. by apply lock_wss.
Qed.

Lemma lock_frame (f : frame) (s : diagram) : lock_ok s -> lock_ok (g_onMessage f s).
Proof.
  intros L. destruct f as [p ps cw l|p|id|c|q i p|q|id q|g|n|]; cbn [g_onMessage]; try done.
  - assert (Hd : forall ds t, lock_ok t -> lock_ok (foldl (fun s p => deliver p s) t ds)).
    { induction ds as [|[[q|] patch c] ds IH]; cbn; intros t Ht; [done | apply IH..]; by apply (lock_same t). }
    apply Hd. destruct cw; by apply (lock_same s).
  - destruct p as [p|]; [|done]. case_match; [done|]. by apply (lock_same s).
  - by apply (lock_same s).
  - case_match; [done|]. unfold deliver. destruct (pp_seq p0); by apply (lock_same s).
  - destruct q; case_match; by apply (lock_same s).
  - by apply (lock_same s).
  - by apply lock_settle.
Qed.

Lemma lock_ws (w : nat) (e : ws_event) (s s' : diagram) : lock_ok s ->
  ws_step g_hub on_g_hub g_onStatus g_sock_message w e s = Some s' -> lock_ok s'.
Proof.
  intros L. unfold ws_step. intros (x & _ & E)%bind_Some. destruct e as [|msg| |].
  - destruct (ws_state x); try done. injection E as <-. unfold on_open. apply lock_wss; [done..|].
    apply lock_status, lock_updSock; [by left|]. by apply lock_wss.
  - destruct (ws_state x); try done. injection E as <-. destruct msg as [f|]; [|done]. apply lock_frame.
    destruct f; try done. apply lock_updSock; [by left | done].
  - assert (s' = on_close on_g_hub g_onStatus (ws_sock x) w (on_g_hub (updWs w (fun x => x <| ws_state := CLOSED |>)) s))
      as -> by (destruct (ws_state x); by simplify_eq). unfold on_close.
    set (s1 := g_onStatus _ _ _). assert (L1 : lock_ok s1).
    { apply lock_status, lock_updSock; [intros k; case_bool_decide; by left|]. by apply lock_wss. }
    destruct (timers_schedule (ws_sock x) (g_hub s1) (lk_timers _ L1)). by apply lock_hub.
  - assert (s' = g_onStatus (ws_sock x) (js "error") s) as -> by (destruct (ws_state x); by simplify_eq). by apply lock_status.
Qed.

Lemma lock_request (s : diagram) : lock_ok s -> g_lockResolve s = None -> lock_ok (requestSaveLock s).2.
Proof.
  intros [T P C A] Hr. set (h1 := (setTimer CbLock SAVE_LOCK_TIMEOUT_MS (g_hub s)).2).
  destruct (timers_set CbLock SAVE_LOCK_TIMEOUT_MS (g_hub s) T) as [T1 _]. fold h1 in T1.
  set (h2 := (send (g_socket s) CSaveLock h1).2).
  set (s1 := ((s <| g_locks ::= fun l => l ++ [None] |>) <| g_lockResolve := Some (length (g_locks s)) |>)
     <| g_hub := h2 |> <| g_lockTimer := Some (hb_nextTimer (g_hub s)) |>).
  assert (E : (requestSaveLock s).2 = s1 \/ (requestSaveLock s).2 = settleLock true s1).
  { unfold requestSaveLock, s1, h2, h1, sendSaveLock. cbn [setTimer snd]. destruct (send _ _ _) as [[] h]; [by left | by right]. }
  assert (T2 : timers_ok h2 /\ hb_timers h2 = hb_timers h1 /\ hb_now h2 = hb_now h1).
  { split; [by apply timers_send|]. unfold h2, send. by destruct (live_ws _ _). }
  destruct T2 as (T2 & Et & En).
  assert (L1 : lock_ok s1); [|destruct E as [-> | ->]; [done | by apply lock_settle]].
  split; [exact T2 | | |].
  - intros p Hp. change (g_locks s1) with (g_locks s ++ [None]) in Hp. apply lookup_snoc_Some in Hp as [[_ Hp]|[-> _]]; [|done].
    apply P in Hp. congruence.
  - intros p [= <-]. split; [|done]. change (g_locks s1) with (g_locks s ++ [None]). by rewrite lookup_app_r, Nat.sub_diag.
  - intros t [= <-]. exists {| tm_id := hb_nextTimer (g_hub s); tm_due := hb_now (g_hub s) + SAVE_LOCK_TIMEOUT_MS; tm_cb := CbLock |}.
    change (g_hub s1) with h2. rewrite Et, En. split_and!; [|done|done|cbn; lia].
    unfold h1. cbn. apply elem_of_app. right. by apply list_elem_of_singleton.
Qed.

(** A timer fires. *)
Lemma lock_timer_step (x : timer) (s : diagram) : lock_ok s -> x ∈ hb_timers (g_hub s) ->
  lock_ok (g_on_timer (tm_cb x) (on_g_hub (clearTimer (tm_id x)) s))
  /\ (tm_cb x = CbLock -> forall p, g_lockResolve s = Some p -> g_locks s !! p = Some None ->
        g_locks (g_on_timer CbLock (on_g_hub (clearTimer (tm_id x)) s)) !! p = Some (Some true)).
Proof.
  intros L Hx. pose proof L as [T P C A].
  assert (Hc : forall cb, tm_cb x = cb -> cb <> CbLock -> (forall i, cb <> CbReconnect i) -> lock_ok (on_g_hub (clearTimer (tm_id x)) s)).
  { intros cb Ecb Hl Hr. apply lock_hub; [| |done].
    - apply timers_clear; [|done]. intros i k Hk R. destruct (to_retry _ T i k _ Hk R) as (y & Hy & Ey & Cy).
      apply (Hr i). rewrite <- Ecb, <- Cy. f_equal. symmetry. by apply (named_timer (g_hub s)).
    - split; [|done]. intros y Hy Cy. apply clearTimer_elem. split; [done|]. intros E. apply Hl. rewrite <- Ecb, <- Cy. f_equal.
      symmetry. by apply (named_timer (g_hub s)). }
  destruct (tm_cb x) as [i| | |] eqn:Cx; cbn [g_on_timer]; (split; [|try done]).
  - unfold on_reconnect. apply lock_connect. refine (lock_hub (fun h => updSock i (fun s => s <| sk_retryTimer := None |>) (clearTimer (tm_id x) h)) s _ _ L).
    + split.
      * by apply clearTimer_ids, T.
      * intros y [Hy _]%clearTimer_elem. by apply T.
      * intros j k t. cbn. rewrite list_lookup_alter. case_decide as Ej; [rewrite fmap_Some; by intros (k0 & _ & ->)|].
        intros Hk Ht. destruct (to_retry _ T j k t Hk Ht) as (y & Hy & Ey & Cy). exists y. split; [|done].
        apply clearTimer_elem. split; [done|]. intros E. assert (x = y) by (by apply (named_timer (g_hub s))). congruence.
    + split; [|done]. intros y Hy Cy. apply clearTimer_elem. split; [done|]. intros E.
      assert (x = y) by (by apply (named_timer (g_hub s))). congruence.
  - by apply (Hc _ eq_refl).
  - by apply (Hc _ eq_refl).
  - apply settle_weak; [| |done].
    + apply timers_clear; [|done]. intros i k Hk R. destruct (to_retry _ T i k _ Hk R) as (y & Hy & Ey & Cy).
      assert (x = y) by (by apply (named_timer (g_hub s))). congruence.
    + intros t i k. apply (lock_timer_apart s t i k L).
  - intros _. refine (proj2 (settle_weak true (on_g_hub (clearTimer (tm_id x)) s) _ _ _)); [| |done].
    + apply timers_clear; [|done]. intros i k Hk R. destruct (to_retry _ T i k _ Hk R) as (y & Hy & Ey & Cy).
      assert (x = y) by (by apply (named_timer (g_hub s))). congruence.
    + intros t i k. apply (lock_timer_apart s t i k L).
Qed.

Lemma confirm_lock (seq : option Z) (s : diagram) : g_hub (confirmApplied seq s) = g_hub s
  /\ g_lockResolve (confirmApplied seq s) = g_lockResolve s /\ g_lockTimer (confirmApplied seq s) = g_lockTimer s
  /\ g_locks (confirmApplied seq s) = g_locks s.
Proof.
  assert (Ht : forall fuel t, g_hub (trim_applied fuel t) = g_hub t /\ g_lockResolve (trim_applied fuel t) = g_lockResolve t
     /\ g_lockTimer (trim_applied fuel t) = g_lockTimer t /\ g_locks (trim_applied fuel t) = g_locks t).
  { induction fuel as [|fuel IH]; intros t; cbn [trim_applied]; [done|]. destruct (g_appliedOrder t) as [|old order]; [done|].
    destruct (Nat.ltb APPLIED_CAP _); [|done].
    exact (IH ((t <| g_appliedOrder := order |>) <| g_appliedSeqs ::= List.filter (fun q => negb (q =? old)) |>)). }
  unfold confirmApplied, noteIncluded, markApplied. destruct seq as [q|]; [|done]. case_match; [done|].
  set (s1 := (s <| g_appliedSeqs ::= _ |>) <| g_appliedOrder ::= _ |>). cbn zeta. exact (Ht _ s1).
Qed.

Lemma lock_step (e : diagram_event) (s s' : diagram) : lock_ok s -> once e s -> g_step e s = Some s' -> lock_ok s'.
Proof.
  intros L O. pose proof (lk_timers _ L) as T. destruct e as [| |patch checksum|seq|size seq| | |w e|ms|t]; cbn [g_step];
    try (intros E; injection E as <-).
  - by apply lock_connect.
  - unfold g_close. pose proof (lock_settle true s L) as L1. destruct (timers_close (g_socket (settleLock true s)) _ (lk_timers _ L1)).
    by apply lock_hub.
  - unfold sendPatch. destruct (negb (writable s)); [done|]. cbn zeta. set (p := Build_payload _ _ _ _ _).
    assert (Hs : forall s0 : diagram, lock_ok s0 -> lock_ok (let '(sent, h) := send (g_socket s0) (COp p) (g_hub s0) in
       if sent then s0 <| g_hub := h |> <| g_pending ::= Z.succ |> else s0 <| g_hub := h |>)).
    { intros s0 L0. pose proof (timers_send (g_socket s0) (COp p) (g_hub s0) (lk_timers _ L0)) as T0.
      assert (K0 : keeps_locks (g_hub s0) (send (g_socket s0) (COp p) (g_hub s0)).2) by (unfold send; by destruct (live_ws _ _)).
      destruct (send _ _ _) as [sent h]. cbn [snd] in *. pose proof (lock_hub (fun _ => h) s0 T0 K0 L0) as L1.
      destruct sent; by apply (lock_same (on_g_hub (fun _ => h) s0)). }
    destruct (truthy (patchFingerprint patch)); [|by apply Hs]. apply (Hs (s <| g_sentFingerprints ::= set_add (patchFingerprint patch) |>)). by apply (lock_same s).
  - assert (E : g_hub (confirmApplied seq s) = g_hub s /\ g_lockResolve (confirmApplied seq s) = g_lockResolve s
       /\ g_lockTimer (confirmApplied seq s) = g_lockTimer s /\ g_locks (confirmApplied seq s) = g_locks s) by apply confirm_lock.
    destruct E as (E1 & E2 & E3 & E4). by apply (lock_same s).
  - apply lock_hub; [by apply timers_send | unfold sendSaved, send; by destruct (live_ws _ _) | done].
  - by apply lock_request.
  - apply lock_hub; [by apply timers_send | unfold sendSaveEnd, send; by destruct (live_ws _ _) | done].
  - by apply lock_ws.
  - case_match; [|done]. intros E. injection E as <-. destruct L as [T1 P C A]. split; cbn; try done; [by destruct T1|].
    intros t Ht. destruct (A t Ht) as (x & Hx & Ex & Cx & Dx). exists x. split_and!; try done. apply Z.leb_le in H0. lia.
  - intros (x & Hx & E)%bind_Some. apply find_some in Hx as [Hx Et]. apply Nat.eqb_eq in Et. subst t. case_match; [|done].
    injection E as <-. apply list_elem_of_In in Hx. by apply lock_timer_step.
Qed.

Lemma used_ok (s : diagram) : used s -> lock_ok s.
Proof.
  induction 1 as [cw|e s s' _ IH O E]; [|by eapply lock_step]. split; cbn; try done.
  split; cbn; [constructor | by intros x Hx%not_elem_of_nil |]. intros [|i] k t; cbn; [by intros [= <-]|done].
Qed.

(** C17: the number a save is named by is behind no unconfirmed patch.  When the session names [n], every patch numbered up to [n]
    that it handed to the editor has been confirmed by the editor; and if the numbers reached the session without a gap
    since [base], every number from [base] to [n] has reached it.  Patches the session did not hand on - its own, and
    a peer's that reads like one it sent ([same_text_is_dropped]) - and numbers a reconnect skips
    ([reconnect_hides_a_gap]) are not covered: a file saved under [n] can lack those. *)
Theorem named_patches_are_confirmed (cw : bool) (es : list diagram_event) (s : diagram) (n : Z) :
  g_run es (new_diagram cw) = Some s -> snapshotSeq s = Some n ->
  (forall q, q ∈ handed s -> 0 < q <= n -> q ∈ confirmed es)
  /\ forall base hi, 0 <= base -> in_order base es = Some hi -> forall q, base < q <= n -> q ∈ arrived es.
Proof.
  intros E Hn. unfold snapshotSeq in Hn. case_match; [done|]. injection Hn as <-.
  destruct (contiguous_bound s) as [Hi Hlt]. split.
  - intros q Hq Hb. destruct (accounted_run es [] _ s E ltac:(by intros ? ?%not_elem_of_nil) q Hq) as [Ho|Hc]; [|done].
    specialize (Hlt q Ho). lia.
  - intros base hi Hb O q Hq. apply (in_order_covers es base hi O). split; [lia|].
    pose proof (included_run es (new_diagram cw) s base hi E O). cbn in *. lia.
Qed.

(** The numbers a session remembers as applied are distinct, at most 512, and the set it tests is
    the list it trims. *)
Theorem applied_window (cw : bool) (es : list diagram_event) (s : diagram) : g_run es (new_diagram cw) = Some s ->
  g_appliedSeqs s = g_appliedOrder s /\ NoDup (g_appliedOrder s) /\ (length (g_appliedOrder s) <= APPLIED_CAP)%nat.
Proof. intros E. destruct (window_run es _ s E (window_new cw)). done. Qed.

(** C18: a request for the upload is always answered: in every state the editor can bring a session to, a request
    still open is settled, with leave to save, at the latest by a timer that is due within four seconds. *)
Theorem save_lock_answers (s : diagram) (p : nat) : used s -> g_locks s !! p = Some None ->
  exists t s', g_run [GTick SAVE_LOCK_TIMEOUT_MS; GTimer t] s = Some s' /\ g_locks s' !! p = Some (Some true).
Proof.
  intros L%used_ok Hp. pose proof L as [T P C A]. destruct (C p (P p Hp)) as [_ Ht].
  destruct (g_lockTimer s) as [t|] eqn:Et; [|done]. destruct (A t eq_refl) as (x & Hx & <- & Cx & Dx).
  set (s1 := on_g_hub (fun h => h <| hb_now ::= Z.add SAVE_LOCK_TIMEOUT_MS |>) s).
  assert (L1 : lock_ok s1) by (by apply (lock_step (GTick SAVE_LOCK_TIMEOUT_MS) s)).
  exists (tm_id x). eexists. split.
  - change (g_run [GTick SAVE_LOCK_TIMEOUT_MS; GTimer (tm_id x)] s) with (g_run [GTimer (tm_id x)] s1).
    cbn [g_run g_step]. rewrite (find_named (g_hub s1) x (lk_timers _ L1) Hx). cbn [mbind option_bind].
    rewrite (proj2 (Z.leb_le _ _)); [reflexivity|]. cbn. lia.
  - destruct (lock_timer_step x s1 L1 Hx) as [_ Hl]. rewrite Cx. exact (Hl Cx p (P p Hp) Hp).
Qed.
End Facts.

(** ** Sessions *)
Module Sample.
(** What the patches below need of the printer: they hold no numbers. *)
#[export] Instance plain : JsText := {|
  json_parse _ := None; coerce_number _ := Err TypeError; coerce_bigint _ := Err TypeError;
  coerce_string _ := Err TypeError;
|}.
Definition patch (x : string) : json := JObj [(js "x", JStr (js x))].
Definition patch_payload (x : string) : payload :=
  {| pl_k := None; pl_d := None; pl_kind := Some (js "patch"); pl_patch := Some (patch x); pl_checksum := None |}.
Definition edit (seq peer : Z) (x : string) : frame := FOp (Some seq) (Some peer) (Some (patch_payload x)).
Definition says (w : nat) (f : frame) : diagram_event := GWs w (WsMessage (Some f)).

(** Peer 1 joins a room whose last edit is number 3, and the editor takes it. *)
Definition joined : list diagram_event :=
  [GConnect; GWs 0 WsOpen; says 0 (FWelcome (Some 1) [] (Some true) [edit 3 9 "a"]); GConfirm (Some 3)].
(** The connection drops and comes back a second later; it is peer 2 now. *)
Definition back (catchup : list frame) : list diagram_event :=
  [GWs 0 WsClose; GTick 1000; GTimer 0; GWs 1 WsOpen; says 1 (FWelcome (Some 2) [] (Some true) catchup)].
Definition after (es : list diagram_event) : option diagram := g_run es (new_diagram true).
Definition reached (es : list diagram_event) : diagram := default (new_diagram true) (after es).
Definition taken : list diagram_event := joined ++ [says 0 (edit 4 9 "b"); GConfirm (Some 4)].
Definition asking : diagram := reached (joined ++ [GRequestLock]).
End Sample.

#[local] Existing Instance Sample.plain.
Import Sample.

Lemma named_patches_are_confirmed_witness : snapshotSeq (reached taken) = Some 4 /\ handed (reached taken) = [3; 4]
  /\ 4 ∈ confirmed taken /\ 4 ∈ arrived taken.
Proof.
  assert (E : g_run taken (new_diagram true) = Some (reached taken)) by (vm_compute; reflexivity).
  assert (F1 : snapshotSeq (reached taken) = Some 4) by (vm_compute; reflexivity).
  assert (F2 : handed (reached taken) = [3; 4]) by (vm_compute; reflexivity).
  assert (O : in_order 2 taken = Some 4) by (vm_compute; reflexivity).
  destruct (named_patches_are_confirmed true taken (reached taken) 4 E F1) as [C A].
  split; [exact F1|]. split; [exact F2|]. split.
  - apply C; [rewrite F2; right; left | lia].
  - apply (A 2 4 ltac:(lia) O). lia.
Defined.

Lemma applied_window_witness : g_appliedOrder (reached joined) = [3] /\ g_appliedSeqs (reached joined) = g_appliedOrder (reached joined).
Proof.
  assert (E : g_run joined (new_diagram true) = Some (reached joined)) by (vm_compute; reflexivity).
  destruct (applied_window true joined (reached joined) E) as (W & _ & _). split; [vm_compute; reflexivity | exact W].
Defined.

Lemma used_run (es : list diagram_event) (s s' : diagram) :
  (forall e, e ∈ es -> match e with GRequestLock => False | _ => True end) -> used s -> g_run es s = Some s' -> used s'.
Proof.
  revert s. induction es as [|e es IH]; cbn; intros s He U; [by intros [= <-]|].
  intros (s1 & E1 & E)%bind_Some. eapply IH; [intros x Hx; apply He; by right | | exact E].
  eapply used_step; [exact U | | exact E1]. specialize (He e ltac:(by left)). by destruct e.
Qed.

Lemma asking_used : used asking.
Proof.
  assert (E : g_run joined (new_diagram true) = Some (reached joined)) by (vm_compute; reflexivity).
  assert (O : once GRequestLock (reached joined)) by (vm_compute; reflexivity).
  assert (E1 : g_step GRequestLock (reached joined) = Some asking) by (vm_compute; reflexivity).
  refine (used_step GRequestLock (reached joined) asking _ O E1).
  refine (used_run joined (new_diagram true) _ _ (used_new true) E). intros e He. unfold joined in He.
  repeat (apply elem_of_cons in He as [->|He]; [exact I|]). by apply not_elem_of_nil in He.
Qed.

Lemma save_lock_answers_witness : exists t s', g_run [GTick SAVE_LOCK_TIMEOUT_MS; GTimer t] asking = Some s'
  /\ g_locks s' !! 0%nat = Some (Some true).
Proof. apply (save_lock_answers asking 0 asking_used). vm_compute. reflexivity. Defined.

(** The hub refuses while another person uploads. *)
Example save_refused : (fun s => (g_locks s, hb_timers (g_hub s))) <$> after (joined ++ [GRequestLock; says 0 (FSaveLock (Some false))])
  = Some ([Some false], []).
Proof. vm_compute. reflexivity. Qed.

(** A hole holds the save back: number 5 is confirmed while 4 is not. *)
Example hole_holds_back : snapshotSeq <$> after (joined ++ [says 0 (edit 4 9 "b"); says 0 (edit 5 9 "c"); GConfirm (Some 5)]) = Some (Some 3).
Proof. vm_compute. reflexivity. Qed.

(** A number that never reached the session leaves no hole.  While it was away edits 4 to 6 were made and saved, so
    the hub no longer has them; after edit 7 a save names 7, for a file without the three. *)
Example reconnect_hides_a_gap :
  (fun s => (snapshotSeq s, handed s)) <$> after (joined ++ back [] ++ [says 1 (edit 7 9 "d"); GConfirm (Some 7)]) = Some (Some 7, [3; 7]).
Proof. vm_compute. reflexivity. Qed.

(** A patch of a peer that reads as one this session sent is taken for its echo: peer 9 moves the shape away and back
    to where this session had put it, and the second move is dropped. *)
Example same_text_is_dropped :
  handed <$> after (joined ++ [GSendPatch (Some (patch "b")) None; says 0 (FAck (Some 4));
    says 0 (edit 5 9 "c"); GConfirm (Some 5); says 0 (edit 6 9 "b")]) = Some [3; 5].
Proof. vm_compute. reflexivity. Qed.

(** An edit whose answer was lost with the connection is waited for forever: no later save names a number. *)
Example lost_ack_stays_pending :
  (fun s => (g_pending s, snapshotSeq s)) <$> after (joined ++ [GSendPatch (Some (patch "b")) None] ++ back [edit 4 1 "b"]
    ++ [says 1 (edit 5 9 "c"); GConfirm (Some 5); GSendPatch (Some (patch "e")) None; says 1 (FAck (Some 6))]) = Some (1, None).
Proof. vm_compute. reflexivity. Qed.
