(* ===== verification/FormDocument.v ===== *)
(** * Form documents: [luna/web/src/lib/formDocument.js]

    The [.lunaform] envelope and the file of responses next to it: opening and saving a form, the latest record
    of each response, and the table of answers that is downloaded.  Documents and responses are JSON off the drive,
    so a field may be missing or of any type. *)

From S2P Require Import Prelude JsString Bytes Base64 Utf8 JsonTree JsonParse.

Definition FORM_DOC_VERSION : Z := 1.
Definition FORM_FILE_SUFFIX : jstr := js ".lunaform".
Definition RESPONSES_SUFFIX : jstr := js ".lunaform.responses".

(** No letter outside ASCII has a letter of the suffix as its lower case. *)
Definition responsesSiblingPath (path : jstr) : jstr :=
  if ends_with FORM_FILE_SUFFIX (to_lower path)
  then slice 0 (length path - length FORM_FILE_SUFFIX) path ++ RESPONSES_SUFFIX
  else path ++ RESPONSES_SUFFIX.

Abbreviation fields := (list (jstr * json)).

(** [Math.floor(x)] of a number above zero: the bits below the point are cleared. *)
Definition num_floor (x : num) : num :=
  match x with
  | S754_finite s m e =>
      if 0 <=? e then x
      else match Z.pos m / 2 ^ (- e) with Z.pos q => S754_finite s (q * Z.to_pos (2 ^ (- e))) e | _ => S754_zero s end
  | _ => x
  end.

(** [isObject(v)], with the fields. *)
Definition as_object (v : value) : option fields := match v with Some (JObj f) => Some f | _ => None end.

(** ** Property access

    [o[key]] of an object also finds what every object inherits.  Those members are functions, and one object; the
    code only tells whether they are there, takes their strings and their numbers, so that a string stands for each. *)
Definition inherited_members : list jstr :=
  map js ["constructor"; "__defineGetter__"; "__defineSetter__"; "hasOwnProperty"; "__lookupGetter__"; "__lookupSetter__";
          "isPrototypeOf"; "propertyIsEnumerable"; "toString"; "valueOf"; "__proto__"; "toLocaleString"]%string.

Definition inherited_text (key : jstr) : jstr :=
  if bool_decide (key = js "__proto__") then js "[object Object]"
  else js "function " ++ (if bool_decide (key = js "constructor") then js "Object" else key) ++ js "() { [native code] }".

Definition get_field (key : jstr) (o : fields) : value :=
  match own_field key o with
  | Some v => Some v
  | None => if bool_decide (key ∈ inherited_members) then Some (JStr (inherited_text key)) else None
  end.

(** ** The document *)

Definition blankFormDocument (title : jstr) : fields :=
  [(js "version", JNum (num_of_Z FORM_DOC_VERSION));
   (js "title", JStr title);
   (js "description", JStr []);
   (js "settings", JObj [(js "responseLimit", JStr (js "unlimited")); (js "allowEdits", JBool true); (js "collecting", JBool true);
                         (js "thankYou", JStr []); (js "closeOn", JStr []); (js "maxResponses", JNull)]);
   (js "questions", JArr [])].

(** The keys of [SETTING_DEFAULTS]. *)
Definition setting_keys : list jstr := map js ["responseLimit"; "allowEdits"; "collecting"; "thankYou"; "closeOn"; "maxResponses"]%string.

Definition string_or_empty (v : value) : json := match v with Some (JStr s) => JStr s | _ => JStr [] end.
Definition not_false (v : value) : json := JBool (match v with Some (JBool false) => false | _ => true end).

Definition canonical_limit (v : value) : json :=
  match v with
  | Some (JNum n) => if num_is_finite n && num_lt (num_of_Z 0) n then JNum (num_floor n) else JNull
  | _ => JNull
  end.

(** [extras[key] = value] with the key [__proto__] sets the prototype of [extras]: nothing of it is copied. *)
Definition setting_extras (src : fields) : fields :=
  foldl (fun extras f => if bool_decide (fst f ∈ setting_keys) || bool_decide (fst f = js "__proto__") then extras
                         else set_field_last (fst f) (snd f) extras) [] (object_entries src).

Definition canonicalSettings (raw : value) : fields :=
  let src := default [] (as_object raw) in
  let get k := own_field (js k) src in
  foldl (fun acc f => set_field_last (fst f) (snd f) acc) (object_entries (setting_extras src))
    [(js "responseLimit", JStr (match get "responseLimit"%string with
                                | Some (JStr s) => if bool_decide (s = js "one") then js "one" else js "unlimited"
                                | _ => js "unlimited" end));
     (js "allowEdits", not_false (get "allowEdits"%string));
     (js "collecting", not_false (get "collecting"%string));
     (js "thankYou", string_or_empty (get "thankYou"%string));
     (js "closeOn", string_or_empty (get "closeOn"%string));
     (js "maxResponses", canonical_limit (get "maxResponses"%string))].

Inductive form_result := FormOk (doc : fields) | FormError (error : jstr).

Definition not_a_form : form_result := FormError (js "This file isn't a working Luna form. Open it as text to see what's inside.").
Definition newer_form : form_result := FormError (js "This form was made with a newer version of Luna. Update Luna to open it.").

Definition questions_of (v : value) : list json :=
  match v with Some (JArr l) => List.filter (fun q => match as_object (Some q) with Some _ => true | None => false end) l | _ => [] end.

(** [{ ...raw, version }] and the assignments after it. *)
Definition normalize (raw : fields) (version : num) : fields :=
  let doc := set_field_last (js "version") (JNum version) (object_entries raw) in
  let doc := match own_field (js "title") doc with Some (JStr _) => doc | _ => set_field_last (js "title") (JStr []) doc end in
  let doc := match own_field (js "description") doc with Some (JStr _) => doc | _ => set_field_last (js "description") (JStr []) doc end in
  let doc := set_field_last (js "settings") (JObj (canonicalSettings (own_field (js "settings") raw))) doc in
  set_field_last (js "questions") (JArr (questions_of (own_field (js "questions") raw))) doc.

Section Documents.
Context `{JsText}.

Definition parseFormDocument (text : jstr) : thrown form_result :=
  let trimmed := trim text in
  if negb (truthy trimmed) then Ok (FormOk (blankFormDocument (js "Untitled form")))
  else
    match as_object (parse_json trimmed) with
    | None => Ok not_a_form
    | Some raw =>
        let v := own_field (js "version") raw in
        version ← to_number (if nullish v then Some (JNum (num_of_Z 1)) else v);
        if negb (num_is_finite version) || num_lt (num_of_Z FORM_DOC_VERSION) version then Ok newer_form
        else Ok (FormOk (normalize raw version))
    end.

Definition serializeFormDocument (doc : fields) : jstr := stringify (js "  ") [] (JObj doc) ++ [c_lf].

(** ** Seen answers

    The local storage, [None] where the browser refuses it. *)
Definition seenKey (scope path : jstr) : jstr := js "lunaform_seen:" ++ scope ++ js ":" ++ path.

Definition readFormSeen (storage : option (gmap jstr jstr)) (scope path : jstr) : num :=
  let attempt :=
    store ← storage;
    n ← to_option (to_number (Some (match store !! seenKey scope path with Some s => JStr s | None => JNull end)));
    Some (if num_is_finite n && negb (num_lt n (num_of_Z 0)) then n else num_of_Z 0) in
  default (num_of_Z 0) attempt.

(** A full storage refuses the write: [full]. *)
Definition writeFormSeen (full : bool) (scope path : jstr) (count : Z) (storage : option (gmap jstr jstr)) : option (gmap jstr jstr) :=
  if full then storage else insert (seenKey scope path) (js_of_Z count) <$> storage.
End Documents.

(** ** Ids and tokens, from random bytes *)

Definition randomHex (buf : bytes) : jstr :=
  flat_map (fun b => [hex_lower (Z.to_N (b / 16)); hex_lower (Z.to_N (b mod 16))]) buf.

Definition newQuestionId (buf : bytes) : jstr := js "q_" ++ randomHex buf.

Definition newEditToken (buf : bytes) : jstr :=
  let strip := fix strip s := match s with c :: r => if (c =? c_equals)%N then strip r else s | [] => [] end in
  rev (strip (rev (map (fun c => if (c =? 43)%N then 45 else if (c =? 47)%N then 95 else c)%N (b64_encode buf)))).

(** ** Responses *)

Definition response_id (rec : json) : option jstr := as_string (opt_prop "id" (Some rec)).
Definition response_deleted (rec : json) : bool := match opt_prop "deleted" (Some rec) with Some (JBool true) => true | _ => false end.

Definition parseResponsesJsonl (text : jstr) : list json :=
  List.filter (fun rec => match response_id rec with Some id => truthy id | None => false end)
    (omap parse_json (List.filter truthy (map trim (split_on c_lf text)))).

(** One turn of the loop of [latestResponses]: [order] and [byId]. *)
Definition latest_step (st : list jstr * gmap jstr json) (rec : json) : list jstr * gmap jstr json :=
  match response_id rec with
  | None => st
  | Some id =>
      if response_deleted rec then (fst st, delete id (snd st))
      else (if bool_decide (id ∈ fst st) then fst st else fst st ++ [id], <[id := rec]> (snd st))
  end.

Definition latestResponses (records : list json) : list json :=
  let '(order, byId) := foldl latest_step ([], ∅) records in omap (fun id => byId !! id) order.

Definition countResponses (text : jstr) : nat := length (latestResponses (parseResponsesJsonl text)).

(** ** The table of answers *)

Definition pad (w : nat) (z : Z) : jstr := let s := js_of_Z z in repeat 48%N (w - length s) ++ s.

(** Year, month and day of a day counted from 1970-01-01. *)
Definition civil (days : Z) : Z * Z * Z :=
  let z := days + 719468 in
  let era := z / 146097 in
  let doe := z mod 146097 in
  let yoe := (doe - doe / 1460 + doe / 36524 - doe / 146096) / 365 in
  let doy := doe - (365 * yoe + yoe / 4 - yoe / 100) in
  let mp := (5 * doy + 2) / 153 in
  let m := if mp <? 10 then mp + 3 else mp - 9 in
  (yoe + era * 400 + (if m <=? 2 then 1 else 0), m, doy - (153 * mp + 2) / 5 + 1).

(** [new Date(t).toISOString()] *)
Definition iso_date (t : num) : thrown jstr :=
  if negb (num_is_finite t) || (8640000000000000 <? Z.abs (num_trunc t)) then Err RangeError
  else
    let t := num_trunc t in
    let '(y, m, d) := civil (t / 86400000) in
    let ms := t mod 86400000 in
    Ok ((if (0 <=? y) && (y <=? 9999) then pad 4 y else (if y <? 0 then js "-" else js "+") ++ pad 6 (Z.abs y))
        ++ js "-" ++ pad 2 m ++ js "-" ++ pad 2 d ++ js "T" ++ pad 2 (ms / 3600000) ++ js ":" ++ pad 2 (ms / 60000 mod 60)
        ++ js ":" ++ pad 2 (ms / 1000 mod 60) ++ js "." ++ pad 3 (ms mod 1000) ++ js "Z").

(** [/^[=+\-@\t\r]/] *)
Definition formula_start (c : N) : bool := existsb (N.eqb c) [61; 43; 45; 64; 9; 13]%N.
Definition neutral (text : jstr) : jstr :=
  match text with c :: _ => if formula_start c then 39%N :: text else text | [] => [] end.

Definition csvCell (value : jstr) : jstr :=
  let text := neutral value in
  if existsb (fun c => existsb (N.eqb c) [34; 44; 10; 13]%N) text
  then c_quote :: flat_map (fun c => if (c =? c_quote)%N then [c_quote; c_quote] else [c]) text ++ [c_quote]
  else text.

Record column := { col_id : jstr; col_label : jstr }.

Section Csv.
Context `{JsText}.

(** [Number(x) || 0] *)
Definition number_or_zero (v : value) : thrown num :=
  n ← to_number v; Ok (match n with S754_nan | S754_zero _ => num_of_Z 0 | _ => n end).

Definition responseSentAt (rec : value) : thrown num :=
  sent ← to_number (opt_prop "sent_at" rec);
  if num_is_finite sent && num_lt (num_of_Z 0) sent then Ok sent else number_or_zero (opt_prop "at" rec).

(** One record of [responsesToCsv], before its cells are quoted. *)
Definition csv_row (columns : list column) (formatValue : column -> value -> thrown jstr) (rec : json) : thrown (list jstr) :=
  sent ← responseSentAt (Some rec);
  at_ ← (match sent with S754_zero _ | S754_nan => Ok [] | _ => iso_date (num_mul sent (num_of_Z 1000)) end);
  answers ← prop_of "answers" (Some rec);
  cells ← map_thrown (fun col => formatValue col (get_field (col_id col) (default [] (as_object answers)))) columns;
  Ok (at_ :: cells).

Definition csv_line (cells : list jstr) : jstr := join (js ",") (map csvCell cells).

Definition responsesToCsv (columns : list column) (responses : list json) (formatValue : column -> value -> thrown jstr) : thrown jstr :=
  let header := js "Submitted" :: map col_label columns in
  rows ← map_thrown (csv_row columns formatValue) responses;
  Ok (join [c_lf] (map csv_line (header :: rows)) ++ [c_lf]).
End Csv.
