(* ===== verification/FileNames.v ===== *)
(** * Names people type: [luna/web/src/lib/createName.js], [renameExtension.js] and [fileCounts.js]

    The check of a name for something new, the question before an ending changes, and counts in words.  [toLowerCase] is
    the browser's. *)

From S2P Require Import Prelude JsString FormDocument Paths.

(** ** Definitions *)

Section Cased.
Context (toLowerCase : jstr -> jstr).

(** [ext.startsWith(".") ? ext : `.${ext}`] *)
Definition dotted (ext : jstr) : jstr := if starts_with [c_dot] ext then ext else c_dot :: ext.

Inductive created := Created (name : jstr) | Refused (error : jstr).

Definition parseCreateName (raw defaultExt forceExt : jstr) : created :=
  let trimmed := trim raw in
  if negb (truthy trimmed) then Refused (js "Choose a name.")
  else if includes_char c_slash trimmed || includes_char c_backslash trimmed then Refused (js "Names cannot include / or \.")
  else if bool_decide (trimmed = js ".") || bool_decide (trimmed = js "..") then Refused (js "Choose a different name.")
  else
    let force := if truthy forceExt then dotted forceExt else [] in
    let name :=
      if truthy force then
        if ends_with (toLowerCase force) (toLowerCase trimmed) then trimmed
        else (match last_index_of c_dot trimmed with Some (S dot) => slice 0 (S dot) trimmed | _ => trimmed end) ++ force
      else if truthy defaultExt && negb (includes_char c_dot trimmed) then trimmed ++ dotted defaultExt else trimmed in
    if Nat.ltb 255 (length name) then Refused (js "That name is too long. Use 255 characters or fewer.") else Created name.

(** *** Endings *)

Definition extensionOf (name : jstr) : jstr :=
  let trimmed := trim name in
  match last_index_of c_dot trimmed with
  | None | Some O => []
  | Some dot => if Nat.eqb dot (length trimmed - 1) then [] else toLowerCase (slice_from dot trimmed)
  end.

Definition FORM_EXT : jstr := js ".lunaform".

Inductive rename_kind := RForm | RChange | RAdd | RRemove.
Record rename_warning := { rw_kind : rename_kind; rw_title : jstr; rw_message : jstr; rw_confirmLabel : jstr }.

Definition app_message : jstr := js "The file may not open with the same app afterward.".

Definition renameExtensionWarning (oldName newName : jstr) (isDir : bool) : option rename_warning :=
  if isDir then None
  else
    let from := extensionOf oldName in
    let to := extensionOf newName in
    if bool_decide (from = to) then None
    else if bool_decide (from = FORM_EXT) then
      Some {| rw_kind := RForm; rw_title := js "Stop treating this as a form?";
              rw_message := js "Its answers will stay in " ++ trim oldName ++ slice_from (length FORM_EXT) RESPONSES_SUFFIX ++ js ".";
              rw_confirmLabel := js "Rename" |}
    else if truthy from && truthy to then
      Some {| rw_kind := RChange; rw_title := js "Change " ++ from ++ js " to " ++ to ++ js "?"; rw_message := app_message; rw_confirmLabel := js "Rename" |}
    else if truthy from then
      Some {| rw_kind := RRemove; rw_title := js "Remove the " ++ from ++ js " ending?"; rw_message := app_message; rw_confirmLabel := js "Rename" |}
    else Some {| rw_kind := RAdd; rw_title := js "Add a " ++ to ++ js " ending?"; rw_message := app_message; rw_confirmLabel := js "Rename" |}.
End Cased.

(** *** Counts *)

Definition counted (n : Z) (word : string) : jstr := js_of_Z n ++ js " " ++ js word ++ (if n =? 1 then [] else js "s").

(** Counts that are whole numbers or not known. *)
Definition describeCounts (folders files : option Z) : option jstr :=
  match folders, files with
  | None, None => None
  | None, Some files => Some (counted files "file")
  | Some folders, None => Some (counted folders "folder")
  | Some folders, Some files =>
      Some (if (folders =? 0) && (files =? 0) then js "nothing yet"
            else if folders =? 0 then counted files "file"
            else if files =? 0 then counted folders "folder"
            else counted folders "folder" ++ js " and " ++ counted files "file")
  end.

Definition describeInspectSummary (folders files unreadable : option Z) : jstr :=
  let counts := default [] (describeCounts (Some (default 0 folders)) (Some (default 0 files))) in
  if bool_decide (counts = js "nothing yet") then js "This drive looks empty."
  else
    let unreadable := default 0 unreadable in
    js "We found " ++ counts ++ js " on this drive"
    ++ (if 0 <? unreadable then js " (" ++ js_of_Z unreadable ++ js " could not be read)" else []) ++ js ".".

(** ** Facts *)

Lemma slice_take (a : nat) (s : jstr) : slice 0 a s = take a s.
Proof. unfold slice. by rewrite drop_0, Nat.sub_0_r. Qed.

(** an accepted name is one segment of a path: not empty, without a slash or a backslash, neither of the two names that
    mean a folder, and at most 255 units long, as long as the ending asked for is a plain one; a folder or a file made
    under it is where it says. *)
Theorem created_name_is_segment (toLowerCase : jstr -> jstr) (raw defaultExt forceExt name : jstr) :
  parseCreateName toLowerCase raw defaultExt forceExt = Created name ->
  ~ In c_slash (defaultExt ++ forceExt) -> ~ In c_backslash (defaultExt ++ forceExt) -> forceExt <> js "." ->
  is_segment name /\ ~ In c_backslash name /\ name <> js "." /\ name <> js ".." /\ (length name <= 255)%nat.
Proof.
  unfold parseCreateName. intros H Hs Hb Hf1. destruct (truthy (trim raw)) eqn:Ht; [|done]. cbn [negb] in H. apply truthy_spec in Ht.
  set (t := trim raw) in *. destruct (includes_char c_slash t || includes_char c_backslash t) eqn:Ei; [done|].
  apply orb_false_iff in Ei as [E1 E2]. destruct (bool_decide (t = js ".") || bool_decide (t = js "..")) eqn:Ed; [done|].
  apply orb_false_iff in Ed as [D1%bool_decide_eq_false D2%bool_decide_eq_false].
  assert (S1 : ~ In c_slash t) by (intros Hin%(includes_char_spec c_slash t); congruence).
  assert (S2 : ~ In c_backslash t) by (intros Hin%(includes_char_spec c_backslash t); congruence).
  set (chosen := if truthy _ then _ else _) in H. destruct (Nat.ltb_spec 255 (length chosen)) as [|Hl]; [done|]. injection H as <-.
  rewrite in_app_iff in Hs, Hb.
  assert (Dot : forall ext c, c <> c_dot -> ~ In c ext -> ~ In c (dotted ext)).
  { intros ext c Hc He. unfold dotted. destruct (starts_with _ _); [done|]. intros [?|?]; [by apply Hc|done]. }
  assert (G : chosen <> [] /\ ~ In c_slash chosen /\ ~ In c_backslash chosen /\ chosen <> js "." /\ chosen <> js "..").
  { unfold chosen. destruct (truthy forceExt) eqn:Ef.
    - assert (Tf : truthy (dotted forceExt) = true) by (unfold dotted; by destruct (starts_with _ _)). rewrite Tf.
      destruct (ends_with _ _); [done|].
      set (stem := match last_index_of c_dot t with Some (S dot) => slice 0 (S dot) t | _ => t end).
      assert (St : stem <> [] /\ ~ In c_slash stem /\ ~ In c_backslash stem).
      { unfold stem. destruct (last_index_of c_dot t) as [[|dot]|] eqn:El; [done| |done]. rewrite slice_take. split_and!.
        - destruct t; [done|]. done.
        - intros Hin. apply S1. rewrite <- (take_drop (S dot) t). apply in_app_iff. by left.
        - intros Hin. apply S2. rewrite <- (take_drop (S dot) t). apply in_app_iff. by left. }
      destruct St as (St1 & St2 & St3). destruct stem as [|c stem]; [done|].
      assert (Df : exists r, dotted forceExt = c_dot :: r /\ (r <> [])).
      { unfold dotted. destruct (starts_with [c_dot] forceExt) eqn:Es.
        - apply starts_with_spec in Es as [r ->]. exists r. split; [done|]. intros ->. by apply Hf1.
        - exists forceExt. split; [done|]. by apply truthy_spec. }
      destruct Df as (r & Er & Hr). split_and!; [done| | | |].
      + rewrite in_app_iff. intros [?|?]; [done|]. eapply (Dot forceExt c_slash); [done | tauto | done].
      + rewrite in_app_iff. intros [?|?]; [done|]. eapply (Dot forceExt c_backslash); [done | tauto | done].
      + rewrite Er. intros E. apply (f_equal (@length N)) in E. change (length (js ".")) with 1%nat in E. rewrite length_app in E. cbn [length] in E. lia.
      + rewrite Er. intros E. apply (f_equal (@length N)) in E. change (length (js "..")) with 2%nat in E. rewrite length_app in E.
        cbn [length] in E. destruct r; [done|]. cbn [length] in E. lia.
    - cbn [truthy]. destruct (truthy defaultExt && negb (includes_char c_dot t)) eqn:Ede; [|done].
      apply andb_true_iff in Ede as [Td Tn%negb_true_iff]. assert (Nd : ~ In c_dot t) by (intros Hin%(includes_char_spec c_dot t); congruence).
      destruct t as [|c t']; [done|]. split_and!; [done| | | |].
      + rewrite in_app_iff. intros [?|?]; [done|]. eapply (Dot defaultExt c_slash); [done | tauto | done].
      + rewrite in_app_iff. intros [?|?]; [done|]. eapply (Dot defaultExt c_backslash); [done | tauto | done].
      + intros [= -> _]. apply Nd. by left.
      + intros [= -> _]. apply Nd. by left. }
  destruct G as (G1 & G2 & G3 & G4 & G5). by split_and!.
Qed.

Lemma created_name_is_segment_witness : is_segment (js "notes.md") /\ ~ In c_backslash (js "notes.md").
Proof.
  destruct (created_name_is_segment to_lower (js " notes ") (js "md") [] (js "notes.md")) as (H1 & H2 & _).
  - vm_compute. reflexivity.
  - intros H. apply includes_char_spec in H. vm_compute in H. discriminate H.
  - intros H. apply includes_char_spec in H. vm_compute in H. discriminate H.
  - discriminate.
  - exact (conj H1 H2).
Defined.
