(* ===== verification/FormFacts.v ===== *)
(** * Form documents: facts

    A saved form opens as it was, fields a newer Luna wrote survive, the latest records are the last words of their
    ids, and the table of answers reads back without formulas. *)

From S2P Require Import Prelude JsString Bytes Base64 Utf8 JsonTree JsonParse Delimited FormDocument.

(** ** Fields *)

Lemma own_field_app (k : jstr) (a b : fields) : own_field k (a ++ b) = match own_field k b with Some v => Some v | None => own_field k a end.
Proof. induction a as [|[k' v'] a IH]; cbn; [by destruct (own_field k b)|]. rewrite IH. by destruct (own_field k b). Qed.

Lemma own_field_none (k : jstr) (l : fields) : k ∉ map fst l -> own_field k l = None.
Proof.
  induction l as [|[k' v'] l IH]; cbn; [done|]. intros [H1 H2]%not_elem_of_cons. rewrite IH by done. by rewrite bool_decide_false.
Qed.

Lemma own_set_other (k k' : jstr) (v : json) (l : fields) : k' <> k -> own_field k' (set_field_last k v l) = own_field k' l.
Proof.
  intros Hne. induction l as [|[k0 v0] l IH]; cbn; [by rewrite bool_decide_false by congruence|].
  destruct (decide (k0 = k)) as [->|H0].
  - rewrite bool_decide_true by done. cbn. by rewrite !(bool_decide_false (k = k')) by congruence.
  - rewrite (bool_decide_false (k0 = k)) by done. cbn. by rewrite IH.
Qed.

Lemma own_set_same (k : jstr) (v : json) (l : fields) : NoDup (map fst l) -> own_field k (set_field_last k v l) = Some v.
Proof.
  induction l as [|[k0 v0] l IH]; cbn; intros Hn; [by rewrite bool_decide_true|]. apply NoDup_cons in Hn as [H0 Hn].
  destruct (decide (k0 = k)) as [->|Hne].
  - rewrite bool_decide_true by done. cbn. rewrite own_field_none by done. by rewrite bool_decide_true.
  - rewrite (bool_decide_false (k0 = k)) by done. cbn. by rewrite IH.
Qed.

(** Writing what is there changes nothing. *)
Lemma set_same (k : jstr) (v : json) (l : fields) : NoDup (map fst l) -> own_field k l = Some v -> set_field_last k v l = l.
Proof.
  induction l as [|[k0 v0] l IH]; cbn; intros Hn E; [done|]. apply NoDup_cons in Hn as [H0 Hn].
  destruct (decide (k0 = k)) as [->|Hne].
  - rewrite bool_decide_true in * by done. rewrite own_field_none in E by done. by injection E as ->.
  - rewrite (bool_decide_false (k0 = k)) in * by done. destruct (own_field k l) eqn:El; [|done]. by rewrite (IH Hn E).
Qed.

Lemma own_filter (p : jstr * json -> bool) (k : jstr) (l : fields) : (forall v, p (k, v) = true) -> own_field k (List.filter p l) = own_field k l.
Proof.
  intros Hp. induction l as [|[k' v'] l IH]; cbn; [done|]. destruct (p (k', v')) eqn:E; cbn; rewrite IH; [done|].
  destruct (own_field k l); [done|]. case_bool_decide; [|done]. subst. by rewrite Hp in E.
Qed.

Lemma own_entries (k : jstr) (l : fields) : canonical l -> own_field k (object_entries l) = own_field k l.
Proof. by intros ->%entries_canonical. Qed.

(** ** Settings *)

Definition kept (f : jstr * json) : bool := negb (bool_decide (fst f ∈ setting_keys) || bool_decide (fst f = js "__proto__")).

Lemma setting_extras_filter (src : fields) : setting_extras src = List.filter kept (object_entries src).
Proof.
  unfold setting_extras. destruct (canonical_entries src) as [Hn _]. revert Hn. generalize (object_entries src). intros l Hn.
  assert (E : forall acc, NoDup (map fst (acc ++ l)) ->
    foldl (fun extras f => if bool_decide (fst f ∈ setting_keys) || bool_decide (fst f = js "__proto__") then extras
      else set_field_last (fst f) (snd f) extras) acc l = acc ++ List.filter kept l); [|by rewrite E].
  clear Hn. induction l as [|[k v] l IH]; intros acc Hn; cbn [foldl List.filter]; [by rewrite app_nil_r|]. unfold kept at 1. cbn [fst snd].
  assert (Hk : k ∉ map fst acc).
  { rewrite map_app in Hn. apply NoDup_app in Hn as (_ & H & _). intros Hk. apply (H k Hk). by left. }
  destruct (bool_decide (k ∈ setting_keys) || bool_decide (k = js "__proto__")); cbn [negb].
  - apply IH. revert Hn. rewrite !map_app. cbn. intros (A & B & [_ C]%NoDup_cons)%NoDup_app. apply NoDup_app. split_and!; [done | | done].
    intros x Hx Hx'. apply (B x Hx). by right.
  - rewrite set_field_new by done. rewrite IH; [by rewrite <- app_assoc | by rewrite <- app_assoc].
Qed.

(** The six settings, from those of a file. *)
Definition known_settings (src : fields) : fields :=
  let get k := own_field (js k) src in
  [(js "responseLimit", JStr (match get "responseLimit"%string with
                              | Some (JStr s) => if bool_decide (s = js "one") then js "one" else js "unlimited"
                              | _ => js "unlimited" end));
   (js "allowEdits", not_false (get "allowEdits"%string));
   (js "collecting", not_false (get "collecting"%string));
   (js "thankYou", string_or_empty (get "thankYou"%string));
   (js "closeOn", string_or_empty (get "closeOn"%string));
   (js "maxResponses", canonical_limit (get "maxResponses"%string))].

Lemma known_keys (src : fields) : map fst (known_settings src) = setting_keys.
Proof. done. Qed.

Lemma kept_keys (l : fields) (k : jstr) : k ∈ map fst (List.filter kept l) -> k ∉ setting_keys.
Proof.
  intros (f & -> & Hf)%list_elem_of_fmap Hk. rewrite list_elem_of_In, filter_In in Hf. destruct Hf as [_ Hf]. unfold kept in Hf.
  by rewrite bool_decide_true in Hf.
Qed.

Lemma setting_keys_nodup : NoDup setting_keys.
Proof. apply (bool_decide_unpack (NoDup setting_keys)). vm_compute. exact I. Qed.

Lemma canonicalSettings_split (raw : value) : let src := default [] (as_object raw) in
  canonicalSettings raw = List.filter kept (object_entries src) ++ known_settings src.
Proof.
  intros src. unfold canonicalSettings. fold src. rewrite setting_extras_filter.
  rewrite (entries_canonical (List.filter kept _)) by (by apply canonical_filter, canonical_entries).
  change (foldl (fun acc f => set_field_last f.1 f.2 acc) (List.filter kept (object_entries src)) (known_settings src)
    = List.filter kept (object_entries src) ++ known_settings src).
  apply own_fields_fold. rewrite map_app, known_keys. apply NoDup_app. split_and!.
  - apply (canonical_filter kept), canonical_entries.
  - intros k Hk. by eapply kept_keys.
  - apply setting_keys_nodup.
Qed.

Lemma setting_key_no_index (k : jstr) : k ∈ setting_keys -> array_index k = None.
Proof.
  assert (H : forallb (fun k => match array_index k with None => true | Some _ => false end) setting_keys = true) by (vm_compute; reflexivity).
  rewrite forallb_forall in H. intros Hk%list_elem_of_In%H. by destruct (array_index k).
Qed.

Lemma canonical_settings_canonical (raw : value) : canonical (canonicalSettings raw).
Proof.
  unfold canonicalSettings. assert (H : canonical (object_entries (setting_extras (default [] (as_object raw))))) by apply canonical_entries.
  revert H. generalize (object_entries (setting_extras (default [] (as_object raw)))). intros l H.
  change (canonical (foldl (fun acc f => set_field_last f.1 f.2 acc) l (known_settings (default [] (as_object raw))))).
  assert (Hk : Forall (fun f => array_index (fst f) = None) (known_settings (default [] (as_object raw)))).
  { apply Forall_forall. intros f Hf. apply setting_key_no_index. rewrite <- (known_keys (default [] (as_object raw))).
    by apply list_elem_of_fmap_2. }
  revert l H. induction Hk as [|[k v] ks Hk _ IH]; intros l H; cbn [foldl]; [done|]. apply IH. by apply canonical_set.
Qed.

(** A limit between 0 and 1 becomes 0, which the next opening takes for no limit. *)
Definition zero_limit (s : fields) : Prop := own_field (js "maxResponses") s = Some (JNum (S754_zero false)).

Lemma floor_floor (x : num) : num_is_finite x = true -> num_lt (num_of_Z 0) x = true ->
  num_floor x = S754_zero false
  \/ (num_is_finite (num_floor x) = true /\ num_lt (num_of_Z 0) (num_floor x) = true /\ num_floor (num_floor x) = num_floor x).
Proof.
  destruct x as [[]|[]| |[] m e]; try done. intros _ _. cbn [num_floor]. destruct (Z.leb_spec 0 e) as [He|He].
  - right. split_and!; [done..|]. cbn [num_floor]. by rewrite (proj2 (Z.leb_le _ _) He).
  - destruct (Z.pos m / 2 ^ (- e)) as [|q|q] eqn:E; [by left | | by pose proof (Z.div_pos (Z.pos m) (2 ^ (- e)) ltac:(lia) ltac:(lia)); lia].
    right. split_and!; [done..|]. cbn [num_floor]. rewrite (proj2 (Z.leb_gt _ _) He), Pos2Z.inj_mul, Z2Pos.id by lia.
    by rewrite Z.div_mul by lia.
Qed.

Lemma canonical_limit_twice (v : value) : canonical_limit v <> JNum (S754_zero false) -> canonical_limit (Some (canonical_limit v)) = canonical_limit v.
Proof.
  intros Hz. unfold canonical_limit at 2 3. unfold canonical_limit in Hz.
  destruct v as [[| |n| | |]|]; try done. destruct (num_is_finite n && num_lt (num_of_Z 0) n) eqn:E; [|done].
  apply andb_true_iff in E as [E1 E2]. destruct (floor_floor n E1 E2) as [F|(F1 & F2 & F3)]; [by rewrite F in Hz|].
  cbn [canonical_limit]. by rewrite F1, F2, F3.
Qed.

Lemma settings_twice (raw : value) : ~ zero_limit (canonicalSettings raw) ->
  canonicalSettings (Some (JObj (canonicalSettings raw))) = canonicalSettings raw.
Proof.
  set (s := canonicalSettings raw). intros Hz. rewrite (canonicalSettings_split (Some (JObj s))). cbn [as_object default]; unfold id.
  rewrite entries_canonical by apply canonical_settings_canonical. unfold s in *. clear s. rewrite canonicalSettings_split in *.
  set (src := default [] (as_object raw)) in *. set (extras := List.filter kept (object_entries src)) in *.
  assert (Ek : List.filter kept (extras ++ known_settings src) = extras).
  { rewrite List.filter_app. replace (List.filter kept (known_settings src)) with (@nil (jstr * json)).
    - rewrite app_nil_r. unfold extras. generalize (object_entries src). intros l. induction l as [|f l IH]; cbn; [done|].
      destruct (kept f) eqn:E; cbn; [by rewrite E, IH | done].
    - vm_compute. reflexivity. }
  rewrite Ek. f_equal. unfold zero_limit in Hz.
  assert (G : forall k, own_field k (extras ++ known_settings src) = match own_field k (known_settings src) with Some v => Some v | None => own_field k extras end)
    by (intros k; apply own_field_app).
  unfold known_settings at 1. rewrite !G. rewrite G in Hz.
  change (own_field (js "maxResponses") (known_settings src)) with (Some (canonical_limit (own_field (js "maxResponses") src))) in *.
  change (own_field (js "responseLimit") (known_settings src)) with (Some (JStr (match own_field (js "responseLimit") src with
                              | Some (JStr s) => if bool_decide (s = js "one") then js "one" else js "unlimited"
                              | _ => js "unlimited" end))).
  change (own_field (js "allowEdits") (known_settings src)) with (Some (not_false (own_field (js "allowEdits") src))).
  change (own_field (js "collecting") (known_settings src)) with (Some (not_false (own_field (js "collecting") src))).
  change (own_field (js "thankYou") (known_settings src)) with (Some (string_or_empty (own_field (js "thankYou") src))).
  change (own_field (js "closeOn") (known_settings src)) with (Some (string_or_empty (own_field (js "closeOn") src))).
  cbv iota. unfold known_settings. rewrite canonical_limit_twice by (intros E; by rewrite E in Hz).
  assert (N : forall v, not_false (Some (not_false v)) = not_false v) by (by intros [[| [] | | | |]|]).
  assert (S : forall v, string_or_empty (Some (string_or_empty v)) = string_or_empty v) by (by intros [[| | | | |]|]).
  rewrite !N, !S. set (x := match own_field (js "responseLimit") src with Some (JStr _) => _ | _ => _ end).
  assert (X : x = js "one" \/ x = js "unlimited")
    by (unfold x; destruct (own_field (js "responseLimit") src) as [[| | |s| |]|]; try (by right); case_bool_decide; auto).
  replace (if bool_decide (x = js "one") then js "one" else js "unlimited") with x; [done|]. by destruct X as [-> | ->].
Qed.

(** ** The document *)

Definition doc_keys : list jstr := map js ["version"; "title"; "description"; "settings"; "questions"]%string.

Lemma doc_key_no_index (k : jstr) : k ∈ doc_keys -> array_index k = None.
Proof.
  assert (H : forallb (fun k => match array_index k with None => true | Some _ => false end) doc_keys = true) by (vm_compute; reflexivity).
  rewrite forallb_forall in H. intros Hk%list_elem_of_In%H. by destruct (array_index k).
Qed.

(** The fields an opened document has. *)
Record form_shape (d : fields) : Prop := {
  fs_canonical : canonical d;
  fs_version : exists v, own_field (js "version") d = Some (JNum v) /\ num_is_finite v = true /\ num_lt (num_of_Z FORM_DOC_VERSION) v = false;
  fs_title : exists s, own_field (js "title") d = Some (JStr s);
  fs_description : exists s, own_field (js "description") d = Some (JStr s);
  fs_settings : exists raw, own_field (js "settings") d = Some (JObj (canonicalSettings raw));
  fs_questions : exists raw, own_field (js "questions") d = Some (JArr (questions_of raw));
}.

(** The assignment of a default where a string is missing. *)
Definition or_empty (k : string) (doc : fields) : fields :=
  match own_field (js k) doc with Some (JStr _) => doc | _ => set_field_last (js k) (JStr []) doc end.

Lemma normalize_steps (raw : fields) (v : num) :
  normalize raw v
  = set_field_last (js "questions") (JArr (questions_of (own_field (js "questions") raw)))
      (set_field_last (js "settings") (JObj (canonicalSettings (own_field (js "settings") raw)))
        (or_empty "description" (or_empty "title" (set_field_last (js "version") (JNum v) (object_entries raw))))).
Proof. done. Qed.

Lemma canonical_or_empty (k : string) (d : fields) : array_index (js k) = None -> canonical d -> canonical (or_empty k d).
Proof. intros Hk Hd. unfold or_empty. destruct (own_field (js k) d) as [[]|]; try done; by apply canonical_set. Qed.

Lemma own_or_empty_other (k : string) (k' : jstr) (d : fields) : k' <> js k -> own_field k' (or_empty k d) = own_field k' d.
Proof. intros Hk. unfold or_empty. destruct (own_field (js k) d) as [[]|]; try done; by apply own_set_other. Qed.

Lemma own_or_empty_same (k : string) (d : fields) : canonical d -> exists s, own_field (js k) (or_empty k d) = Some (JStr s).
Proof.
  intros [Hn _]. unfold or_empty. destruct (own_field (js k) d) as [[| | |s| |]|] eqn:E; try (eexists; by apply own_set_same).
  by eexists.
Qed.

Lemma js_neq (a b : string) : bool_decide (js a = js b) = false -> js a <> js b.
Proof. by intros ?%bool_decide_eq_false. Qed.

Ltac js_differ := apply js_neq; vm_compute; reflexivity.

Lemma normalize_shape (raw : fields) (v : num) : num_is_finite v = true -> num_lt (num_of_Z FORM_DOC_VERSION) v = false -> form_shape (normalize raw v).
Proof.
  intros Hf Hv. rewrite normalize_steps.
  assert (C1 : canonical (set_field_last (js "version") (JNum v) (object_entries raw))) by (apply canonical_set; [done | apply canonical_entries]).
  pose proof (canonical_or_empty "title" _ eq_refl C1) as C2. pose proof (canonical_or_empty "description" _ eq_refl C2) as C3.
  pose proof (canonical_set (js "settings") (JObj (canonicalSettings (own_field (js "settings") raw))) _ eq_refl C3) as C4.
  split.
  - by apply canonical_set.
  - exists v. split; [|done]. rewrite !own_set_other, !own_or_empty_other by js_differ. apply own_set_same, canonical_entries.
  - rewrite !own_set_other, own_or_empty_other by js_differ. by apply own_or_empty_same.
  - rewrite !own_set_other by js_differ. by apply own_or_empty_same.
  - eexists. rewrite own_set_other by js_differ. apply own_set_same, C3.
  - eexists. apply own_set_same, C4.
Qed.

Lemma questions_twice (v : value) : questions_of (Some (JArr (questions_of v))) = questions_of v.
Proof.
  destruct v as [[| | | |l|]|]; try done. unfold questions_of. induction l as [|q l IH]; [done|]. destruct q; try exact IH.
  cbn [List.filter as_object] in *. exact (f_equal (cons _) IH).
Qed.

(** A document in shape is normal. *)
Lemma normalize_shaped (d : fields) (v : num) : form_shape d -> own_field (js "version") d = Some (JNum v) ->
  (forall s, own_field (js "settings") d = Some (JObj s) -> ~ zero_limit s) -> normalize d v = d.
Proof.
  intros [C _ (t & T) (u & U) (s & S) (q & Q)] V Hz. pose proof C as [Hn _]. rewrite normalize_steps.
  rewrite entries_canonical, (set_same (js "version")) by done. unfold or_empty. rewrite T, U, S, Q, questions_twice.
  rewrite settings_twice by (by apply Hz).
  rewrite (set_same (js "settings") _ _ Hn S). by apply set_same.
Qed.

(** ** What is in a document *)

Section Reopen.
Context `{JsText}.

Lemma formed_field (P : num -> Prop) (k : jstr) (f : fields) (v : json) : formed P (JObj f) -> own_field k f = Some v -> formed P v.
Proof.
  intros F. inversion F as [| | | | |f' _ Hf]; subst. clear F. induction f as [|[k' v'] f IH]; cbn; [done|]. apply Forall_cons in Hf as [[_ Hv] Hf].
  destruct (own_field k f) as [w|]; [intros [= <-]; by apply IH|]. case_bool_decide; [by intros [= <-] | done].
Qed.

Lemma formed_set (P : num -> Prop) (k : jstr) (f : fields) (v : json) : array_index k = None -> units k -> formed P v ->
  formed P (JObj f) -> formed P (JObj (set_field_last k v f)).
Proof.
  intros Hi Hk Hv F. inversion F as [| | | | |f' Hc Hf]; subst. constructor; [by apply canonical_set|]. clear F Hc.
  induction f as [|[k' v'] f IH]; cbn; [by repeat constructor|]. apply Forall_cons in Hf as [[Hk' Hv'] Hf].
  case_bool_decide; constructor; try done. by apply IH.
Qed.

Lemma formed_sets (P : num -> Prop) (ks f : fields) :
  Forall (fun x => array_index (fst x) = None /\ units (fst x) /\ formed P (snd x)) ks -> formed P (JObj f) ->
  formed P (JObj (foldl (fun acc x => set_field_last (fst x) (snd x) acc) f ks)).
Proof. intros Hk. revert f. induction Hk as [|x ks (Hi & Hu & Hx) _ IH]; intros f Hf; cbn [foldl]; [done|]. by apply IH, formed_set. Qed.

Lemma formed_filter (P : num -> Prop) (p : jstr * json -> bool) (f : fields) : formed P (JObj f) -> formed P (JObj (List.filter p f)).
Proof.
  intros F. inversion F as [| | | | |f' Hc Hf]; subst. constructor; [by apply canonical_filter|]. rewrite Forall_forall in *.
  intros x. rewrite list_elem_of_In, filter_In. intros [Hx%list_elem_of_In _]. by apply Hf.
Qed.

Lemma formed_default (P : num -> Prop) (v : value) : (forall x, v = Some x -> formed P x) -> formed P (JObj (default [] (as_object v))).
Proof.
  intros Hv. assert (E : formed P (JObj [])) by (constructor; [|constructor]; split; [constructor|]; exists [], []; by repeat constructor).
  destruct v as [[]|]; try done. by apply Hv.
Qed.

Lemma units_js (s : string) : forallb (fun c => (c <? 65536)%N) (js s) = true -> units (js s).
Proof. intros E. apply Forall_forall. intros c Hc%list_elem_of_In. rewrite forallb_forall in E. by apply N.ltb_lt, E. Qed.

Ltac js_units := apply units_js; vm_compute; reflexivity.

Lemma formed_string (P : num -> Prop) (v : value) : (forall x, v = Some x -> formed P x) -> formed P (string_or_empty v).
Proof.
  intros Hv. assert (formed P (JStr [])) by (constructor; constructor). destruct v as [[]|]; try done. by apply Hv.
Qed.

Lemma formed_settings (v : value) : (forall x, v = Some x -> formed (fun _ => True) x) -> formed (fun _ => True) (JObj (canonicalSettings v)).
Proof.
  intros Hv. pose proof (formed_default _ v Hv) as F. set (src := default [] (as_object v)) in *.
  assert (Hf : forall k x, own_field k src = Some x -> formed (fun _ => True) x) by (intros k x; by apply formed_field).
  unfold canonicalSettings. fold src. rewrite setting_extras_filter. inversion F as [| | | | |f' Hc _]; subst.
  rewrite (entries_canonical src) by done. rewrite entries_canonical by (by apply canonical_filter).
  apply formed_sets; [|by apply formed_filter]. repeat (apply Forall_cons; split); [..|apply Forall_nil_2]; cbn [fst snd];
    (split; [reflexivity|]; split; [js_units|]); try (by constructor); try (by apply formed_string; intros x; apply Hf).
  - constructor. destruct (own_field _ src) as [[| | |s| |]|]; try js_units. case_bool_decide; js_units.
  - destruct (own_field (js "maxResponses") src) as [[]|]; cbn; repeat constructor. case_match; by constructor.
Qed.

Lemma formed_normalize (raw : fields) (v : num) : formed (fun _ => True) (JObj raw) -> formed (fun _ => True) (JObj (normalize raw v)).
Proof.
  intros F. assert (Hf : forall k x, own_field k raw = Some x -> formed (fun _ => True) x) by (intros k x; by apply formed_field).
  rewrite normalize_steps. inversion F as [| | | | |f' Hc _]; subst. rewrite entries_canonical by done.
  assert (Hs : forall k d, array_index (js k) = None -> units (js k) -> formed (fun _ => True) (JObj d) -> formed (fun _ => True) (JObj (or_empty k d))).
  { intros k d Hk Hu Hd. unfold or_empty. destruct (own_field (js k) d) as [[]|]; try done; apply formed_set; try done; constructor; constructor. }
  apply formed_set; [reflexivity | js_units | |]; [|apply formed_set; [reflexivity | js_units | |]].
  - constructor. apply Forall_forall. intros q Hq. destruct (own_field (js "questions") raw) as [[| | | |l|]|] eqn:E; try (by apply not_elem_of_nil in Hq).
    apply Hf in E. inversion E as [| | | |l' Hl|]; subst. rewrite Forall_forall in Hl. apply Hl. cbn in Hq.
    rewrite list_elem_of_In, filter_In in Hq. apply list_elem_of_In. tauto.
  - apply formed_settings. intros x. apply Hf.
  - apply Hs; [reflexivity | js_units |]. apply Hs; [reflexivity | js_units |]. apply formed_set; [reflexivity | js_units | by constructor | done].
Qed.

(** ** Saving and opening *)

Lemma units_trim (s : jstr) : units s -> units (trim s).
Proof.
  intros Hs. assert (Hd : forall s, units s -> units (trim_start s)) by (intros u; induction 1 as [|c u Hc Hu IH]; cbn; [constructor|]; case_match; [done | by constructor]).
  assert (Hr : forall s, units s -> units (rev s)) by (intros u Hu; by apply Forall_rev). unfold trim, trim_end. auto.
Qed.

Lemma trim_line (m : jstr) : trim ((123%N :: m ++ [125%N]) ++ [c_lf]) = 123%N :: m ++ [125%N].
Proof.
  unfold trim. cbn [app trim_start]. change (is_space 123) with false. cbv iota. unfold trim_end.
  change (123%N :: (m ++ [125%N]) ++ [c_lf]) with ((123%N :: m ++ [125%N]) ++ [c_lf]). rewrite rev_app_distr. cbn [rev app trim_start].
  change (is_space c_lf) with true. cbv iota. rewrite rev_app_distr. cbn [rev app trim_start]. change (is_space 125) with false. cbv iota.
  cbn [rev app]. rewrite rev_app_distr, rev_involutive. done.
Qed.

Lemma stringify_braces (gap indent : jstr) (f : fields) : exists m, stringify gap indent (JObj f) = 123%N :: m ++ [125%N].
Proof.
  cbn [stringify]. unfold bracketed. change (js "{") with [123%N]. change (js "}") with [125%N].
  destruct (map _ (object_entries _)) as [|x l]; [by exists []|]. destruct (truthy gap).
  - exists ([c_lf] ++ indent ++ gap ++ join (js "," ++ [c_lf] ++ indent ++ gap) (x :: l) ++ [c_lf] ++ indent). by rewrite <- !app_assoc.
  - by exists (join (js ",") (x :: l)).
Qed.

Lemma parse_opened (text : jstr) (d : fields) : parseFormDocument text = Ok (FormOk d) ->
  d = blankFormDocument (js "Untitled form")
  \/ exists raw v, parse_json (trim text) = Some (JObj raw) /\ d = normalize raw v /\ num_is_finite v = true /\ num_lt (num_of_Z FORM_DOC_VERSION) v = false.
Proof.
  unfold parseFormDocument. destruct (negb (truthy (trim text))); [intros [= <-]; by left|].
  destruct (parse_json (trim text)) as [[| | | | |raw]|]; try done. cbn [as_object].
  intros (v & _ & E)%bind_ok. case_match; [done|]. injection E as <-. right. exists raw, v. apply orb_false_iff in H0 as [H1 H2].
  split_and!; try done. by apply negb_false_iff.
Qed.

Lemma blank_shape (title : jstr) : form_shape (blankFormDocument title).
Proof.
  split.
  - split; [apply (bool_decide_unpack (NoDup doc_keys)); vm_compute; exact I|]. exists [], (blankFormDocument title).
    split_and!; [done | constructor | repeat constructor | constructor].
  - exists (num_of_Z 1). by split_and!; [|vm_compute..].
  - by exists title.
  - by exists [].
  - by exists None.
  - by exists None.
Qed.

Lemma opened_shape (text : jstr) (d : fields) : parseFormDocument text = Ok (FormOk d) -> form_shape d.
Proof. intros [-> | (raw & v & _ & -> & Hf & Hv)]%parse_opened; [apply blank_shape | by apply normalize_shape]. Qed.

Lemma opened_formed (text : jstr) (d : fields) : units text -> parseFormDocument text = Ok (FormOk d) -> formed (fun _ => True) (JObj d).
Proof.
  intros Hu [-> | (raw & v & E & -> & _)]%parse_opened.
  - constructor; [apply blank_shape|]. repeat (apply Forall_cons; split); [..|apply Forall_nil_2]; cbn [fst snd]; (split; [js_units|]);
      try (constructor; try js_units; by constructor). refine (formed_settings None _). by intros x Hx.
  - apply formed_normalize. eapply parse_json_formed; [|exact E]. by apply units_trim.
Qed.

(** C32: a saved form opens as it was: what [parseFormDocument] made of a file, [serializeFormDocument] writes so that
    opening it again gives the same document, field by field and in the same order.  Its numbers must print as
    numbers that read back, and its limit must not be the 0 that a limit below 1 becomes. *)
Theorem form_reopens (text : jstr) (d : fields) : units text -> parseFormDocument text = Ok (FormOk d) ->
  Forall reads_back (numbers_of (JObj d)) -> (forall s, own_field (js "settings") d = Some (JObj s) -> ~ zero_limit s) ->
  parseFormDocument (serializeFormDocument d) = Ok (FormOk d).
Proof.
  intros Hu E Hn Hz. pose proof (opened_shape _ _ E) as Hs. pose proof (formed_numbers _ _ (opened_formed _ _ Hu E) Hn) as R.
  destruct (fs_version _ Hs) as (v & Ev & Hf & Hv). unfold parseFormDocument, serializeFormDocument.
  destruct (stringify_braces (js "  ") [] d) as [m Em]. rewrite Em, trim_line, <- Em. rewrite Em at 1. cbn [truthy negb].
  pose proof (parse_json_text (JObj d) (js "  ") [] R) as P. rewrite app_nil_r in P. rewrite P by repeat constructor.
  cbn [as_object]. rewrite Ev. cbn [nullish to_number mbind result_bind]. rewrite Hf, Hv. cbn [negb orb].
  by rewrite (normalize_shaped d v Hs Ev Hz).
Qed.

(** The types of the six settings. *)
Record settings_typed (s : fields) : Prop := {
  st_responseLimit : own_field (js "responseLimit") s = Some (JStr (js "one")) \/ own_field (js "responseLimit") s = Some (JStr (js "unlimited"));
  st_allowEdits : exists b, own_field (js "allowEdits") s = Some (JBool b);
  st_collecting : exists b, own_field (js "collecting") s = Some (JBool b);
  st_thankYou : exists t, own_field (js "thankYou") s = Some (JStr t);
  st_closeOn : exists t, own_field (js "closeOn") s = Some (JStr t);
  (* no limit, or a whole number that is not negative *)
  st_maxResponses : own_field (js "maxResponses") s = Some JNull
    \/ exists n, own_field (js "maxResponses") s = Some (JNum n) /\ num_floor n = n
         /\ (n = S754_zero false \/ (num_is_finite n = true /\ num_lt (num_of_Z 0) n = true));
}.

Lemma canonicalSettings_typed (raw : value) : settings_typed (canonicalSettings raw).
Proof.
  rewrite canonicalSettings_split. set (src := default [] (as_object raw)). set (extras := List.filter kept _).
  assert (G : forall k, k ∈ setting_keys -> own_field k (extras ++ known_settings src) = own_field k (known_settings src)).
  { intros k Hk. rewrite own_field_app. destruct (own_field k (known_settings src)) eqn:E; [done|]. exfalso.
    assert (B : forallb (fun k => match own_field k (known_settings src) with Some _ => true | None => false end) setting_keys = true) by reflexivity.
    rewrite forallb_forall in B. apply list_elem_of_In, B in Hk. by rewrite E in Hk. }
  split; rewrite ?G by (vm_compute; by repeat (left || right)).
  - change (own_field _ (known_settings src)) with (Some (JStr (match own_field (js "responseLimit") src with
      | Some (JStr s) => if bool_decide (s = js "one") then js "one" else js "unlimited" | _ => js "unlimited" end))).
    destruct (own_field _ src) as [[| | |t| |]|]; auto. case_bool_decide; auto.
  - by eexists.
  - by eexists.
  - change (own_field _ (known_settings src)) with (Some (string_or_empty (own_field (js "thankYou") src))).
    destruct (own_field _ src) as [[| | |t| |]|]; by eexists.
  - change (own_field _ (known_settings src)) with (Some (string_or_empty (own_field (js "closeOn") src))).
    destruct (own_field _ src) as [[| | |t| |]|]; by eexists.
  - change (own_field _ (known_settings src)) with (Some (canonical_limit (own_field (js "maxResponses") src))).
    destruct (own_field _ src) as [[| |n| | |]|]; cbn [canonical_limit]; try (by left).
    destruct (num_is_finite n) eqn:Ef; [|by left]. destruct (num_lt (num_of_Z 0) n) eqn:El; [|by left]. right. exists (num_floor n).
    split; [done|]. destruct (floor_floor n Ef El) as [->|(H1 & H2 & H3)]; [split; [done | by left] | split; [done | by right]].
Qed.

(** C34: an opened form is well typed, whatever the file holds: one value per key, a version this Luna reads, a title and a
    description that are strings, and questions that are objects; and settings with one value per key, of which the
    answer limit is one of its two words, editing and collecting are truth values, the two texts are strings, and
    the greatest number of responses is absent or a whole number that is not negative. *)
Theorem form_is_well_typed (text : jstr) (d : fields) : parseFormDocument text = Ok (FormOk d) ->
  canonical d
  /\ (exists v, own_field (js "version") d = Some (JNum v) /\ num_is_finite v = true /\ num_lt (num_of_Z FORM_DOC_VERSION) v = false)
  /\ (exists s, own_field (js "title") d = Some (JStr s)) /\ (exists s, own_field (js "description") d = Some (JStr s))
  /\ (exists s, own_field (js "settings") d = Some (JObj s) /\ canonical s /\ settings_typed s)
  /\ exists q, own_field (js "questions") d = Some (JArr q) /\ Forall (fun x => is_Some (as_object (Some x))) q.
Proof.
  intros E%opened_shape. destruct E as [C V T D [raw S] [rq Q]]. split_and!; [done..| |].
  - exists (canonicalSettings raw). split; [done|]. split; [apply canonical_settings_canonical | apply canonicalSettings_typed].
  - exists (questions_of rq). split; [done|]. apply Forall_forall. intros x. unfold questions_of.
    destruct rq as [[| | | |l|]|]; try (by intros Hx%not_elem_of_nil). rewrite list_elem_of_In, filter_In. intros [_ Hx]. by destruct (as_object (Some x)).
Qed.

(** Fields Luna does not know pass through: every other field of the file is in the document, and every other
    setting in its settings, as the file has it. *)
Theorem newer_fields_survive (text : jstr) (raw d : fields) (k : jstr) : units text -> parse_json (trim text) = Some (JObj raw) ->
  parseFormDocument text = Ok (FormOk d) ->
  (k ∉ doc_keys -> own_field k d = own_field k raw)
  /\ forall r s, own_field (js "settings") raw = Some (JObj r) -> own_field (js "settings") d = Some (JObj s) ->
       k ∉ setting_keys -> k <> js "__proto__" -> own_field k s = own_field k r.
Proof.
  intros Hu E Hp. pose proof (parse_json_formed _ _ (units_trim _ Hu) E) as F.
  assert (Hc : canonical raw) by (by inversion F). unfold parseFormDocument in Hp. destruct (truthy (trim text)) eqn:T; cbn [negb] in Hp; [|by destruct (trim text)].
  rewrite E in Hp. cbn [as_object] in Hp. apply bind_ok in Hp as (v & _ & Hp). case_match; [done|]. injection Hp as <-.
  rewrite normalize_steps. split.
  - intros Hk. assert (D : forall k', k' ∈ doc_keys -> k <> k') by (by intros k' Hk' ->).
    rewrite !own_set_other, !own_or_empty_other, own_set_other, own_entries by (done || (apply D; vm_compute; by repeat (left || right))). done.
  - intros r s Er Es Hk Hpr. assert (Hr : canonical r) by (pose proof (formed_field _ _ _ _ F Er) as F'; by inversion F'). rewrite own_set_other in Es by js_differ.
    rewrite own_set_same in Es; [|by apply canonical_or_empty, canonical_or_empty, canonical_set, canonical_entries]. injection Es as <-.
    rewrite Er, canonicalSettings_split. cbn [as_object default]. unfold id. rewrite own_field_app, (own_field_none k (known_settings r)) by done.
    rewrite own_filter, own_entries; [done | done |]. intros w. unfold kept. cbn [fst]. by rewrite !bool_decide_false.
Qed.
End Reopen.

(** ** A form *)
Module FormSample.
(** Whole numbers print as their digits. *)
#[export] Instance plain : JsText := {|
  json_parse _ := None; coerce_number _ := Err TypeError; coerce_bigint _ := Err TypeError;
  coerce_string v := match v with JNum n => Ok (js_of_Z (default 0 (num_integer n))) | _ => Err TypeError end;
|}.
Definition quoted (s : string) : jstr := map (fun c => if (c =? 39)%N then c_quote else c) (js s).
Definition text : jstr :=
  quoted " {'v2':[1], 'settings':{'maxResponses':2.5,'theme':'dark','9':1}, 'questions':[{'id':'q'},3], 'title':'Lunch'}".
Definition doc : fields := match parseFormDocument text with Ok (FormOk d) => d | _ => [] end.
Definition raw : fields := match parse_json (trim text) with Some (JObj f) => f | _ => [] end.
End FormSample.

#[local] Existing Instance FormSample.plain.
Import FormSample.

Lemma text_units : units text.
Proof. apply Forall_forall. intros c Hc%list_elem_of_In. assert (E : forallb (fun c => (c <? 65536)%N) text = true) by (vm_compute; reflexivity). rewrite forallb_forall in E. by apply N.ltb_lt, E. Qed.

Lemma whole_reads_back (n : num) : forallb number_char (number_text n) = true -> number_of_token (number_text n) = Some n -> reads_back n.
Proof. intros A B. split; [|exact B]. apply Forall_forall. intros c Hc%list_elem_of_In. rewrite forallb_forall in A. by apply A. Qed.

Lemma form_reopens_witness : own_field (js "title") doc = Some (JStr (js "Lunch"))
  /\ parseFormDocument (serializeFormDocument doc) = Ok (FormOk doc).
Proof.
  split; [vm_compute; reflexivity|]. assert (E : parseFormDocument text = Ok (FormOk doc)) by (vm_compute; reflexivity).
  refine (form_reopens text doc text_units E _ _).
  - assert (N : numbers_of (JObj doc) = [num_of_Z 1; num_of_Z 1; num_of_Z 2; num_of_Z 1]) by (vm_compute; reflexivity). rewrite N.
    repeat (apply Forall_cons; split); [..|apply Forall_nil_2]; apply whole_reads_back; vm_compute; reflexivity.
  - intros s Es. assert (Es' : own_field (js "settings") doc = Some (JObj (canonicalSettings (own_field (js "settings") raw)))) by (vm_compute; reflexivity).
    rewrite Es' in Es. apply (f_equal (fun v => match v with Some (JObj x) => x | _ => [] end)) in Es.
    cbv beta iota in Es. unfold zero_limit. rewrite <- Es.
    assert (Z : own_field (js "maxResponses") (canonicalSettings (own_field (js "settings") raw)) = Some (JNum (num_of_Z 2))) by (vm_compute; reflexivity).
    rewrite Z. intros E0. vm_compute in E0. discriminate E0.
Defined.

Lemma form_is_well_typed_witness : exists s, own_field (js "settings") doc = Some (JObj s) /\ settings_typed s.
Proof.
  assert (P : parseFormDocument text = Ok (FormOk doc)) by (vm_compute; reflexivity).
  destruct (form_is_well_typed text doc P) as (_ & _ & _ & _ & (s & S & _ & T) & _). exists s. split; [exact S | exact T].
Defined.

Lemma newer_fields_survive_witness : own_field (js "v2") doc = Some (JArr [JNum (num_of_Z 1)]).
Proof.
  assert (E : parse_json (trim text) = Some (JObj raw)) by (vm_compute; reflexivity).
  assert (P : parseFormDocument text = Ok (FormOk doc)) by (vm_compute; reflexivity).
  destruct (newer_fields_survive text raw doc (js "v2") text_units E P) as [H _]. rewrite H; [vm_compute; reflexivity|].
  apply (bool_decide_unpack (js "v2" ∉ doc_keys)). vm_compute. exact I.
Defined.

(** A limit of one half opens as 0 and, saved and opened again, as no limit. *)
Example half_limit_is_lost :
  match parseFormDocument (quoted "{'settings':{'maxResponses':0.5}}") with
  | Ok (FormOk d) =>
      (opt_prop "maxResponses" (own_field (js "settings") d),
       match parseFormDocument (serializeFormDocument d) with
       | Ok (FormOk d') => opt_prop "maxResponses" (own_field (js "settings") d') | _ => None end)
  | _ => (None, None)
  end = (Some (JNum (num_of_Z 0)), Some JNull).
Proof. vm_compute. reflexivity. Qed.
