(* ===== verification/QuestionTypes.v ===== *)
(** * Questions of a form: [luna/web/src/components/files/forms/questionTypes.js]

    The registry of question types, which questions an answer skips, and the summary of the answers.  Questions and
    answers are JSON: a value of an unexpected type is coerced as the code coerces it, and a coercion may throw. *)

From S2P Require Import Prelude JsString Bytes JsonTree FormDocument.

(** ** The registry *)

Inductive summary_kind := SBars | SList | SNumber.

(** A type's entry, without its icon; a missing field is [None] or [false]. *)
Record type_info := {
  ti_label : value; ti_hint : jstr; ti_options : bool; ti_multi : bool; ti_fixed : option (list jstr);
  ti_summary : option summary_kind;
}.

Definition plain_type (label hint : string) (k : summary_kind) : type_info :=
  {| ti_label := Some (JStr (js label)); ti_hint := js hint; ti_options := false; ti_multi := false; ti_fixed := None; ti_summary := Some k |}.
Definition pick_type (label hint : string) (multi : bool) : type_info :=
  {| ti_label := Some (JStr (js label)); ti_hint := js hint; ti_options := true; ti_multi := multi; ti_fixed := None; ti_summary := Some SBars |}.

Definition QUESTION_TYPES : list (jstr * type_info) := [
  (js "short_text", plain_type "Short answer" "A single line of text — a name, an email, a place." SList);
  (js "long_text", plain_type "Long answer" "A few sentences or paragraphs." SList);
  (js "choice", pick_type "Multiple choice" "Pick exactly one option." false);
  (js "multi_choice", pick_type "Checkboxes" "Pick as many options as apply." true);
  (js "dropdown", pick_type "Dropdown" "Pick one option from a compact list." false);
  (js "date", plain_type "Date" "A day on the calendar." SList);
  (js "yes_no", {| ti_label := Some (JStr (js "Yes or no")); ti_hint := js "A quick yes/no pick."; ti_options := false;
                   ti_multi := false; ti_fixed := Some [js "Yes"; js "No"]; ti_summary := Some SBars |});
  (js "number", plain_type "Number" "A number — how many people, a price, an age. Results show the total." SNumber);
  (js "email", plain_type "Email" "An email address. Luna checks that it looks like one." SList);
  (js "file", plain_type "File" "A photo or PDF. Only people who can edit this form can open it." SList)].

Definition QUESTION_TYPE_IDS : list jstr := map fst QUESTION_TYPES.

(** ** Files and addresses *)

Definition MAX_UPLOAD_BYTES : Z := 10 * 1024 * 1024.
Definition IMAGE_EXT : list jstr := map js ["jpg"; "jpeg"; "png"; "gif"; "webp"]%string.
Definition FILE_EXT : list jstr := IMAGE_EXT ++ [js "pdf"].

(** The letters of the extensions come from no letter outside ASCII, so that only ASCII case matters. *)
Definition fileExt (name : jstr) : jstr :=
  let base := default [] (last (split_on c_slash name)) in
  match last_index_of c_dot base with None => [] | Some dot => to_lower (drop (S dot) base) end.

Definition isImageFileName (name : jstr) : bool := bool_decide (fileExt name ∈ IMAGE_EXT).
Definition isAllowedUploadName (name : jstr) : bool := bool_decide (fileExt name ∈ FILE_EXT).

Definition mail_char (c : N) : bool := negb (is_space c) && negb (c =? 64)%N.

(** [/^[^\s@]+@[^\s@]+\.[^\s@]+$/]: one [@], and a dot in the domain with characters on both sides. *)
Definition mail_shape (s : jstr) : bool :=
  match split_on 64%N s with
  | [user; domain] =>
      truthy user && forallb mail_char user && forallb mail_char domain
      && existsb (fun i => bool_decide (domain !! i = Some c_dot)) (seq 1 (length domain - 2))
  | _ => false
  end.

Section Questions.
Context `{JsText}.

Definition isEmailAddress (v : value) : thrown bool :=
  s ← to_string (if nullish v then Some (JStr []) else v); Ok (mail_shape (trim s)).

(** An inherited member of [QUESTION_TYPES] is found too; none of the fields is on it. *)
Definition typeInfo (type : value) : thrown type_info :=
  key ← to_string type;
  Ok (match List.find (fun t => bool_decide (fst t = key)) QUESTION_TYPES with
      | Some t => snd t
      | None =>
          if bool_decide (key ∈ inherited_members)
          then {| ti_label := None; ti_hint := []; ti_options := false; ti_multi := false; ti_fixed := None; ti_summary := None |}
          else
            let falsy := match type with
                         | None | Some JNull | Some (JBool false) | Some (JStr []) | Some (JNum (S754_zero _ | S754_nan)) => true
                         | _ => false end in
            {| ti_label := if falsy then Some (JStr (js "Question")) else type; ti_hint := []; ti_options := false; ti_multi := false;
               ti_fixed := None; ti_summary := Some SList |}
      end).

Definition defaultConfig (type : value) : thrown fields :=
  info ← typeInfo type; Ok (if ti_options info then [(js "options", JArr [JStr (js "Option 1")])] else []).

Definition hasEditableOptions (type : value) : thrown bool := ti_options <$> typeInfo type.

Definition canTriggerSkip (type : value) : thrown bool :=
  info ← typeInfo type; Ok (ti_options info || match ti_fixed info with Some _ => true | None => false end).

(** The filter of [answerOptions], with its set of seen options. *)
Definition take_option (acc : list jstr) (o : json) : list jstr :=
  match o with
  | JStr s => if truthy (trim s) && negb (bool_decide (s ∈ acc)) then acc ++ [s] else acc
  | _ => acc
  end.

Definition question_type (q : fields) : value := own_field (js "type") q.

Definition answerOptions (q : fields) : thrown (list jstr) :=
  info ← typeInfo (question_type q);
  match ti_fixed info with
  | Some l => Ok l
  | None => Ok (match opt_prop "options" (own_field (js "config") q) with Some (JArr l) => foldl take_option [] l | _ => [] end)
  end.

(** ** Skipping *)

(** [v === w]; an id that is an array or an object is compared by its contents, where the code compares references. *)
Fixpoint json_eq (v w : json) : bool :=
  match v, w with
  | JNull, JNull => true
  | JBool a, JBool b => Bool.eqb a b
  | JNum a, JNum b => SFeqb a b
  | JStr a, JStr b => bool_decide (a = b)
  | JArr a, JArr b =>
      (fix go a b := match a, b with x :: a, y :: b => json_eq x y && go a b | [], [] => true | _, _ => false end) a b
  | JObj a, JObj b =>
      (fix go a b := match a, b with
                     | (k, x) :: a, (k', y) :: b => bool_decide (k = k') && json_eq x y && go a b
                     | [], [] => true | _, _ => false end) a b
  | _, _ => false
  end.
Definition same_id (v w : value) : bool :=
  match v, w with Some v, Some w => json_eq v w | None, None => true | _, _ => false end.

Definition question_id (q : fields) : value := own_field (js "id") q.

Fixpoint find_index (f : fields -> bool) (l : list fields) : option nat :=
  match l with
  | [] => None
  | q :: l => if f q then Some 0%nat else S <$> find_index f l
  end.

(** The condition of a skip rule against the answer of its trigger. *)
Definition rule_matches (value expect : value) : thrown bool :=
  e ← (if nullish expect then Ok [] else to_string expect);
  match value with
  | Some (JArr l) => texts ← map_thrown (fun v => to_string (Some v)) l; Ok (bool_decide (e ∈ texts))
  | None | Some JNull => Ok (negb (truthy e))
  | Some v => s ← to_string (Some v); Ok (bool_decide (s = e))
  end.

(** [isQuestionSkipped]; a rule looks at an earlier question, so that the number of questions bounds the chain. *)
Fixpoint skip_within (fuel : nat) (question : fields) (list : list fields) (answers : fields) : thrown bool :=
  match fuel with
  | O => Ok false
  | S fuel =>
      let logic := own_field (js "logic") question in
      match as_string (opt_prop "questionId" logic) with
      | None | Some [] => Ok false
      | Some id =>
          match find_index (fun q => same_id (question_id q) (question_id question)) list,
                find_index (fun q => same_id (question_id q) (Some (JStr id))) list with
          | Some idx, Some triggerIdx =>
              if Nat.leb idx triggerIdx then Ok false
              else
                skipped ← skip_within fuel (default [] (list !! triggerIdx)) list answers;
                if (skipped : bool) then Ok false else rule_matches (get_field id answers) (opt_prop "equals" logic)
          | _, _ => Ok false
          end
      end
  end.

Definition isQuestionSkipped (question : fields) (questions : list fields) (answers : fields) : thrown bool :=
  skip_within (S (length questions)) question questions answers.

Fixpoint filter_thrown {A} (f : A -> thrown bool) (l : list A) : thrown (list A) :=
  match l with
  | [] => Ok []
  | x :: l => b ← f x; l ← filter_thrown f l; Ok (if (b : bool) then x :: l else l)
  end.

Definition visibleQuestions (questions : list fields) (answers : fields) : thrown (list fields) :=
  filter_thrown (fun q => negb <$> isQuestionSkipped q questions answers) questions.

(** ** Answers *)

Definition isAnswered (v : value) : thrown bool :=
  match v with
  | Some (JArr l) => Ok (negb (Nat.eqb (length l) 0))
  | None | Some JNull => Ok false
  | Some v => s ← to_string (Some v); Ok (truthy (trim s))
  end.

Definition formatAnswer (type v : value) (separator : jstr) : thrown jstr :=
  match v with
  | None | Some JNull => Ok []
  | Some (JArr l) => join separator <$> map_thrown (fun x => to_string (Some x)) l
  | Some v =>
      let yes_no := match type with Some (JStr t) => bool_decide (t = js "yes_no") | _ => false end in
      match v with
      | JStr s =>
          if yes_no && bool_decide (s = js "yes") then Ok (js "Yes")
          else if yes_no && bool_decide (s = js "no") then Ok (js "No")
          else Ok s
      | _ => to_string (Some v)
      end
  end.

Inductive summary :=
| SumNumber (total : num) (count answered : nat)
| SumBars (rows : list (jstr * Z)) (answered : nat)
| SumList (items : list jstr) (answered : nat).

(** The answer of one response; [answers] is an object where it is anything of use. *)
Definition answer_of (question : fields) (response : json) : thrown value :=
  match as_object (opt_prop "answers" (Some response)) with
  | Some answers => key ← to_string (question_id question); Ok (get_field key answers)
  | None => Ok None
  end.

Definition filled (v : value) : option json :=
  match v with
  | None | Some JNull | Some (JArr []) => None
  | Some (JStr s) => if truthy (trim s) then Some (JStr s) else None
  | Some v => Some v
  end.

(** [counts.set(key, (counts.get(key) || 0) + 1)], on the entries of the map in their order. *)
Fixpoint bump (key : jstr) (counts : list (jstr * Z)) : list (jstr * Z) :=
  match counts with
  | [] => [(key, 1)]
  | (k, n) :: counts => if bool_decide (k = key) then (k, n + 1) :: counts else (k, n) :: bump key counts
  end.

Definition picks_of (v : json) : list json := match v with JArr l => l | _ => [v] end.

Definition add_number (acc : num * nat) (n : num) : num * nat :=
  if num_is_finite n then (num_add (fst acc) n, S (snd acc)) else acc.

Definition summarizeAnswers (question : fields) (responses : list json) : thrown summary :=
  info ← typeInfo (question_type question);
  values ← map_thrown (answer_of question) responses;
  let answered := omap filled values in
  match ti_summary info with
  | Some SNumber =>
      ns ← map_thrown (fun v => to_number (Some v)) answered;
      let '(total, numeric) := foldl add_number (num_of_Z 0, 0%nat) ns in
      Ok (SumNumber total numeric (length answered))
  | Some SBars =>
      options ← answerOptions question;
      keys ← map_thrown (fun v => to_string (Some v)) (concat (map picks_of answered));
      Ok (SumBars (foldl (fun counts k => bump k counts) (map (fun o => (o, 0)) options) keys) (length answered))
  | _ =>
      items ← map_thrown (fun v => formatAnswer (question_type question) (Some v) (js ", ")) answered;
      Ok (SumList items (length answered))
  end.
End Questions.
