(* ===== verification/FormAnswersFacts.v ===== *)
(** * Answers of a form: facts

    The latest records, the downloaded table, the questions an answer skips and the counts of a summary. *)

From S2P Require Import Prelude JsString Bytes JsonTree JsonParse Delimited FormDocument QuestionTypes.

(** ** The latest records *)

(** What was said last under an id, and the ids in the order they were first sent. *)
Definition said (id : jstr) (records : list json) : list json := List.filter (fun r => bool_decide (response_id r = Some id)) records.
Definition last_word (id : jstr) (records : list json) : option json :=
  r ← last (said id records); if response_deleted r then None else Some r.
Definition sent_ids (records : list json) : list jstr :=
  omap (fun r => if response_deleted r then None else response_id r) records.
Definition first_seen (ids : list jstr) : list jstr := foldl (fun acc id => if bool_decide (id ∈ acc) then acc else acc ++ [id]) [] ids.

Lemma latest_state (records : list json) :
  (foldl latest_step ([], ∅) records).1 = first_seen (sent_ids records)
  /\ forall id, (foldl latest_step ([], ∅) records).2 !! id = last_word id records.
Proof.
  induction records as [|r records [IH1 IH2]] using rev_ind; [split; [done|]; intros id; apply lookup_empty|].
  unfold sent_ids, last_word, said in *. rewrite foldl_snoc, omap_app. cbn [omap list_omap]. unfold latest_step at 1 3.
  setoid_rewrite List.filter_app. cbn [List.filter]. destruct (response_id r) as [id|] eqn:Er.
  - destruct (response_deleted r) eqn:Ed; cbn [fst snd].
    + split; [by rewrite app_nil_r|]. intros id'. destruct (decide (id = id')) as [->|Hne].
      * rewrite lookup_delete_eq. rewrite bool_decide_true, last_snoc by done. cbn. by rewrite Ed.
      * rewrite lookup_delete_ne by done. rewrite bool_decide_false by congruence. by rewrite app_nil_r, IH2.
    + split; [unfold first_seen; rewrite foldl_snoc; fold (first_seen); by rewrite IH1|]. intros id'. destruct (decide (id = id')) as [->|Hne].
      * rewrite lookup_insert_eq. rewrite bool_decide_true, last_snoc by done. cbn. by rewrite Ed.
      * rewrite lookup_insert_ne by done. rewrite bool_decide_false by congruence. by rewrite app_nil_r, IH2.
  - split; [destruct (response_deleted r); by rewrite app_nil_r|]. intros id'. rewrite bool_decide_false by done. by rewrite app_nil_r, IH2.
Qed.

Lemma latest_eq (records : list json) : latestResponses records = omap (fun id => last_word id records) (first_seen (sent_ids records)).
Proof.
  unfold latestResponses. destruct (latest_state records) as [E1 E2]. destruct (foldl latest_step ([], ∅) records) as [order byId]. cbn in *.
  rewrite E1. clear E1. induction (first_seen (sent_ids records)) as [|id l IH]; cbn; [done|]. rewrite E2, IH. done.
Qed.

Lemma first_seen_nodup (ids : list jstr) : NoDup (first_seen ids).
Proof.
  induction ids as [|id ids IH] using rev_ind; [constructor|]. unfold first_seen. rewrite foldl_snoc. fold (first_seen ids).
  case_bool_decide; [done|]. apply NoDup_app. split_and!; [done | | apply NoDup_singleton]. by intros x Hx ->%list_elem_of_singleton.
Qed.

Lemma first_seen_same (ids : list jstr) : NoDup ids -> first_seen ids = ids.
Proof.
  induction ids as [|id ids IH] using rev_ind; [done|]. intros (Hn & Hd & _)%NoDup_app. unfold first_seen. rewrite foldl_snoc. fold (first_seen ids).
  rewrite IH by done. rewrite bool_decide_false; [done|]. intros Hi. apply (Hd id Hi). by apply list_elem_of_singleton.
Qed.

Lemma last_word_id (id : jstr) (records : list json) (r : json) : last_word id records = Some r -> response_id r = Some id /\ response_deleted r = false.
Proof.
  unfold last_word. intros (x & Hx & E)%bind_Some. destruct (response_deleted x) eqn:Ed; [done|]. injection E as <-. split; [|done].
  apply last_Some_elem_of in Hx. unfold said in Hx. rewrite list_elem_of_In, filter_In in Hx. by destruct Hx as [_ ?%bool_decide_eq_true].
Qed.

(** Live records of distinct ids are their own latest. *)
Lemma latest_distinct (l : list json) (ids : list jstr) : NoDup ids ->
  Forall2 (fun id r => response_id r = Some id /\ response_deleted r = false) ids l -> latestResponses l = l.
Proof.
  intros Hn H. rewrite latest_eq. assert (Es : sent_ids l = ids).
  { clear Hn. unfold sent_ids. induction H as [|id r ids l [Hi Hd] _ IH]; cbn; [done|]. rewrite Hd, Hi. by f_equal. }
  rewrite Es, first_seen_same by done. clear Es.
  assert (W : forall id r, (id, r) ∈ zip ids l -> last_word id l = Some r).
  { induction H as [|id r ids l [Hi Hd] H IH]; cbn; intros id' r' Hz; [by apply not_elem_of_nil in Hz|]. apply NoDup_cons in Hn as [Hnot Hn].
    assert (Hs : forall x, x ∈ l -> exists i, i ∈ ids /\ response_id x = Some i).
    { intros x Hx. clear -H Hx. induction H as [|i y ids l [Hy _] H IH]; [by apply not_elem_of_nil in Hx|]. apply elem_of_cons in Hx as [->|Hx].
      - exists i. split; [by left | done].
      - destruct (IH Hx) as (j & Hj & E). exists j. split; [by right | done]. }
    apply elem_of_cons in Hz as [[= -> ->]|Hz].
    - unfold last_word, said. cbn [List.filter]. rewrite bool_decide_true by done. replace (List.filter _ l) with (@nil json); [cbn; by rewrite Hd|].
      symmetry. destruct (List.filter _ l) as [|x xs] eqn:E; [done|]. assert (Hx : In x (List.filter (fun r => bool_decide (response_id r = Some id)) l)) by (rewrite E; by left).
      apply filter_In in Hx as [Hx%list_elem_of_In Hb%bool_decide_eq_true]. destruct (Hs x Hx) as (i & Hi' & E'). congruence.
    - assert (Hne : id <> id') by (intros ->; apply Hnot; by apply elem_of_zip_l in Hz).
      unfold last_word, said. cbn [List.filter]. rewrite bool_decide_false by congruence. by apply IH. }
  clear Hn. assert (Hz : Forall2 (fun id r => last_word id l = Some r) ids l).
  { apply Forall2_same_length_lookup_2; [by eapply Forall2_length|]. intros i id r Hi Hr. apply W. apply list_elem_of_lookup. exists i. by apply lookup_zip_Some. }
  clear W H. revert Hz. generalize l at 1 3. intros l0. induction 1 as [|id r ids l1 E _ IH]; cbn; [done|]. by rewrite E, IH.
Qed.

(** [latestResponses] gives, for each response in the order they were first sent, the last record written for it,
    unless that is a deletion; applying it to its own result changes nothing. *)
Theorem latest_is_last_word (records : list json) :
  latestResponses records = omap (fun id => last_word id records) (first_seen (sent_ids records))
  /\ latestResponses (latestResponses records) = latestResponses records.
Proof.
  split; [apply latest_eq|]. set (ids := List.filter (fun id => match last_word id records with Some _ => true | None => false end) (first_seen (sent_ids records))).
  apply (latest_distinct _ ids).
  - apply NoDup_ListNoDup, List.NoDup_filter, NoDup_ListNoDup, first_seen_nodup.
  - rewrite latest_eq. unfold ids. clear ids. induction (first_seen (sent_ids records)) as [|id l IH]; cbn; [constructor|].
    destruct (last_word id records) as [r|] eqn:E; cbn; [|done]. constructor; [by apply (last_word_id id records) | done].
Qed.

(** ** The downloaded table *)

Lemma cell_text (c : jstr) : field_text 44 (neutral c) (csvCell c).
Proof.
  unfold csvCell. destruct (existsb _ (neutral c)) eqn:E; [apply (field_quoted 44%N)|].
  assert (Hc : forall x, x ∈ neutral c -> x <> 34%N /\ x <> 44%N /\ x <> 10%N /\ x <> 13%N).
  { intros x Hx. assert (Hx' : existsb (N.eqb x) [34; 44; 10; 13]%N = false).
    { destruct (existsb (N.eqb x) [34; 44; 10; 13]%N) eqn:Ex; [|done]. rewrite <- E. symmetry. apply existsb_exists. exists x.
      split; [by apply list_elem_of_In | done]. }
    cbn in Hx'. rewrite !orb_false_iff, !N.eqb_neq in Hx'. tauto. }
  apply field_plain.
  - apply Forall_forall. intros x Hx. unfold plain_char, c_cr, c_lf. destruct (Hc x Hx) as (_ & ? & ? & ?). done.
  - destruct (neutral c) as [|x l]; [done|]. intros [= ->]. by destruct (Hc c_quote) as [? _]; [left|].
Qed.

Lemma line_text (cells : list jstr) : cells <> [] -> row_text 44 (map neutral cells) (csv_line cells).
Proof.
  induction cells as [|c cells IH]; [done|]. intros _. unfold csv_line in *. destruct cells as [|c' cells]; [apply row_last, cell_text|].
  change (row_text 44 (neutral c :: map neutral (c' :: cells)) (csvCell c ++ 44%N :: join (js ",") (map csvCell (c' :: cells)))).
  apply row_more; [apply cell_text | by apply IH].
Qed.

Lemma lines_text (rows : list (list jstr)) : Forall (fun r => r <> []) rows -> rows <> [] ->
  table_text 44 [c_lf] (map (map neutral) rows ++ []) (join [c_lf] (map csv_line rows) ++ [c_lf]).
Proof.
  induction 1 as [|r rows Hr Hrows IH]; [done|]. intros _. destruct rows as [|r' rows]; cbn [map app join].
  - rewrite <- (app_nil_r [c_lf]). apply (table_more 44%N [c_lf]); [by apply line_text | apply table_nil].
  - rewrite <- !app_assoc. apply (table_more 44%N [c_lf]); [by apply line_text|]. by apply IH.
Qed.

(** A cell that opens as text: it starts with none of [= + - @], a tab or a carriage return. *)
Definition inert (c : jstr) : Prop := match c with x :: _ => x ∉ [61; 43; 45; 64; 9; 13]%N | [] => True end.

Lemma neutral_inert (c : jstr) : inert (neutral c).
Proof.
  destruct c as [|x c]; [done|]. unfold neutral. destruct (formula_start x) eqn:E; cbn [inert].
  - apply (bool_decide_unpack (39%N ∉ [61; 43; 45; 64; 9; 13]%N)). vm_compute. exact I.
  - intros Hx%list_elem_of_In. assert (T : formula_start x = true); [|congruence]. apply existsb_exists. exists x. split; [exact Hx | apply N.eqb_refl].
Qed.

Section Table.
Context `{JsText}.

(** C33: the downloaded table is the answers, and never a formula.  Read as comma-separated text it gives the header
    and one row per response, but for blank rows at the very end, each cell as it was except that one which a spreadsheet would run starts with an
    apostrophe; no cell read starts with [=], [+], [-], [@], a tab or a carriage return. *)
Theorem csv_is_inert (columns : list column) (responses : list json) (formatValue : column -> value -> thrown jstr) (csv : jstr) :
  responsesToCsv columns responses formatValue = Ok csv ->
  exists rows, map_thrown (csv_row columns formatValue) responses = Ok rows
    /\ parseDelimited csv (Some (js ",")) = pop_blank (map (map neutral) ((js "Submitted" :: map col_label columns) :: rows))
    /\ Forall (Forall inert) (parseDelimited csv (Some (js ","))).
Proof.
  unfold responsesToCsv. cbv zeta. intros (rows & Er & E)%bind_ok. exists rows. split; [done|].
  set (header := js "Submitted" :: map col_label columns) in *.
  assert (Ec : csv = join [c_lf] (map csv_line (header :: rows)) ++ [c_lf]) by congruence. clear E.
  assert (P : parseDelimited csv (Some (js ",")) = pop_blank (map (map neutral) (header :: rows))).
  { apply (parse_table_text 44%N [c_lf]); try done; [by right; right|].
    assert (Eb : strip_bom csv = csv) by (rewrite Ec; unfold header; destruct rows, columns; reflexivity). rewrite Eb, Ec, <- (app_nil_r (map _ _)).
    apply lines_text; [|done]. constructor; [done|]. apply map_thrown_ok in Er. clear -Er. induction Er as [|r row responses rows E _ IH]; [constructor|].
    constructor; [|done]. unfold csv_row in E. apply bind_ok in E as (? & _ & E). apply bind_ok in E as (? & _ & E). apply bind_ok in E as (? & _ & E).
    apply bind_ok in E as (? & _ & E). by injection E as <-. }
  split; [exact P|]. rewrite P. destruct (pop_blank_prefix (map (map neutral) (header :: rows))) as (bs & Eb & _).
  assert (A : Forall (Forall inert) (map (map neutral) (header :: rows))).
  { apply Forall_fmap, Forall_forall. intros r _. apply Forall_fmap, Forall_forall. intros c _. apply neutral_inert. }
  rewrite Eb in A. by apply Forall_app in A as [? _].
Qed.
End Table.

(** ** Skipped questions *)

Section Skips.
Context `{JsText}.

(** The rule of a question that can fire: the earlier question it names, and the answer it waits for. *)
Definition rule_of (question : fields) (qs : list fields) : option (jstr * nat * value) :=
  let logic := own_field (js "logic") question in
  match as_string (opt_prop "questionId" logic) with
  | None | Some [] => None
  | Some id =>
      match find_index (fun q => same_id (question_id q) (question_id question)) qs,
            find_index (fun q => same_id (question_id q) (Some (JStr id))) qs with
      | Some idx, Some t => if Nat.leb idx t then None else Some (id, t, opt_prop "equals" logic)
      | _, _ => None
      end
  end.

Definition skip_body (rec : fields -> thrown bool) (question : fields) (qs : list fields) (answers : fields) : thrown bool :=
  match rule_of question qs with
  | None => Ok false
  | Some (id, t, equals) =>
      skipped ← rec (default [] (qs !! t));
      if (skipped : bool) then Ok false else rule_matches (get_field id answers) equals
  end.

Lemma skip_within_body (fuel : nat) (question : fields) (qs : list fields) (answers : fields) :
  skip_within (S fuel) question qs answers = skip_body (fun q => skip_within fuel q qs answers) question qs answers.
Proof. unfold skip_body, rule_of. cbn [skip_within]. repeat case_match; simplify_eq; done. Qed.

Lemma find_index_some (f : fields -> bool) (l : list fields) (i : nat) : find_index f l = Some i ->
  exists q, l !! i = Some q /\ f q = true /\ forall j q', (j < i)%nat -> l !! j = Some q' -> f q' = false.
Proof.
  revert i. induction l as [|q l IH]; cbn; intros i; [done|]. destruct (f q) eqn:E.
  - intros [= <-]. exists q. split_and!; [done..|]. intros; lia.
  - intros (i' & Ei & ->)%fmap_Some. destruct (IH i' Ei) as (q' & Hq & Hf & Hj). exists q'. split_and!; [done..|].
    intros [|j] x Hlt Hx; [by injection Hx as <- | apply (Hj j); [lia | done]].
Qed.

Lemma find_index_ext (f g : fields -> bool) (l : list fields) : (forall q, f q = g q) -> find_index f l = find_index g l.
Proof. intros E. induction l as [|q l IH]; cbn; [done|]. by rewrite E, IH. Qed.

Lemma same_string (v : value) (id : jstr) : same_id v (Some (JStr id)) = true -> v = Some (JStr id).
Proof. destruct v as [[| | |s| |]|]; try done. by intros ->%bool_decide_eq_true. Qed.

(** A rule names an earlier place, and the question there is first of its id. *)
Lemma rule_earlier (question : fields) (qs : list fields) (id : jstr) (t : nat) (e : value) : rule_of question qs = Some (id, t, e) ->
  exists idx q, find_index (fun q => same_id (question_id q) (question_id question)) qs = Some idx /\ (t < idx)%nat
    /\ qs !! t = Some q /\ question_id q = Some (JStr id) /\ find_index (fun x => same_id (question_id x) (question_id q)) qs = Some t.
Proof.
  unfold rule_of. destruct (as_string _) as [[|c s]|]; try done. destruct (find_index _ qs) as [idx|] eqn:Ei; [|done].
  destruct (find_index (fun q => same_id (question_id q) (Some (JStr (c :: s)))) qs) as [t'|] eqn:Et; [|done].
  destruct (Nat.leb_spec idx t'); [done|]. intros [= <- <- <-]. destruct (find_index_some _ _ _ Et) as (q & Hq & Hf & _).
  apply same_string in Hf. exists idx, q. rewrite Hf. done.
Qed.

Lemma find_index_bound (f : fields -> bool) (l : list fields) (i : nat) : find_index f l = Some i -> (i < length l)%nat.
Proof. intros (q & Hq & _)%find_index_some. by eapply lookup_lt_Some. Qed.

(** Fuel above the place of a question changes nothing. *)
Lemma skip_fuel (n m idx : nat) (question : fields) (qs : list fields) (answers : fields) :
  find_index (fun q => same_id (question_id q) (question_id question)) qs = Some idx -> (idx < n)%nat -> (idx < m)%nat ->
  skip_within n question qs answers = skip_within m question qs answers.
Proof.
  revert m idx question. induction n as [|n IH]; intros m idx question E Hn Hm; [lia|]. destruct m as [|m]; [lia|].
  rewrite !skip_within_body. unfold skip_body. destruct (rule_of question qs) as [[[id t] e]|] eqn:Er; [|done].
  destruct (rule_earlier _ _ _ _ _ Er) as (idx' & q & E' & Hlt & Hq & _ & Eq). rewrite E in E'. injection E' as <-.
  rewrite Hq. cbn [default]. unfold Datatypes.id. by rewrite (IH m t q Eq) by lia.
Qed.

(** The rules of a form always come to an end: [isQuestionSkipped] satisfies the recursion it is written as.  A
    question without a rule on an earlier question is not skipped; one with such a rule is skipped exactly if the
    earlier question is not, and its answer is the one the rule waits for. *)
Theorem skipped_by_its_rule (question : fields) (qs : list fields) (answers : fields) :
  isQuestionSkipped question qs answers = skip_body (fun q => isQuestionSkipped q qs answers) question qs answers.
Proof.
  unfold isQuestionSkipped. rewrite skip_within_body. unfold skip_body. destruct (rule_of question qs) as [[[id t] e]|] eqn:Er; [|done].
  destruct (rule_earlier _ _ _ _ _ Er) as (idx & q & E & Hlt & Hq & _ & Eq). rewrite Hq. cbn [default]. unfold Datatypes.id.
  apply find_index_bound in E. by rewrite (skip_fuel (length qs) (S (length qs)) t q qs answers Eq) by lia.
Qed.

(** Whether a question is shown depends on the answers before it alone: answers that agree on every question
    before place [idx] skip the question there or both do not, so that what a person still types further down never
    changes what was asked above. *)
Theorem earlier_answers_decide (question : fields) (qs : list fields) (a a' : fields) (idx : nat) :
  find_index (fun q => same_id (question_id q) (question_id question)) qs = Some idx ->
  (forall t q id, (t < idx)%nat -> qs !! t = Some q -> question_id q = Some (JStr id) -> get_field id a = get_field id a') ->
  isQuestionSkipped question qs a = isQuestionSkipped question qs a'.
Proof.
  unfold isQuestionSkipped. generalize (S (length qs)). intros n. revert idx question. induction n as [|n IH]; intros idx question E Ha; [done|].
  rewrite !skip_within_body. unfold skip_body. destruct (rule_of question qs) as [[[id t] e]|] eqn:Er; [|done].
  destruct (rule_earlier _ _ _ _ _ Er) as (idx' & q & E' & Hlt & Hq & Hid & Eq). rewrite E in E'. injection E' as <-. rewrite Hq. cbn [default]. unfold Datatypes.id.
  rewrite (Ha t q id Hlt Hq Hid). by rewrite (IH t q Eq) by (intros t' q' id' Ht'; apply Ha; lia).
Qed.

(** ** Counts *)

Definition times (k : jstr) (keys : list jstr) : Z := Z.of_nat (length (List.filter (fun x => bool_decide (x = k)) keys)).

(** The picks of all responses, as strings. *)
Definition picked_keys (question : fields) (responses : list json) : thrown (list jstr) :=
  values ← map_thrown (answer_of question) responses;
  map_thrown (fun v => to_string (Some v)) (concat (map picks_of (omap filled values))).

Lemma bump_keys (k : jstr) (counts : list (jstr * Z)) :
  map fst (bump k counts) = if bool_decide (k ∈ map fst counts) then map fst counts else map fst counts ++ [k].
Proof.
  induction counts as [|[k' n] l IH]; cbn [bump map fst]; [by rewrite bool_decide_false by (by apply not_elem_of_nil)|].
  destruct (decide (k' = k)) as [->|Hne].
  { rewrite !bool_decide_true by (done || by left). done. }
  rewrite (bool_decide_false (k' = k)) by done. cbn [map fst]. rewrite IH. destruct (decide (k ∈ map fst l)) as [H0|H0].
  - rewrite (bool_decide_true _ H0), bool_decide_true by (by right). done.
  - rewrite (bool_decide_false _ H0), bool_decide_false; [done|]. intros [?|?]%elem_of_cons; [congruence | done].
Qed.

Lemma bump_nodup (k : jstr) (counts : list (jstr * Z)) : NoDup (map fst counts) -> NoDup (map fst (bump k counts)).
Proof.
  intros Hn. rewrite bump_keys. case_bool_decide; [done|]. apply NoDup_app. split_and!; [done | | apply NoDup_singleton].
  by intros x Hx ->%list_elem_of_singleton.
Qed.

Lemma bump_elem (k k' : jstr) (n : Z) (counts : list (jstr * Z)) : NoDup (map fst counts) -> (k', n) ∈ bump k counts ->
  (k' <> k /\ (k', n) ∈ counts) \/ (k' = k /\ ((k, n - 1) ∈ counts \/ ((k ∉ map fst counts) /\ n = 1))).
Proof.
  induction counts as [|[k0 n0] l IH]; cbn [bump map fst]; intros Hn H0.
  - apply list_elem_of_singleton in H0 as [= -> ->]. right. split; [done|]. right. split; [by apply not_elem_of_nil | done].
  - apply NoDup_cons in Hn as [H1 Hn]. destruct (decide (k0 = k)) as [->|Hne].
    + rewrite bool_decide_true in H0 by done. apply elem_of_cons in H0 as [[= -> ->]|H0].
      * right. split; [done|]. left. replace (n0 + 1 - 1) with n0 by lia. by left.
      * left. split; [|by right]. intros ->. apply H1. by apply (list_elem_of_fmap_2 fst _ _ H0).
    + rewrite (bool_decide_false (k0 = k)) in H0 by done. apply elem_of_cons in H0 as [[= -> ->]|H0]; [left; split; [congruence | by left]|].
      destruct (IH Hn H0) as [[? ?]|[-> [?|[? ->]]]]; [left; split; [done | by right] | right; split; [done | left; by right] |].
      right. split; [done|]. right. split; [|done]. intros [?|?]%elem_of_cons; [congruence | done].
Qed.

Lemma counts_fold (keys : list jstr) (options : list jstr) : NoDup options ->
  let rows := foldl (fun counts k => bump k counts) (map (fun o => (o, 0)) options) keys in
  NoDup (map fst rows) /\ (exists more, map fst rows = options ++ more) /\ (forall k, k ∈ keys -> k ∈ map fst rows)
  /\ forall k n, (k, n) ∈ rows -> n = times k keys.
Proof.
  intros Ho. induction keys as [|k keys IH] using rev_ind; cbn zeta in *.
  - cbn. assert (E : map fst (map (fun o => (o, 0)) options) = options) by (rewrite map_map; apply map_id). rewrite E. split_and!; [done | | |].
    + exists []. by rewrite app_nil_r.
    + by intros k Hk%not_elem_of_nil.
    + intros k n (o & [= -> ->] & _)%list_elem_of_fmap. done.
  - rewrite foldl_snoc. destruct IH as (N & (more & M) & K & C). set (rows := foldl _ _ keys) in *. split_and!.
    + by apply bump_nodup.
    + rewrite bump_keys, M. case_bool_decide; [by exists more|]. exists (more ++ [k]). by rewrite app_assoc.
    + intros x. rewrite bump_keys. intros [Hx|Hx%list_elem_of_singleton]%elem_of_app.
      * apply K in Hx. case_bool_decide; [done|]. apply elem_of_app; by left.
      * subst. case_bool_decide; [done|]. apply elem_of_app; right. by left.
    + intros x n Hx. unfold times. rewrite List.filter_app, length_app, Nat2Z.inj_add. fold (times x keys). cbn [List.filter].
      destruct (bump_elem _ _ _ _ N Hx) as [[Hne Hx']|[-> [Hx'|[Hx' ->]]]].
      * rewrite bool_decide_false by congruence. apply C in Hx'. cbn. lia.
      * rewrite bool_decide_true by done. apply C in Hx'. cbn. lia.
      * rewrite bool_decide_true by done. assert (T : times k keys = 0); [|rewrite T; cbn; lia]. unfold times.
        destruct (List.filter _ keys) as [|y l] eqn:E; [done|]. exfalso. apply Hx'. assert (In y (List.filter (fun x => bool_decide (x = k)) keys)) as Hy by (rewrite E; by left).
        apply filter_In in Hy as [Hy ->%bool_decide_eq_true]. apply K. by apply list_elem_of_In.
Qed.

Lemma options_nodup (l : list json) (acc : list jstr) : NoDup acc -> NoDup (foldl take_option acc l).
Proof.
  revert acc. induction l as [|o l IH]; cbn; intros acc Ha; [done|]. apply IH. unfold take_option. destruct o; try done. case_match; [|done].
  apply NoDup_app. split_and!; [done | | apply NoDup_singleton]. intros x Hx ->%list_elem_of_singleton.
  apply andb_true_iff in H0 as [_ Hb%negb_true_iff%bool_decide_eq_false]. done.
Qed.

Lemma answerOptions_nodup (q : fields) (l : list jstr) : answerOptions q = Ok l -> NoDup l.
Proof.
  unfold answerOptions. intros (info & E & E')%bind_ok. unfold typeInfo in E. apply bind_ok in E as (key & _ & E).
  destruct (ti_fixed info) as [f|] eqn:Ef.
  - injection E' as <-. assert (A : Forall (fun t => match ti_fixed (snd t) with Some f => NoDup f | None => True end) QUESTION_TYPES).
    { repeat (apply Forall_cons; split); [..|apply Forall_nil_2]; try exact I. apply (bool_decide_unpack (NoDup [js "Yes"; js "No"])). vm_compute. exact I. }
    rewrite Forall_forall in A. destruct (List.find _ QUESTION_TYPES) as [t|] eqn:Et.
    + injection E as <-. apply find_some in Et as [Ht%list_elem_of_In _]. specialize (A t Ht). by rewrite Ef in A.
    + case_bool_decide; injection E as <-; done.
  - injection E' as <-. destruct (opt_prop "options" _) as [[]|]; try constructor. by apply options_nodup; constructor.
Qed.

(** The bars of a summary count the picks: no label appears twice, the options of the question come first in
    their order, every pick has its bar, and the number at a label is how often it was picked. *)
Theorem bars_count_picks (question : fields) (responses : list json) (rows : list (jstr * Z)) (answered : nat) :
  summarizeAnswers question responses = Ok (SumBars rows answered) ->
  exists options keys, answerOptions question = Ok options /\ picked_keys question responses = Ok keys
    /\ NoDup (map fst rows) /\ (exists more, map fst rows = options ++ more) /\ (forall k, k ∈ keys -> k ∈ map fst rows)
    /\ forall k n, (k, n) ∈ rows -> n = times k keys.
Proof.
  unfold summarizeAnswers, picked_keys. intros (info & _ & E)%bind_ok. apply bind_ok in E as (values & -> & E). cbn [mbind result_bind].
  destruct (ti_summary info) as [[]|].
  - apply bind_ok in E as (options & Eo & E). apply bind_ok in E as (keys & Ek & E). injection E as <- <-. exists options, keys. split; [done|].
    split; [exact Ek|]. apply counts_fold. by eapply answerOptions_nodup.
  - apply bind_ok in E as (items & _ & E). done.
  - apply bind_ok in E as (ns & _ & E). by destruct (foldl add_number _ ns).
  - apply bind_ok in E as (items & _ & E). done.
Qed.
End Skips.

(** ** A lunch *)
Module AnswersSample.
#[export] Instance plain : JsText := {|
  json_parse _ := None; coerce_number _ := Err TypeError; coerce_bigint _ := Err TypeError;
  coerce_string v := match v with JNum n => Ok (js_of_Z (default 0 (num_integer n))) | _ => Err TypeError end;
|}.
Definition str (s : string) : json := JStr (js s).
Definition question (id type : string) (more : fields) : fields := [(js "id", str id); (js "type", str type)] ++ more.
Definition coming : fields := question "q1" "yes_no" [].
Definition dish : fields := question "q2" "multi_choice"
  [(js "config", JObj [(js "options", JArr [str "Soup"; str "Bread"; str "Soup"])]); (js "logic", JObj [(js "questionId", str "q1"); (js "equals", str "no")])].
Definition why : fields := question "q3" "long_text" [(js "logic", JObj [(js "questionId", str "q2"); (js "equals", str "Soup")])].
Definition questions : list fields := [coming; dish; why].
Definition record (id : string) (answers : fields) : json :=
  JObj [(js "id", str id); (js "sent_at", JNum (num_of_Z 86400)); (js "answers", JObj answers)].
Definition yes : fields := [(js "q1", str "yes"); (js "q2", JArr [str "Soup"; str "=1+1"]); (js "q3", str "a,b")].
Definition no : fields := [(js "q1", str "no"); (js "q2", JArr [])].
Definition sent : list json := [record "r1" yes; record "r2" no].
Definition columns : list column := [{| col_id := js "q3"; col_label := js "Why?" |}; {| col_id := js "q2"; col_label := js "-dish" |}].
Definition format (c : column) (v : value) : thrown jstr := formatAnswer None v [c_lf].
Definition csv : jstr := match responsesToCsv columns sent format with Ok t => t | Err _ => [] end.
Definition counted : list (jstr * Z) := match summarizeAnswers dish sent with Ok (SumBars rows _) => rows | _ => [] end.
End AnswersSample.

#[local] Existing Instance AnswersSample.plain.
Import AnswersSample.

Lemma csv_is_inert_witness : parseDelimited csv (Some (js ",")) =
  [[js "Submitted"; js "Why?"; js "'-dish"]; [js "1970-01-02T00:00:00.000Z"; js "a,b"; js "Soup" ++ [c_lf] ++ js "=1+1"]; [js "1970-01-02T00:00:00.000Z"; []; []]].
Proof.
  assert (E : responsesToCsv columns sent format = Ok csv) by (vm_compute; reflexivity).
  destruct (csv_is_inert columns sent format csv E) as (rows & Er & P & _). rewrite P.
  assert (R : map_thrown (csv_row columns format) sent = Ok [[js "1970-01-02T00:00:00.000Z"; js "a,b"; js "Soup" ++ [c_lf] ++ js "=1+1"]; [js "1970-01-02T00:00:00.000Z"; []; []]])
    by (vm_compute; reflexivity).
  rewrite R in Er. injection Er as <-. vm_compute. reflexivity.
Defined.

(** An answer that matches hides the question; one that is hidden hides none. *)
Example chain_of_rules : (map question_id <$> visibleQuestions questions yes, map question_id <$> visibleQuestions questions no)
  = (Ok [Some (str "q1"); Some (str "q2")], Ok [Some (str "q1"); Some (str "q3")]).
Proof. vm_compute. reflexivity. Qed.

Lemma earlier_answers_decide_witness : isQuestionSkipped dish questions no = isQuestionSkipped dish questions [(js "q1", str "no"); (js "q3", str "x")].
Proof.
  apply (earlier_answers_decide dish questions no _ 1); [vm_compute; reflexivity|]. intros [|t] q id Ht Hq Hid; [|lia].
  injection Hq as <-. injection Hid as <-. vm_compute. reflexivity.
Defined.

Lemma bars_count_picks_witness : exists options keys, answerOptions dish = Ok options /\ picked_keys dish sent = Ok keys
  /\ NoDup (map fst counted) /\ counted = [(js "Soup", 1); (js "Bread", 0); (js "=1+1", 1)].
Proof.
  assert (E : summarizeAnswers dish sent = Ok (SumBars counted 1)) by (vm_compute; reflexivity).
  destruct (bars_count_picks dish sent counted 1 E) as (options & keys & Ho & Hk & Hn & _). exists options, keys.
  split; [exact Ho|]. split; [exact Hk|]. split; [exact Hn|]. vm_compute. reflexivity.
Defined.

(** Answers to a yes-or-no question are stored in lower case and its bars are labelled with capitals: the bars [Yes]
    and [No] stay empty and two more are drawn. *)
Example yes_no_splits : summarizeAnswers coming sent = Ok (SumBars [(js "Yes", 0); (js "No", 0); (js "yes", 1); (js "no", 1)] 2).
Proof. vm_compute. reflexivity. Qed.
