(* ===== verification/OpsTypes.v ===== *)
(** * File operations: data

    The records of [lib/fileOps/store.js] (the [Item], [Op] and [Decision] typedefs and the object
    [rt] keeps per operation), the values [errors.js] classifies, and the object-literal patches
    the runners pass to [patchItem] and [patchOp]. *)

From S2P Require Import Prelude JsString.

(** ** Enumerations *)

Inductive op_kind :=
  | KUpload | KGallery | KCopy | KMove | KTrash | KRestoreTrash | KPurge | KEmptyTrash
  | KRestoreBackup | KZip.

Inductive item_state :=
  | IQueued | IUploading | IFinishing | ISubmitting | IRunning | IDone | ISkipped
  | INeedsDecision | IFailed | ICancelled.

Inductive op_state :=
  | OPreparing | ORunning | OWaiting | ODone | OPartial | OFailed | OCancelled.

(** What the person can answer: the three name-clash choices and "confirm" for a widening. *)
Inductive choice := Replace | KeepBoth | Skip | Confirm.

Inductive entry_kind := EFile | EDir.

#[export] Instance op_kind_eq : EqDecision op_kind.
Proof. solve_decision. Defined.
#[export] Instance item_state_eq : EqDecision item_state.
Proof. solve_decision. Defined.
#[export] Instance op_state_eq : EqDecision op_state.
Proof. solve_decision. Defined.
#[export] Instance choice_eq : EqDecision choice.
Proof. solve_decision. Defined.
#[export] Instance entry_kind_eq : EqDecision entry_kind.
Proof. solve_decision. Defined.

(** [Decision]: a name clash with its allowed answers, or a widening of who can open a file. *)
Inductive decision :=
  | DExists (existingKind : entry_kind) (options : list choice)
  | DBroadens (message : jstr).

#[export] Instance decision_eq : EqDecision decision.
Proof. solve_decision. Defined.

(** The extra fields a job request carries after an answer. *)
Record job_extra := {
  ex_on_conflict_keep_both : bool;
  ex_confirm_broaden : bool;
}.
#[export] Instance eta_job_extra : Settable job_extra := fun r =>
  {| ex_on_conflict_keep_both := ex_on_conflict_keep_both r;
     ex_confirm_broaden := ex_confirm_broaden r |}.

(** References to heap objects: operations and items are shared by reference between the store's
    list, the runners' queues and the pending promises. *)
Abbreviation oref := positive.
Abbreviation iref := positive.

(** ** Items *)

(** An optional boolean field is [false] when absent: every reader tests truthiness.  [it_file]
    stands for the presence of the [File] object, [it_run] for the presence of the request thunk. *)
Record Item := {
  it_id : jstr;
  it_name : jstr;
  it_relPath : jstr;
  it_destPath : jstr;
  it_size : Z;
  it_received : Z;
  it_state : item_state;
  it_error : option jstr;
  it_retryable : bool;
  it_decision : option decision;
  it_isDir : bool;
  it_foldersMade : Z;
  it_offline : bool;
  it_retrying : bool;
  it_waitingForQueue : bool;
  it_conflict : option choice;
  it_finalName : option jstr;
  it_file : bool;
  it_uploadId : option jstr;
  it_jobId : option jstr;
  it_abort : option positive;
  it_completeOnly : bool;
  it_run : bool;
  it_extra : job_extra;
  it_confirmBroaden : bool;
}.
#[export] Instance eta_Item : Settable Item := fun r =>
  {| it_id := it_id r; it_name := it_name r; it_relPath := it_relPath r;
     it_destPath := it_destPath r; it_size := it_size r; it_received := it_received r;
     it_state := it_state r; it_error := it_error r; it_retryable := it_retryable r;
     it_decision := it_decision r; it_isDir := it_isDir r; it_foldersMade := it_foldersMade r;
     it_offline := it_offline r; it_retrying := it_retrying r;
     it_waitingForQueue := it_waitingForQueue r; it_conflict := it_conflict r;
     it_finalName := it_finalName r; it_file := it_file r; it_uploadId := it_uploadId r;
     it_jobId := it_jobId r; it_abort := it_abort r; it_completeOnly := it_completeOnly r;
     it_run := it_run r; it_extra := it_extra r; it_confirmBroaden := it_confirmBroaden r |}.

(** ** Operations *)

(** A [FileSource] is an interface; the store reads these facts of it. *)
Record file_source := {
  src_scope : jstr;            (* fileSourceScope: the share scope, "" for the drive source *)
  src_isFile : bool;           (* a single-file share link *)
  src_hasStat : bool;          (* typeof source.stat === "function" *)
  src_hasCompleteUpload : bool;
  src_hasCancelUpload : bool;
}.

Definition driveSource : file_source :=
  {| src_scope := []; src_isFile := false; src_hasStat := true;
     src_hasCompleteUpload := true; src_hasCancelUpload := true |}.

Record Op := {
  op_id : jstr;
  op_kind_of : op_kind;
  op_createdAt : Z;
  op_endedAt : option Z;
  op_source : file_source;
  op_driveId : jstr;
  op_destDriveId : jstr;
  op_destFolder : jstr;
  op_destLabel : jstr;
  op_title : jstr;
  op_state_of : op_state;
  op_walking : bool;
  op_bytesDone : Z;
  op_bytesTotal : Z;
  op_itemsDone : Z;
  op_itemsTotal : option Z;
  op_foldersDone : Z;
  op_policy : option choice;
  op_items : list iref;
  op_error : option jstr;
  op_successToast : option jstr;
  op_shown : bool;
  op_indeterminate : bool;
  op_rootFolder : bool;
  op_cancelled : bool;
}.
#[export] Instance eta_Op : Settable Op := fun r =>
  {| op_id := op_id r; op_kind_of := op_kind_of r; op_createdAt := op_createdAt r;
     op_endedAt := op_endedAt r; op_source := op_source r; op_driveId := op_driveId r;
     op_destDriveId := op_destDriveId r; op_destFolder := op_destFolder r;
     op_destLabel := op_destLabel r; op_title := op_title r; op_state_of := op_state_of r;
     op_walking := op_walking r; op_bytesDone := op_bytesDone r; op_bytesTotal := op_bytesTotal r;
     op_itemsDone := op_itemsDone r; op_itemsTotal := op_itemsTotal r;
     op_foldersDone := op_foldersDone r; op_policy := op_policy r; op_items := op_items r;
     op_error := op_error r; op_successToast := op_successToast r; op_shown := op_shown r;
     op_indeterminate := op_indeterminate r; op_rootFolder := op_rootFolder r;
     op_cancelled := op_cancelled r |}.

(** What a subscriber sees of an operation: the operation with its items copied. *)
Record op_view := { ov_op : Op; ov_items : list Item }.

(** ** Errors thrown by requests *)

(** An exception object, as far as the code reads it. *)
Record js_err := {
  e_name : jstr;
  e_isApiError : bool;
  e_status : option Z;                 (* typeof e.status === "number" *)
  e_code : option jstr;
  e_message : jstr;
  e_existing_kind : option entry_kind; (* e.data?.existing_kind, when "file" or "dir" *)
  e_completeOnly : bool;
  e_uploadId : option jstr;
}.

(** [new Error(message)] *)
Definition plain_error (m : jstr) : js_err :=
  {| e_name := js "Error"; e_isApiError := false; e_status := None; e_code := None;
     e_message := m; e_existing_kind := None; e_completeOnly := false; e_uploadId := None |}.

Record classified := {
  cl_message : jstr;
  cl_retryable : bool;
  cl_offline : bool;
  cl_aborted : bool;
  cl_queueFull : bool;
  cl_decision : option decision;
}.

(** ** Patches *)

(** One property of the object literal passed to [patchItem]; a patch lists them in order. *)
Inductive item_patch :=
  | PState (v : item_state) | PError (v : option jstr) | PRetryable (v : bool)
  | PDecision (v : option decision) | PSize (v : Z) | PReceived (v : Z) | PFoldersMade (v : Z)
  | POffline (v : bool) | PRetrying (v : bool) | PWaitingForQueue (v : bool)
  | PConflict (v : option choice) | PFinalName (v : option jstr) | PUploadId (v : option jstr)
  | PJobId (v : option jstr) | PAbort (v : option positive) | PCompleteOnly (v : bool)
  | PExtra (v : job_extra) | PConfirmBroaden (v : bool).

Definition apply_patch1 (p : item_patch) (i : Item) : Item :=
  match p with
  | PState v => i <| it_state := v |>
  | PError v => i <| it_error := v |>
  | PRetryable v => i <| it_retryable := v |>
  | PDecision v => i <| it_decision := v |>
  | PSize v => i <| it_size := v |>
  | PReceived v => i <| it_received := v |>
  | PFoldersMade v => i <| it_foldersMade := v |>
  | POffline v => i <| it_offline := v |>
  | PRetrying v => i <| it_retrying := v |>
  | PWaitingForQueue v => i <| it_waitingForQueue := v |>
  | PConflict v => i <| it_conflict := v |>
  | PFinalName v => i <| it_finalName := v |>
  | PUploadId v => i <| it_uploadId := v |>
  | PJobId v => i <| it_jobId := v |>
  | PAbort v => i <| it_abort := v |>
  | PCompleteOnly v => i <| it_completeOnly := v |>
  | PExtra v => i <| it_extra := v |>
  | PConfirmBroaden v => i <| it_confirmBroaden := v |>
  end.

Definition apply_patch (ps : list item_patch) (i : Item) : Item :=
  foldl (fun i p => apply_patch1 p i) i ps.

(** [patch.state], [None] when the literal has no such property. *)
Fixpoint patch_state (ps : list item_patch) : option item_state :=
  match ps with
  | [] => None
  | p :: ps =>
      match patch_state ps with
      | Some v => Some v
      | None => match p with PState v => Some v | _ => None end
      end
  end.

Lemma apply_patch_state (ps : list item_patch) (i : Item) :
  it_state (apply_patch ps i) = default (it_state i) (patch_state ps).
Proof.
  unfold apply_patch. revert i. induction ps as [|p ps IH]; intros i; simpl; [done|].
  rewrite IH. destruct (patch_state ps); [done|]. by destruct p.
Qed.

(** A patch never touches the identity, name, place or kind of an item. *)
Lemma apply_patch_fixed (ps : list item_patch) (i : Item) :
  it_id (apply_patch ps i) = it_id i /\ it_name (apply_patch ps i) = it_name i
  /\ it_relPath (apply_patch ps i) = it_relPath i /\ it_destPath (apply_patch ps i) = it_destPath i
  /\ it_isDir (apply_patch ps i) = it_isDir i /\ it_file (apply_patch ps i) = it_file i
  /\ it_run (apply_patch ps i) = it_run i.
Proof.
  unfold apply_patch. revert i. induction ps as [|p ps IH]; intros i; simpl; [done|].
  destruct (IH (apply_patch1 p i)) as (-> & -> & -> & -> & -> & -> & ->). by destruct p.
Qed.
