(* ===== verification/OpsCopy.v ===== *)
(** * File operations: the words of the card, [lib/fileOps/copy.js]

    Every user-facing string is a function of an operation view (the operation and copies of its
    items), so the functions are pure.  A sentence that names a file is a list of parts: text, or a
    pill that carries a name. *)

From S2P Require Import Prelude JsString Paths OpsTypes.

Inductive part := PText (t : jstr) | PPill (t : jstr).

#[export] Instance part_eq : EqDecision part.
Proof. solve_decision. Defined.

Definition part_text (p : part) : jstr := match p with PText t => t | PPill t => t end.
Definition plain (parts : list part) : jstr := concat (map part_text parts).
Definition pill (t : jstr) : part := PPill t.
Definition n_of (count : Z) (one many : jstr) : jstr := if count =? 1 then one else many.

(** Local shorthand: literal text, and a number inside a template. *)
#[local] Definition T (s : string) : part := PText (js s).
#[local] Definition Z2s (z : Z) : jstr := js_of_Z z.

(** ** Batch lines *)

Definition NAMES_SHOWN : nat := 3.

(** The names of a batch between its words: ["a"], ["a and b"], ["a, b and c"]. *)
Fixpoint name_parts (first : bool) (names : list jstr) : list part :=
  match names with
  | [] => []
  | [w] => (if first then [] else [T " and "]) ++ [pill w]
  | w :: names => (if first then [] else [T ", "]) ++ pill w :: name_parts false names
  end.

Definition batchLine (before after : jstr) (items : list Item) : list part :=
  let names := List.filter truthy (map it_name items) in
  let total := length items in
  if Nat.eqb total 0 then [PText (before ++ js "these items" ++ after)]
  else if Nat.eqb (length names) total && Nat.leb total NAMES_SHOWN then
    PText before :: name_parts true names ++ [PText after]
  else
    [PText (before ++ Z2s (Z.of_nat total) ++ js " "
            ++ n_of (Z.of_nat total) (js "item") (js "items") ++ after)].

(** ** Fixed words *)

Definition lbl_replace := js "Replace".
Definition lbl_keep_both := js "Keep both".
Definition lbl_skip := js "Skip".
Definition lbl_confirmMove := js "Move anyway".
Definition lbl_confirmCopy := js "Copy anyway".

Definition dockTitle_working := js "Working on your files".
Definition dockTitle_needsYou := js "Some files need you".
Definition dockTitle_done := js "Finished".
Definition dockTitle_stopped := js "Stopped".

Definition text_unreadable := js "Your browser couldn't read this file from your device.".
Definition text_waitingForQueue := js "Waiting for Luna to finish other copies…".
Definition text_starting := js "Starting…".
Definition text_singleFileLink := js "Choose one file to replace this file.".
Definition text_offline :=
  js "Couldn't reach Luna. Check this device's connection and try again.".

Definition folderBlocked (folder blocking : jstr) : jstr :=
  if bool_decide (folder = blocking)
  then js "couldn't be made: a file with that name is already there."
  else js "couldn't be made: a file named " ++ blocking ++ js " is already there.".

Definition failedText (kind : op_kind) : jstr :=
  match kind with
  | KUpload | KGallery => js "Luna couldn't upload this file. Try again."
  | KCopy => js "Luna couldn't copy this. Try again."
  | KMove => js "Luna couldn't move this. Try again."
  | KEmptyTrash => js "Luna couldn't empty the trash. Try again."
  | KPurge => js "Luna couldn't delete this permanently. Try again."
  | KRestoreBackup => js "Luna couldn't restore this from the backup. Try again."
  | KTrash => js "Luna couldn't move this to Trash. Try again."
  | KRestoreTrash => js "Luna couldn't put this back. Try again."
  | KZip => js "Luna couldn't get this folder ready. Try again."
  end.

Definition jobGone (kind : op_kind) : jstr :=
  if bool_decide (kind = KMove)
  then js "Luna has no record of this move any more. Check the destination folder to see if it finished."
  else js "Luna has no record of this copy any more. Check the destination folder to see if it finished.".

(** ** Dock header and summary *)

Record dock_counts := {
  dc_running : Z;
  dc_problems : Z;
  dc_finished : Z;
  dc_cancelled : Z;
  dc_finishedLabel : jstr;
  dc_pct : option num;
  dc_singleUpload : option Z;
}.

Definition dockHeaderTitle (s : dock_counts) : jstr :=
  if 0 <? dc_running s then dockTitle_working
  else if 0 <? dc_problems s then dockTitle_needsYou
  else if 0 <? dc_finished s then
    (if (0 <? dc_cancelled s) && (dc_cancelled s =? dc_finished s)
     then dockTitle_stopped else dockTitle_done)
  else dockTitle_working.

Record summary_parts := {
  sp_key : jstr;
  sp_lead : jstr;
  sp_count : option Z;
  sp_unit : jstr;
  sp_pct : option num;
  sp_need : Z;
}.

Definition dockSummaryParts (s : dock_counts) : summary_parts :=
  let need := dc_problems s in
  let mk key lead count unit pct :=
    {| sp_key := key; sp_lead := lead; sp_count := count; sp_unit := unit; sp_pct := pct;
       sp_need := need |} in
  if dc_running s =? 0 then
    if 0 <? dc_problems s then
      mk (js "need") [] (Some (dc_problems s))
        (js " " ++ n_of (dc_problems s) (js "needs") (js "need") ++ js " you") None
    else if truthy (dc_finishedLabel s) then
      mk (js "done:" ++ dc_finishedLabel s) (dc_finishedLabel s) None [] None
    else if 0 <? dc_finished s then
      mk (js "finished") [] (Some (dc_finished s)) (js " finished") None
    else mk (js "idle") [] None [] None
  else
    match dc_singleUpload s with
    | Some files =>
        mk (js "uploading") (js "Uploading ") (Some files)
          (js " " ++ n_of files (js "file") (js "files")) (dc_pct s)
    | None => mk (js "running") [] (Some (dc_running s)) (js " running") (dc_pct s)
    end.

Definition dockSummary (s : dock_counts) : jstr :=
  let pct := match dc_pct s with
             | None => []
             | Some p => js " · " ++ Z2s (math_round p) ++ js "%"
             end in
  let need := if 0 <? dc_problems s then js " · " ++ Z2s (dc_problems s) ++ js " need you" else [] in
  if dc_running s =? 0 then
    if 0 <? dc_problems s then
      Z2s (dc_problems s) ++ js " " ++ n_of (dc_problems s) (js "needs") (js "need") ++ js " you"
    else if truthy (dc_finishedLabel s) then dc_finishedLabel s
    else if 0 <? dc_finished s then Z2s (dc_finished s) ++ js " finished"
    else []
  else
    match dc_singleUpload s with
    | Some files =>
        js "Uploading " ++ Z2s files ++ js " " ++ n_of files (js "file") (js "files") ++ pct ++ need
    | None => Z2s (dc_running s) ++ js " running" ++ pct ++ need
    end.

(** ** Status line *)

(** [op.itemsTotal ?? op.items?.length ?? 0] *)
Definition total_or_length (v : op_view) : Z :=
  default (Z.of_nat (length (ov_items v))) (op_itemsTotal (ov_op v)).

Definition is_running_state (s : op_state) : bool :=
  match s with OPreparing | ORunning | OWaiting => true | _ => false end.

Definition opStatus_upload (v : op_view) : list part :=
  let op := ov_op v in
  let state := op_state_of op in
  let total := total_or_length v in
  let done := op_itemsDone op in
  let name := op_title op in
  let folder := op_destLabel op in
  let running := is_running_state state in
  let partial := bool_decide (state = OPartial) in
  let is_done := bool_decide (state = ODone) in
  let folders := op_foldersDone op in
  let foldersFailed :=
    Z.of_nat (length (List.filter
      (fun i => it_isDir i && bool_decide (it_state i = IFailed)) (ov_items v))) in
  if is_done && (total =? 0) && (0 <? folders) then
    [PText (js "Made " ++ Z2s folders ++ js " " ++ n_of folders (js "folder") (js "folders")
            ++ js " in "); pill folder]
  else if partial && (0 <? foldersFailed) && (done =? total) then
    [PText (js "Uploaded " ++ Z2s done ++ js " " ++ n_of done (js "file") (js "files") ++ js " in ");
     pill (if op_rootFolder op && truthy name then name else folder);
     PText (js "; " ++ Z2s foldersFailed ++ js " "
            ++ n_of foldersFailed (js "folder") (js "folders") ++ js " couldn't be made")]
  else if truthy (default [] (op_error op)) && (total =? 0) then
    [T "Couldn't replace "; pill (str_or name folder)]
  else if truthy name && (op_rootFolder op || (total <=? 1)) then
    if running then [T "Uploading "; pill name]
    else if is_done then [T "Uploaded "; pill name]
    else if partial then
      (if op_rootFolder op
       then [PText (js "Uploaded " ++ Z2s done ++ js " of " ++ Z2s total ++ js " files in "); pill name]
       else [T "Uploaded "; pill name])
    else [T "Couldn't upload "; pill name]
  else if running then [PText (js "Uploading " ++ Z2s total ++ js " files to "); pill folder]
  else if is_done then [PText (js "Uploaded " ++ Z2s total ++ js " files to "); pill folder]
  else if partial then
    [PText (js "Uploaded " ++ Z2s done ++ js " of " ++ Z2s total ++ js " files to "); pill folder]
  else [PText (js "Couldn't upload " ++ Z2s total ++ js " files to "); pill folder].

Definition opStatus_job (v : op_view) (isCopy : bool) : list part :=
  let op := ov_op v in
  let state := op_state_of op in
  let total := total_or_length v in
  let done := op_itemsDone op in
  let name := op_title op in
  let folder := op_destLabel op in
  let verbing := if isCopy then js "Copying" else js "Moving" in
  let past := if isCopy then js "Copied" else js "Moved" in
  let base := if isCopy then js "copy" else js "move" in
  let subject := if truthy name && (total <=? 1) then [pill name]
                 else [PText (Z2s total ++ js " items")] in
  if is_running_state state then
    PText (verbing ++ js " ") :: subject ++ [T " to "; pill folder]
  else if bool_decide (state = ODone) then
    PText (past ++ js " ") :: subject ++ [T " to "; pill folder]
  else if bool_decide (state = OPartial) then
    [PText (past ++ js " " ++ Z2s done ++ js " of " ++ Z2s total ++ js " items to "); pill folder]
  else PText (js "Couldn't " ++ base ++ js " ") :: subject ++ [T " to "; pill folder].

Definition opStatus (v : op_view) : list part :=
  let op := ov_op v in
  let state := op_state_of op in
  let total := total_or_length v in
  let done := op_itemsDone op in
  let name := op_title op in
  let folder := op_destLabel op in
  let running := is_running_state state in
  let partial := bool_decide (state = OPartial) in
  let is_done := bool_decide (state = ODone) in
  if bool_decide (state = OCancelled) then [T "Cancelled"]
  else
    match op_kind_of op with
    | KUpload | KGallery => opStatus_upload v
    | KCopy => opStatus_job v true
    | KMove => opStatus_job v false
    | KTrash =>
        if running then batchLine (js "Moving ") (js " to Trash") (ov_items v)
        else if is_done then batchLine (js "Moved ") (js " to Trash") (ov_items v)
        else if partial then
          [PText (js "Moved " ++ Z2s done ++ js " of " ++ Z2s total ++ js " items to Trash")]
        else [PText (js "Couldn't move " ++ Z2s total ++ js " items to Trash")]
    | KRestoreTrash =>
        if running then batchLine (js "Putting back ") [] (ov_items v)
        else if is_done then batchLine (js "Put back ") [] (ov_items v)
        else if partial then
          [PText (js "Put back " ++ Z2s done ++ js " of " ++ Z2s total ++ js " items")]
        else [PText (js "Couldn't put back " ++ Z2s total ++ js " items")]
    | KPurge =>
        if running then
          (if (1 <? total) || negb (truthy name)
           then batchLine (js "Deleting ") (js " permanently") (ov_items v)
           else [T "Deleting "; pill name; T " permanently"])
        else if is_done then
          (if 1 <? total then batchLine (js "Deleted ") (js " permanently") (ov_items v)
           else [T "Deleted permanently"])
        else if partial then
          [PText (js "Deleted " ++ Z2s done ++ js " of " ++ Z2s total ++ js " items permanently")]
        else [T "Couldn't delete permanently"]
    | KEmptyTrash =>
        if running then [T "Emptying Trash on "; pill (str_or folder name)]
        else if is_done then [T "Trash emptied"]
        else [T "Couldn't empty the trash"]
    | KRestoreBackup =>
        if running then [T "Restoring "; pill name; T " from a backup"]
        else if is_done then [T "Restored as "; pill name]
        else [T "Couldn't restore "; pill name]
    | KZip =>
        if running then [T "Getting "; pill (name ++ js ".zip"); T " ready"]
        else if is_done then [T "Download started"]
        else [T "Couldn't get "; pill (name ++ js ".zip"); T " ready"]
    end.

(** ** Meta line *)

(** A size split for the odometer: the number, its decimals and its unit. *)
Record size_part := { sz_size : num; sz_decimals : nat; sz_unit : jstr }.

Definition sizePart (bytes : Z) : size_part :=
  if bytes <? 1000 then {| sz_size := num_of_Z bytes; sz_decimals := 0; sz_unit := js " B" |}
  else if bytes <? 1000 * 1000 then
    {| sz_size := per_thousand (num_of_Z bytes); sz_decimals := 1; sz_unit := js " KB" |}
  else if bytes <? 1000 * 1000 * 1000 then
    {| sz_size := per_thousand (per_thousand (num_of_Z bytes)); sz_decimals := 1;
       sz_unit := js " MB" |}
  else
    {| sz_size := per_thousand (per_thousand (per_thousand (num_of_Z bytes))); sz_decimals := 1;
       sz_unit := js " GB" |}.

(** [Math.round(Math.min(100, (done / total) * 100))] *)
Definition percent (done total : Z) : num :=
  num_min (num_of_Z 100) (num_mul (num_div (num_of_Z done) (num_of_Z total)) (num_of_Z 100)).

Inductive meta_part := MText (t : jstr) | MNumber (n : Z) (suffix : jstr) | MSize (s : size_part).

Definition batch_progress (op : Op) (batchTotal : Z) : bool :=
  (1 <? batchTotal)
  && match op_state_of op with ORunning | OPreparing | OPartial => true | _ => false end.

Definition opMeta (v : op_view) : jstr :=
  let op := ov_op v in
  let files := default 0 (op_itemsTotal op) in
  match op_kind_of op with
  | KUpload | KGallery =>
      if op_walking op then js "Counting files… " ++ Z2s files ++ js " found"
      else if (files =? 0) && (op_bytesTotal op =? 0) then
        let folders := op_foldersDone op in
        if 0 <? folders then
          Z2s folders ++ js " " ++ n_of folders (js "folder") (js "folders") ++ js " made"
        else []
      else
        Z2s (op_itemsDone op) ++ js " of " ++ Z2s files ++ js " files · "
        ++ fmtSize (op_bytesDone op) ++ js " of " ++ fmtSize (op_bytesTotal op)
  | KCopy | KMove =>
      if existsb it_waitingForQueue (ov_items v) then text_waitingForQueue
      else if op_bytesTotal op =? 0 then text_starting
      else
        Z2s (math_round (percent (op_bytesDone op) (op_bytesTotal op))) ++ js "% · "
        ++ fmtSize (op_bytesDone op) ++ js " of " ++ fmtSize (op_bytesTotal op)
  | _ =>
      let batchTotal := total_or_length v in
      if batch_progress op batchTotal then
        Z2s (op_itemsDone op) ++ js " of " ++ Z2s batchTotal ++ js " done"
      else []
  end.

Definition opMetaParts (v : op_view) : list meta_part :=
  let op := ov_op v in
  let files := default 0 (op_itemsTotal op) in
  match op_kind_of op with
  | KUpload | KGallery =>
      if op_walking op then [MText (js "Counting files… "); MNumber files []; MText (js " found")]
      else if (files =? 0) && (op_bytesTotal op =? 0) then
        let folders := op_foldersDone op in
        if 0 <? folders then
          [MNumber folders []; MText (js " " ++ n_of folders (js "folder") (js "folders") ++ js " made")]
        else []
      else
        [MNumber (op_itemsDone op) []; MText (js " of "); MNumber files []; MText (js " files · ");
         MSize (sizePart (op_bytesDone op)); MText (js " of "); MSize (sizePart (op_bytesTotal op))]
  | KCopy | KMove =>
      if existsb it_waitingForQueue (ov_items v) then [MText text_waitingForQueue]
      else if op_bytesTotal op =? 0 then [MText text_starting]
      else
        [MNumber (math_round (percent (op_bytesDone op) (op_bytesTotal op))) (js "%");
         MText (js " · "); MSize (sizePart (op_bytesDone op)); MText (js " of ");
         MSize (sizePart (op_bytesTotal op))]
  | _ =>
      let batchTotal := total_or_length v in
      if batch_progress op batchTotal then
        [MNumber (op_itemsDone op) []; MText (js " of "); MNumber batchTotal []; MText (js " done")]
      else []
  end.

(** ** Items and decisions *)

Definition itemPercent (item : Item) : Z :=
  if it_size item =? 0 then 0 else math_round (percent (it_received item) (it_size item)).

Definition splitName (name : jstr) : jstr * jstr :=
  match last_index_of c_dot name with
  | Some (S d) => (slice 0 (S d) name, slice_from (S d) name)
  | _ => (name, [])
  end.

Definition decisionText (op : Op) (item : Item) : list part :=
  match it_decision item with
  | None => []
  | Some (DBroadens m) => [PText m]
  | Some (DExists k _) =>
      let what := match k with EDir => js "folder" | EFile => js "file" end in
      [PText (js "A " ++ what ++ js " named "); pill (it_name item); T " is already in ";
       pill (op_destLabel op); T "."]
  end.

Record button := { bt_choice : choice; bt_label : jstr; bt_hint : option jstr }.

Definition decisionButtons (op : Op) (item : Item) : list button :=
  let isJob := match op_kind_of op with KCopy | KMove => true | _ => false end in
  match it_decision item with
  | None => []
  | Some (DBroadens _) =>
      [{| bt_choice := Confirm;
          bt_label := if bool_decide (op_kind_of op = KCopy) then lbl_confirmCopy else lbl_confirmMove;
          bt_hint := None |};
       {| bt_choice := Skip; bt_label := lbl_skip; bt_hint := None |}]
  | Some (DExists k options) =>
      let '(stem, ext) := splitName (it_name item) in
      map (fun c =>
        match c with
        | Replace =>
            {| bt_choice := c; bt_label := lbl_replace;
               bt_hint := Some (if isJob then js "The file that's there now goes to Trash."
                                else js "The file that's there now is overwritten.") |}
        | KeepBoth =>
            {| bt_choice := c; bt_label := lbl_keep_both;
               bt_hint := Some (match k with
                                | EDir => if isJob then js "Luna doesn't merge folders."
                                          else js "Luna can't replace a folder with a file."
                                | EFile => js "The new one gets a number added, like "
                                           ++ stem ++ js " (1)" ++ ext ++ js "."
                                end) |}
        | _ => {| bt_choice := c; bt_label := lbl_skip; bt_hint := None |}
        end) options
  end.

Definition moreProblems (count : Z) : jstr :=
  Z2s count ++ js " more " ++ n_of count (js "problem") (js "problems").

Definition problemsTitle (kind : op_kind) : jstr :=
  match kind with
  | KUpload | KGallery => js "Problems with this upload"
  | KCopy => js "Problems with this copy"
  | KMove => js "Problems with this move"
  | _ => js "Problems with this task"
  end.

(** ** What just finished *)

Definition finishedText (op : Op) : jstr :=
  let done := op_itemsDone op in
  let total := default 0 (op_itemsTotal op) in
  let folders := op_foldersDone op in
  let made := Z2s folders ++ js " " ++ n_of folders (js "folder") (js "folders") ++ js " made" in
  match op_kind_of op with
  | KUpload =>
      if (done =? 0) && (0 <? folders) then made
      else Z2s done ++ js " " ++ n_of done (js "file") (js "files") ++ js " uploaded"
  | KGallery =>
      if (done =? 0) && (0 <? folders) then made
      else Z2s done ++ js " " ++ n_of done (js "photo") (js "photos") ++ js " uploaded"
  | KCopy =>
      if (total =? 1) && truthy (op_title op) then js "Copied " ++ op_title op
      else Z2s done ++ js " items copied"
  | KMove =>
      if (total =? 1) && truthy (op_title op) then js "Moved " ++ op_title op
      else Z2s done ++ js " items moved"
  | KTrash => if total =? 1 then js "Moved to Trash" else Z2s done ++ js " items moved to Trash"
  | KRestoreTrash => if total =? 1 then js "Put back" else Z2s done ++ js " items put back"
  | KPurge =>
      if total =? 1 then js "Deleted permanently" else Z2s done ++ js " items deleted permanently"
  | KEmptyTrash => js "Trash emptied"
  | KRestoreBackup => js "Restored " ++ str_or (op_title op) (js "the backup")
  | KZip => str_or (op_title op) (js "The folder") ++ js ".zip ready"
  end.

Definition successToast (op : Op) (done : Z) : option jstr :=
  let name := op_title op in
  let dest := op_destLabel op in
  if done <=? 0 then
    let folders := op_foldersDone op in
    if (0 <? folders) && match op_kind_of op with KUpload | KGallery => true | _ => false end
       && negb (bool_decide (op_state_of op = OFailed))
    then Some (js "Made " ++ Z2s folders ++ js " " ++ n_of folders (js "folder") (js "folders")
               ++ js ".")
    else None
  else
    match op_kind_of op with
    | KUpload => Some (Z2s done ++ js " " ++ n_of done (js "file") (js "files") ++ js " uploaded.")
    | KGallery => Some (Z2s done ++ js " " ++ n_of done (js "photo") (js "photos") ++ js " uploaded.")
    | KCopy =>
        Some (if (done =? 1) && truthy name then js "Copied " ++ name ++ js " to " ++ dest ++ js "."
              else js "Copied " ++ Z2s done ++ js " items to " ++ dest ++ js ".")
    | KMove =>
        Some (if (done =? 1) && truthy name then js "Moved " ++ name ++ js " to " ++ dest ++ js "."
              else js "Moved " ++ Z2s done ++ js " items to " ++ dest ++ js ".")
    | KTrash =>
        Some (if done =? 1 then js "Moved to Trash."
              else js "Moved " ++ Z2s done ++ js " items to Trash.")
    | KRestoreTrash =>
        Some (if done =? 1 then js "Restored." else js "Restored " ++ Z2s done ++ js " items.")
    | KPurge =>
        Some (if done =? 1 then js "Deleted permanently."
              else js "Deleted " ++ Z2s done ++ js " items permanently.")
    | KEmptyTrash => Some (js "Trash emptied.")
    | KRestoreBackup => Some (js "Restored as " ++ name ++ js ".")
    | KZip => op_successToast op
    end.
