(* ===== verification/OpsErrors.v ===== *)
(** * File operations: [lib/fileOps/errors.js] and [apiErrorMessage] of [lib/api.js]

    What a thrown value becomes: words to show, whether "Try again" makes sense, and, for a name
    clash or a widening of access, the decision the person has to make. *)

From S2P Require Import Prelude JsString OpsTypes OpsCopy.

(** ** Definitions *)

Definition RETRYABLE_STATUS : list Z := [0; 401; 408; 429; 502; 503; 504].

(** [/networkerror|failed to fetch|…/i.test(raw)] *)
Definition isNetworkFailureMessage (raw : jstr) : bool :=
  existsb (fun w => includes (js w) (to_lower raw))
    ["networkerror"; "failed to fetch"; "load failed"; "network request failed"; "fetch failed";
     "aborted"; "econnrefused"; "econnreset"]%string.

(** [raw.replace(/^Error:\s*/i, "")] *)
Definition strip_error_prefix (raw : jstr) : jstr :=
  if starts_with (js "error:") (to_lower raw) then trim_start (slice_from 6 raw) else raw.

Definition apiErrorMessage (err : option js_err) (fallback : jstr) : jstr :=
  match err with
  | None => fallback
  | Some e =>
      if e_isApiError e && truthy (e_message e) then
        if bool_decide (e_status e = Some 0) || isNetworkFailureMessage (e_message e)
        then text_offline
        else e_message e
      else
        let raw := strip_error_prefix (e_message e) in
        if isNetworkFailureMessage raw then text_offline else str_or raw fallback
  end.

Definition isAbort (err : option js_err) : bool :=
  match err with
  | Some e => bool_decide (e_name e = js "AbortError")
  | None => false
  end.

Definition existsDecision (existingKind : entry_kind) (sameFolder : bool) : decision :=
  let canReplace := bool_decide (existingKind = EFile) && negb sameFolder in
  DExists existingKind (if canReplace then [Replace; KeepBoth; Skip] else [KeepBoth; Skip]).

(** [ctx.existingKind] and [ctx.sameFolder] *)
Record classify_ctx := { ctx_existingKind : option entry_kind; ctx_sameFolder : bool }.
Definition no_ctx : classify_ctx := {| ctx_existingKind := None; ctx_sameFolder := false |}.

Definition classifyError (err : option js_err) (kind : op_kind) (ctx : classify_ctx) : classified :=
  let mk message retryable offline aborted queueFull d :=
    {| cl_message := message; cl_retryable := retryable; cl_offline := offline;
       cl_aborted := aborted; cl_queueFull := queueFull; cl_decision := d |} in
  if isAbort err then mk [] false false true false None
  else
    let status := e ← err; e_status e in
    let code := e ← err; e_code e in
    let message := apiErrorMessage err (failedText kind) in
    if bool_decide (status = Some 503) && bool_decide (code = Some (js "queue_full")) then
      mk message true false false true None
    else if bool_decide (status = Some 409) && bool_decide (code = Some (js "broadens_access")) then
      mk message false false false false (Some (DBroadens message))
    else if bool_decide (status = Some 409) && bool_decide (code = Some (js "exists")) then
      let existingKind :=
        match (e ← err; e_existing_kind e) with
        | Some k => k
        | None => default EFile (ctx_existingKind ctx)
        end in
      mk message false false false false (Some (existsDecision existingKind (ctx_sameFolder ctx)))
    else
      let offline := bool_decide (status = Some 0) in
      mk (if offline then text_offline else message)
        (match status with Some st => bool_decide (st ∈ RETRYABLE_STATUS) | None => false end)
        offline false false None.

(** ** Properties *)

(** The answers a decision allows: a widening takes "confirm" or "skip", a name clash its options. *)
Definition decision_allows (d : decision) (c : choice) : Prop :=
  match d with
  | DExists _ options => c ∈ options
  | DBroadens _ => c = Confirm \/ c = Skip
  end.

(** "Replace" is offered exactly for a file, outside the item's own folder. *)
Lemma existsDecision_replace (k : entry_kind) (same : bool) :
  decision_allows (existsDecision k same) Replace <-> k = EFile /\ same = false.
Proof. unfold existsDecision. destruct k, same; simpl; set_solver. Qed.

Lemma existsDecision_skip (k : entry_kind) (same : bool) :
  decision_allows (existsDecision k same) Skip /\ decision_allows (existsDecision k same) KeepBoth.
Proof. unfold existsDecision. destruct k, same; simpl; set_solver. Qed.

Lemma apiErrorMessage_nonempty (err : option js_err) (fallback : jstr) :
  fallback <> [] -> apiErrorMessage err fallback <> [].
Proof.
  intros Hf. unfold apiErrorMessage. destruct err as [e|]; [|done].
  destruct (e_isApiError e && truthy (e_message e)) eqn:E.
  - apply andb_true_iff in E as [_ Ht%truthy_spec].
    by destruct (_ || _).
  - destruct (isNetworkFailureMessage _); [done|]. unfold str_or.
    destruct (truthy (strip_error_prefix _)) eqn:Ht; [by apply truthy_spec in Ht|done].
Qed.

Lemma failedText_nonempty (k : op_kind) : failedText k <> [].
Proof. by destruct k. Qed.
#[export] Hint Resolve failedText_nonempty apiErrorMessage_nonempty : luna.

(** The four outcomes of a classification, as one case analysis: aborted, queue full, a decision,
    or a plain failure. *)
Lemma classifyError_cases (err : option js_err) (kind : op_kind) (ctx : classify_ctx) :
  let c := classifyError err kind ctx in
  (cl_aborted c = true /\ isAbort err = true /\ cl_decision c = None /\ cl_queueFull c = false)
  \/ (cl_aborted c = false /\ cl_message c <> [] /\
      ((cl_queueFull c = true /\ cl_decision c = None /\ cl_retryable c = true)
       \/ (exists d, cl_decision c = Some d /\ cl_queueFull c = false /\ cl_retryable c = false)
       \/ (cl_decision c = None /\ cl_queueFull c = false))).
Proof.
  assert (apiErrorMessage err (failedText kind) <> []) as Hm by eauto with luna.
  unfold classifyError. destruct (isAbort err) eqn:Ha; [by left|]. right.
  destruct (bool_decide (_ = Some 503) && _); [naive_solver|].
  destruct (bool_decide (_ = Some 409) && bool_decide (_ = Some (js "broadens_access")));
    [naive_solver|].
  destruct (bool_decide (_ = Some 409) && _); [naive_solver|].
  split; [done|]. split; [|naive_solver]. cbn [cl_message].
  by destruct (bool_decide (_ = Some 0)).
Qed.
