(* ===== verification/Api.v ===== *)
(** * Requests to Luna: [luna/web/src/lib/api.js]

    What each helper sends and what becomes of the answer.  The browser's part - a request's outcome, the cookies, the
    time - is an argument; [apiErrorMessage] is in [OpsErrors]. *)

From S2P Require Import Prelude JsString Bytes Utf8 JsonTree JsonParse OpsTypes OpsCopy OpsErrors.

(** ** Definitions *)

(** *** Headers *)

Abbreviation headers := (list (jstr * jstr)).
Definition header_of (key : string) (h : headers) : option jstr := snd <$> List.find (fun f => bool_decide (f.1 = js key)) h.

(** [{ ...first, ...second }] *)
Definition spread (first second : headers) : headers := foldl (fun h f => set_field_last f.1 f.2 h) first second.

(** [document.cookie]; [None] without a document. *)
Definition readCookie (cookie : option jstr) (name : jstr) : jstr :=
  match cookie with
  | None => []
  | Some cookie =>
      let prefix := name ++ js "=" in
      default [] (slice_from (length prefix) <$> List.find (starts_with prefix) (map trim (split_on 59 cookie)))
  end.

Definition upper_char (c : N) : N := if ((97 <=? c) && (c <=? 122))%N then (c - 32)%N else c.
(** [toUpperCase] of a method name, which is ASCII. *)
Definition to_upper (s : jstr) : jstr := map upper_char s.

Definition withCsrfHeaders (cookie : option jstr) (method : jstr) (h : headers) : headers :=
  let upper := to_upper (str_or method (js "GET")) in
  if negb (bool_decide (upper = js "GET")) && negb (bool_decide (upper = js "HEAD")) then
    let csrf := readCookie cookie (js "luna_csrf") in
    if truthy csrf then set_field_last (js "X-CSRF-Token") csrf h else h
  else h.

(** *** The page *)

(** A body: text the helpers wrote, or a form, a blob or bytes handed through. *)
Inductive payload := PText (text : jstr) | PRaw.
Record options := { op_method : option jstr; op_headers : headers; op_body : option payload }.
#[global] Instance options_settable : Settable options := fun o => {| op_method := op_method o; op_headers := op_headers o; op_body := op_body o |}.
Definition plain : options := {| op_method := None; op_headers := []; op_body := None |}.

(** What leaves the page, with [credentials: "include"] or [withCredentials]. *)
Record sent := { se_path : jstr; se_method : jstr; se_headers : headers; se_body : option payload; se_credentials : bool }.

(** [lastUnauthorizedAt], the times of [UNAUTHORIZED_EVENT], and what was sent. *)
Record page := { pa_lastUnauthorizedAt : Z; pa_events : list Z; pa_sent : list sent }.
#[global] Instance page_settable : Settable page := fun p =>
  {| pa_lastUnauthorizedAt := pa_lastUnauthorizedAt p; pa_events := pa_events p; pa_sent := pa_sent p |}.

Definition UNAUTHORIZED_COALESCE_MS : Z := 2000.

Definition notifyUnauthorized (path : jstr) (now : Z) (p : page) : page :=
  if starts_with (js "/api/v1/auth/") path then p
  else if now - pa_lastUnauthorizedAt p <? UNAUTHORIZED_COALESCE_MS then p
  else p <| pa_lastUnauthorizedAt := now |> <| pa_events ::= fun l => l ++ [now] |>.

(** An answer: its status, and its body as text unless reading it fails. *)
Record response := { rs_status : Z; rs_text : jstr + js_err }.
Definition res_ok (r : response) : bool := (200 <=? rs_status r) && (rs_status r <? 300).

Record api_error := { ae_status : Z; ae_message : jstr; ae_code : option jstr; ae_data : value }.
Inductive failure := ApiError (e : api_error) | Thrown (e : js_err).

Definition OFFLINE : jstr := js "Couldn't reach Luna. Check this device's connection and try again.".
Definition UNREADABLE : jstr := js "Luna answered, but this page could not show the result. Refresh and try again.".
Definition status_words (status : Z) : jstr := js "Request failed (" ++ js_of_Z status ++ js ")".

(** [new ApiError(status, message, code, data)] for a message that is a string *)
Definition api_error_of (status : Z) (message : jstr) (code : option jstr) (data : value) : failure :=
  ApiError {| ae_status := status; ae_message := str_or message (status_words status); ae_code := code; ae_data := data |}.

Section Requests.
Context `{JsText}.
(** The cookies, the time, and what becomes of the request that is sent. *)
Context (cookie : option jstr) (now : Z) (outcome : response + js_err).

Definition apiFetch (path : jstr) (o : options) (p : page) : (response + failure) * page :=
  let method := to_upper (str_or (default [] (op_method o)) (js "GET")) in
  let h := withCsrfHeaders cookie method (op_headers o) in
  let p := p <| pa_sent ::= fun l => l ++ [{| se_path := path; se_method := str_or (default [] (op_method o)) (js "GET"); se_headers := h;
                                              se_body := op_body o; se_credentials := true |}] |> in
  match outcome with
  | inr err => (inr (api_error_of 0 (apiErrorMessage (Some err) OFFLINE) None None), p)
  | inl res => (inl res, if rs_status res =? 401 then notifyUnauthorized path now p else p)
  end.

(** [typeof data.code === "string" && data.code] *)
Definition code_of (data : value) : option jstr :=
  match opt_prop "code" data with Some (JStr (_ :: _ as code)) => Some code | _ => None end.

(** The error of an answer that is no success; the message is what [data.error] says, as a string. *)
Definition answer_error (status : Z) (data : value) : failure :=
  match truthy_value (opt_prop "error" data), to_string (opt_prop "error" data) with
  | false, _ => api_error_of status [] (code_of data) data
  | true, Ok message => api_error_of status message (code_of data) data
  | true, Err _ => Thrown (plain_error (js "TypeError"))
  end.

(** The body of a success: nothing stands for [{}]. *)
Definition read_success (status : Z) (text : jstr) : json + failure :=
  if negb (truthy text) then inl (JObj [])
  else match parse_json text with Some v => inl v | None => inr (api_error_of status UNREADABLE None None) end.

Definition request (path : jstr) (o : options) (p : page) : (json + failure) * page :=
  match apiFetch path (o <| op_headers := spread [(js "Accept", js "application/json")] (op_headers o) |>) p with
  | (inr e, p) => (inr e, p)
  | (inl res, p) =>
      (if negb (res_ok res) then
         inr (match rs_text res with
              | inl text => answer_error (rs_status res) (parse_json text)
              | inr _ => answer_error (rs_status res) None
              end)
       else match rs_text res with
            | inr err => inr (Thrown err)
            | inl text => read_success (rs_status res) text
            end, p)
  end.

(** *** The helpers *)

Definition getJson (path : jstr) (o : options) (p : page) : (json + failure) * page := request path o p.

Definition getJsonAllowErrorStatus (path : jstr) (o : options) (p : page) : (json + failure) * page :=
  match apiFetch path (o <| op_headers := spread [(js "Accept", js "application/json")] (op_headers o) |>) p with
  | (inr e, p) => (inr e, p)
  | (inl res, p) =>
      (match rs_text res with
       | inr err => inr (Thrown err)
       | inl [] => if negb (res_ok res) then inr (api_error_of (rs_status res) (status_words (rs_status res)) None None) else inl (JObj [])
       | inl text => read_success (rs_status res) text
       end, p)
  end.

Definition json_body (method : string) (body : json) (o : options) : options :=
  {| op_method := Some (js method); op_headers := spread [(js "Content-Type", js "application/json")] (op_headers o);
     op_body := Some (PText (json_text body)) |}.

Definition postJson (path : jstr) (body : json) (o : options) : page -> (json + failure) * page := request path (json_body "POST" body o).
Definition patchJson (path : jstr) (body : json) (o : options) : page -> (json + failure) * page := request path (json_body "PATCH" body o).
Definition putJson (path : jstr) (body : json) (o : options) : page -> (json + failure) * page := request path (json_body "PUT" body o).
Definition postForm (path : jstr) (o : options) : page -> (json + failure) * page :=
  request path (o <| op_method := Some (js "POST") |> <| op_body := Some PRaw |>).
Definition putBinary (path : jstr) (o : options) : page -> (json + failure) * page :=
  request path (o <| op_method := Some (js "PUT") |> <| op_body := Some PRaw |>).
Definition deleteJson (path : jstr) (o : options) : page -> (json + failure) * page := request path (o <| op_method := Some (js "DELETE") |>).

Definition getDrives : page -> (json + failure) * page := getJson (js "/api/v1/drives") plain.
Definition getRecents : page -> (json + failure) * page := getJson (js "/api/v1/me/recents") plain.

(** A key without a value is left out of the text. *)
Definition recordRecent (kind path : option jstr) (driveId : jstr) : page -> (json + failure) * page :=
  let text k v := match v with Some s => [(js k, JStr s)] | None => [] end in
  postJson (js "/api/v1/me/recents") (JObj (text "kind" kind ++ [(js "driveId", JStr driveId)] ++ text "path" path)) plain.
End Requests.

(** *** Requests with progress *)

(** How an [XMLHttpRequest] ends. *)
Inductive xhr_end := XLoad (status : Z) (responseText : jstr) | XError | XAbort.

Definition AbortError : js_err :=
  {| e_name := js "AbortError"; e_isApiError := false; e_status := None; e_code := None; e_message := js "Aborted"; e_existing_kind := None;
     e_completeOnly := false; e_uploadId := None |}.

Section Xhr.
Context `{JsText}.
Context (cookie : option jstr) (now : Z) (ended : xhr_end).

(** [onload], [onerror] and [onabort], the same in both helpers. *)
Definition xhr_settled (path : jstr) (p : page) : (json + failure) * page :=
  match ended with
  | XLoad status text =>
      (if (200 <=? status) && (status <? 300) then read_success status text else inr (answer_error status (parse_json (str_or text (js "{}")))),
       if status =? 401 then notifyUnauthorized path now p else p)
  | XError => (inr (api_error_of 0 OFFLINE None None), p)
  | XAbort => (inr (Thrown AbortError), p)
  end.

Definition xhr_sent (method : string) (path : jstr) (h : headers) (p : page) : page :=
  p <| pa_sent ::= fun l => l ++ [{| se_path := path; se_method := js method; se_headers := h; se_body := Some PRaw; se_credentials := true |}] |>.

(** [signal_aborted]: the caller's signal was aborted before. *)
Definition putBinaryProgress (path : jstr) (o : options) (signal_aborted : bool) (p : page) : (json + failure) * page :=
  let h := withCsrfHeaders cookie (js "PUT") (spread [(js "Accept", js "application/json")] (op_headers o)) in
  if signal_aborted then (inr (Thrown AbortError), p)
  else xhr_settled path (xhr_sent "PUT" path (List.filter (fun f => truthy f.2) h) p).

Definition postFormProgress (path : jstr) (signal_aborted : bool) (p : page) : (json + failure) * page :=
  let h := withCsrfHeaders cookie (js "POST") [(js "Accept", js "application/json")] in
  if signal_aborted then (inr (Thrown AbortError), p)
  else xhr_settled path (xhr_sent "POST" path (List.filter (fun f => truthy f.2) h) p).

(** What [onProgress] is told: [known] is the body's size where the helper can tell, [total] the event's where it is computable. *)
Definition progress_of (known loaded : Z) (total : option Z) : Z * Z :=
  let total := default known total in (loaded, if total =? 0 then loaded else total).
End Xhr.

(** ** Facts *)

Lemma header_set (key : string) (k v : jstr) (h : headers) :
  header_of key (set_field_last k v h) = if bool_decide (k = js key) then Some v else header_of key h.
Proof.
  unfold header_of. induction h as [|[k' v'] h IH]; cbn [set_field_last List.find fst].
  - by destruct (bool_decide (k = js key)).
  - destruct (bool_decide_reflect (k' = k)) as [->|Hk]; cbn [List.find fst].
    + by destruct (bool_decide (k = js key)).
    + destruct (bool_decide_reflect (k' = js key)) as [->|Hk']; [|done]. by rewrite bool_decide_false.
Qed.

Lemma header_filtered (key : string) (h : headers) (v : jstr) : header_of key h = Some v -> v <> [] ->
  header_of key (List.filter (fun f => truthy f.2) h) = Some v.
Proof.
  unfold header_of. intros E Hv. induction h as [|[k w] h IH]; [done|]. cbn [List.find List.filter fst snd] in *.
  destruct (bool_decide (k = js key)) eqn:Ek.
  - injection E as <-. rewrite (proj2 (truthy_spec w)) by done. cbn [List.find fst]. by rewrite Ek.
  - destruct (truthy w); [cbn [List.find fst]; rewrite Ek|]; by apply IH.
Qed.

(** A method that changes something gets the token, whatever headers the caller gives. *)
Lemma token_set (cookie : option jstr) (method : string) (h : headers) (t : jstr) :
  readCookie cookie (js "luna_csrf") = t -> t <> [] -> to_upper (js method) <> js "GET" -> to_upper (js method) <> js "HEAD" -> js method <> [] ->
  header_of "X-CSRF-Token" (withCsrfHeaders cookie (js method) h) = Some t.
Proof.
  intros <- Ht Hg Hh Hm. unfold withCsrfHeaders, str_or. rewrite (proj2 (truthy_spec (js method))) by done. rewrite !bool_decide_false by done. cbn [negb andb].
  rewrite (proj2 (truthy_spec _)) by done. by rewrite header_set, bool_decide_true.
Qed.

Section Sends.
Context `{JsText}.
Context (cookie : option jstr) (now : Z).

(** One more request has left the page. *)
Definition sent_one (P : sent -> Prop) (p p' : page) : Prop := exists r, pa_sent p' = pa_sent p ++ [r] /\ P r.

Lemma notify_sent (path : jstr) (p : page) : pa_sent (notifyUnauthorized path now p) = pa_sent p.
Proof. unfold notifyUnauthorized. by repeat case_match. Qed.

Lemma fetch_sends (outcome : response + js_err) (path : jstr) (o : options) (p : page) :
  sent_one (fun r => se_path r = path /\ se_headers r = withCsrfHeaders cookie (to_upper (str_or (default [] (op_method o)) (js "GET"))) (op_headers o)
                     /\ se_body r = op_body o /\ se_credentials r = true) p (apiFetch cookie now outcome path o p).2.
Proof.
  unfold apiFetch. destruct outcome as [res|err]; cbn [snd]; [|by eexists].
  destruct (_ =? 401); [unfold sent_one; rewrite notify_sent|]; by eexists.
Qed.

Lemma request_page (outcome : response + js_err) (path : jstr) (o : options) (p : page) :
  (request cookie now outcome path o p).2 = (apiFetch cookie now outcome path (o <| op_headers := spread [(js "Accept", js "application/json")] (op_headers o) |>) p).2.
Proof. unfold request. by destruct (apiFetch _ _ _ _ _ _) as [[res|e] p']. Qed.

Lemma xhr_page (ended : xhr_end) (path : jstr) (p : page) : pa_sent (xhr_settled now ended path p).2 = pa_sent p.
Proof. unfold xhr_settled. destruct ended as [status text| |]; cbn [snd]; [|done..]. destruct (status =? 401); [apply notify_sent | done]. Qed.

(** The token, once and with the cookies. *)
Definition with_token (t : jstr) (r : sent) : Prop := header_of "X-CSRF-Token" (se_headers r) = Some t /\ se_credentials r = true.

Lemma request_token (outcome : response + js_err) (path : jstr) (o : options) (method : string) (t : jstr) (p : page) :
  readCookie cookie (js "luna_csrf") = t -> t <> [] -> op_method o = Some (js method) ->
  to_upper (js method) = js method -> js method <> js "GET" -> js method <> js "HEAD" -> js method <> [] ->
  sent_one (with_token t) p (request cookie now outcome path o p).2.
Proof.
  intros Hc Ht Hm Hu Hg Hh Hn. rewrite request_page.
  destruct (fetch_sends outcome path (o <| op_headers := spread [(js "Accept", js "application/json")] (op_headers o) |>) p) as (r & E & _ & Eh & _ & Ec).
  exists r. split; [done|]. split; [|done]. rewrite Eh. cbn [op_method op_headers set_field]. rewrite Hm. cbn [default from_option id]. unfold str_or at 1.
  rewrite (proj2 (truthy_spec (js method))), Hu by done. apply token_set; rewrite ?Hu; done.
Qed.
End Sends.

(** C8: no change goes to Luna without the token of the page: whichever helper sends it, whatever headers its caller adds, a
    request that may change something carries the CSRF token of the cookie and the cookies themselves; a reading request
    is sent with the headers it was given. *)
Theorem mutations_carry_token `{JsText} (cookie : option jstr) (now : Z) (outcome : response + js_err) (ended : xhr_end) (path t : jstr) (body : json) (o : options) (p : page) :
  readCookie cookie (js "luna_csrf") = t -> t <> [] ->
  Forall (fun send => sent_one (with_token t) p (send p).2)
    [postJson cookie now outcome path body o; putJson cookie now outcome path body o; patchJson cookie now outcome path body o;
     deleteJson cookie now outcome path o; postForm cookie now outcome path o; putBinary cookie now outcome path o;
     putBinaryProgress cookie now ended path o false; postFormProgress cookie now ended path false]
  /\ sent_one (fun r => se_headers r = spread [(js "Accept", js "application/json")] (op_headers o) /\ se_credentials r = true) p
       (getJson cookie now outcome path (o <| op_method := None |>) p).2.
Proof.
  intros Hc Ht. split.
  - repeat apply Forall_cons_2; [..|by apply Forall_nil_2].
    1-6: match goal with |- context [postJson] => apply (request_token cookie now outcome path _ "POST") | |- context [putJson] => apply (request_token cookie now outcome path _ "PUT")
      | |- context [patchJson] => apply (request_token cookie now outcome path _ "PATCH") | |- context [deleteJson] => apply (request_token cookie now outcome path _ "DELETE")
      | |- context [postForm] => apply (request_token cookie now outcome path _ "POST") | _ => apply (request_token cookie now outcome path _ "PUT") end; done || (vm_compute; done).
    all: unfold sent_one, putBinaryProgress, postFormProgress; rewrite xhr_page; eexists; (split; [reflexivity|]); (split; [|done]); apply header_filtered; [|done];
      apply token_set; done || (vm_compute; done).
  - unfold getJson. rewrite request_page.
    destruct (fetch_sends cookie now outcome path (o <| op_method := None |> <| op_headers := spread [(js "Accept", js "application/json")] (op_headers o) |>) p)
      as (r & E & _ & Eh & _ & Ec). exists r. split; [done|]. split; [|done]. rewrite Eh. reflexivity.
Qed.

(** ** A session that ended *)

Section Sessions.
Context `{JsText}.
Context (cookie : option jstr).

Record fetch_call := { fc_time : Z; fc_path : jstr; fc_options : options; fc_outcome : response + js_err }.
Definition fetches (calls : list fetch_call) (p : page) : page :=
  foldl (fun p c => (apiFetch cookie (fc_time c) (fc_outcome c) (fc_path c) (fc_options c) p).2) p calls.

(** An answer that may mean that the session ended. *)
Definition unauthorized (c : fetch_call) : Prop :=
  match fc_outcome c with inl res => rs_status res = 401 | inr _ => False end /\ starts_with (js "/api/v1/auth/") (fc_path c) = false.

(** The events so far, the last of which is remembered. *)
Definition remembers (p : page) : Prop :=
  StronglySorted (fun a b => a + UNAUTHORIZED_COALESCE_MS <= b) (pa_events p)
  /\ Forall (fun e => e <= pa_lastUnauthorizedAt p) (pa_events p) /\ (pa_events p = [] \/ pa_lastUnauthorizedAt p ∈ pa_events p).

Lemma sorted_snoc (R : Z -> Z -> Prop) (l : list Z) (x : Z) : StronglySorted R l -> Forall (fun e => R e x) l -> StronglySorted R (l ++ [x]).
Proof.
  induction 1 as [|y l Hl IH Hy]; intros Hx; cbn [app]; [by repeat constructor|]. apply Forall_cons in Hx as [H1 H2].
  constructor; [by apply IH|]. apply Forall_app. by repeat constructor.
Qed.

(** One call: it raises an event, or none was due. *)
Lemma fetch_events (c : fetch_call) (p : page) : remembers p -> pa_lastUnauthorizedAt p <= fc_time c -> 0 <= pa_lastUnauthorizedAt p ->
  2000 <= fc_time c -> (pa_events p = [] -> pa_lastUnauthorizedAt p = 0) ->
  let p' := (apiFetch cookie (fc_time c) (fc_outcome c) (fc_path c) (fc_options c) p).2 in
  remembers p' /\ pa_lastUnauthorizedAt p' <= fc_time c /\ 0 <= pa_lastUnauthorizedAt p' /\ (pa_events p' = [] -> pa_lastUnauthorizedAt p' = 0)
  /\ (pa_events p' = pa_events p \/ (pa_events p' = pa_events p ++ [fc_time c] /\ unauthorized c))
  /\ (unauthorized c -> exists e, e ∈ pa_events p' /\ fc_time c - UNAUTHORIZED_COALESCE_MS < e <= fc_time c).
Proof.
  intros (Hs & Hl & Hr) Hle H0 H2 He. unfold apiFetch, unauthorized. destruct (fc_outcome c) as [res|err]; cbn zeta; cbn [snd]; [|split_and!; try done; [by left | by intros [[] _]]].
  destruct (Z.eqb_spec (rs_status res) 401) as [E|E]; [|split_and!; try done; [by left | by intros [? _]]].
  unfold notifyUnauthorized. destruct (starts_with _ _) eqn:Ea; [split_and!; try done; [by left | by intros [_ ?]]|]. cbn [set_field pa_lastUnauthorizedAt].
  unfold UNAUTHORIZED_COALESCE_MS in *. destruct (Z.ltb_spec (fc_time c - pa_lastUnauthorizedAt p) 2000) as [Hn|Hn].
  - split_and!; try done; [by left|]. intros _. destruct Hr as [Hr|Hr]; [specialize (He Hr); lia|]. exists (pa_lastUnauthorizedAt p). cbn [pa_events set_field]. split; [done | lia].
  - unfold remembers. cbn [set_field pa_events pa_lastUnauthorizedAt]. split_and!; try lia.
    + apply sorted_snoc; [done|]. eapply Forall_impl; [exact Hl|]. intros e. unfold UNAUTHORIZED_COALESCE_MS. cbn beta. lia.
    + apply Forall_app. split; [eapply Forall_impl; [exact Hl|]; cbn beta; lia | by repeat constructor].
    + right. apply elem_of_app. right. by apply list_elem_of_singleton.
    + intros Hx. by apply app_eq_nil in Hx as [_ ?].
    + by right.
    + intros _. exists (fc_time c). split; [apply elem_of_app; right; by apply list_elem_of_singleton | lia].
Qed.
End Sessions.

(** C9: a session that ended is announced, once: of the answers 401 that a page gets in any order of requests, each - but those of
    the sign-in itself - has an event within the two seconds before it, events are at least two seconds apart, and
    there is none without such an answer. *)
Theorem dead_session_speaks_once `{JsText} (cookie : option jstr) (calls : list fetch_call) :
  StronglySorted (fun a b => fc_time a <= fc_time b) calls -> Forall (fun c => 2000 <= fc_time c) calls ->
  let events := pa_events (fetches cookie calls {| pa_lastUnauthorizedAt := 0; pa_events := []; pa_sent := [] |}) in
  StronglySorted (fun a b => a + UNAUTHORIZED_COALESCE_MS <= b) events
  /\ (forall c, c ∈ calls -> unauthorized c -> exists e, e ∈ events /\ fc_time c - UNAUTHORIZED_COALESCE_MS < e <= fc_time c)
  /\ (forall e, e ∈ events -> exists c, c ∈ calls /\ unauthorized c /\ fc_time c = e).
Proof.
  intros Hs H2. cbn zeta. set (p := {| pa_lastUnauthorizedAt := 0; pa_events := []; pa_sent := [] |}).
  assert (Hp : remembers p) by (split_and!; [constructor | constructor | by left]).
  assert (G : forall p, remembers p -> 0 <= pa_lastUnauthorizedAt p -> (pa_events p = [] -> pa_lastUnauthorizedAt p = 0) ->
    Forall (fun c => pa_lastUnauthorizedAt p <= fc_time c) calls ->
    let p' := fetches cookie calls p in
    remembers p' /\ (exists l, pa_events p' = pa_events p ++ l /\ forall e, e ∈ l -> exists c, c ∈ calls /\ unauthorized c /\ fc_time c = e)
    /\ (forall c, c ∈ calls -> unauthorized c -> exists e, e ∈ pa_events p' /\ fc_time c - UNAUTHORIZED_COALESCE_MS < e <= fc_time c)).
  { clear p Hp. induction Hs as [|c calls Hs IH Hc]; intros p Hp H0 He Hle; cbn zeta.
    - split; [done|]. split; [exists []; rewrite app_nil_r; split; [done | by intros e ?%not_elem_of_nil] | by intros c ?%not_elem_of_nil].
    - apply Forall_cons in H2 as [H2 H2'], Hle as [Hle Hle'].
      change (fetches cookie (c :: calls) p) with (fetches cookie calls (apiFetch cookie (fc_time c) (fc_outcome c) (fc_path c) (fc_options c) p).2).
      destruct (fetch_events cookie c p Hp Hle H0 H2 He) as (Hp1 & Hl1 & H01 & He1 & Hev & Hu). set (p1 := (apiFetch _ _ _ _ _ p).2) in *.
      destruct (IH H2' p1 Hp1 H01 He1) as (Hq & (l & El & Hl) & Hcalls).
      { eapply Forall_impl; [exact Hc|]. cbn beta. lia. }
      split; [done|]. split.
      + destruct Hev as [Ev|[Ev Huc]].
        * exists l. rewrite <- Ev. split; [done|]. intros e (c' & Hin & ?)%Hl. exists c'. by split; [right|].
        * exists (fc_time c :: l). rewrite El, Ev, <- app_assoc. split; [done|]. intros e [->|(c' & Hin & ?)%Hl]%elem_of_cons; [exists c; by split; [left|] | exists c'; by split; [right|]].
      + intros c' [->|Hin]%elem_of_cons Huc; [|by apply Hcalls]. destruct (Hu Huc) as (e & Hin & Hr). exists e. split; [|done].
        rewrite El. apply elem_of_app. by left. }
  destruct (G p Hp) as (Hq & (l & El & Hl) & Hcalls); [done..| |].
  { eapply Forall_impl; [exact H2|]. cbn. lia. }
  split_and!; [apply Hq | exact Hcalls|]. intros e. rewrite El. exact (Hl e).
Qed.

(** ** Runs *)

(** No coercion of a string, an array or an object is used. *)
#[local] Instance no_coercions : JsText :=
  {| json_parse := fun _ => None; coerce_number := fun _ => Err TypeError; coerce_bigint := fun _ => Err TypeError; coerce_string := fun _ => Err TypeError |}.

#[local] Definition cookies : option jstr := Some (js "theme=dark; luna_csrf=t0k").
#[local] Definition refused : response + js_err := inl {| rs_status := 401; rs_text := inl [] |}.
#[local] Definition blank_page : page := {| pa_lastUnauthorizedAt := 0; pa_events := []; pa_sent := [] |}.
#[local] Definition call_at (t : Z) : fetch_call := {| fc_time := t; fc_path := js "/api/v1/drives"; fc_options := plain; fc_outcome := refused |}.

Lemma mutations_carry_token_witness :
  sent_one (with_token (js "t0k")) blank_page (postFormProgress cookies 0 XError (js "/api/v1/upload") false blank_page).2.
Proof.
  destruct (mutations_carry_token cookies 0 refused XError (js "/api/v1/upload") (js "t0k") JNull plain blank_page) as [F _].
  - vm_compute. reflexivity.
  - discriminate.
  - do 7 apply Forall_inv_tail in F. exact (Forall_inv F).
Defined.

Lemma dead_session_speaks_once_witness :
  StronglySorted (fun a b => a + UNAUTHORIZED_COALESCE_MS <= b) (pa_events (fetches cookies [call_at 5000; call_at 5100; call_at 7000] blank_page))
  /\ pa_events (fetches cookies [call_at 5000; call_at 5100; call_at 7000] blank_page) = [5000; 7000].
Proof.
  split; [|reflexivity].
  refine (proj1 (dead_session_speaks_once cookies [call_at 5000; call_at 5100; call_at 7000] _ _)).
  - repeat constructor; cbn; lia.
  - repeat constructor; cbn; lia.
Defined.
