(* ===== verification/OpsStore.v ===== *)
(** * File operations: the store, [lib/fileOps/store.js]

    [Core] is the state [createFileOpsStore] closes over, apart from the runners' own variables:
    the heap of operations and items, the list [ops], the published snapshot, the snapshot caches,
    the timers and the clock, and a log of the effects on the outside (toasts, haptics, cache
    invalidations, listener calls, requests).  Each function of the store is a function on [Core];
    a [let] that rebinds the state is one statement of the code. *)

From S2P Require Import Prelude JsString Paths OpsTypes OpsCopy.

(** ** Constants *)

Definition SHOW_AFTER_MS : Z := 600.
Definition AUTO_CLEAR_MS : Z := 4000.
Definition EMIT_MS : Z := 100.
Definition HAPTIC_GAP_MS : Z := 2000.
Definition INVALIDATE_GAP_MS : Z := 1000.

Definition IMMEDIATE_KINDS : list op_kind := [KUpload; KGallery; KCopy; KMove; KZip].
Definition ACTIVE : list item_state := [IQueued; IUploading; IFinishing; ISubmitting; IRunning].
Definition isActiveItem (i : Item) : bool := bool_decide (it_state i ∈ ACTIVE).

(** ** Effects and timers *)

Inductive haptic_type := HWarning | HError.
#[export] Instance haptic_eq : EqDecision haptic_type.
Proof. solve_decision. Defined.

(** A TanStack query key: its string segments. *)
Abbreviation query_key := (list jstr).

Inductive eff :=
  | EfToast (message : jstr)
  | EfHaptic (t : haptic_type)
  | EfInvalidate (key : query_key)
  | EfAfterFinish (o : oref)
  | EfNotify (listener : positive)
  | EfAbort (controller : positive)
  | EfListDir (driveId path : jstr)
  | EfStat (driveId path : jstr)
  | EfMkdir (driveId path : jstr)
  | EfUpload (i : iref) (onConflict : option choice)
  | EfCompleteUpload (driveId uploadId : jstr) (onConflict : option choice)
  | EfCancelUpload (driveId uploadId : jstr)
  | EfRemove (driveId path : jstr)
  | EfPostJob (kind : op_kind) (fromDrive fromPath toDrive toPath : jstr) (extra : job_extra)
  | EfDeleteJob (jobId : jstr)
  | EfListJobs
  | EfGetJob (jobId : jstr)
  | EfRun (i : iref) (confirmBroaden : bool).

Inductive timer_cb :=
  | CbTrailing | CbShow (o : oref) | CbInvalidate (o : oref) | CbAutoClear (o : oref)
  | CbJobPoll | CbJobRetry.
#[export] Instance timer_cb_eq : EqDecision timer_cb.
Proof. solve_decision. Defined.

Record timer := { tm_id : positive; tm_due : Z; tm_cb : timer_cb }.

(** ** State *)

(** What [rt(op)] holds.  [rt_hapticAt_*] is [None] for [-Infinity]. *)
Record Rt := {
  rt_toasted : bool;
  rt_toastFn : option (Z -> Z -> jstr);
  rt_afterFinish : bool;
  rt_invalidateKeys : list query_key;
  rt_touched : list jstr;
  rt_invTimer : option positive;
  rt_clearTimer : option positive;
  rt_showTimer : option positive;
  rt_hapticAt_warning : option Z;
  rt_hapticAt_error : option Z;
  rt_nameMaps : list (jstr * positive);
  rt_walkAbort : option positive;
}.
#[export] Instance eta_Rt : Settable Rt := fun r =>
  {| rt_toasted := rt_toasted r; rt_toastFn := rt_toastFn r; rt_afterFinish := rt_afterFinish r;
     rt_invalidateKeys := rt_invalidateKeys r; rt_touched := rt_touched r;
     rt_invTimer := rt_invTimer r; rt_clearTimer := rt_clearTimer r;
     rt_showTimer := rt_showTimer r; rt_hapticAt_warning := rt_hapticAt_warning r;
     rt_hapticAt_error := rt_hapticAt_error r; rt_nameMaps := rt_nameMaps r;
     rt_walkAbort := rt_walkAbort r |}.

Definition rt0 : Rt :=
  {| rt_toasted := false; rt_toastFn := None; rt_afterFinish := false; rt_invalidateKeys := [];
     rt_touched := []; rt_invTimer := None; rt_clearTimer := None; rt_showTimer := None;
     rt_hapticAt_warning := None; rt_hapticAt_error := None; rt_nameMaps := [];
     rt_walkAbort := None |}.

Record Core := {
  c_opsH : gmap oref Op;
  c_itemsH : gmap iref Item;
  c_rtH : gmap oref Rt;
  c_ops : list oref;
  c_state : list op_view;
  c_listeners : list positive;
  c_opSnaps : gmap oref op_view;
  c_itemSnaps : gmap iref Item;
  c_dirty : list oref;
  c_seq : Z;
  c_tag : jstr;
  c_lastEmit : option Z;
  c_trailing : option positive;
  c_destroyed : bool;
  c_now : Z;
  c_timers : list timer;
  c_fresh : positive;
  c_log : list eff;
}.
#[export] Instance eta_Core : Settable Core := fun r =>
  {| c_opsH := c_opsH r; c_itemsH := c_itemsH r; c_rtH := c_rtH r; c_ops := c_ops r;
     c_state := c_state r; c_listeners := c_listeners r; c_opSnaps := c_opSnaps r;
     c_itemSnaps := c_itemSnaps r; c_dirty := c_dirty r; c_seq := c_seq r; c_tag := c_tag r;
     c_lastEmit := c_lastEmit r; c_trailing := c_trailing r; c_destroyed := c_destroyed r;
     c_now := c_now r; c_timers := c_timers r; c_fresh := c_fresh r; c_log := c_log r |}.

(** ** The heap *)

Definition op0 : Op :=
  {| op_id := []; op_kind_of := KUpload; op_createdAt := 0; op_endedAt := None;
     op_source := driveSource; op_driveId := []; op_destDriveId := []; op_destFolder := [];
     op_destLabel := []; op_title := []; op_state_of := OPreparing; op_walking := false;
     op_bytesDone := 0; op_bytesTotal := 0; op_itemsDone := 0; op_itemsTotal := Some 0;
     op_foldersDone := 0; op_policy := None; op_items := []; op_error := None;
     op_successToast := None; op_shown := false; op_indeterminate := false;
     op_rootFolder := false; op_cancelled := false |}.

Definition no_extra : job_extra :=
  {| ex_on_conflict_keep_both := false; ex_confirm_broaden := false |}.

Definition item0 : Item :=
  {| it_id := []; it_name := []; it_relPath := []; it_destPath := []; it_size := 0;
     it_received := 0; it_state := IQueued; it_error := None; it_retryable := false;
     it_decision := None; it_isDir := false; it_foldersMade := 0; it_offline := false;
     it_retrying := false; it_waitingForQueue := false; it_conflict := None;
     it_finalName := None; it_file := false; it_uploadId := None; it_jobId := None;
     it_abort := None; it_completeOnly := false; it_run := false; it_extra := no_extra;
     it_confirmBroaden := false |}.

#[export] Instance Op_inhabited : Inhabited Op := populate op0.
#[export] Instance Item_inhabited : Inhabited Item := populate item0.

Definition opOf (c : Core) (o : oref) : Op := c_opsH c !!! o.
Definition itemOf (c : Core) (i : iref) : Item := c_itemsH c !!! i.
Definition rtOf (c : Core) (o : oref) : Rt := default rt0 (c_rtH c !! o).
Definition itemsOf (c : Core) (o : oref) : list Item := map (itemOf c) (op_items (opOf c o)).

Definition updOp (o : oref) (f : Op -> Op) (c : Core) : Core := c <| c_opsH ::= alter f o |>.
Definition updItem (i : iref) (f : Item -> Item) (c : Core) : Core :=
  c <| c_itemsH ::= alter f i |>.
(** [rt(op)] creates the record on first use. *)
Definition updRt (o : oref) (f : Rt -> Rt) (c : Core) : Core :=
  c <| c_rtH := <[o := f (rtOf c o)]> (c_rtH c) |>.
Definition logEff (e : eff) (c : Core) : Core := c <| c_log ::= cons e |>.

(** ** Timers *)

Definition setTimer (cb : timer_cb) (ms : Z) (c : Core) : positive * Core :=
  let id := c_fresh c in
  (id, c <| c_fresh := Pos.succ id |>
         <| c_timers ::= cons {| tm_id := id; tm_due := c_now c + ms; tm_cb := cb |} |>).

Definition clearTimer (id : positive) (c : Core) : Core :=
  c <| c_timers ::= List.filter (fun t => negb (Pos.eqb (tm_id t) id)) |>.

(** [if (t != null) clearTimer(t)] *)
Definition clearOpt (t : option positive) (c : Core) : Core :=
  match t with Some id => clearTimer id c | None => c end.

(** ** Ids *)

Definition newId (prefix : jstr) (c : Core) : jstr * Core :=
  let n := c_seq c + 1 in
  (prefix ++ js "_" ++ c_tag c ++ js_of_Z n, c <| c_seq := n |>).

(** ** Snapshots and emits *)

(** Adding to a [Set]: insertion order, no duplicates. *)
Definition set_add {A} `{EqDecision A} (x : A) (l : list A) : list A :=
  if decide (x ∈ l) then l else l ++ [x].

Definition touch (o : oref) (item : option iref) (c : Core) : Core :=
  let c := match item with
           | Some i => c <| c_itemSnaps ::= delete i |>
           | None => c
           end in
  c <| c_opSnaps ::= delete o |> <| c_dirty ::= set_add o |>.

Definition snapItem (i : iref) (c : Core) : Item * Core :=
  match c_itemSnaps c !! i with
  | Some snap => (snap, c)
  | None => let snap := itemOf c i in (snap, c <| c_itemSnaps ::= <[i := snap]> |>)
  end.

Fixpoint snapItems (refs : list iref) (c : Core) : list Item * Core :=
  match refs with
  | [] => ([], c)
  | i :: refs =>
      let '(s, c) := snapItem i c in
      let '(ss, c) := snapItems refs c in
      (s :: ss, c)
  end.

Definition snapOp (o : oref) (c : Core) : op_view * Core :=
  match c_opSnaps c !! o with
  | Some snap => (snap, c)
  | None =>
      let '(copies, c) := snapItems (op_items (opOf c o)) c in
      let snap := {| ov_op := opOf c o; ov_items := copies |} in
      (snap, c <| c_opSnaps ::= <[o := snap]> |>)
  end.

Fixpoint snapOps (os : list oref) (c : Core) : list op_view * Core :=
  match os with
  | [] => ([], c)
  | o :: os =>
      let '(s, c) := snapOp o c in
      let '(ss, c) := snapOps os c in
      (s :: ss, c)
  end.

(** The counters [recompute] accumulates over the items. *)
Record totals := {
  tt_bytesTotal : Z; tt_bytesDone : Z; tt_total : Z; tt_done : Z; tt_folders : Z;
}.
#[export] Instance eta_totals : Settable totals := fun r =>
  {| tt_bytesTotal := tt_bytesTotal r; tt_bytesDone := tt_bytesDone r; tt_total := tt_total r;
     tt_done := tt_done r; tt_folders := tt_folders r |}.

Definition totals0 : totals :=
  {| tt_bytesTotal := 0; tt_bytesDone := 0; tt_total := 0; tt_done := 0; tt_folders := 0 |}.

Definition count_item (t : totals) (i : Item) : totals :=
  if it_isDir i then t <| tt_folders ::= Z.add (it_foldersMade i) |>
  else
    match it_state i with
    | ISkipped | ICancelled => t
    | s =>
        let t := t <| tt_total ::= Z.succ |> <| tt_bytesTotal ::= Z.add (it_size i) |> in
        match s with
        | IDone => t <| tt_done ::= Z.succ |> <| tt_bytesDone ::= Z.add (it_size i) |>
        | _ => t <| tt_bytesDone ::= Z.add (Z.min (it_received i) (it_size i)) |>
        end
    end.

Definition totals_of (items : list Item) : totals := foldl count_item totals0 items.

Definition with_totals (t : totals) (op : Op) : Op :=
  op <| op_bytesTotal := tt_bytesTotal t |>
     <| op_bytesDone := tt_bytesDone t |>
     <| op_itemsDone := tt_done t |>
     <| op_itemsTotal := if op_indeterminate op then None else Some (tt_total t) |>
     <| op_foldersDone := tt_folders t |>.

Definition recompute (o : oref) (c : Core) : Core :=
  c ▷ updOp o (with_totals (totals_of (itemsOf c o))).

Definition notify_listeners (c : Core) : Core :=
  foldl (fun c l => logEff (EfNotify l) c) c (c_listeners c).

Definition flush (c : Core) : Core :=
  let c := clearOpt (c_trailing c) c <| c_trailing := None |> in
  let c := c <| c_lastEmit := Some (c_now c) |> in
  let dirty := c_dirty c in
  let c := foldl (fun c o => recompute o c) c dirty in
  let c := foldl (fun c o => c <| c_opSnaps ::= delete o |>) c dirty in
  let c := c <| c_dirty := [] |> in
  let '(views, c) := snapOps (c_ops c) c in
  let c := c <| c_state := views |> in
  notify_listeners c.

Definition emit (urgent : bool) (c : Core) : Core :=
  if c_destroyed c then c
  else if urgent then flush c
  else
    match c_lastEmit c with
    | None => flush c
    | Some last =>
        let elapsed := c_now c - last in
        if EMIT_MS <=? elapsed then flush c
        else
          match c_trailing c with
          | Some _ => c
          | None =>
              let '(t, c) := setTimer CbTrailing (EMIT_MS - elapsed) c in
              c <| c_trailing := Some t |>
          end
    end.

(** The trailing timer's callback. *)
Definition on_trailing (c : Core) : Core := flush (c <| c_trailing := None |>).

(** ** Operations and items *)

Definition makeOp (kind : op_kind) (driveId : jstr) (destDriveId : option jstr)
    (fields : Op -> Op) (c : Core) : oref * Core :=
  let '(id, c) := newId (js "op") c in
  let op := {| op_id := id; op_kind_of := kind; op_createdAt := c_now c; op_endedAt := None;
     op_source := driveSource; op_driveId := driveId;
     op_destDriveId := default driveId destDriveId; op_destFolder := [];
     op_destLabel := []; op_title := []; op_state_of := OPreparing; op_walking := false;
     op_bytesDone := 0; op_bytesTotal := 0; op_itemsDone := 0; op_itemsTotal := Some 0;
     op_foldersDone := 0; op_policy := None; op_items := []; op_error := None;
     op_successToast := None; op_shown := false; op_indeterminate := false;
     op_rootFolder := false; op_cancelled := false |} in
  let o := c_fresh c in
  (o, c <| c_fresh := Pos.succ o |> <| c_opsH ::= <[o := fields op]> |>).

Definition makeItem (name : jstr) (fields : Item -> Item) (c : Core) : iref * Core :=
  let '(id, c) := newId (js "it") c in
  let item := {| it_id := id; it_name := name; it_relPath := name; it_destPath := [];
     it_size := 0; it_received := 0; it_state := IQueued; it_error := None;
     it_retryable := false; it_decision := None; it_isDir := false; it_foldersMade := 0;
     it_offline := false; it_retrying := false; it_waitingForQueue := false;
     it_conflict := None; it_finalName := None; it_file := false; it_uploadId := None;
     it_jobId := None; it_abort := None; it_completeOnly := false; it_run := false;
     it_extra := no_extra; it_confirmBroaden := false |} in
  let i := c_fresh c in
  (i, c <| c_fresh := Pos.succ i |> <| c_itemsH ::= <[i := fields item]> |>).

Definition pushItem (o : oref) (i : iref) (c : Core) : Core :=
  c ▷ updOp o (fun op => op <| op_items ::= (fun l => l ++ [i]) |>).

Definition addOp (o : oref) (c : Core) : Core :=
  let c := c <| c_ops ::= (fun l => l ++ [o]) |> in
  let op := opOf c o in
  let c :=
    if bool_decide (op_kind_of op ∈ IMMEDIATE_KINDS)
       || existsb (fun i => bool_decide (it_state i = IDone)) (itemsOf c o)
    then c ▷ updOp o (fun op => op <| op_shown := true |>)
    else
      let '(t, c) := setTimer (CbShow o) SHOW_AFTER_MS c in
      c ▷ updRt o (fun r => r <| rt_showTimer := Some t |>) in
  c ▷ touch o None ▷ emit true.

(** [!op.endedAt]: [null] and [0] are both falsy. *)
Definition ended_truthy (op : Op) : bool :=
  match op_endedAt op with Some z => negb (z =? 0) | None => false end.

(** The 600 ms callback of [addOp]. *)
Definition on_show (o : oref) (c : Core) : Core :=
  let c := c ▷ updRt o (fun r => r <| rt_showTimer := None |>) in
  if bool_decide (o ∈ c_ops c) && negb (ended_truthy (opOf c o)) then
    c ▷ updOp o (fun op => op <| op_shown := true |>) ▷ touch o None ▷ emit true
  else c.

Definition addItem (o : oref) (i : iref) (c : Core) : Core :=
  c ▷ pushItem o i ▷ touch o (Some i) ▷ emit false.

Definition patchItem' (o : oref) (i : iref) (patch : list item_patch) (urgent : bool)
    (c : Core) : Core :=
  let stateChanged :=
    match patch_state patch with
    | Some s => negb (bool_decide (s = it_state (itemOf c i)))
    | None => false
    end in
  c ▷ updItem i (apply_patch patch) ▷ touch o (Some i) ▷ emit (urgent || stateChanged).

Definition patchItem (o : oref) (i : iref) (patch : list item_patch) (c : Core) : Core :=
  patchItem' o i patch false c.

Definition patchOp (o : oref) (patch : Op -> Op) (c : Core) : Core :=
  c ▷ updOp o patch ▷ touch o None ▷ emit true.

Definition removeItem (o : oref) (i : iref) (c : Core) : Core :=
  match list_find (eq i) (op_items (opOf c o)) with
  | None => c
  | Some (k, _) =>
      c ▷ updOp o (fun op => op <| op_items ::= delete k |>) ▷ touch o None ▷ emit true
  end.

Definition removeOp (o : oref) (c : Core) : Core :=
  match list_find (eq o) (c_ops c) with
  | None => c
  | Some (k, _) =>
      let r := rtOf c o in
      let c := c ▷ clearOpt (rt_invTimer r) ▷ clearOpt (rt_clearTimer r)
                 ▷ clearOpt (rt_showTimer r) in
      let c := c <| c_ops ::= delete k |> in
      let c := c <| c_dirty ::= List.filter (fun x => negb (bool_decide (x = o))) |> in
      emit true c
  end.

(** ** Side effects shared by the runners *)

Definition fileListKey (source : file_source) (driveId path : jstr) : query_key :=
  [js "files"; (if truthy (src_scope source) then src_scope source else driveId); path].

(** The folders from [f] up to the operation's folder (or the root). *)
Fixpoint climb (fuel : nat) (destFolder f : jstr) : list jstr :=
  match fuel with
  | O => []
  | S fuel =>
      f :: (if negb (truthy f) || bool_decide (f = destFolder) then []
            else climb fuel destFolder (parentOr f))
  end.

Definition noteFolder (o : oref) (folder : jstr) (c : Core) : Core :=
  let folders := climb (S (length folder)) (op_destFolder (opOf c o)) folder in
  let c := c ▷ updRt o (fun r => r <| rt_touched ::= (fun t => foldl (fun t f => set_add f t) t folders) |>) in
  match rt_invTimer (rtOf c o) with
  | Some _ => c
  | None =>
      let '(t, c) := setTimer (CbInvalidate o) INVALIDATE_GAP_MS c in
      c ▷ updRt o (fun r => r <| rt_invTimer := Some t |>)
  end.

Definition flushFolders (o : oref) (c : Core) : Core :=
  let op := opOf c o in
  let c := foldl (fun c folder =>
             logEff (EfInvalidate (fileListKey (op_source op) (op_driveId op) folder)) c)
             c (rt_touched (rtOf c o)) in
  c ▷ updRt o (fun r => r <| rt_touched := [] |>).

(** The invalidation timer's callback. *)
Definition on_invalidate (o : oref) (c : Core) : Core :=
  c ▷ updRt o (fun r => r <| rt_invTimer := None |>) ▷ flushFolders o.

Definition invalidate (keys : list query_key) (c : Core) : Core :=
  foldl (fun c k => logEff (EfInvalidate k) c) c keys.

Definition hapticAt (t : haptic_type) (r : Rt) : option Z :=
  match t with HWarning => rt_hapticAt_warning r | HError => rt_hapticAt_error r end.
Definition set_hapticAt (t : haptic_type) (at_ : Z) (r : Rt) : Rt :=
  match t with
  | HWarning => r <| rt_hapticAt_warning := Some at_ |>
  | HError => r <| rt_hapticAt_error := Some at_ |>
  end.

Definition notify (o : oref) (t : haptic_type) (c : Core) : Core :=
  let at_ := c_now c in
  match hapticAt t (rtOf c o) with
  | Some last => if at_ - last <? HAPTIC_GAP_MS then c
                 else c ▷ updRt o (set_hapticAt t at_) ▷ logEff (EfHaptic t)
  | None => c ▷ updRt o (set_hapticAt t at_) ▷ logEff (EfHaptic t)
  end.

(** ** Finishing *)

Definition is_problem (i : Item) : bool :=
  match it_state i with INeedsDecision | IFailed => true | _ => false end.

(** [if (r.showTimer != null) { clearTimer(r.showTimer); r.showTimer = null; }], and so on. *)
Definition dropShowTimer (o : oref) (c : Core) : Core :=
  match rt_showTimer (rtOf c o) with
  | Some t => c ▷ clearTimer t ▷ updRt o (fun r => r <| rt_showTimer := None |>)
  | None => c
  end.
Definition dropInvTimer (o : oref) (c : Core) : Core :=
  match rt_invTimer (rtOf c o) with
  | Some t => c ▷ clearTimer t ▷ updRt o (fun r => r <| rt_invTimer := None |>)
  | None => c
  end.
Definition dropClearTimer (o : oref) (c : Core) : Core :=
  match rt_clearTimer (rtOf c o) with
  | Some t => c ▷ clearTimer t ▷ updRt o (fun r => r <| rt_clearTimer := None |>)
  | None => c
  end.

(** The final invalidations of [finish]. *)
Definition finish_invalidate (o : oref) (c : Core) : Core :=
  let c := match op_kind_of (opOf c o) with
           | KUpload | KGallery => invalidate [[js "recents"]] c
           | _ => c
           end in
  invalidate (rt_invalidateKeys (rtOf c o)) c.

(** The words of the success toast. *)
Definition toast_message (o : oref) (done : Z) (c : Core) : option jstr :=
  let op := opOf c o in
  match rt_toastFn (rtOf c o) with
  | Some f => Some (f done (default (Z.of_nat (length (op_items op))) (op_itemsTotal op)))
  | None =>
      match op_successToast op with
      | Some (x :: m) => Some (x :: m)
      | _ => successToast op done
      end
  end.

Definition finish_toast (o : oref) (done : Z) (c : Core) : Core :=
  if negb (rt_toasted (rtOf c o)) && (0 <? done)
     && match op_state_of (opOf c o) with OCancelled | OFailed => false | _ => true end
  then
    let c := c ▷ updRt o (fun r => r <| rt_toasted := true |>) in
    match toast_message o done c with
    | Some (x :: m) => logEff (EfToast (x :: m)) c
    | _ => c
    end
  else c.

Definition finish_follow (o : oref) (done : Z) (c : Core) : Core :=
  if (0 <? done) && rt_afterFinish (rtOf c o) then logEff (EfAfterFinish o) c else c.

Definition finish_auto_clear (o : oref) (c : Core) : Core :=
  let op := opOf c o in
  let problems := existsb is_problem (itemsOf c o) in
  if negb problems && negb (truthy (default [] (op_error op)))
     && negb (bool_decide (op_state_of op = OFailed))
  then
    let c := clearOpt (rt_clearTimer (rtOf c o)) c in
    let '(t, c) := setTimer (CbAutoClear o) AUTO_CLEAR_MS c in
    c ▷ updRt o (fun r => r <| rt_clearTimer := Some t |>)
  else c.

Definition ended_badly (st : op_state) : bool :=
  match st with OPartial | OFailed => true | _ => false end.

Definition finish (o : oref) (done : Z) (c : Core) : Core :=
  c ▷ updOp o (fun op => op <| op_endedAt := Some (c_now c) |>)
    ▷ updOp o (fun op => op <| op_shown := op_shown op || ended_badly (op_state_of op) |>)
    ▷ dropShowTimer o ▷ dropInvTimer o
    ▷ flushFolders o ▷ finish_invalidate o
    ▷ finish_toast o done ▷ finish_follow o done
    ▷ finish_auto_clear o.

(** The files (not folders) that are done. *)
Definition done_count (items : list Item) : nat :=
  length (List.filter (fun i => bool_decide (it_state i = IDone) && negb (it_isDir i)) items).

(** The state [settle] derives once nothing is active and nothing waits for an answer. *)
Definition ended_state (op : Op) (items : list Item) : op_state :=
  let failed := existsb (fun i => bool_decide (it_state i = IFailed)) items in
  let st := if op_cancelled op then OCancelled
            else if negb failed then ODone
            else if Nat.ltb 0 (done_count items) then OPartial else OFailed in
  if truthy (default [] (op_error op)) then OFailed else st.

(** Something is being sent or walked: a finished operation runs again. *)
Definition settle_running (o : oref) (c : Core) : Core :=
  let wasEnded := bool_decide (op_endedAt (opOf c o) <> None) in
  let c := c ▷ updOp o (fun op =>
    op <| op_state_of := match op_items op with [] => OPreparing | _ => ORunning end |>) in
  if wasEnded then
    c ▷ updOp o (fun op => op <| op_endedAt := None |>)
      ▷ updRt o (fun r => r <| rt_toasted := false |>)
      ▷ dropClearTimer o
  else c.

(** Nothing is active and nothing waits: the operation has ended. *)
Definition settle_ended (o : oref) (c : Core) : Core :=
  let items := itemsOf c o in
  let wasEnded := bool_decide (op_endedAt (opOf c o) <> None) in
  let c := c ▷ updOp o (fun op => op <| op_state_of := ended_state op items |>) in
  if negb wasEnded then finish o (Z.of_nat (done_count items)) c else c.

Definition settle (o : oref) (c : Core) : Core :=
  if negb (bool_decide (o ∈ c_ops c)) then c
  else
    let items := itemsOf c o in
    let active := existsb isActiveItem items in
    let deciding := existsb (fun i => bool_decide (it_state i = INeedsDecision)) items in
    let problems := existsb is_problem items in
    let c := if problems then c ▷ updOp o (fun op => op <| op_shown := true |>) else c in
    let c :=
      if op_walking (opOf c o) || active then settle_running o c
      else if deciding then c ▷ updOp o (fun op => op <| op_state_of := OWaiting |>)
      else settle_ended o c in
    c ▷ touch o None ▷ emit true.

(** ** Reading *)

Definition getOp (id : jstr) (c : Core) : option oref :=
  List.find (fun o => bool_decide (op_id (opOf c o) = id)) (c_ops c).

Definition isAlive (c : Core) (o : oref) : bool :=
  negb (c_destroyed c) && bool_decide (o ∈ c_ops c).

Definition subscribe (l : positive) (c : Core) : Core := c <| c_listeners ::= set_add l |>.
Definition unsubscribe (l : positive) (c : Core) : Core :=
  c <| c_listeners ::= List.filter (fun x => negb (Pos.eqb x l)) |>.
