(* ===== verification/OpsFrame.v ===== *)
(** * File operations: what the store's functions leave alone

    [core_same] relates two store states that differ only in what the store derives (the state,
    the counters and the end time of an operation, the snapshots, the timers) and in effects shown
    to the person.  Emitting, settling, finishing and notifying stay inside it, so facts about
    items, queues and the identity of operations survive them. *)

From S2P Require Import Prelude JsString OpsTypes OpsCopy OpsStore.

(** The part of an operation that only the runners and the actions write. *)
Definition op_fixed (op : Op) :=
  (op_id op, op_kind_of op, op_source op, op_driveId op, op_destDriveId op, op_destFolder op,
   (op_title op, op_walking op, op_policy op, op_items op, op_error op, op_successToast op,
    op_indeterminate op, op_cancelled op)).

(** Effects the person or the page's cache sees; none of them is a request about files. *)
Definition ui_eff (e : eff) : bool :=
  match e with
  | EfToast _ | EfHaptic _ | EfInvalidate _ | EfAfterFinish _ | EfNotify _ => true
  | _ => false
  end.

Record core_same (c c' : Core) : Prop := {
  cs_items : c_itemsH c' = c_itemsH c;
  cs_opsH o : op_fixed <$> (c_opsH c' !! o) = op_fixed <$> (c_opsH c !! o);
  cs_ops : c_ops c' = c_ops c;
  cs_destroyed : c_destroyed c' = c_destroyed c;
  cs_now : c_now c' = c_now c;
  cs_seq : c_seq c' = c_seq c;
  cs_fresh : (c_fresh c <= c_fresh c')%positive;
  cs_log : exists l, c_log c' = l ++ c_log c /\ Forall (fun e => ui_eff e = true) l;
}.

#[export] Instance core_same_pre : PreOrder core_same.
Proof.
  split.
  - intros c. split; try done. exists []. by split; [|constructor].
  - intros c1 c2 c3 [I1 O1 P1 D1 N1 S1 F1 (l & E & F)] [I2 O2 P2 D2 N2 S2 F2 (l' & E' & F')].
    split; [congruence | | congruence | congruence | congruence | congruence | lia |].
    + intros o. by rewrite O2, O1.
    + exists (l' ++ l). rewrite E', E, app_assoc. split; [done|]. by apply Forall_app.
Qed.

Lemma core_same_op (c c' : Core) (o : oref) :
  core_same c c' -> op_fixed (opOf c' o) = op_fixed (opOf c o).
Proof.
  intros H. pose proof (cs_opsH _ _ H o) as E. unfold opOf. rewrite !lookup_total_alt.
  destruct (c_opsH c' !! o), (c_opsH c !! o); simpl in *; congruence.
Qed.

Lemma core_same_item (c c' : Core) (i : iref) : core_same c c' -> itemOf c' i = itemOf c i.
Proof. intros H. unfold itemOf. by rewrite (cs_items _ _ H). Qed.

Lemma core_same_itemsOf (c c' : Core) (o : oref) : core_same c c' -> itemsOf c' o = itemsOf c o.
Proof.
  intros H. pose proof (core_same_op _ _ o H) as E. unfold itemsOf, op_fixed in *.
  simplify_eq. replace (op_items (opOf c' o)) with (op_items (opOf c o)) by congruence.
  apply map_ext. intros i. by apply core_same_item.
Qed.

(** ** Primitive steps *)

Ltac core_refl :=
  split; simpl; try done; try lia; try (exists []; split; [done | constructor]).

Lemma same_updOp (o : oref) (f : Op -> Op) (c : Core) :
  (forall op, op_fixed (f op) = op_fixed op) -> core_same c (updOp o f c).
Proof.
  intros Hf. core_refl. intros o'. simpl. destruct (decide (o = o')) as [->|Hne].
  - rewrite lookup_alter_eq; destruct (c_opsH c !! o'); simpl; by rewrite ?Hf.
  - by rewrite lookup_alter_ne.
Qed.

Lemma same_updRt (o : oref) (f : Rt -> Rt) (c : Core) : core_same c (updRt o f c).
Proof. core_refl. Qed.

Lemma same_log (e : eff) (c : Core) : ui_eff e = true -> core_same c (logEff e c).
Proof. intros H. split; try done. by exists [e]; split; [|constructor]. Qed.

Lemma same_setTimer (cb : timer_cb) (ms : Z) (c : Core) : core_same c (setTimer cb ms c).2.
Proof. core_refl. Qed.

Lemma same_clearTimer (t : positive) (c : Core) : core_same c (clearTimer t c).
Proof. core_refl. Qed.

Lemma same_clearOpt (t : option positive) (c : Core) : core_same c (clearOpt t c).
Proof. destruct t; [apply same_clearTimer | reflexivity]. Qed.

Lemma same_foldl {A} (f : Core -> A -> Core) (l : list A) (c : Core) :
  (forall c a, core_same c (f c a)) -> core_same c (foldl f c l).
Proof.
  intros Hf. revert c. induction l as [|a l IH]; intros c; simpl; [done|].
  etrans; [apply Hf | apply IH].
Qed.

Lemma same_touch (o : oref) (i : option iref) (c : Core) : core_same c (touch o i c).
Proof. destruct i; core_refl. Qed.

Lemma same_recompute (o : oref) (c : Core) : core_same c (recompute o c).
Proof. apply same_updOp. done. Qed.

Lemma snapItems_same (refs : list iref) (c : Core) : core_same c (snapItems refs c).2.
Proof.
  revert c. induction refs as [|i refs IH]; intros c; simpl; [done|].
  destruct (snapItem i c) as [s c1] eqn:E. specialize (IH c1).
  destruct (snapItems refs c1) as [ss c2]; simpl in *. etrans; [|exact IH].
  unfold snapItem in E. case_match; simplify_eq; [done|]. core_refl.
Qed.

Lemma snapOps_same (os : list oref) (c : Core) : core_same c (snapOps os c).2.
Proof.
  revert c. induction os as [|o os IH]; intros c; simpl; [done|].
  destruct (snapOp o c) as [s c1] eqn:E. specialize (IH c1).
  destruct (snapOps os c1) as [ss c2]; simpl in *. etrans; [|exact IH].
  unfold snapOp in E. case_match; simplify_eq; [done|].
  pose proof (snapItems_same (op_items (opOf c o)) c) as Hs.
  destruct (snapItems _ c) as [copies c3]; simplify_eq. etrans; [exact Hs|]. core_refl.
Qed.

Lemma same_notify_listeners (c : Core) : core_same c (notify_listeners c).
Proof. apply same_foldl. intros c' l. by apply same_log. Qed.

(** [flush] up to the snapshots: the dirty operations are recomputed and their snapshots dropped. *)
Definition flush_counted (c : Core) : Core :=
  let c := clearOpt (c_trailing c) c <| c_trailing := None |> in
  let c := c <| c_lastEmit := Some (c_now c) |> in
  foldl (fun c o => recompute o c) c (c_dirty c).
Definition drop_snap (c : Core) (o : oref) : Core := c <| c_opSnaps ::= delete o |>.
Definition flush_ready (c : Core) : Core :=
  (foldl drop_snap (flush_counted c) (c_dirty c)) <| c_dirty := [] |>.

Lemma dirty_clearOpt (t : option positive) (c : Core) : c_dirty (clearOpt t c) = c_dirty c.
Proof. by destruct t. Qed.

Lemma flush_eq (c : Core) :
  flush c = notify_listeners
              ((snapOps (c_ops (flush_ready c)) (flush_ready c)).2
                 <| c_state := (snapOps (c_ops (flush_ready c)) (flush_ready c)).1 |>).
Proof.
  unfold flush, flush_ready, flush_counted. simpl. rewrite !dirty_clearOpt. simpl.
  by destruct (snapOps _ _).
Qed.

Lemma same_flush_counted (c : Core) : core_same c (flush_counted c).
Proof.
  unfold flush_counted. etrans; [|apply same_foldl; intros; apply same_recompute].
  transitivity (clearOpt (c_trailing c) (c <| c_trailing := None |>)); [|core_refl].
  etrans; [|apply same_clearOpt]. core_refl.
Qed.

Lemma same_flush_ready (c : Core) : core_same c (flush_ready c).
Proof.
  unfold flush_ready. etrans; [apply same_flush_counted|].
  etrans; [apply (same_foldl drop_snap (c_dirty c))|core_refl].
  intros. core_refl.
Qed.

Lemma same_flush (c : Core) : core_same c (flush c).
Proof.
  rewrite flush_eq. etrans; [|apply same_notify_listeners].
  etrans; [apply same_flush_ready|].
  etrans; [apply (snapOps_same (c_ops (flush_ready c)))|]. core_refl.
Qed.

Lemma same_emit (urgent : bool) (c : Core) : core_same c (emit urgent c).
Proof.
  unfold emit. destruct (c_destroyed c); [done|]. destruct urgent; [apply same_flush|].
  case_match; [|apply same_flush]. case_match; [apply same_flush|]. case_match; [done|].
  core_refl.
Qed.

Create HintDb same.
#[export] Hint Resolve same_updRt same_setTimer same_clearTimer same_clearOpt same_touch
  same_flush same_emit same_notify_listeners same_recompute : same.

(** One step of a chain of functions that stay inside [core_same]. *)
Ltac same_one :=
  first [ solve [auto 1 with same nocore]
        | apply same_log; reflexivity
        | apply same_updOp; by intros []
        | apply same_updOp; intros ?; reflexivity ].
Ltac same_step :=
  first [ reflexivity | same_one | case_match; simplify_eq | etrans; [|same_one] ].
Ltac same_chain := repeat same_step.

Lemma same_flushFolders (o : oref) (c : Core) : core_same c (flushFolders o c).
Proof.
  unfold flushFolders. etrans; [|apply same_updRt].
  apply same_foldl. intros. by apply same_log.
Qed.

Lemma same_invalidate (keys : list query_key) (c : Core) : core_same c (invalidate keys c).
Proof. apply same_foldl. intros. by apply same_log. Qed.

Lemma same_noteFolder (o : oref) (f : jstr) (c : Core) : core_same c (noteFolder o f c).
Proof.
  unfold noteFolder. set (c1 := _ ▷ updRt o _). assert (H1 : core_same c c1) by apply same_updRt.
  case_match; [done|].
  destruct (setTimer (CbInvalidate o) INVALIDATE_GAP_MS c1) as [t c2] eqn:E.
  etrans; [exact H1|]. etrans; [apply (same_setTimer (CbInvalidate o) INVALIDATE_GAP_MS)|].
  rewrite E. apply same_updRt.
Qed.

Lemma same_notify (o : oref) (t : haptic_type) (c : Core) : core_same c (notify o t c).
Proof. unfold notify. same_chain. Qed.

#[export] Hint Resolve same_flushFolders same_invalidate same_noteFolder same_notify : same.

(** ** Settling *)

Lemma same_dropShowTimer (o : oref) (c : Core) : core_same c (dropShowTimer o c).
Proof. unfold dropShowTimer. same_chain. Qed.
Lemma same_dropInvTimer (o : oref) (c : Core) : core_same c (dropInvTimer o c).
Proof. unfold dropInvTimer. same_chain. Qed.
Lemma same_dropClearTimer (o : oref) (c : Core) : core_same c (dropClearTimer o c).
Proof. unfold dropClearTimer. same_chain. Qed.
#[export] Hint Resolve same_dropShowTimer same_dropInvTimer same_dropClearTimer : same.

Lemma same_finish_invalidate (o : oref) (c : Core) : core_same c (finish_invalidate o c).
Proof. unfold finish_invalidate. etrans; [|apply same_invalidate]. same_chain. Qed.
Lemma same_finish_toast (o : oref) (done : Z) (c : Core) : core_same c (finish_toast o done c).
Proof. unfold finish_toast. same_chain. Qed.
Lemma same_finish_follow (o : oref) (done : Z) (c : Core) : core_same c (finish_follow o done c).
Proof. unfold finish_follow. same_chain. Qed.
Lemma same_finish_auto_clear (o : oref) (c : Core) : core_same c (finish_auto_clear o c).
Proof.
  unfold finish_auto_clear. case_match; [|done]. simpl.
  etrans; [|apply same_updRt]. etrans; [apply same_clearOpt|]. apply same_setTimer.
Qed.
#[export] Hint Resolve same_finish_invalidate same_finish_toast same_finish_follow
  same_finish_auto_clear : same.

Lemma same_finish (o : oref) (done : Z) (c : Core) : core_same c (finish o done c).
Proof. unfold finish. same_chain. Qed.
#[export] Hint Resolve same_finish : same.

Lemma same_settle_running (o : oref) (c : Core) : core_same c (settle_running o c).
Proof. unfold settle_running. same_chain. Qed.
Lemma same_settle_ended (o : oref) (c : Core) : core_same c (settle_ended o c).
Proof. unfold settle_ended. same_chain. Qed.
#[export] Hint Resolve same_settle_running same_settle_ended : same.

Lemma same_settle (o : oref) (c : Core) : core_same c (settle o c).
Proof. unfold settle. case_match; [done|]. do 2 (etrans; [|same_one]). same_chain. Qed.
#[export] Hint Resolve same_settle : same.
