(* ===== verification/OpsStoreFacts.v ===== *)
(** * File operations: what the store promises

    The counters of a card, what a flush publishes, the throttled emits, the state [settle]
    derives, the toast, the haptics and the folders to refresh. *)

From S2P Require Import Prelude JsString Paths OpsTypes OpsCopy OpsStore OpsFrame.

(** ** Counters *)

Definition sized (i : Item) : Prop := 0 <= it_size i /\ 0 <= it_received i /\ 0 <= it_foldersMade i.

(** The counters of a card: every done count is bounded by its total. *)
Definition totals_ok (n : nat) (t : totals) : Prop :=
  0 <= tt_bytesDone t <= tt_bytesTotal t /\ 0 <= tt_done t <= tt_total t
  /\ tt_total t <= Z.of_nat n /\ 0 <= tt_folders t.

Lemma count_item_ok (n : nat) (t : totals) (i : Item) :
  sized i -> totals_ok n t -> totals_ok (S n) (count_item t i).
Proof.
  intros (Hs & Hr & Hf) (Hb & Hd & Ht & Hfo). unfold totals_ok, count_item.
  destruct (it_isDir i); [simpl; lia|]. destruct (it_state i); simpl; lia.
Qed.

Lemma foldl_count_ok (items : list Item) (n : nat) (t : totals) :
  Forall sized items -> totals_ok n t -> totals_ok (n + length items) (foldl count_item t items).
Proof.
  intros H. revert n t. induction H as [|i items Hi H IH]; intros n t Ht; simpl.
  - by rewrite Nat.add_0_r.
  - rewrite Nat.add_succ_r. apply (IH (S n)). by apply count_item_ok.
Qed.

(** Once every file is done, skipped or cancelled the bar is full. *)
Lemma foldl_count_full (items : list Item) (t : totals) :
  Forall (fun i => it_isDir i = true \/ it_state i ∈ [IDone; ISkipped; ICancelled]) items ->
  tt_bytesDone t = tt_bytesTotal t -> tt_done t = tt_total t ->
  tt_bytesDone (foldl count_item t items) = tt_bytesTotal (foldl count_item t items)
  /\ tt_done (foldl count_item t items) = tt_total (foldl count_item t items).
Proof.
  intros H. revert t. induction H as [|i items Hi H IH]; intros t Hb Hd; simpl; [done|].
  apply IH; unfold count_item; destruct (it_isDir i); simpl; try done;
    destruct Hi as [Hi|Hi]; try done; destruct (it_state i); simpl; try lia; set_solver.
Qed.

(** The number of files among the items that still count. *)
Definition counted (i : Item) : bool :=
  negb (it_isDir i) && match it_state i with ISkipped | ICancelled => false | _ => true end.

Lemma foldl_count_total (items : list Item) (t : totals) :
  tt_total (foldl count_item t items)
    = tt_total t + Z.of_nat (length (List.filter counted items))
  /\ tt_done (foldl count_item t items) = tt_done t + Z.of_nat (done_count items).
Proof.
  revert t. induction items as [|i items IH]; intros t; unfold done_count in *; simpl; [lia|].
  destruct (IH (count_item t i)) as [-> ->]. unfold count_item, counted.
  destruct (it_isDir i), (it_state i); simpl; lia.
Qed.

(** ** Emits leave everything but the counters *)

(** An operation without its counters. *)
Definition uncounted (op : Op) : Op := with_totals totals0 op.

Lemma uncounted_with_totals (t : totals) (op : Op) : uncounted (with_totals t op) = uncounted op.
Proof. done. Qed.

Record emitted (c c' : Core) : Prop := {
  em_same : core_same c c';
  em_ops o : uncounted <$> (c_opsH c' !! o) = uncounted <$> (c_opsH c !! o);
  em_rt : c_rtH c' = c_rtH c;
}.

#[export] Instance emitted_pre : PreOrder emitted.
Proof.
  split.
  - intros c. by split.
  - intros c1 c2 c3 [S1 O1 R1] [S2 O2 R2].
    split; [by etrans | intros o; by rewrite O2, O1 | congruence].
Qed.

Lemma emitted_foldl {A} (f : Core -> A -> Core) (l : list A) (c : Core) :
  (forall c a, emitted c (f c a)) -> emitted c (foldl f c l).
Proof.
  intros Hf. revert c. induction l as [|a l IH]; intros c; simpl; [done|].
  etrans; [apply Hf | apply IH].
Qed.

Lemma emitted_recompute (o : oref) (c : Core) : emitted c (recompute o c).
Proof.
  split; [apply same_recompute| |done]. intros o'. unfold recompute, updOp. simpl.
  destruct (decide (o = o')) as [->|Hne].
  - rewrite lookup_alter_eq. by destruct (c_opsH c !! o').
  - by rewrite lookup_alter_ne.
Qed.

Lemma snapItems_heap (refs : list iref) (c : Core) :
  c_opsH (snapItems refs c).2 = c_opsH c /\ c_rtH (snapItems refs c).2 = c_rtH c
  /\ c_dirty (snapItems refs c).2 = c_dirty c /\ c_trailing (snapItems refs c).2 = c_trailing c
  /\ c_timers (snapItems refs c).2 = c_timers c /\ c_lastEmit (snapItems refs c).2 = c_lastEmit c
  /\ c_opSnaps (snapItems refs c).2 = c_opSnaps c.
Proof.
  revert c. induction refs as [|i refs IH]; intros c; simpl; [done|].
  unfold snapItem. destruct (c_itemSnaps c !! i); simpl.
  - specialize (IH c). by destruct (snapItems refs c).
  - match goal with |- context [snapItems refs ?c'] => specialize (IH c') end.
    by destruct (snapItems refs _).
Qed.

Lemma snapOps_heap (os : list oref) (c : Core) :
  c_opsH (snapOps os c).2 = c_opsH c /\ c_rtH (snapOps os c).2 = c_rtH c
  /\ c_dirty (snapOps os c).2 = c_dirty c /\ c_trailing (snapOps os c).2 = c_trailing c
  /\ c_timers (snapOps os c).2 = c_timers c /\ c_lastEmit (snapOps os c).2 = c_lastEmit c.
Proof.
  revert c. induction os as [|o os IH]; intros c; simpl; [done|].
  destruct (snapOp o c) as [s c1] eqn:E.
  assert (H : c_opsH c1 = c_opsH c /\ c_rtH c1 = c_rtH c /\ c_dirty c1 = c_dirty c
              /\ c_trailing c1 = c_trailing c /\ c_timers c1 = c_timers c
              /\ c_lastEmit c1 = c_lastEmit c).
  { unfold snapOp in E. destruct (c_opSnaps c !! o); [by simplify_eq|].
    destruct (snapItems_heap (op_items (opOf c o)) c) as (?&?&?&?&?&?&?).
    destruct (snapItems _ c) as [copies c2]; simplify_eq. done. }
  specialize (IH c1). destruct (snapOps os c1) as [ss c2]; simpl in *. naive_solver congruence.
Qed.

(** ** What a flush publishes *)

(** What a subscriber should see of an operation. *)
Definition view (c : Core) (o : oref) : op_view :=
  {| ov_op := opOf c o; ov_items := itemsOf c o |}.

(** The snapshot caches hold nothing stale: a cached item is the item, and a cached operation is
    the operation unless it waits for the next flush. *)
Record snaps_ok (c : Core) : Prop := {
  so_op o v : c_opSnaps c !! o = Some v -> o ∉ c_dirty c -> v = view c o;
  so_item i it : c_itemSnaps c !! i = Some it -> it = itemOf c i;
}.

Definition counters_ok (c : Core) (o : oref) : Prop :=
  opOf c o = with_totals (totals_of (itemsOf c o)) (opOf c o).

Lemma view_heap (c c' : Core) (o : oref) :
  c_opsH c' = c_opsH c -> c_itemsH c' = c_itemsH c -> view c' o = view c o.
Proof.
  intros Ho Hi. unfold view, itemsOf, opOf. rewrite Ho. f_equal.
  apply map_ext. intros i. unfold itemOf. by rewrite Hi.
Qed.

Lemma snapItems_ok (refs : list iref) (c : Core) :
  (forall i it, c_itemSnaps c !! i = Some it -> it = itemOf c i) ->
  (snapItems refs c).1 = map (itemOf c) refs
  /\ (forall i it, c_itemSnaps (snapItems refs c).2 !! i = Some it -> it = itemOf c i).
Proof.
  revert c. induction refs as [|i refs IH]; intros c H; simpl; [done|].
  unfold snapItem. destruct (c_itemSnaps c !! i) as [it|] eqn:E; simpl.
  - destruct (IH c H) as [H1 H2]. destruct (snapItems refs c) as [ss c']; simpl in *.
    split; [|done]. f_equal; [by apply H | done].
  - match goal with |- context [snapItems refs ?c'] => set (c1 := c'); specialize (IH c1) end.
    destruct IH as [H1 H2].
    { intros j jt. simpl. intros [[<- <-]|[_ Hj]]%lookup_insert_Some; [done | by apply H]. }
    destruct (snapItems refs c1) as [ss c']; simpl in *. split; [|done].
    f_equal. rewrite H1. by apply map_ext.
Qed.

Lemma snapOps_ok (os : list oref) (c : Core) :
  (forall o v, c_opSnaps c !! o = Some v -> v = view c o) ->
  (forall i it, c_itemSnaps c !! i = Some it -> it = itemOf c i) ->
  (snapOps os c).1 = map (view c) os
  /\ (forall o v, c_opSnaps (snapOps os c).2 !! o = Some v -> v = view c o)
  /\ (forall i it, c_itemSnaps (snapOps os c).2 !! i = Some it -> it = itemOf c i).
Proof.
  revert c. induction os as [|o os IH]; intros c Ho Hi; simpl; [done|].
  destruct (snapOp o c) as [s c1] eqn:E.
  assert (Hc : c_opsH c1 = c_opsH c /\ c_itemsH c1 = c_itemsH c /\ s = view c o
     /\ (forall o v, c_opSnaps c1 !! o = Some v -> v = view c o)
     /\ (forall i it, c_itemSnaps c1 !! i = Some it -> it = itemOf c i)).
  { unfold snapOp in E. destruct (c_opSnaps c !! o) eqn:Es; [simplify_eq; eauto 10|].
    pose proof (snapItems_same (op_items (opOf c o)) c) as Hs.
    destruct (snapItems_heap (op_items (opOf c o)) c) as (Hh & _ & _ & _ & _ & _ & Hsn).
    destruct (snapItems_ok (op_items (opOf c o)) c Hi) as [H1 H2].
    destruct (snapItems _ c) as [copies c2]; simplify_eq. simpl in *.
    assert (Hw : {| ov_op := opOf c2 o; ov_items := copies |} = view c o).
    { unfold view, itemsOf. rewrite H1. unfold opOf. by rewrite Hh. }
    rewrite Hw. split_and!; [done | apply Hs | done | | exact H2].
    intros o' v. rewrite Hsn. intros [[<- <-]|[_ Hv]]%lookup_insert_Some; [done | by apply Ho]. }
  destruct Hc as (Hh & Hit & -> & Ho1 & Hi1).
  assert (Hv : forall o, view c1 o = view c o) by (intros; by apply view_heap).
  assert (Hiv : forall i, itemOf c1 i = itemOf c i) by (intros; unfold itemOf; by rewrite Hit).
  specialize (IH c1). destruct IH as (H1 & H2 & H3).
  { intros o' v Hs. rewrite Hv. by apply Ho1. }
  { intros i it Hs. rewrite Hiv. by apply Hi1. }
  destruct (snapOps os c1) as [ss c2]; simpl in *. split_and!.
  - rewrite H1. f_equal. by apply map_ext.
  - intros o' v Hs. rewrite <- Hv. by apply H2.
  - intros i it Hs. rewrite <- Hiv. by apply H3.
Qed.

(** Recomputing a list of operations gives each of them its totals. *)
Lemma foldl_recompute_op (l : list oref) (c : Core) (o : oref) :
  opOf (foldl (fun c o => recompute o c) c l) o
  = if decide (o ∈ l) then with_totals (totals_of (itemsOf c o)) (opOf c o) else opOf c o.
Proof.
  revert c. induction l as [|x l IH]; intros c; [done|]. simpl. rewrite IH. clear IH.
  rewrite (core_same_itemsOf c (recompute x c)) by apply same_recompute.
  assert (E : opOf (recompute x c) o
              = if decide (x = o) then with_totals (totals_of (itemsOf c o)) (opOf c o)
                else opOf c o).
  { unfold recompute, updOp, opOf. simpl. rewrite !lookup_total_alt.
    destruct (decide (x = o)) as [->|Hne].
    - rewrite lookup_alter_eq. unfold itemsOf, opOf. rewrite !lookup_total_alt.
      by destruct (c_opsH c !! o).
    - by rewrite lookup_alter_ne. }
  rewrite E. destruct (decide (x = o)) as [->|Hne].
  - rewrite (decide_True (P := o ∈ o :: l)) by set_solver.
    generalize (totals_of (itemsOf c o)) (opOf c o). intros t op. by destruct (decide (o ∈ l)).
  - case_decide; case_decide; try done; set_solver.
Qed.

(** The fields [recompute] and the dropping of snapshots do not write. *)
Lemma foldl_drop_snap (l : list oref) (c : Core) :
  c_opsH (foldl drop_snap c l) = c_opsH c /\ c_rtH (foldl drop_snap c l) = c_rtH c
  /\ c_itemSnaps (foldl drop_snap c l) = c_itemSnaps c
  /\ c_trailing (foldl drop_snap c l) = c_trailing c
  /\ c_timers (foldl drop_snap c l) = c_timers c
  /\ c_lastEmit (foldl drop_snap c l) = c_lastEmit c
  /\ (forall o, c_opSnaps (foldl drop_snap c l) !! o
                = if decide (o ∈ l) then None else c_opSnaps c !! o).
Proof.
  revert c. induction l as [|x l IH]; intros c; simpl; [done|].
  destruct (IH (drop_snap c x)) as (-> & -> & -> & -> & -> & -> & Hs). split_and!; try done.
  intros o. rewrite Hs. simpl. destruct (decide (x = o)) as [->|Hne].
  - rewrite lookup_delete_eq, (decide_True (P := o ∈ o :: l)) by set_solver. by case_decide.
  - rewrite lookup_delete_ne by done. do 2 case_decide; try done; set_solver.
Qed.

Lemma flush_counted_heap (c : Core) :
  c_rtH (flush_counted c) = c_rtH c /\ c_itemSnaps (flush_counted c) = c_itemSnaps c
  /\ c_trailing (flush_counted c) = None
  /\ c_timers (flush_counted c) = c_timers (clearOpt (c_trailing c) c)
  /\ c_lastEmit (flush_counted c) = Some (c_now c) /\ c_opSnaps (flush_counted c) = c_opSnaps c.
Proof.
  assert (Hr : forall l c', c_rtH (foldl (fun c o => recompute o c) c' l) = c_rtH c'
     /\ c_itemSnaps (foldl (fun c o => recompute o c) c' l) = c_itemSnaps c'
     /\ c_trailing (foldl (fun c o => recompute o c) c' l) = c_trailing c'
     /\ c_timers (foldl (fun c o => recompute o c) c' l) = c_timers c'
     /\ c_lastEmit (foldl (fun c o => recompute o c) c' l) = c_lastEmit c'
     /\ c_opSnaps (foldl (fun c o => recompute o c) c' l) = c_opSnaps c').
  { induction l as [|x l IH]; intros c'; simpl; [done|]. apply (IH (recompute x c')). }
  unfold flush_counted. cbv zeta.
  match goal with |- context [foldl _ ?c1 ?l] => destruct (Hr l c1) as (-> & -> & -> & -> & -> & ->) end.
  simpl. by destruct (c_trailing c).
Qed.

Lemma flush_ready_heap (c : Core) :
  c_opsH (flush_ready c) = c_opsH (flush_counted c)
  /\ c_rtH (flush_ready c) = c_rtH c
  /\ c_itemSnaps (flush_ready c) = c_itemSnaps c
  /\ c_trailing (flush_ready c) = None
  /\ c_timers (flush_ready c) = c_timers (clearOpt (c_trailing c) c)
  /\ c_lastEmit (flush_ready c) = Some (c_now c)
  /\ c_dirty (flush_ready c) = []
  /\ (forall o, c_opSnaps (flush_ready c) !! o
                = if decide (o ∈ c_dirty c) then None else c_opSnaps c !! o).
Proof.
  destruct (flush_counted_heap c) as (Hr & Hi & Ht & Hm & Hl & Hs).
  destruct (foldl_drop_snap (c_dirty c) (flush_counted c)) as (H1 & H2 & H3 & H4 & H5 & H6 & H7).
  unfold flush_ready. simpl. rewrite Hs in H7. split_and!; try done; congruence.
Qed.

(** A flush leaves the operations' records as they are, apart from the counters of the dirty
    ones, which it brings up to date. *)
Lemma flush_op (c : Core) (o : oref) :
  opOf (flush_counted c) o
  = if decide (o ∈ c_dirty c) then with_totals (totals_of (itemsOf c o)) (opOf c o) else opOf c o.
Proof.
  unfold flush_counted. simpl. rewrite dirty_clearOpt, foldl_recompute_op. simpl.
  by destruct (c_trailing c).
Qed.

Lemma notify_listeners_eq (c : Core) :
  notify_listeners c = c <| c_log ::= (fun l => rev (map EfNotify (c_listeners c)) ++ l) |>.
Proof.
  unfold notify_listeners. generalize (c_listeners c) as l. intros l. revert c.
  induction l as [|x l IH]; intros c; simpl; [by destruct c|]. rewrite IH. unfold logEff. simpl.
  by rewrite <- app_assoc.
Qed.

Lemma emitted_flush (c : Core) : emitted c (flush c).
Proof.
  destruct (snapOps_heap (c_ops (flush_ready c)) (flush_ready c)) as (Hh & Hrt & _).
  destruct (flush_ready_heap c) as (Hh2 & Hrt2 & _).
  split; [apply same_flush | | rewrite flush_eq, notify_listeners_eq; exact (eq_trans Hrt Hrt2)].
  intros o. rewrite flush_eq, notify_listeners_eq.
  transitivity (uncounted <$> c_opsH (flush_counted c) !! o); [by rewrite <- Hh2, <- Hh|].
  unfold flush_counted. simpl. rewrite dirty_clearOpt. etrans.
  - apply (emitted_foldl (fun c o => recompute o c)). intros; apply emitted_recompute.
  - by destruct (c_trailing c).
Qed.

Lemma emitted_emit (urgent : bool) (c : Core) : emitted c (emit urgent c).
Proof.
  split; [apply same_emit| |]; unfold emit;
    repeat (case_match; try done); try (intros; apply emitted_flush); try apply emitted_flush.
Qed.

Lemma flush_ready_snaps (c : Core) :
  snaps_ok c ->
  (forall o v, c_opSnaps (flush_ready c) !! o = Some v -> v = view (flush_ready c) o)
  /\ (forall i it, c_itemSnaps (flush_ready c) !! i = Some it -> it = itemOf (flush_ready c) i).
Proof.
  intros [Ho Hi]. pose proof (same_flush_ready c) as Hs.
  destruct (flush_ready_heap c) as (Hh & _ & Hsi & _ & _ & _ & _ & Hso). split.
  - intros o v. rewrite Hso. case_decide as Hd; [done|]. intros H. rewrite (Ho o v H Hd).
    unfold view. rewrite (core_same_itemsOf _ _ o Hs). f_equal.
    unfold opOf. rewrite Hh. change (opOf c o = opOf (flush_counted c) o).
    rewrite flush_op. by rewrite decide_False.
  - intros i it. rewrite Hsi, (core_same_item _ _ i Hs). apply Hi.
Qed.

(** The heap after a flush is the one its snapshots were taken from. *)
Lemma flush_heap (c : Core) :
  c_opsH (flush c) = c_opsH (flush_ready c) /\ c_itemsH (flush c) = c_itemsH c
  /\ c_dirty (flush c) = [] /\ c_trailing (flush c) = None /\ c_lastEmit (flush c) = Some (c_now c)
  /\ c_timers (flush c) = c_timers (clearOpt (c_trailing c) c).
Proof.
  destruct (flush_ready_heap c) as (_ & _ & _ & Ht & Hm & Hl & Hd & _).
  destruct (snapOps_heap (c_ops (flush_ready c)) (flush_ready c)) as (H1 & _ & H3 & H4 & H5 & H6).
  pose proof (cs_items _ _ (same_flush c)) as Hi.
  rewrite flush_eq, notify_listeners_eq in *.
  split_and!; [exact H1 | exact Hi | exact (eq_trans H3 Hd) | exact (eq_trans H4 Ht)
    | exact (eq_trans H6 Hl) | exact (eq_trans H5 Hm)].
Qed.

Lemma flush_view (c : Core) (o : oref) : view (flush c) o = view (flush_ready c) o.
Proof.
  destruct (flush_heap c) as (H1 & H2 & _). apply view_heap; [done|].
  by rewrite H2, (cs_items _ _ (same_flush_ready c)).
Qed.

(** *** What a flush shows of a marked operation, whatever the caches hold *)

(** What a snapshot takes for an item: its cached copy, or the item. *)
Definition seen_item (c : Core) (i : iref) : Item := default (itemOf c i) (c_itemSnaps c !! i).

Lemma snapItems_seen (refs : list iref) (c : Core) :
  (snapItems refs c).1 = map (seen_item c) refs /\ (forall i, seen_item (snapItems refs c).2 i = seen_item c i)
  /\ c_itemsH (snapItems refs c).2 = c_itemsH c.
Proof.
  revert c. induction refs as [|i refs IH]; intros c; simpl; [done|].
  unfold snapItem. destruct (c_itemSnaps c !! i) as [it|] eqn:E; simpl.
  - specialize (IH c). destruct (snapItems refs c) as [ss c']; simpl in *. destruct IH as (-> & H2 & H3).
    split_and!; [|done|done]. unfold seen_item at 2. by rewrite E.
  - match goal with |- context [snapItems refs ?c'] => set (c1 := c'); specialize (IH c1) end.
    assert (S : forall j, seen_item c1 j = seen_item c j).
    { intros j. unfold seen_item, c1. simpl. destruct (decide (j = i)) as [->|Hj]; [by rewrite lookup_insert_eq, E | by rewrite lookup_insert_ne]. }
    destruct (snapItems refs c1) as [ss c']; simpl in *. destruct IH as (-> & H2 & H3). split_and!; [|by intros j; rewrite H2|done].
    f_equal; [unfold seen_item; by rewrite E | by apply map_ext].
Qed.

(** The view taken of an operation without a cached one. *)
Definition taken (c : Core) (o : oref) (v : op_view) : Prop :=
  ov_op v = opOf c o /\ ov_items v = map (seen_item c) (op_items (opOf c o)).

Lemma snapOps_taken (os : list oref) (c : Core) (o : oref) :
  o ∈ os -> c_opSnaps c !! o = None -> exists v, v ∈ (snapOps os c).1 /\ taken c o v.
Proof.
  revert c. induction os as [|x os IH]; intros c Ho Hs; [by apply not_elem_of_nil in Ho|]. simpl.
  destruct (snapOp x c) as [s c1] eqn:E. destruct (decide (x = o)) as [->|Hx].
  - unfold snapOp in E. rewrite Hs in E. destruct (snapItems_seen (op_items (opOf c o)) c) as (H1 & _ & _).
    destruct (snapItems_heap (op_items (opOf c o)) c) as (Hh & _). destruct (snapItems _ c) as [copies c2]; simpl in *. injection E as <- <-.
    destruct (snapOps os _) as [ss c3]; simpl. eexists. split; [by left|]. split; simpl; [unfold opOf; by rewrite Hh | by rewrite H1].
  - assert (H : c_opSnaps c1 !! o = None /\ c_opsH c1 = c_opsH c /\ forall i, seen_item c1 i = seen_item c i).
    { unfold snapOp in E. destruct (c_opSnaps c !! x); [by simplify_eq|]. destruct (snapItems_seen (op_items (opOf c x)) c) as (_ & H2 & H3).
      destruct (snapItems_heap (op_items (opOf c x)) c) as (Hh & _ & _ & _ & _ & _ & Hsn). destruct (snapItems _ c) as [copies c2]; simpl in *. injection E as <- <-.
      simpl. rewrite lookup_insert_ne by done. split_and!; [by rewrite Hsn | done | done]. }
    destruct H as (H1 & H2 & H3). apply elem_of_cons in Ho as [?|Ho]; [done|]. destruct (IH c1 Ho H1) as (v & Hv & T1 & T2).
    destruct (snapOps os c1) as [ss c2]; simpl in *. exists v. split; [by right|]. split; [by rewrite T1; unfold opOf; rewrite H2|].
    rewrite T2. unfold opOf. rewrite H2. by apply map_ext.
Qed.

(** The published state shows the operation as it is, and each of its items that [c] has no cached copy of. *)
Definition shows (c c' : Core) (o : oref) : Prop :=
  exists v, v ∈ c_state c' /\ ov_op v = opOf c' o
    /\ forall k i, op_items (opOf c' o) !! k = Some i -> c_itemSnaps c !! i = None -> ov_items v !! k = Some (itemOf c' i).

Lemma flush_shows (c : Core) (o : oref) : o ∈ c_dirty c -> o ∈ c_ops c -> shows c (flush c) o.
Proof.
  intros Hd Ho. destruct (flush_ready_heap c) as (_ & _ & Hi & _ & _ & _ & _ & Hs). specialize (Hs o). rewrite decide_True in Hs by done.
  pose proof (same_flush_ready c) as Hsame. rewrite <- (cs_ops _ _ Hsame) in Ho.
  destruct (snapOps_taken (c_ops (flush_ready c)) (flush_ready c) o Ho Hs) as (v & Hv & T1 & T2). destruct (flush_heap c) as (H1 & H2 & _).
  assert (Eo : opOf (flush c) o = opOf (flush_ready c) o) by (unfold opOf; by rewrite H1).
  exists v. split; [by rewrite flush_eq, notify_listeners_eq|]. split; [by rewrite Eo|]. rewrite Eo. intros k i Hk Hn.
  rewrite T2, list_lookup_fmap, Hk. simpl. unfold seen_item. rewrite Hi, Hn. simpl. unfold itemOf. rewrite H2. by rewrite (cs_items _ _ Hsame).
Qed.

(** An update of an item is published at once, or its operation is marked and the cached copy of the item is gone. *)
Lemma patch_announced (o : oref) (i : iref) (p : list item_patch) (u : bool) (c : Core) : c_destroyed c = false -> o ∈ c_ops c ->
  let c' := patchItem' o i p u c in
  (o ∈ c_dirty c' /\ c_itemSnaps c' !! i = None)
  \/ (c_dirty c' = [] /\ exists v, v ∈ c_state c' /\ ov_op v = opOf c' o
       /\ forall k, op_items (opOf c' o) !! k = Some i -> ov_items v !! k = Some (itemOf c' i)).
Proof.
  intros Hd Ho. unfold patchItem'. cbv zeta. set (c1 := touch o (Some i) _).
  assert (H1 : o ∈ c_dirty c1) by (unfold c1, touch; simpl; unfold set_add; case_match; set_solver).
  assert (H2 : c_itemSnaps c1 !! i = None) by (unfold c1, touch; simpl; by rewrite lookup_delete_eq).
  assert (H3 : o ∈ c_ops c1) by done. assert (H4 : c_destroyed c1 = false) by done. clearbody c1.
  assert (F : c_dirty (flush c1) = [] /\ exists v, v ∈ c_state (flush c1) /\ ov_op v = opOf (flush c1) o
       /\ forall k, op_items (opOf (flush c1) o) !! k = Some i -> ov_items v !! k = Some (itemOf (flush c1) i)).
  { split; [apply flush_heap|]. destruct (flush_shows c1 o H1 H3) as (v & Hv & Ev & Hi). exists v. split_and!; [done..|]. intros k Hk. by apply Hi. }
  unfold emit. rewrite H4. destruct (_ || _); [by right|]. destruct (c_lastEmit c1) as [last|]; [|by right].
  destruct (EMIT_MS <=? _); [by right|]. left. destruct (c_trailing c1); [done|]. by destruct (setTimer _ _ c1) eqn:E; injection E as <- <-.
Qed.

(** What [flush] publishes, and what it leaves in the caches. *)
Lemma flush_spec (c : Core) :
  snaps_ok c ->
  c_state (flush c) = map (view (flush c)) (c_ops c)
  /\ snaps_ok (flush c)
  /\ (forall o, o ∈ c_dirty c -> counters_ok (flush c) o).
Proof.
  intros Hok. destruct (flush_ready_snaps c Hok) as [Ho Hi].
  destruct (snapOps_ok (c_ops (flush_ready c)) (flush_ready c) Ho Hi) as (H1 & H2 & H3).
  pose proof (cs_ops _ _ (same_flush_ready c)) as Eo.
  assert (Hst : c_state (flush c) = (snapOps (c_ops (flush_ready c)) (flush_ready c)).1)
    by (rewrite flush_eq, notify_listeners_eq; done).
  assert (Hos : c_opSnaps (flush c) = c_opSnaps (snapOps (c_ops (flush_ready c)) (flush_ready c)).2)
    by (rewrite flush_eq, notify_listeners_eq; done).
  assert (His : c_itemSnaps (flush c) = c_itemSnaps (snapOps (c_ops (flush_ready c)) (flush_ready c)).2)
    by (rewrite flush_eq, notify_listeners_eq; done).
  destruct (flush_heap c) as (Hh & Hit & Hd & _).
  split_and!.
  - rewrite Hst, H1, Eo. apply map_ext. intros o. by rewrite flush_view.
  - split.
    + intros o v. rewrite Hos, flush_view. intros H _. by apply H2.
    + intros i it. rewrite His. intros H. rewrite (H3 _ _ H). unfold itemOf.
      by rewrite Hit, (cs_items _ _ (same_flush_ready c)).
  - intros o Hin. unfold counters_ok. rewrite (core_same_itemsOf _ _ o (same_flush c)).
    unfold opOf. rewrite Hh. destruct (flush_ready_heap c) as (-> & _).
    change (opOf (flush_counted c) o
            = with_totals (totals_of (itemsOf c o)) (opOf (flush_counted c) o)).
    rewrite flush_op, decide_True by done. generalize (totals_of (itemsOf c o)) (opOf c o).
    intros t op. by destruct op.
Qed.

(** ** No update is lost *)

(** Which timers may exist: ids are never reused and an operation's own timers are not the
    trailing one, so that clearing them cannot cancel a pending emit. *)
Record timers_ok (c : Core) : Prop := {
  to_fresh tm : tm ∈ c_timers c -> (tm_id tm < c_fresh c)%positive;
  to_rt o r t : c_rtH c !! o = Some r ->
    rt_showTimer r = Some t \/ rt_invTimer r = Some t \/ rt_clearTimer r = Some t ->
    (t < c_fresh c)%positive
    /\ forall tm, tm ∈ c_timers c -> tm_id tm = t -> tm_cb tm <> CbTrailing;
  to_trailing t : c_destroyed c = false -> c_trailing c = Some t ->
    exists tm, tm ∈ c_timers c /\ tm_id tm = t /\ tm_cb tm = CbTrailing
      /\ exists last, c_lastEmit c = Some last /\ tm_due tm <= last + EMIT_MS;
  to_unique tm tm' : tm ∈ c_timers c -> tm' ∈ c_timers c -> tm_id tm = tm_id tm' -> tm = tm';
}.

(** Every change is either published or a trailing emit is armed for it. *)
Definition no_lost_update (c : Core) : Prop :=
  timers_ok c /\ (c_destroyed c = false -> c_dirty c <> [] -> c_trailing c <> None).

(** The fields [timers_ok] reads. *)
Lemma timers_ok_ext (c c' : Core) :
  timers_ok c -> c_timers c' = c_timers c -> c_rtH c' = c_rtH c ->
  (c_fresh c <= c_fresh c')%positive ->
  c_trailing c' = c_trailing c -> c_lastEmit c' = c_lastEmit c ->
  c_destroyed c' = c_destroyed c -> timers_ok c'.
Proof.
  intros [F R T U] E1 E2 E3 E4 E5 E6. split; rewrite ?E1, ?E2, ?E4, ?E5, ?E6; try done.
  - intros tm Hm. specialize (F tm Hm). lia.
  - intros o r t Hr Ht. destruct (R o r t Hr Ht) as [Hlt Hcb]. split; [lia | done].
Qed.

Lemma timers_ok_rt (o : oref) (f : Rt -> Rt) (c : Core) :
  timers_ok c ->
  (forall r t, rt_showTimer (f r) = Some t \/ rt_invTimer (f r) = Some t
               \/ rt_clearTimer (f r) = Some t ->
     rt_showTimer r = Some t \/ rt_invTimer r = Some t \/ rt_clearTimer r = Some t) ->
  timers_ok (updRt o f c).
Proof.
  intros [F R T U] Hf. split; simpl; try done.
  intros o' r t [[<- <-]|[_ Hr]]%lookup_insert_Some Ht; [|by eapply R].
  apply Hf in Ht. unfold rtOf in Ht. destruct (c_rtH c !! o) eqn:E; simpl in Ht.
  - by eapply R.
  - naive_solver.
Qed.

(** Clearing a timer that is not the trailing one. *)
Lemma timers_ok_clear (t : positive) (c : Core) :
  timers_ok c ->
  (forall tm, tm ∈ c_timers c -> tm_id tm = t -> tm_cb tm <> CbTrailing) ->
  timers_ok (clearTimer t c).
Proof.
  intros [F R T U] Ht.
  assert (Hin : forall tm, tm ∈ c_timers (clearTimer t c) <-> tm ∈ c_timers c /\ tm_id tm <> t).
  { intros tm. simpl. rewrite !list_elem_of_In, filter_In, negb_true_iff, Pos.eqb_neq. done. }
  split.
  - intros tm [Hm _]%Hin. by apply F.
  - intros o r t' Hr Ht'. destruct (R o r t' Hr Ht') as [Hlt Hcb]. split; [done|].
    intros tm [Hm _]%Hin. by apply Hcb.
  - intros t' Hd Htr. destruct (T t' Hd Htr) as (tm & Hm & Hid & Hcb & Hdue). exists tm.
    rewrite Hin. split_and!; try done. intros E. by apply (Ht tm Hm E).
  - intros tm tm' [Hm _]%Hin [Hm' _]%Hin. by apply U.
Qed.

(** A new timer that is not the trailing one. *)
Lemma timers_ok_set (cb : timer_cb) (ms : Z) (c : Core) :
  timers_ok c -> timers_ok (setTimer cb ms c).2
  /\ (cb <> CbTrailing -> forall tm, tm ∈ c_timers (setTimer cb ms c).2 ->
        tm_id tm = (setTimer cb ms c).1 -> tm_cb tm <> CbTrailing)
  /\ ((setTimer cb ms c).1 < c_fresh (setTimer cb ms c).2)%positive.
Proof.
  intros [F R T U]. unfold setTimer. simpl. split_and!; [split; simpl | | lia].
  - intros tm [->|Hm]%elem_of_cons; simpl; [lia|]. specialize (F tm Hm). lia.
  - intros o r t Hr Ht. destruct (R o r t Hr Ht) as [Hlt Hcb]. split; [lia|].
    intros tm [->|Hm]%elem_of_cons; [simpl; lia | by apply Hcb].
  - intros t Hd Ht. destruct (T t Hd Ht) as (tm & Hm & H). exists tm. split; [by right | done].
  - intros tm tm' [->|Hm]%elem_of_cons [->|Hm']%elem_of_cons; simpl; try done.
    + intros E. specialize (F _ Hm'). lia.
    + intros E. specialize (F _ Hm). lia.
    + by apply U.
  - intros Hne tm [->|Hm]%elem_of_cons; simpl; [done|]. intros E. specialize (F _ Hm). lia.
Qed.

(** ** Every function of the store keeps the timers in order *)

Lemma tk_updOp (o : oref) (f : Op -> Op) (c : Core) : timers_ok c -> timers_ok (updOp o f c).
Proof. intros H. by apply (timers_ok_ext c). Qed.
Lemma tk_updItem (i : iref) (f : Item -> Item) (c : Core) : timers_ok c -> timers_ok (updItem i f c).
Proof. intros H. by apply (timers_ok_ext c). Qed.
Lemma tk_log (e : eff) (c : Core) : timers_ok c -> timers_ok (logEff e c).
Proof. intros H. by apply (timers_ok_ext c). Qed.
Lemma tk_touch (o : oref) (i : option iref) (c : Core) : timers_ok c -> timers_ok (touch o i c).
Proof. intros H. destruct i; by apply (timers_ok_ext c). Qed.
Lemma tk_foldl {A} (f : Core -> A -> Core) (l : list A) (c : Core) :
  (forall c a, timers_ok c -> timers_ok (f c a)) -> timers_ok c -> timers_ok (foldl f c l).
Proof. intros Hf. revert c. induction l as [|a l IH]; intros c H; simpl; auto. Qed.

Lemma tk_flush (c : Core) : timers_ok c -> timers_ok (flush c).
Proof.
  intros [F R T U]. destruct (flush_heap c) as (_ & _ & _ & Htr & Hl & Hm).
  pose proof (em_rt _ _ (emitted_flush c)) as Hr. pose proof (same_flush c) as Hs.
  assert (Hsub : forall tm, tm ∈ c_timers (clearOpt (c_trailing c) c) -> tm ∈ c_timers c).
  { intros tm. destruct (c_trailing c); simpl; [|done].
    rewrite !list_elem_of_In, filter_In. tauto. }
  split; rewrite ?Hm, ?Hr, ?Htr.
  - intros tm Hin. specialize (F tm (Hsub _ Hin)). pose proof (cs_fresh _ _ Hs). lia.
  - intros o r t Hro Ht. destruct (R o r t Hro Ht) as [Hlt Hcb].
    pose proof (cs_fresh _ _ Hs). split; [lia|]. intros tm Hin. by apply Hcb, Hsub.
  - done.
  - intros tm tm' H1 H2. apply U; by apply Hsub.
Qed.

(** Arming the trailing emit. *)
Lemma tk_arm (last : Z) (c : Core) :
  timers_ok c -> c_trailing c = None -> c_lastEmit c = Some last ->
  timers_ok ((setTimer CbTrailing (EMIT_MS - (c_now c - last)) c).2
               <| c_trailing := Some (setTimer CbTrailing (EMIT_MS - (c_now c - last)) c).1 |>).
Proof.
  intros [F R T U] Htr Hl. split; simpl.
  - intros tm [->|Hm]%elem_of_cons; simpl; [lia|]. specialize (F tm Hm). lia.
  - intros o r t Hr Ht. destruct (R o r t Hr Ht) as [Hlt Hcb]. split; [lia|].
    intros tm [->|Hm]%elem_of_cons; [simpl; lia | by apply Hcb].
  - intros t _ [= <-]. eexists. split; [left|]. simpl. split_and!; try done.
    exists last. split; [done|]. lia.
  - intros tm tm' [->|Hm]%elem_of_cons [->|Hm']%elem_of_cons; simpl; try done.
    + intros E. specialize (F _ Hm'). lia.
    + intros E. specialize (F _ Hm). lia.
    + by apply U.
Qed.

Lemma tk_emit (urgent : bool) (c : Core) : timers_ok c -> timers_ok (emit urgent c).
Proof.
  intros H. unfold emit. destruct (c_destroyed c); [done|]. destruct urgent; [by apply tk_flush|].
  destruct (c_lastEmit c) as [last|] eqn:El; [|by apply tk_flush].
  destruct (EMIT_MS <=? _); [by apply tk_flush|].
  destruct (c_trailing c) eqn:Et; [done|]. by apply (tk_arm last).
Qed.

(** After an emit nothing is left unannounced. *)
Lemma emit_no_lost_update (urgent : bool) (c : Core) : timers_ok c -> no_lost_update (emit urgent c).
Proof.
  intros H. split; [by apply tk_emit|]. unfold emit.
  assert (Hf : c_dirty (flush c) = []) by apply flush_heap.
  destruct (c_destroyed c) eqn:Ed; [congruence|]. destruct urgent; [congruence|].
  destruct (c_lastEmit c) as [last|]; [|congruence].
  destruct (EMIT_MS <=? _); [congruence|]. destruct (c_trailing c) eqn:Et; [congruence|]. done.
Qed.

(** The three timers of an operation are set and cleared one at a time. *)
Lemma tk_drop (o : oref) (t : positive) (c : Core) :
  timers_ok c ->
  rt_showTimer (rtOf c o) = Some t \/ rt_invTimer (rtOf c o) = Some t
    \/ rt_clearTimer (rtOf c o) = Some t ->
  timers_ok (clearTimer t c).
Proof.
  intros H Ht. apply timers_ok_clear; [done|]. unfold rtOf in Ht.
  destruct (c_rtH c !! o) as [r|] eqn:E; simpl in Ht; [|naive_solver].
  by destruct (to_rt _ H o r t E Ht).
Qed.

Lemma tk_set_rt (o : oref) (cb : timer_cb) (ms : Z) (f : positive -> Rt -> Rt) (c : Core) :
  timers_ok c -> cb <> CbTrailing ->
  (forall t0 r t, rt_showTimer (f t0 r) = Some t \/ rt_invTimer (f t0 r) = Some t
               \/ rt_clearTimer (f t0 r) = Some t ->
     t = t0 \/ rt_showTimer r = Some t \/ rt_invTimer r = Some t \/ rt_clearTimer r = Some t) ->
  timers_ok (updRt o (f (setTimer cb ms c).1) (setTimer cb ms c).2).
Proof.
  intros H Hne Hf. destruct (timers_ok_set cb ms c H) as (Hk & Hcb & Hlt).
  pose proof Hk as [F R T U]. specialize (Hcb Hne).
  split; [exact F | | exact T | exact U].
  intros o' r t. simpl. intros [[<- <-]|[_ Hr]]%lookup_insert_Some Ht; [|by apply (R o' r t)].
  apply Hf in Ht as [->|Ht]; [by split|].
  change (c_rtH c) with (c_rtH (setTimer cb ms c).2) in *.
  change (rtOf _ o) with (default rt0 (c_rtH (setTimer cb ms c).2 !! o)) in Ht.
  destruct (c_rtH (setTimer cb ms c).2 !! o) eqn:E; simpl in Ht; [by eapply R | naive_solver].
Qed.

Ltac rt_less := intros ? ?; simpl; naive_solver.

Lemma tk_dropShowTimer (o : oref) (c : Core) : timers_ok c -> timers_ok (dropShowTimer o c).
Proof.
  intros H. unfold dropShowTimer. case_match eqn:E; [|done].
  apply timers_ok_rt; [|rt_less]. eapply (tk_drop o); eauto.
Qed.
Lemma tk_dropInvTimer (o : oref) (c : Core) : timers_ok c -> timers_ok (dropInvTimer o c).
Proof.
  intros H. unfold dropInvTimer. case_match eqn:E; [|done].
  apply timers_ok_rt; [|rt_less]. eapply (tk_drop o); eauto.
Qed.
Lemma tk_dropClearTimer (o : oref) (c : Core) : timers_ok c -> timers_ok (dropClearTimer o c).
Proof.
  intros H. unfold dropClearTimer. case_match eqn:E; [|done].
  apply timers_ok_rt; [|rt_less]. eapply (tk_drop o); eauto.
Qed.

Create HintDb timers.
#[export] Hint Resolve tk_updOp tk_updItem tk_log tk_touch tk_emit tk_flush tk_dropShowTimer
  tk_dropInvTimer tk_dropClearTimer : timers.

Lemma tk_invalidate (keys : list query_key) (c : Core) : timers_ok c -> timers_ok (invalidate keys c).
Proof. apply tk_foldl. auto with timers. Qed.
Lemma tk_flushFolders (o : oref) (c : Core) : timers_ok c -> timers_ok (flushFolders o c).
Proof.
  intros H. unfold flushFolders. apply timers_ok_rt; [|rt_less].
  apply tk_foldl; auto with timers.
Qed.
Lemma tk_noteFolder (o : oref) (f : jstr) (c : Core) : timers_ok c -> timers_ok (noteFolder o f c).
Proof.
  intros H. unfold noteFolder. set (c1 := _ ▷ updRt o _).
  assert (H1 : timers_ok c1) by (apply timers_ok_rt; [done | rt_less]).
  case_match; [done|].
  apply (tk_set_rt o (CbInvalidate o) INVALIDATE_GAP_MS (fun t r => r <| rt_invTimer := Some t |>));
    [done | done |]. intros t0 r t; simpl; naive_solver.
Qed.
Lemma tk_notify (o : oref) (t : haptic_type) (c : Core) : timers_ok c -> timers_ok (notify o t c).
Proof.
  intros H. unfold notify.
  assert (timers_ok (c ▷ updRt o (set_hapticAt t (c_now c)) ▷ logEff (EfHaptic t))).
  { apply tk_log. apply timers_ok_rt; [done|]. intros r t'. by destruct t. }
  by repeat case_match.
Qed.
#[export] Hint Resolve tk_invalidate tk_flushFolders tk_noteFolder tk_notify : timers.

Lemma tk_finish_invalidate (o : oref) (c : Core) : timers_ok c -> timers_ok (finish_invalidate o c).
Proof. intros H. unfold finish_invalidate. case_match; auto with timers. Qed.
Lemma tk_finish_toast (o : oref) (done : Z) (c : Core) : timers_ok c -> timers_ok (finish_toast o done c).
Proof.
  intros H. unfold finish_toast.
  assert (timers_ok (c ▷ updRt o (fun r => r <| rt_toasted := true |>)))
    by (apply timers_ok_rt; [done | rt_less]).
  repeat case_match; auto with timers.
Qed.
Lemma tk_finish_follow (o : oref) (done : Z) (c : Core) : timers_ok c -> timers_ok (finish_follow o done c).
Proof. intros H. unfold finish_follow. case_match; auto with timers. Qed.
Lemma tk_finish_auto_clear (o : oref) (c : Core) : timers_ok c -> timers_ok (finish_auto_clear o c).
Proof.
  intros H. unfold finish_auto_clear. case_match; [|done].
  assert (H1 : timers_ok (clearOpt (rt_clearTimer (rtOf c o)) c)).
  { destruct (rt_clearTimer (rtOf c o)) eqn:E; [|done]. eapply (tk_drop o); eauto. }
  apply (tk_set_rt o (CbAutoClear o) AUTO_CLEAR_MS (fun t r => r <| rt_clearTimer := Some t |>));
    [done | done |]. intros t0 r t; simpl; naive_solver.
Qed.
#[export] Hint Resolve tk_finish_invalidate tk_finish_toast tk_finish_follow
  tk_finish_auto_clear : timers.

Lemma tk_finish (o : oref) (done : Z) (c : Core) : timers_ok c -> timers_ok (finish o done c).
Proof. intros H. unfold finish. auto 20 with timers. Qed.
#[export] Hint Resolve tk_finish : timers.

Lemma tk_settle_running (o : oref) (c : Core) : timers_ok c -> timers_ok (settle_running o c).
Proof.
  intros H. unfold settle_running. case_match; [|auto with timers].
  apply tk_dropClearTimer, timers_ok_rt; [auto with timers | rt_less].
Qed.
Lemma tk_settle_ended (o : oref) (c : Core) : timers_ok c -> timers_ok (settle_ended o c).
Proof. intros H. unfold settle_ended. case_match; auto with timers. Qed.
#[export] Hint Resolve tk_settle_running tk_settle_ended : timers.

Lemma tk_settle (o : oref) (c : Core) : timers_ok c -> timers_ok (settle o c).
Proof. intros H. unfold settle. repeat case_match; auto with timers. Qed.
#[export] Hint Resolve tk_settle : timers.

Lemma tk_removeOp (o : oref) (c : Core) : timers_ok c -> timers_ok (removeOp o c).
Proof.
  intros H. unfold removeOp. destruct (list_find _ _) as [[k ?]|]; [|done]. apply tk_emit.
  assert (Hc : forall t c', timers_ok c' -> c_rtH c' = c_rtH c ->
     rt_showTimer (rtOf c o) = t \/ rt_invTimer (rtOf c o) = t \/ rt_clearTimer (rtOf c o) = t ->
     timers_ok (clearOpt t c')).
  { intros [t|] c' H' Er Ht; [|done]. eapply (tk_drop o); [done|]. unfold rtOf in *.
    by rewrite Er. }
  apply (timers_ok_ext (clearOpt (rt_showTimer (rtOf c o))
           (clearOpt (rt_clearTimer (rtOf c o)) (clearOpt (rt_invTimer (rtOf c o)) c)))); try done.
  apply Hc; [apply Hc; [apply Hc; [done | done | auto] | | auto] | | auto];
    by repeat destruct (rt_invTimer _), (rt_clearTimer _).
Qed.

Lemma tk_patchItem (o : oref) (i : iref) (p : list item_patch) (u : bool) (c : Core) :
  timers_ok c -> timers_ok (patchItem' o i p u c).
Proof. intros H. unfold patchItem'. auto with timers. Qed.
Lemma tk_patchOp (o : oref) (f : Op -> Op) (c : Core) : timers_ok c -> timers_ok (patchOp o f c).
Proof. intros H. unfold patchOp. auto with timers. Qed.
Lemma tk_addItem (o : oref) (i : iref) (c : Core) : timers_ok c -> timers_ok (addItem o i c).
Proof. intros H. unfold addItem, pushItem. auto with timers. Qed.
Lemma tk_removeItem (o : oref) (i : iref) (c : Core) : timers_ok c -> timers_ok (removeItem o i c).
Proof. intros H. unfold removeItem. repeat case_match; auto with timers. Qed.
Lemma tk_addOp (o : oref) (c : Core) : timers_ok c -> timers_ok (addOp o c).
Proof.
  intros H. unfold addOp. set (c1 := c <| c_ops ::= _ |>).
  assert (H1 : timers_ok c1) by (by apply (timers_ok_ext c)).
  apply tk_emit, tk_touch. case_match; [auto with timers|].
  apply (tk_set_rt o (CbShow o) SHOW_AFTER_MS (fun t r => r <| rt_showTimer := Some t |>));
    [done | done |]. intros t0 r t; simpl; naive_solver.
Qed.
#[export] Hint Resolve tk_removeOp tk_patchItem tk_patchOp tk_addItem tk_removeItem tk_addOp : timers.

(** ** The state [settle] derives *)

Lemma foldl_log_eq {A} (f : A -> eff) (l : list A) (c : Core) :
  foldl (fun c a => logEff (f a) c) c l = c <| c_log ::= (fun g => rev (map f l) ++ g) |>.
Proof.
  revert c. induction l as [|a l IH]; intros c; simpl; [by destruct c|]. rewrite IH. unfold logEff.
  simpl. by rewrite <- app_assoc.
Qed.

Lemma opsH_dropShowTimer (o : oref) (c : Core) : c_opsH (dropShowTimer o c) = c_opsH c.
Proof. unfold dropShowTimer. by case_match. Qed.
Lemma opsH_dropInvTimer (o : oref) (c : Core) : c_opsH (dropInvTimer o c) = c_opsH c.
Proof. unfold dropInvTimer. by case_match. Qed.
Lemma opsH_dropClearTimer (o : oref) (c : Core) : c_opsH (dropClearTimer o c) = c_opsH c.
Proof. unfold dropClearTimer. by case_match. Qed.
Lemma opsH_flushFolders (o : oref) (c : Core) : c_opsH (flushFolders o c) = c_opsH c.
Proof. unfold flushFolders. by rewrite foldl_log_eq. Qed.
Lemma opsH_invalidate (keys : list query_key) (c : Core) : c_opsH (invalidate keys c) = c_opsH c.
Proof. unfold invalidate. by rewrite foldl_log_eq. Qed.
Lemma opsH_finish_invalidate (o : oref) (c : Core) : c_opsH (finish_invalidate o c) = c_opsH c.
Proof. unfold finish_invalidate. rewrite opsH_invalidate. case_match; by rewrite ?opsH_invalidate. Qed.
Lemma opsH_finish_toast (o : oref) (d : Z) (c : Core) : c_opsH (finish_toast o d c) = c_opsH c.
Proof. unfold finish_toast. by repeat case_match. Qed.
Lemma opsH_finish_follow (o : oref) (d : Z) (c : Core) : c_opsH (finish_follow o d c) = c_opsH c.
Proof. unfold finish_follow. by case_match. Qed.
Lemma opsH_finish_auto_clear (o : oref) (c : Core) : c_opsH (finish_auto_clear o c) = c_opsH c.
Proof. unfold finish_auto_clear. case_match; [|done]. simpl. by destruct (rt_clearTimer _). Qed.
Create Rewrite HintDb luna_heap.
#[export] Hint Rewrite opsH_dropShowTimer opsH_dropInvTimer opsH_dropClearTimer opsH_flushFolders
  opsH_invalidate opsH_finish_invalidate opsH_finish_toast opsH_finish_follow
  opsH_finish_auto_clear : luna_heap.

Lemma opOf_updOp (o : oref) (f : Op -> Op) (c : Core) :
  is_Some (c_opsH c !! o) -> opOf (updOp o f c) o = f (opOf c o).
Proof.
  intros [op E]. unfold opOf, updOp. simpl. rewrite !lookup_total_alt, lookup_alter_eq, E. done.
Qed.

Lemma updOp_is_Some (o o' : oref) (f : Op -> Op) (c : Core) :
  is_Some (c_opsH (updOp o f c) !! o') <-> is_Some (c_opsH c !! o').
Proof. unfold updOp. simpl. by rewrite lookup_alter_is_Some. Qed.

Lemma opOf_heap (c c' : Core) (o : oref) : c_opsH c' = c_opsH c -> opOf c' o = opOf c o.
Proof. unfold opOf. by intros ->. Qed.

(** [finish] ends the operation now, and shows it when it ended badly. *)
Lemma finish_op (o : oref) (d : Z) (c : Core) :
  is_Some (c_opsH c !! o) ->
  opOf (finish o d c) o
  = (opOf c o) <| op_endedAt := Some (c_now c) |>
             <| op_shown := op_shown (opOf c o) || ended_badly (op_state_of (opOf c o)) |>.
Proof.
  intros H. unfold finish. etrans; [apply opOf_heap; by autorewrite with luna_heap|].
  rewrite opOf_updOp by (by rewrite updOp_is_Some). by rewrite opOf_updOp.
Qed.

Definition running_state (items : list iref) : op_state :=
  match items with [] => OPreparing | _ => ORunning end.

Definition settle_decides (items : list Item) : bool :=
  existsb (fun i => bool_decide (it_state i = INeedsDecision)) items.

(** The state, the end time and the visibility of an operation after [settle]. *)
Definition settled (now : Z) (items : list Item) (op : Op) : op_state * option Z * bool :=
  let shown := op_shown op || existsb is_problem items in
  if op_walking op || existsb isActiveItem items then (running_state (op_items op), None, shown)
  else if settle_decides items then (OWaiting, op_endedAt op, shown)
  else
    let st := ended_state op items in
    match op_endedAt op with
    | Some t => (st, Some t, shown)
    | None => (st, Some now, shown || ended_badly st)
    end.

Lemma emit_op_state (u : bool) (c : Core) (o : oref) :
  uncounted (opOf (emit u c) o) = uncounted (opOf c o).
Proof.
  pose proof (em_ops _ _ (emitted_emit u c) o) as E. unfold opOf. rewrite !lookup_total_alt.
  destruct (c_opsH (emit u c) !! o), (c_opsH c !! o); simpl in *; congruence.
Qed.

Lemma settle_spec (o : oref) (c : Core) :
  o ∈ c_ops c -> is_Some (c_opsH c !! o) ->
  (op_state_of (opOf (settle o c) o), op_endedAt (opOf (settle o c) o),
   op_shown (opOf (settle o c) o))
  = settled (c_now c) (itemsOf c o) (opOf c o).
Proof.
  intros Hin Hs. unfold settle. rewrite bool_decide_eq_true_2 by done. cbv zeta. cbn [negb].
  set (c1 := if existsb is_problem _ then _ else c).
  set (c2 := if op_walking _ || _ then _ else _).
  assert (Hc1 : core_same c c1) by (unfold c1; same_chain).
  assert (H1 : is_Some (c_opsH c1 !! o)) by (unfold c1; case_match; by rewrite ?updOp_is_Some).
  assert (E1 : opOf c1 o = (opOf c o) <| op_shown := op_shown (opOf c o)
                 || existsb is_problem (itemsOf c o) |>).
  { unfold c1. destruct (existsb is_problem _).
    - rewrite opOf_updOp by done. by rewrite orb_true_r.
    - rewrite orb_false_r. by destruct (opOf c o). }
  pose proof (emit_op_state true (touch o None c2) o) as E. cbn [negb] in *.
  apply (f_equal (fun op => (op_state_of op, op_endedAt op, op_shown op))) in E.
  simpl in E. etrans; [exact E|]. clear E.
  unfold settled. change (opOf (touch o None c2) o) with (opOf c2 o). unfold c2. clear c2.
  fold (settle_decides (itemsOf c o)).
  replace (op_walking (opOf c1 o)) with (op_walking (opOf c o)) by (by rewrite E1).
  destruct (op_walking (opOf c o) || _); [|destruct (settle_decides _)].
  - unfold settle_running. rewrite E1. simpl.
    assert (Hr : forall c', is_Some (c_opsH c' !! o) ->
      opOf (dropClearTimer o (updRt o (fun r => r <| rt_toasted := false |>)
        (updOp o (fun op => op <| op_endedAt := None |>) c'))) o
      = (opOf c' o) <| op_endedAt := None |>).
    { intros c' H'. etrans; [apply opOf_heap; by autorewrite with luna_heap|].
      rewrite <- opOf_updOp by done. by apply opOf_heap. }
    case_bool_decide as He.
    + rewrite Hr by (by rewrite updOp_is_Some). rewrite opOf_updOp by done. by rewrite E1.
    + rewrite opOf_updOp by done. rewrite E1. simpl. f_equal. f_equal.
      by destruct (op_endedAt (opOf c o)).
  - rewrite opOf_updOp by done. by rewrite E1.
  - unfold settle_ended. rewrite E1. simpl. rewrite (core_same_itemsOf _ _ o Hc1).
    set (st := ended_state _ _).
    assert (Est : st = ended_state (opOf c o) (itemsOf c o)) by done.
    assert (E2 : opOf (updOp o (fun op => op <| op_state_of := st |>) c1) o
                 = (opOf c1 o) <| op_state_of := st |>) by (by rewrite opOf_updOp).
    destruct (op_endedAt (opOf c o)) as [t|] eqn:Et; cbn -[opOf updOp finish].
    + rewrite opOf_updOp by done. rewrite E1. simpl. by rewrite Et.
    + rewrite finish_op by (by rewrite updOp_is_Some). rewrite opOf_updOp by done.
      rewrite E1. simpl. by rewrite (cs_now _ _ Hc1).
Qed.

(** ** Effects of emitting and settling *)

Definition is_notify (e : eff) : Prop := match e with EfNotify _ => True | _ => False end.

(** [quiet c c']: from [c] to [c'] nothing but calls of listeners happened. *)
Definition quiet (c c' : Core) : Prop :=
  exists l, c_log c' = l ++ c_log c /\ Forall is_notify l.

#[export] Instance quiet_pre : PreOrder quiet.
Proof.
  split.
  - intros c. by exists [].
  - intros c1 c2 c3 (l & E & F) (l' & E' & F'). exists (l' ++ l).
    rewrite E', E, app_assoc. split; [done|]. by apply Forall_app.
Qed.

Lemma snapItems_log (refs : list iref) (c : Core) : c_log (snapItems refs c).2 = c_log c.
Proof.
  revert c. induction refs as [|i refs IH]; intros c; simpl; [done|]. unfold snapItem.
  destruct (c_itemSnaps c !! i).
  - specialize (IH c). by destruct (snapItems refs c).
  - match goal with |- context [snapItems refs ?c'] => specialize (IH c') end.
    by destruct (snapItems refs _).
Qed.

Lemma snapOps_log (os : list oref) (c : Core) : c_log (snapOps os c).2 = c_log c.
Proof.
  revert c. induction os as [|o os IH]; intros c; simpl; [done|].
  destruct (snapOp o c) as [s c1] eqn:E.
  assert (H : c_log c1 = c_log c).
  { unfold snapOp in E. destruct (c_opSnaps c !! o); [by simplify_eq|].
    pose proof (snapItems_log (op_items (opOf c o)) c). destruct (snapItems _ c). by simplify_eq. }
  specialize (IH c1). destruct (snapOps os c1). simpl in *. congruence.
Qed.

Lemma flush_ready_log (c : Core) : c_log (flush_ready c) = c_log c.
Proof.
  assert (Hd : forall l c, c_log (foldl drop_snap c l) = c_log c).
  { induction l as [|x l IH]; intros c'; simpl; [done|]. by rewrite IH. }
  assert (Hr : forall l c, c_log (foldl (fun c o => recompute o c) c l) = c_log c).
  { induction l as [|x l IH]; intros c'; simpl; [done|]. by rewrite IH. }
  unfold flush_ready. simpl. rewrite Hd. unfold flush_counted. rewrite Hr. by destruct (c_trailing c).
Qed.

Lemma quiet_flush (c : Core) : quiet c (flush c).
Proof.
  rewrite flush_eq, notify_listeners_eq. eexists. split.
  - simpl. rewrite snapOps_log, flush_ready_log. reflexivity.
  - apply Forall_rev, Forall_forall. intros e (l & -> & _)%list_elem_of_fmap. done.
Qed.

Lemma quiet_emit (u : bool) (c : Core) : quiet c (emit u c).
Proof.
  unfold emit. destruct (c_destroyed c); [done|]. destruct u; [apply quiet_flush|].
  destruct (c_lastEmit c); [|apply quiet_flush]. destruct (EMIT_MS <=? _); [apply quiet_flush|].
  destruct (c_trailing c); [done|]. by exists [].
Qed.

(** Settling an operation that has just been settled announces nothing again. *)
Lemma settle_again (o : oref) (c : Core) :
  o ∈ c_ops c -> is_Some (c_opsH c !! o) ->
  op_endedAt (opOf c o)
  = (if op_walking (opOf c o) || existsb isActiveItem (itemsOf c o) then None
     else if settle_decides (itemsOf c o) then op_endedAt (opOf c o)
     else Some (default 0 (op_endedAt (opOf c o)))) ->
  quiet c (settle o c).
Proof.
  intros Hin Hs He. unfold settle. rewrite bool_decide_eq_true_2 by done. cbv zeta. cbn [negb].
  etrans; [|apply quiet_emit].
  set (c1 := if existsb is_problem _ then _ else c).
  assert (Hc1 : core_same c c1) by (unfold c1; same_chain).
  assert (H1 : is_Some (c_opsH c1 !! o)) by (unfold c1; destruct (existsb is_problem _); by rewrite ?updOp_is_Some).
  assert (Hl : c_log c1 = c_log c) by (unfold c1; by destruct (existsb is_problem _)).
  assert (Ew : op_walking (opOf c1 o) = op_walking (opOf c o)).
  { pose proof (core_same_op _ _ o Hc1) as E. unfold op_fixed in E. congruence. }
  assert (Een : op_endedAt (opOf c1 o) = op_endedAt (opOf c o)).
  { unfold c1. destruct (existsb is_problem _); [|done]. by rewrite opOf_updOp. }
  rewrite Ew. fold (settle_decides (itemsOf c o)). exists []. split; [|constructor].
  change (c_log (touch o None ?x)) with (c_log x). simpl.
  destruct (op_walking (opOf c o) || _); [|destruct (settle_decides _)].
  - unfold settle_running. rewrite Een, He. by rewrite bool_decide_eq_false_2 by (intros Hx; by apply Hx).
  - done.
  - unfold settle_ended. rewrite Een, He. by rewrite bool_decide_eq_true_2.
Qed.

(** ** Haptics *)

Definition tick (ms : Z) (c : Core) : Core := c <| c_now ::= Z.add ms |>.

Definition buzzes (o : oref) (t : haptic_type) (c : Core) : bool :=
  match hapticAt t (rtOf c o) with
  | Some last => HAPTIC_GAP_MS <=? c_now c - last
  | None => true
  end.

Lemma notify_log (o : oref) (t : haptic_type) (c : Core) :
  c_log (notify o t c) = if buzzes o t c then EfHaptic t :: c_log c else c_log c.
Proof.
  unfold notify, buzzes. destruct (hapticAt t (rtOf c o)) as [last|]; [|done].
  destruct (_ <? _) eqn:E, (_ <=? _) eqn:E'; try done; lia.
Qed.

Lemma notify_hapticAt (o : oref) (t : haptic_type) (c : Core) :
  hapticAt t (rtOf (notify o t c) o)
  = if buzzes o t c then Some (c_now c) else hapticAt t (rtOf c o).
Proof.
  unfold notify, buzzes.
  assert (H : hapticAt t (rtOf (c ▷ updRt o (set_hapticAt t (c_now c)) ▷ logEff (EfHaptic t)) o)
              = Some (c_now c)).
  { unfold rtOf. simpl. rewrite lookup_insert_eq. by destruct t. }
  destruct (hapticAt t (rtOf c o)) as [last|] eqn:El; [|exact H].
  destruct (_ <? _) eqn:E, (_ <=? _) eqn:E'; try done; lia.
Qed.

(** ** Folders to refresh *)

Lemma climb_fuel (n m : nat) (dest f : jstr) :
  (length f < n)%nat -> (length f < m)%nat -> climb n dest f = climb m dest f.
Proof.
  revert m f. induction n as [|n IH]; intros m f Hn Hm; [lia|]. destruct m as [|m]; [lia|].
  simpl. f_equal. destruct (truthy f) eqn:Et; simpl; [|done]. case_bool_decide; [done|].
  assert (length (parentOr f) < length f)%nat.
  { apply parentOr_shorter. by destruct f. }
  apply IH; lia.
Qed.

Lemma climb_unfold (dest f : jstr) :
  climb (S (length f)) dest f
  = f :: (if negb (truthy f) || bool_decide (f = dest) then []
          else climb (S (length (parentOr f))) dest (parentOr f)).
Proof.
  transitivity (f :: (if negb (truthy f) || bool_decide (f = dest) then []
                      else climb (length f) dest (parentOr f))); [done|].
  destruct (truthy f) eqn:Et; simpl negb; cbn [orb]; [|done]. case_bool_decide; [done|].
  assert (length (parentOr f) < length f)%nat by (apply parentOr_shorter; by destruct f).
  f_equal. apply climb_fuel; lia.
Qed.

(** The climb ends at the operation's folder, or at the root when that folder is not above. *)
Lemma climb_last (dest f : jstr) :
  exists l, last (climb (S (length f)) dest f) = Some l /\ (l = dest \/ l = []).
Proof.
  remember (length f) as n eqn:En. revert f En.
  induction n as [n IH] using lt_wf_ind. intros f ->. rewrite climb_unfold.
  destruct (truthy f) eqn:Et; [|exists f; destruct f; [by auto | done]].
  case_bool_decide as Hd; [exists f; simpl; auto|]. cbn [negb orb].
  destruct (IH (length (parentOr f))) with (f := parentOr f) as (l & Hl & Hor);
    [by apply parentOr_shorter; destruct f | done |].
  exists l. split; [|done].
  destruct (climb (S (length (parentOr f))) dest (parentOr f)) eqn:E; [done|]. exact Hl.
Qed.

Lemma set_add_in {A} `{EqDecision A} (x y : A) (l : list A) : y ∈ set_add x l <-> y = x \/ y ∈ l.
Proof. unfold set_add. case_decide; set_solver. Qed.

Lemma foldl_set_add {A} `{EqDecision A} (xs l : list A) (y : A) :
  y ∈ foldl (fun t f => set_add f t) l xs <-> y ∈ xs \/ y ∈ l.
Proof.
  revert l. induction xs as [|x xs IH]; intros l; simpl; [set_solver|].
  rewrite IH, set_add_in. set_solver.
Qed.

Lemma noteFolder_touched (o : oref) (folder f : jstr) (c : Core) :
  f ∈ rt_touched (rtOf (noteFolder o folder c) o)
  <-> f ∈ climb (S (length folder)) (op_destFolder (opOf c o)) folder
      \/ f ∈ rt_touched (rtOf c o).
Proof.
  rewrite <- foldl_set_add. unfold noteFolder. cbv zeta.
  set (c1 := updRt o _ c).
  assert (Ht : rt_touched (rtOf c1 o)
    = foldl (fun t f => set_add f t) (rt_touched (rtOf c o))
        (climb (S (length folder)) (op_destFolder (opOf c o)) folder)).
  { unfold c1, rtOf at 1. cbn -[climb foldl]. by rewrite lookup_insert_eq. }
  destruct (rt_invTimer (rtOf c1 o)); [by rewrite Ht|].
  rewrite <- Ht. unfold rtOf at 1. simpl. by rewrite lookup_insert_eq.
Qed.
