(* ===== verification/OpsSelectors.v ===== *)
(** * File operations: the selectors, [lib/fileOps/selectors.js]

    Pure readers of the published state.  Their memoization keeps references stable and does not
    change a value, so it is not modelled: a published operation is never mutated. *)

From Stdlib Require Import Floats.SpecFloat.
From S2P Require Import Prelude JsString OpsTypes OpsCopy OpsStore.

Definition isRunning (v : op_view) : bool :=
  match op_state_of (ov_op v) with OPreparing | ORunning => true | _ => false end.

Definition isProblem (i : Item) : bool :=
  match it_state i with INeedsDecision | IFailed => true | _ => false end.

Definition visibleOps (ops : list op_view) : list op_view :=
  List.filter (fun v => op_shown (ov_op v)) ops.

Definition problemItems (v : op_view) : list Item := List.filter isProblem (ov_items v).

(** The operation failed as a whole, with no item to point at. *)
Definition opFailed (v : op_view) : bool :=
  truthy (default [] (op_error (ov_op v))) && Nat.eqb (length (ov_items v)) 0.

(** The oldest problem and how many more are behind it. *)
Definition inlineProblem (v : op_view) : option Item * Z :=
  let list := problemItems v in
  (head list, Z.max 0 (Z.of_nat (length list) - 1)).

Definition hundred : num := num_of_Z 100.

(** [Math.min(100, (done / total) * 100)] *)
Definition part_of_hundred (done total : Z) : num :=
  num_min hundred (num_mul (num_div (num_of_Z done) (num_of_Z total)) hundred).

(** Percent 0-100, or [None] when nothing can be measured (indeterminate bar). *)
Definition opProgress (v : op_view) : option num :=
  let op := ov_op v in
  if op_indeterminate op then None
  else if 0 <? op_bytesTotal op then Some (part_of_hundred (op_bytesDone op) (op_bytesTotal op))
  else if 0 <? default 0 (op_itemsTotal op) then
    Some (part_of_hundred (op_itemsDone op) (default 0 (op_itemsTotal op)))
  else
    match op_kind_of op with
    | KUpload | KGallery => if 0 <? op_foldersDone op then None else Some (num_of_Z 0)
    | _ => Some (num_of_Z 0)
    end.

(** A problem the dock counts: the items, or the operation itself. *)
Definition op_problems (v : op_view) : nat :=
  (length (problemItems v) + if opFailed v then 1 else 0)%nat.

Definition op_finished (v : op_view) : bool :=
  negb (isRunning v) && bool_decide (op_endedAt (ov_op v) <> None)
  && Nat.eqb (length (problemItems v)) 0 && negb (opFailed v).

Record dock_info := {
  di_visible : bool;
  di_runningCount : Z;
  di_problemCount : Z;
  di_finishedCount : Z;
  di_cancelledCount : Z;
  di_pct : option num;
  di_title : jstr;
  di_summary : jstr;
  di_parts : summary_parts;
  di_hasProblems : bool;
}.

Definition dockInfo (ops : list op_view) : dock_info :=
  let shown := List.filter (fun v => op_shown (ov_op v)) ops in
  let running := List.filter isRunning shown in
  let problems := Z.of_nat (list_sum (map op_problems shown)) in
  let finished := List.filter op_finished shown in
  let cancelled := List.filter (fun v => bool_decide (op_state_of (ov_op v) = OCancelled)) finished in
  let known := List.filter (fun v => negb (op_indeterminate (ov_op v))) running in
  let count {A} (l : list A) := Z.of_nat (length l) in
  let pct :=
    match known with
    | [] => None
    | _ => Some (num_div
             (foldl (fun sum v => num_add sum (default (num_of_Z 0) (opProgress v))) (num_of_Z 0) known)
             (num_of_Z (count known)))
    end in
  let singleUpload :=
    match shown, running with
    | [_], [only] =>
        match op_kind_of (ov_op only) with
        | KUpload | KGallery => Some (default 0 (op_itemsTotal (ov_op only)))
        | _ => None
        end
    | _, _ => None
    end in
  let counts :=
    {| dc_running := count running; dc_problems := problems; dc_finished := count finished;
       dc_cancelled := count cancelled;
       dc_finishedLabel := match finished with [v] => finishedText (ov_op v) | _ => [] end;
       dc_pct := pct; dc_singleUpload := singleUpload |} in
  {| di_visible := negb (Nat.eqb (length shown) 0);
     di_runningCount := count running;
     di_problemCount := problems;
     di_finishedCount := count finished;
     di_cancelledCount := count cancelled;
     di_pct := pct;
     di_title := match shown with [] => [] | _ => dockHeaderTitle counts end;
     di_summary := dockSummary counts;
     di_parts := dockSummaryParts counts;
     di_hasProblems := 0 <? problems |}.

Definition problemCount (ops : list op_view) : Z := di_problemCount (dockInfo ops).

Definition opById (ops : list op_view) (id : jstr) : option op_view :=
  List.find (fun v => bool_decide (op_id (ov_op v) = id)) ops.

(** ** Lemmas *)

Lemma list_sum_zero (l : list nat) : list_sum l = 0%nat <-> Forall (fun n => n = 0%nat) l.
Proof.
  induction l as [|n l IH]; simpl; [split; [intros _; constructor | done]|].
  rewrite Forall_cons, <- IH. lia.
Qed.

Lemma filter_split_length {A} (P Q : A -> bool) (l : list A) :
  (forall x, P x = true -> Q x = true -> False) ->
  (length (List.filter P l) + length (List.filter Q l) <= length l)%nat.
Proof.
  intros H. induction l as [|x l IH]; simpl; [lia|]. specialize (H x).
  destruct (P x), (Q x); simpl; try lia; by exfalso; apply H.
Qed.

Lemma num_lt_asym (a b : num) : num_lt a b = true -> num_lt b a = false.
Proof.
  unfold num_lt, SFltb, SFcompare. destruct a as [[]|[]| |[] m e], b as [[]|[]| |[] m' e']; try done;
    rewrite (Z.compare_antisym e e'); destruct (e ?= e'); simpl; try done;
    change (Pos.compare_cont Eq) with Pos.compare; rewrite (Pos.compare_antisym m m');
    by destruct (Pos.compare m m').
Qed.

Lemma part_of_hundred_le (done total : Z) : num_lt hundred (part_of_hundred done total) = false.
Proof.
  unfold part_of_hundred, num_min. destruct (SFltb _ hundred) eqn:E; [|vm_compute; reflexivity].
  by apply num_lt_asym.
Qed.

(** ** Theorems *)

(** what the dock says.  It names problems exactly when a shown operation has a failed item, an
    open question, or failed as a whole; "Some files need you" is said only then and with nothing
    running; "Finished" and "Stopped" are said only when nothing runs and nothing has a problem, and
    an operation is never counted both as running and as finished. *)
Theorem dock_is_truthful (ops : list op_view) :
  let d := dockInfo ops in
  let shown := visibleOps ops in
  (di_problemCount d = 0 <-> Forall (fun v => problemItems v = [] /\ opFailed v = false) shown)
  /\ di_runningCount d + di_finishedCount d <= Z.of_nat (length shown)
  /\ 0 <= di_cancelledCount d <= di_finishedCount d
  /\ (di_title d = dockTitle_needsYou -> 0 < di_problemCount d /\ di_runningCount d = 0)
  /\ (di_title d = dockTitle_done \/ di_title d = dockTitle_stopped ->
      di_problemCount d = 0 /\ di_runningCount d = 0 /\ 0 < di_finishedCount d)
  /\ (di_title d = dockTitle_stopped -> di_cancelledCount d = di_finishedCount d).
Proof.
  intros d shown.
  assert (Hp : di_problemCount d = 0 <-> Forall (fun v => problemItems v = [] /\ opFailed v = false) shown).
  { unfold d, dockInfo. cbn [di_problemCount]. change (List.filter _ ops) with shown.
    transitivity (list_sum (map op_problems shown) = 0%nat); [lia|].
    rewrite list_sum_zero, Forall_map. apply Forall_iff. intros v. unfold op_problems.
    destruct (problemItems v), (opFailed v); simpl; naive_solver lia. }
  assert (Hc : 0 <= di_cancelledCount d <= di_finishedCount d).
  { unfold d, dockInfo. cbn [di_cancelledCount di_finishedCount].
    match goal with |- context [List.filter ?P (List.filter op_finished ?l)] =>
      pose proof (List.filter_length_le P (List.filter op_finished l)) end. lia. }
  assert (Hr : di_runningCount d + di_finishedCount d <= Z.of_nat (length shown)).
  { unfold d, dockInfo. cbn [di_runningCount di_finishedCount].
    pose proof (filter_split_length isRunning op_finished shown) as H. cbv beta in H.
    unfold shown, visibleOps in *. 
    assert (forall x, isRunning x = true -> op_finished x = true -> False)
      by (intros x Hx; unfold op_finished; rewrite Hx; done). specialize (H H0). lia. }
  assert (Hpos : 0 <= di_problemCount d /\ 0 <= di_runningCount d) by (unfold d, dockInfo; simpl; lia).
  assert (Htitle : shown <> [] ->
    di_title d = (if 0 <? di_runningCount d then dockTitle_working
      else if 0 <? di_problemCount d then dockTitle_needsYou
      else if 0 <? di_finishedCount d then
        (if (0 <? di_cancelledCount d) && (di_cancelledCount d =? di_finishedCount d)
         then dockTitle_stopped else dockTitle_done)
      else dockTitle_working)).
  { unfold d, dockInfo. cbn [di_title]. change (List.filter _ ops) with shown. by destruct shown. }
  assert (Hnil : shown = [] -> di_title d = []).
  { unfold d, dockInfo. cbn [di_title]. change (List.filter _ ops) with shown. by intros ->. }
  assert (Hcases : di_title d = [] \/ di_title d = (if 0 <? di_runningCount d then dockTitle_working
      else if 0 <? di_problemCount d then dockTitle_needsYou
      else if 0 <? di_finishedCount d then
        (if (0 <? di_cancelledCount d) && (di_cancelledCount d =? di_finishedCount d)
         then dockTitle_stopped else dockTitle_done)
      else dockTitle_working)) by (destruct shown; [left; by apply Hnil | right; by apply Htitle]).
  clear Htitle Hnil. split; [done|]. split; [done|]. split; [done|].
  clear Hp Hr. clearbody d. destruct Hcases as [-> | ->]; [naive_solver|].
  destruct (Z.ltb_spec 0 (di_runningCount d)), (Z.ltb_spec 0 (di_problemCount d)),
    (Z.ltb_spec 0 (di_finishedCount d)), (Z.ltb_spec 0 (di_cancelledCount d)),
    (Z.eqb_spec (di_cancelledCount d) (di_finishedCount d)); simpl;
    (split; [|split]); intros Ht; try destruct Ht as [Ht|Ht];
    first [exfalso; vm_compute in Ht; discriminate Ht | split_and?; lia | idtac].
Qed.

(** The percentage of a card never exceeds 100, and it is missing exactly for an operation
    without measure: an indeterminate one, or an upload that only made folders. *)
Theorem progress_bounded (v : op_view) :
  (forall p, opProgress v = Some p -> num_lt hundred p = false)
  /\ (opProgress v = None <->
      op_indeterminate (ov_op v) = true
      \/ (op_bytesTotal (ov_op v) <= 0 /\ default 0 (op_itemsTotal (ov_op v)) <= 0
          /\ 0 < op_foldersDone (ov_op v)
          /\ (op_kind_of (ov_op v) = KUpload \/ op_kind_of (ov_op v) = KGallery))).
Proof.
  unfold opProgress. cbv zeta. split.
  - intros p. repeat case_match; intros [= <-]; try apply part_of_hundred_le; vm_compute; reflexivity.
  - destruct (op_indeterminate _); [naive_solver|].
    destruct (Z.ltb_spec 0 (op_bytesTotal (ov_op v))); [naive_solver lia|].
    destruct (Z.ltb_spec 0 (default 0 (op_itemsTotal (ov_op v)))); [naive_solver lia|].
    destruct (op_kind_of _), (Z.ltb_spec 0 (op_foldersDone (ov_op v))); naive_solver lia.
Qed.
