(* ===== verification/OpsState.v ===== *)
(** * File operations: the whole state

    [St] puts the store's [Core] next to the variables the three runners close over, the promises
    the asynchronous functions wait on, and the tab's session storage.  An asynchronous function is
    cut at its [await]s: the part up to an [await] runs at once and leaves a task, whose constructor
    names the continuation and carries its local variables; the continuation runs when the awaited
    promise settles. *)

From S2P Require Import Prelude JsString OpsTypes OpsStore.

(** The names in a folder ([Map<name, kind>]), [None] when they are unknown. *)
Abbreviation names := (option (gmap jstr entry_kind)).

Inductive task_kind :=
  (* uploadRunner.js *)
  | TNamesParent (o : oref) (dest : jstr) (pr parent : positive)
  | TNamesList (o : oref) (pr : positive)
  | TPrepare (o : oref) (i : iref) (pr : positive)
  | TUpload (o : oref) (i : iref) (size : Z) (sending : bool)
  | TPoolRelease
  | TMkdir (o : oref) (i : iref) (part : jstr) (rest : list jstr) (path : jstr) (made : Z)
  | TKindAt (o : oref) (i : iref) (part : jstr) (rest : list jstr) (path : jstr) (made : Z)
  | TWalk (o : oref) (controller : positive)
  (* jobRunner.js *)
  | TSubmit (o : oref) (i : iref)
  | TReplaceRemove (o : oref) (i : iref)
  | TPollList
  | TPollJob (poll : positive) (jobId : jstr) (o : oref) (i : iref)
  | TPollJoin (poll : positive)
  (* requestRunner.js *)
  | TRun (o : oref) (i : iref) (controller : positive).

Record task := { tk_id : positive; tk_kind : task_kind }.

Record UpSt := {
  u_ready : list (oref * iref);
  u_active : Z;
}.
#[export] Instance eta_UpSt : Settable UpSt := fun r =>
  {| u_ready := u_ready r; u_active := u_active r |}.

(** A job kept in the session storage. *)
Record stored_job := {
  sj_opId : jstr; sj_itemId : jstr; sj_jobId : jstr; sj_kind : op_kind; sj_name : jstr;
  sj_path : jstr; sj_title : jstr; sj_fromDrive : jstr; sj_toDrive : jstr; sj_toPath : jstr;
  sj_toLabel : jstr; sj_createdAt : Z;
}.

Record JobSt := {
  j_queue : list (oref * iref);
  j_accepted : list (jstr * (oref * iref));
  j_inflight : Z;
  j_blockedUntil : Z;
  j_pollTimer : option positive;
  j_retryTimer : option positive;
  j_stopped : bool;
}.
#[export] Instance eta_JobSt : Settable JobSt := fun r =>
  {| j_queue := j_queue r; j_accepted := j_accepted r; j_inflight := j_inflight r;
     j_blockedUntil := j_blockedUntil r; j_pollTimer := j_pollTimer r;
     j_retryTimer := j_retryTimer r; j_stopped := j_stopped r |}.

Record ReqSt := {
  q_controllers : list (jstr * positive);
  q_driving : list jstr;
}.
#[export] Instance eta_ReqSt : Settable ReqSt := fun r =>
  {| q_controllers := q_controllers r; q_driving := q_driving r |}.

(** The session storage: [None] when it cannot be used, else the stored jobs. *)
Abbreviation storage := (option (list stored_job)).

Record St := {
  s_core : Core;
  s_up : UpSt;
  s_jb : JobSt;
  s_rq : ReqSt;
  s_tasks : list task;
  s_promises : gmap positive names;
  s_aborted : list positive;
  s_storage : storage;
}.
#[export] Instance eta_St : Settable St := fun r =>
  {| s_core := s_core r; s_up := s_up r; s_jb := s_jb r; s_rq := s_rq r; s_tasks := s_tasks r;
     s_promises := s_promises r; s_aborted := s_aborted r; s_storage := s_storage r |}.

(** Running a store function. *)
Definition on_core (f : Core -> Core) (s : St) : St := s <| s_core ::= f |>.

Definition s_op (s : St) (o : oref) : Op := opOf (s_core s) o.
Definition s_item (s : St) (i : iref) : Item := itemOf (s_core s) i.
Definition s_state (s : St) (i : iref) : item_state := it_state (s_item s i).

(** A fresh heap reference, promise or controller. *)
Definition fresh (s : St) : positive * St :=
  (c_fresh (s_core s), on_core (fun c => c <| c_fresh ::= Pos.succ |>) s).

Definition spawn (k : task_kind) (s : St) : St :=
  let '(id, s) := fresh s in
  s <| s_tasks ::= cons {| tk_id := id; tk_kind := k |} |>.

Definition find_task (id : positive) (s : St) : option task_kind :=
  tk_kind <$> List.find (fun t => Pos.eqb (tk_id t) id) (s_tasks s).

(** The continuation of a settled promise is taken out of the pending tasks. *)
Definition drop_task (id : positive) (s : St) : St :=
  s <| s_tasks ::= List.filter (fun t => negb (Pos.eqb (tk_id t) id)) |>.

Definition abort (controller : positive) (s : St) : St :=
  s <| s_aborted ::= set_add controller |> ▷ on_core (logEff (EfAbort controller)).

Definition aborted (s : St) (controller : positive) : bool :=
  bool_decide (controller ∈ s_aborted s).

(** A property of an object set without [patchItem]. *)
Definition set_item (i : iref) (f : Item -> Item) (s : St) : St := on_core (updItem i f) s.
Definition set_op (o : oref) (f : Op -> Op) (s : St) : St := on_core (updOp o f) s.

(** Shorthands for the [env] members the runners call. *)
Definition env_patchItem (o : oref) (i : iref) (p : list item_patch) : St -> St :=
  on_core (patchItem o i p).
Definition env_patchOp (o : oref) (f : Op -> Op) : St -> St := on_core (patchOp o f).
Definition env_settle (o : oref) : St -> St := on_core (settle o).
Definition env_notify (o : oref) (t : haptic_type) : St -> St := on_core (notify o t).
Definition env_log (e : eff) : St -> St := on_core (logEff e).
Definition env_alive (s : St) (o : oref) : bool := isAlive (s_core s) o.
