(* ===== verification/OpsUploads.v ===== *)
(** * File operations: the upload runner, [lib/fileOps/uploadRunner.js]

    One pool of three for the whole tab.  An item is checked against the names already in its
    folder, parked when its name is taken, and otherwise queued in [ready]; [pump] moves queued
    items into the pool. *)

From S2P Require Import Prelude JsString Paths OpsTypes OpsCopy OpsErrors OpsStore OpsState.

Definition UPLOAD_PARALLEL : Z := 3.

(** [replace(/^\/+/, "")] *)
Fixpoint strip_slashes (s : jstr) : jstr :=
  match s with
  | c :: r => if (c =? c_slash)%N then strip_slashes r else s
  | [] => []
  end.

(** [String(relPath || "").replace(/^\/+/, "").split("/").filter(Boolean)] *)
Definition rel_parts (relPath : jstr) : list jstr :=
  List.filter truthy (split_on c_slash (strip_slashes relPath)).

(** The folder part and the name of a relative path. *)
Definition splitRel (relPath : jstr) : jstr * jstr :=
  let parts := rel_parts relPath in
  (join [c_slash] (removelast parts), str_or (List.last parts []) (js "file")).

(** ** Name check *)

(** The names in [destPath], through the operation's cache of promises.  [fuel] bounds the climb to
    the operation's folder; a climb that never meets it ends in the RangeError the [catch] turns
    into [null]. *)
Fixpoint knownNames (fuel : nat) (o : oref) (destPath : jstr) (s : St) : positive * St :=
  let cache := rt_nameMaps (rtOf (s_core s) o) in
  match list_find (fun e => e.1 = destPath) cache with
  | Some (_, (_, pr)) => (pr, s)
  | None =>
      let '(pr, s) := fresh s in
      let s :=
        match fuel with
        | O => s <| s_promises ::= <[pr := None]> |>
        | S fuel =>
            if bool_decide (destPath <> op_destFolder (s_op s o)) then
              let '(parent, s) := knownNames fuel o (parentOr destPath) s in
              spawn (TNamesParent o destPath pr parent) s
            else
              s ▷ env_log (EfListDir (op_driveId (s_op s o)) destPath)
                ▷ spawn (TNamesList o pr)
        end in
      (pr, on_core (updRt o (fun r => r <| rt_nameMaps ::= (fun m => m ++ [(destPath, pr)]) |>)) s)
  end.

(** The promise [pr] of a cached name map settles. *)
Definition resolve_names (pr : positive) (v : names) (s : St) : St :=
  s <| s_promises ::= <[pr := v]> |>.

(** [destPath.slice(parent ? parent.length + 1 : 0)] *)
Definition leaf_of (dest : jstr) : jstr :=
  let parent := parentOr dest in
  slice_from (if truthy parent then S (length parent) else 0) dest.

(** After the parent's names arrived. *)
Definition on_names_parent (o : oref) (dest : jstr) (pr : positive) (parentNames : names) (s : St) : St :=
  match parentNames with
  | None => resolve_names pr None s
  | Some m =>
      if bool_decide (m !! leaf_of dest <> Some EDir) then resolve_names pr (Some ∅) s
      else s ▷ env_log (EfListDir (op_driveId (s_op s o)) dest) ▷ spawn (TNamesList o pr)
  end.

(** A listing entry: its name (falsy names are skipped) and whether it is a folder. *)
Definition names_of_listing (entries : list (jstr * entry_kind)) : gmap jstr entry_kind :=
  foldl (fun m e => if truthy e.1 then <[e.1 := e.2]> m else m) ∅ entries.

Definition on_names_list (pr : positive) (reply : option (list (jstr * entry_kind))) (s : St) : St :=
  resolve_names pr (names_of_listing <$> reply) s.

(** ** Decisions *)

(** A chunked upload whose bytes are on Luna but won't be used. *)
Definition endSession (o : oref) (i : iref) (s : St) : St :=
  let item := s_item s i in
  let s :=
    match it_uploadId item with
    | Some id =>
        if truthy id && it_completeOnly item && src_hasCancelUpload (op_source (s_op s o))
        then env_log (EfCancelUpload (op_driveId (s_op s o)) id) s
        else s
    | None => s
    end in
  set_item i (fun it => it <| it_uploadId := None |> <| it_completeOnly := false |>) s.

(** The failure branch of [handleError]. *)
Definition fail_upload (o : oref) (i : iref) (c : classified) (s : St) : St :=
  s ▷ env_patchItem o i [PState IFailed; PAbort None; PRetrying false; PError (Some (cl_message c));
                         PRetryable (cl_retryable c); POffline (cl_offline c)]
    ▷ env_notify o HError.

(** ** The pool *)

(** The part of [run] before its [await]: a completed session is finished, anything else is sent.
    Finishing on a source that cannot finish fails at once: [run] then settles and only its
    [finally] is left. *)
Definition run_start (o : oref) (i : iref) (s : St) : St :=
  let '(controller, s) := fresh s in
  let item := s_item s i in
  let completeOnly := it_completeOnly item in
  let s := env_patchItem o i
             [PState (if completeOnly then IFinishing else IUploading); PAbort (Some controller);
              PError None; PRetrying false] s in
  let size := it_size item in
  if completeOnly then
    if src_hasCompleteUpload (op_source (s_op s o)) then
      s ▷ env_log (EfCompleteUpload (op_driveId (s_op s o))
                     (default [] (it_uploadId (s_item s i))) (it_conflict (s_item s i)))
        ▷ spawn (TUpload o i size false)
    else
      let c := classifyError (Some (plain_error (js "This link can't finish an upload.")))
                 (op_kind_of (s_op s o)) no_ctx in
      s ▷ fail_upload o i c ▷ env_settle o ▷ spawn TPoolRelease
  else
    s ▷ env_log (EfUpload i (it_conflict (s_item s i))) ▷ spawn (TUpload o i size true).

Definition set_ready (l : list (oref * iref)) (s : St) : St :=
  s <| s_up ::= (fun u => u <| u_ready := l |>) |>.
Definition add_active (d : Z) (s : St) : St :=
  s <| s_up ::= (fun u => u <| u_active ::= Z.add d |>) |>.

(** [while (active < UPLOAD_PARALLEL && ready.length)]: the loop follows the queue, which only
    [shift] changes while it runs. *)
Fixpoint pump_loop (ready : list (oref * iref)) (s : St) : St :=
  match ready with
  | [] => s
  | (o, i) :: rest =>
      if u_active (s_up s) <? UPLOAD_PARALLEL then
        let s := set_ready rest s in
        if negb (bool_decide (s_state s i = IQueued)) then pump_loop rest s
        else if negb (env_alive s o) then pump_loop rest s
        else s ▷ add_active 1 ▷ run_start o i ▷ pump_loop rest
      else s
  end.

Definition pump (s : St) : St := pump_loop (u_ready (s_up s)) s.

Definition enqueue (o : oref) (i : iref) (s : St) : St :=
  s ▷ set_ready (u_ready (s_up s) ++ [(o, i)]) ▷ pump.

(** The [finally] of [run] in [pump]. *)
Definition on_pool_release (s : St) : St := s ▷ add_active (-1) ▷ pump.

(** ** Clashes and answers *)

Definition apply (o : oref) (i : iref) (c : choice) (s : St) : St :=
  match c with
  | Skip =>
      s ▷ endSession o i ▷ env_patchItem o i [PState ISkipped; PDecision None] ▷ env_settle o
  | _ =>
      s ▷ env_patchItem o i
            [PState IQueued; PDecision None;
             PConflict (Some (match c with Replace => Replace | _ => KeepBoth end))]
        ▷ enqueue o i
  end.

(** [session]: the upload session of a completed chunked upload, when the server answered. *)
Definition clash (o : oref) (i : iref) (existingKind : entry_kind) (session : option (option jstr))
    (s : St) : St :=
  let d := existsDecision existingKind false in
  let s := match session with
           | Some uploadId =>
               set_item i (fun it => it <| it_completeOnly := true |> <| it_uploadId := uploadId |>) s
           | None => s
           end in
  let options := match d with DExists _ os => os | DBroadens _ => [] end in
  let ask s :=
    s ▷ env_patchItem o i [PState INeedsDecision; PDecision (Some d); PError None; PRetrying false]
      ▷ env_notify o HWarning ▷ env_settle o in
  match op_policy (s_op s o) with
  | Some p => if bool_decide (p ∈ options) then apply o i p s else ask s
  | None => ask s
  end.

(** ** Name check and queueing *)

Definition prepare (o : oref) (i : iref) (s : St) : St :=
  if negb (src_isFile (op_source (s_op s o))) then
    let dest := it_destPath (s_item s i) in
    let '(pr, s) := knownNames (S (length dest)) o dest s in
    spawn (TPrepare o i pr) s
  else enqueue o i s.

(** After the names arrived. *)
Definition on_prepare (o : oref) (i : iref) (ns : names) (s : St) : St :=
  if negb (bool_decide (s_state s i = IQueued)) then s
  else
    match (m ← ns; m !! it_name (s_item s i)) with
    | Some hit => clash o i hit None s
    | None => enqueue o i s
    end.

(** ** Outcomes of an upload *)

Definition handleError (o : oref) (i : iref) (e : js_err) (s : St) : St :=
  if bool_decide (s_state s i = ICancelled) then s
  else if isAbort (Some e) then env_patchItem o i [PState ICancelled; PAbort None] s
  else
    let c := classifyError (Some e) (op_kind_of (s_op s o)) no_ctx in
    match cl_decision c with
    | Some (DExists k _) =>
        if negb (src_isFile (op_source (s_op s o))) then
          s ▷ env_patchItem o i [PAbort None; PRetrying false]
            ▷ clash o i k (if e_completeOnly e then Some (e_uploadId e) else None)
        else fail_upload o i c s
    | _ => fail_upload o i c s
    end.

(** [run] resumes: the upload ended well, with the name Luna gave it, or threw. *)
Definition upload_ended (o : oref) (i : iref) (size : Z) (reply : (option jstr) + js_err) (s : St) : St :=
  match reply with
  | inl entryName =>
      s ▷ on_core (noteFolder o (it_destPath (s_item s i)))
        ▷ env_patchItem o i
            [PState IDone; PReceived size; PAbort None; PUploadId None; PCompleteOnly false;
             PRetrying false; PFinalName (Some (default (it_name (s_item s i)) entryName))]
  | inr e => handleError o i e s
  end.

Definition on_upload (o : oref) (i : iref) (size : Z) (reply : (option jstr) + js_err) (s : St) : St :=
  s ▷ upload_ended o i size reply ▷ env_settle o ▷ spawn TPoolRelease.

(** The callbacks [uploadFile] gets. *)
Definition on_session (i : iref) (id : jstr) (s : St) : St :=
  set_item i (fun it => it <| it_uploadId := Some id |>) s.

Definition on_progress (o : oref) (i : iref) (size loaded : Z) (s : St) : St :=
  let received := Z.min loaded size in
  let finishing := (0 <? size) && (size <=? received) in
  env_patchItem o i
    ([PReceived received; PRetrying false]
     ++ (if finishing && bool_decide (s_state s i = IUploading) then [PState IFinishing] else [])) s.

Definition on_retry (o : oref) (i : iref) (s : St) : St :=
  on_core (patchItem' o i [PRetrying true] true) s.

(** ** Folders *)

(** [stop()] in [makeFolders] *)
Definition mk_stop (o : oref) (i : iref) (made : Z) (s : St) : St :=
  s ▷ env_patchItem o i [PState ICancelled; PFoldersMade made] ▷ env_settle o.

(** The head of the loop over the levels that are left, and what follows it. *)
Definition mk_next (o : oref) (i : iref) (parts : list jstr) (path : jstr) (made : Z) (s : St) : St :=
  match parts with
  | part :: rest =>
      if bool_decide (s_state s i = ICancelled) then mk_stop o i made s
      else
        let path := joinPath path part in
        s ▷ env_log (EfMkdir (op_driveId (s_op s o)) path)
          ▷ spawn (TMkdir o i part rest path made)
  | [] =>
      if bool_decide (s_state s i = ICancelled) then mk_stop o i made s
      else
        s ▷ on_core (noteFolder o (parentOr path))
          ▷ env_patchItem o i [PState IDone; PFoldersMade made] ▷ env_settle o
  end.

(** The outer [catch] and the final [settle]. *)
Definition mk_failed (o : oref) (i : iref) (made : Z) (e : js_err) (s : St) : St :=
  if isAbort (Some e) || bool_decide (s_state s i = ICancelled) then mk_stop o i made s
  else
    let c := classifyError (Some e) (op_kind_of (s_op s o)) no_ctx in
    s ▷ env_patchItem o i
          [PState IFailed; PError (Some (cl_message c)); PRetryable (cl_retryable c);
           POffline (cl_offline c); PFoldersMade made]
      ▷ env_notify o HError ▷ env_settle o.

Definition makeFolders (o : oref) (i : iref) (relPath : jstr) (s : St) : St :=
  let parts := List.filter truthy (split_on c_slash relPath) in
  mk_next o i parts (op_destFolder (s_op s o)) 0 s.

(** [e?.status === 409 || /already/i.test(String(e?.message || ""))] *)
Definition mkdir_taken (e : js_err) : bool :=
  bool_decide (e_status e = Some 409) || includes (js "already") (to_lower (e_message e)).

Definition on_mkdir (o : oref) (i : iref) (part : jstr) (rest : list jstr) (path : jstr) (made : Z)
    (reply : option js_err) (s : St) : St :=
  match reply with
  | None => mk_next o i rest path (made + 1) s
  | Some e =>
      if negb (mkdir_taken e) then mk_failed o i made e s
      else
        let s := if src_hasStat (op_source (s_op s o))
                 then env_log (EfStat (op_driveId (s_op s o)) path) s else s in
        spawn (TKindAt o i part rest path made) s
  end.

(** [kindAt] answered: [None] is [undefined] (not there, or the source cannot be asked). *)
Definition on_kind_at (o : oref) (i : iref) (part : jstr) (rest : list jstr) (path : jstr) (made : Z)
    (kind : option entry_kind) (s : St) : St :=
  let kind := if src_hasStat (op_source (s_op s o)) then kind else None in
  if bool_decide (kind = Some EFile) then
    s ▷ env_patchItem o i
          [PState IFailed; PError (Some (folderBlocked (it_name (s_item s i)) part));
           PRetryable true; POffline false; PFoldersMade made]
      ▷ env_notify o HError ▷ env_settle o
  else mk_next o i rest path made s.

(** ** Starting an operation *)

(** A [File] of a picker or a drop. *)
Record file_in := { f_name : jstr; f_rel : jstr; f_size : Z }.
(** A dropped [FileSystemEntry]. *)
Record entry_in := { en_name : jstr; en_isDirectory : bool }.
Record dropped_in := { d_entries : list entry_in; d_files : list file_in }.

Definition dest_of (o : oref) (dir : jstr) (s : St) : jstr :=
  let folder := op_destFolder (s_op s o) in
  if truthy dir then joinPath folder dir else folder.

Definition addFile (o : oref) (f : file_in) (dir name relPath : jstr) (s : St) : St :=
  let dest := dest_of o dir s in
  let '(i, c) := makeItem name (fun it =>
        it <| it_relPath := relPath |> <| it_destPath := dest |> <| it_size := f_size f |>
           <| it_file := true |> <| it_conflict := None |>) (s_core s) in
  s <| s_core := c |> ▷ on_core (addItem o i) ▷ env_settle o ▷ prepare o i.

Definition addFolder (o : oref) (relPath : jstr) (s : St) : St :=
  let '(dir, name) := splitRel relPath in
  let dest := dest_of o dir s in
  let '(i, c) := makeItem name (fun it =>
        it <| it_relPath := relPath |> <| it_destPath := dest |> <| it_isDir := true |>
           <| it_state := IRunning |>) (s_core s) in
  s <| s_core := c |> ▷ on_core (addItem o i) ▷ env_settle o ▷ makeFolders o i relPath.

(** The handlers [walkDropped] gets. *)
Definition on_walk_file (o : oref) (f : file_in) (relPath : jstr) (s : St) : St :=
  let '(dir, name) := splitRel relPath in addFile o f dir name relPath s.

Definition on_walk_error (o : oref) (relPath : jstr) (s : St) : St :=
  let '(dir, name) := splitRel relPath in
  let dest := dest_of o dir s in
  let '(i, c) := makeItem name (fun it =>
        it <| it_relPath := relPath |> <| it_destPath := dest |> <| it_state := IFailed |>
           <| it_error := Some text_unreadable |> <| it_retryable := false |>) (s_core s) in
  s <| s_core := c |> ▷ on_core (addItem o i) ▷ env_notify o HError.

Definition on_walk_end (o : oref) (s : St) : St :=
  s ▷ set_op o (fun op => op <| op_walking := false |>) ▷ env_settle o.

(** The title shown in the pill: a lone file, or the folder that was dropped. *)
Definition title_files (files : list file_in) (op : Op) : Op :=
  let first_seg f := List.hd [] (split_on c_slash (f_rel f)) in
  let firstSegments := foldl (fun acc f => set_add (first_seg f) acc) [] files in
  let allNested := forallb (fun f => includes_char c_slash (f_rel f)) files in
  if allNested && Nat.eqb (length firstSegments) 1 then
    op <| op_title := List.hd [] firstSegments |> <| op_rootFolder := true |>
  else match files with
       | [f] => op <| op_title := f_name f |>
       | _ => op
       end.

Definition title_dropped (d : dropped_in) (op : Op) : Op :=
  match d_entries d, d_files d with
  | [e], [] => op <| op_title := en_name e |> <| op_rootFolder := en_isDirectory e |>
  | [], [f] => op <| op_title := f_name f |>
  | _, _ => op
  end.

Definition start_files (o : oref) (files : list file_in) (s : St) : St :=
  let s := foldl (fun s f =>
             let rel := str_or (f_rel f) (f_name f) in
             let '(dir, name) := splitRel rel in addFile o f dir name rel s) s files in
  env_settle o s.

(** The walk's synchronous part reports the plain files; its entries are walked by the task. *)
Definition start_walk (o : oref) (d : dropped_in) (s : St) : St :=
  let '(controller, s) := fresh s in
  let s := on_core (updRt o (fun r => r <| rt_walkAbort := Some controller |>)) s in
  let s := set_op o (fun op => op <| op_walking := true |>) s in
  let s := env_patchOp o (fun op => op) s in
  let s := foldl (fun s f =>
             if aborted s controller then s
             else on_walk_file o f (str_or (f_rel f) (f_name f)) s) s (d_files d) in
  spawn (TWalk o controller) s.

Definition start (o : oref) (dropped : option dropped_in) (files : option (list file_in)) (s : St) : St :=
  let droppedCount := match dropped with
                      | Some d => (length (d_entries d) + length (d_files d))%nat
                      | None => 0%nat
                      end in
  let count := match files with Some fs => length fs | None => droppedCount end in
  let s :=
    match files with
    | Some (f :: fs) => set_op o (title_files (f :: fs)) s
    | _ => match dropped with
           | Some d => if Nat.eqb droppedCount 1 then set_op o (title_dropped d) s else s
           | None => s
           end
    end in
  let droppedFolder := match dropped with
                       | Some d => existsb en_isDirectory (d_entries d)
                       | None => false
                       end in
  if src_isFile (op_source (s_op s o)) && (Nat.ltb 1 count || droppedFolder) then
    s ▷ env_patchOp o (fun op =>
          op <| op_error := Some text_singleFileLink |> <| op_state_of := OFailed |>)
      ▷ env_settle o
  else
    match files with
    | Some fs => start_files o fs s
    | None => start_walk o (default {| d_entries := []; d_files := [] |} dropped) s
    end.

(** ** The store's actions *)

Definition up_retry (o : oref) (targets : list iref) (s : St) : St :=
  let s := foldl (fun s i =>
    let item := s_item s i in
    if it_isDir item then
      s ▷ env_patchItem o i [PState IRunning; PError None; POffline false]
        ▷ makeFolders o i (it_relPath item)
    else if negb (it_file item) then s
    else
      s ▷ set_item i (fun it => it <| it_uploadId := None |> <| it_completeOnly := false |>)
        ▷ env_patchItem o i [PState IQueued; PError None; POffline false; PReceived 0]
        ▷ enqueue o i) s targets in
  env_settle o s.

(** [stop(it)] in [cancel] *)
Definition up_stop (o : oref) (i : iref) (s : St) : St :=
  let item := s_item s i in
  match it_state item with
  | IUploading | IFinishing =>
      let s := env_patchItem o i [PState ICancelled] s in
      match it_abort (s_item s i) with Some ctl => abort ctl s | None => s end
  | IQueued => env_patchItem o i [PState ICancelled] s
  | IRunning => if it_isDir item then env_patchItem o i [PState ICancelled] s else s
  | INeedsDecision => s ▷ endSession o i ▷ env_patchItem o i [PState ICancelled; PDecision None]
  | IFailed => endSession o i s
  | _ => s
  end.

Definition up_cancel (o : oref) (item : option iref) (s : St) : St :=
  match item with
  | Some i => up_stop o i s
  | None =>
      let s := match rt_walkAbort (rtOf (s_core s) o) with Some ctl => abort ctl s | None => s end in
      let s := set_op o (fun op => op <| op_walking := false |>) s in
      foldl (fun s i => up_stop o i s) s (op_items (s_op s o))
  end.

Definition is_upload_kind (k : op_kind) : bool :=
  match k with KUpload | KGallery => true | _ => false end.

Definition up_hasWork (s : St) : bool :=
  existsb (fun o =>
    is_upload_kind (op_kind_of (s_op s o))
    && (op_walking (s_op s o)
        || existsb (fun i => bool_decide (it_state i ∈ [IQueued; IUploading; IFinishing; INeedsDecision]))
             (itemsOf (s_core s) o))) (c_ops (s_core s)).

(** Chunked sessions still open on Luna: the source, the drive and the upload id. *)
Definition up_sessions (s : St) : list (file_source * jstr * jstr) :=
  flat_map (fun o =>
    if is_upload_kind (op_kind_of (s_op s o)) then
      flat_map (fun i =>
        match it_uploadId i with
        | Some id =>
            if truthy id && bool_decide (it_state i ∈ [IUploading; IFinishing; INeedsDecision])
            then [(op_source (s_op s o), op_driveId (s_op s o), id)] else []
        | None => []
        end) (itemsOf (s_core s) o)
    else []) (c_ops (s_core s)).
