(* ===== verification/CollectFiles.v ===== *)
(** * Files for an upload: [luna/web/src/lib/collectUploadFiles.js]

    What a file input or a drop holds: the walk of dropped folders that reports as it goes ([walkDropped]), the older
    reader that collects everything first ([filesFromDataTransfer]), and where an upload goes.

    A [FileSystemEntry] is the tree the browser hands out: a file with what [file()] calls back with, a folder with the
    batches [readEntries] gives and what comes after them.  Other code runs while the walk awaits, so time passes at each
    [await] and during each call of a handler; the signal is aborted from a moment on. *)

From S2P Require Import Prelude JsString Bytes Paths OpsUploads.

(** ** Definitions *)

Inductive fs_entry :=
| FsFile (name : jstr) (read : thrown file_in)
| FsDir (name : jstr) (batches : list (list fs_entry)) (broken : option error)
| FsOther (name : jstr).    (* neither [isFile] nor [isDirectory] *)

Definition fe_name (entry : fs_entry) : jstr := match entry with FsFile n _ | FsDir n _ _ | FsOther n => n end.

(** [prefix ? `${prefix}/${name}` : name] *)
Definition under (prefix name : jstr) : jstr := if truthy prefix then prefix ++ js "/" ++ name else name.

(** *** Lists of files *)

(** What a list from the page may hold: a file, or something without a numeric [size]. *)
Inductive list_value := LFile (f : file_in) | LOther.

Definition filesFromFileList (values : option (list list_value)) : list file_in :=
  omap (fun v => match v with LFile f => Some f | LOther => None end) (default [] values).

Definition uploadDestForFile (destFolder : jstr) (file : file_in) : jstr * jstr :=
  let parts := rel_parts (str_or (f_rel file) (f_name file)) in
  let name := str_or (List.last parts []) (str_or (f_name file) (js "file")) in
  let nested := join (js "/") (removelast parts) in
  (if truthy nested then (if truthy destFolder then destFolder ++ js "/" ++ nested else nested) else destFolder, name).

(** *** Taking a drop *)

Record drop_item := {
  di_file : bool;                   (* item.kind === "file" *)
  di_entry : option fs_entry;       (* webkitGetAsEntry(), where there is one *)
  di_asFile : option file_in;       (* getAsFile() *)
}.

Record data_transfer := { dt_items : option (list drop_item); dt_files : option (list list_value) }.

(** [{ entries, files }] *)
Record dropped := { dr_entries : list fs_entry; dr_files : list file_in }.

Definition take_item (d : dropped) (item : drop_item) : dropped :=
  if negb (di_file item) then d
  else match di_entry item, di_asFile item with
       | Some entry, _ => {| dr_entries := dr_entries d ++ [entry]; dr_files := dr_files d |}
       | None, Some file => {| dr_entries := dr_entries d; dr_files := dr_files d ++ [file] |}
       | None, None => d
       end.

Definition takeDropped (dataTransfer : option data_transfer) : dropped :=
  let none := {| dr_entries := []; dr_files := [] |} in
  match dataTransfer with
  | None => none
  | Some dt =>
      match foldl take_item none (default [] (dt_items dt)) with
      | {| dr_entries := []; dr_files := [] |} => {| dr_entries := []; dr_files := filesFromFileList (dt_files dt) |}
      | d => d
      end
  end.

(** *** The walk *)

Inductive call := OnFile (f : file_in) (rel : jstr) | OnDir (rel : jstr) | OnError (rel : jstr) (e : error).

(** The calls of the handlers so far, each with its time, and the clock. *)
Record walking := { wk_time : nat; wk_log : list (nat * call) }.
#[global] Instance walking_settable : Settable walking := fun w => {| wk_time := wk_time w; wk_log := wk_log w |}.

Definition tick (w : walking) : walking := w <| wk_time ::= S |>.

Section Walk.
(** When the signal is aborted, whether the optional handlers are there, and what a handler throws. *)
Context (abort_at : option nat) (hasDir hasError : bool) (throws : call -> option error).

Definition aborted (w : walking) : bool := match abort_at with Some t => Nat.leb t (wk_time w) | None => false end.

Definition report (c : call) (w : walking) : walking * option error :=
  (tick (w <| wk_log ::= fun l => l ++ [(wk_time w, c)] |>), throws c).

Definition report_dir (rel : jstr) (w : walking) : walking * option error :=
  if hasDir then report (OnDir rel) w else (w, None).
Definition report_error (rel : jstr) (e : error) (w : walking) : walking * option error :=
  if hasError then report (OnError rel e) w else (w, None).

(** [try { body } catch (err) { onError?.(rel, err) }] *)
Definition guarded (rel : jstr) (r : walking * option error) : walking * option error :=
  match r with (w, None) => (w, None) | (w, Some err) => report_error rel err w end.

(** [walk(entry, prefix)]: [Some err] where the promise is rejected. *)
Fixpoint walk (entry : fs_entry) (prefix : jstr) (w : walking) {struct entry} : walking * option error :=
  let rel := under prefix (fe_name entry) in
  if aborted w then (w, None)
  else
    guarded rel
      match entry with
      | FsFile _ read =>
          let w := tick w in
          match read with
          | Err err => (w, Some err)
          | Ok file => if aborted w then (w, None) else report (OnFile file rel) w
          end
      | FsDir _ batches broken =>
          (fix read_batches (batches : list (list fs_entry)) (count : nat) (w : walking) {struct batches} :=
             let done w := match count with O => report_dir rel w | S _ => (w, None) end in
             if aborted w then (w, None)
             else
               let w := tick w in
               match batches with
               | [] => match broken with Some err => (w, Some err) | None => if aborted w then (w, None) else done w end
               | batch :: batches =>
                   if aborted w then (w, None)
                   else match batch with
                        | [] => done w
                        | _ =>
                            let '(w, r) :=
                              (fix children (batch : list fs_entry) (w : walking) {struct batch} :=
                                 match batch with
                                 | [] => (w, None)
                                 | child :: batch =>
                                     match walk child rel w with
                                     | (w, Some err) => (tick w, Some err)
                                     | (w, None) => children batch (tick w)
                                     end
                                 end) batch w in
                            match r with Some err => (w, Some err) | None => read_batches batches (count + length batch)%nat w end
                        end
               end) batches 0%nat w
      | FsOther _ => (w, None)
      end.

(** The loop over the plain files; the flag says it ran to its end. *)
Fixpoint walk_files (files : list file_in) (w : walking) : walking * bool * option error :=
  match files with
  | [] => (w, true, None)
  | file :: files =>
      if aborted w then (w, false, None)
      else match report (OnFile file (str_or (f_rel file) (f_name file))) w with
           | (w, Some err) => (w, false, Some err)
           | (w, None) => walk_files files w
           end
  end.

Fixpoint walk_entries (entries : list fs_entry) (w : walking) : walking * option error :=
  match entries with
  | [] => (w, None)
  | entry :: entries =>
      match walk entry [] w with (w, Some err) => (tick w, Some err) | (w, None) => walk_entries entries (tick w) end
  end.

Definition walkDropped (d : dropped) (w : walking) : walking * option error :=
  match walk_files (dr_files d) w with
  | (w, true, _) => walk_entries (dr_entries d) w
  | (w, false, r) => (w, r)
  end.
End Walk.

(** *** Collecting everything first *)

(** What becomes of a promise.  Of several rejections the first in time is reported; which one is left open. *)
Inductive settled (A : Type) := Resolved (a : A) | Rejected | Pending.
Arguments Resolved {A} a.
Arguments Rejected {A}.
Arguments Pending {A}.

(** [Promise.all] *)
Fixpoint settle_all {A} (l : list (settled A)) : settled (list A) :=
  match l with
  | [] => Resolved []
  | p :: l =>
      match p, settle_all l with
      | Rejected, _ | _, Rejected => Rejected
      | Pending, _ | _, Pending => Pending
      | Resolved a, Resolved l => Resolved (a :: l)
      end
  end.

Definition settle_map {A B} (f : A -> B) (p : settled A) : settled B :=
  match p with Resolved a => Resolved (f a) | Rejected => Rejected | Pending => Pending end.

Section Read.
(** Whether [Object.defineProperty] refuses a file. *)
Context (frozen : file_in -> bool).

Definition set_relative (relative : jstr) (file : file_in) : file_in :=
  if frozen file then file else {| f_name := f_name file; f_rel := relative; f_size := f_size file |}.

Fixpoint readEntry (entry : fs_entry) (prefix : jstr) {struct entry} : settled (list file_in) :=
  match entry with
  | FsFile _ (Ok file) => Resolved [set_relative (under prefix (f_name file)) file]
  | FsFile _ (Err _) => Rejected
  | FsOther _ => Resolved []
  | FsDir name batches broken =>
      let nextPrefix := under prefix name in
      (fix readBatch (batches : list (list fs_entry)) (jobs : list (settled (list file_in))) {struct batches} :=
         let last_batch :=
           (* the rejection of an async callback reaches nobody *)
           match settle_all jobs with Resolved parts => Resolved (concat parts) | Rejected | Pending => Pending end in
         match batches with
         | [] => match broken with Some _ => Rejected | None => last_batch end
         | [] :: _ => last_batch
         | batch :: batches =>
             let parts :=
               (fix each (batch : list fs_entry) {struct batch} :=
                  match batch with [] => [] | child :: batch => readEntry child nextPrefix :: each batch end) batch in
             readBatch batches (jobs ++ [settle_map (@concat file_in) (settle_all parts)])
         end) batches []
  end.

Definition item_job (item : drop_item) : option (settled (list file_in)) :=
  if negb (di_file item) then None
  else match di_entry item, di_asFile item with
       | Some entry, _ => Some (readEntry entry [])
       | None, Some file => Some (Resolved [file])
       | None, None => None
       end.

Definition filesFromDataTransfer (dataTransfer : option data_transfer) : settled (list file_in) :=
  match dataTransfer with
  | None => Resolved []
  | Some dt =>
      match settle_all (omap item_job (default [] (dt_items dt))) with
      | Rejected => Rejected
      | Pending => Pending
      | Resolved parts =>
          match concat parts with
          | [] => Resolved (filesFromFileList (dt_files dt))
          | nested => Resolved nested
          end
      end
  end.
End Read.

(** ** Trees and their listing *)

(** Induction on the tree, folders by the entries of their batches. *)
Section Tree_induction.
Context (P : fs_entry -> Prop) (P_file : forall name read, P (FsFile name read)) (P_other : forall name, P (FsOther name))
  (P_dir : forall name batches broken, Forall (Forall P) batches -> P (FsDir name batches broken)).

Fixpoint tree_ind (entry : fs_entry) : P entry :=
  match entry with
  | FsFile name read => P_file name read
  | FsOther name => P_other name
  | FsDir name batches broken =>
      P_dir name batches broken
        ((fix all_batches (batches : list (list fs_entry)) : Forall (Forall P) batches :=
            match batches with
            | [] => Forall_nil_2 _
            | batch :: batches =>
                Forall_cons_2 _ _ _
                  ((fix all (batch : list fs_entry) : Forall P batch :=
                      match batch with [] => Forall_nil_2 _ | e :: batch => Forall_cons_2 _ _ _ (tree_ind e) (all batch) end) batch)
                  (all_batches batches)
            end) batches)
  end.
End Tree_induction.

(** The children of a folder: [readEntries] says with an empty batch that there are no more. *)
Fixpoint children_of (batches : list (list fs_entry)) : list fs_entry :=
  match batches with [] | [] :: _ => [] | batch :: batches => batch ++ children_of batches end.

Definition read_breaks (batches : list (list fs_entry)) (broken : option error) : option error :=
  if existsb (fun b => match b with [] => true | _ => false end) batches then None else broken.

(** A tree as the browser hands it out: names are segments of a path, and a file has the name of its entry. *)
Fixpoint well_named (entry : fs_entry) : Prop :=
  match entry with
  | FsFile name read => is_segment name /\ match read with Ok file => f_name file = name | Err _ => True end
  | FsOther name => is_segment name
  | FsDir name batches _ =>
      is_segment name
      /\ (fix all_batches batches := match batches with
            | [] => True
            | batch :: batches =>
                (fix all batch := match batch with [] => True | e :: batch => well_named e /\ all batch end) batch /\ all_batches batches
            end) batches
  end.

(** What there is to report of a tree in the folder [segs], in order. *)
Fixpoint listing (segs : list jstr) (entry : fs_entry) : list call :=
  let rel := path_of (segs ++ [fe_name entry]) in
  match entry with
  | FsFile _ (Ok file) => [OnFile file rel]
  | FsFile _ (Err err) => [OnError rel err]
  | FsOther _ => []
  | FsDir name batches broken =>
      (fix each batches := match batches with
         | [] | [] :: _ => []
         | batch :: batches => concat (map (listing (segs ++ [name])) batch) ++ each batches
         end) batches
      ++ match read_breaks batches broken with
         | Some err => [OnError rel err]
         | None => match children_of batches with [] => [OnDir rel] | _ => [] end
         end
  end.

(** The same as a relation: a readable file at its place, an unreadable one, a folder that breaks, an empty folder. *)
Inductive reports : list jstr -> fs_entry -> call -> Prop :=
| rp_file segs name file : reports segs (FsFile name (Ok file)) (OnFile file (path_of (segs ++ [name])))
| rp_unreadable segs name err : reports segs (FsFile name (Err err)) (OnError (path_of (segs ++ [name])) err)
| rp_child segs name batches broken child c : child ∈ children_of batches -> reports (segs ++ [name]) child c ->
    reports segs (FsDir name batches broken) c
| rp_broken segs name batches broken err : read_breaks batches broken = Some err ->
    reports segs (FsDir name batches broken) (OnError (path_of (segs ++ [name])) err)
| rp_empty segs name batches broken : read_breaks batches broken = None -> children_of batches = [] ->
    reports segs (FsDir name batches broken) (OnDir (path_of (segs ++ [name]))).

Lemma listing_dir (segs : list jstr) (name : jstr) (batches : list (list fs_entry)) (broken : option error) :
  listing segs (FsDir name batches broken)
  = concat (map (listing (segs ++ [name])) (children_of batches))
    ++ match read_breaks batches broken with
       | Some err => [OnError (path_of (segs ++ [name])) err]
       | None => match children_of batches with [] => [OnDir (path_of (segs ++ [name]))] | _ => [] end
       end.
Proof.
  cbn [listing fe_name]. f_equal. induction batches as [|[|e batch] batches IH]; [done..|].
  rewrite IH. cbn [children_of]. by rewrite map_app, concat_app.
Qed.

Lemma children_forall (P : fs_entry -> Prop) (batches : list (list fs_entry)) : Forall (Forall P) batches -> Forall P (children_of batches).
Proof. induction 1 as [|[|e batch] batches Hb _ IH]; [constructor..|]. by apply Forall_app. Qed.

(** Induction on the tree, folders by their children. *)
Lemma tree_children_ind (P : fs_entry -> Prop) : (forall name read, P (FsFile name read)) -> (forall name, P (FsOther name)) ->
  (forall name batches broken, Forall P (children_of batches) -> P (FsDir name batches broken)) -> forall entry, P entry.
Proof. intros H1 H2 H3. apply tree_ind; [done..|]. intros. by apply H3, children_forall. Qed.

Lemma well_named_dir (name : jstr) (batches : list (list fs_entry)) (broken : option error) :
  well_named (FsDir name batches broken) -> is_segment name /\ Forall well_named (children_of batches).
Proof.
  cbn [well_named]. intros [Hn H]. split; [done|]. apply children_forall. induction batches as [|batch batches IH]; [constructor|].
  destruct H as [Hb H]. constructor; [|by apply IH]. clear -Hb. induction batch as [|e batch IH]; [constructor|].
  destruct Hb as [He Hb]. constructor; [done | by apply IH].
Qed.

Lemma listing_reports (entry : fs_entry) : forall segs c, c ∈ listing segs entry <-> reports segs entry c.
Proof.
  induction entry as [name [file|err]|name|name batches broken IH] using tree_children_ind; intros segs c.
  - cbn. rewrite list_elem_of_singleton. split; [intros ->; constructor | by inversion 1].
  - cbn. rewrite list_elem_of_singleton. split; [intros ->; constructor | by inversion 1].
  - split; [by intros H%not_elem_of_nil | inversion 1].
  - rewrite listing_dir, elem_of_app. rewrite Forall_forall in IH. split.
    + intros [H|H].
      * apply list_elem_of_In, in_concat in H as (l & (child & <- & Hc)%in_map_iff & Hl). apply list_elem_of_In in Hc, Hl.
        eapply rp_child; [exact Hc | by apply IH].
      * destruct (read_breaks batches broken) eqn:E; [apply list_elem_of_singleton in H as ->; by apply rp_broken|].
        destruct (children_of batches) eqn:Ec; [|by apply not_elem_of_nil in H]. apply list_elem_of_singleton in H as ->. by apply rp_empty.
    + inversion 1; subst.
      * left. apply list_elem_of_In, in_concat. exists (listing (segs ++ [name]) child). rewrite in_map_iff.
        split; [exists child; split; [done|] |]; apply list_elem_of_In; [done | by apply IH].
      * right. replace (read_breaks batches broken) with (Some err). by left.
      * right. replace (read_breaks batches broken) with (@None error). replace (children_of batches) with (@nil fs_entry). by left.
Qed.

(** ** The walk in steps *)

Section Walk_facts.
Context (abort_at : option nat) (hasDir hasError : bool) (throws : call -> option error).
#[local] Abbreviation W := (walk abort_at hasDir hasError throws).
#[local] Abbreviation stopped := (aborted abort_at).

(** The loops of [walk] over a batch and over the batches. *)
Fixpoint walk_children (rel : jstr) (batch : list fs_entry) (w : walking) : walking * option error :=
  match batch with
  | [] => (w, None)
  | child :: batch => match W child rel w with (w, Some err) => (tick w, Some err) | (w, None) => walk_children rel batch (tick w) end
  end.

Fixpoint walk_batches (rel : jstr) (broken : option error) (batches : list (list fs_entry)) (count : nat) (w : walking) :
  walking * option error :=
  let done w := match count with O => report_dir hasDir throws rel w | S _ => (w, None) end in
  if stopped w then (w, None)
  else
    let w := tick w in
    match batches with
    | [] => match broken with Some err => (w, Some err) | None => if stopped w then (w, None) else done w end
    | batch :: batches =>
        if stopped w then (w, None)
        else match batch with
             | [] => done w
             | _ =>
                 let '(w, r) := walk_children rel batch w in
                 match r with Some err => (w, Some err) | None => walk_batches rel broken batches (count + length batch)%nat w end
             end
    end.

Lemma walk_dir (name : jstr) (batches : list (list fs_entry)) (broken : option error) (prefix : jstr) (w : walking) :
  W (FsDir name batches broken) prefix w
  = if stopped w then (w, None)
    else guarded hasError throws (under prefix name) (walk_batches (under prefix name) broken batches 0%nat w).
Proof.
  cbn [walk fe_name]. destruct (stopped w); [done|]. f_equal. set (rel := under prefix name). generalize 0%nat as count.
  assert (Hc : forall batch w, (fix children (batch : list fs_entry) (w : walking) {struct batch} :=
      match batch with
      | [] => (w, None)
      | child :: batch => match W child rel w with (w, Some err) => (tick w, Some err) | (w, None) => children batch (tick w) end
      end) batch w = walk_children rel batch w).
  { intros batch. induction batch as [|c batch IH]; intros w'; [done|]. cbn [walk_children]. destruct (W c rel w') as [w1 [err|]]; [done | apply IH]. }
  revert w. induction batches as [|batch batches IH]; intros w count; [done|]. cbn [walk_batches].
  destruct (stopped w); [done|]. destruct (stopped (tick w)); [done|]. rewrite Hc.
  destruct batch as [|c batch]; [done|]. destruct (walk_children rel (c :: batch) (tick w)) as [w1 [err|]]; [done | apply IH].
Qed.
End Walk_facts.

Lemma under_segments (segs : list jstr) (name : jstr) : Forall is_segment segs -> under (path_of segs) name = path_of (segs ++ [name]).
Proof. apply joinPath_segments. Qed.

(** *** A walk that nobody stops *)

Section Whole.
Context (hasDir hasError : bool).
#[local] Abbreviation quiet := (fun _ : call => @None error).
#[local] Abbreviation W := (walk None hasDir hasError quiet).

Definition heard (c : call) : bool := match c with OnFile _ _ => true | OnDir _ => hasDir | OnError _ _ => hasError end.

(** The walk ended in peace, and reported what there is a handler for of [cs]. *)
Definition told (w : walking) (cs : list call) (p : walking * option error) : Prop :=
  p.2 = None /\ map snd (wk_log p.1) = map snd (wk_log w) ++ List.filter heard cs.

Lemma told_none (w : walking) : told w [] (w, None).
Proof. split; [done|]. by rewrite app_nil_r. Qed.

Lemma told_report (c : call) (w : walking) : heard c = true -> told w [c] (report quiet c w).
Proof. intros H. split; [done|]. cbn. by rewrite H, map_app. Qed.

Lemma told_dir (rel : jstr) (w : walking) : told w [OnDir rel] (report_dir hasDir quiet rel w).
Proof. unfold report_dir. destruct hasDir eqn:E; [apply told_report; by cbn; rewrite E|]. split; [done|]. cbn. by rewrite E, app_nil_r. Qed.

Lemma told_error (rel : jstr) (err : error) (w : walking) : told w [OnError rel err] (report_error hasError quiet rel err w).
Proof. unfold report_error. destruct hasError eqn:E; [apply told_report; by cbn; rewrite E|]. split; [done|]. cbn. by rewrite E, app_nil_r. Qed.

Lemma told_app (w w1 : walking) (cs ds : list call) (p : walking * option error) : told w cs (w1, None) -> told w1 ds p -> told w (cs ++ ds) p.
Proof. intros [_ H1] [H2 H3]. split; [done|]. cbn in H1. by rewrite H3, H1, List.filter_app, app_assoc. Qed.

Lemma told_same (w w1 : walking) (cs : list call) (p : walking * option error) : wk_log w1 = wk_log w -> told w1 cs p -> told w cs p.
Proof. intros E [H1 H2]. split; [done|]. by rewrite H2, E. Qed.

Lemma told_children (rel : jstr) (segs : list jstr) (batch : list fs_entry) :
  Forall (fun e => forall w, told w (listing segs e) (W e rel w)) batch ->
  forall w, told w (concat (map (listing segs) batch)) (walk_children None hasDir hasError quiet rel batch w).
Proof.
  induction 1 as [|e batch He _ IH]; intros w; [apply told_none|]. cbn [walk_children map concat]. specialize (He w).
  destruct (W e rel w) as [w1 r]. assert (r = None) as -> by apply He. eapply told_app; [exact He|]. by eapply told_same; [|apply IH].
Qed.

Lemma told_batches (rel : jstr) (segs : list jstr) (broken : option error) (batches : list (list fs_entry)) :
  Forall (fun e => forall w, told w (listing segs e) (W e rel w)) (children_of batches) ->
  forall count w, told w (concat (map (listing segs) (children_of batches))
      ++ match read_breaks batches broken with
         | Some err => [OnError rel err]
         | None => match children_of batches, count with [], O => [OnDir rel] | _, _ => [] end
         end)
    (guarded hasError quiet rel (walk_batches None hasDir hasError quiet rel broken batches count w)).
Proof.
  assert (D : forall count w, told w (match count with O => [OnDir rel] | S _ => [] end)
    (guarded hasError quiet rel (match count with O => report_dir hasDir quiet rel (tick w) | S _ => (tick w, None) end))).
  { intros [|n] w; cbn [guarded]; [|by eapply told_same; [|apply told_none]]. apply (told_same _ (tick w)); [done|].
    pose proof (told_dir rel (tick w)) as H. destruct (report_dir hasDir quiet rel (tick w)) as [w1 r]. by assert (r = None) as -> by apply H. }
  induction batches as [|batch batches IH]; intros Hb count w; cbn [walk_batches children_of].
  - cbn [aborted map concat app]. unfold read_breaks. cbn [existsb]. destruct broken as [err|]; [|apply D].
    cbn [guarded]. apply (told_same _ (tick w)); [done | apply told_error].
  - cbn [aborted]. destruct batch as [|e batch].
    { cbn [map concat app]. unfold read_breaks. cbn [existsb orb]. apply D. }
    cbn [children_of] in Hb. apply Forall_app in Hb as [Hb Hbs]. pose proof (told_children rel segs _ Hb (tick w)) as H.
    destruct (walk_children _ _ _ _ rel (e :: batch) (tick w)) as [w1 r]. assert (r = None) as -> by apply H.
    change (read_breaks ((e :: batch) :: batches) broken) with (read_breaks batches broken).
    rewrite map_app, concat_app, <- app_assoc. eapply told_app; [by apply (told_same _ (tick w)); [|exact H]|].
    replace (match (e :: batch) ++ children_of batches, count with [], O => [OnDir rel] | _, _ => [] end) with (@nil call) by done.
    specialize (IH Hbs (count + length (e :: batch))%nat w1).
    replace (count + length (e :: batch))%nat with (S (count + length batch)) in * by (cbn [length]; lia).
    destruct (read_breaks batches broken); [done|]. by destruct (children_of batches).
Qed.

Lemma told_walk (entry : fs_entry) : forall segs w, well_named entry -> Forall is_segment segs ->
  told w (listing segs entry) (W entry (path_of segs) w).
Proof.
  induction entry as [name [file|err]|name|name batches broken IH] using tree_children_ind; intros segs w Hn Hs.
  - cbn [walk listing fe_name aborted]. rewrite under_segments by done. apply (told_same _ (tick w)); [done|]. by apply told_report.
  - cbn [walk listing fe_name aborted guarded]. rewrite under_segments by done. apply (told_same _ (tick w)); [done|]. by apply told_error.
  - cbn [walk aborted guarded]. apply told_none.
  - rewrite walk_dir. cbn [aborted]. rewrite under_segments by done. rewrite listing_dir. apply well_named_dir in Hn as [Hn Hc].
    pose proof (told_batches (path_of (segs ++ [name])) (segs ++ [name]) broken batches) as H. apply (fun F => H F 0%nat w).
    rewrite Forall_forall in *. intros e He w'. apply IH; [done | by apply Hc|]. apply Forall_app. split; [done | by constructor].
Qed.

Lemma told_entries (entries : list fs_entry) : Forall well_named entries ->
  forall w, told w (concat (map (listing []) entries)) (walk_entries None hasDir hasError quiet entries w).
Proof.
  induction 1 as [|e entries He _ IH]; intros w; [apply told_none|]. cbn [walk_entries map concat].
  pose proof (told_walk e [] w He ltac:(constructor)) as H. change (path_of []) with (@nil N) in H.
  destruct (W e [] w) as [w1 r]. assert (r = None) as -> by apply H. eapply told_app; [exact H|]. by eapply told_same; [|apply IH].
Qed.

Lemma told_files (files : list file_in) : forall w, exists w',
  walk_files None quiet files w = (w', true, None) /\ map snd (wk_log w') = map snd (wk_log w) ++ map (fun f => OnFile f (str_or (f_rel f) (f_name f))) files.
Proof.
  induction files as [|f files IH]; intros w; [exists w; by rewrite app_nil_r|]. cbn [walk_files aborted report].
  destruct (IH (tick (w <| wk_log ::= fun l => l ++ [(wk_time w, OnFile f (str_or (f_rel f) (f_name f)))] |>))) as (w' & -> & E).
  exists w'. split; [done|]. rewrite E. cbn. by rewrite map_app, <- app_assoc.
Qed.
End Whole.

Definition at_start : walking := {| wk_time := 0; wk_log := [] |}.

(** C6: a walk that is not cancelled reports everything there is, once and in order: the plain files, then of every
    dropped tree each readable file under its path, each empty folder, and an error for each entry that cannot be read,
    which never stops the others. *)
Theorem walk_reports_everything (hasDir hasError : bool) (d : dropped) : Forall well_named (dr_entries d) ->
  let '(w, r) := walkDropped None hasDir hasError (fun _ => None) d at_start in
  r = None
  /\ map snd (wk_log w) = map (fun f => OnFile f (str_or (f_rel f) (f_name f))) (dr_files d)
       ++ List.filter (heard hasDir hasError) (concat (map (listing []) (dr_entries d)))
  /\ forall c, c ∈ concat (map (listing []) (dr_entries d)) <-> exists entry, entry ∈ dr_entries d /\ reports [] entry c.
Proof.
  intros Hn. unfold walkDropped. destruct (told_files (dr_files d) at_start) as (w1 & -> & E1).
  pose proof (told_entries hasDir hasError (dr_entries d) Hn w1) as [H1 H2]. destruct (walk_entries _ _ _ _ _ w1) as [w2 r].
  cbn [fst snd] in *. split_and!; [done | by rewrite H2, E1|]. intros c. rewrite list_elem_of_In, in_concat. split.
  - intros (l & (e & <- & He)%in_map_iff & Hc). exists e. apply list_elem_of_In in He, Hc. split; [done | by apply listing_reports].
  - intros (e & He & Hr). exists (listing [] e). split; [apply in_map, list_elem_of_In, He | by apply list_elem_of_In, listing_reports].
Qed.

(** *** A walk that is cancelled *)

Lemma log_report (throws : call -> option error) (c : call) (w : walking) : wk_log (report throws c w).1 = wk_log w ++ [(wk_time w, c)].
Proof. done. Qed.

(** What clocks and reports keep, a walk keeps. *)
Section Keeps.
Context (abort_at : option nat) (hasDir hasError : bool) (throws : call -> option error) (I : walking -> Prop).
Context (I_tick : forall w, I w -> I (tick w)) (I_report : forall c w, I w -> I (report throws c w).1).
#[local] Abbreviation W := (walk abort_at hasDir hasError throws).

Lemma keeps_guarded (rel : jstr) (p : walking * option error) : I p.1 -> I (guarded hasError throws rel p).1.
Proof. destruct p as [w [err|]]; [|done]. cbn. unfold report_error. destruct hasError; [apply I_report | done]. Qed.

Lemma keeps_dir (rel : jstr) (w : walking) : I w -> I (report_dir hasDir throws rel w).1.
Proof. unfold report_dir. destruct hasDir; [apply I_report | done]. Qed.

Lemma keeps_children (rel : jstr) (batch : list fs_entry) : Forall (fun e => forall prefix w, I w -> I (W e prefix w).1) batch ->
  forall w, I w -> I (walk_children abort_at hasDir hasError throws rel batch w).1.
Proof.
  induction 1 as [|e batch He _ IH]; intros w Hw; [done|]. cbn [walk_children]. specialize (He rel w Hw).
  destruct (W e rel w) as [w1 [err|]]; [by apply I_tick | by apply IH, I_tick].
Qed.

Lemma keeps_batches (rel : jstr) (broken : option error) (batches : list (list fs_entry)) :
  Forall (fun e => forall prefix w, I w -> I (W e prefix w).1) (children_of batches) ->
  forall count w, I w -> I (walk_batches abort_at hasDir hasError throws rel broken batches count w).1.
Proof.
  induction batches as [|batch batches IH]; intros Hb count w Hw; cbn [walk_batches]; (destruct (aborted abort_at w); [done|]);
    pose proof (I_tick w Hw) as Ht.
  - destruct broken; [done|]. destruct (aborted _ _); [done|]. destruct count; [by apply keeps_dir | done].
  - destruct (aborted _ _); [done|]. destruct batch as [|e batch]; [destruct count; [by apply keeps_dir | done]|].
    cbn [children_of] in Hb. apply Forall_app in Hb as [Hb Hbs]. pose proof (keeps_children rel _ Hb _ Ht) as H.
    destruct (walk_children _ _ _ _ rel (e :: batch) (tick w)) as [w1 [err|]]; [done | by apply IH].
Qed.

Lemma keeps_walk (entry : fs_entry) : forall prefix w, I w -> I (W entry prefix w).1.
Proof.
  induction entry as [name read|name|name batches broken IH] using tree_children_ind; intros prefix w Hw.
  - cbn [walk]. destruct (aborted abort_at w); [done|]. apply keeps_guarded. apply I_tick in Hw. destruct read; [|done].
    destruct (aborted abort_at (tick w)); [done | by apply I_report].
  - cbn [walk]. by destruct (aborted abort_at w).
  - rewrite walk_dir. destruct (aborted abort_at w); [done|]. by apply keeps_guarded, keeps_batches.
Qed.

Lemma keeps_entries (entries : list fs_entry) : forall w, I w -> I (walk_entries abort_at hasDir hasError throws entries w).1.
Proof.
  induction entries as [|e entries IH]; intros w Hw; [done|]. cbn [walk_entries]. pose proof (keeps_walk e [] w Hw) as H.
  destruct (W e [] w) as [w1 [err|]]; [by apply I_tick | by apply IH, I_tick].
Qed.

Lemma keeps_files (files : list file_in) : forall w, I w -> I (walk_files abort_at throws files w).1.1.
Proof.
  induction files as [|f files IH]; intros w Hw; [done|]. cbn [walk_files]. destruct (aborted abort_at w); [done|].
  pose proof (I_report (OnFile f (str_or (f_rel f) (f_name f))) w Hw) as H. destruct (report _ _ w) as [w1 [err|]]; [done | by apply IH].
Qed.

Lemma keeps_dropped (d : dropped) (w : walking) : I w -> I (walkDropped abort_at hasDir hasError throws d w).1.
Proof.
  intros Hw. unfold walkDropped. pose proof (keeps_files (dr_files d) w Hw) as H.
  destruct (walk_files _ _ _ w) as [[w1 []] r]; [by apply keeps_entries | done].
Qed.
End Keeps.

Section Cancelled.
Context (t : nat) (hasDir hasError : bool) (throws : call -> option error).
#[local] Abbreviation W := (walk (Some t) hasDir hasError throws).
#[local] Abbreviation V := (walk None hasDir hasError throws).

Definition before_abort (w : walking) : list (nat * call) := List.filter (fun p => Nat.ltb p.1 t) (wk_log w).
Definition after_abort (w : walking) : list (nat * call) := List.filter (fun p => Nat.leb t p.1) (wk_log w).

(** Past the abort, having reported [l] before it. *)
Definition past (l : list (nat * call)) (w : walking) : Prop := (t <= wk_time w)%nat /\ before_abort w = l.

Lemma past_tick (l : list (nat * call)) (w : walking) : past l w -> past l (tick w).
Proof. intros [H1 H2]. split; [cbn; lia | done]. Qed.

Lemma past_report (l : list (nat * call)) (c : call) (w : walking) : past l w -> past l (report throws c w).1.
Proof.
  intros [H1 H2]. split; [cbn; lia|]. unfold before_abort in *. rewrite log_report, List.filter_app, H2. cbn [List.filter fst].
  by rewrite (proj2 (Nat.ltb_ge _ _) H1), app_nil_r.
Qed.

(** Two walks agree: they are at the same point, or both past the abort with the same reports before it. *)
Definition agree {A} (p q : walking * A) : Prop := p = q \/ exists l, past l p.1 /\ past l q.1.

Lemma agree_refl {A} (p : walking * A) : agree p p.
Proof. by left. Qed.

Lemma agree_past {A B} (p q : walking * A) (p' q' : walking * B) :
  (forall l, past l p.1 -> past l p'.1) -> (forall l, past l q.1 -> past l q'.1) -> (p = q -> agree p' q') -> agree p q -> agree p' q'.
Proof. intros H1 H2 H3 [H|(l & H4 & H5)]; [by apply H3|]. right. exists l. auto. Qed.

Lemma aborted_some (w : walking) : aborted (Some t) w = true <-> (t <= wk_time w)%nat.
Proof. apply Nat.leb_le. Qed.

(** Once the signal is aborted, nothing a walk does makes the other disagree. *)
Lemma agree_aborted {A} (w : walking) (p q : walking * A) : aborted (Some t) w = true ->
  (forall l, past l w -> past l p.1) -> (forall l, past l w -> past l q.1) -> agree p q.
Proof. intros Ha%aborted_some Hp Hq. right. exists (before_abort w). split; [apply Hp | apply Hq]; by split. Qed.

#[local] Hint Resolve past_tick past_report : luna.

Lemma agree_guarded (rel : jstr) (p q : walking * option error) : agree p q ->
  agree (guarded hasError throws rel p) (guarded hasError throws rel q).
Proof. apply agree_past; [intros l; apply keeps_guarded; auto with luna..|]. intros ->. apply agree_refl. Qed.

Lemma agree_children (rel : jstr) (batch : list fs_entry) : Forall (fun e => forall prefix w, agree (W e prefix w) (V e prefix w)) batch ->
  forall w, agree (walk_children (Some t) hasDir hasError throws rel batch w) (walk_children None hasDir hasError throws rel batch w).
Proof.
  induction 1 as [|e batch He _ IH]; intros w; [apply agree_refl|]. cbn [walk_children]. eapply agree_past, (He rel w).
  - intros l Hl. destruct (W e rel w) as [w1 [err|]]; [by apply past_tick|]. apply keeps_children; eauto with luna.
    apply Forall_forall. intros e' _ prefix w'. apply keeps_walk; auto with luna.
  - intros l Hl. destruct (V e rel w) as [w1 [err|]]; [by apply past_tick|]. apply keeps_children; eauto with luna.
    apply Forall_forall. intros e' _ prefix w'. apply keeps_walk; auto with luna.
  - intros ->. destruct (V e rel w) as [w1 [err|]]; [apply agree_refl | apply IH].
Qed.

Lemma past_children (a : option nat) (rel : jstr) (l : list (nat * call)) (batch : list fs_entry) (w : walking) :
  past l w -> past l (walk_children a hasDir hasError throws rel batch w).1.
Proof.
  apply keeps_children; auto with luna. apply Forall_forall. intros e _ prefix w'. apply keeps_walk; auto with luna.
Qed.

Lemma past_batches (a : option nat) (rel : jstr) (broken : option error) (l : list (nat * call)) (batches : list (list fs_entry)) (n : nat) (w : walking) :
  past l w -> past l (walk_batches a hasDir hasError throws rel broken batches n w).1.
Proof.
  apply keeps_batches; auto with luna. apply Forall_forall. intros e _ prefix w'. apply keeps_walk; auto with luna.
Qed.

Lemma past_done (rel : jstr) (l : list (nat * call)) (n : nat) (w : walking) :
  past l w -> past l (match n with O => report_dir hasDir throws rel w | S _ => (w, None) end).1.
Proof. intros H. destruct n; [|done]. apply keeps_dir; auto with luna. Qed.

Lemma agree_batches (rel : jstr) (broken : option error) (batches : list (list fs_entry)) :
  Forall (fun e => forall prefix w, agree (W e prefix w) (V e prefix w)) (children_of batches) ->
  forall n w, agree (walk_batches (Some t) hasDir hasError throws rel broken batches n w)
    (walk_batches None hasDir hasError throws rel broken batches n w).
Proof.
  induction batches as [|batch batches IH]; intros Hb n w.
  - destruct (aborted (Some t) w) eqn:E; [apply (agree_aborted w); [done|intros l; by apply past_batches..]|].
    cbn [walk_batches]. rewrite E. cbn [aborted] in *. destruct broken; [apply agree_refl|].
    destruct (Nat.leb t (wk_time (tick w))) eqn:E'; [|apply agree_refl].
    apply (agree_aborted (tick w)); [done|done|]. intros l. apply past_done.
  - destruct (aborted (Some t) w) eqn:E; [apply (agree_aborted w); [done|intros l; by apply past_batches..]|].
    cbn [walk_batches]. rewrite E. cbn [aborted] in *. destruct (Nat.leb t (wk_time (tick w))) eqn:E'.
    { apply (agree_aborted (tick w)); [done|done|]. intros l Hl. destruct batch as [|e batch]; [by apply past_done|].
      apply (past_children None rel l (e :: batch)) in Hl. destruct (walk_children _ _ _ _ rel (e :: batch) (tick w)) as [w1 [err|]]; [done | by apply past_batches]. }
    destruct batch as [|e batch]; [apply agree_refl|]. cbn [children_of] in Hb. apply Forall_app in Hb as [Hb Hbs].
    eapply agree_past, (agree_children rel (e :: batch) Hb (tick w)).
    + intros l Hl. destruct (walk_children _ _ _ _ rel (e :: batch) (tick w)) as [w1 [err|]]; [done | by apply past_batches].
    + intros l Hl. destruct (walk_children _ _ _ _ rel (e :: batch) (tick w)) as [w1 [err|]]; [done | by apply past_batches].
    + intros ->. destruct (walk_children _ _ _ _ rel (e :: batch) (tick w)) as [w1 [err|]]; [apply agree_refl | by apply IH].
Qed.

Lemma agree_walk (entry : fs_entry) : forall prefix w, agree (W entry prefix w) (V entry prefix w).
Proof.
  induction entry as [name read|name|name batches broken IH] using tree_children_ind; intros prefix w;
    (destruct (aborted (Some t) w) eqn:E; [apply (agree_aborted w); [done|intros l; apply keeps_walk; auto with luna..]|]).
  - cbn [walk fe_name]. rewrite E. cbn [aborted]. apply agree_guarded. destruct read; [|apply agree_refl].
    destruct (Nat.leb t (wk_time (tick w))) eqn:E'; [|apply agree_refl].
    apply (agree_aborted (tick w)); [done|done|]. intros l. apply past_report.
  - cbn [walk]. rewrite E. apply agree_refl.
  - rewrite !walk_dir, E. cbn [aborted]. by apply agree_guarded, agree_batches.
Qed.

Lemma agree_entries (entries : list fs_entry) : forall w,
  agree (walk_entries (Some t) hasDir hasError throws entries w) (walk_entries None hasDir hasError throws entries w).
Proof.
  induction entries as [|e entries IH]; intros w; [apply agree_refl|]. cbn [walk_entries]. eapply agree_past, (agree_walk e [] w).
  - intros l Hl. destruct (W e [] w) as [w1 [err|]]; [by apply past_tick|]. apply keeps_entries; eauto with luna.
  - intros l Hl. destruct (V e [] w) as [w1 [err|]]; [by apply past_tick|]. apply keeps_entries; eauto with luna.
  - intros ->. destruct (V e [] w) as [w1 [err|]]; [apply agree_refl | apply IH].
Qed.
End Cancelled.

(** *** After the abort *)

Section Late.
Context (t : nat) (hasDir hasError : bool) (throws : call -> option error) (calm : forall rel e, throws (OnError rel e) = None).
#[local] Abbreviation W := (walk (Some t) hasDir hasError throws).
#[local] Abbreviation late := (after_abort t).

Definition is_error (c : call) : Prop := match c with OnError _ _ => True | _ => False end.

(** Nothing was reported after the abort; or it came, and one error at most was. *)
Definition spotless (w : walking) : Prop := late w = [].
Definition spent (w : walking) : Prop := (t <= wk_time w)%nat /\ (length (late w) <= 1)%nat /\ Forall (fun p => is_error p.2) (late w).
Definition settled_down (w : walking) : Prop := spotless w \/ spent w.

Lemma late_report (c : call) (w : walking) :
  late (report throws c w).1 = late w ++ (if Nat.leb t (wk_time w) then [(wk_time w, c)] else []).
Proof. unfold after_abort. rewrite log_report, List.filter_app. cbn [List.filter fst]. by destruct (Nat.leb t (wk_time w)). Qed.

Lemma running_spotless (w : walking) : settled_down w -> aborted (Some t) w = false -> spotless w.
Proof. intros [H|[H _]] E; [done|]. cbn in E. apply Nat.leb_gt in E. lia. Qed.

Lemma tick_settled (w : walking) : settled_down w -> settled_down (tick w).
Proof. intros [H|(H1 & H2)]; [by left|]. right. split; [cbn; lia | done]. Qed.

Lemma report_spotless (c : call) (w : walking) : spotless w -> aborted (Some t) w = false -> spotless (report throws c w).1.
Proof. intros H E. unfold spotless. rewrite late_report, H. cbn in E. by rewrite E. Qed.

(** What a body leaves: a walk settled down, and spotless where it throws. *)
Definition body_ok (p : walking * option error) : Prop := settled_down p.1 /\ (p.2 <> None -> spotless p.1).

Lemma body_none (w : walking) : settled_down w -> body_ok (w, None).
Proof. by split. Qed.

Lemma body_report (c : call) (w : walking) : spotless w -> aborted (Some t) w = false -> body_ok (report throws c w).
Proof. intros H E. pose proof (report_spotless c w H E). split; [by left | done]. Qed.

Lemma body_done (rel : jstr) (n : nat) (w : walking) : spotless w -> aborted (Some t) w = false ->
  body_ok (match n with O => report_dir hasDir throws rel w | S _ => (w, None) end).
Proof.
  intros H E. destruct n; [|by apply body_none; left]. unfold report_dir. destruct hasDir; [by apply body_report | by apply body_none; left].
Qed.

Definition walk_ok (p : walking * option error) : Prop := p.2 = None /\ settled_down p.1.

Lemma guarded_ok (rel : jstr) (p : walking * option error) : body_ok p -> walk_ok (guarded hasError throws rel p).
Proof.
  destruct p as [w [err|]]; intros [H1 H2]; [|done]. specialize (H2 ltac:(done)). cbn in *. unfold report_error. destruct hasError; [|done].
  split; [apply calm|]. pose proof (late_report (OnError rel err) w) as E. rewrite H2 in E. cbn [app] in E.
  destruct (Nat.leb_spec t (wk_time w)) as [Hle|]; [|by left]. right. unfold spent. rewrite E.
  split_and!; [cbn; lia | done | by repeat constructor].
Qed.

Lemma children_ok (rel : jstr) (batch : list fs_entry) : Forall (fun e => forall prefix w, settled_down w -> walk_ok (W e prefix w)) batch ->
  forall w, settled_down w -> walk_ok (walk_children (Some t) hasDir hasError throws rel batch w).
Proof.
  induction 1 as [|e batch He _ IH]; intros w Hw; [done|]. cbn [walk_children]. destruct (He rel w Hw) as [H1 H2].
  destruct (W e rel w) as [w1 r]. cbn in H1. subst r. by apply IH, tick_settled.
Qed.

Lemma batches_ok (rel : jstr) (broken : option error) (batches : list (list fs_entry)) :
  Forall (fun e => forall prefix w, settled_down w -> walk_ok (W e prefix w)) (children_of batches) ->
  forall n w, settled_down w -> body_ok (walk_batches (Some t) hasDir hasError throws rel broken batches n w).
Proof.
  induction batches as [|batch batches IH]; intros Hb n w Hw; cbn [walk_batches];
    (destruct (aborted (Some t) w) eqn:E; [by apply body_none|]); pose proof (running_spotless w Hw E) as Hs.
  - destruct broken; [by split; [left|]|]. destruct (aborted (Some t) (tick w)) eqn:E'; [by apply body_none, tick_settled | by apply body_done].
  - destruct (aborted (Some t) (tick w)) eqn:E'; [by apply body_none, tick_settled|]. destruct batch as [|e batch]; [by apply body_done|].
    cbn [children_of] in Hb. apply Forall_app in Hb as [Hb Hbs]. destruct (children_ok rel _ Hb (tick w) (tick_settled w Hw)) as [H1 H2].
    destruct (walk_children _ _ _ _ rel (e :: batch) (tick w)) as [w1 r]. cbn in H1. subst r. by apply IH.
Qed.

Lemma walk_settles (entry : fs_entry) : forall prefix w, settled_down w -> walk_ok (W entry prefix w).
Proof.
  induction entry as [name read|name|name batches broken IH] using tree_children_ind; intros prefix w Hw.
  - cbn [walk fe_name]. destruct (aborted (Some t) w) eqn:E; [done|]. pose proof (running_spotless w Hw E) as Hs. apply guarded_ok.
    destruct read; [|by split; [left|]]. destruct (aborted (Some t) (tick w)) eqn:E'; [by apply body_none, tick_settled | by apply body_report].
  - cbn [walk]. by destruct (aborted (Some t) w).
  - rewrite walk_dir. destruct (aborted (Some t) w); [done|]. by apply guarded_ok, batches_ok.
Qed.

Lemma entries_settle (entries : list fs_entry) : forall w, settled_down w ->
  walk_ok (walk_entries (Some t) hasDir hasError throws entries w).
Proof.
  induction entries as [|e entries IH]; intros w Hw; [done|]. cbn [walk_entries]. destruct (walk_settles e [] w Hw) as [H1 H2].
  destruct (W e [] w) as [w1 r]. cbn in H1. subst r. by apply IH, tick_settled.
Qed.

Lemma files_settle (files : list file_in) : forall w, spotless w -> spotless (walk_files (Some t) throws files w).1.1.
Proof.
  induction files as [|f files IH]; intros w Hw; [done|]. cbn [walk_files]. destruct (aborted (Some t) w) eqn:E; [done|].
  pose proof (report_spotless (OnFile f (str_or (f_rel f) (f_name f))) w Hw E) as H. destruct (report _ _ w) as [w1 [err|]]; [done | by apply IH].
Qed.
End Late.

Lemma agree_files (t : nat) (throws : call -> option error) (files : list file_in) : forall w,
  walk_files (Some t) throws files w = walk_files None throws files w
  \/ exists l, (past t l (walk_files (Some t) throws files w).1.1 /\ (walk_files (Some t) throws files w).1.2 = false)
       /\ past t l (walk_files None throws files w).1.1.
Proof.
  induction files as [|f files IH]; intros w; [by left|]. destruct (aborted (Some t) w) eqn:E.
  - right. exists (before_abort t w). assert (P : past t (before_abort t w) w) by (split; [by apply aborted_some in E | done]).
    split; [cbn [walk_files]; rewrite E; by split|]. apply keeps_files; auto using past_report.
  - cbn [walk_files]. rewrite E. cbn [aborted]. destruct (report throws _ w) as [w1 [err|]]; [by left | apply IH].
Qed.

(** C7: a cancelled walk does what the uncancelled one does up to the abort, and after it reports no file and no folder:
    at most one error follows, when [onError] itself does not throw. *)
Theorem cancel_stops_walk (t : nat) (hasDir hasError : bool) (throws : call -> option error) (d : dropped) :
  (forall rel e, throws (OnError rel e) = None) ->
  let w := (walkDropped (Some t) hasDir hasError throws d at_start).1 in
  let full := (walkDropped None hasDir hasError throws d at_start).1 in
  before_abort t w = before_abort t full
  /\ (length (after_abort t w) <= 1)%nat /\ Forall (fun p => is_error p.2) (after_abort t w).
Proof.
  intros Hc. cbv zeta. split.
  - unfold walkDropped. destruct (agree_files t throws (dr_files d) at_start) as [<-|(l & [H1 H2] & H3)].
    + destruct (walk_files _ _ _ at_start) as [[w1 []] r]; [|done].
      destruct (agree_entries t hasDir hasError throws (dr_entries d) w1) as [->|(l & [_ H1] & [_ H2])]; [done | congruence].
    + destruct (walk_files (Some t) _ _ at_start) as [[w1 b1] r1], (walk_files None _ _ at_start) as [[w2 b2] r2]. cbn [fst snd] in *. subst b1.
      destruct H1 as [_ <-]. symmetry. destruct b2; [|by destruct H3].
      by eapply (keeps_entries None hasDir hasError throws (past t _)); [apply past_tick | apply past_report |].
  - assert (S : settled_down t (walkDropped (Some t) hasDir hasError throws d at_start).1).
    { unfold walkDropped. pose proof (files_settle t throws (dr_files d) at_start eq_refl) as H.
      destruct (walk_files _ _ _ at_start) as [[w1 []] r]; [by apply (entries_settle t hasDir hasError throws Hc); left | by left]. }
    destruct S as [-> |(_ & H)]; [by split; [cbn; lia|] | done].
Qed.

#[local] Definition sample : dropped :=
  {| dr_entries := [FsDir (js "Trip") [[FsFile (js "a.txt") (Ok {| f_name := js "a.txt"; f_rel := []; f_size := 1 |}); FsDir (js "Empty") [] None];
       [FsFile (js "bad") (Err (EError []))]] None];
     dr_files := [{| f_name := js "n.txt"; f_rel := js "Pick/n.txt"; f_size := 2 |}] |}.

Lemma walk_reports_everything_witness :
  map snd (wk_log (walkDropped None true true (fun _ => None) sample at_start).1)
  = [OnFile {| f_name := js "n.txt"; f_rel := js "Pick/n.txt"; f_size := 2 |} (js "Pick/n.txt");
     OnFile {| f_name := js "a.txt"; f_rel := []; f_size := 1 |} (js "Trip/a.txt"); OnDir (js "Trip/Empty"); OnError (js "Trip/bad") (EError [])].
Proof.
  assert (N : Forall well_named (dr_entries sample)) by (repeat constructor; try done; by intros H; repeat destruct H as [H|H]).
  pose proof (walk_reports_everything true true sample N) as H.
  destruct (walkDropped None true true (fun _ => None) sample at_start) as [w r]. exact (proj1 (proj2 H)).
Defined.

Lemma cancel_stops_walk_witness :
  (length (after_abort 4 (walkDropped (Some 4%nat) true true (fun _ => None) sample at_start).1) <= 1)%nat.
Proof. exact (proj1 (proj2 (cancel_stops_walk 4 true true (fun _ => None) sample (fun _ _ => eq_refl)))). Defined.

(** ** Where an upload goes *)

Lemma rel_parts_segments (segs : list jstr) : Forall is_segment segs -> rel_parts (path_of segs) = segs.
Proof.
  intros H. unfold rel_parts. destruct segs as [|w segs]; [done|].
  assert (E : OpsUploads.strip_slashes (path_of (w :: segs)) = path_of (w :: segs)).
  { apply Forall_cons in H as [[Hw Hs] _]. destruct w as [|c w]; [done|].
    assert (Hc : (c =? c_slash)%N = false) by (apply N.eqb_neq; intros ->; apply Hs; by left).
    unfold path_of. destruct segs; cbn; by rewrite Hc. }
  rewrite E. unfold path_of. rewrite split_join; [|done|by eapply Forall_impl; [exact H | intros v [_ ?]]].
  clear E. induction H as [|v segs' [Hv _] _ IH]; [done|]. cbn [List.filter]. destruct v; [done|]. cbn. by rewrite IH.
Qed.

(** An upload goes where the tree says: a file whose path in the drop is [folder/name] goes to that folder below the
    destination, under its own name, and the uploader splits the reported path the same way. *)
Theorem upload_keeps_place (dest folder : list jstr) (name : jstr) (file : file_in) :
  Forall is_segment dest -> Forall is_segment folder -> is_segment name ->
  str_or (f_rel file) (f_name file) = path_of (folder ++ [name]) ->
  uploadDestForFile (path_of dest) file = (path_of (dest ++ folder), name)
  /\ splitRel (path_of (folder ++ [name])) = (path_of folder, name).
Proof.
  intros Hd Hf Hn E. assert (Hall : Forall is_segment (folder ++ [name])) by (apply Forall_app; split; [done | by constructor]).
  assert (Hname : forall d, str_or name d = name) by (destruct Hn as [Hn _]; by destruct name).
  unfold uploadDestForFile, splitRel. rewrite E, (rel_parts_segments _ Hall). rewrite List.last_last, removelast_last, !Hname. split; [|done]. f_equal.
  change (join (js "/") folder) with (path_of folder). rewrite !path_of_truthy by done.
  destruct folder as [|w folder]; [by rewrite app_nil_r|]. destruct dest as [|v dest]; [done|].
  clear. unfold path_of. revert v. induction dest as [|u dest IH]; intros v; [done|].
  change (join [c_slash] (v :: u :: dest)) with (v ++ c_slash :: join [c_slash] (u :: dest)). rewrite <- app_assoc. cbn [app].
  specialize (IH u). cbn [app] in IH |- *. change (join [c_slash] (v :: u :: dest ++ w :: folder)) with (v ++ c_slash :: join [c_slash] (u :: dest ++ w :: folder)).
  by rewrite <- IH.
Qed.

Lemma segment_check (w : jstr) : truthy w && negb (includes_char c_slash w) = true -> is_segment w.
Proof.
  intros [H1 H2%negb_true_iff]%andb_true_iff. split; [by apply truthy_spec|]. intros H%(includes_char_spec c_slash w). congruence.
Qed.

Lemma upload_keeps_place_witness :
  uploadDestForFile (js "Inbox") {| f_name := js "note.txt"; f_rel := js "Docs/note.txt"; f_size := 1 |} = (js "Inbox/Docs", js "note.txt").
Proof.
  exact (proj1 (upload_keeps_place [js "Inbox"] [js "Docs"] (js "note.txt") {| f_name := js "note.txt"; f_rel := js "Docs/note.txt"; f_size := 1 |}
    (Forall_cons_2 _ _ _ (segment_check (js "Inbox") eq_refl) (Forall_nil_2 _))
    (Forall_cons_2 _ _ _ (segment_check (js "Docs") eq_refl) (Forall_nil_2 _)) (segment_check (js "note.txt") eq_refl) eq_refl)).
Defined.

(** ** The reader that collects everything first *)

Section Collected.
Context (frozen : file_in -> bool).

Definition is_errorb (c : call) : bool := match c with OnError _ _ => true | _ => false end.

(** The file a reader hands out for a report. *)
Definition collected (c : call) : option file_in := match c with OnFile f rel => Some (set_relative frozen rel f) | _ => None end.

Definition hang {A} (p : settled A) : settled A := match p with Resolved a => Resolved a | _ => Pending end.

Lemma settle_all_app {A} (l m : list (settled A)) :
  settle_all (l ++ m) = match settle_all l, settle_all m with
                        | Rejected, _ | _, Rejected => Rejected
                        | Pending, _ | _, Pending => Pending
                        | Resolved a, Resolved b => Resolved (a ++ b)
                        end.
Proof. induction l as [|p l IH]; cbn; [by destruct (settle_all m)|]. rewrite IH. by destruct p, (settle_all l), (settle_all m). Qed.

Lemma settle_flat {A} (ls : list (list (settled (list A)))) :
  settle_map (@concat A) (settle_all (map (fun l => settle_map (@concat A) (settle_all l)) ls))
  = settle_map (@concat A) (settle_all (concat ls)).
Proof.
  induction ls as [|l ls IH]; [done|]. cbn [map settle_all concat]. rewrite settle_all_app.
  destruct (settle_all (map _ ls)), (settle_all (concat ls)); cbn in IH; try discriminate IH; [injection IH as IH|..];
    destruct (settle_all l); try done. cbn. by rewrite concat_app, IH.
Qed.

Lemma read_dir (name : jstr) (batches : list (list fs_entry)) (broken : option error) (prefix : jstr) :
  readEntry frozen (FsDir name batches broken) prefix
  = match read_breaks batches broken with
    | Some _ => Rejected
    | None => hang (settle_map (@concat file_in) (settle_all (map (fun c => readEntry frozen c (under prefix name)) (children_of batches))))
    end.
Proof.
  cbn [readEntry]. set (next := under prefix name). set (read := fun c => readEntry frozen c next).
  set (job := fun batch => settle_map (@concat file_in) (settle_all (map read batch))).
  match goal with |- ?f batches [] = _ => set (loop := f) end.
  assert (L : forall bs jobs, loop bs (map job jobs) = match read_breaks bs broken with
    | Some _ => Rejected | None => hang (settle_map (@concat file_in) (settle_all (map read (concat jobs ++ children_of bs)))) end).
  { assert (End : forall jobs, match settle_all (map job jobs) with Resolved parts => Resolved (concat parts) | Rejected | Pending => Pending end
      = hang (settle_map (@concat file_in) (settle_all (map read (concat jobs))))).
    { intros jobs. pose proof (settle_flat (map (map read) jobs)) as F. rewrite map_map in F. rewrite concat_map, <- F. unfold job.
      by destruct (settle_all (map _ jobs)). }
    induction bs as [|batch bs IH]; intros jobs.
    - cbn. rewrite app_nil_r. destruct broken; [done | apply End].
    - destruct batch as [|c batch].
      { cbn. rewrite app_nil_r. apply End. }
      transitivity (loop bs (map job jobs ++ [job (c :: batch)])).
      { reflexivity. }
      change (map job jobs ++ [job (c :: batch)]) with (map job jobs ++ map job [c :: batch]). rewrite <- map_app, IH.
      change (read_breaks ((c :: batch) :: bs) broken) with (read_breaks bs broken).
      rewrite concat_app. cbn [concat children_of]. by rewrite app_nil_r, app_assoc. }
  exact (L batches []).
Qed.

(** What becomes of the reader of a tree with something unreadable in it. *)
Definition read_fails (entry : fs_entry) : settled (list file_in) :=
  match entry with
  | FsFile _ _ => Rejected
  | FsDir _ batches broken => match read_breaks batches broken with Some _ => Rejected | None => Pending end
  | FsOther _ => Pending
  end.

Lemma settle_children (rel : jstr) (segs : list jstr) (children : list fs_entry) :
  Forall (fun e => readEntry frozen e rel
    = if existsb is_errorb (listing segs e) then read_fails e else Resolved (omap collected (listing segs e))) children ->
  let all := concat (map (listing segs) children) in
  hang (settle_map (@concat file_in) (settle_all (map (fun c => readEntry frozen c rel) children)))
  = if existsb is_errorb all then Pending else Resolved (omap collected all).
Proof.
  intros H. cbv zeta. induction H as [|e children He _ IH]; [done|]. cbn [map concat settle_all]. rewrite He, existsb_app, omap_app.
  assert (F : forall p : settled (list file_in), read_fails e = p -> p = Rejected \/ p = Pending).
  { intros p <-. destruct e as [| |]; cbn [read_fails]; repeat case_match; auto. }
  destruct (existsb is_errorb (listing segs e)).
  - cbn [orb]. destruct (F _ eq_refl) as [-> | ->]; by destruct (settle_all (map _ children)).
  - cbn [orb]. destruct (existsb is_errorb (concat (map (listing segs) children))), (settle_all (map _ children)); cbn in *; try done.
    congruence.
Qed.

Lemma read_entry_listing (entry : fs_entry) : forall segs, well_named entry -> Forall is_segment segs ->
  readEntry frozen entry (path_of segs)
  = if existsb is_errorb (listing segs entry) then read_fails entry else Resolved (omap collected (listing segs entry)).
Proof.
  induction entry as [name [file|err]|name|name batches broken IH] using tree_children_ind; intros segs Hn Hs; [|done|done|].
  - cbn. destruct Hn as [_ ->]. by rewrite under_segments.
  - rewrite read_dir, listing_dir, existsb_app, omap_app. cbn [read_fails]. apply well_named_dir in Hn as [Hn Hc].
    destruct (read_breaks batches broken); [by rewrite orb_true_r|].
    assert (Hs' : Forall is_segment (segs ++ [name])) by (apply Forall_app; split; [done | by constructor]).
    pose proof (settle_children (under (path_of segs) name) (segs ++ [name]) (children_of batches)) as H. cbv zeta in H. rewrite H.
    + destruct (children_of batches); [done|]. by rewrite orb_false_r, app_nil_r.
    + rewrite under_segments by done. rewrite Forall_forall in *. intros e He. apply IH; [done | by apply Hc | done].
Qed.
End Collected.

(** The reader that collects first has the files the walk would report, under the same paths; but of a folder in which
    something cannot be read it hands out nothing and never says so: the promise stays pending. *)
Theorem collector_lists_or_hangs (frozen : file_in -> bool) (entry : fs_entry) (others : option (list list_value)) : well_named entry ->
  let drop := Some {| dt_items := Some [{| di_file := true; di_entry := Some entry; di_asFile := None |}]; dt_files := others |} in
  filesFromDataTransfer frozen drop
  = if existsb is_errorb (listing [] entry) then read_fails entry
    else Resolved (match omap (collected frozen) (listing [] entry) with [] => filesFromFileList others | files => files end).
Proof.
  intros Hn. cbv zeta. unfold filesFromDataTransfer. cbn [dt_items default from_option omap list_omap item_job di_file di_entry negb id].
  pose proof (read_entry_listing frozen entry [] Hn ltac:(constructor)) as E. change (path_of []) with (@nil N) in E. rewrite E.
  destruct (existsb is_errorb (listing [] entry)).
  - assert (F : read_fails entry = Rejected \/ read_fails entry = Pending) by (destruct entry; cbn [read_fails]; repeat case_match; auto).
    by destruct F as [-> | ->].
  - cbn [settle_all concat dt_files]. rewrite app_nil_r. by destruct (omap (collected frozen) (listing [] entry)).
Qed.

Lemma collector_lists_or_hangs_witness :
  filesFromDataTransfer (fun _ => false)
    (Some {| dt_items := Some [{| di_file := true; di_entry := Some (FsDir (js "Trip")
        [[FsFile (js "a") (Ok {| f_name := js "a"; f_rel := []; f_size := 1 |}); FsFile (js "b") (Err (EError []))]] None); di_asFile := None |}];
             dt_files := None |}) = Pending.
Proof.
  assert (N : well_named (FsDir (js "Trip")
    [[FsFile (js "a") (Ok {| f_name := js "a"; f_rel := []; f_size := 1 |}); FsFile (js "b") (Err (EError []))]] None)).
  { split; [exact (segment_check (js "Trip") eq_refl)|]. repeat split; try discriminate; intros H; repeat destruct H as [H|H]; discriminate || done. }
  exact (collector_lists_or_hangs (fun _ => false) _ None N).
Defined.
