(* ===== verification/OpsJobs.v ===== *)
(** * File operations: the job runner, [lib/fileOps/jobRunner.js]

    Copies and moves run on Luna.  The tab keeps at most four jobs accepted or on their way, sends
    the next when one ends, polls the accepted ones once a second, and keeps their ids in the
    session storage so that a reload picks them up again. *)

From S2P Require Import Prelude JsString Paths OpsTypes OpsCopy OpsErrors OpsStore OpsState.

Definition JOB_PARALLEL : Z := 4.
Definition JOB_POLL_MS : Z := 1000.
Definition QUEUE_RETRY_MS : Z := 5000.

(** ** Session storage *)

Definition readStoredJobs (st : storage) : list stored_job :=
  match st with
  | Some jobs => List.filter (fun j => truthy (sj_jobId j) && truthy (sj_opId j)) jobs
  | None => []
  end.

Definition writeStoredJobs (jobs : list stored_job) (s : St) : St :=
  match s_storage s with
  | None => s
  | Some _ => s <| s_storage := Some jobs |>
  end.

Definition saveJob (job : stored_job) (s : St) : St :=
  writeStoredJobs
    (List.filter (fun j => negb (bool_decide (sj_jobId j = sj_jobId job)))
       (readStoredJobs (s_storage s)) ++ [job]) s.

Definition dropJob (jobId : jstr) (s : St) : St :=
  writeStoredJobs (List.filter (fun j => negb (bool_decide (sj_jobId j = jobId)))
                     (readStoredJobs (s_storage s))) s.

Definition dropOp (opId : jstr) (s : St) : St :=
  writeStoredJobs (List.filter (fun j => negb (bool_decide (sj_opId j = opId)))
                     (readStoredJobs (s_storage s))) s.

(** ** State helpers *)

Definition on_jb (f : JobSt -> JobSt) (s : St) : St := s <| s_jb ::= f |>.
Definition set_queue (l : list (oref * iref)) : St -> St := on_jb (fun j => j <| j_queue := l |>).
Definition add_inflight (d : Z) : St -> St := on_jb (fun j => j <| j_inflight ::= Z.add d |>).
Definition set_blockedUntil (t : Z) : St -> St := on_jb (fun j => j <| j_blockedUntil := t |>).

(** [Map.set]: an existing key keeps its place. *)
Fixpoint map_set {V} (k : jstr) (v : V) (m : list (jstr * V)) : list (jstr * V) :=
  match m with
  | [] => [(k, v)]
  | (k', v') :: m =>
      if bool_decide (k' = k) then (k, v) :: m else (k', v') :: map_set k v m
  end.
Definition map_del {V} (k : jstr) (m : list (jstr * V)) : list (jstr * V) :=
  List.filter (fun e => negb (bool_decide (e.1 = k))) m.

Definition accept (id : jstr) (e : oref * iref) : St -> St :=
  on_jb (fun j => j <| j_accepted ::= map_set id e |>).
Definition unaccept (id : jstr) : St -> St := on_jb (fun j => j <| j_accepted ::= map_del id |>).

(** ** Sending *)

Definition slotsUsed (s : St) : Z :=
  Z.of_nat (length (j_accepted (s_jb s))) + j_inflight (s_jb s).

Definition armRetry (s : St) : St :=
  match j_retryTimer (s_jb s) with
  | Some _ => s
  | None =>
      if j_stopped (s_jb s) then s
      else
        let wait := Z.max 0 (j_blockedUntil (s_jb s) - c_now (s_core s)) in
        let '(t, c) := setTimer CbJobRetry (if wait =? 0 then QUEUE_RETRY_MS else wait) (s_core s) in
        s <| s_core := c |> ▷ on_jb (fun j => j <| j_retryTimer := Some t |>)
  end.

(** The part of [submit] before its [await]. *)
Definition submit_start (o : oref) (i : iref) (s : St) : St :=
  let s := s ▷ add_inflight 1
             ▷ env_patchItem o i [PState ISubmitting; PWaitingForQueue false; PError None] in
  let op := s_op s o in
  let item := s_item s i in
  s ▷ env_log (EfPostJob (op_kind_of op) (op_driveId op) (it_relPath item) (op_destDriveId op)
                 (op_destFolder op) (it_extra item))
    ▷ spawn (TSubmit o i).

(** [while (queue.length && slotsUsed() < JOB_PARALLEL)]: only [shift] changes the queue while the
    loop runs. *)
Fixpoint job_pump_loop (queue : list (oref * iref)) (s : St) : St :=
  match queue with
  | [] => s
  | (o, i) :: rest =>
      if slotsUsed s <? JOB_PARALLEL then
        let s := set_queue rest s in
        if negb (bool_decide (s_state s i = IQueued)) && negb (bool_decide (s_state s i = ISubmitting))
        then job_pump_loop rest s
        else if negb (env_alive s o) then job_pump_loop rest s
        else s ▷ submit_start o i ▷ job_pump_loop rest
      else s
  end.

Definition job_pump (s : St) : St :=
  if j_stopped (s_jb s) then s
  else if c_now (s_core s) <? j_blockedUntil (s_jb s) then armRetry s
  else job_pump_loop (j_queue (s_jb s)) s.

(** The retry timer's callback. *)
Definition on_job_retry (s : St) : St :=
  s ▷ on_jb (fun j => j <| j_retryTimer := None |> <| j_blockedUntil := 0 |>) ▷ job_pump.

(** A copy into its own folder can't replace anything. *)
Definition sameFolder (op : Op) (item : Item) : bool :=
  bool_decide (op_kind_of op = KCopy) && bool_decide (op_driveId op = op_destDriveId op)
  && bool_decide (parentOr (it_relPath item) = op_destFolder op).

Definition requeue (o : oref) (i : iref) (f : job_extra -> job_extra) (s : St) : St :=
  let extra := f (it_extra (s_item s i)) in
  let s := env_patchItem o i [PState IQueued; PDecision None; PError None; PExtra extra] s in
  s ▷ set_queue (j_queue (s_jb s) ++ [(o, i)]) ▷ job_pump.

Definition job_decide (o : oref) (i : iref) (c : choice) (s : St) : St :=
  match c with
  | Skip => s ▷ env_patchItem o i [PState ISkipped; PDecision None] ▷ env_settle o
  | Confirm => requeue o i (fun x => x <| ex_confirm_broaden := true |>) s
  | KeepBoth => requeue o i (fun x => x <| ex_on_conflict_keep_both := true |>) s
  | Replace =>
      let s := env_patchItem o i [PState ISubmitting; PDecision None; PError None] s in
      let op := s_op s o in
      s ▷ env_log (EfRemove (op_destDriveId op) (joinPath (op_destFolder op) (it_name (s_item s i))))
        ▷ spawn (TReplaceRemove o i)
  end.

(** The file in the way went to Trash ([None]), or could not be removed. *)
Definition on_replace_removed (o : oref) (i : iref) (err : option js_err) (s : St) : St :=
  match err with
  | None =>
      let s := set_item i (fun it =>
                 it <| it_extra ::= (fun x => x <| ex_on_conflict_keep_both := false |>) |>
                    <| it_state := IQueued |>) s in
      s ▷ set_queue (j_queue (s_jb s) ++ [(o, i)]) ▷ job_pump
  | Some e =>
      let c := classifyError (Some e) KTrash no_ctx in
      s ▷ env_patchItem o i [PState IFailed; PError (Some (cl_message c)); PRetryable false]
        ▷ env_notify o HError ▷ env_settle o
  end.

Definition onSubmitError (o : oref) (i : iref) (err : js_err) (s : St) : St :=
  let op := s_op s o in
  let c := classifyError (Some err) (op_kind_of op)
             {| ctx_existingKind := None; ctx_sameFolder := sameFolder op (s_item s i) |} in
  if cl_queueFull c then
    let s := env_patchItem o i [PState ISubmitting; PWaitingForQueue true] s in
    let s := set_queue ((o, i) :: j_queue (s_jb s)) s in
    s ▷ set_blockedUntil (c_now (s_core s) + QUEUE_RETRY_MS) ▷ armRetry
  else
    match cl_decision c with
    | Some d =>
        let ask s := s ▷ env_patchItem o i [PState INeedsDecision; PDecision (Some d); PError None]
                       ▷ env_notify o HWarning in
        match op_policy op, d with
        | Some p, DExists _ options => if bool_decide (p ∈ options) then job_decide o i p s else ask s
        | _, _ => ask s
        end
    | None =>
        s ▷ env_patchItem o i
              [PState IFailed; PError (Some (str_or (cl_message c) (failedText (op_kind_of op))));
               PRetryable (cl_retryable c); POffline (cl_offline c)]
          ▷ env_notify o HError
    end.

(** ** Polling *)

Definition schedulePoll (s : St) : St :=
  match j_pollTimer (s_jb s), j_accepted (s_jb s) with
  | None, _ :: _ =>
      if j_stopped (s_jb s) then s
      else
        let '(t, c) := setTimer CbJobPoll JOB_POLL_MS (s_core s) in
        s <| s_core := c |> ▷ on_jb (fun j => j <| j_pollTimer := Some t |>)
  | _, _ => s
  end.

(** What Luna says about a job. *)
Record job_reply := {
  jr_id : jstr;
  jr_total : Z;
  jr_progress : Z;
  jr_state : jstr;
  jr_error : jstr;
}.

Definition job_record (s : St) (o : oref) (i : iref) (jobId : jstr) : stored_job :=
  let op := s_op s o in
  let item := s_item s i in
  {| sj_opId := op_id op; sj_itemId := it_id item; sj_jobId := jobId; sj_kind := op_kind_of op;
     sj_name := it_name item; sj_path := it_relPath item; sj_title := op_title op;
     sj_fromDrive := op_driveId op; sj_toDrive := op_destDriveId op; sj_toPath := op_destFolder op;
     sj_toLabel := op_destLabel op; sj_createdAt := op_createdAt op |}.

(** [submit] resumes with Luna's answer. *)
Definition submit_ended (o : oref) (i : iref) (reply : job_reply + js_err) (s : St) : St :=
  match reply with
  | inl job =>
      if negb (env_alive s o) || bool_decide (s_state s i = ICancelled) then
        env_log (EfDeleteJob (jr_id job)) s
      else
        let s := env_patchItem o i
                   [PState IRunning; PJobId (Some (jr_id job)); PSize (jr_total job);
                    PReceived (jr_progress job); PDecision None] s in
        let s := accept (jr_id job) (o, i) s in
        s ▷ saveJob (job_record s o i (jr_id job)) ▷ schedulePoll
  | inr err =>
      if bool_decide (s_state s i = ICancelled) then s else onSubmitError o i err s
  end.

(** The [finally] of [submit] frees the slot, settles and pumps. *)
Definition on_submit (o : oref) (i : iref) (reply : job_reply + js_err) (s : St) : St :=
  s ▷ submit_ended o i reply ▷ add_inflight (-1) ▷ env_settle o ▷ job_pump.

Definition on_poll_timer (s : St) : St :=
  let s := on_jb (fun j => j <| j_pollTimer := None |>) s in
  match j_accepted (s_jb s) with
  | _ :: _ => if j_stopped (s_jb s) then s else s ▷ env_log EfListJobs ▷ spawn TPollList
  | [] => s
  end.

Definition gone (id : jstr) (o : oref) (i : iref) (s : St) : St :=
  s ▷ unaccept id ▷ dropJob id
    ▷ env_patchItem o i [PState IFailed; PError (Some (jobGone (op_kind_of (s_op s o)))); PRetryable false]
    ▷ env_notify o HError ▷ env_settle o ▷ set_blockedUntil 0 ▷ job_pump.

Inductive job_end := JRunning | JDone | JCancelled | JFailed.

(** The end states Luna reports; anything else keeps running. *)
Definition job_end_of (jobState : jstr) : job_end :=
  if bool_decide (jobState = js "done") then JDone
  else if bool_decide (jobState = js "cancelled") then JCancelled
  else if bool_decide (jobState = js "error") || bool_decide (jobState = js "interrupted")
  then JFailed
  else JRunning.

Definition key2 (a : string) (b : jstr) : query_key := [js a; b].

Definition handleJob (id : jstr) (o : oref) (i : iref) (job : job_reply) (s : St) : St :=
  let total := jr_total job in
  let progress := jr_progress job in
  let op := s_op s o in
  match job_end_of (str_or (jr_state job) (js "running")) with
  | JRunning => env_patchItem o i [PSize total; PReceived progress] s
  | e =>
      let s := s ▷ unaccept id ▷ dropJob id ▷ set_blockedUntil 0 in
      let s :=
        match e with
        | JDone =>
            s ▷ env_patchItem o i
                  [PState IDone; PSize total; PReceived (if total =? 0 then progress else total)]
              ▷ on_core (invalidate
                  [key2 "files" (op_driveId op); key2 "files" (op_destDriveId op);
                   key2 "trash" (op_driveId op); key2 "trash" (op_destDriveId op); [js "jobs"]])
        | JCancelled =>
            s ▷ env_patchItem o i
                  [PState ICancelled; PSize total; PReceived progress;
                   PError (if truthy (jr_error job) then Some (jr_error job) else None)]
              ▷ on_core (invalidate
                  [key2 "files" (op_driveId op); key2 "files" (op_destDriveId op); [js "jobs"]])
        | _ =>
            s ▷ env_patchItem o i
                  [PState IFailed; PSize total; PReceived progress;
                   PError (Some (str_or (jr_error job) (failedText (op_kind_of op)))); PRetryable true]
              ▷ env_notify o HError
              ▷ on_core (invalidate
                  [key2 "files" (op_driveId op); key2 "files" (op_destDriveId op);
                   key2 "trash" (op_driveId op); [js "jobs"]])
        end in
      s ▷ env_settle o ▷ job_pump
  end.

(** [new Map(list.map((j) => [j.id, j])).get(id)]: the last entry of an id wins. *)
Definition find_job (id : jstr) (l : list job_reply) : option job_reply :=
  List.find (fun j => bool_decide (jr_id j = id)) (rev l).

(** The list of jobs arrived: [None] when Luna could not be reached. *)
Definition on_poll_list (reply : option (list job_reply)) (s : St) : St :=
  match reply with
  | None => schedulePoll s
  | Some l =>
      let '(poll, s) := fresh s in
      let s := foldl (fun s e =>
                 let '(id, (o, i)) := e in
                 match find_job id l with
                 | Some job => handleJob id o i job s
                 | None => s ▷ env_log (EfGetJob id) ▷ spawn (TPollJob poll id o i)
                 end) s (j_accepted (s_jb s)) in
      spawn (TPollJoin poll) s
  end.

(** One job asked for by id: its record, or the status of the failure. *)
Definition on_poll_job (id : jstr) (o : oref) (i : iref) (reply : job_reply + option Z) (s : St) : St :=
  match reply with
  | inl job => handleJob id o i job s
  | inr status => if bool_decide (status = Some 404) then gone id o i s else s
  end.

(** ** The store's actions *)

Definition job_start (o : oref) (s : St) : St :=
  let s := set_queue (j_queue (s_jb s) ++ map (fun i => (o, i)) (op_items (s_op s o))) s in
  job_pump s.

Definition job_retry (o : oref) (targets : list iref) (s : St) : St :=
  let s := foldl (fun s i =>
    let s := env_patchItem o i
               [PState IQueued; PError None; POffline false; PReceived 0; PJobId None] s in
    set_queue (j_queue (s_jb s) ++ [(o, i)]) s) s targets in
  s ▷ env_settle o ▷ job_pump.

Definition cancelItem (o : oref) (i : iref) (s : St) : St :=
  let item := s_item s i in
  match it_state item, it_jobId item with
  | IRunning, Some id => if truthy id then env_log (EfDeleteJob id) s else s
  | (IQueued | ISubmitting | INeedsDecision), _ =>
      env_patchItem o i [PState ICancelled; PDecision None; PWaitingForQueue false] s
  | _, _ => s
  end.

Definition job_cancel (o : oref) (item : option iref) (s : St) : St :=
  match item with
  | Some i => cancelItem o i s
  | None => foldl (fun s i => cancelItem o i s) s (op_items (s_op s o))
  end.

Definition is_job_kind (k : op_kind) : bool := match k with KCopy | KMove => true | _ => false end.

Definition job_hasWork (s : St) : bool :=
  existsb (fun o =>
    is_job_kind (op_kind_of (s_op s o))
    && existsb (fun i => bool_decide (it_state i ∈ [IQueued; ISubmitting])) (itemsOf (s_core s) o))
    (c_ops (s_core s)).

(** Forget the stored job ids of an operation. *)
Definition forget (o : oref) (s : St) : St :=
  if negb (is_job_kind (op_kind_of (s_op s o))) then s
  else
    s ▷ on_jb (fun j => j <| j_accepted ::= List.filter (fun e => negb (Pos.eqb e.2.1 o)) |>)
      ▷ dropOp (op_id (s_op s o)).

(** The stored jobs grouped by operation, in the order they were stored. *)
Fixpoint group_jobs (jobs : list stored_job) (groups : list (jstr * list stored_job))
    : list (jstr * list stored_job) :=
  match jobs with
  | [] => groups
  | j :: jobs =>
      let old := default [] (snd <$> List.find (fun g => bool_decide (g.1 = sj_opId j)) groups) in
      group_jobs jobs (map_set (sj_opId j) (old ++ [j]) groups)
  end.

Definition restore_item (o : oref) (s : St) (j : stored_job) : St :=
  let '(i, c) := makeItem (sj_name j) (fun it =>
        it <| it_id := sj_itemId j |> <| it_relPath := sj_path j |> <| it_destPath := sj_toPath j |>
           <| it_state := IRunning |> <| it_jobId := Some (sj_jobId j) |>) (s_core s) in
  s <| s_core := pushItem o i c |> ▷ accept (sj_jobId j) (o, i).

Definition restore_group (s : St) (jobs : list stored_job) : St :=
  match jobs with
  | [] => s
  | first :: _ =>
      let '(o, c) := makeOp (sj_kind first) (sj_fromDrive first) (Some (sj_toDrive first)) (fun op =>
            op <| op_id := sj_opId first |> <| op_destFolder := sj_toPath first |>
               <| op_destLabel := sj_toLabel first |>
               <| op_title := str_or (sj_title first)
                    (match jobs with [_] => sj_name first | _ => [] end) |>
               <| op_state_of := ORunning |> <| op_shown := true |>
               <| op_createdAt := if sj_createdAt first =? 0 then c_now (s_core s)
                                  else sj_createdAt first |>) (s_core s) in
      let s := s <| s_core := c |> in
      let s := foldl (restore_item o) s jobs in
      on_core (addOp o) s
  end.

(** After a reload: pick this tab's accepted jobs back up. *)
Definition restore (s : St) : St :=
  let groups := group_jobs (readStoredJobs (s_storage s)) [] in
  let s := foldl (fun s g => restore_group s (snd g)) s groups in
  schedulePoll s.

Definition job_stop (s : St) : St :=
  s ▷ on_jb (fun j => j <| j_stopped := true |>)
    ▷ on_core (clearOpt (j_pollTimer (s_jb s))) ▷ on_core (clearOpt (j_retryTimer (s_jb s))).
