(* ===== verification/OpsRequests.v ===== *)
(** * File operations: the request runner, [lib/fileOps/requestRunner.js]

    Batches whose items are request thunks: they run one after another and the run continues past
    failures.  [driving] keeps a second run of the same operation from starting. *)

From S2P Require Import Prelude JsString OpsTypes OpsErrors OpsStore OpsState.

Definition on_rq (f : ReqSt -> ReqSt) (s : St) : St := s <| s_rq ::= f |>.

(** [i.state === "queued"]; a reference is to an object of the heap. *)
Definition is_queued (s : St) (i : iref) : bool :=
  match c_itemsH (s_core s) !! i with
  | Some it => bool_decide (it_state it = IQueued)
  | None => false
  end.

(** [op.items.find((i) => i.state === "queued")] *)
Definition first_queued (s : St) (o : oref) : option iref :=
  List.find (is_queued s) (op_items (s_op s o)).

(** The end of [drive]: its [finally] and the last [settle]. *)
Definition drive_end (o : oref) (s : St) : St :=
  let id := op_id (s_op s o) in
  s ▷ on_rq (fun q => q <| q_driving ::= List.filter (fun x => negb (bool_decide (x = id))) |>
                        <| q_controllers ::= List.filter (fun e => negb (bool_decide (e.1 = id))) |>)
    ▷ env_settle o.

(** The loop of [drive] up to the next [await]: queued items of a cancelled operation are
    cancelled, the first other one is started.  [fuel] bounds the number of queued items. *)
Fixpoint drive_loop (fuel : nat) (o : oref) (controller : positive) (s : St) : St :=
  if negb (env_alive s o) then drive_end o s
  else
    match first_queued s o with
    | None => drive_end o s
    | Some i =>
        if op_cancelled (s_op s o) then
          match fuel with
          | O => s
          | S fuel => s ▷ env_patchItem o i [PState ICancelled] ▷ drive_loop fuel o controller
          end
        else
          let s := env_patchItem o i [PState IRunning; PError None; PDecision None] s in
          let s := if it_run (s_item s i)
                   then env_log (EfRun i (it_confirmBroaden (s_item s i))) s else s in
          spawn (TRun o i controller) s
    end.

Definition queued_count (s : St) (o : oref) : nat :=
  length (List.filter (is_queued s) (op_items (s_op s o))).

Definition drive_continue (o : oref) (controller : positive) (s : St) : St :=
  drive_loop (queued_count s o) o controller s.

Definition drive (o : oref) (s : St) : St :=
  let id := op_id (s_op s o) in
  if bool_decide (id ∈ q_driving (s_rq s)) then s
  else
    let '(controller, s) := fresh s in
    let s := on_rq (fun q => q <| q_driving ::= (fun l => l ++ [id]) |>
                               <| q_controllers ::= (fun l => List.filter (fun e => negb (bool_decide (e.1 = id))) l ++ [(id, controller)]) |>) s in
    drive_continue o controller s.

(** The thunk of an item ended ([None]) or threw. *)
Definition run_ended (o : oref) (i : iref) (err : option js_err) (s : St) : St :=
  match err with
  | None => env_patchItem o i [PState IDone] s
  | Some e =>
      let c := classifyError (Some e) (op_kind_of (s_op s o)) no_ctx in
      if cl_aborted c then env_patchItem o i [PState ICancelled] s
      else
        match cl_decision c with
        | Some (DBroadens m) =>
            s ▷ env_patchItem o i [PState INeedsDecision; PDecision (Some (DBroadens m)); PError None]
              ▷ env_notify o HWarning
        | _ =>
            s ▷ env_patchItem o i
                  [PState IFailed; PError (Some (cl_message c)); PRetryable true;
                   POffline (cl_offline c)]
              ▷ env_notify o HError
        end
  end.

Definition on_run (o : oref) (i : iref) (controller : positive) (err : option js_err) (s : St) : St :=
  s ▷ run_ended o i err ▷ env_settle o ▷ drive_continue o controller.

(** ** The store's actions *)

Definition req_decide (o : oref) (i : iref) (c : choice) (s : St) : St :=
  match c with
  | Confirm =>
      s ▷ env_patchItem o i [PState IQueued; PDecision None; PConfirmBroaden true] ▷ drive o
  | _ => s ▷ env_patchItem o i [PState ISkipped; PDecision None] ▷ env_settle o
  end.

Definition req_retry (o : oref) (targets : list iref) (s : St) : St :=
  let s := foldl (fun s i =>
             env_patchItem o i [PState IQueued; PError None; POffline false] s) s targets in
  s ▷ env_settle o ▷ drive o.

Definition req_cancel (o : oref) (item : option iref) (s : St) : St :=
  match item with
  | Some i =>
      if bool_decide (s_state s i = IQueued) then env_patchItem o i [PState ICancelled] s else s
  | None =>
      let s := match List.find (fun e => bool_decide (e.1 = op_id (s_op s o)))
                       (q_controllers (s_rq s)) with
               | Some e => abort e.2 s
               | None => s
               end in
      foldl (fun s i =>
        if bool_decide (s_state s i ∈ [IQueued; INeedsDecision])
        then env_patchItem o i [PState ICancelled; PDecision None] s else s)
        s (op_items (s_op s o))
  end.

(** Items not yet sent: a reload would drop them. *)
Definition req_hasWork (s : St) : bool :=
  existsb (fun o =>
    negb (op_indeterminate (s_op s o))
    && negb (bool_decide (op_kind_of (s_op s o) ∈ [KUpload; KGallery; KCopy; KMove]))
    && existsb (fun i => bool_decide (it_state i = IQueued)) (itemsOf (s_core s) o))
    (c_ops (s_core s)).
