(* ===== verification/FileOps.v ===== *)
(** * File operations: the store's public actions and its step relation

    The object [createFileOpsStore] returns (the second half of [lib/fileOps/store.js]), the code
    it runs when it is created, and the relation that interleaves its actions with the passing of
    time, the timers, the promises that settle and the callbacks of uploads and folder walks. *)

From S2P Require Import Prelude JsString Paths OpsTypes OpsErrors OpsStore OpsState.
From S2P Require Import OpsUploads OpsJobs OpsRequests.

(** ** Dispatch *)

Inductive runner := RunUploads | RunJobs | RunRequests.

Definition runnerFor (op : Op) : runner :=
  match op_kind_of op with
  | KUpload | KGallery => RunUploads
  | KCopy | KMove => RunJobs
  | _ => RunRequests
  end.

Definition runner_decide (o : oref) (i : iref) (c : choice) (s : St) : St :=
  match runnerFor (s_op s o) with
  | RunUploads => apply o i c s
  | RunJobs => job_decide o i c s
  | RunRequests => req_decide o i c s
  end.

Definition runner_retry (o : oref) (targets : list iref) (s : St) : St :=
  match runnerFor (s_op s o) with
  | RunUploads => up_retry o targets s
  | RunJobs => job_retry o targets s
  | RunRequests => req_retry o targets s
  end.

Definition runner_cancel (o : oref) (item : option iref) (s : St) : St :=
  match runnerFor (s_op s o) with
  | RunUploads => up_cancel o item s
  | RunJobs => job_cancel o item s
  | RunRequests => req_cancel o item s
  end.

(** [op.items.find((i) => i.id === itemId)] *)
Definition find_item (s : St) (o : oref) (itemId : jstr) : option iref :=
  List.find (fun i => bool_decide (it_id (s_item s i) = itemId)) (op_items (s_op s o)).

Definition s_getOp (s : St) (id : jstr) : option oref := getOp id (s_core s).

(** ** Starting operations *)

Record upload_input := {
  ui_source : file_source; ui_driveId : jstr; ui_destFolder : jstr; ui_destLabel : option jstr;
  ui_dropped : option dropped_in; ui_files : option (list file_in); ui_gallery : bool;
  ui_invalidateKeys : list query_key; ui_afterFinish : bool;
}.

Definition label_or_basename (label : option jstr) (folder : jstr) : jstr :=
  match label with
  | Some l => l
  | None => if truthy folder then pathBasename folder else []
  end.

Definition startUpload (u : upload_input) (s : St) : oref * St :=
  let '(o, c) := makeOp (if ui_gallery u then KGallery else KUpload) (ui_driveId u) None (fun op =>
        op <| op_source := ui_source u |> <| op_destFolder := ui_destFolder u |>
           <| op_destLabel := label_or_basename (ui_destLabel u) (ui_destFolder u) |>) (s_core s) in
  let s := s <| s_core := addOp o c |> in
  let s := on_core (updRt o (fun r =>
             r <| rt_invalidateKeys := ui_invalidateKeys u |>
               <| rt_afterFinish := ui_afterFinish u |>)) s in
  (o, start o (ui_dropped u) (ui_files u) s).

Record jobs_input := {
  ji_move : bool; ji_fromDrive : jstr; ji_items : list (jstr * jstr);  (* path, name or "" *)
  ji_toDrive : jstr; ji_toPath : jstr; ji_toLabel : option jstr; ji_source : file_source;
}.

Definition job_name (it : jstr * jstr) : jstr := str_or it.2 (pathBasename it.1).

Definition startJobs (u : jobs_input) (s : St) : oref * St :=
  let '(o, c) := makeOp (if ji_move u then KMove else KCopy) (ji_fromDrive u) (Some (ji_toDrive u))
        (fun op =>
        op <| op_source := ji_source u |> <| op_destFolder := ji_toPath u |>
           <| op_destLabel := label_or_basename (ji_toLabel u) (ji_toPath u) |>
           <| op_title := match ji_items u with [it] => job_name it | _ => [] end |>
           <| op_state_of := ORunning |>) (s_core s) in
  let c := foldl (fun c it =>
             let '(i, c) := makeItem (job_name it) (fun x =>
                   x <| it_relPath := it.1 |> <| it_destPath := ji_toPath u |>) c in
             pushItem o i c) c (ji_items u) in
  let s := s <| s_core := addOp o c |> in
  (o, job_start o s).

Record request_input := {
  ri_kind : op_kind; ri_title : jstr; ri_destLabel : jstr; ri_source : file_source;
  ri_driveId : jstr; ri_items : list jstr; ri_hasRun : bool;
  ri_toast : option jstr; ri_toastFn : option (Z -> Z -> jstr);
  ri_invalidateKeys : list query_key;
}.

Definition startRequest (u : request_input) (s : St) : oref * St :=
  let many := match ri_items u with [] => false | _ => true end in
  let list := if many then map (fun n => (n, true)) (ri_items u)
              else [(ri_title u, ri_hasRun u)] in
  let '(o, c) := makeOp (ri_kind u) (ri_driveId u) None (fun op =>
        op <| op_source := ri_source u |> <| op_destLabel := ri_destLabel u |>
           <| op_title := str_or (ri_title u) (match list with [it] => it.1 | _ => [] end) |>
           <| op_state_of := ORunning |> <| op_indeterminate := negb many |>
           <| op_successToast := ri_toast u |>) (s_core s) in
  let c := foldl (fun c it =>
             let '(i, c) := makeItem it.1 (fun x => x <| it_run := it.2 |>) c in
             pushItem o i c) c list in
  let c := c ▷ updRt o (fun r => r <| rt_invalidateKeys := ri_invalidateKeys u |>
                                   <| rt_toastFn := ri_toastFn u |>) in
  let s := s <| s_core := addOp o c |> in
  (o, drive o s).

(** ** Answers, retries, cancelling *)

Definition decide (opId itemId : jstr) (c : choice) (s : St) : St :=
  match s_getOp s opId with
  | None => s
  | Some o =>
      match find_item s o itemId with
      | None => s
      | Some i =>
          if bool_decide (s_state s i = INeedsDecision) then runner_decide o i c s else s
      end
  end.

(** The answers a decision allows: [item.decision.options], and only "skip" for a widening. *)
Definition decision_takes (d : decision) (c : choice) : bool :=
  match d with
  | DBroadens _ => bool_decide (c = Skip)
  | DExists _ options => bool_decide (c ∈ options)
  end.

Definition decide_one (o : oref) (c : choice) (s : St) (i : iref) : St :=
  match s_state s i, it_decision (s_item s i) with
  | INeedsDecision, Some d => if decision_takes d c then runner_decide o i c s else s
  | _, _ => s
  end.

Definition decideAll (opId : jstr) (c : choice) (s : St) : St :=
  match s_getOp s opId with
  | None => s
  | Some o =>
      let s := env_patchOp o (fun op => op <| op_policy := Some c |>) s in
      foldl (decide_one o c) s (op_items (s_op s o))
  end.

Definition retry_target (itemId : jstr) (it : Item) : bool :=
  bool_decide (it_state it = IFailed) && it_retryable it
  && (negb (truthy itemId) || bool_decide (it_id it = itemId)).

(** [itemId] is "" for every item. *)
Definition retry (opId itemId : jstr) (s : St) : St :=
  match s_getOp s opId with
  | None => s
  | Some o =>
      match List.filter (fun i => retry_target itemId (s_item s i)) (op_items (s_op s o)) with
      | [] => s
      | targets => runner_retry o targets s
      end
  end.

Definition offline_target (it : Item) : bool :=
  bool_decide (it_state it = IFailed) && it_retryable it && it_offline it.

Definition retryOffline (s : St) : St :=
  foldl (fun s o =>
    match List.filter (fun i => offline_target (s_item s i)) (op_items (s_op s o)) with
    | [] => s
    | targets => runner_retry o targets s
    end) s (c_ops (s_core s)).

(** [itemId] is "" for the whole operation. *)
Definition cancel (opId itemId : jstr) (s : St) : St :=
  match s_getOp s opId with
  | None => s
  | Some o =>
      if negb (truthy itemId) then
        s ▷ set_op o (fun op => op <| op_cancelled := true |>) ▷ runner_cancel o None ▷ env_settle o
      else
        match find_item s o itemId with
        | None => s
        | Some i =>
            let s' := runner_cancel o (Some i) s in
            match s_state s i with
            | IFailed | INeedsDecision => s' ▷ on_core (removeItem o i) ▷ env_settle o
            | _ => env_settle o s'
            end
        end
  end.

Definition clearFailed (opId : jstr) (s : St) : St :=
  match s_getOp s opId with
  | None => s
  | Some o =>
      let keep := List.filter (fun i => negb (bool_decide (s_state s i = IFailed)))
                    (op_items (s_op s o)) in
      s ▷ set_op o (fun op => op <| op_items := keep |> <| op_error := None |>)
        ▷ on_core (touch o None) ▷ env_settle o
  end.

Definition dismiss (opId : jstr) (s : St) : St :=
  match s_getOp s opId with
  | None => s
  | Some o =>
      let s := if negb (ended_truthy (s_op s o))
               then s ▷ set_op o (fun op => op <| op_cancelled := true |>) ▷ runner_cancel o None
               else s in
      s ▷ forget o ▷ on_core (removeOp o)
  end.

(** ** Reading and ending *)

Definition hasBrowserWork (s : St) : bool := up_hasWork s || job_hasWork s || req_hasWork s.
Definition openUploadSessions (s : St) : list (file_source * jstr * jstr) := up_sessions s.
Definition getState (s : St) : list op_view := c_state (s_core s).

Definition destroy (s : St) : St :=
  let s := on_core (fun c => c <| c_destroyed := true |>) s in
  let s := job_stop s in
  let s := on_core (fun c => clearOpt (c_trailing c) c) s in
  let s := foldl (fun s o =>
             let r := rtOf (s_core s) o in
             s ▷ on_core (clearOpt (rt_invTimer r)) ▷ on_core (clearOpt (rt_clearTimer r))
               ▷ on_core (clearOpt (rt_showTimer r))) s (c_ops (s_core s)) in
  on_core (fun c => c <| c_listeners := [] |>) s.

(** ** Startup *)

(** One entry of [initialOps]: the fields it gives, and its items. *)
Record initial_op := {
  io_kind : op_kind; io_driveId : jstr; io_destDriveId : option jstr; io_fields : Op -> Op;
  io_shown : option bool; io_items : list (jstr * (Item -> Item));
}.

Definition core0 (tag : jstr) (now : Z) : Core :=
  {| c_opsH := ∅; c_itemsH := ∅; c_rtH := ∅; c_ops := []; c_state := []; c_listeners := [];
     c_opSnaps := ∅; c_itemSnaps := ∅; c_dirty := []; c_seq := 0; c_tag := tag;
     c_lastEmit := None; c_trailing := None; c_destroyed := false; c_now := now; c_timers := [];
     c_fresh := 1%positive; c_log := [] |}.

Definition st0 (tag : jstr) (now : Z) (st : storage) : St :=
  {| s_core := core0 tag now; s_up := {| u_ready := []; u_active := 0 |};
     s_jb := {| j_queue := []; j_accepted := []; j_inflight := 0; j_blockedUntil := 0;
                j_pollTimer := None; j_retryTimer := None; j_stopped := false |};
     s_rq := {| q_controllers := []; q_driving := [] |};
     s_tasks := []; s_promises := ∅; s_aborted := []; s_storage := st |}.

Definition add_initial (c : Core) (raw : initial_op) : Core :=
  let '(o, c) := makeOp (io_kind raw) (io_driveId raw) (io_destDriveId raw) (fun op =>
        (io_fields raw op) <| op_items := [] |> <| op_shown := default true (io_shown raw) |>) c in
  let c := foldl (fun c it =>
             let '(i, c) := makeItem it.1 it.2 c in pushItem o i c) c (io_items raw) in
  c <| c_ops ::= (fun l => l ++ [o]) |> ▷ touch o None.

Definition createFileOpsStore (tag : jstr) (now : Z) (st : storage) (initialOps : list initial_op)
    (restoreJobs : bool) : St :=
  let s := st0 tag now st in
  let s := on_core (fun c => foldl add_initial c initialOps) s in
  let s := match st with
           | Some _ => if restoreJobs then restore s else s
           | None => s
           end in
  on_core flush s.

(** ** Timers *)

(** The four second callback of [finish]. *)
Definition on_auto_clear (o : oref) (s : St) : St :=
  let s := on_core (updRt o (fun r => r <| rt_clearTimer := None |>)) s in
  if ended_truthy (s_op s o) && negb (existsb is_problem (itemsOf (s_core s) o))
  then s ▷ forget o ▷ on_core (removeOp o)
  else s.

Definition run_timer (cb : timer_cb) : St -> St :=
  match cb with
  | CbTrailing => on_core on_trailing
  | CbShow o => on_core (on_show o)
  | CbInvalidate o => on_core (on_invalidate o)
  | CbAutoClear o => on_auto_clear o
  | CbJobPoll => on_poll_timer
  | CbJobRetry => on_job_retry
  end.

(** ** Settled promises *)

(** What an awaited call gives back. *)
Inductive reply :=
  | RNames (listing : option (list (jstr * entry_kind)))
  | RUpload (r : option jstr + js_err)
  | RVoid (err : option js_err)
  | RKind (k : option entry_kind)
  | RSubmit (r : job_reply + js_err)
  | RJobs (l : option (list job_reply))
  | RJob (r : job_reply + option Z)
  | RReady.

(** A poll waits for the single-job requests it made. *)
Definition poll_pending (poll : positive) (s : St) : bool :=
  existsb (fun t => match tk_kind t with TPollJob p _ _ _ => Pos.eqb p poll | _ => false end)
    (s_tasks s).

(** The continuation of a task, once its promise has settled with [r].  [RReady] stands for a
    promise of the store's own. *)
Definition run_task (k : task_kind) (r : reply) (s : St) : option St :=
  match k, r with
  | TNamesParent o dest pr parent, RReady =>
      ns ← s_promises s !! parent; Some (on_names_parent o dest pr ns s)
  | TNamesList o pr, RNames listing => Some (on_names_list pr listing s)
  | TPrepare o i pr, RReady => ns ← s_promises s !! pr; Some (on_prepare o i ns s)
  | TUpload o i size _, RUpload r => Some (on_upload o i size r s)
  | TPoolRelease, RReady => Some (on_pool_release s)
  | TMkdir o i part rest path made, RVoid err => Some (on_mkdir o i part rest path made err s)
  | TKindAt o i part rest path made, RKind k => Some (on_kind_at o i part rest path made k s)
  | TWalk o _, RReady => Some (on_walk_end o s)
  | TSubmit o i, RSubmit r => Some (on_submit o i r s)
  | TReplaceRemove o i, RVoid err => Some (on_replace_removed o i err s)
  | TPollList, RJobs l => Some (on_poll_list l s)
  | TPollJob _ id o i, RJob r => Some (on_poll_job id o i r s)
  | TPollJoin poll, RReady => if poll_pending poll s then None else Some (schedulePoll s)
  | TRun o i controller, RVoid err => Some (on_run o i controller err s)
  | _, _ => None
  end.

(** ** The step relation *)

Inductive action :=
  | AStartUpload (u : upload_input) | AStartJobs (u : jobs_input) | AStartRequest (u : request_input)
  | ADecide (opId itemId : jstr) (c : choice) | ADecideAll (opId : jstr) (c : choice)
  | ARetry (opId itemId : jstr) | ARetryOffline | ACancel (opId itemId : jstr)
  | AClearFailed (opId : jstr) | ADismiss (opId : jstr)
  | ASubscribe (l : positive) | AUnsubscribe (l : positive) | ADestroy.

Definition run_action (a : action) (s : St) : St :=
  match a with
  | AStartUpload u => (startUpload u s).2
  | AStartJobs u => (startJobs u s).2
  | AStartRequest u => (startRequest u s).2
  | ADecide opId itemId c => decide opId itemId c s
  | ADecideAll opId c => decideAll opId c s
  | ARetry opId itemId => retry opId itemId s
  | ARetryOffline => retryOffline s
  | ACancel opId itemId => cancel opId itemId s
  | AClearFailed opId => clearFailed opId s
  | ADismiss opId => dismiss opId s
  | ASubscribe l => on_core (subscribe l) s
  | AUnsubscribe l => on_core (unsubscribe l) s
  | ADestroy => destroy s
  end.

Inductive event :=
  | EvDo (a : action)
  | EvTick (ms : N)
  | EvFire (timer : positive)
  | EvSettle (task : positive) (r : reply)
  | EvUploadSession (task : positive) (uploadId : jstr)
  | EvUploadProgress (task : positive) (loaded : Z)
  | EvUploadRetry (task : positive)
  | EvWalkFile (task : positive) (f : file_in) (relPath : jstr)
  | EvWalkDir (task : positive) (relPath : jstr)
  | EvWalkError (task : positive) (relPath : jstr).

(** A walk reports through its handlers; a file or an empty folder only while the walk has not
    been aborted. *)
Definition on_walk (task : positive) (guarded : bool) (f : oref -> St -> St) (s : St) : option St :=
  match find_task task s with
  | Some (TWalk o controller) =>
      if guarded && aborted s controller then None else Some (f o s)
  | _ => None
  end.

Definition on_sending (task : positive) (f : oref -> iref -> Z -> St -> St) (s : St) : option St :=
  match find_task task s with
  | Some (TUpload o i size true) => Some (f o i size s)
  | _ => None
  end.

(** One event, [None] when it cannot happen in [s]. *)
Definition step (e : event) (s : St) : option St :=
  match e with
  | EvDo a => Some (run_action a s)
  | EvTick ms => Some (on_core (fun c => c <| c_now ::= Z.add (Z.of_N ms) |>) s)
  | EvFire t =>
      match List.find (fun tm => Pos.eqb (tm_id tm) t) (c_timers (s_core s)) with
      | Some tm =>
          if tm_due tm <=? c_now (s_core s)
          then Some (run_timer (tm_cb tm) (on_core (clearTimer t) s))
          else None
      | None => None
      end
  | EvSettle t r =>
      match find_task t s with
      | Some k => run_task k r (drop_task t s)
      | None => None
      end
  | EvUploadSession t id => on_sending t (fun _ i _ => on_session i id) s
  | EvUploadProgress t loaded => on_sending t (fun o i size => on_progress o i size loaded) s
  | EvUploadRetry t => on_sending t (fun o i _ => on_retry o i) s
  | EvWalkFile t f rel => on_walk t true (fun o => on_walk_file o f rel) s
  | EvWalkDir t rel => on_walk t true (fun o => addFolder o rel) s
  | EvWalkError t rel => on_walk t false (fun o => on_walk_error o rel) s
  end.

Fixpoint run (es : list event) (s : St) : option St :=
  match es with
  | [] => Some s
  | e :: es => s' ← step e s; run es s'
  end.

(** The states a store can be in, from a creation [s0]. *)
Inductive reachable (s0 : St) : St -> Prop :=
  | reachable_start : reachable s0 s0
  | reachable_step e s s' : reachable s0 s -> step e s = Some s' -> reachable s0 s'.

Lemma run_reachable (s0 s s' : St) (es : list event) :
  reachable s0 s -> run es s = Some s' -> reachable s0 s'.
Proof.
  revert s. induction es as [|e es IH]; intros s Hr H; simpl in H; [by simplify_eq|].
  destruct (step e s) as [s1|] eqn:E; simpl in H; [|done].
  apply (IH s1); [|done]. by eapply reachable_step.
Qed.
