(* ===== verification/OpsStable.v ===== *)
(** * File operations: predicates every function of the runners preserves

    An invariant of the interleaved store is proved once per runner: [stable] lists the ways the
    runners write the state, and the sections below show that every function of the three runners
    preserves a predicate that is closed under them.  The functions an invariant is about (the
    pump of the upload pool, the job slots, the drive loop) enter as hypotheses. *)

From S2P Require Import Prelude JsString Paths OpsTypes OpsErrors OpsStore OpsFrame OpsState.
From S2P Require Import OpsUploads OpsJobs OpsRequests FileOps.

(** ** Safe writes

    A write is [cautious] when it gives no item a way to overwrite a file and asks Luna for no
    overwrite and no removal; [caution] switches the restriction on. *)

Definition cautious_patch (p : item_patch) : bool :=
  match p with PConflict (Some _) => false | _ => true end.
Definition cautious_eff (e : eff) : bool :=
  match e with EfUpload _ (Some _) | EfCompleteUpload _ _ (Some _) | EfRemove _ _ => false
  | _ => true end.

Section Fn.
Context (caution : bool).

Definition ok_patch (p : list item_patch) : Prop :=
  caution = true -> forallb cautious_patch p = true.
Definition ok_eff (e : eff) : Prop := caution = true -> cautious_eff e = true.
Definition ok_item (f : Item -> Item) : Prop :=
  forall it, it_conflict (f it) = it_conflict it \/ it_conflict (f it) = None.
Definition ok_op (f : Op -> Op) : Prop :=
  forall op, op_id (f op) = op_id op /\ (caution = true -> op_policy (f op) = op_policy op).
Definition ok_rt (f : Rt -> Rt) : Prop :=
  forall r t, rt_showTimer (f r) = Some t \/ rt_invTimer (f r) = Some t
              \/ rt_clearTimer (f r) = Some t ->
    rt_showTimer r = Some t \/ rt_invTimer r = Some t \/ rt_clearTimer r = Some t.

(** The functions of the store the runners and the actions call. *)
Inductive core_fn : (Core -> Core) -> Prop :=
  | cf_patch o i p u : ok_patch p -> core_fn (patchItem' o i p u)
  | cf_patchOp o f : ok_op f -> core_fn (patchOp o f)
  | cf_settle o : core_fn (settle o)
  | cf_notify o t : core_fn (notify o t)
  | cf_log e : ok_eff e -> core_fn (logEff e)
  | cf_noteFolder o f : core_fn (noteFolder o f)
  | cf_invalidate ks : core_fn (invalidate ks)
  | cf_addItem o i : core_fn (addItem o i)
  | cf_pushItem o i : core_fn (pushItem o i)
  | cf_removeItem o i : core_fn (removeItem o i)
  | cf_updItem i f : ok_item f -> core_fn (updItem i f)
  | cf_updOp o f : ok_op f -> core_fn (updOp o f)
  | cf_updRt o f : ok_rt f -> core_fn (updRt o f)
  | cf_fresh : core_fn (fun c => c <| c_fresh ::= Pos.succ |>)
  | cf_makeItem n f : ok_item f -> core_fn (fun c => (makeItem n f c).2)
  | cf_makeOp k d dd f :
      (caution = true -> forall op, op_policy (f op) = op_policy op) ->
      core_fn (fun c => (makeOp k d dd f c).2)
  | cf_setTimer cb ms : cb <> CbTrailing -> core_fn (fun c => (setTimer cb ms c).2).

(** Tasks no invariant counts. *)
Definition neutral (k : task_kind) : bool :=
  match k with TUpload _ _ _ _ | TPoolRelease | TSubmit _ _ | TRun _ _ _ => false | _ => true end.

Record stable (I : St -> Prop) : Prop := {
  sb_core f s : core_fn f -> I s -> I (on_core f s);
  sb_spawn k s : neutral k = true -> I s -> I (spawn k s);
  sb_promises g s : I s -> I (s <| s_promises ::= g |>);
  sb_aborted g s : I s -> I (s <| s_aborted ::= g |>);
  sb_storage m s : I s -> I (s <| s_storage := m |>);
  }.
End Fn.

Create HintDb stb.
#[export] Hint Constructors core_fn : stb.
#[export] Hint Extern 1 (ok_patch _ _) => (intros _; reflexivity) : stb.
#[export] Hint Extern 1 (ok_eff _ _) => (intros _; reflexivity) : stb.
#[export] Hint Extern 1 (ok_item _) =>
  (intros ?; solve [left; reflexivity | right; reflexivity]) : stb.
#[export] Hint Extern 1 (ok_op _ _) => (intros ?; split; reflexivity) : stb.
#[export] Hint Extern 1 (ok_rt _) => (intros ? ?; simpl; naive_solver) : stb.
#[export] Hint Extern 1 (CbJobPoll <> _) => discriminate : stb.
#[export] Hint Extern 1 (CbJobRetry <> _) => discriminate : stb.

(** ** Shared steps *)

Section Base.
Context (caution : bool) (I : St -> Prop) (HS : stable caution I).

Lemma stb_core (f : Core -> Core) (s : St) : core_fn caution f -> I s -> I (on_core f s).
Proof. apply (sb_core _ _ HS). Qed.
Lemma stb_spawn (k : task_kind) (s : St) : neutral k = true -> I s -> I (spawn k s).
Proof. apply (sb_spawn _ _ HS). Qed.

Lemma stb_patch o i p s : ok_patch caution p -> I s -> I (env_patchItem o i p s).
Proof. intros. apply stb_core; [|done]. by constructor. Qed.
Lemma stb_settle o s : I s -> I (env_settle o s).
Proof. apply stb_core. constructor. Qed.
Lemma stb_notify o t s : I s -> I (env_notify o t s).
Proof. apply stb_core. constructor. Qed.
Lemma stb_log e s : ok_eff caution e -> I s -> I (env_log e s).
Proof. intros. apply stb_core; [|done]. by constructor. Qed.
Lemma stb_set_item i f s : ok_item f -> I s -> I (set_item i f s).
Proof. intros. apply stb_core; [|done]. by constructor. Qed.
Lemma stb_set_op o f s : ok_op caution f -> I s -> I (set_op o f s).
Proof. intros. apply stb_core; [|done]. by constructor. Qed.
Lemma stb_patchOp o f s : ok_op caution f -> I s -> I (env_patchOp o f s).
Proof. intros. apply stb_core; [|done]. by constructor. Qed.
Lemma stb_fresh s : I s -> I (fresh s).2.
Proof. apply (stb_core (fun c => c <| c_fresh ::= Pos.succ |>)). constructor. Qed.
Lemma stb_abort ctl s : I s -> I (abort ctl s).
Proof.
  intros H. unfold abort. apply stb_core; [constructor; by intros _|].
  apply (sb_aborted _ _ HS). done.
Qed.
Lemma stb_make n f s : ok_item f -> I s -> I (s <| s_core := (makeItem n f (s_core s)).2 |>).
Proof. intros. by apply (stb_core (fun c => (makeItem n f c).2)); [constructor|]. Qed.

Lemma stb_set_core f c s :
  core_fn caution f -> I (s <| s_core := c |>) -> I (s <| s_core := f c |>).
Proof. intros Hf H. exact (stb_core f _ Hf H). Qed.

Lemma stb_foldl {A} (f : St -> A -> St) (l : list A) (s : St) :
  (forall s a, I s -> I (f s a)) -> I s -> I (foldl f s l).
Proof. intros Hf. revert s. induction l as [|a l IH]; intros s H; simpl; auto. Qed.
End Base.

(** One step of a proof that a composed function preserves [I]. *)
Ltac stb_step :=
  first
    [ assumption
    | eapply stb_patch; [eassumption | by auto with stb | ]
    | eapply stb_settle; [eassumption | ]
    | eapply stb_notify; [eassumption | ]
    | eapply stb_log; [eassumption | by auto with stb | ]
    | eapply stb_set_item; [eassumption | by auto with stb | ]
    | eapply stb_set_op; [eassumption | by auto with stb | ]
    | eapply stb_patchOp; [eassumption | by auto with stb | ]
    | eapply stb_abort; [eassumption | ]
    | eapply stb_spawn; [eassumption | reflexivity | ]
    | eapply stb_core; [eassumption | by auto with stb | ]
    | eapply stb_foldl; [intros ? ? ? | ]
    | match goal with |- context [match ?x with _ => _ end] => destruct x eqn:? end ].
Ltac stb := repeat stb_step.

(** ** The upload runner *)

Record up_stable (caution : bool) (I : St -> Prop) : Prop := {
  us_stable : stable caution I;
  us_enqueue o i s : I s -> I (enqueue o i s);
  us_apply o i c s :
    (caution = true -> op_policy (s_op s o) = Some c) -> I s -> I (apply o i c s);
}.

Section Uploads.
Context (caution : bool) (I : St -> Prop) (HU : up_stable caution I).
Let HS := us_stable _ _ HU.
Let Henq := us_enqueue _ _ HU.

Lemma stb_knownNames fuel o dest s : I s -> I (knownNames fuel o dest s).2.
Proof.
  revert dest s. induction fuel as [|fuel IH]; intros dest s H; cbn [knownNames];
    (destruct (list_find _ _) as [[? [? ?]]|]; [done|]);
    pose proof (stb_fresh _ _ HS s H) as Hf; destruct (fresh s) as [pr s1];
    cbn [fst snd] in *; (eapply (sb_core _ _ HS); [by auto with stb|]).
  - by apply (sb_promises _ _ HS).
  - destruct (bool_decide _).
    + specialize (IH (parentOr dest) s1 Hf).
      destruct (knownNames fuel o _ _) as [parent s2]. by apply (stb_spawn _ _ HS).
    + stb.
Qed.

Lemma stb_resolve pr v s : I s -> I (resolve_names pr v s).
Proof. apply (sb_promises _ _ HS). Qed.

Lemma stb_on_names_parent o dest pr ns s : I s -> I (on_names_parent o dest pr ns s).
Proof. intros H. unfold on_names_parent. destruct ns; [|by apply stb_resolve].
  destruct (bool_decide _); [by apply stb_resolve | stb]. Qed.

Lemma stb_on_names_list pr r s : I s -> I (on_names_list pr r s).
Proof. apply stb_resolve. Qed.

Lemma stb_endSession o i s : I s -> I (endSession o i s).
Proof. intros H. unfold endSession. stb. Qed.

Lemma stb_fail_upload o i c s : I s -> I (fail_upload o i c s).
Proof. intros H. unfold fail_upload. stb. Qed.

Lemma stb_clash o i k session s : I s -> I (clash o i k session s).
Proof.
  intros H. unfold clash. cbv zeta.
  set (s1 := match session with Some _ => _ | None => s end).
  assert (H1 : I s1) by (unfold s1; destruct session; stb).
  destruct (op_policy (s_op s1 o)) as [p|] eqn:Ep; [|stb].
  destruct (bool_decide _); [|stb]. by apply (us_apply _ _ HU).
Qed.

Lemma stb_prepare o i s : I s -> I (prepare o i s).
Proof.
  intros H. unfold prepare. destruct (negb _); [|by apply Henq].
  pose proof (stb_knownNames (S (length (it_destPath (s_item s i)))) o
                (it_destPath (s_item s i)) s H) as Hk.
  destruct (knownNames _ _ _ _) as [pr s1]. by apply (stb_spawn _ _ HS).
Qed.

Lemma stb_on_prepare o i ns s : I s -> I (on_prepare o i ns s).
Proof.
  intros H. unfold on_prepare. destruct (negb _); [done|].
  destruct (ns ≫= _); [by apply stb_clash | by apply Henq].
Qed.

Lemma stb_handleError o i e s : I s -> I (handleError o i e s).
Proof.
  intros H. unfold handleError. cbv zeta. destruct (bool_decide _); [done|].
  destruct (isAbort _); [stb|].
  destruct (cl_decision _) as [[k ?|?]|]; [|by apply stb_fail_upload..].
  destruct (negb _); [|by apply stb_fail_upload]. apply stb_clash. stb.
Qed.

Lemma stb_upload_ended o i size r s : I s -> I (upload_ended o i size r s).
Proof. intros H. unfold upload_ended. destruct r; [stb | by apply stb_handleError]. Qed.

Lemma stb_on_session i id s : I s -> I (on_session i id s).
Proof. intros H. unfold on_session. stb. Qed.
Lemma stb_on_progress o i size loaded s : I s -> I (on_progress o i size loaded s).
Proof. intros H. unfold on_progress. cbv zeta. destruct (_ && _); stb. Qed.
Lemma stb_on_retry o i s : I s -> I (on_retry o i s).
Proof. intros H. unfold on_retry. stb. Qed.

Lemma stb_mk_stop o i made s : I s -> I (mk_stop o i made s).
Proof. intros H. unfold mk_stop. stb. Qed.
Lemma stb_mk_next o i parts path made s : I s -> I (mk_next o i parts path made s).
Proof.
  intros H. unfold mk_next. cbv zeta.
  destruct parts; (destruct (bool_decide _); [by apply stb_mk_stop | stb]).
Qed.
Lemma stb_mk_failed o i made e s : I s -> I (mk_failed o i made e s).
Proof. intros H. unfold mk_failed. cbv zeta. destruct (_ || _); [by apply stb_mk_stop | stb]. Qed.
Lemma stb_makeFolders o i rel s : I s -> I (makeFolders o i rel s).
Proof. apply stb_mk_next. Qed.
Lemma stb_on_mkdir o i part rest path made r s : I s -> I (on_mkdir o i part rest path made r s).
Proof.
  intros H. unfold on_mkdir. destruct r as [e|]; [|by apply stb_mk_next].
  destruct (negb _); [by apply stb_mk_failed|]. cbv zeta. stb.
Qed.
Lemma stb_on_kind_at o i part rest path made k s : I s -> I (on_kind_at o i part rest path made k s).
Proof.
  intros H. unfold on_kind_at. cbv zeta. destruct (bool_decide _); [stb | by apply stb_mk_next].
Qed.

Lemma stb_addFile o f dir name rel s : I s -> I (addFile o f dir name rel s).
Proof.
  intros H. unfold addFile. cbv zeta. rewrite (surjective_pairing (makeItem _ _ _)).
  apply stb_prepare. stb. apply (stb_make _ _ HS); [by auto with stb | done].
Qed.
Lemma stb_addFolder o rel s : I s -> I (addFolder o rel s).
Proof.
  intros H. unfold addFolder. destruct (splitRel rel) as [dir name]. cbv zeta.
  rewrite (surjective_pairing (makeItem _ _ _)).
  apply stb_makeFolders. stb. apply (stb_make _ _ HS); [by auto with stb | done].
Qed.
Lemma stb_on_walk_file o f rel s : I s -> I (on_walk_file o f rel s).
Proof. intros H. unfold on_walk_file. destruct (splitRel rel). by apply stb_addFile. Qed.
Lemma stb_on_walk_error o rel s : I s -> I (on_walk_error o rel s).
Proof.
  intros H. unfold on_walk_error. destruct (splitRel rel) as [dir name]. cbv zeta.
  rewrite (surjective_pairing (makeItem _ _ _)). stb. apply (stb_make _ _ HS); [by auto with stb | done].
Qed.
Lemma stb_on_walk_end o s : I s -> I (on_walk_end o s).
Proof. intros H. unfold on_walk_end. stb. Qed.

Lemma stb_start_files o fs s : I s -> I (start_files o fs s).
Proof.
  intros H. unfold start_files. cbv zeta. stb.
  destruct (splitRel _). by apply stb_addFile.
Qed.
Lemma stb_start_walk o d s : I s -> I (start_walk o d s).
Proof.
  intros H. unfold start_walk. pose proof (stb_fresh _ _ HS s H) as Hf.
  destruct (fresh s) as [ctl s1]. cbv zeta. simpl in Hf.
  apply (stb_spawn _ _ HS); [done|]. stb. by apply stb_on_walk_file.
Qed.
Lemma stb_start o d fs s : I s -> I (start o d fs s).
Proof.
  intros H. unfold start. cbv zeta.
  set (s1 := match fs with Some (_ :: _) => _ | _ => _ end).
  assert (H1 : I s1).
  { assert (Ht : forall o l, I (set_op o (title_files l) s)).
    { intros. eapply stb_set_op; [exact HS | | done]. intros op. unfold title_files.
      by repeat case_match. }
    assert (Hd : forall o l, I (set_op o (title_dropped l) s)).
    { intros. eapply stb_set_op; [exact HS | | done]. intros op. unfold title_dropped.
      by repeat case_match. }
    unfold s1. repeat case_match; auto. }
  destruct (_ && _); [stb|]. destruct fs; [by apply stb_start_files | by apply stb_start_walk].
Qed.

Lemma stb_up_retry o l s : I s -> I (up_retry o l s).
Proof.
  intros H. unfold up_retry. cbv zeta. stb.
  - apply stb_makeFolders. stb.
  - apply Henq. stb.
Qed.
Lemma stb_up_stop o i s : I s -> I (up_stop o i s).
Proof.
  intros H. unfold up_stop. cbv zeta.
  destruct (it_state _); stb; by apply stb_endSession.
Qed.
Lemma stb_up_cancel o x s : I s -> I (up_cancel o x s).
Proof.
  intros H. unfold up_cancel. cbv zeta. destruct x; [by apply stb_up_stop|].
  stb; by apply stb_up_stop.
Qed.
End Uploads.

(** ** The job runner *)

(** A write of the runner's variables that takes no slot. *)
Definition slot_free (f : JobSt -> JobSt) : Prop :=
  forall j, j_accepted (f j) = j_accepted j /\ j_inflight (f j) = j_inflight j.

Record job_stable (caution : bool) (I : St -> Prop) : Prop := {
  js_stable : stable caution I;
  js_free f s : slot_free f -> I s -> I (on_jb f s);
  js_filter P s : I s -> I (on_jb (fun j => j <| j_accepted ::= List.filter P |>) s);
  js_pump s : I s -> I (job_pump s);
  js_decide o i c s :
    (caution = true -> op_policy (s_op s o) = Some c) -> I s -> I (job_decide o i c s);
}.
#[export] Hint Extern 1 (slot_free _) => (intros ?; split; reflexivity) : stb.

Section Jobs.
Context (caution : bool) (I : St -> Prop) (HJ : job_stable caution I).
Let HS := js_stable _ _ HJ.

Lemma stb_free f s : slot_free f -> I s -> I (on_jb f s).
Proof. apply (js_free _ _ HJ). Qed.
Lemma stb_set_queue l s : I s -> I (set_queue l s).
Proof. apply stb_free. by intros j. Qed.
Lemma stb_set_blockedUntil t s : I s -> I (set_blockedUntil t s).
Proof. apply stb_free. by intros j. Qed.
Lemma stb_unaccept id s : I s -> I (unaccept id s).
Proof. apply (js_filter _ _ HJ). Qed.
Lemma stb_writeStoredJobs l s : I s -> I (writeStoredJobs l s).
Proof. intros H. unfold writeStoredJobs. destruct (s_storage s); [|done]. by apply (sb_storage _ _ HS). Qed.
Lemma stb_dropJob id s : I s -> I (dropJob id s).
Proof. apply stb_writeStoredJobs. Qed.
Lemma stb_dropOp id s : I s -> I (dropOp id s).
Proof. apply stb_writeStoredJobs. Qed.
Lemma stb_saveJob j s : I s -> I (saveJob j s).
Proof. apply stb_writeStoredJobs. Qed.

Lemma stb_set_timer cb ms s : cb <> CbTrailing -> I s -> I (s <| s_core := (setTimer cb ms (s_core s)).2 |>).
Proof. intros. by apply (sb_core _ _ HS (fun c => (setTimer cb ms c).2)); [constructor|]. Qed.

Lemma stb_armRetry s : I s -> I (armRetry s).
Proof.
  intros H. unfold armRetry. destruct (j_retryTimer _); [done|].
  destruct (j_stopped _); [done|]. cbv zeta. rewrite (surjective_pairing (setTimer _ _ _)).
  apply stb_free; [by auto with stb|]. by apply stb_set_timer.
Qed.
Lemma stb_schedulePoll s : I s -> I (schedulePoll s).
Proof.
  intros H. unfold schedulePoll. destruct (j_pollTimer _); [done|].
  destruct (j_accepted _); [done|]. destruct (j_stopped _); [done|].
  rewrite (surjective_pairing (setTimer _ _ _)).
  apply stb_free; [by auto with stb|]. by apply stb_set_timer.
Qed.
Lemma stb_on_job_retry s : I s -> I (on_job_retry s).
Proof. intros H. apply (js_pump _ _ HJ). by apply stb_free; [by auto with stb|]. Qed.

Lemma stb_requeue o i f s : I s -> I (requeue o i f s).
Proof.
  intros H. unfold requeue. cbv zeta. apply (js_pump _ _ HJ), stb_set_queue. stb.
Qed.
Lemma stb_on_replace_removed o i e s : I s -> I (on_replace_removed o i e s).
Proof.
  intros H. unfold on_replace_removed. cbv zeta. destruct e; [stb|].
  apply (js_pump _ _ HJ), stb_set_queue. stb.
Qed.
Lemma stb_onSubmitError o i e s : I s -> I (onSubmitError o i e s).
Proof.
  intros H. unfold onSubmitError. cbv zeta.
  destruct (cl_queueFull _).
  { apply stb_armRetry, stb_set_blockedUntil, stb_set_queue. stb. }
  destruct (cl_decision _) as [d|]; [|stb].
  destruct (op_policy (s_op s o)) as [p|] eqn:Ep; [|destruct d; stb].
  destruct d as [k os|m]; [|stb]. destruct (bool_decide _); [|stb].
  by apply (js_decide _ _ HJ).
Qed.
Lemma stb_on_poll_timer s : I s -> I (on_poll_timer s).
Proof.
  intros H. unfold on_poll_timer. cbv zeta.
  assert (H1 : I (on_jb (fun j => j <| j_pollTimer := None |>) s)) by (apply stb_free; auto with stb).
  destruct (j_accepted _); [done|]. destruct (j_stopped _); [done|]. stb.
Qed.
Lemma stb_gone id o i s : I s -> I (gone id o i s).
Proof.
  intros H. unfold gone. apply (js_pump _ _ HJ), stb_set_blockedUntil. stb.
  by apply stb_dropJob, stb_unaccept.
Qed.
Lemma stb_handleJob id o i job s : I s -> I (handleJob id o i job s).
Proof.
  intros H. unfold handleJob. cbv zeta.
  assert (H1 : I (set_blockedUntil 0 (dropJob id (unaccept id s))))
    by (by apply stb_set_blockedUntil, stb_dropJob, stb_unaccept).
  destruct (job_end_of _); [stb | ..]; apply (js_pump _ _ HJ); stb.
Qed.
Lemma stb_on_poll_list r s : I s -> I (on_poll_list r s).
Proof.
  intros H. unfold on_poll_list. destruct r as [l|]; [|by apply stb_schedulePoll].
  pose proof (stb_fresh _ _ HS s H) as Hf. destruct (fresh s) as [poll s1]. simpl in Hf.
  cbv zeta. apply (stb_spawn _ _ HS); [done|]. apply stb_foldl; [|done].
  intros s2 [id [o i]] H2. destruct (find_job id l); [by apply stb_handleJob | stb].
Qed.
Lemma stb_on_poll_job id o i r s : I s -> I (on_poll_job id o i r s).
Proof.
  intros H. unfold on_poll_job. destruct r; [by apply stb_handleJob|].
  destruct (bool_decide _); [by apply stb_gone | done].
Qed.

Lemma stb_job_start o s : I s -> I (job_start o s).
Proof. intros H. by apply (js_pump _ _ HJ), stb_set_queue. Qed.
Lemma stb_job_retry o l s : I s -> I (job_retry o l s).
Proof.
  intros H. unfold job_retry. cbv zeta. apply (js_pump _ _ HJ). stb.
  apply stb_set_queue. stb.
Qed.
Lemma stb_cancelItem o i s : I s -> I (cancelItem o i s).
Proof. intros H. unfold cancelItem. cbv zeta.
  destruct (it_state (s_item s i)), (it_jobId (s_item s i)); stb. Qed.
Lemma stb_job_cancel o x s : I s -> I (job_cancel o x s).
Proof.
  intros H. unfold job_cancel. destruct x; [by apply stb_cancelItem|]. stb. by apply stb_cancelItem.
Qed.
Lemma stb_forget o s : I s -> I (forget o s).
Proof.
  intros H. unfold forget. destruct (negb _); [done|]. by apply stb_dropOp, (js_filter _ _ HJ).
Qed.

Lemma stb_submit_ended o i r s :
  (forall id e s, I s -> I (accept id e s)) -> I s -> I (submit_ended o i r s).
Proof.
  intros Hacc H. unfold submit_ended. cbv zeta. destruct r as [job|err].
  - destruct (_ || _); [stb|]. apply stb_schedulePoll, stb_saveJob, Hacc. stb.
  - destruct (bool_decide _); [done | by apply stb_onSubmitError].
Qed.
End Jobs.

(** ** The request runner *)

Record req_stable (caution : bool) (I : St -> Prop) : Prop := {
  rs_stable : stable caution I;
  rs_drive o s : o ∈ c_ops (s_core s) -> I s -> I (drive o s);
}.

Lemma patchItem_ops o i p s : c_ops (s_core (env_patchItem o i p s)) = c_ops (s_core s).
Proof.
  change (c_ops (emit (false || match patch_state p with Some st => negb (bool_decide (st = s_state s i))
    | None => false end) (touch o (Some i) (updItem i (apply_patch p) (s_core s)))) = c_ops (s_core s)).
  rewrite (cs_ops _ _ (same_emit _ _)). by rewrite (cs_ops _ _ (same_touch _ _ _)).
Qed.
Lemma settle_ops o s : c_ops (s_core (env_settle o s)) = c_ops (s_core s).
Proof. apply (cs_ops _ _ (same_settle o (s_core s))). Qed.

Section Requests.
Context (caution : bool) (I : St -> Prop) (HR : req_stable caution I).
Let HS := rs_stable _ _ HR.

Lemma stb_run_ended o i e s : I s -> I (run_ended o i e s).
Proof. intros H. unfold run_ended. cbv zeta. stb. Qed.
Lemma stb_req_decide o i c s : o ∈ c_ops (s_core s) -> I s -> I (req_decide o i c s).
Proof.
  intros Ho H. unfold req_decide. destruct c; [stb.. |].
  apply (rs_drive _ _ HR); [by rewrite patchItem_ops | stb].
Qed.
Lemma stb_req_retry o l s : o ∈ c_ops (s_core s) -> I s -> I (req_retry o l s).
Proof.
  intros Ho H. unfold req_retry. cbv zeta. apply (rs_drive _ _ HR); [|stb].
  rewrite settle_ops. apply stb_foldl; [|done]. intros s1 i. by rewrite patchItem_ops.
Qed.
Lemma stb_req_cancel o x s : I s -> I (req_cancel o x s).
Proof. intros H. unfold req_cancel. cbv zeta. destruct x; stb. Qed.
End Requests.

(** The general closure of the drive loop. *)
Lemma stb_drive_loop_from (caution : bool) (I : St -> Prop) (fuel : nat) (o : oref)
    (ctl : positive) (s : St) :
  stable caution I -> (forall f s, I s -> I (on_rq f s)) ->
  (forall o i c s, I s -> I (spawn (TRun o i c) s)) ->
  I s -> I (drive_loop fuel o ctl s).
Proof.
  intros HS Hrq Hsp. revert s.
  assert (He : forall s, I s -> I (drive_end o s)).
  { intros s H. unfold drive_end. cbv zeta. stb. by apply Hrq. }
  induction fuel as [|fuel IH]; intros s H; cbn [drive_loop];
    (destruct (negb _); [by apply He|]); (destruct (first_queued s o); [|by apply He]);
    (destruct (op_cancelled _)); try (cbv zeta; apply Hsp; stb); [done|].
  apply IH. stb.
Qed.

Lemma stb_drive_from (caution : bool) (I : St -> Prop) (o : oref) (s : St) :
  stable caution I -> (forall f s, I s -> I (on_rq f s)) ->
  (forall o i c s, I s -> I (spawn (TRun o i c) s)) ->
  I s -> I (drive o s).
Proof.
  intros HS Hrq Hsp H. unfold drive. cbv zeta. destruct (bool_decide _); [done|].
  pose proof (stb_fresh _ _ HS s H) as Hf. destruct (fresh s) as [ctl s1]. simpl in Hf.
  unfold drive_continue. apply (stb_drive_loop_from caution); [done..|]. by apply Hrq.
Qed.

(** The general closure of the upload pool. *)
Lemma stb_pump_from (caution : bool) (I : St -> Prop) (s : St) :
  stable caution I -> (forall f s, I s -> I (s <| s_up ::= f |>)) ->
  (forall o i z b s, I s -> I (spawn (TUpload o i z b) s)) ->
  (forall s, I s -> I (spawn TPoolRelease s)) ->
  (caution = true -> forall i s, I s -> it_conflict (s_item s i) = None) ->
  I s -> I (pump s).
Proof.
  intros HS Hup Hsp Hrel Hc H. unfold pump.
  assert (Hl : forall q s, I s -> I (pump_loop q s)).
  { clear s H. induction q as [|[o' i'] q IH]; intros s H; simpl; [done|].
    destruct (_ <? _); [|done]. destruct (negb _); [by apply IH, Hup|].
    destruct (negb _); apply IH; [by apply Hup|]. unfold run_start.
    assert (H1 : I (add_active 1 (set_ready q s))) by (by apply Hup, Hup).
    pose proof (stb_fresh _ _ HS _ H1) as Hf. destruct (fresh _) as [ctl s1]. simpl in Hf. cbv zeta.
    set (s2 := env_patchItem o' i' _ s1).
    assert (H2 : I s2) by (unfold s2; eapply stb_patch; [exact HS | | done]; by intros _; destruct (it_completeOnly _)).
    destruct (it_completeOnly _); [destruct (src_hasCompleteUpload _)|].
    - apply Hsp. eapply stb_log; [exact HS | | done]. intros E. by rewrite Hc.
    - apply Hrel. unfold fail_upload. stb.
    - apply Hsp. eapply stb_log; [exact HS | | done]. intros E. by rewrite Hc. }
  by apply Hl.
Qed.

(** ** Predicates that do not count

    For a predicate that survives every write of a runner's own variables and every task of that
    runner, the closure conditions of the runner follow.  With [caution] the predicate has to keep
    every operation without a policy and every item without an answer. *)

Section General.
Context (caution : bool) (I : St -> Prop) (HS : stable caution I).
Hypothesis no_policy : caution = true -> forall o s, I s -> op_policy (s_op s o) = None.
Hypothesis no_conflict : caution = true -> forall i s, I s -> it_conflict (s_item s i) = None.

Lemma general_req_stable :
  (forall f s, I s -> I (on_rq f s)) -> (forall o i c s, I s -> I (spawn (TRun o i c) s)) ->
  req_stable caution I.
Proof. intros H1 H2. split; [done|]. intros o s _. by apply (stb_drive_from caution). Qed.

Lemma general_on_run o i ctl e s :
  (forall f s, I s -> I (on_rq f s)) -> (forall o i c s, I s -> I (spawn (TRun o i c) s)) ->
  I s -> I (on_run o i ctl e s).
Proof.
  intros H1 H2 H. unfold on_run, drive_continue. apply (stb_drive_loop_from caution); [done..|].
  eapply stb_settle; [exact HS|].
  by apply (stb_run_ended caution I (general_req_stable H1 H2)).
Qed.

Lemma general_up_stable :
  (forall f s, I s -> I (s <| s_up ::= f |>)) ->
  (forall o i z b s, I s -> I (spawn (TUpload o i z b) s)) ->
  (forall s, I s -> I (spawn TPoolRelease s)) -> up_stable caution I.
Proof.
  intros Hup Hsp Hrel.
  assert (Henq : forall o i s, I s -> I (enqueue o i s))
    by (intros; unfold enqueue; apply (stb_pump_from caution); try done; by apply Hup).
  split; [done | done |]. intros o i c s Hp H.
  destruct caution eqn:E.
  { specialize (Hp eq_refl). by rewrite (no_policy eq_refl _ _ H) in Hp. }
  unfold apply. destruct c; try (apply Henq; eapply stb_patch; [exact HS | done | done]).
  unfold endSession. cbv zeta. stb.
Qed.

Lemma general_pool_release s :
  (forall f s, I s -> I (s <| s_up ::= f |>)) ->
  (forall o i z b s, I s -> I (spawn (TUpload o i z b) s)) ->
  (forall s, I s -> I (spawn TPoolRelease s)) -> I s -> I (on_pool_release s).
Proof.
  intros Hup Hsp Hrel H. unfold on_pool_release. apply (stb_pump_from caution); try done.
  by apply Hup.
Qed.

Hypothesis any_jb : forall f s, I s -> I (on_jb f s).

Lemma general_armRetry s : I s -> I (armRetry s).
Proof.
  intros H. unfold armRetry. destruct (j_retryTimer _); [done|].
  destruct (j_stopped _); [done|]. cbv zeta. rewrite (surjective_pairing (setTimer _ _ _)).
  apply any_jb. by apply (sb_core _ _ HS (fun c => (setTimer _ _ c).2)); [constructor|].
Qed.

Lemma general_job_pump s :
  (forall o i s, I s -> I (spawn (TSubmit o i) s)) -> I s -> I (job_pump s).
Proof.
  intros Hsp H. unfold job_pump. destruct (j_stopped _); [done|].
  destruct (_ <? _); [by apply general_armRetry|]. revert s H.
  assert (Hl : forall q s, I s -> I (job_pump_loop q s)).
  { induction q as [|[o i] q IH]; intros s H; simpl; [done|].
    destruct (_ <? _); [|done]. destruct (_ && _); [by apply IH, any_jb|].
    destruct (negb _); apply IH; [by apply any_jb|].
    unfold submit_start. cbv zeta. apply Hsp. stb. by apply any_jb, any_jb. }
  intros s H. by apply Hl.
Qed.

Lemma general_job_stable :
  (forall o i s, I s -> I (spawn (TSubmit o i) s)) -> job_stable caution I.
Proof.
  intros Hsp. assert (Hp : forall s, I s -> I (job_pump s)) by (intros; by apply general_job_pump).
  split; [done | intros; by apply any_jb | intros; by apply any_jb | done |].
  intros o i c s Hpol H. destruct caution eqn:E.
  { specialize (Hpol eq_refl). by rewrite (no_policy eq_refl _ _ H) in Hpol. }
  unfold job_decide, requeue. cbv zeta.
  destruct c; try (apply Hp, any_jb); stb.
Qed.

Lemma general_on_submit o i r s :
  (forall o i s, I s -> I (spawn (TSubmit o i) s)) -> I s -> I (on_submit o i r s).
Proof.
  intros Hsp H. pose proof (general_job_stable Hsp) as HJ. unfold on_submit.
  apply (js_pump _ _ HJ). eapply stb_settle; [exact HS|]. apply any_jb.
  apply (stb_submit_ended _ _ HJ); [|done]. intros. by apply any_jb.
Qed.
End General.

(** An operation stays in the dock while a runner works. *)
Definition in_dock (o : oref) (s : St) : Prop := o ∈ c_ops (s_core s).

Lemma core_fn_ops (b : bool) (f : Core -> Core) (c : Core) : core_fn b f -> c_ops (f c) = c_ops c.
Proof.
  assert (He : forall o i u c, c_ops (emit u (touch o i c)) = c_ops c).
  { intros. rewrite (cs_ops _ _ (same_emit _ _)). by rewrite (cs_ops _ _ (same_touch _ _ _)). }
  intros H. destruct H; try done;
    try (unfold patchItem', patchOp, addItem; by rewrite He).
  - apply (cs_ops _ _ (same_settle o c)).
  - apply (cs_ops _ _ (same_notify o t c)).
  - apply (cs_ops _ _ (same_noteFolder o f c)).
  - apply (cs_ops _ _ (same_invalidate ks c)).
  - unfold removeItem. destruct (list_find _ _) as [[k ?]|]; [|done]. by rewrite He.
Qed.

Lemma in_dock_stable (o : oref) : stable false (in_dock o).
Proof.
  split; try done. intros f s Hf. unfold in_dock. simpl. by rewrite (core_fn_ops false).
Qed.
Lemma in_dock_up (o : oref) : up_stable false (in_dock o).
Proof. apply general_up_stable; try done. apply in_dock_stable. Qed.
Lemma in_dock_job (o : oref) : job_stable false (in_dock o).
Proof. apply general_job_stable; try done. apply in_dock_stable. Qed.
Lemma in_dock_req (o : oref) : req_stable false (in_dock o).
Proof. apply general_req_stable; try done. apply in_dock_stable. Qed.

(** ** Dispatch *)

Section Runners.
Context (caution : bool) (I : St -> Prop).
Context (HU : up_stable caution I) (HJ : job_stable caution I) (HR : req_stable caution I).

Lemma stb_runner_retry o l s : o ∈ c_ops (s_core s) -> I s -> I (runner_retry o l s).
Proof.
  intros Ho H. unfold runner_retry. destruct (runnerFor _);
    [by apply (stb_up_retry _ _ HU) | by apply (stb_job_retry _ _ HJ) | by apply (stb_req_retry _ _ HR)].
Qed.
Lemma stb_runner_cancel o x s : I s -> I (runner_cancel o x s).
Proof.
  intros H. unfold runner_cancel. destruct (runnerFor _);
    [by apply (stb_up_cancel _ _ HU) | by apply (stb_job_cancel _ _ HJ) | by apply (stb_req_cancel _ _ HR)].
Qed.
Lemma stb_runner_decide o i c s :
  caution = false -> o ∈ c_ops (s_core s) -> I s -> I (runner_decide o i c s).
Proof.
  intros E Ho H. unfold runner_decide. destruct (runnerFor _);
    [by apply (us_apply _ _ HU); [congruence|] | by apply (js_decide _ _ HJ); [congruence|]
     | by apply (stb_req_decide _ _ HR)].
Qed.
End Runners.

Lemma in_dock_retry o o' l s : in_dock o s -> in_dock o' s -> in_dock o' (runner_retry o l s).
Proof.
  intros H H'. by apply (stb_runner_retry false _ (in_dock_up o') (in_dock_job o') (in_dock_req o')).
Qed.
Lemma in_dock_decide o o' i c s : in_dock o s -> in_dock o' s -> in_dock o' (runner_decide o i c s).
Proof.
  intros H H'. by apply (stb_runner_decide false _ (in_dock_up o') (in_dock_job o') (in_dock_req o')).
Qed.

Lemma getOp_in_dock (s : St) (id : jstr) (o : oref) : s_getOp s id = Some o -> in_dock o s.
Proof. intros H. apply find_some in H as [H _]. by apply list_elem_of_In. Qed.

Lemma addOp_ops (o : oref) (c : Core) : c_ops (addOp o c) = c_ops c ++ [o].
Proof.
  unfold addOp. cbv zeta. rewrite (cs_ops _ _ (same_emit _ _)), (cs_ops _ _ (same_touch _ _ _)).
  by destruct (_ || _).
Qed.

Lemma push_items_fresh {A} (name : A -> jstr) (f : A -> Item -> Item) (o : oref) (l : list A) c :
  (c_fresh c <= c_fresh (foldl (fun c a =>
     let '(i, c) := makeItem (name a) (f a) c in pushItem o i c) c l))%positive.
Proof.
  revert c. induction l as [|a l IH]; intros c; cbn [foldl]; [done|].
  etrans; [|apply IH]. simpl. lia.
Qed.

(** ** Events *)

Record world_stable (caution : bool) (I : St -> Prop) : Prop := {
  ws_up : up_stable caution I;
  ws_job : job_stable caution I;
  ws_req : req_stable caution I;
  ws_addOp o s : (o < c_fresh (s_core s))%positive -> I s -> I (on_core (addOp o) s);
  ws_removeOp o s : I s -> I (on_core (removeOp o) s);
  ws_clear opId s : I s -> I (clearFailed opId s);
  ws_destroy s : I s -> I (destroy s);
  ws_tick d s : I s -> I (on_core (fun c => c <| c_now ::= Z.add (Z.of_N d) |>) s);
  ws_listeners g s : I s -> I (on_core (fun c => c <| c_listeners ::= g |>) s);
  ws_fire tm s : tm ∈ c_timers (s_core s) -> I s ->
    I (run_timer (tm_cb tm) (on_core (clearTimer (tm_id tm)) s));
  ws_drop t k s : neutral k = true -> find_task t s = Some k -> I s -> I (drop_task t s);
  ws_upload t o i z b r s : find_task t s = Some (TUpload o i z b) -> I s ->
    I (on_upload o i z r (drop_task t s));
  ws_release t s : find_task t s = Some TPoolRelease -> I s -> I (on_pool_release (drop_task t s));
  ws_submit t o i r s : find_task t s = Some (TSubmit o i) -> I s ->
    I (on_submit o i r (drop_task t s));
  ws_run t o i ctl e s : find_task t s = Some (TRun o i ctl) -> I s ->
    I (on_run o i ctl e (drop_task t s));
}.

(** The events that answer a question. *)
Definition answers (e : event) : bool :=
  match e with EvDo (ADecide _ _ _) | EvDo (ADecideAll _ _) => true | _ => false end.

Section World.
Context (caution : bool) (I : St -> Prop) (HW : world_stable caution I).
Let HU := ws_up _ _ HW.
Let HJ := ws_job _ _ HW.
Let HR := ws_req _ _ HW.
Let HS := us_stable _ _ HU.

Lemma stb_makeOp k d dd f s :
  (caution = true -> forall op, op_policy (f op) = op_policy op) -> I s ->
  I (s <| s_core := (makeOp k d dd f (s_core s)).2 |>).
Proof. intros. by apply (sb_core _ _ HS (fun c => (makeOp k d dd f c).2)); [constructor|]. Qed.

(** Items made and pushed one after another. *)
Lemma stb_push_items {A} (name : A -> jstr) (f : A -> Item -> Item) (o : oref) (l : list A) c s :
  (forall a, ok_item (f a)) -> I (s <| s_core := c |>) ->
  I (s <| s_core := foldl (fun c a => let '(i, c) := makeItem (name a) (f a) c in pushItem o i c) c l |>).
Proof.
  intros Hf. revert c. induction l as [|a l IH]; intros c H; cbn [foldl]; [done|].
  rewrite (surjective_pairing (makeItem _ _ _)). apply IH.
  apply (stb_set_core _ _ HS (pushItem o _)); [constructor|].
  by apply (stb_set_core _ _ HS (fun c => (makeItem (name a) (f a) c).2)); [constructor|].
Qed.

Lemma stb_addOp o c s :
  (o < c_fresh c)%positive -> I (s <| s_core := c |>) -> I (s <| s_core := addOp o c |>).
Proof. intros Ho H. exact (ws_addOp _ _ HW o (s <| s_core := c |>) Ho H). Qed.

Lemma stb_startUpload u s : I s -> I (startUpload u s).2.
Proof.
  intros H. unfold startUpload. cbv zeta. rewrite (surjective_pairing (makeOp _ _ _ _ _)).
  cbn [snd]. apply (stb_start _ _ HU), (sb_core _ _ HS); [by auto with stb|].
  apply stb_addOp; [simpl; lia | by apply stb_makeOp].
Qed.
Lemma stb_startJobs u s : I s -> I (startJobs u s).2.
Proof.
  intros H. unfold startJobs. cbv zeta. rewrite (surjective_pairing (makeOp _ _ _ _ _)).
  cbn [snd]. apply (stb_job_start _ _ HJ).
  set (c := (makeOp _ _ _ _ _).2).
  set (g := fun (it : jstr * jstr) x => x <| it_relPath := it.1 |> <| it_destPath := ji_toPath u |>).
  apply stb_addOp.
  - eapply Pos.lt_le_trans; [|apply (push_items_fresh job_name g)]. simpl. lia.
  - apply (stb_push_items job_name g); [by auto with stb|]. by apply stb_makeOp.
Qed.
Lemma stb_startRequest u s : I s -> I (startRequest u s).2.
Proof.
  intros H. unfold startRequest. cbv zeta. rewrite (surjective_pairing (makeOp _ _ _ _ _)).
  cbn [snd]. set (l := if match ri_items u with [] => false | _ => true end then _ else _).
  set (c := (makeOp _ _ _ _ _).2). set (o := (makeOp _ _ _ _ _).1).
  set (name := fun it : jstr * bool => it.1). set (g := fun (it : jstr * bool) x => x <| it_run := it.2 |>).
  apply (rs_drive _ _ HR).
  { change (o ∈ c_ops (addOp o (updRt o (fun r => r <| rt_invalidateKeys := ri_invalidateKeys u |>
      <| rt_toastFn := ri_toastFn u |>) (foldl (fun c a =>
      let '(i, c) := makeItem (name a) (g a) c in pushItem o i c) c l)))).
    rewrite addOp_ops. apply elem_of_app. right. by left. }
  apply stb_addOp.
  - change (o < c_fresh (foldl (fun c a =>
      let '(i, c) := makeItem (name a) (g a) c in pushItem o i c) c l))%positive.
    eapply Pos.lt_le_trans; [|apply (push_items_fresh name g)]. unfold o, c. simpl. lia.
  - apply (stb_set_core _ _ HS (updRt _ _)); [by auto with stb|].
    apply (stb_push_items name g); [by auto with stb|]. by apply stb_makeOp.
Qed.

Lemma stb_cancel a b s : I s -> I (cancel a b s).
Proof.
  intros H. unfold cancel. destruct (s_getOp s a); [|done]. destruct (negb _).
  - stb. apply (stb_runner_cancel _ _ HU HJ HR). stb.
  - destruct (find_item s _ b) as [i|]; [|done]. cbv zeta.
    destruct (s_state s i); stb; by apply (stb_runner_cancel _ _ HU HJ HR).
Qed.
Lemma stb_dismiss a s : I s -> I (dismiss a s).
Proof.
  intros H. unfold dismiss. destruct (s_getOp s a); [|done]. cbv zeta.
  apply (ws_removeOp _ _ HW), (stb_forget _ _ HJ). stb.
  apply (stb_runner_cancel _ _ HU HJ HR). stb.
Qed.
Lemma stb_on_auto_clear o s : I s -> I (on_auto_clear o s).
Proof.
  intros H. unfold on_auto_clear. cbv zeta.
  assert (H1 : I (on_core (updRt o (fun r => r <| rt_clearTimer := None |>)) s)) by stb.
  destruct (_ && _); [|done]. by apply (ws_removeOp _ _ HW), (stb_forget _ _ HJ).
Qed.

Lemma stb_decideAll a c s : caution = false -> I s -> I (decideAll a c s).
Proof.
  intros E H. unfold decideAll. destruct (s_getOp s a) as [o|] eqn:Eo; [|done]. cbv zeta.
  apply getOp_in_dock in Eo.
  apply (stb_foldl (fun s => I s /\ in_dock o s) (decide_one o c)); [|split].
  - intros s1 i [H1 D1]. unfold decide_one. destruct (s_state s1 i); try done.
    destruct (it_decision _); [|done]. destruct (decision_takes _ _); [|done].
    split; [by apply (stb_runner_decide _ _ HU HJ HR) | by apply in_dock_decide].
  - eapply stb_patchOp; [exact HS | | done]. intros op. split; [done | congruence].
  - eapply (stb_patchOp false _ (in_dock_stable o)); [|done]. intros op. split; [done | congruence].
Qed.
Lemma stb_retryOffline s : I s -> I (retryOffline s).
Proof.
  intros H. unfold retryOffline.
  assert (Hl : forall l s, I s -> (forall o, o ∈ l -> in_dock o s) ->
    I (foldl (fun s o => match List.filter (fun i => offline_target (s_item s i)) (op_items (s_op s o)) with
                         | [] => s | targets => runner_retry o targets s end) s l)).
  { clear s H. induction l as [|o l IH]; intros s H Hd; cbn [foldl]; [done|].
    assert (Ho : in_dock o s) by (apply Hd; by left).
    destruct (List.filter _ _).
    - apply IH; [done|]. intros o' Ho'. apply Hd. by right.
    - apply IH; [by apply (stb_runner_retry _ _ HU HJ HR)|]. intros o' Ho'.
      apply in_dock_retry; [done|]. apply Hd. by right. }
  apply Hl; [done|]. by intros o.
Qed.

Lemma stb_action a s : (caution = true -> answers (EvDo a) = false) -> I s -> I (run_action a s).
Proof.
  intros Hc H. destruct a; cbn [run_action].
  - by apply stb_startUpload.
  - by apply stb_startJobs.
  - by apply stb_startRequest.
  - assert (E : caution = false) by (apply not_true_is_false; intros E; by specialize (Hc E)).
    unfold decide. destruct (s_getOp s opId) eqn:Eo; [|done]. destruct (find_item s _ itemId); [|done].
    destruct (bool_decide _); [|done]. apply (stb_runner_decide _ _ HU HJ HR); try done. by eapply getOp_in_dock.
  - assert (E : caution = false) by (apply not_true_is_false; intros E; by specialize (Hc E)).
    by apply stb_decideAll.
  - unfold retry. destruct (s_getOp s opId) eqn:Eo; [|done].
    destruct (List.filter _ _); [done|]. apply (stb_runner_retry _ _ HU HJ HR); try done. by eapply getOp_in_dock.
  - by apply stb_retryOffline.
  - by apply stb_cancel.
  - by apply (ws_clear _ _ HW).
  - by apply stb_dismiss.
  - by apply (ws_listeners _ _ HW).
  - by apply (ws_listeners _ _ HW).
  - by apply (ws_destroy _ _ HW).
Qed.

Lemma stb_run_task t k r s s' :
  find_task t s = Some k -> I s -> run_task k r (drop_task t s) = Some s' -> I s'.
Proof.
  intros Hf H Hr.
  assert (Hd : neutral k = true -> I (drop_task t s)) by (intros; by eapply (ws_drop _ _ HW)).
  destruct k, r; cbn [run_task] in Hr; simplify_option_eq; try (specialize (Hd eq_refl));
    try (destruct (poll_pending _ _); simplify_eq).
  all: first
    [ by eapply (ws_upload _ _ HW) | by eapply (ws_release _ _ HW) | by eapply (ws_submit _ _ HW)
    | by eapply (ws_run _ _ HW)
    | by apply (stb_on_names_parent _ _ HU) | by apply (stb_on_names_list _ _ HU)
    | by apply (stb_on_prepare _ _ HU) | by apply (stb_on_mkdir _ _ HU)
    | by apply (stb_on_kind_at _ _ HU) | by apply (stb_on_walk_end _ _ HU)
    | by apply (stb_on_replace_removed _ _ HJ) | by apply (stb_on_poll_list _ _ HJ)
    | by apply (stb_on_poll_job _ _ HJ) | by apply (stb_schedulePoll _ _ HJ) ].
Qed.

Lemma stb_walk t guarded f s s' :
  (forall o s, I s -> I (f o s)) -> I s -> on_walk t guarded f s = Some s' -> I s'.
Proof. intros Hf H E. unfold on_walk in E. repeat case_match; simplify_eq; auto. Qed.
Lemma stb_sending t f s s' :
  (forall o i z s, I s -> I (f o i z s)) -> I s -> on_sending t f s = Some s' -> I s'.
Proof. intros Hf H E. unfold on_sending in E. repeat case_match; simplify_eq; auto. Qed.

Lemma stb_event e s s' :
  (caution = true -> answers e = false) -> I s -> step e s = Some s' -> I s'.
Proof.
  intros Hc H E. destruct e; simpl in E.
  - simplify_eq. by apply stb_action.
  - simplify_eq. by apply (ws_tick _ _ HW).
  - destruct (List.find _ _) as [tm|] eqn:Ef; [|done]. destruct (_ <=? _); [|done].
    apply find_some in Ef as [Hin Heq%Pos.eqb_eq]. simplify_eq.
    apply (ws_fire _ _ HW); [by apply list_elem_of_In | done].
  - destruct (find_task task s) as [k|] eqn:Ek; [|done]. by eapply stb_run_task.
  - eapply stb_sending; [|done|done]. intros; cbv beta; by apply (stb_on_session _ _ HU).
  - eapply stb_sending; [|done|done]. intros; cbv beta; by apply (stb_on_progress _ _ HU).
  - eapply stb_sending; [|done|done]. intros; cbv beta; by apply (stb_on_retry _ _ HU).
  - eapply stb_walk; [|done|done]. intros; cbv beta; by apply (stb_on_walk_file _ _ HU).
  - eapply stb_walk; [|done|done]. intros; cbv beta; by apply (stb_addFolder _ _ HU).
  - eapply stb_walk; [|done|done]. intros; cbv beta; by apply (stb_on_walk_error _ _ HU).
Qed.
End World.

(** An invariant of the step relation. *)
Lemma stb_reachable (I : St -> Prop) (s0 s : St) :
  world_stable false I -> I s0 -> reachable s0 s -> I s.
Proof.
  intros HW H0 Hr. induction Hr as [|e s s' Hr IH E]; [done|].
  by apply (stb_event false I HW e s).
Qed.
