(* ===== verification/OpsCalm.v ===== *)
(** * File operations: predicates the store itself cannot disturb

    The store's own functions only move the allocation counter forward and never rename an
    operation.  A predicate that survives such changes is [calm]; it is then enough to look at the
    few functions that start and end uploads, jobs and requests. *)

From S2P Require Import Prelude JsString Paths OpsTypes OpsErrors OpsStore OpsFrame OpsState.
From S2P Require Import OpsUploads OpsJobs OpsRequests FileOps OpsStable.

Record mono (c c' : Core) : Prop := {
  mo_fresh : (c_fresh c <= c_fresh c')%positive;
  mo_id o : (o < c_fresh c)%positive ->
    op_id <$> (c_opsH c' !! o) = op_id <$> (c_opsH c !! o);
  mo_ops o : o ∈ c_ops c' -> o ∈ c_ops c \/ (o < c_fresh c')%positive;
}.

#[export] Instance mono_pre : PreOrder mono.
Proof.
  split; [intros c; split; auto; lia|]. intros c1 c2 c3 [F1 O1 P1] [F2 O2 P2]. split; [lia | |].
  - intros o Ho. rewrite O2 by lia. by apply O1.
  - intros o Ho. apply P2 in Ho as [Ho|Ho]; [|by right].
    apply P1 in Ho as [Ho|Ho]; [by left | right; lia].
Qed.

Lemma mono_same (c c' : Core) : core_same c c' -> mono c c'.
Proof.
  intros H. split; [apply H | | intros o; rewrite (cs_ops _ _ H); auto].
  intros o _. pose proof (cs_opsH _ _ H o) as E.
  destruct (c_opsH c' !! o), (c_opsH c !! o); simpl in *; unfold op_fixed in *; congruence.
Qed.

Lemma mono_updOp (o : oref) (f : Op -> Op) (c : Core) :
  (forall op, op_id (f op) = op_id op) -> mono c (updOp o f c).
Proof.
  intros Hf. split; [done | | auto]. intros o' _. simpl. destruct (base.decide (o = o')) as [->|Hne].
  - rewrite lookup_alter_eq. destruct (c_opsH c !! o'); simpl; by rewrite ?Hf.
  - by rewrite lookup_alter_ne.
Qed.

Ltac mono_refl := split; simpl; [try done; lia | done | auto].

Lemma mono_touch_emit (o : oref) (i : option iref) (u : bool) (c : Core) :
  mono c (emit u (touch o i c)).
Proof. apply mono_same. etrans; [apply same_touch | apply same_emit]. Qed.

Lemma core_fn_mono (b : bool) (f : Core -> Core) (c : Core) : core_fn b f -> mono c (f c).
Proof.
  intros H. destruct H.
  - unfold patchItem'. etrans; [|apply mono_touch_emit]. mono_refl.
  - unfold patchOp. etrans; [|apply mono_touch_emit]. apply mono_updOp. apply H.
  - apply mono_same, same_settle.
  - apply mono_same, same_notify.
  - mono_refl.
  - apply mono_same, same_noteFolder.
  - apply mono_same, same_invalidate.
  - unfold addItem, pushItem. etrans; [|apply mono_touch_emit]. by apply mono_updOp.
  - by apply mono_updOp.
  - unfold removeItem. destruct (list_find _ _) as [[k ?]|]; [|done].
    etrans; [|apply mono_touch_emit]. by apply mono_updOp.
  - mono_refl.
  - apply mono_updOp. apply H.
  - mono_refl.
  - mono_refl.
  - mono_refl.
  - unfold makeOp. split; simpl; [lia | | auto].
    intros o Ho. rewrite lookup_insert_ne by lia. done.
  - mono_refl.
Qed.

Lemma dock_mono (o : oref) (c : Core) :
  (o < c_fresh c)%positive -> mono c (c <| c_ops ::= (fun l => l ++ [o]) |>).
Proof.
  intros Ho. split; simpl; [lia | done |]. intros o' [H|H%list_elem_of_singleton]%elem_of_app; [by left|].
  right. by rewrite H.
Qed.

Lemma addOp_mono (o : oref) (c : Core) : (o < c_fresh c)%positive -> mono c (addOp o c).
Proof.
  intros Ho. unfold addOp. etrans; [|apply mono_touch_emit].
  transitivity (c <| c_ops ::= (fun l => l ++ [o]) |>); [by apply dock_mono|].
  destruct (_ || _); [by apply mono_updOp|]. simpl. mono_refl.
Qed.

Lemma removeOp_mono (o : oref) (c : Core) : mono c (removeOp o c).
Proof.
  unfold removeOp. destruct (list_find _ _) as [[k ?]|]; [|done].
  etrans; [|apply mono_same, same_emit].
  transitivity (clearOpt (rt_showTimer (rtOf c o)) (clearOpt (rt_clearTimer (rtOf c o))
                  (clearOpt (rt_invTimer (rtOf c o)) c))).
  2:{ split; simpl; [done.. |]. intros o' Ho'. left. revert Ho'. by apply list_elem_of_delete_inv. }
  apply mono_same. do 2 (etrans; [|apply same_clearOpt]). apply same_clearOpt.
Qed.

(** ** Calm predicates *)

Definition calm (I : St -> Prop) : Prop :=
  forall c s, mono (s_core s) c -> I s -> I (s <| s_core := c |>).

Lemma calm_core (I : St -> Prop) (f : Core -> Core) (s : St) :
  calm I -> (forall c, mono c (f c)) -> I s -> I (on_core f s).
Proof. intros HC Hf H. exact (HC (f (s_core s)) s (Hf _) H). Qed.

Section Calm.
Context (I : St -> Prop) (HC : calm I) (HJ : job_stable false I).

Lemma calm_clear opId s : I s -> I (clearFailed opId s).
Proof.
  intros H. unfold clearFailed. destruct (s_getOp s opId) as [o|]; [|done]. cbv zeta.
  apply (calm_core I _ _ HC); [intros; apply mono_same, same_settle|].
  apply (calm_core I _ _ HC); [intros; apply mono_same, same_touch|].
  apply (calm_core I _ _ HC); [|done]. intros c. by apply mono_updOp.
Qed.

Lemma calm_destroy s : I s -> I (destroy s).
Proof.
  intros H. unfold destroy. cbv zeta. apply (calm_core I _ _ HC); [intros; mono_refl|].
  assert (Hc : forall t s, I s -> I (on_core (clearOpt t) s))
    by (intros; apply (calm_core I _ _ HC); [intros; apply mono_same, same_clearOpt | done]).
  apply stb_foldl; [intros; by apply Hc, Hc, Hc|].
  apply (calm_core I _ _ HC); [intros; apply mono_same, same_clearOpt|].
  unfold job_stop. apply Hc, Hc. apply (js_free _ _ HJ); [by auto with stb|].
  apply (calm_core I _ _ HC); [intros; mono_refl | done].
Qed.

Lemma calm_fire tm s : I s -> I (run_timer (tm_cb tm) (on_core (clearTimer (tm_id tm)) s)).
Proof.
  intros H. assert (H1 : I (on_core (clearTimer (tm_id tm)) s))
    by (apply (calm_core I _ _ HC); [intros; apply mono_same, same_clearTimer | done]).
  destruct (tm_cb tm); cbn [run_timer].
  - apply (calm_core I _ _ HC); [|done]. intros c. unfold on_trailing.
    transitivity (c <| c_trailing := None |>); [mono_refl | apply mono_same, same_flush].
  - apply (calm_core I _ _ HC); [|done]. intros c. unfold on_show. cbv zeta.
    transitivity (updRt o (fun r => r <| rt_showTimer := None |>) c);
      [apply mono_same, same_updRt|].
    destruct (_ && _); [|done]. etrans; [|apply mono_touch_emit]. by apply mono_updOp.
  - apply (calm_core I _ _ HC); [|done]. intros c. unfold on_invalidate.
    apply mono_same. etrans; [apply same_updRt | apply same_flushFolders].
  - unfold on_auto_clear. cbv zeta.
    assert (H2 : I (on_core (updRt o (fun r => r <| rt_clearTimer := None |>))
                      (on_core (clearTimer (tm_id tm)) s)))
      by (apply (calm_core I _ _ HC); [intros; apply mono_same, same_updRt | done]).
    destruct (_ && _); [|done]. apply (calm_core I _ _ HC); [intros; apply removeOp_mono|].
    by apply (stb_forget _ _ HJ).
  - by apply (stb_on_poll_timer _ _ HJ).
  - by apply (stb_on_job_retry _ _ HJ).
Qed.
End Calm.

(** ** Startup *)

Lemma push_item_mono (n : jstr) (f : Item -> Item) (o : oref) (c : Core) :
  mono c (pushItem o (makeItem n f c).1 (makeItem n f c).2).
Proof. transitivity ((makeItem n f c).2); [mono_refl | by apply mono_updOp]. Qed.

Lemma makeOp_mono k d dd f c : mono c (makeOp k d dd f c).2.
Proof. by apply (core_fn_mono false (fun c => (makeOp k d dd f c).2)); constructor. Qed.

Lemma add_initial_mono (c : Core) (raw : initial_op) : mono c (add_initial c raw).
Proof.
  unfold add_initial. rewrite (surjective_pairing (makeOp _ _ _ _ _)). cbv zeta.
  set (f := fun op => _ <| op_shown := _ |>).
  set (o := (makeOp _ _ _ f c).1). set (c1 := (makeOp _ _ _ f c).2).
  transitivity c1; [apply makeOp_mono|].
  assert (Ho : (o < c_fresh c1)%positive) by (unfold o, c1; simpl; lia).
  clearbody o c1. clear c. rename c1 into c.
  assert (Hp : mono c (foldl (fun c it => let '(i, c) := makeItem it.1 it.2 c in pushItem o i c) c
                         (io_items raw))).
  { clear Ho. revert c. induction (io_items raw) as [|it items IH]; intros c; cbn [foldl]; [done|].
    etrans; [|apply IH]. rewrite (surjective_pairing (makeItem _ _ _)). apply push_item_mono. }
  etrans; [exact Hp|]. set (c1 := foldl _ c _) in *. clearbody c1. pose proof (mo_fresh _ _ Hp).
  transitivity (c1 <| c_ops ::= (fun l => l ++ [o]) |>);
    [apply dock_mono; lia | apply mono_same, same_touch].
Qed.

Lemma restore_items (I : St -> Prop) o js s :
  (forall s j, I s -> I (restore_item o s j)) -> I s -> (o < c_fresh (s_core s))%positive ->
  I (foldl (restore_item o) s js)
  /\ (o < c_fresh (s_core (foldl (restore_item o) s js)))%positive.
Proof.
  intros Hitem. revert s. induction js as [|j js IH]; intros s H Hlt; cbn [foldl]; [done|].
  apply IH; [by apply Hitem|]. unfold restore_item. simpl. lia.
Qed.

(** A calm predicate holds of a new store when it holds of the empty one and of the jobs a
    reload picks up. *)
Lemma calm_create (I : St -> Prop) tag now st l b :
  calm I -> (forall f s, slot_free f -> I s -> I (on_jb f s)) ->
  (forall o s j, I s -> I (restore_item o s j)) -> I (st0 tag now st) ->
  I (createFileOpsStore tag now st l b).
Proof.
  intros HC Hjb Hitem H0. unfold createFileOpsStore. cbv zeta.
  apply (calm_core I _ _ HC); [intros; apply mono_same, same_flush|].
  set (s1 := on_core _ (st0 tag now st)).
  assert (H1 : I s1).
  { unfold s1. clear s1. apply (calm_core I _ _ HC); [|done].
    induction l as [|raw l IH]; intros c; cbn [foldl]; [done|]. etrans; [|apply IH].
    apply add_initial_mono. }
  destruct st as [jobs|]; [|done]. destruct b; [|done]. unfold restore. cbv zeta.
  assert (Hp : forall s, I s -> I (schedulePoll s)).
  { intros s H. unfold schedulePoll. destruct (j_pollTimer _); [done|].
    destruct (j_accepted _); [done|]. destruct (j_stopped _); [done|].
    rewrite (surjective_pairing (setTimer _ _ _)). apply Hjb; [by intros j|].
    apply HC; [apply mono_same, same_setTimer | done]. }
  apply Hp, stb_foldl; [|done]. intros s2 g H2. unfold restore_group. destruct (snd g) as [|first js] eqn:Eg; [done|].
  rewrite (surjective_pairing (makeOp _ _ _ _ _)). cbv zeta.
  set (o := (makeOp _ _ _ _ _).1). set (c := (makeOp _ _ _ _ _).2).
  destruct (restore_items I o (first :: js) (s2 <| s_core := c |>)) as [H3 H4].
  { apply Hitem. }
  { apply HC; [apply makeOp_mono | done]. }
  { unfold o, c. simpl. lia. }
  apply (HC (addOp o _)); [by apply addOp_mono | exact H3].
Qed.

Lemma restore_item_any (I : St -> Prop) o s j :
  calm I -> (forall f s, I s -> I (on_jb f s)) -> I s -> I (restore_item o s j).
Proof.
  intros HC Hjb H. unfold restore_item. rewrite (surjective_pairing (makeItem _ _ _)).
  apply Hjb, HC; [apply push_item_mono | done].
Qed.

(** The tasks waiting have distinct ids, below the allocation counter. *)
Record tasks_ok (s : St) : Prop := {
  ta_nodup : NoDup (map tk_id (s_tasks s));
  ta_fresh t : t ∈ s_tasks s -> (tk_id t < c_fresh (s_core s))%positive;
}.

Lemma tasks_ok_calm : calm tasks_ok.
Proof.
  intros c s Hc [N F]. split; [done|]. simpl. intros t Ht.
  pose proof (mo_fresh _ _ Hc). specialize (F t Ht). lia.
Qed.

Lemma tasks_ok_spawn (k : task_kind) (s : St) : tasks_ok s -> tasks_ok (spawn k s).
Proof.
  intros [N F]. split; simpl.
  - constructor; [|done]. intros (t & Ht & Hin)%list_elem_of_fmap. specialize (F _ Hin). lia.
  - intros t [->|Ht]%elem_of_cons; simpl; [lia|]. specialize (F t Ht). lia.
Qed.

Lemma tasks_ok_drop (t : positive) (s : St) : tasks_ok s -> tasks_ok (drop_task t s).
Proof.
  intros [N F]. split; simpl.
  - revert N. generalize (s_tasks s) as l. intros l. induction l as [|x l IH]; simpl; [done|].
    intros [Hx Hl]%NoDup_cons. destruct (negb _); simpl; [|by apply IH].
    constructor; [|by apply IH]. intros Hin. apply Hx.
    apply list_elem_of_fmap in Hin as (y & -> & Hy). apply list_elem_of_fmap.
    exists y. split; [done|]. apply list_elem_of_In in Hy. apply filter_In in Hy.
    apply list_elem_of_In, Hy.
  - intros x. rewrite list_elem_of_In, filter_In. intros [Hx _]. by apply F, list_elem_of_In.
Qed.

(** Counting the tasks of a kind: dropping one takes exactly that one away. *)
Definition count_tasks (P : task_kind -> bool) (s : St) : nat :=
  length (List.filter (fun t => P (tk_kind t)) (s_tasks s)).

Lemma count_drop (P : task_kind -> bool) (t : positive) (k : task_kind) (s : St) :
  tasks_ok s -> find_task t s = Some k ->
  count_tasks P s = ((if P k then 1 else 0) + count_tasks P (drop_task t s))%nat.
Proof.
  intros [N _]. unfold find_task, count_tasks, drop_task. simpl. revert N.
  generalize (s_tasks s) as l. intros l. induction l as [|x l IH]; simpl; [done|].
  intros [Hx Hl]%NoDup_cons. destruct (Pos.eqb_spec (tk_id x) t) as [E|E]; simpl.
  - intros [= <-]. rewrite (List.filter_ext_in (fun t0 => negb (tk_id t0 =? t)%positive) (fun _ => true)).
    + assert (Ht : forall l : list task, List.filter (fun _ => true) l = l)
        by (induction l0; simpl; congruence). rewrite Ht. by destruct (P _).
    + intros y Hy. apply negb_true_iff, Pos.eqb_neq. intros Ey. apply Hx.
      apply list_elem_of_fmap. exists y. split; [congruence | by apply list_elem_of_In].
  - intros Hf. specialize (IH Hl Hf). destruct (P (tk_kind x)); simpl; rewrite IH; lia.
Qed.

Lemma count_spawn (P : task_kind -> bool) (k : task_kind) (s : St) :
  count_tasks P (spawn k s) = ((if P k then 1 else 0) + count_tasks P s)%nat.
Proof. unfold count_tasks. simpl. by destruct (P k). Qed.

Lemma st0_tasks tag now st : tasks_ok (st0 tag now st).
Proof. split; [constructor | intros t Ht; simpl in Ht; by apply not_elem_of_nil in Ht]. Qed.
