(* ===== verification/OpsPool.v ===== *)
(** * File operations: the limits on work in flight

    Two invariants of the interleaved store: at most three uploads are in the pool and a queue is never left waiting beside
    a free place; [slotsUsed], the jobs Luna accepted and those on their way, stays within four, or within the number a
    reload picked up when that was more. *)

From S2P Require Import Prelude JsString Paths OpsTypes OpsErrors OpsStore OpsFrame OpsState.
From S2P Require Import OpsUploads OpsJobs OpsRequests FileOps OpsStable OpsCalm.

(** ** The upload pool *)

Definition is_pool (k : task_kind) : bool :=
  match k with TUpload _ _ _ _ | TPoolRelease => true | _ => false end.

(** [pool k s]: the pool's counter is the number of its pending tasks, apart from the [k] tasks
    whose continuation is running. *)
Record pool_count (k : Z) (s : St) : Prop := {
  pc_tasks : tasks_ok s;
  pc_count : u_active (s_up s) = Z.of_nat (count_tasks is_pool s) + k;
  pc_limit : u_active (s_up s) <= UPLOAD_PARALLEL;
}.

Definition pool (k : Z) (s : St) : Prop :=
  pool_count k s /\ (u_active (s_up s) < UPLOAD_PARALLEL -> u_ready (s_up s) = []).

Lemma pool_count_core (k : Z) (s : St) (f : Core -> Core) :
  (forall c, mono c (f c)) -> pool_count k s -> pool_count k (on_core f s).
Proof. intros Hf [T C L]. split; [by apply (calm_core _ _ _ tasks_ok_calm) | done..]. Qed.

Lemma pool_count_spawn (k : Z) (t : task_kind) (s : St) :
  pool_count k s -> pool_count (k - if is_pool t then 1 else 0) (spawn t s).
Proof.
  intros [T C L]. split; [by apply tasks_ok_spawn | | done].
  rewrite count_spawn. change (s_up (spawn t s)) with (s_up s). destruct (is_pool t); lia.
Qed.

Lemma pool_count_start (k : Z) (o : oref) (i : iref) (s : St) :
  pool_count k s -> pool_count (k - 1) (run_start o i s) /\ s_up (run_start o i s) = s_up s.
Proof.
  intros H. unfold run_start.
  assert (Hf : pool_count k (fresh s).2).
  { apply (pool_count_core k s (fun c => c <| c_fresh ::= Pos.succ |>)); [intros; mono_refl | done]. }
  assert (Hup : s_up (fresh s).2 = s_up s) by done.
  destruct (fresh s) as [ctl s1]. simpl in Hf, Hup. rewrite <- Hup. clear Hup H s. cbv zeta.
  set (s2 := env_patchItem o i _ s1).
  assert (H2 : pool_count k s2).
  { apply pool_count_core; [|done]. intros c. apply (core_fn_mono false). by constructor. }
  assert (Hlog : forall e, pool_count k (env_log e s2))
    by (intros; apply pool_count_core; [intros; mono_refl | done]).
  destruct (it_completeOnly _); [destruct (src_hasCompleteUpload _)|].
  - split; [|done]. by apply (pool_count_spawn k (TUpload o i _ false)).
  - split; [|done]. apply (pool_count_spawn k TPoolRelease).
    unfold fail_upload. repeat (apply pool_count_core;
      [intros c; apply (core_fn_mono false); by constructor|]). done.
  - split; [|done]. by apply (pool_count_spawn k (TUpload o i _ true)).
Qed.

(** The pump fills every free place, or empties the queue. *)
Lemma pump_pool (k : Z) (s : St) : pool_count k s -> pool k (pump s).
Proof.
  intros H. unfold pump. remember (u_ready (s_up s)) as q eqn:Eq. symmetry in Eq.
  revert s H Eq. induction q as [|[o i] q IH]; intros s H Eq; cbn [pump_loop].
  - split; [done|]. by rewrite Eq.
  - destruct (Z.ltb_spec (u_active (s_up s)) UPLOAD_PARALLEL) as [Hlt|Hge].
    2:{ split; [done|]. lia. }
    assert (H1 : pool_count k (set_ready q s)) by (destruct H as [[N F] C L]; by repeat split).
    destruct (negb _); [by apply IH|]. destruct (negb _); [by apply IH|].
    assert (H2 : pool_count (k + 1) (add_active 1 (set_ready q s))).
    { destruct H1 as [T C L]. destruct T as [N F].
      split; [by split | simpl in *; unfold count_tasks in *; simpl in *; lia | simpl; lia]. }
    destruct (pool_count_start (k + 1) o i _ H2) as [H3 E3].
    replace (k + 1 - 1) with k in H3 by lia. apply IH; [done|]. by rewrite E3.
Qed.

Lemma pool_stable (k : Z) : stable false (pool k).
Proof.
  split.
  - intros f s Hf [H R]. split; [|done]. apply pool_count_core; [|done].
    intros c. by apply (core_fn_mono false).
  - intros t s Ht [H R]. split; [|done].
    replace k with (k - if is_pool t then 1 else 0) by (destruct t; simpl in *; try done; lia).
    by apply pool_count_spawn.
  - intros g s [[[N F] C L] R]. by repeat split.
  - intros g s [[[N F] C L] R]. by repeat split.
  - intros g s [[[N F] C L] R]. by repeat split.
Qed.

Lemma pool_enqueue (k : Z) (o : oref) (i : iref) (s : St) : pool k s -> pool k (enqueue o i s).
Proof. intros [H R]. unfold enqueue. apply pump_pool.
  destruct H as [[N F] C L]; by repeat split.
Qed.

Lemma pool_up_stable (k : Z) : up_stable false (pool k).
Proof.
  split; [apply pool_stable | intros; by apply pool_enqueue|].
  intros o i c s _ H. pose proof (pool_stable k) as HS. unfold apply.
  destruct c; try (apply pool_enqueue; stb). unfold endSession. cbv zeta. stb.
Qed.

Lemma pool_on_jb (k : Z) f s : pool k s -> pool k (on_jb f s).
Proof. intros [[[N F] C L] R]. by repeat split. Qed.
Lemma pool_on_rq (k : Z) f s : pool k s -> pool k (on_rq f s).
Proof. intros [[[N F] C L] R]. by repeat split. Qed.
Lemma pool_spawn_other (k : Z) t s : is_pool t = false -> pool k s -> pool k (spawn t s).
Proof.
  intros Ht [H R]. split; [|done]. apply (pool_count_spawn k t) in H. rewrite Ht in H.
  by replace k with (k - 0) by lia.
Qed.

Lemma pool_job_stable (k : Z) : job_stable false (pool k).
Proof.
  apply general_job_stable; [apply pool_stable | done | done | apply pool_on_jb |].
  intros. by apply pool_spawn_other.
Qed.

Lemma pool_req_stable (k : Z) : req_stable false (pool k).
Proof.
  apply general_req_stable; [apply pool_stable | apply pool_on_rq |].
  intros. by apply pool_spawn_other.
Qed.

(** Taking a task out, in general. *)
Lemma pool_drop (k : Z) (t : positive) (x : task_kind) (s : St) :
  find_task t s = Some x -> pool k s -> pool (k + if is_pool x then 1 else 0) (drop_task t s).
Proof.
  intros Hf [[T C L] R]. split; [split; [by apply tasks_ok_drop | | done] | done].
  pose proof (count_drop is_pool t x s T Hf). change (s_up (drop_task t s)) with (s_up s).
  destruct (is_pool x); lia.
Qed.

Lemma pool_calm (k : Z) : calm (pool k).
Proof. intros c s Hc [[T C L] R]. split; [split; [by apply tasks_ok_calm | done..] | done]. Qed.

Lemma pool_world : world_stable false (pool 0).
Proof.
  pose proof (pool_calm 0) as HC. pose proof (pool_job_stable 0) as HJ.
  assert (Hother : forall t k s, is_pool k = false -> find_task t s = Some k -> pool 0 s ->
            pool 0 (drop_task t s)).
  { intros t k s Hk Hf H. apply (pool_drop 0 t k) in H; [|done]. by rewrite Hk in H. }
  split; [apply pool_up_stable | done | apply pool_req_stable | ..].
  - intros o s Ho H. apply (HC (addOp o _)); [by apply addOp_mono | done].
  - intros. apply (calm_core _ _ _ HC); [intros; apply removeOp_mono | done].
  - intros. by apply calm_clear.
  - intros. by apply calm_destroy.
  - intros. apply (calm_core _ _ _ HC); [|done]. intros. mono_refl.
  - intros. apply (calm_core _ _ _ HC); [|done]. intros. mono_refl.
  - intros. by apply calm_fire.
  - intros t k s Hk Hf H. apply (Hother t k); [by destruct k | done..].
  - intros t o i z b r s Hf H. apply (pool_drop 0 t _ s Hf) in H.
    unfold on_upload. apply (stb_upload_ended _ _ (pool_up_stable _) o i z r) in H.
    apply (stb_settle _ _ (pool_stable _) o) in H. destruct H as [H R]. split; [|done].
    by apply (pool_count_spawn _ TPoolRelease) in H.
  - intros t s Hf H. apply (pool_drop 0 t _ s Hf) in H.
    unfold on_pool_release. apply pump_pool. destruct H as [[[N F] C L] R].
    split; [by split | simpl in *; unfold count_tasks in *; simpl in *; lia | simpl in *; lia].
  - intros t o i r s Hf H. apply (general_on_submit false _ (pool_stable 0)); [done | done | | |].
    + apply pool_on_jb.
    + intros. by apply pool_spawn_other.
    + by apply (Hother t (TSubmit o i)).
  - intros t o i ctl e s Hf H. apply (general_on_run false _ (pool_stable 0)).
    + apply pool_on_rq.
    + intros. by apply pool_spawn_other.
    + by apply (Hother t (TRun o i ctl)).
Qed.

(** ** Luna's job slots *)

Definition is_submit (k : task_kind) : bool :=
  match k with TSubmit _ _ => true | _ => false end.

(** [k]: the submissions whose continuation is running; [m]: the limit. *)
Record slots (k m : Z) (s : St) : Prop := {
  sl_tasks : tasks_ok s;
  sl_count : j_inflight (s_jb s) = Z.of_nat (count_tasks is_submit s) + k;
  sl_limit : slotsUsed s <= m;
}.

Lemma map_set_length {V} (k : jstr) (v : V) (m : list (jstr * V)) :
  (length (map_set k v m) <= S (length m))%nat.
Proof. induction m as [|[k' v'] m IH]; simpl; [done|]. case_bool_decide; simpl; lia. Qed.

Section Slots.
Context (k m : Z) (Hm : JOB_PARALLEL <= m).

Lemma slots_calm : calm (slots k m).
Proof. intros c s Hc [T C L]. split; [by apply tasks_ok_calm | done..]. Qed.

Lemma slots_spawn t s : is_submit t = false -> slots k m s -> slots k m (spawn t s).
Proof.
  intros Ht [T C L]. split; [by apply tasks_ok_spawn | | done].
  rewrite count_spawn, Ht. exact C.
Qed.

Lemma slots_stable : stable false (slots k m).
Proof.
  split.
  - intros f s Hf. apply (calm_core _ _ _ slots_calm). intros c. by apply (core_fn_mono false).
  - intros t s Ht. apply slots_spawn. by destruct t.
  - intros g s [[N F] C L]. by repeat split.
  - intros g s [[N F] C L]. by repeat split.
  - intros g s [[N F] C L]. by repeat split.
Qed.

Lemma slots_free f s : slot_free f -> slots k m s -> slots k m (on_jb f s).
Proof.
  intros Hf [[N F] C L]. destruct (Hf (s_jb s)) as [Ea Ei].
  split; [by split | by simpl; rewrite Ei |]. unfold slotsUsed in *. simpl. by rewrite Ea, Ei.
Qed.

Lemma slots_filter P s :
  slots k m s -> slots k m (on_jb (fun j => j <| j_accepted ::= List.filter P |>) s).
Proof.
  intros [[N F] C L]. split; [by split | done |]. unfold slotsUsed in *. simpl.
  pose proof (List.filter_length_le P (j_accepted (s_jb s))). lia.
Qed.

(** One more submission takes one more slot. *)
Lemma slots_submit o i s :
  slotsUsed s < JOB_PARALLEL -> slots k m s -> slots k m (submit_start o i s).
Proof.
  intros Hlt [[N F] C L]. unfold submit_start. cbv zeta.
  set (p := [PState ISubmitting; PWaitingForQueue false; PError None]).
  set (s1 := add_inflight 1 s).
  assert (H1 : slots (k + 1) m s1).
  { split; [by split | |]; unfold slotsUsed, count_tasks in *; simpl in *; lia. }
  assert (Hp : slots (k + 1) m (env_patchItem o i p s1)).
  { destruct H1 as [T1 C1 L1]. split; [|done..].
    apply (calm_core _ (patchItem o i p) _ tasks_ok_calm); [|done].
    intros c. apply (core_fn_mono false). by constructor. }
  destruct Hp as [T2 C2 L2].
  match goal with |- slots k m (spawn ?t ?s2) => assert (H2 : slots (k + 1) m s2) end.
  { split; [|done..]. by apply (calm_core _ (logEff _) _ tasks_ok_calm); [intros; mono_refl|]. }
  destruct H2 as [T3 C3 L3]. split; [by apply tasks_ok_spawn | | exact L3].
  rewrite count_spawn. change (s_jb (spawn (TSubmit o i) ?x)) with (s_jb x). simpl is_submit. cbn.
  cbn in C3. lia.
Qed.

Lemma slots_set_queue l s : slots k m s -> slots k m (set_queue l s).
Proof. apply slots_free. by intros j. Qed.

Lemma slots_pump s : slots k m s -> slots k m (job_pump s).
Proof.
  intros H. unfold job_pump. destruct (j_stopped _); [done|]. destruct (_ <? _).
  - unfold armRetry. destruct (j_retryTimer _); [done|]. destruct (j_stopped _); [done|].
    cbv zeta. rewrite (surjective_pairing (setTimer _ _ _)).
    apply slots_free; [by intros j|]. apply slots_calm; [|done].
    apply mono_same, same_setTimer.
  - revert s H. assert (Hl : forall q s, slots k m s -> slots k m (job_pump_loop q s)).
    { induction q as [|[o i] q IH]; intros s H; cbn [job_pump_loop]; [done|].
      destruct (Z.ltb_spec (slotsUsed s) JOB_PARALLEL) as [Hlt|]; [|done].
      assert (H1 : slots k m (set_queue q s)) by by apply slots_set_queue.
      destruct (_ && _); [by apply IH|]. destruct (negb _); [by apply IH|].
      apply IH, slots_submit; [exact Hlt | done]. }
    intros s H. by apply Hl.
Qed.

Lemma slots_job_stable : job_stable false (slots k m).
Proof.
  split; [apply slots_stable | apply slots_free | apply slots_filter | apply slots_pump |].
  intros o i c s _ H. pose proof slots_stable as HS. unfold job_decide, requeue. cbv zeta.
  destruct c; try (apply slots_pump, slots_set_queue); stb.
Qed.

Lemma slots_up_stable : up_stable false (slots k m).
Proof.
  apply general_up_stable; [apply slots_stable | done | done | | |].
  - intros f s [[N F] C L]. by repeat split.
  - intros. by apply slots_spawn.
  - intros. by apply slots_spawn.
Qed.

Lemma slots_on_rq f s : slots k m s -> slots k m (on_rq f s).
Proof. intros [[N F] C L]. by repeat split. Qed.

Lemma slots_req_stable : req_stable false (slots k m).
Proof.
  apply general_req_stable; [apply slots_stable | apply slots_on_rq |].
  intros. by apply slots_spawn.
Qed.
End Slots.

Lemma slots_drop (k m : Z) (t : positive) (x : task_kind) (s : St) :
  find_task t s = Some x -> slots k m s -> slots (k + if is_submit x then 1 else 0) m (drop_task t s).
Proof.
  intros Hf [T C L]. split; [by apply tasks_ok_drop | | done].
  pose proof (count_drop is_submit t x s T Hf). change (s_jb (drop_task t s)) with (s_jb s).
  destruct (is_submit x); lia.
Qed.

(** The continuation of a submission: an accepted job keeps the slot the submission gives back. *)
Lemma slots_on_submit (m : Z) (o : oref) (i : iref) (r : job_reply + js_err) (s : St) :
  JOB_PARALLEL <= m -> slots 1 m s -> slots 0 m (on_submit o i r s).
Proof.
  intros Hm H. unfold on_submit.
  apply slots_pump; [done|]. apply (stb_settle _ _ (slots_stable 0 m)).
  assert (Hfree : forall s, slots 1 m s -> slots 0 m (add_inflight (-1) s)).
  { intros s1 [[N F] C L]. split; [by split | |];
      unfold slotsUsed, count_tasks in *; simpl in *; lia. }
  unfold submit_ended. cbv zeta. pose proof (slots_stable 1 m) as HS.
  destruct r as [job|err]; [destruct (_ || _)|].
  - apply Hfree. stb.
  - set (s1 := env_patchItem _ _ _ _).
    assert (H1 : slots 1 m s1) by (unfold s1; stb).
    assert (H2 : slots 1 (m + 1) (accept (jr_id job) (o, i) s1)).
    { destruct H1 as [[N F] C L]. split; [by split | done |].
      pose proof (map_set_length (jr_id job) (o, i) (j_accepted (s_jb s1))) as Hl.
      unfold slotsUsed in *. simpl in *. lia. }
    assert (Hm1 : JOB_PARALLEL <= m + 1) by lia.
    pose proof (slots_job_stable 1 (m + 1) Hm1) as HJ.
    apply (stb_saveJob _ _ HJ (job_record (accept (jr_id job) (o, i) s1) o i (jr_id job))) in H2.
    apply (stb_schedulePoll _ _ HJ) in H2. destruct H2 as [[N F] C L].
    split; [by split | |]; unfold slotsUsed, count_tasks in *; simpl in *; lia.
  - apply Hfree. destruct (bool_decide _); [done|].
    by apply (stb_onSubmitError _ _ (slots_job_stable 1 m Hm)).
Qed.

Lemma slots_world (m : Z) : JOB_PARALLEL <= m -> world_stable false (slots 0 m).
Proof.
  intros Hm. pose proof (slots_calm 0 m) as HC. pose proof (slots_job_stable 0 m Hm) as HJ.
  pose proof (slots_stable 0 m) as HS.
  assert (Hother : forall t k s, is_submit k = false -> find_task t s = Some k -> slots 0 m s ->
            slots 0 m (drop_task t s)).
  { intros t k s Hk Hf H. apply (slots_drop 0 m t k) in H; [|done]. by rewrite Hk in H. }
  split; [by apply slots_up_stable | done | by apply slots_req_stable | ..].
  - intros o s Ho H. apply (HC (addOp o _)); [by apply addOp_mono | done].
  - intros. apply (calm_core _ _ _ HC); [intros; apply removeOp_mono | done].
  - intros. by apply calm_clear.
  - intros. by apply calm_destroy.
  - intros. apply (calm_core _ _ _ HC); [|done]. intros. mono_refl.
  - intros. apply (calm_core _ _ _ HC); [|done]. intros. mono_refl.
  - intros. by apply calm_fire.
  - intros t k s Hk Hf H. apply (Hother t k); [by destruct k | done..].
  - intros t o i z b r s Hf H. unfold on_upload. apply slots_spawn; [done|].
    apply (stb_settle _ _ HS). apply (stb_upload_ended _ _ (slots_up_stable 0 m)).
    by apply (Hother t (TUpload o i z b)).
  - intros t s Hf H. apply (general_pool_release false _ HS); try done.
    + intros f s1 [[N F] C L]. by repeat split.
    + intros. by apply slots_spawn.
    + intros. by apply slots_spawn.
    + by apply (Hother t TPoolRelease).
  - intros t o i r s Hf H. apply slots_on_submit; [done|]. by apply (slots_drop 0 m _ _ s Hf) in H.
  - intros t o i ctl e s Hf H. apply (general_on_run false _ HS).
    + intros. by apply slots_on_rq.
    + intros. by apply slots_spawn.
    + by apply (Hother t (TRun o i ctl)).
Qed.
