(* ===== verification/OpsBatch.v ===== *)
(** * File operations: one request of a batch at a time

    The request runner's lock: an operation's id is in [driving] exactly while one of its requests
    is under way, so that a batch sends its requests one after another. *)

From S2P Require Import Prelude JsString Paths OpsTypes OpsErrors OpsStore OpsFrame OpsState.
From S2P Require Import OpsUploads OpsJobs OpsRequests FileOps OpsStable OpsCalm.

(** The operation a request under way belongs to. *)
Definition run_op (t : task) : option oref :=
  match tk_kind t with TRun o _ _ => Some o | _ => None end.
Definition running_ops (s : St) : list oref := omap run_op (s_tasks s).
Definition running_ids (s : St) : list jstr := map (fun o => op_id (s_op s o)) (running_ops s).

(** [x]: the operation whose loop is running at this moment. *)
Record batch (x : option jstr) (s : St) : Prop := {
  bt_tasks : tasks_ok s;
  bt_heap o : o ∈ running_ops s -> (o < c_fresh (s_core s))%positive;
  bt_ops o : o ∈ c_ops (s_core s) -> (o < c_fresh (s_core s))%positive;
  bt_nodup : NoDup (running_ids s);
  bt_driving id : id ∈ q_driving (s_rq s) <-> id ∈ running_ids s \/ x = Some id;
  bt_free id : x = Some id -> id ∉ running_ids s;
}.

Lemma mono_opid (c c' : Core) (o : oref) :
  mono c c' -> (o < c_fresh c)%positive -> op_id (opOf c' o) = op_id (opOf c o).
Proof.
  intros H Ho. pose proof (mo_id _ _ H o Ho) as E. unfold opOf. rewrite !lookup_total_alt.
  destruct (c_opsH c' !! o), (c_opsH c !! o); simpl in *; congruence.
Qed.

Lemma batch_calm x : calm (batch x).
Proof.
  intros c s Hc [T H O N D X].
  assert (E : running_ids (s <| s_core := c |>) = running_ids s).
  { apply map_ext_in. intros o Ho. apply list_elem_of_In in Ho. apply mono_opid; [done|].
    by apply H. }
  split; rewrite ?E; [by apply tasks_ok_calm | | | done..].
  - intros o Ho. pose proof (mo_fresh _ _ Hc). specialize (H o Ho). simpl. lia.
  - intros o Ho. pose proof (mo_fresh _ _ Hc). apply (mo_ops _ _ Hc) in Ho as [Ho|Ho]; [|done].
    specialize (O o Ho). simpl. lia.
Qed.

Definition is_run (k : task_kind) : bool := match k with TRun _ _ _ => true | _ => false end.

(** The fields of the state the invariant does not read. *)
Lemma batch_ext x s s' :
  s_core s' = s_core s -> s_tasks s' = s_tasks s -> s_rq s' = s_rq s -> batch x s -> batch x s'.
Proof.
  intros Ec Et Eq [T H O N D X].
  assert (Er : running_ops s' = running_ops s) by (unfold running_ops; by rewrite Et).
  assert (Ei : running_ids s' = running_ids s).
  { unfold running_ids. rewrite Er. apply map_ext. intros o. unfold s_op. by rewrite Ec. }
  split; rewrite ?Ei, ?Er, ?Ec, ?Eq; try done. destruct T as [T1 T2].
  split; rewrite ?Et, ?Ec; done.
Qed.

Lemma batch_spawn x k s : is_run k = false -> batch x s -> batch x (spawn k s).
Proof.
  intros Hk [T H O N D X].
  assert (E : running_ops (spawn k s) = running_ops s) by (by destruct k).
  assert (E2 : running_ids (spawn k s) = running_ids s) by (unfold running_ids; by rewrite E).
  split; rewrite ?E, ?E2; try done; [by apply tasks_ok_spawn | |];
    intros o Ho; simpl; [specialize (H o Ho) | specialize (O o Ho)]; lia.
Qed.

Lemma batch_stable x : stable false (batch x).
Proof.
  split.
  - intros f s Hf. apply (calm_core _ _ _ (batch_calm x)). intros c. by apply (core_fn_mono false).
  - intros k s Hk. apply batch_spawn. by destruct k.
  - intros g s. by apply batch_ext.
  - intros g s. by apply batch_ext.
  - intros g s. by apply batch_ext.
Qed.

Lemma batch_on_jb x f s : batch x s -> batch x (on_jb f s).
Proof. by apply batch_ext. Qed.
Lemma batch_on_up x f s : batch x s -> batch x (s <| s_up ::= f |>).
Proof. by apply batch_ext. Qed.

(** Starting a request hands the lock to it. *)
Lemma batch_run o i ctl s :
  batch (Some (op_id (s_op s o))) s -> (o < c_fresh (s_core s))%positive ->
  batch None (spawn (TRun o i ctl) s).
Proof.
  intros [T H O N D X] Ho.
  assert (E : running_ids (spawn (TRun o i ctl) s) = op_id (s_op s o) :: running_ids s) by done.
  split; rewrite ?E.
  - by apply tasks_ok_spawn.
  - intros o' Ho'. change (running_ops (spawn (TRun o i ctl) s)) with (o :: running_ops s) in Ho'.
    simpl. apply elem_of_cons in Ho' as [->|Ho']; [lia|]. specialize (H o' Ho'). lia.
  - intros o' Ho'. specialize (O o' Ho'). simpl. lia.
  - constructor; [by apply X | done].
  - intros id. change (q_driving (s_rq (spawn (TRun o i ctl) s))) with (q_driving (s_rq s)).
    rewrite D. set_solver.
  - done.
Qed.

(** The end of the loop gives the lock back. *)
Lemma batch_drive_end o s :
  batch (Some (op_id (s_op s o))) s -> batch None (drive_end o s).
Proof.
  intros H. unfold drive_end. cbv zeta. apply (stb_settle _ _ (batch_stable None)).
  destruct H as [[T1 T2] H O N D X]. split; try done.
  intros id. simpl. rewrite !list_elem_of_In, filter_In, negb_true_iff, bool_decide_eq_false.
  rewrite <- !list_elem_of_In, D. split.
  - intros [[Hin|[= <-]] Hne]; [by left | done].
  - intros [Hin|?]; [|done]. split; [by left|]. intros ->. by apply (X _ eq_refl).
Qed.

(** A patch of one item, as the loop sees it. *)
Lemma patch_items o i p s :
  op_items (s_op (env_patchItem o i p s) o) = op_items (s_op s o)
  /\ c_itemsH (s_core (env_patchItem o i p s))
     = alter (apply_patch p) i (c_itemsH (s_core s)).
Proof.
  set (u := false || match patch_state p with
    | Some st => negb (bool_decide (st = it_state (itemOf (s_core s) i))) | None => false end).
  pose (c := updItem i (apply_patch p) (s_core s)).
  assert (Hs : core_same c (emit u (touch o (Some i) c)))
    by (etrans; [apply same_touch | apply same_emit]).
  split; [|exact (cs_items _ _ Hs)].
  pose proof (core_same_op _ _ o Hs) as E. unfold op_fixed in E.
  change (op_items (opOf (emit u (touch o (Some i) c)) o) = op_items (opOf c o)). congruence.
Qed.

Lemma cancelled_count o i s :
  first_queued s o = Some i ->
  (S (queued_count (env_patchItem o i [PState ICancelled] s) o) <= queued_count s o)%nat.
Proof.
  intros [Hin Hq]%find_some. destruct (patch_items o i [PState ICancelled] s) as [Ei Eh].
  unfold queued_count. rewrite Ei. set (s' := env_patchItem _ _ _ _) in *.
  assert (Hs : forall j, is_queued s' j = true -> is_queued s j = true).
  { intros j. unfold is_queued. rewrite Eh. destruct (base.decide (i = j)) as [->|Hne].
    - rewrite lookup_alter_eq. by destruct (c_itemsH (s_core s) !! j).
    - by rewrite lookup_alter_ne. }
  assert (Hi : is_queued s' i = false).
  { unfold is_queued. rewrite Eh, lookup_alter_eq. by destruct (c_itemsH (s_core s) !! i). }
  clear Ei. induction (op_items (s_op s o)) as [|x l IH]; [done|]. cbn [List.filter].
  assert (Hle : forall l, (length (List.filter (is_queued s') l)
                           <= length (List.filter (is_queued s) l))%nat).
  { induction l0 as [|y l0 IHl]; simpl; [done|]. specialize (Hs y).
    destruct (is_queued s' y), (is_queued s y); simpl; try lia; by specialize (Hs eq_refl). }
  destruct Hin as [->|Hin].
  - rewrite Hi, Hq. simpl. specialize (Hle l). lia.
  - specialize (IH Hin). specialize (Hs x).
    destruct (is_queued s' x), (is_queued s x); simpl; try lia; by specialize (Hs eq_refl).
Qed.

Lemma opid_core o f s :
  (forall c, mono c (f c)) -> (o < c_fresh (s_core s))%positive ->
  op_id (s_op (on_core f s) o) = op_id (s_op s o).
Proof. intros Hf Ho. by apply mono_opid. Qed.

Lemma batch_drive_loop fuel o ctl s :
  batch (Some (op_id (s_op s o))) s -> (o < c_fresh (s_core s))%positive ->
  (queued_count s o <= fuel)%nat -> batch None (drive_loop fuel o ctl s).
Proof.
  assert (Hp : forall i p c, mono c (patchItem o i p c))
    by (intros; apply (core_fn_mono false); by constructor).
  revert s. induction fuel as [|fuel IH]; intros s H Ho Hq; cbn [drive_loop];
    (destruct (negb _); [by apply batch_drive_end|]);
    (destruct (first_queued s o) as [i|] eqn:Ef; [|by apply batch_drive_end]).
  1:{ apply cancelled_count in Ef. lia. }
  assert (Hstep : forall p, batch (Some (op_id (s_op (env_patchItem o i p s) o))) (env_patchItem o i p s)
     /\ (o < c_fresh (s_core (env_patchItem o i p s)))%positive).
  { intros p. unfold env_patchItem. rewrite (opid_core o (patchItem o i p) s (Hp i p) Ho). split.
    - eapply (stb_patch _ _ (batch_stable _)); done.
    - simpl. pose proof (mo_fresh _ _ (Hp i p (s_core s))). lia. }
  destruct (op_cancelled _); cbv zeta.
  - apply IH; try apply Hstep. apply cancelled_count in Ef. lia.
  - set (s1 := env_patchItem _ _ _ _).
    assert (H1 : batch (Some (op_id (s_op s1 o))) s1 /\ (o < c_fresh (s_core s1))%positive)
      by apply Hstep. clearbody s1.
    destruct (it_run _); [|apply batch_run; apply H1]. apply batch_run.
    + unfold env_log. rewrite opid_core; [|intros; mono_refl | apply H1].
      eapply (stb_log _ _ (batch_stable _)); [done | apply H1].
    + apply H1.
Qed.

Lemma batch_continue o ctl s :
  batch (Some (op_id (s_op s o))) s -> (o < c_fresh (s_core s))%positive ->
  batch None (drive_continue o ctl s).
Proof. intros. by apply batch_drive_loop. Qed.

Lemma batch_drive o s : o ∈ c_ops (s_core s) -> batch None s -> batch None (drive o s).
Proof.
  intros Hin H. pose proof (bt_ops _ _ H o Hin) as Ho. unfold drive. cbv zeta.
  case_bool_decide as Hd; [done|].
  assert (H1 : batch None (fresh s).2)
    by (apply (calm_core _ _ s (batch_calm None)); [intros; mono_refl | done]).
  assert (Eid : op_id (s_op (fresh s).2 o) = op_id (s_op s o)) by done.
  assert (Ho1 : (o < c_fresh (s_core (fresh s).2))%positive) by (simpl; lia).
  assert (Eq : s_rq (fresh s).2 = s_rq s) by done.
  destruct (fresh s) as [ctl s1]. cbn [snd] in *. apply batch_continue; [|exact Ho1].
  destruct H1 as [[T1 T2] H1 O N D X]. rewrite <- Eq in Hd.
  split; try done.
  - intros id. simpl. rewrite elem_of_app, list_elem_of_singleton, D. rewrite <- Eid. naive_solver.
  - intros id [= <-] Hr. apply Hd, D. left. by rewrite <- Eid.
Qed.

Lemma batch_req_stable : req_stable false (batch None).
Proof. split; [apply batch_stable | apply batch_drive]. Qed.
Lemma batch_job_stable x : job_stable false (batch x).
Proof.
  apply general_job_stable; [apply batch_stable | done | done | apply batch_on_jb |].
  intros. by apply batch_spawn.
Qed.
Lemma batch_up_stable x : up_stable false (batch x).
Proof.
  apply general_up_stable; [apply batch_stable | done | done | apply batch_on_up | |];
    intros; by apply batch_spawn.
Qed.

(** Taking a task out. *)
Lemma drop_running t k s :
  tasks_ok s -> find_task t s = Some k ->
  match k with
  | TRun o _ _ => exists l1 l2, running_ops s = l1 ++ o :: l2
                                /\ running_ops (drop_task t s) = l1 ++ l2
  | _ => running_ops (drop_task t s) = running_ops s
  end.
Proof.
  intros [N _]. unfold find_task, running_ops, drop_task. simpl. revert N.
  generalize (s_tasks s) as l. intros l. induction l as [|x l IH]; simpl; [done|].
  intros [Hx Hl]%NoDup_cons. destruct (Pos.eqb_spec (tk_id x) t) as [E|E]; simpl.
  - intros [= <-].
    assert (Hrest : List.filter (fun t0 => negb (tk_id t0 =? t)%positive) l = l).
    { clear IH Hl. induction l as [|y l IH]; [done|]. simpl.
      destruct (Pos.eqb_spec (tk_id y) t) as [E'|E']; simpl.
      - exfalso. apply Hx. simpl. rewrite E', <- E. apply elem_of_cons. by left.
      - f_equal. apply IH. intros Hin. apply Hx. by right. }
    rewrite Hrest. unfold run_op. destruct (tk_kind x); try done. by exists [], (omap run_op l).
  - intros Hf. specialize (IH Hl Hf).
    destruct k; try (destruct (run_op x); [f_equal|]; exact IH).
    destruct IH as (l1 & l2 & E1 & E2).
    destruct (run_op x) as [o'|]; [exists (o' :: l1), l2 | exists l1, l2];
      (split; [simpl; try f_equal; exact E1 | simpl; try f_equal; exact E2]).
Qed.

Lemma batch_drop_other t k s :
  is_run k = false -> find_task t s = Some k -> batch None s -> batch None (drop_task t s).
Proof.
  intros Hk Hf [T H O N D X]. pose proof (drop_running t k s T Hf) as E.
  assert (E1 : running_ops (drop_task t s) = running_ops s) by (by destruct k).
  assert (E2 : running_ids (drop_task t s) = running_ids s) by (unfold running_ids; by rewrite E1).
  split; rewrite ?E1, ?E2; try done. by apply tasks_ok_drop.
Qed.

Lemma batch_drop_run t o i ctl s :
  find_task t s = Some (TRun o i ctl) -> batch None s ->
  batch (Some (op_id (s_op (drop_task t s) o))) (drop_task t s)
  /\ (o < c_fresh (s_core (drop_task t s)))%positive.
Proof.
  intros Hf [T H O N D X]. destruct (drop_running t _ s T Hf) as (l1 & l2 & E1 & E2).
  assert (Ei : running_ids s = map (fun o => op_id (s_op s o)) l1 ++ op_id (s_op s o)
                 :: map (fun o => op_id (s_op s o)) l2)
    by (unfold running_ids; rewrite E1, map_app; done).
  assert (Ei2 : running_ids (drop_task t s) = map (fun o => op_id (s_op s o)) l1
                 ++ map (fun o => op_id (s_op s o)) l2)
    by (unfold running_ids; rewrite E2, map_app; done).
  rewrite Ei in N. apply NoDup_app in N as (N1 & N2 & N3). apply NoDup_cons in N3 as [N3 N4].
  split; [|apply H; rewrite E1; apply elem_of_app; right; by left].
  split; rewrite ?Ei2.
  - by apply tasks_ok_drop.
  - intros o' Ho'. apply H. rewrite E1. rewrite E2 in Ho'. set_solver.
  - done.
  - apply NoDup_app. split_and!; [done | set_solver | done].
  - intros id. change (q_driving (s_rq (drop_task t s))) with (q_driving (s_rq s)).
    rewrite D, Ei. change (s_op (drop_task t s) o) with (s_op s o). set_solver.
  - intros id [= <-]. change (s_op (drop_task t s) o) with (s_op s o).
    intros [Hin|Hin]%elem_of_app; [|done]. apply (N2 _ Hin). by left.
Qed.

Lemma batch_on_run t o i ctl e s :
  find_task t s = Some (TRun o i ctl) -> batch None s ->
  batch None (on_run o i ctl e (drop_task t s)).
Proof.
  intros Hf H. destruct (batch_drop_run t o i ctl s Hf H) as [H1 Ho].
  set (s1 := drop_task t s) in *. clearbody s1. unfold on_run.
  pose (P s := batch (Some (op_id (s_op s1 o))) s /\ (o < c_fresh (s_core s))%positive
               /\ op_id (s_op s o) = op_id (s_op s1 o)).
  assert (HP : forall f s, (forall c, mono c (f c)) -> P s -> P (on_core f s)).
  { intros f s2 Hm (B & L & E). split_and!; [by apply (calm_core _ _ _ (batch_calm _)) | |].
    - simpl. pose proof (mo_fresh _ _ (Hm (s_core s2))). lia.
    - rewrite opid_core; done. }
  assert (HPf : forall b f s, core_fn b f -> P s -> P (on_core f s))
    by (intros b f s2 Hc; apply HP; intros c; by eapply core_fn_mono).
  assert (H2 : P (env_settle o (run_ended o i e s1))).
  { apply (HPf false); [constructor|]. unfold run_ended. cbv zeta.
    repeat match goal with |- P (match ?x with _ => _ end) => destruct x end;
      repeat (apply (HPf false); [by constructor|]); by split_and!. }
  destruct H2 as (B & L & E). apply batch_continue; [by rewrite E | done].
Qed.

Lemma batch_world : world_stable false (batch None).
Proof.
  pose proof (batch_calm None) as HC. pose proof (batch_job_stable None) as HJ.
  pose proof (batch_stable None) as HS.
  split; [apply batch_up_stable | done | apply batch_req_stable | ..].
  - intros o s Ho H. apply (HC (addOp o _)); [by apply addOp_mono | done].
  - intros. apply (calm_core _ _ _ HC); [intros; apply removeOp_mono | done].
  - intros. by apply calm_clear.
  - intros. by apply calm_destroy.
  - intros. apply (calm_core _ _ _ HC); [|done]. intros. mono_refl.
  - intros. apply (calm_core _ _ _ HC); [|done]. intros. mono_refl.
  - intros. by apply calm_fire.
  - intros t k s Hk Hf H. apply (batch_drop_other t k); [by destruct k | done..].
  - intros t o i z b r s Hf H. unfold on_upload. apply batch_spawn; [done|].
    apply (stb_settle _ _ HS). apply (stb_upload_ended _ _ (batch_up_stable None)).
    by apply (batch_drop_other t (TUpload o i z b)).
  - intros t s Hf H. apply (general_pool_release false _ HS); try done.
    + apply batch_on_up.
    + intros. by apply batch_spawn.
    + intros. by apply batch_spawn.
    + by apply (batch_drop_other t TPoolRelease).
  - intros t o i r s Hf H. apply (general_on_submit false _ HS); [done | done | | |].
    + apply batch_on_jb.
    + intros. by apply batch_spawn.
    + by apply (batch_drop_other t (TSubmit o i)).
  - intros t o i ctl e s Hf H. by apply batch_on_run.
Qed.
