(* ===== verification/OpsEmit.v ===== *)
(** * File operations: no update is lost

    Progress is throttled: between two emits the changes wait for the trailing timer.  In every
    state the interleaved store can reach, a change that has not been published has that timer
    armed, within 100 ms of the last emit. *)

From S2P Require Import Prelude JsString Paths OpsTypes OpsErrors OpsStore OpsFrame OpsStoreFacts.
From S2P Require Import OpsState OpsUploads OpsJobs OpsRequests FileOps OpsStable OpsCalm.

Definition announced (s : St) : Prop := no_lost_update (s_core s).

(** The fields an emit is decided on. *)
Lemma nlu_keep (c c' : Core) :
  no_lost_update c -> timers_ok c' -> c_dirty c' = c_dirty c -> c_trailing c' = c_trailing c ->
  c_destroyed c' = c_destroyed c -> no_lost_update c'.
Proof. intros [_ D] T E1 E2 E3. split; [done|]. by rewrite E1, E2, E3. Qed.

Lemma nlu_settle (o : oref) (c : Core) : no_lost_update c -> no_lost_update (settle o c).
Proof.
  intros H. pose proof (proj1 H) as T. unfold settle. destruct (negb _); [done|]. cbv zeta.
  apply emit_no_lost_update, tk_touch.
  repeat match goal with |- context [if ?x then _ else _] => destruct x end; auto 10 with timers.
Qed.

Lemma nlu_notify o t c : no_lost_update c -> no_lost_update (notify o t c).
Proof.
  intros H. apply (nlu_keep c); [done | apply tk_notify, H | ..]; unfold notify; by repeat case_match.
Qed.

Lemma nlu_invalidate ks c : no_lost_update c -> no_lost_update (invalidate ks c).
Proof.
  intros H. apply (nlu_keep c); [done | apply tk_invalidate, H | ..]; unfold invalidate;
    by rewrite foldl_log_eq.
Qed.

Lemma nlu_noteFolder o f c : no_lost_update c -> no_lost_update (noteFolder o f c).
Proof.
  intros H. apply (nlu_keep c); [done | apply tk_noteFolder, H | ..]; unfold noteFolder; cbv zeta;
    by destruct (rt_invTimer _).
Qed.

Lemma nlu_flushFolders o c : no_lost_update c -> no_lost_update (flushFolders o c).
Proof.
  intros H. apply (nlu_keep c); [done | apply tk_flushFolders, H | ..]; unfold flushFolders;
    by rewrite foldl_log_eq.
Qed.

Lemma nlu_core_fn (f : Core -> Core) (c : Core) :
  core_fn false f -> no_lost_update c -> no_lost_update (f c).
Proof.
  intros Hf H. pose proof (proj1 H) as T. destruct Hf as
    [o i p u Hp | o f Hf | o | o t | e He | o f | ks | o i | o i | o i | i f Hf | o f Hf | o f Hf
     | | n f Hf | k d dd f Hf | cb ms Hcb].
  - unfold patchItem'. apply emit_no_lost_update. auto with timers.
  - unfold patchOp. apply emit_no_lost_update. auto with timers.
  - by apply nlu_settle.
  - by apply nlu_notify.
  - apply (nlu_keep c); auto with timers.
  - by apply nlu_noteFolder.
  - by apply nlu_invalidate.
  - unfold addItem, pushItem. apply emit_no_lost_update. auto with timers.
  - apply (nlu_keep c); try done. unfold pushItem. auto with timers.
  - unfold removeItem. destruct (list_find _ _) as [[k ?]|]; [|done].
    apply emit_no_lost_update. auto with timers.
  - apply (nlu_keep c); auto with timers.
  - apply (nlu_keep c); auto with timers.
  - apply (nlu_keep c); try done. by apply timers_ok_rt.
  - apply (nlu_keep c); try done. apply (timers_ok_ext c); simpl; try done. lia.
  - apply (nlu_keep c); try done. apply (timers_ok_ext c); simpl; try done. lia.
  - apply (nlu_keep c); try done. apply (timers_ok_ext c); simpl; try done. lia.
  - apply (nlu_keep c); try done. by apply timers_ok_set.
Qed.

Lemma announced_spawn k s : announced s -> announced (spawn k s).
Proof. apply (nlu_core_fn (fun c => c <| c_fresh ::= Pos.succ |>)). constructor. Qed.

Lemma announced_stable : stable false announced.
Proof.
  split; try done.
  - intros f s Hf. by apply nlu_core_fn.
  - intros k s _. apply announced_spawn.
Qed.
Lemma announced_up : up_stable false announced.
Proof. apply general_up_stable; try done; intros; by apply announced_spawn || apply announced_stable. Qed.
Lemma announced_job : job_stable false announced.
Proof.
  apply general_job_stable; [apply announced_stable | done | done | done |].
  intros. by apply announced_spawn.
Qed.
Lemma announced_req : req_stable false announced.
Proof.
  apply general_req_stable; [apply announced_stable | done |]. intros. by apply announced_spawn.
Qed.

Lemma nlu_removeOp o c : no_lost_update c -> no_lost_update (removeOp o c).
Proof.
  intros H. pose proof (tk_removeOp o c (proj1 H)) as T. unfold removeOp in *.
  destruct (list_find _ _) as [[k ?]|]; [|done]. split; [done|].
  pose proof H as [T0 _]. cbv zeta in *.
  match goal with |- context [emit true ?c'] => set (c1 := c') in *; clearbody c1 end.
  intros Hd Hne. exfalso. apply Hne. unfold emit in *.
  destruct (c_destroyed c1) eqn:Ed; [congruence|]. apply flush_heap.
Qed.

Lemma nlu_addOp o c : no_lost_update c -> no_lost_update (addOp o c).
Proof.
  intros H. pose proof (tk_addOp o c (proj1 H)) as T. unfold addOp in *. cbv zeta in *.
  split; [done|].
  match goal with |- context [emit true ?c'] => set (c1 := c') in *; clearbody c1 end.
  intros Hd Hne. exfalso. apply Hne. unfold emit in *.
  destruct (c_destroyed c1) eqn:Ed; [congruence|]. apply flush_heap.
Qed.

(** A destroyed store emits nothing: its timers may be cleared in any order. *)
Definition ended (c : Core) : Prop := c_destroyed c = true /\ timers_ok c.

Lemma ended_nlu c : ended c -> no_lost_update c.
Proof. intros [D T]. split; [done|]. congruence. Qed.

Lemma ended_clear t c : ended c -> ended (clearOpt t c).
Proof.
  intros [D [F R T U]]. destruct t as [t|]; [|done]. split; [done|].
  assert (Hin : forall tm, tm ∈ c_timers (clearTimer t c) -> tm ∈ c_timers c).
  { intros tm. simpl. rewrite !list_elem_of_In, filter_In. by intros []. }
  split.
  - intros tm Hm. by apply F, Hin.
  - intros o r t' Hr Ht. destruct (R o r t' Hr Ht) as [Hlt Hcb]. split; [done|].
    intros tm Hm. by apply Hcb, Hin.
  - intros t' D'. simpl in D'. congruence.
  - intros tm tm' H1 H2. apply U; by apply Hin.
Qed.

Lemma ended_start c : timers_ok c -> ended (c <| c_destroyed := true |>).
Proof. intros [F R T U]. split; [done|]. split; try done. Qed.

Lemma announced_destroy s : announced s -> announced (destroy s).
Proof.
  intros [T _]. apply ended_nlu. unfold destroy. cbv zeta.
  assert (Hf : forall l s, ended (s_core s) -> ended (s_core (foldl (fun s o =>
     let r := rtOf (s_core s) o in
     s ▷ on_core (clearOpt (rt_invTimer r)) ▷ on_core (clearOpt (rt_clearTimer r))
       ▷ on_core (clearOpt (rt_showTimer r))) s l))).
  { intros l s1 H. apply (stb_foldl (fun s => ended (s_core s))); [|done].
    intros s2 o H2. cbv zeta. by apply ended_clear, ended_clear, ended_clear. }
  match goal with |- ended (s_core (on_core _ ?s1)) => assert (H : ended (s_core s1)) end.
  { apply Hf. apply (ended_clear (c_trailing _)). unfold job_stop.
    apply (ended_clear (j_retryTimer _)), (ended_clear (j_pollTimer _)). by apply ended_start. }
  destruct H as [D H]. split; [done|]. by apply (timers_ok_ext _ _ H).
Qed.

(** A timer that fires leaves the list first. *)
Lemma nlu_fire_other tm c :
  tm ∈ c_timers c -> tm_cb tm <> CbTrailing -> no_lost_update c ->
  no_lost_update (clearTimer (tm_id tm) c).
Proof.
  intros Hin Hcb H. apply (nlu_keep c); try done. apply timers_ok_clear; [apply H|].
  intros tm' Hin' Eid. by rewrite (to_unique _ (proj1 H) tm' tm Hin' Hin Eid).
Qed.

Lemma nlu_fire_trailing t c :
  timers_ok c -> no_lost_update (on_trailing (clearTimer t c)).
Proof.
  intros [F R T U]. unfold on_trailing.
  assert (Hin : forall tm, tm ∈ c_timers (clearTimer t c) -> tm ∈ c_timers c).
  { intros tm. simpl. rewrite !list_elem_of_In, filter_In. by intros []. }
  assert (H1 : timers_ok ((clearTimer t c) <| c_trailing := None |>)).
  { split.
    - intros tm Hm. by apply F, Hin.
    - intros o r t' Hr Ht. destruct (R o r t' Hr Ht) as [Hlt Hcb]. split; [done|].
      intros tm Hm. by apply Hcb, Hin.
    - done.
    - intros tm tm' A B. apply U; by apply Hin. }
  split; [by apply tk_flush|]. intros _ Hne. exfalso. apply Hne, flush_heap.
Qed.

Lemma announced_fire tm s :
  tm ∈ c_timers (s_core s) -> announced s ->
  announced (run_timer (tm_cb tm) (on_core (clearTimer (tm_id tm)) s)).
Proof.
  intros Hin H. destruct (tm_cb tm) eqn:Ecb; cbn [run_timer].
  { by apply nlu_fire_trailing, H. }
  all: assert (H1 : announced (on_core (clearTimer (tm_id tm)) s))
    by (apply nlu_fire_other; [done | by rewrite Ecb | done]);
    set (s1 := on_core (clearTimer (tm_id tm)) s) in *; clearbody s1.
  - assert (H2 : no_lost_update (updRt o (fun r => r <| rt_showTimer := None |>) (s_core s1)))
      by (apply (nlu_core_fn (updRt o _)); [by auto with stb | done]).
    unfold announced, on_show. cbn [on_core s_core set_field]. cbv zeta.
    destruct (_ && _); [|done]. apply emit_no_lost_update, tk_touch, tk_updOp. apply H2.
  - assert (H2 : no_lost_update (updRt o (fun r => r <| rt_invTimer := None |>) (s_core s1)))
      by (apply (nlu_core_fn (updRt o _)); [by auto with stb | done]).
    by apply nlu_flushFolders.
  - unfold on_auto_clear. cbv zeta. set (s2 := on_core (updRt o _) s1).
    assert (H2 : announced s2) by (apply (nlu_core_fn (updRt o _)); [by auto with stb | done]).
    destruct (_ && _); [|done]. apply nlu_removeOp. by apply (stb_forget _ _ announced_job).
  - by apply (stb_on_poll_timer _ _ announced_job).
  - by apply (stb_on_job_retry _ _ announced_job).
Qed.

Lemma announced_clear id s : announced s -> announced (clearFailed id s).
Proof.
  intros H. unfold clearFailed. destruct (s_getOp s id) as [o|] eqn:Eo; [|done]. cbv zeta.
  apply getOp_in_dock in Eo. unfold announced, env_settle. cbn [on_core s_core set_field set_op].
  set (c := touch o None _).
  assert (T : timers_ok c) by (apply tk_touch, (tk_updOp o), H).
  unfold settle. rewrite bool_decide_eq_true_2 by exact Eo. cbv zeta. cbn [negb].
  apply emit_no_lost_update, tk_touch.
  repeat match goal with |- context [if ?x then _ else _] => destruct x end; auto 10 with timers.
Qed.

Lemma announced_world : world_stable false announced.
Proof.
  pose proof announced_stable as HS. pose proof announced_up as HU.
  pose proof announced_job as HJ. pose proof announced_req as HR.
  split; [done | done | done | ..].
  - intros o s _ H. by apply nlu_addOp.
  - intros o s H. by apply nlu_removeOp.
  - intros. by apply announced_clear.
  - intros. by apply announced_destroy.
  - intros d s H. apply (nlu_keep (s_core s)); try done.
    apply (timers_ok_ext (s_core s)); try done. apply H.
  - intros g s H. apply (nlu_keep (s_core s)); try done.
    apply (timers_ok_ext (s_core s)); try done. apply H.
  - intros. by apply announced_fire.
  - done.
  - intros t o i z b r s Hf H. apply announced_spawn, (nlu_settle o).
    by apply (stb_upload_ended _ _ HU).
  - intros t s Hf H. apply (general_pool_release false _ HS); try done; intros; by apply announced_spawn.
  - intros t o i r s Hf H. apply (general_on_submit false _ HS); try done; intros; by apply announced_spawn.
  - intros t o i ctl e s Hf H. apply (general_on_run false _ HS); try done; intros; by apply announced_spawn.
Qed.

(** ** A new store *)

Lemma tk_create tag now st l b : announced (createFileOpsStore tag now st l b).
Proof.
  unfold createFileOpsStore. cbv zeta.
  pose (I s := timers_ok (s_core s)).
  assert (Hpush : forall o n f c, timers_ok c -> timers_ok (pushItem o (makeItem n f c).1 (makeItem n f c).2)).
  { intros o n f c H. apply tk_updOp, (timers_ok_ext c); simpl; try done. lia. }
  assert (Hmk : forall k d dd f c, timers_ok c -> timers_ok (makeOp k d dd f c).2).
  { intros. apply (timers_ok_ext c); simpl; try done. lia. }
  set (s1 := on_core _ (st0 tag now st)).
  assert (H1 : I s1).
  { unfold s1, I. cbn [on_core s_core set_field]. apply tk_foldl.
    - intros c raw H. unfold add_initial. rewrite (surjective_pairing (makeOp _ _ _ _ _)). cbv zeta.
      apply tk_touch. match goal with |- timers_ok (?c' <| c_ops ::= _ |>) =>
        apply (timers_ok_ext c'); try done end.
      apply tk_foldl; [|by apply Hmk]. intros c' it H'.
      rewrite (surjective_pairing (makeItem _ _ _)). by apply Hpush.
    - split; simpl; try done; try set_solver. }
  assert (H2 : I (match st with Some _ => if b then restore s1 else s1 | None => s1 end)).
  { destruct st as [jobs|]; [|done]. destruct b; [|done]. unfold restore. cbv zeta.
    assert (Hp : forall s, I s -> I (schedulePoll s)).
    { intros s H. unfold schedulePoll, I. destruct (j_pollTimer _); [done|].
      destruct (j_accepted _); [done|]. destruct (j_stopped _); [done|].
      rewrite (surjective_pairing (setTimer _ _ _)). by apply timers_ok_set. }
    apply Hp, stb_foldl; [|done]. intros s2 g H2'. unfold restore_group.
    destruct (snd g) as [|first js] eqn:Eg; [done|].
    rewrite (surjective_pairing (makeOp _ _ _ _ _)). cbv zeta.
    apply (tk_addOp _ (s_core _)). apply (stb_foldl I); [|by apply Hmk].
    intros s3 j H3. unfold restore_item. rewrite (surjective_pairing (makeItem _ _ _)).
    by apply Hpush. }
  split; [by apply tk_flush|]. intros _ Hne. exfalso. apply Hne, flush_heap.
Qed.

(** ** The jobs a reload picks up

    The stored jobs are the accepted ones: saving and dropping undo each other, and a new store
    accepts again exactly the jobs that were stored. *)

Definition storable (j : stored_job) : bool := truthy (sj_jobId j) && truthy (sj_opId j).
Definition other_job (id : jstr) (j : stored_job) : bool := negb (bool_decide (sj_jobId j = id)).

Lemma saveJob_stored (j : stored_job) (s : St) :
  s_storage s <> None -> storable j = true ->
  readStoredJobs (s_storage (saveJob j s))
  = List.filter (other_job (sj_jobId j)) (readStoredJobs (s_storage s)) ++ [j].
Proof.
  intros Hs Hj. unfold saveJob, writeStoredJobs. destruct (s_storage s) as [l|]; [|done]. simpl.
  rewrite List.filter_app. f_equal; [|simpl; unfold storable in Hj; by rewrite Hj].
  fold storable. change (fun j0 => truthy (sj_jobId j0) && truthy (sj_opId j0)) with storable.
  rewrite (filter_comm storable). by rewrite filter_idem.
Qed.

Lemma dropJob_stored (id : jstr) (s : St) :
  readStoredJobs (s_storage (dropJob id s))
  = List.filter (other_job id) (readStoredJobs (s_storage s)).
Proof.
  unfold dropJob, writeStoredJobs. destruct (s_storage s) as [l|] eqn:E; [|by rewrite E]. simpl.
  change (fun j0 => truthy (sj_jobId j0) && truthy (sj_opId j0)) with storable.
  rewrite (filter_comm storable). by rewrite filter_idem.
Qed.

(** *** Restoring *)

Lemma map_set_keys {V} (k k' : jstr) (v : V) (m : list (jstr * V)) :
  k' ∈ map fst (map_set k v m) <-> k' = k \/ k' ∈ map fst m.
Proof.
  induction m as [|[k0 v0] m IH]; simpl; [set_solver|].
  case_bool_decide as E; simpl; rewrite !elem_of_cons; [subst; naive_solver|].
  rewrite IH. naive_solver.
Qed.

Definition group_get (k : jstr) (g : list (jstr * list stored_job)) : list stored_job :=
  default [] (snd <$> List.find (fun x => bool_decide (x.1 = k)) g).

Lemma map_set_group (k : jstr) (j x : stored_job) (g : list (jstr * list stored_job)) :
  x ∈ flat_map snd (map_set k (group_get k g ++ [j]) g) <-> x = j \/ x ∈ flat_map snd g.
Proof.
  unfold group_get. induction g as [|[k0 l0] g IH]; simpl; [set_solver|].
  case_bool_decide as E; simpl; rewrite !elem_of_app; [set_solver|].
  rewrite IH. naive_solver.
Qed.

Lemma group_jobs_all (jobs : list stored_job) (g : list (jstr * list stored_job)) (x : stored_job) :
  x ∈ flat_map snd (group_jobs jobs g) <-> x ∈ jobs \/ x ∈ flat_map snd g.
Proof.
  revert g. induction jobs as [|j jobs IH]; intros g; cbn [group_jobs]; [set_solver|].
  rewrite IH. change (default [] (snd <$> _)) with (group_get (sj_opId j) g).
  rewrite map_set_group, elem_of_cons. naive_solver.
Qed.

Definition accepted_ids (s : St) : list jstr := map fst (j_accepted (s_jb s)).

Lemma restore_items_ids o js s id :
  id ∈ accepted_ids (foldl (restore_item o) s js)
  <-> id ∈ map sj_jobId js \/ id ∈ accepted_ids s.
Proof.
  revert s. induction js as [|j js IH]; intros s; cbn [foldl]; [set_solver|].
  rewrite IH. unfold restore_item. rewrite (surjective_pairing (makeItem _ _ _)).
  unfold accepted_ids at 1. simpl. rewrite map_set_keys, elem_of_cons. unfold accepted_ids. naive_solver.
Qed.

Lemma restore_group_ids s js id :
  id ∈ accepted_ids (restore_group s js) <-> id ∈ map sj_jobId js \/ id ∈ accepted_ids s.
Proof.
  unfold restore_group. destruct js as [|first js]; [set_solver|].
  rewrite (surjective_pairing (makeOp _ _ _ _ _)). cbv zeta.
  set (c := (makeOp _ _ _ _ _).2). set (o := (makeOp _ _ _ _ _).1).
  change (id ∈ accepted_ids (foldl (restore_item o) (s <| s_core := c |>) (first :: js))
          <-> id ∈ map sj_jobId (first :: js) \/ id ∈ accepted_ids s).
  by rewrite restore_items_ids.
Qed.

Lemma restore_groups_ids gs s id :
  id ∈ accepted_ids (foldl (fun s (g : jstr * list stored_job) => restore_group s (snd g)) s gs)
  <-> id ∈ map sj_jobId (flat_map snd gs) \/ id ∈ accepted_ids s.
Proof.
  revert s. induction gs as [|g gs IH]; intros s; cbn [foldl flat_map]; [set_solver|].
  rewrite IH, restore_group_ids, map_app, elem_of_app. naive_solver.
Qed.

Lemma schedulePoll_ids s : accepted_ids (schedulePoll s) = accepted_ids s.
Proof. unfold schedulePoll. by repeat case_match. Qed.

Lemma restore_ids s id :
  id ∈ accepted_ids (restore s)
  <-> id ∈ map sj_jobId (readStoredJobs (s_storage s)) \/ id ∈ accepted_ids s.
Proof.
  unfold restore. cbv zeta. rewrite schedulePoll_ids, restore_groups_ids.
  assert (E : id ∈ map sj_jobId (flat_map snd (group_jobs (readStoredJobs (s_storage s)) []))
              <-> id ∈ map sj_jobId (readStoredJobs (s_storage s))).
  { rewrite !list_elem_of_In, !in_map_iff.
    split; intros (j & <- & Hj); exists j; (split; [done|]); apply list_elem_of_In;
      apply list_elem_of_In in Hj; [apply group_jobs_all in Hj as [Hj|Hj]; [done | by apply not_elem_of_nil in Hj]
                                   | apply group_jobs_all; by left]. }
  by rewrite E.
Qed.

Lemma schedulePoll_armed s :
  j_stopped (s_jb s) = false -> j_accepted (s_jb s) <> [] -> j_pollTimer (s_jb (schedulePoll s)) <> None.
Proof.
  intros Hs Ha. unfold schedulePoll. destruct (j_pollTimer (s_jb s)) eqn:E; [congruence|].
  destruct (j_accepted (s_jb s)); [done|]. by rewrite Hs.
Qed.
