(* ===== verification/OpsCaution.v ===== *)
(** * File operations: nothing is overwritten unasked

    As long as nobody answers a question, no upload carries an answer to a name clash and no file
    is removed to make room: the server's refusal stays the last word. *)

From S2P Require Import Prelude JsString Paths OpsTypes OpsErrors OpsStore OpsFrame OpsState.
From S2P Require Import OpsUploads OpsJobs OpsRequests FileOps OpsStable.
From S2P Require Import OpsCalm OpsBatch.

(** No policy, no answered item, no overwriting request so far. *)
Record unanswered (c : Core) : Prop := {
  un_policy o : op_policy (opOf c o) = None;
  un_conflict i : it_conflict (itemOf c i) = None;
  un_log : Forall (fun e => cautious_eff e = true) (c_log c);
}.

Lemma un_same (c c' : Core) : core_same c c' -> unanswered c -> unanswered c'.
Proof.
  intros H [P C L]. split.
  - intros o. pose proof (core_same_op _ _ o H) as E. unfold op_fixed in E. specialize (P o).
    congruence.
  - intros i. by rewrite (core_same_item _ _ i H).
  - destruct (cs_log _ _ H) as (l & -> & Hl). apply Forall_app. split; [|done].
    eapply Forall_impl; [exact Hl|]. intros e He. by destruct e.
Qed.

Lemma un_touch_emit o i u c : unanswered c -> unanswered (emit u (touch o i c)).
Proof. apply un_same. etrans; [apply same_touch | apply same_emit]. Qed.

Lemma un_updOp o f c :
  (forall op, op_policy (f op) = op_policy op) -> unanswered c -> unanswered (updOp o f c).
Proof.
  intros Hf [P C L]. split; try done. intros o'. specialize (P o'). unfold opOf, updOp in *. simpl.
  rewrite lookup_total_alt in *. destruct (base.decide (o = o')) as [->|Hne].
  - rewrite lookup_alter_eq. destruct (c_opsH c !! o') eqn:E; simpl in *; [by rewrite Hf | done].
  - by rewrite lookup_alter_ne.
Qed.

Lemma un_updItem i f c : 
  (forall it, it_conflict it = None -> it_conflict (f it) = None) ->
  unanswered c -> unanswered (updItem i f c).
Proof.
  intros Hf [P C L]. split; try done. intros j. specialize (C j). unfold itemOf, updItem in *. simpl.
  rewrite lookup_total_alt in *. destruct (base.decide (i = j)) as [->|Hne].
  - rewrite lookup_alter_eq. destruct (c_itemsH c !! j) eqn:E; simpl in *; [by apply Hf | done].
  - by rewrite lookup_alter_ne.
Qed.

Lemma un_makeItem n f c :
  ok_item f -> unanswered c -> unanswered (makeItem n f c).2.
Proof.
  intros Hf [P C L]. split; try done. intros j. unfold makeItem, itemOf. simpl.
  destruct (base.decide (j = c_fresh c)) as [->|Hne].
  - rewrite lookup_total_insert_eq.
    match goal with |- it_conflict (f ?it) = None => destruct (Hf it) as [E|E]; by rewrite E end.
  - rewrite lookup_total_insert_ne by done. apply C.
Qed.

Lemma un_makeOp k d dd f c :
  (forall op, op_policy (f op) = op_policy op) -> unanswered c -> unanswered (makeOp k d dd f c).2.
Proof.
  intros Hf [P C L]. split; try done. intros j. unfold makeOp, opOf. simpl.
  destruct (base.decide (j = c_fresh c)) as [->|Hne].
  - rewrite lookup_total_insert_eq. by rewrite Hf.
  - rewrite lookup_total_insert_ne by done. apply P.
Qed.

Lemma cautious_patches (p : list item_patch) (it : Item) :
  forallb cautious_patch p = true -> it_conflict it = None -> it_conflict (apply_patch p it) = None.
Proof.
  unfold apply_patch. revert it. induction p as [|q p IH]; intros it; simpl; [done|].
  intros [Hq Hp]%andb_true_iff H. apply IH; [done|]. destruct q; simpl in *; try done.
  by destruct v.
Qed.

Lemma un_core_fn f c : core_fn true f -> unanswered c -> unanswered (f c).
Proof.
  intros Hf H. destruct Hf as
    [o i p u Hp | o f Hf | o | o t | e He | o f | ks | o i | o i | o i | i f Hf | o f Hf | o f Hf
     | | n f Hf | k d dd f Hf | cb ms Hcb].
  - unfold patchItem'. apply un_touch_emit, un_updItem; [|done]. intros it. apply cautious_patches.
    by apply Hp.
  - unfold patchOp. apply un_touch_emit, un_updOp; [|done]. intros op. by apply Hf.
  - eapply un_same; [apply same_settle | done].
  - eapply un_same; [apply same_notify | done].
  - destruct H as [P C L]. split; try done. constructor; [by apply He | done].
  - eapply un_same; [apply same_noteFolder | done].
  - eapply un_same; [apply same_invalidate | done].
  - unfold addItem, pushItem. by apply un_touch_emit, un_updOp.
  - by apply un_updOp.
  - unfold removeItem. destruct (list_find _ _) as [[k ?]|]; [|done]. by apply un_touch_emit, un_updOp.
  - apply un_updItem; [|done]. intros it E. destruct (Hf it) as [->|]; done.
  - apply un_updOp; [|done]. intros op. by apply Hf.
  - eapply un_same; [apply same_updRt | done].
  - by destruct H.
  - by apply un_makeItem.
  - apply un_makeOp; [|done]. by apply Hf.
  - eapply un_same; [apply same_setTimer | done].
Qed.

Definition cautious (s : St) : Prop := unanswered (s_core s).

Lemma cautious_spawn k s : cautious s -> cautious (spawn k s).
Proof. apply (un_core_fn (fun c => c <| c_fresh ::= Pos.succ |>)). constructor. Qed.
Lemma cautious_stable : stable true cautious.
Proof.
  split; try done.
  - intros f s Hf. by apply un_core_fn.
  - intros k s _. apply cautious_spawn.
Qed.
Lemma cautious_policy o s : cautious s -> op_policy (s_op s o) = None.
Proof. intros H. apply (un_policy _ H). Qed.
Lemma cautious_conflict i s : cautious s -> it_conflict (s_item s i) = None.
Proof. intros H. apply (un_conflict _ H). Qed.

Lemma cautious_up : up_stable true cautious.
Proof.
  apply general_up_stable; try done; try apply cautious_stable; intros;
    by apply cautious_policy || apply cautious_conflict || apply cautious_spawn.
Qed.
Lemma cautious_job : job_stable true cautious.
Proof.
  apply general_job_stable; try done; try apply cautious_stable; intros;
    by apply cautious_policy || apply cautious_conflict || apply cautious_spawn.
Qed.
Lemma cautious_req : req_stable true cautious.
Proof. apply general_req_stable; try done; [apply cautious_stable|]. intros. by apply cautious_spawn. Qed.

Lemma same_addOp_un o c : unanswered c -> unanswered (addOp o c).
Proof.
  intros H. unfold addOp. cbv zeta. apply un_touch_emit.
  assert (H1 : unanswered (c <| c_ops ::= (fun l => l ++ [o]) |>)) by (by destruct H).
  destruct (_ || _); [by apply un_updOp|]. by destruct H1.
Qed.

Lemma removeOp_un o c : unanswered c -> unanswered (removeOp o c).
Proof.
  intros H. unfold removeOp. destruct (list_find _ _) as [[k ?]|]; [|done]. cbv zeta.
  eapply un_same; [apply same_emit|].
  set (c1 := clearOpt _ (clearOpt _ (clearOpt _ c))).
  assert (H1 : unanswered c1).
  { eapply un_same; [|exact H]. unfold c1. do 2 (etrans; [|apply same_clearOpt]).
    apply same_clearOpt. }
  by destruct H1.
Qed.

Lemma cautious_destroy s : cautious s -> cautious (destroy s).
Proof.
  intros H. unfold destroy. cbv zeta.
  assert (Hc : forall t s, cautious s -> cautious (on_core (clearOpt t) s))
    by (intros t s1; apply un_same, same_clearOpt).
  match goal with |- cautious (on_core _ ?s1) => assert (H1 : cautious s1) end.
  { apply stb_foldl; [intros s1 o H1; cbv zeta; by apply Hc, Hc, Hc|].
    apply (Hc (c_trailing _)). unfold job_stop. apply Hc, Hc. by destruct H. }
  by destruct H1.
Qed.

Lemma cautious_fire tm s :
  cautious s -> cautious (run_timer (tm_cb tm) (on_core (clearTimer (tm_id tm)) s)).
Proof.
  intros H. assert (H1 : cautious (on_core (clearTimer (tm_id tm)) s))
    by (eapply un_same; [apply same_clearTimer | done]).
  set (s1 := on_core _ s) in *. clearbody s1. destruct (tm_cb tm); cbn [run_timer].
  - unfold cautious. cbn [on_core s_core set_field]. unfold on_trailing.
    eapply un_same; [apply same_flush|]. by destruct H1.
  - unfold cautious. cbn [on_core s_core set_field]. unfold on_show. cbv zeta.
    assert (H2 : unanswered (updRt o (fun r => r <| rt_showTimer := None |>) (s_core s1)))
      by (eapply un_same; [apply same_updRt | done]).
    destruct (_ && _); [|done]. by apply un_touch_emit, un_updOp.
  - eapply un_same; [|exact H1]. unfold on_invalidate. etrans; [apply same_updRt|].
    apply same_flushFolders.
  - unfold on_auto_clear. cbv zeta. set (s2 := on_core (updRt o _) s1).
    assert (H2 : cautious s2) by (eapply un_same; [apply same_updRt | done]).
    destruct (_ && _); [|done]. apply removeOp_un. by apply (stb_forget _ _ cautious_job).
  - by apply (stb_on_poll_timer _ _ cautious_job).
  - by apply (stb_on_job_retry _ _ cautious_job).
Qed.

Lemma cautious_world : world_stable true cautious.
Proof.
  pose proof cautious_stable as HS. pose proof cautious_up as HU.
  pose proof cautious_job as HJ. pose proof cautious_req as HR.
  split; [done | done | done | ..].
  - intros o s _ H. by apply same_addOp_un.
  - intros o s H. by apply removeOp_un.
  - intros id s H. unfold clearFailed. destruct (s_getOp s id); [|done]. cbv zeta.
    apply (stb_settle _ _ HS). eapply un_same; [apply same_touch|]. by apply un_updOp.
  - intros. by apply cautious_destroy.
  - intros d s H. by destruct H.
  - intros g s H. by destruct H.
  - intros. by apply cautious_fire.
  - done.
  - intros t o i z b r s Hf H. apply cautious_spawn, (stb_settle _ _ HS).
    by apply (stb_upload_ended _ _ HU).
  - intros t s Hf H. apply (general_pool_release true _ HS); try done; intros;
      by apply cautious_policy || apply cautious_conflict || apply cautious_spawn.
  - intros t o i r s Hf H. apply (general_on_submit true _ HS); try done; intros;
      by apply cautious_policy || apply cautious_conflict || apply cautious_spawn.
  - intros t o i ctl e s Hf H. apply (general_on_run true _ HS); try done; intros; by apply cautious_spawn.
Qed.

Lemma cautious_create tag now st b : cautious (createFileOpsStore tag now st [] b).
Proof.
  unfold createFileOpsStore. cbv zeta. eapply un_same; [apply same_flush|].
  assert (H0 : cautious (st0 tag now st)).
  { split; [| |constructor]; intros o; unfold opOf, itemOf; simpl;
      by rewrite lookup_total_empty. }
  set (s1 := on_core _ (st0 tag now st)). assert (H1 : cautious s1) by exact H0. clearbody s1.
  destruct st as [jobs|]; [|done]. destruct b; [|done]. unfold restore. cbv zeta.
  apply (stb_schedulePoll _ _ cautious_job), stb_foldl; [|done]. intros s2 g H2.
  unfold restore_group. destruct (snd g) as [|first js] eqn:Eg; [done|].
  rewrite (surjective_pairing (makeOp _ _ _ _ _)). cbv zeta. apply same_addOp_un.
  apply (stb_foldl cautious); [|by apply un_makeOp].
  intros s3 j H3. unfold restore_item. rewrite (surjective_pairing (makeItem _ _ _)).
  apply un_updOp; [done|]. apply un_makeItem; [|done]. intros it. by left.
Qed.

(** The states reached without an answer. *)
Inductive unasked (s0 : St) : St -> Prop :=
  | unasked_start : unasked s0 s0
  | unasked_step e s s' : unasked s0 s -> answers e = false -> step e s = Some s' -> unasked s0 s'.

Lemma unasked_cautious s0 s : cautious s0 -> unasked s0 s -> cautious s.
Proof.
  intros H0 Hr. induction Hr as [|e s s' Hr IH Ha E]; [done|].
  by apply (stb_event true cautious cautious_world e s).
Qed.

(** ** Cancelling an upload

    [cancel] on an upload stops its walk and every item that has not ended. *)

(** What stopping does to an item's state. *)
Definition stopped_state (it : Item) : item_state :=
  match it_state it with
  | IUploading | IFinishing | IQueued | INeedsDecision => ICancelled
  | IRunning => if it_isDir it then ICancelled else IRunning
  | st => st
  end.

Lemma stopped_again (it it' : Item) :
  it_state it' = stopped_state it -> it_isDir it' = it_isDir it -> stopped_state it' = stopped_state it.
Proof.
  unfold stopped_state. intros -> ->. destruct (it_state it); try done. by destruct (it_isDir it).
Qed.

(** A step that writes item [i] of operation [o] and nothing else of the items and the list. *)
Record only (o : oref) (i : iref) (s s' : St) : Prop := {
  on_other j : j <> i -> c_itemsH (s_core s') !! j = c_itemsH (s_core s) !! j;
  on_item it : c_itemsH (s_core s) !! i = Some it ->
    exists it', c_itemsH (s_core s') !! i = Some it' /\ it_isDir it' = it_isDir it;
  on_items : op_items (s_op s' o) = op_items (s_op s o);
  on_walking : op_walking (s_op s' o) = op_walking (s_op s o);
}.

#[export] Instance only_pre o i : PreOrder (only o i).
Proof.
  split; [intros s; split; eauto|].
  intros s1 s2 s3 [O1 I1 L1 W1] [O2 I2 L2 W2]. split; [| | congruence | congruence].
  - intros j Hj. by rewrite O2, O1.
  - intros it Hit. destruct (I1 it Hit) as (it1 & H1 & E1). destruct (I2 it1 H1) as (it2 & H2 & E2).
    exists it2. split; [done | congruence].
Qed.

Lemma patch_only o i p s : only o i s (env_patchItem o i p s).
Proof.
  destruct (patch_items o i p s) as [E1 E2]. split; [| | done |].
  - intros j Hj. by rewrite E2, lookup_alter_ne.
  - intros it Hit. exists (apply_patch p it). rewrite E2, lookup_alter_eq, Hit.
    split; [done | apply apply_patch_fixed].
  - assert (Hs : core_same (updItem i (apply_patch p) (s_core s)) (s_core (env_patchItem o i p s)))
      by (etrans; [apply same_touch | apply same_emit]).
    pose proof (core_same_op _ _ o Hs) as E. unfold op_fixed in E.
    change (op_walking (opOf (s_core (env_patchItem o i p s)) o)
            = op_walking (opOf (updItem i (apply_patch p) (s_core s)) o)). congruence.
Qed.

Lemma patch_state_of o i p s it st :
  c_itemsH (s_core s) !! i = Some it -> patch_state p = Some st ->
  exists it', c_itemsH (s_core (env_patchItem o i p s)) !! i = Some it' /\ it_state it' = st.
Proof.
  intros Hit Hp. destruct (patch_items o i p s) as [_ E]. exists (apply_patch p it).
  rewrite E, lookup_alter_eq, Hit. split; [done|]. by rewrite apply_patch_state, Hp.
Qed.

Lemma endSession_only o i s : only o i s (endSession o i s).
Proof.
  unfold endSession. cbv zeta. set (s1 := match it_uploadId _ with Some _ => _ | None => s end).
  assert (E : c_itemsH (s_core s1) = c_itemsH (s_core s) /\ s_op s1 o = s_op s o)
    by (unfold s1; repeat case_match; done).
  destruct E as [E1 E2]. split.
  - intros j Hj. simpl. by rewrite lookup_alter_ne, E1.
  - intros it Hit. simpl. rewrite lookup_alter_eq, E1, Hit. by eexists.
  - change (op_items (s_op s1 o) = op_items (s_op s o)). by rewrite E2.
  - change (op_walking (s_op s1 o) = op_walking (s_op s o)). by rewrite E2.
Qed.

Lemma endSession_state o i s it :
  c_itemsH (s_core s) !! i = Some it ->
  exists it', c_itemsH (s_core (endSession o i s)) !! i = Some it' /\ it_state it' = it_state it.
Proof.
  intros Hit. unfold endSession. cbv zeta.
  set (s1 := match it_uploadId _ with Some _ => _ | None => s end).
  assert (E1 : c_itemsH (s_core s1) = c_itemsH (s_core s)) by (unfold s1; repeat case_match; done).
  simpl. rewrite lookup_alter_eq, E1, Hit. by eexists.
Qed.

Lemma s_item_lookup s i it : c_itemsH (s_core s) !! i = Some it -> s_item s i = it.
Proof. intros H. unfold s_item, itemOf. by rewrite lookup_total_alt, H. Qed.

Lemma up_stop_only o i s : only o i s (up_stop o i s).
Proof.
  unfold up_stop. cbv zeta.
  assert (Ha : forall p, only o i s (match it_abort (s_item (env_patchItem o i p s) i) with
                                     | Some ctl => abort ctl (env_patchItem o i p s)
                                     | None => env_patchItem o i p s end)).
  { intros p. etrans; [apply (patch_only o i p)|]. destruct (it_abort _); [|done]. by split; eauto. }
  destruct (it_state _); [apply patch_only | apply Ha | apply Ha | done | | done | done | | | done].
  - destruct (it_isDir _); [apply patch_only | done].
  - etrans; [apply endSession_only | apply patch_only].
  - apply endSession_only.
Qed.

Lemma up_stop_state o i s it :
  c_itemsH (s_core s) !! i = Some it ->
  exists it', c_itemsH (s_core (up_stop o i s)) !! i = Some it' /\ it_state it' = stopped_state it.
Proof.
  intros Hit. unfold up_stop, stopped_state. cbv zeta. rewrite (s_item_lookup s i it Hit).
  assert (Hc : forall p, patch_state p = Some ICancelled ->
     exists it', c_itemsH (s_core (env_patchItem o i p s)) !! i = Some it' /\ it_state it' = ICancelled)
    by (intros p; by apply (patch_state_of o i p s it)).
  assert (Ha : forall p, patch_state p = Some ICancelled ->
     exists it', c_itemsH (s_core (match it_abort (s_item (env_patchItem o i p s) i) with
                                   | Some ctl => abort ctl (env_patchItem o i p s)
                                   | None => env_patchItem o i p s end)) !! i = Some it'
       /\ it_state it' = ICancelled).
  { intros p Hp. destruct (Hc p Hp) as (it' & H1 & H2). exists it'. split; [|done].
    by destruct (it_abort _). }
  destruct (it_state it) eqn:Est;
    [by apply Hc | by apply Ha | by apply Ha | by exists it | | by exists it | by exists it | | | by exists it].
  - destruct (it_isDir it); [by apply Hc | by exists it].
  - destruct (endSession_state o i s it Hit) as (it1 & H1 & _). by apply (patch_state_of _ _ _ _ it1).
  - rewrite <- Est. by apply endSession_state.
Qed.

(** Stopping every item of a list. *)
Lemma stop_all o l s :
  (forall i, i ∈ l -> is_Some (c_itemsH (s_core s) !! i)) ->
  let s' := foldl (fun s i => up_stop o i s) s l in
  op_items (s_op s' o) = op_items (s_op s o) /\ op_walking (s_op s' o) = op_walking (s_op s o)
  /\ forall i it, c_itemsH (s_core s) !! i = Some it ->
       exists it', c_itemsH (s_core s') !! i = Some it' /\ it_isDir it' = it_isDir it
         /\ it_state it' = if base.decide (i ∈ l) then stopped_state it else it_state it.
Proof.
  revert s. induction l as [|x l IH]; intros s Hl; cbn [foldl].
  { split_and!; try done. intros i it Hit. by exists it. }
  pose proof (up_stop_only o x s) as Ho.
  assert (Hx : is_Some (c_itemsH (s_core s) !! x)) by (apply Hl; by left).
  destruct (IH (up_stop o x s)) as (E1 & E2 & E3).
  { intros i Hi. destruct (base.decide (i = x)) as [->|Hne].
    - destruct Hx as [it Hit]. destruct (on_item _ _ _ _ Ho it Hit) as (it' & H & _). by eexists.
    - rewrite (on_other _ _ _ _ Ho) by done. apply Hl. by right. }
  rewrite E1, E2, (on_items _ _ _ _ Ho), (on_walking _ _ _ _ Ho). split_and!; try done.
  intros i it Hit. destruct (base.decide (i = x)) as [->|Hne].
  - destruct (on_item _ _ _ _ Ho it Hit) as (it1 & H1 & Hd).
    destruct (up_stop_state o x s it Hit) as (it1' & H1' & Hs). simplify_eq.
    destruct (E3 x it1 H1) as (it2 & H2 & Hd2 & Hs2). exists it2. split; [done|].
    split; [congruence|]. rewrite Hs2, (decide_True (P := x ∈ x :: l)) by (by left).
    case_decide; [by apply stopped_again | done].
  - destruct (E3 i it) as (it2 & H2 & Hd2 & Hs2); [by rewrite (on_other _ _ _ _ Ho)|].
    exists it2. split; [done|]. split; [done|]. rewrite Hs2. case_decide; case_decide; try done; set_solver.
Qed.

Lemma settle_item o s i : s_item (env_settle o s) i = s_item s i.
Proof. apply core_same_item, same_settle. Qed.

(** [cancel] on a whole upload. *)
Lemma cancel_upload (opId : jstr) (o : oref) (s : St) :
  s_getOp s opId = Some o -> runnerFor (s_op s o) = RunUploads ->
  is_Some (c_opsH (s_core s) !! o) ->
  (forall i, i ∈ op_items (s_op s o) -> is_Some (c_itemsH (s_core s) !! i)) ->
  let s' := cancel opId [] s in
  op_walking (s_op s' o) = false
  /\ op_items (s_op s' o) = op_items (s_op s o)
  /\ forall i, i ∈ op_items (s_op s o) -> it_state (s_item s' i) = stopped_state (s_item s i).
Proof.
  intros Hg Hr Hop Hit s'. unfold s', cancel. rewrite Hg. cbn [truthy negb].
  set (s1 := set_op o (fun op => op <| op_cancelled := true |>) s).
  assert (Hup : forall f s0, is_Some (c_opsH (s_core s0) !! o) -> s_op (set_op o f s0) o = f (s_op s0 o)).
  { intros f s0 [op E]. unfold s_op, opOf, set_op, on_core, updOp. simpl.
    by rewrite !lookup_total_alt, lookup_alter_eq, E. }
  assert (E1 : s_op s1 o = (s_op s o) <| op_cancelled := true |>) by (by apply Hup).
  unfold runner_cancel. replace (runnerFor (s_op s1 o)) with RunUploads by (rewrite E1; done).
  unfold up_cancel. cbv zeta.
  set (s2 := match rt_walkAbort _ with Some ctl => abort ctl s1 | None => s1 end).
  assert (E2 : s_op s2 o = s_op s1 o /\ c_itemsH (s_core s2) = c_itemsH (s_core s)
               /\ is_Some (c_opsH (s_core s2) !! o)).
  { assert (Hs1 : is_Some (c_opsH (s_core s1) !! o))
      by (unfold s1; simpl; by rewrite lookup_alter_is_Some).
    unfold s2. by destruct (rt_walkAbort _). }
  destruct E2 as (E2 & Ei & Hop2).
  set (s3 := set_op o (fun op => op <| op_walking := false |>) s2).
  assert (E3 : s_op s3 o = (s_op s2 o) <| op_walking := false |>) by (by apply Hup).
  assert (Ei3 : c_itemsH (s_core s3) = c_itemsH (s_core s)) by exact Ei.
  assert (Eitems : op_items (s_op s3 o) = op_items (s_op s o)) by (by rewrite E3, E2, E1).
  rewrite Eitems.
  destruct (stop_all o (op_items (s_op s o)) s3) as (H1 & H2 & H3).
  { intros i Hi. rewrite Ei3. by apply Hit. }
  set (s4 := foldl _ s3 _) in *.
  pose proof (core_same_op _ _ o (same_settle o (s_core s4))) as Ef. unfold op_fixed in Ef.
  change (settle o (s_core s4)) with (s_core (env_settle o s4)) in Ef.
  split_and!.
  - assert (Ew : op_walking (s_op (env_settle o s4) o) = op_walking (s_op s4 o)) by (unfold s_op; congruence).
    rewrite Ew, H2, E3. done.
  - assert (Ew : op_items (s_op (env_settle o s4) o) = op_items (s_op s4 o)) by (unfold s_op; congruence).
    rewrite Ew, H1, Eitems. done.
  - intros i Hi. rewrite settle_item. destruct (Hit i Hi) as [it Hi'].
    destruct (H3 i it) as (it' & H4 & _ & H5); [by rewrite Ei3|].
    rewrite (s_item_lookup s4 i it' H4), (s_item_lookup s i it Hi'), H5. by rewrite decide_True.
Qed.
