(* ===== verification/OpsTheorems.v ===== *)
(** * File operations: the theorems

    What the store, the runners and their interleaving guarantee, each with a concrete run. *)

From S2P Require Import Prelude JsString Paths OpsTypes OpsErrors OpsCopy OpsStore OpsFrame.
From S2P Require Import OpsStoreFacts OpsState OpsUploads OpsJobs OpsRequests FileOps.
From S2P Require Import OpsStable OpsCalm OpsPool OpsBatch OpsEmit OpsCaution.

(** ** Concrete runs *)

Definition empty_store : St := createFileOpsStore (js "k3x9") 1000 (Some []) [] true.

(** The state after a run; [s] itself when the run is impossible. *)
Definition after (es : list event) (s : St) : St := default s (run es s).

Definition four_files : upload_input :=
  {| ui_source := driveSource; ui_driveId := js "d1"; ui_destFolder := js "Photos";
     ui_destLabel := None; ui_dropped := None;
     ui_files := Some (map (fun n => {| f_name := n; f_rel := []; f_size := 10 |})
                         [js "a.jpg"; js "b.jpg"; js "c.jpg"; js "d.jpg"]);
     ui_gallery := false; ui_invalidateKeys := []; ui_afterFinish := false |}.

(** Four files dropped into a folder that holds [b.jpg]; three names are free. *)
Definition upload_run : list event :=
  [EvDo (AStartUpload four_files);
   EvSettle 5%positive (RNames (Some [(js "b.jpg", EFile)]));
   EvSettle 6%positive RReady; EvSettle 9%positive RReady; EvSettle 12%positive RReady;
   EvSettle 15%positive RReady].

Definition copies (n : nat) (fromDrive : jstr) : jobs_input :=
  {| ji_move := false; ji_fromDrive := fromDrive;
     ji_items := map (fun k => (js "A/file" ++ js_of_Z (Z.of_nat k), [])) (seq 0 n);
     ji_toDrive := js "d2"; ji_toPath := js "B"; ji_toLabel := None; ji_source := driveSource |}.

Definition two_trash : request_input :=
  {| ri_kind := KTrash; ri_title := []; ri_destLabel := []; ri_source := driveSource;
     ri_driveId := js "d1"; ri_items := [js "a"; js "b"]; ri_hasRun := true; ri_toast := None;
     ri_toastFn := None; ri_invalidateKeys := [] |}.

(** ** Work in flight *)

(** C1: the upload pool.  In every state the store can reach from its creation (whatever was
    started, answered, cancelled, retried, and however the promises settled) the pool's counter is
    the number of uploads under way and of pool places about to be given back, it never exceeds
    three, and no upload waits in the queue while a place is free. *)
Theorem upload_pool (tag : jstr) (now : Z) (st : storage) (ops : list initial_op) (rj : bool) (s : St) :
  reachable (createFileOpsStore tag now st ops rj) s ->
  u_active (s_up s) = Z.of_nat (count_tasks is_pool s)
  /\ 0 <= u_active (s_up s) <= UPLOAD_PARALLEL
  /\ (u_active (s_up s) < UPLOAD_PARALLEL -> u_ready (s_up s) = []).
Proof.
  intros Hr. assert (H : pool 0 s).
  { apply (stb_reachable (pool 0) _ s pool_world) in Hr; [done|]. apply calm_create.
    - apply pool_calm.
    - intros f s1 _. apply pool_on_jb.
    - intros o s1 j H. apply restore_item_any; [apply pool_calm | apply pool_on_jb | done].
    - split; [split; [apply st0_tasks | done..] | done]. }
  destruct H as [[T C L] R]. split_and!; try done; lia.
Qed.

Lemma upload_pool_witness :
  exists s, reachable empty_store s /\ u_active (s_up s) = 3 /\ count_tasks is_pool s = 3%nat
    /\ (u_active (s_up s) < UPLOAD_PARALLEL -> u_ready (s_up s) = []).
Proof.
  exists (after upload_run empty_store).
  assert (Hr : reachable empty_store (after upload_run empty_store)).
  { apply (run_reachable empty_store empty_store _ upload_run); [constructor | vm_compute; reflexivity]. }
  split; [exact Hr|]. split; [vm_compute; reflexivity|]. split; [vm_compute; reflexivity|].
  apply (upload_pool (js "k3x9") 1000 (Some []) [] true _ Hr).
Defined.

(** C2: no marked update is lost.  An update of an item that goes through [patchItem] is either
    published in the very call or leaves its operation marked and the item's cached copy dropped.
    And in every reachable state that has not been destroyed, when some operation is marked, the
    trailing timer is armed, it is one of the timers the clock will fire, and it is due at most
    100 ms after the last emit; once it is due it can fire, whatever else the clock does, and then
    nothing is marked any more and the published state shows each marked operation as it is, with
    every item whose cached copy had been dropped.  (One write goes around all this, see
    [replace_requeue_is_unseen].) *)
Theorem no_update_lost (tag : jstr) (now : Z) (st : storage) (ops : list initial_op) (rj : bool) (s : St) :
  reachable (createFileOpsStore tag now st ops rj) s -> c_destroyed (s_core s) = false ->
  (forall o i p urgent, o ∈ c_ops (s_core s) ->
     let c' := patchItem' o i p urgent (s_core s) in
     (o ∈ c_dirty c' /\ c_itemSnaps c' !! i = None)
     \/ (c_dirty c' = [] /\ exists v, v ∈ c_state c' /\ ov_op v = opOf c' o
           /\ forall k, op_items (opOf c' o) !! k = Some i -> ov_items v !! k = Some (itemOf c' i)))
  /\ (c_dirty (s_core s) <> [] ->
      exists tm last, tm ∈ c_timers (s_core s) /\ tm_cb tm = CbTrailing
        /\ c_trailing (s_core s) = Some (tm_id tm)
        /\ c_lastEmit (s_core s) = Some last /\ tm_due tm <= last + EMIT_MS
        /\ forall ms, tm_due tm <= Z.of_N ms + c_now (s_core s) ->
           exists s', run [EvTick ms; EvFire (tm_id tm)] s = Some s' /\ c_dirty (s_core s') = []
             /\ forall o, o ∈ c_dirty (s_core s) -> o ∈ c_ops (s_core s) -> shows (s_core s) (s_core s') o).
Proof.
  intros Hr Hd. split; [intros; by apply patch_announced|]. intros Hne.
  apply (stb_reachable announced _ s announced_world) in Hr; [|apply tk_create].
  destruct Hr as [T D]. specialize (D Hd Hne).
  destruct (c_trailing (s_core s)) as [t|] eqn:Et; [|done].
  destruct (to_trailing _ T t Hd Et) as (tm & Hm & Hid & Hcb & last & Hl & Hdue).
  exists tm, last. split_and!; try done; [by rewrite Hid|]. intros ms Hms.
  assert (F : List.find (fun x => Pos.eqb (tm_id x) (tm_id tm)) (c_timers (s_core s)) = Some tm).
  { destruct (List.find _ _) as [x|] eqn:E.
    - apply List.find_some in E as [Hx ->%Pos.eqb_eq%(to_unique _ T)]; [done | by apply list_elem_of_In | done].
    - apply list_elem_of_In in Hm. pose proof (List.find_none _ _ E tm Hm) as Hx. cbv beta in Hx.
      by rewrite Pos.eqb_refl in Hx. }
  eexists. split; [|split; [|intros o Ho Hin]].
  - cbn [run step mbind option_bind on_core s_core set_field]. cbn. rewrite F. cbn.
    rewrite (proj2 (Z.leb_le _ _) Hms). cbn. rewrite Hcb. reflexivity.
  - cbn. apply flush_heap.
  - cbn. unfold on_trailing. match goal with |- context [flush ?c] => exact (flush_shows c o Ho Hin) end.
Qed.

(** A progress report within 100 ms of the emit that started the upload. *)
Definition progress_run : list event := upload_run ++ [EvTick 30; EvUploadProgress 17%positive 4].

Lemma no_update_lost_witness :
  exists s, reachable empty_store s /\ c_dirty (s_core s) = [1%positive]
    /\ exists tm last, tm ∈ c_timers (s_core s) /\ tm_cb tm = CbTrailing
         /\ c_trailing (s_core s) = Some (tm_id tm)
         /\ c_lastEmit (s_core s) = Some last /\ tm_due tm <= last + EMIT_MS
         /\ forall ms, tm_due tm <= Z.of_N ms + c_now (s_core s) ->
            exists s', run [EvTick ms; EvFire (tm_id tm)] s = Some s' /\ c_dirty (s_core s') = []
              /\ forall o, o ∈ c_dirty (s_core s) -> o ∈ c_ops (s_core s) -> shows (s_core s) (s_core s') o.
Proof.
  exists (after progress_run empty_store).
  assert (Hr : reachable empty_store (after progress_run empty_store)).
  { apply (run_reachable empty_store empty_store _ progress_run); [constructor | vm_compute; reflexivity]. }
  split; [exact Hr|]. split; [vm_compute; reflexivity|].
  apply (no_update_lost (js "k3x9") 1000 (Some []) [] true _ Hr);
    [vm_compute; reflexivity | vm_compute; discriminate].
Defined.

(** C3: nothing is overwritten unasked.  As long as nobody answers a question (no [decide], no
    [decideAll]), no upload is sent with an answer to a name clash and no file is removed to make
    room, in any state a new store can reach. *)
Theorem nothing_overwritten_unasked (tag : jstr) (now : Z) (st : storage) (rj : bool) (s : St) :
  unasked (createFileOpsStore tag now st [] rj) s ->
  forall e, e ∈ c_log (s_core s) ->
  match e with
  | EfUpload _ answer | EfCompleteUpload _ _ answer => answer = None
  | EfRemove _ _ => False
  | _ => True
  end.
Proof.
  intros Hr e He. apply unasked_cautious in Hr; [|apply cautious_create].
  pose proof (un_log _ Hr) as Hl. rewrite Forall_forall in Hl. specialize (Hl e He).
  destruct e; simpl in Hl; try done; by destruct onConflict.
Qed.

Lemma nothing_overwritten_unasked_witness :
  exists s, unasked empty_store s /\ EfUpload 2%positive None ∈ c_log (s_core s)
    /\ forall e, e ∈ c_log (s_core s) ->
       match e with
       | EfUpload _ answer | EfCompleteUpload _ _ answer => answer = None
       | EfRemove _ _ => False
       | _ => True
       end.
Proof.
  exists (after upload_run empty_store).
  assert (Hr : unasked empty_store (after upload_run empty_store)).
  { assert (Hx : forall es s, unasked empty_store s -> forallb (fun e => negb (answers e)) es = true ->
       forall s', run es s = Some s' -> unasked empty_store s').
    { induction es as [|e es IH]; intros s Hs Ha s' E; simpl in *; [by simplify_eq|].
      apply andb_true_iff in Ha as [Ha1 Ha2]. apply negb_true_iff in Ha1.
      destruct (step e s) as [s1|] eqn:Es; simpl in E; [|done].
      apply (IH s1); try done. by eapply unasked_step. }
    apply (Hx upload_run empty_store); [constructor | reflexivity | vm_compute; reflexivity]. }
  split; [exact Hr|]. split.
  - apply list_elem_of_In. vm_compute. tauto.
  - exact (nothing_overwritten_unasked (js "k3x9") 1000 (Some []) true _ Hr).
Defined.

(** C4: job slots.  The copies and moves this tab knows as running on Luna, with those being sent, are never more than
    four, or than the jobs a reload picked up when those were more; the counter of jobs on their way is the
    number of submissions waiting for an answer.  Jobs of operations that were dismissed are not counted by the tab:
    Luna may still run them. *)
Theorem job_slots (tag : jstr) (now : Z) (st : storage) (ops : list initial_op) (rj : bool) (s : St) :
  let s0 := createFileOpsStore tag now st ops rj in
  reachable s0 s ->
  j_inflight (s_jb s) = Z.of_nat (count_tasks is_submit s)
  /\ slotsUsed s <= Z.max JOB_PARALLEL (slotsUsed s0).
Proof.
  intros s0 Hr. set (m := Z.max JOB_PARALLEL (slotsUsed s0)).
  assert (Hm : JOB_PARALLEL <= m) by (unfold m; lia).
  assert (H0 : slots 0 m s0).
  { assert (Hc : tasks_ok s0 /\ j_inflight (s_jb s0) = 0 /\ count_tasks is_submit s0 = 0%nat).
    { pose (I s := tasks_ok s /\ j_inflight (s_jb s) = 0 /\ s_tasks s = []).
      assert (HI : I s0); [|by destruct HI as (T & Ei & Et); unfold count_tasks; rewrite Et].
      assert (HC : calm I) by (intros c s1 Hc (T & Ei & Et); split; [by apply tasks_ok_calm | done]).
      unfold s0. apply calm_create; [done | | |].
      - intros f s1 Hf ([N F] & Ei & Et). split; [by split|]. simpl.
        by rewrite (proj2 (Hf (s_jb s1))).
      - intros o s1 j H. unfold restore_item. rewrite (surjective_pairing (makeItem _ _ _)).
        match goal with |- context [pushItem ?a ?b ?c] =>
          destruct (HC (pushItem a b c) s1 (push_item_mono _ _ _ _) H) as ([N F] & Ei & Et) end.
        split; [by split | done].
      - split; [apply st0_tasks | done]. }
    destruct Hc as (T & Ei & Ec). split; [done | by rewrite Ei, Ec | unfold m; lia]. }
  apply (stb_reachable (slots 0 m) _ s (slots_world m Hm)) in Hr; [|done].
  destruct Hr as [T C L]. split; [lia | exact L].
Qed.

Definition five_copies : list event :=
  [EvDo (AStartJobs (copies 5 (js "d1")));
   EvSettle 7%positive (RSubmit (inl {| jr_id := js "j1"; jr_total := 9; jr_progress := 0;
                                        jr_state := js "running"; jr_error := [] |}))].

Lemma job_slots_witness :
  exists s, reachable empty_store s /\ length (j_queue (s_jb s)) = 1%nat
    /\ j_inflight (s_jb s) = 3 /\ slotsUsed s = 4
    /\ slotsUsed s <= Z.max JOB_PARALLEL (slotsUsed empty_store).
Proof.
  exists (after five_copies empty_store).
  assert (Hr : reachable empty_store (after five_copies empty_store)).
  { apply (run_reachable empty_store empty_store _ five_copies); [constructor | vm_compute; reflexivity]. }
  split; [exact Hr|]. do 3 (split; [vm_compute; reflexivity|]).
  apply (job_slots (js "k3x9") 1000 (Some []) [] true _ Hr).
Defined.

(** C5: a batch sends its requests one at a time.  In every reachable state no two requests under
    way belong to operations with the same id, and the runner's lock on an id is held exactly while
    a request of it is under way: a batch is neither run twice nor stuck. *)
Theorem batch_one_at_a_time (tag : jstr) (now : Z) (st : storage) (ops : list initial_op) (rj : bool)
    (s : St) :
  reachable (createFileOpsStore tag now st ops rj) s ->
  NoDup (running_ids s) /\ forall id, id ∈ q_driving (s_rq s) <-> id ∈ running_ids s.
Proof.
  intros Hr. assert (H : batch None s).
  { apply (stb_reachable (batch None) _ s batch_world) in Hr; [done|]. apply calm_create.
    - apply batch_calm.
    - intros f s1 _. apply batch_on_jb.
    - intros o s1 j H. apply restore_item_any; [apply batch_calm | apply batch_on_jb | done].
    - split; try done; [apply st0_tasks | set_solver | set_solver | constructor |].
      intros id. split; [intros H; by apply not_elem_of_nil in H|].
      intros [H|H]; [by apply not_elem_of_nil in H | done]. }
  destruct H as [T H O N D X]. split; [done|]. intros id. rewrite D. naive_solver.
Qed.

Lemma batch_one_at_a_time_witness :
  exists s, reachable empty_store s /\ map (s_state s) (op_items (s_op s 1%positive)) = [IRunning; IQueued]
    /\ length (running_ids s) = 1%nat
    /\ NoDup (running_ids s) /\ (forall id, id ∈ q_driving (s_rq s) <-> id ∈ running_ids s).
Proof.
  pose (es := [EvDo (AStartRequest two_trash)]). exists (after es empty_store).
  assert (Hr : reachable empty_store (after es empty_store)).
  { apply (run_reachable empty_store empty_store _ es); [constructor | vm_compute; reflexivity]. }
  split; [exact Hr|]. do 2 (split; [vm_compute; reflexivity|]).
  apply (batch_one_at_a_time (js "k3x9") 1000 (Some []) [] true _ Hr).
Defined.

(** ** One operation *)

(** [settle] derives the state of an operation from its items: running (or preparing, with no
    item yet) while something is walked or active, with the end time taken back; waiting while a
    question is open; otherwise cancelled, done, partial or failed, ended now unless it had ended
    before.  A problem, and a bad end, always show the card. *)
Theorem settle_derives (o : oref) (c : Core) :
  o ∈ c_ops c -> is_Some (c_opsH c !! o) ->
  (op_state_of (opOf (settle o c) o), op_endedAt (opOf (settle o c) o),
   op_shown (opOf (settle o c) o))
  = settled (c_now c) (itemsOf c o) (opOf c o)
  /\ itemsOf (settle o c) o = itemsOf c o.
Proof.
  intros Hin Hs. split; [by apply settle_spec|]. apply core_same_itemsOf, same_settle.
Qed.

Lemma settle_derives_witness :
  let c := s_core (after upload_run empty_store) in
  (op_state_of (opOf (settle 1%positive c) 1%positive),
   op_endedAt (opOf (settle 1%positive c) 1%positive),
   op_shown (opOf (settle 1%positive c) 1%positive)) = (ORunning, None, true).
Proof.
  intros c. assert (E : settled (c_now c) (itemsOf c 1%positive) (opOf c 1%positive)
                        = (ORunning, None, true)) by (vm_compute; reflexivity).
  assert (H1 : 1%positive ∈ c_ops c) by (apply list_elem_of_In; vm_compute; tauto).
  assert (H2 : is_Some (c_opsH c !! 1%positive)) by (vm_compute; by eexists).
  exact (eq_trans (proj1 (settle_derives 1%positive c H1 H2)) E).
Defined.

(** What a flush publishes.  When the caches hold nothing stale, the published state is exactly
    the live one, for every operation and item, nothing is left to announce, the counters of the
    changed operations are the totals of their items, and the caches stay fresh. *)
Theorem flush_publishes (c : Core) :
  snaps_ok c ->
  c_state (flush c) = map (view (flush c)) (c_ops (flush c))
  /\ c_dirty (flush c) = [] /\ c_trailing (flush c) = None
  /\ snaps_ok (flush c)
  /\ forall o, o ∈ c_dirty c ->
       opOf (flush c) o = with_totals (totals_of (itemsOf (flush c) o)) (opOf (flush c) o).
Proof.
  intros H. destruct (flush_spec c H) as (H1 & H2 & H3).
  destruct (flush_heap c) as (_ & _ & Hd & Ht & _).
  split_and!; try done. by rewrite (cs_ops _ _ (same_flush c)).
Qed.

Lemma flush_publishes_witness :
  exists c, c_dirty c = [1%positive] /\ c_state (flush c) = map (view (flush c)) (c_ops (flush c)).
Proof.
  pose (c := touch 1%positive None (let '(o, c) := makeOp KUpload (js "d1") None (fun op => op)
                   (core0 (js "k3x9") 1000) in c <| c_ops := [o] |>)).
  exists c. split; [vm_compute; reflexivity|]. apply (flush_publishes c).
  split; intros k v Hk; vm_compute in Hk; destruct k; discriminate Hk.
Defined.

(** The counters of a card.  With sizes, received bytes and folder counts that are not
    negative, the done counts stay within the totals and the total within the number of items; the
    totals count exactly the files that are neither skipped nor cancelled, and the done ones. *)
Theorem counters_bounded (items : list Item) :
  Forall sized items ->
  let t := totals_of items in
  0 <= tt_bytesDone t <= tt_bytesTotal t
  /\ tt_done t = Z.of_nat (done_count items)
  /\ tt_total t = Z.of_nat (length (List.filter counted items))
  /\ 0 <= tt_done t <= tt_total t /\ tt_total t <= Z.of_nat (length items) /\ 0 <= tt_folders t.
Proof.
  intros H t. assert (H0 : totals_ok 0 totals0) by (unfold totals_ok; simpl; lia).
  destruct (foldl_count_ok items 0 totals0 H H0) as (Hb & Hd & Ht & Hf).
  destruct (foldl_count_total items totals0) as [E1 E2].
  unfold t, totals_of. simpl in *. split_and!; lia.
Qed.

Lemma counters_bounded_witness :
  let items := [item0 <| it_size := 10 |> <| it_received := 4 |> <| it_state := IUploading |>;
                item0 <| it_size := 5 |> <| it_state := IDone |>;
                item0 <| it_size := 7 |> <| it_state := ISkipped |>] in
  tt_bytesDone (totals_of items) = 9 /\ tt_bytesTotal (totals_of items) = 15
  /\ tt_done (totals_of items) = Z.of_nat (done_count items).
Proof.
  intros items. split; [reflexivity|]. split; [reflexivity|].
  apply (counters_bounded items). repeat constructor; simpl; lia.
Defined.

(** Settling again announces nothing again.  After [settle], settling the same operation once
    more shows no toast, no buzz, runs no follow-up and refreshes no query: only the listeners are
    called. *)
Theorem settle_twice_quiet (o : oref) (c : Core) :
  o ∈ c_ops c -> is_Some (c_opsH c !! o) ->
  exists l, c_log (settle o (settle o c)) = l ++ c_log (settle o c) /\ Forall is_notify l.
Proof.
  intros Hin Hs. pose proof (same_settle o c) as Hsame.
  apply settle_again.
  - by rewrite (cs_ops _ _ Hsame).
  - pose proof (cs_opsH _ _ Hsame o) as E. destruct Hs as [op Eop]. rewrite Eop in E.
    destruct (c_opsH (settle o c) !! o); [by eexists | done].
  - rewrite (core_same_itemsOf _ _ o Hsame).
    assert (Ew : op_walking (opOf (settle o c) o) = op_walking (opOf c o))
      by (pose proof (core_same_op _ _ o Hsame) as E; unfold op_fixed in E; congruence).
    rewrite Ew. pose proof (settle_spec o c Hin Hs) as E. unfold settled in E.
    destruct (op_walking (opOf c o) || _); [by simplify_eq|].
    destruct (settle_decides _); [done|].
    destruct (op_endedAt (opOf c o)); injection E as _ E _; by rewrite E.
Qed.

(** A trash request that ends well, and its toast. *)
Definition trash_done : list event :=
  [EvDo (AStartRequest two_trash); EvSettle 6%positive (RVoid None); EvSettle 7%positive (RVoid None)].

Lemma settle_twice_quiet_witness :
  let c := s_core (after trash_done empty_store) in
  existsb (fun e => match e with EfToast _ => true | _ => false end) (c_log c) = true
  /\ exists l, c_log (settle 1%positive (settle 1%positive c)) = l ++ c_log (settle 1%positive c)
       /\ Forall is_notify l.
Proof.
  split; [vm_compute; reflexivity|]. apply settle_twice_quiet.
  - apply list_elem_of_In. vm_compute. tauto.
  - vm_compute. by eexists.
Defined.

(** Haptics.  A warning or an error buzzes at most once per operation in two seconds: right
    after [notify], whatever it did, another [notify] of the same type [ms] later buzzes only when
    the last buzz is at least 2000 ms old; and when the first one buzzed, exactly from 2000 ms on. *)
Theorem haptic_gap (o : oref) (t : haptic_type) (ms : Z) (c : Core) :
  0 <= ms ->
  let c1 := notify o t c in
  c_log c1 = (if buzzes o t c then [EfHaptic t] else []) ++ c_log c
  /\ (buzzes o t c = true ->
      c_log (notify o t (tick ms c1))
      = (if ms <? HAPTIC_GAP_MS then [] else [EfHaptic t]) ++ c_log c1).
Proof.
  intros Hms c1. split; [unfold c1; rewrite notify_log; by destruct (buzzes o t c)|].
  intros Hb. rewrite notify_log.
  assert (En : c_now c1 = c_now c) by apply (cs_now _ _ (same_notify o t c)).
  assert (Eh : hapticAt t (rtOf c1 o) = Some (c_now c)) by (unfold c1; by rewrite notify_hapticAt, Hb).
  unfold buzzes. change (rtOf (tick ms c1) o) with (rtOf c1 o). rewrite Eh.
  change (c_now (tick ms c1)) with (ms + c_now c1). rewrite En.
  destruct (Z.leb_spec HAPTIC_GAP_MS (ms + c_now c - c_now c)), (Z.ltb_spec ms HAPTIC_GAP_MS);
    try done; lia.
Qed.

Lemma haptic_gap_witness :
  let c := core0 (js "k3x9") 1000 in
  length (c_log (notify 1%positive HError (tick 1999 (notify 1%positive HError c)))) = 1%nat
  /\ c_log (notify 1%positive HError (tick 1999 (notify 1%positive HError c)))
     = c_log (notify 1%positive HError c).
Proof.
  split; [vm_compute; reflexivity|].
  destruct (haptic_gap 1%positive HError 1999 (core0 (js "k3x9") 1000)) as [_ H]; [lia|].
  exact (H eq_refl).
Defined.

(** The folders to refresh.  [noteFolder] climbs from the folder it is given to the folder of
    the operation, or to the root when that folder is not above; the climb always ends, and its
    folders join the ones already noted.  A flush then refreshes the listing of each of them and
    forgets them all. *)
Theorem noteFolder_refreshes (o : oref) (folder f : jstr) (c : Core) :
  let dest := op_destFolder (opOf c o) in
  let folders := climb (S (length folder)) dest folder in
  let c1 := noteFolder o folder c in
  (forall n, (length folder < n)%nat -> climb n dest folder = folders)
  /\ (exists l, last folders = Some l /\ (l = dest \/ l = []))
  /\ (f ∈ rt_touched (rtOf c1 o) <-> f ∈ folders \/ f ∈ rt_touched (rtOf c o))
  /\ rt_touched (rtOf (flushFolders o c1) o) = []
  /\ c_log (flushFolders o c1)
     = rev (map (fun g => EfInvalidate (fileListKey (op_source (opOf c1 o)) (op_driveId (opOf c1 o)) g))
              (rt_touched (rtOf c1 o))) ++ c_log c1.
Proof.
  intros dest folders c1. split_and!.
  - intros n Hn. apply climb_fuel; lia.
  - apply climb_last.
  - apply noteFolder_touched.
  - unfold flushFolders. rewrite foldl_log_eq. unfold rtOf at 1. simpl. by rewrite lookup_insert_eq.
  - unfold flushFolders. by rewrite foldl_log_eq.
Qed.

(** ** Answers and failures *)

(** What an error may ask.  When a failed request becomes a question about a taken name,
    "Replace" is among the answers exactly when a file is in the way and the item is not being
    copied onto itself; keeping both and skipping are always possible, such a failure is never
    offered for a retry, and it is neither an abort nor a full queue. *)
Theorem clash_answers (err : option js_err) (kind : op_kind) (ctx : classify_ctx)
    (k : entry_kind) (options : list choice) :
  cl_decision (classifyError err kind ctx) = Some (DExists k options) ->
  (Replace ∈ options <-> k = EFile /\ ctx_sameFolder ctx = false)
  /\ KeepBoth ∈ options /\ Skip ∈ options /\ (Confirm ∉ options)
  /\ cl_retryable (classifyError err kind ctx) = false
  /\ cl_aborted (classifyError err kind ctx) = false
  /\ cl_queueFull (classifyError err kind ctx) = false.
Proof.
  intros H.
  assert (Hd : exists k0, existsDecision k0 (ctx_sameFolder ctx) = DExists k options).
  { unfold classifyError in H. repeat case_match; simplify_eq/=; eauto. }
  destruct Hd as [k0 Hd].
  assert (Ek : k0 = k) by (unfold existsDecision in Hd; congruence). subst k0.
  pose proof (existsDecision_replace k (ctx_sameFolder ctx)) as H1.
  pose proof (existsDecision_skip k (ctx_sameFolder ctx)) as [H2 H3].
  rewrite Hd in *. simpl in *. split; [done|]. split; [done|]. split; [done|]. split.
  - unfold existsDecision in Hd. injection Hd as <-. destruct (_ && _); set_solver.
  - destruct (classifyError_cases err kind ctx) as [(_ & _ & E & _)|(Ha & _ & [(_ & E & _)|[E|(E & _)]])];
      try congruence. destruct E as (d & _ & Eq & Er). done.
Qed.

Definition exists_error (k : entry_kind) : js_err :=
  {| e_name := js "ApiError"; e_isApiError := true; e_status := Some 409;
     e_code := Some (js "exists"); e_message := js "That name is taken.";
     e_existing_kind := Some k; e_completeOnly := false; e_uploadId := None |}.

Lemma clash_answers_witness :
  cl_decision (classifyError (Some (exists_error EFile)) KCopy no_ctx)
    = Some (DExists EFile [Replace; KeepBoth; Skip])
  /\ (Replace ∈ [Replace; KeepBoth; Skip] <-> EFile = EFile /\ ctx_sameFolder no_ctx = false).
Proof.
  split; [vm_compute; reflexivity|].
  apply (clash_answers (Some (exists_error EFile)) KCopy no_ctx EFile [Replace; KeepBoth; Skip]).
  vm_compute. reflexivity.
Defined.

(** Cancelling an upload leaves nothing active.  After [cancel] on a whole upload or gallery
    operation the walk is over, the list of items is the same, and every item that was queued, on
    its way, or waiting for an answer is cancelled, and so is a folder being made; what had ended
    keeps its state. *)
Theorem cancel_stops_upload (opId : jstr) (o : oref) (s : St) :
  s_getOp s opId = Some o -> runnerFor (s_op s o) = RunUploads ->
  is_Some (c_opsH (s_core s) !! o) ->
  (forall i, i ∈ op_items (s_op s o) -> is_Some (c_itemsH (s_core s) !! i)) ->
  let s' := cancel opId [] s in
  op_walking (s_op s' o) = false
  /\ op_items (s_op s' o) = op_items (s_op s o)
  /\ forall i, i ∈ op_items (s_op s o) -> it_state (s_item s' i) = stopped_state (s_item s i).
Proof. apply cancel_upload. Qed.

Lemma cancel_stops_upload_witness :
  let s := after upload_run empty_store in
  let s' := cancel (js "op_k3x91") [] s in
  map (fun i => it_state (s_item s i)) [2; 7; 10]%positive = [IUploading; INeedsDecision; IUploading]
  /\ map (fun i => stopped_state (s_item s i)) [2; 7; 10]%positive = [ICancelled; ICancelled; ICancelled]
  /\ it_state (s_item s' 2%positive) = stopped_state (s_item s 2%positive).
Proof.
  intros s s'. split; [vm_compute; reflexivity|]. split; [vm_compute; reflexivity|].
  assert (E : op_items (s_op s 1%positive) = [2; 7; 10; 13]%positive) by (vm_compute; reflexivity).
  destruct (cancel_stops_upload (js "op_k3x91") 1%positive s) as (_ & _ & H).
  - vm_compute. reflexivity.
  - vm_compute. reflexivity.
  - vm_compute. by eexists.
  - intros i Hi. rewrite E in Hi. repeat (apply elem_of_cons in Hi as [->|Hi]; [vm_compute; by eexists|]).
    destruct (not_elem_of_nil _ Hi).
  - assert (Hin : 2%positive ∈ op_items (s_op s 1%positive)) by (rewrite E; by left).
    exact (H 2%positive Hin).
Defined.

(** ** The job queue *)

(** Luna accepts a job. *)
Definition accepted_reply (id : jstr) : reply :=
  RSubmit (inl {| jr_id := id; jr_total := 9; jr_progress := 0; jr_state := js "running"; jr_error := [] |}).

(** A copy meets a file of the same name; the person answers "Replace" and, while the file in the
    way is being moved to Trash, cancels the operation; then the removal succeeds. *)
Definition cancel_during_replace : list event :=
  [EvDo (AStartJobs (copies 1 (js "d1"))); EvSettle 3%positive (RSubmit (inr (exists_error EFile)));
   EvDo (ADecide (js "op_k3x91") (js "it_k3x92") Replace);
   EvDo (ACancel (js "op_k3x91") []);
   EvSettle 4%positive (RVoid None)].

Definition posted_jobs (s : St) : nat :=
  length (List.filter (fun e => match e with EfPostJob _ _ _ _ _ _ => true | _ => false end)
            (c_log (s_core s))).

(** A defect of [decide] in the job runner.  When the person cancels a copy while its "Replace"
    is moving the file in the way to Trash, the item, already cancelled, is queued again as soon as
    the removal succeeds and is sent to Luna a second time, in an operation that says it was
    cancelled: the continuation sets the state without looking at it. *)
Theorem cancelled_replace_is_resubmitted :
  exists before s,
    run (firstn 4 cancel_during_replace) empty_store = Some before
    /\ run cancel_during_replace empty_store = Some s
    /\ s_state before 2%positive = ICancelled /\ posted_jobs before = 1%nat
    /\ s_state s 2%positive = ISubmitting /\ posted_jobs s = 2%nat
    /\ op_cancelled (s_op s 1%positive) = true.
Proof.
  exists (after (firstn 4 cancel_during_replace) empty_store), (after cancel_during_replace empty_store).
  split_and!; vm_compute; reflexivity.
Qed.

(** A copy meets a file of the same name while three others are at Luna; a fifth takes the place it
    leaves; the person answers "Replace", and the removal succeeds. *)
Definition replace_while_full : list event :=
  [EvDo (AStartJobs (copies 5 (js "d1"))); EvSettle 7%positive (RSubmit (inr (exists_error EFile)));
   EvDo (ADecide (js "op_k3x91") (js "it_k3x92") Replace); EvSettle 12%positive (RVoid None)].

(** A defect of [decide] in the job runner.  When the file in the way is gone and no place is free,
    the copy goes back to the queue, but the continuation writes its state around [patchItem]: the
    published state still says it is being sent, no operation is marked and no timer is armed to
    publish the change. *)
Theorem replace_requeue_is_unseen :
  exists s v,
    run replace_while_full empty_store = Some s /\ s_state s 2%positive = IQueued
    /\ c_state (s_core s) = [v] /\ option_map it_state (head (ov_items v)) = Some ISubmitting
    /\ c_dirty (s_core s) = [] /\ c_timers (s_core s) = [].
Proof.
  exists (after replace_while_full empty_store).
  destruct (c_state (s_core (after replace_while_full empty_store))) as [|v l] eqn:E; [vm_compute in E; discriminate|].
  exists v. vm_compute in E. injection E as <- <-. split_and!; vm_compute; reflexivity.
Qed.

(** Four copies are accepted by Luna, a fifth waits for a slot in another operation, and the person
    dismisses the first operation. *)
Definition dismiss_running_copies : list event :=
  [EvDo (AStartJobs (copies 4 (js "d1"))); EvDo (AStartJobs (copies 1 (js "d3")));
   EvSettle 6%positive (accepted_reply (js "j1")); EvSettle 7%positive (accepted_reply (js "j2"));
   EvSettle 8%positive (accepted_reply (js "j3")); EvSettle 9%positive (accepted_reply (js "j4"));
   EvDo (ADismiss (js "op_k3x91")); EvTick 1000; EvFire 12%positive].

Lemma nothing_pending (s : St) (e : event) :
  s_tasks s = [] -> c_timers (s_core s) = [] ->
  match e with EvDo _ | EvTick _ => False | _ => True end -> step e s = None.
Proof.
  intros Ht Hm. unfold step, on_sending, on_walk, find_task. rewrite Ht, Hm. by destruct e.
Qed.

(** A defect of [forget].  Dismissing an operation whose copies Luna accepted frees their slots
    but does not pump the queue: a copy of another operation that waits for a slot is left queued
    with four free slots, no timer is armed and no promise is awaited, so that nothing but a new
    action of the person can ever start it. *)
Theorem dismiss_stalls_the_queue :
  exists s i,
    run dismiss_running_copies empty_store = Some s
    /\ map snd (j_queue (s_jb s)) = [i] /\ s_state s i = IQueued /\ slotsUsed s = 0
    /\ env_alive s 10%positive = true /\ i ∈ op_items (s_op s 10%positive)
    /\ forall e, match e with EvDo _ | EvTick _ => False | _ => True end -> step e s = None.
Proof.
  exists (after dismiss_running_copies empty_store), 11%positive.
  do 5 (split; [vm_compute; reflexivity|]). split.
  - apply list_elem_of_In. vm_compute. tauto.
  - intros e. apply nothing_pending; vm_compute; reflexivity.
Qed.

(** The session storage.  Saving an accepted job puts its record at the end and replaces an
    older one of the same id; dropping it undoes that and leaves every other record alone; without a
    usable storage nothing is stored and nothing fails. *)
Theorem stored_jobs_roundtrip (j : stored_job) (s : St) :
  storable j = true ->
  (s_storage s <> None ->
   readStoredJobs (s_storage (saveJob j s))
   = List.filter (other_job (sj_jobId j)) (readStoredJobs (s_storage s)) ++ [j])
  /\ readStoredJobs (s_storage (dropJob (sj_jobId j) (saveJob j s)))
     = readStoredJobs (s_storage (dropJob (sj_jobId j) s))
  /\ readStoredJobs (s_storage (dropJob (sj_jobId j) s))
     = List.filter (other_job (sj_jobId j)) (readStoredJobs (s_storage s))
  /\ (s_storage s = None -> s_storage (saveJob j s) = None).
Proof.
  intros Hj. split_and!.
  - intros Hs. by apply saveJob_stored.
  - rewrite !dropJob_stored. destruct (s_storage s) as [l|] eqn:E.
    + rewrite saveJob_stored, List.filter_app, filter_idem, E by (congruence || done). simpl.
      unfold other_job at 2. rewrite bool_decide_eq_true_2 by done. simpl. by rewrite app_nil_r.
    + unfold saveJob, writeStoredJobs. by rewrite E, E.
  - apply dropJob_stored.
  - intros E. unfold saveJob, writeStoredJobs. by rewrite E.
Qed.

Definition one_stored : stored_job :=
  {| sj_opId := js "op_ab1"; sj_itemId := js "it_ab2"; sj_jobId := js "j1"; sj_kind := KCopy;
     sj_name := js "x"; sj_path := js "A/x"; sj_title := []; sj_fromDrive := js "d1";
     sj_toDrive := js "d2"; sj_toPath := js "B"; sj_toLabel := js "B"; sj_createdAt := 500 |}.

Lemma stored_jobs_roundtrip_witness :
  storable one_stored = true
  /\ readStoredJobs (s_storage (saveJob one_stored empty_store)) = [one_stored]
  /\ readStoredJobs (s_storage (dropJob (js "j1") (saveJob one_stored empty_store)))
     = readStoredJobs (s_storage (dropJob (js "j1") empty_store)).
Proof.
  split; [reflexivity|]. split; [vm_compute; reflexivity|].
  apply (stored_jobs_roundtrip one_stored empty_store). reflexivity.
Defined.

(** A reload.  A store created over a session storage accepts again exactly the jobs that are
    stored there, whatever operations it also starts with, and it asks Luna about them as soon as
    there is one. *)
Theorem reload_picks_jobs_up (tag : jstr) (now : Z) (jobs : list stored_job) (ops : list initial_op)
    (id : jstr) :
  let s := createFileOpsStore tag now (Some jobs) ops true in
  (id ∈ accepted_ids s <-> id ∈ map sj_jobId (readStoredJobs (Some jobs)))
  /\ (readStoredJobs (Some jobs) <> [] -> j_pollTimer (s_jb s) <> None).
Proof.
  intros s. unfold s, createFileOpsStore. cbv zeta. set (s1 := on_core _ (st0 tag now (Some jobs))).
  assert (Es : s_storage s1 = Some jobs) by done.
  assert (Hids : forall x, x ∈ accepted_ids (restore s1) <-> x ∈ map sj_jobId (readStoredJobs (Some jobs))).
  { intros x. rewrite restore_ids, Es. split; [intros [?|H]; [done|by apply not_elem_of_nil in H] | by left]. }
  split; [exact (Hids id)|]. intros Hne.
  assert (Ha : accepted_ids (restore s1) <> []).
  { intros E. destruct (readStoredJobs (Some jobs)) as [|j js]; [done|].
    destruct (Hids (sj_jobId j)) as [_ H]. rewrite E in H.
    apply (not_elem_of_nil (sj_jobId j)), H. by left. }
  change (j_pollTimer (s_jb (restore s1)) <> None). unfold restore in *. cbv zeta in *.
  set (s2 := foldl _ s1 _) in *.
  assert (Hst : j_stopped (s_jb s2) = false).
  { unfold s2. apply (stb_foldl (fun s => j_stopped (s_jb s) = false)); [|done].
    intros s3 g H3. unfold restore_group. destruct (snd g) as [|first js]; [done|].
    rewrite (surjective_pairing (makeOp _ _ _ _ _)). cbv zeta.
    apply (stb_foldl (fun s => j_stopped (s_jb s) = false) (restore_item _)); [|done].
    intros s4 j H4. exact H4. }
  apply schedulePoll_armed; [exact Hst|]. intros E. apply Ha. rewrite schedulePoll_ids.
  unfold accepted_ids. by rewrite E.
Qed.

(** A defect of [finish].  An upload that only made folders has words for its toast ("Made 2
    folders."), but [finish] asks for a finished file before it shows any: the toast is never shown. *)
Theorem folder_only_upload_is_silent (o : oref) (c : Core) :
  op_kind_of (opOf c o) = KUpload \/ op_kind_of (opOf c o) = KGallery ->
  op_state_of (opOf c o) <> OFailed -> 0 < op_foldersDone (opOf c o) ->
  (exists words, successToast (opOf c o) 0 = Some (js "Made " ++ words))
  /\ finish_toast o 0 c = c.
Proof.
  intros Hk Hf Hd. split.
  - unfold successToast. cbn [Z.leb Z.compare]. cbv zeta.
    rewrite (proj2 (Z.ltb_lt _ _) Hd), bool_decide_eq_false_2 by done.
    destruct Hk as [-> | ->]; cbn [andb negb]; by eexists.
  - unfold finish_toast. cbn [Z.ltb Z.compare]. by rewrite andb_false_r.
Qed.

(** An upload that made two folders and ended well. *)
Definition two_folders : Core :=
  (core0 (js "t") 0) <| c_opsH := {[ 1%positive := op0 <| op_foldersDone := 2 |> <| op_state_of := ODone |> ]} |>.

Lemma folder_only_upload_is_silent_witness :
  successToast (opOf two_folders 1%positive) 0 = Some (js "Made 2 folders.")
  /\ finish_toast 1%positive 0 two_folders = two_folders.
Proof.
  split; [vm_compute; reflexivity|].
  refine (proj2 (folder_only_upload_is_silent 1%positive two_folders _ _ _)).
  - left. vm_compute. reflexivity.
  - vm_compute. discriminate.
  - vm_compute. reflexivity.
Defined.

Lemma noteFolder_refreshes_witness :
  (js "a" ∈ rt_touched (rtOf (noteFolder 1%positive (js "a/b") two_folders) 1%positive))
  /\ climb 4 [] (js "a/b") = [js "a/b"; js "a"; []].
Proof.
  split; [|vm_compute; reflexivity].
  apply (proj2 (proj1 (proj2 (proj2 (noteFolder_refreshes 1%positive (js "a/b") (js "a") two_folders))))).
  left. vm_compute. right. left.
Defined.
