(* ===== verification/X2tWorker.v ===== *)
(** * Conversions of office documents: [x2tConvert] of [luna/web/src/components/files/office/euroOfficeApi.js]

    The page has one worker that converts a document at a time.  Calls are chained; a reply finds its promise by a number;
    a worker that says nothing for three minutes is dropped, and so is one that broke.  The worker, the clock and the calls
    are the environment: a worker that was stopped sends nothing more, what it converts is its own, and the array of a call
    is not changed before its turn. *)

From S2P Require Import Prelude JsString Bytes.

(** ** The page *)

Definition X2T_TIMEOUT_MS : Z := 180000.

(** What a conversion gives: [{ out, media }]. *)
Record conversion := { cv_out : bytes; cv_media : list (jstr * bytes) }.

(** A message of the worker: [{ id, ok: true, out, media }] or [{ id, ok: false, error }]. *)
Inductive answer := Converted (c : conversion) | Refused (error : jstr).

Record message := { mg_id : Z; mg_inName : jstr; mg_outName : jstr; mg_input : bytes }.

(** A call of [x2tConvert] and its promise: behind the calls before it, with the worker, or settled. *)
Inductive phase := Chained | Posted (id : Z) | Settled (r : thrown conversion).
Record job := {
  j_inName : jstr; j_outName : jstr; j_bytes : bytes;
  (* whether [bytes.slice()] finds the memory it needs *)
  j_copies : bool;
  j_phase : phase;
}.
#[export] Instance job_settable : Settable job := fun j =>
  {| j_inName := j_inName j; j_outName := j_outName j; j_bytes := j_bytes j; j_copies := j_copies j; j_phase := j_phase j |}.

(** A timer, and the job whose promise its callback rejects. *)
Record timer := { t_id : Z; t_due : Z; t_job : nat }.

Record page := {
  x_now : Z;
  x_worker : option nat; x_spawned : nat;
  x_workerSeq : Z;
  (* [workerWait], in the order of insertion: which promise the function of an id settles *)
  x_workerWait : list (Z * nat);
  x_timers : list timer;
  x_jobs : list job;
  (* what was posted, and to which worker *)
  x_sent : list (nat * message);
}.
#[export] Instance page_settable : Settable page := fun s =>
  {| x_now := x_now s; x_worker := x_worker s; x_spawned := x_spawned s; x_workerSeq := x_workerSeq s; x_workerWait := x_workerWait s;
     x_timers := x_timers s; x_jobs := x_jobs s; x_sent := x_sent s |}.

Definition empty_page : page :=
  {| x_now := 0; x_worker := None; x_spawned := 0; x_workerSeq := 0; x_workerWait := []; x_timers := []; x_jobs := []; x_sent := [] |}.

Definition killWorker (s : page) : page := s <| x_worker := None |>.

Definition clearTimeout (id : Z) (s : page) : page := s <| x_timers ::= List.filter (fun t => negb (t_id t =? id)) |>.

(** [resolve] and [reject]: a promise settles once. *)
Definition resolved (r : thrown conversion) (j : job) : job := match j_phase j with Settled _ => j | _ => j <| j_phase := Settled r |> end.
Definition resolve (k : nat) (r : thrown conversion) (s : page) : page := s <| x_jobs ::= alter (resolved r) k |>.

Definition conversion_failed : jstr := js "conversion failed".
Definition outcome_of (d : answer) : thrown conversion :=
  match d with Converted c => Ok c | Refused error => Err (EError (str_or error conversion_failed)) end.

(** The function that [workerWait] has under an id. *)
Definition settle (d : answer) (w : Z * nat) (s : page) : page := resolve w.2 (outcome_of d) (clearTimeout w.1 s).

Definition failAll (d : answer) (s : page) : page := (foldl (fun s w => settle d w s) s (x_workerWait s)) <| x_workerWait := [] |>.

Definition x2tWorker (s : page) : nat * page :=
  match x_worker s with
  | Some w => (w, s)
  | None => (x_spawned s, s <| x_worker := Some (x_spawned s) |> <| x_spawned ::= S |>)
  end.

Definition TOO_LONG : error := EError (js "The document converter took too long. Try again.").
(** [bytes.slice()] without memory: a [RangeError]. *)
Definition NO_MEMORY : error := EError (js "RangeError").

(** [run] of call [k]: what throws in it rejects its promise. *)
Definition run (k : nat) (s : page) : page :=
  match x_jobs s !! k with
  | None => s
  | Some j =>
      let id := x_workerSeq s + 1 in
      let s := s <| x_workerSeq := id |> <| x_timers ::= fun l => l ++ [{| t_id := id; t_due := x_now s + X2T_TIMEOUT_MS; t_job := k |}] |>
                 <| x_workerWait ::= fun l => l ++ [(id, k)] |> in
      if negb (j_copies j) then resolve k (Err NO_MEMORY) s
      else
        let '(w, s) := x2tWorker s in
        let m := {| mg_id := id; mg_inName := j_inName j; mg_outName := j_outName j; mg_input := j_bytes j |} in
        s <| x_sent ::= fun l => l ++ [(w, m)] |> <| x_jobs ::= alter (fun j => j <| j_phase := Posted id |>) k |>
  end.

(** [workerChain.then(run, run)]: the first call that has not run, once those before it are settled. *)
Fixpoint next_of (jobs : list job) (k : nat) : option nat :=
  match jobs with
  | [] => None
  | j :: jobs => match j_phase j with Settled _ => next_of jobs (S k) | Chained => Some k | Posted _ => None end
  end.

(** The microtasks after an event; a run that throws lets the next one go. *)
Fixpoint drain (fuel : nat) (s : page) : page :=
  match fuel with
  | O => s
  | S fuel => match next_of (x_jobs s) 0 with Some k => drain fuel (run k s) | None => s end
  end.
Definition microtasks (s : page) : page := drain (length (x_jobs s)) s.

Definition x2tConvert (inName outName : jstr) (data : bytes) (copies : bool) (s : page) : page :=
  microtasks (s <| x_jobs ::= fun l => l ++ [{| j_inName := inName; j_outName := outName; j_bytes := data; j_copies := copies; j_phase := Chained |}] |>).

(** [workerWait.get(id)] and [delete] *)
Definition waiting (id : Z) (s : page) : option (Z * nat) := List.find (fun w => w.1 =? id) (x_workerWait s).
Definition forget (id : Z) (s : page) : page := s <| x_workerWait ::= List.filter (fun w => negb (w.1 =? id)) |>.

Definition onmessage (id : Z) (d : answer) (s : page) : page :=
  microtasks
    (if id =? -1 then killWorker (failAll d s)
     else match waiting id s with Some w => settle d w (forget id s) | None => s end).

Definition onerror (message : jstr) (s : page) : page :=
  microtasks (killWorker (failAll (Refused (js "worker " ++ str_or message (js "failed"))) s)).

Definition on_timeout (t : timer) (s : page) : page :=
  microtasks (resolve (t_job t) (Err TOO_LONG) (killWorker (forget (t_id t) (clearTimeout (t_id t) s)))).

(** What happens next: a call, a message or the end of the worker there is, a timer that is due, or time that passes up
    to the next timer. *)
Inductive event :=
| ECall (inName outName : jstr) (data : bytes) (copies : bool)
| EReply (id : Z) (d : answer)
| EBroken (message : jstr)
| EFire (t : timer)
| ETime (now : Z).

Definition possible (e : event) (s : page) : Prop :=
  match e with
  | ECall _ _ _ _ => True
  | EReply _ _ | EBroken _ => x_worker s <> None
  | EFire t => t ∈ x_timers s /\ t_due t <= x_now s
  | ETime now => x_now s <= now /\ Forall (fun t => now <= t_due t) (x_timers s)
  end.

Definition handle (e : event) (s : page) : page :=
  match e with
  | ECall inName outName data copies => x2tConvert inName outName data copies s
  | EReply id d => onmessage id d s
  | EBroken message => onerror message s
  | EFire t => on_timeout t s
  | ETime now => s <| x_now := now |>
  end.

Inductive steps : page -> list event -> page -> Prop :=
| steps_nil s : steps s [] s
| steps_snoc s l s' e : steps s l s' -> possible e s' -> steps s (l ++ [e]) (handle e s').

Definition reachable (s : page) : Prop := exists l, steps empty_page l s.

Definition settled (j : job) : Prop := match j_phase j with Settled _ => True | _ => False end.
Definition chained (j : job) : Prop := j_phase j = Chained.

(** ** The calls in line: settled ones, at most one with the worker, and those that wait *)

Inductive line : list job -> Prop :=
| line_settled j l : settled j -> line l -> line (j :: l)
| line_posted j id l : j_phase j = Posted id -> Forall chained l -> line (j :: l)
| line_chained l : Forall chained l -> line l.

Lemma line_snoc (j : job) (l : list job) : chained j -> line l -> line (l ++ [j]).
Proof.
  intros Hj. induction 1 as [i l Hi Hl IH|i id l Hi Hl|l Hl]; cbn [app].
  - by apply line_settled.
  - eapply line_posted; [done|]. apply Forall_app. by repeat constructor.
  - apply line_chained, Forall_app. by repeat constructor.
Qed.

Lemma resolved_settled (r : thrown conversion) (j : job) : settled (resolved r j).
Proof. unfold resolved, settled. by destruct (j_phase j) eqn:E; cbn [j_phase set_field]; rewrite ?E. Qed.

Lemma alter_beyond {A} (f : A -> A) (l : list A) (k : nat) : l !! k = None -> alter f k l = l.
Proof. revert k. induction l as [|x l IH]; intros [|k] E; cbn in *; try done. by rewrite IH. Qed.

Lemma line_resolve (r : thrown conversion) (l : list job) (k : nat) : line l -> (forall j, l !! k = Some j -> ~ chained j) -> line (alter (resolved r) k l).
Proof.
  intros Hl. revert k. induction Hl as [i l Hi Hl IH|i id l Hi Hl|l Hl]; intros k Hk.
  - destruct k as [|k]; cbn; apply line_settled; [apply resolved_settled | done..|]. apply IH. intros j. apply (Hk j).
  - destruct k as [|k]; cbn; [apply line_settled; [apply resolved_settled | by apply line_chained]|].
    rewrite alter_beyond; [by eapply line_posted|]. destruct (l !! k) as [j|] eqn:E; [|done].
    exfalso. apply (Hk j); [done|]. exact (Forall_lookup_1 _ _ _ _ Hl E).
  - rewrite alter_beyond; [by apply line_chained|]. destruct (l !! k) as [j|] eqn:E; [|done].
    exfalso. apply (Hk j); [done|]. exact (Forall_lookup_1 _ _ _ _ Hl E).
Qed.

(** The next call: all before it are settled, it and all after it wait. *)
Lemma next_spec (l : list job) (o : nat) : line l ->
  match next_of l o with
  | Some k => exists a j c, l = a ++ j :: c /\ Forall settled a /\ Forall chained (j :: c) /\ k = (o + length a)%nat
  | None => Forall settled l \/ exists a j c id, l = a ++ j :: c /\ Forall settled a /\ j_phase j = Posted id /\ Forall chained c
  end.
Proof.
  intros Hl. revert o. induction Hl as [i l Hi Hl IH|i id l Hi Hl|l Hl]; intros o; cbn [next_of].
  - unfold settled in Hi. destruct (j_phase i) eqn:Ei; try done. specialize (IH (S o)).
    assert (Hs : settled i) by (unfold settled; by rewrite Ei). destruct (next_of l (S o)) as [k|].
    + destruct IH as (a & j & c & -> & Ha & Hc & ->). exists (i :: a), j, c. split_and!; [done | by constructor | done | cbn; lia].
    + destruct IH as [H|(a & j & c & id & -> & Ha & Hj & Hc)]; [left; by constructor|]. right. exists (i :: a), j, c, id. split_and!; [done | by constructor | done..].
  - rewrite Hi. right. by exists [], i, l, id.
  - destruct l as [|i l]; cbn [next_of]; [left; constructor|]. pose proof (Forall_inv Hl) as Hi. unfold chained in Hi. rewrite Hi.
    exists [], i, l. split_and!; [done | constructor | done | cbn; lia].
Qed.

Lemma line_app (a l : list job) : Forall settled a -> line l -> line (a ++ l).
Proof. induction 1; cbn; [done|]. intros. apply line_settled; auto. Qed.

(** ** The invariant *)

Definition posted_as (t : timer) (l : list job) : Prop := exists j, l !! t_job t = Some j /\ j_phase j = Posted (t_id t).

Record sound (s : page) : Prop := {
  sd_line : line (x_jobs s);
  sd_wait : x_workerWait s = map (fun t => (t_id t, t_job t)) (x_timers s);
  sd_ids : NoDup (map t_id (x_timers s));
  sd_seq : 0 <= x_workerSeq s /\ Forall (fun t => 0 < t_id t <= x_workerSeq s) (x_timers s);
  sd_due : Forall (fun t => x_now s <= t_due t <= x_now s + X2T_TIMEOUT_MS) (x_timers s);
  sd_job : Forall (fun t => posted_as t (x_jobs s) \/ exists j, x_jobs s !! t_job t = Some j /\ settled j) (x_timers s);
  sd_posted : forall k j id, x_jobs s !! k = Some j -> j_phase j = Posted id -> exists t, t ∈ x_timers s /\ t_id t = id /\ t_job t = k;
}.

Lemma x2tWorker_spec (s : page) : exists w n, x2tWorker s = (w, s <| x_worker := Some w |> <| x_spawned := n |>).
Proof.
  unfold x2tWorker. destruct (x_worker s) as [w|] eqn:E.
  - exists w, (x_spawned s). f_equal. destruct s. cbn in *. by subst.
  - by exists (x_spawned s), (S (x_spawned s)).
Qed.

(** [run] of the next call. *)
Lemma run_next (s : page) (a c : list job) (j : job) : x_jobs s = a ++ j :: c -> Forall settled a -> Forall chained (j :: c) ->
  let t := {| t_id := x_workerSeq s + 1; t_due := x_now s + X2T_TIMEOUT_MS; t_job := length a |} in
  let s' := run (length a) s in
  x_timers s' = x_timers s ++ [t] /\ x_workerWait s' = x_workerWait s ++ [(t_id t, t_job t)] /\ x_workerSeq s' = t_id t /\ x_now s' = x_now s
  /\ exists j', x_jobs s' = a ++ j' :: c /\ (if j_copies j then j_phase j' = Posted (t_id t) else settled j')
     /\ j_inName j' = j_inName j /\ j_outName j' = j_outName j /\ j_bytes j' = j_bytes j /\ j_copies j' = j_copies j.
Proof.
  intros E Ha Hc. unfold run. rewrite E, list_lookup_middle by done. cbn zeta.
  assert (A : forall f, alter f (length a) (a ++ j :: c) = a ++ f j :: c).
  { intros f. clear. induction a as [|x a IH]; [done|]. cbn. by rewrite IH. }
  destruct (j_copies j) eqn:Ej; cbn [negb].
  - match goal with |- context [x2tWorker ?s0] => destruct (x2tWorker_spec s0) as (w & n & ->) end. cbv beta iota zeta.
    split; [reflexivity|]. split; [reflexivity|]. split; [reflexivity|]. split; [reflexivity|]. eexists. split; [exact (eq_trans (f_equal _ E) (A _))|]. by split_and!.
  - unfold resolve. cbn [set_field x_timers x_workerWait x_workerSeq x_now x_jobs]. rewrite E, A. split_and!; try done.
    eexists. split; [done|]. apply Forall_inv in Hc. unfold resolved, settled. rewrite Hc. by split_and!.
Qed.

Lemma run_sound (s : page) (a c : list job) (j : job) :
  x_jobs s = a ++ j :: c -> Forall settled a -> Forall chained (j :: c) -> sound s -> sound (run (length a) s).
Proof.
  intros E Ha Hc [L W I [Sq S] D J P].
  destruct (run_next s a c j E Ha Hc) as (Et & Ew & Es & En & j' & Ej & Hj' & _). cbn [t_id t_job] in *.
  assert (Hs : forall t, t ∈ x_timers s -> t_id t <> x_workerSeq s + 1) by (intros t Ht%(proj1 (Forall_forall _ _) S); lia).
  assert (Hold : forall k i, k <> length a -> x_jobs s !! k = Some i <-> (a ++ j' :: c) !! k = Some i).
  { intros k i Hk. rewrite E. destruct (decide (k < length a)%nat); [by rewrite !lookup_app_l by lia|].
    rewrite !lookup_app_r by lia. destruct (k - length a)%nat as [|n'] eqn:En'; [lia | done]. }
  split; rewrite ?Et, ?Ew, ?Es, ?En, ?Ej.
  - apply line_app; [done|]. apply Forall_cons in Hc as [_ Hc]. destruct (j_copies j); [by eapply line_posted | apply line_settled; [done | by apply line_chained]].
  - by rewrite W, map_app.
  - rewrite map_app. apply NoDup_app. split; [done|]. split; [|apply NoDup_singleton].
    intros i (t & -> & Ht)%list_elem_of_fmap Hi%list_elem_of_singleton. by apply (Hs t).
  - split; [lia|]. apply Forall_app. split; [eapply Forall_impl; [exact S|]; cbn; lia | repeat constructor; cbn; lia].
  - apply Forall_app. split; [done|]. constructor; [|constructor]. unfold X2T_TIMEOUT_MS. cbn. lia.
  - apply Forall_app. split.
    + apply Forall_forall. intros t Ht. pose proof (proj1 (Forall_forall _ _) J t Ht) as Hjob. cbn beta in *.
      assert (Hk : t_job t <> length a).
      { intros Ek. destruct Hjob as [(i & Hi & Hp)|(i & Hi & Hp)]; rewrite Ek, E, list_lookup_middle in Hi by done; injection Hi as <-;
          apply Forall_inv in Hc; unfold chained, settled in *; rewrite Hc in Hp; done. }
      destruct Hjob as [(i & Hi & Hp)|(i & Hi & Hp)]; [left|right]; exists i; (split; [by apply Hold | done]).
    + constructor; [|constructor]. unfold posted_as. cbn [t_job t_id]. destruct (j_copies j); [left|right]; exists j'; by rewrite list_lookup_middle.
  - intros k i id Hi Hp. destruct (decide (k = length a)) as [->|Hk].
    + rewrite list_lookup_middle in Hi by done. injection Hi as <-. destruct (j_copies j); [|unfold settled in Hj'; by rewrite Hp in Hj'].
      rewrite Hj' in Hp. injection Hp as <-. eexists. split; [apply elem_of_app; right; by apply list_elem_of_singleton | done].
    + apply Hold in Hi; [|done]. destruct (P k i id Hi Hp) as (t & Ht & ?). exists t. split; [apply elem_of_app; by left | done].
Qed.

(** How many calls still wait for their turn. *)
Definition waiting_calls (l : list job) : nat := length (List.filter (fun j => match j_phase j with Chained => true | _ => false end) l).

Lemma waiting_calls_app (a c : list job) : waiting_calls (a ++ c) = (waiting_calls a + waiting_calls c)%nat.
Proof. unfold waiting_calls. by rewrite List.filter_app, length_app. Qed.

(** An invariant that every run keeps holds after the microtasks, and then nobody waits whose turn it is. *)
Lemma drain_keeps (P : page -> Prop) (fuel : nat) (s : page) :
  (forall s a j c, P s -> sound s -> x_jobs s = a ++ j :: c -> Forall settled a -> Forall chained (j :: c) -> P (run (length a) s)) ->
  P s -> sound s -> (waiting_calls (x_jobs s) <= fuel)%nat ->
  P (drain fuel s) /\ sound (drain fuel s) /\ next_of (x_jobs (drain fuel s)) 0 = None.
Proof.
  intros HP. revert s. induction fuel as [|fuel IH]; intros s H S Hn; cbn [drain]; pose proof (next_spec _ 0 (sd_line s S)) as N; destruct (next_of (x_jobs s) 0) as [k|] eqn:E; try done.
  - destruct N as (a & j & c & E' & _ & Hc & _). rewrite E', waiting_calls_app in Hn. apply Forall_inv in Hc. unfold waiting_calls in Hn. cbn in Hn. rewrite Hc in Hn. cbn in Hn. lia.
  - destruct N as (a & j & c & E' & Ha & Hc & ->). cbn [Nat.add]. apply IH; [by eapply HP | by eapply run_sound|].
    destruct (run_next s a c j E' Ha Hc) as (_ & _ & _ & _ & j' & -> & Hj' & _). rewrite E', waiting_calls_app in Hn. rewrite waiting_calls_app. apply Forall_inv in Hc.
    unfold waiting_calls in *. cbn [List.filter] in *. rewrite Hc in Hn. cbn in Hn. destruct (j_copies j); [rewrite Hj'; lia|]. unfold settled in Hj'. destruct (j_phase j'); lia || done.
Qed.

Lemma waiting_calls_le (l : list job) : (waiting_calls l <= length l)%nat.
Proof. unfold waiting_calls. induction l as [|j l IH]; cbn; [lia|]. destruct (j_phase j); cbn; lia. Qed.

(** ** What the events keep *)

Lemma resolve_lookup (r : thrown conversion) (k i : nat) (l : list job) : alter (resolved r) k l !! i = (if decide (i = k) then resolved r <$> l !! i else l !! i).
Proof. rewrite list_lookup_alter. destruct (decide (k = i)) as [->|Hn]; [by rewrite decide_True | by rewrite decide_False]. Qed.

Lemma not_chained_job (s : page) (t : timer) : sound s -> t ∈ x_timers s -> forall j, x_jobs s !! t_job t = Some j -> ~ chained j.
Proof.
  intros S Ht j Hj Hc. destruct (proj1 (Forall_forall _ _) (sd_job s S) t Ht) as [(i & Hi & Hp)|(i & Hi & Hp)]; rewrite Hj in Hi; injection Hi as <-;
    unfold chained, settled in *; by rewrite Hc in Hp.
Qed.

(** The timer, the entry and the promise of one call go together, however the call ends. *)
Lemma end_one (s : page) (t : timer) (r : thrown conversion) : sound s -> t ∈ x_timers s ->
  sound (resolve (t_job t) r (forget (t_id t) (clearTimeout (t_id t) s))).
Proof.
  intros S Ht. pose proof (not_chained_job s t S Ht) as Hn. destruct S as [L W I [Sq Sb] D J P].
  unfold resolve, forget, clearTimeout. split; cbn [set_field x_jobs x_workerWait x_timers x_workerSeq x_now].
  - by apply line_resolve.
  - rewrite W. clear. induction (x_timers s) as [|u l IH]; [done|]. cbn [map List.filter fst]. destruct (t_id u =? t_id t); cbn [negb map]; [done|]. by rewrite IH.
  - clear -I. induction (x_timers s) as [|u l IH]; [done|]. cbn [map List.filter] in *. apply NoDup_cons in I as [Hu I]. destruct (t_id u =? t_id t); cbn [negb map]; [by apply IH|].
    apply NoDup_cons. split; [|by apply IH]. intros (v & Ev & Hv)%list_elem_of_fmap. apply Hu. apply list_elem_of_fmap. exists v. split; [done|].
    apply list_elem_of_In, List.filter_In in Hv as [Hv _]. by apply list_elem_of_In.
  - split; [done|]. apply Forall_forall. intros u [Hu _]%list_elem_of_In%List.filter_In. by apply (proj1 (Forall_forall _ _) Sb), list_elem_of_In.
  - apply Forall_forall. intros u [Hu _]%list_elem_of_In%List.filter_In. by apply (proj1 (Forall_forall _ _) D), list_elem_of_In.
  - apply Forall_forall. intros u [Hu _]%list_elem_of_In%List.filter_In. apply list_elem_of_In in Hu. unfold posted_as. rewrite resolve_lookup.
    destruct (proj1 (Forall_forall _ _) J u Hu) as [(i & Hi & Hp)|(i & Hi & Hp)]; rewrite Hi; cbn [fmap option_fmap option_map]; destruct (decide (t_job u = t_job t)).
    + right. eexists. split; [done | apply resolved_settled].
    + left. by exists i.
    + right. eexists. split; [done | apply resolved_settled].
    + right. by exists i.
  - intros k i id Hi Hp. rewrite resolve_lookup in Hi. destruct (decide (k = t_job t)) as [->|Hk].
    + destruct (x_jobs s !! t_job t) as [j|]; [|done]. injection Hi as <-. pose proof (resolved_settled r j) as R. unfold settled in R. by rewrite Hp in R.
    + destruct (P k i id Hi Hp) as (u & Hu & <- & <-). exists u. split; [|done]. apply list_elem_of_In, List.filter_In. split; [by apply list_elem_of_In|].
      destruct (Z.eqb_spec (t_id u) (t_id t)) as [Eu|]; [|done]. exfalso. apply Hk. f_equal. clear -I Hu Ht Eu.
      induction (x_timers s) as [|v l IH]; [by apply not_elem_of_nil in Hu|]. cbn in I. apply NoDup_cons in I as [Hv I].
      apply elem_of_cons in Hu as [->|Hu], Ht as [->|Ht]; try done; [| |by apply IH]; exfalso; apply Hv; apply list_elem_of_fmap; [exists t | exists u]; done.
Qed.

Lemma settle_wait (d : answer) (w : Z * nat) (v : list (Z * nat)) (s : page) : settle d w (s <| x_workerWait := v |>) = (settle d w s) <| x_workerWait := v |>.
Proof. reflexivity. Qed.

Lemma settle_all_wait (d : answer) (ws v : list (Z * nat)) (s : page) :
  foldl (fun s w => settle d w s) (s <| x_workerWait := v |>) ws = (foldl (fun s w => settle d w s) s ws) <| x_workerWait := v |>.
Proof. revert s. induction ws as [|w ws IH]; intros s; [done|]. cbn [foldl]. by rewrite settle_wait, IH. Qed.

(** [failAll] ends the calls one by one. *)
Lemma failAll_step (d : answer) (s : page) (t : timer) (l : list timer) : sound s -> x_timers s = t :: l ->
  let s1 := resolve (t_job t) (outcome_of d) (forget (t_id t) (clearTimeout (t_id t) s)) in
  failAll d s = failAll d s1 /\ x_timers s1 = l.
Proof.
  intros S Et. cbn zeta. pose proof (sd_ids s S) as I. rewrite Et in I. cbn in I. apply NoDup_cons in I as [Ht I].
  assert (Ek : List.filter (fun u => negb (t_id u =? t_id t)) l = l).
  { clear -Ht. induction l as [|u l IH]; [done|]. cbn in *. apply not_elem_of_cons in Ht as [Hu Ht]. destruct (Z.eqb_spec (t_id u) (t_id t)); [congruence|]. cbn. by rewrite IH. }
  assert (El : x_timers (resolve (t_job t) (outcome_of d) (forget (t_id t) (clearTimeout (t_id t) s))) = l).
  { unfold resolve, forget, clearTimeout. cbn [set_field x_timers]. rewrite Et. cbn [List.filter]. by rewrite Z.eqb_refl. }
  split; [|done]. pose proof (end_one s t (outcome_of d) S) as S1. specialize (S1 ltac:(rewrite Et; left)).
  unfold failAll. rewrite (sd_wait _ S1), El, (sd_wait s S), Et. cbn [map foldl].
  change (settle d (t_id t, t_job t) s) with ((settle d (t_id t, t_job t) s) <| x_workerWait := x_workerWait s |>).
  change (resolve (t_job t) (outcome_of d) (forget (t_id t) (clearTimeout (t_id t) s)))
    with ((settle d (t_id t, t_job t) s) <| x_workerWait := x_workerWait (forget (t_id t) s) |>).
  by rewrite !settle_all_wait.
Qed.

Lemma failAll_keeps (P : page -> Prop) (d : answer) (s : page) :
  (forall s t, P s -> sound s -> t ∈ x_timers s -> P (resolve (t_job t) (outcome_of d) (forget (t_id t) (clearTimeout (t_id t) s)))) ->
  P s -> sound s -> P (failAll d s) /\ sound (failAll d s) /\ x_timers (failAll d s) = [].
Proof.
  intros HP. remember (x_timers s) as l eqn:El. revert s El. induction l as [|t l IH]; intros s El H S.
  - assert (E : failAll d s = s).
    { unfold failAll. rewrite (sd_wait s S), <- El. cbn. pose proof (sd_wait s S) as W. rewrite <- El in W. destruct s; cbn in *; by subst. }
    by rewrite E.
  - destruct (failAll_step d s t l S (eq_sym El)) as [-> E1]. assert (Ht : t ∈ x_timers s) by (rewrite <- El; left).
    apply IH; [done | by apply HP | by apply end_one].
Qed.

(** The calls an event ends, and how. *)
Definition ends (e : event) (t : timer) (r : thrown conversion) : Prop :=
  match e with
  | EReply id d => r = outcome_of d /\ (id = -1 \/ t_id t = id)
  | EBroken message => r = outcome_of (Refused (js "worker " ++ str_or message (js "failed")))
  | EFire t' => t = t' /\ r = Err TOO_LONG
  | _ => False
  end.

Definition end_call (t : timer) (r : thrown conversion) (s : page) : page := resolve (t_job t) r (forget (t_id t) (clearTimeout (t_id t) s)).

(** What the handler of an event keeps ([P]), and then the runs of the microtasks ([P']), the event keeps. *)
Section Keeps.
Context (P P' : page -> Prop) (e : event).
Context (P_post : forall s, P s -> P' s).
Context (P_run : forall s a j c, P' s -> sound s -> x_jobs s = a ++ j :: c -> Forall settled a -> Forall chained (j :: c) -> P' (run (length a) s)).
Context (P_end : forall s t r, P s -> sound s -> t ∈ x_timers s -> ends e t r -> P (end_call t r s)).
Context (P_kill_idle : forall s, P s -> x_timers s = [] -> P (killWorker s)).
Context (P_kill_one : forall s t, P s -> sound s -> t ∈ x_timers s -> e = EFire t -> P (killWorker (end_call t (Err TOO_LONG) s))).
Context (P_call : forall s j, P s -> chained j -> match e with ECall _ _ _ copies => j_copies j = copies | _ => False end -> P (s <| x_jobs ::= fun l => l ++ [j] |>)).
Context (P_time : forall s now, P s -> sound s -> next_of (x_jobs s) 0 = None -> possible (ETime now) s -> P (s <| x_now := now |>)).

Lemma microtasks_keep (s : page) : P s -> sound s -> P' (microtasks s) /\ sound (microtasks s) /\ next_of (x_jobs (microtasks s)) 0 = None.
Proof. intros H S. apply drain_keeps; [exact P_run | by apply P_post | done | apply waiting_calls_le]. Qed.

Lemma failAll_kill_keeps (d : answer) (s : page) : P s -> sound s -> (forall t, ends e t (outcome_of d)) ->
  P (killWorker (failAll d s)) /\ sound (killWorker (failAll d s)).
Proof.
  intros H S He. destruct (failAll_keeps P d s) as (H1 & S1 & E1); [|done..|].
  - intros s1 t H1 S1 Ht. by apply P_end.
  - split; [by apply P_kill_idle|]. by destruct S1.
Qed.

Lemma handle_keeps (s : page) : P s -> sound s -> next_of (x_jobs s) 0 = None -> possible e s ->
  P' (handle e s) /\ sound (handle e s) /\ next_of (x_jobs (handle e s)) 0 = None.
Proof.
  intros H S N He. pose proof P_end as PE. pose proof P_kill_one as PK. pose proof P_call as PC. pose proof failAll_kill_keeps as FK.
  destruct e as [inName outName data copies|id d|message|t|now]; cbn [handle].
  - apply microtasks_keep; [by apply PC|]. destruct S as [L W I Q D J R]. split; cbn [set_field x_jobs x_workerWait x_timers x_workerSeq x_now]; try done.
    + by apply line_snoc.
    + eapply Forall_impl; [exact J|]. cbn beta. intros u [(i & Hi & Hp)|(i & Hi & Hp)]; [left|right]; exists i; (split; [by apply lookup_app_l_Some | done]).
    + intros k i id Hi Hp. apply lookup_app_Some in Hi as [Hi|[_ Hi]]; [by apply (R k i)|]. apply list_lookup_singleton_Some in Hi as [_ <-]. done.
  - unfold onmessage. destruct (Z.eqb_spec id (-1)) as [->|Hid].
    + destruct (FK d s H S) as [H1 S1]; [|by apply microtasks_keep]. intros t. cbn. auto.
    + unfold waiting. destruct (List.find _ _) as [w|] eqn:E; [|by apply microtasks_keep].
      apply find_some in E as [Hw Ew%Z.eqb_eq]. rewrite (sd_wait s S) in Hw. apply list_elem_of_In, list_elem_of_fmap in Hw as (t & -> & Ht). cbn [fst] in Ew. subst id.
      apply microtasks_keep; [apply (PE s t (outcome_of d)) | apply (end_one s t (outcome_of d))]; try done. cbn. auto.
  - unfold onerror. destruct (FK (Refused (js "worker " ++ str_or message (js "failed"))) s H S) as [H1 S1]; [done|]. by apply microtasks_keep.
  - destruct He as [Ht _]. unfold on_timeout. change (resolve (t_job t) (Err TOO_LONG) (killWorker (forget (t_id t) (clearTimeout (t_id t) s))))
      with (killWorker (end_call t (Err TOO_LONG) s)).
    apply microtasks_keep; [by apply (PK s t)|]. by destruct (end_one s t (Err TOO_LONG) S Ht).
  - split; [by apply P_post, P_time|]. split; [|done]. destruct He as [Hn Hd], S as [L W I Q D J R]. split; try done. cbn [set_field x_timers x_now].
    apply Forall_forall. intros t Ht. pose proof (proj1 (Forall_forall _ _) Hd t Ht). pose proof (proj1 (Forall_forall _ _) D t Ht). cbn beta in *. lia.
Qed.
End Keeps.

Lemma steps_sound (s s' : page) (l : list event) : steps s l s' -> sound s -> next_of (x_jobs s) 0 = None -> sound s' /\ next_of (x_jobs s') 0 = None.
Proof.
  induction 1 as [s|s l s' e Hs IH He]; intros S N; [done|]. destruct (IH S N) as [S' N']. destruct (handle_keeps (fun _ => True) (fun _ => True) e) with (s := s') as (_ & ? & ?); done.
Qed.

Lemma empty_sound : sound empty_page.
Proof. split; cbn; try done; try constructor; try constructor; lia. Qed.

Lemma reachable_sound (s : page) : reachable s -> sound s /\ next_of (x_jobs s) 0 = None.
Proof. intros [l H]. apply (steps_sound _ _ _ H); [apply empty_sound | done]. Qed.

(** ** One at a time *)

Definition request_of (j : job) : jstr * jstr * bytes := (j_inName j, j_outName j, j_bytes j).
Definition asked (m : message) : jstr * jstr * bytes := (mg_inName m, mg_outName m, mg_input m).
Definition begun (j : job) : bool := j_copies j && match j_phase j with Chained => false | _ => true end.

(** The worker was given the calls that began, as they are. *)
Definition gave (s : page) : Prop := map (fun w => asked w.2) (x_sent s) = map request_of (List.filter begun (x_jobs s)).

Lemma run_sent (s : page) (a c : list job) (j : job) : x_jobs s = a ++ j :: c ->
  exists w, x_sent (run (length a) s) =
    (if j_copies j then x_sent s ++ [(w, {| mg_id := x_workerSeq s + 1; mg_inName := j_inName j; mg_outName := j_outName j; mg_input := j_bytes j |})] else x_sent s)
    /\ (j_copies j = true -> x_worker (run (length a) s) = Some w).
Proof.
  intros E. unfold run. rewrite E, list_lookup_middle by done. cbn zeta. destruct (j_copies j); cbn [negb].
  - match goal with |- context [x2tWorker ?s0] => destruct (x2tWorker_spec s0) as (w & n & ->) end. cbv beta iota zeta.
    exists w. split; reflexivity.
  - by exists 0%nat.
Qed.

Lemma begun_resolved (r : thrown conversion) (l : list job) (k : nat) : (forall j, l !! k = Some j -> ~ chained j) ->
  map request_of (List.filter begun (alter (resolved r) k l)) = map request_of (List.filter begun l).
Proof.
  revert k. induction l as [|j l IH]; intros [|k] Hk; [done..| |].
  - cbn [alter list_alter]. specialize (Hk j eq_refl). cbn [List.filter].
    assert (E : begun (resolved r j) = begun j /\ request_of (resolved r j) = request_of j).
    { unfold resolved, begun, request_of, chained in *. by destruct (j_phase j) eqn:E; cbn; rewrite ?E. }
    destruct E as [-> E]. destruct (begun j); cbn [map]; by rewrite ?E.
  - cbn [alter list_alter List.filter]. specialize (IH k Hk). destruct (begun j); cbn [map]; [f_equal|]; exact IH.
Qed.

Lemma gave_step (s : page) (e : event) : gave s -> sound s -> next_of (x_jobs s) 0 = None -> possible e s -> gave (handle e s).
Proof.
  intros G S N He. apply (handle_keeps gave gave e); try done.
  - clear. intros s a j c G S E Ha Hc. destruct (run_sent s a c j E) as (w & Es & _). destruct (run_next s a c j E Ha Hc) as (_ & _ & _ & _ & j' & Ej & Hp & H1 & H2 & H3 & H4).
    unfold gave in *. rewrite Es, Ej. rewrite E in G. rewrite !List.filter_app in *. cbn [List.filter] in *.
    assert (Ec : List.filter begun c = []).
    { apply Forall_cons in Hc as [_ Hc]. clear -Hc. induction Hc as [|i c Hi Hc IH]; [done|]. cbn. unfold begun at 1. rewrite Hi, andb_false_r. done. }
    assert (Ej0 : begun j = false) by (apply Forall_inv in Hc; unfold begun; rewrite Hc; apply andb_false_r). rewrite Ec, Ej0, app_nil_r in *.
    unfold begun at 2. rewrite H4. destruct (j_copies j); cbn [andb]; [|by rewrite app_nil_r].
    rewrite Hp, map_app, map_app, G. cbn. unfold request_of, asked. cbn. by rewrite H1, H2, H3.
  - clear. intros s t r G S Ht _. unfold gave in *. cbn. rewrite begun_resolved; [done|]. intros j. by apply not_chained_job.
  - clear. intros s t G S Ht _. unfold gave in *. cbn. rewrite begun_resolved; [done|]. intros j. by apply not_chained_job.
  - clear. intros s j G Hj _. unfold gave in *. cbn [set_field x_sent x_jobs]. rewrite List.filter_app. cbn. unfold begun at 2. rewrite Hj, andb_false_r, app_nil_r. done.
Qed.

(** Conversions take turns: whatever the worker, the clock and the page's calls do, at most one call is with the worker,
    all calls before it are settled and all after it wait; and the worker was given exactly the documents of the calls that
    began, each under its own names, in the order of the calls. *)
Theorem conversions_take_turns (s : page) : reachable s ->
  (Forall settled (x_jobs s) \/ exists a j c id, x_jobs s = a ++ j :: c /\ Forall settled a /\ j_phase j = Posted id /\ Forall chained c)
  /\ map (fun w => asked w.2) (x_sent s) = map request_of (List.filter begun (x_jobs s)).
Proof.
  intros R. destruct (reachable_sound s R) as [S N]. split.
  - pose proof (next_spec _ 0 (sd_line s S)) as H. by rewrite N in H.
  - destruct R as [l R]. clear S N. change (gave s). remember empty_page as s0 eqn:E0. induction R as [s|s l s' e R IH He]; [by subst|].
    destruct (steps_sound _ _ _ R) as [S N]; [subst; apply empty_sound | by subst|]. apply gave_step; auto.
Qed.

(** ** Every call is answered *)

Definition open_call (j : job) : bool := match j_phase j with Settled _ => false | _ => true end.
(** The calls up to the [k]-th that are not settled. *)
Definition left_to (k : nat) (l : list job) : nat := length (List.filter open_call (take (S k) l)).

Lemma left_cons (k : nat) (j : job) (l : list job) :
  left_to k (j :: l) = ((if open_call j then 1 else 0) + match k with O => 0 | S k => left_to k l end)%nat.
Proof.
  unfold left_to. destruct k as [|k]; cbn [take List.filter]; rewrite ?take_0; destruct (open_call j); reflexivity.
Qed.

Lemma open_resolved (r : thrown conversion) (j : job) : open_call (resolved r j) = false.
Proof. pose proof (resolved_settled r j) as H. unfold settled, open_call in *. by destruct (j_phase (resolved r j)). Qed.

Lemma left_resolved (r : thrown conversion) (l : list job) (k p : nat) (j : job) : l !! p = Some j ->
  (left_to k (alter (resolved r) p l) + (if open_call j && (p <=? k)%nat then 1 else 0) = left_to k l)%nat.
Proof.
  revert k p. induction l as [|i l IH]; intros k [|p] E; [done..| |]; cbn in E.
  - injection E as ->. cbn [alter list_alter]. rewrite !left_cons, open_resolved. cbn [Nat.leb]. rewrite andb_true_r. lia.
  - change (alter (resolved r) (S p) (i :: l)) with (i :: alter (resolved r) p l). rewrite !left_cons. destruct k as [|k].
    + cbn [Nat.leb]. rewrite andb_false_r. lia.
    + specialize (IH k p E). cbn [Nat.leb]. lia.
Qed.

Lemma left_snoc (k : nat) (l : list job) (j : job) : (k < length l)%nat -> left_to k (l ++ [j]) = left_to k l.
Proof. intros H. unfold left_to. by rewrite take_app_le by lia. Qed.

Lemma left_first (k : nat) (a c : list job) (j : job) : Forall settled a -> left_to k (a ++ j :: c) <> 0%nat -> (length a <= k)%nat.
Proof.
  intros Ha. revert k. induction Ha as [|i a Hi Ha IH]; intros k; cbn [app length]; [lia|]. rewrite left_cons.
  unfold settled, open_call in *. destruct (j_phase i); try done. destruct k as [|k]; [done|]. intros H%IH. lia.
Qed.

Lemma left_swap (k : nat) (a c : list job) (j j' : job) :
  (left_to k (a ++ j' :: c) + (if open_call j && (length a <=? k)%nat then 1 else 0)
   = left_to k (a ++ j :: c) + (if open_call j' && (length a <=? k)%nat then 1 else 0))%nat.
Proof.
  revert k. induction a as [|i a IH]; intros k; cbn [app length]; rewrite !left_cons.
  - cbn [Nat.leb]. rewrite !andb_true_r. lia.
  - destruct k as [|k]; cbn [Nat.leb]; [rewrite !andb_false_r; lia|]. specialize (IH k). lia.
Qed.

(** The [k]-th call and those before it are settled, or will be by then. *)
Definition on_time (k : nat) (end_ : Z) (s : page) : Prop :=
  (k < length (x_jobs s))%nat
  /\ (left_to k (x_jobs s) = 0%nat
      \/ (exists t, t ∈ x_timers s /\ posted_as t (x_jobs s) /\ t_due t + (Z.of_nat (left_to k (x_jobs s)) - 1) * X2T_TIMEOUT_MS <= end_)
      \/ (Forall (fun j => settled j \/ chained j) (x_jobs s) /\ x_now s + Z.of_nat (left_to k (x_jobs s)) * X2T_TIMEOUT_MS <= end_)).

Lemma none_posted (l : list job) (t : timer) : Forall (fun j => settled j \/ chained j) l -> ~ posted_as t l.
Proof.
  intros Hf (j & Hj & Hp). destruct (Forall_lookup_1 _ _ _ _ Hf Hj) as [Hs|Hs]; unfold settled, chained in Hs; by rewrite Hp in Hs.
Qed.

Lemma on_time_run (k : nat) (b : Z) (s : page) (a c : list job) (j : job) :
  on_time k b s -> x_jobs s = a ++ j :: c -> Forall settled a -> Forall chained (j :: c) -> on_time k b (run (length a) s).
Proof.
  intros [Hk Ht] E Ha Hc. destruct (run_next s a c j E Ha Hc) as (Et & _ & _ & En & j' & Ej & Hj' & _). cbn [t_id t_job] in *.
  unfold on_time. rewrite Ej, Et, En. rewrite E in Hk, Ht. pose proof (left_swap k a c j j') as Hs. pose proof (Forall_inv Hc) as Hj.
  assert (Oj : open_call j = true) by (unfold open_call; by rewrite Hj). rewrite Oj in Hs.
  split; [rewrite length_app in *; cbn in *; lia|].
  assert (Hno : Forall (fun i => settled i \/ chained i) (a ++ j :: c)).
  { apply Forall_app. split; eapply Forall_impl; [exact Ha | cbn; auto | exact Hc | cbn; auto]. }
  destruct Ht as [H0|[(t & _ & Hp & _)|[_ Hb]]]; [left | by apply none_posted in Hp |].
  - destruct (open_call j' && _) eqn:Eo; [|lia]. apply andb_true_iff in Eo as [_ Ek]. rewrite Ek in Hs. cbn in Hs. lia.
  - destruct (j_copies j).
    + right. left. eexists. split; [apply elem_of_app; right; by apply list_elem_of_singleton|]. split.
      * exists j'. cbn [t_job t_id]. split; [by rewrite list_lookup_middle | done].
      * cbn [t_due]. assert (Oj' : open_call j' = true) by (unfold open_call; by rewrite Hj'). rewrite Oj' in Hs. lia.
    + right. right. assert (Oj' : open_call j' = false) by (unfold open_call, settled in *; by destruct (j_phase j')). rewrite Oj' in Hs. cbn [andb] in Hs.
      split; [|unfold X2T_TIMEOUT_MS in *; lia]. apply Forall_app in Hno as [Hno1 Hno2]. apply Forall_app. split; [done|].
      apply Forall_cons in Hno2 as [_ Hno2]. constructor; [by left | done].
Qed.

(** At most one call is with the worker, under one timer. *)
Lemma posted_once (s : page) (t t' : timer) : sound s -> t ∈ x_timers s -> t' ∈ x_timers s -> posted_as t (x_jobs s) -> posted_as t' (x_jobs s) -> t = t'.
Proof.
  intros S Ht Ht' (j & Hj & Hp) (j' & Hj' & Hp'). assert (E : t_job t = t_job t').
  { pose proof (sd_line s S) as L. clear -L Hj Hp Hj' Hp'. revert Hj Hj'. generalize (t_job t) (t_job t'). induction L as [i l Hi Hl IH|i id l Hi Hl|l Hl]; intros m m' Hj Hj'.
    - destruct m as [|m], m' as [|m']; cbn in *; [done | | |f_equal; by apply IH]; simplify_eq; unfold settled in Hi; by rewrite ?Hp, ?Hp' in Hi.
    - destruct m as [|m], m' as [|m']; cbn in *; [done|exfalso..];
        repeat match goal with H : l !! _ = Some ?x |- _ => apply (Forall_lookup_1 _ _ _ _ Hl) in H; unfold chained in H; congruence end.
    - apply (Forall_lookup_1 _ _ _ _ Hl) in Hj. unfold chained in Hj. congruence. }
  rewrite E, Hj' in Hj. injection Hj as <-. rewrite Hp in Hp'. injection Hp' as Ei. pose proof (sd_ids s S) as I. clear -Ht Ht' Ei I.
  induction (x_timers s) as [|v l IH]; [by apply not_elem_of_nil in Ht|]. cbn in I. apply NoDup_cons in I as [Hv I].
  apply elem_of_cons in Ht as [->|Ht], Ht' as [->|Ht']; [done| | |by apply IH]; exfalso; apply Hv, list_elem_of_fmap; [by exists t' | by exists t].
Qed.

Lemma posted_first (s : page) (t : timer) : sound s -> posted_as t (x_jobs s) ->
  exists a j c, x_jobs s = a ++ j :: c /\ length a = t_job t /\ Forall settled a /\ Forall chained c /\ j_phase j = Posted (t_id t).
Proof.
  intros S (j & Hj & Hp). pose proof (sd_line s S) as L. revert Hj. generalize (t_job t). induction L as [i l Hi Hl IH|i id l Hi Hl|l Hl]; intros m Hj.
  - destruct m as [|m]; cbn in Hj; [simplify_eq; unfold settled in Hi; by rewrite Hp in Hi|]. destruct (IH m Hj) as (a & j' & c & -> & Hla & Ha & Hc & Hj').
    exists (i :: a), j', c. split_and!; [done | cbn; by rewrite Hla | by constructor | done | done].
  - destruct m as [|m]; cbn in Hj; [simplify_eq; by exists [], j, l|]. apply (Forall_lookup_1 _ _ _ _ Hl) in Hj. unfold chained in Hj. congruence.
  - apply (Forall_lookup_1 _ _ _ _ Hl) in Hj. unfold chained in Hj. congruence.
Qed.

Lemma on_time_end (k : nat) (b : Z) (s : page) (t : timer) (r : thrown conversion) :
  on_time k b s -> sound s -> t ∈ x_timers s -> on_time k b (end_call t r s).
Proof.
  intros [Hk Ht] S Hin. unfold on_time, end_call, resolve, forget, clearTimeout. cbn [set_field x_jobs x_timers x_now]. rewrite length_alter. split; [done|].
  pose proof (proj1 (Forall_forall _ _) (sd_due s S) t Hin) as Hdue. cbn beta in Hdue.
  assert (Hkeep : forall t', t' ∈ x_timers s -> t' <> t -> t' ∈ List.filter (fun u => negb (t_id u =? t_id t)) (x_timers s)).
  { intros t' Ht' Hne. apply list_elem_of_In, filter_In. split; [by apply list_elem_of_In|]. apply negb_true_iff, Z.eqb_neq. intros Ei. apply Hne.
    pose proof (sd_ids s S) as I. clear -Ht' Hin Ei I. induction (x_timers s) as [|v l IH]; [by apply not_elem_of_nil in Hin|]. cbn in I. apply NoDup_cons in I as [Hv I].
    apply elem_of_cons in Hin as [->|Hin], Ht' as [->|Ht']; [done| | |by apply IH]; exfalso; apply Hv, list_elem_of_fmap; [by exists t' | by exists t]. }
  destruct (proj1 (Forall_forall _ _) (sd_job s S) t Hin) as [Hp|(j & Hj & Hs)].
  - destruct (posted_first s t S Hp) as (a & j & c & E & El & Ha & Hc & Hj).
    assert (Hl : x_jobs s !! t_job t = Some j) by (rewrite E, <- El; by apply list_lookup_middle).
    pose proof (left_resolved r (x_jobs s) k (t_job t) j Hl) as Hleft. assert (Oj : open_call j = true) by (unfold open_call; by rewrite Hj).
    rewrite Oj in Hleft. cbn [andb] in Hleft. destruct (decide (left_to k (x_jobs s) = 0%nat)) as [H0|H0]; [left; lia|].
    assert (Hle : (t_job t <= k)%nat) by (rewrite <- El; rewrite E in H0; by eapply left_first). rewrite (proj2 (Nat.leb_le _ _) Hle) in Hleft.
    destruct Ht as [?|[(t' & Ht' & Hp' & Hb)|[Hno _]]]; [done| |by apply (none_posted _ t) in Hno]. rewrite <- (posted_once s t t' S Hin Ht' Hp Hp') in Hb. right. right. split.
    + rewrite E, <- El. assert (A : forall f, alter f (length a) (a ++ j :: c) = a ++ f j :: c).
      { intros f. clear. induction a as [|x a IH]; [done|]. cbn. by rewrite IH. }
      rewrite A. apply Forall_app. split; [eapply Forall_impl; [exact Ha | cbn; auto]|]. constructor; [left; apply resolved_settled|].
      eapply Forall_impl; [exact Hc | cbn; auto].
    + unfold X2T_TIMEOUT_MS in *. lia.
  - assert (Ej : alter (resolved r) (t_job t) (x_jobs s) = x_jobs s).
    { apply list_eq. intros i. rewrite resolve_lookup. destruct (decide (i = t_job t)) as [->|]; [|done]. rewrite Hj. cbn. unfold resolved, settled in *. by destruct (j_phase j). }
    rewrite Ej. destruct Ht as [?|[(t' & Ht' & Hp' & Hb)|Hno]]; [by left| |by right; right]. right. left. exists t'. split_and!; [|done|done].
    apply Hkeep; [done|]. intros ->. destruct Hp' as (j' & Hj' & Hp'). rewrite Hj in Hj'. injection Hj' as <-. unfold settled in Hs. by rewrite Hp' in Hs.
Qed.

Lemma on_time_step (k : nat) (b : Z) (s : page) (e : event) : on_time k b s -> sound s -> next_of (x_jobs s) 0 = None -> possible e s -> on_time k b (handle e s).
Proof.
  intros T S N He. apply (handle_keeps (on_time k b) (on_time k b) e); try done.
  - intros. by eapply on_time_run.
  - intros. by apply on_time_end.
  - intros s1 t T1 S1 Ht _. exact (on_time_end k b s1 t _ T1 S1 Ht).
  - clear. intros s j [Hk Ht] Hj _. unfold on_time. cbn [set_field x_jobs x_timers x_now]. rewrite left_snoc by done. split; [rewrite length_app; lia|].
    destruct Ht as [?|[(t & Hin & (i & Hi & Hp) & Hb)|[Hno Hb]]]; [by left | right; left | right; right].
    + exists t. split_and!; [done | | done]. exists i. split; [by apply lookup_app_l_Some | done].
    + split; [|done]. apply Forall_app. split; [done|]. constructor; [by right | constructor].
  - clear. intros s now [Hk Ht] S N _. unfold on_time. cbn [set_field x_jobs x_timers x_now]. split; [done|].
    destruct Ht as [?|[?|[Hno _]]]; [by left | by right; left |]. left. pose proof (next_spec _ 0 (sd_line s S)) as H. rewrite N in H.
    destruct H as [H|(a & j & c & id & E & _ & Hj & _)].
    + unfold left_to. clear -H. revert k. induction H as [|j l Hj _ IH]; intros k; [done|]. cbn [take List.filter].
      unfold open_call at 1. unfold settled in Hj. destruct (j_phase j); try done. destruct k as [|k]; [done|]. apply IH.
    + rewrite E in Hno. apply Forall_app in Hno as [_ Hno]. apply Forall_inv in Hno as [Hn|Hn]; unfold settled, chained in Hn; by rewrite Hj in Hn.
Qed.

(** ** Time goes on *)

Lemma steps_app (s s1 s2 : page) (l l' : list event) : steps s l s1 -> steps s1 l' s2 -> steps s (l ++ l') s2.
Proof. intros H. induction 1 as [s1|s1 l' s' e H' IH He]; [by rewrite app_nil_r|]. rewrite app_assoc. constructor; [by apply IH | done]. Qed.

(** The timers there are and can come, if nobody calls. *)
Definition to_come (s : page) : nat := (waiting_calls (x_jobs s) + length (x_timers s))%nat.

Lemma run_to_come (s : page) (a c : list job) (j : job) : x_jobs s = a ++ j :: c -> Forall settled a -> Forall chained (j :: c) ->
  to_come (run (length a) s) = to_come s.
Proof.
  intros E Ha Hc. destruct (run_next s a c j E Ha Hc) as (Et & _ & _ & _ & j' & Ej & Hj' & _). unfold to_come. rewrite Et, Ej, E, length_app, !waiting_calls_app. cbn [length].
  apply Forall_inv in Hc. unfold waiting_calls. cbn [List.filter]. rewrite Hc. cbn [length]. destruct (j_copies j); [rewrite Hj'; lia|].
  unfold settled in Hj'. destruct (j_phase j'); lia || done.
Qed.

Lemma waiting_resolved (r : thrown conversion) (l : list job) (k : nat) : (waiting_calls (alter (resolved r) k l) <= waiting_calls l)%nat.
Proof.
  revert k. induction l as [|j l IH]; intros [|k]; cbn; unfold waiting_calls in *; cbn; [done..| |].
  - pose proof (resolved_settled r j) as H. unfold settled in H. destruct (j_phase (resolved r j)); try done. destruct (j_phase j); cbn; lia.
  - specialize (IH k). change (list_alter (resolved r) k l) with (alter (resolved r) k l). destruct (j_phase j); cbn; lia.
Qed.

Lemma fire_to_come (s : page) (t : timer) : sound s -> t ∈ x_timers s -> (to_come (handle (EFire t) s) < to_come s)%nat.
Proof.
  intros S Ht. set (s1 := killWorker (end_call t (Err TOO_LONG) s)).
  assert (H1 : (to_come s1 < to_come s)%nat).
  { unfold s1, to_come, end_call, resolve, forget, clearTimeout, killWorker. cbn [set_field x_jobs x_timers]. pose proof (waiting_resolved (Err TOO_LONG) (x_jobs s) (t_job t)).
    enough (length (List.filter (fun u => negb (t_id u =? t_id t)%Z) (x_timers s)) < length (x_timers s))%nat by lia. clear -Ht.
    induction (x_timers s) as [|u l IH]; [by apply not_elem_of_nil in Ht|]. cbn [List.filter length].
    pose proof (List.filter_length_le (fun u => negb (t_id u =? t_id t)) l). destruct (Z.eqb_spec (t_id u) (t_id t)); cbn [negb length]; [lia|].
    apply elem_of_cons in Ht as [->|Ht]; [done|]. specialize (IH Ht). lia. }
  assert (S1 : sound s1) by (unfold s1; by destruct (end_one s t (Err TOO_LONG) S Ht)).
  change (handle (EFire t) s) with (microtasks s1).
  destruct (drain_keeps (fun s2 => to_come s2 = to_come s1) (length (x_jobs s1)) s1) as (E & _ & _); [|done|done|apply waiting_calls_le|].
  - intros s2 a j c E2 S2 Ej Ha Hc. rewrite <- E2. by eapply run_to_come.
  - unfold microtasks. lia.
Qed.

Lemma first_due (l : list timer) : l <> [] -> exists t, t ∈ l /\ Forall (fun u => t_due t <= t_due u) l.
Proof.
  induction l as [|u l IH]; [done|]. intros _. destruct l as [|v l]; [exists u; split; [by left | by repeat constructor]|].
  destruct IH as (t & Ht & Hl); [done|]. destruct (Z.le_ge_cases (t_due t) (t_due u)).
  - exists t. split; [by right | by constructor].
  - exists u. split; [by left|]. constructor; [done|]. eapply Forall_impl; [exact Hl|]. cbn. lia.
Qed.

Lemma time_goes_on (now : Z) (n : nat) (s : page) : (to_come s <= n)%nat -> sound s -> next_of (x_jobs s) 0 = None ->
  exists l s', steps s l s' /\ now <= x_now s'.
Proof.
  assert (Hdone : forall s, sound s -> Forall (fun t => now <= t_due t) (x_timers s) -> exists l s', steps s l s' /\ now <= x_now s').
  { intros s1 S Hf. exists ([] ++ [ETime (Z.max now (x_now s1))]). eexists. split; [constructor; [constructor|]|cbn; lia]. split; [lia|].
    apply Forall_forall. intros t Ht. pose proof (proj1 (Forall_forall _ _) Hf t Ht). pose proof (proj1 (Forall_forall _ _) (sd_due s1 S) t Ht). cbn in *. lia. }
  revert s. induction n as [|n IH]; intros s Hn S N.
  { apply Hdone; [done|]. unfold to_come in Hn. destruct (x_timers s) as [|? ?]; [constructor | cbn in Hn; lia]. }
  destruct (decide (x_timers s = [])) as [E|E]; [apply Hdone; [done | rewrite E; constructor]|].
  destruct (first_due _ E) as (t & Ht & Hmin). pose proof (proj1 (Forall_forall _ _) (sd_due s S) t Ht) as Hd. cbn in Hd.
  assert (H1 : steps s ([] ++ [ETime (t_due t)]) (handle (ETime (t_due t)) s)) by (constructor; [constructor | split; [lia | done]]).
  destruct (steps_sound _ _ _ H1 S N) as [S1 N1]. set (s1 := handle (ETime (t_due t)) s) in *.
  assert (H2 : steps s1 ([] ++ [EFire t]) (handle (EFire t) s1)) by (constructor; [constructor | split; [done | cbn; lia]]).
  destruct (steps_sound _ _ _ H2 S1 N1) as [S2 N2]. pose proof (fire_to_come s1 t S1 Ht) as Hlt. change (to_come s1) with (to_come s) in Hlt.
  destruct (IH (handle (EFire t) s1)) as (l & s' & Hl & Hnow); [lia | done | done|]. exists (([] ++ [ETime (t_due t)]) ++ ([] ++ [EFire t]) ++ l), s'.
  split; [|done]. eapply steps_app; [done|]. by eapply steps_app.
Qed.

(** C28: a conversion is answered.  Whatever the worker does - answers wrongly, breaks, stays silent - and whatever else is
    called: once more than three minutes have passed for each call that was not settled up to and including this one, this
    one is settled, with a document or an error; and time is never held up, so that moment comes. *)
Theorem conversions_are_answered (s : page) (k : nat) : reachable s -> (k < length (x_jobs s))%nat ->
  (forall l s', steps s l s' -> x_now s + Z.of_nat (left_to k (x_jobs s)) * X2T_TIMEOUT_MS < x_now s' ->
     exists j, x_jobs s' !! k = Some j /\ settled j)
  /\ forall now, exists l s', steps s l s' /\ now <= x_now s'.
Proof.
  intros R Hk. destruct (reachable_sound s R) as [S N]. split; [|intros now; by eapply time_goes_on].
  intros l s' Hs Hlate. set (b := x_now s + Z.of_nat (left_to k (x_jobs s)) * X2T_TIMEOUT_MS) in *.
  assert (T : on_time k b s).
  { split; [done|]. pose proof (next_spec _ 0 (sd_line s S)) as Hn. rewrite N in Hn. destruct Hn as [Hn|(a & j & c & id & E & _ & Hj & _)].
    - right. right. split; [eapply Forall_impl; [exact Hn | cbn; auto] | unfold b; lia].
    - right. left. assert (Hl : x_jobs s !! length a = Some j) by (rewrite E; by apply list_lookup_middle).
      destruct (sd_posted s S _ _ _ Hl Hj) as (t & Ht & <- & Ej). exists t. split; [done|]. split; [exists j; by rewrite Ej|].
      pose proof (proj1 (Forall_forall _ _) (sd_due s S) t Ht) as Hd. cbn in Hd. unfold b. lia. }
  assert (G : on_time k b s' /\ sound s').
  { clear Hlate. induction Hs as [s|s l s' e Hs IH He]; [done|]. destruct (IH R Hk S N T) as [T' S'].
    destruct (steps_sound _ _ _ Hs S N) as [_ N']. split; [by apply on_time_step|]. eapply (steps_sound s' _ ([] ++ [e])); [|done|done]. by constructor; [constructor|]. }
  destruct G as [[Hk' H] S']. apply lookup_lt_is_Some in Hk' as [j Hj]. exists j. split; [done|].
  assert (H0 : left_to k (x_jobs s') = 0%nat).
  { destruct H as [H|[(t & Ht & _ & Hb)|[_ Hb]]]; [done| |]; unfold X2T_TIMEOUT_MS in *; [|lia].
    pose proof (proj1 (Forall_forall _ _) (sd_due s' S') t Ht) as Hd. cbn in Hd. lia. }
  clear -H0 Hj. revert k H0 Hj. induction (x_jobs s') as [|i l IH]; intros k H0 Hj; [done|]. rewrite left_cons in H0.
  destruct k as [|k]; cbn in Hj; [|apply (IH k); [lia | done]]. injection Hj as ->. unfold open_call, settled in *. by destruct (j_phase j).
Qed.

(** ** Runs *)

Definition call (name : string) (copies : bool) : event := ECall (js name) (js "Editor.bin") [1; 2; 3] copies.
Definition after (l : list event) : page := fold_left (fun s e => handle e s) l empty_page.

Lemma after_snoc (l : list event) (e : event) : reachable (after l) -> possible e (after l) -> reachable (after (l ++ [e])).
Proof. intros [l' H] He. exists (l' ++ [e]). unfold after. rewrite fold_left_app. by constructor. Qed.

Lemma conversions_are_answered_witness :
  exists l s' j, steps (after [call "a.docx" true]) l s' /\ x_jobs s' !! 0%nat = Some j /\ settled j.
Proof.
  assert (R : reachable (after [call "a.docx" true])).
  { apply (after_snoc []); [exists []; constructor | done]. }
  destruct (conversions_are_answered (after [call "a.docx" true]) 0 R) as [Ha Ht]; [cbn; lia|].
  destruct (Ht 180001) as (l & s' & Hl & Hnow). destruct (Ha l s' Hl) as (j & Hj & Hs); [apply (Z.lt_le_trans _ 180001); [vm_compute; reflexivity | exact Hnow]|].
  exists l, s', j. split; [exact Hl | split; [exact Hj | exact Hs]].
Defined.

(** A defect of [x2tConvert].  Where the copy of a document does not fit into memory its call fails at once, but its timer
    stays: three minutes after that call it stops the worker, which by then converts another document, and that call hears
    nothing until its own three minutes are over. *)
Definition copy_fails : list event :=
  [call "big.docx" false; ETime 100000; call "b.docx" true; ETime 180000; EFire {| t_id := 1; t_due := 180000; t_job := 0 |}].

Example failed_copy_stops_the_worker :
  reachable (after copy_fails)
  /\ map j_phase (x_jobs (after copy_fails)) = [Settled (Err NO_MEMORY); Posted 2]
  /\ x_worker (after (take 4 copy_fails)) = Some 0%nat /\ x_worker (after copy_fails) = None.
Proof.
  split; [|vm_compute; done]. unfold copy_fails.
  apply (after_snoc [_; _; _; _]); [apply (after_snoc [_; _; _]); [apply (after_snoc [_; _]); [apply (after_snoc [_]); [apply (after_snoc []); [exists []; constructor | done]|]|]|]|]; vm_compute.
  - split; [done|]. repeat constructor. done.
  - done.
  - split; [done|]. repeat constructor; done.
  - split; [|done]. by left.
Qed.
